(* ===== verification/_CoqProject ===== *)
-Q . S2P
Prelude.v
Crc.v
StdText.v
Checksum.v
Calendar.v
S3Text.v
DirectoryListing.v
InodeStore.v
InodeSafety.v
ClockList.v
AwsSignature.v
SigV4.v
Interleave.v
IoMutex.v
SharedMutex.v
IoLoops.v
OpenRequests.v
OpenFiles.v
HttpPool.v
Uploads.v
Http1Request.v
Http1Client.v
Retry.v
S3Xml.v
NativeRename.v
CopyRename.v
S3Request.v
Express.v
CredentialSource.v
CredentialRefresh.v
CacheLayout.v
CacheTree.v
PrefetchBudget.v
ReceivePool.v
RangeStorage.v
CacheBitmap.v
CacheCapacity.v
CacheEntry.v
ObjectParts.v
CacheHeaders.v
CacheEntryLemmas.v
CacheEntryInv.v
CacheSteps.v
CacheChecks.v
CacheEvict.v
CacheWrites.v
CacheShared.v
CacheReplies.v
CacheClaims.v
