(* ===== verification/Prelude.v ===== *)
(** * ngs3fs: a verification library for an S3 file system

    ngs3fs mounts an S3 bucket through FUSE.  FUSE requests arrive at the handlers of
    [src/src/fuse.cpp], on threads or on io_uring reactors.  A read goes to the local cache
    ([src/src/cache.cpp]) or to transient read-ahead memory ([src/src/io.cpp]); what is missing
    is fetched by signed HTTP requests ([src/src/s3.cpp], [src/src/http.cpp]) over a pool of
    connections; writes are collected in the cache and uploaded in parts by a scheduler.
    Credentials come from [src/src/credentials.cpp].

    ** How the model is built

    Each file models one component.  Data keep the members of the C++ type; each function is
    one C++ function, or one critical section of a function that releases its mutex.  Integers
    are [Z] with the wrap-around of [uint32_t], [uint64_t] and [size_t] written out.  A function
    that throws returns a [result].  What a system call or another component returns is an
    argument, so a theorem holds for every outcome.  OpenSSL, xxHash and other libraries are
    classes of operations with the documented laws a theorem needs; every such class has a
    concrete instance in a witness.  Shared objects are transition systems: under a mutex the
    steps are critical sections (caches, budgets, pools, registries, the upload scheduler); for
    lock-free code the steps are single atomic operations and the clients run in every
    interleaving ([Interleave]).  Memory orders are not modelled: atomic operations are
    sequentially consistent.

    ** Files

    - [Prelude]: integers, exceptions, byte strings, vectors, sums, record update, tactics.
      [StdText]: the C++ text functions.  [Interleave]: clients of lock-free objects.
    - [Crc], [Checksum]: CRC tables, slicing updates, combination of part checksums and the
      streaming [DataChecksum] ([s3.cpp]).  The slicing updates equal a bit-serial CRC.
    - [Calendar]: date parsers and printers ([s3.cpp], [credentials.cpp]) against a calendar
      that counts days one by one.
    - [S3Text]: request paths, [Content-Range], listings, byte sizes, mount options.
    - [AwsSignature], [SigV4]: the published signature algorithm, and the signing code of
      [s3.cpp] that computes it; the key cache and the fast path for GET change no signature.
    - [IoMutex] ([io.hpp]), [SharedMutex] ([ReactorSharedMutex]), [HttpPool] ([fuse.cpp]):
      exclusion, and progress: while a client waits, some client can go on.
    - [Uploads] ([UploadScheduler]): the bound on uploads, exactly-once execution, no job left
      waiting beside an idle worker.
    - [OpenRequests], [OpenFiles] ([fuse.cpp]): the reference count that retires a handle once;
      the registry of open handles, passthrough selection, path mutation guards, renames.
    - [IoLoops] ([io.cpp], [http.cpp]): the loops that move an exact number of bytes, over any
      sequence of system call results: nothing is lost, repeated or misplaced, and they end.
    - [Http1Request], [Http1Client] ([http.cpp]): request heads and body framing of HTTP/1.1,
      read back by a reference server; the life of a connection over requests and uploads
      that may fail at any point.
    - [Retry], [S3Request], [Express] ([fuse.cpp]): the retry loop and the errno tables; the
      asynchronous request that completes once, bounds its attempts and gives back its
      connection; the shared S3 Express session with its one refresh and its waiters.
    - [S3Xml] ([s3.cpp], [fuse.cpp]): the XML answers over the tree of tinyxml2, listings read back
      page by page, sessions, uploads and probes.  [ObjectParts] ([fuse.cpp]): checksum manifests
      that cover their object, cached parts checked against them, and the parts that the recovery
      of an upload reuses.
    - [NativeRename], [CopyRename] ([fuse.cpp]): the service's own rename and the copy that replaces
      it: the source is deleted only after a confirmed copy.
    - [CredentialSource], [CredentialRefresh] ([credentials.cpp]): where credentials come from
      and to whom their secrets may be sent; refreshes before they expire.
    - [DirectoryListing] ([fuse.cpp]): the cached children of a directory: a refresh that is
      not overtaken shows exactly the listing and the local changes.
    - [InodeStore], [InodeSafety] ([fuse.cpp], [s3.cpp]): the inodes of a mount as a heap: lookups,
      pins, retirement and freeing.  No inode that is in use is freed while the mount runs, if
      whoever takes an inode out of a directory holds the directory; two callers do not.
    - [ClockList] ([fuse.cpp]): the ring of cached directories and the hand that chooses what to
      reclaim; no directory is passed over for ever.
    - [PrefetchBudget], [ReceivePool], [RangeStorage] ([io.cpp]): read-ahead memory: admission
      and accounting, the block pool, and the receive buffer that refines a byte string.
    - [CacheBitmap], [CacheCapacity], [CacheEntry] and the files [CacheEntryLemmas],
      [CacheEntryInv], [CacheSteps], [CacheChecks], [CacheEvict], [CacheWrites],
      [CacheShared], [CacheReplies], [CacheClaims] ([cache.cpp]): page states, capacity, and the
      operations of one cached object with the invariant every interleaving of its clients keeps.
    - [CacheLayout], [CacheTree] ([cache.cpp]): file names of keys, and the directory tree as a
      map from keys to files, with promotions that may fail half-way.
    - [CacheHeaders] ([cache.cpp]): the headers on disk byte by byte: which generation, which
      mount and which interrupted write they are accepted for, with a crash between any two
      stores.

    ** Bounds and fuel

    Loops that are not structural recurse on fuel: 20 decimal and 16 hexadecimal digits hold
    every 64-bit integer; scans of a text or a bitmap and transfers over a script of
    system calls get its length, and the theorems prove that this is enough.  Pages of parts are
    numbered up to 10,000, so 10,001 requests are enough.  Counters that
    could wrap are bounded by hypotheses of the theorems (fewer than [2 ^ 31 - 1] lock clients,
    [2 ^ 32] or [2 ^ 64] notifications).

    ** Not modelled

    Sockets, TLS and HTTP/2 framing (OpenSSL, nghttp2, llhttp and the kernel do the work);
    submission and completion queues of io_uring; the parsers of XML and JSON (tinyxml2, yyjson);
    spawning of credential processes and the web identity exchange; directory walks over the
    cache; the sequencing of system calls in FUSE handlers.  Stores to a mapping are seen in
    program order after a crash. *)

From stdpp Require Export base numbers list strings gmap sets.
From Stdlib Require Export ZArith Lia Ascii.

Declare Scope ngs3fs_scope.
Delimit Scope ngs3fs_scope with ngs3fs.
#[global] Open Scope Z_scope.

(** ** Machine integers

    [size_t] and [uint64_t] are both 64 bits wide on the supported targets.  They are kept
    as [Z] with the wrap-around of unsigned C++ arithmetic written out by [u64] and [u32]. *)

Definition u8_of (x : Z) : Z := x mod 2 ^ 8.
Definition u32 (x : Z) : Z := x mod 2 ^ 32.
Definition u64 (x : Z) : Z := x mod 2 ^ 64.
Definition UINT32_MAX : Z := 2 ^ 32 - 1.
Definition UINT64_MAX : Z := 2 ^ 64 - 1.
Definition SIZE_MAX : Z := UINT64_MAX.
Definition INT64_MAX : Z := 2 ^ 63 - 1.
Definition INT64_MIN : Z := - 2 ^ 63.

Abbreviation is_u64 x := (0 <= x < 2 ^ 64).
Abbreviation is_u32 x := (0 <= x < 2 ^ 32).

Lemma u64_small x : is_u64 x -> u64 x = x.
Proof. intros; apply Z.mod_small; lia. Qed.

Lemma u64_range x : is_u64 (u64 x).
Proof. apply Z.mod_pos_bound; lia. Qed.

Lemma u32_small x : is_u32 x -> u32 x = x.
Proof. intros; apply Z.mod_small; lia. Qed.

Lemma u32_range x : is_u32 (u32 x).
Proof. apply Z.mod_pos_bound; lia. Qed.

(** ** Exceptions

    A C++ function that may throw returns a [result].  The constructors are the exception
    classes the sources throw; [SystemError] carries the errno value. *)

Inductive exn :=
  | InvalidArgument
  | OutOfRange
  | OverflowError
  | RuntimeError
  | LogicError
  | SystemError (errno : Z).

Inductive result (A : Type) :=
  | Ok (a : A)
  | Throw (e : exn).
Arguments Ok {A} a.
Arguments Throw {A} e.

#[global] Instance exn_eq_dec : EqDecision exn.
Proof. solve_decision. Defined.

Definition rbind {A B} (m : result A) (k : A -> result B) : result B :=
  match m with Ok a => k a | Throw e => Throw e end.

Notation "'let?' x ':=' m 'in' k" := (rbind m (fun x => k))
  (at level 10, x binder, m at level 100, k at level 200) : ngs3fs_scope.
#[global] Open Scope ngs3fs_scope.

(** Unlike [injection], leaves the two values as they are written. *)
Lemma Ok_inj {A} (a b : A) : Ok a = Ok b -> a = b.
Proof. congruence. Qed.

Lemma rbind_ok {A B} (m : result A) (k : A -> result B) b :
  rbind m k = Ok b <-> exists a, m = Ok a /\ k a = Ok b.
Proof.
  destruct m as [a|e]; cbn; split; [by exists a| |done|]; by intros (? & ? & ?); simplify_eq.
Qed.

(** Errno values used by the sources (Linux numbering). *)
Definition EPERM : Z := 1.
Definition ENOENT : Z := 2.
Definition EINTR : Z := 4.
Definition EIO : Z := 5.
Definition EBADF : Z := 9.
Definition EAGAIN : Z := 11.
Definition ENOMEM : Z := 12.
Definition EACCES : Z := 13.
Definition EBUSY : Z := 16.
Definition EEXIST : Z := 17.
Definition EXDEV : Z := 18.
Definition EINVAL : Z := 22.
Definition EMFILE : Z := 24.
Definition EFBIG : Z := 27.
Definition ENOSPC : Z := 28.
Definition EDEADLK : Z := 35.
Definition ENAMETOOLONG : Z := 36.
Definition ENOSYS : Z := 38.
Definition EOVERFLOW : Z := 75.
Definition EOPNOTSUPP : Z := 95.
Definition ECONNRESET : Z := 104.
Definition ETIMEDOUT : Z := 110.
Definition ESTALE : Z := 116.
Definition EREMOTEIO : Z := 121.
Definition EDQUOT : Z := 122.
Definition ECANCELED : Z := 125.

(** ** Byte strings

    [std::string], [std::string_view] and byte spans are lists of 8-bit characters; [u8] is
    the value of [u_char(c)]. *)

Abbreviation bytes := (list ascii).
Definition lit (s : string) : bytes := String.list_ascii_of_string s.
Definition u8 (c : ascii) : Z := Z.of_N (N_of_ascii c).

Lemma u8_range c : 0 <= u8 c < 256.
Proof. unfold u8. pose proof (N_ascii_bounded c). lia. Qed.

Lemma u8_inj c d : u8 c = u8 d -> c = d.
Proof.
  unfold u8; intros H%N2Z.inj.
  rewrite <- (ascii_N_embedding c), <- (ascii_N_embedding d). congruence.
Qed.

Definition chr (x : Z) : ascii := ascii_of_N (Z.to_N x).

Lemma u8_chr x : 0 <= x < 256 -> u8 (chr x) = x.
Proof. intros; unfold u8, chr. rewrite N_ascii_embedding; lia. Qed.

Lemma chr_u8 c : chr (u8 c) = c.
Proof. unfold u8, chr. rewrite N2Z.id. apply ascii_N_embedding. Qed.

(** ** Loops

    [for (i = a; i < b; ++i)] ranges over [zrange a b]. *)

Definition zrange (a b : Z) : list Z := seqZ a (b - a).

Lemma elem_of_zrange a b i : i ∈ zrange a b <-> a <= i < b.
Proof. unfold zrange. rewrite elem_of_seqZ. lia. Qed.

Lemma zrange_nil a b : b <= a -> zrange a b = [].
Proof. intros; unfold zrange; apply seqZ_nil; lia. Qed.

Lemma zrange_cons a b : a < b -> zrange a b = a :: zrange (a + 1) b.
Proof.
  intros; unfold zrange; rewrite seqZ_cons by lia.
  f_equal; f_equal; lia.
Qed.

Lemma zrange_app a b c : a <= b <= c -> zrange a c = zrange a b ++ zrange b c.
Proof.
  intros; unfold zrange.
  replace (c - a) with ((b - a) + (c - b)) by lia.
  rewrite seqZ_app by lia. do 2 f_equal; lia.
Qed.

Lemma zrange_snoc a b : a <= b -> zrange a (b + 1) = zrange a b ++ [b].
Proof.
  intros. rewrite (zrange_app a b) by lia. f_equal.
  rewrite zrange_cons by lia. rewrite zrange_nil by lia. done.
Qed.

Lemma length_zrange a b : length (zrange a b) = Z.to_nat (b - a).
Proof. apply length_seqZ. Qed.

(** ** Vectors indexed by [size_t] *)

Definition vget {A} (d : A) (l : list A) (i : Z) : A := default d (l !! Z.to_nat i).
Definition vset {A} (l : list A) (i : Z) (x : A) : list A := <[Z.to_nat i := x]> l.
Definition vsize {A} (l : list A) : Z := Z.of_nat (length l).

Lemma vsize_nonneg {A} (l : list A) : 0 <= vsize l.
Proof. unfold vsize; lia. Qed.

Lemma vsize_vset {A} (l : list A) i x : vsize (vset l i x) = vsize l.
Proof. unfold vsize, vset. by rewrite length_insert. Qed.

Lemma vget_vset {A} (d : A) l i j x :
  0 <= i < vsize l -> 0 <= j ->
  vget d (vset l i x) j = if i =? j then x else vget d l j.
Proof.
  unfold vget, vset, vsize; intros.
  destruct (Z.eqb_spec i j) as [->|].
  - by rewrite list_lookup_insert_eq by lia.
  - rewrite list_lookup_insert_ne by lia. done.
Qed.

Lemma vget_lookup {A} (d : A) l i :
  0 <= i < vsize l -> l !! Z.to_nat i = Some (vget d l i).
Proof.
  unfold vget, vsize; intros.
  destruct (lookup_lt_is_Some_2 l (Z.to_nat i)) as [x Hx]; [lia|].
  by rewrite Hx.
Qed.

Lemma vget_out {A} (d : A) l i : vsize l <= i -> vget d l i = d.
Proof. unfold vget, vsize; intros. rewrite lookup_ge_None_2; [done|lia]. Qed.

Lemma vget_cons {A} (d x : A) l i : 0 <= i -> vget d (x :: l) (i + 1) = vget d l i.
Proof. intros. unfold vget. by replace (Z.to_nat (i + 1)) with (S (Z.to_nat i)) by lia. Qed.

Lemma vget_map_zrange {A} (d : A) (f : Z -> A) a b i :
  0 <= i < b - a -> vget d (map f (zrange a b)) i = f (a + i).
Proof.
  intros. unfold vget, zrange. change (map f) with (fmap (M:=list) f).
  rewrite list_lookup_fmap, lookup_seqZ_lt by lia. cbn. f_equal. lia.
Qed.

Lemma vget_map {A B} (d : A) (e : B) (f : A -> B) l i :
  0 <= i < vsize l -> vget e (map f l) i = f (vget d l i).
Proof.
  intros. unfold vget at 1. change (map f) with (fmap (M:=list) f).
  by rewrite list_lookup_fmap, (vget_lookup d) by done.
Qed.

(** ** Record update

    [r <| f := v |>] is the assignment [r.f = v].  A record type declares how it is rebuilt
    from its projections ([Settable]); the setter of a field is derived from that. *)

Class Settable (R : Type) := rebuild : R -> R.
Class Setter {R T : Type} (proj : R -> T) := field_set : (T -> T) -> R -> R.

Ltac derive_setter :=
  lazymatch goal with
  | |- @Setter ?R ?T ?proj =>
      let f := fresh "f" in let r := fresh "r" in intros f r;
      let e := eval hnf in (rebuild (R := R) r) in
      lazymatch eval pattern (proj r) in e with
      | ?g _ => let t := eval cbv beta in (g (f (proj r))) in exact t
      end
  end.
#[global] Hint Extern 1 (Setter _) => derive_setter : typeclass_instances.

#[warnings="-postfix-notation-not-level-1"]
Notation "r <| f := v |>" := (field_set (proj := f) (fun _ => v) r)
  (at level 12, f constr at next level, left associativity) : ngs3fs_scope.

(** ** Sums *)

Definition zsum {A} (f : A -> Z) (l : list A) : Z := foldr (fun x acc => f x + acc) 0 l.

Lemma zsum_cons {A} (f : A -> Z) x l : zsum f (x :: l) = f x + zsum f l.
Proof. done. Qed.

Lemma zsum_app {A} (f : A -> Z) a b : zsum f (a ++ b) = zsum f a + zsum f b.
Proof. induction a as [|x a IH]; cbn; [done|]. unfold zsum in *. lia. Qed.

Lemma zsum_nonneg {A} (f : A -> Z) l : (forall x, x ∈ l -> 0 <= f x) -> 0 <= zsum f l.
Proof.
  induction l as [|x l IH]; intros H; [done|]. rewrite zsum_cons.
  pose proof (H x ltac:(set_solver)). specialize (IH ltac:(set_solver)). lia.
Qed.

Lemma zsum_le {A} (f g : A -> Z) l : (forall x, x ∈ l -> f x <= g x) -> zsum f l <= zsum g l.
Proof.
  induction l as [|x l IH]; intros H; [done|]. rewrite !zsum_cons.
  pose proof (H x ltac:(set_solver)). specialize (IH ltac:(set_solver)). lia.
Qed.

Lemma zsum_ext {A} (f g : A -> Z) l : (forall x, x ∈ l -> f x = g x) -> zsum f l = zsum g l.
Proof.
  intros H. assert (zsum f l <= zsum g l) by (apply zsum_le; intros; rewrite H by done; lia).
  assert (zsum g l <= zsum f l) by (apply zsum_le; intros; rewrite H by done; lia). lia.
Qed.

Lemma zsum_zero {A} (f : A -> Z) l : (forall x, x ∈ l -> f x = 0) -> zsum f l = 0.
Proof.
  intros H. rewrite (zsum_ext f (fun _ => 0)) by done. clear. induction l as [|x l IH]; [done|].
  rewrite zsum_cons, IH. done.
Qed.

Lemma zsum_elem {A} (f : A -> Z) l x : (forall y, y ∈ l -> 0 <= f y) -> x ∈ l -> f x <= zsum f l.
Proof.
  intros Hp (l1 & l2 & ->)%list_elem_of_split. rewrite zsum_app, zsum_cons.
  assert (0 <= zsum f l1) by (apply zsum_nonneg; set_solver).
  assert (0 <= zsum f l2) by (apply zsum_nonneg; set_solver). lia.
Qed.

Lemma zsum_perm {A} (f : A -> Z) l l' : l ≡ₚ l' -> zsum f l = zsum f l'.
Proof. induction 1; rewrite ?zsum_cons; lia. Qed.

(** [std::erase] of a value that does not occur, or occurs once. *)
Lemma erase_absent (l : list Z) h : h ∉ l -> filter (fun g => g <> h) l = l.
Proof.
  intros Hl. induction l as [|x l IH]; [done|]. rewrite filter_cons_True by set_solver. f_equal. set_solver.
Qed.

Lemma zsum_erase (f : Z -> Z) l h :
  NoDup l -> h ∈ l -> zsum f (filter (fun g => g <> h) l) = zsum f l - f h.
Proof.
  intros Hd (a & b & ->)%list_elem_of_split. rewrite NoDup_app, NoDup_cons in Hd.
  destruct Hd as (_ & Ha & Hb & _). rewrite filter_app, filter_cons_False by tauto.
  rewrite !erase_absent by set_solver. rewrite !zsum_app, zsum_cons. lia.
Qed.

(** ** Automation *)

Create HintDb ngs3fs discriminated.

(** Case analysis on the integer and boolean tests that guard the code. *)
Ltac bool_case :=
  repeat match goal with
  | H : (_ && _)%bool = true |- _ => apply andb_true_iff in H; destruct H
  | H : (_ || _)%bool = false |- _ => apply orb_false_iff in H; destruct H
  | H : negb _ = true |- _ => apply negb_true_iff in H
  | H : negb _ = false |- _ => apply negb_false_iff in H
  | H : (_ =? _) = true |- _ => apply Z.eqb_eq in H
  | H : (_ =? _) = false |- _ => apply Z.eqb_neq in H
  | H : (_ <? _) = true |- _ => apply Z.ltb_lt in H
  | H : (_ <? _) = false |- _ => apply Z.ltb_ge in H
  | H : (_ <=? _) = true |- _ => apply Z.leb_le in H
  | H : (_ <=? _) = false |- _ => apply Z.leb_gt in H
  | H : (_ >? _) = true |- _ => rewrite Z.gtb_ltb in H
  | H : (_ >? _) = false |- _ => rewrite Z.gtb_ltb in H
  | H : (_ >=? _) = true |- _ => rewrite Z.geb_leb in H
  | H : (_ >=? _) = false |- _ => rewrite Z.geb_leb in H
  end.

(** Case analysis on the [if]s and [match]es of the goal and the hypotheses. *)
Ltac split_tests :=
  repeat (case_match; simplify_eq/=; bool_case; try lia).

(** Equality of words, bit by bit. *)
Create Rewrite HintDb zbits.
#[export] Hint Rewrite Z.lxor_spec Z.land_spec Z.lor_spec Z.ldiff_spec Z.testbit_0_l : zbits.
#[export] Hint Rewrite Z.shiftr_spec Z.shiftl_spec Z.bits_m1 using lia : zbits.
Ltac zbitwise :=
  apply Z.bits_inj'; intros ?n ?Hn; autorewrite with zbits.

(** Bit [n] of a word below [2 ^ w] is clear from bit [w] upwards. *)
Lemma testbit_high x w n : 0 <= x < 2 ^ w -> 0 <= w <= n -> Z.testbit x n = false.
Proof.
  intros Hx Hn. rewrite <- (Z.mod_small x (2 ^ w)) by lia.
  apply Z.mod_pow2_bits_high; lia.
Qed.

(** A word whose bits vanish from [w] upwards is below [2 ^ w]. *)
Lemma bits_bound x w :
  0 <= w -> 0 <= x -> (forall n, w <= n -> Z.testbit x n = false) -> x < 2 ^ w.
Proof.
  intros Hw Hx H. destruct (Z.eq_dec x 0) as [->|]; [apply Z.pow_pos_nonneg; lia|].
  apply Z.log2_lt_pow2; [lia|].
  destruct (Z.lt_ge_cases (Z.log2 x) w) as [|Hge]; [done|].
  specialize (H _ Hge). rewrite Z.bit_log2 in H by lia. discriminate.
Qed.

Lemma lxor_range w a b :
  0 <= w -> 0 <= a < 2 ^ w -> 0 <= b < 2 ^ w -> 0 <= Z.lxor a b < 2 ^ w.
Proof.
  intros Hw Ha Hb. assert (0 <= Z.lxor a b) by (apply Z.lxor_nonneg; lia).
  split; [done|]. apply bits_bound; [done|done|].
  intros n Hn. rewrite Z.lxor_spec, !(testbit_high _ w) by lia. done.
Qed.
