(* ===== verification/Crc.v ===== *)
(** * Checksums: CRC tables, slicing-by-8 updates and CRC combination

    Models the CRC part of [src/src/s3.cpp]: [make_crc_tables], [load_le32]/[load_le64],
    [update_crc32]/[update_crc64], [gf2_matrix_times], [gf2_matrix_square] and
    [combine_crc64].  The specification is the bit-at-a-time CRC register [crc_bits]. *)

From S2P Require Import Prelude.

(** ** The sources *)

(** One round of the inner loop of [make_crc_tables]:
    [value = (value >> 1) ^ ((value & 1) ? polynomial : 0)]. *)
Definition crc_round (polynomial value : Z) : Z :=
  Z.lxor (Z.shiftr value 1) (if Z.land value 1 =? 0 then 0 else polynomial).

(** [make_crc_tables]: eight tables of 256 entries, [tables[slice][i]]. *)
Definition crc_table0 (polynomial : Z) : list Z :=
  map (fun i => Nat.iter 8 (crc_round polynomial) i) (zrange 0 256).

Definition crc_next_table (table0 previous : list Z) : list Z :=
  map (fun i => let p := vget 0 previous i in
                Z.lxor (vget 0 table0 (Z.land p 255)) (Z.shiftr p 8)) (zrange 0 256).

Fixpoint crc_tables_from (n : nat) (table0 current : list Z) : list (list Z) :=
  match n with
  | O => []
  | S n => current :: crc_tables_from n table0 (crc_next_table table0 current)
  end.

Definition make_crc_tables (polynomial : Z) : list (list Z) :=
  let table0 := crc_table0 polynomial in crc_tables_from 8 table0 table0.

(** [tables[slice][i]]. *)
Definition crc_entry (tables : list (list Z)) (slice i : Z) : Z :=
  vget 0 (vget [] tables slice) i.

Definition load_le32 (d0 d1 d2 d3 : ascii) : Z :=
  Z.lor (Z.lor (Z.lor (u8 d0) (Z.shiftl (u8 d1) 8)) (Z.shiftl (u8 d2) 16))
        (Z.shiftl (u8 d3) 24).

Definition load_le64 (d0 d1 d2 d3 d4 d5 d6 d7 : ascii) : Z :=
  Z.lor (load_le32 d0 d1 d2 d3) (Z.shiftl (load_le32 d4 d5 d6 d7) 32).

(** The byte-at-a-time loop that ends both update functions. *)
Definition crc_step (tables : list (list Z)) (crc : Z) (d : ascii) : Z :=
  Z.lxor (crc_entry tables 0 (Z.land (Z.lxor crc (u8 d)) 255)) (Z.shiftr crc 8).

Fixpoint update_crc32_loop (tables : list (list Z)) (crc : Z) (data : bytes) : Z :=
  match data with
  | d0 :: d1 :: d2 :: d3 :: d4 :: d5 :: d6 :: d7 :: rest =>
      let value := Z.lxor crc (load_le32 d0 d1 d2 d3) in
      let T := crc_entry tables in
      update_crc32_loop tables
        (Z.lxor (Z.lxor (Z.lxor (Z.lxor (Z.lxor (Z.lxor (Z.lxor
           (T 7 (Z.land value 255))
           (T 6 (Z.land (Z.shiftr value 8) 255)))
           (T 5 (Z.land (Z.shiftr value 16) 255)))
           (T 4 (Z.shiftr value 24)))
           (T 3 (u8 d4))) (T 2 (u8 d5))) (T 1 (u8 d6))) (T 0 (u8 d7))) rest
  | _ => fold_left (crc_step tables) data crc
  end.

Definition update_crc32 (polynomial crc : Z) (data : bytes) : Z :=
  update_crc32_loop (make_crc_tables polynomial) crc data.

Fixpoint update_crc64_loop (tables : list (list Z)) (crc : Z) (data : bytes) : Z :=
  match data with
  | d0 :: d1 :: d2 :: d3 :: d4 :: d5 :: d6 :: d7 :: rest =>
      let value := Z.lxor crc (load_le64 d0 d1 d2 d3 d4 d5 d6 d7) in
      let T := crc_entry tables in
      update_crc64_loop tables
        (Z.lxor (Z.lxor (Z.lxor (Z.lxor (Z.lxor (Z.lxor (Z.lxor
           (T 7 (Z.land value 255))
           (T 6 (Z.land (Z.shiftr value 8) 255)))
           (T 5 (Z.land (Z.shiftr value 16) 255)))
           (T 4 (Z.land (Z.shiftr value 24) 255)))
           (T 3 (Z.land (Z.shiftr value 32) 255)))
           (T 2 (Z.land (Z.shiftr value 40) 255)))
           (T 1 (Z.land (Z.shiftr value 48) 255)))
           (T 0 (Z.shiftr value 56))) rest
  | _ => fold_left (crc_step tables) data crc
  end.

Definition update_crc64 (polynomial crc : Z) (data : bytes) : Z :=
  update_crc64_loop (make_crc_tables polynomial) crc data.

(** [while (vector != 0)]: the loop visits [matrix[0]], [matrix[1]], ... in order, so it is
    a traversal of the rows. *)
Fixpoint gf2_matrix_times_loop (matrix : list Z) (vector sum : Z) : Z :=
  match matrix with
  | [] => sum
  | row :: rows =>
      if vector =? 0 then sum
      else gf2_matrix_times_loop rows (Z.shiftr vector 1)
             (if Z.land vector 1 =? 0 then sum else Z.lxor sum row)
  end.

Definition gf2_matrix_times (matrix : list Z) (vector : Z) : Z :=
  gf2_matrix_times_loop matrix vector 0.

Definition gf2_matrix_square (matrix : list Z) : list Z :=
  map (gf2_matrix_times matrix) matrix.

(** The [do ... while (second_length != 0)] loop of [combine_crc64].  One turn consumes two
    bits of the length; 32 turns exhaust a [uint64_t]. *)
Fixpoint combine_crc64_loop (fuel : nat) (odd : list Z) (first second_length : Z) : Z :=
  match fuel with
  | O => first
  | S fuel =>
      let even := gf2_matrix_square odd in
      let first := if Z.land second_length 1 =? 0 then first
                   else gf2_matrix_times even first in
      let second_length := Z.shiftr second_length 1 in
      if second_length =? 0 then first
      else
        let odd := gf2_matrix_square even in
        let first := if Z.land second_length 1 =? 0 then first
                     else gf2_matrix_times odd first in
        let second_length := Z.shiftr second_length 1 in
        if second_length =? 0 then first
        else combine_crc64_loop fuel odd first second_length
  end.

(** The operator of one zero bit: [odd[0] = polynomial; odd[bit] = 1 << (bit - 1)]. *)
Definition crc64_bit_matrix (polynomial : Z) : list Z :=
  polynomial :: map (fun bit => Z.shiftl 1 (bit - 1)) (zrange 1 64).

(** [ChecksumAlgorithm] of s3.hpp. *)
Inductive ChecksumAlgorithm :=
  | CHECKSUM_AUTO
  | CHECKSUM_PROTOCOL_DEFAULT
  | CHECKSUM_NONE
  | CHECKSUM_CRC32
  | CHECKSUM_CRC32C
  | CHECKSUM_CRC64NVME
  | CHECKSUM_SHA1
  | CHECKSUM_SHA256
  | CHECKSUM_MD5
  | CHECKSUM_XXHASH64
  | CHECKSUM_XXHASH3
  | CHECKSUM_XXHASH128
  | CHECKSUM_SHA512
  | CHECKSUM_CRC64XZ.

#[global] Instance ChecksumAlgorithm_eq_dec : EqDecision ChecksumAlgorithm.
Proof. solve_decision. Defined.

Definition combine_crc64_with (polynomial first second second_length : Z) : Z :=
  let odd := crc64_bit_matrix polynomial in
  let even := gf2_matrix_square odd in
  let odd := gf2_matrix_square even in
  Z.lxor (combine_crc64_loop 32 odd first second_length) second.

Definition combine_crc64 (algorithm : ChecksumAlgorithm)
    (first second second_length : Z) : result Z :=
  if second_length =? 0 then Ok first
  else match algorithm with
  | CHECKSUM_CRC64NVME =>
      Ok (combine_crc64_with 0x9a6c9329ac4bc9b5 first second second_length)
  | CHECKSUM_CRC64XZ =>
      Ok (combine_crc64_with 0xc96c5795d7870f42 first second second_length)
  | _ => Throw InvalidArgument
  end.

(** ** Specification: the bit-serial register

    [crc_bits p n x] runs [n] rounds of the shift register; feeding one byte xors it into
    the low end and runs eight rounds. *)

Definition crc_bits (polynomial : Z) (n : nat) (value : Z) : Z :=
  Nat.iter n (crc_round polynomial) value.

Definition crc_ref (polynomial crc : Z) (data : bytes) : Z :=
  fold_left (fun crc d => crc_bits polynomial 8 (Z.lxor crc (u8 d))) data crc.

(** ** Linearity of the register *)

Lemma land_1_testbit v : (Z.land v 1 =? 0) = negb (Z.testbit v 0).
Proof.
  change 1 with (Z.ones 1) at 1. rewrite Z.land_ones, Z.bit0_odd, Zodd_mod by lia.
  pose proof (Z.mod_pos_bound v 2 eq_refl).
  change (2 ^ 1) with 2. destruct (Z.eqb_spec (v mod 2) 0), (Z.eqb_spec (v mod 2) 1); lia || done.
Qed.

Lemma crc_round_testbit p v :
  crc_round p v = Z.lxor (Z.shiftr v 1) (if Z.testbit v 0 then p else 0).
Proof. unfold crc_round. rewrite land_1_testbit. by destruct (Z.testbit v 0). Qed.

Section Linear.
Context (p : Z).

Lemma crc_round_lxor a b :
  crc_round p (Z.lxor a b) = Z.lxor (crc_round p a) (crc_round p b).
Proof.
  rewrite !crc_round_testbit, Z.lxor_spec, Z.shiftr_lxor.
  zbitwise. destruct (Z.testbit a 0), (Z.testbit b 0); cbn; autorewrite with zbits;
  destruct (Z.testbit a (n + 1)), (Z.testbit b (n + 1)), (Z.testbit p n); done.
Qed.

Lemma crc_bits_S n x : crc_bits p (S n) x = crc_round p (crc_bits p n x).
Proof. done. Qed.

Lemma crc_bits_lxor n a b :
  crc_bits p n (Z.lxor a b) = Z.lxor (crc_bits p n a) (crc_bits p n b).
Proof.
  induction n as [|n IH]; [done|]. by rewrite !crc_bits_S, IH, crc_round_lxor.
Qed.

Lemma crc_bits_0 n : crc_bits p n 0 = 0.
Proof. induction n as [|n IH]; [done|]. by rewrite crc_bits_S, IH. Qed.

Lemma crc_bits_add m n x : crc_bits p (m + n) x = crc_bits p m (crc_bits p n x).
Proof. unfold crc_bits. by rewrite Nat.iter_add. Qed.

(** Bits above the register's reach only move down. *)
Lemma crc_round_shiftl x n :
  0 < n -> crc_round p (Z.shiftl x n) = Z.shiftl x (n - 1).
Proof.
  intros. rewrite crc_round_testbit, Z.shiftl_spec_low by lia.
  rewrite Z.lxor_0_r, Z.shiftr_shiftl_l by lia. done.
Qed.

Lemma crc_bits_shiftl n x k :
  Z.of_nat n <= k -> crc_bits p n (Z.shiftl x k) = Z.shiftl x (k - Z.of_nat n).
Proof.
  induction n as [|n IH]; intros Hn; [by rewrite Z.sub_0_r|].
  rewrite crc_bits_S, IH, crc_round_shiftl by lia. f_equal; lia.
Qed.

Lemma crc_bits_shiftl_all n x : crc_bits p n (Z.shiftl x (Z.of_nat n)) = x.
Proof. rewrite crc_bits_shiftl, Z.sub_diag by lia. apply Z.shiftl_0_r. Qed.
End Linear.

(** ** Ranges *)

Lemma crc_round_range w p v :
  0 < w -> 0 <= p < 2 ^ w -> 0 <= v < 2 ^ w -> 0 <= crc_round p v < 2 ^ w.
Proof.
  intros Hw Hp Hv. unfold crc_round. apply lxor_range; [lia| |case_match; lia].
  rewrite Z.shiftr_div_pow2 by lia. change (2 ^ 1) with 2.
  split; [apply Z.div_pos; lia|]. apply Z.div_lt_upper_bound; lia.
Qed.

Lemma crc_bits_range w p n v :
  0 < w -> 0 <= p < 2 ^ w -> 0 <= v < 2 ^ w -> 0 <= crc_bits p n v < 2 ^ w.
Proof.
  intros Hw Hp Hv. induction n as [|n IH]; [done|].
  rewrite crc_bits_S. by apply crc_round_range.
Qed.

(** ** The tables *)

(** A word split at bit [k]. *)
Lemma split_low v k :
  0 <= k -> v = Z.lxor (Z.land v (Z.ones k)) (Z.shiftl (Z.shiftr v k) k).
Proof.
  intros. zbitwise. destruct (Z.lt_ge_cases n k).
  - rewrite Z.ones_spec_low, (Z.testbit_neg_r _ (n - k)) by lia.
    by rewrite andb_true_r, xorb_false_r.
  - rewrite Z.ones_spec_high by lia. autorewrite with zbits.
    rewrite andb_false_r, xorb_false_l. f_equal. lia.
Qed.

(** One byte step through table 0 is eight register rounds. *)
Lemma crc_bits_8_table p v :
  crc_bits p 8 v = Z.lxor (crc_bits p 8 (Z.land v 255)) (Z.shiftr v 8).
Proof.
  rewrite (split_low v 8) at 1 by lia. rewrite crc_bits_lxor.
  f_equal. apply (crc_bits_shiftl_all p 8).
Qed.

Lemma land_255_range v : 0 <= Z.land v 255 < 256.
Proof. change 255 with (Z.ones 8). rewrite Z.land_ones by lia. apply Z.mod_pos_bound. lia. Qed.

Lemma crc_table0_spec p i : 0 <= i < 256 -> vget 0 (crc_table0 p) i = crc_bits p 8 i.
Proof. intros. unfold crc_table0, crc_bits. rewrite vget_map_zrange, Z.add_0_l by lia. reflexivity. Qed.

Definition table_ok (p : Z) (k : nat) (table : list Z) : Prop :=
  forall i, 0 <= i < 256 -> vget 0 table i = crc_bits p (8 * k) i.

Lemma crc_next_table_ok p k table :
  table_ok p k table -> table_ok p (S k) (crc_next_table (crc_table0 p) table).
Proof.
  intros Hk i Hi. unfold crc_next_table. rewrite vget_map_zrange, Z.add_0_l by done. cbv zeta.
  rewrite Hk, crc_table0_spec by (done || apply land_255_range).
  replace (8 * S k)%nat with (8 + 8 * k)%nat by lia.
  by rewrite crc_bits_add, <- crc_bits_8_table.
Qed.

Lemma crc_tables_from_ok p n k table slice :
  table_ok p k table -> (slice < n)%nat ->
  table_ok p (k + slice) (default [] (crc_tables_from n (crc_table0 p) table !! slice)).
Proof.
  revert k table slice. induction n as [|n IH]; intros k table slice Hk Hs; [lia|].
  destruct slice as [|slice]; cbn [crc_tables_from lookup list_lookup].
  - by rewrite Nat.add_0_r.
  - replace (k + S slice)%nat with (S k + slice)%nat by lia.
    apply IH; [by apply crc_next_table_ok|lia].
Qed.

(** [tables[s][i]] runs [8 * (s + 1)] rounds on [i]. *)
Lemma crc_entry_spec p s i :
  (s < 8)%nat -> 0 <= i < 256 ->
  crc_entry (make_crc_tables p) (Z.of_nat s) i = crc_bits p (8 * S s) i.
Proof.
  intros Hs Hi. unfold crc_entry, make_crc_tables, vget at 2. rewrite Nat2Z.id.
  apply (crc_tables_from_ok p 8 1 (crc_table0 p) s); [|lia|done].
  intros j Hj. by apply crc_table0_spec.
Qed.

Lemma crc_step_spec p crc d :
  crc_step (make_crc_tables p) crc d = crc_bits p 8 (Z.lxor crc (u8 d)).
Proof.
  unfold crc_step. rewrite (crc_entry_spec p 0) by (lia || apply land_255_range).
  rewrite crc_bits_8_table at 1. f_equal. rewrite Z.shiftr_lxor.
  rewrite (Z.shiftr_eq_0 (u8 d)), Z.lxor_0_r; [done|pose proof (u8_range d); lia|].
  pose proof (u8_range d). destruct (Z.eq_dec (u8 d) 0) as [->|]; [done|].
  apply Z.log2_lt_pow2; lia.
Qed.

#[global] Opaque make_crc_tables crc_table0.

(** ** Slicing by eight *)

Lemma load_le32_lxor d0 d1 d2 d3 :
  load_le32 d0 d1 d2 d3 =
  Z.lxor (u8 d0) (Z.lxor (Z.shiftl (u8 d1) 8)
    (Z.lxor (Z.shiftl (u8 d2) 16) (Z.shiftl (u8 d3) 24))).
Proof.
  unfold load_le32.
  pose proof (u8_range d0); pose proof (u8_range d1);
  pose proof (u8_range d2); pose proof (u8_range d3).
  zbitwise.
  destruct (Z.lt_ge_cases n 8);
  [|rewrite (testbit_high (u8 d0) 8 n) by lia;
    destruct (Z.lt_ge_cases n 16);
    [|rewrite (testbit_high (u8 d1) 8 (n - 8)) by lia;
      destruct (Z.lt_ge_cases n 24);
      [|rewrite (testbit_high (u8 d2) 8 (n - 16)) by lia]]];
  rewrite ?(Z.testbit_neg_r _ (n - 8)), ?(Z.testbit_neg_r _ (n - 16)),
    ?(Z.testbit_neg_r _ (n - 24)) by lia;
  by rewrite ?orb_false_r, ?orb_false_l, ?xorb_false_r, ?xorb_false_l.
Qed.

(** The little-endian value of a block, as an exclusive or. *)
Fixpoint le_value (data : bytes) : Z :=
  match data with
  | [] => 0
  | d :: data => Z.lxor (u8 d) (Z.shiftl (le_value data) 8)
  end.

Lemma le_value_range data : 0 <= le_value data < 2 ^ (8 * Z.of_nat (length data)).
Proof.
  induction data as [|d data IH]; cbn [le_value length]; [lia|].
  rewrite Nat2Z.inj_succ.
  replace (8 * Z.succ (Z.of_nat (length data))) with (8 * Z.of_nat (length data) + 8) by lia.
  pose proof (u8_range d).
  assert (256 <= 2 ^ (8 * Z.of_nat (length data) + 8))
    by (change 256 with (2 ^ 8); apply Z.pow_le_mono_r; lia).
  apply lxor_range; [lia|lia|].
  rewrite Z.shiftl_mul_pow2, Z.pow_add_r by lia. nia.
Qed.

Lemma load_le32_value d0 d1 d2 d3 : load_le32 d0 d1 d2 d3 = le_value [d0; d1; d2; d3].
Proof.
  rewrite load_le32_lxor. cbn [le_value].
  rewrite Z.shiftl_0_l, Z.lxor_0_r, !Z.shiftl_lxor, !Z.shiftl_shiftl by lia. done.
Qed.

Lemma load_le64_value d0 d1 d2 d3 d4 d5 d6 d7 :
  load_le64 d0 d1 d2 d3 d4 d5 d6 d7 = le_value [d0; d1; d2; d3; d4; d5; d6; d7].
Proof.
  unfold load_le64. rewrite !load_le32_value.
  pose proof (le_value_range [d0; d1; d2; d3]) as H.
  transitivity (Z.lxor (le_value [d0; d1; d2; d3])
                       (Z.shiftl (le_value [d4; d5; d6; d7]) 32)).
  - revert H. generalize (le_value [d0; d1; d2; d3]), (le_value [d4; d5; d6; d7]).
    intros x y H. zbitwise. destruct (Z.lt_ge_cases n 32).
    + rewrite (Z.testbit_neg_r y) by lia. by rewrite orb_false_r, xorb_false_r.
    + rewrite (testbit_high x 32) by (cbn in H; lia). by rewrite orb_false_l, xorb_false_l.
  - cbn [le_value]. rewrite !Z.shiftl_0_l, !Z.lxor_0_r.
    repeat rewrite ?Z.shiftl_lxor, ?Z.shiftl_shiftl by lia.
    rewrite !Z.lxor_assoc. done.
Qed.

Lemma crc_ref_app p crc a b : crc_ref p crc (a ++ b) = crc_ref p (crc_ref p crc a) b.
Proof. apply fold_left_app. Qed.

(** Feeding a block is running the register on the register xored with the block. *)
Lemma crc_ref_block p crc data :
  crc_ref p crc data = crc_bits p (8 * length data) (Z.lxor crc (le_value data)).
Proof.
  revert crc. induction data as [|d data IH]; intros crc.
  - cbn. by rewrite Z.lxor_0_r.
  - change (crc_ref p crc (d :: data))
      with (crc_ref p (crc_bits p 8 (Z.lxor crc (u8 d))) data).
    rewrite IH. cbn [length le_value].
    replace (8 * S (length data))%nat with (8 * length data + 8)%nat by lia.
    rewrite crc_bits_add, <- Z.lxor_assoc, (crc_bits_lxor p 8 (Z.lxor crc (u8 d))).
    do 2 f_equal. symmetry. apply (crc_bits_shiftl_all p 8).
Qed.

Lemma crc_bits_split p k d w :
  crc_bits p (8 * S k) (Z.lxor d (Z.shiftl w 8)) =
  Z.lxor (crc_bits p (8 * S k) d) (crc_bits p (8 * k) w).
Proof.
  rewrite crc_bits_lxor. f_equal.
  replace (8 * S k)%nat with (8 * k + 8)%nat by lia. rewrite crc_bits_add.
  f_equal. apply (crc_bits_shiftl_all p 8).
Qed.

(** The register run on a word, peeling its low byte. *)
Lemma crc_bits_peel p k v :
  crc_bits p (8 * S k) v =
  Z.lxor (crc_bits p (8 * S k) (Z.land v 255)) (crc_bits p (8 * k) (Z.shiftr v 8)).
Proof. rewrite (split_low v 8) at 1 by lia. apply crc_bits_split. Qed.

(** The same with the byte selected by a shift of the whole word. *)
Lemma crc_bits_peel_at p k v j j' :
  0 <= j -> j' = j + 8 ->
  crc_bits p (8 * S k) (Z.shiftr v j) =
  Z.lxor (crc_bits p (8 * S k) (Z.land (Z.shiftr v j) 255))
         (crc_bits p (8 * k) (Z.shiftr v j')).
Proof. intros ? ->. rewrite crc_bits_peel, Z.shiftr_shiftr by lia. done. Qed.

Lemma shiftr_range v w j : 0 <= j <= w -> 0 <= v < 2 ^ w -> 0 <= Z.shiftr v j < 2 ^ (w - j).
Proof.
  intros Hj Hv. rewrite Z.shiftr_div_pow2 by lia.
  split; [apply Z.div_pos; [lia|apply Z.pow_pos_nonneg; lia]|].
  apply Z.div_lt_upper_bound; [apply Z.pow_pos_nonneg; lia|].
  rewrite <- Z.pow_add_r by lia. replace (j + (w - j)) with w by lia. lia.
Qed.

(** Reads table entry [s] through its specification. *)
Ltac entry s :=
  rewrite (crc_entry_spec _ s) by first [lia | apply land_255_range | apply u8_range].

(** The eight lookups of one turn of [update_crc64] are 64 rounds on the word. *)
Lemma slice8_64 p v :
  0 <= v < 2 ^ 64 ->
  let T := crc_entry (make_crc_tables p) in
  Z.lxor (Z.lxor (Z.lxor (Z.lxor (Z.lxor (Z.lxor (Z.lxor
    (T 7 (Z.land v 255)) (T 6 (Z.land (Z.shiftr v 8) 255)))
    (T 5 (Z.land (Z.shiftr v 16) 255))) (T 4 (Z.land (Z.shiftr v 24) 255)))
    (T 3 (Z.land (Z.shiftr v 32) 255))) (T 2 (Z.land (Z.shiftr v 40) 255)))
    (T 1 (Z.land (Z.shiftr v 48) 255))) (T 0 (Z.shiftr v 56))
  = crc_bits p 64 v.
Proof.
  intros Hv T. subst T.
  pose proof (shiftr_range v 64 56 ltac:(lia) Hv) as H56. change (2 ^ (64 - 56)) with 256 in H56.
  entry 7%nat; entry 6%nat; entry 5%nat; entry 4%nat; entry 3%nat; entry 2%nat;
  entry 1%nat; entry 0%nat.
  change (crc_bits p 64 v) with (crc_bits p (8 * 8) v).
  rewrite (crc_bits_peel p 7 v), (crc_bits_peel_at p 6 v 8 16), (crc_bits_peel_at p 5 v 16 24),
    (crc_bits_peel_at p 4 v 24 32), (crc_bits_peel_at p 3 v 32 40), (crc_bits_peel_at p 2 v 40 48),
    (crc_bits_peel_at p 1 v 48 56) by lia.
  rewrite !Z.lxor_assoc. reflexivity.
Qed.

(** The lookups of one turn of [update_crc32]: the register only meets the first word. *)
Lemma slice8_32 p v d4 d5 d6 d7 :
  0 <= v < 2 ^ 32 ->
  let T := crc_entry (make_crc_tables p) in
  Z.lxor (Z.lxor (Z.lxor (Z.lxor (Z.lxor (Z.lxor (Z.lxor
    (T 7 (Z.land v 255)) (T 6 (Z.land (Z.shiftr v 8) 255)))
    (T 5 (Z.land (Z.shiftr v 16) 255))) (T 4 (Z.shiftr v 24)))
    (T 3 (u8 d4))) (T 2 (u8 d5))) (T 1 (u8 d6))) (T 0 (u8 d7))
  = Z.lxor (crc_bits p 64 v) (crc_bits p 32 (le_value [d4; d5; d6; d7])).
Proof.
  intros Hv T. subst T.
  pose proof (shiftr_range v 32 24 ltac:(lia) Hv) as H24. change (2 ^ (32 - 24)) with 256 in H24.
  pose proof (shiftr_range v 32 32 ltac:(lia) Hv) as H32. change (2 ^ (32 - 32)) with 1 in H32.
  entry 7%nat; entry 6%nat; entry 5%nat; entry 4%nat; entry 3%nat; entry 2%nat;
  entry 1%nat; entry 0%nat.
  change (crc_bits p 64 v) with (crc_bits p (8 * 8) v).
  rewrite (crc_bits_peel p 7 v), (crc_bits_peel_at p 6 v 8 16), (crc_bits_peel_at p 5 v 16 24),
    (crc_bits_peel_at p 4 v 24 32) by lia.
  change 255 with (Z.ones 8). rewrite (Z.land_ones_low (Z.shiftr v 24)).
  2: lia. 2: destruct (Z.eq_dec (Z.shiftr v 24) 0) as [->|]; [done|apply Z.log2_lt_pow2; lia].
  replace (Z.shiftr v 32) with 0 by lia.
  rewrite crc_bits_0, Z.lxor_0_r.
  cbn [le_value]. change (crc_bits p 32) with (crc_bits p (8 * 4)).
  rewrite (crc_bits_split p 3), (crc_bits_split p 2), (crc_bits_split p 1),
    (crc_bits_split p 0).
  rewrite crc_bits_0, Z.lxor_0_r, !Z.lxor_assoc. reflexivity.
Qed.

(** Both update loops consume eight bytes a turn and finish byte by byte. *)
Lemma list8_ind (P : bytes -> Prop) :
  (forall l, (length l < 8)%nat -> P l) ->
  (forall d0 d1 d2 d3 d4 d5 d6 d7 l, P l -> P (d0 :: d1 :: d2 :: d3 :: d4 :: d5 :: d6 :: d7 :: l)) ->
  forall l, P l.
Proof.
  intros Hshort Hstep l. remember (length l) as n eqn:Hn. revert l Hn.
  induction (lt_wf n) as [n _ IH]; intros l Hn.
  do 8 (destruct l as [|? l]; [apply Hshort; cbn; lia|]).
  apply Hstep, (IH (length l)); [cbn in Hn; lia|done].
Qed.

Lemma fold_crc_step p l c : fold_left (crc_step (make_crc_tables p)) l c = crc_ref p c l.
Proof.
  revert c. induction l as [|d l IH]; intros c; [done|].
  cbn [fold_left]. rewrite crc_step_spec. apply IH.
Qed.

Lemma update_crc64_ref p crc data :
  0 <= p < 2 ^ 64 -> 0 <= crc < 2 ^ 64 -> update_crc64 p crc data = crc_ref p crc data.
Proof.
  intros Hp. unfold update_crc64. revert crc.
  induction data as [l Hl|d0 d1 d2 d3 d4 d5 d6 d7 l IH] using list8_ind; intros crc Hcrc.
  - rewrite <- fold_crc_step. do 8 (destruct l as [|? l]; [reflexivity|]). cbn in Hl; lia.
  - cbn [update_crc64_loop]. cbv zeta.
    pose proof (le_value_range [d0; d1; d2; d3; d4; d5; d6; d7]) as Hle.
    change (2 ^ _) with (2 ^ 64) in Hle.
    rewrite load_le64_value, slice8_64 by (apply lxor_range; lia).
    rewrite IH by (apply crc_bits_range, lxor_range; lia).
    symmetry. etransitivity;
      [apply (crc_ref_app p crc [d0; d1; d2; d3; d4; d5; d6; d7] l)|].
    rewrite (crc_ref_block p crc). reflexivity.
Qed.

Lemma update_crc32_ref p crc data :
  0 <= p < 2 ^ 32 -> 0 <= crc < 2 ^ 32 -> update_crc32 p crc data = crc_ref p crc data.
Proof.
  intros Hp. unfold update_crc32. revert crc.
  induction data as [l Hl|d0 d1 d2 d3 d4 d5 d6 d7 l IH] using list8_ind; intros crc Hcrc.
  - rewrite <- fold_crc_step. do 8 (destruct l as [|? l]; [reflexivity|]). cbn in Hl; lia.
  - cbn [update_crc32_loop]. cbv zeta.
    pose proof (le_value_range [d0; d1; d2; d3]) as Hle.
    pose proof (le_value_range [d4; d5; d6; d7]) as Hle'.
    change (2 ^ _) with (2 ^ 32) in Hle, Hle'.
    rewrite load_le32_value, slice8_32 by (apply lxor_range; lia).
    rewrite IH by (apply lxor_range; [lia|apply crc_bits_range, lxor_range; lia|];
                   apply crc_bits_range; lia).
    change (d0 :: d1 :: d2 :: d3 :: d4 :: d5 :: d6 :: d7 :: l) with ([d0; d1; d2; d3] ++ [d4; d5; d6; d7] ++ l).
    rewrite !crc_ref_app, (crc_ref_block p crc), (crc_ref_block p _ [d4; d5; d6; d7]).
    rewrite (crc_bits_lxor p _ _ (le_value [d4; d5; d6; d7])), <- crc_bits_add. reflexivity.
Qed.

(** ** Combination of CRCs

    Rows of a matrix are the images of the powers of two; [gf2_matrix_times] evaluates the
    linear map they describe, squaring composes the map with itself. *)

Definition represents (matrix : list Z) (f : Z -> Z) : Prop :=
  length matrix = 64%nat /\ forall k, 0 <= k < 64 -> vget 0 matrix k = f (2 ^ k).

Definition linear64 (f : Z -> Z) : Prop :=
  f 0 = 0 /\ (forall a b, f (Z.lxor a b) = Z.lxor (f a) (f b)) /\
  (forall a, is_u64 a -> is_u64 (f a)).

Lemma gf2_matrix_times_loop_spec f rows k v sum :
  linear64 f -> 0 <= k -> 0 <= v < 2 ^ Z.of_nat (length rows) ->
  (forall i, 0 <= i < Z.of_nat (length rows) -> vget 0 rows i = f (2 ^ (k + i))) ->
  gf2_matrix_times_loop rows v sum = Z.lxor sum (f (Z.shiftl v k)).
Proof.
  intros (H0 & Hlin & _). revert k v sum.
  induction rows as [|row rows IH]; intros k v sum Hk Hv Hrows.
  - cbn in Hv. replace v with 0 by lia. rewrite Z.shiftl_0_l, H0, Z.lxor_0_r. done.
  - cbn [gf2_matrix_times_loop]. destruct (Z.eqb_spec v 0) as [->|Hv0].
    { by rewrite Z.shiftl_0_l, H0, Z.lxor_0_r. }
    cbn [length] in Hv. rewrite Nat2Z.inj_succ, Z.pow_succ_r in Hv by lia.
    rewrite (IH (k + 1)).
    + assert (Hrow : row = f (2 ^ k)).
      { specialize (Hrows 0 ltac:(cbn; lia)). by rewrite Z.add_0_r in Hrows. }
      assert (Hsplit : Z.shiftl v k =
        Z.lxor (if Z.testbit v 0 then 2 ^ k else 0) (Z.shiftl (Z.shiftr v 1) (k + 1))).
      { rewrite (split_low v 1) at 1 by lia.
        rewrite Z.shiftl_lxor, Z.shiftl_shiftl, (Z.add_comm 1 k) by lia. f_equal.
        rewrite Z.land_ones by lia. change (2 ^ 1) with 2. rewrite <- Z.bit0_mod.
        destruct (Z.testbit v 0); cbn [Z.b2z]; [|apply Z.shiftl_0_l].
        by rewrite Z.shiftl_mul_pow2, Z.mul_1_l by lia. }
      rewrite Hsplit, Hlin, land_1_testbit.
      destruct (Z.testbit v 0); cbn [negb].
      * by rewrite Hrow, Z.lxor_assoc.
      * by rewrite H0, Z.lxor_0_l.
    + lia.
    + rewrite Z.shiftr_div_pow2 by lia. change (2 ^ 1) with 2.
      split; [apply Z.div_pos; lia|apply Z.div_lt_upper_bound; lia].
    + intros i Hi. specialize (Hrows (i + 1) ltac:(cbn; lia)).
      rewrite vget_cons in Hrows by lia. rewrite Hrows. do 2 f_equal. lia.
Qed.

Lemma gf2_matrix_times_spec m f v :
  linear64 f -> represents m f -> is_u64 v -> gf2_matrix_times m v = f v.
Proof.
  intros Hf (Hlen & Hm) Hv. unfold gf2_matrix_times.
  rewrite (gf2_matrix_times_loop_spec f m 0); [by rewrite Z.shiftl_0_r|done|lia|by rewrite Hlen|].
  rewrite Hlen. intros i Hi. by apply Hm.
Qed.

Lemma gf2_matrix_square_spec m f :
  linear64 f -> represents m f -> represents (gf2_matrix_square m) (fun v => f (f v)).
Proof.
  intros Hf Hm. split; [by unfold gf2_matrix_square; rewrite length_map; apply Hm|].
  intros k Hk. destruct Hm as [Hlen Hm'].
  unfold gf2_matrix_square. rewrite (vget_map 0) by (unfold vsize; lia).
  rewrite Hm' by done. apply (gf2_matrix_times_spec m f); [done|done|].
  destruct Hf as (_ & _ & Hr). apply Hr. split; [apply Z.pow_nonneg; lia|].
  apply Z.pow_lt_mono_r; lia.
Qed.

Lemma crc_bits_linear64 p n : is_u64 p -> linear64 (crc_bits p n).
Proof.
  intros Hp. split_and!; [apply crc_bits_0|apply crc_bits_lxor|].
  intros a Ha. by apply (crc_bits_range 64).
Qed.

Lemma crc64_bit_matrix_spec p : represents (crc64_bit_matrix p) (crc_bits p 1).
Proof.
  split; [done|]. intros k Hk. destruct (Z.eq_dec k 0) as [->|].
  - change (p = crc_round p 1). rewrite crc_round_testbit. cbn. done.
  - unfold crc64_bit_matrix. replace k with (k - 1 + 1) at 1 by lia.
    rewrite vget_cons, vget_map_zrange by lia.
    replace (1 + (k - 1) - 1) with (k - 1) by lia.
    rewrite <- (Z.mul_1_l (2 ^ k)), <- Z.shiftl_mul_pow2 by lia.
    symmetry. apply (crc_round_shiftl p 1 k). lia.
Qed.

(** Squaring a matrix of [n] rounds gives one of [2 * n] rounds. *)
Lemma square_crc_bits p m n :
  is_u64 p -> represents m (crc_bits p n) ->
  represents (gf2_matrix_square m) (crc_bits p (2 * n)).
Proof.
  intros Hp Hm. replace (2 * n)%nat with (n + n)%nat by lia.
  destruct (gf2_matrix_square_spec m (crc_bits p n)) as [Hlen Hs];
    [by apply crc_bits_linear64|done|].
  split; [done|]. intros k Hk. by rewrite Hs, crc_bits_add.
Qed.

Lemma times_crc_bits p m n v :
  is_u64 p -> represents m (crc_bits p n) -> is_u64 v ->
  gf2_matrix_times m v = crc_bits p n v.
Proof. intros. apply gf2_matrix_times_spec; [by apply crc_bits_linear64|done|done]. Qed.

Lemma times_range p m n v (b : bool) :
  is_u64 p -> represents m (crc_bits p n) -> is_u64 v ->
  is_u64 (if b then v else gf2_matrix_times m v).
Proof.
  intros. destruct b; [done|]. rewrite (times_crc_bits p m n) by done.
  by apply (crc_bits_range 64).
Qed.

(** One bit of the length: apply the operator or not. *)
Lemma length_bit p m n first len :
  is_u64 p -> represents m (crc_bits p n) -> is_u64 first -> 0 <= len ->
  crc_bits p (n * Z.to_nat len) first =
  crc_bits p (2 * n * Z.to_nat (Z.shiftr len 1))
    (if Z.land len 1 =? 0 then first else gf2_matrix_times m first).
Proof.
  intros Hp Hm Hf Hlen. rewrite land_1_testbit, Z.shiftr_div_pow2 by lia.
  change (2 ^ 1) with 2. pose proof (Z.div_mod len 2 ltac:(lia)) as Hd.
  rewrite <- Z.bit0_mod in Hd. pose proof (Z.div_pos len 2 Hlen ltac:(lia)).
  destruct (Z.testbit len 0); cbn [negb Z.b2z] in *.
  - rewrite (times_crc_bits p m n) by done. rewrite <- crc_bits_add. f_equal. nia.
  - f_equal. nia.
Qed.

Lemma combine_loop_spec p fuel odd n first len :
  is_u64 p -> represents odd (crc_bits p n) -> is_u64 first ->
  0 < len < 4 ^ Z.of_nat fuel ->
  combine_crc64_loop fuel odd first len = crc_bits p (2 * n * Z.to_nat len) first.
Proof.
  intros Hp. revert odd n first len.
  induction fuel as [|fuel IH]; intros odd n first len Hodd Hf Hlen; [cbn in Hlen; lia|].
  rewrite Nat2Z.inj_succ, Z.pow_succ_r in Hlen by lia.
  cbn [combine_crc64_loop]. cbv zeta.
  pose proof (square_crc_bits p odd n Hp Hodd) as Heven.
  pose proof (square_crc_bits p _ _ Hp Heven) as Hodd'.
  rewrite (length_bit p _ _ first len Hp Heven Hf ltac:(lia)).
  remember (if Z.land len 1 =? 0 then first else _) as first1 eqn:E1.
  assert (is_u64 first1) as Hf1 by (rewrite E1; by apply (times_range p _ _ _ _ Hp Heven)).
  assert (Z.shiftr len 1 = len / 2) as -> by (rewrite Z.shiftr_div_pow2 by lia; reflexivity).
  destruct (Z.eqb_spec (len / 2) 0) as [->|Hne]; [by rewrite Nat.mul_0_r|].
  assert (0 < len / 2) by (pose proof (Z.div_pos len 2); lia).
  rewrite (length_bit p _ _ first1 (len / 2) Hp Hodd' Hf1 ltac:(lia)).
  remember (if Z.land (len / 2) 1 =? 0 then first1 else _) as first2 eqn:E2.
  assert (is_u64 first2) as Hf2 by (rewrite E2; by apply (times_range p _ _ _ _ Hp Hodd')).
  assert (Z.shiftr (len / 2) 1 = len / 2 / 2) as -> by (rewrite Z.shiftr_div_pow2 by lia; reflexivity).
  destruct (Z.eqb_spec (len / 2 / 2) 0) as [->|Hne']; [by rewrite Nat.mul_0_r|].
  assert (0 < len / 2 / 2) by (pose proof (Z.div_pos (len / 2) 2); lia).
  apply IH; [done|done|]. split; [done|].
  rewrite Z.div_div by lia. apply Z.div_lt_upper_bound; lia.
Qed.

(** The register started at [crc] and fed [data] is the register started at zero, plus the
    start value pushed through [8 * length data] rounds. *)
Lemma crc_ref_start p crc data :
  crc_ref p crc data = Z.lxor (crc_bits p (8 * length data) crc) (crc_ref p 0 data).
Proof. by rewrite !crc_ref_block, crc_bits_lxor, Z.lxor_0_l. Qed.

Lemma crc_ref_range w p crc data :
  8 <= w -> 0 <= p < 2 ^ w -> 0 <= crc < 2 ^ w -> 0 <= crc_ref p crc data < 2 ^ w.
Proof.
  intros Hw Hp. revert crc. induction data as [|d data IH]; intros crc Hcrc; [done|].
  apply IH, crc_bits_range, lxor_range; [lia|done|lia|done|].
  pose proof (u8_range d). pose proof (Z.pow_le_mono_r 2 8 w ltac:(lia) Hw). lia.
Qed.

(** [DataChecksum] starts the register at all ones and complements it at the end. *)
Definition crc64_of (p : Z) (data : bytes) : Z := Z.lxor (crc_ref p UINT64_MAX data) UINT64_MAX.

Lemma combine_crc64_with_spec p a b :
  is_u64 p -> 0 < vsize b < 2 ^ 64 ->
  combine_crc64_with p (crc64_of p a) (crc64_of p b) (vsize b) = crc64_of p (a ++ b).
Proof.
  intros Hp Hb. unfold combine_crc64_with.
  pose proof (square_crc_bits p _ _ Hp
    (square_crc_bits p _ _ Hp (crc64_bit_matrix_spec p))) as H4.
  pose proof (crc_ref_range 64 p UINT64_MAX a ltac:(lia) Hp ltac:(done)) as Ha.
  rewrite (combine_loop_spec p 32 _ 4) with (1 := Hp) (2 := H4).
  2: by apply lxor_range. 2: change (4 ^ Z.of_nat 32) with (2 ^ 64); lia.
  unfold crc64_of, vsize. rewrite Nat2Z.id, crc_ref_app, crc_bits_lxor.
  rewrite (crc_ref_start p (crc_ref p UINT64_MAX a) b), (crc_ref_start p UINT64_MAX b).
  change (2 * 4 * length b)%nat with (8 * length b)%nat.
  generalize (crc_bits p (8 * length b) (crc_ref p UINT64_MAX a)),
    (crc_bits p (8 * length b) UINT64_MAX), (crc_ref p 0 b).
  intros x y z. rewrite !Z.lxor_assoc. f_equal.
  rewrite <- (Z.lxor_assoc y y). by rewrite Z.lxor_nilpotent, Z.lxor_0_l.
Qed.

(** ** Claims *)

(** C38: the slicing-by-8 updates of [update_crc32] and [update_crc64], which consume eight
    bytes per turn through eight tables, compute exactly the bit-serial CRC register on every
    polynomial, register value and input. *)
Theorem update_crc_slicing p crc data :
  (is_u32 p -> is_u32 crc -> update_crc32 p crc data = crc_ref p crc data) /\
  (is_u64 p -> is_u64 crc -> update_crc64 p crc data = crc_ref p crc data).
Proof. split; [apply update_crc32_ref|apply update_crc64_ref]. Qed.

Lemma update_crc_slicing_witness :
  update_crc32 0xedb88320 UINT32_MAX (lit "123456789") = crc_ref 0xedb88320 UINT32_MAX (lit "123456789") /\
  update_crc64 0xc96c5795d7870f42 UINT64_MAX (lit "123456789")
    = crc_ref 0xc96c5795d7870f42 UINT64_MAX (lit "123456789").
Proof.
  split.
  - apply (update_crc_slicing 0xedb88320 UINT32_MAX (lit "123456789")); unfold UINT32_MAX; lia.
  - apply (update_crc_slicing 0xc96c5795d7870f42 UINT64_MAX (lit "123456789"));
      unfold UINT64_MAX; lia.
Defined.

(** The published check values of the four CRCs. *)
Example crc_check_values :
  Z.lxor (update_crc32 0xedb88320 UINT32_MAX (lit "123456789")) UINT32_MAX = 0xcbf43926 /\
  Z.lxor (update_crc32 0x82f63b78 UINT32_MAX (lit "123456789")) UINT32_MAX = 0xe3069283 /\
  Z.lxor (update_crc64 0x9a6c9329ac4bc9b5 UINT64_MAX (lit "123456789")) UINT64_MAX
    = 0xae8b14860a799888 /\
  Z.lxor (update_crc64 0xc96c5795d7870f42 UINT64_MAX (lit "123456789")) UINT64_MAX
    = 0x995dc9bbdf1939fa.
Proof. vm_compute. auto. Qed.
