(* ===== verification/StdText.v ===== *)
(** * The text operations of the C++ library that the sources use

    [std::string_view] searches and slices, the <ctype.h> classes in the C locale, and
    [std::from_chars]/[std::to_chars] on unsigned integers.  Positions are [Z]; a search that
    returns [npos] returns [None]. *)

From S2P Require Import Prelude.

(** ** Character classes (C locale) *)

Definition isdigit (c : ascii) : bool := (48 <=? u8 c) && (u8 c <=? 57).
Definition isupper (c : ascii) : bool := (65 <=? u8 c) && (u8 c <=? 90).
Definition islower (c : ascii) : bool := (97 <=? u8 c) && (u8 c <=? 122).
Definition isalnum (c : ascii) : bool := isdigit c || isupper c || islower c.
Definition isxdigit (c : ascii) : bool :=
  isdigit c || ((65 <=? u8 c) && (u8 c <=? 70)) || ((97 <=? u8 c) && (u8 c <=? 102)).
Definition isspace (c : ascii) : bool := (u8 c =? 32) || ((9 <=? u8 c) && (u8 c <=? 13)).
Definition tolower (c : ascii) : ascii := if isupper c then chr (u8 c + 32) else c.

(** A property of all 256 characters is decided by computation. *)
Lemma all_ascii (P : ascii -> bool) : forallb (fun n => P (chr n)) (zrange 0 256) = true ->
  forall c, P c = true.
Proof.
  intros H c. rewrite forallb_forall in H. rewrite <- (chr_u8 c). apply H.
  apply list_elem_of_In, elem_of_zrange, u8_range.
Qed.

(** ** string_view *)

Definition ascii_eqb : ascii -> ascii -> bool := Ascii.eqb.

Fixpoint str_eqb (a b : bytes) : bool :=
  match a, b with
  | [], [] => true
  | x :: a, y :: b => ascii_eqb x y && str_eqb a b
  | _, _ => false
  end.

Lemma str_eqb_spec a b : reflect (a = b) (str_eqb a b).
Proof.
  revert b. induction a as [|x a IH]; intros [|y b]; cbn; try (constructor; congruence).
  unfold ascii_eqb. destruct (Ascii.eqb_spec x y) as [->|]; cbn; [|constructor; congruence].
  destruct (IH b); constructor; congruence.
Qed.

Lemma str_eqb_refl a : str_eqb a a = true.
Proof. by destruct (str_eqb_spec a a). Qed.

(** [s.find(c)]. *)
Fixpoint find_char (c : ascii) (s : bytes) : option Z :=
  match s with
  | [] => None
  | x :: s => if ascii_eqb x c then Some 0 else Z.succ <$> find_char c s
  end.

(** [s.find(c) != npos]. *)
Definition has_char (c : ascii) (s : bytes) : bool :=
  match find_char c s with Some _ => true | None => false end.

(** [s.rfind(c)]. *)
Fixpoint rfind_char (c : ascii) (s : bytes) : option Z :=
  match s with
  | [] => None
  | x :: s => match rfind_char c s with
              | Some i => Some (Z.succ i)
              | None => if ascii_eqb x c then Some 0 else None
              end
  end.

(** [s.substr(pos)] and [s.substr(0, n)]. *)
Definition drop_z (n : Z) (s : bytes) : bytes := drop (Z.to_nat n) s.
Definition take_z (n : Z) (s : bytes) : bytes := take (Z.to_nat n) s.
Definition substr (s : bytes) (pos n : Z) : bytes := take_z n (drop_z pos s).

(** [s.find(c, pos)]. *)
Definition find_from (c : ascii) (s : bytes) (pos : Z) : option Z :=
  Z.add pos <$> find_char c (drop_z pos s).

(** [s.substr(0, s.find(c))], where [npos] selects the whole view. *)
Definition before_char (c : ascii) (s : bytes) : bytes :=
  match find_char c s with Some i => take_z i s | None => s end.

Fixpoint starts_with (prefix s : bytes) : bool :=
  match prefix, s with
  | [], _ => true
  | p :: prefix, c :: s => ascii_eqb p c && starts_with prefix s
  | _ :: _, [] => false
  end.

Definition ends_with (suffix s : bytes) : bool :=
  (vsize suffix <=? vsize s) && str_eqb (drop_z (vsize s - vsize suffix) s) suffix.

Definition at_z (s : bytes) (i : Z) : ascii := vget Ascii.zero s i.

Lemma find_char_spec c s i :
  find_char c s = Some i <->
  exists a b, s = a ++ (c :: b) /\ c ∉ a /\ i = vsize a.
Proof.
  revert i. induction s as [|x s IH]; intros i; cbn.
  - split; [done|]. intros ([|? ?] & b & ? & _); done.
  - unfold ascii_eqb. destruct (Ascii.eqb_spec x c) as [->|Hne].
    + split.
      * intros [= <-]. exists [], s. split; [done|]. split; [apply not_elem_of_nil|done].
      * intros ([|y a] & b & Heq & Hn & ->); [done|]. exfalso. simplify_eq/=. set_solver.
    + rewrite fmap_Some. split.
      * intros (j & (a & b & -> & Hn & ->)%IH & ->). exists (x :: a), b.
        split; [done|]. split; [set_solver|]. unfold vsize. cbn. lia.
      * intros ([|y a] & b & Heq & Hn & ->); simplify_eq/=.
        exists (vsize a). split; [apply IH; exists a, b; set_solver|]. unfold vsize. cbn. lia.
Qed.

Lemma find_char_None c s : find_char c s = None <-> c ∉ s.
Proof.
  induction s as [|x s IH]; cbn; [split; [intros _; apply not_elem_of_nil|done]|].
  unfold ascii_eqb. destruct (Ascii.eqb_spec x c) as [->|Hne].
  - split; [done|]. set_solver.
  - rewrite fmap_None, IH. set_solver.
Qed.

Lemma has_char_spec c s : has_char c s = true <-> c ∈ s.
Proof.
  unfold has_char. destruct (find_char c s) as [i|] eqn:E.
  - apply find_char_spec in E as (a & b & -> & _ & _). set_solver.
  - apply find_char_None in E. split; [done|]. intros. by destruct E.
Qed.

Lemma has_char_false c s : has_char c s = false <-> c ∉ s.
Proof. rewrite <- not_true_iff_false, has_char_spec. done. Qed.

Lemma find_char_app c a b : c ∉ a -> find_char c (a ++ (c :: b)) = Some (vsize a).
Proof. intros. apply find_char_spec. by exists a, b. Qed.

Lemma starts_with_spec p s : starts_with p s = true <-> exists t, s = p ++ t.
Proof.
  revert s. induction p as [|x p IH]; intros [|y s]; cbn.
  - split; [by exists []|done].
  - split; [by exists (y :: s)|done].
  - split; [done|by intros (? & ?)].
  - unfold ascii_eqb. destruct (Ascii.eqb_spec x y) as [->|Hne]; cbn; rewrite ?IH.
    + split; intros (t & Ht); exists t; naive_solver.
    + split; [done|]. intros (t & Ht). simplify_eq.
Qed.

Lemma take_app_z (a b : bytes) : take_z (vsize a) (a ++ b) = a.
Proof. unfold take_z, vsize. rewrite Nat2Z.id. apply take_app_length. Qed.

Lemma drop_app_z (a b : bytes) : drop_z (vsize a) (a ++ b) = b.
Proof. unfold drop_z, vsize. rewrite Nat2Z.id. apply drop_app_length. Qed.

Lemma drop_app_z_S (a b : bytes) c : drop_z (vsize a + 1) (a ++ c :: b) = b.
Proof.
  unfold drop_z, vsize. replace (Z.to_nat (Z.of_nat (length a) + 1)) with (S (length a)) by lia.
  change (c :: b) with ([c] ++ b). rewrite app_assoc.
  replace (S (length a)) with (length (a ++ [c])) by (rewrite length_app; cbn; lia).
  apply drop_app_length.
Qed.

(** ** Numbers *)

Definition digit_value (c : ascii) : Z := u8 c - 48.

Fixpoint digits_value (acc : Z) (s : bytes) : Z :=
  match s with
  | [] => acc
  | c :: s => digits_value (acc * 10 + digit_value c) s
  end.

(** The longest prefix of decimal digits, and what follows it. *)
Fixpoint span_digits (s : bytes) : bytes * bytes :=
  match s with
  | c :: s' => if isdigit c then let '(d, r) := span_digits s' in (c :: d, r) else ([], s)
  | [] => ([], [])
  end.

(** [std::from_chars] in base 10 for an unsigned type with maximum [max]: [None] when no
    digit is present or the value is out of range, else the value and the rest. *)
Definition from_chars (max : Z) (s : bytes) : option (Z * bytes) :=
  let '(d, rest) := span_digits s in
  match d with
  | [] => None
  | _ => let v := digits_value 0 d in if v <=? max then Some (v, rest) else None
  end.

(** [ec == std::errc{} && ptr == end]. *)
Definition from_chars_all (max : Z) (s : bytes) : option Z :=
  match from_chars max s with Some (v, []) => Some v | _ => None end.

(** [std::to_chars] in base 10; 20 digits hold every [uint64_t]. *)
Fixpoint to_chars_loop (fuel : nat) (n : Z) (acc : bytes) : bytes :=
  match fuel with
  | O => acc
  | S fuel =>
      let acc := chr (48 + n mod 10) :: acc in
      if n / 10 =? 0 then acc else to_chars_loop fuel (n / 10) acc
  end.

Definition to_chars (n : Z) : bytes := to_chars_loop 20 n [].

Lemma digits_value_app acc a b :
  digits_value acc (a ++ b) = digits_value (digits_value acc a) b.
Proof. revert acc. induction a as [|c a IH]; intros acc; cbn; [done|apply IH]. Qed.

Lemma digits_value_acc acc s :
  digits_value acc s = acc * 10 ^ vsize s + digits_value 0 s.
Proof.
  revert acc. induction s as [|c s IH]; intros acc; [unfold vsize; cbn; lia|].
  cbn [digits_value]. rewrite IH, (IH (0 * 10 + digit_value c)).
  unfold vsize. cbn [length]. rewrite Nat2Z.inj_succ, Z.pow_succ_r by lia. lia.
Qed.

Lemma isdigit_chr d : 0 <= d < 10 -> isdigit (chr (48 + d)) = true.
Proof. intros. unfold isdigit. rewrite u8_chr by lia. lia. Qed.

Lemma digit_value_chr d : 0 <= d < 10 -> digit_value (chr (48 + d)) = d.
Proof. intros. unfold digit_value. rewrite u8_chr; lia. Qed.

Lemma to_chars_loop_spec fuel n acc :
  0 <= n < 10 ^ Z.of_nat fuel -> (0 < fuel)%nat -> Forall (fun c => isdigit c = true) acc ->
  exists d, to_chars_loop fuel n acc = d ++ acc /\ d <> [] /\
    Forall (fun c => isdigit c = true) d /\ digits_value 0 d = n.
Proof.
  revert n acc. induction fuel as [|fuel IH]; intros n acc Hn Hfuel Hacc; [lia|].
  cbn [to_chars_loop]. pose proof (Z.mod_pos_bound n 10 ltac:(lia)).
  assert (Hd : isdigit (chr (48 + n mod 10)) = true) by (apply isdigit_chr; lia).
  pose proof (Z.div_mod n 10 ltac:(lia)).
  destruct (Z.eqb_spec (n / 10) 0) as [E|E].
  - exists [chr (48 + n mod 10)]. split_and!; [done|done|by repeat constructor|].
    cbn. rewrite digit_value_chr; lia.
  - rewrite Nat2Z.inj_succ, Z.pow_succ_r in Hn by lia.
    destruct fuel as [|fuel].
    { exfalso. cbn in Hn. apply E. apply Z.div_small. lia. }
    destruct (IH (n / 10) (chr (48 + n mod 10) :: acc)) as (d & Heq & Hne & Hds & Hv).
    + split; [apply Z.div_pos; lia|apply Z.div_lt_upper_bound; lia].
    + lia.
    + by constructor.
    + exists (d ++ [chr (48 + n mod 10)]). rewrite Heq, <- app_assoc.
      split_and!; [done| |apply Forall_app; split; [done|by repeat constructor]|].
      * by destruct d.
      * rewrite digits_value_app, Hv. cbn. rewrite digit_value_chr; lia.
Qed.

Lemma to_chars_spec n :
  0 <= n < 2 ^ 64 ->
  to_chars n <> [] /\ Forall (fun c => isdigit c = true) (to_chars n) /\
  digits_value 0 (to_chars n) = n.
Proof.
  intros Hn. destruct (to_chars_loop_spec 20 n []) as (d & Heq & ? & ? & ?).
  - change (10 ^ Z.of_nat 20) with 100000000000000000000. lia.
  - lia.
  - constructor.
  - unfold to_chars. rewrite Heq, app_nil_r. done.
Qed.

Lemma span_digits_app d c r :
  Forall (fun c => isdigit c = true) d -> isdigit c = false ->
  span_digits (d ++ c :: r) = (d, c :: r).
Proof.
  induction 1 as [|x d Hx Hd IH]; intros Hc; cbn; [by rewrite Hc|].
  rewrite Hx, IH by done. done.
Qed.

Lemma span_digits_all d :
  Forall (fun c => isdigit c = true) d -> span_digits d = (d, []).
Proof. induction 1 as [|x d Hx Hd IH]; cbn; [done|]. by rewrite Hx, IH. Qed.

Lemma span_digits_spec s d r :
  span_digits s = (d, r) -> s = d ++ r /\ Forall (fun c => isdigit c = true) d.
Proof.
  revert d r. induction s as [|c s IH]; intros d r H; cbn in H; [by simplify_eq|].
  destruct (isdigit c) eqn:Hc; [|by simplify_eq].
  destruct (span_digits s) as [d' r'] eqn:E. simplify_eq.
  destruct (IH d' r eq_refl) as [-> ?]. split; [done|by constructor].
Qed.

(** [from_chars] accepts exactly the non-empty digit strings in range. *)
Lemma from_chars_all_spec max s v :
  from_chars_all max s = Some v <->
  s <> [] /\ Forall (fun c => isdigit c = true) s /\ digits_value 0 s = v /\ v <= max.
Proof.
  unfold from_chars_all, from_chars. split.
  - destruct (span_digits s) as [d r] eqn:E. apply span_digits_spec in E as [-> Hd].
    destruct d as [|c d]; [done|]. destruct (Z.leb_spec (digits_value 0 (c :: d)) max); [|done].
    destruct r as [|]; [|done]. intros [= <-]. rewrite app_nil_r. done.
  - intros (Hne & Hd & <- & Hmax). rewrite span_digits_all by done.
    destruct s as [|c s]; [done|].
    by destruct (Z.leb_spec (digits_value 0 (c :: s)) max); [|lia].
Qed.

Lemma from_chars_to_chars n :
  0 <= n < 2 ^ 64 -> from_chars_all UINT64_MAX (to_chars n) = Some n.
Proof.
  intros Hn. apply from_chars_all_spec. destruct (to_chars_spec n Hn) as (? & ? & ?).
  unfold UINT64_MAX. split_and!; [done|done|done|lia].
Qed.

(** ** Suffixes *)

Lemma ends_with_spec p s : ends_with p s = true <-> exists t, s = t ++ p.
Proof.
  unfold ends_with. rewrite andb_true_iff, Z.leb_le. split.
  - intros [Hl He]. destruct (str_eqb_spec (drop_z (vsize s - vsize p) s) p) as [E|]; [|done].
    exists (take_z (vsize s - vsize p) s). unfold take_z, drop_z in *.
    rewrite <- E at 2. by rewrite take_drop.
  - intros [t ->]. unfold vsize. rewrite length_app. split; [lia|].
    replace (Z.of_nat (length t + length p) - Z.of_nat (length p)) with (vsize t)
      by (unfold vsize; lia).
    rewrite drop_app_z. apply str_eqb_refl.
Qed.

Lemma ends_with_rev p s : ends_with p s = starts_with (rev p) (rev s).
Proof.
  apply eq_iff_eq_true. rewrite ends_with_spec, starts_with_spec. split; intros [t Ht].
  - exists (rev t). by rewrite Ht, rev_app_distr.
  - exists (rev t). by rewrite <- (rev_involutive s), Ht, rev_app_distr, rev_involutive.
Qed.

(** ** Slices by index *)

Lemma map_at_z s p n :
  0 <= p -> 0 <= n -> p + n <= vsize s -> map (fun i => at_z s (p + i)) (zrange 0 n) = substr s p n.
Proof.
  intros Hp Hn Hs. apply (list_eq_same_length _ _ (Z.to_nat n)).
  - unfold substr, take_z, drop_z, vsize in *. rewrite length_take, length_drop. lia.
  - rewrite length_map, length_zrange. lia.
  - intros i x y Hi. unfold substr, take_z, drop_z, zrange.
    change (map ?f) with (fmap (M:=list) f).
    rewrite list_lookup_fmap, lookup_seqZ_lt, lookup_take_lt, lookup_drop by lia.
    cbn. unfold at_z, vget. replace (Z.to_nat (p + (0 + Z.of_nat i))) with (Z.to_nat p + i)%nat by lia.
    destruct (s !! (Z.to_nat p + i)%nat) eqn:E; cbn; [congruence|].
    apply lookup_ge_None in E. unfold vsize in Hs. lia.
Qed.

Lemma vsize_substr s p n :
  0 <= p -> 0 <= n -> p + n <= vsize s -> vsize (substr s p n) = n.
Proof. intros. unfold substr, take_z, drop_z, vsize in *. rewrite length_take, length_drop. lia. Qed.

Lemma substr_split s p a b :
  0 <= p -> 0 <= a -> 0 <= b -> substr s p a ++ substr s (p + a) b = substr s p (a + b).
Proof.
  intros. unfold substr, take_z, drop_z. rewrite (Z2Nat.inj_add p a), (Z2Nat.inj_add a b) by lia.
  rewrite <- (take_take_drop (drop (Z.to_nat p) s) (Z.to_nat a) (Z.to_nat b)).
  by rewrite drop_drop.
Qed.
