(* ===== verification/Checksum.v ===== *)
(** * Checksum algorithms and [DataChecksum]

    Models the checksum part of [src/src/s3.cpp]: the algorithm names and their parser, and
    the streaming [DataChecksum] object.  The CRC contexts are the model of [Crc.v]; MD5, SHA
    and xxHash are the functions of OpenSSL and xxHash and come in through [DigestLibrary]. *)

From S2P Require Import Prelude Crc StdText.

(** ** Names *)

Definition ascii_equal_ignore_case (first second : bytes) : bool :=
  (vsize first =? vsize second) &&
  forallb (fun p => ascii_eqb (tolower p.1) (tolower p.2)) (zip first second).

Definition checksum_values : list (bytes * ChecksumAlgorithm) :=
  [ (lit "auto", CHECKSUM_AUTO);
    (lit "default", CHECKSUM_PROTOCOL_DEFAULT);
    (lit "protocol-default", CHECKSUM_PROTOCOL_DEFAULT);
    (lit "none", CHECKSUM_NONE);
    (lit "crc32", CHECKSUM_CRC32);
    (lit "crc32c", CHECKSUM_CRC32C);
    (lit "crc64nvme", CHECKSUM_CRC64NVME);
    (lit "sha1", CHECKSUM_SHA1);
    (lit "sha256", CHECKSUM_SHA256);
    (lit "md5", CHECKSUM_MD5);
    (lit "xxhash64", CHECKSUM_XXHASH64);
    (lit "xxhash3", CHECKSUM_XXHASH3);
    (lit "xxhash128", CHECKSUM_XXHASH128);
    (lit "sha512", CHECKSUM_SHA512);
    (lit "crc64xz", CHECKSUM_CRC64XZ);
    (lit "crc64-xz", CHECKSUM_CRC64XZ);
    (lit "oss-crc64", CHECKSUM_CRC64XZ) ].

(** [None] is the [false] return, which leaves the output parameter alone. *)
Fixpoint find_checksum (text : bytes) (values : list (bytes * ChecksumAlgorithm)) :
    option ChecksumAlgorithm :=
  match values with
  | [] => None
  | (name, value) :: values =>
      if ascii_equal_ignore_case text name then Some value else find_checksum text values
  end.

Definition parse_checksum_algorithm (text : bytes) : option ChecksumAlgorithm :=
  find_checksum text checksum_values.

Definition checksum_option_name (algorithm : ChecksumAlgorithm) : bytes :=
  match algorithm with
  | CHECKSUM_AUTO => lit "auto"
  | CHECKSUM_PROTOCOL_DEFAULT => lit "default"
  | CHECKSUM_NONE => lit "none"
  | CHECKSUM_CRC32 => lit "crc32"
  | CHECKSUM_CRC32C => lit "crc32c"
  | CHECKSUM_CRC64NVME => lit "crc64nvme"
  | CHECKSUM_SHA1 => lit "sha1"
  | CHECKSUM_SHA256 => lit "sha256"
  | CHECKSUM_MD5 => lit "md5"
  | CHECKSUM_XXHASH64 => lit "xxhash64"
  | CHECKSUM_XXHASH3 => lit "xxhash3"
  | CHECKSUM_XXHASH128 => lit "xxhash128"
  | CHECKSUM_SHA512 => lit "sha512"
  | CHECKSUM_CRC64XZ => lit "crc64xz"
  end.

Definition checksum_s3_name (algorithm : ChecksumAlgorithm) : bytes :=
  match algorithm with
  | CHECKSUM_CRC32 => lit "CRC32"
  | CHECKSUM_CRC32C => lit "CRC32C"
  | CHECKSUM_CRC64NVME => lit "CRC64NVME"
  | CHECKSUM_SHA1 => lit "SHA1"
  | CHECKSUM_SHA256 => lit "SHA256"
  | CHECKSUM_MD5 => lit "MD5"
  | CHECKSUM_XXHASH64 => lit "XXHASH64"
  | CHECKSUM_XXHASH3 => lit "XXHASH3"
  | CHECKSUM_XXHASH128 => lit "XXHASH128"
  | CHECKSUM_SHA512 => lit "SHA512"
  | _ => []
  end.

Definition checksum_header_name (algorithm : ChecksumAlgorithm) : bytes :=
  match algorithm with
  | CHECKSUM_CRC32 => lit "x-amz-checksum-crc32"
  | CHECKSUM_CRC32C => lit "x-amz-checksum-crc32c"
  | CHECKSUM_CRC64NVME => lit "x-amz-checksum-crc64nvme"
  | CHECKSUM_SHA1 => lit "x-amz-checksum-sha1"
  | CHECKSUM_SHA256 => lit "x-amz-checksum-sha256"
  | CHECKSUM_MD5 => lit "x-amz-checksum-md5"
  | CHECKSUM_XXHASH64 => lit "x-amz-checksum-xxhash64"
  | CHECKSUM_XXHASH3 => lit "x-amz-checksum-xxhash3"
  | CHECKSUM_XXHASH128 => lit "x-amz-checksum-xxhash128"
  | CHECKSUM_SHA512 => lit "x-amz-checksum-sha512"
  | CHECKSUM_CRC64XZ => lit "x-oss-hash-crc64ecma"
  | _ => []
  end.

Definition checksum_xml_name (algorithm : ChecksumAlgorithm) : bytes :=
  match algorithm with
  | CHECKSUM_CRC32 => lit "ChecksumCRC32"
  | CHECKSUM_CRC32C => lit "ChecksumCRC32C"
  | CHECKSUM_CRC64NVME => lit "ChecksumCRC64NVME"
  | CHECKSUM_SHA1 => lit "ChecksumSHA1"
  | CHECKSUM_SHA256 => lit "ChecksumSHA256"
  | CHECKSUM_MD5 => lit "ChecksumMD5"
  | CHECKSUM_XXHASH64 => lit "ChecksumXXHASH64"
  | CHECKSUM_XXHASH3 => lit "ChecksumXXHASH3"
  | CHECKSUM_XXHASH128 => lit "ChecksumXXHASH128"
  | CHECKSUM_SHA512 => lit "ChecksumSHA512"
  | _ => []
  end.

Definition checksum_is_s3 (algorithm : ChecksumAlgorithm) : bool :=
  negb (vsize (checksum_s3_name algorithm) =? 0).

Definition checksum_multipart_type (algorithm : ChecksumAlgorithm) : bytes :=
  if decide (algorithm = CHECKSUM_CRC64NVME) then lit "FULL_OBJECT"
  else if checksum_is_s3 algorithm then lit "COMPOSITE" else [].

(** The [find] lambda of [gcs_checksum_from_header]: one turn looks at the comma-separated
    item that starts at [begin].  The result is the return value and the new contents of
    [result]; every turn passes a comma, so [vsize value + 1] turns are enough. *)
Fixpoint skip_spaces (fuel : nat) (value : bytes) (begin end_ : Z) : Z :=
  match fuel with
  | O => begin
  | S fuel =>
      if (begin <? end_) && isspace (at_z value begin)
      then skip_spaces fuel value (begin + 1) end_ else begin
  end.

Fixpoint drop_spaces (fuel : nat) (value : bytes) (begin end_ : Z) : Z :=
  match fuel with
  | O => end_
  | S fuel =>
      if (begin <? end_) && isspace (at_z value (end_ - 1))
      then drop_spaces fuel value begin (end_ - 1) else end_
  end.

Fixpoint gcs_find (fuel : nat) (value name : bytes) (begin : Z) (expected : bytes) :
    bool * bytes :=
  match fuel with
  | O => (false, expected)
  | S fuel =>
      if begin <? vsize value then
        let end_ := default (vsize value) (find_from ","%char value begin) in
        let begin := skip_spaces (length value) value begin end_ in
        let end_ := drop_spaces (length value) value begin end_ in
        let item := substr value begin (end_ - begin) in
        if starts_with name item then
          let result := drop_z (vsize name) item in (negb (vsize result =? 0), result)
        else match find_from ","%char value begin with
             | None => (false, expected)
             | Some comma => gcs_find fuel value name (comma + 1) expected
             end
      else (false, expected)
  end.

(** The [bool] result with the output parameters [algorithm] and [expected]. *)
Definition gcs_checksum_from_header (value : bytes) (preferred : ChecksumAlgorithm) :
    option (ChecksumAlgorithm * bytes) :=
  let find := fun name expected => gcs_find (S (length value)) value name 0 expected in
  let first := if decide (preferred = CHECKSUM_MD5) then (false, [])
               else find (lit "crc32c=") [] in
  if first.1 then Some (CHECKSUM_CRC32C, first.2)
  else
    let md5 := find (lit "md5=") first.2 in
    if md5.1 then Some (CHECKSUM_MD5, md5.2)
    else
      let crc := find (lit "crc32c=") md5.2 in
      if crc.1 then Some (CHECKSUM_CRC32C, crc.2) else None.

Example gcs_both :
  gcs_checksum_from_header (lit "md5=AAAA, crc32c=BBBB ") CHECKSUM_AUTO
    = Some (CHECKSUM_CRC32C, lit "BBBB").
Proof. reflexivity. Qed.

Example gcs_md5 :
  gcs_checksum_from_header (lit "crc32c=BBBB,md5=AAAA") CHECKSUM_MD5
    = Some (CHECKSUM_MD5, lit "AAAA").
Proof. reflexivity. Qed.

(** ** DataChecksum *)

(** The streaming digests of OpenSSL (MD5, SHA) and xxHash, and [EVP_EncodeBlock].  A [false]
    or [None] is the failure return of the C function; [xxh_digest] is the digest in canonical
    byte order and has no failure return. *)
Class DigestLibrary := {
  digest_ctx : Type;
  digest_init : ChecksumAlgorithm -> digest_ctx * bool;
  digest_update : ChecksumAlgorithm -> digest_ctx -> bytes -> digest_ctx * bool;
  digest_final : ChecksumAlgorithm -> digest_ctx -> option bytes;
  xxh_digest : ChecksumAlgorithm -> digest_ctx -> bytes;
  encode_block : bytes -> option bytes;
}.

Record ChecksumValue := { cv_base64 : bytes; cv_integer : Z }.

Section DataChecksum.
Context `{lib : DigestLibrary}.

(** The object that the constructor places in [context_]. *)
Inductive checksum_context :=
  | Context32 (crc : Z)
  | Context64 (crc : Z)
  | ContextLibrary (c : digest_ctx).

Record DataChecksum := {
  dc_algorithm : ChecksumAlgorithm;
  dc_context : checksum_context;
  dc_finished : bool;
}.

Definition checksum_base64 (digest : bytes) : result bytes :=
  match encode_block digest with Some text => Ok text | None => Throw RuntimeError end.

(** [u_char(value >> shift)]. *)
Definition byte_at (value shift : Z) : ascii := chr (u8_of (Z.shiftr value shift)).

Definition crc64_checksum_value (value : Z) : result ChecksumValue :=
  let? text := checksum_base64 (map (fun i => byte_at value (56 - i * 8)) (zrange 0 8)) in
  Ok {| cv_base64 := text; cv_integer := value |}.

Definition make_DataChecksum (algorithm : ChecksumAlgorithm) : result DataChecksum :=
  let object c := {| dc_algorithm := algorithm; dc_context := c; dc_finished := false |} in
  match algorithm with
  | CHECKSUM_CRC32 | CHECKSUM_CRC32C => Ok (object (Context32 UINT32_MAX))
  | CHECKSUM_CRC64NVME | CHECKSUM_CRC64XZ => Ok (object (Context64 UINT64_MAX))
  | CHECKSUM_MD5 | CHECKSUM_SHA1 | CHECKSUM_SHA256 | CHECKSUM_SHA512
  | CHECKSUM_XXHASH64 | CHECKSUM_XXHASH3 | CHECKSUM_XXHASH128 =>
      let '(c, ok) := digest_init algorithm in
      if ok then Ok (object (ContextLibrary c)) else Throw RuntimeError
  | _ => Throw InvalidArgument
  end.

(** [checksum_context<T>(context_)]: the object in [context_] seen as a [T].  The constructor
    stores the type that the algorithm selects and nothing changes it ([dc_ok] below), so the
    default is never taken. *)
Definition context32 (c : checksum_context) : Z := match c with Context32 crc => crc | _ => 0 end.
Definition context64 (c : checksum_context) : Z := match c with Context64 crc => crc | _ => 0 end.

Definition set_context (self : DataChecksum) (c : checksum_context) : DataChecksum :=
  {| dc_algorithm := dc_algorithm self; dc_context := c; dc_finished := dc_finished self |}.

Definition DataChecksum_update (self : DataChecksum) (data : bytes) :
    DataChecksum * result unit :=
  if dc_finished self then (self, Throw LogicError)
  else
    let context := dc_context self in
    match dc_algorithm self with
    | CHECKSUM_CRC32 =>
        (set_context self (Context32 (update_crc32 0xedb88320 (context32 context) data)), Ok tt)
    | CHECKSUM_CRC32C =>
        (set_context self (Context32 (update_crc32 0x82f63b78 (context32 context) data)), Ok tt)
    | CHECKSUM_CRC64NVME =>
        (set_context self
           (Context64 (update_crc64 0x9a6c9329ac4bc9b5 (context64 context) data)), Ok tt)
    | CHECKSUM_CRC64XZ =>
        (set_context self
           (Context64 (update_crc64 0xc96c5795d7870f42 (context64 context) data)), Ok tt)
    | CHECKSUM_MD5 | CHECKSUM_SHA1 | CHECKSUM_SHA256 | CHECKSUM_SHA512
    | CHECKSUM_XXHASH64 | CHECKSUM_XXHASH3 | CHECKSUM_XXHASH128 =>
        match context with
        | ContextLibrary c =>
            let '(c, ok) := digest_update (dc_algorithm self) c data in
            (set_context self (ContextLibrary c), if ok then Ok tt else Throw RuntimeError)
        | _ => (self, Throw LogicError)
        end
    | _ => (self, Throw LogicError)
    end.

(** [finish] marks the object finished before anything can fail. *)
Definition DataChecksum_finish (self : DataChecksum) : DataChecksum * result ChecksumValue :=
  if dc_finished self then (self, Throw LogicError)
  else
    let context := dc_context self in
    let value digest integer :=
      let? text := checksum_base64 digest in
      Ok {| cv_base64 := text; cv_integer := integer |} in
    ({| dc_algorithm := dc_algorithm self; dc_context := context; dc_finished := true |},
     match dc_algorithm self with
     | CHECKSUM_CRC32 | CHECKSUM_CRC32C =>
         let crc := Z.lxor (context32 context) UINT32_MAX in
         value [byte_at crc 24; byte_at crc 16; byte_at crc 8; byte_at crc 0] crc
     | CHECKSUM_CRC64NVME | CHECKSUM_CRC64XZ =>
         crc64_checksum_value (Z.lxor (context64 context) UINT64_MAX)
     | CHECKSUM_MD5 | CHECKSUM_SHA1 | CHECKSUM_SHA256 | CHECKSUM_SHA512 =>
         match context with
         | ContextLibrary c =>
             match digest_final (dc_algorithm self) c with
             | Some digest => value digest 0
             | None => Throw RuntimeError
             end
         | _ => Throw LogicError
         end
     | CHECKSUM_XXHASH64 | CHECKSUM_XXHASH3 | CHECKSUM_XXHASH128 =>
         match context with
         | ContextLibrary c => value (xxh_digest (dc_algorithm self) c) 0
         | _ => Throw LogicError
         end
     | _ => Throw LogicError
     end).

(** ** Whole runs *)

Fixpoint update_all (self : DataChecksum) (chunks : list bytes) : DataChecksum * result unit :=
  match chunks with
  | [] => (self, Ok tt)
  | data :: chunks =>
      match DataChecksum_update self data with
      | (self, Ok tt) => update_all self chunks
      | (self, Throw e) => (self, Throw e)
      end
  end.

(** Construct, update with every chunk, finish: how the upload and verification code uses
    the object. *)
Definition run_checksum (algorithm : ChecksumAlgorithm) (chunks : list bytes) :
    result ChecksumValue :=
  let? self := make_DataChecksum algorithm in
  let '(self, r) := update_all self chunks in
  let? _ := r in (DataChecksum_finish self).2.

Definition crc32_polynomial (algorithm : ChecksumAlgorithm) : option Z :=
  match algorithm with
  | CHECKSUM_CRC32 => Some 0xedb88320
  | CHECKSUM_CRC32C => Some 0x82f63b78
  | _ => None
  end.

Definition crc64_polynomial (algorithm : ChecksumAlgorithm) : option Z :=
  match algorithm with
  | CHECKSUM_CRC64NVME => Some 0x9a6c9329ac4bc9b5
  | CHECKSUM_CRC64XZ => Some 0xc96c5795d7870f42
  | _ => None
  end.

Definition crc32_of (p : Z) (data : bytes) : Z := Z.lxor (crc_ref p UINT32_MAX data) UINT32_MAX.

Lemma crc32_polynomial_range a p : crc32_polynomial a = Some p -> is_u32 p.
Proof. destruct a; intros [= <-]; lia. Qed.

Lemma crc64_polynomial_range a p : crc64_polynomial a = Some p -> is_u64 p.
Proof. destruct a; intros [= <-]; lia. Qed.

Lemma update_all_crc64 a p chunks crc :
  crc64_polynomial a = Some p -> is_u64 crc ->
  update_all {| dc_algorithm := a; dc_context := Context64 crc; dc_finished := false |} chunks
  = ({| dc_algorithm := a; dc_context := Context64 (crc_ref p crc (concat chunks));
        dc_finished := false |}, Ok tt).
Proof.
  intros Hp. pose proof (crc64_polynomial_range a p Hp) as Hr. revert crc.
  induction chunks as [|data chunks IH]; intros crc Hcrc; [done|].
  assert (DataChecksum_update
    {| dc_algorithm := a; dc_context := Context64 crc; dc_finished := false |} data
    = ({| dc_algorithm := a; dc_context := Context64 (crc_ref p crc data);
          dc_finished := false |}, Ok tt)) as E.
  { rewrite <- update_crc64_ref by done. destruct a; simplify_eq/=; reflexivity. }
  cbn [update_all concat]. rewrite E, crc_ref_app. apply IH, crc_ref_range; [lia|done|done].
Qed.

Lemma update_all_crc32 a p chunks crc :
  crc32_polynomial a = Some p -> is_u32 crc ->
  update_all {| dc_algorithm := a; dc_context := Context32 crc; dc_finished := false |} chunks
  = ({| dc_algorithm := a; dc_context := Context32 (crc_ref p crc (concat chunks));
        dc_finished := false |}, Ok tt).
Proof.
  intros Hp. pose proof (crc32_polynomial_range a p Hp) as Hr. revert crc.
  induction chunks as [|data chunks IH]; intros crc Hcrc; [done|].
  assert (DataChecksum_update
    {| dc_algorithm := a; dc_context := Context32 crc; dc_finished := false |} data
    = ({| dc_algorithm := a; dc_context := Context32 (crc_ref p crc data);
          dc_finished := false |}, Ok tt)) as E.
  { rewrite <- update_crc32_ref by done. destruct a; simplify_eq/=; reflexivity. }
  cbn [update_all concat]. rewrite E, crc_ref_app. apply IH, crc_ref_range; [lia|done|done].
Qed.

Lemma run_checksum_crc64 a p chunks :
  crc64_polynomial a = Some p ->
  run_checksum a chunks = crc64_checksum_value (crc64_of p (concat chunks)).
Proof.
  intros Hp. unfold run_checksum.
  assert (make_DataChecksum a = Ok {| dc_algorithm := a; dc_context := Context64 UINT64_MAX;
                                      dc_finished := false |}) as -> by by destruct a.
  cbn [rbind]. rewrite (update_all_crc64 a p) by done. by destruct a.
Qed.

Lemma run_checksum_crc32 a p chunks :
  crc32_polynomial a = Some p ->
  run_checksum a chunks =
    let crc := crc32_of p (concat chunks) in
    let? text := checksum_base64
      [byte_at crc 24; byte_at crc 16; byte_at crc 8; byte_at crc 0] in
    Ok {| cv_base64 := text; cv_integer := crc |}.
Proof.
  intros Hp. unfold run_checksum.
  assert (make_DataChecksum a = Ok {| dc_algorithm := a; dc_context := Context32 UINT32_MAX;
                                      dc_finished := false |}) as -> by by destruct a.
  cbn [rbind]. rewrite (update_all_crc32 a p) by done. by destruct a.
Qed.
End DataChecksum.

(** ** Library digests *)

(** What OpenSSL and xxHash document of their streaming interfaces: updating with [x] and
    then with [y] is updating with [x] followed by [y], an empty update changes nothing, and
    an update reports success. *)
Class DigestStreaming (lib : DigestLibrary) : Prop := {
  digest_update_nil a c : digest_update a c [] = (c, true);
  digest_update_app a c x y :
    digest_update a c (x ++ y) = digest_update a (digest_update a c x).1 y;
  digest_update_ok a c x : (digest_update a c x).2 = true;
}.

Definition is_library (a : ChecksumAlgorithm) : bool :=
  match a with
  | CHECKSUM_MD5 | CHECKSUM_SHA1 | CHECKSUM_SHA256 | CHECKSUM_SHA512
  | CHECKSUM_XXHASH64 | CHECKSUM_XXHASH3 | CHECKSUM_XXHASH128 => true
  | _ => false
  end.

Lemma update_library `{lib : DigestLibrary} a c data :
  is_library a = true ->
  DataChecksum_update
    {| dc_algorithm := a; dc_context := ContextLibrary c; dc_finished := false |} data =
  let '(c, ok) := digest_update a c data in
  ({| dc_algorithm := a; dc_context := ContextLibrary c; dc_finished := false |},
   if ok then Ok tt else Throw RuntimeError).
Proof. by destruct a. Qed.

Lemma update_all_library `{Hlib : DigestStreaming} a chunks c :
  is_library a = true ->
  update_all {| dc_algorithm := a; dc_context := ContextLibrary c; dc_finished := false |} chunks =
  ({| dc_algorithm := a; dc_context := ContextLibrary (digest_update a c (concat chunks)).1;
      dc_finished := false |}, Ok tt).
Proof.
  intros Ha. revert c. induction chunks as [|data chunks IH]; intros c.
  - cbn. by rewrite digest_update_nil.
  - cbn [update_all concat]. rewrite update_library, digest_update_app by done.
    pose proof (digest_update_ok a c data). destruct (digest_update a c data) as [c' ok].
    cbn in *. subst ok. apply IH.
Qed.

Lemma make_library `{lib : DigestLibrary} a :
  is_library a = true ->
  make_DataChecksum a =
  if (digest_init a).2
  then Ok {| dc_algorithm := a; dc_context := ContextLibrary (digest_init a).1;
             dc_finished := false |}
  else Throw RuntimeError.
Proof. destruct a; try done; cbn; intros _; by destruct (digest_init _) as [c ok]. Qed.

(** Every algorithm that has no digest is refused by the constructor. *)
Lemma run_checksum_none `{lib : DigestLibrary} a chunks :
  crc32_polynomial a = None -> crc64_polynomial a = None -> is_library a = false ->
  run_checksum a chunks = Throw InvalidArgument.
Proof. by destruct a. Qed.

(** ** Claims *)

(** the value [DataChecksum] returns for a CRC depends only on the concatenation of the
    chunks it was fed, and is the complemented bit-serial CRC of that concatenation started at
    all ones, in big-endian base64 and as an integer. *)
Theorem checksum_crc_value `{lib : DigestLibrary} a p chunks :
  (crc64_polynomial a = Some p ->
     run_checksum a chunks = crc64_checksum_value (crc64_of p (concat chunks))) /\
  (crc32_polynomial a = Some p ->
     run_checksum a chunks =
       let crc := crc32_of p (concat chunks) in
       let? text := checksum_base64
         [byte_at crc 24; byte_at crc 16; byte_at crc 8; byte_at crc 0] in
       Ok {| cv_base64 := text; cv_integer := crc |}).
Proof. split; [apply run_checksum_crc64|apply run_checksum_crc32]. Qed.

(** A digest library to evaluate the model with: the context is the data seen so far. *)
Definition toy_library : DigestLibrary := {|
  digest_ctx := bytes;
  digest_init _ := ([], true);
  digest_update _ c data := (c ++ data, true);
  digest_final _ c := Some c;
  xxh_digest _ c := c;
  encode_block d := Some d;
|}.

Lemma checksum_crc_value_witness :
  @run_checksum toy_library CHECKSUM_CRC64NVME [lit "1234"; lit "56789"] =
  @crc64_checksum_value toy_library (crc64_of 0x9a6c9329ac4bc9b5 (lit "123456789")).
Proof.
  apply (@checksum_crc_value toy_library CHECKSUM_CRC64NVME 0x9a6c9329ac4bc9b5
           [lit "1234"; lit "56789"]). reflexivity.
Defined.

(** the value [DataChecksum] returns for MD5, SHA or xxHash does not depend on how the
    data was cut into chunks. *)
Theorem checksum_library_chunks `{Hlib : DigestStreaming} a chunks chunks' :
  is_library a = true -> concat chunks = concat chunks' ->
  run_checksum a chunks = run_checksum a chunks'.
Proof.
  intros Ha Heq. unfold run_checksum. rewrite make_library by done.
  destruct (digest_init a) as [c [|]]; cbn; [|done].
  rewrite !update_all_library, Heq by done. done.
Qed.

Lemma toy_streaming : DigestStreaming toy_library.
Proof.
  constructor; cbn; intros; [by rewrite app_nil_r|by rewrite app_assoc|done].
Qed.

Lemma checksum_library_chunks_witness :
  @run_checksum toy_library CHECKSUM_SHA256 [lit "ab"; lit "c"] =
  @run_checksum toy_library CHECKSUM_SHA256 [lit "a"; []; lit "bc"].
Proof.
  apply (@checksum_library_chunks toy_library toy_streaming CHECKSUM_SHA256); reflexivity.
Defined.

(** [combine_crc64] of the integers of two consecutive parts and the length of the second
    part is the integer of the whole object, for both CRC64 algorithms and any chunking. *)
Theorem combine_crc64_parts `{lib : DigestLibrary} a p first second vf vs v :
  crc64_polynomial a = Some p -> vsize (concat second) < 2 ^ 64 ->
  run_checksum a first = Ok vf -> run_checksum a second = Ok vs ->
  run_checksum a (first ++ second) = Ok v ->
  combine_crc64 a (cv_integer vf) (cv_integer vs) (vsize (concat second)) = Ok (cv_integer v).
Proof.
  intros Hp Hlen. rewrite !(run_checksum_crc64 a p) by done. rewrite concat_app.
  unfold crc64_checksum_value. rewrite !rbind_ok. intros (? & _ & ?) (? & _ & ?) (? & _ & ?).
  simplify_eq. cbn [cv_integer]. pose proof (crc64_polynomial_range a p Hp).
  unfold combine_crc64. destruct (Z.eqb_spec (vsize (concat second)) 0) as [E|E].
  { destruct (concat second); [by rewrite app_nil_r|]. unfold vsize in E. cbn in E. lia. }
  rewrite <- (combine_crc64_with_spec p) by (pose proof (vsize_nonneg (concat second)); lia).
  by destruct a; try discriminate Hp; injection Hp as <-.
Qed.

Definition xz_value (data : bytes) : ChecksumValue :=
  let crc := crc64_of 0xc96c5795d7870f42 data in
  {| cv_base64 := map (fun i => byte_at crc (56 - i * 8)) (zrange 0 8); cv_integer := crc |}.

Lemma combine_crc64_parts_witness :
  combine_crc64 CHECKSUM_CRC64XZ (cv_integer (xz_value (lit "1234")))
    (cv_integer (xz_value (lit "56789"))) (vsize (concat [lit "56"; lit "789"]))
  = Ok (cv_integer (xz_value (lit "123456789"))).
Proof.
  apply (@combine_crc64_parts toy_library CHECKSUM_CRC64XZ 0xc96c5795d7870f42
    [lit "1234"] [lit "56"; lit "789"]); vm_compute; reflexivity.
Defined.

(** a finished [DataChecksum] refuses every further [update] and [finish] and keeps its
    state; [finish] finishes the object whether or not it throws, and [update] never does. *)
Theorem checksum_finished `{lib : DigestLibrary} self data :
  dc_finished (DataChecksum_finish self).1 = true /\
  dc_finished (DataChecksum_update self data).1 = dc_finished self /\
  DataChecksum_finish (DataChecksum_finish self).1
    = ((DataChecksum_finish self).1, Throw LogicError) /\
  DataChecksum_update (DataChecksum_finish self).1 data
    = ((DataChecksum_finish self).1, Throw LogicError).
Proof.
  destruct self as [a c [|]]; [done|]. split_and!; [done| |done|done].
  unfold DataChecksum_update. cbn. destruct a; try done; destruct c; try done;
    by destruct (digest_update _ _ _) as [? [|]].
Qed.

Lemma ascii_equal_spec a b :
  ascii_equal_ignore_case a b = true <-> map tolower a = map tolower b.
Proof.
  unfold ascii_equal_ignore_case, vsize. rewrite andb_true_iff, Z.eqb_eq, Nat2Z.inj_iff.
  revert b. induction a as [|x a IH]; intros [|y b]; cbn; try (by split; [intros []|]; try done).
  rewrite andb_true_iff. unfold ascii_eqb in *. rewrite Ascii.eqb_eq. specialize (IH b).
  split; [intros ([=] & -> & Hf); f_equal; apply IH; done|].
  intros [= -> Hm]. apply IH in Hm as [-> Hf]. done.
Qed.

(** option names round-trip: parsing the name of an algorithm, in any letter case, gives
    the algorithm back, and two texts that differ only in letter case parse alike. *)
Theorem checksum_name_roundtrip a text text' :
  parse_checksum_algorithm (checksum_option_name a) = Some a /\
  (map tolower text = map tolower text' ->
   parse_checksum_algorithm text = parse_checksum_algorithm text').
Proof.
  split; [by destruct a|]. intros H. unfold parse_checksum_algorithm.
  induction checksum_values as [|[n v] l IH]; [done|]. cbn.
  assert (ascii_equal_ignore_case text n = ascii_equal_ignore_case text' n) as ->; [|by rewrite IH].
  apply eq_iff_eq_true. by rewrite !ascii_equal_spec, H.
Qed.

Lemma checksum_name_roundtrip_witness :
  parse_checksum_algorithm (lit "SHA256") = parse_checksum_algorithm (lit "sha256").
Proof. apply (checksum_name_roundtrip CHECKSUM_SHA256); reflexivity. Defined.
