(* ===== verification/Calendar.v ===== *)
(** * Dates: Last-Modified, credential expiration and the SigV4 timestamp

    Models the calendar code of [src/src/s3.cpp] ([fixed_decimal] to [parse_http_mtime],
    [amz_datetime], [amz_datetime_now]) and of [src/src/credentials.cpp]
    ([days_from_civil], [parse_expiration]).  The specification counts days one year, one
    month and one day at a time.  [time_t] is a signed 64-bit integer. *)

From S2P Require Import Prelude StdText.

(** ** s3.cpp *)

(** [unsigned] arithmetic: the accumulator wraps at 32 bits. *)
Definition fixed_decimal (s : bytes) (p n : Z) : result Z :=
  if p + n >? vsize s then Throw RuntimeError
  else fold_left (fun value i =>
         let? value := value in
         let c := at_z s (p + i) in
         if isdigit c then Ok (u32 (value * 10 + digit_value c)) else Throw RuntimeError)
       (zrange 0 n) (Ok 0).

Definition leap_year (y : Z) : bool :=
  (y mod 4 =? 0) && (negb (y mod 100 =? 0) || (y mod 400 =? 0)).

Definition month_days : list Z := [31; 28; 31; 30; 31; 30; 31; 31; 30; 31; 30; 31].

(** The day count shared by [utc_time] and [days_from_civil]; C++ division truncates. *)
Definition civil_days (y m d : Z) : Z :=
  let adjusted_year := y - Z.b2z (m <=? 2) in
  let era := Z.quot (if 0 <=? adjusted_year then adjusted_year else adjusted_year - 399) 400 in
  let year_of_era := u32 (adjusted_year - era * 400) in
  let adjusted_month := if m >? 2 then m - 3 else m + 9 in
  let day_of_year := (153 * adjusted_month + 2) / 5 + d - 1 in
  let day_of_era := u32 (year_of_era * 365 + year_of_era / 4 - year_of_era / 100 + day_of_year) in
  era * 146097 + day_of_era - 719468.

Definition utc_time (y m d h n z : Z) : result Z :=
  if (m =? 0) || (m >? 12) || (d =? 0) ||
     (d >? vget 0 month_days (m - 1) + Z.b2z ((m =? 2) && leap_year y)) ||
     (h >? 23) || (n >? 59) || (z >? 59)
  then Throw RuntimeError
  else
    let days := civil_days y m d in
    let seconds := days * 86400 + (h * 3600 + n * 60 + z) in
    if (seconds <? INT64_MIN) || (seconds >? INT64_MAX) then Throw RuntimeError
    else Ok seconds.

(** [s[i] != c]. *)
Definition differs (s : bytes) (i : Z) (c : ascii) : bool := negb (ascii_eqb (at_z s i) c).

Definition parse_s3_mtime (s : bytes) : result Z :=
  if (vsize s <? 20) || differs s 4 "-" || differs s 7 "-" ||
     differs s 10 "T" || differs s 13 ":" || differs s 16 ":"
  then Throw RuntimeError
  else if
    if negb (differs s 19 ".") then
      differs s (vsize s - 1) "Z" || (vsize s =? 21) ||
      existsb (fun i => negb (isdigit (at_z s i))) (zrange 20 (vsize s - 1))
    else negb (vsize s =? 20) || differs s 19 "Z"
  then Throw RuntimeError
  else
    let? y := fixed_decimal s 0 4 in
    let? m := fixed_decimal s 5 2 in
    let? d := fixed_decimal s 8 2 in
    let? h := fixed_decimal s 11 2 in
    let? n := fixed_decimal s 14 2 in
    let? z := fixed_decimal s 17 2 in
    utc_time y m d h n z.

Definition weekdays : list bytes :=
  map lit ["Mon"; "Tue"; "Wed"; "Thu"; "Fri"; "Sat"; "Sun"]%string.

Definition months : list bytes :=
  map lit ["Jan"; "Feb"; "Mar"; "Apr"; "May"; "Jun";
           "Jul"; "Aug"; "Sep"; "Oct"; "Nov"; "Dec"]%string.

(** [std::find(begin, end, x) - begin]; [None] is [end]. *)
Fixpoint find_index (l : list bytes) (x : bytes) : option Z :=
  match l with
  | [] => None
  | y :: l => if str_eqb y x then Some 0 else Z.succ <$> find_index l x
  end.

Definition parse_http_mtime (s : bytes) : result Z :=
  if negb (vsize s =? 29) || differs s 3 "," || differs s 4 " " || differs s 7 " " ||
     differs s 11 " " || differs s 16 " " || differs s 19 ":" || differs s 22 ":" ||
     differs s 25 " " || negb (str_eqb (drop_z 26 s) (lit "GMT"))
  then Throw RuntimeError
  else match find_index weekdays (substr s 0 3) with
  | None => Throw RuntimeError
  | Some _ =>
      match find_index months (substr s 8 3) with
      | None => Throw RuntimeError
      | Some month =>
          let? y := fixed_decimal s 12 4 in
          let? d := fixed_decimal s 5 2 in
          let? h := fixed_decimal s 17 2 in
          let? n := fixed_decimal s 20 2 in
          let? z := fixed_decimal s 23 2 in
          utc_time y (month + 1) d h n z
      end
  end.

(** [std::chrono::year_month_day{sys_days}]: the proleptic Gregorian date of a day number. *)
Definition civil_from_days (days : Z) : Z * Z * Z :=
  let z := days + 719468 in
  let era := z / 146097 in
  let doe := z mod 146097 in
  let yoe := (doe - doe / 1460 + doe / 36524 - doe / 146096) / 365 in
  let doy := doe - (365 * yoe + yoe / 4 - yoe / 100) in
  let mp := (5 * doy + 2) / 153 in
  let d := doy - (153 * mp + 2) / 5 + 1 in
  let m := if mp <? 10 then mp + 3 else mp - 9 in
  (yoe + era * 400 + Z.b2z (m <=? 2), m, d).

Definition write_2digits (n : Z) : bytes := [chr (48 + n / 10); chr (48 + n mod 10)].
Definition write_4digits (n : Z) : bytes := write_2digits (n / 100) ++ write_2digits (n mod 100).

(** A [std::chrono::year] holds -32767 to 32767; beyond it the year is unspecified, so the
    statements about [amz_datetime] are for epochs below [2 ^ 39], about the year 19391. *)
Definition amz_datetime (epoch_seconds : Z) : result bytes :=
  let day := epoch_seconds / 86400 in
  let time := epoch_seconds mod 86400 in
  let '(year, month, date) := civil_from_days day in
  if (year <? 0) || (year >? 9999) then Throw OutOfRange
  else Ok (write_4digits year ++ write_2digits month ++ write_2digits date ++ ["T"%char] ++
           write_2digits (time / 3600) ++ write_2digits (time / 60 mod 60) ++
           write_2digits (time mod 60) ++ ["Z"%char]).

(** The [thread_local] cache of [amz_datetime_now]; [now] is the second that
    [clock_gettime] reported, [None] its failure. *)
Record DatetimeCache := { dt_second : Z; dt_value : bytes }.

Definition initial_datetime_cache : DatetimeCache := {| dt_second := INT64_MIN; dt_value := [] |}.

Definition amz_datetime_now (cache : DatetimeCache) (now : option Z) :
    DatetimeCache * result bytes :=
  match now with
  | None => (cache, Throw RuntimeError)
  | Some second =>
      if negb (dt_second cache =? second) then
        match amz_datetime second with
        | Ok value => ({| dt_second := second; dt_value := value |}, Ok value)
        | Throw e => ({| dt_second := second; dt_value := dt_value cache |}, Throw e)
        end
      else (cache, Ok (dt_value cache))
  end.

(** ** credentials.cpp *)

Definition days_from_civil (year month day : Z) : Z :=
  let year := year - Z.b2z (month <=? 2) in
  let era := Z.quot (if 0 <=? year then year else year - 399) 400 in
  let yoe := u32 (year - era * 400) in
  let shifted_month := if month >? 2 then month - 3 else month + 9 in
  let doy := (153 * shifted_month + 2) / 5 + day - 1 in
  let doe := u32 (yoe * 365 + yoe / 4 - yoe / 100 + doy) in
  era * 146097 + doe - 719468.

Definition number (s : bytes) (begin length : Z) : result Z :=
  match from_chars_all UINT32_MAX (substr s begin length) with
  | Some value => Ok value
  | None => Throw RuntimeError
  end.

Definition days_per_month : list Z := [0; 31; 28; 31; 30; 31; 30; 31; 31; 30; 31; 30; 31].

(** [while (end < s.size() && isdigit(s[end])) ++end]. *)
Definition skip_digits (s : bytes) (end_ : Z) : Z :=
  end_ + vsize (span_digits (drop_z end_ s)).1.

Definition parse_expiration (s : bytes) : result Z :=
  if (vsize s <? 20) || differs s 4 "-" || differs s 7 "-" ||
     (differs s 10 "T" && differs s 10 "t") || differs s 13 ":" || differs s 16 ":"
  then Throw RuntimeError
  else
    let? year := number s 0 4 in
    let? month := number s 5 2 in
    let? day := number s 8 2 in
    let? hour := number s 11 2 in
    let? minute := number s 14 2 in
    let? second := number s 17 2 in
    if (year <? 1970) || (month =? 0) || (month >? 12) || (day =? 0) ||
       (day >? vget 0 days_per_month month + Z.b2z ((month =? 2) && leap_year year)) ||
       (hour >? 23) || (minute >? 59) || (second >? 60)
    then Throw RuntimeError
    else
      let fraction := (19 <? vsize s) && negb (differs s 19 ".") in
      let end_ := if fraction then skip_digits s 20 else 19 in
      if fraction && (end_ =? 20) then Throw RuntimeError
      else if negb (end_ + 1 =? vsize s) || (differs s end_ "Z" && differs s end_ "z")
      then Throw RuntimeError
      else Ok (days_from_civil year month day * 86400 + hour * 3600 + minute * 60 + second).

Example mtime_values :
  parse_s3_mtime (lit "2024-02-29T12:34:56.789Z") = Ok 1709210096 /\
  parse_http_mtime (lit "Thu, 29 Feb 2024 12:34:56 GMT") = Ok 1709210096 /\
  parse_expiration (lit "2024-02-29t12:34:56.7z") = Ok 1709210096 /\
  amz_datetime 1709210096 = Ok (lit "20240229T123456Z").
Proof. vm_compute. auto. Qed.

(** ** Specification: counting days

    Day 0 is 1970-01-01; [ref_days] adds up the lengths of the earlier years since year 0, of
    the earlier months of the year, and the earlier days of the month. *)

Definition year_length (y : Z) : Z := 365 + Z.b2z (leap_year y).
Definition month_length (y m : Z) : Z :=
  vget 0 month_days (m - 1) + Z.b2z ((m =? 2) && leap_year y).

Definition ref_days (y m d : Z) : Z :=
  zsum year_length (zrange 0 y) + zsum (month_length y) (zrange 1 m) + (d - 1) - 719528.

Definition valid_date (y m d : Z) : Prop := 1 <= m <= 12 /\ 1 <= d <= month_length y m.
Definition valid_clock (h n z : Z) : Prop := 0 <= h <= 23 /\ 0 <= n <= 59 /\ 0 <= z <= 59.

Lemma years_before y :
  0 <= y -> zsum year_length (zrange 0 y) = 365 * y + (y + 3) / 4 - (y + 99) / 100 + (y + 399) / 400.
Proof.
  revert y. apply natlike_ind; [done|]. intros y Hy IH.
  unfold Z.succ. rewrite zrange_snoc, zsum_app, IH by lia. cbn.
  unfold year_length, leap_year.
  destruct (Z.eqb_spec (y mod 4) 0), (Z.eqb_spec (y mod 100) 0), (Z.eqb_spec (y mod 400) 0);
    cbn; Z.to_euclidean_division_equations; lia.
Qed.

Lemma month_cases (P : Z -> Prop) :
  P 1 -> P 2 -> P 3 -> P 4 -> P 5 -> P 6 -> P 7 -> P 8 -> P 9 -> P 10 -> P 11 -> P 12 ->
  forall m, 1 <= m <= 12 -> P m.
Proof.
  intros ???????????? m Hm.
  assert (m = 1 \/ m = 2 \/ m = 3 \/ m = 4 \/ m = 5 \/ m = 6 \/ m = 7 \/ m = 8 \/ m = 9 \/
          m = 10 \/ m = 11 \/ m = 12) as H' by lia.
  by repeat destruct H' as [->|H']; subst.
Qed.

(** Evaluate the month table at a constant month. *)
Ltac eval_months :=
  unfold month_length; cbn [Z.eqb Pos.eqb andb];
  repeat match goal with
  | |- context [vget 0 month_days ?k] =>
      let v := eval vm_compute in (vget 0 month_days k) in change (vget 0 month_days k) with v
  | |- context [zrange 1 ?m] =>
      let v := eval vm_compute in (zrange 1 m) in change (zrange 1 m) with v; cbn [zsum foldr]
  end; cbn [Z.eqb Pos.eqb andb].

Lemma month_length_range y m : 1 <= m <= 12 -> 28 <= month_length y m <= 31.
Proof.
  revert m. apply (month_cases (fun m => 28 <= month_length y m <= 31));
    eval_months; destruct (leap_year y); cbn; lia.
Qed.

(** The era arithmetic without the machine conversions, for a year counted from March. *)
Lemma civil_days_era y m d :
  0 <= y -> 1 <= m <= 12 -> 1 <= d <= 31 ->
  civil_days y m d =
  let a := y - Z.b2z (m <=? 2) in
  let mp := if m >? 2 then m - 3 else m + 9 in
  365 * a + a / 4 - a / 100 + a / 400 + ((153 * mp + 2) / 5 + d - 1) - 719468.
Proof.
  intros Hy Hm Hd. unfold civil_days.
  assert (0 <= (153 * (if m >? 2 then m - 3 else m + 9) + 2) / 5 <= 337) as Hdoy.
  { destruct (Z.gtb_spec m 2); Z.to_euclidean_division_equations; lia. }
  generalize dependent ((153 * (if m >? 2 then m - 3 else m + 9) + 2) / 5). intros doy Hdoy.
  cbv zeta. assert (-1 <= y - Z.b2z (m <=? 2)) as Ha by (destruct (m <=? 2); cbn; lia).
  generalize dependent (y - Z.b2z (m <=? 2)). intros a Ha.
  assert (Z.quot (if 0 <=? a then a else a - 399) 400 = a / 400) as ->.
  { destruct (Z.leb_spec 0 a); [apply Z.quot_div_nonneg; lia|].
    assert (a = -1) as -> by lia. done. }
  rewrite (u32_small (a - a / 400 * 400)), u32_small;
    Z.to_euclidean_division_equations; lia.
Qed.

Lemma civil_days_ref y m d :
  0 <= y -> 1 <= m <= 12 -> 1 <= d <= 31 -> civil_days y m d = ref_days y m d.
Proof.
  intros Hy Hm Hd. rewrite civil_days_era by done. unfold ref_days.
  rewrite years_before by done. revert m Hm.
  apply month_cases; eval_months; unfold leap_year; cbn;
    destruct (Z.eqb_spec (y mod 4) 0), (Z.eqb_spec (y mod 100) 0), (Z.eqb_spec (y mod 400) 0);
    cbn; Z.to_euclidean_division_equations; lia.
Qed.

(** ** The inverse *)

(** First day of a year of the era (years begin in March), and the quotient that
    [civil_from_days] divides by 365 to find the year. *)
Definition era_start (yoe : Z) : Z := 365 * yoe + yoe / 4 - yoe / 100 + yoe / 400.
Definition era_quotient (doe : Z) : Z := doe - doe / 1460 + doe / 36524 - doe / 146096.

Lemma all_below (P : Z -> bool) n i :
  forallb P (zrange 0 n) = true -> 0 <= i < n -> P i = true.
Proof.
  intros H Hi. rewrite forallb_forall in H. apply H. by apply list_elem_of_In, elem_of_zrange.
Qed.

Lemma era_quotient_mono a b : 0 <= a <= b -> b < 146097 -> era_quotient a <= era_quotient b.
Proof. unfold era_quotient. intros. Z.to_euclidean_division_equations. lia. Qed.

Definition era_year_ok (y : Z) : bool :=
  (era_quotient (era_start y) / 365 =? y) &&
  (era_quotient (era_start (y + 1) - 1) / 365 =? y) &&
  (era_start (y + 1) - era_start y =? 365 + Z.b2z (leap_year (y + 1))).

Lemma era_year_spec y : 0 <= y < 400 -> era_year_ok y = true.
Proof. apply all_below. vm_compute. reflexivity. Qed.

Lemma era_start_range y : 0 <= y <= 400 -> 0 <= era_start y <= 146097.
Proof. unfold era_start. intros. Z.to_euclidean_division_equations. lia. Qed.

(** The division finds the year of the era. *)
Lemma era_year doe :
  0 <= doe < 146097 ->
  let y := era_quotient doe / 365 in
  0 <= y < 400 /\ 0 <= doe - era_start y < 365 + Z.b2z (leap_year (y + 1)).
Proof.
  intros Hd y. assert (0 <= y < 400) as Hy.
  { subst y. unfold era_quotient. Z.to_euclidean_division_equations. lia. }
  split; [done|]. assert (era_quotient doe / 365 = y) as Hq by done. clearbody y.
  assert (era_start 0 = 0) by done. assert (era_start 400 = 146097) by done.
  pose proof (era_year_spec y Hy) as Hok. unfold era_year_ok in Hok. bool_case.
  pose proof (era_start_range y ltac:(lia)). pose proof (era_start_range (y + 1) ltac:(lia)).
  split.
  - destruct (Z.le_gt_cases (era_start y) doe); [lia|exfalso].
    assert (y <> 0) by (intros ->; lia).
    pose proof (era_year_spec (y - 1) ltac:(lia)) as Hok. unfold era_year_ok in Hok. bool_case.
    replace (y - 1 + 1) with y in * by lia.
    pose proof (era_quotient_mono doe (era_start y - 1) ltac:(lia) ltac:(lia)) as Hm.
    apply (Z.div_le_mono _ _ 365 eq_refl) in Hm. lia.
  - destruct (Z.le_gt_cases (era_start (y + 1)) doe); [exfalso|lia].
    assert (y <> 399) by (intros ->; change (399 + 1) with 400 in *; lia).
    pose proof (era_year_spec (y + 1) ltac:(lia)) as Hok. unfold era_year_ok in Hok. bool_case.
    pose proof (era_quotient_mono (era_start (y + 1)) doe ltac:(lia) ltac:(lia)) as Hm.
    apply (Z.div_le_mono _ _ 365 eq_refl) in Hm. lia.
Qed.

(** Month and day from the day of the year. *)
Definition month_ok (leap : bool) (doy : Z) : bool :=
  let mp := (5 * doy + 2) / 153 in
  let m := if mp <? 10 then mp + 3 else mp - 9 in
  let d := doy - (153 * mp + 2) / 5 + 1 in
  (1 <=? m) && (m <=? 12) && (1 <=? d) &&
  (d <=? vget 0 month_days (m - 1) + Z.b2z ((m =? 2) && leap)) &&
  ((if m >? 2 then m - 3 else m + 9) =? mp).

Lemma month_spec leap doy : 0 <= doy < 365 + Z.b2z leap -> month_ok leap doy = true.
Proof. apply all_below. destruct leap; vm_compute; reflexivity. Qed.

(** Year, month and day of [civil_from_days] within an era, and what they have to satisfy. *)
Definition era_date (doe : Z) : Z * Z * Z :=
  let yoe := (doe - doe / 1460 + doe / 36524 - doe / 146096) / 365 in
  let doy := doe - (365 * yoe + yoe / 4 - yoe / 100) in
  let mp := (5 * doy + 2) / 153 in
  (yoe, if mp <? 10 then mp + 3 else mp - 9, doy - (153 * mp + 2) / 5 + 1).

Lemma era_date_spec doe yoe m d :
  0 <= doe < 146097 -> era_date doe = (yoe, m, d) ->
  0 <= yoe < 400 /\ valid_date (yoe + Z.b2z (m <=? 2)) m d /\
  365 * yoe + yoe / 4 - yoe / 100 + ((153 * (if m >? 2 then m - 3 else m + 9) + 2) / 5 + d - 1)
    = doe.
Proof.
  intros Hdoe. unfold era_date. fold (era_quotient doe).
  destruct (era_year doe Hdoe) as [Hy Hdoy].
  set (y := era_quotient doe / 365) in *.
  assert (era_start y = 365 * y + y / 4 - y / 100) as Es.
  { unfold era_start. rewrite (Z.div_small y 400) by lia. lia. }
  rewrite Es in Hdoy. set (doy := doe - (365 * y + y / 4 - y / 100)) in *.
  pose proof (month_spec _ _ Hdoy) as Hok. unfold month_ok in Hok.
  intros [= <- <- <-]. set (mp := (5 * doy + 2) / 153) in *.
  set (m := if mp <? 10 then mp + 3 else mp - 9) in *.
  bool_case. split; [done|].
  split; [|match goal with H : _ = mp |- _ => rewrite H end; subst doy; lia].
  split; [lia|]. split; [lia|]. unfold month_length.
  assert ((m =? 2) && leap_year (y + Z.b2z (m <=? 2)) = (m =? 2) && leap_year (y + 1)) as ->.
  { clearbody m. by destruct (Z.eqb_spec m 2) as [->|]. }
  lia.
Qed.

Lemma leap_year_era y k : leap_year (y + k * 400) = leap_year y.
Proof.
  unfold leap_year. rewrite Z_mod_plus_full.
  replace ((y + k * 400) mod 4) with (y mod 4)
    by (replace (y + k * 400) with (y + k * 100 * 4) by lia; by rewrite Z_mod_plus_full).
  replace ((y + k * 400) mod 100) with (y mod 100)
    by (replace (y + k * 400) with (y + k * 4 * 100) by lia; by rewrite Z_mod_plus_full).
  done.
Qed.

Lemma civil_from_days_spec days y m d :
  civil_from_days days = (y, m, d) ->
  valid_date y m d /\ (0 <= y -> civil_days y m d = days).
Proof.
  set (doe := (days + 719468) mod 146097). set (era := (days + 719468) / 146097).
  pose proof (Z.mod_pos_bound (days + 719468) 146097 eq_refl) as Hdoe. fold doe in Hdoe.
  pose proof (Z.div_mod (days + 719468) 146097 ltac:(lia)) as Hz. fold doe era in Hz.
  assert (civil_from_days days = let '(yoe, m, d) := era_date doe in
            (yoe + era * 400 + Z.b2z (m <=? 2), m, d)) as -> by done.
  destruct (era_date doe) as [[yoe m'] d'] eqn:E. intros [= <- <- <-].
  destruct (era_date_spec doe yoe m' d' Hdoe E) as (Hyoe & [Hm' Hd'] & Heq).
  assert (month_length (yoe + era * 400 + Z.b2z (m' <=? 2)) m'
                     = month_length (yoe + Z.b2z (m' <=? 2)) m') as Hlen.
  { unfold month_length. do 3 f_equal.
    replace (yoe + era * 400 + _) with (yoe + Z.b2z (m' <=? 2) + era * 400) by lia.
    apply leap_year_era. }
  pose proof (month_length_range (yoe + Z.b2z (m' <=? 2)) m' Hm').
  split; [split; [done|rewrite Hlen; lia]|]. intros Hy.
  rewrite civil_days_era by (try done; lia). cbv zeta.
  replace (yoe + era * 400 + Z.b2z (m' <=? 2) - Z.b2z (m' <=? 2)) with (yoe + era * 400) by lia.
  assert ((yoe + era * 400) / 4 = yoe / 4 + era * 100) as -> by (Z.to_euclidean_division_equations; lia).
  assert ((yoe + era * 400) / 100 = yoe / 100 + era * 4) as -> by (Z.to_euclidean_division_equations; lia).
  assert ((yoe + era * 400) / 400 = era) as -> by (Z.to_euclidean_division_equations; lia).
  lia.
Qed.

(** ** Fields *)

Lemma fold_digits_throw l e :
  fold_left (fun value c => let? value := value in
    if isdigit c then Ok (u32 (value * 10 + digit_value c)) else Throw RuntimeError) l (Throw e)
  = Throw e.
Proof. by induction l. Qed.

Lemma digits_value_bound l : Forall (fun c => isdigit c = true) l -> 0 <= digits_value 0 l < 10 ^ vsize l.
Proof.
  induction l as [|c l IH] using rev_ind; [done|].
  rewrite Forall_app, Forall_singleton. intros [Hl Hc].
  rewrite digits_value_app. unfold vsize. rewrite length_app. cbn [length digits_value].
  replace (Z.of_nat (length l + 1)) with (Z.succ (vsize l)) by (unfold vsize; lia).
  rewrite Z.pow_succ_r by apply vsize_nonneg. specialize (IH Hl).
  unfold isdigit in Hc. unfold digit_value. bool_case. lia.
Qed.

Lemma fold_digits l v :
  0 <= v -> v * 10 ^ vsize l + 10 ^ vsize l <= 2 ^ 32 ->
  fold_left (fun value c => let? value := value in
    if isdigit c then Ok (u32 (value * 10 + digit_value c)) else Throw RuntimeError) l (Ok v)
  = if forallb isdigit l then Ok (digits_value v l) else Throw RuntimeError.
Proof.
  revert v. induction l as [|c l IH]; intros v Hv Hmax; [done|].
  cbn [fold_left forallb digits_value]. cbn [rbind]. destruct (isdigit c) eqn:Hc; cbn;
    [|apply fold_digits_throw].
  unfold vsize in *. cbn [length] in Hmax. rewrite Nat2Z.inj_succ, Z.pow_succ_r in Hmax by lia.
  assert (0 <= digit_value c <= 9) by (unfold isdigit in Hc; unfold digit_value; bool_case; lia).
  assert (1 <= 10 ^ Z.of_nat (length l)) by (apply (Z.pow_le_mono_r 10 0); lia).
  rewrite u32_small by nia. apply IH; nia.
Qed.

(** Both field readers accept exactly the all-digit fields and agree on them. *)
Lemma fixed_decimal_number s p n :
  0 <= p -> 0 < n <= 9 -> p + n <= vsize s -> fixed_decimal s p n = number s p n.
Proof.
  intros Hp Hn Hs. unfold fixed_decimal. rewrite Z.gtb_ltb, (proj2 (Z.ltb_ge _ _)) by lia.
  pose proof (map_at_z s p n Hp ltac:(lia) Hs) as Hmap.
  assert (vsize (substr s p n) = n) as Hlen.
  { rewrite <- Hmap. unfold vsize. rewrite length_map, length_zrange. lia. }
  unfold number. rewrite <- Hmap in *.
  set (l := map (fun i => at_z s (p + i)) (zrange 0 n)) in *.
  transitivity (fold_left (fun value c => let? value := value in
    if isdigit c then Ok (u32 (value * 10 + digit_value c)) else Throw RuntimeError) l (Ok 0)).
  { subst l. generalize (Ok (A:=Z) 0). generalize (zrange 0 n). clear.
    intros l. induction l as [|i l IH]; intros r; [done|]. cbn. by rewrite IH. }
  assert (10 ^ n <= 10 ^ 9) by (apply Z.pow_le_mono_r; lia). change (10 ^ 9) with 1000000000 in *.
  rewrite fold_digits by (rewrite ?Hlen; lia).
  destruct (forallb isdigit l) eqn:Hd.
  - rewrite forallb_forall in Hd.
    assert (from_chars_all UINT32_MAX l = Some (digits_value 0 l)) as ->; [|done].
    assert (Forall (fun c => isdigit c = true) l) as Hf.
    { apply Forall_forall. intros x Hx. by apply Hd, list_elem_of_In. }
    apply from_chars_all_spec. split_and!; [|done|done|].
    + intros ->. cbn in Hlen. unfold vsize in Hlen. cbn in Hlen. lia.
    + pose proof (digits_value_bound l Hf). rewrite Hlen in *. unfold UINT32_MAX. lia.
  - destruct (from_chars_all UINT32_MAX l) as [v|] eqn:E; [|done].
    apply from_chars_all_spec in E as (_ & Hf & _). exfalso.
    apply not_true_iff_false in Hd. apply Hd, forallb_forall. intros x Hx.
    rewrite Forall_forall in Hf. by apply Hf, list_elem_of_In.
Qed.

Lemma substr_app (a x b : bytes) : substr (a ++ x ++ b) (vsize a) (vsize x) = x.
Proof. unfold substr. by rewrite drop_app_z, take_app_z. Qed.

Lemma number_digits a x b p n v :
  p = vsize a -> n = vsize x -> 0 < n <= 9 ->
  Forall (fun c => isdigit c = true) x -> digits_value 0 x = v ->
  fixed_decimal (a ++ x ++ b) p n = Ok v.
Proof.
  intros -> -> Hn Hx <-. rewrite fixed_decimal_number;
    [|apply vsize_nonneg|done|unfold vsize; rewrite !length_app; lia].
  unfold number. rewrite substr_app.
  assert (from_chars_all UINT32_MAX x = Some (digits_value 0 x)) as ->; [|done].
  apply from_chars_all_spec. split_and!; [intros ->; unfold vsize in Hn; cbn in Hn; lia|done|done|].
  pose proof (digits_value_bound x Hx). pose proof (Z.pow_le_mono_r 10 (vsize x) 9).
  change (10 ^ 9) with 1000000000 in *. unfold UINT32_MAX. lia.
Qed.

Lemma write_2digits_spec n :
  0 <= n < 100 ->
  Forall (fun c => isdigit c = true) (write_2digits n) /\ digits_value 0 (write_2digits n) = n.
Proof.
  intros Hn. pose proof (Z.mod_pos_bound n 10 ltac:(lia)).
  assert (0 <= n / 10 < 10) by (Z.to_euclidean_division_equations; lia).
  split; [repeat constructor; by apply isdigit_chr|].
  cbn. rewrite !digit_value_chr by lia. Z.to_euclidean_division_equations; lia.
Qed.

Lemma write_4digits_spec n :
  0 <= n < 10000 ->
  Forall (fun c => isdigit c = true) (write_4digits n) /\ digits_value 0 (write_4digits n) = n.
Proof.
  intros Hn. pose proof (Z.mod_pos_bound n 100 ltac:(lia)).
  assert (0 <= n / 100 < 100) by (Z.to_euclidean_division_equations; lia).
  destruct (write_2digits_spec (n / 100)) as [? E1]; [done|].
  destruct (write_2digits_spec (n mod 100)) as [? E2]; [done|].
  split; [by apply Forall_app|]. unfold write_4digits.
  rewrite digits_value_app, E1, digits_value_acc, E2. change (10 ^ vsize _) with 100.
  Z.to_euclidean_division_equations; lia.
Qed.

(** ** Claims *)

Lemma civil_days_bound y m d :
  is_u32 y -> 1 <= m <= 12 -> 1 <= d <= 31 -> - 720000 <= civil_days y m d <= 366 * y.
Proof.
  intros Hy Hm Hd. rewrite civil_days_era by lia. cbv zeta.
  assert (0 <= (153 * (if m >? 2 then m - 3 else m + 9) + 2) / 5 <= 337) as Hdoy.
  { destruct (Z.gtb_spec m 2); Z.to_euclidean_division_equations; lia. }
  generalize dependent ((153 * (if m >? 2 then m - 3 else m + 9) + 2) / 5). intros doy Hdoy.
  destruct (m <=? 2); cbn [Z.b2z]; Z.to_euclidean_division_equations; lia.
Qed.

Lemma utc_time_ok y m d h n z :
  is_u32 y -> valid_date y m d -> valid_clock h n z ->
  utc_time y m d h n z = Ok (civil_days y m d * 86400 + (h * 3600 + n * 60 + z)).
Proof.
  intros Hy [Hm Hd] (Hh & Hn & Hz). pose proof (month_length_range y m Hm).
  pose proof (civil_days_bound y m d Hy Hm ltac:(lia)).
  unfold utc_time, INT64_MIN, INT64_MAX. unfold month_length in *. cbv zeta.
  destruct (_ || _) eqn:E; [exfalso; lia|]. clear E.
  destruct (_ || _) eqn:E; [exfalso; lia|done].
Qed.

#[global] Instance valid_date_dec y m d : Decision (valid_date y m d).
Proof. unfold valid_date. apply _. Defined.
#[global] Instance valid_clock_dec h n z : Decision (valid_clock h n z).
Proof. unfold valid_clock. apply _. Defined.

(** [utc_time] accepts exactly the real calendar dates and clock times and returns the
    number of seconds since 1970, counted year by year, month by month and day by day; it
    throws on everything else. *)
Theorem utc_time_counts_days y m d h n z :
  is_u32 y -> 0 <= m -> 0 <= d -> 0 <= h -> 0 <= n -> 0 <= z ->
  utc_time y m d h n z =
    if decide (valid_date y m d /\ valid_clock h n z)
    then Ok (ref_days y m d * 86400 + (h * 3600 + n * 60 + z))
    else Throw RuntimeError.
Proof.
  intros Hy Hm Hd Hh Hn Hz. case_decide as Hv.
  - destruct Hv as [Hdate Hclock]. rewrite utc_time_ok by done.
    destruct Hdate as [Hm' Hd']. pose proof (month_length_range y m Hm').
    by rewrite civil_days_ref by lia.
  - unfold utc_time. destruct (_ || _) eqn:E; [done|]. exfalso. apply Hv.
    unfold valid_date, valid_clock, month_length. bool_case. lia.
Qed.

Lemma utc_time_counts_days_witness :
  utc_time 2024 2 29 23 59 59 = Ok (ref_days 2024 2 29 * 86400 + (23 * 3600 + 59 * 60 + 59)) /\
  utc_time 2023 2 29 0 0 0 = Throw RuntimeError.
Proof.
  split.
  - rewrite (utc_time_counts_days 2024 2 29 23 59 59) by lia. reflexivity.
  - rewrite (utc_time_counts_days 2023 2 29 0 0 0) by lia. reflexivity.
Defined.

(** the SigV4 timestamp round-trips: reading the fields of [amz_datetime t] back with
    [fixed_decimal] and converting them with [utc_time] gives [t]. *)
Theorem amz_datetime_roundtrip t s :
  - 2 ^ 39 < t < 2 ^ 39 -> amz_datetime t = Ok s ->
  vsize s = 16 /\
  exists y m d h n z,
    fixed_decimal s 0 4 = Ok y /\ fixed_decimal s 4 2 = Ok m /\ fixed_decimal s 6 2 = Ok d /\
    fixed_decimal s 9 2 = Ok h /\ fixed_decimal s 11 2 = Ok n /\ fixed_decimal s 13 2 = Ok z /\
    utc_time y m d h n z = Ok t.
Proof.
  intros Ht. unfold amz_datetime.
  destruct (civil_from_days (t / 86400)) as [[y m] d] eqn:E.
  apply civil_from_days_spec in E as [[Hm Hd] Hdays].
  destruct (_ || _) eqn:Ey; [done|]. bool_case. intros <-%Ok_inj.
  pose proof (month_length_range y m Hm). specialize (Hdays ltac:(lia)).
  pose proof (Z.mod_pos_bound t 86400 ltac:(lia)).
  set (c := t mod 86400) in *.
  assert (valid_clock (c / 3600) (c / 60 mod 60) (c mod 60)) as Hclock.
  { unfold valid_clock. Z.to_euclidean_division_equations; lia. }
  destruct (write_4digits_spec y) as [Y1 Y2]; [lia|].
  destruct (write_2digits_spec m) as [M1 M2]; [lia|].
  destruct (write_2digits_spec d) as [D1 D2]; [lia|].
  destruct Hclock as (Hh & Hn & Hz).
  destruct (write_2digits_spec (c / 3600)) as [O1 O2]; [lia|].
  destruct (write_2digits_spec (c / 60 mod 60)) as [N1 N2]; [lia|].
  destruct (write_2digits_spec (c mod 60)) as [Z1 Z2]; [lia|].
  split; [done|]. exists y, m, d, (c / 3600), (c / 60 mod 60), (c mod 60).
  set (wy := write_4digits y) in *. set (wm := write_2digits m) in *.
  set (wd := write_2digits d) in *. set (wh := write_2digits (c / 3600)) in *.
  set (wn := write_2digits (c / 60 mod 60)) in *. set (wz := write_2digits (c mod 60)) in *.
  split_and!.
  - apply (number_digits []); done || lia.
  - apply (number_digits wy); done || lia.
  - rewrite (app_assoc wy). apply (number_digits (wy ++ wm)); done || lia.
  - rewrite (app_assoc wy), (app_assoc _ wd), (app_assoc _ ["T"%char]).
    apply (number_digits (((wy ++ wm) ++ wd) ++ ["T"%char])); done || lia.
  - rewrite (app_assoc wy), (app_assoc _ wd), (app_assoc _ ["T"%char]), (app_assoc _ wh).
    apply (number_digits ((((wy ++ wm) ++ wd) ++ ["T"%char]) ++ wh)); done || lia.
  - rewrite (app_assoc wy), (app_assoc _ wd), (app_assoc _ ["T"%char]), (app_assoc _ wh),
      (app_assoc _ wn).
    apply (number_digits (((((wy ++ wm) ++ wd) ++ ["T"%char]) ++ wh) ++ wn)); done || lia.
  - rewrite utc_time_ok by (done || lia || unfold valid_clock; lia).
    rewrite Hdays. f_equal. subst c. Z.to_euclidean_division_equations; lia.
Qed.

Lemma amz_datetime_roundtrip_witness :
  exists s, amz_datetime 1709210096 = Ok s /\ vsize s = 16.
Proof.
  exists (lit "20240229T123456Z"). split; [vm_compute; reflexivity|].
  apply (amz_datetime_roundtrip 1709210096); [lia|vm_compute; reflexivity].
Defined.

Lemma differs_false s i c : differs s i c = false <-> at_z s i = c.
Proof.
  unfold differs, ascii_eqb. rewrite negb_false_iff. apply Ascii.eqb_eq.
Qed.

Lemma differs_true s i c : differs s i c = true <-> at_z s i <> c.
Proof. rewrite <- not_false_iff_true, differs_false. done. Qed.

(** A fraction of digits up to the final character is what [skip_digits] skips. *)
Lemma skip_digits_fraction s :
  22 <= vsize s -> existsb (fun i => negb (isdigit (at_z s i))) (zrange 20 (vsize s - 1)) = false ->
  at_z s (vsize s - 1) = "Z"%char -> skip_digits s 20 = vsize s - 1.
Proof.
  intros Hs Hd Hz. unfold skip_digits.
  assert (drop_z 20 s = substr s 20 (vsize s - 21) ++ ["Z"%char]) as ->.
  { apply list_eq. intros i. unfold substr, take_z, drop_z.
    rewrite lookup_drop. destruct (decide (i < Z.to_nat (vsize s - 21))%nat) as [Hi|Hi].
    - rewrite lookup_app_l by (rewrite length_take, length_drop; unfold vsize in *; lia).
      by rewrite lookup_take_lt, lookup_drop by done.
    - rewrite lookup_app_r by (rewrite length_take; lia).
      rewrite length_take, length_drop.
      replace (Z.to_nat (vsize s - 21) `min` (length s - Z.to_nat 20))%nat
        with (length s - 21)%nat by (unfold vsize in *; lia).
      destruct (decide (i = length s - 21)%nat) as [->|].
      + rewrite Nat.sub_diag. cbn. rewrite <- Hz. unfold at_z.
        replace (Z.to_nat 20 + (length s - 21))%nat with (Z.to_nat (vsize s - 1))
          by (unfold vsize in *; lia).
        apply vget_lookup. lia.
      + rewrite !lookup_ge_None_2; [done|cbn|]; unfold vsize in *; lia. }
  rewrite span_digits_app; [|apply Forall_forall|done].
  - cbn. unfold substr, take_z, drop_z, vsize in *. rewrite length_take, length_drop. lia.
  - intros c Hc. rewrite <- map_at_z in Hc by lia.
    apply list_elem_of_In, in_map_iff in Hc as (i & <- & Hi).
    apply list_elem_of_In, elem_of_zrange in Hi.
    destruct (isdigit (at_z s (20 + i))) eqn:E; [done|].
    apply not_true_iff_false in Hd. exfalso. apply Hd, existsb_exists.
    exists (20 + i). rewrite E. split; [apply list_elem_of_In, elem_of_zrange; lia|done].
Qed.

Lemma civil_days_negative y m d :
  0 <= y < 1970 -> 1 <= m <= 12 -> 1 <= d <= month_length y m -> civil_days y m d < 0.
Proof.
  intros Hy Hm Hd. pose proof (month_length_range y m Hm). rewrite civil_days_era by lia.
  cbv zeta. rewrite Z.gtb_ltb.
  destruct (Z.leb_spec m 2), (Z.ltb_spec 2 m); try lia; cbn [Z.b2z];
    Z.to_euclidean_division_equations; lia.
Qed.

Lemma days_from_civil_eq y m d : days_from_civil y m d = civil_days y m d.
Proof. done. Qed.

(** What an accepted S3 timestamp looks like. *)
Lemma parse_s3_mtime_ok s t :
  parse_s3_mtime s = Ok t ->
  20 <= vsize s /\ at_z s 4 = "-"%char /\ at_z s 7 = "-"%char /\ at_z s 10 = "T"%char /\
  at_z s 13 = ":"%char /\ at_z s 16 = ":"%char /\
  ((at_z s 19 = "."%char /\ skip_digits s 20 = vsize s - 1 /\ 22 <= vsize s /\
    at_z s (vsize s - 1) = "Z"%char) \/
   (vsize s = 20 /\ at_z s 19 = "Z"%char)) /\
  exists y m d h n z,
    number s 0 4 = Ok y /\ number s 5 2 = Ok m /\ number s 8 2 = Ok d /\
    number s 11 2 = Ok h /\ number s 14 2 = Ok n /\ number s 17 2 = Ok z /\
    utc_time y m d h n z = Ok t.
Proof.
  unfold parse_s3_mtime. destruct (_ || _) eqn:E; [done|]. bool_case.
  rewrite !differs_false in *. match goal with |- (if ?b then _ else _) = _ -> _ => destruct b eqn:F end; [done|].
  rewrite !rbind_ok. setoid_rewrite rbind_ok. setoid_rewrite rbind_ok. setoid_rewrite rbind_ok.
  setoid_rewrite rbind_ok. setoid_rewrite rbind_ok.
  rewrite !fixed_decimal_number by lia.
  intros (y & ? & m & ? & d & ? & h & ? & n & ? & z & ? & ?).
  split_and!; try done; [|by exists y, m, d, h, n, z].
  destruct (differs s 19 ".") eqn:E19; cbn [negb] in F; bool_case.
  - right. rewrite differs_false in *. done.
  - left. rewrite differs_false in *. split; [done|].
    assert (vsize s <> 20).
    { intros E20. rewrite E20 in *. change (20 - 1) with 19 in *. congruence. }
    split; [apply skip_digits_fraction; [lia|done|done]|]. split; [lia|done].
Qed.

Lemma digits_value_nonneg l v : Forall (fun c => isdigit c = true) l -> digits_value 0 l = v -> 0 <= v.
Proof. intros Hl <-. apply (digits_value_bound l Hl). Qed.

Lemma number_range s b n v : number s b n = Ok v -> is_u32 v.
Proof.
  unfold number. destruct (from_chars_all _ _) as [w|] eqn:E; [|done]. intros <-%Ok_inj.
  apply from_chars_all_spec in E as (_ & Hd & Hv & Hmax). unfold UINT32_MAX in Hmax.
  pose proof (digits_value_nonneg _ _ Hd Hv). lia.
Qed.

Lemma utc_time_inv y m d h n z t :
  is_u32 y -> is_u32 m -> is_u32 d -> is_u32 h -> is_u32 n -> is_u32 z ->
  utc_time y m d h n z = Ok t ->
  valid_date y m d /\ valid_clock h n z /\
  t = civil_days y m d * 86400 + (h * 3600 + n * 60 + z).
Proof.
  intros Hy Hm Hd Hh Hn Hz. unfold utc_time. cbv zeta.
  destruct (_ || _) eqn:E; [done|]. case_match; [done|]. intros <-%Ok_inj.
  unfold valid_date, valid_clock, month_length. bool_case. lia.
Qed.

Lemma days_per_month_spec m : 1 <= m <= 12 -> vget 0 days_per_month m = vget 0 month_days (m - 1).
Proof. revert m. by apply month_cases. Qed.

(** the two date parsers of the program agree: every S3 [LastModified] text at or after
    1970 that [parse_s3_mtime] accepts is accepted by the credential provider's
    [parse_expiration] with the same result. *)
Theorem parse_expiration_agrees s t :
  parse_s3_mtime s = Ok t -> 0 <= t -> parse_expiration s = Ok t.
Proof.
  intros Hs Ht. apply parse_s3_mtime_ok in Hs as (Hlen & S4 & S7 & S10 & S13 & S16 & Hend & y & m &
    d & h & n & z & Ey & Em & Ed & Eh & En & Ez & Hutc).
  apply utc_time_inv in Hutc as ([Hm Hd] & (Hh & Hn & Hz) & ->);
    [|by eapply number_range ..].
  pose proof (number_range _ _ _ _ Ey). pose proof (month_length_range y m Hm).
  assert (1970 <= y).
  { destruct (Z.le_gt_cases 1970 y); [done|].
    pose proof (civil_days_negative y m d ltac:(lia) Hm Hd). lia. }
  unfold parse_expiration. rewrite Ey, Em, Ed, Eh, En, Ez. cbn [rbind].
  rewrite (proj2 (differs_false s 4 _)), (proj2 (differs_false s 7 _)),
    (proj2 (differs_false s 10 "T")), (proj2 (differs_false s 13 _)),
    (proj2 (differs_false s 16 _)) by done.
  rewrite days_per_month_spec by done. unfold month_length in Hd.
  rewrite (proj2 (Z.ltb_ge _ 20)) by lia. cbn [andb orb].
  destruct (_ || _) eqn:E; [exfalso; lia|]. rewrite days_from_civil_eq.
  rewrite (proj2 (Z.ltb_lt 19 _)) by lia. cbn [andb].
  assert (forall e, differs s e "Z" = false -> e + 1 = vsize s ->
    (negb (e + 1 =? vsize s) || (differs s e "Z" && differs s e "z")) = false) as Hfin.
  { intros e -> ->. by rewrite Z.eqb_refl. }
  destruct Hend as [(S19 & Hskip & H22 & Hz')|[H20 S19]].
  - rewrite (proj2 (differs_false s 19 _)) by done. cbn [negb andb]. rewrite Hskip.
    rewrite (proj2 (Z.eqb_neq (vsize s - 1) 20)) by lia.
    rewrite Hfin; [|by apply differs_false|lia]. f_equal. lia.
  - rewrite (proj2 (differs_true s 19 ".")) by (by rewrite S19). cbn [negb andb].
    rewrite Hfin; [|by apply differs_false|lia]. f_equal. lia.
Qed.

Lemma parse_expiration_agrees_witness :
  parse_expiration (lit "2024-02-29T12:34:56.789Z") = Ok 1709210096.
Proof. apply parse_expiration_agrees; [vm_compute; reflexivity|lia]. Defined.

(** ** The timestamp cache *)

(** The cached text is the one of the cached second. *)
Definition datetime_cache_ok (c : DatetimeCache) : Prop :=
  dt_second c = INT64_MIN \/ amz_datetime (dt_second c) = Ok (dt_value c).

(** as long as [amz_datetime] does not throw, the cached timestamp is always the one of
    the current second, and the cache stays correct. *)
Theorem amz_datetime_now_correct c now :
  datetime_cache_ok c -> INT64_MIN < now ->
  (amz_datetime_now c (Some now)).2 = amz_datetime now /\
  (forall s, amz_datetime now = Ok s -> datetime_cache_ok (amz_datetime_now c (Some now)).1).
Proof.
  intros Hc Hnow. unfold amz_datetime_now.
  destruct (Z.eqb_spec (dt_second c) now) as [E|E]; cbn [negb].
  - destruct Hc as [Hc|Hc]; [lia|]. rewrite <- E at 1. split; [done|]. intros _ _. by right.
  - destruct (amz_datetime now) as [v|e] eqn:A; [|done].
    split; [done|]. intros _ _. by right.
Qed.

Lemma amz_datetime_now_correct_witness :
  (amz_datetime_now initial_datetime_cache (Some 1709210096)).2 = amz_datetime 1709210096.
Proof. apply amz_datetime_now_correct; [by left|done]. Defined.

(** After a throw the cache holds the new second with the old text, so the next call in the
    same second returns the stale text instead of throwing again. *)
Lemma amz_datetime_now_stale :
  let '(c, first) := amz_datetime_now initial_datetime_cache (Some 253402300800) in
  first = Throw OutOfRange /\ (amz_datetime_now c (Some 253402300800)).2 = Ok [].
Proof. vm_compute. auto. Qed.
