(* ===== verification/S3Text.v ===== *)
(** * Request paths, headers and names

    The text functions of [src/src/s3.cpp] and [src/src/fuse.cpp] that build request paths,
    check [Content-Range], decode listed keys and admit names into the file system. *)

From S2P Require Import Prelude StdText Checksum.

(** ** Percent encoding *)

Definition hex_digits : bytes := lit "0123456789ABCDEF".

Definition unreserved (preserve_slashes : bool) (item : ascii) : bool :=
  isalnum item || ascii_eqb item "-" || ascii_eqb item "." || ascii_eqb item "_" ||
  ascii_eqb item "~" || (preserve_slashes && ascii_eqb item "/").

Definition uri_encode_char (preserve_slashes : bool) (item : ascii) : bytes :=
  if unreserved preserve_slashes item then [item]
  else ["%"%char; at_z hex_digits (Z.shiftr (u8 item) 4); at_z hex_digits (Z.land (u8 item) 15)].

Definition uri_encode (value : bytes) (preserve_slashes : bool) : bytes :=
  concat (map (uri_encode_char preserve_slashes) value).

(** Called on hexadecimal digits only. *)
Definition hex_value (ch : ascii) : Z :=
  if (48 <=? u8 ch) && (u8 ch <=? 57) then u8 ch - 48
  else Z.lor (u8 ch) 32 - 97 + 10.

(** The index loop advances by one character, or by three over an escape. *)
Fixpoint percent_decode (text : bytes) : result bytes :=
  match text with
  | [] => Ok []
  | c :: rest =>
      if negb (ascii_eqb c "%") then
        let? r := percent_decode rest in Ok (c :: r)
      else match rest with
      | a :: b :: rest =>
          if negb (isxdigit a) || negb (isxdigit b) then Throw RuntimeError
          else let? r := percent_decode rest in
               Ok (chr (Z.lor (Z.shiftl (hex_value a) 4) (hex_value b)) :: r)
      | _ => Throw RuntimeError
      end
  end.

(** ** Request paths *)

Fixpoint encoded_path_chars (p : bytes) : bool :=
  match p with
  | [] => true
  | c :: rest =>
      if (u8 c <=? 0x20) || (u8 c =? 0x7f) then false
      else if ascii_eqb c "%" then
        match rest with
        | a :: b :: rest =>
            if negb (isxdigit a) || negb (isxdigit b) then false else encoded_path_chars rest
        | _ => false
        end
      else encoded_path_chars rest
  end.

Definition is_encoded_request_path (p : bytes) : bool :=
  if (vsize p =? 0) || negb (ascii_eqb (at_z p 0) "/") ||
     has_char "?" p
  then false
  else encoded_path_chars p.

Definition request_path_without_query (p : bytes) : bytes := before_char "?" p.

Definition request_path_is_directory_marker (p : bytes) : bool :=
  let p := before_char "?" p in
  if ends_with (lit "/") p then true
  else if (vsize p <? 3) || negb (ascii_eqb (at_z p (vsize p - 3)) "%") then false
  else ascii_eqb (at_z p (vsize p - 2)) "2" &&
       ascii_eqb (tolower (at_z p (vsize p - 1))) "f".

Definition query_path (path query : bytes) : bytes :=
  path ++ [if has_char "?" path then "&"%char else "?"%char] ++ query.

Definition make_copy_source (bucket source_path version_id : bytes) (virtual_hosted : bool) :
    result bytes :=
  if vsize bucket =? 0 then Throw InvalidArgument
  else
    let source := request_path_without_query source_path in
    let encoded_bucket := uri_encode bucket false in
    let path_style_prefix := "/"%char :: encoded_bucket in
    let result :=
      if negb virtual_hosted &&
         (str_eqb source path_style_prefix ||
          ((vsize source >? vsize path_style_prefix) &&
           starts_with path_style_prefix source &&
           ascii_eqb (at_z source (vsize path_style_prefix)) "/"))
      then source
      else path_style_prefix ++ source in
    Ok (if negb (vsize version_id =? 0)
        then result ++ lit "?versionId=" ++ uri_encode version_id false
        else result).

Definition authority_uses_virtual_bucket (authority bucket : bytes) : bool :=
  if vsize bucket =? 0 then false
  else
    let host :=
      if starts_with (lit "[") authority then
        match find_char "]" authority with
        | None => None
        | Some bracket => Some (substr authority 1 (bracket - 1))
        end
      else match find_char ":" authority with
        | Some first_colon =>
            if decide (Some first_colon = rfind_char ":" authority)
            then Some (take_z first_colon authority) else Some authority
        | None => Some authority
        end in
    match host with
    | None => false
    | Some host =>
        if vsize host <? vsize bucket then false
        else if forallb (fun i => ascii_eqb (tolower (at_z host i)) (tolower (at_z bucket i)))
                  (zrange 0 (vsize bucket))
        then (vsize host =? vsize bucket) || ascii_eqb (at_z host (vsize bucket)) "."
        else false
    end.

(** ** Content-Range *)

(** The [parse] lambda; an empty text is refused by [from_chars] as well. *)
Definition parse_range_number (text : bytes) : option Z :=
  if vsize text =? 0 then None else from_chars_all UINT64_MAX text.

Definition s3_content_range_matches (value : bytes) (offset length object_size : Z) : bool :=
  if length =? 0 then false
  else if negb (starts_with (lit "bytes ") value) then false
  else
    let value := drop_z (vsize (lit "bytes ")) value in
    let dash := find_char "-" value in
    let slash := find_from "/" value (match dash with None => 0 | Some d => d + 1 end) in
    match dash, slash with
    | Some dash, Some slash =>
        if has_char "/" (drop_z (slash + 1) value) then false
        else match parse_range_number (take_z dash value),
                   parse_range_number (substr value (dash + 1) (slash - dash - 1)),
                   parse_range_number (drop_z (slash + 1) value) with
        | Some first, Some last, Some total =>
            (first =? offset) && (total =? object_size) && (last >=? first) &&
            (last - first =? length - 1)
        | _, _, _ => false
        end
    | _, _ => false
    end.

(** ** Names and listings *)

Definition NAME_MAX : Z := 255.
Definition kInternalDeleteDirectory : bytes := lit ".~ngs3fs~.pending-delete".

Definition valid_fuse_component (name : bytes) : bool :=
  negb (vsize name =? 0) && (vsize name <=? NAME_MAX) &&
  negb (str_eqb name (lit ".")) && negb (str_eqb name (lit "..")) &&
  negb (str_eqb name kInternalDeleteDirectory) &&
  negb (has_char Ascii.zero name) &&
  negb (has_char "/" name).

Fixpoint trim_front (value : bytes) : bytes :=
  match value with
  | c :: rest => if isspace c then trim_front rest else value
  | [] => []
  end.

Definition trim_xml_space (value : bytes) : bytes := rev (trim_front (rev (trim_front value))).

Record ListedChild := { lc_name : bytes; lc_mtime : Z; lc_size : Z; lc_directory : bool }.
Record ListedObject := { lo_key : bytes; lo_etag : bytes; lo_mtime : Z; lo_size : Z }.
Record ListedXmlPage := {
  lx_objects : list ListedObject; lx_prefixes : list bytes; lx_token : bytes; lx_truncated : bool }.
Record ListedPage := { lp_children : list ListedChild; lp_token : bytes; lp_truncated : bool }.

(** One turn of the loop over [listed.objects]; [None] is [continue]. *)
Definition object_child (prefix : bytes) (object : ListedObject) : option ListedChild :=
  let key := lo_key object in
  if negb (starts_with prefix key) || (vsize key =? vsize prefix) then None
  else
    let relative := drop_z (vsize prefix) key in
    let marker := ends_with (lit "/") relative in
    let relative := if marker then take_z (vsize relative - 1) relative else relative in
    if negb (valid_fuse_component relative) then None
    else Some {| lc_name := relative; lc_mtime := lo_mtime object; lc_size := lo_size object;
                 lc_directory := marker |}.

(** One turn of the loop over [listed.prefixes]. *)
Definition prefix_child (prefix key : bytes) : option ListedChild :=
  if negb (starts_with prefix key) || (vsize key <=? vsize prefix) ||
     negb (ascii_eqb (at_z key (vsize key - 1)) "/") then None
  else
    let relative := drop_z (vsize prefix) (take_z (vsize key - 1) key) in
    if negb (valid_fuse_component relative) then None
    else Some {| lc_name := relative; lc_mtime := 0; lc_size := 0; lc_directory := true |}.

(** [decode_directory_response] after the status test and the XML parse. *)
Definition decode_directory_page (listed : ListedXmlPage) (prefix : bytes) : ListedPage :=
  {| lp_children := omap (object_child prefix) (lx_objects listed) ++
                    omap (prefix_child prefix) (lx_prefixes listed);
     lp_token := lx_token listed; lp_truncated := lx_truncated listed |}.

(** ** Option values *)

Definition parse_unsigned (text : bytes) : option Z := from_chars_all UINT64_MAX text.

Definition byte_units : list (bytes * Z) :=
  [ (lit "KiB", 1024); (lit "MiB", 1024 * 1024); (lit "GiB", 1024 * 1024 * 1024);
    (lit "KB", 1024); (lit "MB", 1024 * 1024); (lit "GB", 1024 * 1024 * 1024);
    (lit "K", 1024); (lit "M", 1024 * 1024); (lit "G", 1024 * 1024 * 1024) ].

Fixpoint strip_unit (units : list (bytes * Z)) (text : bytes) : bytes * Z :=
  match units with
  | [] => (text, 1)
  | (suffix, multiplier) :: units =>
      if ends_with suffix text then (take_z (vsize text - vsize suffix) text, multiplier)
      else strip_unit units text
  end.

Definition parse_byte_size (text : bytes) : option Z :=
  let '(text, multiplier) := strip_unit byte_units text in
  if vsize text =? 0 then None
  else match parse_unsigned text with
  | None => None
  | Some number =>
      if number >? UINT64_MAX / multiplier then None else Some (u64 (number * multiplier))
  end.

(** The loop consumes one comma-separated option per turn. *)
Fixpoint fuse_option_present_loop (fuel : nat) (options wanted : bytes) : bool :=
  match fuel with
  | O => false
  | S fuel =>
      if vsize options =? 0 then false
      else
        let comma := find_char "," options in
        let option := match comma with Some c => take_z c options | None => options end in
        if str_eqb (before_char "=" option) wanted then true
        else match comma with
        | None => false
        | Some c => fuse_option_present_loop fuel (drop_z (c + 1) options) wanted
        end
  end.

Definition fuse_option_present (options wanted : bytes) : bool :=
  fuse_option_present_loop (S (length options)) options wanted.

Definition format_authority (host : bytes) (port : Z) : bytes :=
  (if has_char ":" host && negb (starts_with (lit "[") host)
   then ["["%char] ++ host ++ ["]"%char] else host) ++ [":"%char] ++ to_chars port.

(** ** Encoding lemmas *)

(** A printable character that may stand in an encoded path. *)
Definition path_char (c : ascii) : bool :=
  (0x20 <? u8 c) && negb (u8 c =? 0x7f) && negb (ascii_eqb c "?").

(** The two forms of an encoded character. *)
Lemma uri_encode_char_cases b c :
  (uri_encode_char b c = [c] /\ ascii_eqb c "%" = false /\ path_char c = true /\
     (b = false -> c <> "/"%char)) \/
  (exists x y, uri_encode_char b c = ["%"%char; x; y] /\
     isxdigit x = true /\ isxdigit y = true /\ path_char x = true /\ path_char y = true /\
     x <> "/"%char /\ y <> "/"%char /\
     chr (Z.lor (Z.shiftl (hex_value x) 4) (hex_value y)) = c).
Proof.
  unfold uri_encode_char. destruct (unreserved b c) eqn:E.
  - left. split; [done|]. revert E.
    assert (forall b c, implb (unreserved b c)
      (negb (ascii_eqb c "%") && path_char c && (b || negb (ascii_eqb c "/"))) = true) as H.
    { intros b'. apply all_ascii. destruct b'; vm_compute; reflexivity. }
    specialize (H b c). intros E. rewrite E in H. cbn [implb] in H. bool_case.
    split_and!; [done|done|]. intros -> ->. done.
  - right. eexists _, _. split; [reflexivity|].
    assert (forall c, let x := at_z hex_digits (Z.shiftr (u8 c) 4) in
      let y := at_z hex_digits (Z.land (u8 c) 15) in
      isxdigit x && isxdigit y && path_char x && path_char y && negb (ascii_eqb x "/") &&
      negb (ascii_eqb y "/") &&
      ascii_eqb (chr (Z.lor (Z.shiftl (hex_value x) 4) (hex_value y))) c = true) as H.
    { apply all_ascii. vm_compute. reflexivity. }
    specialize (H c). cbv zeta in H. bool_case. split_and!; try done.
    + by intros Hx; rewrite Hx in *.
    + by intros Hx; rewrite Hx in *.
    + by apply Ascii.eqb_eq.
Qed.

Lemma uri_encode_cons c s b : uri_encode (c :: s) b = uri_encode_char b c ++ uri_encode s b.
Proof. done. Qed.

Lemma uri_encode_app s t b : uri_encode (s ++ t) b = uri_encode s b ++ uri_encode t b.
Proof. unfold uri_encode. by rewrite map_app, concat_app. Qed.

Lemma percent_decode_encode s b : percent_decode (uri_encode s b) = Ok s.
Proof.
  induction s as [|c s IH]; [done|]. rewrite uri_encode_cons.
  destruct (uri_encode_char_cases b c) as [(-> & Hc & _)|(x & y & -> & Hx & Hy & _ & _ & _ & _ & Hv)].
  - cbn. by rewrite Hc, IH.
  - cbn. by rewrite Hx, Hy, IH, Hv.
Qed.

Lemma encoded_path_chars_encode s t b :
  encoded_path_chars t = true -> encoded_path_chars (uri_encode s b ++ t) = true.
Proof.
  intros Ht. induction s as [|c s IH]; [done|]. rewrite uri_encode_cons, <- app_assoc.
  destruct (uri_encode_char_cases b c) as [(-> & Hc & Hp & _)|(x & y & -> & Hx & Hy & _)].
  - cbn. unfold path_char in Hp. bool_case. by rewrite Hc, IH, (proj2 (Z.leb_gt _ _)),
      (proj2 (Z.eqb_neq _ _)) by done.
  - cbn. by rewrite Hx, Hy, IH.
Qed.

Lemma uri_encode_chars s b c :
  c ∈ uri_encode s b -> c <> "?"%char /\ (b = false -> c <> "/"%char).
Proof.
  induction s as [|d s IH]; [set_solver|]. rewrite uri_encode_cons, elem_of_app.
  intros [Hc|]; [|by apply IH].
  destruct (uri_encode_char_cases b d)
    as [(E & _ & Hp & Hs)|(x & y & E & _ & _ & Hx & Hy & Nx & Ny & _)]; rewrite E in Hc.
  - apply list_elem_of_singleton in Hc as ->. split; [|done]. by intros ->.
  - rewrite !elem_of_cons, elem_of_nil in Hc. destruct Hc as [->|[->|[->|[]]]]; [done| |].
    + split; [|done]. by intros ->.
    + split; [|done]. by intros ->.
Qed.

(** ** Claims *)

(** percent-encoding round-trips: decoding the encoding of any byte string gives the
    string back, an encoded string behind a slash is an acceptable request path, and without
    [preserve_slashes] the encoding is a single path component. *)
Theorem uri_encode_roundtrip s b :
  percent_decode (uri_encode s b) = Ok s /\
  is_encoded_request_path ("/"%char :: uri_encode s b) = true /\
  "/"%char ∉ uri_encode s false.
Proof.
  split; [apply percent_decode_encode|]. split.
  - unfold is_encoded_request_path. change (vsize ("/"%char :: _) =? 0) with false.
    cbn [at_z]. assert (has_char "?" ("/"%char :: uri_encode s b) = false) as ->.
    { apply has_char_false. rewrite elem_of_cons. intros [|H%uri_encode_chars]; naive_solver. }
    cbn. rewrite <- (app_nil_r (uri_encode s b)). by apply encoded_path_chars_encode.
  - intros H%uri_encode_chars. naive_solver.
Qed.

Lemma parse_range_number_spec s v :
  parse_range_number s = Some v <-> from_chars_all UINT64_MAX s = Some v.
Proof.
  unfold parse_range_number. destruct (Z.eqb_spec (vsize s) 0) as [E|]; [|done].
  destruct s; [|unfold vsize in E; cbn in E; lia]. done.
Qed.

Lemma number_no_char s v c :
  from_chars_all UINT64_MAX s = Some v -> isdigit c = false -> c ∉ s.
Proof.
  intros (_ & Hd & _)%from_chars_all_spec Hc Hin. rewrite Forall_forall in Hd.
  specialize (Hd c Hin). congruence.
Qed.

Lemma slice_middle f l t c d :
  substr (f ++ c :: l ++ d :: t) (vsize f + 1) (vsize f + 1 + vsize l - vsize f - 1) = l.
Proof.
  unfold substr. rewrite drop_app_z_S.
  replace (vsize f + 1 + vsize l - vsize f - 1) with (vsize l) by lia. apply take_app_z.
Qed.

Lemma slice_tail f l t c d : drop_z (vsize f + 1 + vsize l + 1) (f ++ c :: l ++ d :: t) = t.
Proof.
  replace (f ++ c :: l ++ d :: t) with ((f ++ c :: l) ++ d :: t) by (by rewrite <- app_assoc).
  replace (vsize f + 1 + vsize l + 1) with (vsize (f ++ c :: l) + 1)
    by (unfold vsize; rewrite length_app; cbn; lia).
  apply drop_app_z_S.
Qed.

(** a [Content-Range] header is accepted exactly when it reads
    ["bytes <offset>-<offset+length-1>/<object size>"] with decimal numbers, for a
    non-empty range. *)
Theorem content_range_exact value offset length object_size :
  0 <= length ->
  s3_content_range_matches value offset length object_size = true <->
  length <> 0 /\
  exists first last total,
    value = lit "bytes " ++ first ++ ("-"%char :: last) ++ ("/"%char :: total) /\
    from_chars_all UINT64_MAX first = Some offset /\
    from_chars_all UINT64_MAX last = Some (offset + length - 1) /\
    from_chars_all UINT64_MAX total = Some object_size.
Proof.
  intros Hlen. unfold s3_content_range_matches.
  destruct (Z.eqb_spec length 0) as [|Hl]; [naive_solver|].
  destruct (starts_with (lit "bytes ") value) eqn:Hs; cbn [negb].
  2: { split; [done|]. intros (_ & f & l & t & -> & _). exfalso.
       apply not_true_iff_false in Hs. apply Hs, starts_with_spec. by eexists. }
  apply starts_with_spec in Hs as [v ->]. rewrite drop_app_z.
  split.
  - destruct (find_char "-" v) as [dash|] eqn:Ed; [|done].
    apply find_char_spec in Ed as (f & w & -> & Hf & ->).
    unfold find_from. rewrite drop_app_z_S.
    destruct (find_char "/" w) as [slash|] eqn:Es; [|done]. cbn [fmap option_fmap option_map].
    apply find_char_spec in Es as (l & t & -> & Hnl & ->).
    case_match; [done|].
    rewrite take_app_z.
    rewrite slice_middle, slice_tail.
    destruct (parse_range_number f) as [first|] eqn:Pf; [|done].
    destruct (parse_range_number l) as [last|] eqn:Pl; [|done].
    destruct (parse_range_number t) as [total|] eqn:Pt; [|done].
    rewrite parse_range_number_spec in *. intros Heq. bool_case. split; [done|].
    exists f, l, t. subst. split; [done|]. split; [done|]. split; [|done].
    rewrite Pl. f_equal. lia.
  - intros (_ & f & l & t & ->%(inj _) & Pf & Pl & Pt). cbn [app].
    rewrite find_char_app by (by eapply number_no_char).
    unfold find_from. rewrite drop_app_z_S.
    rewrite find_char_app by (by eapply number_no_char). cbn [fmap option_fmap option_map].
    rewrite slice_tail.
    rewrite (proj2 (has_char_false _ t)) by (by eapply number_no_char).
    rewrite take_app_z, slice_middle.
    rewrite <- parse_range_number_spec in Pf, Pl, Pt. rewrite Pf, Pl, Pt.
    rewrite !Z.eqb_refl, Z.geb_leb, (proj2 (Z.leb_le _ _)), (proj2 (Z.eqb_eq _ _)) by lia. done.
Qed.

Lemma content_range_exact_witness :
  s3_content_range_matches (lit "bytes 100-199/1000") 100 100 1000 = true.
Proof.
  apply (content_range_exact _ 100 100 1000); [lia|]. split; [lia|].
  exists (lit "100"), (lit "199"), (lit "1000"). vm_compute. auto.
Defined.

(** ** Listings *)

Lemma valid_component_spec name :
  valid_fuse_component name = true <->
  0 < vsize name <= NAME_MAX /\ name <> lit "." /\ name <> lit ".." /\
  name <> kInternalDeleteDirectory /\ Ascii.zero ∉ name /\ "/"%char ∉ name.
Proof.
  unfold valid_fuse_component. rewrite !andb_true_iff, !negb_true_iff, !has_char_false.
  rewrite Z.leb_le, Z.eqb_neq. pose proof (vsize_nonneg name).
  destruct (str_eqb_spec name (lit ".")), (str_eqb_spec name (lit "..")),
    (str_eqb_spec name kInternalDeleteDirectory); intuition (congruence || lia).
Qed.

(** The name with the slash that a directory marker carries. *)
Definition marked (directory : bool) (name : bytes) : bytes :=
  name ++ (if directory then ["/"%char] else []).

Lemma take_snoc_z (a : bytes) c : take_z (vsize (a ++ [c]) - 1) (a ++ [c]) = a.
Proof.
  unfold take_z, vsize. rewrite length_app. cbn [length].
  replace (Z.to_nat (Z.of_nat (length a + 1) - 1)) with (length a) by lia. apply take_app_length.
Qed.

Lemma at_z_last a c : at_z (a ++ [c]) (vsize (a ++ [c]) - 1) = c.
Proof.
  unfold at_z, vget, vsize. rewrite length_app. cbn [length].
  replace (Z.to_nat (Z.of_nat (length a + 1) - 1)) with (length a) by lia.
  by rewrite lookup_app_r, Nat.sub_diag by lia.
Qed.

Lemma no_slash_end name : "/"%char ∉ name -> ends_with (lit "/") name = false.
Proof.
  intros Hn. apply not_true_iff_false. intros [t ->]%ends_with_spec. apply Hn. set_solver.
Qed.

Lemma object_child_spec prefix o c :
  object_child prefix o = Some c <->
  valid_fuse_component (lc_name c) = true /\
  lo_key o = prefix ++ marked (lc_directory c) (lc_name c) /\
  lc_mtime c = lo_mtime o /\ lc_size c = lo_size o.
Proof.
  unfold object_child. split.
  - destruct (_ || _) eqn:E; [done|]. bool_case.
    apply starts_with_spec in H as [r Hr]. rewrite Hr, drop_app_z.
    destruct (valid_fuse_component _) eqn:V; [|done]. intros [= <-].
    cbn [lc_name lc_directory lc_mtime lc_size] in *.
    split; [done|]. split; [|done]. f_equal. unfold marked.
    destruct (ends_with _ r) eqn:M; [|by rewrite app_nil_r].
    apply ends_with_spec in M as [t ->].
    change (lit "/") with ["/"%char]. by rewrite take_snoc_z.
  - intros (V & -> & Hm & Hs). rewrite (proj2 (starts_with_spec _ _)) by by eexists.
    pose proof V as (Hlen & _ & _ & _ & _ & Hslash)%valid_component_spec.
    rewrite (proj2 (Z.eqb_neq _ _)).
    2: { unfold marked, vsize in *. rewrite !length_app. destruct (lc_name c); cbn in *; lia. }
    cbn [negb orb]. rewrite drop_app_z. unfold marked.
    destruct c as [name mtime size [|]]; cbn [lc_name lc_directory lc_mtime lc_size] in *; subst.
    + assert (ends_with (lit "/") (name ++ ["/"%char]) = true) as ->
        by (apply ends_with_spec; by eexists).
      by rewrite take_snoc_z, V.
    + rewrite app_nil_r, no_slash_end, V by done. done.
Qed.

Lemma prefix_child_spec prefix key c :
  prefix_child prefix key = Some c <->
  valid_fuse_component (lc_name c) = true /\ key = prefix ++ marked true (lc_name c) /\
  lc_directory c = true /\ lc_mtime c = 0 /\ lc_size c = 0.
Proof.
  unfold prefix_child, marked. split.
  - destruct (_ || _) eqn:E; [done|]. bool_case.
    apply starts_with_spec in H as [r ->].
    destruct r as [|x r _] using rev_ind; [rewrite app_nil_r in *; lia|].
    rewrite app_assoc in *. rewrite at_z_last in *. rewrite take_snoc_z, drop_app_z.
    destruct (valid_fuse_component r) eqn:V; [|done]. intros [= <-]. cbn.
    match goal with H : ascii_eqb x _ = true |- _ => apply Ascii.eqb_eq in H as -> end.
    split_and!; try done. by rewrite app_assoc.
  - intros (V & -> & ? & ? & ?). rewrite (proj2 (starts_with_spec _ _)) by by eexists.
    rewrite (proj2 (Z.leb_gt _ _)).
    2: { unfold vsize. rewrite !length_app. cbn. lia. }
    rewrite app_assoc, at_z_last, take_snoc_z, drop_app_z, V. cbn.
    destruct c; cbn in *; by subst.
Qed.

(** a listed directory shows exactly the well-formed children of its prefix: an entry
    appears if and only if the page lists the object [prefix + name] (with a trailing slash
    for a directory) or the common prefix [prefix + name + "/"], and [name] is a legal
    component - never empty, [.], [..], the internal directory, or a path with a slash. *)
Theorem listing_children listed prefix c :
  c ∈ lp_children (decode_directory_page listed prefix) <->
  (0 < vsize (lc_name c) <= NAME_MAX /\ lc_name c <> lit "." /\ lc_name c <> lit ".." /\
   lc_name c <> kInternalDeleteDirectory /\ Ascii.zero ∉ lc_name c /\ "/"%char ∉ lc_name c) /\
  ((exists o, o ∈ lx_objects listed /\ lo_key o = prefix ++ marked (lc_directory c) (lc_name c) /\
              lc_mtime c = lo_mtime o /\ lc_size c = lo_size o) \/
   (prefix ++ marked true (lc_name c) ∈ lx_prefixes listed /\
    lc_directory c = true /\ lc_mtime c = 0 /\ lc_size c = 0)).
Proof.
  rewrite <- valid_component_spec. cbn [decode_directory_page lp_children].
  rewrite elem_of_app, !list_elem_of_omap.
  setoid_rewrite object_child_spec. setoid_rewrite prefix_child_spec. naive_solver.
Qed.

(** ** CopyObject sources *)

Definition query_tail (q : bytes) : Prop := q = [] \/ exists r, q = "?"%char :: r.

Lemma before_char_tail c p q :
  c ∉ p -> q = [] \/ (exists r, q = c :: r) -> before_char c (p ++ q) = p.
Proof.
  intros Hp [->|[r ->]]; unfold before_char.
  - rewrite app_nil_r, (proj2 (find_char_None _ _)) by done. done.
  - by rewrite find_char_app, take_app_z by done.
Qed.

Definition version_suffix (version_id : bytes) : bytes :=
  if negb (vsize version_id =? 0) then lit "?versionId=" ++ uri_encode version_id false else [].

(** the copy source does not depend on the addressing style: the path-style request path
    ["/bucket/key?query"] and the virtual-hosted path ["/key?query"] of the same object give
    the same source, the encoded bucket followed by the key, without the query, with the
    version appended. *)
Theorem copy_source_styles bucket key q version :
  bucket <> [] -> "?"%char ∉ key -> query_tail q ->
  let source := "/"%char :: uri_encode bucket false ++ "/"%char :: key in
  make_copy_source bucket (source ++ q) version false = Ok (source ++ version_suffix version) /\
  make_copy_source bucket (("/"%char :: key) ++ q) version true
    = Ok (source ++ version_suffix version).
Proof.
  intros Hb Hk Hq source. unfold make_copy_source, request_path_without_query, version_suffix.
  assert (vsize bucket =? 0 = false) as ->.
  { apply Z.eqb_neq. destruct bucket; [done|]. unfold vsize. cbn [length]. lia. }
  assert ("?"%char ∉ uri_encode bucket false) as He by (intros H%uri_encode_chars; naive_solver).
  rewrite !before_char_tail by (subst source; done || set_solver). cbn [negb andb].
  assert (starts_with ("/"%char :: uri_encode bucket false) source = true) as ->
    by (apply starts_with_spec; by eexists).
  assert (vsize source >? vsize ("/"%char :: uri_encode bucket false) = true) as ->.
  { subst source. unfold vsize. rewrite Z.gtb_ltb. apply Z.ltb_lt. cbn [length].
    rewrite length_app. cbn [length]. lia. }
  assert (at_z source (vsize ("/"%char :: uri_encode bucket false)) = "/"%char) as ->.
  { subst source. rewrite app_comm_cons. unfold at_z, vget, vsize.
    by rewrite Nat2Z.id, lookup_app_r, Nat.sub_diag by lia. }
  rewrite orb_true_r. subst source.
  split; apply (f_equal Ok); destruct (negb (vsize version =? 0)); by rewrite ?app_nil_r.
Qed.

Lemma copy_source_styles_witness :
  make_copy_source (lit "data") (lit "/data/a%20b?x=1") (lit "v/1") false
    = Ok (lit "/data/a%20b?versionId=v%2F1").
Proof.
  apply (copy_source_styles (lit "data") (lit "a%20b") (lit "?x=1") (lit "v/1")); [done| |].
  - apply find_char_None. reflexivity.
  - right. by eexists.
Defined.

(** ** Byte sizes *)

Lemma digit_not_unit c : isdigit c = true ->
  ascii_eqb "B" c = false /\ ascii_eqb "K" c = false /\ ascii_eqb "M" c = false /\
  ascii_eqb "G" c = false.
Proof.
  intros Hc.
  assert (forall c, implb (isdigit c) (negb (ascii_eqb "B" c) && negb (ascii_eqb "K" c) &&
    negb (ascii_eqb "M" c) && negb (ascii_eqb "G" c)) = true) as H.
  { apply all_ascii. vm_compute. reflexivity. }
  specialize (H c). rewrite Hc in H. cbn in H. by bool_case.
Qed.

Lemma take_app_suffix (d s : bytes) : take_z (vsize (d ++ s) - vsize s) (d ++ s) = d.
Proof.
  replace (vsize (d ++ s) - vsize s) with (vsize d) by (unfold vsize; rewrite length_app; lia).
  apply take_app_z.
Qed.

Lemma strip_unit_digits d suffix multiplier :
  d <> [] -> Forall (fun c => isdigit c = true) d ->
  (suffix, multiplier) ∈ ([], 1) :: byte_units ->
  strip_unit byte_units (d ++ suffix) = (d, multiplier).
Proof.
  intros Hne Hd Hin. destruct d as [|c d _] using rev_ind; [done|].
  rewrite Forall_app, Forall_singleton in Hd. destruct Hd as [_ Hc].
  destruct (digit_not_unit c Hc) as (HB & HK & HM & HG).
  unfold byte_units in Hin. rewrite !elem_of_cons, elem_of_nil in Hin.
  repeat destruct Hin as [Hin|Hin]; try done; injection Hin as -> ->;
    unfold byte_units, strip_unit;
    repeat match goal with
    | |- context [ends_with ?p ?s] =>
        first [ assert (ends_with p s = true) as -> by (apply ends_with_spec; by eexists)
              | assert (ends_with p s = false) as ->
                  by (rewrite ends_with_rev, !rev_app_distr;
                      cbn [rev app starts_with lit String.list_ascii_of_string];
                      rewrite ?HB, ?HK, ?HM, ?HG; done) ]
    end; by rewrite ?take_app_suffix, ?app_nil_r.
Qed.

(** [parse_byte_size] reads every decimal number with any of the nine suffixes, or none,
    as the product with the unit, and refuses it exactly when the product does not fit in
    64 bits. *)
Theorem parse_byte_size_exact n suffix multiplier :
  is_u64 n -> (suffix, multiplier) ∈ ([], 1) :: byte_units ->
  parse_byte_size (to_chars n ++ suffix) =
    if n * multiplier <=? UINT64_MAX then Some (n * multiplier) else None.
Proof.
  intros Hn Hin. destruct (to_chars_spec n Hn) as (Hne & Hd & Hv).
  unfold parse_byte_size. rewrite (strip_unit_digits _ _ multiplier) by done.
  assert (vsize (to_chars n) =? 0 = false) as ->.
  { apply Z.eqb_neq. destruct (to_chars n); [done|]. unfold vsize. cbn [length]. lia. }
  unfold parse_unsigned. rewrite from_chars_to_chars by done.
  assert (1 <= multiplier) as Hm.
  { unfold byte_units in Hin. rewrite !elem_of_cons, elem_of_nil in Hin.
    repeat destruct Hin as [Hin|Hin]; try done; injection Hin as _ ->; lia. }
  rewrite Z.gtb_ltb. unfold UINT64_MAX, u64.
  destruct (Z.ltb_spec ((2 ^ 64 - 1) / multiplier) n) as [H|H],
    (Z.leb_spec (n * multiplier) (2 ^ 64 - 1)) as [H'|H']; try done.
  - exfalso. apply Z.lt_nge in H. apply H. apply Z.div_le_lower_bound; lia.
  - f_equal. apply Z.mod_small. lia.
  - exfalso. pose proof (Z.mul_div_le (2 ^ 64 - 1) multiplier ltac:(lia)). nia.
Qed.

Lemma parse_byte_size_exact_witness :
  parse_byte_size (to_chars 64 ++ lit "MiB") = Some (64 * (1024 * 1024)).
Proof.
  rewrite (parse_byte_size_exact 64 (lit "MiB") (1024 * 1024)); [reflexivity|lia|].
  unfold byte_units. do 2 right. left.
Defined.
