(* ===== verification/DirectoryListing.v ===== *)
(** * Refreshing a directory

    A directory of the mount keeps its children in memory ([Directory] of [s3.hpp]).  When its
    listing expires, one refresh pages through the listing of the bucket and installs what it
    finds ([AsyncDirectoryRefresh], [install_item], [prune_directory_generation] of
    [fuse.cpp]), while local operations create, remove and rename children.  Every function
    here is one section of [Directory::mutex]; [Phase] is where the refresh is between two
    sections, so that local operations can run there.

    A child stands for its inode: [c_id] is the identity the kernel sees and [c_referenced]
    says whether anything below it is looked up or open.  The bucket's answers are arguments. *)

From S2P Require Import Prelude StdText S3Text.

(** ** Data *)

Record Child := mkChild {
  c_id : Z; c_directory : bool; c_pending : bool; c_truncate_pending : bool; c_generation : Z;
  c_mtime : Z; c_size : Z; c_page_cache_valid : bool; c_referenced : bool;
}.
#[global] Instance Child_settable : Settable Child := fun c =>
  mkChild (c_id c) (c_directory c) (c_pending c) (c_truncate_pending c) (c_generation c) (c_mtime c) (c_size c)
    (c_page_cache_valid c) (c_referenced c).

(** [open_count] and [gate] ([mutation_mutex] is owned) are what reclamation looks at besides.
    [touched] is no member: it remembers the children whose size or time was set without the
    mutex since the last generation was taken. *)
Record Directory := mkDirectory {
  children : gmap bytes Child; detached : bool; refreshing : bool; refresh_waiters : list Z;
  listing_generation : Z; remote_mutations : Z; mutation_epoch : Z; expire : Z; next_id : Z;
  open_count : Z; gate : bool; touched : gset bytes;
}.
#[global] Instance Directory_settable : Settable Directory := fun d =>
  mkDirectory (children d) (detached d) (refreshing d) (refresh_waiters d) (listing_generation d)
    (remote_mutations d) (mutation_epoch d) (expire d) (next_id d) (open_count d) (gate d) (touched d).

(** [DirectoryListingDeferred], [DirectoryListingChanged] and other exceptions. *)
Inductive stop := Deferred | Changed | Failed (e : exn).

Definition local (c : Child) : bool := c_pending c || c_truncate_pending c.

Definition bump (d : Directory) : Directory := d <| mutation_epoch := u64 (mutation_epoch d + 1) |>.

(** What a refresh tests whenever it takes the mutex; a local operation gives no epoch. *)
Definition check_epoch (d : Directory) (epoch : option Z) : option stop :=
  match epoch with
  | None => None
  | Some epoch =>
      if negb (remote_mutations d =? 0) then Some Deferred
      else if negb (mutation_epoch d =? epoch) then Some Changed else None
  end.

(** ** install_item *)

Definition allocate_inode (d : Directory) (directory : bool) : Child :=
  mkChild (next_id d) directory false false 0 0 0 false false.

(** The metadata of a regular file that nobody changes locally. *)
Definition take_metadata (child : ListedChild) (allocated : bool) (c : Child) : Child :=
  if negb (lc_directory child) && negb (c_directory c) && negb (local c) then
    let changed := negb allocated && (negb (c_mtime c =? lc_mtime child) || negb (c_size c =? lc_size child)) in
    (if changed then c <| c_page_cache_valid := false |> else c)
      <| c_mtime := lc_mtime child |> <| c_size := lc_size child |>
  else c.

Definition install_child (d : Directory) (child : ListedChild) (generation : Z) (pending lookup allocated : bool) (c : Child) :
    Directory :=
  let c := if pending then c <| c_pending := true |> else c in
  let c := if lookup then c <| c_referenced := true |> else c in
  let c := if negb (generation =? 0) then c <| c_generation := generation |> else c in
  let d := if negb (generation =? 0) then d else bump d in
  let d := if allocated then d <| next_id := next_id d + 1 |> else d in
  d <| children := <[lc_name child := take_metadata child allocated c]> (children d) |>.

(** [inl None] is the inode 0 of a file that waits for a directory of its name. *)
Definition install_item (d : Directory) (child : ListedChild) (generation : Z)
    (exclusive pending lookup defer_file_over_directory : bool) (epoch : option Z) : Directory * (option Z + stop) :=
  match check_epoch d epoch with
  | Some x => (d, inr x)
  | None =>
      if detached d then (d, inr (Failed (SystemError ESTALE)))
      else
        let create :=
          let c := allocate_inode d (lc_directory child) in
          (install_child d child generation pending lookup true c, inl (Some (c_id c))) in
        match children d !! lc_name child with
        | None => create
        | Some c =>
            if exclusive then (d, inr (Failed (SystemError EEXIST)))
            else if negb (Bool.eqb (c_directory c) (lc_directory child)) && negb (local c) then
              if c_directory c && defer_file_over_directory then (d, inl None) else create
            else (install_child d child generation pending lookup false c, inl (Some (c_id c)))
        end
  end.

(** ** The end of a refresh *)

Definition prune_child (generation : Z) (c : Child) : option Child :=
  if local c then Some (c <| c_generation := generation |>)
  else if c_generation c =? generation then Some c else None.

Definition prune_directory_generation (d : Directory) (generation : Z) (epoch : option Z) : Directory * option stop :=
  match check_epoch d epoch with
  | Some x => (d, Some x)
  | None => (d <| children := omap (prune_child generation) (children d) |>, None)
  end.

Definition publish_listing (d : Directory) (epoch now ttl : Z) : Directory * option stop :=
  match check_epoch d (Some epoch) with
  | Some x => (d, Some x)
  | None => (d <| expire := if UINT64_MAX - now <? ttl then UINT64_MAX else now + ttl |>, None)
  end.

(** A new generation; 0 is never one. *)
Definition next_generation (d : Directory) : Directory * Z :=
  let generation := u32 (listing_generation d + 1) in
  if generation =? 0
  then (d <| listing_generation := 1 |> <| children := (fun c => c <| c_generation := 0 |>) <$> children d |>, 1)
  else (d <| listing_generation := generation |>, generation).

(** ** Local operations *)

(** The section of [detach_cached_item], and of [move_cached_item] in the old directory. *)
Definition remove_child (d : Directory) (name : bytes) : Directory :=
  bump (d <| children := delete name (children d) |>).

(** [move_cached_item] in the new directory: the child keeps its members. *)
Definition move_in (d : Directory) (name : bytes) (c : Child) : Directory :=
  bump (d <| children := <[name := c]> (children d) |>).

Definition begin_inode_write (d : Directory) (name : bytes) (c : Child) : Directory :=
  bump (d <| children := <[name := c <| c_truncate_pending := true |> <| c_size := 0 |>]> (children d) |>).

Definition cancel_inode_write (d : Directory) (name : bytes) (c : Child) (size : Z) (truncate_pending : bool) : Directory :=
  bump (d <| children := <[name := c <| c_size := size |> <| c_truncate_pending := truncate_pending |>]> (children d) |>).

Definition update_truncate_pending (d : Directory) (name : bytes) (c : Child) (pending : bool) : Directory :=
  if Bool.eqb (c_truncate_pending c) pending then d
  else bump (d <| children := <[name := c <| c_truncate_pending := pending |>]> (children d) |>).

(** The section of [publish_written_metadata]. *)
Definition publish_written (d : Directory) (name : bytes) (c : Child) (size mtime : Z) : Directory :=
  bump (d <| children := <[name := c <| c_size := size |> <| c_mtime := mtime |> <| c_page_cache_valid := true |>
                                     <| c_pending := false |> <| c_truncate_pending := false |>]> (children d) |>).

(** [DirectoryPublicationGuard::update] *)
Definition publication_update (d : Directory) (entering : bool) : Directory :=
  bump (d <| remote_mutations := u32 (if entering then remote_mutations d + 1 else remote_mutations d - 1) |>) <| expire := 0 |>.

(** The size, time and page cache flag of an inode that has a handle are set without the mutex
    of its directory: [publish_open_metadata] when it is opened, [set_fsize] when it is written
    or truncated. *)
Definition set_metadata (d : Directory) (name : bytes) (c : Child) (size mtime : Z) (valid : bool) : Directory :=
  d <| children := <[name := c <| c_size := size |> <| c_mtime := mtime |> <| c_page_cache_valid := valid |>]> (children d) |>
    <| touched := {[name]} ∪ touched d |>.

(** ** Reclamation *)

(** [reclaim_cached_children] takes the gate if it is free and looks at the directory without the
    mutex. *)
Definition reclaim_allowed (d : Directory) (now : Z) : bool :=
  negb (gate d) &&
  negb (detached d || refreshing d || negb (open_count d =? 1) || (expire d >? now)).

Definition reclaim_cached_children (d : Directory) : Directory :=
  d <| children := filter (fun '(_, c) => Is_true (local c || c_referenced c)) (children d) |>.

(** ** The refresh *)

(** [l_start] and [l_received] are not members: they remember the children when the generation
    was taken, and what the pages have listed since. *)
Record Listing := mkListing {
  l_generation : Z; l_epoch : Z; l_conflicts : list ListedChild;
  l_start : gmap bytes Child; l_received : list ListedChild;
}.
#[global] Instance Listing_settable : Settable Listing := fun l =>
  mkListing (l_generation l) (l_epoch l) (l_conflicts l) (l_start l) (l_received l).

Inductive Phase :=
  | Paging (l : Listing)
  | Installing (l : Listing) (page : list ListedChild) (truncated : bool)
  | Resolving (l : Listing) (conflicts : list ListedChild)
  | Replacing (l : Listing) (child : ListedChild) (conflicts : list ListedChild)
  | Pruning (l : Listing)
  | Publishing (l : Listing)
  | Sweeping (l : Listing)
  | Finishing (error : option exn).

(** The section that takes a generation, at the start and when the listing changed. *)
Definition begin_listing (d : Directory) : Directory * Listing :=
  let epoch := mutation_epoch d in
  let '(d, generation) := next_generation d in
  (d <| touched := ∅ |>, mkListing generation epoch [] (children d) []).

(** The handlers of [received]. *)
Definition stopped (d : Directory) (x : stop) : Directory * Phase :=
  match x with
  | Deferred => (d, Finishing None)
  | Changed => let '(d, l) := begin_listing d in (d, Paging l)
  | Failed e => (d, Finishing (Some e))
  end.

Definition directory_won (d : Directory) (l : Listing) (child : ListedChild) : bool :=
  match children d !! lc_name child with
  | Some c => c_directory c && (c_generation c =? l_generation l)
  | None => false
  end.

(** What the refresh does up to its next section, or to its next request. *)
Definition listing_step (d : Directory) (p : Phase) (now ttl : Z) : Directory * Phase :=
  match p with
  | Installing l [] truncated => (d, if truncated then Paging l else Resolving l (l_conflicts l))
  | Installing l (child :: page) truncated =>
      match install_item d child (l_generation l) false false false true (Some (l_epoch l)) with
      | (d, inl None) =>
          (d, Installing (l <| l_conflicts := l_conflicts l ++ [child] |> <| l_received := l_received l ++ [child] |>) page truncated)
      | (d, inl (Some _)) => (d, Installing (l <| l_received := l_received l ++ [child] |>) page truncated)
      | (d, inr x) => stopped d x
      end
  | Resolving l [] => (d, Pruning l)
  | Resolving l (child :: conflicts) =>
      (d, if directory_won d l child then Resolving l conflicts else Replacing l child conflicts)
  | Replacing l child conflicts =>
      match install_item d child (l_generation l) false false false false (Some (l_epoch l)) with
      | (d, inl _) => (d, Resolving l conflicts)
      | (d, inr x) => stopped d x
      end
  | Pruning l =>
      match prune_directory_generation d (l_generation l) (Some (l_epoch l)) with
      | (d, None) => (d, Publishing l)
      | (d, Some x) => stopped d x
      end
  | Publishing l =>
      match publish_listing d (l_epoch l) now ttl with
      | (d, None) => (d, Sweeping l)
      | (d, Some x) => stopped d x
      end
  | Sweeping l => (d, Finishing None)
  | Paging _ | Finishing _ => (d, p)
  end.

(** [AsyncDirectoryRefresh::finish] with [invalidate_directory] and [finish_directory_refresh]:
    the waiters and what they are told. *)
Definition finish_refresh (d : Directory) (error : option exn) : Directory * list (Z * option exn) :=
  let d := match error with Some _ => if detached d then d else d <| expire := 0 |> | None => d end in
  (d <| refresh_waiters := [] |> <| refreshing := false |>, map (fun w => (w, error)) (refresh_waiters d)).

Inductive Awaited := NotNeeded | Joined | Started (p : Phase) | Refused (e : exn).

(** [await_directory_refresh]; [reserved] is the errno when the completion cannot be reserved. *)
Definition await_directory_refresh (d : Directory) (waiter now : Z) (force : bool) (reserved : option Z) : Directory * Awaited :=
  if negb (remote_mutations d =? 0) then (d, NotNeeded)
  else if negb force && negb (refreshing d) && (now <? expire d) then (d, NotNeeded)
  else match reserved with
       | Some errno => (d, Refused (SystemError errno))
       | None =>
           let join d := d <| refresh_waiters := waiter :: refresh_waiters d |> in
           if refreshing d then (join d, Joined)
           else let '(d, l) := begin_listing (d <| refreshing := true |>) in (join d, Started (Paging l))
       end.

(** ** All that can happen to a directory *)

Record System := mkSystem {
  dir : Directory; phase : option Phase; reclaiming : bool; waiting : list Z; told : list (Z * option exn);
}.
#[global] Instance System_settable : Settable System := fun s =>
  mkSystem (dir s) (phase s) (reclaiming s) (waiting s) (told s).

(** Sections that leave the listing alone.  [foreign] allows a child to be moved in with a
    generation that this directory has not reached. *)
Inductive local_step (foreign : bool) (d : Directory) : Directory -> Prop :=
  | ls_install child exclusive pending lookup :
      local_step foreign d (install_item d child 0 exclusive pending lookup false None).1
  | ls_remove name : local_step foreign d (remove_child d name)
  | ls_move_in name c : children d !! name = None -> 0 <= c_generation c ->
      (foreign = false -> c_generation c <= listing_generation d) -> local_step foreign d (move_in d name c)
  | ls_begin_write name c : children d !! name = Some c -> local_step foreign d (begin_inode_write d name c)
  | ls_cancel_write name c size b : children d !! name = Some c -> local_step foreign d (cancel_inode_write d name c size b)
  | ls_truncate name c b : children d !! name = Some c -> local_step foreign d (update_truncate_pending d name c b)
  | ls_written name c size mtime : children d !! name = Some c -> local_step foreign d (publish_written d name c size mtime)
  | ls_publication entering : local_step foreign d (publication_update d entering)
  | ls_reference name c b : children d !! name = Some c ->
      local_step foreign d (d <| children := <[name := c <| c_referenced := b |>]> (children d) |>)
  | ls_metadata name c size mtime valid : children d !! name = Some c ->
      local_step foreign d (set_metadata d name c size mtime valid)
  | ls_open n : local_step foreign d (d <| open_count := n |>)
  | ls_invalidate : local_step foreign d (d <| expire := 0 |>)
  | ls_detach : local_step foreign d (d <| detached := true |>).

(** [races] lets the section of [reclaim_cached_children] run although a refresh has begun
    since the directory was looked at. *)
Inductive step (races foreign : bool) (s : System) : System -> Prop :=
  | st_local d : local_step foreign (dir s) d -> mutation_epoch (dir s) < UINT64_MAX -> step races foreign s (s <| dir := d |>)
  | st_await waiter now force reserved d a :
      await_directory_refresh (dir s) waiter now force reserved = (d, a) ->
      step races foreign s (s <| dir := d |>
        <| phase := match a with Started p => Some p | _ => phase s end |>
        <| waiting := match a with Started _ | Joined => waiter :: waiting s | _ => waiting s end |>)
  | st_page l page truncated : phase s = Some (Paging l) -> step races foreign s (s <| phase := Some (Installing l page truncated) |>)
  | st_error l e : phase s = Some (Paging l) -> step races foreign s (s <| phase := Some (Finishing (Some e)) |>)
  | st_listing p now ttl d p' : phase s = Some p -> 0 <= now <= UINT64_MAX -> 0 <= ttl <= UINT64_MAX ->
      listing_step (dir s) p now ttl = (d, p') -> step races foreign s (s <| dir := d |> <| phase := Some p' |>)
  | st_finish e d l : phase s = Some (Finishing e) -> finish_refresh (dir s) e = (d, l) ->
      step races foreign s (s <| dir := d |> <| phase := None |> <| told := told s ++ l |>)
  | st_lock : gate (dir s) = false -> step races foreign s (s <| dir := dir s <| gate := true |> |>)
  | st_unlock : gate (dir s) = true -> reclaiming s = false -> step races foreign s (s <| dir := dir s <| gate := false |> |>)
  | st_look now : reclaim_allowed (dir s) now = true ->
      step races foreign s (s <| dir := dir s <| gate := true |> |> <| reclaiming := true |>)
  | st_reclaim : reclaiming s = true -> (races = false -> refreshing (dir s) = false) ->
      step races foreign s (s <| dir := reclaim_cached_children (dir s) <| gate := false |> |> <| reclaiming := false |>).

Definition new_directory : Directory := mkDirectory ∅ false false [] 0 0 0 0 1 1 false ∅.

Inductive run (races foreign : bool) : System -> Prop :=
  | run_new : run races foreign (mkSystem new_directory None false [] [])
  | run_step s s' : run races foreign s -> step races foreign s s' -> run races foreign s'.

(** ** What a refresh is to show *)

Definition lists_directory (n : bytes) (listed : list ListedChild) : bool :=
  existsb (fun c => bool_decide (lc_name c = n) && lc_directory c) listed.
Definition files (n : bytes) (listed : list ListedChild) : list ListedChild :=
  filter (fun c => lc_name c = n /\ lc_directory c = false) listed.

(** The same inode with the same metadata. *)
Definition plain (c : Child) : Child := c <| c_generation := 0 |> <| c_page_cache_valid := false |> <| c_referenced := false |>.

(** The same inode, with the same size and time unless they were set meanwhile. *)
Definition shown (t : bool) (c : Child) : Child := if t then plain c <| c_mtime := 0 |> <| c_size := 0 |> else plain c.

(** The inode of a child that is still of the same kind stays. *)
Definition keeps (c0 : option Child) (c : Child) : Prop :=
  forall c', c0 = Some c' -> c_directory c' = c_directory c -> c_id c = c_id c'.

Definition is_local (c0 : option Child) : bool := match c0 with Some c => local c | None => false end.
Definition is_directory (c0 : option Child) : bool := match c0 with Some c => c_directory c | None => false end.

(** From the child [c0] at the start, the child now: [directory] says that the listing has shown
    a directory, [file] is the file it has shown last; [t] says that the size or time of the
    child was set meanwhile. *)
Definition settled (t : bool) (g : Z) (c0 : option Child) (directory : bool) (file : option ListedChild) (now : option Child) : Prop :=
  if is_local c0 then shown t <$> now = shown t <$> c0
  else if directory
  then exists c, now = Some c /\ c_directory c = true /\ local c = false /\ c_generation c = g /\ keeps c0 c
  else match file with
       | Some f => exists c, now = Some c /\ c_directory c = false /\ local c = false /\ c_generation c = g /\
                     (t = false -> c_mtime c = lc_mtime f /\ c_size c = lc_size f) /\ keeps c0 c
       | None => shown t <$> now = shown t <$> c0 /\ c_generation <$> now = c_generation <$> c0
       end.

(** The directory after a complete listing: local children are as they were, a directory hides a
    file of its name, and nothing else is left. *)
Definition exact (t : bool) (c0 : option Child) (directory : bool) (file : option ListedChild) (now : option Child) : Prop :=
  if is_local c0 then shown t <$> now = shown t <$> c0
  else if directory then exists c, now = Some c /\ c_directory c = true /\ keeps c0 c
  else match file with
       | Some f => exists c, now = Some c /\ c_directory c = false /\ (t = false -> c_mtime c = lc_mtime f /\ c_size c = lc_size f) /\ keeps c0 c
       | None => now = None
       end.

Lemma shown_fields t c c' : shown t c = shown t c' ->
  c_id c = c_id c' /\ c_directory c = c_directory c' /\ local c = local c' /\
  (t = false -> c_mtime c = c_mtime c' /\ c_size c = c_size c').
Proof. destruct c, c'. unfold shown, plain, local. destruct t; cbn; intros [= -> -> -> ->]; subst; done. Qed.

Lemma plain_shown t c c' : plain c = plain c' -> shown t c = shown t c'.
Proof. unfold shown. by intros ->. Qed.

Lemma shown_le (t t' : bool) c c' : (t = true -> t' = true) -> shown t c = shown t c' -> shown t' c = shown t' c'.
Proof. unfold shown. destruct t, t'; intros Ht; try done; [by specialize (Ht eq_refl)|]. by intros ->. Qed.

Lemma prune_exact t g c0 directory file now :
  settled t g c0 directory file now -> (forall c, c0 = Some c -> c_generation c <> g) ->
  exact t c0 directory file (now ≫= prune_child g).
Proof.
  unfold settled, exact. intros H Hg. destruct (is_local c0) eqn:El.
  - destruct c0 as [c0|]; [|done]. destruct now as [c|]; [|done]. cbn in *. apply (inj Some) in H.
    destruct (shown_fields _ _ _ H) as (_ & _ & Hl & _). unfold prune_child. rewrite Hl, El. cbn. rewrite <-H. by destruct t.
  - destruct directory; [|destruct file as [f|]].
    + destruct H as (c & -> & Hd & Hl & Hgen & Hk). exists c. cbn. unfold prune_child. by rewrite Hl, Hgen, Z.eqb_refl.
    + destruct H as (c & -> & Hd & Hl & Hgen & Hm & Hk). exists c. cbn. unfold prune_child. by rewrite Hl, Hgen, Z.eqb_refl.
    + destruct H as [Hp Hgen], c0 as [c0|], now as [c|]; try done. cbn in *. apply (inj Some) in Hp, Hgen.
      destruct (shown_fields _ _ _ Hp) as (_ & _ & Hl & _).
      unfold prune_child. rewrite Hl, El, Hgen. destruct (Z.eqb_spec (c_generation c0) g) as [E|]; [|done]. by destruct (Hg c0).
Qed.

(** Lookups and forgets do not matter; opens and writes change sizes and times. *)
Definition refs_only (t : bool) (x y : option Child) : Prop :=
  shown t <$> x = shown t <$> y /\ c_generation <$> x = c_generation <$> y.

Lemma refs_some t x y c : refs_only t x y -> x = Some c -> exists c', y = Some c' /\ shown t c = shown t c' /\ c_generation c = c_generation c'.
Proof. intros [H1 H2] ->. destruct y as [c'|]; [|done]. cbn in *. exists c'. split; [done|]. split; congruence. Qed.

Lemma shown_le_option (t t' : bool) (x y : option Child) : (t = true -> t' = true) -> shown t <$> x = shown t <$> y -> shown t' <$> x = shown t' <$> y.
Proof. intros Ht. destruct x, y; try done. cbn. intros [= H]. f_equal. by eapply shown_le. Qed.

Lemma settled_refs (t t' : bool) g c0 directory file x y :
  (t = true -> t' = true) -> refs_only t' x y -> settled t g c0 directory file x -> settled t' g c0 directory file y.
Proof.
  intros Ht R. pose proof R as [R1 R2]. unfold settled, keeps. destruct (is_local c0).
  { intros H%(shown_le_option _ t'); [congruence|done]. }
  destruct directory; [|destruct file as [f|]].
  - intros (c & E & Hd & Hl & Hg & Hk). destruct (refs_some _ _ _ _ R E) as (c' & -> & Hp & Hg').
    destruct (shown_fields _ _ _ Hp) as (E1 & E2 & E3 & E4). exists c'. rewrite <-E1, <-E2, <-E3, <-Hg'. done.
  - intros (c & E & Hd & Hl & Hg & Hm & Hk). destruct (refs_some _ _ _ _ R E) as (c' & -> & Hp & Hg').
    destruct (shown_fields _ _ _ Hp) as (E1 & E2 & E3 & E4). exists c'. rewrite <-E1, <-E2, <-E3, <-Hg'. split_and!; try done.
    intros F. destruct (E4 F) as [<- <-]. apply Hm. destruct t; [|done]. by rewrite Ht in F.
  - intros [H1%(shown_le_option _ t') H2]; [|done]. split; congruence.
Qed.

Lemma exact_refs (t t' : bool) c0 directory file x y :
  (t = true -> t' = true) -> refs_only t' x y -> exact t c0 directory file x -> exact t' c0 directory file y.
Proof.
  intros Ht R. pose proof R as [R1 R2]. unfold exact, keeps. destruct (is_local c0).
  { intros H%(shown_le_option _ t'); [congruence|done]. }
  destruct directory; [|destruct file as [f|]].
  - intros (c & E & Hd & Hk). destruct (refs_some _ _ _ _ R E) as (c' & -> & Hp & Hg').
    destruct (shown_fields _ _ _ Hp) as (E1 & E2 & E3 & E4). exists c'. by rewrite <-E1, <-E2.
  - intros (c & E & Hd & Hm & Hk). destruct (refs_some _ _ _ _ R E) as (c' & -> & Hp & Hg').
    destruct (shown_fields _ _ _ Hp) as (E1 & E2 & E3 & E4). exists c'. rewrite <-E1, <-E2. split_and!; try done.
    intros F. destruct (E4 F) as [<- <-]. apply Hm. destruct t; [|done]. by rewrite Ht in F.
  - intros ->. destruct y; [|done]. by destruct R.
Qed.

(** ** Installing what is listed *)

Definition listed_as (g : Z) (child : ListedChild) (c : Child) : Prop :=
  c_directory c = lc_directory child /\ local c = false /\ c_generation c = g /\
  (lc_directory child = false -> c_mtime c = lc_mtime child /\ c_size c = lc_size child).

(** Everything but the children and the next inode. *)
Record same_rest (d d' : Directory) : Prop := {
  sr_detached : detached d' = detached d; sr_refreshing : refreshing d' = refreshing d;
  sr_waiters : refresh_waiters d' = refresh_waiters d; sr_generation : listing_generation d' = listing_generation d;
  sr_remote : remote_mutations d' = remote_mutations d; sr_epoch : mutation_epoch d' = mutation_epoch d;
  sr_touched : touched d' = touched d;
}.

Lemma check_epoch_passed d epoch : check_epoch d (Some epoch) = None -> mutation_epoch d = epoch.
Proof. unfold check_epoch. destruct (negb _); [done|]. by destruct (Z.eqb_spec (mutation_epoch d) epoch). Qed.

Lemma installed_listed d child g c : g <> 0 -> c_directory c = lc_directory child -> local c = false ->
  forall allocated, exists c', children (install_child d child g false false allocated c) !! lc_name child = Some c' /\
    listed_as g child c' /\ c_id c' = c_id c.
Proof.
  intros Hg Hd Hl allocated. unfold install_child. rewrite (proj2 (Z.eqb_neq g 0) Hg). cbn [negb].
  eexists. split; [destruct allocated; cbn; apply lookup_insert_eq|].
  assert (Hl' : local (c <| c_generation := g |>) = false) by exact Hl.
  unfold take_metadata. rewrite Hl'. change (c_directory (c <| c_generation := g |>)) with (c_directory c). rewrite Hd.
  unfold listed_as. destruct (lc_directory child) eqn:E; cbn [negb andb]; [by split_and!|].
  destruct (negb allocated && _); by split_and!.
Qed.

Lemma install_child_rest d child g pending lookup allocated c :
  g <> 0 -> same_rest d (install_child d child g pending lookup allocated c) /\
  (forall n, n <> lc_name child -> children (install_child d child g pending lookup allocated c) !! n = children d !! n).
Proof.
  intros Hg. unfold install_child. rewrite (proj2 (Z.eqb_neq g 0) Hg). cbn [negb].
  split; [destruct allocated; by split|]. intros n Hn. destruct allocated; cbn; by rewrite lookup_insert_ne.
Qed.

(** What installing [child] makes of the child [now] of its name; [r] is [None] for a file that
    waits. *)
Definition installed (g : Z) (child : ListedChild) (defer : bool) (now now' : option Child) (r : option Z) : Prop :=
  match now with
  | None => exists c', now' = Some c' /\ listed_as g child c' /\ r <> None
  | Some c =>
      if local c then (exists c', now' = Some c' /\ plain c' = plain c) /\ r <> None
      else if Bool.eqb (c_directory c) (lc_directory child)
      then exists c', now' = Some c' /\ listed_as g child c' /\ c_id c' = c_id c /\ r <> None
      else if c_directory c && defer then now' = now /\ r = None
      else exists c', now' = Some c' /\ listed_as g child c' /\ r <> None
  end.

Lemma install_listed d child g defer epoch d' r :
  g <> 0 -> install_item d child g false false false defer (Some epoch) = (d', inl r) ->
  mutation_epoch d = epoch /\ same_rest d d' /\
  (forall n, n <> lc_name child -> children d' !! n = children d !! n) /\
  installed g child defer (children d !! lc_name child) (children d' !! lc_name child) r.
Proof.
  intros Hg. unfold install_item. destruct (check_epoch d (Some epoch)) eqn:Ec; [done|]. apply check_epoch_passed in Ec.
  destruct (detached d); [done|].
  assert (Hnew : forall d' r, (install_child d child g false false true (allocate_inode d (lc_directory child)),
      @inl (option Z) stop (Some (c_id (allocate_inode d (lc_directory child))))) = (d', inl r) ->
    (same_rest d d' /\ (forall n, n <> lc_name child -> children d' !! n = children d !! n)) /\
    exists c', children d' !! lc_name child = Some c' /\ listed_as g child c' /\ r <> None).
  { intros d1 r1 [= <- <-]. split; [by apply install_child_rest|].
    destruct (installed_listed d child g (allocate_inode d (lc_directory child)) Hg eq_refl eq_refl true) as (c' & E & H & _). by exists c'. }
  unfold installed. destruct (children d !! lc_name child) as [c|] eqn:E.
  - destruct (local c) eqn:El; [rewrite andb_false_r|rewrite andb_true_r].
    + intros [= <- <-]. destruct (install_child_rest d child g false false false c Hg) as [H1 H2]. split_and!; try done.
      unfold install_child. rewrite (proj2 (Z.eqb_neq g 0) Hg). cbn [negb]. eexists. split; [cbn; apply lookup_insert_eq|].
      unfold take_metadata. change (local (c <| c_generation := g |>)) with (local c). by rewrite El, andb_false_r.
    + destruct (Bool.eqb (c_directory c) (lc_directory child)) eqn:Ed; cbn [negb].
      * intros [= <- <-]. destruct (install_child_rest d child g false false false c Hg) as [H1 H2]. split_and!; try done.
        destruct (installed_listed d child g c Hg (eqb_prop _ _ Ed) El false) as (c' & E' & H & Hid). by exists c'.
      * destruct (c_directory c && defer).
        -- intros [= <- <-]. split_and!; try done.
        -- intros H%Hnew. destruct H as [[? ?] ?]. by split_and!.
  - intros H%Hnew. destruct H as [[? ?] ?]. by split_and!.
Qed.

(** A file waits as long as only the old directory of its name is there. *)
Definition waits (c0 : option Child) (directory : bool) : bool := negb (is_local c0) && is_directory c0 && negb directory.

Definition installing_ok (t : bytes -> bool) (g : Z) (start : gmap bytes Child) (received conflicts : list ListedChild) (now : gmap bytes Child) : Prop :=
  forall n, let c0 := start !! n in let directory := lists_directory n received in
    if waits c0 directory then settled (t n) g c0 false None (now !! n) /\ files n conflicts = files n received
    else settled (t n) g c0 directory (last (files n received)) (now !! n) /\ (is_local c0 || negb directory = true -> files n conflicts = []).

Definition resolving_ok (t : bytes -> bool) (g : Z) (start : gmap bytes Child) (received resolved todo : list ListedChild) (now : gmap bytes Child) : Prop :=
  forall n, let c0 := start !! n in let directory := lists_directory n received in
    if waits c0 directory
    then settled (t n) g c0 false (last (files n resolved)) (now !! n) /\ files n (resolved ++ todo) = files n received
    else settled (t n) g c0 directory (last (files n received)) (now !! n) /\ (is_local c0 || negb directory = true -> files n (resolved ++ todo) = []).

Lemma lists_directory_snoc n listed c :
  lists_directory n (listed ++ [c]) = lists_directory n listed || (bool_decide (lc_name c = n) && lc_directory c).
Proof. unfold lists_directory. rewrite existsb_app. cbn. by rewrite orb_false_r. Qed.

Lemma files_snoc n listed c :
  files n (listed ++ [c]) = files n listed ++ (if bool_decide (lc_name c = n) && negb (lc_directory c) then [c] else []).
Proof.
  unfold files. rewrite filter_app. f_equal. rewrite filter_cons, filter_nil. destruct (lc_directory c).
  - rewrite andb_false_r. rewrite decide_False; [done|]. by intros [_ ?].
  - rewrite andb_true_r. case_bool_decide as E; [by rewrite decide_True|rewrite decide_False; [done|by intros [? _]]].
Qed.

Lemma snoc_other n listed c : lc_name c <> n ->
  lists_directory n (listed ++ [c]) = lists_directory n listed /\ files n (listed ++ [c]) = files n listed.
Proof.
  intros Hn. rewrite lists_directory_snoc, files_snoc, (bool_decide_eq_false_2 _ Hn). cbn. by rewrite orb_false_r, app_nil_r.
Qed.

(** The child of a name after the listing has shown [child] under it. *)
Lemma settled_listed t g c0 child c directory file :
  listed_as g child c -> is_local c0 = false -> keeps c0 c ->
  (lc_directory child = false -> directory = false /\ file = Some child) ->
  (lc_directory child = true -> directory = true) ->
  settled t g c0 directory file (Some c).
Proof.
  intros (Hd & Hl & Hgen & Hm) E0 Hk Hf Hdir. unfold settled. rewrite E0. destruct (lc_directory child) eqn:E.
  - rewrite (Hdir eq_refl). exists c. by split_and!.
  - destruct (Hf eq_refl) as [-> ->]. destruct (Hm eq_refl). exists c. by split_and!.
Qed.

Lemma keeps_new c0 c : (forall c', c0 = Some c' -> c_directory c' <> c_directory c) -> keeps c0 c.
Proof. intros H c' E Ed. by destruct (H c' E). Qed.

Lemma keeps_same c0 c c' : keeps c0 c -> c_id c' = c_id c -> c_directory c' = c_directory c -> keeps c0 c'.
Proof. intros H E1 E2 x Ex Ed. rewrite E1. apply H; congruence. Qed.

Lemma settled_some t g c0 directory file now :
  settled t g c0 directory file now -> is_local c0 = true \/ directory = true \/ file <> None \/ c0 <> None -> exists c, now = Some c.
Proof.
  unfold settled. intros H Hc. destruct (is_local c0) eqn:El.
  - destruct c0; [|done]. destruct now; [by eexists|done].
  - destruct directory; [destruct H as (c & -> & _); by eexists|]. destruct file; [destruct H as (c & -> & _); by eexists|].
    destruct H as [H _], c0, now; try done; [by eexists|]. by destruct Hc as [?|[?|[?|?]]].
Qed.

(** The three ways in which a name can be settled before a child is listed. *)
Lemma settled_kind t g c0 directory file now c :
  settled t g c0 directory file now -> now = Some c ->
  (is_local c0 = true /\ local c = true) \/
  (is_local c0 = false /\ local c = false /\ keeps c0 c /\
   c_directory c = (directory || (is_directory c0 && match file with None => true | Some _ => false end))).
Proof.
  intros H ->. unfold settled in H. destruct (is_local c0) eqn:El.
  - left. destruct c0 as [c0|]; [|done]. cbn in *. apply (inj Some) in H. destruct (shown_fields _ _ _ H) as (_ & _ & -> & _). done.
  - right. destruct directory; [|destruct file as [f|]].
    + destruct H as (c' & [= <-] & Hd & Hl & _ & Hk). by split_and!.
    + destruct H as (c' & [= <-] & Hd & Hl & _ & _ & Hk). rewrite andb_false_r. by split_and!.
    + destruct H as [H _], c0 as [c0|]; [|done]. cbn in *. apply (inj Some) in H. destruct (shown_fields _ _ _ H) as (E1 & E2 & El' & _).
      split_and!; [done|by rewrite El'|intros x [= <-] _; done|by rewrite andb_true_r].
Qed.

Lemma settled_local t g c0 d d' file file' now now' :
  is_local c0 = true -> settled t g c0 d file now -> shown t <$> now' = shown t <$> now -> settled t g c0 d' file' now'.
Proof. unfold settled. intros ->. congruence. Qed.

(** A listed child is installed over what was settled before. *)
Lemma settled_installed t g c0 directory file now child defer now' r :
  settled t g c0 directory file now -> installed g child defer now now' r ->
  (lc_directory child = false -> is_local c0 = false -> directory = false /\ (is_directory c0 = true -> file <> None \/ defer = false)) ->
  (lc_directory child = true -> is_local c0 = false -> is_directory c0 = true -> directory = true \/ file = None) ->
  r <> None /\ settled t g c0 (directory || lc_directory child) (if lc_directory child then file else Some child) now'.
Proof.
  intros H Hi Hc Hc2. unfold installed in Hi. destruct now as [c|].
  - destruct (settled_kind _ _ _ _ _ _ _ H eq_refl) as [[E0 El]|(E0 & El & Hk & Hd)]; rewrite El in Hi.
    + destruct Hi as [(c' & -> & Hp) Hr]. split; [done|]. eapply settled_local; [done|exact H|]. cbn. by rewrite (plain_shown t _ _ Hp).
    + destruct (Bool.eqb_spec (c_directory c) (lc_directory child)) as [Ed|Ed].
      * destruct Hi as (c' & -> & Hla & Hid & Hr). split; [done|]. eapply settled_listed; [done|done| |..].
        -- eapply keeps_same; [done|done|]. by rewrite (proj1 Hla).
        -- intros E. rewrite E, orb_false_r. by split; [apply Hc|].
        -- intros ->. by rewrite orb_true_r.
      * assert (Hnew : c_directory c && defer = false /\ (forall x, c0 = Some x -> c_directory x <> lc_directory child)).
        { destruct (lc_directory child) eqn:Ec.
          - destruct (c_directory c); [done|]. split; [done|]. intros x -> Ex. symmetry in Hd. apply orb_false_iff in Hd as [-> Hd].
            cbn in Hd, Hc2. rewrite Ex in Hd, Hc2. destruct (Hc2 eq_refl E0 eq_refl) as [|Hf]; [done|]. by rewrite Hf in Hd.
          - destruct (Hc eq_refl E0) as [-> Hf], (c_directory c); [|done]. cbn in Hd. symmetry in Hd. apply andb_true_iff in Hd as [Hd1 Hd2].
            destruct (Hf Hd1) as [|Hdef]; [by destruct file|]. rewrite Hdef. split; [done|]. intros x -> Ex. cbn in Hd1. congruence. }
        destruct Hnew as [Ecd Hkind]. rewrite Ecd in Hi. destruct Hi as (c' & -> & Hla & Hr). split; [done|].
        eapply settled_listed; [done|done| |..].
        -- apply keeps_new. intros x Ex. rewrite (proj1 Hla). by apply Hkind.
        -- intros E. rewrite E, orb_false_r. by split; [apply Hc|].
        -- intros ->. by rewrite orb_true_r.
  - destruct Hi as (c' & -> & Hla & Hr). split; [done|].
    assert (c0 = None /\ directory = false /\ file = None) as (-> & -> & ->).
    { destruct (decide (c0 = None /\ directory = false /\ file = None)) as [|Hn]; [done|]. exfalso.
      destruct (settled_some _ _ _ _ _ _ H) as [? [=]]. right. destruct directory; [by left|right]. destruct file; [by left|right]. by destruct c0; [|destruct Hn]. }
    eapply settled_listed; [done|done|done| |]; cbn; [by intros ->|done].
Qed.

(** A file waits while a directory of its name is there. *)
Lemma installed_deferred t g c0 directory file now child now' r :
  settled t g c0 directory file now -> installed g child true now now' r -> is_local c0 = false -> lc_directory child = false ->
  directory = true \/ (is_directory c0 = true /\ file = None) -> now' = now /\ r = None.
Proof.
  intros Hs Hin E0 Ec Hcase.
  destruct (settled_some _ _ _ _ _ _ Hs) as [c Ecur]; [destruct Hcase as [|[? _]]; [tauto|right; right; right; by destruct c0]|].
  destruct (settled_kind _ _ _ _ _ _ _ Hs Ecur) as [[? ?]|(_ & El & _ & Hd)]; [congruence|].
  assert (Ed : c_directory c = true) by (rewrite Hd; destruct Hcase as [->|[-> ->]]; [done|by rewrite orb_true_r]).
  unfold installed in Hin. rewrite Ecur, El, Ed, Ec in Hin. cbn in Hin. by rewrite Ecur.
Qed.

Lemma installing_step t g start received conflicts d child epoch d' r :
  g <> 0 -> installing_ok t g start received conflicts (children d) ->
  install_item d child g false false false true (Some epoch) = (d', inl r) ->
  installing_ok t g start (received ++ [child]) (match r with None => conflicts ++ [child] | Some _ => conflicts end) (children d').
Proof.
  intros Hg H Hi. destruct (install_listed _ _ _ _ _ _ _ Hg Hi) as (_ & _ & Hother & Hin). intros n. specialize (H n). cbn zeta in *.
  destruct (decide (lc_name child = n)) as [<-|Hn].
  2: { destruct (snoc_other n received child Hn) as [-> ->]. rewrite Hother by congruence.
       destruct r; [exact H|]. by rewrite (proj2 (snoc_other n conflicts child Hn)). }
  set (c0 := start !! lc_name child) in *. rewrite lists_directory_snoc, files_snoc, bool_decide_eq_true_2 by done. cbn [andb].
  set (directory := lists_directory (lc_name child) received) in *.
  destruct (waits c0 directory) eqn:Ew.
  - unfold waits in Ew. rewrite !andb_true_iff, !negb_true_iff in Ew. destruct Ew as [[E0 Edir] ED]. destruct H as [Hs HK].
    rewrite ED. destruct (lc_directory child) eqn:Ec; cbn [negb orb andb].
    + destruct (settled_installed _ _ _ _ _ _ _ _ _ _ Hs Hin) as [Hr Hs']; [congruence|intros; by right|]. rewrite Ec in Hs'.
      unfold waits. rewrite E0, Edir. cbn [negb andb orb]. rewrite app_nil_r. split; [|done]. unfold settled in *. by rewrite E0 in *.
    + destruct (installed_deferred _ _ _ _ _ _ _ _ _ Hs Hin E0 Ec) as [-> ->]; [by right|]. unfold waits. rewrite E0, Edir. cbn [negb andb].
      split; [done|]. rewrite files_snoc, bool_decide_eq_true_2, Ec, HK by done. done.
  - destruct H as [Hs HK].
    assert (Edir : is_local c0 = false -> directory = false -> is_directory c0 = false).
    { intros E0 ED. unfold waits in Ew. rewrite E0, ED in Ew. by destruct (is_directory c0). }
    assert (Hcont : r <> None -> settled (t (lc_name child)) g c0 (directory || lc_directory child)
        (if lc_directory child then last (files (lc_name child) received) else Some child) (children d' !! lc_name child) ->
      if waits c0 (directory || lc_directory child)
      then settled (t (lc_name child)) g c0 false None (children d' !! lc_name child) /\
           files (lc_name child) (match r with None => conflicts ++ [child] | Some _ => conflicts end) =
           files (lc_name child) received ++ (if negb (lc_directory child) then [child] else [])
      else settled (t (lc_name child)) g c0 (directory || lc_directory child)
             (last (files (lc_name child) received ++ (if negb (lc_directory child) then [child] else []))) (children d' !! lc_name child) /\
           (is_local c0 || negb (directory || lc_directory child) = true ->
            files (lc_name child) (match r with None => conflicts ++ [child] | Some _ => conflicts end) = [])).
    { intros Hr Hs'. destruct r; [|done]. assert (Ew' : waits c0 (directory || lc_directory child) = false).
      { unfold waits in *. destruct (is_local c0), (is_directory c0), directory, (lc_directory child); done. }
      rewrite Ew'. split.
      - destruct (lc_directory child); cbn [negb]; [by rewrite app_nil_r|by rewrite last_snoc].
      - intros Hk. apply HK. destruct (is_local c0), directory; done. }
    destruct (negb (is_local c0) && negb (lc_directory child) && directory) eqn:Ecase.
    + rewrite !andb_true_iff, !negb_true_iff in Ecase. destruct Ecase as [[E0 Ec] ED].
      destruct (installed_deferred _ _ _ _ _ _ _ _ _ Hs Hin E0 Ec) as [-> ->]; [by left|]. unfold waits. rewrite ED, E0. cbn [negb orb andb]. rewrite andb_false_r.
      split; [|done]. unfold settled in *. by rewrite E0, ED in *.
    + destruct (settled_installed _ _ _ _ _ _ _ _ _ _ Hs Hin) as [Hr Hs']; [| |by apply Hcont].
      * intros Ec E0. rewrite Ec, E0 in Ecase. cbn in Ecase. split; [done|]. intros Hd. rewrite (Edir E0 Ecase) in Hd. done.
      * intros Ec E0 Hd. destruct directory; [by left|]. by rewrite (Edir E0 eq_refl) in Hd.
Qed.

Lemma installed_none g child defer now now' : installed g child defer now now' None -> lc_directory child = false.
Proof.
  unfold installed. destruct now as [c|]; [|by intros (? & _ & _ & ?)]. destruct (local c); [by intros [_ ?]|].
  destruct (Bool.eqb_spec (c_directory c) (lc_directory child)); [by intros (? & _ & _ & _ & ?)|].
  destruct (c_directory c), (lc_directory child), defer; cbn; try done; by intros (? & _ & _ & ?).
Qed.

(** ** Resolving the conflicts *)

Definition fresh (g : Z) (start : gmap bytes Child) : Prop := forall n c, start !! n = Some c -> c_generation c <> g.

Lemma resolving_start t g start received conflicts now :
  installing_ok t g start received conflicts now -> resolving_ok t g start received [] conflicts now.
Proof. intros H n. specialize (H n). cbn zeta in *. exact H. Qed.

Lemma resolving_end t g start received resolved now n :
  resolving_ok t g start received resolved [] now ->
  settled (t n) g (start !! n) (lists_directory n received) (last (files n received)) (now !! n).
Proof.
  intros H. specialize (H n). cbn zeta in H. rewrite app_nil_r in H. destruct (waits _ _) eqn:Ew; [|apply H].
  destruct H as [Hs Hf]. rewrite <-Hf. unfold waits in Ew. rewrite !andb_true_iff, !negb_true_iff in Ew. by rewrite (proj2 Ew).
Qed.

Lemma conflict_waits t g start received resolved child todo d l :
  fresh g start -> l_generation l = g -> lc_directory child = false ->
  resolving_ok t g start received resolved (child :: todo) (children d) ->
  waits (start !! lc_name child) (lists_directory (lc_name child) received) = negb (directory_won d l child).
Proof.
  intros Hfresh Hl Hf H. specialize (H (lc_name child)). cbn zeta in H. unfold directory_won. rewrite Hl.
  set (c0 := start !! lc_name child) in *. destruct (waits c0 _) eqn:Ew.
  - destruct H as [Hs _]. unfold waits in Ew. rewrite !andb_true_iff, !negb_true_iff in Ew. destruct Ew as [[E0 Edir] ED].
    destruct (children d !! lc_name child) as [c|] eqn:E; [|done]. symmetry. apply negb_true_iff, andb_false_iff.
    unfold settled in Hs. rewrite E0 in Hs. destruct (last _).
    + left. by destruct Hs as (c' & [= <-] & ? & _).
    + right. destruct Hs as [_ Hgen]. destruct c0 as [x|] eqn:Ex; [|done]. cbn in Hgen. apply (inj Some) in Hgen. rewrite Hgen.
      apply Z.eqb_neq. by eapply Hfresh.
  - destruct H as [Hs HK]. symmetry. apply negb_false_iff.
    assert (Hin : files (lc_name child) (resolved ++ child :: todo) <> []).
    { unfold files. rewrite filter_app, filter_cons, decide_True by done. by destruct (filter _ resolved). }
    destruct (is_local c0 || negb _) eqn:Ek; [by destruct Hin, (HK eq_refl)|].
    apply orb_false_iff in Ek as [E0 ED]. apply negb_false_iff in ED. unfold settled in Hs. rewrite E0, ED in Hs.
    destruct Hs as (c & -> & -> & _ & -> & _). by rewrite Z.eqb_refl.
Qed.

Lemma resolving_won t g start received resolved child todo now :
  waits (start !! lc_name child) (lists_directory (lc_name child) received) = false ->
  resolving_ok t g start received resolved (child :: todo) now -> resolving_ok t g start received (resolved ++ [child]) todo now.
Proof.
  intros Hw H n. specialize (H n). cbn zeta in *. rewrite <-app_assoc. cbn [app].
  destruct (decide (lc_name child = n)) as [<-|Hn]; [by rewrite Hw in *|]. by rewrite (proj2 (snoc_other n resolved child Hn)).
Qed.

Lemma resolving_replace t g start received resolved child todo d d' r epoch :
  g <> 0 -> lc_directory child = false ->
  waits (start !! lc_name child) (lists_directory (lc_name child) received) = true ->
  resolving_ok t g start received resolved (child :: todo) (children d) ->
  install_item d child g false false false false (Some epoch) = (d', inl r) ->
  resolving_ok t g start received (resolved ++ [child]) todo (children d').
Proof.
  intros Hg Hf Hw H Hi. destruct (install_listed _ _ _ _ _ _ _ Hg Hi) as (_ & _ & Hother & Hin). intros n. specialize (H n). cbn zeta in *.
  rewrite <-app_assoc. cbn [app]. destruct (decide (lc_name child = n)) as [<-|Hn].
  - rewrite Hw in *. destruct H as [Hs HK]. split; [|done].
    destruct (settled_installed _ _ _ _ _ _ _ _ _ _ Hs Hin) as [_ Hs']; [intros; split; [done|]; by right|congruence|].
    rewrite Hf in Hs'. rewrite files_snoc, bool_decide_eq_true_2, Hf by done. cbn [negb andb]. by rewrite last_snoc.
  - rewrite (proj2 (snoc_other n resolved child Hn)), Hother by congruence. exact H.
Qed.

(** ** Invariant *)

Definition generations_ok (d : Directory) : Prop :=
  0 <= listing_generation d < 2 ^ 32 /\ forall n c, children d !! n = Some c -> 0 <= c_generation c <= listing_generation d.

Definition listing_of (p : Phase) : option Listing :=
  match p with
  | Paging l | Installing l _ _ | Resolving l _ | Replacing l _ _ | Pruning l | Publishing l | Sweeping l => Some l
  | Finishing _ => None
  end.

Definition is_touched (d : Directory) (n : bytes) : bool := bool_decide (n ∈ touched d).

(** What holds in a phase as long as no local operation has come between. *)
Definition phase_ok (d : Directory) (p : Phase) : Prop :=
  match p with
  | Paging l | Installing l _ _ => installing_ok (is_touched d) (l_generation l) (l_start l) (l_received l) (l_conflicts l) (children d)
  | Resolving l todo => exists resolved, l_conflicts l = resolved ++ todo /\
      resolving_ok (is_touched d) (l_generation l) (l_start l) (l_received l) resolved todo (children d)
  | Replacing l child todo => exists resolved, l_conflicts l = resolved ++ child :: todo /\
      waits (l_start l !! lc_name child) (lists_directory (lc_name child) (l_received l)) = true /\
      resolving_ok (is_touched d) (l_generation l) (l_start l) (l_received l) resolved (child :: todo) (children d)
  | Pruning l => forall n, settled (is_touched d n) (l_generation l) (l_start l !! n) (lists_directory n (l_received l)) (last (files n (l_received l))) (children d !! n)
  | Publishing l | Sweeping l =>
      forall n, exact (is_touched d n) (l_start l !! n) (lists_directory n (l_received l)) (last (files n (l_received l))) (children d !! n)
  | Finishing _ => True
  end.

Record listing_ok (d : Directory) (p : Phase) (l : Listing) : Prop := {
  lo_generation : l_generation l = listing_generation d; lo_positive : 0 < l_generation l;
  lo_epoch : l_epoch l <= mutation_epoch d; lo_fresh : fresh (l_generation l) (l_start l);
  lo_files : Forall (fun c => lc_directory c = false) (l_conflicts l);
  lo_progress : mutation_epoch d = l_epoch l -> phase_ok d p;
}.

Record system_inv (s : System) : Prop := {
  si_generations : generations_ok (dir s); si_epoch : is_u64 (mutation_epoch (dir s));
  si_phase : refreshing (dir s) = bool_decide (is_Some (phase s));
  si_waiters : phase s = None -> refresh_waiters (dir s) = [];
  si_told : waiting s ≡ₚ refresh_waiters (dir s) ++ map fst (told s);
  si_listing : forall p l, phase s = Some p -> listing_of p = Some l -> listing_ok (dir s) p l;
}.

Lemma phase_refs d d' p :
  touched d ⊆ touched d' -> (forall n, refs_only (is_touched d' n) (children d !! n) (children d' !! n)) ->
  phase_ok d p -> phase_ok d' p.
Proof.
  intros Ht R. assert (Hle : forall n, is_touched d n = true -> is_touched d' n = true)
    by (intros n H%bool_decide_eq_true; apply bool_decide_eq_true; set_solver).
  destruct p as [l|l page tr|l todo|l child todo|l|l|l|e]; cbn; try done.
  1,2: intros H n; specialize (H n); cbn zeta in *; destruct (waits _ _), H as [Hs HK]; split; try done; (eapply settled_refs; [apply Hle|apply R|exact Hs]).
  - intros (res & E & H). exists res. split; [done|]. intros n. specialize (H n). cbn zeta in *.
    destruct (waits _ _), H as [Hs HK]; split; try done; (eapply settled_refs; [apply Hle|apply R|exact Hs]).
  - intros (res & E & Hw & H). exists res. split_and!; [done..|]. clear Hw. intros n. specialize (H n). cbn zeta in *.
    destruct (waits _ _), H as [Hs HK]; split; try done; (eapply settled_refs; [apply Hle|apply R|exact Hs]).
  - intros H n. eapply settled_refs; [apply Hle|apply R|apply H].
  - intros H n. eapply exact_refs; [apply Hle|apply R|apply H].
  - intros H n. eapply exact_refs; [apply Hle|apply R|apply H].
Qed.

Lemma touched_rest d d' : same_rest d d' -> is_touched d' = is_touched d.
Proof. intros R. unfold is_touched. by rewrite (sr_touched _ _ R). Qed.

Lemma refs_refl t x : refs_only t x x.
Proof. by split. Qed.

(** Taking a generation. *)
Lemma begin_listing_ok d d' l :
  begin_listing d = (d', l) -> generations_ok d ->
  listing_ok d' (Paging l) l /\ generations_ok d' /\ mutation_epoch d' = mutation_epoch d /\
  refreshing d' = refreshing d /\ refresh_waiters d' = refresh_waiters d /\ detached d' = detached d /\
  (forall n, plain <$> children d' !! n = plain <$> children d !! n).
Proof.
  unfold begin_listing, next_generation. intros Hb [Hg Hc].
  assert (Hstart : forall t g ch, installing_ok t g ch [] [] ch).
  { intros t g ch n. cbn. assert (settled (t n) g (ch !! n) false None (ch !! n)) by (unfold settled; by destruct (is_local _)). by destruct (waits _ _). }
  destruct (Z.eqb_spec (u32 (listing_generation d + 1)) 0) as [Eg|Eg]; injection Hb as <- <-; cbn.
  - assert (Hzero : forall n c, ((fun c => c <| c_generation := 0 |>) <$> children d) !! n = Some c -> c_generation c = 0).
    { intros n c Hn. rewrite lookup_fmap in Hn. destruct (children d !! n); [|done]. by injection Hn as <-. }
    split_and!; try done.
    + split; cbn; try done; try lia.
      * intros n c Hn. rewrite (Hzero _ _ Hn). lia.
    + split; [cbn; lia|]. intros n c Hn. rewrite (Hzero _ _ Hn). cbn. lia.
    + intros n. rewrite lookup_fmap. by destruct (children d !! n).
  - assert (E : u32 (listing_generation d + 1) = listing_generation d + 1).
    { apply u32_small. destruct (Z.eq_dec (listing_generation d + 1) (2 ^ 32)) as [Em|]; [|lia]. by rewrite Em in Eg. }
    rewrite E. split_and!; try done.
    + split; cbn; try done; try lia.
      * intros n c Hn. specialize (Hc n c Hn). lia.
    + assert (listing_generation d + 1 <> 2 ^ 32) by (intros Em; by rewrite Em in Eg).
      split; [cbn; lia|]. intros n c Hn. specialize (Hc n c Hn). cbn. lia.
Qed.

Lemma install_stops d child g a b c e epoch d' x : install_item d child g a b c e epoch = (d', inr x) -> d' = d.
Proof.
  unfold install_item. repeat (case_match; try (by intros [= <- _]); try done).
Qed.

Lemma take_metadata_generation child allocated c : c_generation (take_metadata child allocated c) = c_generation c.
Proof. unfold take_metadata. repeat case_match; done. Qed.

Lemma install_child_generations d child g pending lookup allocated c n c' :
  children (install_child d child g pending lookup allocated c) !! n = Some c' ->
  children d !! n = Some c' \/ c_generation c' = if g =? 0 then c_generation c else g.
Proof.
  unfold install_child. intros H.
  assert (Hin : exists d1, children d1 = children d /\ exists c1, c_generation c1 = (if g =? 0 then c_generation c else g) /\
    <[lc_name child := take_metadata child allocated c1]> (children d1) !! n = Some c').
  { destruct (g =? 0), allocated; cbn [negb] in H; cbn in H.
    all: eexists d; split; [done|]; eexists; split; [|exact H]; destruct pending, lookup; done. }
  destruct Hin as (d1 & -> & c1 & Hg & Hl). rewrite lookup_insert_Some in Hl. destruct Hl as [[_ <-]|[_ Hl]]; [right|by left].
  by rewrite take_metadata_generation.
Qed.

Lemma install_generations d child g a b c e epoch d' r :
  generations_ok d -> 0 <= g <= listing_generation d -> install_item d child g a b c e epoch = (d', inl r) ->
  listing_generation d' = listing_generation d -> generations_ok d'.
Proof.
  intros [H1 H2] Hg Hi Hl. split; [by rewrite Hl|]. intros n x Hx. rewrite Hl. unfold install_item in Hi.
  destruct (check_epoch d epoch); [done|]. destruct (detached d); [done|].
  assert (Hchild : forall al y, (al = true -> c_generation y = 0) -> (al = false -> exists m, children d !! m = Some y) ->
    children (install_child d child g b c al y) !! n = Some x -> 0 <= c_generation x <= listing_generation d).
  { intros al y Hnew Hold Hy. destruct (install_child_generations _ _ _ _ _ _ _ _ _ Hy) as [Ho|Hgx]; [by eapply H2|].
    rewrite Hgx. destruct (g =? 0); [|lia]. destruct al; [rewrite Hnew; [lia|done]|]. destruct (Hold eq_refl) as [m Hm]. by eapply H2. }
  destruct (children d !! lc_name child) as [y|] eqn:Ey.
  - destruct a; [discriminate|]. destruct (negb _ && _); [destruct (c_directory y && e)|]; injection Hi as <- _; [by eapply H2|..].
    + by apply (Hchild true (allocate_inode d (lc_directory child))).
    + apply (Hchild false y); [done| |exact Hx]. intros _. by eexists.
  - injection Hi as <- _. by apply (Hchild true (allocate_inode d (lc_directory child))).
Qed.

(** A local operation counts, or changes nothing that a listing looks at. *)
Record local_effect (d d' : Directory) : Prop := {
  le_generations : generations_ok d -> generations_ok d';
  le_generation : listing_generation d' = listing_generation d;
  le_refreshing : refreshing d' = refreshing d; le_waiters : refresh_waiters d' = refresh_waiters d;
  le_counts : mutation_epoch d' = mutation_epoch d + 1 \/
    (mutation_epoch d' = mutation_epoch d /\ touched d ⊆ touched d' /\
     forall n, refs_only (is_touched d' n) (children d !! n) (children d' !! n));
}.

Lemma bumped d d1 :
  is_u64 (mutation_epoch d) -> mutation_epoch d < UINT64_MAX -> mutation_epoch d1 = mutation_epoch d ->
  listing_generation d1 = listing_generation d -> refreshing d1 = refreshing d -> refresh_waiters d1 = refresh_waiters d ->
  (generations_ok d -> generations_ok d1) -> local_effect d (bump d1).
Proof.
  intros Hu Hm He Hg Hr Hw Hgen. assert (Hb : u64 (mutation_epoch d1 + 1) = mutation_epoch d + 1).
  { rewrite He. apply u64_small. unfold UINT64_MAX in Hm. lia. }
  split; cbn; try done. by left.
Qed.

Lemma insert_generations d d' name c :
  generations_ok d -> listing_generation d' = listing_generation d -> children d' = <[name := c]> (children d) ->
  0 <= c_generation c <= listing_generation d -> generations_ok d'.
Proof.
  intros [H1 H2] Hg Hc Hx. split; [by rewrite Hg|]. intros n x. rewrite Hg, Hc, lookup_insert_Some. intros [[_ <-]|[_ Hn]]; [done|by eapply H2].
Qed.

Lemma local_install_effect d child pending lookup allocated c :
  is_u64 (mutation_epoch d) -> mutation_epoch d < UINT64_MAX ->
  (generations_ok d -> 0 <= c_generation c <= listing_generation d) ->
  local_effect d (install_child d child 0 pending lookup allocated c).
Proof.
  intros Hu Hm Hc. unfold install_child. cbn [negb Z.eqb]. set (c1 := if lookup then _ else _).
  assert (Hc1 : c_generation c1 = c_generation c) by (by destruct pending, lookup).
  assert (Hb : u64 (mutation_epoch d + 1) = mutation_epoch d + 1) by (apply u64_small; unfold UINT64_MAX in Hm; lia).
  assert (Hg : generations_ok d -> forall d1, listing_generation d1 = listing_generation d ->
    children d1 = <[lc_name child := take_metadata child allocated c1]> (children d) -> generations_ok d1).
  { intros G d1 E1 E2. apply (insert_generations d _ (lc_name child) (take_metadata child allocated c1)); try done.
    rewrite take_metadata_generation, Hc1. by apply Hc. }
  destruct allocated; split; cbn; try done; try (intros G; by apply Hg); by left.
Qed.

Lemma local_step_effect d d' :
  is_u64 (mutation_epoch d) -> mutation_epoch d < UINT64_MAX -> local_step false d d' -> local_effect d d'.
Proof.
  intros Hu Hm L.
  assert (Hset : forall name c', (generations_ok d -> 0 <= c_generation c' <= listing_generation d) ->
    local_effect d (bump (d <| children := <[name := c']> (children d) |>))).
  { intros name c' Hc. apply bumped; try done. intros G. eapply insert_generations; [done..|]. by apply Hc. }
  assert (Hold : forall name c, children d !! name = Some c -> generations_ok d -> 0 <= c_generation c <= listing_generation d)
    by (intros name c Hc [_ G]; by eapply G).
  assert (Hid : local_effect d d) by (split; try done; right; split_and!; [done|done|intros; apply refs_refl]).
  destruct L as [child exclusive pending lookup|name|name c Hc Hpos Hle|name c Hc|name c size b Hc|name c b Hc|name c size mtime Hc|entering|name c b Hc|name c size mtime valid Hc|n| |].
  - unfold install_item. cbn [check_epoch]. destruct (detached d); [done|].
    assert (Hnew : local_effect d (install_child d child 0 pending lookup true (allocate_inode d (lc_directory child))))
      by (apply local_install_effect; [done..|cbn; intros [? _]; lia]).
    destruct (children d !! lc_name child) as [c|] eqn:E; [|done]. destruct exclusive; [done|].
    destruct (negb _ && _); [by rewrite andb_false_r|]. apply local_install_effect; [done..|]. exact (Hold _ _ E).
  - apply bumped; try done. intros [G1 G2]. split; [done|]. intros n c Hn. cbn in Hn. apply lookup_delete_Some in Hn as [_ Hn]. by eapply G2.
  - apply Hset. intros _. split; [done|by apply Hle].
  - apply Hset. exact (Hold name c Hc).
  - apply Hset. exact (Hold name c Hc).
  - unfold update_truncate_pending. destruct (Bool.eqb _ _); [done|]. apply Hset. exact (Hold name c Hc).
  - apply Hset. exact (Hold name c Hc).
  - unfold publication_update. destruct (bumped d (d <| remote_mutations := u32 (if entering then remote_mutations d + 1 else remote_mutations d - 1) |>)) as [B1 B2 B3 B4 B5]; try done.
  - split; try done.
    + intros G. apply (insert_generations d _ name (c <| c_referenced := b |>)); try done. exact (Hold name c Hc G).
    + right. split_and!; [done|done|]. intros n. cbn. destruct (decide (n = name)) as [->|].
      * rewrite Hc, lookup_insert_eq. split; [|done]. cbn. unfold shown. by destruct (is_touched _ _).
      * rewrite lookup_insert_ne by done. apply refs_refl.
  - split; try done.
    + intros G. eapply (insert_generations d _ name); [exact G|reflexivity..|]. exact (Hold name c Hc G).
    + right. split_and!; [done|unfold set_metadata; cbn; set_solver|]. intros n. unfold set_metadata. cbn.
      destruct (decide (n = name)) as [->|].
      * rewrite Hc, lookup_insert_eq. unfold is_touched. rewrite bool_decide_eq_true_2 by (cbn; set_solver). done.
      * rewrite lookup_insert_ne by done. apply refs_refl.
  - split; try done. right. split_and!; [done|done|intros; apply refs_refl].
  - split; try done. right. split_and!; [done|done|intros; apply refs_refl].
  - split; try done. right. split_and!; [done|done|intros; apply refs_refl].
Qed.

(** ** The refresh keeps the invariant *)

Lemma stopped_ok d x d' p l :
  generations_ok d -> stopped d x = (d', p) -> listing_of p = Some l ->
  listing_ok d' p l /\ generations_ok d' /\ mutation_epoch d' = mutation_epoch d /\
  refreshing d' = refreshing d /\ refresh_waiters d' = refresh_waiters d.
Proof.
  intros G. unfold stopped. destruct x; try (intros [= <- <-]; done).
  destruct (begin_listing d) as [d1 l1] eqn:E. intros [= <- <-] [= ->].
  destruct (begin_listing_ok _ _ _ E G) as (? & ? & ? & ? & ? & _). by split_and!.
Qed.

(** The rest of the directory as a step of the refresh leaves it. *)
Definition refresh_rest (d d' : Directory) : Prop :=
  generations_ok d' /\ mutation_epoch d' = mutation_epoch d /\ refreshing d' = refreshing d /\
  refresh_waiters d' = refresh_waiters d.

Definition listing_kept (d d' : Directory) (p' : Phase) : Prop :=
  refresh_rest d d' /\ forall l, listing_of p' = Some l -> listing_ok d' p' l.

Lemma stopped_kept d x : generations_ok d -> listing_kept d (stopped d x).1 (stopped d x).2.
Proof.
  intros G. destruct x; cbn; [by split; [split_and!|]| |by split; [split_and!|]].
  destruct (begin_listing d) as [d1 l1] eqn:E. destruct (begin_listing_ok _ _ _ E G) as (H & ? & ? & ? & ? & _). cbn.
  split; [by split_and!|]. by intros l [= <-].
Qed.

Lemma next_phase d p l d' p' l' :
  generations_ok d' -> same_rest d d' -> listing_ok d p l -> listing_of p' = Some l' ->
  l_generation l' = l_generation l -> l_epoch l' = l_epoch l -> l_start l' = l_start l ->
  Forall (fun c => lc_directory c = false) (l_conflicts l') ->
  (mutation_epoch d = l_epoch l -> phase_ok d' p') -> listing_kept d d' p'.
Proof.
  intros G [] [] Hl E1 E2 E3 Hf Hp. split; [by split_and!|]. intros x Hx. rewrite Hl in Hx. injection Hx as <-.
  split; rewrite ?E1, ?E2, ?E3, ?sr_generation0, ?sr_epoch0; done.
Qed.

(** The next phase of the same listing. *)
Ltac next_phase L := eapply next_phase; [| |exact L|reflexivity|..]; try done; try apply (lo_files _ _ _ L).

Lemma same_rest_refl d : same_rest d d.
Proof. by split. Qed.

Lemma install_generations_listed d child g defer epoch d' r p l :
  generations_ok d -> listing_ok d p l -> g = l_generation l ->
  install_item d child g false false false defer (Some epoch) = (d', inl r) -> generations_ok d'.
Proof.
  intros G L -> Hi. pose proof (lo_positive _ _ _ L). pose proof (lo_generation _ _ _ L).
  destruct (install_listed _ _ (l_generation l) _ _ _ _ ltac:(lia) Hi) as (_ & R & _).
  eapply install_generations; [exact G| |exact Hi|apply R]. lia.
Qed.

Lemma installing_kept d l child page truncated :
  generations_ok d -> listing_ok d (Installing l (child :: page) truncated) l ->
  let '(d', p') := listing_step d (Installing l (child :: page) truncated) 0 0 in listing_kept d d' p'.
Proof.
  intros G L. cbn [listing_step]. pose proof (lo_positive _ _ _ L) as Hpos.
  destruct (install_item d child (l_generation l) false false false true (Some (l_epoch l))) as [d1 [r|x]] eqn:Ei.
  2: { rewrite (install_stops _ _ _ _ _ _ _ _ _ _ Ei). pose proof (stopped_kept d x G). by destruct (stopped d x). }
  destruct (install_listed _ _ (l_generation l) _ _ _ _ ltac:(lia) Ei) as (He & R & _ & Hin).
  pose proof (install_generations_listed _ _ _ _ _ _ _ _ _ G L eq_refl Ei) as G1.
  pose proof (installing_step (is_touched d) (l_generation l) _ _ _ _ _ _ _ _ ltac:(lia) (lo_progress _ _ _ L He) Ei) as Hok.
  rewrite <-(touched_rest _ _ R) in Hok.
  destruct r as [id|].
  - by next_phase L.
  - next_phase L. cbn. apply Forall_app. split; [apply (lo_files _ _ _ L)|].
    constructor; [by eapply installed_none|constructor].
Qed.

Lemma resolving_kept d l child todo :
  generations_ok d -> listing_ok d (Resolving l (child :: todo)) l ->
  let '(d', p') := listing_step d (Resolving l (child :: todo)) 0 0 in listing_kept d d' p'.
Proof.
  intros G L. cbn [listing_step]. pose proof L as [? ? ? Hfresh Hfiles Hp].
  assert (Hcase : mutation_epoch d = l_epoch l -> exists resolved, l_conflicts l = resolved ++ child :: todo /\
    resolving_ok (is_touched d) (l_generation l) (l_start l) (l_received l) resolved (child :: todo) (children d) /\
    waits (l_start l !! lc_name child) (lists_directory (lc_name child) (l_received l)) = negb (directory_won d l child)).
  { intros He. destruct (Hp He) as (resolved & Ec & Hr). exists resolved. split_and!; try done.
    eapply conflict_waits; try done. rewrite Ec, Forall_app, Forall_cons in Hfiles. tauto. }
  destruct (directory_won d l child).
  - next_phase L. intros He. destruct (Hcase He) as (resolved & Ec & Hr & Hw).
    exists (resolved ++ [child]). rewrite <-app_assoc. split; [done|]. by apply resolving_won.
  - next_phase L. intros He. destruct (Hcase He) as (resolved & Ec & Hr & Hw). exists resolved. by split_and!.
Qed.

Lemma replacing_kept d l child todo :
  generations_ok d -> listing_ok d (Replacing l child todo) l ->
  let '(d', p') := listing_step d (Replacing l child todo) 0 0 in listing_kept d d' p'.
Proof.
  intros G L. cbn [listing_step]. pose proof (lo_positive _ _ _ L) as Hpos.
  destruct (install_item d child (l_generation l) false false false false (Some (l_epoch l))) as [d1 [r|x]] eqn:Ei.
  2: { rewrite (install_stops _ _ _ _ _ _ _ _ _ _ Ei). pose proof (stopped_kept d x G). by destruct (stopped d x). }
  destruct (install_listed _ _ (l_generation l) _ _ _ _ ltac:(lia) Ei) as (He & R & _ & Hin).
  pose proof (install_generations_listed _ _ _ _ _ _ _ _ _ G L eq_refl Ei) as G1.
  destruct (lo_progress _ _ _ L He) as (resolved & Ec & Hw & Hr). pose proof (lo_files _ _ _ L) as Hf.
  next_phase L. intros _. exists (resolved ++ [child]). rewrite <-app_assoc. split; [done|].
  rewrite (touched_rest _ _ R). eapply resolving_replace; [lia| |done|done|exact Ei]. rewrite Ec, Forall_app, Forall_cons in Hf. tauto.
Qed.

Lemma pruning_kept d l :
  generations_ok d -> listing_ok d (Pruning l) l -> let '(d', p') := listing_step d (Pruning l) 0 0 in listing_kept d d' p'.
Proof.
  intros G L. cbn [listing_step]. unfold prune_directory_generation.
  destruct (check_epoch d (Some (l_epoch l))) as [x|] eqn:Ec; [pose proof (stopped_kept d x G); by destruct (stopped d x)|].
  apply check_epoch_passed in Ec. pose proof L as [? ? ? Hfresh Hfiles Hp]. specialize (Hp Ec).
  assert (Hl : forall n, omap (prune_child (l_generation l)) (children d) !! n = children d !! n ≫= prune_child (l_generation l))
    by (intros; apply lookup_omap).
  next_phase L.
  - destruct G as [G1 G2]. split; [done|]. intros n c Hc. cbn in Hc. rewrite Hl in Hc. destruct (children d !! n) as [x|] eqn:Ex; [|done].
    cbn in Hc. unfold prune_child in Hc. destruct (local x); [injection Hc as <-; cbn; lia|].
    destruct (c_generation x =? _); [|done]. injection Hc as <-. by eapply G2.
  - intros _ n. cbn. rewrite Hl. eapply prune_exact; [apply Hp|]. intros c Hc. by eapply Hfresh.
Qed.

Lemma listing_step_kept d p now ttl d' p' :
  generations_ok d -> (forall l, listing_of p = Some l -> listing_ok d p l) -> listing_step d p now ttl = (d', p') -> listing_kept d d' p'.
Proof.
  intros G H Hs. assert (Hsame : listing_kept d d p) by (by split; [split_and!|]).
  destruct p as [l|l [|child page] truncated|l [|child todo]|l child todo|l|l|l|e]; cbn [listing_of] in H; try specialize (H l eq_refl).
  - by injection Hs as <- <-.
  - injection Hs as <- <-. destruct truncated; next_phase H; intros He.
    + apply (lo_progress _ _ _ H He).
    + exists []. split; [done|]. apply resolving_start, (lo_progress _ _ _ H He).
  - pose proof (installing_kept d l child page truncated G H) as K. change (listing_step d (Installing l (child :: page) truncated) 0 0) with
      (listing_step d (Installing l (child :: page) truncated) now ttl) in K. by rewrite Hs in K.
  - injection Hs as <- <-. next_phase H. intros He n.
    destruct (lo_progress _ _ _ H He) as (resolved & _ & Hr). by eapply resolving_end.
  - pose proof (resolving_kept d l child todo G H) as K. change (listing_step d (Resolving l (child :: todo)) 0 0) with
      (listing_step d (Resolving l (child :: todo)) now ttl) in K. by rewrite Hs in K.
  - pose proof (replacing_kept d l child todo G H) as K. change (listing_step d (Replacing l child todo) 0 0) with
      (listing_step d (Replacing l child todo) now ttl) in K. by rewrite Hs in K.
  - pose proof (pruning_kept d l G H) as K. change (listing_step d (Pruning l) 0 0) with (listing_step d (Pruning l) now ttl) in K. by rewrite Hs in K.
  - cbn in Hs. unfold publish_listing in Hs. destruct (check_epoch d (Some (l_epoch l))) as [x|] eqn:Ec.
    + pose proof (stopped_kept d x G) as K. by rewrite Hs in K.
    + injection Hs as <- <-. apply check_epoch_passed in Ec. next_phase H.
      intros _. apply (lo_progress _ _ _ H Ec).
  - injection Hs as <- <-. by split; [split_and!|].
  - by injection Hs as <- <-.
Qed.

Lemma step_inv s s' : step false false s s' -> system_inv s -> system_inv s'.
Proof.
  intros St [G U Ph W T L].
  assert (Hgate : forall b, system_inv (s <| dir := dir s <| gate := b |> |>)).
  { intros b. split; try done. intros p l Hp Hl. destruct (L p l Hp Hl) as [L1 L2 L3 L4 L5 L6]. by split. }
  destruct St as [d Hl Hm|waiter now force reserved d a Ha|l page truncated Hp|l e Hp|p now ttl d p' Hp _ _ Hs|e d l Hp Hf|Hg|Hg Hr|now Hr|Hr Hrace].
  - destruct (local_step_effect _ _ U Hm Hl) as [E1 E2 E3 E4 E5]. split; cbn; try done.
    + by apply E1.
    + unfold UINT64_MAX in Hm. destruct E5 as [->|[-> _]]; lia.
    + by rewrite E3.
    + by rewrite E4.
    + by rewrite E4.
    + intros p l Hp Hpl. destruct (L p l Hp Hpl) as [L1 L2 L3 L4 L5 L6]. split; try done; rewrite ?E2; try done.
      * destruct E5 as [->|[-> _]]; lia.
      * intros He. destruct E5 as [E5|(E5 & Ht & Hrefs)]; [lia|]. eapply phase_refs; [exact Ht|exact Hrefs|]. apply L6. congruence.
  - unfold await_directory_refresh in Ha. destruct (negb (remote_mutations (dir s) =? 0)); [injection Ha as <- <-; by split|].
    destruct (negb force && _ && _); [injection Ha as <- <-; by split|]. destruct reserved; [injection Ha as <- <-; by split|].
    destruct (refreshing (dir s)) eqn:Er.
    + injection Ha as <- <-. symmetry in Ph. apply bool_decide_eq_true in Ph as [p Hp]. split; cbn; try done.
      * rewrite Hp. by rewrite bool_decide_eq_true_2.
      * by rewrite Hp.
      * by rewrite T.
      * intros q l Hq Hl. destruct (L q l Hq Hl) as [L1 L2 L3 L4 L5 L6]. by split.
    + destruct (begin_listing (dir s <| refreshing := true |>)) as [d1 l1] eqn:Eb. injection Ha as <- <-.
      symmetry in Ph. apply bool_decide_eq_false in Ph. assert (Hnone : phase s = None) by (destruct (phase s); [by destruct Ph|done]).
      destruct (begin_listing_ok _ _ _ Eb) as (B1 & B2 & B3 & B4 & B5 & _); [done|]. cbn in B3, B4, B5. split; cbn; try done.
      * by rewrite B3.
      * by rewrite T, B5.
      * intros p l [= <-] [= <-]. destruct B1 as [L1 L2 L3 L4 L5 L6]. by split.
  - split; cbn; try done.
    + rewrite Ph, Hp. by rewrite !bool_decide_eq_true_2.
    + intros p l' [= <-] [= <-]. destruct (L _ _ Hp eq_refl) as [L1 L2 L3 L4 L5 L6]. by split.
  - split; cbn; try done; [rewrite Ph, Hp; by rewrite !bool_decide_eq_true_2|by intros p l0 [= <-]].
  - destruct (listing_step_kept _ _ _ _ _ _ G (fun l => L p l Hp) Hs) as [(R1 & R2 & R3 & R4) K]. split; cbn; try done.
    + by rewrite R2.
    + rewrite R3, Ph, Hp. by rewrite !bool_decide_eq_true_2.
    + by rewrite R4.
    + intros q l [= <-]. apply K.
  - unfold finish_refresh in Hf. injection Hf as <- <-.
    set (d1 := match e with Some _ => _ | None => _ end) in *.
    assert (E1 : children d1 = children (dir s) /\ listing_generation d1 = listing_generation (dir s) /\ mutation_epoch d1 = mutation_epoch (dir s) /\
      refresh_waiters d1 = refresh_waiters (dir s)) by (unfold d1; destruct e; [destruct (detached (dir s))|]; done).
    destruct E1 as (E1 & E2 & E3 & E4). split; cbn; try done.
    + destruct G as [G1 G2]. split; cbn; rewrite E2; [done|]. rewrite E1. exact G2.
    + by rewrite E3.
    + rewrite E4, map_app, map_map, map_id. rewrite T. solve_Permutation.
  - apply Hgate.
  - apply Hgate.
  - by destruct (Hgate true).
  - specialize (Hrace eq_refl). assert (Hnone : phase s = None).
    { rewrite Hrace in Ph. symmetry in Ph. apply bool_decide_eq_false in Ph. destruct (phase s); [by destruct Ph|done]. }
    split; cbn; try done.
    + destruct G as [G1 G2]. split; [done|]. intros n c Hc. cbn in Hc. apply map_lookup_filter_Some in Hc as [Hc _]. by eapply G2.
    + rewrite Hnone. done.
Qed.

Lemma listing_run_inv s : run false false s -> system_inv s.
Proof.
  induction 1 as [|s s' _ IH St]; [|by eapply step_inv]. split; cbn; done.
Qed.

(** A refresh that a local operation has overtaken. *)
Lemma overtaken_unchanged d p l now ttl d' p' :
  generations_ok d -> listing_of p = Some l -> mutation_epoch d <> l_epoch l -> listing_step d p now ttl = (d', p') ->
  forall n, plain <$> children d' !! n = plain <$> children d !! n.
Proof.
  intros G Hl He Hs. assert (Hstop : forall x, stopped d x = (d', p') -> forall n, plain <$> children d' !! n = plain <$> children d !! n).
  { intros x. unfold stopped. destruct x; try (by intros [= <- _]). destruct (begin_listing d) as [d1 l1] eqn:E. intros [= <- _].
    by destruct (begin_listing_ok _ _ _ E G) as (_ & _ & _ & _ & _ & _ & H). }
  assert (Hcheck : exists x, check_epoch d (Some (l_epoch l)) = Some x).
  { unfold check_epoch. destruct (negb (remote_mutations d =? 0)); [by eexists|]. rewrite (proj2 (Z.eqb_neq _ _) He). by eexists. }
  destruct Hcheck as [x Hx]. destruct p as [l0|l0 [|c page] tr|l0 [|c todo]|l0 c todo|l0|l0|l0|e]; cbn [listing_of] in Hl; try done;
    injection Hl as ->; cbn [listing_step] in Hs; try (injection Hs as <- _; done).
  - unfold install_item in Hs. rewrite Hx in Hs. by apply (Hstop x).
  - unfold install_item in Hs. rewrite Hx in Hs. by apply (Hstop x).
  - unfold prune_directory_generation in Hs. rewrite Hx in Hs. by apply (Hstop x).
  - unfold publish_listing in Hs. rewrite Hx in Hs. by apply (Hstop x).
Qed.

(** ** Theorems *)

(** C10: a refresh shows the listing.  At the step with which a refresh publishes its result,
    and after it as long as no operation that counts as a mutation has run, the directory has,
    under each name, what the pages have listed since the refresh took its generation: a
    directory if one was listed, otherwise the last file, with its size and time unless an
    open or a write has set them meanwhile; children that are being created or written locally
    are as they were, up to the size and time that writes set; inodes of children that stay keep
    their identity, and nothing else is left.  A refresh that a mutation has overtaken changes
    no child any more.  Every caller that waits for a refresh is told its end exactly once, and
    waits only while one is under way.  The runs are those in which no reclamation that tested
    the directory before the refresh began removes children during it, and in which children
    are moved in with generations that the directory has reached; outside both the directory can differ. *)
Theorem listing_refresh_exact s :
  run false false s ->
  (forall l now ttl d', phase s = Some (Publishing l) -> listing_step (dir s) (Publishing l) now ttl = (d', Sweeping l) ->
     forall n, exact (is_touched d' n) (l_start l !! n) (lists_directory n (l_received l)) (last (files n (l_received l)))
                 (children d' !! n)) /\
  (forall l, phase s = Some (Sweeping l) -> mutation_epoch (dir s) = l_epoch l -> forall n,
     exact (is_touched (dir s) n) (l_start l !! n) (lists_directory n (l_received l)) (last (files n (l_received l)))
       (children (dir s) !! n)) /\
  (forall p l now ttl d' p', phase s = Some p -> listing_of p = Some l -> mutation_epoch (dir s) <> l_epoch l ->
     listing_step (dir s) p now ttl = (d', p') -> forall n, plain <$> children d' !! n = plain <$> children (dir s) !! n) /\
  waiting s ≡ₚ refresh_waiters (dir s) ++ map fst (told s) /\
  (refresh_waiters (dir s) <> [] -> is_Some (phase s)).
Proof.
  intros R. pose proof (listing_run_inv s R) as [G U Ph W T L]. split_and!; try done.
  - intros l now ttl d' Hp Hs. cbn in Hs. unfold publish_listing in Hs.
    destruct (check_epoch (dir s) (Some (l_epoch l))) as [x|] eqn:Ec.
    + unfold stopped in Hs. destruct x; [done| |done]. by destruct (begin_listing (dir s)).
    + injection Hs as <-. apply check_epoch_passed in Ec. apply (lo_progress _ _ _ (L _ l Hp eq_refl) Ec).
  - intros l Hp He n. apply (lo_progress _ _ _ (L _ l Hp eq_refl) He).
  - intros p l now ttl d' p' Hp Hl He Hs. by eapply overtaken_unchanged.
  - intros Hw. destruct (phase s); [by eexists|]. by destruct Hw, W.
Qed.

(** Runs, one step after the other. *)
Definition advance (s : System) : System :=
  match phase s with
  | Some p => let '(d, p') := listing_step (dir s) p 0 60 in s <| dir := d |> <| phase := Some p' |>
  | None => s
  end.
Definition awaited (s : System) : System :=
  let '(d, a) := await_directory_refresh (dir s) 7 0 false None in
  s <| dir := d |> <| phase := match a with Started p => Some p | _ => phase s end |>
    <| waiting := match a with Started _ | Joined => 7 :: waiting s | _ => waiting s end |>.
Definition paged (page : list ListedChild) (s : System) : System :=
  match phase s with Some (Paging l) => s <| phase := Some (Installing l page false) |> | _ => s end.

Lemma run_advance races foreign s p : run races foreign s -> phase s = Some p -> run races foreign (advance s).
Proof.
  intros R Hp. unfold advance. rewrite Hp. destruct (listing_step (dir s) p 0 60) as [d p'] eqn:E.
  eapply run_step; [exact R|]. eapply st_listing; [exact Hp| | |exact E]; done.
Qed.

Lemma run_awaited races foreign s : run races foreign s -> run races foreign (awaited s).
Proof.
  intros R. unfold awaited. destruct (await_directory_refresh (dir s) 7 0 false None) as [d a] eqn:E.
  eapply run_step; [exact R|]. by eapply st_await.
Qed.

Lemma run_paged races foreign s l page : run races foreign s -> phase s = Some (Paging l) -> run races foreign (paged page s).
Proof. intros R Hp. unfold paged. rewrite Hp. eapply run_step; [exact R|]. by apply (st_page _ _ s l). Qed.

Definition sample_file : ListedChild := {| lc_name := lit "a"; lc_mtime := 5; lc_size := 9; lc_directory := false |}.
Definition sample_directory : ListedChild := {| lc_name := lit "a"; lc_mtime := 0; lc_size := 0; lc_directory := true |}.
Definition sample_new : System := mkSystem new_directory None false [] [].

(** A directory and a file of one name, up to the publication. *)
Definition sample_refreshed : System :=
  advance (advance (advance (advance (advance (advance (paged [sample_directory; sample_file] (awaited sample_new))))))).

Lemma sample_refreshed_run : run false false sample_refreshed.
Proof.
  unfold sample_refreshed. do 6 (eapply run_advance; [|vm_compute; reflexivity]).
  eapply run_paged; [|vm_compute; reflexivity]. apply run_awaited, run_new.
Qed.

Definition sample_listing : Listing :=
  match phase sample_refreshed with Some (Publishing l) => l | _ => (begin_listing new_directory).2 end.
Definition sample_published : Directory := (listing_step (dir sample_refreshed) (Publishing sample_listing) 0 60).1.

Lemma listing_refresh_exact_witness :
  expire sample_published = 60 /\
  exact (is_touched sample_published (lit "a")) (l_start sample_listing !! lit "a")
    (lists_directory (lit "a") (l_received sample_listing)) (last (files (lit "a") (l_received sample_listing)))
    (children sample_published !! lit "a").
Proof.
  split; [vm_compute; reflexivity|].
  refine (proj1 (listing_refresh_exact sample_refreshed sample_refreshed_run) sample_listing 0 60 sample_published _ _ (lit "a"));
    vm_compute; reflexivity.
Defined.

(** The refresh lists [a]; a reclamation that had looked at the directory before takes it away. *)
Definition sample_raced : System :=
  let s := advance (paged [sample_file] (awaited (sample_new <| dir := new_directory <| gate := true |> |> <| reclaiming := true |>))) in
  advance (advance (advance (advance (s <| dir := reclaim_cached_children (dir s) <| gate := false |> |> <| reclaiming := false |>)))).

Lemma sample_raced_run : run true false sample_raced.
Proof.
  unfold sample_raced. do 4 (eapply run_advance; [|vm_compute; reflexivity]).
  eapply run_step; [|apply st_reclaim; [vm_compute; reflexivity|discriminate]].
  eapply run_advance; [|vm_compute; reflexivity]. eapply run_paged; [|vm_compute; reflexivity]. apply run_awaited.
  eapply run_step; [apply run_new|]. by apply (st_look _ _ sample_new 0).
Qed.

(** A child that comes from a directory with more refreshes behind it; nothing is listed. *)
Definition sample_child : Child := mkChild 50 false false false 1 5 9 false false.
Definition sample_moved : System :=
  advance (advance (advance (advance (paged [] (awaited (sample_new <| dir := move_in new_directory (lit "m") sample_child |>)))))).

Lemma sample_moved_run : run false true sample_moved.
Proof.
  unfold sample_moved. do 4 (eapply run_advance; [|vm_compute; reflexivity]).
  eapply run_paged; [|vm_compute; reflexivity]. apply run_awaited.
  eapply run_step; [apply run_new|]. apply (st_local _ _ sample_new); [|done].
  apply ls_move_in; [vm_compute; reflexivity|cbn; lia|discriminate].
Qed.

(** C36: what the refresh misses.  Reclamation looks at [refreshing] before it takes the mutex
    and counts as no mutation: a run in which it takes away a file that the refresh has just
    installed, and the listing is published without it, valid for its whole time to live.
    Generations are counted per directory, but a moved child keeps its own: a run in which a
    child that the bucket does not list survives the refresh because its generation happens
    to be the one the refresh has taken. *)
Theorem listing_refresh_gaps :
  (exists s l, run true false s /\ phase s = Some (Sweeping l) /\ mutation_epoch (dir s) = l_epoch l /\
     files (lit "a") (l_received l) = [sample_file] /\ children (dir s) !! lit "a" = None /\ expire (dir s) = 60) /\
  (exists s l c, run false true s /\ phase s = Some (Sweeping l) /\ mutation_epoch (dir s) = l_epoch l /\
     l_received l = [] /\ children (dir s) !! lit "m" = Some c /\ local c = false).
Proof.
  split.
  - exists sample_raced. eexists. split; [apply sample_raced_run|]. split; [vm_compute; reflexivity|]. vm_compute. by repeat split.
  - exists sample_moved. eexists _, sample_child. split; [apply sample_moved_run|]. split; [vm_compute; reflexivity|]. vm_compute. by repeat split.
Qed.
