(* ===== verification/InodeStore.v ===== *)
(** * The inodes of the mount

    Inodes are objects whose address the kernel knows ([InodeBase] of [s3.hpp]).  A directory
    has slots with names and children; an inode counts the lookups the kernel has not
    forgotten and the operations that have it open.  One that is removed from its directory is
    retired and freed with everything below it once nothing refers to it
    ([sweep_retired_items] and its neighbours in [fuse.cpp]).  The heap here is a map from
    addresses to inodes: what is not in it has been freed.

    Each definition is one section of a mutex or one atomic operation.  The test of a whole tree
    by [item_tree_unreferenced] is one of them: an inode of a tree that nothing refers to can
    only be reached through a reference into that tree.  [Ref] is what an operation holds while
    it runs: a request of the kernel that names the inode, a lookup it has counted and not yet
    answered, or a count in [open_count]. *)

From stdpp Require Import sorting.
From S2P Require Import Prelude StdText.

(** ** Data *)

Record Inode := mkInode {
  i_parent : Z; i_directory : bool; i_detached : bool; i_busy : bool; i_slot : Z; i_generation : Z; i_nlookup : Z; i_open_count : Z;
  i_entries : gmap Z (bytes * Z);
}.
#[global] Instance Inode_settable : Settable Inode := fun i =>
  mkInode (i_parent i) (i_directory i) (i_detached i) (i_busy i) (i_slot i) (i_generation i) (i_nlookup i) (i_open_count i) (i_entries i).

Inductive Ref := Request (x : Z) | Lookup (x : Z) | Pin (x : Z).
#[global] Instance Ref_eq_dec : EqDecision Ref.
Proof. solve_decision. Defined.
Definition target (r : Ref) : Z := match r with Request x | Lookup x | Pin x => x end.

(** [uncounted] is the number of inodes that an operation has allocated and has yet to add to
    [cached_inodes], and [skipped] what deletions left in [cached_inodes] because they found it too
    small.  [kernel] lists the lookups the kernel has, [refs] what the operations hold, and [jobs] the
    inodes that an operation has taken out of a directory and is about to retire, with what it
    holds of the directory. *)
Record Store := mkStore {
  heap : gmap Z Inode; root : Z; retired_items : gmap Z (option Z); cached_inodes : Z; uncounted : Z; skipped : Z;
  kernel : list Z; refs : list Ref; jobs : list (list Z * Ref);
}.
#[global] Instance Store_settable : Settable Store := fun s =>
  mkStore (heap s) (root s) (retired_items s) (cached_inodes s) (uncounted s) (skipped s) (kernel s) (refs s) (jobs s).

Definition no_slot : Z := UINT32_MAX.
Definition ENOTDIR : Z := 20.

Definition update (x : Z) (f : Inode -> Inode) (s : Store) : Store := s <| heap := alter f x (heap s) |>.

(** [hash_strmap::find] *)
Definition find_name (entries : gmap Z (bytes * Z)) (name : bytes) : option (Z * Z) :=
  match filter (fun '(_, (n, _)) => n = name) (map_to_list entries) with
  | (slot, (_, c)) :: _ => Some (slot, c)
  | [] => None
  end.

(** ** Counts *)

Definition retain_inode_count (count : Z) : option Z := if count =? UINT32_MAX then None else Some (count + 1).
Definition release_inode_count (count : Z) : Z := if count =? 0 then 0 else count - 1.

Definition forget_inode (s : Store) (x count : Z) : Store :=
  if x =? root s then s
  else update x (fun i => i <| i_nlookup := if i_nlookup i <=? count then 0 else i_nlookup i - u32 count |>) s.

(** The child of a name, as lookups and [pin_cached_child] find it. *)
Definition cached_child (s : Store) (parent : Z) (name : bytes) : option (Z * Inode) :=
  match heap s !! parent with
  | Some p =>
      if negb (i_directory p) then None
      else match find_name (i_entries p) name with
           | Some (_, c) =>
               match heap s !! c with Some i => if i_detached i then None else Some (c, i) | None => None end
           | None => None
           end
  | None => None
  end.

(** [reply_lookup_result] up to the reply. *)
Definition lookup_child (s : Store) (parent : Z) (name : bytes) : Store * option Z :=
  match cached_child s parent name with
  | Some (c, i) =>
      match retain_inode_count (i_nlookup i) with
      | Some n => (update c (fun i => i <| i_nlookup := n |>) s, Some c)
      | None => (s, None)
      end
  | None => (s, None)
  end.

Definition retain_open (s : Store) (x : Z) : Store * bool :=
  match heap s !! x with
  | Some i =>
      match retain_inode_count (i_open_count i) with
      | Some n => (update x (fun i => i <| i_open_count := n |>) s, true)
      | None => (s, false)
      end
  | None => (s, false)
  end.

Definition pin_cached_child (s : Store) (parent : Z) (name : bytes) : Store * option Z :=
  match cached_child s parent name with
  | Some (c, _) => let '(s, ok) := retain_open s c in (s, if ok then Some c else None)
  | None => (s, None)
  end.

Definition release_open (s : Store) (x : Z) : Store :=
  update x (fun i => i <| i_open_count := release_inode_count (i_open_count i) |>) s.

(** ** Trees *)

Definition child_inodes (i : Inode) : list Z := map (fun '(_, (_, c)) => c) (map_to_list (i_entries i)).

(** An inode and all below it, or [None] if [fuel] is less than the depth. *)
Fixpoint item_tree (fuel : nat) (h : gmap Z Inode) (x : Z) : option (list Z) :=
  match fuel with
  | O => None
  | S fuel =>
      match h !! x with
      | Some i => below ← mapM (item_tree fuel h) (child_inodes i); Some (x :: mjoin below)
      | None => Some [x]
      end
  end.
Definition tree (s : Store) (x : Z) : option (list Z) := item_tree (S (size (heap s))) (heap s) x.

Definition unreferenced (h : gmap Z Inode) (x : Z) : bool :=
  match h !! x with Some i => (i_nlookup i =? 0) && (i_open_count i =? 0) | None => true end.

Definition item_tree_unreferenced (s : Store) (x : Z) : bool :=
  match tree s x with Some l => forallb (unreferenced (heap s)) l | None => false end.

(** [cache_inode_tree_deleted] and [delete_inode], whose destructors free the children. *)
Definition delete_tree (s : Store) (x : Z) : Store :=
  match tree s x with
  | Some l =>
      let count := Z.of_nat (length l) in
      let small := cached_inodes s <? count in
      s <| heap := foldr delete (heap s) l |>
        <| cached_inodes := if small then cached_inodes s else cached_inodes s - count |>
        <| skipped := if small then skipped s + count else skipped s |>
  | None => s
  end.

(** ** Taking a child out of its directory *)

(** The test of a dentry slot. *)
Definition owns_slot (s : Store) (parent slot x : Z) : bool :=
  negb (slot =? no_slot) &&
  match heap s !! parent with
  | Some p => match i_entries p !! slot with Some (_, c) => c =? x | None => false end
  | None => false
  end.

Definition erase_slot (parent slot : Z) (s : Store) : Store :=
  update parent (fun p => p <| i_entries := delete slot (i_entries p) |>) s.

Definition set_detached (x : Z) (s : Store) : Store := update x (fun i => i <| i_detached := true |>) s.

Definition detach_parent_slot_if_owned (s : Store) (x : Z) (parent : option Z) : Store :=
  match heap s !! x with
  | None => s
  | Some i =>
      let cleared := update x (fun i => i <| i_slot := no_slot |>) in
      match parent with
      | Some p =>
          if (p =? x) || negb (match heap s !! p with Some ip => i_directory ip | None => false end) then cleared s
          else if i_slot i =? no_slot then s
          else cleared (if owns_slot s p (i_slot i) x then erase_slot p (i_slot i) s else s)
      | None => cleared s
      end
  end.

(** [detach_cached_item] up to [retire_item]; [parent] is the parent it read before it took the
    mutex. *)
Definition detach_section (s : Store) (x parent : Z) : Store * result bool :=
  match heap s !! x with
  | None => (s, Ok false)
  | Some i =>
      if i_detached i then (s, Ok false)
      else if negb (owns_slot s parent (i_slot i) x) then (s, Throw LogicError)
      else (update x (fun i => i <| i_busy := false |>) (set_detached x (erase_slot parent (i_slot i) s)), Ok true)
  end.

(** The loop of [prune_directory_generation]: a child with local changes takes the generation. *)
Definition prune_slot (parent generation : Z) (acc : Store * list Z) (slot : Z) : Store * list Z :=
  let '(s, stale) := acc in
  match heap s !! parent with
  | Some p =>
      match i_entries p !! slot with
      | Some (_, c) =>
          match heap s !! c with
          | Some i =>
              if i_busy i then (update c (fun i => i <| i_generation := generation |>) s, stale)
              else if i_generation i =? generation then acc
              else (set_detached c (erase_slot parent slot s), stale ++ [c])
          | None => acc
          end
      | None => acc
      end
  | None => acc
  end.

Definition slots (s : Store) (parent : Z) : list Z :=
  match heap s !! parent with Some p => map fst (map_to_list (i_entries p)) | None => [] end.

Definition prune_section (s : Store) (parent generation : Z) : Store * list Z :=
  foldl (prune_slot parent generation) (s, []) (slots s parent).

(** [retire_item] after the tree has been marked. *)
Definition retire_item (s : Store) (x : Z) : Store * result unit :=
  match heap s !! x with
  | None => (s, Ok tt)
  | Some i =>
      let parent := if i_parent i =? x then None else Some (i_parent i) in
      let '(s1, ok) := match parent with Some p => retain_open s p | None => (s, true) end in
      if negb ok then (s, Throw (SystemError EOVERFLOW))
      else match retired_items s1 !! x with
           | Some _ => (match parent with Some p => release_open s1 p | None => s1 end, Throw LogicError)
           | None => (s1 <| retired_items := <[x := parent]> (retired_items s1) |>, Ok tt)
           end
  end.

(** One turn of [sweep_retired_items]. *)
Definition sweep_item (s : Store) (x : Z) : option Store :=
  match retired_items s !! x, heap s !! x with
  | Some parent, Some i =>
      if i_detached i && item_tree_unreferenced s x then
        let s := detach_parent_slot_if_owned s x parent in
        let s := s <| retired_items := delete x (retired_items s) |> in
        let s := delete_tree s x in
        Some (match parent with Some p => release_open s p | None => s end)
      else None
  | _, _ => None
  end.

(** The loops of [sweep_retired_items]: a pass over the table, and passes until one finds
    nothing; [None] if [fuel] is less than the number of passes. *)
Fixpoint sweep_pass (keys : list Z) (s : Store) : Store * bool :=
  match keys with
  | [] => (s, false)
  | x :: keys =>
      match sweep_item s x with
      | Some s => ((sweep_pass keys s).1, true)
      | None => sweep_pass keys s
      end
  end.

Definition retired_keys (s : Store) : list Z := merge_sort Z.le (map fst (map_to_list (retired_items s))).

Fixpoint sweep_loop (fuel : nat) (s : Store) : option Store :=
  match fuel with
  | O => None
  | S fuel => let '(s, progress) := sweep_pass (retired_keys s) s in if progress then sweep_loop fuel s else Some s
  end.

Definition sweep_retired_items (s : Store) : option Store :=
  if (size (retired_items s) =? 0)%nat then Some s else sweep_loop (S (size (retired_items s))) s.

(** [~State]: the retired inodes are freed in the order of their addresses.  [None] means that
    an inode is used that has been freed. *)
Definition free_tree (s : Store) (x : Z) : Store :=
  match tree s x with Some l => s <| heap := foldr delete (heap s) l |> | None => s end.

Definition destroy_item (s : Store) (x : Z) : option Store :=
  match retired_items s !! x with
  | None => Some s
  | Some parent =>
      let live y := match heap s !! y with Some _ => true | None => false end in
      if live x && match parent with Some p => live p | None => true end
      then Some (free_tree (detach_parent_slot_if_owned s x parent) x)
      else None
  end.

Fixpoint destroy_loop (keys : list Z) (s : Store) : option Store :=
  match keys with [] => Some s | x :: keys => s ← destroy_item s x; destroy_loop keys s end.

Definition destroy_state (s : Store) : option Store := destroy_loop (retired_keys s) s.

(** ** Putting a child into a directory *)

(** The section that puts the inode into the directory; it is counted after it. *)
Definition allocate_inode (new parent slot : Z) (directory : bool) (name : bytes) (s : Store) : Store :=
  let s := s <| heap := <[new := mkInode parent directory false false slot 0 0 0 ∅]> (heap s) |> in
  update parent (fun p => p <| i_entries := <[slot := (name, new)]> (i_entries p) |>) s
    <| uncounted := uncounted s + 1 |>.

Definition cache_inode_allocated (s : Store) : Store :=
  s <| cached_inodes := cached_inodes s + 1 |> <| uncounted := uncounted s - 1 |>.

(** The end of the section of [install_item], for the inode it found or allocated: what it
    counts is in the list of references, which it keeps when it throws.  [changed] says that
    the time or the size of a listed file differs from the cached one. *)
Definition install_finish (s : Store) (x generation : Z) (pending lookup changed : bool) :
    Store * list Ref * result unit :=
  let s := if pending then update x (fun i => i <| i_busy := true |>) s else s in
  match heap s !! x with
  | None => (s, [], Throw LogicError)
  | Some i =>
      match (if lookup then retain_inode_count (i_nlookup i) else Some (i_nlookup i)) with
      | None => (s, [], Throw (SystemError EOVERFLOW))
      | Some n =>
          let taken := if lookup then [Lookup x] else [] in
          let s := update x (fun i => i <| i_nlookup := n |>
                                        <| i_generation := if generation =? 0 then i_generation i else generation |>) s in
          if changed && negb (i_directory i) && negb (i_busy i) then
            let '(s, ok) := retain_open s x in
            if ok then (s, Pin x :: taken, Ok tt) else (s, taken, Throw (SystemError EOVERFLOW))
          else (s, taken, Ok tt)
      end
  end.

(** The section of [install_item]: [new] is the address of an inode it allocates and [slot] the
    slot that the table gives a new name.  The result is the inode, [None] if the listing of a
    file is deferred, and the inode it replaces. *)
Definition install_section (s : Store) (parent new slot generation : Z) (name : bytes)
    (directory exclusive pending lookup defer changed : bool) :
    Store * list Ref * option Z * result (option Z) :=
  match heap s !! parent with
  | None => (s, [], None, Throw LogicError)
  | Some p =>
      if negb (i_directory p) then (s, [], None, Throw (SystemError ENOTDIR))
      else if i_detached p then (s, [], None, Throw (SystemError ESTALE))
      else
        let finish s x stale changed :=
          let '(s, taken, r) := install_finish s x generation pending lookup changed in
          (s, taken, stale, let? _ := r in Ok (Some x)) in
        match find_name (i_entries p) name with
        | None => finish (allocate_inode new parent slot directory name s) new None false
        | Some (slot, c) =>
            match heap s !! c with
            | None => (s, [], None, Throw LogicError)
            | Some i =>
                if exclusive then (s, [], None, Throw (SystemError EEXIST))
                else if negb (Bool.eqb (i_directory i) directory) && negb (i_busy i) then
                  if i_directory i && defer then (s, [], None, Ok None)
                  else finish (set_detached c (allocate_inode new parent slot directory name s)) new (Some c) false
                else finish (update c (fun i => i <| i_parent := parent |> <| i_detached := false |>) s) c None
                       (changed && negb directory)
            end
        end
  end.

(** [move_cached_item]: [old_parent] is the parent it read before it took the mutexes, and
    [slot] the slot that the table gives a new name. *)
Definition move_cached_item (s : Store) (x old_parent new_parent slot : Z) (name : bytes) : Store * result bool :=
  match heap s !! x, heap s !! old_parent, heap s !! new_parent with
  | Some i, Some p, Some q =>
      if negb (i_directory p) || negb (i_directory q) then (s, Ok false)
      else if i_detached i || i_detached q then (s, Ok false)
      else if negb (owns_slot s old_parent (i_slot i) x) then (s, Throw LogicError)
      else match find_name (i_entries q) name with
           | Some _ => (s, Throw LogicError)
           | None =>
               let s := update new_parent (fun q => q <| i_entries := <[slot := (name, x)]> (i_entries q) |>) s in
               let s := erase_slot old_parent (i_slot i) s in
               (update x (fun i => i <| i_slot := slot |> <| i_parent := new_parent |> <| i_detached := false |>) s, Ok true)
           end
  | _, _, _ => (s, Ok false)
  end.

(** ** Reclamation *)

(** A child that [reclaim_cached_children] finds unreferenced is erased and freed; whether the
    listing of the directory has expired is not part of this model ([DirectoryListing]). *)
Definition reclaim_child (parent : Z) (s : Store) (slot : Z) : Store :=
  match heap s !! parent with
  | Some p =>
      match i_entries p !! slot with
      | Some (_, c) =>
          match heap s !! c with
          | Some i =>
              if i_busy i || negb (item_tree_unreferenced s c) then s
              else delete_tree (update c (fun i => i <| i_slot := no_slot |>) (erase_slot parent slot s)) c
          | None => s
          end
      | None => s
      end
  | None => s
  end.

Definition reclaim_cached_children (s : Store) (parent : Z) : Store :=
  match heap s !! parent with
  | Some p =>
      if i_detached p || negb (i_open_count p =? 1) then s
      else foldl (reclaim_child parent) s (map fst (map_to_list (i_entries p)))
  | None => s
  end.

Lemma Forall2_in_l {A B} (P : A -> B -> Prop) l k x : Forall2 P l k -> x ∈ l -> exists y, y ∈ k /\ P x y.
Proof. induction 1; set_solver. Qed.
Lemma Forall2_in_r {A B} (P : A -> B -> Prop) l k y : Forall2 P l k -> y ∈ k -> exists x, x ∈ l /\ P x y.
Proof. induction 1; set_solver. Qed.

(** ** Trees of a heap whose inodes have one parent and no cycle *)

Definition child (h : gmap Z Inode) (p c : Z) : Prop :=
  exists i k nm, h !! p = Some i /\ i_entries i !! k = Some (nm, c).

Record forest (h : gmap Z Inode) : Prop := mkForest {
  forest_edge : forall p i k nm c, h !! p = Some i -> i_entries i !! k = Some (nm, c) ->
    exists j, h !! c = Some j /\ i_parent j = p /\ i_slot j = k;
  forest_rank : exists f : Z -> nat, forall p c, child h p c -> (f p < f c)%nat;
}.

Lemma elem_of_child_inodes i c : c ∈ child_inodes i <-> exists k nm, i_entries i !! k = Some (nm, c).
Proof.
  unfold child_inodes. rewrite list_elem_of_fmap. split.
  - intros ((k & nm & d) & -> & H%elem_of_map_to_list). eauto.
  - intros (k & nm & H). exists (k, (nm, c)). by rewrite elem_of_map_to_list.
Qed.

Lemma child_alt h p c : child h p c <-> exists i, h !! p = Some i /\ c ∈ child_inodes i.
Proof. unfold child. setoid_rewrite elem_of_child_inodes. naive_solver. Qed.

Section forest.
Context (h : gmap Z Inode) (Hf : forest h).

Lemma child_live p c : child h p c -> is_Some (h !! c).
Proof. intros (i & k & nm & Hp & Hk). destruct (forest_edge _ Hf _ _ _ _ _ Hp Hk) as (j & -> & _). done. Qed.

Lemma child_parent p q c : child h p c -> child h q c -> p = q.
Proof.
  intros (i & k & nm & Hp & Hk) (i' & k' & nm' & Hq & Hk').
  destruct (forest_edge _ Hf _ _ _ _ _ Hp Hk) as (j & Hj & <- & _).
  destruct (forest_edge _ Hf _ _ _ _ _ Hq Hk') as (j' & Hj' & <- & _). congruence.
Qed.

Lemma child_inodes_nodup p i : h !! p = Some i -> NoDup (child_inodes i).
Proof.
  intros Hp. unfold child_inodes. apply NoDup_fmap_2_strong; [|apply NoDup_map_to_list].
  intros (k & nm & c) (k' & nm' & c') H%elem_of_map_to_list H'%elem_of_map_to_list. cbn. intros <-.
  destruct (forest_edge _ Hf _ _ _ _ _ Hp H) as (j & Hj & _ & <-).
  destruct (forest_edge _ Hf _ _ _ _ _ Hp H') as (j' & Hj' & _ & <-). naive_solver.
Qed.

Lemma reach_rank (f : Z -> nat) x y :
  (forall p c, child h p c -> (f p < f c)%nat) -> rtc (child h) x y -> (f x <= f y)%nat.
Proof. intros Hr. induction 1 as [|a b c Hab _ IH]; [done|]. specialize (Hr _ _ Hab). lia. Qed.

(** Of two inodes above a third one is above the other. *)
Lemma reach_comparable x y z : rtc (child h) x z -> rtc (child h) y z -> rtc (child h) x y \/ rtc (child h) y x.
Proof.
  intros Hx Hy. revert y Hy. induction Hx as [x|x b z Hxb Hbz IH]; intros y Hy; [by right|].
  destruct (IH _ Hy) as [Hby|Hyb]; [left; by eapply rtc_l|].
  destruct (rtc_inv_r _ _ Hyb) as [->|(q & Hyq & Hqb)]; [left; by apply rtc_once|].
  right. by rewrite (child_parent _ _ _ Hxb Hqb).
Qed.

Lemma siblings_apart p c d y :
  child h p c -> child h p d -> rtc (child h) c y -> rtc (child h) d y -> c = d.
Proof.
  destruct (forest_rank _ Hf) as [f Hr].
  assert (Hs : forall c d, child h p c -> child h p d -> rtc (child h) c d -> c = d).
  { intros a b Ha Hb Hab. destruct (rtc_inv_r _ _ Hab) as [|(q & Haq & Hqb)]; [done|].
    rewrite <- (child_parent _ _ _ Hb Hqb) in Haq.
    pose proof (reach_rank _ _ _ Hr Haq). pose proof (Hr _ _ Ha). lia. }
  intros Hc Hd Hcy Hdy. destruct (reach_comparable _ _ _ Hcy Hdy); [by apply Hs|symmetry; by apply Hs].
Qed.

Lemma item_tree_reach n x l y : item_tree n h x = Some l -> y ∈ l <-> rtc (child h) x y.
Proof.
  revert x l y. induction n as [|n IH]; intros x l y; [done|]. cbn. destruct (h !! x) as [i|] eqn:Hx.
  - intros (below & Hm & [= <-])%bind_Some. rewrite elem_of_cons, list_elem_of_join.
    apply mapM_Some in Hm. split.
    + intros [->|(t & Hyt & Ht)]; [done|].
      destruct (Forall2_in_r _ _ _ _ Hm Ht) as (c & Hc & Hct).
      apply rtc_l with c; [apply child_alt; eauto|]. by eapply IH.
    + intros Hr. inversion Hr as [|? c ? Hc Hcy]; subst; [by left|]. right.
      apply child_alt in Hc as (j & Hj & Hcj). rewrite Hx in Hj. injection Hj as <-.
      destruct (Forall2_in_l _ _ _ _ Hm Hcj) as (t & Ht & Hct). exists t. split; [|done]. by eapply IH.
  - intros [= <-]. rewrite list_elem_of_singleton. split; [by intros ->|].
    intros Hr. inversion Hr as [|? c ? (j & ? & ? & Hj & _)]; subst; [done|]. congruence.
Qed.

Lemma item_tree_nodup n x l : item_tree n h x = Some l -> NoDup l.
Proof.
  revert x l. induction n as [|n IH]; intros x l; [done|]. cbn. destruct (h !! x) as [i|] eqn:Hx;
    [|intros [= <-]; apply NoDup_singleton].
  intros (below & Hm & [= <-])%bind_Some. apply mapM_Some in Hm.
  assert (Hx' : forall c, c ∈ child_inodes i -> child h x c) by (intros c Hc; apply child_alt; eauto).
  apply NoDup_cons. split.
  - intros (t & Hxt & Ht)%list_elem_of_join. destruct (Forall2_in_r _ _ _ _ Hm Ht) as (c & Hc & Hct).
    apply (item_tree_reach _ _ _ _ Hct) in Hxt. destruct (forest_rank _ Hf) as [f Hr].
    pose proof (reach_rank _ _ _ Hr Hxt). pose proof (Hr _ _ (Hx' _ Hc)). lia.
  - pose proof (child_inodes_nodup _ _ Hx) as Hnd. revert Hm Hnd Hx'. generalize (child_inodes i) as cs. clear Hx.
    induction below as [|t below IHb]; intros cs Hm Hnd Hcs; [constructor|].
    apply Forall2_cons_inv_r in Hm as (c & cs' & Hct & Hm & ->). apply NoDup_cons in Hnd as [Hc Hnd].
    cbn. apply NoDup_app. split; [by eapply IH|]. split; [|apply (IHb cs'); [done..|set_solver]].
    intros y Hy (t' & Hyt' & Ht')%list_elem_of_join. destruct (Forall2_in_r _ _ _ _ Hm Ht') as (d & Hd & Hdt).
    apply (item_tree_reach _ _ _ _ Hct) in Hy. apply (item_tree_reach _ _ _ _ Hdt) in Hyt'.
    rewrite (siblings_apart x c d y) in Hc; [done|apply Hcs; set_solver..|done|done].
Qed.

(** The fuel of [tree] is enough: the inodes on a path down are distinct. *)
Lemma item_tree_total (f : Z -> nat) n x anc :
  (forall p c, child h p c -> (f p < f c)%nat) -> NoDup anc ->
  (forall a, a ∈ anc -> is_Some (h !! a) /\ (f a < f x)%nat) -> (size h < length anc + n)%nat ->
  is_Some (item_tree n h x).
Proof.
  intros Hr. revert x anc. induction n as [|n IH]; intros x anc Hnd Ha Hsz.
  - exfalso. assert (list_to_set anc ⊆ dom h) as Hsub%subseteq_size.
    { intros a Hin. apply elem_of_dom. apply Ha. set_solver. }
    rewrite size_list_to_set, size_dom in Hsub by done. lia.
  - cbn. destruct (h !! x) as [i|] eqn:Hx; [|eauto].
    assert (is_Some (mapM (item_tree n h) (child_inodes i))) as [below ->]; [|cbn; eauto].
    apply mapM_is_Some, Forall_forall. intros c Hc. cbn.
    assert (f x < f c)%nat by (apply Hr, child_alt; eauto).
    apply (IH c (x :: anc)).
    + apply NoDup_cons. split; [|done]. intros Hin. apply Ha in Hin. lia.
    + intros a [->|Hin]%elem_of_cons; [eauto|]. apply Ha in Hin as [? ?]. split; [done|lia].
    + cbn. lia.
Qed.
End forest.
