(* ===== verification/InodeSafety.v ===== *)
(** * No inode in use is freed

    All interleavings of the operations of [InodeStore] as a transition system, the invariant
    they keep, the sweep that frees retired inodes, and the end of a mount. *)

From stdpp Require Import sorting.
From S2P Require Import Prelude StdText InodeStore.

(** ** The invariant *)

Definition occ {A} `{EqDecision A} (x : A) (l : list A) : Z := zsum (fun y => if decide (y = x) then 1 else 0) l.

Definition all_refs (s : Store) : list Ref := refs s ++ map snd (jobs s).

(** The counts in [open_count] of the parents of retired inodes. *)
Definition retired_holds (m : gmap Z (option Z)) (x : Z) : Z :=
  zsum (fun '(_, parent) => if decide (parent = Some x) then 1 else 0) (map_to_list m).

Definition job_items (js : list (list Z * Ref)) : list Z := mjoin (map fst js).

(** What has been taken out of its directory and not been freed; [loose] is what a section has
    in its hand. *)
Definition floating (loose : list Z) (s : Store) : list Z :=
  job_items (jobs s) ++ map fst (map_to_list (retired_items s)) ++ loose.

Arguments occ : simpl never.
Arguments retired_holds : simpl never.
Arguments all_refs : simpl never.
Arguments job_items : simpl never.
Arguments floating : simpl never.

Record inv (loose : list Z) (s : Store) : Prop := mkInv {
  v_root : is_Some (heap s !! root s);
  v_forest : forest (heap s);
  v_top : forall p, ~ child (heap s) p (root s);
  v_parent : forall x i, heap s !! x = Some i -> x <> root s -> is_Some (heap s !! i_parent i) /\ i_parent i <> x;
  v_nodup : NoDup (floating loose s);
  v_floating : forall x, x ∈ floating loose s -> is_Some (heap s !! x) /\ x <> root s /\ forall p, ~ child (heap s) p x;
  v_linked : forall x i, heap s !! x = Some i -> x <> root s -> x ∈ floating loose s \/ child (heap s) (i_parent i) x;
  v_refs : forall r, r ∈ all_refs s -> is_Some (heap s !! target r);
  v_request : forall x, Request x ∈ all_refs s -> x = root s \/ x ∈ kernel s;
  v_kernel : forall x, x ∈ kernel s -> is_Some (heap s !! x) /\ x <> root s;
  v_lookups : forall x, Lookup x ∈ all_refs s -> x <> root s;
  v_nlookup : forall x i, heap s !! x = Some i ->
    i_nlookup i = occ x (kernel s) + occ (Lookup x) (all_refs s) /\ i_nlookup i <= UINT32_MAX;
  v_open : forall x i, heap s !! x = Some i ->
    i_open_count i = occ (Pin x) (all_refs s) + retired_holds (retired_items s) x /\ i_open_count i <= UINT32_MAX;
  v_retired : forall x parent, retired_items s !! x = Some parent ->
    exists i, heap s !! x = Some i /\ parent = Some (i_parent i);
  v_jobs : forall xs r x, (xs, r) ∈ jobs s -> x ∈ xs ->
    exists i, heap s !! x = Some i /\ i_parent i = target r;
  v_cached : cached_inodes s + uncounted s = Z.of_nat (size (heap s)) - 1 + skipped s;
  v_uncounted : 0 <= uncounted s /\ 0 <= skipped s;
}.

Lemma elem_of_job_items js y : y ∈ job_items js <-> exists xs r, (xs, r) ∈ js /\ y ∈ xs.
Proof.
  unfold job_items. rewrite list_elem_of_join. setoid_rewrite list_elem_of_fmap. split.
  - intros (xs & Hy & (xs' & r) & -> & Hj). eauto.
  - intros (xs & r & Hj & Hy). exists xs. split; [done|]. by exists (xs, r).
Qed.

Lemma elem_of_floating loose s y :
  y ∈ floating loose s <-> (exists xs r, (xs, r) ∈ jobs s /\ y ∈ xs) \/ is_Some (retired_items s !! y) \/ y ∈ loose.
Proof.
  unfold floating. rewrite !elem_of_app, elem_of_job_items, list_elem_of_fmap. split.
  - intros [Hy|[((y' & parent) & -> & Hr%elem_of_map_to_list)|Hy]]; cbn; eauto 7.
  - intros [Hy|[[parent Hr]|Hy]]; [by left|right; left|by do 2 right]. exists (y, parent). by rewrite elem_of_map_to_list.
Qed.

Lemma elem_of_all_refs s r : r ∈ all_refs s <-> r ∈ refs s \/ exists xs, (xs, r) ∈ jobs s.
Proof.
  unfold all_refs. rewrite elem_of_app, list_elem_of_fmap. split.
  - intros [?|((xs & r') & -> & ?)]; cbn; eauto.
  - intros [?|(xs & ?)]; [by left|right]. by exists (xs, r).
Qed.

Lemma occ_cons {A} `{EqDecision A} (x y : A) l : occ x (y :: l) = (if decide (y = x) then 1 else 0) + occ x l.
Proof. done. Qed.
Lemma occ_app {A} `{EqDecision A} (x : A) l k : occ x (l ++ k) = occ x l + occ x k.
Proof. apply zsum_app. Qed.
Lemma occ_nonneg {A} `{EqDecision A} (x : A) l : 0 <= occ x l.
Proof. apply zsum_nonneg. intros y _. by case_decide. Qed.
Lemma occ_pos {A} `{EqDecision A} (x : A) l : x ∈ l -> 1 <= occ x l.
Proof.
  intros H. pose proof (zsum_elem (fun y => if decide (y = x) then 1 else 0) l x) as Hz. cbn in Hz.
  rewrite decide_True in Hz by done. apply Hz; [|done]. intros y _. by case_decide.
Qed.
Lemma occ_perm {A} `{EqDecision A} (x : A) l k : l ≡ₚ k -> occ x l = occ x k.
Proof. apply zsum_perm. Qed.
Lemma occ_replicate n (x y : Z) : occ y (replicate n x) = if decide (x = y) then Z.of_nat n else 0.
Proof. induction n as [|n IH]; [by case_decide|]. cbn [replicate]. rewrite occ_cons, IH. case_decide; lia. Qed.

Lemma retired_holds_nonneg m x : 0 <= retired_holds m x.
Proof. apply zsum_nonneg. intros [] _. by case_decide. Qed.
Lemma retired_holds_insert m y parent x :
  m !! y = None -> retired_holds (<[y := parent]> m) x = (if decide (parent = Some x) then 1 else 0) + retired_holds m x.
Proof. intros Hy. unfold retired_holds. by rewrite (zsum_perm _ _ _ (map_to_list_insert _ _ _ Hy)). Qed.
Lemma retired_holds_delete m y parent x :
  m !! y = Some parent -> retired_holds m x = (if decide (parent = Some x) then 1 else 0) + retired_holds (delete y m) x.
Proof. intros Hy. rewrite <- (insert_delete_id m y parent Hy) at 1. apply retired_holds_insert, lookup_delete_eq. Qed.

(** ** What is held is not freed *)

Section held.
Context (loose : list Z) (s : Store) (Hv : inv loose s).

(** An unreferenced inode is not held by anything. *)
Lemma unreferenced_free x i :
  heap s !! x = Some i -> x <> root s -> unreferenced (heap s) x = true ->
  x ∉ kernel s /\ (forall r, r ∈ all_refs s -> target r <> x) /\
  (forall y, retired_items s !! y <> Some (Some x)).
Proof.
  intros Hx Hroot Hu. unfold unreferenced in Hu. rewrite Hx in Hu.
  apply andb_true_iff in Hu as [Hn%Z.eqb_eq Ho%Z.eqb_eq].
  destruct (v_nlookup _ _ Hv _ _ Hx) as [Hn' _]. destruct (v_open _ _ Hv _ _ Hx) as [Ho' _].
  pose proof (occ_nonneg x (kernel s)). pose proof (occ_nonneg (Lookup x) (all_refs s)).
  pose proof (occ_nonneg (Pin x) (all_refs s)). pose proof (retired_holds_nonneg (retired_items s) x).
  assert (Hk : x ∉ kernel s) by (intros Hin%occ_pos; lia).
  split; [done|]. split.
  - intros [y|y|y] Hin; cbn; intros ->.
    + by destruct (v_request _ _ Hv _ Hin).
    + apply occ_pos in Hin. lia.
    + apply occ_pos in Hin. lia.
  - intros y Hy. rewrite (retired_holds_delete _ _ _ x Hy), decide_True in Ho' by done.
    pose proof (retired_holds_nonneg (delete y (retired_items s)) x). lia.
Qed.

Lemma tree_total x : is_Some (tree s x).
Proof.
  destruct (forest_rank _ (v_forest _ _ Hv)) as [f Hr].
  eapply (item_tree_total (heap s) (v_forest _ _ Hv) f _ x []); [done|constructor|set_solver|cbn; lia].
Qed.
End held.

(** ** Freeing a tree *)

Lemma lookup_deletes (h : gmap Z Inode) l y : foldr delete h l !! y = if decide (y ∈ l) then None else h !! y.
Proof.
  induction l as [|x l IH]; cbn; [by rewrite decide_False by set_solver|].
  destruct (decide (x = y)) as [->|Hne].
  - by rewrite lookup_delete_eq, decide_True by set_solver.
  - rewrite lookup_delete_ne, IH by done. do 2 case_decide; set_solver.
Qed.

Lemma size_deletes (h : gmap Z Inode) l :
  NoDup l -> (forall x, x ∈ l -> is_Some (h !! x)) -> size h = (length l + size (foldr delete h l))%nat.
Proof.
  induction l as [|x l IH]; intros Hnd Hl; [done|]. apply NoDup_cons in Hnd as [Hx Hnd]. cbn.
  rewrite IH by set_solver. destruct (Hl x) as [i Hi]; [set_solver|].
  rewrite (map_size_delete_Some x (foldr delete h l)); [|rewrite lookup_deletes, decide_False by done; eauto].
  assert (size (foldr delete h l) <> 0)%nat; [|lia].
  intros He%map_size_empty_inv. pose proof (lookup_deletes h l x) as Hlk.
  rewrite He, lookup_empty, decide_False in Hlk by done. congruence.
Qed.

Section delete_tree.
Context (s : Store) (x : Z) (l : list Z) (Hv : inv [x] s) (Ht : tree s x = Some l).
Context (Hu : forallb (unreferenced (heap s)) l = true).
#[local] Abbreviation h := (heap s).
#[local] Abbreviation h' := (foldr delete (heap s) l).

Lemma tree_members y : y ∈ l <-> rtc (child h) x y.
Proof using All. exact (item_tree_reach h _ _ _ _ Ht). Qed.

Lemma top_facts : is_Some (h !! x) /\ x <> root s /\ forall p, ~ child h p x.
Proof using All. apply (v_floating _ _ Hv). unfold floating. set_solver. Qed.

Lemma tree_live y : y ∈ l -> is_Some (h !! y) /\ y <> root s.
Proof using All.
  destruct top_facts as (Hx & Hr & _). rewrite tree_members.
  intros [<-|(q & _ & Hq)]%rtc_inv_r; [done|]. split; [by eapply child_live, Hq; apply Hv|].
  intros ->. by eapply (v_top _ _ Hv).
Qed.

Lemma tree_closed p c : child h p c -> c ∈ l -> p ∈ l.
Proof using All.
  intros Hc. rewrite !tree_members. intros [<-|(q & Hq & Hqc)]%rtc_inv_r.
  - destruct top_facts as (_ & _ & Hn). by destruct (Hn p).
  - by rewrite (child_parent _ (v_forest _ _ Hv) _ _ _ Hc Hqc).
Qed.

Lemma tree_below p c : child h p c -> p ∈ l -> c ∈ l.
Proof using All. intros Hc. rewrite !tree_members. intros Hp. by eapply rtc_r. Qed.

Lemma child_deleted p c : child h' p c <-> child h p c /\ p ∉ l.
Proof.
  unfold child. setoid_rewrite lookup_deletes. case_decide; naive_solver.
Qed.

Lemma tree_free y : y ∈ l ->
  y ∉ kernel s /\ (forall r, r ∈ all_refs s -> target r <> y) /\ (forall z, retired_items s !! z <> Some (Some y)).
Proof using All.
  intros Hy. destruct (tree_live _ Hy) as [[i Hi] Hr]. eapply (unreferenced_free [x]); [done..|].
  rewrite forallb_forall in Hu. apply Hu. by apply list_elem_of_In.
Qed.

Lemma floating_kept y : y ∈ floating [] s -> y ∉ l.
Proof using All.
  intros Hy. rewrite tree_members. intros [<-|(q & _ & Hq)]%rtc_inv_r.
  - pose proof (v_nodup _ _ Hv) as Hnd. revert Hnd Hy. unfold floating.
    rewrite app_assoc, app_nil_r. intros (_ & Hd & _)%NoDup_app Hy. apply (Hd _ Hy). set_solver.
  - destruct (v_floating _ _ Hv y) as (_ & _ & Hn); [|by eapply Hn].
    unfold floating in *. set_solver.
Qed.

Lemma lookup_kept y : y ∉ l -> h' !! y = h !! y.
Proof. intros Hy. by rewrite lookup_deletes, decide_False. Qed.

Lemma live_kept y : is_Some (h !! y) -> y ∉ l -> is_Some (h' !! y).
Proof. intros Hs Hy. by rewrite lookup_kept. Qed.

Lemma deleted_forest : forest h'.
Proof using All.
  constructor.
  - intros p i k nm c Hp Hk. rewrite lookup_deletes in Hp. case_decide; [done|].
    destruct (forest_edge _ (v_forest _ _ Hv) _ _ _ _ _ Hp Hk) as (j & Hj & ? & ?).
    exists j. split; [|done]. rewrite lookup_kept; [done|]. intros Hc. apply (tree_closed p) in Hc; [done|].
    by exists i, k, nm.
  - destruct (forest_rank _ (v_forest _ _ Hv)) as [f Hr]. exists f. intros p c [Hc _]%child_deleted. by apply Hr.
Qed.

(** A parent that is kept stays: nothing outside the tree has its parent inside. *)
Lemma parent_kept y i : h !! y = Some i -> y <> root s -> y ∉ l -> i_parent i ∉ l.
Proof using All.
  intros Hy Hroot Hyl Hp. destruct (tree_free _ Hp) as (_ & Href & Hret).
  destruct (v_linked _ _ Hv _ _ Hy Hroot) as [Hfl|Hc]; [|by eapply Hyl, tree_below].
  apply elem_of_floating in Hfl as [(xs & r & Hj & Hyx)|[[parent Hr]|Hx%list_elem_of_singleton]].
  - destruct (v_jobs _ _ Hv _ _ _ Hj Hyx) as (i' & Hi' & Hpar). rewrite Hy in Hi'. injection Hi' as <-.
    apply (Href r); [|done]. apply elem_of_all_refs. eauto.
  - destruct (v_retired _ _ Hv _ _ Hr) as (i' & Hi' & ->). rewrite Hy in Hi'. injection Hi' as <-.
    by apply Hret in Hr.
  - subst y. by apply Hyl, tree_members.
Qed.

Lemma delete_tree_inv : inv [] (delete_tree s x).
Proof using All.
  assert (Hheap : heap (delete_tree s x) = h') by (unfold delete_tree; by rewrite Ht).
  pose proof (item_tree_nodup h (v_forest _ _ Hv) _ _ _ Ht) as Hndl.
  assert (Hkeep : forall r, r ∈ all_refs s -> target r ∉ l).
  { intros r Hr Hl. destruct (tree_free _ Hl) as (_ & H & _). by apply (H r). }
  assert (Hcount : forall z y, h' !! z = Some y -> h !! z = Some y).
  { intros z y. rewrite lookup_deletes. by case_decide. }
  unfold delete_tree in *. rewrite Ht in *. clear Hheap. constructor; cbn.
  - apply live_kept; [apply Hv|]. intros Hl. by apply tree_live in Hl as [_ ?].
  - apply deleted_forest.
  - intros p [Hc _]%child_deleted. by eapply (v_top _ _ Hv).
  - intros y i Hy Hr. pose proof Hy as Hy'. rewrite lookup_deletes in Hy'. case_decide; [done|].
    destruct (v_parent _ _ Hv _ _ Hy' Hr). split; [|done]. apply live_kept; [done|]. by eapply parent_kept.
  - pose proof (v_nodup _ _ Hv) as Hnd. unfold floating in *. cbn. rewrite app_nil_r.
    rewrite app_assoc in Hnd. by apply NoDup_app in Hnd as [? _].
  - intros y Hy. assert (Hy' : y ∈ floating [x] s) by (unfold floating in *; cbn in *; set_solver).
    destruct (v_floating _ _ Hv _ Hy') as (? & ? & Hn). split; [|split; [done|]].
    + apply live_kept; [done|]. by apply floating_kept.
    + intros p [Hc _]%child_deleted. by eapply Hn.
  - intros y i Hy Hr. pose proof (Hcount _ _ Hy) as Hy0. assert (Hyl : y ∉ l).
    { intros Hin. rewrite lookup_deletes, decide_True in Hy by done. done. }
    destruct (v_linked _ _ Hv _ _ Hy0 Hr) as [Hf|Hc].
    + left. unfold floating in *. cbn in *. rewrite app_nil_r. rewrite app_assoc, elem_of_app in Hf.
      destruct Hf as [|Hx%list_elem_of_singleton]; [done|]. subst. by destruct Hyl; apply tree_members.
    + right. apply child_deleted. split; [done|]. by eapply parent_kept.
  - intros r Hr. apply live_kept; [by apply (v_refs _ _ Hv)|by apply Hkeep].
  - apply (v_request _ _ Hv).
  - intros y Hy. destruct (v_kernel _ _ Hv _ Hy). split; [|done]. apply live_kept; [done|].
    intros Hl. by destruct (tree_free _ Hl).
  - apply (v_lookups _ _ Hv).
  - intros y i Hy%Hcount. by apply (v_nlookup _ _ Hv).
  - intros y i Hy%Hcount. by apply (v_open _ _ Hv).
  - intros y parent Hy. destruct (v_retired _ _ Hv _ _ Hy) as (i & Hi & ->). exists i. split; [|done].
    rewrite lookup_kept; [done|]. apply floating_kept, elem_of_floating. rewrite Hy. eauto.
  - intros xs r y Hj Hy. destruct (v_jobs _ _ Hv _ _ _ Hj Hy) as (i & Hi & ?). exists i. split; [|done].
    rewrite lookup_kept; [done|]. apply floating_kept, elem_of_floating. eauto.
  - pose proof (v_cached _ _ Hv) as Hc. pose proof (size_deletes h l) as Hsz.
    rewrite Hsz in Hc; [|done|intros; by apply tree_live].
    assert (size h' <> 0)%nat.
    { intros He%map_size_empty_inv. destruct (v_root _ _ Hv) as [ir Hir].
      pose proof (lookup_deletes h l (root s)) as Hlk. rewrite He, lookup_empty, decide_False in Hlk; [congruence|].
      intros Hl. by apply tree_live in Hl as [_ ?]. }
    case_match; lia.
  - destruct (v_uncounted _ _ Hv). case_match; lia.
Qed.
End delete_tree.

(** ** Counts and flags *)

Lemma child_alter (h : gmap Z Inode) x i f :
  h !! x = Some i -> i_entries (f i) = i_entries i -> forall p c, child (alter f x h) p c <-> child h p c.
Proof.
  intros Hx He p c. unfold child. destruct (decide (p = x)) as [->|Hne].
  - rewrite lookup_alter_eq, Hx. cbn. setoid_rewrite (inj_iff Some). split; intros (j & k & nm & <- & Hk); do 3 eexists;
      (split; [reflexivity|]); rewrite He in *; exact Hk.
  - by setoid_rewrite (lookup_alter_ne f h x p (not_eq_sym Hne)).
Qed.

Lemma live_alter (h : gmap Z Inode) x f y : is_Some (alter f x h !! y) <-> is_Some (h !! y).
Proof. rewrite lookup_alter. case_decide; [|done]. subst y; by rewrite fmap_is_Some. Qed.

Lemma lookup_alter_Some' (h : gmap Z Inode) x f y j :
  alter f x h !! y = Some j -> (y = x /\ exists i, h !! x = Some i /\ j = f i) \/ (y <> x /\ h !! y = Some j).
Proof.
  destruct (decide (y = x)) as [->|Hne].
  - rewrite lookup_alter_eq. intros (i & Hi & ->)%fmap_Some. left. eauto.
  - rewrite lookup_alter_ne by done. eauto.
Qed.

Lemma forest_alter (h : gmap Z Inode) x i f :
  forest h -> h !! x = Some i -> i_entries (f i) = i_entries i -> i_parent (f i) = i_parent i ->
  (i_slot (f i) = i_slot i \/ forall p, ~ child h p x) -> forest (alter f x h).
Proof.
  intros Hf Hx He Hpar Hs. constructor.
  - intros p j k nm c Hp Hk.
    assert (Hpc : exists j0, h !! p = Some j0 /\ i_entries j0 !! k = Some (nm, c)).
    { apply lookup_alter_Some' in Hp as [(-> & i' & Hi' & ->)|[_ Hp]]; [|eauto].
      rewrite Hx in Hi'. injection Hi' as <-. rewrite He in Hk. eauto. }
    destruct Hpc as (j0 & Hp0 & Hk0). destruct (forest_edge _ Hf _ _ _ _ _ Hp0 Hk0) as (jc & Hc & Hcp & Hck).
    destruct (decide (c = x)) as [->|Hne]; [|exists jc; by rewrite lookup_alter_ne].
    rewrite Hx in Hc. injection Hc as <-. exists (f i). rewrite lookup_alter_eq, Hx. split; [done|].
    rewrite Hpar. split; [done|]. destruct Hs as [->|Hn]; [done|]. destruct (Hn p). by exists j0, k, nm.
  - destruct (forest_rank _ Hf) as [r Hr]. exists r. intros p c Hc%(child_alter h x i f); [by apply Hr|done..].
Qed.

Lemma alter_counts (h : gmap Z Inode) x i f :
  h !! x = Some i -> i_parent (f i) = i_parent i -> i_nlookup (f i) <= UINT32_MAX -> i_open_count (f i) <= UINT32_MAX ->
  forall y j, alter f x h !! y = Some j -> exists j0, h !! y = Some j0 /\ i_parent j = i_parent j0 /\
    i_nlookup j = i_nlookup j0 + (if decide (y = x) then i_nlookup (f i) - i_nlookup i else 0) /\
    i_open_count j = i_open_count j0 + (if decide (y = x) then i_open_count (f i) - i_open_count i else 0) /\
    (i_nlookup j0 <= UINT32_MAX -> i_nlookup j <= UINT32_MAX) /\
    (i_open_count j0 <= UINT32_MAX -> i_open_count j <= UINT32_MAX).
Proof.
  intros Hx Hpar Hbn Hbo y j [(-> & i' & Hi' & ->)|[Hne Hy]]%lookup_alter_Some'.
  - rewrite Hx in Hi'. injection Hi' as <-. exists i. rewrite !decide_True by done. split_and!; try done; lia.
  - exists j. rewrite !decide_False by done. split_and!; try done; lia.
Qed.

Lemma alter_kept (h : gmap Z Inode) x i f :
  h !! x = Some i -> i_parent (f i) = i_parent i ->
  forall y j0, h !! y = Some j0 -> exists j, alter f x h !! y = Some j /\ i_parent j = i_parent j0.
Proof.
  intros Hx Hpar y j0 Hy. destruct (decide (y = x)) as [->|Hne]; [|exists j0; by rewrite lookup_alter_ne].
  rewrite Hx in Hy. injection Hy as <-. exists (f i). by rewrite lookup_alter_eq, Hx.
Qed.

Definition with_refs (kernel' : list Z) (refs' : list Ref) (s : Store) : Store :=
  s <| kernel := kernel' |> <| refs := refs' |>.

Lemma inv_update loose s x i f kernel' refs' :
  inv loose s -> heap s !! x = Some i ->
  i_entries (f i) = i_entries i -> i_parent (f i) = i_parent i ->
  (i_slot (f i) = i_slot i \/ forall p, ~ child (heap s) p x) ->
  i_nlookup (f i) <= UINT32_MAX -> i_open_count (f i) <= UINT32_MAX ->
  (forall y, occ y kernel' + occ (Lookup y) refs' =
     occ y (kernel s) + occ (Lookup y) (refs s) + if decide (y = x) then i_nlookup (f i) - i_nlookup i else 0) ->
  (forall y, occ (Pin y) refs' = occ (Pin y) (refs s) + if decide (y = x) then i_open_count (f i) - i_open_count i else 0) ->
  (forall r, r ∈ refs' -> is_Some (heap s !! target r)) ->
  (forall y, Request y ∈ refs' ++ map snd (jobs s) -> y = root s \/ y ∈ kernel') ->
  (forall y, y ∈ kernel' \/ Lookup y ∈ refs' -> is_Some (heap s !! y) /\ y <> root s) ->
  inv loose (with_refs kernel' refs' (update x f s)).
Proof.
  intros Hv Hx He Hpar Hslot Hbn Hbo Hn Ho Hlive Hreq Hk.
  pose proof (child_alter _ x i f Hx He) as Hch.
  assert (Hfl : floating loose (with_refs kernel' refs' (update x f s)) = floating loose s) by done.
  pose proof (alter_counts _ _ _ _ Hx Hpar Hbn Hbo) as Hup. pose proof (alter_kept _ _ _ _ Hx Hpar) as Hdown.
  constructor; rewrite ?Hfl; cbn.
  - apply live_alter, Hv.
  - by eapply forest_alter; [apply Hv|..].
  - intros p Hc%Hch. by eapply (v_top _ _ Hv).
  - intros y j Hy Hr. rewrite live_alter. destruct (Hup _ _ Hy) as (j0 & Hj0 & -> & _). by eapply (v_parent _ _ Hv).
  - apply Hv.
  - intros y Hy. rewrite live_alter. setoid_rewrite Hch. by apply (v_floating _ _ Hv).
  - intros y j Hy Hr. destruct (Hup _ _ Hy) as (j0 & Hj0 & -> & _). rewrite Hch. by apply (v_linked _ _ Hv).
  - intros r [Hr|Hr]%elem_of_all_refs; apply live_alter; [by apply Hlive|].
    apply (v_refs _ _ Hv), elem_of_all_refs. by right.
  - exact Hreq.
  - intros y Hy. rewrite live_alter. apply Hk. by left.
  - intros y [Hy|Hy]%elem_of_all_refs; [apply Hk; by right|].
    apply (v_lookups _ _ Hv), elem_of_all_refs. by right.
  - intros y j (j0 & Hj0 & _ & Hnj & _ & Hb & _)%Hup. destruct (v_nlookup _ _ Hv _ _ Hj0) as [Hq Hqb].
    split; [|by apply Hb]. specialize (Hn y). unfold all_refs in Hq |- *. cbn in Hq |- *. rewrite occ_app in Hq |- *. lia.
  - intros y j (j0 & Hj0 & _ & _ & Hoj & _ & Hb)%Hup. destruct (v_open _ _ Hv _ _ Hj0) as [Hq Hqb].
    split; [|by apply Hb]. specialize (Ho y). unfold all_refs in Hq |- *. cbn in Hq |- *. rewrite occ_app in Hq |- *. lia.
  - intros y parent Hy. destruct (v_retired _ _ Hv _ _ Hy) as (j0 & Hj0 & ->).
    destruct (Hdown _ _ Hj0) as (j & Hj & <-). eauto.
  - intros xs r y Hj Hy. destruct (v_jobs _ _ Hv _ _ _ Hj Hy) as (j0 & Hj0 & <-).
    destruct (Hdown _ _ Hj0) as (j & Hj' & <-). eauto.
  - rewrite (v_cached _ _ Hv). do 3 f_equal. rewrite <- !size_dom. by rewrite dom_alter_L.
  - apply (v_uncounted _ _ Hv).
Qed.

(** ** Changes of the tree *)

(** A change of entries, parents and slots alone. *)
Lemma inv_reshape loose loose' s h' :
  inv loose s -> forest h' ->
  (forall y j', h' !! y = Some j' -> exists j, heap s !! y = Some j /\ i_nlookup j' = i_nlookup j /\
     i_open_count j' = i_open_count j /\ (y ∈ floating [] s -> i_parent j' = i_parent j)) ->
  dom h' = dom (heap s) ->
  (forall p, ~ child h' p (root s)) ->
  (forall y j', h' !! y = Some j' -> y <> root s -> is_Some (heap s !! i_parent j') /\ i_parent j' <> y) ->
  NoDup (floating loose' s) ->
  (forall y, y ∈ floating loose' s -> is_Some (heap s !! y) /\ y <> root s /\ forall p, ~ child h' p y) ->
  (forall y j', h' !! y = Some j' -> y <> root s -> y ∈ floating loose' s \/ child h' (i_parent j') y) ->
  inv loose' (s <| heap := h' |>).
Proof.
  intros Hv Hf Hup Hdom Htop Hpar Hnd Hfl Hli.
  assert (Hlive : forall y, is_Some (heap s !! y) <-> is_Some (h' !! y)).
  { intros y. by rewrite <- !elem_of_dom, Hdom. }
  assert (Hkeep : forall y j, heap s !! y = Some j -> y ∈ floating [] s ->
            exists j', h' !! y = Some j' /\ i_parent j' = i_parent j).
  { intros y j Hy Hfy. destruct (proj1 (Hlive y)) as [j' Hj']; [eauto|].
    destruct (Hup _ _ Hj') as (j0 & Hj0 & _ & _ & Hp). rewrite Hy in Hj0. injection Hj0 as <-. eauto. }
  constructor; cbn.
  - apply Hlive, Hv.
  - done.
  - done.
  - intros y j' Hy Hr. rewrite <- Hlive. by eapply Hpar.
  - done.
  - intros y Hy. rewrite <- Hlive. by apply Hfl.
  - done.
  - intros r Hr. apply Hlive. by apply (v_refs _ _ Hv).
  - apply (v_request _ _ Hv).
  - intros y Hy. rewrite <- Hlive. by apply (v_kernel _ _ Hv).
  - apply (v_lookups _ _ Hv).
  - intros y j' (j & Hj & -> & _)%Hup. by apply (v_nlookup _ _ Hv).
  - intros y j' (j & Hj & _ & -> & _)%Hup. by apply (v_open _ _ Hv).
  - intros y parent Hy. destruct (v_retired _ _ Hv _ _ Hy) as (j & Hj & ->).
    destruct (Hkeep _ _ Hj) as (j' & ? & <-); [apply elem_of_floating; eauto|eauto].
  - intros xs r y Hj Hy. destruct (v_jobs _ _ Hv _ _ _ Hj Hy) as (j & Hj' & <-).
    destruct (Hkeep _ _ Hj') as (j' & ? & <-); [apply elem_of_floating; eauto|eauto].
  - rewrite (v_cached _ _ Hv). by rewrite <- !size_dom, Hdom.
  - apply (v_uncounted _ _ Hv).
Qed.

Section erase.
Context (h : gmap Z Inode) (Hf : forest h) (p k c : Z) (ip : Inode) (nm : bytes).
Context (Hp : h !! p = Some ip) (Hk : i_entries ip !! k = Some (nm, c)).
#[local] Abbreviation h' := (alter (fun i => i <| i_entries := delete k (i_entries i) |>) p h).

Lemma child_erased a b : child h' a b <-> child h a b /\ b <> c.
Proof using All.
  split.
  - intros (i & k' & nm' & Ha & Hb). apply lookup_alter_Some' in Ha as [(-> & i' & Hi' & ->)|[Hne Ha]].
    + cbn in Hb. apply lookup_delete_Some in Hb as [Hkk Hb]. split; [by exists i', k', nm'|]. intros ->.
      rewrite Hp in Hi'. injection Hi' as <-. destruct (forest_edge _ Hf _ _ _ _ _ Hp Hk) as (j & Hj & _ & <-).
      destruct (forest_edge _ Hf _ _ _ _ _ Hp Hb) as (j' & Hj' & _ & <-). congruence.
    + split; [by exists i, k', nm'|]. intros ->. apply Hne, (child_parent h Hf _ _ c); [by exists i, k', nm'|by exists ip, k, nm].
  - intros [(i & k' & nm' & Ha & Hb) Hbc]. destruct (decide (a = p)) as [->|Hne].
    + rewrite Hp in Ha. injection Ha as <-. eexists _, k', nm'. rewrite lookup_alter_eq, Hp. split; [reflexivity|].
      cbn. rewrite lookup_delete_ne; [done|]. intros <-. rewrite Hk in Hb. congruence.
    + exists i, k', nm'. by rewrite lookup_alter_ne.
Qed.

Lemma forest_erased : forest h'.
Proof using All.
  constructor.
  - intros a i k' nm' b Ha Hb. assert (Hab : child h' a b) by (by exists i, k', nm').
    assert (Hold : exists i0, h !! a = Some i0 /\ i_entries i0 !! k' = Some (nm', b)).
    { apply lookup_alter_Some' in Ha as [(-> & i' & Hi' & ->)|[_ Ha]]; [|eauto].
      cbn in Hb. apply lookup_delete_Some in Hb as [_ Hb]. eauto. }
    destruct Hold as (i0 & Hi0 & Hb0). destruct (forest_edge _ Hf _ _ _ _ _ Hi0 Hb0) as (j & Hj & ? & ?).
    destruct (decide (b = p)) as [->|Hne]; [|exists j; by rewrite lookup_alter_ne].
    eexists. rewrite lookup_alter_eq, Hj. split; [reflexivity|]. done.
  - destruct (forest_rank _ Hf) as [r Hr]. exists r. intros a b [Hab _]%child_erased. by apply Hr.
Qed.
End erase.

Lemma floating_app loose more s : floating (loose ++ more) s = floating loose s ++ more.
Proof. unfold floating. by rewrite !app_assoc. Qed.

Lemma erase_slot_inv loose s p k ip nm c :
  inv loose s -> heap s !! p = Some ip -> i_entries ip !! k = Some (nm, c) ->
  inv (loose ++ [c]) (erase_slot p k s).
Proof.
  intros Hv Hp Hk. pose proof (v_forest _ _ Hv) as Hf.
  assert (Hc : child (heap s) p c) by (by exists ip, k, nm).
  pose proof (child_erased _ Hf _ _ _ _ _ Hp Hk) as Hch.
  apply (inv_reshape loose); [done|by eapply forest_erased|..].
  - intros y j' [(-> & i & Hi & ->)|[_ Hy]]%lookup_alter_Some'; [exists i|exists j']; done.
  - apply dom_alter_L.
  - intros a [Ha _]%Hch. by eapply (v_top _ _ Hv).
  - intros y j' [(-> & i & Hi & ->)|[_ Hy]]%lookup_alter_Some' Hr; [exact (v_parent _ _ Hv _ _ Hi Hr)|exact (v_parent _ _ Hv _ _ Hy Hr)].
  - rewrite floating_app. apply NoDup_app. split; [apply Hv|]. split; [|apply NoDup_singleton].
    intros y Hy ->%list_elem_of_singleton. destruct (v_floating _ _ Hv _ Hy) as (_ & _ & Hn). by eapply Hn.
  - intros y. rewrite floating_app, elem_of_app, list_elem_of_singleton. intros [Hy| ->].
    + destruct (v_floating _ _ Hv _ Hy) as (? & ? & Hn). split_and!; [done..|]. intros a [Ha _]%Hch. by eapply Hn.
    + split_and!; [by eapply child_live| |by intros a [_ ?]%Hch]. intros ->. by eapply (v_top _ _ Hv).
  - intros y j' Hy Hr. rewrite floating_app, elem_of_app, list_elem_of_singleton, Hch.
    assert (Hold : exists j, heap s !! y = Some j /\ i_parent j' = i_parent j).
    { apply lookup_alter_Some' in Hy as [(-> & i & Hi & ->)|[_ Hy]]; eauto. }
    destruct Hold as (j & Hj & ->). destruct (v_linked _ _ Hv _ _ Hj Hr); [tauto|]. destruct (decide (y = c)); tauto.
Qed.

(** ** Who holds an inode *)

(** A change of the references, the jobs and the retired inodes alone. *)
Lemma inv_exchange loose loose' s refs' jobs' retired' (s' := s <| refs := refs' |> <| jobs := jobs' |> <| retired_items := retired' |>) :
  inv loose s ->
  floating loose' s' ≡ₚ floating loose s ->
  (forall r, r ∈ all_refs s' -> r ∈ all_refs s \/ exists y, r = Pin y /\ is_Some (heap s !! y)) ->
  (forall y, occ (Lookup y) (all_refs s') = occ (Lookup y) (all_refs s)) ->
  (forall y, occ (Pin y) (all_refs s') + retired_holds retired' y = occ (Pin y) (all_refs s) + retired_holds (retired_items s) y) ->
  (forall x parent, retired' !! x = Some parent -> exists i, heap s !! x = Some i /\ parent = Some (i_parent i)) ->
  (forall xs r x, (xs, r) ∈ jobs' -> x ∈ xs -> exists i, heap s !! x = Some i /\ i_parent i = target r) ->
  inv loose' s'.
Proof.
  intros Hv Hfl Hrefs Hlk Hpin Hret Hjobs. constructor; cbn.
  - apply Hv.
  - apply Hv.
  - apply (v_top _ _ Hv).
  - apply (v_parent _ _ Hv).
  - rewrite Hfl. apply Hv.
  - intros y. rewrite Hfl. apply (v_floating _ _ Hv).
  - intros y i. rewrite Hfl. apply (v_linked _ _ Hv).
  - intros r [Hr|(y & -> & Hy)]%Hrefs; [by apply (v_refs _ _ Hv)|done].
  - intros y [Hr|(? & [=] & _)]%Hrefs. by apply (v_request _ _ Hv).
  - apply (v_kernel _ _ Hv).
  - intros y [Hr|(? & [=] & _)]%Hrefs. by apply (v_lookups _ _ Hv).
  - intros y i Hy. rewrite Hlk. by apply (v_nlookup _ _ Hv).
  - intros y i Hy. destruct (v_open _ _ Hv _ _ Hy) as [-> Hb]. rewrite Hpin in *. done.
  - done.
  - done.
  - apply (v_cached _ _ Hv).
  - apply (v_uncounted _ _ Hv).
Qed.

Lemma job_items_cons xs r js : job_items ((xs, r) :: js) = xs ++ job_items js.
Proof. done. Qed.
Lemma job_items_app l k : job_items (l ++ k) = job_items l ++ job_items k.
Proof. induction l as [|[xs r] l IH]; [done|]. cbn [app]. by rewrite !job_items_cons, IH, app_assoc. Qed.

(** What a section has taken out becomes the work of an operation that holds the directory. *)
Lemma loose_to_job xs s r refs' :
  inv xs s -> refs s ≡ₚ r :: refs' ->
  (forall x, x ∈ xs -> exists i, heap s !! x = Some i /\ i_parent i = target r) ->
  inv [] (s <| refs := refs' |> <| jobs := (xs, r) :: jobs s |>).
Proof.
  intros Hv Hr Hxs. assert (Hall : all_refs (s <| refs := refs' |> <| jobs := (xs, r) :: jobs s |>) ≡ₚ all_refs s).
  { unfold all_refs. cbn. rewrite Hr. solve_Permutation. }
  apply (inv_exchange xs _ _ refs' ((xs, r) :: jobs s) (retired_items s)); try done.
  - unfold floating. cbn. rewrite app_nil_r, job_items_cons. solve_Permutation.
  - intros r' Hr'. left. by rewrite <- Hall.
  - intros y. by apply occ_perm.
  - intros y. by rewrite (occ_perm _ _ _ Hall).
  - apply (v_retired _ _ Hv).
  - intros ys r' x [[= -> ->]|Hj]%elem_of_cons Hx; [by apply Hxs|by eapply (v_jobs _ _ Hv)].
Qed.

Lemma job_done s r before after :
  inv [] s -> jobs s = before ++ ([], r) :: after ->
  inv [] (s <| refs := r :: refs s |> <| jobs := before ++ after |>).
Proof.
  intros Hv Hj. assert (Hall : all_refs (s <| refs := r :: refs s |> <| jobs := before ++ after |>) ≡ₚ all_refs s).
  { unfold all_refs. cbn. rewrite Hj, !map_app. cbn. solve_Permutation. }
  apply (inv_exchange [] _ _ (r :: refs s) (before ++ after) (retired_items s)); try done.
  - unfold floating. cbn. by rewrite Hj, !job_items_app, job_items_cons.
  - intros r' Hr'. left. by rewrite <- Hall.
  - intros y. by apply occ_perm.
  - intros y. by rewrite (occ_perm _ _ _ Hall).
  - apply (v_retired _ _ Hv).
  - intros ys r' x Hin. apply (v_jobs _ _ Hv). rewrite Hj. set_solver.
Qed.

(** The pin of the parent goes to the table of retired inodes, and back to the sweep. *)
Lemma pin_to_retired s x i xs r refs' before after :
  inv [] s -> jobs s = before ++ (x :: xs, r) :: after -> heap s !! x = Some i -> refs s = Pin (i_parent i) :: refs' ->
  inv [] (s <| refs := refs' |> <| jobs := before ++ (xs, r) :: after |>
            <| retired_items := <[x := Some (i_parent i)]> (retired_items s) |>).
Proof.
  intros Hv Hj Hx Hr.
  assert (Hnr : retired_items s !! x = None).
  { destruct (retired_items s !! x) eqn:E; [|done]. pose proof (v_nodup _ _ Hv) as Hnd. unfold floating in Hnd.
    rewrite Hj, job_items_app, job_items_cons in Hnd. exfalso. revert Hnd. rewrite app_nil_r.
    intros (_ & Hd & _)%NoDup_app. apply (Hd x); [rewrite !elem_of_app, elem_of_cons; tauto|]. apply list_elem_of_fmap. exists (x, o).
    by rewrite elem_of_map_to_list. }
  assert (Hall : Pin (i_parent i) :: all_refs (s <| refs := refs' |> <| jobs := before ++ (xs, r) :: after |>
                  <| retired_items := <[x := Some (i_parent i)]> (retired_items s) |>) ≡ₚ all_refs s).
  { unfold all_refs. cbn. rewrite Hj, Hr, !map_app. done. }
  apply (inv_exchange [] _ _ refs' (before ++ (xs, r) :: after) (<[x := Some (i_parent i)]> (retired_items s))); try done.
  - unfold floating. cbn. rewrite Hj, !job_items_app, !job_items_cons, (map_to_list_insert _ _ _ Hnr). cbn. solve_Permutation.
  - intros r' Hr'. left. rewrite <- Hall. by apply elem_of_cons; right.
  - intros y. rewrite <- (occ_perm _ _ _ Hall). by rewrite occ_cons, decide_False.
  - intros y. rewrite <- (occ_perm _ _ _ Hall), occ_cons, retired_holds_insert by done.
    destruct (decide (i_parent i = y)) as [->|Hne]; [rewrite !decide_True by done; lia|].
    rewrite !decide_False by congruence. lia.
  - intros y parent [[<- <-]|[_ Hy]]%lookup_insert_Some; [eauto|by apply (v_retired _ _ Hv)].
  - intros ys r' y Hin Hy. rewrite elem_of_app, elem_of_cons in Hin.
    destruct Hin as [Hin|[[= -> ->]|Hin]].
    + apply (v_jobs _ _ Hv ys r' y); [|done]. rewrite Hj. apply elem_of_app. by left.
    + apply (v_jobs _ _ Hv (x :: xs) r y); [|by apply elem_of_cons; right]. rewrite Hj. apply elem_of_app. right. constructor.
    + apply (v_jobs _ _ Hv ys r' y); [|done]. rewrite Hj. apply elem_of_app. right. by apply elem_of_cons; right.
Qed.

Lemma retired_to_pin s x p :
  inv [] s -> retired_items s !! x = Some (Some p) ->
  inv [x] (s <| refs := Pin p :: refs s |> <| retired_items := delete x (retired_items s) |>).
Proof.
  intros Hv Hx.
  assert (Hp : is_Some (heap s !! p)).
  { destruct (v_retired _ _ Hv _ _ Hx) as (i & Hi & [= ->]). apply (v_parent _ _ Hv _ _ Hi).
    apply (v_floating _ _ Hv). apply elem_of_floating. rewrite Hx. eauto. }
  apply (inv_exchange [] _ _ (Pin p :: refs s) (jobs s) (delete x (retired_items s))); try done.
  - unfold floating. cbn. rewrite <- (insert_delete_id _ _ _ Hx) at 2.
    rewrite (map_to_list_insert _ _ _ (lookup_delete_eq (retired_items s) x)). cbn. solve_Permutation.
  - intros r [->|Hr]%elem_of_cons; [right; eauto|by left].
  - intros y. rewrite (retired_holds_delete _ _ _ y Hx).
    match goal with |- occ _ ?l + _ = _ => change l with (Pin p :: all_refs s) end. rewrite occ_cons.
    destruct (decide (p = y)) as [->|Hne]; [rewrite !decide_True by done; lia|].
    rewrite !decide_False by congruence. lia.
  - intros y parent [_ Hy]%lookup_delete_Some. by apply (v_retired _ _ Hv).
  - apply (v_jobs _ _ Hv).
Qed.

(** ** A new child *)

Section allocate.
Context (s : Store) (new p slot : Z) (directory : bool) (name : bytes) (ip : Inode).
Context (Hnew : heap s !! new = None) (Hp : heap s !! p = Some ip) (Hslot : i_entries ip !! slot = None).
#[local] Abbreviation made := (mkInode p directory false false slot 0 0 0 ∅).
#[local] Abbreviation linked := (ip <| i_entries := <[slot := (name, new)]> (i_entries ip) |>).
#[local] Abbreviation h' := (heap (allocate_inode new p slot directory name s)).

Lemma new_ne : new <> p.
Proof using All. congruence. Qed.

Lemma lookup_allocated y j :
  h' !! y = Some j <-> (y = new /\ j = made) \/ (y = p /\ j = linked) \/ (y <> new /\ y <> p /\ heap s !! y = Some j).
Proof using All.
  pose proof new_ne. cbn. destruct (decide (y = p)) as [->|Hyp].
  - rewrite lookup_alter_eq, lookup_insert_ne, Hp by done. cbn. naive_solver.
  - rewrite lookup_alter_ne by done. destruct (decide (y = new)) as [->|Hyn].
    + rewrite lookup_insert_eq. naive_solver.
    + rewrite lookup_insert_ne by done. naive_solver.
Qed.

Lemma live_allocated y : is_Some (h' !! y) <-> y = new \/ is_Some (heap s !! y).
Proof using All.
  unfold is_Some. setoid_rewrite lookup_allocated. split; [naive_solver|].
  intros [->|[j Hj]]; [eauto|]. destruct (decide (y = p)) as [->|]; [eauto|].
  exists j. right; right. split_and!; [congruence|done..].
Qed.

Lemma child_allocated a b : child h' a b <-> child (heap s) a b \/ (a = p /\ b = new).
Proof using All.
  pose proof new_ne. unfold child. setoid_rewrite lookup_allocated. split.
  - intros (i & k & nm & [[-> ->]|[[-> ->]|(_ & _ & Ha)]] & Hk); cbn in Hk; [done| |left; eauto].
    apply lookup_insert_Some in Hk as [[<- [= <- <-]]|[_ Hk]]; [by right|left; eauto].
  - intros [(i & k & nm & Ha & Hk)|[-> ->]].
    + destruct (decide (a = p)) as [->|]; [|exists i, k, nm; split; [|done]; right; right; split_and!; congruence].
      rewrite Hp in Ha. injection Ha as <-. eexists _, k, nm. split; [by right; left|]. cbn.
      rewrite lookup_insert_ne; [done|congruence].
    + eexists _, slot, name. split; [by right; left|]. cbn. by rewrite lookup_insert_eq.
Qed.

Lemma allocated_old y j :
  h' !! y = Some j -> y <> new ->
  exists j0, heap s !! y = Some j0 /\ i_parent j = i_parent j0 /\ i_nlookup j = i_nlookup j0 /\ i_open_count j = i_open_count j0.
Proof using All. intros [[-> _]|[[-> ->]|(_ & _ & Hy)]]%lookup_allocated Hne; [done|exists ip|exists j]; done. Qed.

Lemma allocated_kept y j0 : heap s !! y = Some j0 -> exists j, h' !! y = Some j /\ i_parent j = i_parent j0.
Proof using All.
  intros Hy. destruct (decide (y = p)) as [->|].
  - rewrite Hp in Hy. injection Hy as <-. eexists. split; [apply lookup_allocated; by right; left|done].
  - exists j0. split; [|done]. apply lookup_allocated. right; right. split_and!; congruence.
Qed.

Lemma forest_allocated : forest (heap s) -> forest h'.
Proof using All.
  intros Hf. pose proof new_ne as Hne. constructor.
  - intros a i k nm b Ha Hk.
    assert (Hold : (exists i0, heap s !! a = Some i0 /\ i_entries i0 !! k = Some (nm, b)) \/ (a = p /\ k = slot /\ b = new)).
    { apply lookup_allocated in Ha as [[-> ->]|[[-> ->]|(_ & _ & Ha)]]; cbn in Hk; [done| |eauto].
      apply lookup_insert_Some in Hk as [[<- [= <- <-]]|[_ Hk]]; eauto. }
    destruct Hold as [(i0 & Hi0 & Hk0)|(-> & -> & ->)].
    + destruct (forest_edge _ Hf _ _ _ _ _ Hi0 Hk0) as (j & Hj & ? & ?). destruct (decide (b = p)) as [->|].
      * rewrite Hp in Hj. injection Hj as <-. eexists. split; [apply lookup_allocated; by right; left|]. done.
      * exists j. split; [|done]. apply lookup_allocated. right; right. split_and!; congruence.
    + exists made. split; [|done]. apply lookup_allocated. by left.
  - destruct (forest_rank _ Hf) as [f Hr]. exists (fun y => if decide (y = new) then S (f p) else f y).
    intros a b [Hab|[-> ->]]%child_allocated.
    + rewrite (decide_False (P := a = new)), (decide_False (P := b = new)); [by apply Hr| |].
      * intros ->. apply (child_live _ Hf) in Hab as [? ?]. congruence.
      * intros ->. destruct Hab as (? & ? & ? & ? & _). congruence.
    + rewrite (decide_False (P := p = new)), decide_True by congruence. lia.
Qed.
End allocate.

Lemma occ_absent {A} `{EqDecision A} (x : A) l : x ∉ l -> occ x l = 0.
Proof. intros Hx. apply zsum_zero. intros y Hy. case_decide; [by subst|done]. Qed.

Lemma retired_holds_absent m x : (forall y, m !! y <> Some (Some x)) -> retired_holds m x = 0.
Proof.
  intros Hx. apply zsum_zero. intros [y parent] Hy%elem_of_map_to_list. case_decide; [|done]. subst. by apply Hx in Hy.
Qed.

(** A freed address is not known to anybody. *)
Lemma absent_unknown loose s x :
  inv loose s -> heap s !! x = None ->
  occ x (kernel s) = 0 /\ (forall r, r ∈ all_refs s -> target r <> x) /\ retired_holds (retired_items s) x = 0 /\
  x ∉ floating loose s.
Proof.
  intros Hv Hx. split_and!.
  - apply occ_absent. intros [[? ?] _]%(v_kernel _ _ Hv). congruence.
  - intros r Hr <-. destruct (v_refs _ _ Hv _ Hr). congruence.
  - apply retired_holds_absent. intros y Hy. destruct (v_retired _ _ Hv _ _ Hy) as (i & Hi & [= ->]).
    destruct (v_parent _ _ Hv _ _ Hi) as [[? ?] _]; [|congruence].
    apply (v_floating _ _ Hv), elem_of_floating. rewrite Hy. eauto.
  - intros [[? ?] _]%(v_floating _ _ Hv). congruence.
Qed.

Lemma allocate_inv loose s new p slot directory name ip :
  inv loose s -> heap s !! new = None -> heap s !! p = Some ip -> i_entries ip !! slot = None ->
  inv loose (allocate_inode new p slot directory name s).
Proof.
  intros Hv Hnew Hp Hslot. pose proof (lookup_allocated _ _ _ slot directory name _ Hnew Hp Hslot) as Hlk.
  pose proof (live_allocated _ _ _ slot directory name _ Hnew Hp Hslot) as Hlive.
  pose proof (child_allocated _ _ _ slot directory name _ Hnew Hp Hslot) as Hch.
  destruct (absent_unknown _ _ _ Hv Hnew) as (Hk0 & Hr0 & Hh0 & Hf0).
  assert (Hnr : new <> root s) by (intros ->; destruct (v_root _ _ Hv); congruence).
  pose proof (allocated_old _ _ _ slot directory name _ Hnew Hp Hslot) as Hold.
  pose proof (allocated_kept _ _ _ slot directory name _ Hnew Hp Hslot) as Hkeep.
  constructor; try (change (all_refs (allocate_inode _ _ _ _ _ _)) with (all_refs s));
    try (change (floating loose (allocate_inode _ _ _ _ _ _)) with (floating loose s));
    try (change (root (allocate_inode _ _ _ _ _ _)) with (root s)).
  - apply Hlive. right. apply Hv.
  - eapply forest_allocated; [done..|apply Hv].
  - intros a [Ha|[_ ?]]%Hch; [by eapply (v_top _ _ Hv)|congruence].
  - intros y j Hy Hr. destruct (decide (y = new)) as [->|Hne].
    + apply Hlk in Hy as [[_ ->]|[[? _]|[? _]]]; [|congruence..]. cbn. split; [|congruence]. apply Hlive. right. eauto.
    + destruct (Hold _ _ Hy Hne) as (j0 & Hj0 & -> & _). destruct (v_parent _ _ Hv _ _ Hj0 Hr).
      split; [|done]. apply Hlive. by right.
  - apply Hv.
  - intros y Hy. destruct (v_floating _ _ Hv _ Hy) as (? & ? & Hn). split; [apply Hlive; by right|]. split; [done|].
    intros a [Ha|[_ ->]]%Hch; [by eapply Hn|done].
  - intros y j Hy Hr. destruct (decide (y = new)) as [->|Hne].
    + right. apply Hlk in Hy as [[_ ->]|[[? _]|[? _]]]; [|congruence..]. apply Hch. by right.
    + destruct (Hold _ _ Hy Hne) as (j0 & Hj0 & -> & _). rewrite Hch.
      destruct (v_linked _ _ Hv _ _ Hj0 Hr); tauto.
  - intros r Hr. apply Hlive. right. by apply (v_refs _ _ Hv).
  - apply (v_request _ _ Hv).
  - intros y Hy. destruct (v_kernel _ _ Hv _ Hy). split; [|done]. apply Hlive. by right.
  - apply (v_lookups _ _ Hv).
  - intros y j Hy. destruct (decide (y = new)) as [->|Hne].
    + apply Hlk in Hy as [[_ ->]|[[? _]|[? _]]]; [|congruence..]. cbn. rewrite Hk0, occ_absent; [done|].
      intros Hin. by apply (Hr0 _ Hin).
    + destruct (Hold _ _ Hy Hne) as (j0 & Hj0 & _ & -> & _). by apply (v_nlookup _ _ Hv).
  - intros y j Hy. destruct (decide (y = new)) as [->|Hne].
    + apply Hlk in Hy as [[_ ->]|[[? _]|[? _]]]; [|congruence..]. cbn. rewrite Hh0, occ_absent; [done|].
      intros Hin. by apply (Hr0 _ Hin).
    + destruct (Hold _ _ Hy Hne) as (j0 & Hj0 & _ & _ & ->). by apply (v_open _ _ Hv).
  - intros y parent Hy. destruct (v_retired _ _ Hv _ _ Hy) as (j0 & Hj0 & ->).
    destruct (Hkeep _ _ Hj0) as (j & ? & <-). eauto.
  - intros xs r y Hj Hy. destruct (v_jobs _ _ Hv _ _ _ Hj Hy) as (j0 & Hj0 & <-).
    destruct (Hkeep _ _ Hj0) as (j & ? & <-). eauto.
  - cbn. pose proof (v_cached _ _ Hv).
    rewrite <- (size_dom (alter _ _ _)), dom_alter_L, size_dom, map_size_insert_None by done. lia.
  - cbn. pose proof (v_uncounted _ _ Hv). lia.
Qed.

(** ** Putting an inode back *)

Definition link_slot (x q slot : Z) (name : bytes) (s : Store) : Store :=
  update x (fun i => i <| i_slot := slot |> <| i_parent := q |> <| i_detached := false |>)
    (update q (fun q => q <| i_entries := <[slot := (name, x)]> (i_entries q) |>) s).

Section link.
Context (s : Store) (x q slot : Z) (name : bytes) (ix iq : Inode) (l : list Z).
Context (Hv : inv [x] s) (Hx : heap s !! x = Some ix) (Hq : heap s !! q = Some iq) (Hslot : i_entries iq !! slot = None).
Context (Hl : tree s x = Some l) (Hql : q ∉ l).
#[local] Abbreviation h' := (heap (link_slot x q slot name s)).

Lemma link_ne : x <> q.
Proof using All. intros ->. apply Hql. by apply (item_tree_reach _ _ _ _ _ Hl). Qed.

Lemma lookup_linked y j :
  h' !! y = Some j <->
  (y = x /\ j = ix <| i_slot := slot |> <| i_parent := q |> <| i_detached := false |>) \/
  (y = q /\ j = iq <| i_entries := <[slot := (name, x)]> (i_entries iq) |>) \/
  (y <> x /\ y <> q /\ heap s !! y = Some j).
Proof using All.
  pose proof link_ne. cbn. destruct (decide (y = x)) as [->|Hyx].
  - rewrite lookup_alter_eq, lookup_alter_ne, Hx by done. cbn. naive_solver.
  - rewrite lookup_alter_ne by done. destruct (decide (y = q)) as [->|Hyq].
    + rewrite lookup_alter_eq, Hq. cbn. naive_solver.
    + rewrite lookup_alter_ne by done. naive_solver.
Qed.

Lemma child_linked a b : child h' a b <-> child (heap s) a b \/ (a = q /\ b = x).
Proof using All.
  pose proof link_ne. unfold child. setoid_rewrite lookup_linked. split.
  - intros (i & k & nm & [[-> ->]|[[-> ->]|(_ & _ & Ha)]] & Hk); cbn in Hk; [left; eauto| |left; eauto].
    apply lookup_insert_Some in Hk as [[<- [= <- <-]]|[_ Hk]]; [by right|left; eauto].
  - intros [(i & k & nm & Ha & Hk)|[-> ->]].
    + destruct (decide (a = x)) as [->|]; [rewrite Hx in Ha; injection Ha as <-; eexists _, k, nm; split; [by left|done]|].
      destruct (decide (a = q)) as [->|]; [|exists i, k, nm; split; [by do 2 right|done]].
      rewrite Hq in Ha. injection Ha as <-. eexists _, k, nm. split; [by right; left|]. cbn.
      rewrite lookup_insert_ne; [done|congruence].
    + eexists _, slot, name. split; [by right; left|]. cbn. by rewrite lookup_insert_eq.
Qed.

Lemma linked_top a : ~ child (heap s) a x.
Proof using All.
  destruct (v_floating _ _ Hv x) as (_ & _ & Hn); [|apply Hn]. apply elem_of_floating. right; right. constructor.
Qed.

Lemma forest_linked : forest h'.
Proof using All.
  pose proof link_ne as Hne. pose proof (v_forest _ _ Hv) as Hf. constructor.
  - intros a i k nm b Ha Hk.
    assert (Hold : (exists i0, heap s !! a = Some i0 /\ i_entries i0 !! k = Some (nm, b)) \/ (k = slot /\ a = q /\ b = x)).
    { apply lookup_linked in Ha as [[-> ->]|[[-> ->]|(_ & _ & Ha)]]; cbn in Hk; [eauto| |eauto].
      apply lookup_insert_Some in Hk as [[<- [= <- <-]]|[_ Hk]]; eauto. }
    destruct Hold as [(i0 & Hi0 & Hk0)|(-> & -> & ->)].
    + assert (Hbx : b <> x) by (intros ->; apply (linked_top a); by exists i0, k, nm).
      destruct (forest_edge _ Hf _ _ _ _ _ Hi0 Hk0) as (j & Hj & ? & ?). destruct (decide (b = q)) as [->|].
      * rewrite Hq in Hj. injection Hj as <-. eexists. split; [apply lookup_linked; by right; left|]. done.
      * exists j. split; [|done]. apply lookup_linked. by do 2 right.
    + eexists. split; [apply lookup_linked; by left|]. done.
  - destruct (forest_rank _ Hf) as [f Hr]. exists (fun y => if decide (y ∈ l) then (f y + S (f q))%nat else f y).
    assert (Hin : forall a b, child (heap s) a b -> a ∈ l <-> b ∈ l).
    { intros a b Hab. rewrite !(item_tree_reach _ _ _ _ _ Hl). split; [intros; by eapply rtc_r|].
      intros [<-|(a' & Ha' & Hab')]%rtc_inv_r; [by apply linked_top in Hab|].
      by rewrite (child_parent _ Hf _ _ _ Hab Hab'). }
    assert (Hxl : x ∈ l) by (by apply (item_tree_reach _ _ _ _ _ Hl)).
    intros a b [Hab|[-> ->]]%child_linked.
    + pose proof (Hin _ _ Hab). pose proof (Hr _ _ Hab). do 2 case_decide; try tauto; lia.
    + rewrite decide_False, decide_True by done. lia.
Qed.

Lemma link_inv : inv [] (link_slot x q slot name s).
Proof using All.
  pose proof link_ne as Hne. pose proof lookup_linked as Hlk. pose proof child_linked as Hch.
  assert (Hnx : x ∉ floating [] s).
  { pose proof (v_nodup _ _ Hv) as Hnd. change [x] with ([] ++ [x]) in Hnd. rewrite floating_app in Hnd.
    apply NoDup_app in Hnd as (_ & Hd & _). intros Hin. apply (Hd _ Hin). constructor. }
  assert (Hfx : x ∈ floating [x] s) by (apply elem_of_floating; right; right; constructor).
  assert (Hff : forall y, y ∈ floating [] s -> y ∈ floating [x] s).
  { intros y. change [x] with ([] ++ [x]). rewrite floating_app, elem_of_app. tauto. }
  assert (Hold : forall y j, h' !! y = Some j -> y <> x -> exists j0, heap s !! y = Some j0 /\ i_parent j = i_parent j0).
  { intros y j [[-> _]|[[-> ->]|(_ & _ & Hy)]]%Hlk Hyx; [done|exists iq|exists j]; done. }
  apply (inv_reshape [x] [] s); [done|apply forest_linked|..].
  - intros y j [[-> ->]|[[-> ->]|(_ & _ & Hy)]]%Hlk; [exists ix|exists iq|exists j]; split_and!; done.
  - cbn; by rewrite !dom_alter_L.
  - intros a [Ha|[_ Hr]]%Hch; [by eapply (v_top _ _ Hv)|]. by apply (v_floating _ _ Hv) in Hfx as (_ & ? & _).
  - intros y j Hy Hr. destruct (decide (y = x)) as [->|Hyx].
    + apply Hlk in Hy as [[_ ->]|[[? _]|[? _]]]; [|done..]. cbn. split; [eauto|done].
    + destruct (Hold _ _ Hy Hyx) as (j0 & Hj0 & ->). by apply (v_parent _ _ Hv).
  - pose proof (v_nodup _ _ Hv) as Hnd. change [x] with ([] ++ [x]) in Hnd. rewrite floating_app in Hnd.
    by apply NoDup_app in Hnd as (? & _).
  - intros y Hy. destruct (v_floating _ _ Hv y) as (? & ? & Hn); [by apply Hff|]. split_and!; [done..|].
    intros a [Ha|[_ ->]]%Hch; [by eapply Hn|done].
  - intros y j Hy Hr. destruct (decide (y = x)) as [->|Hyx].
    + right. apply Hlk in Hy as [[_ ->]|[[? _]|[? _]]]; [|done..]. apply Hch. by right.
    + destruct (Hold _ _ Hy Hyx) as (j0 & Hj0 & ->). rewrite Hch.
      destruct (v_linked _ _ Hv _ _ Hj0 Hr) as [Hin|]; [|tauto].
      change [x] with ([] ++ [x]) in Hin. rewrite floating_app, elem_of_app, list_elem_of_singleton in Hin. tauto.
Qed.
End link.

(** ** The operations keep the invariant *)

Lemma with_refs_same s : with_refs (kernel s) (refs s) s = s.
Proof. by destruct s. Qed.

Lemma update_absent s x f : heap s !! x = None -> update x f s = s.
Proof. intros Hx. unfold update. rewrite alter_id; [by destruct s|]. intros i Hi. congruence. Qed.

(** Flags, generations and the slot of an inode that no directory has. *)
Lemma flags_inv loose s x f :
  inv loose s ->
  (forall i, heap s !! x = Some i -> i_entries (f i) = i_entries i /\ i_parent (f i) = i_parent i /\
     i_nlookup (f i) = i_nlookup i /\ i_open_count (f i) = i_open_count i /\
     (i_slot (f i) = i_slot i \/ forall p, ~ child (heap s) p x)) ->
  inv loose (update x f s).
Proof.
  intros Hv Hf. destruct (heap s !! x) as [i|] eqn:Hx; [|by rewrite update_absent].
  destruct (Hf i eq_refl) as (He & Hp & Hn & Ho & Hs). rewrite <- (with_refs_same (update x f s)).
  apply (inv_update loose s x i f (kernel s) (refs s)); try done.
  - rewrite Hn. by apply (v_nlookup _ _ Hv _ _ Hx).
  - rewrite Ho. by apply (v_open _ _ Hv _ _ Hx).
  - intros y. rewrite Hn, Z.sub_diag. case_decide; lia.
  - intros y. rewrite Ho, Z.sub_diag. case_decide; lia.
  - intros r Hr. apply (v_refs _ _ Hv), elem_of_all_refs. by left.
  - apply (v_request _ _ Hv).
  - intros y [Hy|Hy]; [by apply (v_kernel _ _ Hv)|]. split.
    + apply (v_refs _ _ Hv (Lookup y)), elem_of_all_refs. by left.
    + apply (v_lookups _ _ Hv), elem_of_all_refs. by left.
Qed.

Lemma set_detached_inv loose s x : inv loose s -> inv loose (set_detached x s).
Proof. intros Hv. apply flags_inv; [done|]. intros i _. cbn. auto 6. Qed.

Lemma retain_count_some n m : retain_inode_count n = Some m -> n <= UINT32_MAX -> m = n + 1 /\ m <= UINT32_MAX.
Proof. unfold retain_inode_count. case_match eqn:E; [done|]. intros [= <-] ?. apply Z.eqb_neq in E. lia. Qed.

(** Taking and giving back references and lookups; [kernel'] is what the kernel knows then. *)
Lemma counts_inv loose s x i n o kernel' refs' :
  inv loose s -> heap s !! x = Some i -> n <= UINT32_MAX -> o <= UINT32_MAX ->
  (forall y, occ y kernel' + occ (Lookup y) refs' =
     occ y (kernel s) + occ (Lookup y) (refs s) + if decide (y = x) then n - i_nlookup i else 0) ->
  (forall y, occ (Pin y) refs' = occ (Pin y) (refs s) + if decide (y = x) then o - i_open_count i else 0) ->
  (forall r, r ∈ refs' -> r ∈ refs s \/ (target r = x /\ (x <> root s \/ r = Pin x))) ->
  (forall y, Request y ∈ refs' ++ map snd (jobs s) -> y = root s \/ y ∈ kernel') ->
  (forall y, y ∈ kernel' -> y ∈ kernel s \/ Lookup y ∈ refs s) ->
  inv loose (with_refs kernel' refs' (update x (fun i => i <| i_nlookup := n |> <| i_open_count := o |>) s)).
Proof.
  intros Hv Hx Hn Ho Hns Hos Hrefs Hreq Hk.
  assert (Hr : forall r, r ∈ refs s -> is_Some (heap s !! target r)).
  { intros r Hr. apply (v_refs _ _ Hv), elem_of_all_refs. by left. }
  assert (Hlk : forall y, Lookup y ∈ refs s -> y <> root s).
  { intros y Hy. apply (v_lookups _ _ Hv), elem_of_all_refs. by left. }
  apply (inv_update loose s x i); try done; [by left|..].
  - intros r [H|[-> _]]%Hrefs; [by apply Hr|eauto].
  - intros y [[H|H]%Hk|H].
    + by apply (v_kernel _ _ Hv).
    + split; [by apply (Hr (Lookup y))|by apply Hlk].
    + apply Hrefs in H as [H|[<- [Hroot|[=]]]]; [split; [by apply (Hr (Lookup y))|by apply Hlk]|]. cbn in *. eauto.
Qed.

Lemma update_ext s x i f g : heap s !! x = Some i -> f i = g i -> update x f s = update x g s.
Proof.
  intros Hx Hfg. unfold update. assert (alter f x (heap s) = alter g x (heap s)) as ->; [|done].
  apply alter_ext. intros j Hj. congruence.
Qed.

Lemma retain_open_inv loose s s' x :
  inv loose s -> retain_open s x = (s', true) -> inv loose (s' <| refs := Pin x :: refs s |>).
Proof.
  intros Hv. unfold retain_open. destruct (heap s !! x) as [i|] eqn:Hx; [|done].
  destruct (retain_inode_count (i_open_count i)) as [n|] eqn:E; [|done]. intros [= <-].
  destruct (retain_count_some _ _ E) as [-> Hb]; [by apply (v_open _ _ Hv _ _ Hx)|].
  rewrite (update_ext s x i _ (fun j => j <| i_nlookup := i_nlookup i |> <| i_open_count := i_open_count i + 1 |>) Hx)
    by (by destruct i).
  apply (counts_inv loose s x i _ _ (kernel s) (Pin x :: refs s)); try done.
  - by apply (v_nlookup _ _ Hv _ _ Hx).
  - intros y. rewrite occ_cons, decide_False by done. case_decide; lia.
  - intros y. rewrite occ_cons. destruct (decide (y = x)) as [->|]; [rewrite decide_True by done; lia|].
    rewrite decide_False by congruence. lia.
  - intros r [->|Hr]%elem_of_cons; [right; split; [done|by right]|by left].
  - intros y [[=]|Hy]%elem_of_cons. by apply (v_request _ _ Hv).
  - by left.
Qed.

Lemma release_open_inv loose s x refs' :
  inv loose s -> refs s ≡ₚ Pin x :: refs' -> inv loose (release_open s x <| refs := refs' |>).
Proof.
  intros Hv Hr. assert (Hin : Pin x ∈ all_refs s) by (apply elem_of_all_refs; left; rewrite Hr; constructor).
  destruct (v_refs _ _ Hv _ Hin) as [i Hx]. cbn in Hx. destruct (v_open _ _ Hv _ _ Hx) as [Ho Hb].
  pose proof (occ_pos _ _ Hin). pose proof (retired_holds_nonneg (retired_items s) x).
  unfold release_open. rewrite (update_ext s x i _ (fun j => j <| i_nlookup := i_nlookup i |> <| i_open_count := i_open_count i - 1 |>) Hx).
  2: { unfold release_inode_count. rewrite (proj2 (Z.eqb_neq _ _)) by lia. by destruct i. }
  apply (counts_inv loose s x i _ _ (kernel s) refs'); try done.
  - by apply (v_nlookup _ _ Hv _ _ Hx).
  - lia.
  - intros y. rewrite (occ_perm _ _ _ Hr), occ_cons, decide_False by done. case_decide; lia.
  - intros y. rewrite (occ_perm _ _ _ Hr), occ_cons. destruct (decide (y = x)) as [->|]; [rewrite decide_True by done; lia|].
    rewrite decide_False by congruence. lia.
  - intros r Hr'. left. rewrite Hr. by apply elem_of_cons; right.
  - intros y Hy. apply (v_request _ _ Hv). unfold all_refs. rewrite Hr. by apply elem_of_cons; right.
  - by left.
Qed.

Lemma cached_child_child s p name c i : cached_child s p name = Some (c, i) -> child (heap s) p c /\ heap s !! c = Some i.
Proof.
  unfold cached_child, find_name. destruct (heap s !! p) as [ip|] eqn:Hp; [|done]. case_match; [done|].
  destruct (filter _ _) as [|[k [nm c']] l] eqn:E; [done|].
  assert (Hin : (k, (nm, c')) ∈ map_to_list (i_entries ip)).
  { assert ((k, (nm, c')) ∈ filter (fun '(_, (n, _)) => n = name) (map_to_list (i_entries ip))) as [_ ?]%list_elem_of_filter; [|done].
    rewrite E. constructor. }
  apply elem_of_map_to_list in Hin. destruct (heap s !! c') as [j|] eqn:Hc; [|done]. case_match; [done|].
  intros [= <- <-]. split; [|done]. by exists ip, k, nm.
Qed.

Lemma lookup_child_inv s s' p name c :
  inv [] s -> lookup_child s p name = (s', Some c) -> inv [] (s' <| refs := Lookup c :: refs s |>).
Proof.
  intros Hv. unfold lookup_child. destruct (cached_child s p name) as [[c' i]|] eqn:Hc; [|done].
  apply cached_child_child in Hc as [Hc Hx]. destruct (retain_inode_count _) as [n|] eqn:E; [|done]. intros [= <- ->].
  destruct (retain_count_some _ _ E) as [-> Hb]; [by apply (v_nlookup _ _ Hv _ _ Hx)|].
  rewrite (update_ext s c i _ (fun j => j <| i_nlookup := i_nlookup i + 1 |> <| i_open_count := i_open_count i |>) Hx)
    by (by destruct i).
  apply (counts_inv [] s c i _ _ (kernel s) (Lookup c :: refs s)); try done.
  - by apply (v_open _ _ Hv _ _ Hx).
  - intros y. rewrite occ_cons. destruct (decide (y = c)) as [->|]; [rewrite decide_True by done; lia|].
    rewrite decide_False by congruence. lia.
  - intros y. rewrite occ_cons, decide_False by done. case_decide; lia.
  - intros r [->|Hr]%elem_of_cons; [right; split; [done|left]|by left]. intros ->. by eapply (v_top _ _ Hv).
  - intros y [[=]|Hy]%elem_of_cons. by apply (v_request _ _ Hv).
  - by left.
Qed.

(** [kernel s] and the lookups in [refs s] lose [n] lookups of [x]. *)
Lemma forget_inv s x n kernel' refs' :
  inv [] s -> is_Some (heap s !! x) -> x <> root s -> 0 <= n <= UINT64_MAX ->
  (forall y, occ y (kernel s) + occ (Lookup y) (refs s) = occ y kernel' + occ (Lookup y) refs' + if decide (y = x) then n else 0) ->
  (forall y, occ (Pin y) refs' = occ (Pin y) (refs s)) ->
  (forall r, r ∈ refs' -> r ∈ refs s) ->
  (forall y, Request y ∈ refs' ++ map snd (jobs s) -> y = root s \/ y ∈ kernel') ->
  (forall y, y ∈ kernel' -> y ∈ kernel s) ->
  inv [] (with_refs kernel' refs' (forget_inode s x n)).
Proof.
  intros Hv [i Hx] Hroot Hn Hns Hos Hrefs Hreq Hk. unfold forget_inode. rewrite (proj2 (Z.eqb_neq _ _)) by done.
  destruct (v_nlookup _ _ Hv _ _ Hx) as [Hl Hb]. specialize (Hns x) as Hnx. rewrite decide_True in Hnx by done.
  pose proof (occ_nonneg x kernel'). pose proof (occ_nonneg (Lookup x) refs').
  unfold all_refs in Hl. rewrite occ_app in Hl. pose proof (occ_nonneg (Lookup x) (map snd (jobs s))).
  rewrite (update_ext s x i _ (fun j => j <| i_nlookup := i_nlookup i - n |> <| i_open_count := i_open_count i |>) Hx).
  2: { destruct (Z.leb_spec (i_nlookup i) n); [|rewrite u32_small by (unfold UINT32_MAX in *; lia); by destruct i].
       assert (i_nlookup i = n) as -> by lia. rewrite Z.sub_diag. by destruct i. }
  apply (counts_inv [] s x i); try done.
  - lia.
  - by apply (v_open _ _ Hv _ _ Hx).
  - intros y. specialize (Hns y). case_decide; lia.
  - intros y. rewrite Hos. case_decide; lia.
  - intros r Hr. left. by apply Hrefs.
  - intros y Hy. left. by apply Hk.
Qed.

Lemma delete_tree_inv' s x : inv [x] s -> item_tree_unreferenced s x = true -> inv [] (delete_tree s x).
Proof.
  intros Hv Hu. unfold item_tree_unreferenced in Hu. destruct (tree s x) as [l|] eqn:Ht; [|done].
  by apply (delete_tree_inv s x l).
Qed.

Lemma unreferenced_mono loose loose' s s' x :
  inv loose s -> inv loose' s' -> (forall a b, child (heap s') a b -> child (heap s) a b) ->
  (forall y, unreferenced (heap s) y = true -> unreferenced (heap s') y = true) ->
  item_tree_unreferenced s x = true -> item_tree_unreferenced s' x = true.
Proof.
  intros Hv Hv' Hch Hu. unfold item_tree_unreferenced.
  destruct (tree s x) as [l|] eqn:Ht; [|done]. destruct (tree_total _ _ Hv' x) as [l' Ht']. rewrite Ht'.
  rewrite !forallb_forall. intros Hl y Hy%list_elem_of_In. apply Hu, Hl, list_elem_of_In.
  apply (item_tree_reach _ _ _ _ _ Ht') in Hy. apply (item_tree_reach _ _ _ _ _ Ht).
  revert Hy. by apply rtc_subrel.
Qed.

(** Counts are not changed by [f]. *)
Lemma unreferenced_alter h x f y :
  (forall i, i_nlookup (f i) = i_nlookup i /\ i_open_count (f i) = i_open_count i) ->
  unreferenced (alter f x h) y = unreferenced h y.
Proof.
  intros Hf. unfold unreferenced. destruct (decide (y = x)) as [->|]; [|by rewrite lookup_alter_ne].
  rewrite lookup_alter_eq. destruct (h !! x) as [i|]; [|done]. cbn. by destruct (Hf i) as [-> ->].
Qed.

Lemma detach_parent_floating loose s x parent :
  inv loose s -> x ∈ floating loose s -> let s' := detach_parent_slot_if_owned s x parent in
  s' = s \/ s' = update x (fun i => i <| i_slot := no_slot |>) s.
Proof.
  intros Hv Hx. cbn. unfold detach_parent_slot_if_owned. destruct (heap s !! x) as [i|]; [|by left].
  destruct parent as [p|]; [|by right]. destruct ((p =? x) || _); [by right|]. destruct (i_slot i =? no_slot); [by left|].
  destruct (owns_slot s p (i_slot i) x) eqn:Ho; [|by right]. exfalso. unfold owns_slot in Ho.
  apply andb_true_iff in Ho as [_ Ho]. destruct (heap s !! p) as [ip|] eqn:Hp; [|done].
  destruct (i_entries ip !! i_slot i) as [[nm c]|] eqn:Hk; [|done]. apply Z.eqb_eq in Ho as ->.
  apply (v_floating _ _ Hv) in Hx as (_ & _ & Hn). apply (Hn p). by exists ip, (i_slot i), nm.
Qed.

Lemma release_after_delete s x p :
  inv [] (delete_tree (s <| refs := Pin p :: refs s |>) x) -> inv [] (release_open (delete_tree s x) p).
Proof.
  intros Hv. apply (release_open_inv _ _ p (refs s)) in Hv; revert Hv; unfold delete_tree;
    change (tree (s <| refs := Pin p :: refs s |>) x) with (tree s x); destruct (tree s x), s; done.
Qed.

Lemma sweep_item_inv s s' x : inv [] s -> sweep_item s x = Some s' -> inv [] s'.
Proof.
  intros Hv. unfold sweep_item. destruct (retired_items s !! x) as [parent|] eqn:Hr; [|done].
  destruct (heap s !! x) as [i|] eqn:Hx; [|done]. destruct (i_detached i && _) eqn:E; [|done].
  apply andb_true_iff in E as [_ Hu]. destruct (v_retired _ _ Hv _ _ Hr) as (i' & Hi' & ->). intros [= <-].
  assert (Hfl : x ∈ floating [] s) by (apply elem_of_floating; rewrite Hr; eauto).
  set (p := i_parent i') in *.
  assert (H1 : exists s1, detach_parent_slot_if_owned s x (Some p) = s1 /\ inv [] s1 /\ item_tree_unreferenced s1 x = true /\
                 retired_items s1 !! x = Some (Some p)).
  { eexists. split; [reflexivity|]. destruct (detach_parent_floating [] s x (Some p) Hv Hfl) as [->| ->]; [done|].
    assert (Hv1 : inv [] (update x (fun i => i <| i_slot := no_slot |>) s)).
    { apply flags_inv; [done|]. intros j Hj. split_and!; try done. right. by apply (v_floating _ _ Hv). }
    split_and!; [done| |done]. eapply unreferenced_mono; [exact Hv|exact Hv1| |intros y <-|exact Hu].
    - intros a b. by apply (child_alter _ x i).
    - by apply unreferenced_alter. }
  destruct H1 as (s1 & -> & Hv1 & Hu1 & Hr1).
  pose proof (delete_tree_inv' _ _ (retired_to_pin _ _ _ Hv1 Hr1) Hu1) as H3.
  by apply release_after_delete.
Qed.

Lemma owns_slot_entry s p k x :
  owns_slot s p k x = true -> exists ip nm, heap s !! p = Some ip /\ i_entries ip !! k = Some (nm, x).
Proof.
  unfold owns_slot. intros [_ Ho]%andb_true_iff. destruct (heap s !! p) as [ip|]; [|done].
  destruct (i_entries ip !! k) as [[nm c]|] eqn:Hk; [|done]. apply Z.eqb_eq in Ho as ->. eauto.
Qed.

Lemma reclaim_child_inv s p k : inv [] s -> inv [] (reclaim_child p s k).
Proof.
  intros Hv. unfold reclaim_child. destruct (heap s !! p) as [ip|] eqn:Hp; [|done].
  destruct (i_entries ip !! k) as [[nm c]|] eqn:Hk; [|done]. destruct (heap s !! c) as [i|] eqn:Hc; [|done].
  destruct (i_busy i || _) eqn:E; [done|]. apply orb_false_iff in E as [_ Hu%negb_false_iff].
  pose proof (erase_slot_inv [] s p k ip nm c Hv Hp Hk) as H1. cbn [app] in H1.
  pose proof (child_erased _ (v_forest _ _ Hv) _ _ _ _ _ Hp Hk) as Hch.
  assert (H2 : inv [c] (update c (fun i => i <| i_slot := no_slot |>) (erase_slot p k s))).
  { apply flags_inv; [done|]. intros j Hj. split_and!; try done. right. intros a [_ Ha]%Hch. done. }
  apply delete_tree_inv'; [done|]. eapply unreferenced_mono; [exact Hv|exact H2| |intros y Hy|exact Hu].
  - intros a b Hab. apply (Hch a b). destruct (heap (erase_slot p k s) !! c) as [j|] eqn:Hj.
    + revert Hab. by apply (child_alter _ c j).
    + rewrite update_absent in Hab by done. done.
  - cbn. rewrite !unreferenced_alter; done.
Qed.

Lemma foldl_inv {A B} (P : A -> Prop) (f : A -> B -> A) l a : (forall a b, P a -> P (f a b)) -> P a -> P (foldl f a l).
Proof. intros Hf. revert a. induction l as [|b l IH]; cbn; intros a Ha; [done|]. by apply IH, Hf. Qed.

Lemma reclaim_cached_children_inv s p : inv [] s -> inv [] (reclaim_cached_children s p).
Proof.
  intros Hv. unfold reclaim_cached_children. destruct (heap s !! p); [|done]. case_match; [done|].
  apply foldl_inv; [|done]. intros s' k. apply reclaim_child_inv.
Qed.

(** The inodes taken out of [p] so far. *)
Definition taken_from (p : Z) (acc : Store * list Z) : Prop :=
  inv acc.2 acc.1 /\ forall x, x ∈ acc.2 -> exists i, heap acc.1 !! x = Some i /\ i_parent i = p.

Lemma parent_update (h : gmap Z Inode) x f y p :
  (forall i, i_parent (f i) = i_parent i) ->
  (exists i, h !! y = Some i /\ i_parent i = p) -> exists i, alter f x h !! y = Some i /\ i_parent i = p.
Proof.
  intros Hf (i & Hi & Hp). destruct (decide (y = x)) as [->|]; [|exists i; by rewrite lookup_alter_ne].
  exists (f i). by rewrite lookup_alter_eq, Hi, Hf.
Qed.

Lemma take_child_inv s p k ip nm c stale :
  taken_from p (s, stale) -> heap s !! p = Some ip -> i_entries ip !! k = Some (nm, c) ->
  taken_from p (set_detached c (erase_slot p k s), stale ++ [c]).
Proof.
  intros [Hv Hst] Hp Hk. cbn in Hv, Hst. split; cbn [fst snd].
  - apply set_detached_inv. by eapply erase_slot_inv.
  - intros x Hx. do 2 (apply parent_update; [done|]). rewrite elem_of_app, list_elem_of_singleton in Hx.
    destruct Hx as [Hx| ->]; [by apply Hst|].
    destruct (forest_edge _ (v_forest _ _ Hv) _ _ _ _ _ Hp Hk) as (j & Hj & Hpar & _). eauto.
Qed.

Lemma prune_slot_inv p g acc k : taken_from p acc -> taken_from p (prune_slot p g acc k).
Proof.
  intros Ht. destruct acc as [s stale]. cbn. destruct (heap s !! p) as [ip|] eqn:Hp; [|done].
  destruct (i_entries ip !! k) as [[nm c]|] eqn:Hk; [|done]. destruct (heap s !! c) as [i|] eqn:Hc; [|done].
  destruct (i_busy i); [|destruct (i_generation i =? g); [done|by eapply take_child_inv]].
  destruct Ht as [Hv Hst]. split; cbn in *; [apply flags_inv; [done|]; intros; cbn; auto 6|].
  intros x Hx. apply parent_update; [done|]. by apply Hst.
Qed.

Lemma prune_section_inv s p g : inv [] s -> taken_from p (prune_section s p g).
Proof.
  intros Hv. unfold prune_section. apply foldl_inv; [intros acc k; apply prune_slot_inv|]. split; [done|].
  intros x Hx. by apply elem_of_nil in Hx.
Qed.

Lemma detach_section_inv s s' x p :
  inv [] s -> detach_section s x p = (s', Ok true) -> taken_from p (s', [x]).
Proof.
  intros Hv. unfold detach_section. destruct (heap s !! x) as [i|] eqn:Hx; [|done]. destruct (i_detached i); [done|].
  destruct (owns_slot s p (i_slot i) x) eqn:Ho; [|done]. intros [= <-].
  destruct (owns_slot_entry _ _ _ _ Ho) as (ip & nm & Hp & Hk).
  destruct (take_child_inv s p (i_slot i) ip nm x []) as [H1 H2]; [|done..|].
  { split; [done|]. intros y Hy. by apply elem_of_nil in Hy. }
  split; cbn in *; [apply flags_inv; [done|]; intros; cbn; auto 6|].
  intros y Hy. apply parent_update; [done|]. by apply H2.
Qed.

Lemma retire_item_inv s s' x xs r before after :
  inv [] s -> jobs s = before ++ (x :: xs, r) :: after -> retire_item s x = (s', Ok tt) ->
  inv [] (s' <| jobs := before ++ (xs, r) :: after |>).
Proof.
  intros Hv Hj. destruct (v_jobs _ _ Hv (x :: xs) r x) as (i & Hx & Hp);
    [rewrite Hj; apply elem_of_app; right; constructor|constructor|].
  assert (Hroot : x <> root s).
  { apply (v_floating _ _ Hv), elem_of_floating. left. exists (x :: xs), r. split; [|constructor].
    rewrite Hj. apply elem_of_app. right. constructor. }
  unfold retire_item. rewrite Hx. destruct (v_parent _ _ Hv _ _ Hx Hroot) as [_ Hne]. rewrite (proj2 (Z.eqb_neq _ _)) by done.
  destruct (retain_open s (i_parent i)) as [s1 ok] eqn:E. destruct ok; [|done]. cbn [negb].
  destruct (retired_items s1 !! x); [done|]. intros [= <-].
  pose proof (retain_open_inv _ _ _ _ Hv E) as H1. unfold retain_open in E.
  destruct (heap s !! i_parent i) as [ip|] eqn:Hip; [|done]. destruct (retain_inode_count _); [|done]. injection E as <-.
  assert (Hx1 : exists j, heap (update (i_parent i) (fun i0 => i0 <| i_open_count := z |>) s) !! x = Some j /\ i_parent j = i_parent i)
    by (apply parent_update; [done|eauto]).
  destruct Hx1 as (j & Hj1 & Hpar). rewrite <- Hpar in H1, Hj1 |- *.
  exact (pin_to_retired _ x j xs r (refs s) before after H1 Hj Hj1 eq_refl).
Qed.

Lemma move_alt s x p q k slot name ip iq v :
  heap s !! p = Some ip -> i_entries ip !! k = Some v -> heap s !! q = Some iq -> i_entries iq !! slot = None ->
  erase_slot p k (update q (fun q => q <| i_entries := <[slot := (name, x)]> (i_entries q) |>) s) =
  update q (fun q => q <| i_entries := <[slot := (name, x)]> (i_entries q) |>) (erase_slot p k s).
Proof.
  intros Hp Hk Hq Hs. set (D := fun p => p <| i_entries := delete k (i_entries p) |>).
  set (I := fun q => q <| i_entries := <[slot := (name, x)]> (i_entries q) |>).
  assert (H : alter D p (alter I q (heap s)) = alter I q (alter D p (heap s))).
  2: { change (s <| heap := alter D p (alter I q (heap s)) |> = s <| heap := alter I q (alter D p (heap s)) |>). by rewrite H. }
  destruct (decide (p = q)) as [->|Hne]; [|by rewrite alter_alter_ne].
  rewrite !alter_alter_eq. apply alter_ext. intros i Hi. rewrite Hp in Hi. injection Hi as <-. unfold compose, D, I. cbn.
  rewrite Hp in Hq. injection Hq as <-. rewrite delete_insert_ne by congruence. done.
Qed.

Lemma move_cached_item_inv s s' x p q slot name iq l :
  inv [] s -> heap s !! q = Some iq -> i_entries iq !! slot = None -> tree s x = Some l -> q ∉ l ->
  move_cached_item s x p q slot name = (s', Ok true) -> inv [] s'.
Proof.
  intros Hv Hq Hs Hl Hql. unfold move_cached_item. destruct (heap s !! x) as [i|] eqn:Hx; [|done].
  destruct (heap s !! p) as [ip'|] eqn:Hp'; [|done]. rewrite Hq. case_match; [done|]. case_match; [done|].
  destruct (owns_slot s p (i_slot i) x) eqn:Ho; [|done]. destruct (find_name _ _); [done|]. intros [= <-].
  destruct (owns_slot_entry _ _ _ _ Ho) as (ip & nm & Hp & Hk).
  rewrite (move_alt s x p q (i_slot i) slot name ip iq (nm, x) Hp Hk Hq Hs).
  pose proof (erase_slot_inv [] s p (i_slot i) ip nm x Hv Hp Hk) as H1. cbn [app] in H1.
  destruct (tree_total _ _ H1 x) as [l' Hl'].
  assert (Hx' : is_Some (heap (erase_slot p (i_slot i) s) !! x)) by (apply live_alter; eauto). destruct Hx' as [ix' Hx'].
  assert (Hq' : exists iq', heap (erase_slot p (i_slot i) s) !! q = Some iq' /\ i_entries iq' !! slot = None).
  { cbn. destruct (decide (q = p)) as [->|]; [|exists iq; by rewrite lookup_alter_ne].
    eexists. rewrite lookup_alter_eq, Hq. split; [reflexivity|]. cbn. apply lookup_delete_None. by right. }
  destruct Hq' as (iq' & Hq' & Hs'). apply (link_inv _ x q slot name ix' iq' l' H1 Hx' Hq' Hs' Hl').
  intros Hin. apply Hql. apply (item_tree_reach _ _ _ _ _ Hl). apply (item_tree_reach _ _ _ _ _ Hl') in Hin.
  revert Hin. apply rtc_subrel. intros a b Hab. by apply (child_erased _ (v_forest _ _ Hv) _ _ _ _ _ Hp Hk) in Hab as [? _].
Qed.

Lemma retain_open_false s s' x : retain_open s x = (s', false) -> s' = s.
Proof. unfold retain_open. repeat case_match; congruence. Qed.

Lemma retain_open_refs s x R :
  retain_open (s <| refs := R |>) x = let '(s', ok) := retain_open s x in (s' <| refs := R |>, ok).
Proof. unfold retain_open. cbn. by repeat case_match. Qed.

(** The lookup that [install_item] counts, and the generation it sets. *)
Lemma install_lookup_inv loose s x i g n (lookup : bool) :
  inv loose s -> heap s !! x = Some i -> x <> root s ->
  (if lookup then retain_inode_count (i_nlookup i) else Some (i_nlookup i)) = Some n ->
  inv loose (update x (fun i => i <| i_nlookup := n |> <| i_generation := if g =? 0 then i_generation i else g |>) s
               <| refs := (if lookup then [Lookup x] else []) ++ refs s |>).
Proof.
  intros Hv Hx Hroot En. destruct (v_nlookup _ _ Hv _ _ Hx) as [_ Hb].
  assert (Hn : n = i_nlookup i + (if lookup then 1 else 0) /\ n <= UINT32_MAX).
  { destruct lookup; [by apply retain_count_some|]. injection En as <-. lia. }
  destruct Hn as [-> Hn]. set (tk := if lookup then [Lookup x] else []).
  assert (Htk : forall r, r ∈ tk -> r = Lookup x).
  { intros r Hr. subst tk. destruct lookup; [by apply list_elem_of_singleton in Hr|by apply elem_of_nil in Hr]. }
  assert (Hocc : forall y, occ (Lookup y) tk = if decide (y = x) then (if lookup then 1 else 0) else 0).
  { intros y. subst tk. destruct lookup; [|by case_decide]. rewrite occ_cons.
    destruct (decide (y = x)) as [->|]; [by rewrite decide_True|by rewrite decide_False by congruence]. }
  apply (inv_update loose s x i _ (kernel s) (tk ++ refs s)); try done; cbn.
  - by left.
  - by apply (v_open _ _ Hv _ _ Hx).
  - intros y. rewrite occ_app, Hocc. case_decide; lia.
  - intros y. rewrite occ_app, (occ_absent (Pin y) tk); [case_decide; lia|]. by intros [=]%Htk.
  - intros r [->%Htk|Hr]%elem_of_app; [cbn; eauto|]. apply (v_refs _ _ Hv), elem_of_all_refs. by left.
  - intros y [[[=]%Htk|Hy]%elem_of_app|Hy]%elem_of_app; apply (v_request _ _ Hv), elem_of_app; auto.
  - intros y [Hy|[[= ->]%Htk|Hy]%elem_of_app]; [by apply (v_kernel _ _ Hv)|eauto|].
    split; [apply (v_refs _ _ Hv (Lookup y))|apply (v_lookups _ _ Hv)]; apply elem_of_all_refs; by left.
Qed.

Lemma install_finish_inv loose s x g pending lookup changed s' taken r :
  inv loose s -> is_Some (heap s !! x) -> x <> root s ->
  install_finish s x g pending lookup changed = (s', taken, r) -> inv loose (s' <| refs := taken ++ refs s |>).
Proof.
  intros Hv0 Hlive Hroot. unfold install_finish. set (s0 := if pending then _ else s).
  assert (Hs0 : inv loose s0 /\ refs s0 = refs s /\ root s0 = root s).
  { subst s0. destruct pending; [|done]. split; [|done]. apply flags_inv; [done|]. intros; cbn; auto 6. }
  destruct Hs0 as (Hv & Hrefs & Hroot0). rewrite <- Hrefs. rewrite <- Hroot0 in Hroot. clearbody s0. clear Hv0 Hlive Hrefs Hroot0.
  assert (Hsame : inv loose (s0 <| refs := [] ++ refs s0 |>)) by (by destruct s0).
  destruct (heap s0 !! x) as [i|] eqn:Hx; [|intros [= <- <- <-]; exact Hsame].
  destruct (if lookup then _ else _) as [n|] eqn:En; [|intros [= <- <- <-]; exact Hsame].
  pose proof (install_lookup_inv _ _ _ _ g _ _ Hv Hx Hroot En) as H1.
  destruct (changed && _ && _); [|intros [= <- <- <-]; exact H1].
  set (s1 := update x _ s0) in *. set (tk := if lookup then [Lookup x] else []) in *.
  destruct (retain_open s1 x) as [s2 ok] eqn:E2.
  assert (E2' : retain_open (s1 <| refs := tk ++ refs s0 |>) x = (s2 <| refs := tk ++ refs s0 |>, ok)).
  { by rewrite retain_open_refs, E2. }
  destruct ok; intros [= <- <- <-]; [exact (retain_open_inv _ _ _ _ H1 E2')|].
  by rewrite (retain_open_false _ _ _ E2).
Qed.

Lemma find_name_entry m name k c : find_name m name = Some (k, c) -> exists nm, m !! k = Some (nm, c).
Proof.
  unfold find_name. destruct (filter _ _) as [|[k' [nm c']] l] eqn:E; [done|]. intros [= <- <-]. exists nm.
  assert ((k', (nm, c')) ∈ filter (fun '(_, (n, _)) => n = name) (map_to_list m)) as [_ ?]%list_elem_of_filter;
    [rewrite E; constructor|by apply elem_of_map_to_list].
Qed.

Lemma allocate_over s new p k directory name ip :
  heap s !! p = Some ip -> heap s !! new = None ->
  allocate_inode new p k directory name (erase_slot p k s) = allocate_inode new p k directory name s.
Proof.
  intros Hp Hn. assert (Hne : new <> p) by congruence. set (N := mkInode p directory false false k 0 0 0 ∅).
  set (D := fun p => p <| i_entries := delete k (i_entries p) |>).
  set (I := fun p => p <| i_entries := <[k := (name, new)]> (i_entries p) |>).
  assert (H : alter I p (<[new := N]> (alter D p (heap s))) = alter I p (<[new := N]> (heap s))).
  2: { change (s <| heap := alter I p (<[new := N]> (alter D p (heap s))) |> <| uncounted := uncounted s + 1 |> =
               s <| heap := alter I p (<[new := N]> (heap s)) |> <| uncounted := uncounted s + 1 |>). by rewrite H. }
  apply map_eq. intros y. destruct (decide (y = p)) as [->|].
  - rewrite !lookup_alter_eq, !lookup_insert_ne, lookup_alter_eq, Hp by done. cbn. unfold I, D. cbn. by rewrite insert_delete_eq.
  - rewrite !lookup_alter_ne by done. destruct (decide (y = new)) as [->|]; [by rewrite !lookup_insert_eq|].
    by rewrite !lookup_insert_ne, lookup_alter_ne.
Qed.

Lemma install_finish_parent s x g pending lookup changed s' taken r y p :
  install_finish s x g pending lookup changed = (s', taken, r) ->
  (exists i, heap s !! y = Some i /\ i_parent i = p) -> exists i, heap s' !! y = Some i /\ i_parent i = p.
Proof.
  unfold install_finish, retain_open. intros E Hy. destruct pending; repeat case_match; simplify_eq; try done;
    repeat (apply parent_update; [done|]); done.
Qed.

Lemma taken_finish p s x g pending lookup changed s' taken r stale :
  taken_from p (s, stale) -> is_Some (heap s !! x) -> x <> root s ->
  install_finish s x g pending lookup changed = (s', taken, r) ->
  taken_from p (s' <| refs := taken ++ refs s |>, stale).
Proof.
  intros [Hv Hst] Hx Hroot E. split; [by eapply install_finish_inv|]. intros y Hy.
  exact (install_finish_parent _ _ _ _ _ _ s' _ _ y p E (Hst y Hy)).
Qed.

Lemma taken_none s p : inv [] s -> taken_from p (s, []).
Proof. split; [done|]. intros x Hx. by apply elem_of_nil in Hx. Qed.

Lemma install_section_inv s parent new slot g name directory exclusive pending lookup defer changed s' taken stale r :
  inv [] s -> heap s !! new = None -> (forall p, heap s !! parent = Some p -> i_entries p !! slot = None) ->
  install_section s parent new slot g name directory exclusive pending lookup defer changed = (s', taken, stale, r) ->
  taken_from parent (s' <| refs := taken ++ refs s |>, option_list stale).
Proof.
  intros Hv Hnew Hslot. unfold install_section.
  assert (Hid : taken_from parent (s <| refs := [] ++ refs s |>, [])) by (apply taken_none; by destruct s).
  assert (Hroot : new <> root s) by (intros ->; destruct (v_root _ _ Hv); congruence).
  destruct (heap s !! parent) as [p|] eqn:Hp; [|intros [= <- <- <- <-]; exact Hid].
  specialize (Hslot p eq_refl). case_match; [intros [= <- <- <- <-]; exact Hid|].
  case_match; [intros [= <- <- <- <-]; exact Hid|].
  destruct (find_name (i_entries p) name) as [[k c]|] eqn:Hf.
  - destruct (find_name_entry _ _ _ _ Hf) as [nm Hk].
    destruct (heap s !! c) as [i|] eqn:Hc; [|intros [= <- <- <- <-]; exact Hid].
    destruct exclusive; [intros [= <- <- <- <-]; exact Hid|].
    destruct (forest_edge _ (v_forest _ _ Hv) _ _ _ _ _ Hp Hk) as (j & Hj & Hpar & _).
    rewrite Hc in Hj. injection Hj as <-.
    assert (Hcr : c <> root s) by (intros ->; apply (v_top _ _ Hv parent); by exists p, k, nm).
    destruct (negb (Bool.eqb (i_directory i) directory) && negb (i_busy i)).
    + destruct (i_directory i && defer); [intros [= <- <- <- <-]; exact Hid|].
      destruct (install_finish _ new _ _ _ _) as [[s1 tk] r1] eqn:E. intros [= <- <- <- _].
      refine (taken_finish parent _ _ _ _ _ _ _ _ _ [c] _ _ _ E); [|..].
      * pose proof (erase_slot_inv [] s parent k p nm c Hv Hp Hk) as H1. cbn [app] in H1.
        rewrite <- (allocate_over s new parent k directory name p Hp Hnew). split.
        -- apply set_detached_inv. eapply allocate_inv; [exact H1| |cbn; rewrite lookup_alter_eq, Hp; reflexivity|].
           ++ cbn. rewrite lookup_alter_ne by congruence. done.
           ++ cbn. apply lookup_delete_eq.
        -- intros y Hy%list_elem_of_singleton. cbn in Hy. subst y. cbn. do 2 (apply parent_update; [done|]).
           rewrite lookup_insert_ne by congruence. apply parent_update; [done|eauto].
      * cbn. rewrite !live_alter, lookup_insert_eq. eauto.
      * done.
    + destruct (install_finish _ c _ _ _ _) as [[s1 tk] r1] eqn:E. intros [= <- <- <- _].
      refine (taken_finish parent _ _ _ _ _ _ _ _ _ [] _ _ _ E); [|apply live_alter; eauto|done].
      apply taken_none, flags_inv; [done|]. intros j Hj. rewrite Hc in Hj. injection Hj as <-. cbn. auto 6.
  - destruct (install_finish _ new _ _ _ _) as [[s1 tk] r1] eqn:E. intros [= <- <- <- _].
    refine (taken_finish parent _ _ _ _ _ _ _ _ _ [] _ _ _ E); [|cbn; rewrite live_alter, lookup_insert_eq; eauto|done].
    apply taken_none. by eapply allocate_inv.
Qed.

(** ** Everything that can happen to the inodes *)

Definition held (s : Store) (x : Z) : Prop := exists r, r ∈ refs s /\ target r = x.
Definition in_hand (s : Store) (x : Z) : Prop := held s x \/ x ∈ job_items (jobs s).

(** An operation names only inodes that it holds or has taken out of a directory, and keeps its
    reference to the directory of an inode it has taken out until that is retired.  The kernel
    sends requests for inodes it knows, and does not forget an inode while it waits for an answer
    to a request that names it.  The exceptions are [discard_pending_inode] and
    [abandon_created_inode], which take an inode out with no reference to its directory: they are
    steps if [discards]. *)
Inductive step (discards : bool) (s : Store) : Store -> Prop :=
| step_request x : x = root s \/ x ∈ kernel s -> step discards s (s <| refs := Request x :: refs s |>)
| step_answer x refs' : refs s ≡ₚ Request x :: refs' -> step discards s (s <| refs := refs' |>)
| step_forget x n kernel' :
    kernel s ≡ₚ replicate (Z.to_nat n) x ++ kernel' -> 0 < n <= UINT64_MAX ->
    (Request x ∈ all_refs s -> x ∈ kernel') ->
    step discards s (with_refs kernel' (refs s) (forget_inode s x n))
| step_lookup p name c s' :
    held s p -> lookup_child s p name = (s', Some c) -> step discards s (s' <| refs := Lookup c :: refs s |>)
| step_replied x refs' : refs s ≡ₚ Lookup x :: refs' -> step discards s (with_refs (x :: kernel s) refs' s)
| step_reply_failed x refs' :
    refs s ≡ₚ Lookup x :: refs' -> step discards s (with_refs (kernel s) refs' (forget_inode s x 1))
| step_pin_child p name c s' :
    held s p -> pin_cached_child s p name = (s', Some c) -> step discards s (s' <| refs := Pin c :: refs s |>)
| step_pin x s' : in_hand s x -> retain_open s x = (s', true) -> step discards s (s' <| refs := Pin x :: refs s |>)
| step_pin_below p c s' :
    in_hand s p -> child (heap s) p c -> retain_open s c = (s', true) -> step discards s (s' <| refs := Pin c :: refs s |>)
| step_unpin x refs' : refs s ≡ₚ Pin x :: refs' -> step discards s (release_open s x <| refs := refs' |>)
| step_busy x busy : held s x -> step discards s (update x (fun i => i <| i_busy := busy |>) s)
| step_mark x : in_hand s x -> step discards s (set_detached x s)
| step_install parent new slot g name directory exclusive pending lookup defer changed s' taken r :
    held s parent -> heap s !! new = None -> (forall p, heap s !! parent = Some p -> i_entries p !! slot = None) ->
    install_section s parent new slot g name directory exclusive pending lookup defer changed = (s', taken, None, r) ->
    step discards s (s' <| refs := taken ++ refs s |>)
| step_replace h refs' new slot g name directory exclusive pending lookup defer changed s' taken stale r :
    refs s ≡ₚ h :: refs' -> heap s !! new = None ->
    (forall p, heap s !! target h = Some p -> i_entries p !! slot = None) ->
    install_section s (target h) new slot g name directory exclusive pending lookup defer changed = (s', taken, Some stale, r) ->
    step discards s (s' <| refs := taken ++ refs' |> <| jobs := ([stale], h) :: jobs s |>)
| step_detach x h refs' s' :
    held s x -> refs s ≡ₚ h :: refs' -> detach_section s x (target h) = (s', Ok true) ->
    step discards s (s' <| refs := refs' |> <| jobs := ([x], h) :: jobs s |>)
| step_prune h refs' generation s' stale :
    refs s ≡ₚ h :: refs' -> prune_section s (target h) generation = (s', stale) ->
    step discards s (s' <| refs := refs' |> <| jobs := (stale, h) :: jobs s |>)
| step_retire x xs h before after s' :
    jobs s = before ++ (x :: xs, h) :: after -> retire_item s x = (s', Ok tt) ->
    step discards s (s' <| jobs := before ++ (xs, h) :: after |>)
| step_retired h before after :
    jobs s = before ++ ([], h) :: after -> step discards s (s <| refs := h :: refs s |> <| jobs := before ++ after |>)
| step_sweep x s' : sweep_item s x = Some s' -> step discards s s'
| step_reclaim p : held s p -> step discards s (reclaim_cached_children s p)
| step_move x p q slot name s' iq l :
    held s x -> held s p -> held s q -> heap s !! q = Some iq -> i_entries iq !! slot = None ->
    tree s x = Some l -> q ∉ l -> move_cached_item s x p q slot name = (s', Ok true) -> step discards s s'
| step_count : 0 < uncounted s -> step discards s (cache_inode_allocated s)
| step_discard x refs' i s' :
    discards = true -> refs s ≡ₚ Pin x :: refs' -> heap s !! x = Some i -> detach_section s x (i_parent i) = (s', Ok true) ->
    step discards s (s' <| refs := refs' |> <| jobs := ([x], Pin x) :: jobs s |>).

(** A mount starts with its root. *)
Definition new_store (root : Z) : Store :=
  mkStore {[ root := mkInode root true false false no_slot 0 0 0 ∅ ]} root ∅ 0 0 0 [] [] [].

Inductive run (discards : bool) : Store -> Prop :=
| run_new root : run discards (new_store root)
| run_step s s' : run discards s -> step discards s s' -> run discards s'.

Lemma new_store_childless root p c : ~ child {[ root := mkInode root true false false no_slot 0 0 0 ∅ ]} p c.
Proof. by intros (i & k & nm & [<- <-]%lookup_singleton_Some & Hk). Qed.

Lemma new_store_inv root : inv [] (new_store root).
Proof.
  pose proof (new_store_childless root) as Hn.
  constructor; cbn.
  - rewrite lookup_singleton_eq. eauto.
  - constructor; [|by exists (fun _ => O); intros p c ?%Hn]. intros p i k nm c Hp Hk. destruct (Hn p c). by exists i, k, nm.
  - intros p. apply Hn.
  - intros x i [<- <-]%lookup_singleton_Some. done.
  - constructor.
  - intros x Hx. by apply elem_of_nil in Hx.
  - intros x i [<- <-]%lookup_singleton_Some. done.
  - intros r Hr. by apply elem_of_nil in Hr.
  - intros x Hx. by apply elem_of_nil in Hx.
  - intros x Hx. by apply elem_of_nil in Hx.
  - intros x Hx. by apply elem_of_nil in Hx.
  - intros x i [<- <-]%lookup_singleton_Some. done.
  - intros x i [<- <-]%lookup_singleton_Some. done.
  - intros x parent Hx. by rewrite lookup_empty in Hx.
  - intros xs r x Hx. by apply elem_of_nil in Hx.
  - by rewrite map_size_singleton.
  - done.
Qed.

(** Requests begin and end, and lookups reach the kernel. *)
Lemma refs_inv s kernel' refs' :
  inv [] s ->
  (forall y, occ y kernel' + occ (Lookup y) refs' = occ y (kernel s) + occ (Lookup y) (refs s)) ->
  (forall y, occ (Pin y) refs' = occ (Pin y) (refs s)) ->
  (forall r, r ∈ refs' -> r ∈ refs s \/ exists y, r = Request y /\ is_Some (heap s !! y)) ->
  (forall y, Request y ∈ refs' ++ map snd (jobs s) -> y = root s \/ y ∈ kernel') ->
  (forall y, y ∈ kernel' -> y ∈ kernel s \/ Lookup y ∈ refs s) ->
  inv [] (with_refs kernel' refs' s).
Proof.
  intros Hv Hn Ho Hr Hreq Hk. destruct (v_root _ _ Hv) as [i Hi].
  assert (with_refs kernel' refs' s = with_refs kernel' refs' (update (root s) id s)) as ->.
  { unfold update. rewrite alter_id by done. by destruct s. }
  assert (Hlive : forall r, r ∈ refs s -> is_Some (heap s !! target r)).
  { intros r Hin. apply (v_refs _ _ Hv), elem_of_all_refs. by left. }
  assert (Hlk : forall y, Lookup y ∈ refs s -> is_Some (heap s !! y) /\ y <> root s).
  { intros y Hy. split; [by apply (Hlive (Lookup y))|]. apply (v_lookups _ _ Hv), elem_of_all_refs. by left. }
  apply (inv_update [] s (root s) i id); try done.
  - by left.
  - by apply (v_nlookup _ _ Hv _ _ Hi).
  - by apply (v_open _ _ Hv _ _ Hi).
  - intros y. rewrite Hn, Z.sub_diag. case_decide; lia.
  - intros y. rewrite Ho, Z.sub_diag. case_decide; lia.
  - intros r [Hin|(y & -> & Hy)]%Hr; [by apply Hlive|done].
  - intros y [[Hy|Hy]%Hk|Hy]; [by apply (v_kernel _ _ Hv)|by apply Hlk|].
    apply Hr in Hy as [Hy|(? & [=] & _)]. by apply Hlk.
Qed.

Lemma request_inv s x : inv [] s -> x = root s \/ x ∈ kernel s -> inv [] (s <| refs := Request x :: refs s |>).
Proof.
  intros Hv Hx. apply (refs_inv s (kernel s) (Request x :: refs s)); try done.
  - intros r [->|Hr]%elem_of_cons; [right|by left]. exists x. split; [done|].
    destruct Hx as [->|Hx]; [apply Hv|by apply (v_kernel _ _ Hv)].
  - intros y [[= ->]|Hy]%elem_of_cons; [done|]. by apply (v_request _ _ Hv).
  - by left.
Qed.

Lemma answer_inv s x refs' : inv [] s -> refs s ≡ₚ Request x :: refs' -> inv [] (s <| refs := refs' |>).
Proof.
  intros Hv Hr. apply (refs_inv s (kernel s) refs'); try done.
  - intros y. by rewrite (occ_perm (Lookup y) _ _ Hr), occ_cons, decide_False.
  - intros y. by rewrite (occ_perm (Pin y) _ _ Hr), occ_cons, decide_False.
  - intros r Hin. left. rewrite Hr. by apply elem_of_cons; right.
  - intros y Hy. apply (v_request _ _ Hv). unfold all_refs. rewrite Hr. by apply elem_of_cons; right.
  - by left.
Qed.

Lemma replied_inv s x refs' : inv [] s -> refs s ≡ₚ Lookup x :: refs' -> inv [] (with_refs (x :: kernel s) refs' s).
Proof.
  intros Hv Hr. apply refs_inv; try done.
  - intros y. rewrite (occ_perm (Lookup y) _ _ Hr), !occ_cons.
    destruct (decide (x = y)) as [->|]; [rewrite decide_True by done; lia|rewrite decide_False by congruence; lia].
  - intros y. by rewrite (occ_perm (Pin y) _ _ Hr), occ_cons, decide_False.
  - intros r Hin. left. rewrite Hr. by apply elem_of_cons; right.
  - intros y Hy. destruct (v_request _ _ Hv y) as [|Hk]; [|by left|right; by apply elem_of_cons; right].
    unfold all_refs. rewrite Hr. by apply elem_of_cons; right.
  - intros y [->|Hy]%elem_of_cons; [right; rewrite Hr; constructor|by left].
Qed.

Lemma forgotten_inv s x n kernel' :
  inv [] s -> kernel s ≡ₚ replicate (Z.to_nat n) x ++ kernel' -> 0 < n <= UINT64_MAX ->
  (Request x ∈ all_refs s -> x ∈ kernel') -> inv [] (with_refs kernel' (refs s) (forget_inode s x n)).
Proof.
  intros Hv Hk Hn Hx.
  assert (Hxk : x ∈ kernel s). { rewrite Hk. apply elem_of_app. left. apply elem_of_replicate. split; [done|lia]. }
  destruct (v_kernel _ _ Hv _ Hxk) as [Hlive Hroot]. apply forget_inv; try done.
  - lia.
  - intros y. rewrite (occ_perm y _ _ Hk), occ_app, occ_replicate.
    destruct (decide (x = y)) as [->|]; [rewrite decide_True by done|rewrite decide_False by congruence]; lia.
  - intros y Hy. destruct (v_request _ _ Hv y Hy) as [|Hyk]; [by left|]. right. rewrite Hk in Hyk.
    apply elem_of_app in Hyk as [[-> _]%elem_of_replicate|]; [by apply Hx|done].
  - intros y Hy. rewrite Hk. apply elem_of_app. by right.
Qed.

Lemma reply_failed_inv s x refs' :
  inv [] s -> refs s ≡ₚ Lookup x :: refs' -> inv [] (with_refs (kernel s) refs' (forget_inode s x 1)).
Proof.
  intros Hv Hr. assert (Hin : Lookup x ∈ all_refs s) by (apply elem_of_all_refs; left; rewrite Hr; constructor).
  apply forget_inv; try done.
  - apply (v_refs _ _ Hv _ Hin).
  - by apply (v_lookups _ _ Hv).
  - intros y. rewrite (occ_perm (Lookup y) _ _ Hr), occ_cons.
    destruct (decide (y = x)) as [->|]; [rewrite decide_True by done; lia|rewrite decide_False by congruence; lia].
  - intros y. by rewrite (occ_perm (Pin y) _ _ Hr), occ_cons, decide_False.
  - intros r Hin'. rewrite Hr. by apply elem_of_cons; right.
  - intros y Hy. apply (v_request _ _ Hv). unfold all_refs. rewrite Hr. by apply elem_of_cons; right.
Qed.

(** The job that a section leaves. *)
Lemma taken_to_job s h refs' taken stale :
  taken_from (target h) (s, stale) -> refs s ≡ₚ h :: taken ++ refs' ->
  inv [] (s <| refs := taken ++ refs' |> <| jobs := (stale, h) :: jobs s |>).
Proof. intros [Hv Hst] Hr. by eapply loose_to_job. Qed.

(** The sections leave the references and the jobs alone. *)
Lemma prune_section_rest s p g s' stale : prune_section s p g = (s', stale) -> refs s' = refs s /\ jobs s' = jobs s.
Proof.
  intros E. assert (H : (fun acc : Store * list Z => refs acc.1 = refs s /\ jobs acc.1 = jobs s) (prune_section s p g)).
  { unfold prune_section. apply foldl_inv; [|done]. intros [t l] k Ht. unfold prune_slot. by repeat case_match. }
  by rewrite E in H.
Qed.

Lemma detach_section_rest s x p s' r : detach_section s x p = (s', r) -> refs s' = refs s /\ jobs s' = jobs s.
Proof. unfold detach_section. intros E. repeat case_match; simplify_eq; done. Qed.

Lemma install_section_jobs s p new slot g name d e pending lookup defer changed s' taken stale r :
  install_section s p new slot g name d e pending lookup defer changed = (s', taken, stale, r) -> jobs s' = jobs s.
Proof.
  unfold install_section, install_finish, retain_open. intros E. destruct pending; repeat case_match; simplify_eq; done.
Qed.

Lemma counted_inv s : inv [] s -> 0 < uncounted s -> inv [] (cache_inode_allocated s).
Proof.
  intros Hv Hu. destruct Hv. constructor; try done; cbn; lia.
Qed.

Lemma inode_step_inv s s' : inv [] s -> step false s s' -> inv [] s'.
Proof.
  intros Hv Hs. destruct Hs as [x Hx|x refs' Hr|x n k Hk Hn Hx|p name c s' _ E|x refs' Hr|x refs' Hr|p name c s' _ E|x s' _ E|
    p c s' _ _ E|x refs' Hr|x b _|x _|p new slot g name d e pe lo de ch s' tk r _ Hn Hs E|
    h refs' new slot g name d e pe lo de ch s' tk st r Hr Hn Hs E|x h refs' s' _ Hr E|h refs' g s' st Hr E|x xs h be af s' Hj E|
    h be af Hj|x s' E|p _|x p q slot name s' iq l _ _ _ Hq Hs Hl Hql E|Hu|? ? ? ? [=]].
  - by apply request_inv.
  - by eapply answer_inv.
  - by apply forgotten_inv.
  - by eapply lookup_child_inv.
  - by apply replied_inv.
  - by apply reply_failed_inv.
  - unfold pin_cached_child in E. destruct (cached_child s p name) as [[c' i]|]; [|done].
    destruct (retain_open s c') as [s1 ok] eqn:E1. destruct ok; [|done]. injection E as <- <-. by eapply retain_open_inv.
  - by eapply retain_open_inv.
  - by eapply retain_open_inv.
  - by apply release_open_inv.
  - apply flags_inv; [done|]. intros; cbn; auto 6.
  - by apply set_detached_inv.
  - by destruct (install_section_inv _ _ _ _ _ _ _ _ _ _ _ _ _ _ _ _ Hv Hn Hs E) as [H _].
  - pose proof (install_section_inv _ _ _ _ _ _ _ _ _ _ _ _ _ _ _ _ Hv Hn Hs E) as H.
    rewrite <- (install_section_jobs _ _ _ _ _ _ _ _ _ _ _ _ _ _ _ _ E).
    refine (taken_to_job (s' <| refs := tk ++ refs s |>) h refs' tk [st] H _). cbn. rewrite Hr. solve_Permutation.
  - destruct (detach_section_rest _ _ _ _ _ E) as [Hrefs Hjobs]. rewrite <- Hjobs.
    apply (taken_to_job s' h refs' []); [by eapply detach_section_inv|]. by rewrite Hrefs.
  - destruct (prune_section_rest _ _ _ _ _ E) as [Hrefs Hjobs]. rewrite <- Hjobs.
    apply (taken_to_job s' h refs' []); [rewrite <- E; by apply prune_section_inv|]. by rewrite Hrefs.
  - by eapply retire_item_inv.
  - by apply job_done.
  - by eapply sweep_item_inv.
  - by apply reclaim_cached_children_inv.
  - by eapply move_cached_item_inv.
  - by apply counted_inv.
Qed.

Lemma inode_run_inv s : run false s -> inv [] s.
Proof. induction 1 as [root|s s' _ IH Hs]; [apply new_store_inv|by eapply inode_step_inv]. Qed.

(** ** The sweep *)

Lemma delete_tree_rest s x :
  retired_items (delete_tree s x) = retired_items s /\ kernel (delete_tree s x) = kernel s /\
  refs (delete_tree s x) = refs s /\ jobs (delete_tree s x) = jobs s.
Proof. unfold delete_tree. by destruct (tree s x). Qed.

Lemma sweep_item_rest s s' x :
  sweep_item s x = Some s' ->
  is_Some (retired_items s !! x) /\ retired_items s' = delete x (retired_items s) /\
  kernel s' = kernel s /\ refs s' = refs s /\ jobs s' = jobs s.
Proof.
  unfold sweep_item. destruct (retired_items s !! x) as [parent|] eqn:Hr; [|done]. destruct (heap s !! x); [|done].
  case_match; [|done]. intros [= <-]. split; [eauto|].
  assert (Hd : retired_items (detach_parent_slot_if_owned s x parent) = retired_items s /\
               kernel (detach_parent_slot_if_owned s x parent) = kernel s /\
               refs (detach_parent_slot_if_owned s x parent) = refs s /\ jobs (detach_parent_slot_if_owned s x parent) = jobs s)
    by (unfold detach_parent_slot_if_owned; by repeat case_match).
  destruct (delete_tree_rest (detach_parent_slot_if_owned s x parent <| retired_items :=
    delete x (retired_items (detach_parent_slot_if_owned s x parent)) |>) x) as (E1 & E2 & E3 & E4).
  destruct Hd as (D1 & D2 & D3 & D4). destruct parent; cbn [release_open update];
    (split_and!; [etrans; [exact E1|]; cbn; by rewrite D1|by etrans; [exact E2|]|by etrans; [exact E3|]|by etrans; [exact E4|]]).
Qed.

(** What sweeping leaves as it is. *)
Definition same_holders (s s' : Store) : Prop := kernel s' = kernel s /\ refs s' = refs s /\ jobs s' = jobs s.

Lemma sweep_pass_spec keys s s' progress :
  sweep_pass keys s = (s', progress) ->
  rtc (step false) s s' /\ same_holders s s' /\
  if progress then (size (retired_items s') < size (retired_items s))%nat
  else s' = s /\ forall x, x ∈ keys -> sweep_item s x = None.
Proof.
  revert s s' progress. induction keys as [|x keys IH]; intros s s' progress; cbn.
  - intros [= <- <-]. split_and!; [done..|]. intros x Hx. by apply elem_of_nil in Hx.
  - destruct (sweep_item s x) as [s1|] eqn:E.
    + destruct (sweep_pass keys s1) as [s2 b] eqn:E2. intros [= <- <-].
      destruct (IH _ _ _ E2) as (Hst & (H1 & H2 & H3) & Hb).
      destruct (sweep_item_rest _ _ _ E) as (Hx & Hr & K1 & K2 & K3).
      assert (Hlt : (size (retired_items s1) < size (retired_items s))%nat).
      { rewrite Hr, map_size_delete_Some by done. destruct Hx as [o Ho].
        assert (size (retired_items s) <> 0)%nat; [|lia]. intros He%map_size_empty_inv. by rewrite He in Ho. }
      cbn. split_and!; [by eapply rtc_l; [eapply step_sweep|]|unfold same_holders; split_and!; congruence|].
      destruct b; [lia|]. by destruct Hb as [-> _].
    + intros E2. destruct (IH _ _ _ E2) as (Hst & Hh & Hb). split_and!; [done..|]. destruct progress; [done|].
      destruct Hb as [-> Hn]. split; [done|]. intros y [->|Hy]%elem_of_cons; auto.
Qed.

Lemma elem_of_retired_keys s x : x ∈ retired_keys s <-> is_Some (retired_items s !! x).
Proof.
  unfold retired_keys. rewrite merge_sort_Permutation, list_elem_of_fmap. split.
  - intros ((y & o) & -> & Hy%elem_of_map_to_list). eauto.
  - intros [o Ho]. exists (x, o). by rewrite elem_of_map_to_list.
Qed.

Lemma sweep_item_absent s x : retired_items s !! x = None -> sweep_item s x = None.
Proof. intros Hx. unfold sweep_item. by rewrite Hx. Qed.

Lemma sweep_loop_spec fuel s :
  (size (retired_items s) < fuel)%nat ->
  exists s', sweep_loop fuel s = Some s' /\ rtc (step false) s s' /\ same_holders s s' /\ forall x, sweep_item s' x = None.
Proof.
  revert s. induction fuel as [|fuel IH]; intros s Hf; [lia|]. cbn.
  destruct (sweep_pass (retired_keys s) s) as [s1 b] eqn:E.
  destruct (sweep_pass_spec _ _ _ _ E) as (Hst & (H1 & H2 & H3) & Hb). destruct b.
  - destruct (IH s1) as (s' & E' & Hst' & (K1 & K2 & K3) & Hn); [lia|]. exists s'. split_and!; [done| |split_and!; congruence|done].
    by etrans.
  - destruct Hb as [-> Hn]. exists s. split_and!; [done..|]. intros x.
    destruct (retired_items s !! x) eqn:Hx; [|by apply sweep_item_absent]. apply Hn, elem_of_retired_keys. eauto.
Qed.

Lemma run_rtc s s' : run false s -> rtc (step false) s s' -> run false s'.
Proof. intros R Hs. induction Hs as [|a b c Hab _ IH]; [done|]. apply IH. by eapply run_step. Qed.

(** ** Theorems *)

(** C8: nothing that is in use has been freed.  In every run the inodes that operations hold,
    that the kernel knows and that are waiting to be retired are allocated, and so are the
    parents of all inodes; an entry of a directory is an allocated inode with that parent and
    that slot; [nlookup] and [open_count] are the numbers of references; an inode other than the
    root is in its directory, retired, or about to be; and [cached_inodes] counts them, except
    those that are allocated and not counted yet, and except for what a deletion has left in it
    that found it too small.  Whoever takes an inode out of a directory holds the directory: the
    two callers that do not are outside these runs. *)
Theorem inodes_well_formed s :
  run false s ->
  (forall r, r ∈ refs s -> is_Some (heap s !! target r)) /\
  (forall x, x ∈ kernel s \/ x ∈ job_items (jobs s) \/ is_Some (retired_items s !! x) -> is_Some (heap s !! x)) /\
  (forall x i, heap s !! x = Some i -> x <> root s -> is_Some (heap s !! i_parent i)) /\
  (forall p i k nm c, heap s !! p = Some i -> i_entries i !! k = Some (nm, c) ->
     exists j, heap s !! c = Some j /\ i_parent j = p /\ i_slot j = k) /\
  (forall x i, heap s !! x = Some i ->
     i_nlookup i = occ x (kernel s) + occ (Lookup x) (all_refs s) /\
     i_open_count i = occ (Pin x) (all_refs s) + retired_holds (retired_items s) x) /\
  (forall x i, heap s !! x = Some i -> x <> root s ->
     child (heap s) (i_parent i) x \/ is_Some (retired_items s !! x) \/ x ∈ job_items (jobs s)) /\
  cached_inodes s + uncounted s = Z.of_nat (size (heap s)) - 1 + skipped s /\ 0 <= uncounted s /\ 0 <= skipped s.
Proof.
  intros Hv%inode_run_inv.
  assert (Hfl : forall x, x ∈ floating [] s <-> is_Some (retired_items s !! x) \/ x ∈ job_items (jobs s)).
  { intros x. rewrite elem_of_floating, elem_of_job_items, elem_of_nil. tauto. }
  split_and!.
  - intros r Hr. apply (v_refs _ _ Hv), elem_of_all_refs. by left.
  - intros x [Hx|Hx]; [by apply (v_kernel _ _ Hv)|]. apply (v_floating _ _ Hv), Hfl. tauto.
  - intros x i Hx Hr. by apply (v_parent _ _ Hv _ _ Hx).
  - apply (forest_edge _ (v_forest _ _ Hv)).
  - intros x i Hx. destruct (v_nlookup _ _ Hv _ _ Hx). by destruct (v_open _ _ Hv _ _ Hx).
  - intros x i Hx Hr. destruct (v_linked _ _ Hv _ _ Hx Hr) as [Hin%Hfl|]; tauto.
  - apply (v_cached _ _ Hv).
  - apply (v_uncounted _ _ Hv).
  - apply (v_uncounted _ _ Hv).
Qed.

(** C9: a sweep ends and frees everything that can be freed.  After at most one pass for each
    retired inode [sweep_retired_items] returns, no retired inode is reclaimable any more, what
    operations and the kernel hold is as before, and the inodes are as well-formed as before. *)
Theorem sweep_ends_exact s :
  run false s ->
  exists s', sweep_retired_items s = Some s' /\ run false s' /\ same_holders s s' /\
    forall x i, is_Some (retired_items s' !! x) -> heap s' !! x = Some i ->
      i_detached i && item_tree_unreferenced s' x = false.
Proof.
  intros R. assert (H : exists s', sweep_retired_items s = Some s' /\ rtc (step false) s s' /\ same_holders s s' /\ forall x, sweep_item s' x = None).
  { unfold sweep_retired_items. destruct (Nat.eqb_spec (size (retired_items s)) 0) as [He|He].
    - exists s. split_and!; [done..|]. intros x. apply sweep_item_absent. apply map_size_empty_inv in He. by rewrite He.
    - apply sweep_loop_spec. lia. }
  destruct H as (s' & E & Hst & Hh & Hn). exists s'. split_and!; [done|by eapply run_rtc|done|].
  intros x i [parent Hx] Hi. specialize (Hn x). unfold sweep_item in Hn. rewrite Hx, Hi in Hn. by destruct (_ && _).
Qed.

(** A directory 20 with a file 30, whose names are removed while the kernel knows them. *)
Definition installed (s : Store) (p new : Z) (name : bytes) (directory : bool) : Store :=
  let '(s', taken, _, _) := install_section s p new 0 0 name directory true false true false false in
  cache_inode_allocated (s' <| refs := taken ++ refs s |>).
Definition replied (s : Store) (x : Z) : Store := with_refs (x :: kernel s) (tail (refs s)) s.
Definition asked (s : Store) (x : Z) : Store := s <| refs := Request x :: refs s |>.
Definition pinned (s : Store) (p x : Z) (name : bytes) : Store := (pin_cached_child s p name).1 <| refs := Pin x :: refs s |>.
Definition detached (s : Store) (x : Z) (h : Ref) (rest : list Ref) : Store :=
  (detach_section s x (target h)).1 <| refs := rest |> <| jobs := ([x], h) :: jobs s |>.
Definition retired (s : Store) (x : Z) (h : Ref) : Store := (retire_item s x).1 <| jobs := [([], h)] |>.
Definition finished (s : Store) (h : Ref) : Store := s <| refs := h :: refs s |> <| jobs := [] |>.

Definition sample_file : Store :=
  replied (installed (asked (replied (installed (asked (new_store 1) 1) 1 20 (lit "d") true) 20) 20) 20 30 (lit "f") false) 30.
Definition sample_unlinked : Store :=
  finished (retired (detached (pinned sample_file 20 30 (lit "f")) 30 (Request 20) [Pin 30; Request 1]) 30 (Request 20)) (Request 20).
Definition sample_removed : Store :=
  finished (retired (detached (pinned sample_unlinked 1 20 (lit "d")) 20 (Request 1) [Pin 20; Request 20; Pin 30]) 20 (Request 1)) (Request 1).

Lemma run_asked {discards} s x : run discards s -> x = root s \/ x ∈ kernel s -> run discards (asked s x).
Proof. intros R H. by eapply run_step; [|apply step_request]. Qed.

Lemma run_installed {discards} s p new name directory :
  run discards s -> held s p -> heap s !! new = None -> i_entries <$> heap s !! p = Some ∅ ->
  (install_section s p new 0 0 name directory true false true false false).1.2 = None ->
  0 < uncounted (install_section s p new 0 0 name directory true false true false false).1.1.1 ->
  run discards (installed s p new name directory).
Proof.
  intros R Hh Hn Hs Hst Hu. unfold installed. destruct (install_section _ _ _ _ _ _ _ _ _ _ _ _) as [[[s' taken] stale] r] eqn:E.
  cbn in Hst. subst stale. eapply run_step; [|by apply step_count]. eapply run_step; [exact R|]. eapply (step_install _ s p new 0 0 name directory); [done..| |exact E].
  intros ip Hp. rewrite Hp in Hs. injection Hs as Hs. by rewrite Hs.
Qed.

Lemma run_replied {discards} s x rest : run discards s -> refs s = Lookup x :: rest -> run discards (replied s x).
Proof. intros R H. eapply run_step; [exact R|]. apply step_replied. by rewrite H. Qed.

Lemma run_pinned {discards} s p x name : run discards s -> held s p -> (pin_cached_child s p name).2 = Some x -> run discards (pinned s p x name).
Proof.
  intros R Hh H. eapply run_step; [exact R|]. apply (step_pin_child _ s p name x); [done|].
  destruct (pin_cached_child s p name). by cbn in H; subst.
Qed.

Lemma run_detached {discards} s x h rest :
  run discards s -> held s x -> refs s ≡ₚ h :: rest -> (detach_section s x (target h)).2 = Ok true -> run discards (detached s x h rest).
Proof.
  intros R Hh Hr H. eapply run_step; [exact R|]. apply (step_detach _ s x h rest); [done..|].
  destruct (detach_section s x (target h)). by cbn in H; subst.
Qed.

Lemma run_retired {discards} s x h : run discards s -> jobs s = [([x], h)] -> (retire_item s x).2 = Ok tt -> run discards (retired s x h).
Proof.
  intros R Hj H. eapply run_step; [exact R|]. apply (step_retire _ s x [] h [] []); [done|].
  destruct (retire_item s x). by cbn in H; subst.
Qed.

Lemma run_finished {discards} s h : run discards s -> jobs s = [([], h)] -> run discards (finished s h).
Proof. intros R Hj. eapply run_step; [exact R|]. exact (step_retired _ s h [] [] Hj). Qed.

(** The holder is the [n]th reference. *)
Lemma held_nth s x n : target <$> refs s !! n = Some x -> held s x.
Proof. intros (r & Hr & ->)%fmap_Some. exists r. split; [by eapply list_elem_of_lookup_2|done]. Qed.

Lemma sample_file_run {discards} : run discards sample_file.
Proof.
  unfold sample_file. eapply run_replied; [|vm_compute; reflexivity].
  apply run_installed; [|apply (held_nth _ _ 0); reflexivity|vm_compute; reflexivity..].
  apply run_asked; [|right; vm_compute; constructor]. eapply run_replied; [|vm_compute; reflexivity].
  apply run_installed; [|apply (held_nth _ _ 0); reflexivity|vm_compute; reflexivity..].
  apply run_asked; [apply run_new|by left].
Qed.

Lemma sample_unlinked_run : run false sample_unlinked.
Proof.
  apply run_finished; [|vm_compute; reflexivity]. apply run_retired; [|vm_compute; reflexivity..].
  apply run_detached; [|apply (held_nth _ _ 0); reflexivity|vm_compute; solve_Permutation|vm_compute; reflexivity].
  apply run_pinned; [exact sample_file_run|apply (held_nth _ _ 0); reflexivity|vm_compute; reflexivity].
Qed.

Lemma sample_removed_run : run false sample_removed.
Proof.
  apply run_finished; [|vm_compute; reflexivity]. apply run_retired; [|vm_compute; reflexivity..].
  apply run_detached; [|apply (held_nth _ _ 0); reflexivity|vm_compute; solve_Permutation|vm_compute; reflexivity].
  apply run_pinned; [exact sample_unlinked_run|apply (held_nth _ _ 2); reflexivity|vm_compute; reflexivity].
Qed.

Lemma inodes_well_formed_witness :
  retired_keys sample_removed = [20; 30] /\ cached_inodes sample_removed = 2 /\
  forall r, r ∈ refs sample_removed -> is_Some (heap sample_removed !! target r).
Proof. split; [reflexivity|]. split; [reflexivity|]. apply (inodes_well_formed sample_removed sample_removed_run). Defined.

Lemma sweep_ends_exact_witness :
  exists s', sweep_retired_items sample_removed = Some s' /\ run false s' /\ retired_keys s' = [20; 30].
Proof.
  destruct (sweep_ends_exact sample_removed sample_removed_run) as (s' & E & R & _). exists s'. split; [exact E|].
  split; [exact R|]. assert (Hs : sweep_retired_items sample_removed = Some sample_removed) by reflexivity.
  assert (s' = sample_removed) as -> by congruence. reflexivity.
Defined.

Lemma run_answered {discards} s x rest : run discards s -> refs s ≡ₚ Request x :: rest -> run discards (s <| refs := rest |>).
Proof. intros R H. eapply run_step; [exact R|]. by apply (step_answer _ s x). Qed.

Lemma run_unpinned {discards} s x rest : run discards s -> refs s ≡ₚ Pin x :: rest -> run discards (release_open s x <| refs := rest |>).
Proof. intros R H. eapply run_step; [exact R|]. by apply (step_unpin _ s x). Qed.

(** The operations have ended; the kernel still knows both. *)
Definition sample_idle : Store :=
  release_open (release_open sample_removed 20 <| refs := [Request 1; Request 20; Pin 30] |>) 30 <| refs := [Request 1; Request 20] |>
    <| refs := [Request 20] |> <| refs := [] |>.

Lemma sample_idle_run : run false sample_idle.
Proof.
  unfold sample_idle. apply (run_answered _ 20); [|vm_compute; reflexivity]. apply (run_answered _ 1); [|vm_compute; reflexivity].
  apply run_unpinned; [|vm_compute; solve_Permutation]. apply run_unpinned; [|vm_compute; solve_Permutation].
  exact sample_removed_run.
Qed.

(** C35: the mount can end with a use of freed memory.  A file and then its directory are
    removed while the kernel knows them, and the kernel forgets neither before the mount ends.
    [~State] frees the retired inodes in the order of their addresses: the directory first if
    its address is lower, and then reads that directory as the parent of the file. *)
Theorem destroy_reads_freed_parent :
  exists s, run false s /\ refs s = [] /\ jobs s = [] /\ kernel s = [30; 20] /\
    retired_items s !! 20 = Some (Some 1) /\ retired_items s !! 30 = Some (Some 20) /\ destroy_state s = None.
Proof. exists sample_idle. split; [apply sample_idle_run|]. split_and!; reflexivity. Qed.

(** ** Taking an inode out without its directory *)

(** The file 30 is open and pending, and the kernel has forgotten it and its directory 20.  Its
    release takes it out of the directory; the directory is then empty and unreferenced, and
    another operation reclaims it before [retire_item] counts it as the parent of the file. *)
Definition sample_open : Store := pinned sample_file 20 30 (lit "f") <| refs := [Pin 30; Request 1] |> <| refs := [Pin 30] |>.
Definition forgotten (s : Store) (x : Z) : Store := with_refs (tail (kernel s)) (refs s) (forget_inode s x 1).
Definition sample_forgotten : Store := forgotten (forgotten sample_open 30) 20.
Definition sample_discarded : Store :=
  (detach_section sample_forgotten 30 20).1 <| refs := [] |> <| jobs := [([30], Pin 30)] |>.
Definition sample_reclaimer : Store := (retain_open (asked sample_discarded 1) 1).1 <| refs := [Pin 1; Request 1] |>.
Definition sample_reclaimed : Store := reclaim_cached_children sample_reclaimer 1.

Lemma run_forgotten {discards} s x : run discards s -> head (kernel s) = Some x -> Request x ∉ all_refs s -> run discards (forgotten s x).
Proof.
  intros R Hk Hr. eapply run_step; [exact R|]. apply step_forget; [|done|done].
  destruct (kernel s); [done|]. injection Hk as ->. done.
Qed.

Lemma sample_forgotten_run : run true sample_forgotten.
Proof.
  do 2 (apply run_forgotten; [|vm_compute; reflexivity|vm_compute; set_solver]).
  apply (run_answered _ 1); [|vm_compute; solve_Permutation]. apply (run_answered _ 20); [|vm_compute; solve_Permutation].
  apply run_pinned; [exact sample_file_run|apply (held_nth _ _ 0); reflexivity|vm_compute; reflexivity].
Qed.

Lemma sample_reclaimed_run : run true sample_reclaimed.
Proof.
  apply (run_step _ sample_reclaimer); [|apply step_reclaim, (held_nth _ _ 0); reflexivity].
  apply (run_step _ (asked sample_discarded 1)).
  2: { refine (step_pin true _ 1 (retain_open (asked sample_discarded 1) 1).1 _ _);
       [left; apply (held_nth _ _ 0); reflexivity|vm_compute; reflexivity]. }
  apply run_asked; [|left; reflexivity]. eapply run_step; [exact sample_forgotten_run|].
  refine (step_discard true sample_forgotten 30 [] _ (detach_section sample_forgotten 30 20).1 eq_refl _ _ _);
    vm_compute; reflexivity.
Qed.

Lemma discard_leaves_freed_parent :
  exists s x i, run true s /\ x ∈ job_items (jobs s) /\ heap s !! x = Some i /\ heap s !! i_parent i = None.
Proof.
  exists sample_reclaimed, 30, (mkInode 20 false true false 0 0 0 1 ∅). split; [exact sample_reclaimed_run|].
  split_and!; [apply (bool_decide_unpack _); vm_compute; done|reflexivity..].
Qed.
