(* ===== verification/ClockList.v ===== *)
(** * The clock of cached directories

    Directories that have been listed are linked in a ring through [clock_prev] and
    [clock_next]; [cache_clock_hand] points into it ([fuse.cpp]).  When too many inodes are
    cached, [cache_reclaim_tick] moves the hand and offers the directories that have not been
    used since the hand last passed.  All of this runs under [cache_mutex], and every function
    here is one section of it, except [cache_touch], which is one store.  [None] stands for the
    use of a null pointer. *)

From S2P Require Import Prelude.

(** ** Data *)

(** The members of [Directory]. *)
Record Links := mkLinks {
  clock_prev : option Z; clock_next : option Z; clock_linked : bool; clock_referenced : bool;
}.
#[global] Instance Links_settable : Settable Links := fun d =>
  mkLinks (clock_prev d) (clock_next d) (clock_linked d) (clock_referenced d).

(** The members of [State], and the directories. *)
Record Clock := mkClock { links : gmap Z Links; cache_clock_hand : option Z; cache_clock_size : Z }.
#[global] Instance Clock_settable : Settable Clock := fun s =>
  mkClock (links s) (cache_clock_hand s) (cache_clock_size s).

Definition new_links : Links := mkLinks None None false false.
Definition node (s : Clock) (x : Z) : Links := default new_links (links s !! x).
Definition set_node (x : Z) (f : Links -> Links) (s : Clock) : Clock :=
  s <| links := <[x := f (node s x)]> (links s) |>.

Definition set_prev (x : Z) (p : option Z) (s : Clock) : Clock := set_node x (fun d => d <| clock_prev := p |>) s.
Definition set_next (x : Z) (p : option Z) (s : Clock) : Clock := set_node x (fun d => d <| clock_next := p |>) s.
Definition set_linked (x : Z) (b : bool) (s : Clock) : Clock := set_node x (fun d => d <| clock_linked := b |>) s.

(** ** Operations *)

Definition cache_touch (s : Clock) (x : Z) : Clock := set_node x (fun d => d <| clock_referenced := true |>) s.

(** The section of [cache_register_directory]; [detached] is what [item.detached()] is then. *)
Definition cache_register_directory (s : Clock) (x : Z) (detached : bool) : option Clock :=
  if clock_linked (node s x) || detached then Some s
  else
    s ← match cache_clock_hand s with
        | None => Some (set_next x (Some x) (set_prev x (Some x) s) <| cache_clock_hand := Some x |>)
        | Some hand =>
            tail ← clock_prev (node s hand);
            Some (set_prev hand (Some x) (set_next tail (Some x) (set_next x (Some hand) (set_prev x (Some tail) s))))
        end;
    Some (set_linked x true s <| cache_clock_size := cache_clock_size s + 1 |>).

Definition cache_unregister_directory (s : Clock) (x : Z) : option Clock :=
  if negb (clock_linked (node s x)) then Some s
  else
    s ← (if decide (clock_next (node s x) = Some x) then Some (s <| cache_clock_hand := None |>)
         else
           prev ← clock_prev (node s x);
           next ← clock_next (node s x);
           let s := set_next prev (clock_next (node s x)) s in
           let s := set_prev next (clock_prev (node s x)) s in
           Some (if decide (cache_clock_hand s = Some x)
                 then s <| cache_clock_hand := clock_next (node s x) |> else s));
    Some (set_linked x false (set_next x None (set_prev x None s)) <| cache_clock_size := cache_clock_size s - 1 |>).

(** The section of one turn of [cache_reclaim_tick]: [None] in the result is the end of the loop
    at an empty ring, [Some None] a directory that is passed over, because it was used or because
    its [open_count] is UINT32_MAX, which [full] says. *)
Definition clock_turn (full : Z -> bool) (s : Clock) : Clock * option (option Z) :=
  match cache_clock_hand s with
  | None => (s, None)
  | Some x =>
      let s := s <| cache_clock_hand := clock_next (node s x) |> in
      if clock_referenced (node s x)
      then (set_node x (fun d => d <| clock_referenced := false |>) s, Some None)
      else (s, Some (if full x then None else Some x))
  end.

Definition scan_limit (s : Clock) (maximum_scan : Z) : Z :=
  Z.min maximum_scan (if (SIZE_MAX - 1) / 2 <? cache_clock_size s then SIZE_MAX else cache_clock_size s * 2 + 1).

(** Every use of the clock. *)
Inductive op := Touch (x : Z) | Register (x : Z) (detached : bool) | Unregister (x : Z) | Turn (full : Z -> bool).

Definition exec (s : Clock) (o : op) : option Clock :=
  match o with
  | Touch x => Some (cache_touch s x)
  | Register x detached => cache_register_directory s x detached
  | Unregister x => cache_unregister_directory s x
  | Turn full => Some (clock_turn full s).1
  end.

Definition run_clock (s : Clock) (ops : list op) : option Clock := foldl (fun s o => s ← s; exec s o) (Some s) ops.

(** The loop of [cache_reclaim_tick] over [limit] turns, from turn [scan] on.  [work scan] is what
    happens to the clock after a turn and before the next: reclaiming the children of the offered
    directory unregisters those that are directories, and other threads run.  [below scan] says
    whether few enough inodes are cached then.  The result are the directories offered. *)
Fixpoint scan_loop (full : Z -> bool) (work : nat -> list op) (below : nat -> bool)
    (limit scan : nat) (s : Clock) : option (Clock * list Z) :=
  match limit with
  | O => Some (s, [])
  | S limit =>
      match clock_turn full s with
      | (s, None) => Some (s, [])
      | (s, Some None) =>
          s ← run_clock s (work scan);
          scan_loop full work below limit (S scan) s
      | (s, Some (Some x)) =>
          s ← run_clock s (work scan);
          if below scan then Some (s, [x])
          else
            r ← scan_loop full work below limit (S scan) s;
            Some (r.1, x :: r.2)
      end
  end.

(** ** The ring that the pointers make *)

(** Neighbours of a list whose last element is followed by [z]. *)
Definition pairs (l : list Z) (z : Z) : list (Z * Z) := zip l (drop 1 l ++ [z]).

Definition cycle (l : list Z) : list (Z * Z) := match l with [] => [] | x :: _ => pairs l x end.

(** [l] is the ring, from the hand on. *)
Record ring (s : Clock) (l : list Z) : Prop := mkRing {
  ring_nodup : NoDup l;
  ring_hand : cache_clock_hand s = head l;
  ring_size : cache_clock_size s = Z.of_nat (length l);
  ring_linked : forall x, clock_linked (node s x) = true <-> x ∈ l;
  ring_pairs : forall a b, (a, b) ∈ cycle l -> clock_next (node s a) = Some b /\ clock_prev (node s b) = Some a;
}.

Definition first (l : list Z) (z : Z) : Z := default z (head l).

Lemma pairs_cons x l z : pairs (x :: l) z = (x, first l z) :: pairs l z.
Proof. unfold pairs, first. destruct l; cbn; by rewrite ?drop_0. Qed.

Lemma pairs_app l k z : pairs (l ++ k) z = pairs l (first k z) ++ pairs k z.
Proof.
  induction l as [|x l IH]; [done|]. cbn [app]. rewrite !pairs_cons, IH. cbn [app]. do 2 f_equal.
  by destruct l.
Qed.

Lemma cycle_first l : cycle l = pairs l (first l 0).
Proof. by destruct l. Qed.

Lemma cycle_rotate x l a b : (a, b) ∈ cycle (l ++ [x]) <-> (a, b) ∈ cycle (x :: l).
Proof.
  destruct l as [|y l]; [done|]. cbn [app cycle]. rewrite app_comm_cons, pairs_app, (pairs_cons x (y :: l)).
  change (pairs [x] y) with [(x, y)]. change (first (y :: l) x) with y. change (first [x] y) with x.
  rewrite elem_of_app, list_elem_of_singleton, elem_of_cons. tauto.
Qed.

Lemma cycle_app_comm l k a b : (a, b) ∈ cycle (l ++ k) <-> (a, b) ∈ cycle (k ++ l).
Proof.
  revert k. induction l as [|x l IH]; intros k; [by rewrite app_nil_r|].
  by rewrite (cons_middle x k l), (assoc_L (++) k), <- IH, (assoc_L (++)), cycle_rotate.
Qed.

Lemma node_set_eq s x f : node (set_node x f s) x = f (node s x).
Proof. unfold node at 1, set_node. cbn. by rewrite lookup_insert_eq. Qed.
Lemma node_set_ne s x y f : x <> y -> node (set_node x f s) y = node s y.
Proof. intros Hne. unfold node, set_node. cbn. by rewrite lookup_insert_ne. Qed.

Lemma node_set s x y f : node (set_node x f s) y = if decide (x = y) then f (node s x) else node s y.
Proof. case_decide as E; [subst; apply node_set_eq|by apply node_set_ne]. Qed.

Lemma node_set_prev s x p y :
  node (set_prev x p s) y = node s y <| clock_prev := if decide (x = y) then p else clock_prev (node s y) |>.
Proof. unfold set_prev. rewrite node_set. case_decide as E; [by subst|by destruct (node s y)]. Qed.
Lemma node_set_next s x p y :
  node (set_next x p s) y = node s y <| clock_next := if decide (x = y) then p else clock_next (node s y) |>.
Proof. unfold set_next. rewrite node_set. case_decide as E; [by subst|by destruct (node s y)]. Qed.
Lemma node_set_linked s x b y :
  node (set_linked x b s) y = node s y <| clock_linked := if decide (x = y) then b else clock_linked (node s y) |>.
Proof. unfold set_linked. rewrite node_set. case_decide as E; [by subst|by destruct (node s y)]. Qed.

(** In a ring the neighbours of an element are what the pointers say. *)
Lemma pairs_last l z x : pairs (l ++ [z]) x = pairs l z ++ [(z, x)].
Proof. by rewrite pairs_app. Qed.

Lemma pairs_fst l z a b : (a, b) ∈ pairs l z -> a ∈ l.
Proof.
  revert a b. induction l as [|x l IH]; intros a b; [intros H; by apply elem_of_nil in H|].
  rewrite pairs_cons. intros [[= -> ->]|H]%elem_of_cons; [constructor|]. apply elem_of_cons. right. by eapply IH.
Qed.
Lemma pairs_snd l z a b : (a, b) ∈ pairs l z -> b ∈ drop 1 l \/ b = z.
Proof.
  revert a b. induction l as [|x l IH]; intros a b; [intros H; by apply elem_of_nil in H|].
  rewrite pairs_cons. intros [[= -> ->]|H]%elem_of_cons.
  - destruct l as [|y l]; cbn; [by right|left; constructor].
  - apply IH in H as [H|H]; [left|by right]. destruct l as [|y l]; [by apply elem_of_nil in H|]. cbn in *.
    apply elem_of_cons. by right.
Qed.

(** ** Registering *)

Lemma cycle_last l z : cycle (l ++ [z]) = pairs l z ++ [(z, first l z)].
Proof. destruct l as [|h l]; [done|]. cbn [app cycle]. by rewrite app_comm_cons, pairs_last. Qed.

Lemma head_last l z : head (l ++ [z]) = Some (first l z).
Proof. by destruct l. Qed.

Lemma pairs_ends l z a b :
  NoDup (l ++ [z]) -> (a, b) ∈ pairs l z -> a ∈ l /\ a <> z /\ b ∈ l ++ [z] /\ b <> first l z.
Proof.
  intros Hnd Hab. pose proof (pairs_fst _ _ _ _ Hab) as Ha. apply NoDup_app in Hnd as (Hnd & Hd & _).
  assert (Hz : z ∉ l) by (intros Hz; apply (Hd _ Hz); constructor).
  destruct l as [|h l]; [by apply elem_of_nil in Ha|]. apply NoDup_cons in Hnd as [Hh Hnd].
  apply pairs_snd in Hab. cbn in *. split_and!; [done|by intros ->| |].
  - rewrite elem_of_cons, elem_of_app, list_elem_of_singleton. destruct Hab; auto.
  - unfold first. cbn. destruct Hab as [Hb| ->]; [by intros ->|]. intros ->. apply Hz. constructor.
Qed.

Lemma register_ring s l x :
  ring s l -> x ∉ l -> exists s', cache_register_directory s x false = Some s' /\ ring s' (l ++ [x]).
Proof.
  intros [Hnd Hh Hsz Hlk Hp] Hx. unfold cache_register_directory.
  assert (Hl : clock_linked (node s x) = false).
  { destruct (clock_linked (node s x)) eqn:E; [|done]. by apply Hlk in E. }
  rewrite Hl, Hh. cbn [orb]. destruct l as [|z l _] using rev_ind.
  - eexists. split; [reflexivity|]. constructor; cbn.
    + apply NoDup_singleton.
    + done.
    + by rewrite Hsz.
    + intros y. rewrite list_elem_of_singleton. change (node _ y) with (node (set_linked x true (set_next x (Some x) (set_prev x (Some x) s))) y).
      rewrite node_set_linked, node_set_next, node_set_prev. cbn. case_decide; [by subst|].
      rewrite Hlk, elem_of_nil. naive_solver.
    + intros a b [= -> ->]%list_elem_of_singleton.
      change (node _ ?y) with (node (set_linked x true (set_next x (Some x) (set_prev x (Some x) s))) y).
      rewrite node_set_linked, node_set_next, node_set_prev. cbn. by rewrite !decide_True.
  - rewrite head_last. cbn. set (h := first l z).
    rewrite cycle_last in Hp. fold h in Hp.
    destruct (Hp z h) as [Hn Hpr]; [apply elem_of_app; right; constructor|]. rewrite Hpr. cbn.
    eexists. split; [reflexivity|].
    set (s1 := set_prev h (Some x) (set_next z (Some x) (set_next x (Some h) (set_prev x (Some z) s)))).
    assert (Hnode : forall y, node (set_linked x true s1 <| cache_clock_size := cache_clock_size s1 + 1 |>) y =
      node s y <| clock_prev := if decide (h = y) then Some x else if decide (x = y) then Some z else clock_prev (node s y) |>
               <| clock_next := if decide (z = y) then Some x else if decide (x = y) then Some h else clock_next (node s y) |>
               <| clock_linked := if decide (x = y) then true else clock_linked (node s y) |>).
    { intros y. trans (node (set_linked x true s1) y); [done|]. subst s1.
      by rewrite node_set_linked, node_set_prev, !node_set_next, node_set_prev. }
    assert (Hzl : z ∈ l ++ [z]) by (apply elem_of_app; right; constructor).
    assert (Hhl : h ∈ l ++ [z]) by (subst h; destruct l; [done|constructor]).
    constructor.
    + apply NoDup_app. split_and!; [done| |apply NoDup_singleton]. intros y Hy ->%list_elem_of_singleton. done.
    + cbn. rewrite Hh. subst h. by destruct l.
    + cbn. rewrite Hsz, !length_app. cbn. lia.
    + intros y. rewrite Hnode. cbn. rewrite elem_of_app, list_elem_of_singleton, <- Hlk.
      destruct (decide (x = y)); naive_solver.
    + intros a b. rewrite cycle_last. rewrite elem_of_app, list_elem_of_singleton, pairs_last, elem_of_app, list_elem_of_singleton.
      assert (Hfirst : first (l ++ [z]) x = h) by (subst h; by destruct l). rewrite Hfirst.
      rewrite !Hnode. cbn. intros [[Hab|[= -> ->]]|[= -> ->]].
      * destruct (pairs_ends _ _ _ _ Hnd Hab) as (Ha & Haz & Hb & Hbh).
        assert (a <> x) by (intros ->; apply Hx, elem_of_app; by left). assert (b <> x) by (by intros ->).
        assert (h <> b) by (by apply not_eq_sym).
        rewrite !decide_False by congruence.
        destruct (Hp a b) as [-> ->]; [apply elem_of_app; by left|done].
      * rewrite decide_True by done. rewrite (decide_False (P := h = x)) by (intros <-; done). by rewrite decide_True.
      * rewrite (decide_False (P := z = x)) by (intros <-; done). by rewrite !decide_True.
Qed.

(** ** Unregistering *)

Lemma ring_next s l x b : ring s l -> (x, b) ∈ cycle l -> clock_next (node s x) = Some b.
Proof. intros Hr Hx. by apply (ring_pairs _ _ Hr) in Hx as [? _]. Qed.
Lemma ring_prev s l x a : ring s l -> (a, x) ∈ cycle l -> clock_prev (node s x) = Some a.
Proof. intros Hr Hx. by apply (ring_pairs _ _ Hr) in Hx as [_ ?]. Qed.

(** The pointers after [x] is taken out between [z] and [n]. *)
Definition unlinked (x z n : Z) (s s' : Clock) : Prop := forall y, node s' y =
  node s y <| clock_prev := if decide (x = y) then None else if decide (n = y) then Some z else clock_prev (node s y) |>
           <| clock_next := if decide (x = y) then None else if decide (z = y) then Some n else clock_next (node s y) |>
           <| clock_linked := if decide (x = y) then false else clock_linked (node s y) |>.

Lemma unlinked_cycle s s' x r z :
  NoDup (x :: r ++ [z]) -> (forall a b, (a, b) ∈ cycle (x :: r ++ [z]) -> clock_next (node s a) = Some b /\ clock_prev (node s b) = Some a) ->
  unlinked x z (first r z) s s' ->
  forall a b, (a, b) ∈ cycle (r ++ [z]) -> clock_next (node s' a) = Some b /\ clock_prev (node s' b) = Some a.
Proof.
  intros [Hx Hnd]%NoDup_cons Hp Hu a b. rewrite cycle_last, elem_of_app, list_elem_of_singleton, !Hu. cbn.
  assert (Hz : z ∈ r ++ [z]) by (apply elem_of_app; right; constructor).
  assert (Hf : first r z ∈ r ++ [z]) by (destruct r; [done|constructor]).
  intros [Hab|[= -> ->]].
  - destruct (pairs_ends _ _ _ _ Hnd Hab) as (Ha & Haz & Hb & Hbh).
    assert (a <> x) by (intros ->; apply Hx, elem_of_app; by left). assert (b <> x) by (by intros ->).
    rewrite !decide_False by congruence. apply Hp. cbn [cycle]. rewrite pairs_cons, pairs_last.
    apply elem_of_cons. right. apply elem_of_app. by left.
  - rewrite !(decide_False (P := x = _)) by (by intros ->). by rewrite !decide_True.
Qed.

Lemma unregister_ring s l k x :
  ring s (l ++ x :: k) -> exists s', cache_unregister_directory s x = Some s' /\ ring s' (l ++ k).
Proof.
  intros Hr. pose proof Hr as [Hnd Hh Hsz Hlk Hp]. unfold cache_unregister_directory.
  assert (Hxl : x ∈ l ++ x :: k) by (apply elem_of_app; right; constructor).
  rewrite (proj2 (Hlk x) Hxl). cbn [negb].
  assert (Hcyc : forall a b, (a, b) ∈ cycle (x :: k ++ l) <-> (a, b) ∈ cycle (l ++ x :: k)).
  { intros a b. rewrite (cycle_app_comm l (x :: k)). done. }
  assert (Hnd' : NoDup (x :: k ++ l)) by (revert Hnd; apply NoDup_Permutation_proper; solve_Permutation).
  assert (Hin : forall y, y ∈ l ++ k <-> y ∈ l ++ x :: k /\ y <> x).
  { intros y. apply NoDup_cons in Hnd' as [Hx _]. rewrite !elem_of_app, elem_of_cons in *.
    split; [|naive_solver]. intros Hy. split; [tauto|]. intros ->. tauto. }
  destruct (k ++ l) as [|z r _] eqn:Ekl using rev_ind.
  - apply app_eq_nil in Ekl as [-> ->]. cbn in *. destruct (Hp x x) as [Hn _]; [constructor|].
    rewrite decide_True by done. eexists. split; [reflexivity|]. constructor; cbn.
    + constructor.
    + done.
    + by rewrite Hsz.
    + intros y. rewrite elem_of_nil. trans (clock_linked (node (set_linked x false (set_next x None (set_prev x None s))) y) = true); [done|].
      rewrite node_set_linked, node_set_next, node_set_prev. cbn. case_decide; [done|]. rewrite Hlk, list_elem_of_singleton. naive_solver.
    + intros a b Hab. by apply elem_of_nil in Hab.
  - set (n := first r z).
    assert (Hxz : x <> z /\ x <> n).
    { apply NoDup_cons in Hnd' as [Hx _]. split; intros E; apply Hx; rewrite E; [apply elem_of_app; right; constructor|].
      subst n. destruct r; [constructor|constructor]. }
    assert (Hn : clock_next (node s x) = Some n).
    { apply (ring_next _ _ _ _ Hr), Hcyc. cbn [cycle]. rewrite pairs_cons. subst n. destruct r; constructor. }
    assert (Hpr : clock_prev (node s x) = Some z).
    { apply (ring_prev _ _ _ _ Hr), Hcyc. cbn [cycle]. rewrite pairs_cons, pairs_last. apply elem_of_cons. right.
      apply elem_of_app. right. constructor. }
    destruct Hxz as [Hxz Hxn]. rewrite decide_False by (rewrite Hn; by intros [= <-]).
    rewrite Hpr, Hn. cbn [mbind option_bind].
    set (s1 := set_next z (Some n) s). assert (H1 : node s1 x = node s x) by (by apply node_set_ne).
    rewrite H1, Hpr. set (s2 := set_prev n (Some z) s1).
    assert (H2 : node s2 x = node s x) by (subst s2; rewrite <- H1; by apply node_set_ne).
    rewrite H2, Hn. set (s3 := if decide (cache_clock_hand s2 = Some x) then _ else s2).
    assert (H3 : forall y, node s3 y = node s2 y) by (intros y; subst s3; by case_decide).
    eexists. split; [reflexivity|].
    assert (Hu : unlinked x z n s (set_linked x false (set_next x None (set_prev x None s3)) <| cache_clock_size := cache_clock_size s3 - 1 |>)).
    { intros y. trans (node (set_linked x false (set_next x None (set_prev x None s3))) y); [done|].
      rewrite node_set_linked, node_set_next, node_set_prev, H3. subst s2 s1. rewrite node_set_prev, node_set_next.
      destruct (node s y). cbn. by do 3 case_decide. }
    assert (Hsz3 : cache_clock_size s3 = cache_clock_size s) by (subst s3; by case_decide).
    constructor.
    + apply NoDup_cons in Hnd' as [_ Hnd']. revert Hnd'. rewrite <- Ekl. apply NoDup_Permutation_proper. solve_Permutation.
    + trans (cache_clock_hand s3); [done|]. assert (Hh2 : cache_clock_hand s2 = head (l ++ x :: k)) by (by rewrite <- Hh).
      subst s3. rewrite Hh2. destruct l as [|h l]; cbn [app head].
      * rewrite decide_True by done. rewrite app_nil_r in Ekl. rewrite Ekl. subst n. by destruct r.
      * rewrite decide_False; [by rewrite Hh2|]. intros [= ->]. cbn in Hnd. apply NoDup_cons in Hnd as [Hx _].
        apply Hx, elem_of_app. right. constructor.
    + cbn. rewrite Hsz3, Hsz, !length_app. cbn. lia.
    + intros y. rewrite (Hu y), Hin, <- Hlk. cbn. case_decide; naive_solver.
    + intros a b Hab. apply (cycle_app_comm l k) in Hab. rewrite Ekl in Hab. revert Hab.
      apply (unlinked_cycle s _ x); [done| |done]. intros a' b' Hab. by apply Hp, Hcyc.
Qed.

(** ** The hand *)

Definition used (s : Clock) (x : Z) : bool := clock_referenced (node s x).

Lemma ring_same s s' l :
  ring s l -> cache_clock_hand s' = head l -> cache_clock_size s' = cache_clock_size s ->
  (forall y, clock_prev (node s' y) = clock_prev (node s y) /\ clock_next (node s' y) = clock_next (node s y) /\
     clock_linked (node s' y) = clock_linked (node s y)) -> ring s' l.
Proof.
  intros [Hnd Hh Hsz Hlk Hp] Hh' Hsz' Hn. constructor; [done|done|congruence|..].
  - intros y. destruct (Hn y) as (_ & _ & ->). apply Hlk.
  - intros a b Hab. destruct (Hn a) as (_ & -> & _), (Hn b) as (-> & _ & _). by apply Hp.
Qed.

Lemma ring_rotated s x l :
  ring s (x :: l) -> ring (s <| cache_clock_hand := clock_next (node s x) |>) (l ++ [x]).
Proof.
  intros Hr. pose proof Hr as [Hnd Hh Hsz Hlk Hp].
  constructor.
  - revert Hnd. apply NoDup_Permutation_proper. solve_Permutation.
  - cbn. rewrite (ring_next _ _ x (first l x) Hr); [by destruct l|]. cbn [cycle]. rewrite pairs_cons. constructor.
  - cbn. rewrite Hsz, length_app. cbn. lia.
  - intros y. rewrite elem_of_app, list_elem_of_singleton. trans (clock_linked (node s y) = true); [done|].
    rewrite Hlk, elem_of_cons. tauto.
  - intros a b Hab%cycle_rotate. by apply Hp.
Qed.

Lemma clock_turn_ring full s x l :
  ring s (x :: l) ->
  exists s', clock_turn full s = (s', Some (if used s x || full x then None else Some x)) /\ ring s' (l ++ [x]) /\
    forall y, used s' y = negb (bool_decide (y = x)) && used s y.
Proof.
  intros Hr. unfold clock_turn. rewrite (ring_hand _ _ Hr). cbn [head]. pose proof (ring_rotated _ _ _ Hr) as Hr'.
  set (s1 := s <| cache_clock_hand := clock_next (node s x) |>) in *.
  change (clock_referenced (node s1 x)) with (used s x). destruct (used s x) eqn:E; cbn [orb]; eexists; (split; [reflexivity|]).
  - split.
    + apply (ring_same s1); [done|exact (ring_hand _ _ Hr')|done|]. intros y. rewrite node_set. case_decide; [by subst|done].
    + intros y. unfold used. rewrite node_set. destruct (decide (x = y)) as [->|Hne].
      * by rewrite bool_decide_eq_true_2.
      * by rewrite bool_decide_eq_false_2.
  - split; [done|]. intros y. change (used s1 y) with (used s y). destruct (decide (y = x)) as [->|]; [|by rewrite bool_decide_eq_false_2].
    rewrite bool_decide_eq_true_2 by done. by rewrite E.
Qed.

(** ** Every use of the clock *)

(** The operations on the list of directories. *)
Definition exec_list (l : list Z) (o : op) : list Z :=
  match o with
  | Touch _ => l
  | Register x detached => if detached || bool_decide (x ∈ l) then l else l ++ [x]
  | Unregister x => filter (fun y => y <> x) l
  | Turn _ => match l with [] => [] | x :: l => l ++ [x] end
  end.

Definition new_clock : Clock := mkClock ∅ None 0.

Lemma new_clock_ring : ring new_clock [].
Proof.
  constructor; cbn; [constructor|done..| |]; [|intros a b H; by apply elem_of_nil in H].
  intros x. rewrite elem_of_nil. done.
Qed.

Lemma exec_ring s l o : ring s l -> exists s', exec s o = Some s' /\ ring s' (exec_list l o).
Proof.
  intros Hr. destruct o as [x|x d|x|full]; cbn.
  - eexists. split; [done|]. apply (ring_same s); [done|by apply Hr|done|].
    intros y. unfold cache_touch. rewrite node_set. case_decide; [by subst|done].
  - destruct (bool_decide (x ∈ l)) eqn:E; [apply bool_decide_eq_true in E|apply bool_decide_eq_false in E].
    + rewrite orb_true_r. exists s. split; [|done]. unfold cache_register_directory. by rewrite (proj2 (ring_linked _ _ Hr x) E).
    + destruct d; [exists s; split; [|done]; unfold cache_register_directory; by rewrite orb_true_r|].
      by apply register_ring.
  - destruct (decide (x ∈ l)) as [Hx|Hx].
    + apply list_elem_of_split in Hx as (a & b & ->). pose proof (ring_nodup _ _ Hr) as Hnd.
      destruct (unregister_ring _ _ _ _ Hr) as (s' & E & Hr'). exists s'. split; [done|].
      rewrite filter_app, filter_cons_False by (by intros []). rewrite !erase_absent; [done|..].
      * apply NoDup_app in Hnd as (_ & _ & [Hb _]%NoDup_cons). done.
      * apply NoDup_app in Hnd as (_ & Hd & _). intros Ha. apply (Hd _ Ha). constructor.
    + rewrite erase_absent by done. exists s. split; [|done]. unfold cache_unregister_directory.
      destruct (clock_linked (node s x)) eqn:E; [|done]. by apply (ring_linked _ _ Hr) in E.
  - eexists. split; [done|]. destruct l as [|x l].
    + unfold clock_turn. rewrite (ring_hand _ _ Hr). done.
    + destruct (clock_turn_ring full _ _ _ Hr) as (s' & -> & Hr' & _). done.
Qed.

Lemma run_clock_ring s l ops : ring s l -> exists s', run_clock s ops = Some s' /\ ring s' (foldl exec_list l ops).
Proof.
  revert s l. induction ops as [|o ops IH]; intros s l Hr; [by exists s|].
  destruct (exec_ring s l o Hr) as (s1 & E & Hr1). destruct (IH _ _ Hr1) as (s' & E' & Hr').
  exists s'. unfold run_clock in *. cbn. by rewrite E.
Qed.

(** ** No directory is passed over for ever *)

(** Operations that neither move the hand nor concern [x]. *)
Definition quiet (x : Z) (o : op) : bool :=
  match o with Touch y | Register y _ | Unregister y => negb (y =? x) | Turn _ => false end.

Definition registers (ops : list op) : nat :=
  length (filter (fun o => match o with Register _ _ => true | _ => false end = true) ops).

(** What is left of the turns until [x] is offered, in the ring [a ++ x :: b]. *)
Definition turns_left (s : Clock) (x : Z) (a b : list Z) : nat :=
  length a + if used s x then length a + 1 + length b else 0.

Lemma used_prev s x p y : used (set_prev x p s) y = used s y.
Proof. unfold used. by rewrite node_set_prev. Qed.
Lemma used_next s x p y : used (set_next x p s) y = used s y.
Proof. unfold used. by rewrite node_set_next. Qed.
Lemma used_linked s x b y : used (set_linked x b s) y = used s y.
Proof. unfold used. by rewrite node_set_linked. Qed.
Lemma used_hand s h y : used (s <| cache_clock_hand := h |>) y = used s y.
Proof. done. Qed.
Lemma used_size s n y : used (s <| cache_clock_size := n |>) y = used s y.
Proof. done. Qed.

Lemma exec_used s s' x o : quiet x o = true -> exec s o = Some s' -> used s' x = used s x.
Proof.
  destruct o as [y|y d|y|full]; cbn; intros Hq; [apply negb_true_iff, Z.eqb_neq in Hq..|done].
  - intros [= <-]. unfold used, cache_touch. by rewrite node_set_ne.
  - unfold cache_register_directory. destruct (_ || _); [by intros [= <-]|].
    destruct (cache_clock_hand s) as [hand|]; [destruct (clock_prev (node s hand)) as [t|]|]; cbn [mbind option_bind]; intros [= <-];
      by rewrite used_size, used_linked, ?used_hand, ?used_prev, ?used_next, ?used_prev.
  - unfold cache_unregister_directory. destruct (negb _); [by intros [= <-]|].
    case_decide; [|destruct (clock_prev (node s y)), (clock_next (node s y))]; cbn [mbind option_bind]; try done; intros [= <-];
      rewrite used_size, used_linked, used_next, used_prev; [done|]. case_decide; by rewrite ?used_hand, used_prev, used_next.
Qed.

Lemma exec_quiet s x a b o :
  ring s (a ++ x :: b) -> quiet x o = true ->
  exists s' a' b', exec s o = Some s' /\ ring s' (a' ++ x :: b') /\
    (turns_left s' x a' b' <= turns_left s x a b + registers [o])%nat.
Proof.
  intros Hr Hq. destruct (exec_ring _ _ o Hr) as (s' & E & Hr'). pose proof (exec_used _ _ _ _ Hq E) as Hu.
  assert (Hl : forall a b, turns_left s' x a b = (length a + if used s x then length a + 1 + length b else 0)%nat)
    by (intros; unfold turns_left; by rewrite Hu).
  exists s'. destruct o as [y|y d|y|full]; [..|done]; cbn [exec_list] in Hr'.
  - exists a, b. split_and!; [done..|rewrite Hl; unfold turns_left]. cbn. lia.
  - destruct (d || _).
    + exists a, b. split_and!; [done..|rewrite Hl; unfold turns_left]. cbn. destruct (used s x); lia.
    + rewrite <- app_assoc in Hr'. exists a, (b ++ [y]). split_and!; [done..|rewrite Hl; unfold turns_left]. rewrite length_app.
      change (registers [Register y d]) with 1%nat. cbn [length]. destruct (used s x); lia.
  - cbn in Hq. apply negb_true_iff, Z.eqb_neq in Hq. rewrite filter_app, filter_cons_True in Hr' by (by apply not_eq_sym).
    eexists _, _. split_and!; [done..|rewrite Hl; unfold turns_left].
    pose proof (length_filter (fun z => z <> y) a). pose proof (length_filter (fun z => z <> y) b). destruct (used s x); lia.
Qed.

Lemma registers_cons o ops : registers (o :: ops) = (registers [o] + registers ops)%nat.
Proof. unfold registers. change (o :: ops) with ([o] ++ ops). by rewrite filter_app, length_app. Qed.

Lemma run_quiet s x a b ops :
  ring s (a ++ x :: b) -> forallb (quiet x) ops = true ->
  exists s' a' b', run_clock s ops = Some s' /\ ring s' (a' ++ x :: b') /\
    (turns_left s' x a' b' <= turns_left s x a b + registers ops)%nat.
Proof.
  revert s a b. induction ops as [|o ops IH]; intros s a b Hr Hq.
  - exists s, a, b. split_and!; [done..|]. cbn. lia.
  - cbn in Hq. apply andb_true_iff in Hq as [Ho Hq]. destruct (exec_quiet _ _ _ _ _ Hr Ho) as (s1 & a1 & b1 & E1 & Hr1 & Hl1).
    destruct (IH _ _ _ Hr1 Hq) as (s' & a' & b' & E & Hr' & Hl). exists s', a', b'. split_and!; [|done|].
    + unfold run_clock in *. cbn. by rewrite E1.
    + rewrite registers_cons. lia.
Qed.

(** One turn offers [x] or comes nearer to it. *)
Lemma turn_nearer full s x a b :
  ring s (a ++ x :: b) -> full x = false ->
  exists s' y, clock_turn full s = (s', Some y) /\
    (y = Some x \/ exists a' b', ring s' (a' ++ x :: b') /\ (turns_left s' x a' b' < turns_left s x a b)%nat) /\
    exists l, ring s' l.
Proof.
  intros Hr Hf. destruct a as [|h a]; cbn [app] in Hr.
  - destruct (clock_turn_ring full _ _ _ Hr) as (s' & E & Hr' & Hu). exists s'. rewrite Hf, orb_false_r in E.
    eexists. split; [exact E|]. split; [|eauto]. unfold turns_left. destruct (used s x) eqn:Ex; [right|by left].
    exists b, []. split; [done|]. rewrite Hu, bool_decide_eq_true_2 by done. cbn. lia.
  - destruct (clock_turn_ring full _ _ _ Hr) as (s' & E & Hr' & Hu). exists s'. eexists. split; [exact E|]. split; [|eauto]. right.
    rewrite <- app_assoc in Hr'. exists a, (b ++ [h]). split; [done|]. unfold turns_left. rewrite length_app. cbn.
    assert (x <> h). { intros ->. pose proof (ring_nodup _ _ Hr) as [Hh _]%NoDup_cons. apply Hh, elem_of_app. right. constructor. }
    rewrite Hu, bool_decide_eq_false_2 by done. cbn. destruct (used s x); lia.
Qed.

(** From any ring the loop follows no null pointer. *)
Lemma scan_loop_total full work below limit scan s l :
  ring s l -> exists s' offered, scan_loop full work below limit scan s = Some (s', offered).
Proof.
  revert scan s l. induction limit as [|limit IH]; intros scan s l Hr; cbn; [eauto|]. destruct l as [|x l].
  - unfold clock_turn. rewrite (ring_hand _ _ Hr). cbn. eauto.
  - destruct (clock_turn_ring full _ _ _ Hr) as (s1 & -> & Hr1 & _). destruct (run_clock_ring _ _ (work scan) Hr1) as (s2 & E & Hr2).
    rewrite E. destruct (IH (S scan) _ _ Hr2) as (s3 & o & E3). destruct (_ || _); cbn; [eauto|]. rewrite E3. destruct (below scan); cbn; eauto.
Qed.

Lemma scan_loop_offers full work below x limit : full x = false -> (forall scan, forallb (quiet x) (work scan) = true) ->
  forall scan s a b, ring s (a ++ x :: b) ->
  (turns_left s x a b + list_sum (map (fun i => registers (work i)) (seq scan limit)) < limit)%nat ->
  exists s' offered, scan_loop full work below limit scan s = Some (s', offered) /\
    (x ∈ offered \/ exists i, (scan <= i < scan + limit)%nat /\ below i = true).
Proof.
  intros Hf Hq. induction limit as [|limit IH]; intros scan s a b Hr Hlt; [lia|]. cbn [scan_loop].
  destruct (turn_nearer full _ _ _ _ Hr Hf) as (s1 & y & -> & Hy & l1 & Hl1). destruct Hy as [->|(a1 & b1 & Hr1 & Hn)].
  - destruct (run_clock_ring _ _ (work scan) Hl1) as (s2 & -> & Hr2). cbn [mbind option_bind].
    destruct (below scan); [eexists _, _; split; [done|left; constructor]|].
    destruct (scan_loop_total full work below limit (S scan) _ _ Hr2) as (s3 & o & ->). cbn. eexists _, _. split; [done|left; constructor].
  - destruct (run_quiet _ _ _ _ _ Hr1 (Hq scan)) as (s2 & a2 & b2 & -> & Hr2 & Hn2). cbn [mbind option_bind].
    cbn [seq map list_sum foldr] in Hlt. destruct (IH (S scan) s2 a2 b2 Hr2) as (s3 & o & E & Ho); [unfold list_sum in *; lia|].
    destruct y as [y|]; [destruct (below scan) eqn:Eb|]; rewrite ?E; cbn; eexists _, _; (split; [reflexivity|]).
    + right. exists scan. split; [lia|done].
    + destruct Ho as [Ho|(i & ? & ?)]; [left; by constructor|right; exists i; split; [lia|done]].
    + destruct Ho as [Ho|(i & ? & ?)]; [by left|right; exists i; split; [lia|done]].
Qed.

(** C11: the clock is a ring that passes no directory over for ever.  Whatever directories are
    registered, unregistered and used, in any order and with the hand anywhere, no null pointer
    is followed, and the pointers, the flags, the size and the hand are those of the list of the
    registered directories.  A scan then follows no null pointer either, whatever is unregistered
    and registered between its turns, and offers every directory [x] that stays registered and
    unused, within two turns for every directory of the ring and one for every registration
    meanwhile, unless few enough inodes are cached before. *)
Theorem clock_second_chance ops :
  exists s, run_clock new_clock ops = Some s /\
    let l := foldl exec_list [] ops in
    ring s l /\
    forall full work below limit,
    exists s' offered, scan_loop full work below limit 0 s = Some (s', offered) /\
      forall x, x ∈ l -> full x = false -> (forall scan, forallb (quiet x) (work scan) = true) ->
        (2 * length l + list_sum (map (fun i => registers (work i)) (seq 0 limit)) <= limit)%nat ->
        x ∈ offered \/ exists i, (i < limit)%nat /\ below i = true.
Proof.
  destruct (run_clock_ring _ _ ops new_clock_ring) as (s & E & Hr). exists s. split; [done|]. cbv zeta. split; [done|].
  intros full work below limit. destruct (scan_loop_total full work below limit 0 _ _ Hr) as (s' & o & Eo).
  exists s', o. split; [done|]. intros x (a & b & El)%list_elem_of_split Hf Hq Hlt. rewrite El in Hr, Hlt.
  destruct (scan_loop_offers full work below x limit Hf Hq 0 s a b Hr) as (s2 & o2 & E2 & Ho).
  - unfold turns_left. rewrite length_app in Hlt. cbn [length] in Hlt. destruct (used s x); lia.
  - rewrite Eo in E2. injection E2 as <- <-. destruct Ho as [Ho|(i & ? & ?)]; [by left|right; exists i; split; [lia|done]].
Qed.
