(* ===== verification/AwsSignature.v ===== *)
(** * The AWS Signature Version 4 specification

    What a signature has to be, written from the published description of the algorithm and
    from RFC 2104, without reference to the signing code: trimmed header values, the sorted list
    of canonical headers, the canonical request, the string to sign, the derived key and the
    [authorization] header. [SigV4] proves that [sign_v4_impl] produces it. The hash function is
    an argument. *)

From Stdlib Require Import Sorted.
From S2P Require Import Prelude.

Module Aws.

(** ** Text *)

Fixpoint join (sep : bytes) (l : list bytes) : bytes :=
  match l with
  | [] => []
  | [x] => x
  | x :: l => x ++ sep ++ join sep l
  end.

Definition newline : bytes := [chr 10].

Definition white (c : ascii) : bool := bool_decide (u8 c ∈ [9; 10; 13; 32]).

(** The words of a value: its maximal runs of characters that are not white space. *)
Fixpoint words (v : bytes) : list bytes :=
  match v with
  | [] => []
  | c :: v =>
      if white c then words v
      else match v with
           | [] => [[c]]
           | d :: _ =>
               if white d then [c] :: words v
               else match words v with [] => [[c]] | w :: ws => (c :: w) :: ws end
           end
  end.

(** [Trim]: no white space at the ends, single spaces between words. *)
Definition trim (v : bytes) : bytes := join [" "%char] (words v).

Definition lower (c : ascii) : ascii :=
  if (65 <=? u8 c) && (u8 c <=? 90) then chr (u8 c + 32) else c.

(** Lexicographic order by byte value. *)
Fixpoint before (a b : bytes) : Prop :=
  match a, b with
  | [], _ :: _ => True
  | x :: a, y :: b => u8 x < u8 y \/ x = y /\ before a b
  | _, [] => False
  end.

Definition hex_digits : bytes := lit "0123456789abcdef".

Definition hex (d : bytes) : bytes :=
  flat_map (fun b => [nth (Z.to_nat (u8 b / 16)) hex_digits Ascii.zero;
                      nth (Z.to_nat (u8 b mod 16)) hex_digits Ascii.zero]) d.

(** ** Canonical headers *)

(** The name a header is signed under: lower case, with HTTP/2's [:authority] as [host]. *)
Definition header_name (n : bytes) : bytes :=
  if bool_decide (n = lit ":authority") then lit "host" else map lower n.

(** The values of the header [n] among [l], trimmed, in the order they are sent. *)
Definition header_values (l : list (bytes * bytes)) (n : bytes) : list bytes :=
  map (fun h => trim h.2) (filter (fun h => header_name h.1 = n) l).

(** [hs] is the canonical form of the headers [l]: strictly sorted by name, and holding exactly
    the names that occur with their values joined by commas. *)
Record canonical (l hs : list (bytes * bytes)) : Prop := {
  canonical_sorted : StronglySorted (fun p q => before p.1 q.1) hs;
  canonical_values n v :
    (n, v) ∈ hs <-> header_values l n <> [] /\ v = join [","%char] (header_values l n);
}.

Definition signed_headers (hs : list (bytes * bytes)) : bytes := join [";"%char] (map fst hs).

Section Signature.
Variable H : bytes -> bytes.

(** ** HMAC (RFC 2104), for blocks of 64 bytes *)

Definition hmac_key (key : bytes) : bytes :=
  let key := if decide (64 < length key)%nat then H key else key in
  key ++ replicate (64 - length key) Ascii.zero.

Definition pad (x : Z) (block : bytes) : bytes := map (fun c => chr (Z.lxor (u8 c) x)) block.

Definition hmac (key text : bytes) : bytes :=
  H (pad 0x5c (hmac_key key) ++ H (pad 0x36 (hmac_key key) ++ text)).

Definition signing_key (secret date region service : bytes) : bytes :=
  fold_left hmac [date; region; service; lit "aws4_request"] (lit "AWS4" ++ secret).

(** ** The signature *)

Section Request.
Variables method uri query payload_hash datetime region service : bytes.
Variable hs : list (bytes * bytes).

Definition canonical_request : bytes :=
  join newline ([method; uri; query] ++ map (fun p => p.1 ++ lit ":" ++ p.2) hs ++
                [[]; signed_headers hs; payload_hash]).

Definition scope : bytes :=
  join (lit "/") [take 8 datetime; region; service; lit "aws4_request"].

Definition string_to_sign : bytes :=
  join newline [lit "AWS4-HMAC-SHA256"; datetime; scope; hex (H canonical_request)].

Definition signature (secret : bytes) : bytes :=
  hex (hmac (signing_key secret (take 8 datetime) region service) string_to_sign).

Definition authorization (access_key secret : bytes) : bytes :=
  lit "AWS4-HMAC-SHA256 " ++
  join (lit ",") [lit "Credential=" ++ access_key ++ lit "/" ++ scope;
                  lit "SignedHeaders=" ++ signed_headers hs;
                  lit "Signature=" ++ signature secret].
End Request.
End Signature.

(** The timestamp [YYYYMMDDTHHMMSSZ], as far as its separators go. *)
Definition timestamp (d : bytes) : Prop :=
  exists day clock, d = day ++ lit "T" ++ clock ++ lit "Z" /\
    length day = 8%nat /\ length clock = 6%nat.

End Aws.
