(* ===== verification/SigV4.v ===== *)
(** * AWS Signature Version 4

    Models the signing code of [src/src/s3.cpp]: the precomputed HMAC-SHA256 keys, the
    [SigningKeyCache], header canonicalisation and [sign_v4_impl] with its fast path for GET.
    OpenSSL's SHA-256 comes in through [Sha256]. *)

From Stdlib Require Import Sorted.
From S2P Require Import Prelude StdText AwsSignature.

(** ** SHA-256 *)

(** [SHA256_Init], [SHA256_Update] and [SHA256_Final]; [None] is a return value other than 1. *)
Class Sha256 := {
  sha_ctx : Type;
  sha_init : option sha_ctx;
  sha_update : sha_ctx -> bytes -> option sha_ctx;
  sha_final : sha_ctx -> option bytes;
}.

Definition of_option {A} (o : option A) : result A :=
  match o with Some a => Ok a | None => Throw RuntimeError end.

Definition SHA256_CBLOCK : Z := 64.

Section Hash.
Context `{lib : Sha256}.

Definition sha256 (value : bytes) : result bytes :=
  let? context := of_option sha_init in
  let? context := of_option (sha_update context value) in
  of_option (sha_final context).

Record HmacSha256Key := { inner : sha_ctx; outer : sha_ctx }.

(** [byte ^= x] over a block. *)
Definition xor_block (x : Z) (block : bytes) : bytes := map (fun c => chr (Z.lxor (u8 c) x)) block.

(** [std::array<unsigned char, SHA256_CBLOCK> block{}] with the key copied to its front. *)
Definition key_block (key : bytes) : bytes :=
  key ++ replicate (Z.to_nat (SHA256_CBLOCK - vsize key)) Ascii.zero.

Definition make_hmac_key (key : bytes) : result HmacSha256Key :=
  let? key := if vsize key >? SHA256_CBLOCK then sha256 key else Ok key in
  let block := xor_block 0x36 (key_block key) in
  let? i := of_option sha_init in
  let? i := of_option (sha_update i block) in
  let block := xor_block (Z.lxor 0x36 0x5c) block in
  let? o := of_option sha_init in
  let? o := of_option (sha_update o block) in
  Ok {| inner := i; outer := o |}.

Definition hmac_with (key : HmacSha256Key) (value : bytes) : result bytes :=
  let? i := of_option (sha_update (inner key) value) in
  let? digest := of_option (sha_final i) in
  let? o := of_option (sha_update (outer key) digest) in
  of_option (sha_final o).

Definition hmac (key value : bytes) : result bytes :=
  let? key := make_hmac_key key in hmac_with key value.

Record SigningKeyCache := {
  kc_secret_access_key : bytes; kc_date : bytes; kc_region : bytes; kc_service : bytes;
  kc_hmac_key : option HmacSha256Key;  (** [None]: the value-initialised key *)
  kc_valid : bool;
}.

Definition derive_signing_key (secret_access_key date region service : bytes) : result bytes :=
  let? date_key := hmac (lit "AWS4" ++ secret_access_key) date in
  let? region_key := hmac date_key region in
  let? service_key := hmac region_key service in
  hmac service_key (lit "aws4_request").

(** The refresh assigns the four strings before [make_hmac_key] runs. *)
Definition signing_hmac (cache : SigningKeyCache)
    (secret_access_key date region service value : bytes) : SigningKeyCache * result bytes :=
  let use cache :=
    match kc_hmac_key cache with
    | Some key => (cache, hmac_with key value)
    | None => (cache, Throw RuntimeError)
    end in
  if negb (kc_valid cache) || negb (str_eqb (kc_secret_access_key cache) secret_access_key) ||
     negb (str_eqb (kc_date cache) date) || negb (str_eqb (kc_region cache) region) ||
     negb (str_eqb (kc_service cache) service)
  then match derive_signing_key secret_access_key date region service with
       | Throw e => (cache, Throw e)
       | Ok signing_key =>
           let assigned key valid :=
             {| kc_secret_access_key := secret_access_key; kc_date := date; kc_region := region;
                kc_service := service; kc_hmac_key := key; kc_valid := valid |} in
           match make_hmac_key signing_key with
           | Throw e => (assigned (kc_hmac_key cache) (kc_valid cache), Throw e)
           | Ok key => use (assigned (Some key) true)
           end
       end
  else use cache.
End Hash.

Definition hex_char (n : Z) : ascii := at_z (lit "0123456789abcdef") n.

Definition hex (digest : bytes) : bytes :=
  concat (map (fun b => [hex_char (Z.shiftr (u8 b) 4); hex_char (Z.land (u8 b) 15)]) digest).

(** ** Canonical headers *)

Definition lowercase (value : bytes) : bytes := map tolower value.

Definition header_space (ch : ascii) : bool :=
  (u8 ch =? 32) || (u8 ch =? 9) || (u8 ch =? 13) || (u8 ch =? 10).

Definition has_header_whitespace (value : bytes) : bool := existsb header_space value.

(** The loop of [normalize_header_value] over [output] and [pending_space]. *)
Fixpoint normalize_loop (value output : bytes) (pending_space : bool) : bytes :=
  match value with
  | [] => output
  | item :: value =>
      if header_space item
      then normalize_loop value output (pending_space || negb (vsize output =? 0))
      else normalize_loop value
             ((if pending_space then output ++ [" "%char] else output) ++ [item]) false
  end.

Definition normalize_header_value (value : bytes) : bytes :=
  if negb (has_header_whitespace value) then value else normalize_loop value [] false.

(** A header and, when its value lives in [normalized_values], the index of that element
    ([owned_value] in the code is a pointer into the vector). *)
Record CanonicalHeader := { ch_name : bytes; ch_value : bytes; ch_owned : option nat }.

(** [headers], [normalized_names] and [normalized_values] of the workspace. *)
Record Canonical := {
  cn_headers : list CanonicalHeader;
  cn_names : list bytes;
  cn_values : list bytes;
}.

(** [std::string_view] comparison: unsigned bytes, lexicographic. *)
Fixpoint str_ltb (a b : bytes) : bool :=
  match a, b with
  | [], [] => false
  | [], _ :: _ => true
  | _ :: _, [] => false
  | x :: a, y :: b => (u8 x <? u8 y) || ((u8 x =? u8 y) && str_ltb a b)
  end.

(** [std::lower_bound] on the sorted vector: what lies before the position and after it. *)
Fixpoint lower_bound (headers : list CanonicalHeader) (name : bytes) :
    list CanonicalHeader * list CanonicalHeader :=
  match headers with
  | [] => ([], [])
  | h :: rest =>
      if str_ltb (ch_name h) name
      then let '(before, after) := lower_bound rest name in (h :: before, after)
      else ([], h :: rest)
  end.

Definition add_canonical_header (s : Canonical) (name value : bytes) : Canonical :=
  let '(name, names) :=
    if str_eqb name (lit ":authority") then (lit "host", cn_names s)
    else if existsb isupper name then (lowercase name, cn_names s ++ [lowercase name])
    else (name, cn_names s) in
  let '(before, after) := lower_bound (cn_headers s) name in
  let insert :=
    let '(value, owned, values) :=
      if has_header_whitespace value
      then (normalize_header_value value, Some (length (cn_values s)),
            cn_values s ++ [normalize_header_value value])
      else (value, None, cn_values s) in
    {| cn_headers := before ++ {| ch_name := name; ch_value := value; ch_owned := owned |} :: after;
       cn_names := names; cn_values := values |} in
  match after with
  | h :: rest =>
      if str_eqb (ch_name h) name then
        let '(owned, values) :=
          match ch_owned h with
          | Some i => (i, cn_values s)
          | None => (length (cn_values s), cn_values s ++ [ch_value h])
          end in
        let text := default [] (values !! owned) ++ [","%char] ++ normalize_header_value value in
        {| cn_headers := before ++ {| ch_name := ch_name h; ch_value := text;
                                      ch_owned := Some owned |} :: rest;
           cn_names := names; cn_values := <[owned := text]> values |}
      else insert
  | [] => insert
  end.

(** ** sign_v4_impl *)

Record Credentials := { access_key_id : bytes; secret_access_key : bytes; session_token : bytes }.
Record Header := { name : bytes; value : bytes }.
Record SignRequest := {
  method : bytes; canonical_uri : bytes; canonical_query : bytes; authority : bytes;
  headers : list Header; payload_hash : bytes; amz_datetime : bytes; region : bytes;
  service : bytes; fast_get : bool;
}.

Definition nl : bytes := [chr 10].

(** The scan that looks for at most one [if-match] and one [range]; [None] clears
    [fast_get_headers]. *)
Fixpoint fast_scan (l : list Header) (if_match range : option bytes) :
    option (option bytes * option bytes) :=
  match l with
  | [] => Some (if_match, range)
  | h :: l =>
      if str_eqb (name h) (lit "if-match") && bool_decide (if_match = None)
      then fast_scan l (Some (value h)) range
      else if str_eqb (name h) (lit "range") && bool_decide (range = None)
      then fast_scan l if_match (Some (value h))
      else None
  end.

Definition fast_headers (c : Credentials) (r : SignRequest) (if_match range : option bytes) :
    bytes * bytes :=
  let opt (o : option bytes) (f : bytes -> bytes) := match o with Some v => f v | None => [] end in
  let has_token := negb (vsize (session_token c) =? 0) in
  (lit "host:" ++ authority r ++ nl ++
   opt if_match (fun v => lit "if-match:" ++ v ++ nl) ++
   opt range (fun v => lit "range:" ++ v ++ nl) ++
   lit "x-amz-content-sha256:" ++ payload_hash r ++ (nl ++ lit "x-amz-date:") ++ amz_datetime r ++
   (if has_token then (nl ++ lit "x-amz-security-token:") ++ session_token c else []) ++ nl,
   lit "host" ++ opt if_match (fun _ => lit ";if-match") ++ opt range (fun _ => lit ";range") ++
   lit ";x-amz-content-sha256;x-amz-date" ++
   (if has_token then lit ";x-amz-security-token" else [])).

Definition add_all (s : Canonical) (l : list (bytes * bytes)) : Canonical :=
  fold_left (fun s h => add_canonical_header s h.1 h.2) l s.

(** Every header the general path adds, in order. *)
Definition signed_inputs (c : Credentials) (r : SignRequest) : list (bytes * bytes) :=
  [(lit "host", authority r)] ++ map (fun h => (name h, value h)) (headers r) ++
  [(lit "x-amz-content-sha256", payload_hash r); (lit "x-amz-date", amz_datetime r)] ++
  (if negb (vsize (session_token c) =? 0)
   then [(lit "x-amz-security-token", session_token c)] else []).

(** The loop that writes the canonical headers and [signed_names]. *)
Fixpoint write_headers (l : list CanonicalHeader) (canonical signed_names : bytes) : bytes * bytes :=
  match l with
  | [] => (canonical, signed_names)
  | h :: l =>
      write_headers l (canonical ++ ch_name h ++ [":"%char] ++ ch_value h ++ nl)
        ((if negb (vsize signed_names =? 0) then signed_names ++ [";"%char] else signed_names) ++
         ch_name h)
  end.

Definition general_headers (c : Credentials) (r : SignRequest) : bytes * bytes :=
  write_headers (cn_headers (add_all {| cn_headers := []; cn_names := []; cn_values := [] |}
                               (signed_inputs c r))) [] [].

Definition choose_headers (diagnostics : bool) (c : Credentials) (r : SignRequest) : bytes * bytes :=
  if negb diagnostics && fast_get r && (vsize (headers r) <=? 2)
  then match fast_scan (headers r) None None with
       | Some (if_match, range) => fast_headers c r if_match range
       | None => general_headers c r
       end
  else general_headers c r.

Record Signed := {
  sg_headers : list Header; sg_canonical_request_hash : bytes; sg_signed_header_names : bytes }.

Definition canonical_request (r : SignRequest) (fields : bytes * bytes) : bytes :=
  method r ++ nl ++ canonical_uri r ++ nl ++ canonical_query r ++ nl ++
  fields.1 ++ nl ++ fields.2 ++ nl ++ payload_hash r.

Definition credential_scope (r : SignRequest) : bytes :=
  take_z 8 (amz_datetime r) ++ lit "/" ++ region r ++ lit "/" ++ service r ++ lit "/aws4_request".

Definition string_to_sign (r : SignRequest) (canonical_hash : bytes) : bytes :=
  lit "AWS4-HMAC-SHA256" ++ nl ++ amz_datetime r ++ nl ++ credential_scope r ++ nl ++ canonical_hash.

Definition authorization (c : Credentials) (r : SignRequest) (signed_names signature : bytes) : bytes :=
  lit "AWS4-HMAC-SHA256" ++ lit " Credential=" ++ access_key_id c ++ lit "/" ++
  credential_scope r ++ lit ",SignedHeaders=" ++ signed_names ++ lit ",Signature=" ++ signature.

(** The checks at the head of [sign_v4_impl]. *)
Definition sign_request_ok (c : Credentials) (r : SignRequest) : bool :=
  negb (vsize (access_key_id c) =? 0) && negb (vsize (secret_access_key c) =? 0) &&
  (vsize (amz_datetime r) =? 16) && ascii_eqb (at_z (amz_datetime r) 8) "T" &&
  ascii_eqb (at_z (amz_datetime r) (vsize (amz_datetime r) - 1)) "Z" &&
  negb (vsize (payload_hash r) =? 0) && negb (vsize (authority r) =? 0) &&
  negb (vsize (region r) =? 0).

Definition sign_v4_impl `{lib : Sha256} (cache : SigningKeyCache) (diagnostics : bool)
    (c : Credentials) (r : SignRequest) : SigningKeyCache * result Signed :=
  if negb (sign_request_ok c r) then (cache, Throw InvalidArgument)
  else
    let fields := choose_headers diagnostics c r in
    match sha256 (canonical_request r fields) with
    | Throw e => (cache, Throw e)
    | Ok digest =>
        let canonical_hash := hex digest in
        let '(cache, mac) :=
          signing_hmac cache (secret_access_key c) (take_z 8 (amz_datetime r)) (region r)
            (service r) (string_to_sign r canonical_hash) in
        (cache,
         let? mac := mac in
         Ok {| sg_headers :=
                 [{| name := lit "x-amz-content-sha256"; value := payload_hash r |};
                  {| name := lit "x-amz-date"; value := amz_datetime r |}] ++
                 (if negb (vsize (session_token c) =? 0)
                  then [{| name := lit "x-amz-security-token"; value := session_token c |}]
                  else []) ++
                 [{| name := lit "authorization";
                     value := authorization c r fields.2 (hex mac) |}];
               sg_canonical_request_hash := canonical_hash;
               sg_signed_header_names := fields.2 |})
    end.

(** ** HMAC *)

(** What OpenSSL documents of SHA-256: the calls succeed, and the digest of a context is the
    hash of everything it absorbed, 32 bytes long. *)
Class Sha256Laws (lib : Sha256) (H : bytes -> bytes) := {
  absorbed : sha_ctx -> bytes -> Prop;
  sha_init_ok : exists c, sha_init = Some c /\ absorbed c [];
  sha_update_ok c d x : absorbed c d -> exists c', sha_update c x = Some c' /\ absorbed c' (d ++ x);
  sha_final_ok c d : absorbed c d -> sha_final c = Some (H d);
  sha_length d : vsize (H d) = 32;
}.

(** HMAC as RFC 2104 defines it, for a 64-byte block. *)
Definition rfc_hmac (H : bytes -> bytes) (key text : bytes) : bytes :=
  let key := if vsize key >? SHA256_CBLOCK then H key else key in
  H (xor_block 0x5c (key_block key) ++ H (xor_block 0x36 (key_block key) ++ text)).

(** The signing key of the AWS specification. *)
Definition aws_signing_key (H : bytes -> bytes) (secret date region service : bytes) : bytes :=
  rfc_hmac H (rfc_hmac H (rfc_hmac H (rfc_hmac H (lit "AWS4" ++ secret) date) region) service)
    (lit "aws4_request").

Lemma xor_block_twice x y b :
  0 <= x < 256 -> xor_block y (xor_block x b) = xor_block (Z.lxor x y) b.
Proof.
  intros Hx. unfold xor_block. rewrite map_map. apply map_ext. intros c.
  rewrite u8_chr by (apply (lxor_range 8); [lia|apply u8_range|done]).
  by rewrite Z.lxor_assoc.
Qed.

Section HashLaws.
Context `{laws : Sha256Laws}.

Lemma sha256_spec v : sha256 v = Ok (H v).
Proof.
  unfold sha256. destruct sha_init_ok as (c & -> & Hc). cbn.
  destruct (sha_update_ok c [] v Hc) as (c' & -> & Hc'). cbn.
  by rewrite (sha_final_ok c' _ Hc').
Qed.

(** A precomputed key has absorbed the two padded blocks. *)
Definition hmac_key_for (key : bytes) (k : HmacSha256Key) : Prop :=
  let key := if vsize key >? SHA256_CBLOCK then H key else key in
  absorbed (inner k) (xor_block 0x36 (key_block key)) /\
  absorbed (outer k) (xor_block 0x5c (key_block key)).

Lemma make_hmac_key_spec key : exists k, make_hmac_key key = Ok k /\ hmac_key_for key k.
Proof.
  unfold make_hmac_key.
  assert ((if vsize key >? SHA256_CBLOCK then sha256 key else Ok key)
          = Ok (if vsize key >? SHA256_CBLOCK then H key else key)) as ->.
  { case_match; [apply sha256_spec|done]. }
  cbn [rbind]. destruct sha_init_ok as (c & -> & Hc). cbn [of_option rbind].
  set (b := key_block _).
  destruct (sha_update_ok c [] (xor_block 54 b) Hc) as (i & -> & Hi). cbn [of_option rbind].
  destruct (sha_update_ok c [] (xor_block (Z.lxor 54 92) (xor_block 54 b)) Hc) as (o & -> & Ho).
  eexists. split; [reflexivity|]. split; [exact Hi|]. cbn [outer].
  rewrite xor_block_twice in Ho by lia. exact Ho.
Qed.

Lemma hmac_with_spec key k value :
  hmac_key_for key k -> hmac_with k value = Ok (rfc_hmac H key value).
Proof.
  intros [Hi Ho]. unfold hmac_with, rfc_hmac.
  destruct (sha_update_ok _ _ value Hi) as (c & -> & Hc). cbn.
  rewrite (sha_final_ok _ _ Hc). cbn.
  destruct (sha_update_ok _ _ (H (xor_block 54 (key_block
    (if vsize key >? SHA256_CBLOCK then H key else key)) ++ value)) Ho) as (d & -> & Hd). cbn.
  by rewrite (sha_final_ok _ _ Hd).
Qed.

Lemma hmac_spec key value : hmac key value = Ok (rfc_hmac H key value).
Proof.
  unfold hmac. destruct (make_hmac_key_spec key) as (k & -> & Hk). by apply hmac_with_spec.
Qed.

Lemma derive_spec secret date region service :
  derive_signing_key secret date region service = Ok (aws_signing_key H secret date region service).
Proof. unfold derive_signing_key. by rewrite hmac_spec; cbn; rewrite !hmac_spec; cbn; rewrite !hmac_spec; cbn; rewrite !hmac_spec. Qed.

(** A valid cache holds the key of the four strings it is tagged with. *)
Definition key_cache_ok (c : SigningKeyCache) : Prop :=
  kc_valid c = true ->
  exists k, kc_hmac_key c = Some k /\
    hmac_key_for (aws_signing_key H (kc_secret_access_key c) (kc_date c) (kc_region c)
                    (kc_service c)) k.

Lemma signing_hmac_spec cache secret date region service value :
  key_cache_ok cache ->
  exists cache', signing_hmac cache secret date region service value
    = (cache', Ok (rfc_hmac H (aws_signing_key H secret date region service) value)) /\
    key_cache_ok cache'.
Proof.
  intros Hc. unfold signing_hmac. destruct (_ || _) eqn:E.
  - rewrite derive_spec. destruct (make_hmac_key_spec (aws_signing_key H secret date region service))
      as (k & -> & Hk). cbn [kc_hmac_key].
    rewrite (hmac_with_spec _ _ value Hk). eexists. split; [reflexivity|].
    intros _. by exists k.
  - bool_case. destruct (str_eqb_spec (kc_secret_access_key cache) secret) as [<-|]; [|done].
    destruct (str_eqb_spec (kc_date cache) date) as [<-|]; [|done].
    destruct (str_eqb_spec (kc_region cache) region) as [<-|]; [|done].
    destruct (str_eqb_spec (kc_service cache) service) as [<-|]; [|done].
    destruct Hc as (k & Hk & Hkey); [done|]. rewrite Hk, (hmac_with_spec _ _ value Hkey).
    exists cache. split; [done|]. intros _. by exists k.
Qed.
End HashLaws.

(** ** Canonical headers: the reference

    A sorted association list from lower-case names to comma-joined values. *)

Definition canonical_name (n : bytes) : bytes :=
  if str_eqb n (lit ":authority") then lit "host" else lowercase n.

Fixpoint insert_merge (l : list (bytes * bytes)) (n v : bytes) : list (bytes * bytes) :=
  match l with
  | [] => [(n, v)]
  | (k, w) :: l =>
      if str_ltb k n then (k, w) :: insert_merge l n v
      else if str_eqb k n then (k, w ++ [","%char] ++ v) :: l
      else (n, v) :: (k, w) :: l
  end.

Definition erase (s : Canonical) : list (bytes * bytes) :=
  map (fun h => (ch_name h, ch_value h)) (cn_headers s).

(** Owned values are distinct elements of [normalized_values] and hold the header's value. *)
Definition owners (hs : list CanonicalHeader) : list nat := omap ch_owned hs.
Definition own_ok (s : Canonical) : Prop :=
  NoDup (owners (cn_headers s)) /\
  forall h i, h ∈ cn_headers s -> ch_owned h = Some i -> cn_values s !! i = Some (ch_value h).

Lemma lowercase_id n : existsb isupper n = false -> lowercase n = n.
Proof.
  induction n as [|c n IH]; [done|]. cbn. intros [Hc Hn]%orb_false_iff.
  unfold tolower. rewrite Hc. f_equal. by apply IH.
Qed.

Lemma normalize_clean v : has_header_whitespace v = false -> normalize_header_value v = v.
Proof. unfold normalize_header_value. by intros ->. Qed.

Lemma lower_bound_app hs n : let '(a, b) := lower_bound hs n in hs = a ++ b.
Proof.
  induction hs as [|h hs IH]; [done|]. cbn [lower_bound].
  destruct (str_ltb (ch_name h) n); [|done]. destruct (lower_bound hs n). by rewrite IH.
Qed.

Lemma insert_merge_lower_bound hs n v :
  insert_merge (map (fun h => (ch_name h, ch_value h)) hs) n v =
  let '(a, b) := lower_bound hs n in
  map (fun h => (ch_name h, ch_value h)) a ++
  match b with
  | h :: r => if str_eqb (ch_name h) n
              then (ch_name h, ch_value h ++ [","%char] ++ v) ::
                   map (fun h => (ch_name h, ch_value h)) r
              else (n, v) :: map (fun h => (ch_name h, ch_value h)) (h :: r)
  | [] => [(n, v)]
  end.
Proof.
  induction hs as [|h hs IH]; [done|]. cbn [map insert_merge lower_bound].
  destruct (str_ltb (ch_name h) n).
  - rewrite IH. by destruct (lower_bound hs n).
  - cbn [app map]. by case_match.
Qed.

Lemma owners_app a b : owners (a ++ b) = owners a ++ owners b.
Proof. apply omap_app. Qed.

Lemma owned_bound s i : own_ok s -> i ∈ owners (cn_headers s) -> (i < length (cn_values s))%nat.
Proof.
  intros [_ Hv] (h & Hh & Hi)%list_elem_of_omap. apply lookup_lt_is_Some.
  rewrite (Hv h i Hh Hi). done.
Qed.

(** Adding a header with no owned value, and changing the value an owner holds. *)
Lemma own_ok_insert a b names values n v owned values' :
  own_ok {| cn_headers := a ++ b; cn_names := names; cn_values := values |} ->
  (owned = None /\ values' = values \/
   owned = Some (length values) /\ values' = values ++ [v]) ->
  forall names',
  own_ok {| cn_headers := a ++ {| ch_name := n; ch_value := v; ch_owned := owned |} :: b;
            cn_names := names'; cn_values := values' |}.
Proof.
  intros Hok Hnew names'. pose proof Hok as [Hnd Hv]. cbn in *.
  assert (forall i, i ∈ owners (a ++ b) -> (i < length values)%nat) as Hlt
    by (intros i Hi; by apply (owned_bound _ i Hok)).
  assert (a ++ {| ch_name := n; ch_value := v; ch_owned := owned |} :: b ≡ₚ
          {| ch_name := n; ch_value := v; ch_owned := owned |} :: (a ++ b)) as Hp
    by (symmetry; apply Permutation_middle).
  split; cbn.
  - unfold owners. rewrite Hp. destruct Hnew as [[-> ->]|[-> ->]]; cbn; [done|].
    constructor; [|done]. intros Hin. specialize (Hlt _ Hin). lia.
  - intros h i. rewrite Hp, elem_of_cons. intros [->|Hh] Hi; cbn in *.
    + destruct Hnew as [[-> ->]|[-> ->]]; [done|]. injection Hi as <-.
      by rewrite lookup_app_r, Nat.sub_diag by lia.
    + destruct Hnew as [[-> ->]|[-> ->]]; [by apply Hv|].
      rewrite lookup_app_l; [by apply Hv|]. apply Hlt, list_elem_of_omap. by exists h.
Qed.

Lemma own_ok_update a h b names values i text :
  own_ok {| cn_headers := a ++ h :: b; cn_names := names; cn_values := values |} ->
  ch_owned h = Some i -> forall names',
  own_ok {| cn_headers := a ++ {| ch_name := ch_name h; ch_value := text; ch_owned := Some i |} :: b;
            cn_names := names'; cn_values := <[i := text]> values |}.
Proof.
  intros Hok Hi names'. pose proof Hok as [Hnd Hv]. cbn in *.
  assert (i < length values)%nat as Hlt.
  { apply (owned_bound _ i Hok). cbn. apply list_elem_of_omap. exists h. set_solver. }
  assert (forall x, a ++ x :: b ≡ₚ x :: (a ++ b)) as Hp by (intros; symmetry; apply Permutation_middle).
  unfold own_ok, owners in *. cbn in *. rewrite (Hp h) in Hnd. cbn in Hnd. rewrite Hi in Hnd.
  split; [rewrite Hp; done|].
  intros h' j. rewrite Hp, elem_of_cons. intros [->|Hh] Hj; cbn in *.
  - injection Hj as <-. by rewrite list_lookup_insert_eq.
  - apply NoDup_cons in Hnd as [Hni _]. rewrite list_lookup_insert_ne.
    + apply Hv; [|done]. rewrite Hp. set_solver.
    + intros ->. apply Hni, list_elem_of_omap. by exists h'.
Qed.

(** The part of [add_canonical_header] after the name is canonical. *)
Definition add_named (s : Canonical) (names : list bytes) (n value : bytes) : Canonical :=
  let '(before, after) := lower_bound (cn_headers s) n in
  let insert :=
    let '(value, owned, values) :=
      if has_header_whitespace value
      then (normalize_header_value value, Some (length (cn_values s)),
            cn_values s ++ [normalize_header_value value])
      else (value, None, cn_values s) in
    {| cn_headers := before ++ {| ch_name := n; ch_value := value; ch_owned := owned |} :: after;
       cn_names := names; cn_values := values |} in
  match after with
  | h :: rest =>
      if str_eqb (ch_name h) n then
        let '(owned, values) :=
          match ch_owned h with
          | Some i => (i, cn_values s)
          | None => (length (cn_values s), cn_values s ++ [ch_value h])
          end in
        let text := default [] (values !! owned) ++ [","%char] ++ normalize_header_value value in
        {| cn_headers := before ++ {| ch_name := ch_name h; ch_value := text;
                                      ch_owned := Some owned |} :: rest;
           cn_names := names; cn_values := <[owned := text]> values |}
      else insert
  | [] => insert
  end.

Lemma add_canonical_header_named s n v :
  exists names, add_canonical_header s n v = add_named s names (canonical_name n) v /\
    (length names <= length (cn_names s) + 1)%nat.
Proof.
  unfold add_canonical_header, canonical_name. destruct (str_eqb n (lit ":authority")).
  - exists (cn_names s). split; [done|lia].
  - destruct (existsb isupper n) eqn:E.
    + exists (cn_names s ++ [lowercase n]). split; [done|]. rewrite length_app. cbn. lia.
    + exists (cn_names s). rewrite lowercase_id by done. split; [done|lia].
Qed.

(** [erase] of the insertion, [own_ok] of it, and the room it takes in the vector. *)
Lemma add_new s names n v a b :
  own_ok s -> cn_headers s = a ++ b ->
  let s' := let '(value, owned, values) :=
      if has_header_whitespace v
      then (normalize_header_value v, Some (length (cn_values s)),
            cn_values s ++ [normalize_header_value v])
      else (v, None, cn_values s) in
    {| cn_headers := a ++ {| ch_name := n; ch_value := value; ch_owned := owned |} :: b;
       cn_names := names; cn_values := values |} in
  own_ok s' /\
  erase s' = map (fun h => (ch_name h, ch_value h)) a ++
             (n, normalize_header_value v) :: map (fun h => (ch_name h, ch_value h)) b /\
  (length (cn_values s') <= length (cn_values s) + 1)%nat.
Proof.
  intros Hok Hs. destruct s as [hs ns vs]. cbn in *. subst hs.
  destruct (has_header_whitespace v) eqn:W; cbn zeta iota beta.
  - split; [|split].
    + eapply own_ok_insert; [exact Hok|]. by right.
    + unfold erase. cbn. by rewrite map_app.
    + cbn. rewrite length_app. cbn. lia.
  - split; [|split].
    + eapply own_ok_insert; [exact Hok|]. by left.
    + unfold erase. cbn. by rewrite map_app, normalize_clean.
    + cbn. lia.
Qed.

Lemma add_merge s names v a h b :
  own_ok s -> cn_headers s = a ++ h :: b ->
  let s' := let '(owned, values) :=
          match ch_owned h with
          | Some i => (i, cn_values s)
          | None => (length (cn_values s), cn_values s ++ [ch_value h])
          end in
        let text := default [] (values !! owned) ++ [","%char] ++ v in
        {| cn_headers := a ++ {| ch_name := ch_name h; ch_value := text;
                                 ch_owned := Some owned |} :: b;
           cn_names := names; cn_values := <[owned := text]> values |} in
  own_ok s' /\
  erase s' = map (fun h => (ch_name h, ch_value h)) a ++
             (ch_name h, ch_value h ++ [","%char] ++ v) :: map (fun h => (ch_name h, ch_value h)) b /\
  (length (cn_values s') <= length (cn_values s) + 1)%nat.
Proof.
  intros Hok Hs. destruct s as [hs ns vs]. cbn [cn_headers cn_names cn_values] in *. subst hs.
  destruct (ch_owned h) as [i|] eqn:Hi; cbn zeta iota beta.
  - pose proof Hok as [_ Hv]. cbn in Hv. rewrite (Hv h i) by (done || set_solver). cbn [default].
    split; [|split].
    + by eapply own_ok_update.
    + unfold erase. cbn. by rewrite map_app.
    + cbn. rewrite length_insert. lia.
  - rewrite lookup_app_r, Nat.sub_diag by lia. cbn [lookup list_lookup default].
    assert (own_ok {| cn_headers := a ++ {| ch_name := ch_name h; ch_value := ch_value h;
                        ch_owned := Some (length vs) |} :: b;
                      cn_names := ns; cn_values := vs ++ [ch_value h] |}) as Hok'.
    { apply (own_ok_insert a b ns vs (ch_name h) (ch_value h)); [|by right].
      destruct Hok as [Hnd Hv]. split; cbn in *.
      - unfold owners in *. rewrite omap_app in *. cbn in Hnd. by rewrite Hi in Hnd.
      - intros h' j Hh. apply Hv. set_solver. }
    split; [|split].
    + by eapply (own_ok_update _ _ _ _ _ _ _ Hok').
    + unfold erase. cbn. by rewrite map_app.
    + cbn. rewrite length_insert, length_app. cbn. lia.
Qed.

(** [add_canonical_header] implements [insert_merge], keeps the owned values apart and takes
    at most one new element of each vector. *)
Lemma add_canonical_header_spec s n v :
  own_ok s ->
  let s' := add_canonical_header s n v in
  own_ok s' /\ erase s' = insert_merge (erase s) (canonical_name n) (normalize_header_value v) /\
  (length (cn_names s') <= length (cn_names s) + 1)%nat /\
  (length (cn_values s') <= length (cn_values s) + 1)%nat.
Proof.
  intros Hok. destruct (add_canonical_header_named s n v) as (names & -> & Hnames).
  generalize (canonical_name n). clear n. intros n. cbv zeta. unfold erase at 2.
  rewrite insert_merge_lower_bound. unfold add_named.
  pose proof (lower_bound_app (cn_headers s) n) as Hs.
  destruct (lower_bound (cn_headers s) n) as [a b].
  assert (forall s' l,
    (own_ok s' /\ erase s' = l /\ (length (cn_values s') <= length (cn_values s) + 1)%nat) ->
    cn_names s' = names ->
    own_ok s' /\ erase s' = l /\ (length (cn_names s') <= length (cn_names s) + 1)%nat /\
    (length (cn_values s') <= length (cn_values s) + 1)%nat) as Hfin.
  { intros s' l (? & ? & ?) ->. done. }
  destruct b as [|h b].
  - apply Hfin; [apply (add_new s names n v a [] Hok Hs)|by destruct (has_header_whitespace v)].
  - destruct (str_eqb (ch_name h) n).
    + apply Hfin; [apply (add_merge s names _ a h b Hok Hs)|by destruct (ch_owned h)].
    + apply Hfin; [apply (add_new s names n v a (h :: b) Hok Hs)|by destruct (has_header_whitespace v)].
Qed.

(** ** Order and lookup in the reference *)

Lemma str_ltb_irrefl a : str_ltb a a = false.
Proof. induction a as [|x a IH]; [done|]. cbn. by rewrite Z.ltb_irrefl, Z.eqb_refl, IH. Qed.

Lemma str_ltb_trans a b c : str_ltb a b = true -> str_ltb b c = true -> str_ltb a c = true.
Proof.
  revert b c. induction a as [|x a IH]; intros [|y b] [|z c]; cbn; try done.
  rewrite !orb_true_iff, !andb_true_iff, !Z.ltb_lt, !Z.eqb_eq.
  intros [?|[? ?]] [?|[? ?]]; [left; lia|left; lia|left; lia|right].
  split; [lia|by eapply IH].
Qed.

Lemma str_ltb_total a b : str_ltb a b = false -> a <> b -> str_ltb b a = true.
Proof.
  revert b. induction a as [|x a IH]; intros [|y b]; cbn; try done.
  intros [H1 H2]%orb_false_iff Hne. bool_case. rewrite orb_true_iff, andb_true_iff, Z.ltb_lt, Z.eqb_eq.
  destruct (Z.eq_dec (u8 x) (u8 y)) as [E|]; [|left; lia]. right. split; [done|].
  rewrite E, Z.eqb_refl in H2. apply IH; [done|]. intros ->. apply Hne. f_equal. by apply u8_inj.
Qed.

Definition name_lt (p q : bytes * bytes) : Prop := str_ltb p.1 q.1 = true.
Definition sorted (l : list (bytes * bytes)) : Prop := StronglySorted name_lt l.

Fixpoint assoc (l : list (bytes * bytes)) (n : bytes) : option bytes :=
  match l with
  | [] => None
  | (k, w) :: l => if str_eqb k n then Some w else assoc l n
  end.

Lemma insert_merge_Forall (P : bytes -> Prop) l n v :
  P n -> Forall (fun p => P p.1) l -> Forall (fun p => P p.1) (insert_merge l n v).
Proof.
  intros Hn. induction 1 as [|[k w] l Hk Hl IH]; cbn; [by constructor|].
  repeat case_match; by repeat constructor.
Qed.

Lemma insert_merge_sorted l n v : sorted l -> sorted (insert_merge l n v).
Proof.
  induction 1 as [|[k w] l Hs IH Hk]; cbn; [by repeat constructor|].
  destruct (str_ltb k n) eqn:E.
  - constructor; [done|]. by apply (insert_merge_Forall (fun x => str_ltb k x = true)).
  - destruct (str_eqb_spec k n) as [->|Hne]; [by constructor|].
    pose proof (str_ltb_total _ _ E Hne) as Hlt.
    constructor; [by constructor|]. constructor; [done|].
    eapply Forall_impl; [exact Hk|]. intros [x y] Hx. by apply (str_ltb_trans n k).
Qed.

Lemma assoc_lt l n : Forall (fun p => str_ltb n p.1 = true) l -> assoc l n = None.
Proof.
  induction 1 as [|[k w] l Hk Hl IH]; [done|]. cbn.
  destruct (str_eqb_spec k n) as [->|]; [|done]. cbn in Hk. by rewrite str_ltb_irrefl in Hk.
Qed.

Lemma assoc_insert_merge l n v k :
  sorted l ->
  assoc (insert_merge l n v) k =
  if str_eqb n k then Some (match assoc l n with Some w => w ++ [","%char] ++ v | None => v end)
  else assoc l k.
Proof.
  induction 1 as [|[x w] l Hs IH Hx]; cbn; [by case_match|].
  destruct (str_ltb x n) eqn:E; cbn.
  - assert (str_eqb x n = false) as Hxn.
    { destruct (str_eqb_spec x n) as [->|]; [|done]. by rewrite str_ltb_irrefl in E. }
    rewrite Hxn, IH. destruct (str_eqb_spec x k) as [->|]; [|done].
    destruct (str_eqb_spec n k) as [->|]; [|done]. by rewrite str_eqb_refl in Hxn.
  - destruct (str_eqb_spec x n) as [->|Hne]; cbn.
    + by destruct (str_eqb n k).
    + destruct (str_eqb_spec n k) as [->|]; [|done].
      rewrite assoc_lt; [done|]. eapply Forall_impl; [exact Hx|]. intros [y z] Hy. cbn in *.
      apply (str_ltb_trans k x); [|done]. by apply str_ltb_total.
Qed.

(** Comma-joined values. *)
Definition join_values (vs : list bytes) : option bytes :=
  match vs with
  | [] => None
  | v :: vs => Some (fold_left (fun acc w => acc ++ [","%char] ++ w) vs v)
  end.

Lemma join_values_snoc vs v :
  join_values (vs ++ [v]) =
  Some (match join_values vs with Some w => w ++ [","%char] ++ v | None => v end).
Proof. destruct vs as [|w vs]; [done|]. cbn. by rewrite fold_left_app. Qed.

(** The normalised values of the input headers with the canonical name [n], in order. *)
Definition values_of (l : list (bytes * bytes)) (n : bytes) : list bytes :=
  map (fun h => normalize_header_value h.2) (filter (fun h => canonical_name h.1 = n) l).

Definition no_headers : Canonical := {| cn_headers := []; cn_names := []; cn_values := [] |}.

Definition reference (l : list (bytes * bytes)) : list (bytes * bytes) :=
  fold_left (fun s h => insert_merge s (canonical_name h.1) (normalize_header_value h.2)) l [].

Lemma add_all_reference l :
  let s := add_all no_headers l in
  own_ok s /\ erase s = reference l /\ (length (cn_names s) <= length l)%nat /\
  (length (cn_values s) <= length l)%nat.
Proof.
  induction l as [|h l IH] using rev_ind.
  - cbn. split_and!; [|done|lia|lia]. split; [constructor|set_solver].
  - unfold add_all, reference in *. rewrite !fold_left_app. cbn [fold_left].
    destruct IH as (Hok & He & Hn & Hv).
    destruct (add_canonical_header_spec _ h.1 h.2 Hok) as (? & E & ? & ?).
    rewrite length_app. cbn [length]. split_and!; [done| |lia|lia].
    by rewrite E, He.
Qed.

Lemma reference_spec l :
  sorted (reference l) /\ forall n, assoc (reference l) n = join_values (values_of l n).
Proof.
  induction l as [|h l [Hs IH]] using rev_ind; [split; [constructor|done]|].
  unfold reference in *. rewrite fold_left_app. cbn [fold_left].
  split; [by apply insert_merge_sorted|]. intros n.
  rewrite assoc_insert_merge by done. unfold values_of. rewrite filter_app, map_app.
  rewrite filter_cons, filter_nil. destruct (str_eqb_spec (canonical_name h.1) n) as [E|E].
  - rewrite decide_True by done. cbn [map]. rewrite join_values_snoc, IH. by rewrite E.
  - rewrite decide_False by done. cbn [map]. by rewrite app_nil_r, IH.
Qed.

(** ** Writing the canonical headers *)

Fixpoint write_pairs (l : list (bytes * bytes)) (canonical signed_names : bytes) : bytes * bytes :=
  match l with
  | [] => (canonical, signed_names)
  | (n, v) :: l =>
      write_pairs l (canonical ++ n ++ [":"%char] ++ v ++ nl)
        ((if negb (vsize signed_names =? 0) then signed_names ++ [";"%char] else signed_names) ++ n)
  end.

Lemma write_headers_pairs hs a b :
  write_headers hs a b = write_pairs (map (fun h => (ch_name h, ch_value h)) hs) a b.
Proof. revert a b. induction hs as [|h hs IH]; intros a b; [done|]. cbn. apply IH. Qed.

Lemma general_headers_reference c r :
  general_headers c r = write_pairs (reference (signed_inputs c r)) [] [].
Proof.
  unfold general_headers. rewrite write_headers_pairs.
  destruct (add_all_reference (signed_inputs c r)) as (_ & <- & _). done.
Qed.

Definition clean (v : bytes) : Prop := normalize_header_value v = v.

(** What the fast scan accepts: at most one [if-match] and one [range], in any order. *)
Lemma fast_scan_spec hs im rg :
  fast_scan hs None None = Some (im, rg) ->
  map (fun h => (name h, value h)) hs = [] /\ im = None /\ rg = None \/
  (exists v, map (fun h => (name h, value h)) hs = [(lit "if-match", v)] /\
             im = Some v /\ rg = None) \/
  (exists v, map (fun h => (name h, value h)) hs = [(lit "range", v)] /\
             im = None /\ rg = Some v) \/
  (exists v w, (map (fun h => (name h, value h)) hs = [(lit "if-match", v); (lit "range", w)] \/
                map (fun h => (name h, value h)) hs = [(lit "range", w); (lit "if-match", v)]) /\
             im = Some v /\ rg = Some w).
Proof.
  destruct hs as [|[n v] [|[n' v'] [|[n'' v''] hs]]]; cbn [fast_scan map name value];
    repeat match goal with
    | |- context [str_eqb ?a ?b] =>
        destruct (str_eqb_spec a b) as [->|?]; cbn [andb bool_decide decide_rel]
    end; cbn; intros E; simplify_eq; naive_solver.
Qed.

(** ** Claims *)

(** header canonicalisation is correct: after any sequence of headers the canonical list
    is strictly sorted by name, holds for each lower-case name the comma-joined normalised
    values in input order and nothing else, and never needs more than one new element of
    [normalized_names] or [normalized_values] per header, so the reserved vectors are not
    reallocated while string views point into them; owned values are never shared. *)
Theorem canonical_headers_correct l :
  let s := add_all no_headers l in
  sorted (erase s) /\
  (forall n, assoc (erase s) n = join_values (values_of l n)) /\
  NoDup (owners (cn_headers s)) /\
  (length (cn_names s) <= length l)%nat /\ (length (cn_values s) <= length l)%nat.
Proof.
  destruct (add_all_reference l) as ([Hnd _] & He & ? & ?). cbv zeta. rewrite He.
  destruct (reference_spec l) as [? ?]. done.
Qed.

(** Evaluate the comparisons of literal header names. *)
Ltac eval_names :=
  repeat first
  [ progress cbn [insert_merge app write_pairs]
  | match goal with
    | |- context [canonical_name (lit ?a)] =>
        change (canonical_name (lit a)) with (lit a)
    | |- context [str_ltb (lit ?a) (lit ?b)] =>
        let v := eval vm_compute in (str_ltb (lit a) (lit b)) in
        change (str_ltb (lit a) (lit b)) with v
    | |- context [str_eqb (lit ?a) (lit ?b)] =>
        let v := eval vm_compute in (str_eqb (lit a) (lit b)) in
        change (str_eqb (lit a) (lit b)) with v
    | |- context [negb (vsize ?a =? 0)] =>
        let v := eval vm_compute in (negb (vsize a =? 0)) in
        change (negb (vsize a =? 0)) with v
    end ].

Lemma fast_headers_general c r hs im rg :
  fast_scan hs None None = Some (im, rg) -> headers r = hs ->
  clean (authority r) -> clean (payload_hash r) -> clean (amz_datetime r) ->
  clean (session_token c) -> Forall (fun h => clean (value h)) hs ->
  fast_headers c r im rg = general_headers c r.
Proof.
  intros Hscan Hhs Ca Cp Cd Ct Ch. rewrite general_headers_reference. unfold signed_inputs.
  rewrite Hhs.
  assert (Forall (fun p => clean p.2) (map (fun h => (name h, value h)) hs)) as Ch'.
  { apply Forall_fmap. done. }
  clear Ch Hhs. unfold fast_headers.
  destruct (negb (vsize (session_token c) =? 0)); unfold clean in *;
  destruct (fast_scan_spec hs im rg Hscan)
    as [(E & -> & ->)|[(v & E & -> & ->)|[(v & E & -> & ->)|(v & w & [E|E] & -> & ->)]]];
    rewrite E in Ch' |- *; rewrite ?Forall_cons in Ch'; cbn [snd] in Ch'; destruct_and? Ch';
    unfold reference; cbn [fold_left map app fst snd]; repeat match goal with
    | H : normalize_header_value ?x = ?x |- _ => rewrite H; clear H
    end; eval_names; unfold nl; repeat (rewrite <- ?app_assoc; cbn [app]); reflexivity.
Qed.

(** the fast path for GET signs the same thing: when the authority, payload hash, date,
    token and header values carry no white space to normalise, signing with [fast_get] gives
    the canonical headers and the signed header names of the general path. *)
Theorem fast_get_equivalent c r :
  clean (authority r) -> clean (payload_hash r) -> clean (amz_datetime r) ->
  clean (session_token c) -> Forall (fun h => clean (value h)) (headers r) ->
  choose_headers false c r = choose_headers true c r.
Proof.
  intros. unfold choose_headers. cbn [negb andb].
  destruct (fast_get r && _); [|done].
  destruct (fast_scan (headers r) None None) as [[im rg]|] eqn:E; [|done].
  by eapply fast_headers_general.
Qed.

Definition sample_credentials : Credentials :=
  {| access_key_id := lit "AKID"; secret_access_key := lit "secret"; session_token := lit "tok" |}.

Definition sample_request : SignRequest :=
  {| method := lit "GET"; canonical_uri := lit "/b/k"; canonical_query := [];
     authority := lit "s3.example.com";
     headers := [{| name := lit "range"; value := lit "bytes=0-9" |};
                 {| name := lit "if-match"; value := lit "etag" |}];
     payload_hash := lit "UNSIGNED-PAYLOAD"; amz_datetime := lit "20240229T123456Z";
     region := lit "us-east-1"; service := lit "s3"; fast_get := true |}.

Lemma fast_get_equivalent_witness :
  choose_headers false sample_credentials sample_request =
  choose_headers true sample_credentials sample_request.
Proof.
  apply fast_get_equivalent; try (vm_compute; reflexivity).
  repeat constructor; vm_compute; reflexivity.
Defined.

(** the precomputed HMAC keys give HMAC-SHA256 as RFC 2104 defines it, and the signing key
    cache never changes a signature: from any state whose key belongs to its tags,
    [signing_hmac] returns the HMAC under the AWS signing key of the arguments and leaves such
    a state. *)
Theorem signing_key_cache_correct `{laws : Sha256Laws} cache secret date region service text :
  key_cache_ok cache ->
  let '(cache', mac) := signing_hmac cache secret date region service text in
  mac = Ok (rfc_hmac H (aws_signing_key H secret date region service) text) /\
  key_cache_ok cache'.
Proof.
  intros Hc. destruct (signing_hmac_spec cache secret date region service text Hc) as (c & -> & ?).
  done.
Qed.

(** A stand-in hash for evaluation: the first 32 bytes of the zero-padded input. *)
Definition toy_hash (d : bytes) : bytes := take 32 (d ++ replicate 32 Ascii.zero).

Definition toy_sha : Sha256 := {|
  sha_ctx := bytes; sha_init := Some []; sha_update c x := Some (c ++ x);
  sha_final c := Some (toy_hash c) |}.

Lemma toy_sha_laws : Sha256Laws toy_sha toy_hash.
Proof.
  refine {| absorbed := (fun c d => c = d) : @sha_ctx toy_sha -> bytes -> Prop |}.
  - by exists [].
  - intros c d x ->. by eexists.
  - intros c d ->. done.
  - intros d. unfold toy_hash, vsize. rewrite length_take, length_app, length_replicate. lia.
Defined.

Definition empty_cache : @SigningKeyCache toy_sha :=
  {| kc_secret_access_key := []; kc_date := []; kc_region := []; kc_service := [];
     kc_hmac_key := None; kc_valid := false |}.

Lemma signing_key_cache_correct_witness :
  (@signing_hmac toy_sha empty_cache (lit "s") (lit "d") (lit "r") (lit "s3") (lit "x")).2 =
  Ok (rfc_hmac toy_hash (aws_signing_key toy_hash (lit "s") (lit "d") (lit "r") (lit "s3"))
        (lit "x")).
Proof.
  pose proof (@signing_key_cache_correct toy_sha toy_hash toy_sha_laws empty_cache
    (lit "s") (lit "d") (lit "r") (lit "s3") (lit "x")) as Hc.
  destruct (signing_hmac empty_cache _ _ _ _ _) as [c m]. apply Hc. intros [=].
Defined.

(** ** The specification *)

(** A request that can be signed. *)
Record complete (c : Credentials) (r : SignRequest) : Prop := {
  complete_access : access_key_id c <> [];
  complete_secret : secret_access_key c <> [];
  complete_datetime : Aws.timestamp (amz_datetime r);
  complete_payload : payload_hash r <> [];
  complete_authority : authority r <> [];
  complete_region : region r <> [];
}.

(** The headers a signed request is sent with, the [authorization] apart. *)
Definition sent_headers (c : Credentials) (r : SignRequest) : list (bytes * bytes) :=
  (lit "host", authority r) :: map (fun h => (name h, value h)) (headers r) ++
  [(lit "x-amz-content-sha256", payload_hash r); (lit "x-amz-date", amz_datetime r)] ++
  if decide (session_token c = []) then [] else [(lit "x-amz-security-token", session_token c)].

Lemma white_header_space c : Aws.white c = header_space c.
Proof. destruct c as [[] [] [] [] [] [] [] []]; vm_compute; reflexivity. Qed.

Lemma words_white c v : header_space c = true -> Aws.words (c :: v) = Aws.words v.
Proof. intros Hc. cbn [Aws.words]. by rewrite white_header_space, Hc. Qed.

(** The first word of a value that starts with a character that is not white space. *)
Lemma words_cons c v :
  header_space c = false ->
  Aws.words (c :: v) =
  match v with
  | d :: _ =>
      if header_space d then [c] :: Aws.words v
      else match Aws.words v with [] => [[c]] | w :: ws => (c :: w) :: ws end
  | [] => [[c]]
  end.
Proof.
  intros Hc. cbn [Aws.words]. rewrite white_header_space, Hc. destruct v as [|d v]; [done|].
  by rewrite white_header_space.
Qed.

Lemma words_nonempty c v : header_space c = false -> exists w ws, Aws.words (c :: v) = (c :: w) :: ws.
Proof.
  intros Hc. rewrite words_cons by done. destruct v as [|d v]; [by eexists _, _|].
  destruct (header_space d); [by eexists _, _|]. destruct (Aws.words (d :: v)); by eexists _, _.
Qed.

Lemma join_cons sep x l :
  Aws.join sep (x :: l) = x ++ match l with [] => [] | _ => sep ++ Aws.join sep l end.
Proof. destruct l; [by rewrite app_nil_r|done]. Qed.

(** What [normalize_loop] still has to append. *)
Lemma normalize_loop_words v out pending :
  (pending = true -> out <> []) ->
  normalize_loop v out pending =
  out ++ match Aws.words v with
         | [] => []
         | ws => (if pending || (bool_decide (out <> []) && from_option header_space false (head v))
                  then [" "%char] else []) ++ Aws.join [" "%char] ws
         end.
Proof.
  revert out pending. induction v as [|c v IH]; intros out pending Hp.
  { cbn. by rewrite app_nil_r. }
  cbn [normalize_loop]. destruct (header_space c) eqn:Hc.
  - assert (pending || negb (vsize out =? 0) = pending || bool_decide (out <> [])) as ->.
    { destruct out; [done|]. destruct pending; [done|]. by rewrite bool_decide_true. }
    rewrite IH.
    2:{ intros [->|?%bool_decide_eq_true]%orb_true_iff; auto. }
    rewrite words_white by done. cbn [head from_option]. rewrite Hc, andb_true_r.
    destruct (Aws.words v) eqn:E; [done|]. f_equal. f_equal.
    destruct pending; [done|]. cbn [orb]. destruct (bool_decide (out <> [])); [done|].
    done.
  - rewrite IH by done. rewrite words_cons by done. cbn [orb head from_option].
    rewrite Hc, andb_false_r, orb_false_r.
    rewrite bool_decide_true by (intros [? ?]%app_eq_nil; done). cbn [andb].
    rewrite <- !app_assoc. 
    assert (forall t, (if pending then out ++ [" "%char] else out) ++ [c] ++ t =
              out ++ (if pending then [" "%char] else []) ++ [c] ++ t) as Hsp.
    { intros t. destruct pending; [by rewrite <- app_assoc|done]. }
    rewrite Hsp. f_equal. f_equal. destruct v as [|d v]; [done|].
    cbn [head from_option]. destruct (header_space d) eqn:Hd.
    + rewrite join_cons. destruct (Aws.words (d :: v)); done.
    + destruct (words_nonempty d v Hd) as (w & ws & ->). cbn [app].
      rewrite !join_cons. done.
Qed.

Lemma words_plain c v :
  has_header_whitespace (c :: v) = false -> Aws.words (c :: v) = [c :: v].
Proof.
  revert c. induction v as [|d v IH]; intros c [Hc Hv]%orb_false_iff;
    rewrite words_cons by done; [done|].
  pose proof Hv as [Hd _]%orb_false_iff. rewrite Hd. by rewrite IH.
Qed.

Lemma normalize_trim v : normalize_header_value v = Aws.trim v.
Proof.
  unfold normalize_header_value, Aws.trim. destruct (has_header_whitespace v) eqn:E; cbn [negb].
  - rewrite normalize_loop_words by done. rewrite bool_decide_false by auto. cbn [orb andb app].
    by destruct (Aws.words v).
  - destruct v as [|c v]; [done|]. by rewrite words_plain.
Qed.

Lemma lower_tolower c : Aws.lower c = tolower c.
Proof. destruct c as [[] [] [] [] [] [] [] []]; vm_compute; reflexivity. Qed.

Lemma header_name_canonical n : Aws.header_name n = canonical_name n.
Proof.
  unfold Aws.header_name, canonical_name, lowercase.
  destruct (str_eqb_spec n (lit ":authority")) as [->|?]; [done|].
  rewrite bool_decide_false by done. apply map_ext, lower_tolower.
Qed.

Lemma header_values_of l n : Aws.header_values l n = values_of l n.
Proof.
  unfold Aws.header_values, values_of. induction l as [|h l IH]; [done|].
  rewrite !filter_cons. destruct (decide (Aws.header_name h.1 = n)) as [E|E];
    rewrite header_name_canonical in E; [rewrite decide_True by done|rewrite decide_False by done];
    [|done]. cbn [map]. by rewrite IH, normalize_trim.
Qed.

Lemma before_ltb a b : str_ltb a b = true -> Aws.before a b.
Proof.
  revert b. induction a as [|x a IH]; intros [|y b]; cbn; try done.
  intros [?%Z.ltb_lt|[?%Z.eqb_eq ?]%andb_true_iff]%orb_true_iff; [by left|right].
  split; [by apply u8_inj|by apply IH].
Qed.

Lemma assoc_elem_of l n v : sorted l -> (n, v) ∈ l <-> assoc l n = Some v.
Proof.
  induction 1 as [|[k w] l Hs IH Hk]; [set_solver|]. rewrite elem_of_cons, IH. cbn [assoc].
  destruct (str_eqb_spec k n) as [->|Hne].
  - rewrite assoc_lt by exact Hk. naive_solver.
  - naive_solver.
Qed.

Lemma join_snoc sep l v :
  l <> [] -> Aws.join sep (l ++ [v]) = Aws.join sep l ++ sep ++ v.
Proof.
  induction l as [|w l IH]; [done|]. intros _. destruct l as [|x l]; [done|].
  rewrite (join_cons sep w (x :: l)). cbn [app]. rewrite (join_cons sep w (x :: l ++ [v])).
  change (x :: l ++ [v]) with ((x :: l) ++ [v]). rewrite IH by done. by rewrite <- !app_assoc.
Qed.

Lemma join_values_join vs : vs <> [] -> join_values vs = Some (Aws.join [","%char] vs).
Proof.
  induction vs as [|v vs IH] using rev_ind; [done|]. intros _. rewrite join_values_snoc.
  destruct (decide (vs = [])) as [->|Hvs]; [done|]. by rewrite IH, join_snoc.
Qed.

Lemma reference_canonical l : Aws.canonical l (reference l).
Proof.
  destruct (reference_spec l) as [Hs Ha]. split.
  - eapply StronglySorted_ind with (P := StronglySorted _); [constructor| |exact Hs].
    intros p q _ IH Hp. constructor; [done|]. eapply Forall_impl; [exact Hp|].
    intros ? ?. by apply before_ltb.
  - intros n v. rewrite assoc_elem_of, Ha, header_values_of by done.
    destruct (decide (values_of l n = [])) as [->|Hne]; [cbn; naive_solver|].
    rewrite join_values_join by done. naive_solver.
Qed.

Lemma write_pairs_join l a b :
  Forall (fun p => p.1 <> []) l -> b <> [] ->
  write_pairs l a b =
  (a ++ concat (map (fun p => p.1 ++ lit ":" ++ p.2 ++ nl) l),
   b ++ concat (map (fun p => lit ";" ++ p.1) l)).
Proof.
  intros Hl. revert a b. induction Hl as [|[n v] l Hn Hl IH]; intros a b Hb; cbn [write_pairs map concat].
  { by rewrite !app_nil_r. }
  assert (negb (vsize b =? 0) = true) as -> by (destruct b; [done|reflexivity]).
  rewrite IH by (intros [_ ?]%app_eq_nil; done). cbn [fst snd].
  f_equal; rewrite <- ?app_assoc; reflexivity.
Qed.

Lemma join_names n l :
  Aws.join [";"%char] (n :: l) = n ++ concat (map (fun m => lit ";" ++ m) l).
Proof.
  revert n. induction l as [|m l IH]; intros n; [by rewrite join_cons|].
  rewrite join_cons, IH. reflexivity.
Qed.

Lemma write_pairs_spec l :
  Forall (fun p => p.1 <> []) l ->
  write_pairs l [] [] =
  (concat (map (fun p => p.1 ++ lit ":" ++ p.2 ++ nl) l), Aws.signed_headers l).
Proof.
  intros Hl. destruct Hl as [|[n v] l Hn Hl]; [done|]. cbn [write_pairs].
  change (negb (vsize [] =? 0)) with false. cbn [app] in *. rewrite write_pairs_join by done.
  unfold Aws.signed_headers. cbn [map fst snd concat]. rewrite join_names, map_map, <- !app_assoc.
  cbn [app]. by rewrite <- !app_assoc.
Qed.

Lemma join_lines l rest :
  rest <> [] ->
  Aws.join nl (l ++ rest) = concat (map (fun x => x ++ nl) l) ++ Aws.join nl rest.
Proof.
  intros Hr. induction l as [|x l IH]; [done|]. cbn [app map concat]. rewrite join_cons, IH.
  destruct (l ++ rest) eqn:E; [by apply app_eq_nil in E as [_ ?]|]. by rewrite <- !app_assoc.
Qed.

Lemma canonical_request_spec r hs :
  canonical_request r (concat (map (fun p => p.1 ++ lit ":" ++ p.2 ++ nl) hs),
                       Aws.signed_headers hs) =
  Aws.canonical_request (method r) (canonical_uri r) (canonical_query r) (payload_hash r) hs.
Proof.
  unfold canonical_request, Aws.canonical_request. change Aws.newline with nl.
  rewrite join_lines by (intros [_ ?]%app_eq_nil; done). rewrite join_lines by done.
  rewrite map_map. cbn [map concat Aws.join fst snd].
  rewrite <- !app_assoc. cbn [app].
  assert (map (fun p : bytes * bytes => p.1 ++ lit ":" ++ p.2 ++ nl) hs =
          map (fun p => (p.1 ++ lit ":" ++ p.2) ++ nl) hs) as ->.
  { apply map_ext. intros p. by rewrite <- !app_assoc. }
  reflexivity.
Qed.

Lemma hex_spec d : hex d = Aws.hex d.
Proof.
  unfold hex, Aws.hex. rewrite flat_map_concat_map. f_equal. apply map_ext. intros b.
  unfold hex_char. destruct b as [[] [] [] [] [] [] [] []]; vm_compute; reflexivity.
Qed.

Lemma rfc_hmac_spec H key text : rfc_hmac H key text = Aws.hmac H key text.
Proof.
  unfold rfc_hmac, Aws.hmac, Aws.hmac_key, key_block, SHA256_CBLOCK.
  assert ((vsize key >? 64) = bool_decide (64 < length key)%nat) as ->.
  { unfold vsize. destruct (decide (64 < length key)%nat);
      [rewrite bool_decide_true by done; lia|rewrite bool_decide_false by done; lia]. }
  assert (forall k : bytes, Z.to_nat (64 - vsize k) = (64 - length k)%nat) as Hk
    by (unfold vsize; lia).
  unfold bool_decide. destruct (decide_rel _ _ _); rewrite Hk; reflexivity.
Qed.

Lemma signing_key_spec H secret date region service :
  aws_signing_key H secret date region service = Aws.signing_key H secret date region service.
Proof. unfold aws_signing_key. by rewrite !rfc_hmac_spec. Qed.

Lemma vsize_nil_eqb (l : bytes) : negb (vsize l =? 0) = bool_decide (l <> []).
Proof. destruct l; [done|]. by rewrite bool_decide_true. Qed.

Lemma sent_headers_inputs c r : signed_inputs c r = sent_headers c r.
Proof.
  unfold signed_inputs, sent_headers. rewrite vsize_nil_eqb.
  destruct (decide (session_token c = [])) as [->|?]; [done|]. by rewrite bool_decide_true.
Qed.

Lemma timestamp_spec d :
  (vsize d =? 16) && ascii_eqb (at_z d 8) "T" && ascii_eqb (at_z d (vsize d - 1)) "Z" = true <->
  Aws.timestamp d.
Proof.
  unfold ascii_eqb. rewrite !andb_true_iff, !Ascii.eqb_eq, Z.eqb_eq. split.
  - intros ((Hl & HT) & HZ). assert (length d = 16%nat) as Hl' by (unfold vsize in Hl; lia).
    clear Hl. do 16 (destruct d as [|? d]; [discriminate|]). destruct d; [|discriminate].
    vm_compute in HT, HZ. subst. eexists [_; _; _; _; _; _; _; _], [_; _; _; _; _; _].
    split; [reflexivity|done].
  - intros (day & clock & -> & Hd & Hc).
    do 8 (destruct day as [|? day]; [discriminate|]). destruct day; [|discriminate].
    do 6 (destruct clock as [|? clock]; [discriminate|]). destruct clock; [|discriminate].
    done.
Qed.

Lemma sign_request_ok_spec c r : sign_request_ok c r = true <-> complete c r.
Proof.
  assert (sign_request_ok c r = true <->
    (access_key_id c <> [] /\ secret_access_key c <> []) /\
    ((vsize (amz_datetime r) =? 16) && ascii_eqb (at_z (amz_datetime r) 8) "T" &&
     ascii_eqb (at_z (amz_datetime r) (vsize (amz_datetime r) - 1)) "Z" = true) /\
    payload_hash r <> [] /\ authority r <> [] /\ region r <> []) as ->.
  { unfold sign_request_ok. rewrite !vsize_nil_eqb, !andb_true_iff, !bool_decide_eq_true. tauto. }
  rewrite timestamp_spec. split; [intros ((?&?)&?&?&?&?); by constructor|by intros []].
Qed.

Lemma reference_names l :
  Forall (fun h => h.1 <> []) l -> Forall (fun p => p.1 <> []) (reference l).
Proof.
  intros Hl. apply Forall_forall. intros [n v] Hin.
  apply (Aws.canonical_values _ _ (reference_canonical l)) in Hin as [Hne _]. cbn.
  intros ->. apply Hne. unfold Aws.header_values.
  replace (filter _ l) with (@nil (bytes * bytes)); [done|]. symmetry. clear Hne v.
  induction Hl as [|h l Hh Hl IH]; [done|]. rewrite filter_cons_False; [exact IH|].
  unfold Aws.header_name. case_bool_decide; [done|]. by destruct h.1.
Qed.

(** The two header strings are those of the canonical list. *)
Lemma choose_headers_spec diagnostics c r :
  Forall (fun h => name h <> []) (headers r) ->
  diagnostics = true \/ fast_get r = false \/
    Forall (fun h => Aws.trim h.2 = h.2) (sent_headers c r) ->
  choose_headers diagnostics c r =
  (concat (map (fun p => p.1 ++ lit ":" ++ p.2 ++ nl) (reference (sent_headers c r))),
   Aws.signed_headers (reference (sent_headers c r))).
Proof.
  intros Hn Hw. transitivity (general_headers c r).
  - destruct Hw as [->|[Hf|Hw]]; [done|unfold choose_headers; by rewrite Hf, andb_false_r|].
    destruct diagnostics; [done|]. rewrite Forall_forall in Hw.
    assert (forall n v, (n, v) ∈ sent_headers c r -> clean v) as Hc
      by (intros n v Hin; unfold clean; rewrite normalize_trim; apply (Hw _ Hin)).
    unfold sent_headers in Hc. rewrite fast_get_equivalent; [done|..].
    + eapply Hc. by left.
    + apply (Hc (lit "x-amz-content-sha256")). set_solver.
    + apply (Hc (lit "x-amz-date")). set_solver.
    + destruct (decide (session_token c = [])) as [->|?]; [done|].
      apply (Hc (lit "x-amz-security-token")). set_solver.
    + apply Forall_forall. intros h Hh. apply (Hc (name h)). right. apply elem_of_app. left.
      apply list_elem_of_fmap. by exists h.
  - rewrite general_headers_reference, sent_headers_inputs. apply write_pairs_spec, reference_names.
    unfold sent_headers. constructor; [done|]. apply Forall_app. split; [by apply Forall_fmap|].
    repeat constructor; [done..|]. case_decide; by repeat constructor.
Qed.

Lemma authorization_spec H c r hs :
  authorization c r (Aws.signed_headers hs)
    (hex (rfc_hmac H (aws_signing_key H (secret_access_key c) (take_z 8 (amz_datetime r)) (region r)
                        (service r))
            (string_to_sign r (hex (H (Aws.canonical_request (method r) (canonical_uri r)
                                         (canonical_query r) (payload_hash r) hs)))))) =
  Aws.authorization H (method r) (canonical_uri r) (canonical_query r) (payload_hash r)
    (amz_datetime r) (region r) (service r) hs (access_key_id c) (secret_access_key c).
Proof.
  rewrite rfc_hmac_spec, signing_key_spec, !hex_spec.
  assert (credential_scope r = Aws.scope (amz_datetime r) (region r) (service r)) as Hscope
    by reflexivity.
  assert (forall h, string_to_sign r h = Aws.join Aws.newline
    [lit "AWS4-HMAC-SHA256"; amz_datetime r; Aws.scope (amz_datetime r) (region r) (service r); h])
    as Hstring by reflexivity.
  unfold authorization, Aws.authorization. rewrite Hscope, Hstring. cbn [Aws.join].
  rewrite <- !app_assoc. reflexivity.
Qed.

(** C40: [sign_v4_impl] signs as the AWS specification [Aws] says, whatever the key cache held
    before. It refuses exactly the requests that are not complete, and then leaves the key cache
    alone. A complete request is signed: when no header name is empty and, for a GET that takes
    the fast path, no value has white space that trimming would change, the four or five headers
    it adds end with the [authorization] of the specification over the canonical list of the
    headers sent: sorted by lower-case name, each with its trimmed values joined by commas. *)
Theorem sign_v4_correct `{laws : Sha256Laws} cache diagnostics c r :
  key_cache_ok cache ->
  let '(cache', signed) := sign_v4_impl cache diagnostics c r in
  key_cache_ok cache' /\
  (~ complete c r -> signed = Throw InvalidArgument /\ cache' = cache) /\
  (complete c r -> exists s, signed = Ok s /\
    (Forall (fun h => name h <> []) (headers r) ->
     diagnostics = true \/ fast_get r = false \/
       Forall (fun h => Aws.trim h.2 = h.2) (sent_headers c r) ->
     exists hs, Aws.canonical (sent_headers c r) hs /\
       sg_signed_header_names s = Aws.signed_headers hs /\
       sg_canonical_request_hash s =
         Aws.hex (H (Aws.canonical_request (method r) (canonical_uri r) (canonical_query r)
                       (payload_hash r) hs)) /\
       map (fun h => (name h, value h)) (sg_headers s) =
         drop (S (length (headers r))) (sent_headers c r) ++
         [(lit "authorization",
           Aws.authorization H (method r) (canonical_uri r) (canonical_query r) (payload_hash r)
             (amz_datetime r) (region r) (service r) hs (access_key_id c)
             (secret_access_key c))])).
Proof.
  intros Hc. unfold sign_v4_impl.
  destruct (sign_request_ok c r) eqn:Eok; cbn [negb].
  2:{ split; [done|]. split; [done|]. intros Hr. apply sign_request_ok_spec in Hr. congruence. }
  apply sign_request_ok_spec in Eok. rewrite sha256_spec. cbn [rbind].
  set (fields := choose_headers diagnostics c r).
  destruct (signing_hmac_spec cache (secret_access_key c) (take_z 8 (amz_datetime r)) (region r)
    (service r) (string_to_sign r (hex (H (canonical_request r fields)))) Hc) as (c' & -> & Hc').
  split; [done|]. split; [done|]. intros _. eexists. split; [reflexivity|]. intros Hn Hw.
  exists (reference (sent_headers c r)). split; [apply reference_canonical|].
  cbn [sg_canonical_request_hash sg_signed_header_names sg_headers].
  subst fields. rewrite (choose_headers_spec diagnostics c r Hn Hw). cbn [fst snd].
  rewrite canonical_request_spec, authorization_spec, hex_spec. split_and!; [done..|].
  unfold sent_headers. cbn [drop]. rewrite <- (length_map (fun h => (name h, value h)) (headers r)).
  rewrite drop_app_length, !map_app, vsize_nil_eqb. cbn [map name value].
  destruct (decide (session_token c = [])) as [->|?]; [done|]. by rewrite bool_decide_true.
Qed.

Lemma sign_v4_correct_witness :
  exists s hs, (sign_v4_impl empty_cache false sample_credentials sample_request).2 = Ok s /\
    Aws.canonical (sent_headers sample_credentials sample_request) hs /\
    sg_signed_header_names s = Aws.signed_headers hs.
Proof.
  pose proof (@sign_v4_correct toy_sha toy_hash toy_sha_laws empty_cache false
    sample_credentials sample_request) as Hs.
  destruct (sign_v4_impl empty_cache false sample_credentials sample_request) as [c' m].
  destruct Hs as (_ & _ & Hs); [intros [=]|].
  destruct Hs as (s & -> & Hs).
  { constructor; try discriminate. by exists (lit "20240229"), (lit "123456"). }
  destruct Hs as (hs & ? & ? & _); [by repeat constructor| |by exists s, hs].
  right. right. repeat constructor; vm_compute; reflexivity.
Defined.
