(* ===== verification/Interleave.v ===== *)
(** * Interleaved clients

    The locks and pools of the sources are shared objects whose methods are short sequences
    of atomic operations.  A model of one of them lists, for a client at a given point of its
    program, the outcomes of the next atomic operation; the clients then run in every
    interleaving.  [internal] operations are those a client performs by itself once it can;
    [external] ones are requests of the application and failures of system calls, which may
    happen at any moment and which nothing waits for. *)

From S2P Require Import Prelude.

Record Threads (S P : Type) := mkThreads { shared : S; pcs : list P }.
Arguments mkThreads {S P} _ _.
Arguments shared {S P} _.
Arguments pcs {S P} _.

Section Interleave.
Context {S P : Type} (internal external : S -> P -> list (S * P)).

Definition outcomes (s : S) (p : P) : list (S * P) := internal s p ++ external s p.

(** One atomic operation of one client. *)
Inductive interleave : Threads S P -> Threads S P -> Prop :=
  | interleave_client i p s' p' c :
      pcs c !! i = Some p -> (s', p') ∈ outcomes (shared c) p ->
      interleave c (mkThreads s' (<[i := p']> (pcs c))).

(** Some client can go on by itself. *)
Definition can_step (c : Threads S P) : bool :=
  existsb (fun p => negb (bool_decide (length (internal (shared c) p) = 0%nat))) (pcs c).

(** The run in which client [i] takes outcome [j], for each [(i, j)] of the schedule. *)
Fixpoint schedule (sched : list (nat * nat)) (c : Threads S P) : option (Threads S P) :=
  match sched with
  | [] => Some c
  | (i, j) :: rest =>
      match pcs c !! i with
      | Some p =>
          match outcomes (shared c) p !! j with
          | Some (s', p') => schedule rest (mkThreads s' (<[i := p']> (pcs c)))
          | None => None
          end
      | None => None
      end
  end.

Lemma schedule_reaches sched c c' : schedule sched c = Some c' -> rtc interleave c c'.
Proof.
  revert c; induction sched as [|[i j] rest IH]; intros c H; cbn in H; [by simplify_eq; apply rtc_refl|].
  destruct (pcs c !! i) as [p|] eqn:Hp; [|done].
  destruct (outcomes (shared c) p !! j) as [[s' p']|] eqn:Ho; [|done].
  eapply rtc_l; [|by apply IH]. econstructor; [done|by eapply list_elem_of_lookup_2].
Qed.

(** An invariant holds wherever the clients get to. *)
Lemma interleave_invariant (I : Threads S P -> Prop) c c' :
  (forall i p s' p' d, I d -> pcs d !! i = Some p -> (s', p') ∈ outcomes (shared d) p ->
     I (mkThreads s' (<[i := p']> (pcs d)))) ->
  I c -> rtc interleave c c' -> I c'.
Proof. intros Hs Hi. apply rtc_ind_r; [done|]. intros a b _ [i p s' p' d Hp Ho] Ha. by eapply Hs. Qed.

Lemma interleave_length c c' : rtc interleave c c' -> length (pcs c') = length (pcs c).
Proof.
  induction 1 as [|a b d [i p s' p' e Hp Ho] _ IH]; [done|]. by rewrite IH; cbn; rewrite length_insert.
Qed.

Lemma can_step_false c :
  can_step c = false <-> forall p, p ∈ pcs c -> internal (shared c) p = [].
Proof.
  unfold can_step. rewrite <- not_true_iff_false, existsb_exists. split.
  - intros H p Hp. destruct (internal (shared c) p) eqn:E; [done|]. exfalso. apply H.
    exists p. split; [by apply list_elem_of_In|]. by rewrite E.
  - intros H (p & Hp%list_elem_of_In & E). by rewrite H in E.
Qed.

End Interleave.

(** ** Counting clients *)

#[global] Arguments zsum : simpl never.

Section Counting.
Context {P : Type}.
Implicit Types (f : P -> Z) (l : list P).

(** A client moving from [p] to [q] changes a count by the difference. *)
Lemma zsum_move f l i p q : l !! i = Some p -> zsum f (<[i := q]> l) = zsum f l - f p + f q.
Proof.
  revert i; induction l as [|x l IH]; intros [|i] H; try done.
  - injection H as ->. change (<[O := q]> (p :: l)) with (q :: l). rewrite !zsum_cons. lia.
  - change (<[Datatypes.S i := q]> (x :: l)) with (x :: <[i := q]> l).
    rewrite !zsum_cons, (IH i) by done. lia.
Qed.

(** A count is at least what each client contributes to it. *)
Lemma zsum_at f l i p : (forall q, 0 <= f q) -> l !! i = Some p -> f p <= zsum f l.
Proof.
  intros Hf Hi. pose proof (zsum_move f l i p p Hi) as M.
  apply list_elem_of_split_length in Hi as (a & b & -> & _). rewrite zsum_app, zsum_cons.
  pose proof (zsum_nonneg f a (fun x _ => Hf x)). pose proof (zsum_nonneg f b (fun x _ => Hf x)). lia.
Qed.

Lemma zsum_positive f l : (forall q, 0 <= f q) -> 0 <= zsum f l.
Proof. intros Hf. by apply zsum_nonneg. Qed.

Lemma zsum_at_most f l : (forall q, f q <= 1) -> zsum f l <= vsize l.
Proof.
  intros Hf. induction l as [|x l IH]; [done|]. rewrite zsum_cons. specialize (Hf x).
  change (vsize (x :: l)) with (Z.of_nat (Datatypes.S (length l))). unfold vsize in *. lia.
Qed.

(** Two clients both counted make a count of two. *)
Lemma zsum_two f l i j p q :
  (forall x, 0 <= f x) -> i <> j -> l !! i = Some p -> l !! j = Some q -> f p + f q <= zsum f l.
Proof.
  intros Hf. revert i j. induction l as [|x l IH]; intros [|i] [|j] Hne Hi Hj; try done.
  - injection Hi as ->. rewrite zsum_cons. pose proof (zsum_at f l j q Hf Hj). lia.
  - injection Hj as ->. rewrite zsum_cons. pose proof (zsum_at f l i p Hf Hi). lia.
  - rewrite zsum_cons. pose proof (Hf x). specialize (IH i j ltac:(congruence) Hi Hj). lia.
Qed.

(** A property of every client survives a move that keeps it for the others. *)
Lemma Forall_move (R T : P -> Prop) l i q :
  Forall R l -> (forall x, x ∈ l -> R x -> T x) -> T q -> Forall T (<[i := q]> l).
Proof.
  intros HR HT Hq. apply Forall_insert; [|done]. apply Forall_forall. intros x Hx.
  apply HT; [done|]. by eapply Forall_forall.
Qed.

End Counting.
