(* ===== verification/IoMutex.v ===== *)
(** * IoMutex

    The directory mutex of [io.hpp]/[io.cpp].  Threads block in [lock]; reactor tasks never
    block but register as waiters, try once more, and read one token from an event
    descriptor that [unlock] posts to ([fuse.cpp], [AsyncLink::acquire_directory] and the
    other tasks that lock a directory).  The model follows every atomic operation of the
    methods and of that client protocol, for any number of clients. *)

From S2P Require Import Prelude Interleave.

(** ** The mutex *)

(** [fds] are the counters of the open event descriptors and [next_fd] the number the next
    [::eventfd] returns; [asleep] and [permits] are the threads inside [locked_.wait] and
    how many of them [notify_one] has released. *)
Record IoMutex := mkIoMutex {
  locked_ : bool;
  waiters_ : Z;
  event_ : Z;
  fds : gmap Z Z;
  next_fd : Z;
  asleep : Z;
  permits : Z;
}.

#[export] Instance IoMutex_settable : Settable IoMutex := fun m =>
  mkIoMutex (locked_ m) (waiters_ m) (event_ m) (fds m) (next_fd m) (asleep m) (permits m).

Definition try_lock (m : IoMutex) : IoMutex * bool :=
  if locked_ m then (m, false) else (m <| locked_ := true |>, true).

(** The parts of [begin_async_wait]: the new descriptor, its publication (which closes the
    candidate when another thread was first) and the registration. *)
Definition make_event (m : IoMutex) : IoMutex * Z :=
  (m <| fds := <[next_fd m := 0]> (fds m) |> <| next_fd := next_fd m + 1 |>, next_fd m).

Definition publish_event (m : IoMutex) (candidate : Z) : IoMutex * Z :=
  if event_ m =? -1 then (m <| event_ := candidate |>, candidate)
  else (m <| fds := delete candidate (fds m) |>, event_ m).

Definition add_waiter (m : IoMutex) : IoMutex := m <| waiters_ := u32 (waiters_ m + 1) |>.
Definition end_async_wait (m : IoMutex) : IoMutex := m <| waiters_ := u32 (waiters_ m - 1) |>.

(** An [EFD_SEMAPHORE] event descriptor: [write] adds to the counter, a read takes one. *)
Definition post_event (m : IoMutex) (fd n : Z) : IoMutex :=
  m <| fds := alter (fun t => t + n) fd (fds m) |>.

Definition take_event (m : IoMutex) (fd : Z) : option IoMutex :=
  match fds m !! fd with
  | Some t => if 0 <? t then Some (m <| fds := <[fd := t - 1]> (fds m) |>) else None
  | None => None
  end.

(** [locked_.wait(true)] and [locked_.notify_one()]. *)
Definition sleep (m : IoMutex) : IoMutex := m <| asleep := asleep m + 1 |>.
Definition wake (m : IoMutex) : IoMutex :=
  m <| asleep := asleep m - 1 |> <| permits := permits m - 1 |>.
Definition notify_one (m : IoMutex) : IoMutex :=
  m <| permits := Z.min (asleep m) (permits m + 1) |>.

(** ** Its clients *)

Inductive AfterWait := ThenHeld | ThenRetry | ThenFail.

Inductive Pc :=
  | Idle
  (* a reactor task *)
  | TryLock
  | LoadEvent
  | MakeEvent
  | PublishEvent (candidate : Z)
  | AddWaiter (fd : Z)
  | TryAgain (fd : Z)
  | Submit (fd : Z)
  | Parked (fd : Z)
  | EndWait (next : AfterWait)
  (* a thread in [lock] *)
  | Lock
  | Wait
  | Asleep
  (* the holder, then [unlock] *)
  | Held
  | Notify
  | LoadWaiters
  | LoadFd (waiters : Z)
  | Post (fd waiters : Z).

(** What a client at [p] does next.  A task whose wait ends retries from the start; a
    holder leaves its critical section. *)
Definition internal (m : IoMutex) (p : Pc) : list (IoMutex * Pc) :=
  match p with
  | Idle => []
  | TryLock => let '(m', ok) := try_lock m in [(m', if ok then Held else LoadEvent)]
  | LoadEvent => [(m, if event_ m <? 0 then MakeEvent else AddWaiter (event_ m))]
  | MakeEvent => let '(m', fd) := make_event m in [(m', PublishEvent fd)]
  | PublishEvent candidate => let '(m', fd) := publish_event m candidate in [(m', AddWaiter fd)]
  | AddWaiter fd => [(add_waiter m, TryAgain fd)]
  | TryAgain fd => let '(m', ok) := try_lock m in [(m', if ok then EndWait ThenHeld else Submit fd)]
  | Submit fd => [(m, Parked fd)]
  | Parked fd => match take_event m fd with Some m' => [(m', EndWait ThenRetry)] | None => [] end
  | EndWait next =>
      [(end_async_wait m, match next with ThenHeld => Held | ThenRetry => TryLock | ThenFail => Idle end)]
  | Lock => let '(m', ok) := try_lock m in [(m', if ok then Held else Wait)]
  | Wait => if locked_ m then [(sleep m, Asleep)] else [(m, Lock)]
  | Asleep => if 0 <? permits m then [(wake m, Wait)] else []
  | Held => [(m <| locked_ := false |>, Notify)]
  | Notify => [(notify_one m, LoadWaiters)]
  | LoadWaiters => [(m, if waiters_ m =? 0 then Idle else LoadFd (waiters_ m))]
  | LoadFd n => [(m, Post (event_ m) n)]
  | Post fd n => [(post_event m fd n, Idle)]
  end.

(** A new request, or a failing [::eventfd], submission or read. *)
Definition external (m : IoMutex) (p : Pc) : list (IoMutex * Pc) :=
  match p with
  | Idle => [(m, TryLock); (m, Lock)]
  | MakeEvent => [(m, Idle)]
  | Submit _ | Parked _ => [(m, EndWait ThenFail)]
  | _ => []
  end.

Definition new_mutex : IoMutex := mkIoMutex false 0 (-1) ∅ 0 0 0.

Definition start (clients : nat) : Threads IoMutex Pc :=
  mkThreads new_mutex (replicate clients Idle).

Definition reaches (clients : nat) (c : Threads IoMutex Pc) : Prop :=
  rtc (interleave internal external) (start clients) c.

(** ** Invariant *)

Definition holds (p : Pc) : Z := match p with Held | EndWait ThenHeld => 1 | _ => 0 end.
Definition registered (p : Pc) : Z :=
  match p with TryAgain _ | Submit _ | Parked _ | EndWait _ => 1 | _ => 0 end.
Definition parked (p : Pc) : Z := match p with Submit _ | Parked _ => 1 | _ => 0 end.
Definition releasing (p : Pc) : Z := match p with Notify | LoadWaiters => 1 | _ => 0 end.
Definition notifying (p : Pc) : Z := match p with Notify => 1 | _ => 0 end.
Definition posting (p : Pc) : Z := match p with LoadFd n | Post _ n => n | _ => 0 end.
Definition sleeping (p : Pc) : Z := match p with Asleep => 1 | _ => 0 end.
Definition retrying (p : Pc) : Z := match p with Lock | Wait => 1 | _ => 0 end.
Definition offering (fd : Z) (p : Pc) : Z :=
  match p with PublishEvent c => if c =? fd then 1 else 0 | _ => 0 end.

(** A client that has to do with the descriptor uses the published one. *)
Definition fd_ok (m : IoMutex) (p : Pc) : Prop :=
  match p with
  | AddWaiter fd | TryAgain fd | Submit fd | Parked fd => fd = event_ m /\ 0 <= event_ m
  | EndWait _ => 0 <= event_ m
  | Post fd n => fd = event_ m /\ 0 <= event_ m /\ 0 <= n
  | LoadFd n => 0 <= event_ m /\ 0 <= n
  | _ => True
  end.

(** The descriptors: at most one is published and stays open; those still offered for
    publication are private to their clients. *)
Record event_inv (c : Threads IoMutex Pc) : Prop := {
  ei_fd_ok : Forall (fd_ok (shared c)) (pcs c);
  ei_range : -1 <= event_ (shared c) < next_fd (shared c) /\ 0 <= next_fd (shared c);
  ei_open : 0 <= event_ (shared c) -> exists t, 0 <= t /\ fds (shared c) !! event_ (shared c) = Some t;
  ei_offers : forall fd, zsum (offering fd) (pcs c) = 0 \/
    zsum (offering fd) (pcs c) = 1 /\ fd <> event_ (shared c) /\
    0 <= fd < next_fd (shared c) /\ fds (shared c) !! fd = Some 0;
}.

Definition tokens (m : IoMutex) : Z := if event_ m <? 0 then 0 else default 0 (fds m !! event_ m).

(** The counters, and why nobody is left waiting for a free mutex. *)
Record count_inv (c : Threads IoMutex Pc) : Prop := {
  ci_clients : vsize (pcs c) < 2 ^ 32;
  ci_holds : zsum holds (pcs c) = Z.b2z (locked_ (shared c));
  ci_waiters : waiters_ (shared c) = zsum registered (pcs c);
  ci_tokens : 0 < Z.b2z (locked_ (shared c)) + zsum releasing (pcs c) \/
    zsum parked (pcs c) <= tokens (shared c) + zsum posting (pcs c);
  ci_asleep : asleep (shared c) = zsum sleeping (pcs c);
  ci_permits : 0 <= permits (shared c) <= asleep (shared c);
  ci_sleepers : asleep (shared c) = 0 \/
    0 < Z.b2z (locked_ (shared c)) + zsum notifying (pcs c) + permits (shared c) + zsum retrying (pcs c);
}.

Lemma posting_nonneg m l : Forall (fd_ok m) l -> 0 <= zsum posting l.
Proof.
  intros H. apply zsum_nonneg. intros p Hp. eapply Forall_forall in H; [|done].
  destruct p; cbn in *; lia.
Qed.

Lemma unregistered m l : Forall (fd_ok m) l -> event_ m < 0 -> zsum registered l = 0.
Proof.
  intros H He. apply zsum_zero. intros p Hp. eapply Forall_forall in H; [|done].
  destruct p; cbn in *; lia.
Qed.

Lemma tokens_nonneg c : event_inv c -> 0 <= tokens (shared c).
Proof.
  intros E. unfold tokens. case_match; [done|]; bool_case.
  destruct (ei_open _ E) as (t & Ht & ->); [lia|done].
Qed.

Lemma parked_registered l : zsum parked l <= zsum registered l.
Proof. apply zsum_le. intros [] _; cbn; lia. Qed.

Lemma mutex_start n : Z.of_nat n < 2 ^ 32 -> event_inv (start n) /\ count_inv (start n).
Proof.
  intros Hn. assert (Hz : forall f : Pc -> Z, f Idle = 0 -> zsum f (replicate n Idle) = 0).
  { intros f Hf. apply zsum_zero. intros p [-> _]%elem_of_replicate. done. }
  split; constructor; cbn; rewrite ?Hz by done; try done; try lia.
  - by apply Forall_replicate.
  - intros fd. left. by apply Hz.
  - unfold vsize. by rewrite length_replicate.
Qed.

(** A move that leaves the descriptors alone, but for the counter of the published one. *)
Lemma event_frame c m' i p q :
  event_inv c -> pcs c !! i = Some p -> event_ m' = event_ (shared c) -> next_fd m' = next_fd (shared c) ->
  (forall fd, fd <> event_ (shared c) -> fds m' !! fd = fds (shared c) !! fd) ->
  (0 <= event_ (shared c) -> exists t, 0 <= t /\ fds m' !! event_ (shared c) = Some t) ->
  (forall fd, offering fd p = 0 /\ offering fd q = 0) -> fd_ok m' q ->
  event_inv (mkThreads m' (<[i := q]> (pcs c))).
Proof.
  intros [E1 E2 E3 E4] Hp He Hn Hf Ht Ho Hq. constructor; cbn.
  - eapply Forall_move; [done| |done]. intros x _. destruct x; cbn; by rewrite ?He.
  - by rewrite He, Hn.
  - by rewrite He.
  - intros fd. rewrite (zsum_move _ _ _ _ _ Hp), He, Hn. destruct (Ho fd) as [-> ->].
    rewrite Z.sub_0_r, Z.add_0_r. destruct (E4 fd) as [|(? & ? & ? & ?)]; [by left|right].
    by rewrite Hf.
Qed.

Lemma event_make c i :
  event_inv c -> pcs c !! i = Some MakeEvent ->
  event_inv (mkThreads (fst (make_event (shared c))) (<[i := PublishEvent (next_fd (shared c))]> (pcs c))).
Proof.
  intros [E1 E2 E3 E4] Hp. destruct c as [m l]; cbn in *. constructor; cbn.
  - eapply Forall_move; [done| |done]. by intros [].
  - lia.
  - intros He. rewrite lookup_insert_ne by lia. by apply E3.
  - intros fd. rewrite (zsum_move _ _ _ _ _ Hp). cbn. destruct (Z.eqb_spec (next_fd m) fd) as [<-|Hne].
    + right. destruct (E4 (next_fd m)) as [->|(? & ? & ? & ?)]; [|lia].
      rewrite lookup_insert_eq. repeat split; lia.
    + rewrite lookup_insert_ne by done. rewrite Z.sub_0_r, Z.add_0_r.
      destruct (E4 fd) as [|(? & ? & ? & ?)]; [by left|right]. repeat split; try done; lia.
Qed.

Lemma offered c i fd :
  event_inv c -> pcs c !! i = Some (PublishEvent fd) ->
  zsum (offering fd) (pcs c) = 1 /\ fd <> event_ (shared c) /\
  0 <= fd < next_fd (shared c) /\ fds (shared c) !! fd = Some 0.
Proof.
  intros E Hp. destruct (ei_offers _ E fd) as [Hz|]; [|done].
  assert (offering fd (PublishEvent fd) <= zsum (offering fd) (pcs c)) as Ha.
  { eapply zsum_at; [|done]. intros []; cbn; repeat case_match; lia. }
  cbn in Ha. rewrite Z.eqb_refl in Ha. lia.
Qed.

Lemma event_publish c i fd m' g :
  event_inv c -> pcs c !! i = Some (PublishEvent fd) -> publish_event (shared c) fd = (m', g) ->
  event_inv (mkThreads m' (<[i := AddWaiter g]> (pcs c))).
Proof.
  intros I Hp Hpub. pose proof I as [E1 E2 E3 E4]. destruct c as [m l]; cbn in *.
  destruct (offered _ _ _ I Hp) as (Hone & Hne & Hr & Hopen); cbn in *.
  assert (Hsum : forall h q, (forall k, offering k q = 0) -> zsum (offering h) (<[i := q]> l) =
            zsum (offering h) l - if fd =? h then 1 else 0).
  { intros h q Hq. rewrite (zsum_move _ _ _ _ _ Hp), Hq. cbn. lia. }
  unfold publish_event in Hpub. case_match eqn:E; bool_case; injection Hpub as <- <-; constructor; cbn.
  - eapply Forall_move; [done| |cbn; lia]. intros [] _; cbn; lia.
  - lia.
  - intros _. by exists 0.
  - intros h. rewrite Hsum by done. destruct (Z.eqb_spec fd h) as [<-|Hg]; [left; lia|].
    rewrite Z.sub_0_r. destruct (E4 h) as [|(? & ? & ? & ?)]; [by left|right]. repeat split; try done; lia.
  - eapply Forall_move; [done| |cbn; lia]. by intros [].
  - lia.
  - intros He. rewrite lookup_delete_ne by done. by apply E3.
  - intros h. rewrite Hsum by done. destruct (Z.eqb_spec fd h) as [<-|Hg]; [left; lia|].
    rewrite lookup_delete_ne by done. rewrite Z.sub_0_r. apply E4.
Qed.

Lemma event_step i p m' p' c :
  event_inv c -> count_inv c -> pcs c !! i = Some p -> (m', p') ∈ outcomes internal external (shared c) p ->
  event_inv (mkThreads m' (<[i := p']> (pcs c))).
Proof.
  intros I C Hp Ho. pose proof I as [E1 E2 E3 E4].
  pose proof (proj1 (Forall_lookup _ _) E1 _ _ Hp) as Hf.
  assert (Hw : waiters_ (shared c) <> 0 -> 0 <= event_ (shared c) /\ 0 <= waiters_ (shared c)).
  { rewrite (ci_waiters _ C). intros Hw. split; [|apply zsum_positive; intros []; cbn; lia].
    destruct (Z.lt_ge_cases (event_ (shared c)) 0); [|done]. by rewrite (unregistered (shared c)) in Hw. }
  destruct p; cbn in Ho; unfold try_lock, take_event in Ho; repeat case_match; set_unfold in Ho;
    destruct_or? Ho; simplify_eq/=; bool_case;
    try first [ by apply event_make | by eapply event_publish ];
    eapply event_frame; try done; cbn; try lia.
  - intros fd0 Hne. rewrite lookup_insert_ne; [done|lia].
  - intros He. exists (z - 1). destruct Hf as [-> _]. rewrite lookup_insert_eq. split; [lia|done].
  - intros fd0 Hne. rewrite lookup_alter_ne; [done|lia].
  - intros He. destruct Hf as (-> & _ & Hn). destruct (E3 He) as (t & Ht & Hl).
    exists (t + waiters). rewrite lookup_alter_eq, Hl. split; [lia|done].
Qed.

Ltac counts Hp :=
  cbn [pcs shared]; rewrite ?(zsum_move _ _ _ _ _ Hp);
  cbn [holds registered parked releasing notifying posting sleeping retrying offering
       shared pcs locked_ waiters_ event_ fds next_fd asleep permits field_set].

Lemma count_step i p m' p' c :
  event_inv c -> count_inv c -> pcs c !! i = Some p -> (m', p') ∈ outcomes internal external (shared c) p ->
  count_inv (mkThreads m' (<[i := p']> (pcs c))).
Proof.
  intros E C Hp Ho. destruct c as [m l]; cbn in *.
  assert (Hr : registered p <= zsum registered l) by (eapply zsum_at; [intros []; cbn; lia|done]).
  assert (Hh : holds p <= zsum holds l)
    by (eapply zsum_at; [intros []; cbn; repeat case_match; lia|done]).
  assert (Hs : sleeping p <= zsum sleeping l) by (eapply zsum_at; [intros []; cbn; lia|done]).
  assert (Hrb : zsum registered (<[i := p']> l) <= vsize l).
  { etransitivity; [apply zsum_at_most; intros []; cbn; lia|]. unfold vsize. by rewrite length_insert. }
  rewrite (zsum_move _ _ _ _ _ Hp) in Hrb.
  pose proof (parked_registered l) as Hpr. pose proof (posting_nonneg m l (ei_fd_ok _ E)) as Hpn.
  pose proof (proj1 (Forall_lookup _ _) (ei_fd_ok _ E) _ _ Hp) as Hf.
  assert (Hrel : releasing p <= zsum releasing l) by (eapply zsum_at; [intros []; cbn; lia|done]).
  assert (Hnot : notifying p <= zsum notifying l) by (eapply zsum_at; [intros []; cbn; lia|done]).
  assert (Hret : retrying p <= zsum retrying l) by (eapply zsum_at; [intros []; cbn; lia|done]).
  pose proof (tokens_nonneg _ E) as Ht. pose proof (ei_range _ E) as [Hev Hnx]. cbn in Ht, Hev, Hnx.
  assert (Hb : 0 <= Z.b2z (locked_ m) <= 1) by (destruct (locked_ m); cbn; lia).
  destruct C as [C1 C2 C3 C4 C5 C6 C7]; cbn in *.
  assert (Hlen : vsize (<[i := p']> l) = vsize l) by (unfold vsize; by rewrite length_insert).
  destruct p; cbn in Ho; unfold try_lock, publish_event, take_event in Ho;
    repeat case_match; set_unfold in Ho; destruct_or? Ho; simplify_eq/=; bool_case;
    unfold add_waiter, end_async_wait, sleep, wake, notify_one, post_event in *;
    constructor; unfold tokens in *; counts Hp; rewrite ?Hlen; cbn [Z.b2z] in *;
    repeat match goal with H : locked_ _ = _ |- _ => rewrite H end; cbn [Z.b2z] in *;
    try rewrite u32_small by lia; try done; try lia.
  - rewrite lookup_insert_ne by lia. lia.
  - pose proof (unregistered m l (ei_fd_ok _ E) ltac:(lia)). right. destruct (z <? 0); [lia|].
    destruct (offered _ _ _ E Hp) as (_ & _ & _ & Ho). cbn in Ho. rewrite Ho. cbn. lia.
  - destruct (offered _ _ _ E Hp) as (_ & Hne & _ & _). cbn in Hne. rewrite lookup_delete_ne by done. lia.
  - destruct Hf as [-> He]. rewrite lookup_insert_eq. destruct (Z.ltb_spec (event_ m) 0); [lia|].
    match goal with H : fds m !! _ = Some _ |- _ => rewrite H in C4 end. cbn in *. lia.
  - destruct Hf as (-> & He & _). rewrite lookup_alter_eq. destruct (Z.ltb_spec (event_ m) 0); [lia|].
    destruct (ei_open _ E He) as (t & _ & Hl). cbn in Hl. rewrite Hl in *. cbn in *. lia.
Qed.

Lemma reaches_inv n c : Z.of_nat n < 2 ^ 32 -> reaches n c -> event_inv c /\ count_inv c.
Proof.
  intros Hn. apply (interleave_invariant _ _ (fun c => event_inv c /\ count_inv c)); [|by apply mutex_start].
  intros i p s' p' d [E C] Hp Ho. split; [by eapply event_step|by eapply count_step].
Qed.

(** When no client can go on, the counters are those of a mutex nobody uses. *)
Lemma stuck_idle c :
  event_inv c -> count_inv c -> can_step internal c = false -> forall p, p ∈ pcs c -> p = Idle.
Proof.
  intros E C Hs. rewrite can_step_false in Hs.
  assert (Hkind : forall p, p ∈ pcs c -> p = Idle \/ p = Asleep \/ exists fd, p = Parked fd).
  { intros p Hp. specialize (Hs p Hp). destruct p; eauto; cbn in Hs; unfold try_lock, publish_event in Hs;
      repeat case_match; done. }
  assert (Hnone : forall f : Pc -> Z, f Idle = 0 -> f Asleep = 0 -> (forall fd, f (Parked fd) = 0) -> zsum f (pcs c) = 0).
  { intros f H1 H2 H3. apply zsum_zero. intros p [->|[->|[fd ->]]]%Hkind; auto. }
  destruct C as [C1 C2 C3 C4 C5 C6 C7].
  rewrite (Hnone holds) in C2 by done. rewrite (Hnone releasing), (Hnone posting) in C4 by done.
  rewrite (Hnone notifying), (Hnone retrying) in C7 by done.
  destruct (locked_ (shared c)) eqn:Hl; cbn in C2, C4, C7; [lia|].
  intros p Hp. destruct (Hkind p Hp) as [|[->|[fd ->]]]; [done| |]; exfalso;
    specialize (Hs _ Hp); cbn in Hs; apply list_elem_of_lookup_1 in Hp as [i Hi].
  - case_match; bool_case; [done|].
    pose proof (zsum_at sleeping (pcs c) i Asleep ltac:(intros []; cbn; lia) Hi) as Ha. cbn in Ha. lia.
  - pose proof (zsum_at parked (pcs c) i (Parked fd) ltac:(intros []; cbn; lia) Hi) as Ha. cbn in Ha.
    pose proof (proj1 (Forall_lookup _ _) (ei_fd_ok _ E) _ _ Hi) as [-> He].
    destruct (ei_open _ E He) as (t & Ht & Hf). unfold take_event in Hs. rewrite Hf in Hs.
    unfold tokens in C4. rewrite Hf in C4. repeat case_match; bool_case; cbn in *; try done; lia.
Qed.

(** C26: in every interleaving of any number of clients of an [IoMutex], threads and reactor
    tasks alike, at most one holds it and none does while it is unlocked; [unlock] posts to
    the one published, still open event descriptor; and as long as some client has not
    finished its request, some client can go on: no waiter is left parked or asleep beside
    a free mutex, whatever system calls fail on the way. *)
Theorem io_mutex_correct n c :
  Z.of_nat n < 2 ^ 32 -> reaches n c ->
  (forall i j p q, pcs c !! i = Some p -> pcs c !! j = Some q -> holds p = 1 -> holds q = 1 -> i = j) /\
  (locked_ (shared c) = false -> forall p, p ∈ pcs c -> holds p = 0) /\
  (forall fd w, Post fd w ∈ pcs c -> fd = event_ (shared c) /\ is_Some (fds (shared c) !! fd)) /\
  ((exists p, p ∈ pcs c /\ p <> Idle) -> can_step internal c = true).
Proof.
  intros Hn R. destruct (reaches_inv n c Hn R) as [E C].
  assert (Hpos : forall p, 0 <= holds p) by (intros []; cbn; repeat case_match; lia).
  assert (Hone : zsum holds (pcs c) <= 1) by (rewrite (ci_holds _ C); destruct (locked_ _); cbn; lia).
  split; [|split; [|split]].
  - intros i j p q Hi Hj Hp Hq. destruct (decide (i = j)) as [|Hne]; [done|].
    pose proof (zsum_two holds (pcs c) i j p q Hpos Hne Hi Hj). lia.
  - intros Hl p [i Hi]%list_elem_of_lookup_1. pose proof (zsum_at holds _ _ _ Hpos Hi) as Ha.
    rewrite (ci_holds _ C), Hl in Ha. specialize (Hpos p). cbn in Ha. lia.
  - intros fd w Hp. pose proof (proj1 (Forall_forall _ _) (ei_fd_ok _ E) _ Hp) as (-> & He & _).
    split; [done|]. destruct (ei_open _ E He) as (t & _ & ->). done.
  - intros (p & Hp & Hne). destruct (can_step internal c) eqn:Hc; [done|].
    exfalso. by apply Hne, (stuck_idle c).
Qed.

(** Two tasks: the second parks while the first holds the mutex; the first unlocks and has
    not posted yet. *)
Definition sample_schedule : list (nat * nat) :=
  [(0, 0); (0, 0); (1, 0); (1, 0); (1, 0); (1, 0); (1, 0); (1, 0); (1, 0); (1, 0); (0, 0); (0, 0); (0, 0)]%nat.

Definition sample : Threads IoMutex Pc :=
  default (start 2) (schedule internal external sample_schedule (start 2)).

Lemma io_mutex_correct_witness :
  reaches 2 sample /\ pcs sample = [LoadFd 1; Parked 0] /\ can_step internal sample = true.
Proof.
  assert (R : reaches 2 sample).
  { apply (schedule_reaches internal external sample_schedule). vm_compute. reflexivity. }
  split; [exact R|]. split; [vm_compute; reflexivity|].
  apply (io_mutex_correct 2 sample eq_refl R). exists (Parked 0).
  split; [|discriminate]. apply list_elem_of_In. vm_compute. auto.
Defined.
