(* ===== verification/SharedMutex.v ===== *)
(** * ReactorSharedMutex

    The reader/writer lock of [fuse.cpp] that guards the identity of an open handle.  Threads
    block in [lock] and [lock_shared] on a wake generation; reactor tasks try, register, try
    again and read a token of the event descriptor ([AsyncOpen::resume],
    [AsyncReadIdentityGate::acquire], [AsyncReaderLocks::acquire]).  The model follows every
    atomic operation of the methods and of that client protocol, for any number of clients. *)

From S2P Require Import Prelude Interleave.

Definition kWriter : Z := Z.shiftl 1 31.
Definition kReaders : Z := kWriter - 1.

(** ** The lock *)

(** [tokens] is the counter of [event_].  [notified] counts the calls of [notify]; it is
    not in the source, whose 32-bit [wake_generation_] is that count modulo [2 ^ 32]. *)
Record SharedMutex := mkSharedMutex {
  state_ : Z;
  wake_generation_ : Z;
  waiting_writers_ : Z;
  reactor_waiters_ : Z;
  tokens : Z;
  notified : Z;
}.

#[export] Instance SharedMutex_settable : Settable SharedMutex := fun m =>
  mkSharedMutex (state_ m) (wake_generation_ m) (waiting_writers_ m) (reactor_waiters_ m)
    (tokens m) (notified m).

Definition try_lock (m : SharedMutex) : SharedMutex * bool :=
  if state_ m =? 0 then (m <| state_ := kWriter |>, true) else (m, false).

(** The compare-and-swap loop of [try_lock_shared]; the test of [waiting_writers_] before it
    is an operation of its own. *)
Definition try_add_reader (m : SharedMutex) : SharedMutex * bool :=
  if negb (Z.land (state_ m) kWriter =? 0) || (Z.land (state_ m) kReaders =? kReaders)
  then (m, false) else (m <| state_ := u32 (state_ m + 1) |>, true).

Definition unlock (m : SharedMutex) : SharedMutex := m <| state_ := 0 |>.

(** [unlock_shared] up to its [notify]: the new state and whether it notifies, or [None]
    when it aborts the process. *)
Definition unlock_shared (m : SharedMutex) : option (SharedMutex * bool) :=
  let previous := state_ m in
  if (Z.land previous kReaders =? 0) || negb (Z.land previous kWriter =? 0) then None
  else Some (m <| state_ := u32 (previous - 1) |>, previous =? 1).

Definition add_writer (m : SharedMutex) : SharedMutex :=
  m <| waiting_writers_ := u32 (waiting_writers_ m + 1) |>.
Definition drop_writer (m : SharedMutex) : SharedMutex :=
  m <| waiting_writers_ := u32 (waiting_writers_ m - 1) |>.
Definition add_reactor (m : SharedMutex) : SharedMutex :=
  m <| reactor_waiters_ := u32 (reactor_waiters_ m + 1) |>.
Definition drop_reactor (m : SharedMutex) : SharedMutex :=
  m <| reactor_waiters_ := u32 (reactor_waiters_ m - 1) |>.

(** [wake_generation_.fetch_add(1)] with the [notify_all] that follows it: every thread in
    [wait] compares its generation again. *)
Definition bump (m : SharedMutex) : SharedMutex :=
  m <| wake_generation_ := u32 (wake_generation_ m + 1) |> <| notified := notified m + 1 |>.

Definition post (m : SharedMutex) (n : Z) : SharedMutex := m <| tokens := tokens m + n |>.
Definition take (m : SharedMutex) : option SharedMutex :=
  if 0 <? tokens m then Some (m <| tokens := tokens m - 1 |>) else None.

(** ** Its clients *)

Inductive Next := ThenIdle | ThenWriting | ThenReading | ThenTryWrite | ThenTryRead.

(** Where [try_lock_shared] is called from. *)
Inductive Caller := FromLock (reactor : bool) (generation : Z) | FirstTry | SecondTry.

Inductive Pc :=
  | Idle
  (* [lock]; [reactor] says that the caller runs on a reactor, where it must not block *)
  | AddWriter (reactor : bool)
  | LoadGeneration (reactor : bool)
  | TryWrite (reactor : bool) (generation : Z)
  | DropWriter
  | WaitWrite (reactor : bool) (generation : Z)
  | Abandon
  (* [lock_shared] and [try_lock_shared] *)
  | LoadGenerationShared (reactor : bool)
  | TestWriters (caller : Caller)
  | AddReader (caller : Caller)
  | WaitRead (reactor : bool) (generation : Z)
  (* a reactor task; [write] says which lock it wants *)
  | AsyncTryWrite (second : bool)
  | Announce
  | AddReactor (write : bool)
  | Submit (write : bool)
  | Parked (write : bool)
  | EndWait (write : bool) (next : Next)
  | Retract (next : Next)
  (* the holders *)
  | Writing
  | Reading
  (* [notify], then [next] *)
  | Bump (next : Next)
  | LoadReactors (next : Next)
  | Post (n : Z) (next : Next).

Definition continue (next : Next) : Pc :=
  match next with
  | ThenIdle => Idle
  | ThenWriting => Writing
  | ThenReading => Reading
  | ThenTryWrite => AsyncTryWrite false
  | ThenTryRead => TestWriters FirstTry
  end.

Definition retry (write : bool) : Next := if write then ThenTryWrite else ThenTryRead.

(** [try_lock_shared] returning [true] or [false] to its caller. *)
Definition shared_result (caller : Caller) (ok : bool) : Pc :=
  match caller, ok with
  | FromLock reactor generation, false => WaitRead reactor generation
  | FirstTry, false => AddReactor false
  | SecondTry, false => Submit false
  | SecondTry, true => EndWait false ThenReading
  | _, true => Reading
  end.

Definition start (clients : nat) : Threads SharedMutex Pc :=
  mkThreads (mkSharedMutex 0 0 0 0 0 0) (replicate clients Idle).

Section Clients.
(** Whether a task that wants the write lock passes [writer = true] to [begin_async_wait]
    and [end_async_wait]; no task of [fuse.cpp] does. *)
Variable announce : bool.

Definition internal (m : SharedMutex) (p : Pc) : list (SharedMutex * Pc) :=
  match p with
  | Idle => []
  | AddWriter reactor => [(add_writer m, LoadGeneration reactor)]
  | LoadGeneration reactor => [(m, TryWrite reactor (wake_generation_ m))]
  | TryWrite reactor generation =>
      let '(m', ok) := try_lock m in [(m', if ok then DropWriter else WaitWrite reactor generation)]
  | DropWriter => [(drop_writer m, Writing)]
  | WaitWrite reactor generation =>
      if reactor then [(m, Abandon)]
      else if negb (wake_generation_ m =? generation) then [(m, LoadGeneration reactor)] else []
  | Abandon => [(drop_writer m, Bump ThenIdle)]
  | LoadGenerationShared reactor => [(m, TestWriters (FromLock reactor (wake_generation_ m)))]
  | TestWriters caller =>
      [(m, if negb (waiting_writers_ m =? 0) then shared_result caller false else AddReader caller)]
  | AddReader caller => let '(m', ok) := try_add_reader m in [(m', shared_result caller ok)]
  | WaitRead reactor generation =>
      if reactor then [(m, Idle)]
      else if negb (wake_generation_ m =? generation) then [(m, LoadGenerationShared reactor)] else []
  | AsyncTryWrite second =>
      let '(m', ok) := try_lock m in
      [(m', match ok, second with
            | true, false => Writing
            | true, true => EndWait true ThenWriting
            | false, true => Submit true
            | false, false => if announce then Announce else AddReactor true
            end)]
  | Announce => [(add_writer m, AddReactor true)]
  | AddReactor write => [(add_reactor m, if write then AsyncTryWrite true else TestWriters SecondTry)]
  | Submit write => [(m, Parked write)]
  | Parked write =>
      match take m with Some m' => [(m', EndWait write (retry write))] | None => [] end
  | EndWait write next => [(drop_reactor m, if announce && write then Retract next else continue next)]
  | Retract next => [(drop_writer m, Bump next)]
  | Writing => [(unlock m, Bump ThenIdle)]
  | Reading =>
      match unlock_shared m with
      | Some (m', notify) => [(m', if notify then Bump ThenIdle else Idle)]
      | None => []
      end
  | Bump next => [(bump m, LoadReactors next)]
  | LoadReactors next =>
      [(m, if reactor_waiters_ m =? 0 then continue next else Post (reactor_waiters_ m) next)]
  | Post n next => [(post m n, continue next)]
  end.

(** A new request, or a failing submission or read. *)
Definition external (m : SharedMutex) (p : Pc) : list (SharedMutex * Pc) :=
  match p with
  | Idle =>
      [(m, AsyncTryWrite false); (m, TestWriters FirstTry); (m, AddWriter false);
       (m, LoadGenerationShared false); (m, AddWriter true); (m, LoadGenerationShared true)]
  | Submit write | Parked write => [(m, EndWait write ThenIdle)]
  | _ => []
  end.

Definition reaches (clients : nat) (c : Threads SharedMutex Pc) : Prop :=
  rtc (interleave internal external) (start clients) c.

End Clients.

(** ** Invariant *)

Definition next_writes (next : Next) : Z := match next with ThenWriting => 1 | _ => 0 end.
Definition next_reads (next : Next) : Z := match next with ThenReading => 1 | _ => 0 end.

Definition writes (p : Pc) : Z :=
  match p with
  | DropWriter | Writing => 1
  | EndWait _ next | Retract next | Bump next | LoadReactors next | Post _ next => next_writes next
  | _ => 0
  end.

Definition reads (p : Pc) : Z :=
  match p with
  | Reading => 1
  | EndWait _ next | Retract next | Bump next | LoadReactors next | Post _ next => next_reads next
  | _ => 0
  end.

(** The clients [waiting_writers_] counts when tasks do not announce themselves. *)
Definition announced (p : Pc) : Z :=
  match p with LoadGeneration _ | TryWrite _ _ | DropWriter | WaitWrite _ _ | Abandon => 1 | _ => 0 end.
Definition registered (p : Pc) : Z :=
  match p with
  | AsyncTryWrite true | TestWriters SecondTry | AddReader SecondTry | Submit _ | Parked _ | EndWait _ _ => 1
  | _ => 0
  end.
Definition parked (p : Pc) : Z := match p with Submit _ | Parked _ => 1 | _ => 0 end.
Definition bumping (p : Pc) : Z := match p with Bump _ => 1 | _ => 0 end.
Definition releasing (p : Pc) : Z := match p with Bump _ | LoadReactors _ => 1 | _ => 0 end.
Definition posting (p : Pc) : Z := match p with Post n _ => n | _ => 0 end.

Definition plain (p : Pc) : Prop :=
  match p with
  | Announce | Retract _ => False
  | Bump next | LoadReactors next => next = ThenIdle
  | Post n next => next = ThenIdle /\ 0 <= n
  | _ => True
  end.

Record count_inv (c : Threads SharedMutex Pc) : Prop := {
  ci_clients : vsize (pcs c) < kReaders;
  ci_plain : Forall plain (pcs c);
  ci_state : state_ (shared c) = kWriter * zsum writes (pcs c) + zsum reads (pcs c);
  ci_exclusive : zsum writes (pcs c) = 0 \/ zsum writes (pcs c) = 1 /\ zsum reads (pcs c) = 0;
  ci_writers : waiting_writers_ (shared c) = zsum announced (pcs c);
  ci_reactors : reactor_waiters_ (shared c) = zsum registered (pcs c);
  ci_generation : wake_generation_ (shared c) = u32 (notified (shared c)) /\ 0 <= notified (shared c);
  ci_tokens : 0 <= tokens (shared c) /\
    (0 < state_ (shared c) + waiting_writers_ (shared c) + zsum releasing (pcs c) \/
     zsum parked (pcs c) <= tokens (shared c) + zsum posting (pcs c));
}.

(** A blocked thread that has not missed a notification has a reason to be blocked. *)
Definition wait_ok (m : SharedMutex) (bumps : Z) (p : Pc) : Prop :=
  match p with
  | TryWrite _ g | TestWriters (FromLock _ g) | AddReader (FromLock _ g) => g <= notified m
  | WaitWrite _ g => g < notified m \/ g = notified m /\ 0 < state_ m + bumps
  | WaitRead _ g =>
      g < notified m \/ g = notified m /\ (kWriter <= state_ m \/ 0 < waiting_writers_ m + bumps)
  | _ => True
  end.

Definition wait_inv (c : Threads SharedMutex Pc) : Prop :=
  notified (shared c) < 2 ^ 32 -> Forall (wait_ok (shared c) (zsum bumping (pcs c))) (pcs c).

Lemma writer_value : kWriter = 2147483648.
Proof. done. Qed.

Lemma reader_bits n : 0 <= n < kWriter -> Z.land n kWriter = 0 /\ Z.land n kReaders = n.
Proof.
  intros Hn. split.
  - apply Z.bits_inj'. intros k Hk. rewrite Z.land_spec, Z.testbit_0_l. unfold kWriter. rewrite Z.shiftl_1_l.
    destruct (Z.eq_dec k 31) as [->|].
    + by rewrite (testbit_high n 31).
    + rewrite Z.pow2_bits_false by done. apply andb_false_r.
  - change kReaders with (Z.ones 31). rewrite Z.land_ones by done. by apply Z.mod_small.
Qed.

Lemma try_add_reader_spec m w r :
  state_ m = kWriter * w + r -> (w = 0 \/ w = 1 /\ r = 0) -> 0 <= r < kReaders ->
  try_add_reader m = if w =? 0 then (m <| state_ := r + 1 |>, true) else (m, false).
Proof.
  intros Hs Hw Hr. unfold try_add_reader. rewrite Hs. destruct Hw as [->|[-> ->]].
  - rewrite Z.mul_0_r, Z.add_0_l. pose proof writer_value. unfold kReaders in Hr.
    destruct (reader_bits r) as [-> ->]; [lia|]. destruct (Z.eqb_spec r kReaders); [unfold kReaders in *; lia|].
    cbn. by rewrite u32_small by lia.
  - done.
Qed.

Lemma unlock_shared_spec m r :
  state_ m = r -> 0 < r < kWriter -> unlock_shared m = Some (m <| state_ := r - 1 |>, r =? 1).
Proof.
  intros Hs Hr. unfold unlock_shared. rewrite Hs. destruct (reader_bits r) as [-> ->]; [lia|].
  pose proof writer_value. destruct (Z.eqb_spec r 0); [lia|]. cbn. by rewrite u32_small by lia.
Qed.

Lemma count_start n :
  Z.of_nat n < kReaders ->
  count_inv (start n) /\ wait_inv (start n).
Proof.
  intros Hn. assert (Hz : forall f : Pc -> Z, f Idle = 0 -> zsum f (replicate n Idle) = 0).
  { intros f Hf. apply zsum_zero. intros p [-> _]%elem_of_replicate. done. }
  split; [constructor|intros _]; cbn; rewrite ?Hz by done; try done; try lia.
  - unfold vsize. by rewrite length_replicate.
  - by apply Forall_replicate.
  - by apply Forall_replicate.
Qed.

Ltac counts Hp :=
  cbn [pcs shared]; rewrite ?(zsum_move _ _ _ _ _ Hp);
  cbn [writes reads announced registered parked bumping releasing posting next_writes next_reads
       continue retry shared_result state_ wake_generation_ waiting_writers_ reactor_waiters_ tokens notified field_set].

Ltac each_pc := intros []; cbn; unfold next_writes, next_reads; repeat case_match; lia.

(** What the counts say about a client at [p]. *)
Lemma count_at i p c :
  count_inv c -> pcs c !! i = Some p ->
  writes p <= zsum writes (pcs c) /\ reads p <= zsum reads (pcs c) /\
  announced p <= zsum announced (pcs c) /\ registered p <= zsum registered (pcs c) /\
  releasing p <= zsum releasing (pcs c) /\ bumping p <= zsum bumping (pcs c) /\
  parked p <= zsum parked (pcs c) /\ plain p.
Proof.
  intros C Hp. repeat split; try (eapply zsum_at; [each_pc|done]).
  apply (proj1 (Forall_lookup _ _) (ci_plain _ C) _ _ Hp).
Qed.

Lemma count_bounds l :
  zsum reads l <= vsize l /\ zsum announced l <= vsize l /\ zsum registered l <= vsize l /\
  zsum parked l <= zsum registered l.
Proof.
  repeat split; try (apply zsum_at_most; each_pc).
  apply zsum_le. intros [] _; cbn; repeat case_match; lia.
Qed.

Lemma shared_posting_nonneg l : Forall plain l -> 0 <= zsum posting l.
Proof.
  intros H. apply zsum_nonneg. intros p Hp. eapply Forall_forall in H; [|done]. destruct p; cbn in *; lia.
Qed.

Lemma shared_count_step i p m' p' c :
  count_inv c -> pcs c !! i = Some p -> (m', p') ∈ outcomes (internal false) external (shared c) p ->
  count_inv (mkThreads m' (<[i := p']> (pcs c))).
Proof.
  intros C Hp Ho. destruct (count_at _ _ _ C Hp) as (A1 & A2 & A3 & A4 & A5 & A6 & A7 & A8).
  destruct (count_bounds (pcs c)) as (B1 & B2 & B3 & B4).
  destruct (count_bounds (<[i := p']> (pcs c))) as (D1 & D2 & D3 & _).
  pose proof (shared_posting_nonneg _ (ci_plain _ C)) as Hpn.
  destruct C as [C1 C2 C3 C4 C5 C6 C7 C8]. destruct c as [m l]; cbn in *.
  assert (Hlen : vsize (<[i := p']> l) = vsize l) by (unfold vsize; by rewrite length_insert).
  rewrite Hlen in D1, D2, D3.
  rewrite (zsum_move _ _ _ _ _ Hp) in D1. rewrite (zsum_move _ _ _ _ _ Hp) in D2. rewrite (zsum_move _ _ _ _ _ Hp) in D3.
  assert (Hplain : plain p' -> Forall plain (<[i := p']> l)) by (intros; by apply Forall_insert).
  pose proof writer_value as Hk. assert (Hr : 0 <= zsum reads l) by (apply zsum_positive; each_pc).
  assert (Hw : 0 <= zsum writes l) by (apply zsum_positive; each_pc).
  unfold kReaders in C1. unfold outcomes in Ho.
  destruct p; try destruct write; try destruct next; cbn in Ho; rewrite ?(try_add_reader_spec _ _ _ C3 C4) in Ho by (unfold kReaders; lia);
    cbn in *; try (rewrite (unlock_shared_spec m _ C3) in Ho by lia);
    unfold try_lock, take, post, bump, drop_writer, add_writer, add_reactor, drop_reactor, unlock in Ho;
    repeat case_match; set_unfold in Ho; destruct_or? Ho; simplify_eq/=; bool_case;
    constructor; counts Hp; rewrite ?Hlen; cbn [plain] in *; try rewrite u32_small by lia;
    try (by apply Hplain); try (apply Hplain; split; [done|lia]); try done; try lia.
  all: try (destruct A8; congruence).
  destruct C7 as [-> ?]. split; [apply Zplus_mod_idemp_l|lia].
Qed.


Ltac outcome Ho :=
  cbn in Ho; unfold try_lock, take, post, bump, drop_writer, add_writer, add_reactor, drop_reactor, unlock in Ho;
  repeat case_match; set_unfold in Ho; destruct_or? Ho; simplify_eq/=; bool_case.

(** A step is a notification, or leaves every reason to be blocked in place. *)
Lemma blocked_step i p m' p' c :
  count_inv c -> pcs c !! i = Some p -> (m', p') ∈ outcomes (internal false) external (shared c) p ->
  let bumps := zsum bumping (pcs c) in let bumps' := zsum bumping (<[i := p']> (pcs c)) in
  notified m' = notified (shared c) + 1 \/
  notified m' = notified (shared c) /\
  (0 < state_ (shared c) + bumps -> 0 < state_ m' + bumps') /\
  (kWriter <= state_ (shared c) \/ 0 < waiting_writers_ (shared c) + bumps ->
   kWriter <= state_ m' \/ 0 < waiting_writers_ m' + bumps').
Proof.
  intros C Hp Ho. cbn zeta. destruct (count_at _ _ _ C Hp) as (A1 & A2 & A3 & A4 & A5 & A6 & A7 & A8).
  destruct (count_bounds (pcs c)) as (B1 & B2 & B3 & B4). rewrite (zsum_move _ _ _ _ _ Hp).
  destruct (count_bounds (<[i := p']> (pcs c))) as (_ & D2 & _ & _).
  rewrite (zsum_move _ _ _ _ _ Hp) in D2. unfold vsize in D2. rewrite length_insert in D2. fold (vsize (pcs c)) in D2.
  destruct C as [C1 C2 C3 C4 C5 C6 C7 C8]. destruct c as [m l]; cbn in *.
  pose proof writer_value as Hk. assert (Hr : 0 <= zsum reads l) by (apply zsum_positive; each_pc).
  unfold kReaders in C1. unfold outcomes in Ho.
  destruct p; try destruct write; try destruct next; cbn in Ho;
    rewrite ?(try_add_reader_spec _ _ _ C3 C4) in Ho by (unfold kReaders; lia);
    cbn in *; try (rewrite (unlock_shared_spec m _ C3) in Ho by lia); outcome Ho; counts Hp; cbn [plain] in *;
    try rewrite u32_small by lia; try lia.
Qed.

(** The client that moves is blocked for a reason as well. *)
Lemma blocked_mover i p m' p' c :
  count_inv c -> pcs c !! i = Some p -> (m', p') ∈ outcomes (internal false) external (shared c) p ->
  notified m' < 2 ^ 32 -> wait_ok (shared c) (zsum bumping (pcs c)) p ->
  wait_ok m' (zsum bumping (<[i := p']> (pcs c))) p'.
Proof.
  intros C Hp Ho Hn. destruct (count_at _ _ _ C Hp) as (A1 & A2 & A3 & A4 & A5 & A6 & A7 & A8).
  destruct (count_bounds (pcs c)) as (B1 & B2 & B3 & B4). rewrite (zsum_move _ _ _ _ _ Hp).
  destruct C as [C1 C2 C3 C4 C5 C6 [C7 C7'] C8]. destruct c as [m l]; cbn in *.
  pose proof writer_value as Hk. assert (Hr : 0 <= zsum reads l) by (apply zsum_positive; each_pc).
  unfold kReaders in C1. unfold outcomes in Ho.
  assert (Hg : notified m < 2 ^ 32 -> wake_generation_ m = notified m) by (intros; rewrite u32_small in *; lia).
  destruct p; try destruct write; try destruct next; cbn in Ho;
    rewrite ?(try_add_reader_spec _ _ _ C3 C4) in Ho by (unfold kReaders; lia);
    cbn in *; try (rewrite (unlock_shared_spec m _ C3) in Ho by lia); outcome Ho; counts Hp; cbn [plain wait_ok] in *;
    intros Hwait; try done; try lia.
Qed.

Lemma wait_step i p m' p' c :
  count_inv c -> wait_inv c -> pcs c !! i = Some p ->
  (m', p') ∈ outcomes (internal false) external (shared c) p ->
  wait_inv (mkThreads m' (<[i := p']> (pcs c))).
Proof.
  intros C W Hp Ho Hn; cbn in *.
  destruct (blocked_step _ _ _ _ _ C Hp Ho) as [Hb|(Hb & Hs & Hw)].
  - specialize (W ltac:(lia)). eapply Forall_move; [exact W| |].
    + intros x _ Hx. destruct x; try destruct caller; cbn in *; lia.
    + eapply blocked_mover; try done. by apply (proj1 (Forall_lookup _ _) W i).
  - specialize (W ltac:(lia)). eapply Forall_move; [exact W| |].
    + intros x _ Hx. destruct x; try destruct caller; cbn in *; rewrite ?Hb; tauto || lia.
    + eapply blocked_mover; try done. by apply (proj1 (Forall_lookup _ _) W i).
Qed.

Lemma shared_reaches_inv n c : Z.of_nat n < kReaders -> reaches false n c -> count_inv c /\ wait_inv c.
Proof.
  intros Hn. apply (interleave_invariant _ _ (fun c => count_inv c /\ wait_inv c)); [|by apply count_start].
  intros i p s' p' d [C W] Hp Ho. split; [by eapply shared_count_step|by eapply wait_step].
Qed.

(** A client that cannot go on waits for a notification. *)
Lemma stuck_kind c p :
  count_inv c -> p ∈ pcs c -> internal false (shared c) p = [] ->
  p = Idle \/ (exists g, (p = WaitWrite false g \/ p = WaitRead false g) /\ wake_generation_ (shared c) = g) \/
  exists w, p = Parked w /\ tokens (shared c) <= 0.
Proof.
  intros C [i Hp]%list_elem_of_lookup_1 Hs. destruct p; cbn in Hs; unfold try_lock in Hs; auto;
    repeat case_match; simplify_eq; bool_case; eauto 8.
  - unfold take in *. case_match; [done|]. bool_case. eauto 8.
  - exfalso. destruct (count_at _ _ _ C Hp) as (A1 & A2 & _). cbn in *.
    destruct (count_bounds (pcs c)) as (B1 & _). pose proof (ci_clients _ C). unfold kReaders in *.
    pose proof (ci_exclusive _ C). pose proof (ci_state _ C).
    match goal with H : unlock_shared _ = None |- _ => rewrite (unlock_shared_spec _ (zsum reads (pcs c))) in H by lia end. done.
Qed.

Lemma shared_stuck_idle c :
  count_inv c -> wait_inv c -> notified (shared c) < 2 ^ 32 -> can_step (internal false) c = false ->
  forall p, p ∈ pcs c -> p = Idle.
Proof.
  intros C W Hn Hs. specialize (W Hn). rewrite can_step_false in Hs.
  assert (Hkind := fun p Hp => stuck_kind c p C Hp (Hs p Hp)).
  assert (Hnone : forall f : Pc -> Z, f Idle = 0 -> (forall g, f (WaitWrite false g) = 0 /\ f (WaitRead false g) = 0) ->
            (forall w, f (Parked w) = 0) -> zsum f (pcs c) = 0).
  { intros f H1 H2 H3. apply zsum_zero. intros p [->|[(g & [->| ->] & _)|(w & -> & _)]]%Hkind; try apply H2; auto. }
  destruct C as [C1 C2 C3 C4 C5 C6 [C7 C7'] C8].
  rewrite (Hnone writes), (Hnone reads) in C3 by done. rewrite (Hnone releasing), (Hnone posting) in C8 by done.
  rewrite (Hnone bumping) in W by done. rewrite u32_small in C7 by lia.
  assert (Hww : forall g, WaitWrite false g ∈ pcs c -> wake_generation_ (shared c) = g -> False).
  { intros g Hp Hg. pose proof (proj1 (Forall_forall _ _) W _ Hp) as Hok. cbn in Hok. lia. }
  assert (Hw0 : zsum announced (pcs c) = 0).
  { apply zsum_zero. intros p Hp. destruct (Hkind p Hp) as [->|[(g & [->| ->] & Hg)|(w & -> & _)]]; try done.
    by destruct (Hww g). }
  intros p Hp. destruct (Hkind p Hp) as [|[(g & [->| ->] & Hg)|(w & -> & Ht)]]; [done| | |]; exfalso.
  - by destruct (Hww g).
  - pose proof (proj1 (Forall_forall _ _) W _ Hp) as Hok. cbn in Hok. pose proof writer_value. lia.
  - apply list_elem_of_lookup_1 in Hp as [i Hi].
    pose proof (zsum_at parked (pcs c) i (Parked w) ltac:(each_pc) Hi) as Ha. cbn in Ha. lia.
Qed.

(** C27: in every interleaving of the clients of a [ReactorSharedMutex], a writer excludes
    every other holder; [unlock_shared] never aborts; and as long as some client has not
    finished its request, some client can go on: no thread sleeps and no task stays parked
    beside a lock that everybody has left.  Fewer than [2 ^ 31 - 1] clients and [2 ^ 32]
    notifications keep the two 32-bit counters from wrapping. *)
Theorem shared_mutex_correct n c :
  Z.of_nat n < kReaders -> reaches false n c ->
  (forall i j p q, i <> j -> pcs c !! i = Some p -> pcs c !! j = Some q -> writes p = 1 ->
     writes q = 0 /\ reads q = 0) /\
  (Reading ∈ pcs c -> is_Some (unlock_shared (shared c))) /\
  (notified (shared c) < 2 ^ 32 -> (exists p, p ∈ pcs c /\ p <> Idle) -> can_step (internal false) c = true).
Proof.
  intros Hn R. destruct (shared_reaches_inv n c Hn R) as [C W].
  assert (Hpos : forall p, 0 <= writes p) by each_pc. assert (Hpos' : forall p, 0 <= reads p) by each_pc.
  split; [|split].
  - intros i j p q Hne Hi Hj Hp. pose proof (zsum_two writes _ i j p q Hpos Hne Hi Hj).
    pose proof (zsum_at reads _ j q Hpos' Hj). pose proof (zsum_at writes _ i p Hpos Hi).
    pose proof (ci_exclusive _ C). specialize (Hpos q). specialize (Hpos' q). lia.
  - intros [i Hi]%list_elem_of_lookup_1. destruct (unlock_shared (shared c)) eqn:E; [done|].
    destruct (stuck_kind c Reading C) as [|[(g & [|] & _)|(w & ? & _)]]; try done.
    + by eapply list_elem_of_lookup_2.
    + cbn. by rewrite E.
  - intros Hgen (p & Hp & Hne). destruct (can_step (internal false) c) eqn:Hc; [done|].
    exfalso. by apply Hne, (shared_stuck_idle c).
Qed.

(** A writer holds the lock, a task that wants to write is parked and a thread that wants to
    read sleeps; the writer has begun to unlock. *)
Definition sample_schedule : list (nat * nat) :=
  [(0, 0); (0, 0); (1, 0); (1, 0); (1, 0); (1, 0); (1, 0); (2, 3); (2, 0); (2, 0); (2, 0); (0, 0); (0, 0)]%nat.

Definition sample : Threads SharedMutex Pc :=
  default (start 3) (schedule (internal false) external sample_schedule (start 3)).

Lemma shared_mutex_correct_witness :
  reaches false 3 sample /\ pcs sample = [LoadReactors ThenIdle; Parked true; WaitRead false 0] /\
  can_step (internal false) sample = true.
Proof.
  assert (R : reaches false 3 sample).
  { apply (schedule_reaches (internal false) external sample_schedule). vm_compute. reflexivity. }
  split; [exact R|]. split; [vm_compute; reflexivity|].
  apply (shared_mutex_correct 3 sample eq_refl R); [vm_compute; reflexivity|]. exists (Parked true).
  split; [|discriminate]. apply list_elem_of_In. vm_compute. auto.
Defined.

(** If tasks announced themselves with [begin_async_wait(true)], a reader that cannot pass
    the announced writer would take the tokens of both: writer and reader stay parked beside
    a free lock.  The option exists but no task uses it. *)
Definition announced_schedule : list (nat * nat) :=
  [(0, 0); (0, 0); (1, 0); (1, 0); (1, 0); (1, 0); (1, 0); (1, 0);
   (2, 1); (2, 0); (2, 0); (2, 0); (2, 0); (0, 0); (0, 0); (0, 0); (0, 0);
   (2, 0); (2, 0); (2, 0); (2, 0); (2, 0); (2, 0); (2, 0); (2, 0); (2, 0); (2, 0); (2, 0); (2, 0)]%nat.

Lemma announced_writer_stranded :
  exists c, reaches true 3 c /\ pcs c = [Idle; Parked true; Parked false] /\
    state_ (shared c) = 0 /\ can_step (internal true) c = false.
Proof.
  exists (default (start 3) (schedule (internal true) external announced_schedule (start 3))).
  split; [|by vm_compute].
  apply (schedule_reaches (internal true) external announced_schedule). by vm_compute.
Qed.
