(* ===== verification/IoLoops.v ===== *)
(** * Exact transfers

    The loops of [io.cpp] and [http.cpp] that repeat a system call until a given number of
    bytes has been moved: [recv], [send], [read], [write], [splice], [sendfile], [pwrite].
    A call moves some of the remaining bytes, moves none or fails; the [script] lists what the
    calls give, one after the other, and a script that ends leaves the caller in its call.
    What a call does to the bytes is the business of a [Device]: a stream, a file read at an
    offset, a file written at an offset. *)

From S2P Require Import Prelude StdText.

(** ** Devices *)

(** [room s] bytes can be moved in state [s]; [after s n] is the state when [n] have been. *)
Class Device (S : Type) := { room : S -> Z; after : S -> Z -> S }.

Class DeviceLaws (S : Type) `{Device S} := {
  valid : S -> Prop;
  room_nonneg s : valid s -> 0 <= room s;
  after_zero s : valid s -> after s 0 = s;
  after_valid s n : valid s -> 0 <= n <= room s -> valid (after s n);
  room_after s n : valid s -> 0 <= n <= room s -> room (after s n) = room s - n;
  after_after s a b : valid s -> 0 <= a -> 0 <= b -> a + b <= room s -> after (after s a) b = after s (a + b) }.

(** From a pipe, a socket or a buffer to another: the front of [src] goes to the end of [dst]. *)
Record Stream := mkStream { src : bytes; dst : bytes }.

#[export] Instance stream_device : Device Stream := {
  room s := vsize (src s);
  after s n := mkStream (drop_z n (src s)) (dst s ++ take_z n (src s)) }.

(** The largest [off_t]; the kernel moves no byte at or beyond it. *)
Definition max_offset : Z := 2 ^ 63 - 1.

(** From a file, at an offset the call advances. *)
Record FileSource := mkSource { source_file : bytes; source_offset : Z; out : bytes }.

#[export] Instance source_device : Device FileSource := {
  room s := Z.max 0 (vsize (source_file s) - source_offset s);
  after s n := mkSource (source_file s) (u64 (source_offset s + n))
                 (out s ++ take_z n (drop_z (source_offset s) (source_file s))) }.

(** Writing [data] at [offset] of a file; a gap reads as zero bytes. *)
Definition pwrite_at (file : bytes) (offset : Z) (data : bytes) : bytes :=
  match data with
  | [] => file
  | _ => take_z offset file ++ replicate (Z.to_nat (offset - vsize file)) zero
         ++ data ++ drop_z (offset + vsize data) file
  end.

(** Into a file, at an offset the caller advances. *)
Record FileSink := mkSink { pending : bytes; file : bytes; offset : Z }.

#[export] Instance sink_device : Device FileSink := {
  room s := Z.min (vsize (pending s)) (max_offset - offset s);
  after s n := mkSink (drop_z n (pending s)) (pwrite_at (file s) (offset s) (take_z n (pending s)))
                 (u64 (offset s + n)) }.

(** ** The loop *)

(** What a system call gives: a count, or -1 with [errno]. *)
Inductive Sys := Moved (count : Z) | Failed (errno : Z).

(** Why a loop stopped; a call that moves nothing leaves [errno] as it was. *)
Inductive Stop := Complete | Nothing (errno : Z) | Error (errno : Z) | Blocked.

Section Loop.
Context {S : Type} `{Device S}.

Definition moved (s : S) (count wanted : Z) : Z := Z.min (Z.min count wanted) (room s).

Fixpoint transfer (script : list Sys) (errno : Z) (s : S) (length done : Z) : S * Z * Stop * list Sys :=
  if done =? length then (s, done, Complete, script)
  else
    match script with
    | [] => (s, done, Blocked, [])
    | Failed e :: script => if e =? EINTR then transfer script e s length done else (s, done, Error e, script)
    | Moved count :: script =>
        let n := moved s count (length - done) in
        if 0 <? n then transfer script errno (after s n) length (done + n)
        else (s, done, Nothing errno, script)
    end.

End Loop.

(** ** The functions *)

Section Calls.
(** [current_io_executor != nullptr]: the thread is the reactor's. *)
Variable on_reactor : bool.

(** [io_read], [io_splice] and [io_pwrite] fail on the reactor without a system call. *)
Definition io_call (script : list Sys) : list Sys := if on_reactor then [Failed EDEADLK] else script.

(** A function that returns -1 with [errno] gives [Throw]; [None] is a call that has not
    returned. *)
Definition io_receive_exact (script : list Sys) (s : Stream) (length : Z) : Stream * option (result Z) :=
  if on_reactor then (s, Some (Throw (SystemError EDEADLK)))
  else
    let '(s, done, stop, _) := transfer script 0 s length 0 in
    (s, match stop with
        | Complete | Nothing _ => Some (Ok done)
        | Error e => Some (Throw (SystemError e))
        | Blocked => None
        end).

Definition io_send_exact (script : list Sys) (s : Stream) (length : Z) : Stream * option (result Z) :=
  if on_reactor then (s, Some (Throw (SystemError EDEADLK)))
  else
    let '(s, done, stop, _) := transfer script 0 s length 0 in
    (s, match stop with
        | Complete => Some (Ok done)
        | Nothing _ => Some (Throw (SystemError EIO))
        | Error e => Some (Throw (SystemError e))
        | Blocked => None
        end).

(** Without offsets; [calls] counts the system calls. *)
Definition io_splice_exact (script : list Sys) (s : Stream) (length calls : Z) : Stream * Z * option (result Z) :=
  if on_reactor then (s, calls, Some (Throw (SystemError EDEADLK)))
  else
    let '(s, done, stop, rest) := transfer script 0 s length 0 in
    (s, calls + (vsize script - vsize rest),
     match stop with
     | Complete | Nothing _ => Some (Ok done)
     | Error e => Some (Throw (SystemError e))
     | Blocked => None
     end).

(** [processed] is what the processor returns, [None] for a null processor. *)
Definition io_receive_exact_then (script : list Sys) (s : Stream) (length : Z) (processed : option Z) :
    Stream * option (result Z) :=
  match processed with
  | None => (s, Some (Throw (SystemError EINVAL)))
  | Some processed =>
      if on_reactor then (s, Some (Throw (SystemError EDEADLK)))
      else
        match io_receive_exact script s length with
        | (s, Some (Ok received)) =>
            if negb (received =? length) then (s, Some (Ok received))
            else if 0 <? processed then (s, Some (Ok received))
            else (s, Some (Throw (SystemError (if processed <? 0 then - processed else EIO))))
        | r => r
        end
  end.

(** The script also says what the processor returns for each piece. *)
Fixpoint receive_until (script : list (Sys * Z)) (s : Stream) (length total : Z) : Stream * option (result Z) :=
  match script with
  | [] => (s, None)
  | (Failed e, _) :: script =>
      if e =? EINTR then receive_until script s length total else (s, Some (Throw (SystemError e)))
  | (Moved count, processed) :: script =>
      let n := moved s count length in
      if 0 <? n then
        if 0 <? processed then (after s n, Some (Ok (total + n)))
        else if processed <? 0 then (after s n, Some (Throw (SystemError (- processed))))
        else receive_until script (after s n) length (total + n)
      else (s, Some (Ok total))
  end.

Definition io_receive_until (script : list (Sys * Z)) (s : Stream) (length : Z) (has_processor : bool) :
    Stream * option (result Z) :=
  if negb has_processor || (length =? 0) then (s, Some (Throw (SystemError EINVAL)))
  else if on_reactor then (s, Some (Throw (SystemError EDEADLK)))
  else receive_until script s length 0.

Definition splice_exact (script : list Sys) (s : Stream) (length calls : Z) : Stream * Z * option (result Z) :=
  match io_splice_exact script s length calls with
  | (s, calls, Some (Ok n)) =>
      (s, calls, if negb (n =? length) then Some (Throw (SystemError ECONNRESET)) else Some (Ok length))
  | r => r
  end.

Definition send_all (script : list Sys) (s : Stream) (length : Z) : Stream * option (result unit) :=
  match io_send_exact script s length with
  | (s, Some (Ok n)) => (s, if negb (n =? length) then Some (Throw (SystemError EIO)) else Some (Ok tt))
  | (s, Some (Throw e)) => (s, Some (Throw e))
  | (s, None) => (s, None)
  end.

Definition receive_all (script : list Sys) (s : Stream) (length : Z) : Stream * option (result unit) :=
  match io_receive_exact script s length with
  | (s, Some (Ok n)) => (s, if negb (n =? length) then Some (Throw (SystemError ECONNRESET)) else Some (Ok tt))
  | (s, Some (Throw e)) => (s, Some (Throw e))
  | (s, None) => (s, None)
  end.

(** How the loops that throw end: [nothing] is the error of a call that moves nothing. *)
Definition finish (nothing : Z -> Z) (done : Z) (stop : Stop) : option (result Z) :=
  match stop with
  | Complete => Some (Ok done)
  | Nothing errno => Some (Throw (SystemError (nothing errno)))
  | Error e => Some (Throw (SystemError e))
  | Blocked => None
  end.

Definition splice_from_fd_exact (script : list Sys) (s : FileSource) (length : Z) : FileSource * option (result Z) :=
  let '(s, done, stop, _) := transfer (io_call script) 0 s length 0 in
  (s, finish (fun _ => ECONNRESET) done stop).

Definition splice_to_fd_exact (script : list Sys) (s : FileSink) (length : Z) : FileSink * option (result Z) :=
  let '(s, done, stop, _) := transfer (io_call script) 0 s length 0 in
  (s, finish (fun _ => ECONNRESET) done stop).

(** [sendfile], [write] and [read] are called directly. *)
Definition sendfile_exact (script : list Sys) (s : FileSource) (length : Z) : FileSource * option (result Z) :=
  let '(s, done, stop, _) := transfer script 0 s length 0 in
  (s, finish (fun _ => EIO) done stop).

(** [errno] is the thread's when [write_all] is called. *)
Definition write_all (script : list Sys) (errno : Z) (s : Stream) (length : Z) : Stream * option (result Z) :=
  let '(s, done, stop, _) := transfer script errno s length 0 in
  (s, finish (fun errno => errno) done stop).

Definition read_all (script : list Sys) (s : Stream) (length : Z) : Stream * option (result Z) :=
  let '(s, done, stop, _) := transfer script 0 s length 0 in
  (s, finish (fun _ => ECONNRESET) done stop).

(** One [splice] that may find nothing to move yet, from a pipe or from a file. *)
Fixpoint splice_some_loop {S} `{Device S} (script : list Sys) (s : S) (length : Z) : S * option (result Z) :=
  match script with
  | [] => (s, None)
  | Moved count :: _ =>
      let n := moved s count length in
      if 0 <? n then (after s n, Some (Ok n)) else (s, Some (Throw (SystemError ECONNRESET)))
  | Failed e :: script =>
      if e =? EINTR then splice_some_loop script s length
      else if e =? EAGAIN then (s, Some (Ok 0))
      else (s, Some (Throw (SystemError e)))
  end.

Definition splice_some {S} `{Device S} (script : list Sys) (s : S) (length : Z) : S * option (result Z) :=
  splice_some_loop (io_call script) s length.

(** [tee] copies the front of the pipe and leaves it there. *)
Fixpoint tee_exact (script : list Sys) (s : Stream) (length : Z) : Stream * option (result Z) :=
  match script with
  | [] => (s, None)
  | Moved count :: _ =>
      let n := moved s count length in
      let s := mkStream (src s) (dst s ++ take_z n (src s)) in
      (s, if n =? length then Some (Ok length)
          else if 0 <? n then Some (Throw (SystemError EIO))
          else Some (Throw (SystemError ECONNRESET)))
  | Failed e :: script =>
      if e =? EINTR then tee_exact script s length else (s, Some (Throw (SystemError e)))
  end.

(** ** Into the cache file *)

(** Also gives the calls that are left. *)
Definition write_range_file (script : list Sys) (s : FileSink) : FileSink * option (result Z) * list Sys :=
  let '(s, done, stop, rest) := transfer (io_call script) 0 s (vsize (pending s)) 0 in
  (s, finish (fun _ => EIO) done stop, rest).

Definition unsupported_file_splice (e : Z) : bool :=
  (e =? EINVAL) || (e =? EOPNOTSUPP) || (e =? EXDEV) || (e =? EPERM) || (e =? ENOSYS).

(** [do ... while (result < 0 && errno == EINTR)]. *)
Fixpoint retry (script : list Sys) : option (Sys * list Sys) :=
  match script with
  | [] => None
  | Failed e :: script => if e =? EINTR then retry script else Some (Failed e, script)
  | Moved n :: script => Some (Moved n, script)
  end.

(** The sink, whose [pending] bytes are those in the pipe, with the variables the function
    updates. *)
Record PipeToFile := mkPipe {
  sink : FileSink; splice_supported : bool; externally_spliced_bytes : Z; fallback_copied_bytes : Z }.

Definition copy_chunk : Z := 65536.

(** The read and write half of one turn; gives what it moved. *)
Definition copy_piece (script : list Sys) (p : PipeToFile) (left_over : Z) :
    PipeToFile * option (result Z) * list Sys :=
  match retry (io_call script) with
  | None => (p, None, [])
  | Some (Failed e, rest) => (p, Some (Throw (SystemError e)), rest)
  | Some (Moved count, rest) =>
      let k := sink p in
      let n := Z.min (Z.min count (Z.min copy_chunk left_over)) (vsize (pending k)) in
      if 0 <? n then
        let '(w, r, rest) := write_range_file rest (mkSink (take_z n (pending k)) (file k) (offset k)) in
        let k := mkSink (drop_z n (pending k)) (file w) (offset w) in
        match r with
        | Some (Ok _) =>
            (mkPipe k (splice_supported p) (externally_spliced_bytes p) (u64 (fallback_copied_bytes p + n)),
             Some (Ok n), rest)
        | r => (mkPipe k (splice_supported p) (externally_spliced_bytes p) (fallback_copied_bytes p), r, rest)
        end
      else (p, Some (Throw (SystemError ECONNRESET)), rest)
  end.

(** Every turn takes a call from the script, which bounds the turns. *)
Fixpoint pipe_to_file (fuel : nat) (script : list Sys) (p : PipeToFile) (length done : Z) :
    PipeToFile * option (result Z) :=
  match fuel with
  | O => (p, None)
  | S fuel =>
      if done =? length then (p, Some (Ok done))
      else
        let copy p script :=
          match copy_piece script p (length - done) with
          | (p, Some (Ok n), script) => pipe_to_file fuel script p length (done + n)
          | (p, r, _) => (p, r)
          end in
        if splice_supported p then
          match retry (io_call script) with
          | None => (p, None)
          | Some (Moved count, script) =>
              let n := moved (sink p) count (length - done) in
              if 0 <? n then
                pipe_to_file fuel script
                  (mkPipe (after (sink p) n) true (u64 (externally_spliced_bytes p + n)) (fallback_copied_bytes p))
                  length (done + n)
              else (p, Some (Throw (SystemError ECONNRESET)))
          | Some (Failed e, script) =>
              if negb (unsupported_file_splice e) then (p, Some (Throw (SystemError e)))
              else copy (mkPipe (sink p) false (externally_spliced_bytes p) (fallback_copied_bytes p)) script
          end
        else copy p script
  end.

Definition transfer_pipe_to_file (script : list Sys) (p : PipeToFile) (length : Z) : PipeToFile * option (result Z) :=
  pipe_to_file (S (List.length script)) script p length 0.

End Calls.

(** ** Pieces of byte strings *)

Lemma vsize_take (n : Z) (l : bytes) : 0 <= n <= vsize l -> vsize (take_z n l) = n.
Proof. unfold vsize, take_z. rewrite length_take. lia. Qed.

Lemma vsize_drop (n : Z) (l : bytes) : 0 <= n <= vsize l -> vsize (drop_z n l) = vsize l - n.
Proof. unfold vsize, drop_z. rewrite length_drop. lia. Qed.

Lemma take_add (a b : Z) (l : bytes) :
  0 <= a -> 0 <= b -> take_z (a + b) l = take_z a l ++ take_z b (drop_z a l).
Proof. intros. unfold take_z, drop_z. rewrite Z2Nat.inj_add by lia. by rewrite take_take_drop. Qed.

Lemma drop_add (a b : Z) (l : bytes) : 0 <= a -> 0 <= b -> drop_z b (drop_z a l) = drop_z (a + b) l.
Proof. intros. unfold drop_z. rewrite drop_drop. f_equal. lia. Qed.

Lemma take_zero (l : bytes) : take_z 0 l = [].
Proof. done. Qed.

(** The part of a file before an offset, as a write at the offset leaves it. *)
Lemma before_size (f : bytes) (o : Z) :
  0 <= o -> length (take_z o f ++ replicate (Z.to_nat (o - vsize f)) zero) = Z.to_nat o.
Proof. intros. unfold take_z, vsize. rewrite length_app, length_take, length_replicate. lia. Qed.

Lemma pwrite_at_parts (f data : bytes) (o : Z) :
  data <> [] ->
  pwrite_at f o data =
    (take_z o f ++ replicate (Z.to_nat (o - vsize f)) zero) ++ data ++ drop_z (o + vsize data) f.
Proof. intros. destruct data; [done|]. by rewrite <-app_assoc. Qed.

(** Two writes, the second where the first ends, are one. *)
Lemma pwrite_at_app (f a b : bytes) (o : Z) :
  0 <= o -> pwrite_at (pwrite_at f o a) (o + vsize a) b = pwrite_at f o (a ++ b).
Proof.
  intros Ho. destruct a as [|x a'].
  { cbn [app]. replace (o + vsize (@nil ascii)) with o by (unfold vsize; cbn; lia). done. }
  destruct b as [|y b']; [by rewrite app_nil_r|].
  set (a := x :: a'). set (b := y :: b').
  pose proof (before_size f o Ho) as HP.
  set (P := take_z o f ++ replicate (Z.to_nat (o - vsize f)) zero) in *.
  assert (E1 : pwrite_at f o a = (P ++ a) ++ drop_z (o + vsize a) f) by (rewrite <-app_assoc; by apply pwrite_at_parts).
  assert (E2 : pwrite_at f o (a ++ b) = (P ++ a) ++ b ++ drop_z (o + vsize (a ++ b)) f)
    by (rewrite pwrite_at_parts by done; fold P; by rewrite <-!(app_assoc _ a), <-(app_assoc a b)).
  assert (HL : length (P ++ a) = Z.to_nat (o + vsize a)) by (rewrite length_app, HP; unfold vsize; lia).
  rewrite E1, E2. unfold pwrite_at at 1. fold b.
  assert (Hpad : Z.to_nat (o + vsize a - vsize ((P ++ a) ++ drop_z (o + vsize a) f)) = 0%nat)
    by (unfold vsize at 2; rewrite length_app, HL; unfold vsize; lia).
  rewrite Hpad. cbn [replicate app]. unfold take_z at 1. rewrite <-HL, take_app_length. do 2 f_equal.
  unfold drop_z at 1. rewrite Z2Nat.inj_add by (unfold vsize; lia). rewrite <-HL, <-drop_drop, drop_app_length.
  change (drop (Z.to_nat (vsize b)) (drop_z (o + vsize a) f))
    with (drop_z (vsize b) (drop_z (o + vsize a) f)).
  rewrite drop_add by (unfold vsize; lia). f_equal. unfold vsize. rewrite length_app. lia.
Qed.

(** ** The devices obey the laws *)

#[export] Instance stream_laws : DeviceLaws Stream.
Proof.
  refine {| valid := fun _ => True |}; cbn [room after stream_device src dst].
  - intros. apply vsize_nonneg.
  - intros [s d]. cbn. by rewrite take_zero, app_nil_r.
  - done.
  - intros. by apply vsize_drop.
  - intros s a b _ ???. by rewrite drop_add, take_add, app_assoc by done.
Defined.

#[export] Instance source_laws : DeviceLaws FileSource.
Proof.
  refine {| valid := fun s => 0 <= source_offset s /\ source_offset s <= vsize (source_file s) <= max_offset |};
    cbn [room after source_device source_file source_offset out]; unfold max_offset.
  - lia.
  - intros [f o d] ?. cbn in *. rewrite take_zero, app_nil_r, Z.add_0_r, u64_small by lia. done.
  - intros. rewrite u64_small by lia. lia.
  - intros. rewrite u64_small by lia. lia.
  - intros. rewrite !u64_small, take_add, drop_add, app_assoc by (rewrite ?u64_small by lia; lia).
    by rewrite Z.add_assoc.
Defined.

#[export] Instance sink_laws : DeviceLaws FileSink.
Proof.
  refine {| valid := fun s => 0 <= offset s <= max_offset |};
    cbn [room after sink_device pending file offset]; unfold max_offset.
  - intros s ?. pose proof (vsize_nonneg (pending s)). lia.
  - intros [p f o] ?. cbn in *. rewrite take_zero, Z.add_0_r, u64_small by lia. done.
  - intros. rewrite u64_small by lia. lia.
  - intros. rewrite u64_small, vsize_drop by lia. lia.
  - intros. rewrite !(u64_small (offset s + _)) by lia.
    rewrite u64_small, drop_add, take_add by lia.
    rewrite <-pwrite_at_app, vsize_take by lia. by rewrite Z.add_assoc.
Defined.

(** ** The loop is exact *)

Section LoopLemmas.
Context {S : Type} `{DeviceLaws S}.
Implicit Types s : S.

(** Whatever the calls give, the loop has moved the first bytes and never more than asked, and
    it stops as complete exactly when it has moved them all. *)
Lemma transfer_spec script errno s length done s' done' stop rest :
  valid s -> 0 <= done <= length -> transfer script errno s length done = (s', done', stop, rest) ->
  exists n, 0 <= n <= room s /\ done' = done + n /\ done' <= length /\ s' = after s n /\
    (stop = Complete <-> done' = length) /\ (List.length rest <= List.length script)%nat.
Proof.
  revert errno s done. induction script as [|x script IH]; intros errno s done Hv Hd; cbn [transfer].
  - destruct (Z.eqb_spec done length); intros [= <- <- <- <-]; exists 0;
      (split_and!; [lia|by apply room_nonneg|lia|lia|by rewrite after_zero|first [by split|split; [discriminate|lia]]|cbn; lia]).
  - assert (Hstay : forall st (r : list Sys), (st = Complete <-> done = length) -> (List.length r <= List.length (x :: script))%nat ->
      exists n, 0 <= n <= room s /\ done = done + n /\ done <= length /\ s = after s n /\
        (st = Complete <-> done = length) /\ (List.length r <= List.length (x :: script))%nat).
    { intros. exists 0. split_and!; try lia; [by apply room_nonneg|by rewrite after_zero|done]. }
    destruct (Z.eqb_spec done length) as [->|Hne]; [intros [= <- <- <- <-]; by apply Hstay|].
    destruct x as [count|e].
    + destruct (Z.ltb_spec 0 (moved s count (length - done))) as [Hn|]; cbn zeta; [|intros [= <- <- <- <-]; apply Hstay; cbn; [split; [discriminate|lia]|lia]].
      unfold moved in *. set (n := Z.min _ _) in *. assert (n <= room s /\ n <= length - done) by lia.
      intros E. apply IH in E as (m & Hm & -> & ? & -> & ? & ?); [|apply after_valid; [done|lia]|lia].
      rewrite room_after in Hm by (done || lia). exists (n + m).
      split_and!; try lia; [by rewrite after_after by (done || lia)|done|cbn; lia].
    + destruct (e =? EINTR); [|intros [= <- <- <- <-]; apply Hstay; cbn; [split; [discriminate|lia]|lia]].
      intros E. apply IH in E as (m & ? & ? & ? & ? & ? & ?); [|done|lia].
      exists m. split_and!; try done; cbn; lia.
Qed.

(** Calls that make progress or are interrupted. *)
Definition progress (x : Sys) : Prop := match x with Moved n => 1 <= n | Failed e => e = EINTR end.
Definition is_move (x : Sys) : bool := match x with Moved _ => true | Failed _ => false end.
Definition moves (script : list Sys) : Z := vsize (List.filter is_move script).

Lemma filter_moved count script :
  vsize (List.filter is_move (Moved count :: script)) = vsize (List.filter is_move script) + 1.
Proof. cbn. unfold vsize. cbn. lia. Qed.

(** With the bytes there, one progressing call for each byte is enough. *)
Lemma transfer_completes script errno s length done s' done' stop rest :
  valid s -> 0 <= done <= length -> Forall progress script ->
  length - done <= moves script -> length - done <= room s ->
  transfer script errno s length done = (s', done', stop, rest) ->
  stop = Complete /\ Forall progress rest /\ moves script - (length - done) <= moves rest.
Proof.
  unfold moves. revert errno s done.
  induction script as [|x script IH]; intros errno s done Hv Hd Hp Hm Hr; cbn [transfer].
  - unfold vsize in Hm. cbn in Hm. rewrite (proj2 (Z.eqb_eq done length)) by lia.
    intros [= <- <- <- <-]. split_and!; [done..|lia].
  - destruct (Z.eqb_spec done length); [intros [= <- <- <- <-]; split_and!; [done..|lia]|].
    apply Forall_cons in Hp as [Hx Hp]. destruct x as [count|e]; cbn in Hx.
    + rewrite filter_moved in *. cbn zeta.
      assert (Hn : 1 <= moved s count (length - done) <= room s /\ moved s count (length - done) <= length - done)
        by (unfold moved; lia).
      rewrite (proj2 (Z.ltb_lt _ _)) by lia. intros E.
      apply IH in E as (-> & ? & ?); [|apply after_valid; [done|lia]|lia|done|lia|rewrite room_after by (done || lia); lia].
      split_and!; [done..|lia].
    + subst e. cbn [List.filter is_move] in *. exact (IH _ _ _ Hv Hd Hp Hm Hr).
Qed.

End LoopLemmas.

(** ** What the functions promise *)

(** How a loop that moved [n] of [length] bytes may end. *)
Definition exact_end {A} (on_reactor : bool) (n length : Z) (r : option (result A)) : Prop :=
  match r with
  | Some (Ok _) => n = length
  | Some (Throw e) => on_reactor = false -> n < length
  | None => n < length
  end.

Lemma stop_cases stop (n length : Z) :
  (stop = Complete <-> n = length) -> n <= length ->
  (stop = Complete /\ n = length) \/ (stop <> Complete /\ n < length).
Proof. intros ??. destruct (Z.eq_dec n length); [left; naive_solver|right; split; [naive_solver|lia]]. Qed.

Lemma finish_exact on_reactor nothing n length stop :
  (stop = Complete <-> n = length) -> n <= length -> exact_end on_reactor n length (finish nothing n stop).
Proof. intros H1 H2. destruct (stop_cases _ _ _ H1 H2) as [[-> ->]|[? ?]]; [done|]. destruct stop; naive_solver. Qed.

(** A function that moved a prefix of what was asked, all of it if it returns. *)
Definition exact {S A} `{Device S} (on_reactor : bool) (s : S) (length : Z) (r : S * option (result A)) : Prop :=
  exists n, 0 <= n <= room s /\ n <= length /\ r.1 = after s n /\ exact_end on_reactor n length r.2.

Ltac run_transfer Hl :=
  match goal with
  | |- context [transfer ?sc ?e ?s ?l 0] =>
      let E := fresh "E" in
      destruct (transfer sc e s l 0) as [[[? ?] stop] ?] eqn:E;
      apply transfer_spec in E as (n & ? & -> & ? & -> & Hs & ?); [|done|lia]; rewrite Z.add_0_l in *
  end.

Lemma exact_nothing {S A} `{DeviceLaws S} (s : S) length (e : exn) :
  valid s -> 0 <= length -> exact (A:=A) true s length (s, Some (Throw e)).
Proof. intros Hv ?. exists 0. pose proof (room_nonneg s Hv). split_and!; [lia..|by rewrite after_zero|done]. Qed.

Section Promises.
Variable on_reactor : bool.

Lemma receive_all_exact script s length :
  0 <= length -> exact on_reactor s length (receive_all on_reactor script s length).
Proof.
  intros Hl. unfold receive_all, io_receive_exact. destruct on_reactor eqn:Er; [by apply exact_nothing|].
  run_transfer Hl. exists n.
  destruct (stop_cases _ _ _ Hs ltac:(lia)) as [[-> ->]|[? ?]]; [by rewrite Z.eqb_refl|].
  destruct stop; rewrite ?(proj2 (Z.eqb_neq n length)) by lia; naive_solver.
Qed.

Lemma send_all_exact script s length :
  0 <= length -> exact on_reactor s length (send_all on_reactor script s length).
Proof.
  intros Hl. unfold send_all, io_send_exact. destruct on_reactor eqn:Er; [by apply exact_nothing|].
  run_transfer Hl. exists n.
  destruct (stop_cases _ _ _ Hs ltac:(lia)) as [[-> ->]|[? ?]]; [by rewrite Z.eqb_refl|].
  destruct stop; naive_solver.
Qed.

Lemma splice_exact_exact script s length calls :
  0 <= length ->
  exact on_reactor s length ((splice_exact on_reactor script s length calls).1.1, (splice_exact on_reactor script s length calls).2).
Proof.
  intros Hl. unfold splice_exact, io_splice_exact. destruct on_reactor eqn:Er; [by apply exact_nothing|].
  run_transfer Hl. exists n.
  destruct (stop_cases _ _ _ Hs ltac:(lia)) as [[-> ->]|[? ?]]; [by rewrite Z.eqb_refl|].
  destruct stop; rewrite ?(proj2 (Z.eqb_neq n length)) by lia; naive_solver.
Qed.

(** The loops that end with [finish]. *)
Lemma finish_transfer_exact {S} `{DeviceLaws S} script errno (s : S) length nothing :
  valid s -> 0 <= length ->
  exact on_reactor s length
    (let '(s, done, stop, _) := transfer script errno s length 0 in (s, finish nothing done stop)).
Proof. intros Hv Hl. run_transfer Hl. exists n. split_and!; [lia..|done|by apply finish_exact]. Qed.

Lemma write_range_file_exact script s :
  valid s ->
  exact on_reactor s (vsize (pending s)) (write_range_file on_reactor script s).1.
Proof.
  intros Hv. pose proof (vsize_nonneg (pending s)) as Hl. unfold write_range_file. run_transfer Hl.
  exists n. split_and!; [lia..|done|by apply finish_exact].
Qed.

End Promises.

(** ** From the staging pipe to the cache file *)

(** [p'] comes from [p] by taking [m] bytes out of the pipe and writing the first [n] of them;
    the counters account for [t].  [m] and [t] differ only by a piece whose write failed. *)
Record filed (length : Z) (p p' : PipeToFile) (t n m : Z) : Prop := {
  filed_order : 0 <= t <= n /\ n <= m <= length /\ m - t <= copy_chunk;
  filed_room : m <= vsize (pending (sink p)) /\ n <= room (sink p);
  filed_sink : sink p' = mkSink (drop_z m (pending (sink p)))
                 (pwrite_at (file (sink p)) (offset (sink p)) (take_z n (pending (sink p)))) (offset (sink p) + n);
  filed_count : externally_spliced_bytes p' + fallback_copied_bytes p' =
                  externally_spliced_bytes p + fallback_copied_bytes p + t;
  filed_split : externally_spliced_bytes p <= externally_spliced_bytes p' /\
                fallback_copied_bytes p <= fallback_copied_bytes p';
  filed_copied : splice_supported p' = true -> splice_supported p = true /\ fallback_copied_bytes p' = fallback_copied_bytes p }.

(** The counters can take [length] more. *)
Definition countable (p : PipeToFile) (length : Z) : Prop :=
  0 <= externally_spliced_bytes p /\ 0 <= fallback_copied_bytes p /\
  externally_spliced_bytes p + fallback_copied_bytes p + length < 2 ^ 64.

Lemma after_sink s n :
  valid s -> 0 <= n <= room s ->
  after s n = mkSink (drop_z n (pending s)) (pwrite_at (file s) (offset s) (take_z n (pending s))) (offset s + n).
Proof. cbn. unfold max_offset. intros. by rewrite u64_small by lia. Qed.

Lemma filed_refl length p : valid (sink p) -> 0 <= length -> filed length p p 0 0 0.
Proof.
  intros Hv ?. pose proof (room_nonneg (sink p) Hv). pose proof (vsize_nonneg (pending (sink p))).
  split; try (unfold copy_chunk; lia); try done.
  rewrite <-after_sink by (done || lia). by rewrite after_zero.
Qed.

(** A turn that moved [k] bytes, then the rest. *)
Lemma filed_step length p p1 p' k t n m :
  valid (sink p) -> 0 <= k <= room (sink p) -> filed length p p1 k k k -> filed (length - k) p1 p' t n m ->
  filed length p p' (k + t) (k + n) (k + m).
Proof.
  intros Hv Hk [? [? ?] Hs1 ? ? Hc1] [? [Hm Hn] Hs2 ? ? Hc2].
  rewrite <-after_sink in Hs1 by done. rewrite Hs1 in *. rewrite room_after in Hn by done.
  cbn [after sink_device pending] in Hm. rewrite vsize_drop in Hm by lia.
  split; [lia|lia| |lia|lia|intros H'; destruct (Hc2 H') as [H1 ?]; destruct (Hc1 H1); split; congruence].
  rewrite Hs2. cbn [after sink_device pending file offset]. cbn in Hv, Hk. unfold max_offset in *.
  rewrite u64_small by lia. rewrite drop_add, take_add by lia.
  rewrite <-pwrite_at_app, vsize_take by lia. by rewrite Z.add_assoc.
Qed.

Lemma retry_shorter script x rest : retry script = Some (x, rest) -> (length rest < length script)%nat.
Proof.
  induction script as [|[n|e] script IH]; cbn; [done| |].
  - intros [= _ <-]. lia.
  - case_match; [intros ?%IH; lia|intros [= _ <-]; lia].
Qed.

Section PipeToFile.
Variable on_reactor : bool.

(** A call that did not fail with [EDEADLK] was not made on the reactor. *)
Lemma retry_io_call script x rest :
  retry (io_call on_reactor script) = Some (x, rest) ->
  x = Failed EDEADLK \/ (on_reactor = false /\ (length rest < length script)%nat).
Proof. unfold io_call. destruct on_reactor; cbn; [intros [= <- _]; auto|intros ?%retry_shorter; auto]. Qed.

Lemma write_range_file_rest script s :
  on_reactor = false -> valid s -> (length (write_range_file on_reactor script s).2 <= length script)%nat.
Proof.
  intros Hr Hv. pose proof (vsize_nonneg (pending s)) as Hl. unfold write_range_file, io_call. rewrite Hr.
  run_transfer Hl. done.
Qed.

Lemma copy_piece_spec script p left_over p' r rest :
  valid (sink p) -> 0 < left_over -> countable p left_over -> splice_supported p = false ->
  copy_piece on_reactor script p left_over = (p', r, rest) ->
  splice_supported p' = false /\
  exists t n m, filed left_over p p' t n m /\
    match r with
    | Some (Ok x) => t = x /\ n = x /\ m = x /\ 0 < x /\ on_reactor = false /\ (length rest < length script)%nat
    | _ => t = 0
    end.
Proof.
  intros Hv Hl (? & ? & ?) Hs. unfold copy_piece.
  pose proof (filed_refl left_over p Hv ltac:(lia)) as Hrefl.
  destruct (retry _) as [[[count|e] rest1]|] eqn:Er; [|intros [= <- <- <-]; eauto 10..].
  apply retry_io_call in Er as [?|[Hr Hrest]]; [done|]. cbn zeta.
  destruct (Z.ltb_spec 0 (Z.min (Z.min count (Z.min copy_chunk left_over)) (vsize (pending (sink p))))) as [Hn|];
    [|intros [= <- <- <-]; eauto 10].
  set (x := Z.min _ _) in *.
  assert (Hx : x <= copy_chunk /\ x <= left_over /\ x <= vsize (pending (sink p))) by lia. clearbody x.
  set (w0 := mkSink _ _ _). assert (Hv0 : valid w0) by done.
  pose proof (write_range_file_exact on_reactor rest1 w0 Hv0) as (n & Hnr & Hnl & Hw & He).
  pose proof (write_range_file_rest rest1 w0 Hr Hv0) as Hle.
  destruct (write_range_file on_reactor rest1 w0) as [[w wr] wrest]. cbn [fst snd] in *.
  assert (Hp : vsize (pending w0) = x) by (apply vsize_take; lia).
  rewrite after_sink in Hw by (done || lia). subst w. cbn [file offset] in *.
  assert (Hroom : n <= room (sink p)) by (unfold room in *; cbn in *; lia).
  assert (Htake : take_z n (pending w0) = take_z n (pending (sink p))).
  { cbn [w0 pending]. unfold take_z. rewrite take_take. f_equal. lia. }
  rewrite Htake. rewrite Hp in *.
  destruct wr as [[y|ex]|]; intros [= <- <- <-]; (split; [done|]).
  - cbn in He. subst n. exists x, x, x. split; [|split_and!; lia || done].
    split; cbn [sink splice_supported externally_spliced_bytes fallback_copied_bytes]; rewrite ?u64_small by lia;
      try lia; [done|by rewrite Hs].
  - exists 0, n, x. split; [|done].
    split; cbn [sink splice_supported externally_spliced_bytes fallback_copied_bytes]; try lia; [done|by rewrite Hs].
  - exists 0, n, x. split; [|done].
    split; cbn [sink splice_supported externally_spliced_bytes fallback_copied_bytes]; try lia; [done|by rewrite Hs].
Qed.

(** How the function may end when [left] bytes were asked for, [total] in all. *)
Definition filed_end (total left_over : Z) (p p' : PipeToFile) (r : option (result Z)) : Prop :=
  exists t n m, filed left_over p p' t n m /\
    match r with
    | Some (Ok x) => x = total /\ t = left_over
    | Some (Throw _) => t < left_over
    | None => True
    end.

Lemma filed_end_refl total left_over p r :
  valid (sink p) -> 0 < left_over -> (forall x, r <> Some (Ok x)) -> filed_end total left_over p p r.
Proof.
  intros Hv ? Hr. exists 0, 0, 0. split; [apply filed_refl; [done|lia]|].
  destruct r as [[x|e]|]; [by destruct (Hr x)|lia|done].
Qed.

Lemma filed_end_step total left_over p p1 p' r k :
  valid (sink p) -> filed left_over p p1 k k k -> filed_end total (left_over - k) p1 p' r ->
  filed_end total left_over p p' r.
Proof.
  intros Hv Hf (t & n & m & Hf2 & Hr). pose proof Hf as [? [? ?] _ _ _ _].
  exists (k + t), (k + n), (k + m). split; [eapply filed_step; [done|lia|exact Hf|done]|].
  destruct r as [[?|?]|]; [destruct Hr; split; lia|lia|done].
Qed.

(** What a turn leaves behind satisfies what the next one needs. *)
Lemma filed_next left_over p p1 k :
  valid (sink p) -> countable p left_over -> filed left_over p p1 k k k ->
  valid (sink p1) /\ countable p1 (left_over - k) /\ 0 <= k <= left_over.
Proof.
  intros Hv (? & ? & ?) [? [? ?] Hs ? ? ?]. split_and!; [|unfold countable; lia|lia..].
  rewrite Hs, <-after_sink by (done || lia). apply after_valid; [done|lia].
Qed.

Lemma filed_spliced left_over p k :
  valid (sink p) -> countable p left_over -> splice_supported p = true -> 0 < k <= room (sink p) -> k <= left_over ->
  filed left_over p
    (mkPipe (after (sink p) k) true (u64 (externally_spliced_bytes p + k)) (fallback_copied_bytes p)) k k k.
Proof.
  intros Hv (? & ? & ?) Hsp ??.
  split; cbn [sink splice_supported externally_spliced_bytes fallback_copied_bytes]; rewrite ?u64_small by lia;
    try (unfold copy_chunk; lia); [|by apply after_sink; [done|lia]|done].
  cbn in *. lia.
Qed.

Lemma pipe_to_file_spec fuel script p length done p' r :
  valid (sink p) -> 0 <= done <= length -> countable p (length - done) ->
  pipe_to_file on_reactor fuel script p length done = (p', r) -> filed_end length (length - done) p p' r.
Proof.
  revert script p done. induction fuel as [|fuel IH]; intros script p done Hv Hd Hc; cbn [pipe_to_file].
  { intros [= <- <-]. exists 0, 0, 0. split; [apply filed_refl; [done|lia]|done]. }
  destruct (Z.eqb_spec done length) as [->|Hne].
  { intros [= <- <-]. exists 0, 0, 0. split; [apply filed_refl; [done|lia]|lia]. }
  assert (Hgo : forall script p1 k, filed (length - done) p p1 k k k ->
    pipe_to_file on_reactor fuel script p1 length (done + k) = (p', r) -> filed_end length (length - done) p p' r).
  { intros script1 p1 k Hf E. destruct (filed_next _ _ _ _ Hv Hc Hf) as (? & ? & ?).
    eapply filed_end_step; [done|exact Hf|]. rewrite <-Z.sub_add_distr.
    eapply IH; [done|lia|by rewrite Z.sub_add_distr|exact E]. }
  assert (Hcopy : forall script p0, filed (length - done) p p0 0 0 0 -> sink p0 = sink p -> splice_supported p0 = false ->
    match copy_piece on_reactor script p0 (length - done) with
    | (p, Some (Ok n), script) => pipe_to_file on_reactor fuel script p length (done + n)
    | (p, r, _) => (p, r)
    end = (p', r) -> filed_end length (length - done) p p' r).
  { intros script1 p0 H0 Hs0 Hf0 E. destruct (filed_next _ _ _ _ Hv Hc H0) as (? & Hc0 & _).
    rewrite Z.sub_0_r in Hc0. pose proof (room_nonneg _ Hv).
    destruct (copy_piece on_reactor script1 p0 (length - done)) as [[p1 r1] rest] eqn:Ec.
    apply copy_piece_spec in Ec as (_ & t & n & m & Hf & Hr); [|done|lia|done|done].
    assert (Hf1 : filed (length - done) p p1 t n m).
    { apply (filed_step _ p p0 p1 0 t n m Hv ltac:(lia) H0). by rewrite Z.sub_0_r. }
    destruct r1 as [[x|e]|]; [|simplify_eq; exists 0, n, m; split; [done|lia || done]..].
    destruct Hr as (-> & -> & -> & _). by eapply Hgo. }
  destruct (splice_supported p) eqn:Hsp; [|apply Hcopy; try done; apply filed_refl; [done|lia]].
  destruct (retry _) as [[[count|e] rest]|]; [| |intros [= <- <-]; apply filed_end_refl; [done|lia|done]].
  - cbn zeta. destruct (Z.ltb_spec 0 (moved (sink p) count (length - done))) as [Hn|];
      [|intros [= <- <-]; apply filed_end_refl; [done|lia|done]].
    apply Hgo, filed_spliced; try done; unfold moved in *; lia.
  - destruct (unsupported_file_splice e); cbn [negb]; [|intros [= <- <-]; apply filed_end_refl; [done|lia|done]].
    apply Hcopy; try done. pose proof (filed_refl (length - done) p Hv ltac:(lia)) as Hrefl.
    split; try apply Hrefl. done.
Qed.

(** The script bounds the turns: more fuel than its length changes nothing. *)
Lemma pipe_to_file_fuel fuel fuel' script p total done :
  valid (sink p) -> 0 <= done <= total -> countable p (total - done) ->
  (length script < fuel)%nat -> (length script < fuel')%nat ->
  pipe_to_file on_reactor fuel script p total done = pipe_to_file on_reactor fuel' script p total done.
Proof.
  revert fuel' script p done. induction fuel as [|fuel IH]; intros [|fuel'] script p done Hv Hd Hc H1 H2; try lia.
  cbn [pipe_to_file]. destruct (Z.eqb_spec done total); [done|].
  assert (Hcopy : forall script1 p0, valid (sink p0) -> countable p0 (total - done) -> splice_supported p0 = false ->
    (length script1 <= length script)%nat ->
    match copy_piece on_reactor script1 p0 (total - done) with
    | (p, Some (Ok n), script) => pipe_to_file on_reactor fuel script p total (done + n) | (p, r, _) => (p, r) end =
    match copy_piece on_reactor script1 p0 (total - done) with
    | (p, Some (Ok n), script) => pipe_to_file on_reactor fuel' script p total (done + n) | (p, r, _) => (p, r) end).
  { intros script1 p0 Hv0 Hc0 Hs0 Hl. destruct (copy_piece _ script1 p0 _) as [[p1 r1] rest] eqn:Ec.
    apply copy_piece_spec in Ec as (_ & t & n0 & m & Hf & Hr); [|done|lia|done|done].
    destruct r1 as [[x|e]|]; [|done..]. destruct Hr as (-> & -> & -> & ? & _ & ?).
    destruct (filed_next _ _ _ _ Hv0 Hc0 Hf) as (? & ? & ?).
    apply IH; [done|lia|by rewrite Z.sub_add_distr|lia..]. }
  destruct (splice_supported p) eqn:Hsp; [|by apply Hcopy].
  destruct (retry _) as [[[count|e] rest]|] eqn:Er; [| |done].
  - apply retry_io_call in Er as [?|[_ ?]]; [done|]. cbn zeta.
    destruct (Z.ltb_spec 0 (moved (sink p) count (total - done))) as [Hn|]; [|done].
    assert (Hk : 0 < moved (sink p) count (total - done) <= room (sink p) /\
                 moved (sink p) count (total - done) <= total - done) by (unfold moved in *; lia).
    destruct (filed_next _ _ _ _ Hv Hc (filed_spliced _ p _ Hv Hc Hsp (proj1 Hk) (proj2 Hk))) as (? & ? & ?).
    apply IH; [done|lia|by rewrite Z.sub_add_distr|lia..].
  - apply retry_io_call in Er as [Ee|[_ ?]]; [injection Ee as ->; done|].
    destruct (unsupported_file_splice e); cbn [negb]; [|done]. apply Hcopy; try done. lia.
Qed.

End PipeToFile.

(** ** Progress *)

Lemma retry_progress script :
  Forall progress script -> 1 <= moves script ->
  exists count rest, retry script = Some (Moved count, rest) /\ 1 <= count /\ Forall progress rest /\
    moves rest = moves script - 1.
Proof.
  unfold moves. induction script as [|[count|e] script IH]; intros Hp Hm; [done|..]; apply Forall_cons in Hp as [Hx Hp].
  - rewrite filter_moved in *. exists count, script. split_and!; [done..|lia].
  - cbn in Hx. subst e. cbn in Hm |- *. by apply IH.
Qed.

Lemma write_range_file_completes script s :
  valid s -> Forall progress script -> vsize (pending s) <= moves script -> vsize (pending s) <= room s ->
  exists s' rest, write_range_file false script s = (s', Some (Ok (vsize (pending s))), rest) /\ Forall progress rest /\
    moves script - vsize (pending s) <= moves rest.
Proof.
  intros Hv Hp Hm Hr. pose proof (vsize_nonneg (pending s)). unfold write_range_file, io_call.
  destruct (transfer script 0 s (vsize (pending s)) 0) as [[[s' d] stop] rest] eqn:E. pose proof E as E'.
  apply transfer_completes in E as (-> & ? & ?); [|done || lia..].
  apply transfer_spec in E' as (n & _ & _ & _ & _ & Hs & _); [|done || lia..].
  rewrite (proj1 Hs eq_refl). eexists _, _. split_and!; [done..|lia].
Qed.

Lemma copy_piece_completes script p left_over :
  valid (sink p) -> 0 < left_over <= room (sink p) -> Forall progress script -> 2 * left_over <= moves script ->
  exists p' n rest, copy_piece false script p left_over = (p', Some (Ok n), rest) /\ Forall progress rest /\
    moves script - 2 * n <= moves rest.
Proof.
  intros Hv Hl Hp Hm. destruct (retry_progress script Hp) as (count & rest & Er & Hc & Hp' & Hm'); [lia|].
  unfold copy_piece, io_call. rewrite Er. cbn zeta.
  assert (Hpend : room (sink p) <= vsize (pending (sink p))) by (cbn; lia).
  set (x := Z.min _ (vsize _)).
  assert (Hx : 1 <= x <= left_over) by (unfold x, copy_chunk; lia).
  rewrite (proj2 (Z.ltb_lt 0 x)) by lia.
  set (w0 := mkSink _ _ _). assert (Hw : vsize (pending w0) = x) by (apply vsize_take; lia).
  assert (x <= room w0) by (unfold room; cbn [sink_device]; rewrite Hw; cbn in *; lia).
  destruct (write_range_file_completes rest w0) as (w & wrest & Ew & ? & ?); [done|done|lia|lia|].
  rewrite Ew. eexists _, _, _. split_and!; [done..|lia].
Qed.

Lemma pipe_to_file_completes fuel script p total done :
  valid (sink p) -> 0 <= done <= total -> countable p (total - done) -> (length script < fuel)%nat ->
  Forall progress script -> 2 * (total - done) <= moves script -> total - done <= room (sink p) ->
  (pipe_to_file false fuel script p total done).2 = Some (Ok total).
Proof.
  revert script p done. induction fuel as [|fuel IH]; intros script p done Hv Hd Hc Hf Hp Hm Hr; [lia|].
  cbn [pipe_to_file]. destruct (Z.eqb_spec done total) as [->|Hne]; [done|].
  assert (Hgo : forall script1 p1 k, filed (total - done) p p1 k k k -> 0 < k -> (length script1 < fuel)%nat ->
    Forall progress script1 -> moves script - 2 * k <= moves script1 ->
    (pipe_to_file false fuel script1 p1 total (done + k)).2 = Some (Ok total)).
  { intros script1 p1 k Hk ????. destruct (filed_next _ _ _ _ Hv Hc Hk) as (? & ? & ?). pose proof Hk as [_ [_ ?] Hs _ _ _].
    apply IH; try (done || lia); [by rewrite Z.sub_add_distr|].
    rewrite Hs, <-after_sink, room_after by (done || lia). lia. }
  destruct (splice_supported p) eqn:Hsp.
  - destruct (retry_progress script Hp) as (count & rest & Er & Hcount & Hp' & Hm'); [lia|].
    unfold io_call at 1. pose proof (retry_shorter _ _ _ Er). rewrite Er. cbn zeta.
    assert (Hk : 0 < moved (sink p) count (total - done) <= room (sink p) /\
                 moved (sink p) count (total - done) <= total - done) by (unfold moved; lia).
    rewrite (proj2 (Z.ltb_lt _ _)) by lia. apply Hgo; [apply filed_spliced; tauto || done|lia|lia|done|lia].
  - destruct (copy_piece_completes script p (total - done) Hv ltac:(lia) Hp Hm) as (p1 & n & rest & Ec & ? & ?).
    rewrite Ec. apply copy_piece_spec in Ec as (_ & t & n' & m & Hk & -> & -> & -> & ? & _ & ?); [|done || lia..].
    apply Hgo; [done|lia..|done|lia].
Qed.

(** ** The claims *)

(** C32: the exact loops are exact.  Whatever the system calls give -- short counts,
    interruptions, end of file, errors -- [receive_all], [send_all] and [splice_exact] take a
    prefix of the bytes asked for from the front of the stream, in order and without gaps;
    [splice_from_fd_exact] and [sendfile_exact] send the bytes of the file from its offset on
    and leave the offset behind the last byte sent; [splice_to_fd_exact] and
    [write_range_file] write them at the file's offset.  A loop that returns has moved all of
    the bytes, one that throws has not, except on the reactor's thread. *)
Theorem exact_loops (on_reactor : bool) (script : list Sys) (length : Z) :
  0 <= length ->
  (forall s, exact on_reactor s length (receive_all on_reactor script s length) /\
             exact on_reactor s length (send_all on_reactor script s length)) /\
  (forall s calls, let '(s', _, r) := splice_exact on_reactor script s length calls in
                   exact on_reactor s length (s', r)) /\
  (forall s errno, exact false s length (read_all script s length) /\
                   exact false s length (write_all script errno s length)) /\
  (forall s : FileSource, valid s -> exact on_reactor s length (splice_from_fd_exact on_reactor script s length) /\
                                     exact false s length (sendfile_exact script s length)) /\
  (forall s : FileSink, valid s -> exact on_reactor s length (splice_to_fd_exact on_reactor script s length) /\
                                   exact on_reactor s (vsize (pending s)) (write_range_file on_reactor script s).1).
Proof.
  intros Hl. split_and!.
  - intros s. split; [by apply receive_all_exact|by apply send_all_exact].
  - intros s calls. pose proof (splice_exact_exact on_reactor script s length calls Hl).
    by destruct (splice_exact _ _ _ _ _) as [[? ?] ?].
  - intros. split; by apply (@finish_transfer_exact _ Stream _ _).
  - intros. split; by apply (@finish_transfer_exact _ FileSource _ _).
  - intros. split; [by apply (@finish_transfer_exact _ FileSink _ _)|by apply write_range_file_exact].
Qed.

Lemma exact_loops_witness :
  exact false (mkSource (lit "abcdef") 1 []) 4 (sendfile_exact [Moved 2; Failed EINTR; Moved 9] (mkSource (lit "abcdef") 1 []) 4).
Proof. apply (exact_loops false [Moved 2; Failed EINTR; Moved 9] 4 ltac:(lia)). vm_compute. split; [|split]; discriminate. Defined.

(** [transfer_pipe_to_file] moves the staged bytes into the cache file.  Whether the
    kernel splices, refuses to splice into this file system or splices only at first, the
    bytes written are a prefix of the pipe's, at the sink's offset and without a gap, the
    sink's offset is behind them, and what was taken out of the pipe and is not accounted for
    is at most one copy buffer.  The two counters grow by exactly the bytes moved, copying
    only after splicing was given up, and a return means all of the bytes. *)
Theorem transfer_pipe_to_file_exact (on_reactor : bool) (script : list Sys) (p : PipeToFile) (length : Z) :
  valid (sink p) -> 0 <= length -> countable p length ->
  let '(p', r) := transfer_pipe_to_file on_reactor script p length in
  exists t n m, filed length p p' t n m /\
    match r with
    | Some (Ok x) => x = length /\ t = length
    | Some (Throw _) => t < length
    | None => True
    end.
Proof.
  intros Hv Hl Hc. destruct (transfer_pipe_to_file _ _ _ _) as [p' r] eqn:E.
  apply pipe_to_file_spec in E; [|done|lia|by rewrite Z.sub_0_r]. by rewrite Z.sub_0_r in E.
Qed.

Definition sample_pipe : PipeToFile := mkPipe (mkSink (lit "abcdef") (lit "0123456789") 2) true 0 0.

Lemma transfer_pipe_to_file_exact_witness :
  let '(p', r) := transfer_pipe_to_file false [Moved 2; Failed EINVAL; Moved 9; Moved 1; Moved 9] sample_pipe 6 in
  exists t n m, filed 6 sample_pipe p' t n m /\
    match r with Some (Ok x) => x = 6 /\ t = 6 | Some (Throw _) => t < 6 | None => True end.
Proof.
  apply (transfer_pipe_to_file_exact false [Moved 2; Failed EINVAL; Moved 9; Moved 1; Moved 9] sample_pipe 6).
  - vm_compute. split; discriminate.
  - lia.
  - vm_compute. split; [discriminate|split; [discriminate|reflexivity]].
Defined.

(** the loops end.  When the bytes are there and each system call moves at least one or is
    interrupted, any number of times, one moving call for each byte makes [receive_all],
    [send_all], [sendfile_exact] and [splice_to_fd_exact] return, two for each byte
    [transfer_pipe_to_file], whichever way it copies; the turns [transfer_pipe_to_file] is
    given are never too few. *)
Theorem exact_loops_terminate (script : list Sys) (length : Z) :
  0 <= length -> Forall progress script -> length <= moves script ->
  (forall s, length <= room s -> (receive_all false script s length).2 = Some (Ok tt) /\
                                 (send_all false script s length).2 = Some (Ok tt)) /\
  (forall s : FileSource, valid s -> length <= room s -> (sendfile_exact script s length).2 = Some (Ok length)) /\
  (forall s : FileSink, valid s -> length <= room s -> (splice_to_fd_exact false script s length).2 = Some (Ok length)) /\
  (forall p, valid (sink p) -> countable p length -> length <= room (sink p) -> 2 * length <= moves script ->
     (transfer_pipe_to_file false script p length).2 = Some (Ok length)) /\
  (forall p fuel, valid (sink p) -> countable p length -> (List.length script < fuel)%nat ->
     pipe_to_file false fuel script p length 0 = transfer_pipe_to_file false script p length).
Proof.
  intros Hl Hp Hm.
  assert (Hdone : forall S (D : Device S) (L : DeviceLaws S) (s : S), valid s -> length <= room s ->
    exists s' rest, transfer script 0 s length 0 = (s', length, Complete, rest)).
  { intros S D L s Hv Hr. destruct (transfer script 0 s length 0) as [[[s' d] stop] rest] eqn:E. pose proof E as E'.
    apply transfer_completes in E as (-> & _); [|done || lia..].
    apply transfer_spec in E' as (n & _ & _ & _ & _ & Hs & _); [|done || lia..].
    rewrite (proj1 Hs eq_refl). eauto. }
  split_and!.
  - intros s Hr. destruct (Hdone _ _ stream_laws s I Hr) as (s' & rest & E).
    unfold receive_all, send_all, io_receive_exact, io_send_exact. by rewrite E, Z.eqb_refl.
  - intros s Hv Hr. destruct (Hdone _ _ _ s Hv Hr) as (s' & rest & E). unfold sendfile_exact. by rewrite E.
  - intros s Hv Hr. destruct (Hdone _ _ _ s Hv Hr) as (s' & rest & E). unfold splice_to_fd_exact, io_call. by rewrite E.
  - intros. apply pipe_to_file_completes; rewrite ?Z.sub_0_r; done || lia.
  - intros. apply pipe_to_file_fuel; rewrite ?Z.sub_0_r; done || lia.
Qed.

Lemma exact_loops_terminate_witness :
  (receive_all false [Failed EINTR; Moved 1; Moved 1; Failed EINTR; Moved 1] (mkStream (lit "abc") []) 3).2 = Some (Ok tt).
Proof.
  apply (exact_loops_terminate [Failed EINTR; Moved 1; Moved 1; Failed EINTR; Moved 1] 3).
  - lia.
  - repeat constructor; vm_compute; discriminate.
  - vm_compute. discriminate.
  - vm_compute. discriminate.
Defined.
