(* ===== verification/OpenRequests.v ===== *)
(** * The lifetime of an open handle

    [OpenHandle::request_state] of [fuse.cpp] counts the references to a handle: one of the
    application, dropped by release, and one of every admitted request and its
    continuations.  Bit 63 closes admission, bit 62 publishes the handle to later callbacks.
    Every operation is one atomic read-modify-write (the constructors of [OpenRequestGuard]
    are compare-and-swap loops), so an execution is a sequence of them in any order. *)

From S2P Require Import Prelude.

Definition kOpenPublished : Z := Z.shiftl 1 62.
Definition kOpenRequestMask : Z := kOpenPublished - 1.
Definition kClosing : Z := Z.shiftl 1 63.

(** ** Operations on [request_state] *)

Definition publish_open_handle (state : Z) : Z := Z.lor state kOpenPublished.

(** [OpenRequestGuard(OpenHandle&)]: a new request. *)
Definition admit_request (state : Z) : result Z :=
  if negb (Z.land state kClosing =? 0) then Throw (SystemError EBADF)
  else if Z.land state kOpenRequestMask =? kOpenRequestMask then Throw (SystemError EOVERFLOW)
  else Ok (u64 (state + 1)).

(** [OpenRequestGuard(const OpenRequestGuard&)]: a continuation of an admitted request. *)
Definition retain_request (state : Z) : result Z :=
  if Z.land state kOpenRequestMask =? kOpenRequestMask then Throw (SystemError EOVERFLOW)
  else Ok (u64 (state + 1)).

(** [drop_open_request]: the new state and whether [release_ready] is called. *)
Definition drop_open_request (previous : Z) : Z * bool :=
  (u64 (previous - 1),
   negb (Z.land previous kClosing =? 0) && (Z.land previous kOpenRequestMask =? 1)).

(** [request_state.fetch_or(closing)] of [ngs3fs_release]. *)
Definition close_handle (state : Z) : Z := Z.lor state kClosing.

(** [handle_optional]: whether a callback may use the handle. *)
Definition handle_published (state : Z) : bool := negb (Z.land state kOpenPublished =? 0).

(** ** Executions *)

(** [guards] are the live [OpenRequestGuard]s, [opened] the application's reference, and
    [retired] counts the calls of [release_ready]. *)
Record HandleLife := mkHandleLife {
  request_state : Z;
  guards : Z;
  opened : bool;
  retired : Z;
}.

Inductive life_step : HandleLife -> HandleLife -> Prop :=
  | step_publish s g o r :
      handle_published s = false -> life_step (mkHandleLife s g o r) (mkHandleLife (publish_open_handle s) g o r)
  | step_admit s g o r s' :
      admit_request s = Ok s' -> life_step (mkHandleLife s g o r) (mkHandleLife s' (g + 1) o r)
  | step_retain s g o r s' :
      0 < g -> retain_request s = Ok s' -> life_step (mkHandleLife s g o r) (mkHandleLife s' (g + 1) o r)
  | step_drop s g o r :
      0 < g -> life_step (mkHandleLife s g o r)
        (mkHandleLife (fst (drop_open_request s)) (g - 1) o (r + Z.b2z (snd (drop_open_request s))))
  | step_close s g r :
      life_step (mkHandleLife s g true r) (mkHandleLife (close_handle s) g true r)
  | step_release s g r :
      Z.land s kClosing <> 0 -> life_step (mkHandleLife s g true r)
        (mkHandleLife (fst (drop_open_request s)) g false (r + Z.b2z (snd (drop_open_request s)))).

Definition new_handle : HandleLife := mkHandleLife 1 0 true 0.
Definition alive (h : HandleLife) : Prop := rtc life_step new_handle h.

(** ** Bits *)

Lemma land_bit x k : 0 <= k -> Z.land x (2 ^ k) = if Z.testbit x k then 2 ^ k else 0.
Proof.
  intros Hk. apply Z.bits_inj'. intros n Hn. rewrite Z.land_spec, Z.pow2_bits_eqb by done.
  destruct (Z.eqb_spec k n) as [->|Hne].
  - rewrite andb_true_r. destruct (Z.testbit x n); [by rewrite Z.pow2_bits_true|by rewrite Z.testbit_0_l].
  - rewrite andb_false_r. destruct (Z.testbit x k); [by rewrite Z.pow2_bits_false|by rewrite Z.testbit_0_l].
Qed.

(** The word with closing bit [c], published bit [p] and count [n]. *)
Definition word (c p : bool) (n : Z) : Z := Z.b2z c * 2 ^ 63 + Z.b2z p * 2 ^ 62 + n.

Section Word.
Context (c p : bool) (n : Z) (Hn : 0 <= n < 2 ^ 62).

Lemma word_mask : Z.land (word c p n) kOpenRequestMask = n.
Proof.
  change kOpenRequestMask with (Z.ones 62). rewrite Z.land_ones by done. unfold word.
  symmetry. apply (Z.mod_unique _ _ (Z.b2z c * 2 + Z.b2z p)); [lia|]. lia.
Qed.

Lemma word_bit k b q r :
  0 <= k -> word c p n = (2 * q + Z.b2z b) * 2 ^ k + r -> 0 <= r < 2 ^ k -> Z.testbit (word c p n) k = b.
Proof.
  intros Hk E Hr. apply Z.b2z_inj. rewrite Z.testbit_spec' by done. rewrite E, Z.div_add_l by lia.
  rewrite (Z.div_small r) by done. rewrite Z.add_0_r, Z.add_comm, Z.mul_comm, Z_mod_plus_full. by destruct b.
Qed.

Lemma word_closing : (Z.land (word c p n) kClosing =? 0) = negb c.
Proof.
  change kClosing with (2 ^ 63). rewrite land_bit by done.
  rewrite (word_bit 63 c 0 (Z.b2z p * 2 ^ 62 + n)); [by destruct c|done|unfold word; lia|destruct p; cbn [Z.b2z]; lia].
Qed.

Lemma word_published : (Z.land (word c p n) kOpenPublished =? 0) = negb p.
Proof.
  change kOpenPublished with (2 ^ 62). rewrite land_bit by done.
  rewrite (word_bit 62 p (Z.b2z c) n); [by destruct p|done|unfold word; lia|done].
Qed.

Lemma word_range : is_u64 (word c p n).
Proof. unfold word. destruct c, p; cbn [Z.b2z]; lia. Qed.

End Word.

Lemma word_close c p n : 0 <= n < 2 ^ 62 -> close_handle (word c p n) = word true p n.
Proof.
  intros Hn. unfold close_handle. pose proof (word_closing c p n Hn) as Hc. destruct c.
  - apply Z.bits_inj'. intros k Hk. rewrite Z.lor_spec. change kClosing with (2 ^ 63). rewrite Z.pow2_bits_eqb by done.
    destruct (Z.eqb_spec 63 k) as [<-|]; [|by rewrite orb_false_r]. rewrite orb_true_r. symmetry.
    apply (word_bit true p n 63 true 0 (Z.b2z p * 2 ^ 62 + n)); [done|unfold word; cbn [Z.b2z]; lia|destruct p; cbn [Z.b2z]; lia].
  - rewrite <- Z.add_nocarry_lor by lia. unfold word. change kClosing with (2 ^ 63). cbn [Z.b2z]. lia.
Qed.

Lemma word_publish c n : 0 <= n < 2 ^ 62 -> publish_open_handle (word c false n) = word c true n.
Proof.
  intros Hn. unfold publish_open_handle. pose proof (word_published c false n Hn).
  rewrite <- Z.add_nocarry_lor by lia. unfold word. change kOpenPublished with (2 ^ 62). cbn [Z.b2z]. lia.
Qed.

(** ** Invariant *)

Definition life_inv (h : HandleLife) : Prop :=
  exists c p, request_state h = word c p (guards h + Z.b2z (opened h)) /\
  0 <= guards h /\ guards h + Z.b2z (opened h) < 2 ^ 62 /\ (opened h = false -> c = true) /\
  retired h = Z.b2z (c && (guards h + Z.b2z (opened h) =? 0)).

Lemma drop_word c p n :
  0 < n < 2 ^ 62 -> drop_open_request (word c p n) = (word c p (n - 1), c && (n =? 1)).
Proof.
  intros Hn. unfold drop_open_request. rewrite word_closing, word_mask, negb_involutive by lia.
  f_equal. pose proof (word_range c p (n - 1) ltac:(lia)). rewrite u64_small; unfold word in *; lia.
Qed.

Lemma life_step_inv h h' : life_inv h -> life_step h h' -> life_inv h'.
Proof.
  intros (c & p & E & G & B & O & R) S.
  assert (Hadd : forall c p n s', retain_request (word c p n) = Ok s' -> 0 <= n < 2 ^ 62 ->
            s' = word c p (n + 1) /\ n + 1 < 2 ^ 62).
  { intros d q n s' Hs Hn. unfold retain_request in Hs. rewrite word_mask in Hs by done.
    change kOpenRequestMask with (2 ^ 62 - 1) in Hs. destruct (Z.eqb_spec n (2 ^ 62 - 1)); [done|]. injection Hs as <-.
    pose proof (word_range d q (n + 1) ltac:(lia)). split; [|lia]. rewrite u64_small; unfold word in *; lia. }
  destruct S as [s g o r Hp|s g o r s' Ha|s g o r s' Hg Ha|s g o r Hg|s g r|s g r Hc]; cbn [request_state guards opened retired] in *; subst s.
  - assert (Hb : 0 <= g + Z.b2z o < 2 ^ 62) by (destruct o; cbn [Z.b2z] in *; lia).
    unfold handle_published in Hp. rewrite word_published, negb_involutive in Hp by done. subst p.
    exists c, true. cbn [request_state guards opened retired]. by rewrite word_publish.
  - assert (Hb : 0 <= g + Z.b2z o < 2 ^ 62) by (destruct o; cbn [Z.b2z] in *; lia).
    unfold admit_request in Ha. rewrite word_closing, negb_involutive in Ha by done. destruct c; [done|].
    destruct (Hadd false p (g + Z.b2z o) s' Ha Hb) as [-> Hlt]. exists false, p. cbn [request_state guards opened retired].
    repeat split; try lia; try done. f_equal. lia.
  - assert (Hb : 0 <= g + Z.b2z o < 2 ^ 62) by (destruct o; cbn [Z.b2z] in *; lia).
    destruct (Hadd c p (g + Z.b2z o) s' Ha Hb) as [-> Hlt]. exists c, p. cbn [request_state guards opened retired].
    repeat split; try lia; try done; [f_equal; lia|]. rewrite R.
    destruct (Z.eqb_spec (g + Z.b2z o) 0); [destruct o; cbn [Z.b2z] in *; lia|].
    destruct (Z.eqb_spec (g + 1 + Z.b2z o) 0); [destruct o; cbn [Z.b2z] in *; lia|]. done.
  - assert (Hb : 0 < g + Z.b2z o < 2 ^ 62) by (destruct o; cbn [Z.b2z] in *; lia).
    rewrite drop_word by done. exists c, p. cbn [request_state guards opened retired fst snd].
    repeat split; try lia; try done; [f_equal; lia|]. rewrite R.
    destruct (Z.eqb_spec (g + Z.b2z o) 0); [lia|]. rewrite andb_false_r. cbn [Z.b2z].
    replace (g - 1 + Z.b2z o =? 0) with (g + Z.b2z o =? 1); [lia|].
    destruct (Z.eqb_spec (g + Z.b2z o) 1), (Z.eqb_spec (g - 1 + Z.b2z o) 0); lia.
  - cbn [Z.b2z] in *. rewrite word_close by lia. exists true, p. cbn [request_state guards opened retired Z.b2z].
    repeat split; try lia; try done. rewrite R. destruct (Z.eqb_spec (g + 1) 0); [lia|]. by rewrite !andb_false_r.
  - cbn [Z.b2z] in *. rewrite drop_word by lia. exists c, p. cbn [request_state guards opened retired fst snd Z.b2z].
    assert (c = true) as -> by (destruct c; [done|]; exfalso; apply Hc; pose proof (word_closing false p (g + 1) ltac:(lia)) as W;
      by apply Z.eqb_eq in W).
    repeat split; try lia; try done; [f_equal; lia|]. rewrite R.
    destruct (Z.eqb_spec (g + 1) 0); [lia|]. cbn. replace (g + 0 =? 0) with (g + 1 =? 1); [lia|].
    destruct (Z.eqb_spec (g + 1) 1), (Z.eqb_spec (g + 0) 0); lia.
Qed.

Lemma alive_inv h : alive h -> life_inv h.
Proof.
  apply (rtc_ind_r life_inv).
  - exists false, false. repeat split; try done; lia.
  - intros x y _ S I. by eapply life_step_inv.
Qed.

(** C33: in every order of publication, admission, continuation, release and completion,
    [release_ready] runs at most once, exactly when the handle was closed and the last
    reference has gone; the count of references never reaches the flag bits; and once the
    handle is closed every new request is refused with [EBADF]. *)
Theorem handle_retired_once h :
  alive h ->
  Z.land (request_state h) kOpenRequestMask = guards h + Z.b2z (opened h) /\
  retired h = (if negb (Z.land (request_state h) kClosing =? 0) && (guards h + Z.b2z (opened h) =? 0) then 1 else 0) /\
  (Z.land (request_state h) kClosing <> 0 -> admit_request (request_state h) = Throw (SystemError EBADF)) /\
  (opened h = false -> Z.land (request_state h) kClosing <> 0).
Proof.
  intros (c & p & E & G & B & O & R)%alive_inv.
  assert (Hb : 0 <= guards h + Z.b2z (opened h) < 2 ^ 62) by (destruct (opened h); cbn [Z.b2z] in *; lia).
  pose proof (word_closing c p _ Hb) as Hc. rewrite E. split; [by rewrite word_mask|]. split; [|split].
  - rewrite Hc, negb_involutive, R. by destruct (c && _).
  - intros Hne. unfold admit_request. destruct (Z.eqb_spec (Z.land (word c p (guards h + Z.b2z (opened h))) kClosing) 0); done.
  - intros Ho. specialize (O Ho). subst c. cbn in Hc. by apply Z.eqb_neq.
Qed.

(** A request is admitted, the handle closed and released; the request's continuation ends
    last and retires the handle. *)
Lemma handle_retired_once_witness : exists h, alive h /\ guards h = 0 /\ retired h = 1.
Proof.
  assert (A : alive (mkHandleLife (word true true 0) 0 false 1)).
  { eapply rtc_l; [apply step_publish; reflexivity|].
    eapply rtc_l; [apply step_admit; vm_compute; reflexivity|].
    eapply rtc_l; [apply step_close|].
    eapply rtc_l; [apply step_release; vm_compute; discriminate|].
    eapply rtc_l; [apply step_drop; reflexivity|]. vm_compute. apply rtc_refl. }
  exists (mkHandleLife (word true true 0) 0 false 1). split; [exact A|]. split; [reflexivity|].
  exact (proj1 (proj2 (handle_retired_once _ A))).
Defined.
