(* ===== verification/OpenFiles.v ===== *)
(** * The registry of open files

    [State::open_files], [State::blocked_paths] and [State::recovery_paths] of [fuse.cpp],
    all guarded by [open_files_mutex]: registering and unregistering open handles, the choice
    between ordinary and passthrough I/O, the path mutation guards of unlink, rename, link and
    truncate, and the move of the readers of a renamed object.  One function is one critical
    section; [register_open_handle] may give up the mutex while it waits for a conflicting
    handle to be released, so it has two. *)

From S2P Require Import Prelude StdText.

(** ** Data *)

Inductive OpenIoMode := OPEN_IO_PENDING | OPEN_IO_NORMAL | OPEN_IO_PASSTHROUGH.

#[export] Instance OpenIoMode_eq_dec : EqDecision OpenIoMode.
Proof. solve_decision. Defined.

(** The fields of [OpenHandle] the registry reads or writes; [closing] is bit 63 of
    [request_state]. *)
Record OpenHandle := mkOpenHandle {
  inode : Z;
  object_path : bytes;
  writable : bool;
  io_mode : OpenIoMode;
  handle_backing_id : Z;
  registered : bool;
  recovery_read : bool;
  closing : bool;
  stale : bool;
}.

#[export] Instance OpenHandle_settable : Settable OpenHandle := fun h =>
  mkOpenHandle (inode h) (object_path h) (writable h) (io_mode h) (handle_backing_id h)
    (registered h) (recovery_read h) (closing h) (stale h).

(** [State::OpenFileState::InodeIoState].  The [size_t] counters count distinct objects in
    memory, so they cannot wrap. *)
Record InodeIoState := mkInodeIoState {
  pending_readers : Z;
  normal_readers : Z;
  passthrough_readers : Z;
  backing_id : Z;
}.

#[export] Instance InodeIoState_settable : Settable InodeIoState := fun m =>
  mkInodeIoState (pending_readers m) (normal_readers m) (passthrough_readers m) (backing_id m).

Definition no_io : InodeIoState := mkInodeIoState 0 0 0 0.

Record OpenFileState := mkOpenFileState {
  handles : list Z;
  inode_io : gmap Z InodeIoState;
  readers : Z;
  writer : bool;
}.

#[export] Instance OpenFileState_settable : Settable OpenFileState := fun o =>
  mkOpenFileState (handles o) (inode_io o) (readers o) (writer o).

Definition no_file : OpenFileState := mkOpenFileState [] ∅ 0 false.

Record BlockedPath := mkBlockedPath { owner : Z; path : bytes; prefix : bool }.

(** [store] maps the address of a handle to it.  [granted] records with which permissions a
    path mutation guard was taken; the source keeps them on the stack of its owner.  [keys]
    gives the request path of the key of each inode that is not detached; the source computes
    it from the tree of inodes. *)
Record Registry := mkRegistry {
  open_files : gmap bytes OpenFileState;
  blocked_paths : list BlockedPath;
  recovery_paths : gset bytes;
  next_handle_id : Z;
  store : gmap Z OpenHandle;
  granted : gmap Z (bool * bool);
  keys : gmap Z bytes;
}.

#[export] Instance Registry_settable : Settable Registry := fun s =>
  mkRegistry (open_files s) (blocked_paths s) (recovery_paths s) (next_handle_id s) (store s) (granted s)
    (keys s).

Definition update_handle (s : Registry) (h : Z) (f : OpenHandle -> OpenHandle) : Registry :=
  s <| store := alter f h (store s) |>.

(** ** Path mutation guards *)

Definition blocked_path_contains (blocked : BlockedPath) (p : bytes) : bool :=
  if prefix blocked then starts_with (path blocked) p else str_eqb p (path blocked).

(** The constructor of [PathMutationGuard]. *)
Definition mutation_guard (s : Registry) (this : Z) (first : bytes) (first_prefix : bool)
    (second : bytes) (second_prefix allow_readers allow_writers : bool) : Registry * result unit :=
  let pending := mkBlockedPath this first first_prefix ::
    match second with [] => [] | _ => [mkBlockedPath this second second_prefix] end in
  if existsb (fun p => existsb (fun b => blocked_path_contains b p) pending)
       (elements (recovery_paths s))
  then (s, Throw (SystemError EBUSY))
  else if existsb (fun '(p, opened) => existsb (fun b => blocked_path_contains b p &&
         ((writer opened && negb allow_writers) || (negb (readers opened =? 0) && negb allow_readers))) pending)
       (map_to_list (open_files s))
  then (s, Throw (SystemError EBUSY))
  else if existsb (fun blocked => existsb (fun b => blocked_path_contains blocked (path b) ||
         blocked_path_contains b (path blocked)) pending) (blocked_paths s)
  then (s, Throw (SystemError EBUSY))
  else (s <| blocked_paths := blocked_paths s ++ pending |>
          <| granted := <[this := (allow_readers, allow_writers)]> (granted s) |>, Ok tt).

(** The destructor. *)
Definition mutation_done (s : Registry) (this : Z) : Registry :=
  s <| blocked_paths := filter (fun b => owner b <> this) (blocked_paths s) |>.

(** ** Registering a handle *)

Definition path_blocked (s : Registry) (p : bytes) : bool :=
  existsb (fun blocked => blocked_path_contains blocked p) (blocked_paths s).

Definition access_conflict (h : OpenHandle) (opened : OpenFileState) : bool :=
  (writable h && (writer opened || negb (readers opened =? 0))) || (negb (writable h) && writer opened).

Definition conflicts (s : Registry) (h : OpenHandle) : bool :=
  match open_files s !! object_path h with
  | None => false
  | Some opened => access_conflict h opened
  end.

Inductive RegisterResult := Registered | Waiting | Refused (errno : Z).

(** What the calls around the registry return: [open_count] of the inode when it is first
    read and when it is incremented, and whether the vector could grow. *)
Record RegisterEnv := { re_count : Z; re_count_now : Z; re_alloc : bool }.

Definition add_pending (m : gmap Z InodeIoState) (i : Z) : gmap Z InodeIoState :=
  let mode := default no_io (m !! i) in <[i := mode <| pending_readers := pending_readers mode + 1 |>]> m.

Definition unused_io (mode : InodeIoState) : bool :=
  (pending_readers mode =? 0) && (normal_readers mode =? 0) && (passthrough_readers mode =? 0).

(** [--mode->second.pending_readers == 0 && ...] with the erasure that follows. *)
Definition drop_pending (m : gmap Z InodeIoState) (i : Z) : gmap Z InodeIoState :=
  match m !! i with
  | None => m
  | Some mode =>
      let mode := mode <| pending_readers := pending_readers mode - 1 |> in
      if unused_io mode then delete i m else <[i := mode]> m
  end.

(** Writing an entry back, erasing it when nobody is left. *)
Definition put_entry (s : Registry) (p : bytes) (opened : OpenFileState) : Registry :=
  s <| open_files := if negb (writer opened) && (readers opened =? 0)
                     then delete p (open_files s) else <[p := opened]> (open_files s) |>.

(** Undoing the insertion of [handle] after a failure. *)
Definition roll_back (opened : OpenFileState) (handle : OpenHandle) : OpenFileState :=
  if writable handle then opened <| writer := false |>
  else opened <| readers := readers opened - 1 |>
              <| inode_io := drop_pending (inode_io opened) (inode handle) |>.

(** From the second check of [recovery_paths] on; also what runs after the wait. *)
Definition register_commit (s : Registry) (env : RegisterEnv) (h : Z) : Registry * RegisterResult :=
  match store s !! h with
  | None => (s, Refused EBADF)
  | Some handle =>
      let p := object_path handle in
      if bool_decide (p ∈ recovery_paths s) && (writable handle || negb (recovery_read handle))
      then (s, Refused EBUSY)
      else if path_blocked s p then (s, Refused EBUSY)
      else
        let opened := default no_file (open_files s !! p) in
        if access_conflict handle opened then (s, Refused EBUSY)
        else if (re_count env =? UINT32_MAX) || (negb (writable handle) && (readers opened =? SIZE_MAX))
        then (s, Refused EMFILE)
        else if next_handle_id s =? UINT64_MAX then (s, Refused EMFILE)
        else
          let opened :=
            if writable handle then opened <| writer := true |>
            else opened <| inode_io := add_pending (inode_io opened) (inode handle) |>
                        <| readers := readers opened + 1 |> in
          if negb (re_alloc env) then (put_entry s p (roll_back opened handle), Refused ENOMEM)
          else
            let opened := opened <| handles := handles opened ++ [h] |> in
            if re_count_now env =? UINT32_MAX
            then (put_entry s p (roll_back (opened <| handles := filter (fun g => g <> h) (handles opened) |>) handle),
                  Refused EMFILE)
            else
              let s := s <| open_files := <[p := opened]> (open_files s) |>
                         <| next_handle_id := next_handle_id s + 1 |> in
              (update_handle s h (fun g => g <| registered := true |>), Registered)
  end.

(** [register_open_handle]: [p] is the path of the inode's key and [recovered] says whether a
    recovery entry has that key. *)
Definition register_open_handle (s : Registry) (env : RegisterEnv) (h i : Z) (p : bytes)
    (recovered wait_for_release : bool) : Registry * RegisterResult :=
  let s := update_handle s h (fun g => g <| inode := i |> <| object_path := p |>) in
  match store s !! h with
  | None => (s, Refused EBADF)
  | Some handle =>
      let recovering := bool_decide (p ∈ recovery_paths s) in
      if recovering && writable handle then (s, Refused EBUSY)
      else
        let s := if recovering && recovered then update_handle s h (fun g => g <| recovery_read := true |>) else s in
        if recovering && negb (recovered || recovery_read handle) then (s, Refused EIO)
        else if path_blocked s p then (s, Refused EBUSY)
        else if conflicts s handle then (s, if wait_for_release then Waiting else Refused EAGAIN)
        else register_commit s env h
  end.

(** ** Passthrough I/O *)

Definition find_open_file (s : Registry) (p : bytes) (h : Z) : option (bytes * OpenFileState) :=
  let search := list_find (fun '(_, o) => h ∈ handles o) (map_to_list (open_files s)) in
  match open_files s !! p with
  | Some o => if bool_decide (h ∈ handles o) then Some (p, o) else snd <$> search
  | None => snd <$> search
  end.

(** [sp_eligible] is the value of [eligible]; [sp_backing] what [fuse_passthrough_open]
    returns (0 on failure). *)
Record SelectEnv := { sp_eligible : bool; sp_backing : Z }.

Definition select_mode (s : Registry) (h : Z) (p : bytes) (o : OpenFileState) (i : Z) (mode : InodeIoState)
    (chosen : OpenIoMode) : Registry :=
  let mode := mode <| pending_readers := pending_readers mode - 1 |> in
  let mode := match chosen with
              | OPEN_IO_PASSTHROUGH => mode <| passthrough_readers := passthrough_readers mode + 1 |>
              | _ => mode <| normal_readers := normal_readers mode + 1 |>
              end in
  let s := s <| open_files := <[p := o <| inode_io := <[i := mode]> (inode_io o) |>]> (open_files s) |> in
  update_handle s h (fun g =>
    match chosen with
    | OPEN_IO_PASSTHROUGH => g <| io_mode := chosen |> <| handle_backing_id := backing_id mode |>
    | _ => g <| io_mode := chosen |>
    end).

Definition select_passthrough_io (s : Registry) (env : SelectEnv) (h : Z) : Registry * result bool :=
  match store s !! h with
  | None => (s, Throw (SystemError EBADF))
  | Some handle =>
      if writable handle || negb (bool_decide (io_mode handle = OPEN_IO_PENDING)) then (s, Ok false)
      else
        match find_open_file s (object_path handle) h with
        | None => (s, Throw (SystemError EBADF))
        | Some (p, o) =>
            match inode_io o !! inode handle with
            | None => (s, Throw LogicError)
            | Some mode =>
                let choose mode chosen := select_mode s h p o (inode handle) mode chosen in
                if pending_readers mode =? 0 then (s, Throw LogicError)
                else if negb (normal_readers mode =? 0) then (choose mode OPEN_IO_NORMAL, Ok false)
                else if negb (sp_eligible env) then
                  if negb (passthrough_readers mode =? 0) then (s, Throw (SystemError EBUSY))
                  else (choose mode OPEN_IO_NORMAL, Ok false)
                else
                  let mode := if backing_id mode =? 0 then mode <| backing_id := sp_backing env |> else mode in
                  if backing_id mode =? 0 then (choose mode OPEN_IO_NORMAL, Ok false)
                  else (choose mode OPEN_IO_PASSTHROUGH, Ok true)
            end
        end
  end.

(** ** Unregistering a handle *)

(** The counter of the handle's mode, floored at zero, and the release of the backing file. *)
Definition left_io (mode : InodeIoState) (how : OpenIoMode) : InodeIoState :=
  let less n := if n =? 0 then n else n - 1 in
  let mode := match how with
              | OPEN_IO_PASSTHROUGH => mode <| passthrough_readers := less (passthrough_readers mode) |>
              | OPEN_IO_NORMAL => mode <| normal_readers := less (normal_readers mode) |>
              | OPEN_IO_PENDING => mode <| pending_readers := less (pending_readers mode) |>
              end in
  if (passthrough_readers mode =? 0) && negb (backing_id mode =? 0) then mode <| backing_id := 0 |> else mode.

Definition leave_mode (m : gmap Z InodeIoState) (i : Z) (how : OpenIoMode) : gmap Z InodeIoState :=
  match m !! i with
  | None => m
  | Some mode => let mode := left_io mode how in if unused_io mode then delete i m else <[i := mode]> m
  end.

Definition unregister_open_handle (s : Registry) (p : bytes) (h : Z) : Registry :=
  match store s !! h, find_open_file s p h with
  | Some handle, Some (q, o) =>
      let o := o <| handles := filter (fun g => g <> h) (handles o) |> in
      let o :=
        if writable handle then o <| writer := false |>
        else if negb (readers o =? 0)
        then o <| readers := readers o - 1 |>
               <| inode_io := leave_mode (inode_io o) (inode handle) (io_mode handle) |>
        else o in
      put_entry s q o
  | _, _ => s
  end.

(** ** Renaming an object with open readers *)

Definition is_closing (s : Registry) (h : Z) : bool :=
  match store s !! h with Some g => closing g | None => false end.

Definition reader_snapshot_matches (s : Registry) (current snapshot : list Z) : bool :=
  forallb (fun h => bool_decide (h ∈ snapshot) || is_closing s h) current &&
  forallb (fun h => bool_decide (h ∈ current) || is_closing s h) snapshot.

Definition update_handles (s : Registry) (hs : list Z) (f : OpenHandle -> OpenHandle) : Registry :=
  fold_left (fun s h => update_handle s h f) hs s.

(** [try_emplace] into the destination, or the sums; [None] when the exception is thrown. *)
Definition merge_io (destination : InodeIoState) (source : InodeIoState) : option InodeIoState :=
  if negb (backing_id destination =? 0) && negb (backing_id source =? 0) &&
     negb (backing_id destination =? backing_id source)
  then None
  else Some (mkInodeIoState (pending_readers destination + pending_readers source)
               (normal_readers destination + normal_readers source)
               (passthrough_readers destination + passthrough_readers source)
               (if backing_id destination =? 0 then backing_id source else backing_id destination)).

Fixpoint merge_ios (destination : gmap Z InodeIoState) (source : list (Z * InodeIoState))
    : gmap Z InodeIoState * bool :=
  match source with
  | [] => (destination, true)
  | (i, mode) :: rest =>
      match destination !! i with
      | None => merge_ios (<[i := mode]> destination) rest
      | Some old =>
          match merge_io old mode with
          | None => (destination, false)
          | Some new => merge_ios (<[i := new]> destination) rest
          end
      end
  end.

Definition finish_open_file_rename (s : Registry) (source_path destination_path : bytes)
    (destination_preserved : bool) (source_handles : list Z) : Registry * result unit :=
  let destination := open_files s !! destination_path in
  let s := match destination with
           | Some d => if destination_preserved then s
                       else update_handles s (handles d) (fun g => g <| stale := true |>)
           | None => s
           end in
  match open_files s !! source_path with
  | None => (s, if reader_snapshot_matches s [] source_handles then Ok tt else Throw LogicError)
  | Some source =>
      if negb (reader_snapshot_matches s (handles source) source_handles) then (s, Throw LogicError)
      else
        let s := update_handles s (filter (fun h => h ∈ source_handles) (handles source))
                   (fun g => g <| object_path := destination_path |>) in
        match destination with
        | None =>
            (s <| open_files := <[destination_path := source]> (delete source_path (open_files s)) |>, Ok tt)
        | Some d =>
            let d := d <| handles := handles d ++ handles source |> <| readers := readers d + readers source |> in
            let '(io, fine) := merge_ios (inode_io d) (map_to_list (inode_io source)) in
            let d := d <| inode_io := io |> in
            if negb fine then (s <| open_files := <[destination_path := d]> (open_files s) |>, Throw LogicError)
            else
              let d := d <| writer := writer d || writer source |> in
              (s <| open_files := delete source_path (<[destination_path := d]> (open_files s)) |>, Ok tt)
        end
  end.

(** [remove_item] and [move_cached_item] at the end of a rename: the inode of the destination is
    detached and that of the source takes its place. *)
Definition rename_keys (source_path destination_path : bytes) (ks : gmap Z bytes) : gmap Z bytes :=
  omap (fun k => if str_eqb k destination_path then None
                 else Some (if str_eqb k source_path then destination_path else k)) ks.

(** ** Invariant of an entry *)

#[local] Arguments zsum : simpl never.

Definition is_reader (st : gmap Z OpenHandle) (h : Z) : Z :=
  match st !! h with Some g => if writable g then 0 else 1 | None => 0 end.

Definition in_mode (st : gmap Z OpenHandle) (i : Z) (k : OpenIoMode) (h : Z) : Z :=
  match st !! h with
  | Some g => if negb (writable g) && (inode g =? i) && bool_decide (io_mode g = k) then 1 else 0
  | None => 0
  end.

(** The mode counters of inode [i] are exact, an inode is never read in both modes, and its
    backing file is registered exactly while passthrough readers use it. *)
Record io_ok (st : gmap Z OpenHandle) (hs : list Z) (io : gmap Z InodeIoState) (i : Z) : Prop := {
  io_pending : pending_readers (default no_io (io !! i)) = zsum (in_mode st i OPEN_IO_PENDING) hs;
  io_normal : normal_readers (default no_io (io !! i)) = zsum (in_mode st i OPEN_IO_NORMAL) hs;
  io_passthrough : passthrough_readers (default no_io (io !! i)) = zsum (in_mode st i OPEN_IO_PASSTHROUGH) hs;
  io_exclusive : normal_readers (default no_io (io !! i)) = 0 \/ passthrough_readers (default no_io (io !! i)) = 0;
  io_backing : backing_id (default no_io (io !! i)) <> 0 <-> 0 < passthrough_readers (default no_io (io !! i));
  io_handles : forall h g, h ∈ hs -> st !! h = Some g -> writable g = false -> inode g = i ->
    io_mode g = OPEN_IO_PASSTHROUGH -> handle_backing_id g = backing_id (default no_io (io !! i));
  io_present : forall m, io !! i = Some m -> 0 < pending_readers m + normal_readers m + passthrough_readers m;
}.

(** One writer, or readers only. *)
Definition access_ok (st : gmap Z OpenHandle) (o : OpenFileState) : Prop :=
  if writer o then exists h g, handles o = [h] /\ st !! h = Some g /\ writable g = true
  else forall h, h ∈ handles o -> exists g, st !! h = Some g /\ writable g = false.

Record entry_sound (st : gmap Z OpenHandle) (o : OpenFileState) : Prop := {
  es_nodup : NoDup (handles o);
  es_access : access_ok st o;
  es_readers : readers o = zsum (is_reader st) (handles o);
  es_io : forall i, io_ok st (handles o) (inode_io o) i;
}.

Definition entry_ok (st : gmap Z OpenHandle) (o : OpenFileState) : Prop :=
  entry_sound st o /\ handles o <> [].

Definition reg_view (g : OpenHandle) : Z * bool * OpenIoMode * Z :=
  (inode g, writable g, io_mode g, handle_backing_id g).

(** The registry looks at these fields of its handles only. *)
Lemma entry_frame st st' o :
  (forall h, h ∈ handles o -> reg_view <$> st !! h = reg_view <$> st' !! h) -> entry_sound st o -> entry_sound st' o.
Proof.
  intros Hv [E1 E2 E3 E4].
  assert (Hg : forall h g', h ∈ handles o -> st' !! h = Some g' -> exists g, st !! h = Some g /\ reg_view g = reg_view g').
  { intros h g' Hh Hs. specialize (Hv h Hh). rewrite Hs in Hv. destruct (st !! h) as [g|]; [|done].
    exists g. split; [done|]. exact (inj Some _ _ Hv). }
  assert (Hg' : forall h g, h ∈ handles o -> st !! h = Some g -> exists g', st' !! h = Some g' /\ reg_view g = reg_view g').
  { intros h g Hh Hs. specialize (Hv h Hh). rewrite Hs in Hv. destruct (st' !! h) as [g'|]; [|done].
    exists g'. split; [done|]. exact (inj Some _ _ Hv). }
  assert (Hr : forall h, h ∈ handles o -> is_reader st h = is_reader st' h).
  { intros h Hh. unfold is_reader. specialize (Hv h Hh). destruct (st !! h) as [g|], (st' !! h) as [g'|]; try done.
    injection Hv as ? -> ? ?. done. }
  assert (Hm : forall i k h, h ∈ handles o -> in_mode st i k h = in_mode st' i k h).
  { intros i k h Hh. unfold in_mode. specialize (Hv h Hh). destruct (st !! h) as [g|], (st' !! h) as [g'|]; try done.
    injection Hv as -> -> -> ?. done. }
  constructor; [done| |by rewrite E3; apply zsum_ext|].
  - unfold access_ok in *. destruct (writer o).
    + destruct E2 as (h & g & Eh & Hs & Hw). destruct (Hg' h g) as (g' & Hs' & Hw'); [rewrite Eh; set_solver|done|].
      exists h, g'. injection Hw' as _ Hw' _ _. by rewrite <- Hw'.
    + intros h Hh. destruct (E2 h Hh) as (g & Hs & Hw). destruct (Hg' h g Hh Hs) as (g' & Hs' & Hw').
      exists g'. injection Hw' as _ Hw' _ _. by rewrite <- Hw'.
  - intros i. destruct (E4 i) as [I1 I2 I3 I4 I5 I6 I7]. constructor; try done.
    + rewrite I1. apply zsum_ext. auto.
    + rewrite I2. apply zsum_ext. auto.
    + rewrite I3. apply zsum_ext. auto.
    + intros h g' Hh Hs' Hw Hi Hmode. destruct (Hg h g' Hh Hs') as (g & Hs & Hv'). injection Hv' as H1 H2 H3 H4.
      rewrite <- H4. apply (I6 h g); congruence.
Qed.

Lemma no_file_sound st : entry_sound st no_file.
Proof.
  constructor; cbn; [constructor|by intros h ?%not_elem_of_nil|done|].
  intros i. constructor; cbn; rewrite ?lookup_empty; try done; try (by left); try (split; done).
  by intros ? ? ?%not_elem_of_nil.
Qed.

Lemma readers_length st o : entry_sound st o -> writer o = false -> readers o = vsize (handles o).
Proof.
  intros [_ A R _] Hw. unfold access_ok in A. rewrite Hw in A. rewrite R. clear R Hw.
  induction (handles o) as [|h l IH]; [done|]. rewrite zsum_cons, IH by set_solver.
  destruct (A h) as (g & Hg & Hr); [set_solver|]. unfold is_reader. rewrite Hg, Hr. unfold vsize; cbn; lia.
Qed.

Lemma entry_empty st o : entry_sound st o -> negb (writer o) && (readers o =? 0) = bool_decide (handles o = []).
Proof.
  intros E. destruct (writer o) eqn:Hw; cbn.
  - destruct E as [_ A _ _]. unfold access_ok in A. rewrite Hw in A. destruct A as (h & g & -> & _). done.
  - rewrite (readers_length st o) by done. unfold vsize. destruct (handles o); [done|].
    rewrite bool_decide_eq_false_2 by done. by apply Z.eqb_neq.
Qed.

(** A handle of another inode does not matter. *)
Lemma in_mode_other st i k h g : st !! h = Some g -> inode g <> i -> in_mode st i k h = 0.
Proof. intros Hs Hi. unfold in_mode. rewrite Hs. destruct (Z.eqb_spec (inode g) i); [done|]. by rewrite andb_false_r. Qed.

Lemma in_mode_writer st i k h g : st !! h = Some g -> writable g = true -> in_mode st i k h = 0.
Proof. intros Hs Hw. unfold in_mode. by rewrite Hs, Hw. Qed.

Lemma in_mode_self st i k h g :
  st !! h = Some g -> writable g = false -> inode g = i ->
  in_mode st i k h = if bool_decide (io_mode g = k) then 1 else 0.
Proof. intros Hs Hw Hi. unfold in_mode. by rewrite Hs, Hw, Hi, Z.eqb_refl. Qed.

Lemma in_mode_nonneg st i k h : 0 <= in_mode st i k h.
Proof. unfold in_mode. repeat case_match; lia. Qed.

Lemma io_nonneg st hs io i :
  io_ok st hs io i -> 0 <= pending_readers (default no_io (io !! i)) /\
  0 <= normal_readers (default no_io (io !! i)) /\ 0 <= passthrough_readers (default no_io (io !! i)).
Proof.
  intros [-> -> -> _ _ _ _]. repeat split; apply zsum_nonneg; intros; apply in_mode_nonneg.
Qed.

(** The entry with the handle added, but for the vector. *)
Definition joined (o : OpenFileState) (g : OpenHandle) : OpenFileState :=
  if writable g then o <| writer := true |>
  else o <| inode_io := add_pending (inode_io o) (inode g) |> <| readers := readers o + 1 |>.

Lemma io_join st hs io i h g :
  io_ok st hs io i -> st !! h = Some g -> writable g = false -> io_mode g = OPEN_IO_PENDING ->
  io_ok st (hs ++ [h]) (add_pending io (inode g)) i.
Proof.
  intros I Hs Hw Hm. pose proof (io_nonneg _ _ _ _ I) as Hn. destruct I as [I1 I2 I3 I4 I5 I6 I7].
  assert (Hz : forall k, zsum (in_mode st i k) (hs ++ [h]) = zsum (in_mode st i k) hs + in_mode st i k h).
  { intros k. rewrite zsum_app, zsum_cons. change (zsum (in_mode st i k) []) with 0. lia. }
  assert (H6 : forall m g', backing_id m = backing_id (default no_io (io !! i)) -> forall h', h' ∈ hs ++ [h] -> st !! h' = Some g' ->
            writable g' = false -> inode g' = i -> io_mode g' = OPEN_IO_PASSTHROUGH -> handle_backing_id g' = backing_id m).
  { intros m g' -> h' [Hh| ->%list_elem_of_singleton]%elem_of_app; [by eauto|]. congruence. }
  unfold add_pending. destruct (decide (inode g = i)) as [Hi|Hi].
  - rewrite Hi. assert (Hk := fun k => in_mode_self st i k h g Hs Hw Hi). rewrite Hm in Hk.
    constructor; rewrite ?lookup_insert_eq, ?Hz, ?Hk; cbn; repeat case_bool_decide; try done; try lia.
    + intros h' g' Hh'. by apply (H6 (default no_io (io !! i)) g' eq_refl h' Hh').
    + intros m [= <-]. cbn. lia.
  - assert (Hk := fun k => in_mode_other st i k h g Hs Hi).
    constructor; rewrite ?lookup_insert_ne, ?Hz, ?Hk, ?Z.add_0_r by done; try done.
    intros h' g' Hh'. by apply (H6 (default no_io (io !! i)) g' eq_refl h' Hh').
Qed.

Lemma entry_join st o h g :
  entry_sound st o -> h ∉ handles o -> st !! h = Some g -> io_mode g = OPEN_IO_PENDING ->
  access_conflict g o = false ->
  entry_ok st (joined o g <| handles := handles o ++ [h] |>).
Proof.
  intros E Hh Hs Hm Hc. unfold access_conflict in Hc. bool_case.
  split; [|cbn; by destruct (handles o)]. unfold joined. destruct (writable g) eqn:Hw; cbn in *.
  - destruct (writer o) eqn:Hwo; [done|]. cbn in *. bool_case.
    assert (Hnil : handles o = []).
    { pose proof (readers_length st o E Hwo) as Hl. destruct (handles o); [done|]. unfold vsize in Hl. cbn in Hl. lia. }
    destruct E as [E1 E2 E3 E4]. rewrite Hnil in *. constructor; cbn.
    + apply NoDup_singleton.
    + exists h, g. by rewrite ?Hw.
    + rewrite E3, zsum_cons. unfold is_reader. rewrite Hs, Hw. done.
    + intros i. destruct (E4 i) as [I1 I2 I3 I4 I5 I6 I7]. constructor; try done.
      all: rewrite ?zsum_cons, ?(in_mode_writer _ _ _ _ g); try done.
      intros h' g' ->%list_elem_of_singleton. congruence.
  - destruct E as [E1 E2 E3 E4]. constructor; cbn.
    + apply NoDup_app. split; [done|]. split; [|apply NoDup_singleton]. set_solver.
    + unfold access_ok in *; cbn. rewrite H0 in *. intros h' [Hh'| ->%list_elem_of_singleton]%elem_of_app; eauto.
    + rewrite zsum_app, zsum_cons, <- E3. unfold is_reader. rewrite Hs, Hw. done.
    + intros i. by apply io_join.
Qed.

(** Undoing an insertion gives the entry back as it was. *)
Lemma roll_back_joined st o g : entry_sound st o -> access_conflict g o = false -> roll_back (joined o g) g = o.
Proof.
  intros E Hc. unfold access_conflict in Hc. bool_case. unfold roll_back, joined.
  destruct (writable g) eqn:Hw; cbn in *; destruct o as [hs io r w]; cbn in *.
  - destruct w; done.
  - change (mkOpenFileState hs (drop_pending (add_pending io (inode g)) (inode g)) (r + 1 - 1) w = mkOpenFileState hs io r w).
    replace (r + 1 - 1) with r by lia. f_equal. unfold drop_pending, add_pending, unused_io. rewrite lookup_insert_eq. cbn.
    pose proof (io_nonneg _ _ _ _ (es_io _ _ E (inode g))) as Hn. cbn in Hn.
    destruct (io !! inode g) as [m|] eqn:Em; cbn in *.
    + pose proof (io_present _ _ _ _ (es_io _ _ E (inode g)) m Em) as Hp. destruct m as [a b c d]; cbn in *.
      replace (a + 1 - 1) with a by lia.
      destruct (Z.eqb_spec a 0), (Z.eqb_spec b 0), (Z.eqb_spec c 0); cbn; try lia; rewrite insert_insert_eq; by apply insert_id.
    + by rewrite delete_insert_id.
Qed.

(** ** Leaving an entry *)

Definition left_entry (o : OpenFileState) (h : Z) (g : OpenHandle) : OpenFileState :=
  let o := o <| handles := filter (fun x => x <> h) (handles o) |> in
  if writable g then o <| writer := false |>
  else if negb (readers o =? 0)
  then o <| readers := readers o - 1 |> <| inode_io := leave_mode (inode_io o) (inode g) (io_mode g) |>
  else o.

(** What is left of an inode's modes once one of its readers has gone. *)
Lemma left_io_spec mode how :
  0 <= pending_readers mode -> 0 <= normal_readers mode -> 0 <= passthrough_readers mode ->
  (normal_readers mode = 0 \/ passthrough_readers mode = 0) ->
  (backing_id mode <> 0 <-> 0 < passthrough_readers mode) ->
  (0 < match how with OPEN_IO_PENDING => pending_readers mode | OPEN_IO_NORMAL => normal_readers mode
       | OPEN_IO_PASSTHROUGH => passthrough_readers mode end) ->
  let n := left_io mode how in
  pending_readers n = pending_readers mode - (if bool_decide (how = OPEN_IO_PENDING) then 1 else 0) /\
  normal_readers n = normal_readers mode - (if bool_decide (how = OPEN_IO_NORMAL) then 1 else 0) /\
  passthrough_readers n = passthrough_readers mode - (if bool_decide (how = OPEN_IO_PASSTHROUGH) then 1 else 0) /\
  (normal_readers n = 0 \/ passthrough_readers n = 0) /\
  (backing_id n <> 0 <-> 0 < passthrough_readers n) /\
  (0 < passthrough_readers n -> backing_id n = backing_id mode) /\
  (unused_io n = true -> n = no_io).
Proof.
  destruct mode as [a b c d]; cbn. intros Ha Hb Hc He Hd Hh. cbn zeta. unfold left_io, unused_io.
  destruct how; cbn in *;
    repeat match goal with |- context [?x =? 0] => destruct (Z.eqb_spec x 0); cbn; try lia end;
    repeat case_bool_decide; cbn; try done; repeat split; try lia; try done; intros;
    unfold no_io; subst; try done; try lia.
  all: match goal with H : _ - 1 = 0 |- _ => rewrite H end; done.
Qed.

Lemma io_leave st hs io i h g :
  io_ok st hs io i -> NoDup hs -> h ∈ hs -> st !! h = Some g -> writable g = false ->
  io_ok st (filter (fun x => x <> h) hs) (leave_mode io (inode g) (io_mode g)) i.
Proof.
  intros I Hd Hh Hs Hw. pose proof (io_nonneg _ _ _ _ I) as (N1 & N2 & N3). destruct I as [I1 I2 I3 I4 I5 I6 I7].
  assert (Hz := fun k => zsum_erase (in_mode st i k) hs h Hd Hh).
  assert (Hsub : forall x, x ∈ filter (fun x => x <> h) hs -> x ∈ hs) by (intros x [_ ?]%list_elem_of_filter; done).
  destruct (decide (inode g = i)) as [Hi|Hi].
  - assert (Hk := fun k => in_mode_self st i k h g Hs Hw Hi).
    assert (Hp : in_mode st i (io_mode g) h <= zsum (in_mode st i (io_mode g)) hs).
    { apply zsum_elem; [|done]. intros; apply in_mode_nonneg. }
    rewrite (Hk (io_mode g)), bool_decide_eq_true_2 in Hp by done.
    destruct (left_io_spec (default no_io (io !! i)) (io_mode g) N1 N2 N3 I4 I5)
      as (L1 & L2 & L3 & L4 & L5 & L6 & L7); [destruct (io_mode g); lia|].
    assert (Hdef : default no_io (leave_mode io (inode g) (io_mode g) !! i) = left_io (default no_io (io !! i)) (io_mode g)).
    { rewrite Hi. unfold leave_mode. destruct (io !! i) as [m|] eqn:Em; cbn in *; [|destruct (io_mode g); lia].
      destruct (unused_io (left_io m (io_mode g))) eqn:Eu; [by rewrite lookup_delete_eq, L7|by rewrite lookup_insert_eq]. }
    constructor; rewrite ?Hdef; try done; try (rewrite Hz, Hk; lia).
    + intros x y Hx Hy Hwy Hiy Hmy. rewrite L6; [eauto|]. rewrite L3, I3.
      assert (Hxz : in_mode st i OPEN_IO_PASSTHROUGH x <= zsum (in_mode st i OPEN_IO_PASSTHROUGH) (filter (fun x => x <> h) hs)).
      { apply zsum_elem; [|done]. intros; apply in_mode_nonneg. }
      rewrite Hz, Hk, (in_mode_self st i _ x y), Hmy, bool_decide_eq_true_2 in Hxz by done. lia.
    + intros m Hm. rewrite Hm in Hdef. cbn in Hdef. rewrite Hi in Hm. unfold leave_mode in Hm.
      destruct (io !! i) as [m0|] eqn:Em; [|congruence]. cbn in Hdef. rewrite <- Hdef in Hm.
      destruct (unused_io m) eqn:Eu; [by rewrite lookup_delete_eq in Hm|]. unfold unused_io in Eu.
      cbn in *. rewrite <- Hdef in *. destruct (Z.eqb_spec (pending_readers m) 0), (Z.eqb_spec (normal_readers m) 0),
        (Z.eqb_spec (passthrough_readers m) 0); try done; destruct (io_mode g); repeat case_bool_decide; try done; lia.
  - assert (Hk := fun k => in_mode_other st i k h g Hs Hi).
    assert (Hl : leave_mode io (inode g) (io_mode g) !! i = io !! i).
    { unfold leave_mode. repeat case_match; rewrite ?lookup_insert_ne, ?lookup_delete_ne by done; done. }
    constructor; rewrite ?Hl, ?Hz, ?Hk, ?Z.sub_0_r; try done. intros x y Hx%Hsub. by apply I6.
Qed.

Lemma reader_entry st o h g :
  entry_sound st o -> h ∈ handles o -> st !! h = Some g -> writable g = false -> writer o = false.
Proof.
  intros E Hh Hs Hw. destruct (writer o) eqn:Hwo; [|done]. destruct E as [_ A _ _].
  unfold access_ok in A. rewrite Hwo in A. destruct A as (x & y & Ex & Hx & Hy).
  rewrite Ex in Hh. apply list_elem_of_singleton in Hh as ->. congruence.
Qed.

Lemma writer_entry st o h g :
  entry_sound st o -> h ∈ handles o -> st !! h = Some g -> writable g = true -> writer o = true /\ handles o = [h].
Proof.
  intros E Hh Hs Hw. destruct E as [_ A _ _]. unfold access_ok in A. destruct (writer o) eqn:Hwo.
  - destruct A as (x & y & Ex & Hx & Hy). split; [done|]. rewrite Ex in *. by apply list_elem_of_singleton in Hh as ->.
  - destruct (A h Hh) as (y & Hy & Hwy). congruence.
Qed.

Lemma entry_leave st o h g :
  entry_sound st o -> h ∈ handles o -> st !! h = Some g -> entry_sound st (left_entry o h g).
Proof.
  intros E Hh Hs. pose proof E as [E1 E2 E3 E4]. unfold left_entry. destruct (writable g) eqn:Hw.
  - destruct (writer_entry st o h g E Hh Hs Hw) as [Hwo Eh].
    change (entry_sound st (mkOpenFileState (filter (fun x => x <> h) (handles o)) (inode_io o) (readers o) false)).
    rewrite Eh, filter_cons_False, filter_nil by tauto. rewrite Eh in E3, E4. constructor; cbn.
    + constructor.
    + by intros x ?%not_elem_of_nil.
    + rewrite E3, zsum_cons. unfold is_reader. rewrite Hs, Hw. done.
    + intros i. destruct (E4 i) as [I1 I2 I3 I4 I5 I6 I7].
      assert (Hk := fun k => in_mode_writer st i k h g Hs Hw). rewrite zsum_cons, Hk in I1.
      rewrite zsum_cons, Hk in I2. rewrite zsum_cons, Hk in I3.
      constructor; try done. by intros ? ? ?%not_elem_of_nil.
  - pose proof (reader_entry st o h g E Hh Hs Hw) as Hwo.
    assert (Hr : readers o <> 0).
    { rewrite (readers_length st o E Hwo). destruct (handles o); [by apply not_elem_of_nil in Hh|]. unfold vsize; cbn; lia. }
    cbn. destruct (Z.eqb_spec (readers o) 0); [done|]. cbn. constructor; cbn.
    + by apply NoDup_filter.
    + unfold access_ok in *; cbn. rewrite Hwo in *. intros x [_ Hx]%list_elem_of_filter. by apply E2.
    + rewrite zsum_erase, <- E3 by done. unfold is_reader. by rewrite Hs, Hw.
    + intros i. by apply io_leave.
Qed.

(** ** Choosing a mode *)

Lemma zsum_point (f f' : Z -> Z) l h :
  NoDup l -> h ∈ l -> (forall x, x <> h -> f' x = f x) -> zsum f' l = zsum f l - f h + f' h.
Proof.
  intros Hd Hh Hf. pose proof (zsum_erase f l h Hd Hh). pose proof (zsum_erase f' l h Hd Hh).
  assert (zsum f' (filter (fun x => x <> h) l) = zsum f (filter (fun x => x <> h) l)).
  { apply zsum_ext. intros x [Hx _]%list_elem_of_filter. auto. }
  lia.
Qed.

Definition chosen_io (mode : InodeIoState) (chosen : OpenIoMode) : InodeIoState :=
  let mode := mode <| pending_readers := pending_readers mode - 1 |> in
  match chosen with
  | OPEN_IO_PASSTHROUGH => mode <| passthrough_readers := passthrough_readers mode + 1 |>
  | _ => mode <| normal_readers := normal_readers mode + 1 |>
  end.

Definition chosen_handle (g : OpenHandle) (chosen : OpenIoMode) (backing : Z) : OpenHandle :=
  match chosen with
  | OPEN_IO_PASSTHROUGH => g <| io_mode := chosen |> <| handle_backing_id := backing |>
  | _ => g <| io_mode := chosen |>
  end.

(** The choice is consistent: nobody reads the inode in the other mode, and a passthrough
    reader has a backing file. *)
Definition choice_ok (old mode : InodeIoState) (chosen : OpenIoMode) : Prop :=
  pending_readers mode = pending_readers old /\ normal_readers mode = normal_readers old /\
  passthrough_readers mode = passthrough_readers old /\
  match chosen with
  | OPEN_IO_PENDING => False
  | OPEN_IO_NORMAL => passthrough_readers old = 0 /\ backing_id mode = 0
  | OPEN_IO_PASSTHROUGH =>
      normal_readers old = 0 /\ backing_id mode <> 0 /\ (0 < passthrough_readers old -> backing_id mode = backing_id old)
  end.

Lemma io_choose st o h g mode chosen i :
  entry_sound st o -> h ∈ handles o -> st !! h = Some g -> writable g = false -> io_mode g = OPEN_IO_PENDING ->
  choice_ok (default no_io (inode_io o !! inode g)) mode chosen ->
  io_ok (<[h := chosen_handle g chosen (backing_id mode)]> st) (handles o)
    (<[inode g := chosen_io mode chosen]> (inode_io o)) i.
Proof.
  intros E Hh Hs Hw Hm (C1 & C2 & C3 & C4). pose proof (es_nodup _ _ E) as Hd.
  pose proof (es_io _ _ E i) as I. pose proof (io_nonneg _ _ _ _ I) as (N1 & N2 & N3).
  destruct I as [I1 I2 I3 I4 I5 I6 I7]. set (g' := chosen_handle g chosen (backing_id mode)).
  assert (Hg' : writable g' = false /\ inode g' = inode g /\ io_mode g' = chosen).
  { unfold g', chosen_handle. destruct chosen; done. }
  destruct Hg' as (G1 & G2 & G3).
  assert (Hz : forall k, zsum (in_mode (<[h := g']> st) i k) (handles o) =
            zsum (in_mode st i k) (handles o) - in_mode st i k h + in_mode (<[h := g']> st) i k h).
  { intros k. apply zsum_point; [done|done|]. intros x Hx. unfold in_mode. by rewrite lookup_insert_ne. }
  assert (Hother : forall x y, x <> h -> <[h := g']> st !! x = Some y -> st !! x = Some y).
  { intros x y Hx. by rewrite lookup_insert_ne. }
  destruct (decide (inode g = i)) as [Hi|Hi].
  - assert (Hk := fun k => in_mode_self st i k h g Hs Hw Hi).
    assert (Hk' := fun k => in_mode_self (<[h := g']> st) i k h g' ltac:(by apply lookup_insert_eq) G1 ltac:(congruence)).
    rewrite Hm in Hk. rewrite G3 in Hk'. rewrite Hi in C1, C2, C3, C4 |- *.
    assert (Hp : in_mode st i OPEN_IO_PENDING h <= zsum (in_mode st i OPEN_IO_PENDING) (handles o)).
    { apply zsum_elem; [|done]. intros; apply in_mode_nonneg. }
    rewrite Hk, bool_decide_eq_true_2 in Hp by done.
    assert (Hpass : forall x, x ∈ handles o -> in_mode st i OPEN_IO_PASSTHROUGH x <= passthrough_readers (default no_io (inode_io o !! i))).
    { intros x Hx. rewrite I3. apply zsum_elem; [|done]. intros; apply in_mode_nonneg. }
    destruct chosen; [done| |];
      (constructor; rewrite ?lookup_insert_eq, ?Hz, ?Hk, ?Hk'; cbn; repeat case_bool_decide; try done; try lia;
       [ intros x y Hx Hy Hwy Hiy Hmy; destruct (decide (x = h)) as [->|Hne];
         [rewrite lookup_insert_eq in Hy; injection Hy as <-; try done; congruence|];
         apply Hother in Hy; [|done]; specialize (Hpass x Hx);
         rewrite (in_mode_self st i _ x y), Hmy, bool_decide_eq_true_2 in Hpass by done;
         specialize (I6 x y Hx Hy Hwy Hiy Hmy); destruct_and?; first [lia | rewrite C4; lia | idtac]
       | intros ? [= <-]; cbn; lia ]).
  - assert (Hk := fun k => in_mode_other st i k h g Hs Hi).
    assert (Hk' := fun k => in_mode_other (<[h := g']> st) i k h g' ltac:(by apply lookup_insert_eq) ltac:(congruence)).
    constructor; rewrite ?lookup_insert_ne, ?Hz, ?Hk, ?Hk', ?Z.sub_0_r, ?Z.add_0_r by done; try done.
    intros x y Hx Hy Hwy Hiy. destruct (decide (x = h)) as [->|Hne].
    + rewrite lookup_insert_eq in Hy. injection Hy as <-. congruence.
    + apply Hother in Hy; [|done]. exact (I6 x y Hx Hy Hwy Hiy).
Qed.

Lemma entry_choose st o h g mode chosen :
  entry_sound st o -> h ∈ handles o -> st !! h = Some g -> writable g = false -> io_mode g = OPEN_IO_PENDING ->
  choice_ok (default no_io (inode_io o !! inode g)) mode chosen ->
  entry_sound (<[h := chosen_handle g chosen (backing_id mode)]> st)
    (o <| inode_io := <[inode g := chosen_io mode chosen]> (inode_io o) |>).
Proof.
  intros E Hh Hs Hw Hm Hc. pose proof E as [E1 E2 E3 E4]. pose proof (reader_entry st o h g E Hh Hs Hw) as Hwo.
  assert (Hg : writable (chosen_handle g chosen (backing_id mode)) = false) by (destruct chosen; done).
  constructor; cbn; [done| | |by intros i; apply io_choose].
  - unfold access_ok in *; cbn. rewrite Hwo in *. intros x Hx. destruct (decide (x = h)) as [->|Hne].
    + rewrite lookup_insert_eq. eauto.
    + rewrite lookup_insert_ne by done. auto.
  - rewrite E3. apply zsum_ext. intros x Hx. unfold is_reader. destruct (decide (x = h)) as [->|Hne].
    + by rewrite lookup_insert_eq, Hs, Hw, Hg.
    + by rewrite lookup_insert_ne by done.
Qed.

(** ** Merging the entries of a rename *)

Lemma io_merge st a b ioa iob i :
  io_ok st a ioa i -> io_ok st b iob i -> (ioa !! i = None \/ iob !! i = None) ->
  io_ok st (a ++ b) (ioa ∪ iob) i.
Proof.
  intros A B Hd. assert (Hz : forall k, zsum (in_mode st i k) (a ++ b) = zsum (in_mode st i k) a + zsum (in_mode st i k) b)
    by (intros; apply zsum_app).
  assert (Hpos : forall hs io k h, io_ok st hs io i -> h ∈ hs -> io !! i = None -> in_mode st i k h <= 0).
  { intros hs io k h [I1 I2 I3 _ _ _ _] Hh Hn. rewrite Hn in *. cbn in *.
    assert (in_mode st i k h <= zsum (in_mode st i k) hs) by (apply zsum_elem; [intros; apply in_mode_nonneg|done]).
    destruct k; lia. }
  assert (Hno : forall hs io h g, io_ok st hs io i -> h ∈ hs -> io !! i = None -> st !! h = Some g ->
            writable g = false -> inode g = i -> io_mode g = OPEN_IO_PASSTHROUGH -> False).
  { intros hs io h g I Hh Hn Hs Hw Hi Hm. pose proof (Hpos hs io OPEN_IO_PASSTHROUGH h I Hh Hn) as Hle.
    rewrite (in_mode_self st i _ h g), Hm, bool_decide_eq_true_2 in Hle by done. lia. }
  assert (Hu : (ioa ∪ iob) !! i = if ioa !! i is Some _ then ioa !! i else iob !! i).
  { destruct (ioa !! i) as [m|] eqn:E; [by apply lookup_union_Some_l|by rewrite lookup_union_r]. }
  destruct (ioa !! i) as [m|] eqn:Ea.
  - destruct Hd as [|Eb]; [done|]. pose proof B as [B1 B2 B3 _ _ _ _]. rewrite Eb in *. cbn in *.
    pose proof A as [A1 A2 A3 A4 A5 A6 A7]. rewrite Ea in *. constructor; rewrite ?Hu, ?Hz; cbn in *; try done; try lia.
    intros h g [Hh|Hh]%elem_of_app ????; [eauto|]. by destruct (Hno b iob h g).
  - pose proof A as [A1 A2 A3 _ _ _ _]. pose proof B as [B1 B2 B3 B4 B5 B6 B7]. rewrite Ea in *.
    constructor; rewrite ?Hu, ?Hz; cbn in *; try done; try lia.
    intros h g [Hh|Hh]%elem_of_app ????; [|eauto]. by destruct (Hno a ioa h g).
Qed.

Lemma merge_ios_disjoint (io : gmap Z InodeIoState) l :
  (forall i m, (i, m) ∈ l -> io !! i = None) -> NoDup l.*1 -> merge_ios io l = (list_to_map l ∪ io, true).
Proof.
  revert io. induction l as [|[i m] l IH]; intros io Hn Hd; cbn in *; [by rewrite (left_id_L ∅ (∪))|].
  apply NoDup_cons in Hd as [Hi Hd]. rewrite (Hn i m) by set_solver. rewrite IH; [|..|done].
  - f_equal. rewrite <- insert_union_r; [by rewrite insert_union_l|]. by apply not_elem_of_list_to_map_1.
  - intros j n Hj. rewrite lookup_insert_ne; [apply (Hn j n); set_solver|]. intros ->. apply Hi.
    by apply (list_elem_of_fmap_2 fst _ (j, n)).
Qed.

Lemma entry_merge st a b :
  entry_ok st a -> entry_ok st b -> (forall h, h ∈ handles a -> h ∉ handles b) ->
  writer a = false -> writer b = false ->
  (forall i, inode_io a !! i = None \/ inode_io b !! i = None) ->
  entry_ok st (mkOpenFileState (handles a ++ handles b) (inode_io b ∪ inode_io a) (readers a + readers b) (writer a || writer b)).
Proof.
  intros [[A1 A2 A3 A4] Na] [[B1 B2 B3 B4] Nb] Hd Wa Wb Hi. rewrite Wa, Wb. split; [|cbn; by destruct (handles a)].
  unfold access_ok in A2, B2. rewrite Wa in A2. rewrite Wb in B2. constructor; cbn.
  - apply NoDup_app. auto.
  - unfold access_ok; cbn. intros h [?|?]%elem_of_app; auto.
  - by rewrite zsum_app, A3, B3.
  - intros i. rewrite map_union_comm by (apply map_disjoint_spec; intros j x y Hx Hy; destruct (Hi j); congruence).
    apply io_merge; auto.
Qed.

(** ** Invariant of the registry *)

Record reg_inv (s : Registry) : Prop := {
  ri_entries : forall p o, open_files s !! p = Some o -> entry_ok (store s) o;
  ri_disjoint : forall p q o u h, open_files s !! p = Some o -> open_files s !! q = Some u ->
    h ∈ handles o -> h ∈ handles u -> p = q;
  ri_guards : forall a b p, a ∈ blocked_paths s -> b ∈ blocked_paths s ->
    blocked_path_contains a p = true -> blocked_path_contains b p = true -> owner a = owner b;
  ri_granted : forall b p o, b ∈ blocked_paths s -> blocked_path_contains b p = true ->
    open_files s !! p = Some o ->
    exists ar aw, granted s !! owner b = Some (ar, aw) /\ (writer o = true -> aw = true) /\ (readers o <> 0 -> ar = true);
}.

(** Two guards that cover a common path show it in the test of the constructor. *)
Lemma blocked_overlap a b p :
  blocked_path_contains a p = true -> blocked_path_contains b p = true ->
  blocked_path_contains a (path b) || blocked_path_contains b (path a) = true.
Proof.
  assert (Heq : forall x y, str_eqb x y = true -> x = y) by (intros x y; by destruct (str_eqb_spec x y)).
  unfold blocked_path_contains. intros Ha Hb. apply orb_true_iff.
  destruct (prefix a), (prefix b); rewrite ?starts_with_spec in *.
  - destruct Ha as [x Hx], Hb as [y Hy]. rewrite Hx in Hy.
    destruct (app_eq_inv _ _ _ _ Hy) as [(k & -> & _)|(k & -> & _)]; eauto.
  - apply Heq in Hb. left. by subst p.
  - apply Heq in Ha. right. by subst p.
  - apply Heq in Ha, Hb. left. rewrite <- Ha, <- Hb. apply str_eqb_refl.
Qed.

Definition unlisted (s : Registry) (h : Z) : Prop := forall p o, open_files s !! p = Some o -> h ∉ handles o.

Lemma registry_store_frame s st :
  reg_inv s -> (forall p o h, open_files s !! p = Some o -> h ∈ handles o -> reg_view <$> store s !! h = reg_view <$> st !! h) ->
  reg_inv (s <| store := st |>).
Proof.
  intros [I1 I2 I3 I4] Hv. constructor; cbn; try done. intros p o Ho. destruct (I1 p o Ho) as [E N].
  split; [|done]. eapply entry_frame; [|done]. eauto.
Qed.

Lemma update_frame s h f :
  reg_inv s -> (unlisted s h \/ forall g, reg_view (f g) = reg_view g) -> reg_inv (update_handle s h f).
Proof.
  intros I Hf. apply registry_store_frame; [done|]. intros p o x Ho Hx.
  destruct (decide (x = h)) as [->|Hne]; [|by rewrite lookup_alter_ne].
  destruct Hf as [Hu|Hf]; [by destruct (Hu p o)|]. rewrite lookup_alter_eq. destruct (store s !! h) as [g|]; [|done].
  cbn. by rewrite <- (Hf g).
Qed.

Lemma updates_frame s hs f :
  reg_inv s -> (forall g, reg_view (f g) = reg_view g) ->
  reg_inv (update_handles s hs f) /\ open_files (update_handles s hs f) = open_files s /\
  blocked_paths (update_handles s hs f) = blocked_paths s /\ granted (update_handles s hs f) = granted s.
Proof.
  intros I Hf. unfold update_handles. revert s I. induction hs as [|h hs IH]; intros s I; cbn; [done|].
  destruct (IH (update_handle s h f)) as (H1 & H2 & H3 & H4); [apply update_frame; auto|].
  by rewrite H2, H3, H4.
Qed.

(** What the guards over [p] allow for the entry [o]. *)
Definition allowed_entry (s : Registry) (p : bytes) (o : OpenFileState) : Prop :=
  forall b, b ∈ blocked_paths s -> blocked_path_contains b p = true ->
  exists ar aw, granted s !! owner b = Some (ar, aw) /\ (writer o = true -> aw = true) /\ (readers o <> 0 -> ar = true).

(** Replacing the entry of [p], with the handles kept apart. *)
Lemma insert_inv s p o :
  reg_inv s -> entry_ok (store s) o ->
  (forall q u h, q <> p -> open_files s !! q = Some u -> h ∈ handles o -> h ∉ handles u) -> allowed_entry s p o ->
  reg_inv (s <| open_files := <[p := o]> (open_files s) |>).
Proof.
  intros [I1 I2 I3 I4] E Hd Ha. constructor; cbn; try done.
  - intros q u [[-> <-]|[Hne Hu]]%lookup_insert_Some; eauto.
  - intros q r u v h [[<- <-]|[Hq Hu]]%lookup_insert_Some [[<- <-]|[Hr Hv]]%lookup_insert_Some Hh Hh'; try done; eauto.
    + by destruct (Hd r v h).
    + by destruct (Hd q u h).
  - intros b q u Hb Hc [[<- <-]|[Hq Hu]]%lookup_insert_Some; eauto.
Qed.

Lemma delete_inv s p : reg_inv s -> reg_inv (s <| open_files := delete p (open_files s) |>).
Proof.
  intros [I1 I2 I3 I4]. constructor; cbn; try done.
  - intros q u [_ Hu]%lookup_delete_Some. eauto.
  - intros q r u v h [_ Hu]%lookup_delete_Some [_ Hv]%lookup_delete_Some. eauto.
  - intros b q u Hb Hc [_ Hu]%lookup_delete_Some. eauto.
Qed.

(** An unblocked path may hold any entry. *)
Lemma unblocked_entry s p o : path_blocked s p = false -> allowed_entry s p o.
Proof.
  intros Hb b Hin Hc. assert (path_blocked s p = true) as E; [|congruence].
  apply existsb_exists. exists b. split; [by apply list_elem_of_In|done].
Qed.

Lemma find_open_file_spec s p h q o :
  find_open_file s p h = Some (q, o) -> open_files s !! q = Some o /\ h ∈ handles o.
Proof.
  assert (Hs : snd <$> list_find (fun '(_, o) => h ∈ handles o) (map_to_list (open_files s)) = Some (q, o) ->
            open_files s !! q = Some o /\ h ∈ handles o).
  { intros ([i [q' o']] & (Hl & Hp & _)%list_find_Some & [= -> ->])%fmap_Some. split; [|done].
    apply elem_of_map_to_list. by eapply list_elem_of_lookup_2. }
  unfold find_open_file. destruct (open_files s !! p) as [u|] eqn:E; [|done].
  case_bool_decide; [|done]. intros [= <- <-]. done.
Qed.

(** ** Each operation preserves the invariant *)

Lemma put_entry_inv s p o :
  reg_inv s -> entry_sound (store s) o ->
  (forall q u h, q <> p -> open_files s !! q = Some u -> h ∈ handles o -> h ∉ handles u) -> allowed_entry s p o ->
  reg_inv (put_entry s p o).
Proof.
  intros I E Hd Ha. unfold put_entry. rewrite (entry_empty (store s) o E).
  case_bool_decide as Hn; [by apply delete_inv|by apply insert_inv].
Qed.

(** A failed registration leaves the files as they were. *)
Lemma roll_back_same s p g :
  reg_inv s -> access_conflict g (default no_file (open_files s !! p)) = false ->
  put_entry s p (roll_back (joined (default no_file (open_files s !! p)) g) g) = s.
Proof.
  intros I Hc. set (o := default no_file (open_files s !! p)) in *.
  assert (E : entry_sound (store s) o).
  { unfold o. destruct (open_files s !! p) as [u|] eqn:Ep; [by apply (ri_entries _ I p)|apply no_file_sound]. }
  rewrite (roll_back_joined (store s)) by done. unfold put_entry. rewrite (entry_empty (store s)) by done.
  destruct s as [f b r n st gr ks]; cbn in *. unfold o in *. destruct (f !! p) as [u|] eqn:Ep; cbn in *.
  - destruct (ri_entries _ I p u Ep) as [_ Hn]. rewrite bool_decide_eq_false_2 by done.
    by rewrite insert_id.
  - by rewrite delete_id.
Qed.

Lemma register_commit_spec s env h s' r :
  reg_inv s -> unlisted s h -> register_commit s env h = (s', r) ->
  (r = Registered /\ exists g, store s !! h = Some g /\ path_blocked s (object_path g) = false /\
     let o := default no_file (open_files s !! object_path g) in
     access_conflict g o = false /\
     s' = update_handle (s <| open_files := <[object_path g := joined o g <| handles := handles o ++ [h] |>]> (open_files s) |>
                           <| next_handle_id := next_handle_id s + 1 |>) h (fun g => g <| registered := true |>)) \/
  (r <> Registered /\ s' = s).
Proof.
  intros I Hu. unfold register_commit. destruct (store s !! h) as [g|] eqn:Hs; [|intros [= <- <-]; by right].
  cbn zeta. destruct (_ && _); [intros [= <- <-]; by right|].
  destruct (path_blocked s (object_path g)) eqn:Hb; [intros [= <- <-]; by right|].
  destruct (access_conflict g _) eqn:Hc; [intros [= <- <-]; by right|].
  destruct (_ || _); [intros [= <- <-]; by right|]. destruct (next_handle_id s =? _); [intros [= <- <-]; by right|].
  change (if writable g then ?a else ?b) with (joined (default no_file (open_files s !! object_path g)) g).
  destruct (negb (re_alloc env)).
  { intros [= <- <-]. right. split; [done|]. by apply roll_back_same. }
  set (o := default no_file (open_files s !! object_path g)) in *.
  assert (Hh : h ∉ handles o).
  { unfold o. destruct (open_files s !! object_path g) as [u|] eqn:Ep; [by apply (Hu _ _ Ep)|apply not_elem_of_nil]. }
  assert (Ej : handles (joined o g) = handles o) by (unfold joined; by destruct (writable g)).
  destruct (re_count_now env =? UINT32_MAX).
  - intros [= <- <-]. right. split; [done|].
    rewrite <- (roll_back_same s (object_path g) g I Hc) at 2. fold o. f_equal. f_equal.
    assert (Hf : filter (fun x => x <> h) (handles (joined o g) ++ [h]) = handles (joined o g)).
    { rewrite Ej, filter_app, filter_cons_False, filter_nil, app_nil_r by tauto. by apply erase_absent. }
    cbn. rewrite Hf. by destruct (joined o g).
  - intros [= <- <-]. left. split; [done|]. exists g. rewrite Ej. done.
Qed.

Lemma register_commit_inv s env h g :
  reg_inv s -> unlisted s h -> store s !! h = Some g -> io_mode g = OPEN_IO_PENDING ->
  reg_inv (fst (register_commit s env h)).
Proof.
  intros I Hu Hs Hm. destruct (register_commit s env h) as [s' r] eqn:E; cbn.
  destruct (register_commit_spec s env h s' r I Hu E) as [(_ & g' & Hs' & Hb & Hc & ->)|[_ ->]]; [|done].
  rewrite Hs in Hs'. injection Hs' as <-. set (o := default no_file (open_files s !! object_path g)) in *.
  apply update_frame; [|by right]. set (s1 := s <| next_handle_id := next_handle_id s + 1 |>).
  change (reg_inv (s1 <| open_files := <[object_path g := joined o g <| handles := handles o ++ [h] |>]> (open_files s1) |>)).
  assert (Hh : h ∉ handles o).
  { unfold o. destruct (open_files s !! object_path g) as [u|] eqn:Ep; [by apply (Hu _ _ Ep)|apply not_elem_of_nil]. }
  assert (Eo : entry_sound (store s) o).
  { unfold o. destruct (open_files s !! object_path g) as [u|] eqn:Ep; [by apply (ri_entries _ I _ _ Ep)|apply no_file_sound]. }
  apply insert_inv; [by destruct I|by apply entry_join| |by apply unblocked_entry].
  cbn. intros q u x Hq Hq' [Hx| ->%list_elem_of_singleton]%elem_of_app; [|by apply (Hu q)].
  unfold o in Hx. destruct (open_files s !! object_path g) as [v|] eqn:Ep; [|by apply not_elem_of_nil in Hx].
  intros Hx'. apply Hq. by eapply (ri_disjoint _ I q (object_path g) u v x).
Qed.

Lemma register_inv s env h i p recovered wait g :
  reg_inv s -> unlisted s h -> store s !! h = Some g -> io_mode g = OPEN_IO_PENDING ->
  reg_inv (fst (register_open_handle s env h i p recovered wait)).
Proof.
  intros I Hu Hs Hm. unfold register_open_handle.
  set (s1 := update_handle s h _). assert (I1 : reg_inv s1) by (apply update_frame; auto).
  assert (Hs1 : store s1 !! h = Some (g <| inode := i |> <| object_path := p |>)) by (cbn; by rewrite lookup_alter_eq, Hs).
  rewrite Hs1. destruct (_ && writable _); [done|].
  set (s2 := if _ && recovered then _ else s1).
  assert (H2 : reg_inv s2 /\ unlisted s2 h /\ exists g2, store s2 !! h = Some g2 /\ io_mode g2 = OPEN_IO_PENDING).
  { unfold s2. destruct (_ && recovered).
    - split; [apply update_frame; auto|]. split; [done|]. cbn. rewrite lookup_alter_eq, lookup_alter_eq, Hs. cbn. eauto.
    - split; [done|]. split; [done|]. eauto. }
  destruct H2 as (I2 & Hu2 & g2 & Hs2 & Hm2).
  destruct (_ && negb _); [done|]. destruct (path_blocked s2 p); [done|]. destruct (conflicts s2 _); [done|].
  by eapply register_commit_inv.
Qed.

Lemma choose_inv s h g q o mode chosen :
  reg_inv s -> store s !! h = Some g -> writable g = false -> io_mode g = OPEN_IO_PENDING ->
  open_files s !! q = Some o -> h ∈ handles o ->
  choice_ok (default no_io (inode_io o !! inode g)) mode chosen ->
  reg_inv (select_mode s h q o (inode g) mode chosen).
Proof.
  intros I Hs Hw Hm Hq Hh Hc. destruct (ri_entries _ I q o Hq) as [Eo Hn].
  set (st := <[h := chosen_handle g chosen (backing_id mode)]> (store s)).
  set (o' := o <| inode_io := <[inode g := chosen_io mode chosen]> (inode_io o) |>).
  assert (Hst : store (select_mode s h q o (inode g) mode chosen) = st).
  { unfold select_mode, st, chosen_handle. cbn. destruct chosen; cbn;
      apply map_eq; intros x; (destruct (decide (x = h)) as [->|Hne];
        [by rewrite lookup_alter_eq, lookup_insert_eq, Hs|by rewrite lookup_alter_ne, lookup_insert_ne]). }
  assert (Hsel : select_mode s h q o (inode g) mode chosen = s <| store := st |> <| open_files := <[q := o']> (open_files s) |>).
  { rewrite <- Hst. unfold select_mode, o', chosen_io, update_handle. destruct chosen; done. }
  rewrite Hsel. constructor; cbn.
  - intros p u [[<- <-]|[Hne Hu]]%lookup_insert_Some.
    + split; [by apply entry_choose|done].
    + destruct (ri_entries _ I p u Hu) as [Eu Nu]. split; [|done]. eapply entry_frame; [|done]. intros x Hx.
      unfold st. rewrite lookup_insert_ne; [done|]. intros ->. apply Hne. by eapply (ri_disjoint _ I q p o u x).
  - intros p r u v x [[<- <-]|[Hp Hu]]%lookup_insert_Some [[<- <-]|[Hr Hv]]%lookup_insert_Some Hx Hx'; try done.
    + by eapply (ri_disjoint _ I q r o v x).
    + by eapply (ri_disjoint _ I p q u o x).
    + by eapply (ri_disjoint _ I p r u v x).
  - apply (ri_guards _ I).
  - intros b p u Hb Hcov [[<- <-]|[Hne Hu]]%lookup_insert_Some; [by apply (ri_granted _ I b q o)|by apply (ri_granted _ I b p u)].
Qed.

Lemma select_inv s env h : reg_inv s -> reg_inv (fst (select_passthrough_io s env h)).
Proof.
  intros I. unfold select_passthrough_io. destruct (store s !! h) as [g|] eqn:Hs; [|done].
  destruct (writable g) eqn:Hw; [done|]. cbn [orb]. case_bool_decide as Hm; [|done]. cbn [negb].
  destruct (find_open_file s (object_path g) h) as [[q o]|] eqn:Hf; [|done].
  destruct (find_open_file_spec _ _ _ _ _ Hf) as [Hq Hh].
  destruct (inode_io o !! inode g) as [mode|] eqn:Hmode; [|done].
  pose proof (es_io _ _ (proj1 (ri_entries _ I q o Hq)) (inode g)) as Hio.
  pose proof (io_nonneg _ _ _ _ Hio) as (N1 & N2 & N3). destruct Hio as [_ _ _ I4 I5 _ _].
  rewrite Hmode in *. cbn in N1, N2, N3, I4, I5.
  destruct (Z.eqb_spec (pending_readers mode) 0); [done|].
  assert (Hchoose : forall m k, choice_ok mode m k -> reg_inv (select_mode s h q o (inode g) m k)).
  { intros m k Hk. eapply choose_inv; try done. by rewrite Hmode. }
  destruct (Z.eqb_spec (normal_readers mode) 0); cbn [negb].
  - destruct (sp_eligible env); cbn [negb].
    + destruct (Z.eqb_spec (backing_id mode) 0) as [Hb|Hb].
      * cbn. destruct (Z.eqb_spec (sp_backing env) 0); cbn; apply Hchoose; cbn; repeat split; try done; try lia.
      * cbn. destruct (Z.eqb_spec (backing_id mode) 0); [done|]. cbn. apply Hchoose; cbn; repeat split; try done; try lia; done.
    + destruct (Z.eqb_spec (passthrough_readers mode) 0); cbn; [|done]. apply Hchoose; cbn; repeat split; try done; try lia.
  - cbn. apply Hchoose; cbn; repeat split; try done; try lia.
Qed.

Lemma unregister_inv s p h : reg_inv s -> reg_inv (unregister_open_handle s p h).
Proof.
  intros I. unfold unregister_open_handle. destruct (store s !! h) as [g|] eqn:Hs; [|done].
  destruct (find_open_file s p h) as [[q o]|] eqn:Hf; [|done].
  destruct (find_open_file_spec _ _ _ _ _ Hf) as [Hq Hh]. destruct (ri_entries _ I q o Hq) as [Eo Hn].
  change (reg_inv (put_entry s q (left_entry o h g))).
  assert (Hsub : forall x, x ∈ handles (left_entry o h g) -> x ∈ handles o).
  { intros x. unfold left_entry. repeat case_match; cbn; by intros [_ ?]%list_elem_of_filter. }
  apply put_entry_inv; [done|by apply entry_leave| |].
  - intros r u x Hr Hu Hx%Hsub Hx'. apply Hr. by eapply (ri_disjoint _ I r q u o x).
  - intros b Hb Hc. destruct (ri_granted _ I b q o Hb Hc Hq) as (ar & aw & Hg & Hwr & Hrd). exists ar, aw.
    split; [done|]. unfold left_entry. repeat case_match; cbn in *; bool_case; split; try done; intros; apply Hrd; lia.
Qed.

Lemma guard_inv s this first fp second sp ar aw :
  reg_inv s -> (forall b, b ∈ blocked_paths s -> owner b <> this) ->
  reg_inv (fst (mutation_guard s this first fp second sp ar aw)).
Proof.
  intros I Hf. unfold mutation_guard. set (pending := _ :: _). destruct (existsb _ (elements _)); [done|].
  destruct (existsb _ (map_to_list _)) eqn:Hopen; [done|]. destruct (existsb _ (blocked_paths s)) eqn:Hblock; [done|]. cbn.
  assert (Hown : forall b, b ∈ pending -> owner b = this) by (intros b; unfold pending; destruct second; set_solver).
  assert (Hex : forall {A} (f : A -> bool) l x, existsb f l = false -> x ∈ l -> f x = false).
  { intros A f l x He Hx. apply not_true_iff_false. intros Ht. rewrite <- not_true_iff_false, existsb_exists in He.
    apply He. exists x. split; [by apply list_elem_of_In|done]. }
  assert (Hnew : forall a b p, a ∈ pending -> b ∈ blocked_paths s -> blocked_path_contains a p = true ->
            blocked_path_contains b p = true -> False).
  { intros a b p Ha Hb Hca Hcb. pose proof (Hex _ _ _ b Hblock Hb) as He. cbv beta iota in He.
    pose proof (Hex _ _ _ a He Ha) as He'. cbv beta in He'. rewrite (blocked_overlap b a p) in He' by done. done. }
  constructor; cbn.
  - apply (ri_entries _ I).
  - apply (ri_disjoint _ I).
  - intros a b p [Ha|Ha]%elem_of_app [Hb|Hb]%elem_of_app Hca Hcb.
    + by apply (ri_guards _ I a b p).
    + by destruct (Hnew b a p).
    + by destruct (Hnew a b p).
    + by rewrite !Hown.
  - intros b p o [Hb|Hb]%elem_of_app Hc Hp.
    + rewrite lookup_insert_ne by (by apply not_eq_sym, Hf). by apply (ri_granted _ I b p o).
    + rewrite Hown, lookup_insert_eq by done. exists ar, aw. split; [done|].
      pose proof (Hex _ _ _ (p, o) Hopen ltac:(by apply elem_of_map_to_list)) as He. cbv beta iota in He.
      pose proof (Hex _ _ _ b He Hb) as He'. cbv beta in He'. rewrite Hc in He'. cbn [andb] in He'. bool_case.
      destruct (writer o), aw, ar; cbn in *; try done; split; try done; intros Hr; by destruct (Z.eqb_spec (readers o) 0).
Qed.

Lemma done_inv s this : reg_inv s -> reg_inv (mutation_done s this).
Proof.
  intros [I1 I2 I3 I4]. constructor; cbn; try done.
  - intros a b p [_ Ha]%list_elem_of_filter [_ Hb]%list_elem_of_filter. eauto.
  - intros b p o [_ Hb]%list_elem_of_filter. eauto.
Qed.

(** The guard [this] covers both paths and was not taken over a writer. *)
Definition rename_ready (s : Registry) (this : Z) (source_path destination_path : bytes) : Prop :=
  source_path <> destination_path /\ (exists ar, granted s !! this = Some (ar, false)) /\
  (exists a, a ∈ blocked_paths s /\ owner a = this /\ blocked_path_contains a source_path = true) /\
  (exists b, b ∈ blocked_paths s /\ owner b = this /\ blocked_path_contains b destination_path = true).

(** The entries of the two paths belong to different inodes. *)
Definition apart (s : Registry) (source_path destination_path : bytes) : Prop :=
  forall so d i, open_files s !! source_path = Some so -> open_files s !! destination_path = Some d ->
    inode_io so !! i = None \/ inode_io d !! i = None.

(** Moving an entry, merged with what is there, under one guard. *)
Lemma move_inv s this src dst so o :
  reg_inv s -> src <> dst -> (exists ar, granted s !! this = Some (ar, false)) ->
  (exists a, a ∈ blocked_paths s /\ owner a = this /\ blocked_path_contains a src = true) ->
  (exists b, b ∈ blocked_paths s /\ owner b = this /\ blocked_path_contains b dst = true) ->
  open_files s !! src = Some so -> entry_ok (store s) o -> writer o = false ->
  (forall h, h ∈ handles o -> h ∈ handles so \/ exists d, open_files s !! dst = Some d /\ h ∈ handles d) ->
  reg_inv (s <| open_files := <[dst := o]> (delete src (open_files s)) |>).
Proof.
  intros I Hne (ar & Hg) (a & Ha & Oa & Ca) (b & Hb & Ob & Cb) Hso Ho Hw Hin.
  set (s1 := s <| open_files := delete src (open_files s) |>). assert (I1 : reg_inv s1) by by apply delete_inv.
  change (reg_inv (s1 <| open_files := <[dst := o]> (open_files s1) |>)). apply insert_inv; [done|done| |].
  - intros q u h Hq Hu. change (delete src (open_files s) !! q = Some u) in Hu.
    apply lookup_delete_Some in Hu as [Hsq Hu]. intros Hh Hh'. destruct (Hin h Hh) as [Hh2|(d & Hd & Hh2)].
    + apply Hsq. by eapply (ri_disjoint _ I src q so u h).
    + apply Hq. by eapply (ri_disjoint _ I q dst u d h).
  - intros c Hc Cc. assert (owner c = this) as -> by (rewrite <- Ob; by apply (ri_guards _ I c b dst)).
    exists ar, false. split; [done|]. split; [by rewrite Hw|]. intros _.
    destruct (ri_granted _ I a src so Ha Ca Hso) as (ar' & aw' & Hg' & Hwr & Hrd). rewrite Oa, Hg in Hg'.
    injection Hg' as <- <-. destruct (ri_entries _ I src so Hso) as [Es Ns].
    pose proof (entry_empty _ _ Es) as He. rewrite bool_decide_eq_false_2 in He by done.
    destruct (writer so) eqn:Hws; [by specialize (Hwr eq_refl)|]. apply Hrd. cbn in He. by apply Z.eqb_neq.
Qed.

Lemma rename_inv s this src dst preserved snapshot :
  reg_inv s -> rename_ready s this src dst -> apart s src dst ->
  reg_inv (fst (finish_open_file_rename s src dst preserved snapshot)).
Proof.
  intros I (Hne & Hg & Ha & Hb) Hio. unfold apart in Hio. unfold finish_open_file_rename.
  set (s1 := match open_files s !! dst with Some d => _ | None => s end).
  assert (H1 : reg_inv s1 /\ open_files s1 = open_files s /\ blocked_paths s1 = blocked_paths s /\ granted s1 = granted s).
  { unfold s1. destruct (open_files s !! dst); [destruct preserved; [done|]|done]. by apply updates_frame. }
  destruct H1 as (I1 & F1 & B1 & G1). rewrite F1.
  destruct (open_files s !! src) as [so|] eqn:Hso; [|done].
  destruct (negb (reader_snapshot_matches _ _ _)); [done|]. cbn zeta.
  set (s2 := update_handles s1 _ _).
  assert (H2 : reg_inv s2 /\ open_files s2 = open_files s1 /\ blocked_paths s2 = blocked_paths s1 /\ granted s2 = granted s1)
    by by apply updates_frame.
  destruct H2 as (I2 & F2 & B2 & G2). rewrite F1 in F2. rewrite B1 in B2. rewrite G1 in G2.
  rewrite <- F2 in Hso. rewrite <- B2 in Ha, Hb. rewrite <- G2 in Hg.
  assert (Hwriter : forall p o, (exists a, a ∈ blocked_paths s2 /\ owner a = this /\ blocked_path_contains a p = true) ->
            open_files s2 !! p = Some o -> writer o = false).
  { intros p o (a & Hin & Oa & Ca) Hp. destruct (ri_granted _ I2 a p o Hin Ca Hp) as (ar & aw & Hg' & Hw & _).
    rewrite Oa in Hg'. destruct Hg as [ar' Hg]. rewrite Hg in Hg'. injection Hg' as <- <-.
    destruct (writer o); [by specialize (Hw eq_refl)|done]. }
  pose proof (ri_entries _ I2 src so Hso) as Eso. pose proof (Hwriter src so Ha Hso) as Wso.
  destruct (open_files s !! dst) as [d|] eqn:Hd; cbn; rewrite <- F2 in Hd.
  - pose proof (ri_entries _ I2 dst d Hd) as Ed. pose proof (Hwriter dst d Hb Hd) as Wd.
    rewrite merge_ios_disjoint; [|..|apply NoDup_fst_map_to_list].
    2: { intros i m Him%elem_of_map_to_list. destruct (Hio so d i eq_refl eq_refl); congruence. }
    cbn. rewrite list_to_map_to_list. rewrite delete_insert_ne by done.
    apply (move_inv s2 this src dst so); try done.
    + apply (entry_merge (store s2) d so Ed Eso); try done.
      * intros h Hh Hh'. apply Hne. by eapply (ri_disjoint _ I2 src dst so d h).
      * intros i. destruct (Hio so d i eq_refl eq_refl); auto.
    + cbn. by rewrite Wd, Wso.
    + cbn. intros h [?|?]%elem_of_app; eauto.
  - apply (move_inv s2 this src dst so); try done. auto.
Qed.

(** ** The paths of an inode *)

(** A handle of the inode [i] is registered under [p]. *)
Definition at_path (s : Registry) (p : bytes) (i : Z) : Prop :=
  exists o h g, open_files s !! p = Some o /\ h ∈ handles o /\ store s !! h = Some g /\ inode g = i.

Record key_inv (s : Registry) : Prop := {
  ki_key : forall p i, at_path s p i -> keys s !! i = None \/ keys s !! i = Some p;
  ki_single : forall p q i, at_path s p i -> at_path s q i -> p = q;
}.

Lemma key_frame s s' :
  key_inv s -> keys s' = keys s -> (forall p i, at_path s' p i -> at_path s p i) -> key_inv s'.
Proof.
  intros [K1 K2] Hk Ha. split; [intros p i; rewrite Hk; eauto|eauto].
Qed.

(** Fewer handles, whose inodes are what they were. *)
Lemma at_path_frame s s' :
  (forall p o', open_files s' !! p = Some o' -> exists o, open_files s !! p = Some o /\ forall h, h ∈ handles o' -> h ∈ handles o) ->
  (forall p o h g, open_files s !! p = Some o -> h ∈ handles o -> store s' !! h = Some g ->
     exists g0, store s !! h = Some g0 /\ inode g = inode g0) ->
  forall p i, at_path s' p i -> at_path s p i.
Proof.
  intros Hf Hs p i (o' & h & g & Ho & Hh & Hg & <-). destruct (Hf p o' Ho) as (o & Ho0 & Hsub).
  destruct (Hs p o h g Ho0 (Hsub h Hh) Hg) as (g0 & Hg0 & ->). exists o, h, g0. auto.
Qed.

Lemma update_key s h f :
  key_inv s -> (unlisted s h \/ forall g, inode (f g) = inode g) -> key_inv (update_handle s h f).
Proof.
  intros K Hf. apply (key_frame s); [done|done|]. apply at_path_frame; [eauto|].
  intros p o x g Ho Hx Hg. cbn in Hg. destruct (decide (x = h)) as [->|Hne]; [|rewrite lookup_alter_ne in Hg by done; eauto].
  destruct Hf as [Hu|Hf]; [by destruct (Hu p o)|]. rewrite lookup_alter_eq in Hg. destruct (store s !! h) as [g0|]; [|done].
  injection Hg as <-. eauto.
Qed.

Lemma register_commit_key s env h g :
  reg_inv s -> key_inv s -> unlisted s h -> store s !! h = Some g -> keys s !! inode g = Some (object_path g) ->
  key_inv (fst (register_commit s env h)).
Proof.
  intros I K Hu Hs Hk. destruct (register_commit s env h) as [s' r] eqn:E; cbn.
  destruct (register_commit_spec s env h s' r I Hu E) as [(_ & g' & Hs' & _ & _ & ->)|[_ ->]]; [|done].
  rewrite Hs in Hs'. injection Hs' as <-. apply update_key; [|by right].
  assert (Hnew : forall p i, at_path (s <| open_files := <[object_path g := joined (default no_file (open_files s !! object_path g)) g
      <| handles := handles (default no_file (open_files s !! object_path g)) ++ [h] |>]> (open_files s) |>
      <| next_handle_id := next_handle_id s + 1 |>) p i -> at_path s p i \/ p = object_path g /\ i = inode g).
  { intros p i (o & x & y & Ho & Hx & Hy & <-). cbn in Ho, Hy. rewrite lookup_insert_Some in Ho.
    destruct Ho as [[<- <-]|[_ Ho]]; [|left; by exists o, x, y]. cbn in Hx.
    apply elem_of_app in Hx as [Hx|Hx]; [|apply list_elem_of_singleton in Hx as ->; right; split; congruence].
    left. destruct (open_files s !! object_path g) as [o0|] eqn:Eo; [|by apply not_elem_of_nil in Hx]. by exists o0, x, y. }
  destruct K as [K1 K2]. split.
  - intros p i [Ha|[-> ->]]%Hnew; [by apply K1|by right].
  - intros p q i [Ha|[-> ->]]%Hnew [Hb|[-> Hi]]%Hnew; [eauto| | |done].
    + subst. destruct (K1 _ _ Ha); congruence.
    + destruct (K1 _ _ Hb); congruence.
Qed.

Lemma register_key s env h i p recovered wait g :
  reg_inv s -> key_inv s -> unlisted s h -> store s !! h = Some g -> keys s !! i = Some p ->
  key_inv (fst (register_open_handle s env h i p recovered wait)).
Proof.
  intros I K Hu Hs Hk. unfold register_open_handle.
  set (s1 := update_handle s h _). assert (K1 : key_inv s1) by (apply update_key; auto).
  assert (I1 : reg_inv s1) by (apply update_frame; auto).
  assert (Hs1 : store s1 !! h = Some (g <| inode := i |> <| object_path := p |>)) by (cbn; by rewrite lookup_alter_eq, Hs).
  rewrite Hs1. destruct (_ && writable _); [done|].
  set (s2 := if _ && recovered then _ else s1).
  assert (H2 : reg_inv s2 /\ key_inv s2 /\ unlisted s2 h /\ exists g2, store s2 !! h = Some g2 /\ inode g2 = i /\ object_path g2 = p).
  { unfold s2. destruct (_ && recovered).
    - split; [apply update_frame; auto|]. split; [apply update_key; auto|]. split; [done|].
      cbn. rewrite lookup_alter_eq, lookup_alter_eq, Hs. cbn. eauto.
    - split; [done|]. split; [done|]. split; [done|]. eauto. }
  destruct H2 as (I2 & K2 & Hu2 & g2 & Hs2 & Hi & Hp). assert (Hk2 : keys s2 = keys s) by (unfold s2; by destruct (_ && recovered)).
  destruct (_ && negb _); [done|]. destruct (path_blocked s2 p); [done|]. destruct (conflicts s2 _); [done|].
  apply (register_commit_key s2 env h g2); [done..|]. by rewrite Hk2, Hi, Hp.
Qed.

Lemma select_key s env h : key_inv s -> key_inv (fst (select_passthrough_io s env h)).
Proof.
  intros K. unfold select_passthrough_io. destruct (store s !! h) as [g|]; [|done]. destruct (_ || _); [done|].
  destruct (find_open_file s (object_path g) h) as [[q o]|] eqn:Hf; [|done].
  destruct (find_open_file_spec _ _ _ _ _ Hf) as [Hq _]. destruct (inode_io o !! inode g) as [mode|]; [|done].
  assert (Hc : forall m k, key_inv (select_mode s h q o (inode g) m k)).
  { intros m k. unfold select_mode. apply update_key; [|right; by destruct k].
    apply (key_frame s); [done|by destruct k|]. apply at_path_frame; [|by eauto]. intros p u Hu. cbn in Hu.
    apply lookup_insert_Some in Hu as [[<- <-]|[_ Hu]]; eauto. }
  repeat case_match; cbn; try done; apply Hc.
Qed.

Lemma unregister_key s p h : key_inv s -> key_inv (unregister_open_handle s p h).
Proof.
  intros K. unfold unregister_open_handle. destruct (store s !! h) as [g|] eqn:Hs; [|done].
  destruct (find_open_file s p h) as [[q o]|] eqn:Hf; [|done].
  destruct (find_open_file_spec _ _ _ _ _ Hf) as [Hq Hh]. change (key_inv (put_entry s q (left_entry o h g))).
  assert (Hsub : forall x, x ∈ handles (left_entry o h g) -> x ∈ handles o).
  { intros x. unfold left_entry. repeat case_match; cbn; by intros [_ ?]%list_elem_of_filter. }
  apply (key_frame s); [done|done|]. apply at_path_frame; [|by eauto]. intros r u Hu. unfold put_entry in Hu. cbn in Hu.
  destruct (_ && _); [apply lookup_delete_Some in Hu as [_ Hu]; eauto|].
  apply lookup_insert_Some in Hu as [[<- <-]|[_ Hu]]; eauto.
Qed.

Lemma updates_inodes s hs f :
  (forall g, inode (f g) = inode g) ->
  keys (update_handles s hs f) = keys s /\ open_files (update_handles s hs f) = open_files s /\
  forall h g, store (update_handles s hs f) !! h = Some g -> exists g0, store s !! h = Some g0 /\ inode g = inode g0.
Proof.
  intros Hf. unfold update_handles. revert s. induction hs as [|h hs IH]; intros s; cbn; [by eauto|].
  destruct (IH (update_handle s h f)) as (H1 & H2 & H3). rewrite H1, H2. split_and!; [done|done|].
  intros x g Hg. destruct (H3 x g Hg) as (g1 & Hg1 & ->). cbn in Hg1.
  destruct (decide (x = h)) as [->|]; [|rewrite lookup_alter_ne in Hg1 by done; eauto].
  rewrite lookup_alter_eq in Hg1. destruct (store s !! h) as [g0|]; [|done]. injection Hg1 as <-. eauto.
Qed.

(** A counted inode has a handle. *)
Lemma zsum_pos (f : Z -> Z) l : 0 < zsum f l -> exists x, x ∈ l /\ 0 < f x.
Proof.
  induction l as [|x l IH]; [done|]. rewrite zsum_cons. intros H.
  destruct (decide (0 < f x)); [exists x; split; [apply list_elem_of_here|done]|].
  destruct IH as (y & Hy & ?); [lia|]. exists y. split; [by apply list_elem_of_further|done].
Qed.

Lemma counted_at_path s p o i m :
  reg_inv s -> open_files s !! p = Some o -> inode_io o !! i = Some m -> at_path s p i.
Proof.
  intros I Ho Hm. destruct (es_io _ _ (proj1 (ri_entries _ I p o Ho)) i) as [I1 I2 I3 _ _ _ I7].
  specialize (I7 m Hm). rewrite Hm in *. cbn in *.
  assert (Hk : exists k, 0 < zsum (in_mode (store s) i k) (handles o)).
  { destruct (decide (0 < pending_readers m)); [exists OPEN_IO_PENDING; lia|].
    destruct (decide (0 < normal_readers m)); [exists OPEN_IO_NORMAL; lia|exists OPEN_IO_PASSTHROUGH; lia]. }
  destruct Hk as (k & (h & Hh & Hp)%zsum_pos). unfold in_mode in Hp. destruct (store s !! h) as [g|] eqn:Hg; [|done].
  destruct (Z.eqb_spec (inode g) i) as [<-|]; [by exists o, h, g|]. by rewrite andb_false_r in Hp.
Qed.

Lemma inodes_apart s src dst : reg_inv s -> key_inv s -> src <> dst -> apart s src dst.
Proof.
  intros I K Hne so d i Hso Hd. destruct (inode_io so !! i) as [m|] eqn:Em; [|by left].
  destruct (inode_io d !! i) as [n|] eqn:En; [|by right]. exfalso. apply Hne.
  eapply (ki_single _ K); by eapply counted_at_path.
Qed.

(** A rename that goes through has moved the handles of the source. *)
Definition renamed_paths (s s' : Registry) (src dst : bytes) : Prop :=
  forall p i, at_path s' p i -> p <> src /\ (at_path s p i \/ p = dst /\ at_path s src i).

Lemma rename_moves s src dst preserved snapshot s' r :
  src <> dst -> apart s src dst -> finish_open_file_rename s src dst preserved snapshot = (s', r) ->
  keys s' = keys s /\
  match r with Ok _ => renamed_paths s s' src dst | Throw _ => forall p i, at_path s' p i -> at_path s p i end.
Proof.
  intros Hne Hio. unfold finish_open_file_rename. cbn zeta.
  set (s1 := match open_files s !! dst with Some d => _ | None => s end).
  assert (H1 : keys s1 = keys s /\ open_files s1 = open_files s /\
    forall h g, store s1 !! h = Some g -> exists g0, store s !! h = Some g0 /\ inode g = inode g0).
  { unfold s1. destruct (open_files s !! dst); [destruct preserved; [by eauto|]|by eauto]. by apply updates_inodes. }
  destruct H1 as (K1 & F1 & G1). rewrite F1.
  assert (Hsame : forall p i, at_path s1 p i -> at_path s p i)
    by (apply at_path_frame; [rewrite F1; by eauto|intros p o h g _ _; apply G1]).
  destruct (open_files s !! src) as [so|] eqn:Hso.
  2:{ intros [= <- <-]. split; [done|]. case_match; [|done]. intros p i Ha. split; [|by left; apply Hsame].
      intros ->. destruct Ha as (o & _ & _ & Ho & _). rewrite F1 in Ho. congruence. }
  destruct (negb (reader_snapshot_matches _ _ _)); [intros [= <- <-]; done|].
  set (s2 := update_handles s1 _ _).
  destruct (updates_inodes s1 (filter (fun h => h ∈ snapshot) (handles so)) (fun g => g <| object_path := dst |>))
    as (K2 & F2 & G2); [done|]. fold s2 in K2, F2, G2. rewrite F1 in F2.
  assert (Hg : forall h g, store s2 !! h = Some g -> exists g0, store s !! h = Some g0 /\ inode g = inode g0).
  { intros h g (g1 & Hg1 & ->)%G2. by apply G1. }
  assert (Hput : forall f o, f = <[dst := o]> (delete src (open_files s)) ->
    (forall h, h ∈ handles o -> h ∈ handles so \/ exists d, open_files s !! dst = Some d /\ h ∈ handles d) ->
    renamed_paths s (s2 <| open_files := f |>) src dst).
  { intros f o -> Hin p i (u & h & g & Hu & Hh & Hgh & <-). cbn in Hu, Hgh. destruct (Hg h g Hgh) as (g0 & Hg0 & ->).
    apply lookup_insert_Some in Hu as [[<- <-]|[Hd [Hs Hu]%lookup_delete_Some]].
    - split; [done|]. destruct (Hin h Hh) as [Hh'|(d & Hd & Hh')]; [right; split; [done|]; by exists so, h, g0|].
      left. by exists d, h, g0.
    - split; [done|]. left. by exists u, h, g0. }
  destruct (open_files s !! dst) as [d|] eqn:Hd.
  - rewrite merge_ios_disjoint; [|..|apply NoDup_fst_map_to_list].
    2: { intros i m Him%elem_of_map_to_list. cbn. destruct (Hio so d i Hso Hd); congruence. }
    cbn. intros [= <- <-]. cbn. split; [by rewrite K2|]. rewrite F2, delete_insert_ne by done.
    eapply Hput; [reflexivity|]. cbn. intros h [?|?]%elem_of_app; eauto.
  - intros [= <- <-]. cbn. split; [by rewrite K2|]. rewrite F2. eapply Hput; [reflexivity|]. auto.
Qed.

Lemma rename_key s src dst preserved snapshot s' r :
  key_inv s -> src <> dst -> apart s src dst ->
  finish_open_file_rename s src dst preserved snapshot = (s', r) ->
  key_inv (match r with Ok _ => s' <| keys := rename_keys src dst (keys s') |> | Throw _ => s' end).
Proof.
  intros K Hne Hio E. destruct (rename_moves _ _ _ _ _ _ _ Hne Hio E) as [Hk Hm].
  destruct r as [u|e]; [|by apply (key_frame s)]. destruct K as [K1 K2]. unfold renamed_paths in Hm. split.
  - intros p i Ha. change (at_path s' p i) in Ha. destruct (Hm p i Ha) as [Hp Hcase]. cbn. unfold rename_keys.
    rewrite lookup_omap, Hk. destruct Hcase as [Hs|[-> Hs]]; destruct (K1 _ _ Hs) as [->| ->]; cbn; try (by left).
    + destruct (str_eqb_spec p dst) as [->|]; [by left|]. destruct (str_eqb_spec p src); [done|by right].
    + destruct (str_eqb_spec src dst); [done|]. rewrite str_eqb_refl. by right.
  - intros p q i Ha Hb. change (at_path s' p i) in Ha. change (at_path s' q i) in Hb.
    destruct (Hm p i Ha) as [Hp [Hpa|[-> Hpa]]], (Hm q i Hb) as [Hq [Hqa|[-> Hqa]]]; eauto.
    + by destruct Hp, (K2 p src i).
    + by destruct Hq, (K2 q src i).
Qed.

(** ** All interleavings *)

Inductive RegOp :=
  | OpNew (h : Z) (g : OpenHandle)
  | OpRegister (env : RegisterEnv) (h i : Z) (p : bytes) (recovered wait : bool)
  | OpResume (env : RegisterEnv) (h : Z)
  | OpSelect (env : SelectEnv) (h : Z)
  | OpUnregister (p : bytes) (h : Z)
  | OpClose (h : Z)
  | OpFree (h : Z)
  | OpGuard (this : Z) (first : bytes) (fp : bool) (second : bytes) (sp ar aw : bool)
  | OpDone (this : Z)
  | OpRename (this : Z) (src dst : bytes) (preserved : bool) (snapshot : list Z)
  | OpKey (i : Z) (key : option bytes)
  | OpRecover (p : bytes)
  | OpRecovered (p : bytes).

Definition exec (s : Registry) (op : RegOp) : Registry :=
  match op with
  | OpNew h g => s <| store := <[h := g]> (store s) |>
  | OpRegister env h i p recovered wait => fst (register_open_handle s env h i p recovered wait)
  | OpResume env h => fst (register_commit s env h)
  | OpSelect env h => fst (select_passthrough_io s env h)
  | OpUnregister p h => unregister_open_handle s p h
  | OpClose h => update_handle s h (fun g => g <| closing := true |>)
  | OpFree h => s <| store := delete h (store s) |>
  | OpGuard this first fp second sp ar aw => fst (mutation_guard s this first fp second sp ar aw)
  | OpDone this => mutation_done s this
  | OpRename this src dst preserved snapshot =>
      match finish_open_file_rename s src dst preserved snapshot with
      | (s, Ok _) => s <| keys := rename_keys src dst (keys s) |>
      | (s, Throw _) => s
      end
  | OpKey i key => s <| keys := match key with Some p => <[i := p]> (keys s) | None => delete i (keys s) end |>
  | OpRecover p => s <| recovery_paths := {[p]} ∪ recovery_paths s |>
  | OpRecovered p => s <| recovery_paths := recovery_paths s ∖ {[p]} |>
  end.

(** When the sources call an operation: a handle is new, registered once and freed only when
    it is not registered; a guard is an object of its own; a rename holds its guard.  A handle is
    registered under the key its inode has: [register_open_handle] computes it under the
    mutex, and the guard of a rename refuses opens of both paths until the entry and the key
    have moved.  For an open that waited for a release this is an assumption
    ([OpResume]): the path is not computed again.  A rename that goes through is taken to find
    the new directory still attached, so that the inode of the source moves.  [OpKey] is a key that is given to an inode
    without open handles, or a detachment. *)
Definition allowed (s : Registry) (op : RegOp) : Prop :=
  match op with
  | OpNew h g => unlisted s h /\ io_mode g = OPEN_IO_PENDING
  | OpRegister _ h i p _ _ =>
      unlisted s h /\ (exists g, store s !! h = Some g /\ io_mode g = OPEN_IO_PENDING) /\ keys s !! i = Some p
  | OpResume _ h =>
      unlisted s h /\ exists g, store s !! h = Some g /\ io_mode g = OPEN_IO_PENDING /\
        keys s !! inode g = Some (object_path g)
  | OpFree h => unlisted s h
  | OpGuard this _ _ _ _ _ _ => forall b, b ∈ blocked_paths s -> owner b <> this
  | OpRename this src dst _ _ => rename_ready s this src dst
  | OpKey i key => key = None \/ forall p, ~ at_path s p i
  | _ => True
  end.

Inductive reg_step : Registry -> Registry -> Prop :=
  | reg_step_op s op : allowed s op -> reg_step s (exec s op).

Definition empty_registry : Registry := mkRegistry ∅ [] ∅ 0 ∅ ∅ ∅.

Definition reachable (s : Registry) : Prop := rtc reg_step empty_registry s.

Lemma registry_exec_inv s op : reg_inv s -> key_inv s -> allowed s op -> reg_inv (exec s op).
Proof.
  intros I K A. destruct op; cbn in *.
  - destruct A as [Hu _]. apply registry_store_frame; [done|]. intros p o x Ho Hx. rewrite lookup_insert_ne; [done|].
    intros ->. by apply (Hu p o).
  - destruct A as (Hu & (g & Hs & Hm) & _). by eapply register_inv.
  - destruct A as (Hu & g & Hs & Hm & _). by eapply register_commit_inv.
  - by apply select_inv.
  - by apply unregister_inv.
  - apply update_frame; auto.
  - apply registry_store_frame; [done|]. intros p o x Ho Hx. rewrite lookup_delete_ne; [done|].
    intros ->. by apply (A p o).
  - by apply guard_inv.
  - by apply done_inv.
  - pose proof (rename_inv s this src dst preserved snapshot I A (inodes_apart s src dst I K (proj1 A))) as H.
    destruct (finish_open_file_rename s src dst preserved snapshot) as [s' []]; [|done]. by destruct H.
  - by destruct I.
  - by destruct I.
  - by destruct I.
Qed.

Lemma registry_exec_key s op : reg_inv s -> key_inv s -> allowed s op -> key_inv (exec s op).
Proof.
  intros I K A. destruct op; cbn in *.
  - destruct A as [Hu _]. apply (key_frame s); [done|done|]. apply at_path_frame; [by eauto|].
    intros p o x y Ho Hx Hy. cbn in Hy. rewrite lookup_insert_ne in Hy; [by eauto|]. intros ->. by apply (Hu p o).
  - destruct A as (Hu & (g & Hs & Hm) & Hk). by eapply register_key.
  - destruct A as (Hu & g & Hs & Hm & Hk). by eapply register_commit_key.
  - by apply select_key.
  - by apply unregister_key.
  - apply update_key; auto.
  - apply (key_frame s); [done|done|]. apply at_path_frame; [by eauto|].
    intros p o x y Ho Hx Hy. cbn in Hy. apply lookup_delete_Some in Hy as [_ Hy]. eauto.
  - apply (key_frame s); [done|..]; unfold mutation_guard; repeat case_match; done.
  - by apply (key_frame s).
  - pose proof (inodes_apart s src dst I K (proj1 A)) as Hio.
    destruct (finish_open_file_rename s src dst preserved snapshot) as [s' r] eqn:E.
    pose proof (rename_key s src dst preserved snapshot s' r K (proj1 A) Hio E) as H. by destruct r.
  - destruct K as [K1 K2]. split; [|exact K2]. intros p j Ha. change (at_path s p j) in Ha. cbn.
    destruct A as [->|Hn].
    + destruct (decide (i = j)) as [->|]; [left; apply lookup_delete_eq|]. rewrite lookup_delete_ne by done. by apply K1.
    + assert (i <> j) by (intros ->; by apply (Hn p)). destruct key; cbn.
      * rewrite lookup_insert_ne by done. by apply K1.
      * rewrite lookup_delete_ne by done. by apply K1.
  - by apply (key_frame s).
  - by apply (key_frame s).
Qed.

Lemma registry_reachable_invs s : reachable s -> reg_inv s /\ key_inv s.
Proof.
  apply (rtc_ind_r (fun s => reg_inv s /\ key_inv s)).
  - split; [constructor; cbn; try (intros *; rewrite lookup_empty; done); intros *; by intros ?%not_elem_of_nil|].
    assert (Hn : forall p i, ~ at_path empty_registry p i) by (intros p i (o & _ & _ & Ho & _); cbn in Ho; by rewrite lookup_empty in Ho).
    split; intros * Ha; by destruct (Hn _ _ Ha).
  - intros x y _ [u op A] [I K]. split; [by apply registry_exec_inv|by apply registry_exec_key].
Qed.

Lemma registry_reachable_inv s : reachable s -> reg_inv s.
Proof. intros R. apply (registry_reachable_invs s R). Qed.



(** two path mutation guards never cover a common path; a path under a guard is open
    only in ways the guard was taken to allow; and opening it is refused, changing no
    entry. *)
Theorem path_mutation_exclusive s :
  reachable s ->
  (forall a b p, a ∈ blocked_paths s -> b ∈ blocked_paths s -> owner a <> owner b ->
     blocked_path_contains a p && blocked_path_contains b p = false) /\
  (forall b p o ar aw, b ∈ blocked_paths s -> blocked_path_contains b p = true -> open_files s !! p = Some o ->
     granted s !! owner b = Some (ar, aw) -> (writer o = true -> aw = true) /\ (readers o <> 0 -> ar = true)) /\
  (forall b p env h i recovered wait g, b ∈ blocked_paths s -> blocked_path_contains b p = true -> store s !! h = Some g ->
     open_files (fst (register_open_handle s env h i p recovered wait)) = open_files s /\
     exists e, snd (register_open_handle s env h i p recovered wait) = Refused e).
Proof.
  intros I%registry_reachable_inv. split; [|split].
  - intros a b p Ha Hb Hne. apply not_true_iff_false. intros [Hca Hcb]%andb_true_iff.
    by apply Hne, (ri_guards _ I a b p).
  - intros b p o ar aw Hb Hc Ho Hg. destruct (ri_granted _ I b p o Hb Hc Ho) as (ar' & aw' & Hg' & Hw & Hr).
    rewrite Hg in Hg'. by injection Hg' as -> ->.
  - intros b p env h i recovered wait g Hb Hc Hs. unfold register_open_handle.
    set (s1 := update_handle s h _). assert (Hs1 : store s1 !! h = Some (g <| inode := i |> <| object_path := p |>))
      by (cbn; by rewrite lookup_alter_eq, Hs). rewrite Hs1.
    assert (Hpb : forall x, blocked_paths x = blocked_paths s -> path_blocked x p = true).
    { intros x Hx. apply existsb_exists. exists b. rewrite Hx. split; [by apply list_elem_of_In|done]. }
    destruct (_ && writable _); [by eauto|]. set (s2 := if _ && recovered then _ else s1).
    assert (H2 : open_files s2 = open_files s /\ blocked_paths s2 = blocked_paths s) by (unfold s2; by destruct (_ && recovered)).
    destruct H2 as [F2 B2]. destruct (_ && negb _); [by eauto|]. rewrite (Hpb s2 B2). eauto.
Qed.

(** A pending reader that joins and leaves. *)
Lemma pending_roundtrip st hs io i :
  io_ok st hs io i -> leave_mode (add_pending io i) i OPEN_IO_PENDING = io.
Proof.
  intros I. pose proof (io_nonneg _ _ _ _ I) as (N1 & N2 & N3). destruct I as [_ _ _ _ I5 _ I7].
  unfold leave_mode, add_pending. rewrite lookup_insert_eq. unfold left_io, unused_io. cbn.
  destruct (Z.eqb_spec (pending_readers (default no_io (io !! i)) + 1) 0); [lia|].
  replace (pending_readers (default no_io (io !! i)) + 1 - 1) with (pending_readers (default no_io (io !! i))) by lia.
  destruct (io !! i) as [[a b c d]|] eqn:E; cbn in *.
  - specialize (I7 _ eq_refl). cbn in I7. 
    assert (Hcd : (c =? 0) && negb (d =? 0) = false)
      by (destruct (Z.eqb_spec c 0), (Z.eqb_spec d 0); cbn; try done; lia).
    rewrite Hcd. cbn. destruct (Z.eqb_spec a 0), (Z.eqb_spec b 0), (Z.eqb_spec c 0); cbn; try lia;
      rewrite insert_insert_eq; by apply insert_id.
  - by rewrite delete_insert_id.
Qed.

(** closing a handle right after it was registered restores every entry, and refused
    registrations change none. *)
Theorem register_roundtrip s env h g s' r :
  reachable s -> unlisted s h -> store s !! h = Some g -> io_mode g = OPEN_IO_PENDING ->
  register_commit s env h = (s', r) ->
  match r with
  | Registered => open_files (unregister_open_handle s' (object_path g) h) = open_files s
  | _ => s' = s
  end.
Proof.
  intros I%registry_reachable_inv Hu Hs Hm E.
  destruct (register_commit_spec s env h s' r I Hu E) as [(-> & g' & Hs' & Hb & Hc & Es')|[Hr ->]]; [|by destruct r].
  rewrite Hs in Hs'. injection Hs' as <-. set (p := object_path g) in *. set (o := default no_file (open_files s !! p)) in *.
  assert (Eo : entry_sound (store s) o).
  { unfold o. destruct (open_files s !! p) as [u|] eqn:Ep; [by apply (ri_entries _ I _ _ Ep)|apply no_file_sound]. }
  assert (Hh : h ∉ handles o).
  { unfold o. destruct (open_files s !! p) as [u|] eqn:Ep; [by apply (Hu _ _ Ep)|apply not_elem_of_nil]. }
  set (o1 := joined o g <| handles := handles o ++ [h] |>) in *.
  assert (Hf : find_open_file s' p h = Some (p, o1)).
  { rewrite Es'. unfold find_open_file. cbn. rewrite lookup_insert_eq, bool_decide_eq_true_2 by (cbn; set_solver). done. }
  assert (Hst : store s' !! h = Some (g <| registered := true |>)) by (rewrite Es'; cbn; by rewrite lookup_alter_eq, Hs).
  unfold unregister_open_handle. rewrite Hst, Hf.
  change (open_files (put_entry s' p (left_entry o1 h (g <| registered := true |>))) = open_files s).
  assert (Hleft : left_entry o1 h (g <| registered := true |>) = o).
  { unfold left_entry, o1, joined. cbn. rewrite filter_app, filter_cons_False, filter_nil, app_nil_r by tauto.
    rewrite erase_absent by done. unfold access_conflict in Hc. bool_case. destruct (writable g); cbn in *; bool_case.
    - destruct o; cbn in *. by subst.
    - pose proof (readers_length _ _ Eo H0) as Hl. pose proof (vsize_nonneg (handles o)).
      destruct (Z.eqb_spec (readers o + 1) 0); [lia|]. cbn. rewrite Hm, (pending_roundtrip (store s) (handles o)) by apply Eo.
      replace (readers o + 1 - 1) with (readers o) by lia. by destruct o. }
  rewrite Hleft. transitivity (open_files (put_entry s p o)).
  - rewrite Es'. unfold put_entry. cbn. case_match; [by rewrite delete_insert_eq|by rewrite insert_insert_eq].
  - rewrite <- (roll_back_joined (store s) o g Eo Hc). f_equal. by apply roll_back_same.
Qed.

(** ** A concrete run

    Two readers of one inode, the first in passthrough mode, a guard over a directory, and a
    handle that is not registered yet. *)

Definition listed (s : Registry) (h : Z) : bool :=
  existsb (fun '(_, o) => bool_decide (h ∈ handles o)) (map_to_list (open_files s)).

Lemma listed_unlisted s h : listed s h = false -> unlisted s h.
Proof.
  intros Hl p o Ho Hh. assert (listed s h = true) as E; [|congruence]. apply existsb_exists.
  exists (p, o). split; [by apply list_elem_of_In, elem_of_map_to_list|by apply bool_decide_eq_true].
Qed.

(** A sufficient test for [allowed]. *)
Definition surely_allowed (s : Registry) (op : RegOp) : bool :=
  match op with
  | OpNew h g => negb (listed s h) && bool_decide (io_mode g = OPEN_IO_PENDING)
  | OpRegister _ h i p _ _ =>
      negb (listed s h) && match store s !! h with Some g => bool_decide (io_mode g = OPEN_IO_PENDING) | None => false end &&
      bool_decide (keys s !! i = Some p)
  | OpFree h => negb (listed s h)
  | OpGuard this _ _ _ _ _ _ => forallb (fun b => negb (owner b =? this)) (blocked_paths s)
  | OpResume _ _ | OpRename _ _ _ _ _ => false
  | OpKey i _ => bool_decide (open_files s = ∅)
  | _ => true
  end.

Fixpoint run (ops : list RegOp) (s : Registry) : option Registry :=
  match ops with
  | [] => Some s
  | op :: rest => if surely_allowed s op then run rest (exec s op) else None
  end.

Lemma surely_allowed_sound s op : surely_allowed s op = true -> allowed s op.
Proof.
  destruct op; cbn; try done.
  - intros [Hl%negb_true_iff Hm%bool_decide_eq_true]%andb_true_iff. split; [by apply listed_unlisted|done].
  - intros [[Hl%negb_true_iff Hm]%andb_true_iff Hk%bool_decide_eq_true]%andb_true_iff. split; [by apply listed_unlisted|].
    destruct (store s !! h) as [g|]; [|done]. apply bool_decide_eq_true in Hm. eauto.
  - intros Hl%negb_true_iff. by apply listed_unlisted.
  - intros Hb b Hin E. rewrite forallb_forall in Hb. specialize (Hb b ltac:(by apply list_elem_of_In)).
    rewrite E, Z.eqb_refl in Hb. done.
  - intros He%bool_decide_eq_true. right. intros p (o & _ & _ & Ho & _). by rewrite He, lookup_empty in Ho.
Qed.

Lemma run_reachable ops s s' : run ops s = Some s' -> reachable s -> reachable s'.
Proof.
  revert s. induction ops as [|op rest IH]; intros s H R; cbn in H; [congruence|].
  destruct (surely_allowed s op) eqn:Ha; [|done]. eapply IH; [done|]. eapply rtc_r; [done|].
  constructor. by apply surely_allowed_sound.
Qed.

Definition sample_reader : OpenHandle := mkOpenHandle 0 [] false OPEN_IO_PENDING 0 false false false false.
Definition sample_env : RegisterEnv := {| re_count := 1; re_count_now := 1; re_alloc := true |}.
Definition sample_ops : list RegOp :=
  [OpKey 10 (Some (lit "/b/a")); OpNew 1 sample_reader; OpRegister sample_env 1 10 (lit "/b/a") false true;
   OpNew 2 sample_reader; OpRegister sample_env 2 10 (lit "/b/a") false true;
   OpSelect {| sp_eligible := true; sp_backing := 7 |} 1;
   OpGuard 50 (lit "/b/c/") true [] false false false;
   OpNew 3 (sample_reader <| object_path := lit "/b/a" |> <| inode := 10 |>)].

Definition sample : Registry := default empty_registry (run sample_ops empty_registry).

Lemma registry_sample_reachable : reachable sample.
Proof. apply (run_reachable sample_ops empty_registry); [vm_compute; reflexivity|apply rtc_refl]. Qed.



Definition sample_new : OpenHandle := sample_reader <| object_path := lit "/b/a" |> <| inode := 10 |>.

Lemma path_mutation_exclusive_witness :
  open_files (fst (register_open_handle sample sample_env 3 11 (lit "/b/c/d") false true)) = open_files sample.
Proof.
  destruct (path_mutation_exclusive sample registry_sample_reachable) as (_ & _ & R).
  assert (B : mkBlockedPath 50 (lit "/b/c/") true ∈ blocked_paths sample)
    by (apply list_elem_of_In; vm_compute; auto).
  assert (S : store sample !! 3 = Some sample_new) by (vm_compute; reflexivity).
  exact (proj1 (R _ (lit "/b/c/d") sample_env 3 11 false true sample_new B eq_refl S)).
Defined.

Lemma register_roundtrip_witness :
  open_files (unregister_open_handle (fst (register_commit sample sample_env 3)) (object_path sample_new) 3) =
  open_files sample.
Proof.
  assert (U : unlisted sample 3) by (apply listed_unlisted; vm_compute; reflexivity).
  assert (S : store sample !! 3 = Some sample_new) by (vm_compute; reflexivity).
  assert (E : register_commit sample sample_env 3 = (fst (register_commit sample sample_env 3), Registered))
    by (vm_compute; reflexivity).
  exact (register_roundtrip sample sample_env 3 sample_new _ Registered registry_sample_reachable U S eq_refl E).
Defined.

(** What the assumption on waiting opens leaves out: handle 2 waits for the writer 1, the object is
    renamed once the writer has gone, handle 3 opens it under its new path, and then handle
    2 is registered under the old one: the readers of inode 10 choose different modes. *)
Definition overtaken_ops : list RegOp :=
  [OpKey 10 (Some (lit "/b/a")); OpNew 1 (sample_reader <| writable := true |>);
   OpRegister sample_env 1 10 (lit "/b/a") false true;
   OpNew 2 sample_reader; OpRegister sample_env 2 10 (lit "/b/a") false true;
   OpUnregister (lit "/b/a") 1; OpGuard 50 (lit "/b/a") false (lit "/b/c") false true false;
   OpRename 50 (lit "/b/a") (lit "/b/c") false []; OpDone 50;
   OpNew 3 sample_reader; OpRegister sample_env 3 10 (lit "/b/c") false true;
   OpSelect {| sp_eligible := true; sp_backing := 7 |} 3;
   OpResume sample_env 2; OpSelect {| sp_eligible := false; sp_backing := 0 |} 2].

Lemma overtaken_open_two_modes :
  let s := fold_left exec overtaken_ops empty_registry in
  (handles <$> open_files s !! lit "/b/a") = Some [2] /\ (handles <$> open_files s !! lit "/b/c") = Some [3] /\
  (io_mode <$> store s !! 2) = Some OPEN_IO_NORMAL /\ (io_mode <$> store s !! 3) = Some OPEN_IO_PASSTHROUGH /\
  (inode <$> store s !! 2) = Some 10 /\ (inode <$> store s !! 3) = Some 10.
Proof. vm_compute. done. Qed.
