(* ===== verification/HttpPool.v ===== *)
(** * HttpPool

    The connection pool of [fuse.cpp].  A slot is leased by a compare-and-swap on its [busy]
    flag; the slots are probed in rotation, those of the caller's reactor first.  Threads
    that find no slot wait on [released_]; reactor tasks register, try again and read one
    byte of the release pipe ([AsyncS3Request::acquire] and [available]).  The model follows
    every atomic operation, for any number of clients. *)

From S2P Require Import Prelude Interleave.

(** ** The order of the probes *)

(** [(begin + n) % usable] for [n = 0 .. usable - 1]. *)
Definition rotation (usable begin : Z) : list Z :=
  map (fun n => (begin + n) mod usable) (zrange 0 usable).

(** The slots [try_acquire_affine] probes for [worker]: its own, then the others. *)
Definition affine_order (owners : list Z) (usable begin worker : Z) : list Z :=
  filter (fun i => vget 0 owners i = worker) (rotation usable begin) ++
  filter (fun i => vget 0 owners i <> worker) (rotation usable begin).

(** The owner of slot [i] in a pool for [worker_count] reactor workers. *)
Definition slot_owner (worker_count i : Z) : Z := if worker_count =? 0 then 0 else i mod worker_count.

(** ** The pool *)

(** [pipe] is the number of bytes in the release pipe; [asleep] and [permits] are the threads
    in [released_.wait] and how many of them [notify_one] has released; [releases] counts
    the releases, of which [released_] is the value modulo [2 ^ 64]. *)
Record HttpPool := mkHttpPool {
  busy : list bool;
  owners : list Z;
  worker_next_ : list Z;
  next_ : Z;
  released_ : Z;
  pipe : Z;
  reactor_waiters_ : Z;
  asleep : Z;
  permits : Z;
  releases : Z;
}.

#[export] Instance HttpPool_settable : Settable HttpPool := fun s =>
  mkHttpPool (busy s) (owners s) (worker_next_ s) (next_ s) (released_ s) (pipe s)
    (reactor_waiters_ s) (asleep s) (permits s) (releases s).

Definition pipe_capacity : Z := 4096.

Definition make_pool (slots worker_count : Z) : HttpPool :=
  mkHttpPool (replicate (Z.to_nat slots) false) (map (slot_owner worker_count) (zrange 0 slots))
    (replicate (Z.to_nat worker_count) 0) 0 0 0 0 0 0 0.

(** [slots_.size()], or one less for bulk transfers. *)
Definition usable (s : HttpPool) (bulk : bool) : Z := vsize (busy s) - Z.b2z bulk.

(** The first statement of the three searches: advance a cursor, which fixes the order. *)
Definition begin_search (s : HttpPool) (bulk : bool) : HttpPool * list Z :=
  (s <| next_ := u64 (next_ s + 1) |>, rotation (usable s bulk) (next_ s mod usable s bulk)).

Definition begin_affine (s : HttpPool) (bulk : bool) (worker : Z) : HttpPool * list Z :=
  let cursor := vget 0 (worker_next_ s) worker in
  (s <| worker_next_ := vset (worker_next_ s) worker (u64 (cursor + 1)) |>,
   affine_order (owners s) (usable s bulk) (cursor mod usable s bulk) worker).

(** [busy.compare_exchange_strong(false, true)]. *)
Definition try_slot (s : HttpPool) (i : Z) : HttpPool * bool :=
  if vget true (busy s) i then (s, false) else (s <| busy := vset (busy s) i true |>, true).

Definition free_slot (s : HttpPool) (i : Z) : HttpPool := s <| busy := vset (busy s) i false |>.
Definition count_release (s : HttpPool) : HttpPool :=
  s <| released_ := u64 (released_ s + 1) |> <| releases := releases s + 1 |>.
Definition notify_one (s : HttpPool) : HttpPool :=
  s <| permits := Z.min (asleep s) (permits s + 1) |>.
(** The non-blocking write of one byte; a full pipe drops it. *)
Definition write_pipe (s : HttpPool) : HttpPool := s <| pipe := Z.min pipe_capacity (pipe s + 1) |>.

(** ** Its clients *)

(** A reactor task may belong to a worker of a multi-worker reactor. *)
Record Task := mkTask { bulk : bool; worker : option Z }.

Inductive Next := ThenHeld (slot : Z) | ThenRetry (t : Task) | ThenFail.

Inductive Pc :=
  | Idle
  (* a reactor task; [second] says that it is registered *)
  | Begin (t : Task) (second : bool)
  | Probe (t : Task) (second : bool) (todo : list Z)
  | AddWaiter (t : Task)
  | Submit (t : Task)
  | Parked (t : Task)
  | EndWait (next : Next)
  (* a thread in [acquire_slots] *)
  | LoadReleased (bulk : bool)
  | BeginThread (bulk : bool) (seen : Z)
  | ProbeThread (bulk : bool) (seen : Z) (todo : list Z)
  | WaitReleased (bulk : bool) (seen : Z)
  | Asleep (bulk : bool) (seen : Z)
  (* a lease, then [release] *)
  | Held (slot : Z)
  | CountRelease
  | Notify
  | LoadWaiters
  | WritePipe.

Section Clients.
(** Whether tasks are cancelled while the byte that woke them is in hand. *)
Variable cancels : bool.

Definition internal (s : HttpPool) (p : Pc) : list (HttpPool * Pc) :=
  match p with
  | Idle => []
  | Begin t second =>
      let '(s', todo) := match worker t with
                         | Some w => begin_affine s (bulk t) w
                         | None => begin_search s (bulk t)
                         end in
      [(s', Probe t second todo)]
  | Probe t second [] => [(s, if second then Submit t else AddWaiter t)]
  | Probe t second (i :: todo) =>
      let '(s', ok) := try_slot s i in
      [(s', if ok then if second then EndWait (ThenHeld i) else Held i else Probe t second todo)]
  | AddWaiter t => [(s <| reactor_waiters_ := u64 (reactor_waiters_ s + 1) |>, Begin t true)]
  | Submit t => [(s, Parked t)]
  | Parked t => if 0 <? pipe s then [(s <| pipe := pipe s - 1 |>, EndWait (ThenRetry t))] else []
  | EndWait next =>
      [(s <| reactor_waiters_ := u64 (reactor_waiters_ s - 1) |>,
        match next with ThenHeld i => Held i | ThenRetry t => Begin t false | ThenFail => Idle end)]
  | LoadReleased b => [(s, BeginThread b (released_ s))]
  | BeginThread b seen => let '(s', todo) := begin_search s b in [(s', ProbeThread b seen todo)]
  | ProbeThread b seen [] => [(s, WaitReleased b seen)]
  | ProbeThread b seen (i :: todo) =>
      let '(s', ok) := try_slot s i in [(s', if ok then Held i else ProbeThread b seen todo)]
  | WaitReleased b seen =>
      if released_ s =? seen then [(s <| asleep := asleep s + 1 |>, Asleep b seen)] else [(s, LoadReleased b)]
  | Asleep b seen =>
      if 0 <? permits s
      then [(s <| asleep := asleep s - 1 |> <| permits := permits s - 1 |>, WaitReleased b seen)] else []
  | Held i => [(free_slot s i, CountRelease)]
  | CountRelease => [(count_release s, Notify)]
  | Notify => [(notify_one s, LoadWaiters)]
  | LoadWaiters => [(s, if reactor_waiters_ s =? 0 then Idle else WritePipe)]
  | WritePipe => [(write_pipe s, Idle)]
  end.

(** A new request; a failing submission or read; with [cancels], a woken task that gives up
    instead of trying again. *)
Definition external (s : HttpPool) (p : Pc) : list (HttpPool * Pc) :=
  match p with
  | Idle => [(s, Begin (mkTask false None) false); (s, Begin (mkTask true None) false);
             (s, LoadReleased false); (s, LoadReleased true)] ++
            map (fun w => (s, Begin (mkTask false (Some w)) false)) (zrange 0 (vsize (worker_next_ s))) ++
            map (fun w => (s, Begin (mkTask true (Some w)) false)) (zrange 0 (vsize (worker_next_ s)))
  | Submit _ | Parked _ => [(s, EndWait ThenFail)]
  | EndWait (ThenRetry _) => if cancels then [(s, EndWait ThenFail)] else []
  | _ => []
  end.

Definition reaches (slots workers : Z) (clients : nat) (c : Threads HttpPool Pc) : Prop :=
  rtc (interleave internal external) (mkThreads (make_pool slots workers) (replicate clients Idle)) c.

End Clients.

(** ** The probes *)

Lemma rotation_spec n begin i : 0 < n -> (i ∈ rotation n begin <-> 0 <= i < n).
Proof.
  intros Hn. unfold rotation. change (map ?f) with (fmap (M := list) f). rewrite list_elem_of_fmap. split.
  - intros (k & -> & Hk). by apply Z.mod_pos_bound.
  - intros Hi. exists ((i - begin) mod n). rewrite elem_of_zrange. split; [|by apply Z.mod_pos_bound].
    rewrite Zplus_mod_idemp_r. replace (begin + (i - begin)) with i by lia. by rewrite Z.mod_small.
Qed.

Lemma rotation_length n begin : 0 <= n -> vsize (rotation n begin) = n.
Proof. intros. unfold rotation, vsize. rewrite length_map, length_zrange. lia. Qed.

Lemma affine_spec os n begin w i : 0 < n -> (i ∈ affine_order os n begin w <-> 0 <= i < n).
Proof.
  intros Hn. unfold affine_order. rewrite elem_of_app, !list_elem_of_filter, rotation_spec by done.
  destruct (decide (vget 0 os i = w)); tauto.
Qed.

(** a search of the pool probes every usable slot exactly once, whatever the cursor; a
    reactor worker probes all of its own slots before it borrows another's. *)
Theorem probe_order_complete os n begin w :
  0 < n ->
  (forall i, i ∈ rotation n begin <-> 0 <= i < n) /\ vsize (rotation n begin) = n /\
  rotation n begin ≡ₚ affine_order os n begin w /\
  exists own others, affine_order os n begin w = own ++ others /\
    (forall i, i ∈ own -> vget 0 os i = w) /\ (forall i, i ∈ others -> vget 0 os i <> w).
Proof.
  intros Hn. split; [intros; by apply rotation_spec|]. split; [apply rotation_length; lia|]. split.
  - unfold affine_order. generalize (rotation n begin). intros l. induction l as [|x l IH]; [done|].
    rewrite !filter_cons. destruct (decide (vget 0 os x = w)), (decide (vget 0 os x <> w)); try done.
    + cbn. by constructor.
    + rewrite <- Permutation_middle. by constructor.
  - eexists _, _. split; [reflexivity|]. split; intros i [H _]%list_elem_of_filter; done.
Qed.

Lemma probe_order_complete_witness : affine_order [0; 1; 0; 1] 4 2 1 = [3; 1; 2; 0] /\ vsize (rotation 4 2) = 4.
Proof. split; [vm_compute; reflexivity|]. exact (proj1 (proj2 (probe_order_complete [0; 1; 0; 1] 4 2 1 eq_refl))). Defined.

(** ** Invariant *)

Definition holds_slot (i : Z) (p : Pc) : Z :=
  match p with Held j | EndWait (ThenHeld j) => if i =? j then 1 else 0 | _ => 0 end.
Definition holds (p : Pc) : Z := match p with Held _ | EndWait (ThenHeld _) => 1 | _ => 0 end.
Definition registered (p : Pc) : Z :=
  match p with Begin _ true | Probe _ true _ | Submit _ | Parked _ | EndWait _ => 1 | _ => 0 end.
(** A task that will read the pipe, or a woken one that will try again. *)
Definition parked (p : Pc) : Z := match p with Probe _ true [] | Submit _ | Parked _ => 1 | _ => 0 end.
Definition retrying (p : Pc) : Z :=
  match p with
  | Begin _ _ | Probe _ _ (_ :: _) | Probe _ false [] | AddWaiter _ | EndWait (ThenRetry _) => 1
  | _ => 0
  end.
Definition releasing (p : Pc) : Z := match p with CountRelease | Notify | LoadWaiters | WritePipe => 1 | _ => 0 end.
Definition counting (p : Pc) : Z := match p with CountRelease => 1 | _ => 0 end.
Definition notifying (p : Pc) : Z := match p with CountRelease | Notify => 1 | _ => 0 end.
Definition sleeping (p : Pc) : Z := match p with Asleep _ _ => 1 | _ => 0 end.
Definition searching (p : Pc) : Z :=
  match p with LoadReleased _ | BeginThread _ _ | ProbeThread _ _ _ | WaitReleased _ _ => 1 | _ => 0 end.

(** Slots named by a client exist. *)
Definition slots_ok (n : Z) (p : Pc) : Prop :=
  match p with
  | Probe _ _ todo | ProbeThread _ _ todo => Forall (fun i => 0 <= i < n) todo
  | Held i | EndWait (ThenHeld i) => 0 <= i < n
  | _ => True
  end.

Ltac each_pc := intros []; cbn; repeat case_match; lia.

Section Invariant.
(** Whether woken tasks may be cancelled; only [pi_parked] depends on it. *)
Variable cancels : bool.

Record pool_inv (c : Threads HttpPool Pc) : Prop := {
  pi_clients : vsize (pcs c) < 2 ^ 64;
  pi_size : 2 <= vsize (busy (shared c));
  pi_slots_ok : Forall (slots_ok (vsize (busy (shared c)))) (pcs c);
  pi_busy : forall i, 0 <= i < vsize (busy (shared c)) ->
    zsum (holds_slot i) (pcs c) = Z.b2z (vget true (busy (shared c)) i);
  pi_waiters : reactor_waiters_ (shared c) = zsum registered (pcs c);
  pi_pipe : 0 <= pipe (shared c);
  pi_parked : cancels = false -> zsum parked (pcs c) = 0 \/
    0 < pipe (shared c) + zsum holds (pcs c) + zsum releasing (pcs c) + zsum retrying (pcs c);
  pi_asleep : asleep (shared c) = zsum sleeping (pcs c);
  pi_permits : 0 <= permits (shared c) <= asleep (shared c);
  pi_released : released_ (shared c) = u64 (releases (shared c)) /\ 0 <= releases (shared c);
}.

(** A thread about to sleep, or asleep, that has not missed a release waits for a lease. *)
Definition wait_ok (count busy : Z) (p : Pc) : Prop :=
  match p with
  | BeginThread _ seen | ProbeThread _ seen (_ :: _) => seen <= count
  | ProbeThread _ seen [] | WaitReleased _ seen | Asleep _ seen => seen < count \/ seen = count /\ 0 < busy
  | _ => True
  end.

Record sleep_inv (c : Threads HttpPool Pc) : Prop := {
  si_wait : Forall (wait_ok (releases (shared c)) (zsum holds (pcs c) + zsum counting (pcs c))) (pcs c);
  si_sleepers : asleep (shared c) = 0 \/
    0 < permits (shared c) + zsum holds (pcs c) + zsum notifying (pcs c) + zsum searching (pcs c);
}.

Ltac counts Hp :=
  cbn [pcs shared]; rewrite ?(zsum_move _ _ _ _ _ Hp);
  cbn [holds registered parked retrying releasing counting notifying sleeping searching
       busy owners worker_next_ next_ released_ pipe reactor_waiters_ asleep permits releases field_set
       free_slot count_release notify_one write_pipe] in *.

Lemma held_busy c i :
  pool_inv c -> 0 <= i < vsize (busy (shared c)) -> vget true (busy (shared c)) i = true -> 1 <= zsum holds (pcs c).
Proof.
  intros P Hi Hb. pose proof (pi_busy _ P i Hi) as E. rewrite Hb in E. cbn [Z.b2z] in E. rewrite <- E.
  apply zsum_le. intros [] _; cbn; repeat case_match; lia.
Qed.

(** The first probes of a search exist and name slots of the pool. *)
Lemma begin_search_spec s b s' todo :
  2 <= vsize (busy s) -> begin_search s b = (s', todo) ->
  Forall (fun i => 0 <= i < vsize (busy s)) todo /\ todo <> [] /\ s' = s <| next_ := u64 (next_ s + 1) |>.
Proof.
  intros Hn [= <- <-]. assert (0 < usable s b <= vsize (busy s)) by (unfold usable; destruct b; cbn; lia).
  split; [|split; [|done]].
  - apply Forall_forall. intros i Hi. apply rotation_spec in Hi; lia.
  - intros E. pose proof (rotation_length (usable s b) (next_ s mod usable s b) ltac:(lia)) as Hl. rewrite E in Hl.
    change (vsize (@nil Z)) with 0 in Hl. lia.
Qed.

Lemma begin_affine_spec s b w s' todo :
  2 <= vsize (busy s) -> begin_affine s b w = (s', todo) ->
  Forall (fun i => 0 <= i < vsize (busy s)) todo /\ todo <> [] /\
  exists l, s' = s <| worker_next_ := l |>.
Proof.
  intros Hn [= <- <-]. assert (0 < usable s b <= vsize (busy s)) by (unfold usable; destruct b; cbn; lia).
  split; [|split; [|by eexists]].
  - apply Forall_forall. intros i Hi. apply affine_spec in Hi; lia.
  - intros E. assert (0 ∈ affine_order (owners s) (usable s b) (vget 0 (worker_next_ s) w mod usable s b) w) as H0
      by (apply affine_spec; lia). rewrite E in H0. by apply not_elem_of_nil in H0.
Qed.

Lemma pool_count_at i p c :
  pool_inv c -> pcs c !! i = Some p ->
  holds p <= zsum holds (pcs c) /\ registered p <= zsum registered (pcs c) /\ parked p <= zsum parked (pcs c) /\
  retrying p <= zsum retrying (pcs c) /\ releasing p <= zsum releasing (pcs c) /\ counting p <= zsum counting (pcs c) /\
  notifying p <= zsum notifying (pcs c) /\ sleeping p <= zsum sleeping (pcs c) /\ searching p <= zsum searching (pcs c) /\
  slots_ok (vsize (busy (shared c))) p.
Proof.
  intros C Hp. repeat split; try (eapply zsum_at; [each_pc|done]).
  apply (proj1 (Forall_lookup _ _) (pi_slots_ok _ C) _ _ Hp).
Qed.

Lemma pool_parked_registered l : zsum parked l <= zsum registered l <= vsize l.
Proof.
  split; [apply zsum_le; intros [] _; cbn; repeat case_match; lia|apply zsum_at_most; each_pc].
Qed.

Lemma counting_notifying l : zsum counting l <= zsum notifying l.
Proof. apply zsum_le. intros [] _; cbn; lia. Qed.

(** Moves that lease and free no slot. *)
Lemma busy_frame c s' i p q :
  pool_inv c -> pcs c !! i = Some p -> busy s' = busy (shared c) -> (forall k, holds_slot k p = holds_slot k q) ->
  slots_ok (vsize (busy (shared c))) q ->
  Forall (slots_ok (vsize (busy s'))) (<[i := q]> (pcs c)) /\
  forall k, 0 <= k < vsize (busy s') -> zsum (holds_slot k) (<[i := q]> (pcs c)) = Z.b2z (vget true (busy s') k).
Proof.
  intros P Hp -> Hh Hq. split; [apply Forall_insert; [apply P|done]|].
  intros k Hk. rewrite (zsum_move _ _ _ _ _ Hp), Hh. rewrite <- (pi_busy _ P k Hk). lia.
Qed.

(** Leasing a free slot, and freeing a leased one. *)
Lemma busy_lease c i p q k :
  pool_inv c -> pcs c !! i = Some p -> 0 <= k < vsize (busy (shared c)) -> vget true (busy (shared c)) k = false ->
  (forall j, holds_slot j p = 0) -> (forall j, holds_slot j q = if j =? k then 1 else 0) ->
  slots_ok (vsize (busy (shared c))) q ->
  Forall (slots_ok (vsize (vset (busy (shared c)) k true))) (<[i := q]> (pcs c)) /\
  forall j, 0 <= j < vsize (vset (busy (shared c)) k true) ->
    zsum (holds_slot j) (<[i := q]> (pcs c)) = Z.b2z (vget true (vset (busy (shared c)) k true) j).
Proof.
  intros P Hp Hk Hf H0 H1 Hq. rewrite vsize_vset. split; [apply Forall_insert; [apply P|done]|].
  intros j Hj. rewrite (zsum_move _ _ _ _ _ Hp), H0, H1, vget_vset, (pi_busy _ P j Hj) by lia.
  rewrite (Z.eqb_sym k j). destruct (Z.eqb_spec j k) as [->|]; [rewrite Hf; cbn; lia|lia].
Qed.

Lemma busy_free c i k :
  pool_inv c -> pcs c !! i = Some (Held k) ->
  Forall (slots_ok (vsize (vset (busy (shared c)) k false))) (<[i := CountRelease]> (pcs c)) /\
  forall j, 0 <= j < vsize (vset (busy (shared c)) k false) ->
    zsum (holds_slot j) (<[i := CountRelease]> (pcs c)) = Z.b2z (vget true (vset (busy (shared c)) k false) j).
Proof.
  intros P Hp. pose proof (proj1 (Forall_lookup _ _) (pi_slots_ok _ P) _ _ Hp) as Hk. cbn in Hk.
  rewrite vsize_vset. split; [apply Forall_insert; [apply P|done]|].
  intros j Hj. rewrite (zsum_move _ _ _ _ _ Hp), vget_vset by lia. cbn.
  rewrite (Z.eqb_sym k j). destruct (Z.eqb_spec j k) as [->|]; [|rewrite (pi_busy _ P j Hj); lia].
  assert (Ha : holds_slot k (Held k) <= zsum (holds_slot k) (pcs c)) by (eapply zsum_at; [each_pc|done]).
  cbn in Ha. rewrite Z.eqb_refl in Ha. rewrite (pi_busy _ P k Hj) in *.
  destruct (vget true (busy (shared c)) k); cbn [Z.b2z] in *; lia.
Qed.

(** One operation of a client: the whole of what it does to the pool. *)
Inductive pool_move (s : HttpPool) : HttpPool -> Pc -> Pc -> Prop :=
  | move_start t : pool_move s s Idle (Begin t false)
  | move_start_thread b : pool_move s s Idle (LoadReleased b)
  | move_search t second l n todo :
      todo <> [] -> Forall (fun i => 0 <= i < vsize (busy s)) todo ->
      pool_move s (s <| worker_next_ := l |> <| next_ := n |>) (Begin t second) (Probe t second todo)
  | move_next p q k :
      vget true (busy s) k = true ->
      (exists t second todo, p = Probe t second (k :: todo) /\ q = Probe t second todo) \/
      (exists b seen todo, p = ProbeThread b seen (k :: todo) /\ q = ProbeThread b seen todo) ->
      pool_move s s p q
  | move_lease p q k :
      vget true (busy s) k = false ->
      (exists t second todo, p = Probe t second (k :: todo) /\ q = if second then EndWait (ThenHeld k) else Held k) \/
      (exists b seen todo, p = ProbeThread b seen (k :: todo) /\ q = Held k) ->
      pool_move s (s <| busy := vset (busy s) k true |>) p q
  | move_none t second : pool_move s s (Probe t second []) (if second then Submit t else AddWaiter t)
  | move_register t : pool_move s (s <| reactor_waiters_ := u64 (reactor_waiters_ s + 1) |>) (AddWaiter t) (Begin t true)
  | move_submit t : pool_move s s (Submit t) (Parked t)
  | move_fail p : (exists t, p = Submit t \/ p = Parked t) -> pool_move s s p (EndWait ThenFail)
  | move_read t : 0 < pipe s -> pool_move s (s <| pipe := pipe s - 1 |>) (Parked t) (EndWait (ThenRetry t))
  | move_unregister next :
      pool_move s (s <| reactor_waiters_ := u64 (reactor_waiters_ s - 1) |>) (EndWait next)
        match next with ThenHeld i => Held i | ThenRetry t => Begin t false | ThenFail => Idle end
  | move_load b : pool_move s s (LoadReleased b) (BeginThread b (released_ s))
  | move_search_thread b seen n todo :
      todo <> [] -> Forall (fun i => 0 <= i < vsize (busy s)) todo ->
      pool_move s (s <| next_ := n |>) (BeginThread b seen) (ProbeThread b seen todo)
  | move_none_thread b seen : pool_move s s (ProbeThread b seen []) (WaitReleased b seen)
  | move_sleep b : pool_move s (s <| asleep := asleep s + 1 |>) (WaitReleased b (released_ s)) (Asleep b (released_ s))
  | move_again b seen : released_ s <> seen -> pool_move s s (WaitReleased b seen) (LoadReleased b)
  | move_wake b seen :
      0 < permits s ->
      pool_move s (s <| asleep := asleep s - 1 |> <| permits := permits s - 1 |>) (Asleep b seen) (WaitReleased b seen)
  | move_free k : pool_move s (free_slot s k) (Held k) CountRelease
  | move_count : pool_move s (count_release s) CountRelease Notify
  | move_notify : pool_move s (notify_one s) Notify LoadWaiters
  | move_no_waiters : reactor_waiters_ s = 0 -> pool_move s s LoadWaiters Idle
  | move_waiters : pool_move s s LoadWaiters WritePipe
  | move_write : pool_move s (write_pipe s) WritePipe Idle
  | move_cancel t : cancels = true -> pool_move s s (EndWait (ThenRetry t)) (EndWait ThenFail).

(** The program points a move names. *)
Ltac move_shape :=
  repeat match goal with
    | H : exists _, _ |- _ => destruct H
    | H : _ \/ _ |- _ => destruct H
    | H : _ /\ _ |- _ => destruct H
    end; subst; repeat match goal with b : bool |- _ => assert_fails (constr_eq b cancels); destruct b end.

Lemma outcome_idle s s' p' :
  (s', p') ∈ outcomes internal (external cancels) s Idle ->
  s' = s /\ ((exists t, p' = Begin t false) \/ exists b, p' = LoadReleased b).
Proof.
  unfold outcomes. cbn. rewrite !elem_of_cons, elem_of_app, !list_elem_of_In, !in_map_iff.
  intros Ho. destruct_or? Ho; destruct_and?; simplify_eq; eauto;
    destruct Ho as (w & E & _); simplify_eq; eauto.
Qed.

Lemma outcome_move s s' p p' :
  2 <= vsize (busy s) -> (s', p') ∈ outcomes internal (external cancels) s p -> pool_move s s' p p'.
Proof.
  intros Hn Ho.
  destruct p as [|t second|t second []| | | | | | |b seen []| | | | | | |];
    [apply outcome_idle in Ho as [-> [[? ->]|[? ->]]]; constructor|..].
  all: unfold outcomes in Ho; cbn in Ho; unfold try_slot in Ho; repeat case_match; rewrite ?app_nil_r in Ho;
    set_unfold in Ho; destruct_or? Ho; simplify_eq/=; bool_case; subst.
  - match goal with E : begin_affine _ _ _ = _ |- _ => apply begin_affine_spec in E as (H1 & H2 & l' & ->) end; [|done].
    exact (move_search s t second l' (next_ s) _ H2 H1).
  - match goal with E : begin_search _ _ = _ |- _ => apply begin_search_spec in E as (H1 & H2 & ->) end; [|done].
    exact (move_search s t second (worker_next_ s) _ _ H2 H1).
  - exact (move_none s t true).
  - exact (move_none s t false).
  - apply move_lease; [done|]. left. by exists t, true, l.
  - apply move_lease; [done|]. left. by exists t, false, l.
  - eapply move_next; [done|]. left. by exists t, second, l.
  - apply move_register.
  - apply move_submit.
  - apply move_fail. eauto.
  - by apply move_read.
  - apply move_fail. eauto.
  - apply move_fail. eauto.
  - exact (move_unregister s (ThenHeld slot)).
  - exact (move_unregister s (ThenRetry t)).
  - by apply move_cancel.
  - exact (move_unregister s (ThenRetry t)).
  - exact (move_unregister s ThenFail).
  - apply move_load.
  - destruct (begin_search_spec s bulk0 _ _ Hn eq_refl) as (H1 & H2 & _). by apply move_search_thread.
  - apply move_none_thread.
  - apply move_lease; [done|]. right. by exists b, seen, l.
  - eapply move_next; [done|]. right. by exists b, seen, l.
  - apply move_sleep.
  - by apply move_again.
  - by apply move_wake.
  - apply move_free.
  - apply move_count.
  - apply move_notify.
  - by apply move_no_waiters.
  - apply move_waiters.
  - apply move_write.
Qed.

(** The leases after a move are those of the busy flags. *)
Lemma move_leases i p s' p' c :
  pool_inv c -> pcs c !! i = Some p -> pool_move (shared c) s' p p' ->
  Forall (slots_ok (vsize (busy s'))) (<[i := p']> (pcs c)) /\
  (forall k, 0 <= k < vsize (busy s') ->
     zsum (holds_slot k) (<[i := p']> (pcs c)) = Z.b2z (vget true (busy s') k)) /\
  vsize (busy s') = vsize (busy (shared c)).
Proof.
  intros P Hp M. pose proof (proj1 (Forall_lookup _ _) (pi_slots_ok _ P) _ _ Hp) as Hk.
  assert (Hframe := busy_frame c s' i p p' P Hp).
  assert (Hlease := fun k => busy_lease c i p p' k P Hp).
  destruct M as [| | | |? ? k Hf Hlook| | | |? Hw| |[]| | | | | | |k| | | | | |].
  all: try (split_and!; [apply Hframe; done..|done]).
  - match goal with H : _ \/ _ |- _ => destruct H as [(?&?&?&->&->)|(?&?&?&->&->)] end;
      apply Forall_cons in Hk as [_ Hk]; split_and!; try (apply Hframe; done); done.
  - destruct Hlook as [(?&second&?&->&->)|(?&?&?&->&->)]; apply Forall_cons in Hk as [Hk _];
      cbn [busy field_set]; destruct (Hlease k Hk Hf) as [F1 F2];
      rewrite ?vsize_vset in *; try destruct second; auto.
  - destruct second; split_and!; try (apply Hframe; done); done.
  - destruct Hw as [? [->| ->]]; split_and!; try (apply Hframe; done); done.
  - destruct (busy_free c i k P Hp) as [F1 F2]. cbn [free_slot busy field_set]. rewrite vsize_vset in *. auto.
Qed.

Lemma pool_step i p s' p' c :
  pool_inv c -> pcs c !! i = Some p -> pool_move (shared c) s' p p' ->
  pool_inv (mkThreads s' (<[i := p']> (pcs c))).
Proof.
  intros P Hp M. destruct (pool_count_at _ _ _ P Hp) as (A1 & A2 & A3 & A4 & A5 & A6 & A7 & A8 & A9 & A10).
  destruct (move_leases _ _ _ _ _ P Hp M) as (F1 & F2 & F3).
  pose proof (pool_parked_registered (pcs c)) as [B1 B2].
  pose proof (pool_parked_registered (<[i := p']> (pcs c))) as [_ B3].
  rewrite (zsum_move _ _ _ _ _ Hp) in B3.
  assert (Hlen : vsize (<[i := p']> (pcs c)) = vsize (pcs c)) by (unfold vsize; by rewrite length_insert).
  rewrite Hlen in B3. pose proof P as [P1 P2 P3 P4 P5 P6 P7 P8 P9 P10].
  assert (Hheld := fun k => held_busy c k P).
  constructor; cbn [pcs shared]; [by rewrite Hlen|by rewrite F3|done|done|..]; clear F1 F2 F3.
  all: destruct M as [| |t second l n []| |? ? k Hf Hlook| | | |? Hw| |[]| |? ? ? []| | | | |k| | | | | |]; try done.
  all: move_shape; try (intros Hcan; specialize (P7 Hcan); try congruence).
  all: counts Hp; unfold pipe_capacity.
  all: try rewrite u64_small by lia; try done; try lia.
  - apply Forall_cons in A10 as [Hk _]. specialize (Hheld k Hk ltac:(done)). case_match; lia.
  - apply Forall_cons in A10 as [Hk _]. specialize (Hheld k Hk ltac:(done)). case_match; lia.
  - split; [|lia]. match goal with E : released_ _ = _ |- _ => rewrite E end. unfold u64. by rewrite Zplus_mod_idemp_l.
Qed.

(** The release counter only grows. *)
Lemma releases_mono s s' p p' : pool_move s s' p p' -> releases s <= releases s'.
Proof. destruct 1; cbn; lia. Qed.

(** Others' waits are kept: leases end only in a counted release. *)
Lemma wait_kept count busy count' busy' p :
  count <= count' -> (count = count' -> 0 < busy -> 0 < busy') -> wait_ok count busy p -> wait_ok count' busy' p.
Proof. intros H1 H2. destruct p; cbn; repeat case_match; lia. Qed.

Lemma pool_wait_step i p s' p' c :
  pool_inv c -> pcs c !! i = Some p -> pool_move (shared c) s' p p' -> releases s' < 2 ^ 64 ->
  sleep_inv c -> Forall (wait_ok (releases s') (zsum holds (<[i := p']> (pcs c)) + zsum counting (<[i := p']> (pcs c))))
                   (<[i := p']> (pcs c)).
Proof.
  intros P Hp M Hr [S1 S2]. destruct (pool_count_at _ _ _ P Hp) as (A1 & A2 & A3 & A4 & A5 & A6 & A7 & A8 & A9 & A10).
  pose proof (pi_released _ P) as [E1 E2]. pose proof (releases_mono _ _ _ _ M) as Hm.
  rewrite u64_small in E1 by lia. assert (Hheld := fun k => held_busy c k P).
  pose proof (proj1 (Forall_lookup _ _) S1 _ _ Hp) as Hw.
  rewrite !(zsum_move _ _ _ _ _ Hp). eapply Forall_move; [exact S1| |].
  - intros x _. apply wait_kept; [done|]. intros Heq.
    destruct M as [| | | |? ? k Hf Hlook| | | |? Hx| |[]| | | | | | |k| | | | | |]; cbn in *; try lia;
      move_shape; cbn in *; lia.
  - destruct M as [| | | |? ? k Hf Hlook| | | |? Hx| |[]| | | | | | |k| | | | | |]; cbn in *; try lia.
    + destruct H0 as [(?&second&todo&->&->)|(?&seen&todo&->&->)]; [done|]. apply Forall_cons in A10 as [Hk _].
      specialize (Hheld k Hk H). cbn in *. case_match; lia.
    + destruct Hlook as [(?&[]&?&->&->)|(?&?&?&->&->)]; done.
    + by destruct second.
    + by destruct todo.
Qed.

Lemma sleepers_step i p s' p' c :
  pool_inv c -> pcs c !! i = Some p -> pool_move (shared c) s' p p' -> releases s' < 2 ^ 64 -> sleep_inv c ->
  asleep s' = 0 \/ 0 < permits s' + zsum holds (<[i := p']> (pcs c)) + zsum notifying (<[i := p']> (pcs c)) +
                       zsum searching (<[i := p']> (pcs c)).
Proof.
  intros P Hp M Hr [S1 S2]. destruct (pool_count_at _ _ _ P Hp) as (A1 & A2 & A3 & A4 & A5 & A6 & A7 & A8 & A9 & A10).
  pose proof (pi_released _ P) as [E1 E2]. pose proof (releases_mono _ _ _ _ M) as Hm.
  rewrite u64_small in E1 by lia. pose proof (counting_notifying (pcs c)) as Hc.
  pose proof (proj1 (Forall_lookup _ _) S1 _ _ Hp) as Hw.
  destruct (pi_permits _ P) as [B1 B2].
  destruct M as [| | | |? ? k Hf Hlook| | | |? Hx| |[]| | | | | | |k| | | | | |]; cbn in Hw;
    move_shape; counts Hp; lia.
Qed.

Lemma pool_start slots workers n :
  2 <= slots -> Z.of_nat n < 2 ^ 64 ->
  let c := mkThreads (make_pool slots workers) (replicate n Idle) in pool_inv c /\ sleep_inv c.
Proof.
  intros Hs Hn c.
  assert (Hf : forall p, p ∈ pcs c -> p = Idle) by (intros p [? _]%elem_of_replicate; done).
  assert (Hz : forall f : Pc -> Z, f Idle = 0 -> zsum f (pcs c) = 0)
    by (intros f Hf0; apply zsum_zero; intros p ->%Hf; done).
  assert (Hv : vsize (busy (shared c)) = slots) by (unfold vsize; cbn; rewrite length_replicate; lia).
  split; constructor; cbn [pcs shared c] in *; rewrite ?Hv, ?Hz by done; try done; try lia.
  - unfold vsize. rewrite length_replicate. lia.
  - apply Forall_forall. by intros p ->%Hf.
  - intros i Hi. rewrite Hz by done. cbn. unfold vget.
    by rewrite lookup_replicate_2 by lia.
  - apply Forall_forall. by intros p ->%Hf.
  - by left.
Qed.

Lemma pool_reaches slots workers n c :
  2 <= slots -> Z.of_nat n < 2 ^ 64 -> reaches cancels slots workers n c ->
  pool_inv c /\ (releases (shared c) < 2 ^ 64 -> sleep_inv c).
Proof.
  intros Hs Hn. apply (interleave_invariant _ _ (fun c => pool_inv c /\ (releases (shared c) < 2 ^ 64 -> sleep_inv c))).
  - intros i p s' p' d [P S] Hp Ho. apply outcome_move in Ho; [|apply P]. split; [by eapply pool_step|].
    intros Hr. cbn in Hr. pose proof (releases_mono _ _ _ _ Ho) as Hm. specialize (S ltac:(lia)).
    split; cbn [pcs shared]; [by eapply pool_wait_step|by eapply sleepers_step].
  - destruct (pool_start slots workers n Hs Hn) as [P S]. split; [exact P|]. intros _. exact S.
Qed.

(** A client that cannot go on waits for a byte of the pipe or for a release. *)
Lemma stuck_pool c p :
  p ∈ pcs c -> internal (shared c) p = [] ->
  p = Idle \/ (exists t, p = Parked t /\ pipe (shared c) <= 0) \/
  exists b seen, p = Asleep b seen /\ permits (shared c) <= 0.
Proof.
  intros _ Hs. destruct p; cbn in Hs; repeat case_match; simplify_eq; bool_case; eauto 8.
Qed.

Lemma pool_stuck c :
  pool_inv c -> sleep_inv c -> can_step internal c = false ->
  forall p, p ∈ pcs c -> p = Idle \/ cancels = true /\ exists t, p = Parked t.
Proof.
  intros P S Hs. rewrite can_step_false in Hs. assert (Hkind := fun p Hp => stuck_pool c p Hp (Hs p Hp)).
  assert (Hnone : forall f : Pc -> Z, f Idle = 0 -> (forall t, f (Parked t) = 0) -> (forall b n, f (Asleep b n) = 0) ->
            zsum f (pcs c) = 0).
  { intros f H1 H2 H3. apply zsum_zero. intros p [->|[(t & -> & _)|(b & n & -> & _)]]%Hkind; auto. }
  destruct P as [P1 P2 P3 P4 P5 P6 P7 P8 P9 P10]. destruct S as [_ S2].
  rewrite (Hnone holds), (Hnone notifying), (Hnone searching) in S2 by done.
  intros p Hp. destruct (Hkind p Hp) as [|[(t & -> & Ht)|(b & n & -> & Ht)]]; [by left| |];
    [destruct cancels; [by eauto|specialize (P7 eq_refl)]|]; exfalso;
    apply list_elem_of_lookup_1 in Hp as [i Hi].
  - rewrite (Hnone holds), (Hnone releasing), (Hnone retrying) in P7 by done.
    pose proof (zsum_at parked (pcs c) i (Parked t) ltac:(each_pc) Hi) as Ha. cbn in Ha. lia.
  - pose proof (zsum_at sleeping (pcs c) i (Asleep b n) ltac:(each_pc) Hi) as Ha. cbn in Ha. lia.
Qed.

End Invariant.

(** C28: in every interleaving of the threads and reactor tasks that lease connections, woken
    tasks that are cancelled included, a slot is leased by at most one of them and its busy
    flag is set exactly while it is, and the waiter count is the number of registered tasks.
    As long as some client has not finished, some client can go on, unless woken tasks were
    cancelled ([cancels]) and only parked tasks are left: no thread is ever left asleep, and
    without such a cancellation no task is left parked, beside a pool in which no lease is out
    or being returned. *)
Theorem http_pool_correct cancels slots workers n c :
  2 <= slots -> Z.of_nat n < 2 ^ 64 -> reaches cancels slots workers n c ->
  (forall i, 0 <= i < vsize (busy (shared c)) ->
     zsum (holds_slot i) (pcs c) = Z.b2z (vget true (busy (shared c)) i)) /\
  (forall i j k, i <> j -> pcs c !! i = Some (Held k) -> pcs c !! j <> Some (Held k)) /\
  reactor_waiters_ (shared c) = zsum registered (pcs c) /\
  (releases (shared c) < 2 ^ 64 ->
   (exists p, p ∈ pcs c /\ p <> Idle /\ (cancels = true -> forall t, p <> Parked t)) ->
   can_step internal c = true).
Proof.
  intros Hs Hn R. destruct (pool_reaches cancels slots workers n c Hs Hn R) as [P S].
  split; [apply P|]. split; [|split; [apply P|]].
  - intros i j k Hne Hi Hj. pose proof (proj1 (Forall_lookup _ _) (pi_slots_ok _ _ P) _ _ Hi) as Hk.
    pose proof (zsum_two (holds_slot k) _ i j _ _ ltac:(each_pc) Hne Hi Hj) as H2.
    rewrite (pi_busy _ _ P k Hk) in H2. cbn in H2. rewrite Z.eqb_refl in H2.
    destruct (vget true (busy (shared c)) k); cbn in H2; lia.
  - intros Hr (p & Hp & Hne & Hc'). destruct (can_step internal c) eqn:Hc; [done|].
    exfalso. destruct (pool_stuck cancels c P (S Hr) Hc p Hp) as [?|[Ht [t ?]]]; [done|].
    by apply (Hc' Ht t).
Qed.

Definition steps (i : nat) (n : nat) : list (nat * nat) := replicate n (i, O).

(** One bulk and one demand transfer lease both slots; a bulk task and a demand task are
    parked; the demand transfer has returned its slot and written a byte. *)
Definition parked_schedule : list (nat * nat) :=
  (0, 1)%nat :: steps 0 2 ++ steps 1 3 ++ (2, 1)%nat :: steps 2 8 ++ steps 3 11 ++ steps 1 5.

Definition pool_sample : Threads HttpPool Pc :=
  let start := mkThreads (make_pool 2 0) (replicate 4 Idle) in
  default start (schedule internal (external false) parked_schedule start).

Lemma http_pool_correct_witness :
  reaches false 2 0 4 pool_sample /\
  pcs pool_sample = [Held 0; Idle; Parked (mkTask true None); Parked (mkTask false None)] /\
  pipe (shared pool_sample) = 1 /\ can_step internal pool_sample = true.
Proof.
  assert (R : reaches false 2 0 4 pool_sample).
  { apply (schedule_reaches internal (external false) parked_schedule). vm_compute. reflexivity. }
  split; [exact R|]. split; [vm_compute; reflexivity|]. split; [vm_compute; reflexivity|].
  apply (http_pool_correct false 2 0 4 pool_sample ltac:(lia) ltac:(lia) R); [vm_compute; reflexivity|]. exists (Held 0).
  split; [|by split]. apply list_elem_of_In. vm_compute. auto.
Defined.

(** One byte of the pipe announces one idle slot to whichever task reads it. *)
Definition bulk_schedule : list (nat * nat) := parked_schedule ++ steps 2 10.

Definition cancel_schedule : list (nat * nat) :=
  steps 0 3 ++ steps 1 3 ++ steps 2 11 ++ steps 3 11 ++ steps 4 11 ++ steps 0 5 ++ steps 1 5 ++
  (2, 0)%nat :: (2, 1)%nat :: (2, 0)%nat :: (3, 0)%nat :: (3, 1)%nat :: steps 3 1.

(** C34: wakeups can be taken by tasks that do not use them.  A bulk task can take the byte of
    the slot reserved for demand reads, and the demand task then stays parked beside that
    idle slot until a bulk transfer ends.  A task cancelled after its read of the pipe has
    completed keeps its byte: with two such tasks a third stays parked for ever beside a pool
    all of whose slots are free. *)
Theorem pipe_wakeup_taken :
  (exists c, reaches false 2 0 4 c /\
     pcs c = [Held 0; Idle; Parked (mkTask true None); Parked (mkTask false None)] /\
     busy (shared c) = [true; false] /\ pipe (shared c) = 0) /\
  (exists c, reaches true 2 0 5 c /\
     pcs c = [Idle; Idle; Idle; Idle; Parked (mkTask false None)] /\
     busy (shared c) = [false; false] /\ can_step internal c = false).
Proof.
  split.
  - exists (let start := mkThreads (make_pool 2 0) (replicate 4 Idle) in
            default start (schedule internal (external false) bulk_schedule start)).
    split; [|by vm_compute]. apply (schedule_reaches internal (external false) bulk_schedule). by vm_compute.
  - exists (let start := mkThreads (make_pool 2 0) (replicate 5 Idle) in
            default start (schedule internal (external true) cancel_schedule start)).
    split; [|by vm_compute]. apply (schedule_reaches internal (external true) cancel_schedule). by vm_compute.
Qed.
