(* ===== verification/Uploads.v ===== *)
(** * UploadScheduler

    The scheduler of [fuse.cpp] that runs upload jobs on a fixed set of worker threads and
    bounds the uploads in progress.  Asynchronous uploads and the uploads of reactors
    ("owner uploads") keep their place until [finish_upload], long after the worker that
    started them has gone on.  Every critical section of [mutex_] is one step. *)

From S2P Require Import Prelude Interleave.

(** ** State *)

(** A queued [Job]; [job_id] stands for its closure. *)
Record Job := mkJob { job_id : Z; owner : Z; upload : bool; asynchronous : bool }.

Inductive Worker :=
  | Checking (* about to evaluate the predicate of [condition_.wait] *)
  | Waiting
  | Running (job : Job)
  | Exited.

(** What the scheduler has done, for the statements below: closures run, owner uploads
    activated, owner uploads cancelled by [shutdown]. *)
Inductive Event := Ran (id : Z) | Activated (id : Z) | Cancelled (id : Z).

(** [permits] is the number of waiting workers that a notification has released;
    [admitted] are the asynchronous and owner uploads that [finish_upload] has not ended.
    An owner of 0 is [nullptr]. *)
Record Scheduler := mkScheduler {
  workers : list Worker;
  jobs_ : list Job;
  owner_jobs_ : list Z;
  max_uploads_ : Z;
  active_uploads_ : Z;
  last_owner_ : Z;
  stopping_ : bool;
  permits : Z;
  admitted : list Z;
  events : list Event;
}.

#[export] Instance Scheduler_settable : Settable Scheduler := fun s =>
  mkScheduler (workers s) (jobs_ s) (owner_jobs_ s) (max_uploads_ s) (active_uploads_ s)
    (last_owner_ s) (stopping_ s) (permits s) (admitted s) (events s).

Definition make_UploadScheduler (concurrency : Z) : Scheduler :=
  mkScheduler [] [] [] concurrency 0 0 false 0 [] [].

Definition waits (w : Worker) : Z := match w with Waiting => 1 | _ => 0 end.
Definition asleep (s : Scheduler) : Z := zsum waits (workers s).

Definition notify_one (s : Scheduler) : Scheduler := s <| permits := Z.min (asleep s) (permits s + 1) |>.
Definition notify_all (s : Scheduler) : Scheduler := s <| permits := asleep s |>.

(** ** Operations *)

Definition start_workers_locked (s : Scheduler) : Scheduler :=
  s <| workers := workers s ++ replicate (Z.to_nat (max_uploads_ s - vsize (workers s))) Checking |>.

(** [submit] and [submit_upload]. *)
Definition submit (s : Scheduler) (job : Job) : Scheduler * result unit :=
  if stopping_ s then (s, Throw (SystemError ECANCELED))
  else
    let s := start_workers_locked s in
    (notify_one (s <| jobs_ := jobs_ s ++ [job] |>), Ok tt).

(** [activate] and the posting of the continuation. *)
Definition activate (s : Scheduler) (id : Z) : Scheduler :=
  s <| admitted := admitted s ++ [id] |> <| events := events s ++ [Activated id] |>.

Definition submit_owner_upload (s : Scheduler) (id : Z) : Scheduler * result unit :=
  if stopping_ s then (s, Throw (SystemError ECANCELED))
  else if active_uploads_ s <? max_uploads_ s
  then (activate (s <| active_uploads_ := active_uploads_ s + 1 |>) id, Ok tt)
  else (s <| owner_jobs_ := owner_jobs_ s ++ [id] |>, Ok tt).

(** [None] is the [abort]. *)
Definition finish_upload (s : Scheduler) : option Scheduler :=
  if active_uploads_ s =? 0 then None
  else
    let s := s <| active_uploads_ := active_uploads_ s - 1 |> in
    match owner_jobs_ s with
    | id :: rest =>
        if stopping_ s then Some (notify_all s)
        else Some (activate (notify_all (s <| owner_jobs_ := rest |> <| active_uploads_ := active_uploads_ s + 1 |>)) id)
    | [] => Some (notify_all s)
    end.

(** [shutdown] up to the joins, and the completions after them (the reactors accept them at
    any later time). *)
Definition shutdown (s : Scheduler) : Scheduler :=
  if stopping_ s then s
  else notify_all (s <| stopping_ := true |> <| owner_jobs_ := [] |>
                     <| events := events s ++ map Cancelled (owner_jobs_ s) |>).

Definition eligible (s : Scheduler) (candidate : Job) : bool :=
  negb (upload candidate) || (active_uploads_ s <? max_uploads_ s).

(** The predicate of [condition_.wait]. *)
Definition ready (s : Scheduler) : bool :=
  (stopping_ s && bool_decide (jobs_ s = [])) || existsb (eligible s) (jobs_ s).

(** [std::find_if]: the first job that satisfies [f] and the jobs without it. *)
Fixpoint find_job (f : Job -> bool) (l : list Job) : option (Job * list Job) :=
  match l with
  | [] => None
  | job :: rest =>
      if f job then Some (job, rest)
      else match find_job f rest with
           | Some (found, others) => Some (found, job :: others)
           | None => None
           end
  end.

Definition select (s : Scheduler) : option (Job * list Job) :=
  let selected := find_job (eligible s) (jobs_ s) in
  if last_owner_ s =? 0 then selected
  else match find_job (fun candidate => negb (owner candidate =? last_owner_ s) && eligible s candidate) (jobs_ s) with
       | Some different => Some different
       | None => selected
       end.

Definition set_worker (s : Scheduler) (i : nat) (w : Worker) : Scheduler :=
  s <| workers := <[i := w]> (workers s) |>.

(** One pass of [worker] through its critical section. *)
Definition worker_turn (s : Scheduler) (i : nat) : Scheduler :=
  if negb (ready s) then set_worker s i Waiting
  else match select s with
       | None => set_worker s i Exited
       | Some (job, rest) =>
           let s := s <| jobs_ := rest |> <| last_owner_ := owner job |>
                      <| events := events s ++ [Ran (job_id job)] |> in
           let s := if upload job then s <| active_uploads_ := active_uploads_ s + 1 |> else s in
           let s := if upload job && asynchronous job then s <| admitted := admitted s ++ [job_id job] |> else s in
           set_worker s i (Running job)
       end.

(** [run] has returned. *)
Definition worker_done (s : Scheduler) (i : nat) (job : Job) : option Scheduler :=
  let s := set_worker s i Checking in
  if upload job && negb (asynchronous job) then finish_upload s else Some s.

(** ** Executions *)

(** Steps of the workers and of uploads that end. *)
Inductive upload_step : Scheduler -> Scheduler -> Prop :=
  | step_turn s i : workers s !! i = Some Checking -> upload_step s (worker_turn s i)
  | step_notified s i :
      workers s !! i = Some Waiting -> 0 < permits s ->
      upload_step s (set_worker (s <| permits := permits s - 1 |>) i Checking)
  | step_spurious s i :
      workers s !! i = Some Waiting -> permits s < asleep s -> upload_step s (set_worker s i Checking)
  | step_done s s' i job : workers s !! i = Some (Running job) -> worker_done s i job = Some s' -> upload_step s s'
  | step_finish s s' id a b :
      admitted s = a ++ id :: b -> finish_upload (s <| admitted := a ++ b |>) = Some s' -> upload_step s s'
  | step_shutdown s : upload_step s (shutdown s).

(** [upload_run n js os s]: a scheduler for [n] uploads that has accepted the jobs [js] and
    the owner uploads [os] can be in state [s]. *)
Inductive upload_run (n : Z) : list Z -> list Z -> Scheduler -> Prop :=
  | run_start : upload_run n [] [] (make_UploadScheduler n)
  | run_submit js os s s' job :
      upload_run n js os s -> submit s job = (s', Ok tt) -> upload_run n (js ++ [job_id job]) os s'
  | run_owner js os s s' id :
      upload_run n js os s -> submit_owner_upload s id = (s', Ok tt) -> upload_run n js (os ++ [id]) s'
  | run_step js os s s' : upload_run n js os s -> upload_step s s' -> upload_run n js os s'.

(** ** Selection *)

Lemma find_job_some f l job rest :
  find_job f l = Some (job, rest) ->
  exists a b, l = a ++ job :: b /\ rest = a ++ b /\ f job = true /\ Forall (fun j => f j = false) a.
Proof.
  revert rest. induction l as [|x l IH]; intros rest H; cbn in H; [done|]. destruct (f x) eqn:Hx.
  - simplify_eq. by exists [], rest.
  - destruct (find_job f l) as [[found others]|] eqn:E; [|done]. simplify_eq.
    destruct (IH others eq_refl) as (a & b & -> & -> & Hf & Ha). exists (x :: a), b. repeat split; auto.
Qed.

Lemma find_job_none f l : find_job f l = None <-> Forall (fun j => f j = false) l.
Proof.
  induction l as [|x l IH]; cbn; [split; auto|]. rewrite Forall_cons, <- IH.
  destruct (f x); [intuition congruence|]. destruct (find_job f l) as [[]|]; intuition congruence.
Qed.

Lemma select_some s job rest :
  select s = Some (job, rest) ->
  exists a b, jobs_ s = a ++ job :: b /\ rest = a ++ b /\ eligible s job = true /\
    ((owner job <> last_owner_ s /\
      Forall (fun j => eligible s j = true -> owner j = last_owner_ s \/ last_owner_ s = 0) a) \/
     (Forall (fun j => eligible s j = true -> owner j = last_owner_ s \/ last_owner_ s = 0) (jobs_ s) /\
      Forall (fun j => eligible s j = false) a)).
Proof.
  unfold select. intros H. destruct (Z.eqb_spec (last_owner_ s) 0) as [H0|H0].
  - apply find_job_some in H as (a & b & E & -> & He & Ha). exists a, b. repeat split; auto. right.
    split; [apply Forall_forall; auto|done].
  - destruct (find_job _ (jobs_ s)) as [[different others]|] eqn:E in H.
    + simplify_eq. apply find_job_some in E as (a & b & E & -> & He & Ha). bool_case.
      exists a, b. repeat split; auto. left. split; [done|]. eapply Forall_impl; [done|]. cbn. intros j Hj Hel.
      rewrite Hel, andb_true_r in Hj. left. by destruct (Z.eqb_spec (owner j) (last_owner_ s)).
    + apply find_job_none in E. apply find_job_some in H as (a & b & E' & -> & He & Ha).
      exists a, b. repeat split; auto. right. split; [|done]. eapply Forall_impl; [done|]. cbn. intros j Hj Hel.
      rewrite Hel, andb_true_r in Hj. left. by destruct (Z.eqb_spec (owner j) (last_owner_ s)).
Qed.

Lemma select_none s : select s = None <-> existsb (eligible s) (jobs_ s) = false.
Proof.
  assert (Hf : find_job (eligible s) (jobs_ s) = None <-> existsb (eligible s) (jobs_ s) = false).
  { rewrite find_job_none, <- not_true_iff_false, existsb_exists, Forall_forall. split.
    - intros H (j & Hj%list_elem_of_In & He). rewrite (H j Hj) in He. done.
    - intros H j Hj%list_elem_of_In. apply not_true_is_false. intros He. apply H. by exists j. }
  unfold select. destruct (Z.eqb_spec (last_owner_ s) 0); [done|].
  destruct (find_job (fun _ => _) (jobs_ s)) as [[job rest]|] eqn:E; [|done].
  split; [done|]. apply find_job_some in E as (a & b & E & _ & He & _). rewrite E, existsb_app. cbn. bool_case.
  destruct (eligible s job); [by rewrite orb_true_r|done].
Qed.

(** ** Invariant *)

Definition checks (w : Worker) : Z := match w with Checking => 1 | _ => 0 end.
Definition uploads (w : Worker) : Z :=
  match w with Running job => Z.b2z (upload job && negb (asynchronous job)) | _ => 0 end.
Definition ran (s : Scheduler) : list Z := omap (fun e => match e with Ran id => Some id | _ => None end) (events s).
Definition activated (s : Scheduler) : list Z :=
  omap (fun e => match e with Activated id => Some id | _ => None end) (events s).
Definition cancelled (s : Scheduler) : list Z :=
  omap (fun e => match e with Cancelled id => Some id | _ => None end) (events s).
(** 1 for a job that can run when [free] says whether another upload can start. *)
Definition runs (free : bool) (job : Job) : Z := Z.b2z (negb (upload job) || free).
Definition runnable (s : Scheduler) : Z := zsum (runs (active_uploads_ s <? max_uploads_ s)) (jobs_ s).

(** [ending] is 1 inside [finish_upload], before an upload that has ended is uncounted. *)
Record sched_inv (ending n : Z) (js os : list Z) (s : Scheduler) : Prop := {
  si_max : max_uploads_ s = n;
  si_active : active_uploads_ s = zsum uploads (workers s) + vsize (admitted s) + ending;
  si_bound : active_uploads_ s <= n;
  si_owners : owner_jobs_ s = [] \/ active_uploads_ s = n /\ stopping_ s = false;
  si_permits : 0 <= permits s <= asleep s;
  si_work : permits s < asleep s -> runnable s <= permits s + zsum checks (workers s);
  si_threads : workers s = [] /\ jobs_ s = [] \/ vsize (workers s) = n;
  si_exited : Exited ∈ workers s -> stopping_ s = true /\ jobs_ s = [];
  si_stop : stopping_ s = true -> permits s < asleep s -> runnable s = 0 /\ jobs_ s <> [];
  si_jobs : js ≡ₚ map job_id (jobs_ s) ++ ran s;
  si_uploads : os ≡ₚ owner_jobs_ s ++ activated s ++ cancelled s;
  si_cancelled : cancelled s = [] \/ stopping_ s = true;
}.

Lemma runs_bounds free job : 0 <= runs free job <= 1.
Proof. unfold runs. destruct (_ || _); cbn; lia. Qed.

(** Fewer jobs can run when no upload can start. *)
Lemma runs_mono free free' l : (free = false -> free' = false) -> zsum (runs free') l <= zsum (runs free) l.
Proof. intros H. apply zsum_le. intros j _. unfold runs. destruct free, free', (upload j); cbn; intuition (done || lia). Qed.

Lemma runnable_zero s : existsb (eligible s) (jobs_ s) = false <-> runnable s = 0.
Proof.
  unfold runnable. split.
  - intros H. apply zsum_zero. intros j Hj. unfold runs. destruct (_ || _) eqn:E; [|done].
    rewrite <- not_true_iff_false, existsb_exists in H. destruct H. exists j. by rewrite <- list_elem_of_In.
  - intros H. apply not_true_is_false. rewrite existsb_exists. intros (j & Hj%list_elem_of_In & E).
    pose proof (zsum_elem (runs (active_uploads_ s <? max_uploads_ s)) _ j (fun y _ => proj1 (runs_bounds _ y)) Hj) as Hle.
    unfold eligible in E. unfold runs in Hle at 1. rewrite E in Hle. cbn in Hle. lia.
Qed.

Lemma waits_bounds s : 0 <= asleep s.
Proof. apply zsum_positive. intros []; cbn; lia. Qed.

Lemma sched_start_inv n : 0 <= n -> sched_inv 0 n [] [] (make_UploadScheduler n).
Proof. intros Hn. constructor; cbn; unfold runnable, asleep, zsum; cbn; auto; try done; try lia; by intros ?%not_elem_of_nil. Qed.

(** The state as separate variables. *)
Ltac open_state I :=
  destruct I as [I1 I2 I3 I4 I5 I6 I7 I8 I9 I10 I11 I12];
  match type of I1 with max_uploads_ ?s = _ => destruct s as [ws jobs owners mx act lo st pm adm ev] end;
  unfold notify_one, notify_all, activate, set_worker, asleep, runnable, ran, activated, cancelled in *;
  cbn [workers jobs_ owner_jobs_ max_uploads_ active_uploads_ last_owner_ stopping_ permits admitted events field_set] in *;
  revert I1; intros ->.

Ltac close_state :=
  constructor; unfold notify_all, asleep, runnable, ran, activated, cancelled;
  cbn [workers jobs_ owner_jobs_ max_uploads_ active_uploads_ last_owner_ stopping_ permits admitted events field_set];
  try done; try lia.

Lemma submit_inv n js os s s' job :
  0 < n -> sched_inv 0 n js os s -> submit s job = (s', Ok tt) -> sched_inv 0 n (js ++ [job_id job]) os s'.
Proof.
  intros Hn I H. unfold submit, start_workers_locked in H. open_state I. destruct st; [done|].
  injection H as <-. set (k := Z.to_nat (n - vsize ws)).
  assert (Hk : forall f : Worker -> Z, zsum f (ws ++ replicate k Checking) = zsum f ws + f Checking * Z.of_nat k).
  { intros f. rewrite zsum_app. f_equal. induction k as [|k IH]; [unfold zsum; cbn; lia|].
    cbn [replicate]. rewrite zsum_cons, IH. lia. }
  assert (Hr := runs_bounds (act <? n) job).
  close_state; rewrite ?Hk, ?zsum_app, ?zsum_cons; change (zsum _ []) with 0; cbn [waits checks uploads]; try lia.
  - right. unfold vsize in *. rewrite length_app, length_replicate. destruct I7 as [[-> _]|]; cbn in *; lia.
  - intros [H|[H _]%elem_of_replicate]%elem_of_app; [|done]. by apply I8 in H as [? _].
  - rewrite map_app, I10. cbn. solve_Permutation.
Qed.

Lemma owner_upload_inv n js os s s' id :
  sched_inv 0 n js os s -> submit_owner_upload s id = (s', Ok tt) -> sched_inv 0 n js (os ++ [id]) s'.
Proof.
  intros I H. unfold submit_owner_upload in H. open_state I. destruct st; [done|].
  assert (Hf := Z.ltb_spec act n). remember (act <? n) as free eqn:Ef. destruct Hf as [Hlt|Hge]; injection H as <-.
  - close_state; rewrite ?omap_app; cbn; rewrite ?app_nil_r; try done.
    + unfold vsize in *. rewrite length_app. cbn. lia.
    + left. destruct I4 as [|[]]; [done|lia].
    + intros Hp. specialize (I6 Hp). pose proof (runs_mono true (act + 1 <? n) jobs ltac:(done)). lia.
    + rewrite I11. solve_Permutation.
  - close_state; rewrite <- ?Ef; try done.
    rewrite I11. solve_Permutation.
Qed.

(** [finish_upload] uncounts one upload, hands its place to a waiting owner and wakes the
    workers. *)
Lemma finish_inv n js os s :
  sched_inv 1 n js os s -> exists s', finish_upload s = Some s' /\ sched_inv 0 n js os s'.
Proof.
  intros I. assert (Hu : 0 <= zsum uploads (workers s)).
  { apply zsum_positive. intros []; cbn; try lia. destruct (_ && _); cbn; lia. }
  pose proof (vsize_nonneg (admitted s)) as Ha. unfold finish_upload. open_state I.
  destruct (Z.eqb_spec act 0) as [|Hz]; [lia|]. cbn [owner_jobs_ field_set].
  destruct owners as [|id rest]; [|destruct st]; eexists; (split; [reflexivity|]).
  - close_state. by left.
  - destruct I4 as [|[]]; done.
  - close_state; rewrite ?omap_app; cbn; rewrite ?app_nil_r; try done; try lia.
    + unfold vsize in *. rewrite length_app. cbn. lia.
    + destruct I4 as [|[]]; [done|]. right. split; [lia|done].
    + rewrite I11. cbn. solve_Permutation.
Qed.

Lemma shutdown_inv n js os s : sched_inv 0 n js os s -> sched_inv 0 n js os (shutdown s).
Proof.
  intros I. unfold shutdown. destruct (stopping_ s) eqn:Hst; [done|]. open_state I. subst st.
  assert (Ho : forall (f : Event -> option Z) l, (forall id, f (Cancelled id) = None) -> omap f (map Cancelled l) = [])
    by (intros f l Hf; induction l as [|x l IH]; cbn; rewrite ?Hf; done).
  assert (Hc : forall l, omap (fun e => match e with Cancelled id => Some id | _ => None end) (map Cancelled l) = l)
    by (intros l; induction l as [|x l IH]; cbn; [done|by f_equal]).
  close_state; rewrite ?omap_app, ?Hc, ?Ho, ?app_nil_r by done; try done; auto.
  - intros H%I8. destruct H. done.
  - rewrite I11. cbn. solve_Permutation.
Qed.

(** Moving one worker. *)
Lemma threads_kept (ws : list Worker) (jobs : list Job) i w n :
  ws = [] /\ jobs = [] \/ vsize ws = n -> <[i := w]> ws = [] /\ jobs = [] \/ vsize (<[i := w]> ws) = n.
Proof. intros [[-> ->]|H]; [by left|]. right. unfold vsize in *. by rewrite length_insert. Qed.

Lemma exited_kept (ws : list Worker) i w : w <> Exited -> Exited ∈ <[i := w]> ws -> Exited ∈ ws.
Proof.
  intros Hw (j & Hj)%list_elem_of_lookup. apply list_lookup_insert_Some in Hj as [(_ & ? & _)|[_ Hj]]; [done|].
  by eapply list_elem_of_lookup_2.
Qed.

Lemma wake_inv n js os s i left :
  sched_inv 0 n js os s -> workers s !! i = Some Waiting -> 0 <= left <= permits s -> permits s <= left + 1 ->
  (permits s = left -> permits s < asleep s) ->
  sched_inv 0 n js os (set_worker (s <| permits := left |>) i Checking).
Proof.
  intros I Hi H1 H2 H3. open_state I.
  pose proof (zsum_at waits ws i Waiting ltac:(intros []; cbn; lia) Hi) as Ha. cbn in Ha.
  close_state; rewrite ?(zsum_move _ _ _ _ _ Hi); cbn [waits checks uploads]; try lia.
  - by apply threads_kept.
  - intros H%exited_kept; [by apply I8|done].
  - intros Hst Hp. apply I9; [done|lia].
Qed.

(** A running job is uncounted by [finish_upload] when it was a synchronous upload. *)
Lemma job_done_inv n js os s i job :
  sched_inv 0 n js os s -> workers s !! i = Some (Running job) ->
  exists s', worker_done s i job = Some s' /\ sched_inv 0 n js os s'.
Proof.
  intros I Hi. unfold worker_done. set (c := upload job && negb (asynchronous job)).
  assert (Hm : sched_inv (Z.b2z c) n js os (set_worker s i Checking)).
  { open_state I. close_state; rewrite ?(zsum_move _ _ _ _ _ Hi); cbn [waits checks uploads]; fold c; try done; try lia.
    - by apply threads_kept.
    - intros H%exited_kept; [by apply I8|done].
    - intros Hst Hp. apply I9; [done|lia]. }
  destruct c; [by apply finish_inv|by eexists].
Qed.

(** Ending an asynchronous or owner upload. *)
Lemma admitted_inv n js os s id a b :
  sched_inv 0 n js os s -> admitted s = a ++ id :: b ->
  exists s', finish_upload (s <| admitted := a ++ b |>) = Some s' /\ sched_inv 0 n js os s'.
Proof.
  intros I Ha. apply finish_inv. open_state I. subst adm. close_state.
  unfold vsize in *. rewrite length_app in *. cbn in *. lia.
Qed.

Lemma ready_false s :
  ready s = false -> runnable s = 0 /\ (stopping_ s = true -> jobs_ s <> []).
Proof.
  unfold ready. intros [H1 H2]%orb_false_iff. split; [by apply runnable_zero|].
  intros Hst E. rewrite Hst, E in H1. done.
Qed.

(** The jobs after one that could run is taken. *)
Lemma runnable_taken free free' a b job :
  runs free job = 1 -> (free = false -> free' = false) ->
  zsum (runs free') (a ++ b) <= zsum (runs free) (a ++ job :: b) - 1.
Proof.
  intros H1 H2. rewrite !zsum_app, zsum_cons, H1. pose proof (runs_mono free free' a H2). pose proof (runs_mono free free' b H2).
  lia.
Qed.

Lemma take_inv n js os s i a b job :
  sched_inv 0 n js os s -> workers s !! i = Some Checking -> jobs_ s = a ++ job :: b -> eligible s job = true ->
  sched_inv 0 n js os (mkScheduler (<[i := Running job]> (workers s)) (a ++ b) (owner_jobs_ s) (max_uploads_ s)
    (active_uploads_ s + Z.b2z (upload job)) (owner job) (stopping_ s) (permits s)
    (admitted s ++ if upload job && asynchronous job then [job_id job] else []) (events s ++ [Ran (job_id job)])).
Proof.
  intros I Hi Hj He. unfold eligible in He.
  assert (Hone : runs (active_uploads_ s <? max_uploads_ s) job = 1) by (unfold runs; by rewrite He).
  assert (Hup : upload job = true -> active_uploads_ s < max_uploads_ s)
    by (intros E; rewrite E in He; by apply Z.ltb_lt).
  open_state I. subst jobs.
  pose proof (runnable_taken _ (act + Z.b2z (upload job) <? n) a b job Hone) as Hle.
  assert (Hmono : (act <? n) = false -> (act + Z.b2z (upload job) <? n) = false)
    by (destruct (upload job); cbn; lia).
  specialize (Hle Hmono). clear Hmono.
  assert (Hpos : 0 <= zsum (runs (act + Z.b2z (upload job) <? n)) (a ++ b))
    by (apply zsum_positive; intros; apply runs_bounds).
  pose proof (zsum_at checks ws i Checking ltac:(intros []; cbn; lia) Hi) as Hc. cbn in Hc.
  close_state; rewrite ?(zsum_move _ _ _ _ _ Hi), ?omap_app; cbn [waits checks uploads omap list_omap]; rewrite ?app_nil_r;
    try done; try lia.
  - unfold vsize in *. rewrite length_app. destruct (upload job), (asynchronous job); cbn in *; lia.
  - destruct (upload job); cbn; [specialize (Hup eq_refl)|]; lia.
  - destruct I4 as [|[-> ]]; [by left|]. destruct (upload job); cbn; [specialize (Hup eq_refl); lia|right; split; [lia|done]].
  - right. unfold vsize in *. rewrite length_insert. destruct I7 as [[-> _]|]; done.
  - intros H%exited_kept; [|done]. apply I8 in H as [_ H]. by destruct a.
  - intros Hst Hp. destruct (I9 Hst ltac:(lia)) as [Hz _]. lia.
  - rewrite I10, !map_app. cbn. solve_Permutation.
Qed.

Lemma turn_inv n js os s i :
  sched_inv 0 n js os s -> workers s !! i = Some Checking -> sched_inv 0 n js os (worker_turn s i).
Proof.
  intros I Hi. unfold worker_turn. destruct (ready s) eqn:Hr; cbn [negb].
  - destruct (select s) as [[job rest]|] eqn:Hs.
    + apply select_some in Hs as (a & b & Hj & -> & He & _).
      pose proof (take_inv n js os s i a b job I Hi Hj He) as T.
      destruct s, (upload job), (asynchronous job); cbn in *; rewrite ?app_nil_r, ?Z.add_0_r in T; exact T.
    + apply select_none in Hs. unfold ready in Hr. rewrite Hs, orb_false_r in Hr. apply andb_true_iff in Hr as [Hst Hj].
      apply bool_decide_eq_true in Hj. open_state I. subst jobs.
      close_state; rewrite ?(zsum_move _ _ _ _ _ Hi); cbn [waits checks uploads]; try lia.
      * intros Hp. destruct (I9 Hst ltac:(lia)). done.
      * by apply threads_kept.
      * intros Hs' Hp. apply I9; [done|lia].
  - apply ready_false in Hr as [Hr Hst]. open_state I.
    close_state; rewrite ?(zsum_move _ _ _ _ _ Hi); cbn [waits checks uploads]; try lia.
    + pose proof (zsum_at checks ws i Checking ltac:(intros []; cbn; lia) Hi) as Hc. cbn in Hc. lia.
    + by apply threads_kept.
    + intros H%exited_kept; [by apply I8|done].
    + intros H _. auto.
Qed.

Lemma run_inv n js os s : 0 < n -> upload_run n js os s -> sched_inv 0 n js os s.
Proof.
  intros Hn. induction 1 as [| | |js os s0 s1 R IH S]; [| | |destruct S as [s i Hi|s i Hi Hp|s i Hi Hp|s s' i job Hi H|s s' id a b Ha H|s]].
  - by apply sched_start_inv, Z.lt_le_incl.
  - by eapply submit_inv.
  - by eapply owner_upload_inv.
  - by apply turn_inv.
  - pose proof (si_permits _ _ _ _ _ IH). apply (wake_inv n js os s i (permits s - 1) IH); [done|lia..].
  - pose proof (si_permits _ _ _ _ _ IH). pose proof (wake_inv n js os s i (permits s) IH Hi) as W.
    destruct s. apply W; cbn in *; [lia..|done].
  - destruct (job_done_inv _ _ _ _ _ _ IH Hi) as (s2 & E & I). by simplify_eq.
  - destruct (admitted_inv _ _ _ _ _ _ _ IH Ha) as (s2 & E & I). by simplify_eq.
  - by apply shutdown_inv.
Qed.

(** ** Theorems *)

(** C29: whatever jobs and owner uploads arrive and however the workers run, at most
    [max_uploads_] uploads are in progress and [active_uploads_] is their number; an upload
    that ends never finds the counter at zero; a job is queued or has been run once, an owner
    upload is queued, activated once or, after [shutdown], cancelled once; and when every
    worker sleeps or has left, each queued job is an upload that waits for the end of one of
    the [max_uploads_] uploads in progress. *)
Theorem upload_scheduler_correct n js os s :
  0 < n -> upload_run n js os s ->
  active_uploads_ s = zsum uploads (workers s) + vsize (admitted s) /\ active_uploads_ s <= n /\
  (forall i job, workers s !! i = Some (Running job) -> is_Some (worker_done s i job)) /\
  (forall id a b, admitted s = a ++ id :: b -> is_Some (finish_upload (s <| admitted := a ++ b |>))) /\
  js ≡ₚ map job_id (jobs_ s) ++ ran s /\
  os ≡ₚ owner_jobs_ s ++ activated s ++ cancelled s /\ (cancelled s = [] \/ stopping_ s = true) /\
  (permits s = 0 -> Forall (fun w => w = Waiting \/ w = Exited) (workers s) ->
     Forall (fun job => upload job = true /\ vsize (admitted s) = n) (jobs_ s)).
Proof.
  intros Hn R. pose proof (run_inv n js os s Hn R) as I. pose proof I as [I1 I2 I3 I4 I5 I6 I7 I8 I9 I10 I11 I12].
  split_and!; try done; try lia.
  - intros i job Hi. destruct (job_done_inv _ _ _ _ _ _ I Hi) as (s' & -> & _). done.
  - intros id a b Ha. destruct (admitted_inv _ _ _ _ _ _ _ I Ha) as (s' & -> & _). done.
  - intros Hp Hw. apply Forall_forall. intros job Hj.
    assert (Hz : forall f : Worker -> Z, f Waiting = 0 -> f Exited = 0 -> zsum f (workers s) = 0).
    { intros f H1 H2. apply zsum_zero. intros w Hin. by destruct (proj1 (Forall_forall _ _) Hw _ Hin) as [-> | ->]. }
    rewrite (Hz uploads) in I2 by done. rewrite (Hz checks), Hp in I6 by done.
    assert (Hex : forall w, w ∈ workers s -> w = Waiting).
    { intros w Hin. destruct (proj1 (Forall_forall _ _) Hw _ Hin) as [-> | ->]; [done|].
      apply I8 in Hin as [_ E]. rewrite E in Hj. by apply not_elem_of_nil in Hj. }
    assert (Has : 0 < asleep s).
    { destruct I7 as [[_ E]|E]; [rewrite E in Hj; by apply not_elem_of_nil in Hj|].
      destruct (workers s) as [|w l] eqn:El; [unfold vsize in E; cbn in E; lia|].
      unfold asleep. rewrite El, zsum_cons, (Hex w) by set_solver. cbn.
      pose proof (zsum_positive waits l ltac:(intros []; cbn; lia)). lia. }
    specialize (I6 ltac:(lia)).
    pose proof (zsum_elem (runs (active_uploads_ s <? max_uploads_ s)) _ job
                  (fun y _ => proj1 (runs_bounds _ y)) Hj) as Hle.
    unfold runnable in I6. unfold runs in Hle at 1.
    destruct (upload job), (Z.ltb_spec (active_uploads_ s) (max_uploads_ s)); cbn in Hle; lia.
Qed.

(** One worker place: an asynchronous upload is in progress, an owner upload waits for its
    place and a second upload of the queue waits as well. *)
Definition sample_job : Job := mkJob 1 7 true true.
Definition sample_queued : Scheduler :=
  fst (submit (fst (submit (make_UploadScheduler 1) sample_job)) (mkJob 2 8 true false)).
Definition sample_started : Scheduler := fst (submit_owner_upload (worker_turn sample_queued 0) 3).
Definition sample_returned : Scheduler := default sample_started (worker_done sample_started 0 sample_job).
Definition upload_sample : Scheduler := worker_turn sample_returned 0.

Lemma upload_scheduler_correct_witness :
  workers upload_sample = [Waiting] /\ owner_jobs_ upload_sample = [3] /\ active_uploads_ upload_sample <= 1 /\
  Forall (fun job => upload job = true /\ vsize (admitted upload_sample) = 1) (jobs_ upload_sample).
Proof.
  assert (R : upload_run 1 [1; 2] [3] upload_sample).
  { apply (run_step 1 _ _ sample_returned); [|apply step_turn; vm_compute; reflexivity].
    apply (run_step 1 _ _ sample_started); [|apply (step_done _ _ 0 sample_job); vm_compute; reflexivity].
    apply (run_owner 1 [1; 2] [] (worker_turn sample_queued 0) _ 3); [|vm_compute; reflexivity].
    apply (run_step 1 _ _ sample_queued); [|apply step_turn; vm_compute; reflexivity].
    apply (run_submit 1 [1] [] (fst (submit (make_UploadScheduler 1) sample_job)) _ (mkJob 2 8 true false));
      [|vm_compute; reflexivity].
    apply (run_submit 1 [] [] (make_UploadScheduler 1) _ sample_job); [apply run_start|vm_compute; reflexivity]. }
  destruct (upload_scheduler_correct 1 [1; 2] [3] upload_sample ltac:(lia) R) as (_ & H2 & _ & _ & _ & _ & _ & H8).
  split; [vm_compute; reflexivity|]. split; [vm_compute; reflexivity|]. split; [exact H2|].
  apply H8; [vm_compute; reflexivity|]. repeat constructor.
Defined.

(** a worker takes the first job of an owner other than the one served last, if such a
    job can run, and otherwise the first job that can run; it finds none exactly when no job
    can run. *)
Theorem selection_alternates s :
  (select s = None <-> existsb (eligible s) (jobs_ s) = false) /\
  forall job rest, select s = Some (job, rest) ->
  exists a b, jobs_ s = a ++ job :: b /\ rest = a ++ b /\ eligible s job = true /\
    ((owner job <> last_owner_ s /\
      Forall (fun j => eligible s j = true -> owner j = last_owner_ s \/ last_owner_ s = 0) a) \/
     (Forall (fun j => eligible s j = true -> owner j = last_owner_ s \/ last_owner_ s = 0) (jobs_ s) /\
      Forall (fun j => eligible s j = false) a)).
Proof. split; [apply select_none|]. intros job rest. apply select_some. Qed.
