(* ===== verification/Http1Request.v ===== *)
(** * HTTP/1.1 requests

    The client side of an HTTP/1.1 connection ([http.cpp], [Http1Client]): the request head
    [build_request_head] writes, the range header of downloads, and the framing of request
    bodies by [begin_upload], [upload_bytes], [upload_from_fd], [finish_upload] and
    [perform].  A server that reads the bytes of a connection one request after the other is
    the reference ([read_request]).  Connecting, sending and the response are arguments. *)

From S2P Require Import Prelude StdText.

Definition CR : ascii := chr 13.
Definition LF : ascii := chr 10.
Definition crlf : bytes := [CR; LF].

Abbreviation header := (bytes * bytes)%type.

(** ** The request head *)

Fixpoint ascii_equal (a b : bytes) : bool :=
  match a, b with
  | [], [] => true
  | c :: a, d :: b => ascii_eqb (tolower c) d && ascii_equal a b
  | _, _ => false
  end.

Definition contains_cr_or_lf (value : bytes) : bool := has_char CR value || has_char LF value.

Definition header_name_char (ch : ascii) : bool :=
  isdigit ch || isupper ch || islower ch || existsb (ascii_eqb ch) (lit "!#$%&'*+-.^_`|~").

Definition valid_header_name (name : bytes) : bool :=
  negb (bool_decide (name = [])) && forallb header_name_char name.

Definition valid_method (method : bytes) : bool :=
  negb (bool_decide (method = [])) && forallb isupper method.

(** The condition under which [append_header] throws. *)
Definition header_conflict (has_length : bool) (h : header) : bool :=
  negb (valid_header_name (fst h)) || contains_cr_or_lf (snd h) ||
  ascii_equal (fst h) (lit "host") || ascii_equal (fst h) (lit "connection") ||
  ascii_equal (fst h) (lit "transfer-encoding") ||
  (has_length && ascii_equal (fst h) (lit "content-length")).

Definition header_line (h : header) : bytes := fst h ++ lit ": " ++ snd h ++ crlf.

Fixpoint append_headers (trusted_headers has_length : bool) (hs : list header) (request : bytes) : result bytes :=
  match hs with
  | [] => Ok request
  | h :: hs =>
      if negb trusted_headers && header_conflict has_length h then Throw InvalidArgument
      else append_headers trusted_headers has_length hs (request ++ header_line h)
  end.

Definition build_request_head (method path authority : bytes) (generated_headers headers : list header)
    (content_length : option Z) (chunked trusted_headers : bool) : result bytes :=
  if negb (valid_method method) || negb (starts_with (lit "/") path) || contains_cr_or_lf path ||
     has_char " " path
  then Throw InvalidArgument
  else if bool_decide (authority = []) || contains_cr_or_lf authority then Throw InvalidArgument
  else
    let has_length := match content_length with Some _ => true | None => false end in
    let request := method ++ lit " " ++ path ++ lit " HTTP/1.1" ++ crlf ++ lit "host: " ++ authority ++ crlf in
    let? request := append_headers trusted_headers has_length generated_headers request in
    let? request := append_headers trusted_headers has_length headers request in
    let request :=
      match content_length with
      | Some n => request ++ lit "content-length: " ++ to_chars n ++ crlf
      | None => if chunked then request ++ lit "transfer-encoding: chunked" ++ crlf else request
      end in
    Ok (request ++ lit "connection: keep-alive" ++ crlf ++ crlf).

(** ** Range requests *)

Definition range_header_value (offset end_ : Z) : bytes :=
  lit "bytes=" ++ to_chars offset ++ lit "-" ++ to_chars end_.

(** The headers [get_range] generates, or its exception. *)
Fixpoint find_supplied_range (extra : list header) (supplied : bool) : result bool :=
  match extra with
  | [] => Ok supplied
  | h :: extra =>
      if ascii_equal (fst h) (lit "range")
      then if supplied then Throw InvalidArgument else find_supplied_range extra true
      else if ascii_equal (fst h) (lit "accept-encoding") then Throw InvalidArgument
      else find_supplied_range extra supplied
  end.

Definition get_range_headers (offset length capacity : Z) (extra : list header) : result (list header) :=
  if (length =? 0) || (capacity <? length) then Throw InvalidArgument
  else
    let inclusive_end := u64 (u64 (offset + length) - 1) in
    if inclusive_end <? offset then Throw OverflowError
    else
      let? supplied := find_supplied_range extra false in
      Ok (if supplied then [(lit "accept-encoding", lit "identity")]
          else [(lit "range", range_header_value offset inclusive_end); (lit "accept-encoding", lit "identity")]).

(** ** Bodies *)

(** [std::to_chars] in base 16; 16 digits hold every [size_t]. *)
Definition hex_char (d : Z) : ascii := if d <? 10 then chr (48 + d) else chr (87 + d).

Fixpoint to_hex_loop (fuel : nat) (n : Z) (acc : bytes) : bytes :=
  match fuel with
  | O => acc
  | S fuel =>
      let acc := hex_char (n mod 16) :: acc in
      if n / 16 =? 0 then acc else to_hex_loop fuel (n / 16) acc
  end.

Definition to_hex (n : Z) : bytes := to_hex_loop 16 n [].

Definition chunk_head (length : Z) : bytes := to_hex length ++ crlf.
Definition last_chunk : bytes := lit "0" ++ crlf ++ crlf.

(** ** The server *)

(** A line up to its CR LF; a CR or LF anywhere else makes the request unacceptable. *)
Fixpoint read_line (s : bytes) : option (bytes * bytes) :=
  match s with
  | [] => None
  | c :: rest =>
      if ascii_eqb c CR
      then match rest with d :: rest => if ascii_eqb d LF then Some ([], rest) else None | [] => None end
      else if ascii_eqb c LF then None
      else match read_line rest with Some (line, rest) => Some (c :: line, rest) | None => None end
  end.

(** The text before the first [c] and the text after it. *)
Fixpoint split_at (c : ascii) (s : bytes) : option (bytes * bytes) :=
  match s with
  | [] => None
  | d :: rest =>
      if ascii_eqb d c then Some ([], rest)
      else match split_at c rest with Some (a, b) => Some (d :: a, b) | None => None end
  end.

Definition read_field (line : bytes) : option header :=
  match split_at ":" line with
  | Some (name, sp :: value) => if ascii_eqb sp " " && valid_header_name name then Some (name, value) else None
  | _ => None
  end.

Fixpoint read_fields (fuel : nat) (s : bytes) : option (list header * bytes) :=
  match fuel with
  | O => None
  | S fuel =>
      match read_line s with
      | Some ([], rest) => Some ([], rest)
      | Some (line, rest) =>
          match read_field line, read_fields fuel rest with
          | Some h, Some (hs, rest) => Some (h :: hs, rest)
          | _, _ => None
          end
      | None => None
      end
  end.

Record Head := mkHead { hd_method : bytes; hd_target : bytes; hd_fields : list header }.

Definition read_head (s : bytes) : option (Head * bytes) :=
  match read_line s with
  | Some (line, rest) =>
      match split_at " " line with
      | Some (method, tail) =>
          match split_at " " tail with
          | Some (target, version) =>
              if str_eqb version (lit "HTTP/1.1") && valid_method method
              then match read_fields (length rest) rest with
                   | Some (fields, rest) => Some (mkHead method target fields, rest)
                   | None => None
                   end
              else None
          | None => None
          end
      | None => None
      end
  | None => None
  end.

Definition field (name : bytes) (fields : list header) : option bytes :=
  snd <$> List.find (fun h => ascii_equal (fst h) name) fields.

Definition hex_digit (c : ascii) : option Z :=
  if isdigit c then Some (u8 c - 48)
  else if (97 <=? u8 c) && (u8 c <=? 102) then Some (u8 c - 87) else None.

Fixpoint read_hex (acc : Z) (s : bytes) : option Z :=
  match s with
  | [] => Some acc
  | c :: s => match hex_digit c with Some d => read_hex (acc * 16 + d) s | None => None end
  end.

(** [n] bytes and what follows them. *)
Definition read_exact (n : Z) (s : bytes) : option (bytes * bytes) :=
  if (0 <=? n) && (n <=? vsize s) then Some (take_z n s, drop_z n s) else None.

Fixpoint read_chunks (fuel : nat) (s : bytes) : option (bytes * bytes) :=
  match fuel with
  | O => None
  | S fuel =>
      match read_line s with
      | Some ((_ :: _) as line, rest) =>
          match read_hex 0 line with
          | Some n =>
              if n =? 0 then match read_line rest with Some ([], rest) => Some ([], rest) | _ => None end
              else match read_exact n rest with
                   | Some (data, rest) =>
                       match read_line rest with
                       | Some ([], rest) =>
                           match read_chunks fuel rest with
                           | Some (body, rest) => Some (data ++ body, rest)
                           | None => None
                           end
                       | _ => None
                       end
                   | None => None
                   end
          | None => None
          end
      | _ => None
      end
  end.

Record Request := mkRequest { rq_head : Head; rq_body : bytes }.

Definition read_request (s : bytes) : option (Request * bytes) :=
  match read_head s with
  | None => None
  | Some (head, rest) =>
      match field (lit "transfer-encoding") (hd_fields head), field (lit "content-length") (hd_fields head) with
      | Some te, _ =>
          if str_eqb te (lit "chunked")
          then match read_chunks (S (length rest)) rest with
               | Some (body, rest) => Some (mkRequest head body, rest)
               | None => None
               end
          else None
      | None, Some text =>
          match from_chars_all UINT64_MAX text with
          | Some n => match read_exact n rest with
                      | Some (body, rest) => Some (mkRequest head body, rest)
                      | None => None
                      end
          | None => None
          end
      | None, None => Some (mkRequest head [], rest)
      end
  end.

Fixpoint read_requests (fuel : nat) (s : bytes) : option (list Request) :=
  match s, fuel with
  | [], _ => Some []
  | _, O => None
  | _, S fuel =>
      match read_request s with
      | Some (r, rest) => match read_requests fuel rest with Some rs => Some (r :: rs) | None => None end
      | None => None
      end
  end.

(** ** Reading back a head *)

Lemma ascii_eqb_spec c d : reflect (c = d) (ascii_eqb c d).
Proof. apply Ascii.eqb_spec. Qed.

Lemma contains_cr_or_lf_false s : contains_cr_or_lf s = false <-> Forall (fun c => c <> CR /\ c <> LF) s.
Proof.
  unfold contains_cr_or_lf. rewrite orb_false_iff, !has_char_false, Forall_forall. split.
  - intros [H1 H2] c Hc. split; intros ->; done.
  - intros H. split; intros Hc; by destruct (H _ Hc).
Qed.

Abbreviation no_line_end s := (Forall (fun c => c <> CR /\ c <> LF) s).

Lemma read_line_crlf line rest : no_line_end line -> read_line (line ++ crlf ++ rest) = Some (line, rest).
Proof.
  induction 1 as [|c line [H1 H2] _ IH]; [done|]. cbn [app read_line].
  destruct (ascii_eqb_spec c CR); [done|]. destruct (ascii_eqb_spec c LF); [done|]. by rewrite IH.
Qed.

Lemma split_at_first c a b : c ∉ a -> split_at c (a ++ c :: b) = Some (a, b).
Proof.
  induction a as [|d a IH]; intros Hc; cbn.
  - by destruct (ascii_eqb_spec c c).
  - destruct (ascii_eqb_spec d c) as [->|]; [set_solver|]. by rewrite IH by set_solver.
Qed.

(** The characters of header names and methods are neither separators nor line ends. *)
Lemma name_char_plain c : header_name_char c = true -> c <> ":"%char /\ c <> CR /\ c <> LF.
Proof.
  intros H. cut (implb (header_name_char c)
    (negb (ascii_eqb c ":") && negb (ascii_eqb c CR) && negb (ascii_eqb c LF)) = true).
  { rewrite H. cbn [implb]. rewrite !andb_true_iff, !negb_true_iff. intros [[H1 H2] H3].
    split_and!; intros ->; done. }
  clear H. revert c. apply all_ascii. vm_compute. reflexivity.
Qed.

Lemma upper_plain c : isupper c = true -> c <> " "%char /\ c <> CR /\ c <> LF.
Proof.
  intros H. cut (implb (isupper c)
    (negb (ascii_eqb c " ") && negb (ascii_eqb c CR) && negb (ascii_eqb c LF)) = true).
  { rewrite H. cbn [implb]. rewrite !andb_true_iff, !negb_true_iff. intros [[H1 H2] H3].
    split_and!; intros ->; done. }
  clear H. revert c. apply all_ascii. vm_compute. reflexivity.
Qed.

Lemma valid_header_name_spec name :
  valid_header_name name = true -> name <> [] /\ ":"%char ∉ name /\ no_line_end name.
Proof.
  unfold valid_header_name. rewrite andb_true_iff, negb_true_iff, bool_decide_eq_false, forallb_forall.
  intros [H1 H2]. split; [done|]. split.
  - intros Hc%list_elem_of_In. apply H2, name_char_plain in Hc as [? _]. done.
  - apply Forall_forall. intros c Hc%list_elem_of_In. by apply H2, name_char_plain in Hc as [_ ?].
Qed.

(** A header a server reads back: what [append_header] lets pass. *)
Definition plain_header (h : header) : Prop := valid_header_name (fst h) = true /\ no_line_end (snd h).

Lemma read_field_line h : plain_header h -> read_field (fst h ++ lit ": " ++ snd h) = Some h.
Proof.
  intros [Hn _]. destruct (valid_header_name_spec _ Hn) as (_ & Hc & _). unfold read_field.
  change (lit ": " ++ snd h) with (":"%char :: " "%char :: snd h).
  rewrite split_at_first by done. rewrite Hn. by destruct h.
Qed.

Lemma header_line_plain h : plain_header h -> no_line_end (fst h ++ lit ": " ++ snd h) /\ fst h ++ lit ": " ++ snd h <> [].
Proof.
  intros [Hn Hv]. destruct (valid_header_name_spec _ Hn) as (Hne & _ & Hl). split.
  - apply Forall_app. split; [done|]. apply Forall_app. split; [|done]. repeat constructor; done.
  - by destruct (fst h).
Qed.

Lemma read_fields_lines hs fuel rest :
  Forall plain_header hs -> (length hs < fuel)%nat ->
  read_fields fuel (concat (map header_line hs) ++ crlf ++ rest) = Some (hs, rest).
Proof.
  revert fuel. induction hs as [|h hs IH]; intros fuel Hp Hf; (destruct fuel as [|fuel]; [lia|]).
  - done.
  - apply Forall_cons in Hp as [Hh Hs]. destruct (header_line_plain h Hh) as [Hl Hne].
    cbn [map concat]. unfold header_line at 1.
    replace (((fst h ++ lit ": " ++ snd h ++ crlf) ++ concat (map header_line hs)) ++ crlf ++ rest) with
      ((fst h ++ lit ": " ++ snd h) ++ crlf ++ concat (map header_line hs) ++ crlf ++ rest) by (by rewrite <- !app_assoc).
    cbn [read_fields]. rewrite read_line_crlf by done. pose proof (read_field_line h Hh) as Hr.
    destruct (fst h ++ lit ": " ++ snd h) as [|c l]; [done|].
    rewrite Hr, IH by (done || cbn in *; lia). done.
Qed.

Lemma append_headers_ok trusted hl hs request r :
  append_headers trusted hl hs request = Ok r ->
  r = request ++ concat (map header_line hs) /\ (trusted = false -> Forall (fun h => header_conflict hl h = false) hs).
Proof.
  revert request. induction hs as [|h hs IH]; intros request H; cbn in H.
  - simplify_eq. by rewrite app_nil_r.
  - destruct (negb trusted && header_conflict hl h) eqn:E; [done|]. apply IH in H as [-> H].
    cbn. rewrite <- app_assoc. split; [done|]. intros ->. cbn in E. constructor; auto.
Qed.

Lemma header_conflict_plain hl h : header_conflict hl h = false -> plain_header h.
Proof.
  unfold header_conflict. rewrite !orb_false_iff, negb_false_iff. intros [[[[[H1 H2] _] _] _] _].
  split; [done|]. by apply contains_cr_or_lf_false.
Qed.

(** The header that says how the body is delimited, and all header fields of a request. *)
Definition framing (content_length : option Z) (chunked : bool) : list header :=
  match content_length with
  | Some n => [(lit "content-length", to_chars n)]
  | None => if chunked then [(lit "transfer-encoding", lit "chunked")] else []
  end.

Definition request_fields (authority : bytes) (hs : list header) (content_length : option Z) (chunked : bool) : list header :=
  (lit "host", authority) :: hs ++ framing content_length chunked ++ [(lit "connection", lit "keep-alive")].

Definition head_text (method path : bytes) (fields : list header) : bytes :=
  (method ++ lit " " ++ path ++ lit " HTTP/1.1") ++ crlf ++ concat (map header_line fields) ++ crlf.

Lemma build_request_head_ok m p a g h cl ch trusted r :
  build_request_head m p a g h cl ch trusted = Ok r ->
  r = head_text m p (request_fields a (g ++ h) cl ch) /\
  valid_method m = true /\ " "%char ∉ p /\ no_line_end p /\ no_line_end a /\
  (trusted = false -> Forall (fun h => header_conflict (match cl with Some _ => true | None => false end) h = false) (g ++ h)).
Proof.
  unfold build_request_head. intros H.
  destruct (negb (valid_method m) || _ || _ || _) eqn:E1; [done|].
  destruct (bool_decide (a = []) || contains_cr_or_lf a) eqn:E2; [done|].
  apply rbind_ok in H as (r1 & H1 & H). apply rbind_ok in H as (r2 & H2 & H). apply Ok_inj in H as <-.
  apply append_headers_ok in H1 as [-> F1]. apply append_headers_ok in H2 as [-> F2].
  rewrite !orb_false_iff, negb_false_iff in E1. destruct E1 as [[[Hm _] Hp] Hs]. apply orb_false_iff in E2 as [_ Ha].
  rewrite contains_cr_or_lf_false in Hp, Ha. apply has_char_false in Hs. split_and!; try done.
  - unfold head_text, request_fields, framing. cbn [map concat]. rewrite !map_app, !concat_app.
    unfold header_line at 3. cbn [fst snd].
    destruct cl as [n|]; [|destruct ch]; cbn [map concat app]; unfold header_line; cbn [fst snd];
      rewrite <- !app_assoc; cbn [app]; rewrite ?app_nil_r; reflexivity.
  - intros ->. apply Forall_app. split; auto.
Qed.

Lemma valid_method_plain m : valid_method m = true -> " "%char ∉ m /\ no_line_end m.
Proof.
  unfold valid_method. rewrite andb_true_iff, forallb_forall. intros [_ H]. split.
  - intros Hc%list_elem_of_In. by apply H, upper_plain in Hc as [? _].
  - apply Forall_forall. intros c Hc%list_elem_of_In. by apply H, upper_plain in Hc as [_ ?].
Qed.

Lemma header_lines_length hs : (length hs <= length (concat (map header_line hs)))%nat.
Proof.
  induction hs as [|h hs IH]; [done|]. cbn [map concat length]. rewrite length_app. unfold header_line at 1.
  rewrite !length_app. cbn. lia.
Qed.

Lemma read_head_text m p fields body :
  valid_method m = true -> " "%char ∉ p -> no_line_end p -> Forall plain_header fields ->
  read_head (head_text m p fields ++ body) = Some (mkHead m p fields, body).
Proof.
  intros Hm Hs Hp Hf. destruct (valid_method_plain m Hm) as [Hms Hml]. unfold head_text, read_head.
  replace (((m ++ lit " " ++ p ++ lit " HTTP/1.1") ++ crlf ++ concat (map header_line fields) ++ crlf) ++ body) with
    ((m ++ lit " " ++ p ++ lit " HTTP/1.1") ++ crlf ++ concat (map header_line fields) ++ crlf ++ body)
    by (by rewrite <- !app_assoc).
  rewrite read_line_crlf.
  2: { repeat (apply Forall_app; split); try done; repeat constructor; done. }
  change (m ++ lit " " ++ p ++ lit " HTTP/1.1") with (m ++ " "%char :: (p ++ " "%char :: lit "HTTP/1.1")).
  rewrite split_at_first, split_at_first, Hm by done. cbn [str_eqb andb].
  change (str_eqb (lit "HTTP/1.1") (lit "HTTP/1.1") && true) with true. cbv iota.
  rewrite read_fields_lines; [done|done|]. rewrite !length_app. pose proof (header_lines_length fields). cbn. lia.
Qed.

Lemma request_fields_plain a hs cl ch :
  no_line_end a -> Forall plain_header hs -> (forall n, cl = Some n -> is_u64 n) ->
  Forall plain_header (request_fields a hs cl ch).
Proof.
  intros Ha Hh Hn. unfold request_fields. constructor; [by split|]. apply Forall_app. split; [done|].
  apply Forall_app. split.
  - destruct cl as [n|]; [|destruct ch; repeat constructor; done].
    repeat constructor. cbn. destruct (to_chars_spec n (Hn n eq_refl)) as (_ & Hd & _).
    eapply Forall_impl; [exact Hd|]. intros c Hc. split; intros ->; done.
  - repeat constructor; done.
Qed.

(** C31: a server reads back from a request head exactly the method, the target and the header
    fields the caller passed (untrusted headers are checked), followed by the generated
    framing and connection fields, and finds the body right behind it: no value can inject a
    header, a second request or a body. *)
Theorem request_head_roundtrip m p a g h cl ch head body :
  (forall n, cl = Some n -> is_u64 n) ->
  build_request_head m p a g h cl ch false = Ok head ->
  read_head (head ++ body) = Some (mkHead m p (request_fields a (g ++ h) cl ch), body).
Proof.
  intros Hn H. apply build_request_head_ok in H as (-> & Hm & Hs & Hp & Ha & Hf).
  apply read_head_text; try done. apply request_fields_plain; try done.
  eapply Forall_impl; [by apply Hf|]. intros x Hx. exact (header_conflict_plain _ _ Hx).
Qed.

Lemma request_head_roundtrip_witness :
  is_u64 5 /\ exists head, build_request_head (lit "PUT") (lit "/bucket/key") (lit "s3.example")
      [(lit "x-amz-date", lit "20250101T000000Z")] [(lit "if-none-match", lit "*")] (Some 5) false false = Ok head /\
    read_head (head ++ lit "hello") =
    Some (mkHead (lit "PUT") (lit "/bucket/key")
            [(lit "host", lit "s3.example"); (lit "x-amz-date", lit "20250101T000000Z"); (lit "if-none-match", lit "*");
             (lit "content-length", lit "5"); (lit "connection", lit "keep-alive")], lit "hello").
Proof.
  split; [lia|]. eexists. split; [vm_compute; reflexivity|].
  refine (request_head_roundtrip (lit "PUT") (lit "/bucket/key") (lit "s3.example")
    [(lit "x-amz-date", lit "20250101T000000Z")] [(lit "if-none-match", lit "*")] (Some 5) false _ (lit "hello") _ _).
  - intros n [= <-]. lia.
  - vm_compute. reflexivity.
Defined.

(** ** Reading back a body *)

Lemma hex_char_digit d : 0 <= d < 16 -> hex_digit (hex_char d) = Some d /\ hex_char d <> CR /\ hex_char d <> LF.
Proof.
  intros Hd. assert (Hall : forallb (fun d => bool_decide (hex_digit (hex_char d) = Some d) &&
    negb (ascii_eqb (hex_char d) CR) && negb (ascii_eqb (hex_char d) LF)) (zrange 0 16) = true) by (vm_compute; reflexivity).
  rewrite forallb_forall in Hall. specialize (Hall d). rewrite <- list_elem_of_In, elem_of_zrange in Hall.
  specialize (Hall Hd). rewrite !andb_true_iff, bool_decide_eq_true, !negb_true_iff in Hall.
  destruct Hall as [[H1 H2] H3]. split_and!; [done|..]; intros E; rewrite E in *; done.
Qed.

Lemma read_hex_app acc a b :
  read_hex acc (a ++ b) = match read_hex acc a with Some v => read_hex v b | None => None end.
Proof. revert acc. induction a as [|c a IH]; intros acc; cbn; [done|]. by destruct (hex_digit c). Qed.

Lemma to_hex_loop_spec fuel n acc :
  0 <= n < 16 ^ Z.of_nat fuel -> (0 < fuel)%nat ->
  exists d, to_hex_loop fuel n acc = d ++ acc /\ d <> [] /\ no_line_end d /\ read_hex 0 d = Some n.
Proof.
  revert n acc. induction fuel as [|fuel IH]; intros n acc Hn Hfuel; [lia|].
  cbn [to_hex_loop]. pose proof (Z.mod_pos_bound n 16 ltac:(lia)) as Hm.
  destruct (hex_char_digit (n mod 16) Hm) as (Hd & Hl). pose proof (Z.div_mod n 16 ltac:(lia)).
  destruct (Z.eqb_spec (n / 16) 0) as [E|E].
  - exists [hex_char (n mod 16)]. split_and!; [done|done|by apply Forall_singleton|]. cbn. rewrite Hd. f_equal. lia.
  - rewrite Nat2Z.inj_succ, Z.pow_succ_r in Hn by lia. destruct fuel as [|fuel].
    { exfalso. cbn in Hn. apply E. apply Z.div_small. lia. }
    destruct (IH (n / 16) (hex_char (n mod 16) :: acc)) as (d & Heq & Hne & Hds & Hv).
    + split; [apply Z.div_pos; lia|apply Z.div_lt_upper_bound; lia].
    + lia.
    + exists (d ++ [hex_char (n mod 16)]). rewrite Heq, <- app_assoc.
      split_and!; [done|by destruct d|apply Forall_app; split; [done|by apply Forall_singleton]|].
      rewrite read_hex_app, Hv. cbn. rewrite Hd. f_equal. lia.
Qed.

Lemma to_hex_spec n : is_u64 n -> to_hex n <> [] /\ no_line_end (to_hex n) /\ read_hex 0 (to_hex n) = Some n.
Proof.
  intros Hn. destruct (to_hex_loop_spec 16 n []) as (d & Heq & ? & ? & ?); [|lia|].
  - change (16 ^ Z.of_nat 16) with (2 ^ 64). lia.
  - unfold to_hex. by rewrite Heq, app_nil_r.
Qed.

(** The bytes of one uploaded piece in chunked encoding. *)
Definition chunk (data : bytes) : bytes := chunk_head (vsize data) ++ data ++ crlf.

Lemma read_exact_app a b : read_exact (vsize a) (a ++ b) = Some (a, b).
Proof.
  unfold read_exact. rewrite take_app_z, drop_app_z. unfold vsize. rewrite length_app.
  destruct ((0 <=? Z.of_nat (length a)) && (Z.of_nat (length a) <=? Z.of_nat (length a + length b))) eqn:E; [done|].
  apply andb_false_iff in E as [E|E]; apply Z.leb_gt in E; lia.
Qed.

Lemma read_chunks_pieces pieces fuel rest :
  Forall (fun data => 0 < vsize data < 2 ^ 64) pieces -> (length pieces < fuel)%nat ->
  read_chunks fuel (concat (map chunk pieces) ++ last_chunk ++ rest) = Some (concat pieces, rest).
Proof.
  revert fuel. induction pieces as [|data pieces IH]; intros fuel Hp Hf; (destruct fuel as [|fuel]; [lia|]); [done|].
  apply Forall_cons in Hp as [Hd Hp]. destruct (to_hex_spec (vsize data)) as (Hne & Hl & Hv); [lia|].
  cbn [map concat]. unfold chunk at 1, chunk_head.
  replace ((((to_hex (vsize data) ++ crlf) ++ data ++ crlf) ++ concat (map chunk pieces)) ++ last_chunk ++ rest) with
    (to_hex (vsize data) ++ crlf ++ data ++ crlf ++ concat (map chunk pieces) ++ last_chunk ++ rest)
    by (by rewrite <- !app_assoc).
  cbn [read_chunks]. rewrite read_line_crlf by done. destruct (to_hex (vsize data)) as [|c l]; [done|]. rewrite Hv.
  destruct (Z.eqb_spec (vsize data) 0); [lia|]. rewrite read_exact_app.
  change (read_line (crlf ++ ?s)) with (Some (@nil ascii, s)). cbv iota beta. rewrite IH by (done || cbn in Hf; lia). done.
Qed.

(** ** Whole requests *)

(** The bytes [e] are the request [r], whatever follows them. *)
Definition reads (r : Request) (e : bytes) : Prop := e <> [] /\ forall rest, read_request (e ++ rest) = Some (r, rest).

(** Header fields that leave the framing of the body to the client. *)
Definition frames_free (h : header) : Prop :=
  plain_header h /\ ascii_equal (fst h) (lit "transfer-encoding") = false /\
  ascii_equal (fst h) (lit "content-length") = false.

Lemma find_none {A} (f : A -> bool) l : Forall (fun x => f x = false) l -> List.find f l = None.
Proof. induction 1 as [|x l Hx _ IH]; cbn; [done|]. by rewrite Hx. Qed.

Lemma find_skip {A} (f : A -> bool) a b : Forall (fun x => f x = false) a -> List.find f (a ++ b) = List.find f b.
Proof. induction 1 as [|x l Hx _ IH]; cbn; [done|]. by rewrite Hx. Qed.

Lemma framing_fields a hs cl ch :
  Forall frames_free hs ->
  field (lit "transfer-encoding") (request_fields a hs cl ch) =
    match cl with Some _ => None | None => if ch then Some (lit "chunked") else None end /\
  field (lit "content-length") (request_fields a hs cl ch) = to_chars <$> cl.
Proof.
  intros Hh. unfold field, request_fields. cbn [List.find fst].
  change (ascii_equal (lit "host") (lit "transfer-encoding")) with false.
  change (ascii_equal (lit "host") (lit "content-length")) with false. cbv iota.
  split; (rewrite find_skip by (eapply Forall_impl; [exact Hh|]; intros x (? & ? & ?); done));
    destruct cl as [n|]; [|destruct ch| |destruct ch]; reflexivity.
Qed.

Section Whole.
Context (m p a : bytes) (hs : list header).
Hypothesis (Hm : valid_method m = true) (Hs : " "%char ∉ p) (Hp : no_line_end p) (Ha : no_line_end a).
Hypothesis (Hh : Forall frames_free hs).

Lemma whole_head cl ch body :
  (forall n, cl = Some n -> is_u64 n) ->
  head_text m p (request_fields a hs cl ch) <> [] /\
  read_head (head_text m p (request_fields a hs cl ch) ++ body) = Some (mkHead m p (request_fields a hs cl ch), body).
Proof.
  intros Hn. split.
  - unfold head_text. intros E. apply (f_equal (@length ascii)) in E. rewrite !length_app in E. cbn in E. lia.
  - apply read_head_text; try done. apply request_fields_plain; try done.
    eapply Forall_impl; [exact Hh|]. by intros x (? & _).
Qed.

Lemma reads_no_body : reads (mkRequest (mkHead m p (request_fields a hs None false)) [])
  (head_text m p (request_fields a hs None false)).
Proof.
  destruct (whole_head None false [] ltac:(done)) as [Hne _]. split; [done|]. intros rest. unfold read_request.
  destruct (whole_head None false rest ltac:(done)) as [_ ->]. cbn [hd_fields].
  destruct (framing_fields a hs None false Hh) as [-> ->]. done.
Qed.

Lemma reads_fixed n body :
  is_u64 n -> vsize body = n ->
  reads (mkRequest (mkHead m p (request_fields a hs (Some n) false)) body)
    (head_text m p (request_fields a hs (Some n) false) ++ body).
Proof.
  intros Hn Hb. assert (Hc : forall k, Some n = Some k -> is_u64 k) by (by intros k [= <-]).
  destruct (whole_head (Some n) false [] Hc) as [Hne _]. split; [by destruct (head_text _ _ _)|]. intros rest.
  unfold read_request. rewrite <- app_assoc. destruct (whole_head (Some n) false (body ++ rest) Hc) as [_ ->].
  cbn [hd_fields]. destruct (framing_fields a hs (Some n) false Hh) as [-> ->]. cbn [fmap option_fmap option_map].
  rewrite from_chars_to_chars by done. rewrite <- Hb, read_exact_app. done.
Qed.

Lemma reads_chunked pieces :
  Forall (fun data => 0 < vsize data < 2 ^ 64) pieces ->
  reads (mkRequest (mkHead m p (request_fields a hs None true)) (concat pieces))
    (head_text m p (request_fields a hs None true) ++ concat (map chunk pieces) ++ last_chunk).
Proof.
  intros Hd. destruct (whole_head None true [] ltac:(done)) as [Hne _]. split; [by destruct (head_text _ _ _)|].
  intros rest. unfold read_request. rewrite <- !app_assoc.
  destruct (whole_head None true (concat (map chunk pieces) ++ last_chunk ++ rest) ltac:(done)) as [_ ->].
  cbn [hd_fields]. destruct (framing_fields a hs None true Hh) as [-> _].
  change (str_eqb (lit "chunked") (lit "chunked")) with true. cbv iota.
  rewrite read_chunks_pieces; [done|done|]. rewrite !length_app.
  assert (length pieces <= length (concat (map chunk pieces)))%nat; [|cbn; lia].
  clear. induction pieces as [|x l IH]; [done|]. cbn [map concat length]. rewrite length_app.
  unfold chunk at 1. rewrite !length_app. cbn. lia.
Qed.

End Whole.

Lemma read_requests_all rs ws :
  Forall2 reads rs ws -> read_requests (length (concat ws)) (concat ws) = Some rs.
Proof.
  intros H. assert (Hg : forall fuel, (length ws <= fuel)%nat -> read_requests fuel (concat ws) = Some rs).
  { induction H as [|r e rs ws [Hne Hr] _ IH]; intros fuel Hf; [by destruct fuel|].
    destruct fuel as [|fuel]; [cbn in Hf; lia|]. cbn [concat].
    destruct (e ++ concat ws) as [|c l] eqn:E; [by destruct e|]. cbn [read_requests]. rewrite <- E, Hr.
    rewrite IH by (cbn in Hf; lia). done. }
  apply Hg. clear Hg. induction H as [|r e rs ws [Hne _] _ IH]; [done|]. cbn [concat]. rewrite length_app.
  destruct e; [done|]. cbn. lia.
Qed.
