(* ===== verification/Http1Client.v ===== *)
(** * HTTP/1.1 connections

    The request side of [Http1Client] ([http.cpp]): [perform] with its callers [get_range],
    [put_from_fd] and [request_no_body], and the streaming upload [begin_upload],
    [upload_bytes], [upload_from_fd], [finish_upload], [cancel_upload].  What connecting,
    each send and the response give are arguments; a send that fails may have sent a part.
    The theorem reads the bytes of the connection with the server of [Http1Request]. *)

From S2P Require Import Prelude StdText Http1Request.

#[local] Arguments to_hex : simpl never.
#[local] Arguments to_chars : simpl never.
#[local] Arguments chunk_head : simpl never.
#[local] Arguments last_chunk : simpl never.
#[local] Arguments head_text : simpl never.
#[local] Arguments request_fields : simpl never.
#[local] Arguments u64 : simpl never.
#[local] Arguments SIZE_MAX : simpl never.

Definition kUnknownBodyLength : Z := SIZE_MAX.

(** [socket] holds the bytes sent on the connection, when it is open; [tls_request] says that
    [tls_upload_request_id] is set.  [log] are the requests the connection has carried and
    [pending] the head of the upload in progress with the pieces sent so far; neither is in
    the source. *)
Record Http1Client := mkHttp1Client {
  authority : bytes;
  reconnectable : bool;
  tls : bool;
  socket : option bytes;
  request_active : bool;
  upload_chunked : bool;
  upload_method : bytes;
  upload_sent : Z;
  upload_length : Z;
  tls_request : bool;
  log : list Request;
  pending : option (Head * list bytes);
}.

#[export] Instance Http1Client_settable : Settable Http1Client := fun c =>
  mkHttp1Client (authority c) (reconnectable c) (tls c) (socket c) (request_active c) (upload_chunked c)
    (upload_method c) (upload_sent c) (upload_length c) (tls_request c) (log c) (pending c).

(** ** Transport *)

(** [socket.reset()]. *)
Definition reset_socket (c : Http1Client) : Http1Client := c <| socket := None |> <| log := [] |> <| pending := None |>.

Definition ensure_connected (c : Http1Client) (connect : result unit) : Http1Client * result unit :=
  match socket c with
  | Some _ => (c, Ok tt)
  | None =>
      if negb (reconnectable c) then (c, Throw RuntimeError)
      else match connect with
           | Ok _ => (c <| socket := Some [] |>, Ok tt)
           | Throw e => (c, Throw e)
           end
  end.

(** What [send_all], [sendfile_exact] or [splice_exact] achieve. *)
Inductive Sent := SentAll | SentPart (count : nat) (errno : Z).

Definition send (c : Http1Client) (data : bytes) (sent : Sent) : Http1Client * result unit :=
  let append part := c <| socket := match socket c with Some wire => Some (wire ++ part) | None => None end |> in
  match sent with
  | SentAll => (append data, Ok tt)
  | SentPart n e => (append (take n data), Throw (SystemError e))
  end.

(** [receive_response], of which only the exception or [should_keep_alive] matters here. *)
Definition receive_response (c : Http1Client) (response : result bool) : Http1Client * result unit :=
  match response with
  | Ok keep_alive => (if keep_alive then c else reset_socket c, Ok tt)
  | Throw e => (c, Throw e)
  end.

(** ** Single requests *)

Definition needs_content_length (method : bytes) : bool :=
  str_eqb method (lit "PUT") || str_eqb method (lit "POST") || str_eqb method (lit "PATCH").

(** [sent] and [sent_body] are the outcomes of sending the head and the file. *)
Record PerformEnv := mkPerformEnv {
  pe_connect : result unit;
  pe_sent : Sent;
  pe_sent_body : Sent;
  pe_response : result bool;
}.

(** The body is read from the file, so [content_length] is its size. *)
Definition perform_try (c : Http1Client) (env : PerformEnv) (method path : bytes) (headers : list header)
    (content_length : option Z) (body : bytes) (generated_headers : list header) (trusted_headers : bool) :
    Http1Client * result unit :=
  match ensure_connected c (pe_connect env) with
  | (c, Throw e) => (c, Throw e)
  | (c, Ok _) =>
      match build_request_head method path (authority c) generated_headers headers content_length false trusted_headers with
      | Throw e => (c, Throw e)
      | Ok head =>
          match send c head (pe_sent env) with
          | (c, Throw e) => (c, Throw e)
          | (c, Ok _) =>
              let '(c, sent) := if bool_decide (body = []) then (c, Ok tt) else send c body (pe_sent_body env) in
              match sent with
              | Throw e => (c, Throw e)
              | Ok _ =>
                  let fields := request_fields (authority c) (generated_headers ++ headers) content_length false in
                  receive_response (c <| log := log c ++ [mkRequest (mkHead method path fields) body] |>) (pe_response env)
              end
          end
      end
  end.

Definition perform (c : Http1Client) (env : PerformEnv) (method path : bytes) (headers : list header)
    (content_length : option Z) (body : bytes) (generated_headers : list header) (trusted_headers : bool) :
    Http1Client * result unit :=
  if request_active c then (c, Throw LogicError)
  else
    match perform_try (c <| request_active := true |>) env method path headers content_length body generated_headers
            trusted_headers with
    | (c, Ok _) => (c <| request_active := false |>, Ok tt)
    | (c, Throw e) => (reset_socket (c <| request_active := false |>), Throw e)
    end.

Definition get_range (c : Http1Client) (env : PerformEnv) (path : bytes) (offset length capacity : Z)
    (extra : list header) : Http1Client * result unit :=
  match get_range_headers offset length capacity extra with
  | Throw e => (c, Throw e)
  | Ok generated => perform c env (lit "GET") path extra None [] generated true
  end.

Definition put_from_fd (c : Http1Client) (env : PerformEnv) (path : bytes) (extra : list header) (source_fd : Z)
    (body : bytes) : Http1Client * result unit :=
  if negb (bool_decide (body = [])) && (source_fd <? 0) then (c, Throw InvalidArgument)
  else if existsb (fun h => str_eqb (map tolower (fst h)) (lit "content-length")) extra then (c, Throw InvalidArgument)
  else perform c env (lit "PUT") path extra (Some (vsize body)) body [] false.

Definition request_no_body (c : Http1Client) (env : PerformEnv) (method path : bytes) (extra : list header)
    (max_response_body : Z) : Http1Client * result unit :=
  if bool_decide (method = []) || (max_response_body =? 0) then (c, Throw InvalidArgument)
  else perform c env method path extra (if needs_content_length method then Some 0 else None) [] [] false.

(** ** Streaming uploads *)

Definition cancel_upload (c : Http1Client) : Http1Client :=
  reset_socket (c <| tls_request := false |> <| request_active := false |> <| upload_chunked := false |>
                  <| upload_method := [] |> <| upload_sent := 0 |> <| upload_length := kUnknownBodyLength |>).

(** The body of a [try] block whose handler cancels the upload and rethrows. *)
Definition or_cancel (r : Http1Client * result unit) : Http1Client * result unit :=
  match r with
  | (c, Ok _) => (c, Ok tt)
  | (c, Throw e) => (cancel_upload c, Throw e)
  end.

Definition begin_upload_try (c : Http1Client) (connect : result unit) (sent : Sent) (method path : bytes)
    (extra : list header) (content_length : Z) : Http1Client * result unit :=
  match ensure_connected c connect with
  | (c, Throw e) => (c, Throw e)
  | (c, Ok _) =>
      let c := if tls c then c <| tls_request := true |> else c in
      let fixed_length := negb (content_length =? kUnknownBodyLength) in
      let length := if fixed_length then Some content_length else None in
      match build_request_head method path (authority c) [] extra length (negb fixed_length) false with
      | Throw e => (c, Throw e)
      | Ok head =>
          match send c head sent with
          | (c, Throw e) => (c, Throw e)
          | (c, Ok _) =>
              let fields := request_fields (authority c) extra length (negb fixed_length) in
              (c <| upload_method := method |> <| upload_chunked := negb fixed_length |> <| upload_sent := 0 |>
                 <| upload_length := content_length |> <| pending := Some (mkHead method path fields, []) |>, Ok tt)
          end
      end
  end.

Definition begin_upload (c : Http1Client) (connect : result unit) (sent : Sent) (method path : bytes)
    (extra : list header) (content_length : Z) : Http1Client * result unit :=
  if request_active c then (c, Throw LogicError)
  else or_cancel (begin_upload_try (c <| request_active := true |>) connect sent method path extra content_length).

(** The sends of [upload_bytes] and [upload_from_fd]; [sent] are the outcomes of the chunk
    head, of the data and of the line end behind them. *)
Definition upload_piece (c : Http1Client) (data : bytes) (sent : Sent * Sent * Sent) : Http1Client * result unit :=
  let '(sent_head, sent_data, sent_end) := sent in
  if negb (upload_chunked c) && (u64 (upload_length c - upload_sent c) <? vsize data) then (c, Throw RuntimeError)
  else
    let '(c, r) := if upload_chunked c then send c (chunk_head (vsize data)) sent_head else (c, Ok tt) in
    match r with
    | Throw e => (c, Throw e)
    | Ok _ =>
        match send c data sent_data with
        | (c, Throw e) => (c, Throw e)
        | (c, Ok _) =>
            let '(c, r) := if upload_chunked c then send c crlf sent_end else (c, Ok tt) in
            match r with
            | Throw e => (c, Throw e)
            | Ok _ =>
                (c <| upload_sent := u64 (upload_sent c + vsize data) |>
                   <| pending := match pending c with Some (h, pieces) => Some (h, pieces ++ [data]) | None => None end |>,
                 Ok tt)
            end
        end
    end.

Definition upload_bytes (c : Http1Client) (data : bytes) (sent : Sent * Sent * Sent) : Http1Client * result unit :=
  if bool_decide (data = []) then (c, Ok tt)
  else if negb (request_active c) || bool_decide (upload_method c = []) then (c, Throw LogicError)
  else or_cancel (upload_piece c data sent).

(** [data] are the [length] bytes of the file or the pipe. *)
Definition upload_from_fd (c : Http1Client) (fd : Z) (data : bytes) (sent : Sent * Sent * Sent) :
    Http1Client * result unit :=
  if bool_decide (data = []) then (c, Ok tt)
  else if fd <? 0 then (c, Throw InvalidArgument)
  else if negb (request_active c) || bool_decide (upload_method c = []) then (c, Throw LogicError)
  else or_cancel (upload_piece c data sent).

Definition finish_upload_try (c : Http1Client) (sent : Sent) (response : result bool) : Http1Client * result unit :=
  if negb (upload_chunked c) && negb (upload_sent c =? upload_length c) then (c, Throw RuntimeError)
  else
    let '(c, r) := if upload_chunked c then send c last_chunk sent else (c, Ok tt) in
    match r with
    | Throw e => (c, Throw e)
    | Ok _ =>
        let carried := match pending c with Some (h, pieces) => [mkRequest h (concat pieces)] | None => [] end in
        receive_response (c <| log := log c ++ carried |> <| pending := None |>) response
    end.

Definition finish_upload (c : Http1Client) (sent : Sent) (response : result bool) (max_response_body : Z) :
    Http1Client * result unit :=
  if negb (request_active c) || bool_decide (upload_method c = []) then (c, Throw LogicError)
  else if max_response_body =? 0 then (c, Throw InvalidArgument)
  else
    match finish_upload_try c sent response with
    | (c, Ok _) =>
        (c <| request_active := false |> <| upload_chunked := false |> <| upload_method := [] |> <| upload_sent := 0 |>
           <| upload_length := kUnknownBodyLength |> <| tls_request := false |>, Ok tt)
    | (c, Throw e) => (cancel_upload c, Throw e)
    end.

(** ** Executions *)

(** Callers leave the framing of the body to the client, and the headers they pass as
    trusted are well formed. *)
Definition free_headers (hs : list header) : Prop :=
  Forall (fun h => ascii_equal (fst h) (lit "content-length") = false) hs.

Inductive http1_step (c : Http1Client) : Http1Client -> Prop :=
  | step_get env path offset length capacity extra :
      Forall frames_free extra -> is_u64 offset -> is_u64 length ->
      http1_step c (fst (get_range c env path offset length capacity extra))
  | step_put env path extra fd body :
      vsize body < 2 ^ 64 -> http1_step c (fst (put_from_fd c env path extra fd body))
  | step_request env method path extra max :
      free_headers extra -> http1_step c (fst (request_no_body c env method path extra max))
  | step_begin connect sent method path extra content_length :
      free_headers extra -> is_u64 content_length ->
      http1_step c (fst (begin_upload c connect sent method path extra content_length))
  | step_bytes data sent : vsize data < 2 ^ 64 -> http1_step c (fst (upload_bytes c data sent))
  | step_fd fd data sent : vsize data < 2 ^ 64 -> http1_step c (fst (upload_from_fd c fd data sent))
  | step_finish sent response max : http1_step c (fst (finish_upload c sent response max))
  | step_cancel : http1_step c (cancel_upload c).

(** A connection right after it was opened. *)
Definition new_client (a : bytes) (reconnect tls : bool) : Http1Client :=
  mkHttp1Client a reconnect tls (Some []) false false [] 0 kUnknownBodyLength false [] None.

Definition reachable (a : bytes) (reconnect tls : bool) (c : Http1Client) : Prop :=
  rtc http1_step (new_client a reconnect tls) c.

(** ** Invariant *)

(** What has been sent of the upload in progress. *)
Definition partial (c : Http1Client) : bytes :=
  match pending c with
  | None => []
  | Some (h, pieces) =>
      head_text (hd_method h) (hd_target h) (hd_fields h) ++
      (if upload_chunked c then concat (map chunk pieces) else concat pieces)
  end.

(** The head of an upload is one [build_request_head] has let pass. *)
Definition head_ok (a : bytes) (h : Head) (cl : option Z) (ch : bool) : Prop :=
  exists hs, hd_fields h = request_fields a hs cl ch /\ valid_method (hd_method h) = true /\ " "%char ∉ hd_target h /\
    no_line_end (hd_target h) /\ no_line_end a /\ Forall frames_free hs.

Record uploading (c : Http1Client) (h : Head) (pieces : list bytes) : Prop := {
  up_method : upload_method c = hd_method h;
  up_head : head_ok (authority c) h (if upload_chunked c then None else Some (upload_length c)) (upload_chunked c);
  up_pieces : Forall (fun data => 0 < vsize data < 2 ^ 64) pieces;
  up_length : is_u64 (upload_length c);
  up_sent : upload_chunked c = false -> upload_sent c = vsize (concat pieces) /\ upload_sent c <= upload_length c;
}.

Record conn_inv (c : Http1Client) : Prop := {
  ci_wire : forall w, socket c = Some w -> exists ws, Forall2 reads (log c) ws /\ w = concat ws ++ partial c;
  ci_closed : socket c = None -> log c = [] /\ pending c = None;
  ci_idle : request_active c = false ->
    upload_method c = [] /\ pending c = None /\ tls_request c = false /\ upload_chunked c = false;
  ci_active : request_active c = true -> exists h pieces, pending c = Some (h, pieces) /\ uploading c h pieces;
}.

Lemma cancel_inv c : conn_inv (cancel_upload c).
Proof. by constructor. Qed.

Lemma reset_inv c :
  request_active c = false -> upload_method c = [] -> tls_request c = false -> upload_chunked c = false ->
  conn_inv (reset_socket c).
Proof. intros H1 H2 H3 H4. destruct c; cbn in *; subst. by constructor. Qed.

Lemma or_cancel_inv r : (snd r = Ok tt -> conn_inv (fst r)) -> conn_inv (fst (or_cancel r)).
Proof. destruct r as [c [[]|e]]; cbn; [auto|]. intros _. apply cancel_inv. Qed.

Lemma send_ok c data sent c' r : send c data sent = (c', r) -> r = Ok tt ->
  c' = c <| socket := match socket c with Some wire => Some (wire ++ data) | None => None end |>.
Proof. unfold send. destruct sent; intros; by simplify_eq. Qed.

Lemma set_socket_same c w : socket c = Some w -> c <| socket := Some w |> = c.
Proof. destruct c; cbn. by intros ->. Qed.

Lemma new_inv a reconnect t : conn_inv (new_client a reconnect t).
Proof. constructor; cbn; try done. intros w [= <-]. exists []. by split; [constructor|]. Qed.

(** Headers that pass [append_header] and name no length leave the framing free. *)
Lemma frames_free_of hl hs :
  Forall (fun h => header_conflict hl h = false) hs -> (hl = false -> free_headers hs) -> Forall frames_free hs.
Proof.
  intros H1 H2. apply Forall_forall. intros h Hin. pose proof (proj1 (Forall_forall _ _) H1 _ Hin) as Hc. cbn in Hc.
  pose proof (header_conflict_plain _ _ Hc) as Hp. unfold header_conflict in Hc. rewrite !orb_false_iff in Hc.
  destruct Hc as [[[[_ _] _] Ht] Hl]. split; [done|]. split; [done|]. destruct hl; [done|].
  by apply (proj1 (Forall_forall _ _) (H2 eq_refl)).
Qed.

(** An open connection that has carried whole requests. *)
Definition idle_wire (c : Http1Client) : Prop := exists ws, Forall2 reads (log c) ws /\ socket c = Some (concat ws).

Lemma connected_wire c connect c' :
  conn_inv c -> request_active c = false ->
  ensure_connected (c <| request_active := true |>) connect = (c', Ok tt) ->
  idle_wire c' /\ exists s, c' = c <| request_active := true |> <| socket := Some s |>.
Proof.
  intros [I1 I2 I3 _] Hi H. destruct (I3 Hi) as (_ & Hp & _). unfold ensure_connected in H. cbn in H.
  destruct (socket c) as [w|] eqn:Hs.
  - injection H as <-. split; [|exists w; destruct c; cbn in *; by subst].
    destruct (I1 w eq_refl) as (ws & F & ->). exists ws. split; [done|]. cbn. rewrite Hs. unfold partial.
    by rewrite Hp, app_nil_r.
  - destruct (reconnectable c); [|done]. destruct connect as [[]|]; [|done]. injection H as <-. split; [|by eexists].
    exists []. destruct (I2 eq_refl) as [Hl _]. cbn. rewrite Hl. by split.
Qed.

(** A request sent completely on an idle connection. *)
Lemma idle_carried c r e c' :
  idle_wire c -> reads r e -> c' = c <| socket := match socket c with Some w => Some (w ++ e) | None => None end |>
                                     <| log := log c ++ [r] |> -> idle_wire c'.
Proof.
  intros (ws & F & Hs) Hr ->. exists (ws ++ [e]). cbn. rewrite Hs. split; [apply Forall2_app; [done|by constructor]|].
  rewrite concat_app. cbn. by rewrite app_nil_r.
Qed.

Lemma idle_inv c :
  idle_wire c -> request_active c = false -> upload_method c = [] -> pending c = None -> tls_request c = false ->
  upload_chunked c = false -> conn_inv c.
Proof.
  intros (ws & F & Hs) H1 H2 H3 H4 H5. constructor; try done; [| |congruence].
  - intros w Hw. rewrite Hs in Hw. injection Hw as <-. exists ws. split; [done|]. unfold partial. by rewrite H3, app_nil_r.
  - rewrite Hs. done.
Qed.

(** The body fits its framing. *)
Definition body_fits (cl : option Z) (body : bytes) : Prop :=
  match cl with Some n => is_u64 n /\ vsize body = n | None => body = [] end.

Lemma reads_body m p a hs cl body :
  valid_method m = true -> " "%char ∉ p -> no_line_end p -> no_line_end a -> Forall frames_free hs -> body_fits cl body ->
  reads (mkRequest (mkHead m p (request_fields a hs cl false)) body) (head_text m p (request_fields a hs cl false) ++ body).
Proof.
  intros. destruct cl as [n|]; cbn in *; [destruct_and!; by apply reads_fixed|]. subst. rewrite app_nil_r. by apply reads_no_body.
Qed.

(** [perform] leaves the upload state alone. *)
Definition upload_view (c : Http1Client) : bytes * bool * bool := (upload_method c, tls_request c, upload_chunked c).

Lemma ensure_view c connect : upload_view (fst (ensure_connected c connect)) = upload_view c.
Proof. unfold ensure_connected. destruct (socket c), (reconnectable c), connect; done. Qed.

Lemma send_view c data sent : upload_view (fst (send c data sent)) = upload_view c.
Proof. by destruct sent. Qed.

Lemma perform_view c env m p hs cl body g trusted :
  upload_view (fst (perform_try c env m p hs cl body g trusted)) = upload_view c.
Proof.
  unfold perform_try. pose proof (ensure_view c (pe_connect env)) as V1.
  destruct (ensure_connected c (pe_connect env)) as [c1 [[]|]]; cbn [fst] in V1; [|done].
  destruct (build_request_head _ _ _ _ _ _ _ _) as [head|]; [|done]. pose proof (send_view c1 head (pe_sent env)) as V2.
  destruct (send c1 head (pe_sent env)) as [c2 [[]|]]; cbn [fst] in V2; [|cbn; congruence].
  pose proof (send_view c2 body (pe_sent_body env)) as V3.
  destruct (bool_decide (body = [])); [|destruct (send c2 body (pe_sent_body env)) as [c3 [[]|]]; cbn [fst] in V3];
    try (cbn; congruence); unfold receive_response; (destruct (pe_response env) as [[]|]; cbn; unfold upload_view in *; cbn; congruence).
Qed.

Lemma perform_inv c env m p hs cl body g (trusted : bool) :
  conn_inv c -> body_fits cl body ->
  (if trusted then Forall frames_free (g ++ hs) else cl = None -> free_headers (g ++ hs)) ->
  conn_inv (fst (perform c env m p hs cl body g trusted)).
Proof.
  intros I Hb Hh. unfold perform. destruct (request_active c) eqn:Hact; [done|].
  destruct (ci_idle _ I Hact) as (Hm & Hp & Ht & Hc).
  destruct (perform_try _ _ _ _ _ _ _ _ _) as [c' [[]|e]] eqn:E; cbn [fst].
  2: { pose proof (perform_view (c <| request_active := true |>) env m p hs cl body g trusted) as V. rewrite E in V.
       unfold upload_view in V. cbn in V. rewrite Hm, Ht, Hc in V. injection V as ? ? ?. by apply reset_inv. }
  unfold perform_try in E. destruct (ensure_connected _ _) as [c1 [[]|]] eqn:E1; [|done].
  destruct (connected_wire _ _ _ I Hact E1) as [Hw [s1 Hc1]].
  destruct (build_request_head _ _ _ _ _ _ _ _) as [head|] eqn:E2; [|done].
  apply build_request_head_ok in E2 as (-> & Hv & Hs & Hpl & Ha & Hf).
  assert (Hfree : Forall frames_free (g ++ hs)).
  { destruct trusted; [done|]. eapply frames_free_of; [by apply Hf|]. destruct cl; [done|]. by intros _; apply Hh. }
  destruct (send c1 _ _) as [c2 r2] eqn:E3. destruct r2 as [[]|]; [|done]. apply send_ok in E3; [|done].
  assert (H3 : exists c3, (if bool_decide (body = []) then (c2, Ok tt) else send c2 body (pe_sent_body env)) = (c3, Ok tt) /\
    c3 = c2 <| socket := match socket c2 with Some w => Some (w ++ body) | None => None end |>).
  { destruct (bool_decide (body = [])) eqn:Hbe.
    - apply bool_decide_eq_true in Hbe. exists c2. split; [done|]. rewrite Hbe. destruct c2; cbn. destruct socket0; by rewrite ?app_nil_r.
    - destruct (send c2 body (pe_sent_body env)) as [c3 [[]|]] eqn:E4; [|done]. exists c3. split; [done|]. by eapply send_ok. }
  destruct H3 as (c3 & E4 & H3). rewrite E4 in E.
  pose proof (reads_body m p (authority c1) (g ++ hs) cl body Hv Hs Hpl Ha Hfree Hb) as Hr.
  assert (Hidle : idle_wire (c3 <| log := log c3 ++ [mkRequest (mkHead m p (request_fields (authority c3) (g ++ hs) cl false)) body] |>)).
  { eapply (idle_carried c1); [done|exact Hr|]. subst c3 c2. destruct Hw as (ws & _ & Hw). destruct c1; cbn in *. subst socket0.
    by rewrite <- app_assoc. }
  unfold receive_response in E. destruct (pe_response env) as [keep|]; [|done].
  injection E as <-. destruct keep.
  - subst c3 c2 c1. apply idle_inv; cbn; try done.
  - refine (reset_inv (c3 <| request_active := false |>) _ _ _ _); subst c3 c2 c1; done.
Qed.

Lemma get_range_inv c env path offset length capacity extra :
  Forall frames_free extra -> is_u64 offset -> is_u64 length -> conn_inv c ->
  conn_inv (fst (get_range c env path offset length capacity extra)).
Proof.
  intros Hf Ho Hl I. unfold get_range. destruct (get_range_headers _ _ _ _) as [g|] eqn:E; [|done].
  apply perform_inv; [done|done|]. apply Forall_app. split; [|done].
  unfold get_range_headers in E. repeat case_match; try done. apply rbind_ok in E as (supplied & _ & E). simplify_eq.
  assert (Hid : frames_free (lit "accept-encoding", lit "identity")) by (split; [split|]; [done|repeat constructor; done|done]).
  destruct supplied; [by constructor|]. constructor; [|by constructor].
  split; [|done]. split; [done|]. cbn [snd]. unfold range_header_value.
  assert (Hd : forall n, is_u64 n -> no_line_end (to_chars n)).
  { intros n Hn. destruct (to_chars_spec n Hn) as (_ & Hdig & _). eapply Forall_impl; [exact Hdig|].
    intros ch Hch. split; intros ->; done. }
  repeat (apply Forall_app; split); try (apply Hd; done || apply u64_range); repeat constructor; done.
Qed.

Lemma put_inv c env path extra fd body :
  vsize body < 2 ^ 64 -> conn_inv c -> conn_inv (fst (put_from_fd c env path extra fd body)).
Proof.
  intros Hb I. unfold put_from_fd. repeat case_match; try done. apply perform_inv; [done| |done].
  split; [|done]. pose proof (vsize_nonneg body). lia.
Qed.

Lemma request_no_body_inv c env m p extra max :
  free_headers extra -> conn_inv c -> conn_inv (fst (request_no_body c env m p extra max)).
Proof. intros Hf I. unfold request_no_body. case_match; [done|]. apply perform_inv; [done| |done]. by case_match. Qed.

Lemma begin_inv c connect sent m p extra cl :
  free_headers extra -> is_u64 cl -> conn_inv c -> conn_inv (fst (begin_upload c connect sent m p extra cl)).
Proof.
  intros Hf Hcl I. unfold begin_upload. destruct (request_active c) eqn:Hact; [done|]. apply or_cancel_inv. intros Hok.
  unfold begin_upload_try in *. destruct (ensure_connected _ _) as [c1 [[]|]] eqn:E1; [|done].
  destruct (connected_wire _ _ _ I Hact E1) as [(ws & F & Hw) [s1 Hc1]].
  set (c1' := if tls c1 then c1 <| tls_request := true |> else c1) in *.
  assert (Hc1' : socket c1' = socket c1 /\ log c1' = log c1 /\ authority c1' = authority c1 /\ request_active c1' = true).
  { subst c1' c1. by destruct (tls _). }
  destruct Hc1' as (Es & El & Ea & Eact). clearbody c1'. set (fixed := negb (cl =? kUnknownBodyLength)) in *.
  destruct (build_request_head _ _ _ _ _ _ _ _) as [head|] eqn:E2; [|done].
  apply build_request_head_ok in E2 as (-> & Hv & Hs & Hpl & Ha & Hfr). cbn [app] in *.
  destruct (send c1' _ _) as [c2 [[]|]] eqn:E3; [|done]. apply send_ok in E3; [|done]. cbn [fst].
  assert (Hfree : Forall frames_free extra) by (eapply frames_free_of; [by apply Hfr|done]).
  subst c2. constructor; cbn; try congruence.
  - intros w Hsw. rewrite Es, Hw in Hsw. injection Hsw as <-. exists ws. rewrite El. split; [done|].
    unfold partial. cbn. destruct (negb fixed); by rewrite app_nil_r.
  - rewrite Es, Hw. done.
  - intros _. eexists _, []. split; [reflexivity|]. constructor; cbn; try done.
    + exists extra. cbn. split_and!; try done. by destruct fixed.
    + intros _. split; [done|]. lia.
Qed.

(** A piece sent completely. *)
Lemma piece_inv c data sent h pieces c' :
  conn_inv c -> request_active c = true -> pending c = Some (h, pieces) -> uploading c h pieces ->
  0 < vsize data < 2 ^ 64 -> upload_piece c data sent = (c', Ok tt) -> conn_inv c'.
Proof.
  intros I Hact Hp U Hd H. destruct sent as [[o1 o2] o3]. unfold upload_piece in H.
  destruct (negb (upload_chunked c) && _) eqn:Hfit; [done|].
  destruct (socket c) as [w|] eqn:Hs; [|by destruct (ci_closed _ I Hs) as [_ E]; rewrite Hp in E].
  destruct (ci_wire _ I w Hs) as (ws & F & ->). destruct U as [U1 U2 U3 U4 U5].
  set (sent_data := if upload_chunked c then chunk data else data).
  assert (Hc' : c' = c <| socket := Some (concat ws ++ partial c ++ sent_data) |>
      <| upload_sent := u64 (upload_sent c + vsize data) |> <| pending := Some (h, pieces ++ [data]) |>).
  { destruct (upload_chunked c) eqn:Hch.
    - destruct (send c _ o1) as [c1 [[]|]] eqn:E1; [|done]. apply send_ok in E1; [|done].
      destruct (send c1 _ o2) as [c2 [[]|]] eqn:E2; [|done]. apply send_ok in E2; [|done]. subst c2 c1. cbn in H.
      rewrite Hch in H. destruct (send _ crlf o3) as [c3 [[]|]] eqn:E3; [|done]. apply send_ok in E3; [|done]. subst c3.
      cbn in H. rewrite Hs in H. cbn in H. rewrite Hp in H. injection H as <-. subst sent_data. unfold chunk.
      by rewrite !app_assoc.
    - destruct (send c _ o2) as [c2 [[]|]] eqn:E2; [|done]. apply send_ok in E2; [|done]. subst c2. cbn in H.
      rewrite Hch, Hs in H. cbn in H. rewrite Hp in H. injection H as <-. subst sent_data. by rewrite !app_assoc. }
  subst c'. constructor; cbn; try congruence.
  - intros v [= <-]. exists ws. split; [done|]. f_equal. unfold partial. cbn. rewrite Hp. rewrite <- app_assoc. f_equal.
    subst sent_data. destruct (upload_chunked c); rewrite ?map_app, concat_app; cbn; by rewrite app_nil_r.
  - intros _. exists h, (pieces ++ [data]). split; [done|]. constructor; cbn; try done.
    + apply Forall_app. split; [done|]. by apply Forall_singleton.
    + intros Hch. destruct (U5 Hch) as [E1 E2]. rewrite Hch in Hfit. cbn in Hfit. apply Z.ltb_ge in Hfit.
      assert (0 <= upload_sent c) by (rewrite E1; apply vsize_nonneg).
      rewrite u64_small in Hfit by lia. rewrite u64_small by lia. rewrite concat_app. cbn. rewrite app_nil_r.
      unfold vsize in *. rewrite length_app. lia.
Qed.

Lemma upload_inv c data sent :
  data <> [] -> vsize data < 2 ^ 64 -> conn_inv c -> request_active c = true ->
  conn_inv (fst (or_cancel (upload_piece c data sent))).
Proof.
  intros Hne Hd I Hact. apply or_cancel_inv. destruct (upload_piece c data sent) as [c' r] eqn:E. cbn. intros ->.
  destruct (ci_active _ I Hact) as (h & pieces & Hp & U). eapply piece_inv; try done.
  split; [|done]. unfold vsize. destruct data; [done|]. cbn. lia.
Qed.

Lemma finish_upload_inv c sent response max : conn_inv c -> conn_inv (fst (finish_upload c sent response max)).
Proof.
  intros I. unfold finish_upload. destruct (negb (request_active c) || _) eqn:Hact; [done|].
  apply orb_false_iff in Hact as [Hact _]. apply negb_false_iff in Hact. destruct (max =? 0); [done|].
  destruct (finish_upload_try c sent response) as [c' [[]|]] eqn:E; [|apply cancel_inv].
  destruct (ci_active _ I Hact) as (h & pieces & Hp & [U1 U2 U3 U4 U5]).
  unfold finish_upload_try in E. destruct (negb (upload_chunked c) && _) eqn:Hfit; [done|].
  destruct (socket c) as [w|] eqn:Hs; [|by destruct (ci_closed _ I Hs) as [_ E']; rewrite Hp in E'].
  destruct (ci_wire _ I w Hs) as (ws & F & ->).
  set (e := partial c ++ (if upload_chunked c then last_chunk else [])).
  set (r := mkRequest h (concat pieces)).
  assert (Hr : reads r e).
  { subst e r. unfold partial. rewrite Hp. destruct U2 as (hs & Eh & Hv & Ht & Hl & Ha & Hf).
    destruct h as [m p fields]. cbn [hd_method hd_target hd_fields] in *. subst fields.
    destruct (upload_chunked c) eqn:Hch; rewrite <- app_assoc.
    - by apply reads_chunked.
    - rewrite app_nil_r. destruct (U5 eq_refl) as [E1 E2]. cbn in Hfit. apply negb_false_iff, Z.eqb_eq in Hfit.
      apply reads_fixed; try done. congruence. }
  assert (Hc : exists keep, response = Ok keep /\ c' = let d := c <| socket := Some (concat ws ++ e) |>
             <| log := log c ++ [r] |> <| pending := None |> in if keep : bool then d else reset_socket d).
  { unfold receive_response in E. destruct (upload_chunked c) eqn:Hch.
    - destruct (send c last_chunk sent) as [c1 [[]|]] eqn:E1; [|done]. apply send_ok in E1; [|done]. subst c1. cbn in E.
      rewrite Hp, Hs in E. destruct response as [keep|]; [|done]. exists keep. split; [done|]. injection E as <-.
      subst e. rewrite app_assoc. by destruct keep.
    - cbn in E. rewrite Hp in E. destruct response as [keep|]; [|done]. exists keep. split; [done|]. injection E as <-.
      subst e. rewrite app_nil_r, set_socket_same by done. by destruct keep. }
  destruct Hc as ([] & _ & ->); [|by constructor]. apply idle_inv; try done.
  exists (ws ++ [e]). cbn. split; [apply Forall2_app; [done|by constructor]|]. rewrite concat_app. cbn. by rewrite app_nil_r.
Qed.

Lemma reachable_conn a reconnect t c : reachable a reconnect t c -> conn_inv c.
Proof.
  apply (rtc_ind_r _ (new_client a reconnect t)); [apply new_inv|]. intros x y _ [] I.
  - by apply get_range_inv.
  - by apply put_inv.
  - by apply request_no_body_inv.
  - by apply begin_inv.
  - unfold upload_bytes. case_bool_decide; [done|]. destruct (request_active x) eqn:Hact; [|done]. cbn [negb orb].
    case_bool_decide; [done|]. by apply upload_inv.
  - unfold upload_from_fd. case_bool_decide; [done|]. case_match; [done|]. destruct (request_active x) eqn:Hact; [|done].
    cbn [negb orb]. case_bool_decide; [done|]. by apply upload_inv.
  - by apply finish_upload_inv.
  - apply cancel_inv.
Qed.

(** ** Theorem *)

(** C30: whatever requests and uploads a connection carries, and whichever connects, sends and
    responses fail, a server that reads the bytes of an idle connection finds exactly the
    requests the client made, with their heads and bodies; nothing is left of an upload that
    failed or was cancelled; an upload with a declared length never exceeds it; and the
    upload state is empty whenever no request is active. *)
Theorem http1_connection_framed a reconnect t c :
  reachable a reconnect t c ->
  (forall wire, socket c = Some wire -> request_active c = false -> read_requests (length wire) wire = Some (log c)) /\
  (request_active c = false -> upload_method c = [] /\ pending c = None /\ tls_request c = false) /\
  (request_active c = true -> exists h pieces, pending c = Some (h, pieces) /\ upload_method c = hd_method h /\
     (upload_chunked c = false -> upload_sent c = vsize (concat pieces) /\ upload_sent c <= upload_length c)).
Proof.
  intros R. pose proof (reachable_conn _ _ _ _ R) as I. split_and!.
  - intros wire Hs Hact. destruct (ci_wire _ I wire Hs) as (ws & F & ->). destruct (ci_idle _ I Hact) as (_ & Hp & _).
    unfold partial. rewrite Hp, app_nil_r. by apply read_requests_all.
  - intros Hact. by destruct (ci_idle _ I Hact) as (? & ? & ? & _).
  - intros Hact. destruct (ci_active _ I Hact) as (h & pieces & Hp & []). by exists h, pieces.
Qed.

(** One connection: a GET, then a chunked upload of two pieces, then an upload that fails in
    the middle and takes the connection with it. *)
Definition sample_env : PerformEnv := mkPerformEnv (Ok tt) SentAll SentAll (Ok true).
Definition sample_sent : Sent * Sent * Sent := (SentAll, SentAll, SentAll).

Definition sample_get : Http1Client :=
  fst (get_range (new_client (lit "s3.example") true false) sample_env (lit "/b/k") 0 10 4096 []).
Definition sample_begun : Http1Client := fst (begin_upload sample_get (Ok tt) SentAll (lit "PUT") (lit "/b/k") [] SIZE_MAX).
Definition sample_first : Http1Client := fst (upload_bytes sample_begun (lit "hello ") sample_sent).
Definition sample_second : Http1Client := fst (upload_bytes sample_first (lit "world") sample_sent).
Definition sample_uploaded : Http1Client := fst (finish_upload sample_second SentAll (Ok true) 4096).

Lemma sample_uploaded_reachable : reachable (lit "s3.example") true false sample_uploaded.
Proof.
  eapply rtc_r; [|apply (step_finish _ SentAll (Ok true) 4096)].
  eapply rtc_r; [|by apply (step_bytes _ (lit "world") sample_sent)].
  eapply rtc_r; [|by apply (step_bytes _ (lit "hello ") sample_sent)].
  eapply rtc_r; [|apply (step_begin _ (Ok tt) SentAll (lit "PUT") (lit "/b/k") [] SIZE_MAX); [constructor|done]].
  eapply rtc_r; [apply rtc_refl|]. apply (step_get _ sample_env (lit "/b/k") 0 10 4096 []); [constructor|lia..].
Qed.

Lemma http1_connection_framed_witness :
  map rq_body (log sample_uploaded) = [[]; lit "hello world"] /\
  exists wire, socket sample_uploaded = Some wire /\ read_requests (length wire) wire = Some (log sample_uploaded).
Proof.
  split; [vm_compute; reflexivity|]. eexists. split; [vm_compute; reflexivity|].
  apply (http1_connection_framed (lit "s3.example") true false sample_uploaded sample_uploaded_reachable);
    vm_compute; reflexivity.
Defined.
