(* ===== verification/Retry.v ===== *)
(** * Retries and error numbers

    The retry policy of [fuse.cpp]: which responses are repeated and after what delay
    ([retry_delay], [retryable_status], [retryable_s3_code], [retryable_response],
    [retry_after_delay], [async_retry_milliseconds]), the synchronous loop
    [request_with_retries], and the errno an S3 error becomes ([errno_for_s3_status],
    [errno_for_s3_error]).  [parse_s3_error] is that of [s3.cpp] around an XML parser that is
    a parameter. *)

From S2P Require Import Prelude StdText Calendar S3Text Http1Request.

(** The members of [Response] the policy reads. *)
Record Response := mkResponse { status : Z; body : bytes; headers : list header }.

Definition find_header (name : bytes) (hs : list header) : option bytes :=
  snd <$> List.find (fun h => str_eqb (fst h) name) hs.

(** [std::string_view::find] of a text. *)
Fixpoint contains (text wanted : bytes) : bool :=
  starts_with wanted text || match text with [] => false | _ :: text => contains text wanted end.

Section Policy.
(** [S3Xml]: the [Code] of a document whose root is [Error]; [None] when the document does
    not parse or has another root. *)
Variable xml_error_code : bytes -> option bytes.

Definition parse_s3_error (text : bytes) : option bytes :=
  let prefix := take_z 1024 text in
  if negb (contains prefix (lit "<Error")) && negb (contains prefix (lit ":Error")) then None
  else xml_error_code text.

Definition retryable_status (status : Z) : bool :=
  (status =? 408) || (status =? 425) || (status =? 429) ||
  ((500 <=? status) && (status <=? 599) && negb (status =? 501) && negb (status =? 505)).

Definition one_of (code : bytes) (names : list string) : bool := existsb (fun name => str_eqb code (lit name)) names.

Definition retryable_s3_code (code : bytes) : bool :=
  one_of code ["RequestTimeout"; "RequestTimeoutException"; "SlowDown"; "InternalError"; "ServiceUnavailable";
               "OperationAborted"; "ConditionalRequestConflict"]%string.

Definition retryable_response (response : Response) : bool :=
  if retryable_status (status response) then true
  else negb (bool_decide (body response = [])) &&
       match parse_s3_error (body response) with Some code => retryable_s3_code code | None => false end.

(** ** Delays *)

(** In milliseconds, at the monotonic time [now] in nanoseconds. *)
Definition retry_delay (attempt now : Z) : Z := u64 (Z.shiftl 25 attempt) + now mod 25.

(** In seconds; [None] when the response names no time to wait for.  [now] is the real time,
    [None] when it cannot be read. *)
Definition retry_after_delay (response : Response) (now : option Z) : option Z :=
  match find_header (lit "retry-after") (headers response) with
  | None => None
  | Some value =>
      match parse_unsigned value with
      | Some seconds => Some (Z.min seconds 30)
      | None =>
          match parse_http_mtime value, now with
          | Ok deadline, Some now => if deadline <=? now then None else Some (Z.min (u64 (deadline - now)) 30)
          | _, _ => None
          end
      end
  end.

(** In milliseconds. *)
Definition async_retry_milliseconds (response : Response) (attempt : Z) (now : option Z) (monotonic : Z) : Z :=
  let fallback := u64 (Z.shiftl 25 (Z.min attempt 3)) + monotonic mod 25 in
  match find_header (lit "retry-after") (headers response) with
  | None => fallback
  | Some value =>
      match parse_unsigned value with
      | Some seconds => Z.max 1 (Z.min seconds 30 * 1000)
      | None =>
          match parse_http_mtime value, now with
          | Ok deadline, Some now => if now <? deadline then Z.min (u64 (deadline - now)) 30 * 1000 else fallback
          | _, _ => fallback
          end
      end
  end.

(** ** The synchronous loop *)

(** One turn: what the request gives, whether a stop is seen at each of the four
    [check_request_stop] (before the request, after it, in the handler, before the delay) and
    the clocks. *)
Record Turn := mkTurn {
  reply : result Response; stop_before : bool; stop_after : bool; stop_handler : bool; stop_delay : bool;
  realtime : option Z; monotonic : Z }.

(** What the caller sees: the result, the flag [ambiguous], the requests made and the delays in
    milliseconds. *)
Record Trace := mkTrace { ambiguous : bool; requests : Z; delays : list Z }.

Definition cancelled_error : exn := SystemError ECANCELED.

(** The body of the [try]: a response to return, one to retry after, or an exception. *)
Inductive Body := Return (r : Response) | Again (r : Response) | Raise (e : exn).

Definition try_request (attempt : Z) (t : Turn) : Body :=
  match reply t with
  | Throw e => Raise e
  | Ok response =>
      if stop_after t then Raise cancelled_error
      else if negb (retryable_response response) || (attempt =? 3) then Return response
      else Again response
  end.

(** [None]: the script of turns has ended and the request has not returned. *)
Fixpoint retry_loop (turns : list Turn) (attempt : Z) (trace : Trace) : option (result Response) * Trace :=
  match turns with
  | [] => (None, trace)
  | t :: turns =>
      if stop_before t then (Some (Throw cancelled_error), trace)
      else
        let trace := mkTrace (ambiguous trace) (requests trace + 1) (delays trace) in
        let wait delayed trace :=
          if stop_delay t then (Some (Throw cancelled_error), trace)
          else retry_loop turns (attempt + 1)
                 (mkTrace (ambiguous trace) (requests trace)
                    (delays trace ++ if (delayed : bool) then [] else [retry_delay attempt (monotonic t)])) in
        match try_request attempt t with
        | Return response => (Some (Ok response), trace)
        | Again response =>
            match retry_after_delay response (realtime t) with
            | Some seconds => wait true (mkTrace true (requests trace) (delays trace ++ [seconds * 1000]))
            | None => wait false (mkTrace true (requests trace) (delays trace))
            end
        | Raise e =>
            if stop_handler t then (Some (Throw cancelled_error), trace)
            else
              let trace := mkTrace true (requests trace) (delays trace) in
              if attempt =? 3 then (Some (Throw e), trace) else wait false trace
        end
  end.

Definition request_with_retries (turns : list Turn) (was_ambiguous : bool) : option (result Response) * Trace :=
  retry_loop turns 0 (mkTrace was_ambiguous 0 []).

End Policy.

(** ** Error numbers *)

Definition errno_for_s3_status (status : Z) : Z :=
  if (status =? 400) || (status =? 416) then EINVAL
  else if (status =? 401) || (status =? 403) then EACCES
  else if status =? 404 then ENOENT
  else if status =? 409 then EBUSY
  else if status =? 412 then ESTALE
  else if (status =? 425) || (status =? 429) then EAGAIN
  else if status =? 507 then ENOSPC
  else if 500 <=? status then EREMOTEIO else EIO.

Definition errno_for_s3_error (status : Z) (code : bytes) : Z :=
  if one_of code ["NoSuchBucket"; "NoSuchKey"; "NoSuchUpload"]%string then ENOENT
  else if one_of code ["BucketAlreadyExists"; "BucketAlreadyOwnedByYou"]%string then EEXIST
  else if one_of code ["AccessDenied"; "InvalidAccessKeyId"; "SignatureDoesNotMatch"; "ExpiredToken";
                       "TokenRefreshRequired"]%string then EACCES
  else if one_of code ["InvalidObjectState"; "ObjectNotInActiveTierError"]%string then EIO
  else if one_of code ["InvalidRange"; "InvalidArgument"; "InvalidRequest"; "MalformedXML"; "EntityTooSmall";
                       "InvalidPart"; "InvalidPartOrder"]%string then EINVAL
  else if one_of code ["EntityTooLarge"; "TooManyParts"]%string then EFBIG
  else if one_of code ["KeyTooLongError"]%string then ENAMETOOLONG
  else if one_of code ["NotImplemented"; "MethodNotAllowed"]%string then EOPNOTSUPP
  else if one_of code ["PreconditionFailed"]%string then ESTALE
  else if retryable_s3_code code then EAGAIN
  else if one_of code ["InsufficientStorage"]%string then ENOSPC
  else errno_for_s3_status status.

(** ** Bounds of the delays *)

Lemma retry_delay_bounds attempt now : 0 <= attempt <= 3 -> 25 <= retry_delay attempt now <= 224.
Proof.
  intros H. unfold retry_delay. pose proof (Z.mod_pos_bound now 25 ltac:(lia)).
  assert (25 <= u64 (Z.shiftl 25 attempt) <= 200); [|lia].
  assert (attempt = 0 \/ attempt = 1 \/ attempt = 2 \/ attempt = 3) as [-> | [-> | [-> | ->]]] by lia;
    by vm_compute.
Qed.

Lemma parse_unsigned_nonneg value n : parse_unsigned value = Some n -> 0 <= n.
Proof.
  intros H. apply from_chars_all_spec in H as (_ & Hd & Hv & _). exact (digits_value_nonneg _ _ Hd Hv).
Qed.

Lemma retry_after_bounds response now seconds : retry_after_delay response now = Some seconds -> 0 <= seconds <= 30.
Proof.
  unfold retry_after_delay. destruct (find_header _ _) as [value|]; [|done].
  destruct (parse_unsigned value) as [n|] eqn:E.
  - apply parse_unsigned_nonneg in E. intros [= <-]. lia.
  - destruct (parse_http_mtime value) as [deadline|], now as [now|]; try done.
    destruct (Z.leb_spec deadline now); [done|]. intros [= <-]. pose proof (u64_range (deadline - now)). lia.
Qed.

Section RetryLemmas.
Variable xml_error_code : bytes -> option bytes.

(** A turn whose request is to be repeated. *)
Definition failed (t : Turn) : bool :=
  match reply t with Throw _ => true | Ok response => retryable_response xml_error_code response end.

Definition stopped (t : Turn) : bool := stop_before t || stop_after t || stop_handler t || stop_delay t.

(** After this turn the request may be sent again, or may have had an effect: it failed and no stop
    was requested by then, or a response asks for a retry that is not the last. *)
Definition unsettled (attempt : Z) (t : Turn) : bool :=
  match reply t with
  | Throw _ => negb (stop_handler t)
  | Ok response => negb (stop_after t) && retryable_response xml_error_code response && negb (attempt =? 3)
  end.

Fixpoint some_unsettled (attempt : Z) (turns : list Turn) : bool :=
  match turns with
  | [] => false
  | t :: turns => unsettled attempt t || some_unsettled (attempt + 1) turns
  end.

(** What the loop promises from attempt number [attempt] on: [k] more requests, [ds] the
    delays. *)
Record retried (turns : list Turn) (attempt : Z) (amb amb' : bool) (k : nat) (ds : list Z) (r : result Response) : Prop := {
  retried_count : attempt + Z.of_nat k <= 4;
  retried_delays : (length ds <= k)%nat /\ attempt + vsize ds <= 3 /\ Forall (fun d => 0 <= d <= 30000) ds;
  retried_all : forall i t, (S i < k)%nat -> turns !! i = Some t -> failed t = true;
  retried_ambiguous : amb' = amb || some_unsettled attempt (take k turns);
  retried_once : amb' = false -> (k <= 1)%nat;
  retried_result :
    match r with
    | Ok response => exists t, k <> 0%nat /\ turns !! (k - 1)%nat = Some t /\ reply t = Ok response /\
                       (retryable_response xml_error_code response = false \/ attempt + Z.of_nat k = 4)
    | Throw e => (e = cancelled_error /\ exists t, t ∈ turns /\ stopped t = true) \/
                 (exists t, attempt + Z.of_nat k = 4 /\ turns !! (k - 1)%nat = Some t /\ reply t = Throw e)
    end }.

(** A stop request is never withdrawn ([std::stop_token]). *)
Definition sticky (t : Turn) : Prop := stop_after t = true -> stop_handler t = true.

Lemma stopped_later t : stop_delay t || stop_handler t || stop_after t = true -> stopped t = true.
Proof. unfold stopped. by destruct (stop_before t), (stop_after t), (stop_handler t), (stop_delay t). Qed.

Lemma retried_stop turns t attempt amb amb' k ds :
  attempt <= 3 -> stopped t = true -> (k <= 1)%nat -> amb' = amb || some_unsettled attempt (take k (t :: turns)) ->
  (length ds <= k)%nat -> attempt + vsize ds <= 3 -> Forall (fun d => 0 <= d <= 30000) ds ->
  retried (t :: turns) attempt amb amb' k ds (Throw cancelled_error).
Proof.
  intros ?? Hk ????. split; [lia|done|lia|done|done|].
  left. split; [done|]. exists t. split; [by apply list_elem_of_here|done].
Qed.

Lemma retried_next turns t attempt amb amb' k ds d r :
  attempt <= 2 -> failed t = true -> unsettled attempt t = true -> 0 <= d <= 30000 ->
  retried turns (attempt + 1) true amb' k ds r -> retried (t :: turns) attempt amb amb' (S k) (d :: ds) r.
Proof.
  intros ? Hf Hu Hd [H1 (H2 & H3 & H4) H5 H6 H6' H7]. split.
  - lia.
  - unfold vsize in *. cbn. split_and!; [lia..|by constructor].
  - intros [|i] t' Hi; cbn; [intros [= <-]; done|]. apply H5. lia.
  - cbn [take some_unsettled]. rewrite Hu, H6. by rewrite orb_true_r.
  - by rewrite H6.
  - destruct r as [response|e].
    + destruct H7 as (t' & Hk & Ht & Hr & Hor). exists t'. replace (S k - 1)%nat with (S (k - 1)) by lia. cbn.
      split_and!; try done. destruct Hor as [?|?]; [by left|right; lia].
    + destruct H7 as [[? (t' & ? & ?)]|(t' & ? & Ht & ?)].
      * left. split; [done|]. exists t'. split; [by apply list_elem_of_further|done].
      * right. exists t'. destruct k as [|k]; [lia|]. replace (S (S k) - 1)%nat with (S (S k - 1)) by lia. split_and!; [lia|done..].
Qed.

Lemma retry_loop_spec turns attempt trace :
  0 <= attempt <= 3 -> 4 - attempt <= vsize turns -> Forall sticky turns ->
  exists r trace' k ds, retry_loop xml_error_code turns attempt trace = (Some r, trace') /\
    requests trace' = requests trace + Z.of_nat k /\ delays trace' = delays trace ++ ds /\
    retried turns attempt (ambiguous trace) (ambiguous trace') k ds r.
Proof.
  revert attempt trace. induction turns as [|t turns IH]; intros attempt trace Ha Hl Hs; [unfold vsize in Hl; cbn in Hl; lia|].
  assert (Hlen : 4 - (attempt + 1) <= vsize turns) by (unfold vsize in *; cbn in Hl; lia).
  apply Forall_cons in Hs as [Ht Hs]. cbn [retry_loop]. destruct (stop_before t) eqn:Eb.
  { eexists _, _, 0%nat, []. split_and!; [done|lia|by rewrite app_nil_r|].
    apply retried_stop; try done; [lia|unfold stopped; by rewrite Eb|lia|by rewrite orb_false_r|unfold vsize; cbn; lia]. }
  cbn zeta. set (tr := mkTrace (ambiguous trace) (requests trace + 1) (delays trace)).
  (* the turn is repeated after a delay *)
  assert (Hwait : forall d tr1, attempt <= 2 -> failed t = true -> unsettled attempt t = true -> 0 <= d <= 30000 ->
    requests tr1 = requests tr -> ambiguous tr1 = true -> delays tr1 = delays tr ++ [d] ->
    exists r trace' k ds, retry_loop xml_error_code turns (attempt + 1) tr1 = (Some r, trace') /\
      requests trace' = requests trace + Z.of_nat k /\ delays trace' = delays trace ++ ds /\
      retried (t :: turns) attempt (ambiguous trace) (ambiguous trace') k ds r).
  { intros d tr1 Hat Hf Hu Hd E1 E2 E3. destruct (IH (attempt + 1) tr1 ltac:(lia) Hlen Hs) as (r & tr' & k & ds & -> & Hk & Hds & Hr).
    exists r, tr', (S k), (d :: ds). rewrite E2 in Hr. split_and!; [done|rewrite Hk, E1; cbn; lia| |by apply retried_next].
    rewrite Hds, E3. cbn. by rewrite <-app_assoc. }
  assert (Hstop : forall ds, stopped t = true -> attempt + vsize ds <= 3 -> (length ds <= 1)%nat ->
    Forall (fun d => 0 <= d <= 30000) ds -> forall amb', amb' = ambiguous trace || unsettled attempt t ->
    exists r trace' k ds', (Some (Throw cancelled_error), mkTrace amb' (requests tr) (delays trace ++ ds)) = (Some r, trace') /\
      requests trace' = requests trace + Z.of_nat k /\ delays trace' = delays trace ++ ds' /\
      retried (t :: turns) attempt (ambiguous trace) (ambiguous trace') k ds' r).
  { intros ds Hst ????. eexists _, _, 1%nat, ds. split_and!; [done|cbn; lia|done|]. apply retried_stop; try done; [lia..|].
    cbn [take some_unsettled]. by rewrite orb_false_r. }
  pose proof (Hstop [] ) as Hstop0. rewrite app_nil_r in Hstop0.
  assert (Hone : forall r amb', amb' = ambiguous trace || unsettled attempt t ->
    match r with
    | Ok response => reply t = Ok response /\ (retryable_response xml_error_code response = false \/ attempt = 3)
    | Throw e => attempt = 3 /\ reply t = Throw e
    end ->
    exists r' trace' k ds, (Some r, mkTrace amb' (requests tr) (delays trace)) = (Some r', trace') /\
      requests trace' = requests trace + Z.of_nat k /\ delays trace' = delays trace ++ ds /\
      retried (t :: turns) attempt (ambiguous trace) (ambiguous trace') k ds r').
  { intros r amb' Hamb Hr. eexists _, _, 1%nat, []. split_and!; [done|cbn; lia|by rewrite app_nil_r|].
    split; [lia|unfold vsize; cbn; split_and!; [lia..|constructor]|lia| |done|].
    - cbn [take some_unsettled]. by rewrite orb_false_r.
    - destruct r as [response|e]; [destruct Hr as [Hr Hor]|destruct Hr as [-> Hr]; right]; exists t; split_and!; try done.
      destruct Hor as [?| ->]; [by left|by right]. }
  unfold try_request, unsettled in *. destruct (reply t) as [response|e] eqn:Er.
  - destruct (stop_after t) eqn:Ea.
    { rewrite (Ht Ea) in *. apply Hstop0; try done; [apply stopped_later; by rewrite ?Eh, ?Ea, ?(Ht Ea), ?orb_true_r|unfold vsize; cbn; lia|cbn; lia|by rewrite orb_false_r]. }
    destruct (retryable_response xml_error_code response) eqn:Eret; cbn [negb orb andb] in *; [destruct (Z.eqb_spec attempt 3) as [E3|Hne]|].
    2: { assert (Hf : failed t = true) by (unfold failed; by rewrite Er). cbn [negb] in *. rewrite orb_true_r in *.
      destruct (retry_after_delay response (realtime t)) as [seconds|] eqn:Eaf.
      - apply retry_after_bounds in Eaf.
        destruct (stop_delay t) eqn:Ed.
        + apply (Hstop [seconds * 1000]); try done; [apply stopped_later; by rewrite Ed|unfold vsize; cbn; lia|repeat constructor; lia].
        + apply (Hwait (seconds * 1000)); try done; try lia. cbn. by rewrite app_nil_r.
      - destruct (stop_delay t) eqn:Ed.
        + apply Hstop0; try done; [apply stopped_later; by rewrite Ed|unfold vsize; cbn; lia|cbn; lia].
        + pose proof (retry_delay_bounds attempt (monotonic t) ltac:(lia)).
          apply (Hwait (retry_delay attempt (monotonic t))); try done; lia. }
    all: cbn [negb] in *; apply Hone; [by rewrite orb_false_r|]; auto.
  - destruct (stop_handler t) eqn:Eh; cbn [negb] in *.
    { apply Hstop0; try done; [apply stopped_later; by rewrite ?Eh, ?Ea, ?(Ht Ea), ?orb_true_r|unfold vsize; cbn; lia|cbn; lia|by rewrite orb_false_r]. }
    rewrite orb_true_r in *. destruct (Z.eqb_spec attempt 3) as [E3|Hne].
    + by apply Hone.
    + destruct (stop_delay t) eqn:Ed.
      * apply Hstop0; try done; [apply stopped_later; by rewrite Ed|unfold vsize; cbn; lia|cbn; lia].
      * pose proof (retry_delay_bounds attempt (monotonic t) ltac:(lia)).
        apply (Hwait (retry_delay attempt (monotonic t))); try done; [lia|unfold failed; by rewrite Er|lia].
Qed.

End RetryLemmas.

Lemma utc_time_range y m d h n z v : utc_time y m d h n z = Ok v -> v <= INT64_MAX.
Proof.
  unfold utc_time. destruct (_ || _); [done|]. cbn zeta. destruct (_ || _) eqn:E; [done|]. intros <-%Ok_inj.
  apply orb_false_iff in E as [_ E]. rewrite Z.gtb_ltb, Z.ltb_ge in E. done.
Qed.

Lemma parse_http_mtime_range value v : parse_http_mtime value = Ok v -> v <= INT64_MAX.
Proof.
  unfold parse_http_mtime. destruct (_ || _); [done|]. destruct (find_index weekdays _); [|done].
  destruct (find_index months _); [|done]. intros H.
  repeat (apply rbind_ok in H as (? & _ & H)). by apply utc_time_range in H.
Qed.

(** ** Theorems *)

(** C19: [request_with_retries] makes at most four requests and always comes back.  It repeats a
    request only after a failure or a response that asks for it, with one delay of at most 30
    seconds between two requests; it returns a response that needs no retry, or that of the
    fourth request; it throws the error of the fourth request, or [ECANCELED] after a stop was
    requested.  [ambiguous] is set exactly when it was set before or one of the requests failed
    before a stop was requested, or asked for a retry that was still allowed; a caller that finds
    it clear knows that the request was sent at most once. *)
Theorem request_with_retries_correct xml_error_code turns was_ambiguous :
  4 <= vsize turns -> Forall sticky turns ->
  exists r trace k, request_with_retries xml_error_code turns was_ambiguous = (Some r, trace) /\
    requests trace = Z.of_nat k /\
    retried xml_error_code turns 0 was_ambiguous (ambiguous trace) k (delays trace) r.
Proof.
  intros Hl Hs. destruct (retry_loop_spec xml_error_code turns 0 (mkTrace was_ambiguous 0 []) ltac:(lia) ltac:(lia) Hs)
    as (r & trace & k & ds & E & Hk & Hd & Hr).
  exists r, trace, k. cbn in Hk, Hd. rewrite Hd. done.
Qed.

Definition sample_xml (text : bytes) : option bytes :=
  if contains text (lit "<Code>SlowDown</Code>") then Some (lit "SlowDown") else None.
Definition sample_turn (r : result Response) : Turn := mkTurn r false false false false (Some 0) 7.
Definition sample_turns : list Turn :=
  [ sample_turn (Ok (mkResponse 200 (lit "<Error><Code>SlowDown</Code></Error>") [(lit "retry-after", lit "2")]));
    sample_turn (Throw (SystemError ECONNRESET)); sample_turn (Ok (mkResponse 404 [] []));
    sample_turn (Ok (mkResponse 503 [] [])) ].

Lemma request_with_retries_correct_witness :
  request_with_retries sample_xml sample_turns false = (Some (Ok (mkResponse 404 [] [])), mkTrace true 3 [2000; 57]) /\
  exists r trace k, request_with_retries sample_xml sample_turns false = (Some r, trace) /\
    requests trace = Z.of_nat k /\ retried sample_xml sample_turns 0 false (ambiguous trace) k (delays trace) r.
Proof.
  split; [vm_compute; reflexivity|].
  apply (request_with_retries_correct sample_xml sample_turns false).
  - vm_compute. discriminate.
  - repeat constructor; discriminate.
Defined.

(** the delay of an asynchronous retry is between 1 and 30000 milliseconds whatever the
    server's [Retry-After] says, so that the timer is always armed, and a number of seconds up
    to 30 is kept as it is. *)
Theorem async_retry_armed response attempt now monotonic :
  0 <= attempt -> (forall t, now = Some t -> 0 <= t) ->
  1 <= async_retry_milliseconds response attempt now monotonic <= 30000 /\
  (forall value n, find_header (lit "retry-after") (headers response) = Some value -> parse_unsigned value = Some n ->
     1 <= n <= 30 -> async_retry_milliseconds response attempt now monotonic = n * 1000).
Proof.
  intros Ha Hnow. pose proof (retry_delay_bounds (Z.min attempt 3) monotonic ltac:(lia)) as Hf.
  unfold retry_delay in Hf. unfold async_retry_milliseconds. cbn zeta. split.
  - destruct (find_header _ _) as [value|]; [|lia].
    destruct (parse_unsigned value) as [n|] eqn:E; [apply parse_unsigned_nonneg in E; lia|].
    destruct (parse_http_mtime value) as [deadline|] eqn:Ed, now as [now|]; try lia.
    apply parse_http_mtime_range in Ed. unfold INT64_MAX in Ed. specialize (Hnow now eq_refl).
    destruct (Z.ltb_spec now deadline); [|lia]. rewrite u64_small by lia. lia.
  - intros value n -> -> Hn. lia.
Qed.

Lemma async_retry_armed_witness :
  1 <= async_retry_milliseconds (mkResponse 503 [] [(lit "retry-after", lit "0")]) 9 (Some 5) 7 <= 30000.
Proof.
  apply (async_retry_armed (mkResponse 503 [] [(lit "retry-after", lit "0")]) 9 (Some 5) 7).
  - lia.
  - intros t [= <-]. lia.
Defined.
