(* ===== verification/S3Xml.v ===== *)
(** * XML answers of the service

    [S3Xml] of [s3.cpp] over the tree that tinyxml2 returns, and the answers that [fuse.cpp]
    reads with it: directory listings page by page, new uploads, sessions, and the parts of an
    interrupted upload.  The parser of tinyxml2 is the argument [xml_parse]: [None] is a document
    that does not parse, [Some None] one without a root element. *)

From S2P Require Import Prelude StdText Calendar S3Text Retry.

Definition kMaximumMultipartParts : Z := 10000.

(** ** The tree *)

Inductive xnode :=
  | XElement (name : bytes) (children : list xnode)
  | XText (value : bytes)
  | XOther.

(** An element with its name and its children. *)
Definition element : Type := bytes * list xnode.

Definition child_elements (e : element) : list element :=
  omap (fun n => match n with XElement name children => Some (name, children) | _ => None end) e.2.

Definition local_name (raw : bytes) : bytes :=
  match rfind_char ":" raw with Some colon => drop_z (colon + 1) raw | None => raw end.

Definition named (e : element) (name : bytes) : bool := str_eqb (local_name e.1) name.

(** ** S3Xml *)

(** The first element of a name, and the siblings after it. *)
Fixpoint first_named (es : list element) (name : bytes) : option (element * list element) :=
  match es with
  | [] => None
  | e :: es => if named e name then Some (e, es) else first_named es name
  end.

Definition unique_child (parent : element) (name : bytes) (required : bool) : result (option element) :=
  match first_named (child_elements parent) name with
  | None => if required then Throw RuntimeError else Ok None
  | Some (e, rest) => match first_named rest name with Some _ => Throw RuntimeError | None => Ok (Some e) end
  end.

Definition required_child (parent : element) (name : bytes) : result element :=
  let? e := unique_child parent name true in
  match e with Some e => Ok e | None => Throw RuntimeError end.

Fixpoint node_text (nodes : list xnode) : result bytes :=
  match nodes with
  | [] => Ok []
  | XElement _ _ :: _ => Throw RuntimeError
  | XText value :: nodes => let? text := node_text nodes in Ok (value ++ text)
  | XOther :: nodes => node_text nodes
  end.
Definition element_text (e : element) : result bytes := node_text e.2.

Definition required_text (parent : element) (name : bytes) : result bytes :=
  let? e := required_child parent name in element_text e.

Definition optional_text (parent : element) (name : bytes) : result bytes :=
  let? e := unique_child parent name false in
  match e with Some e => element_text e | None => Ok [] end.

Definition required_bool (parent : element) (name : bytes) : result bool :=
  let? text := required_text parent name in
  let value := trim_xml_space text in
  if str_eqb value (lit "true") || str_eqb value (lit "1") then Ok true
  else if str_eqb value (lit "false") || str_eqb value (lit "0") then Ok false
  else Throw RuntimeError.

Section Answers.
Variable xml_parse : bytes -> option (option element).

(** The constructor, with the root. *)
Definition make_S3Xml (xml : bytes) : result element :=
  if has_char Ascii.zero xml then Throw RuntimeError
  else match xml_parse xml with Some (Some root) => Ok root | _ => Throw RuntimeError end.

Definition root_is (root : element) (name : bytes) : bool := named root name.

Definition result_root (xml : element) (expected : bytes) : result element :=
  if negb (root_is xml (lit "Error"))
  then if negb (vsize expected =? 0) && negb (named xml expected) then Throw RuntimeError else Ok xml
  else let? _ := optional_text xml (lit "Code") in Throw RuntimeError.

(** [parse_s3_error] after its test of the prefix: the [Code].  It is the parser that [Retry] is about. *)
Definition xml_error_code (text : bytes) : option bytes :=
  match
    let? xml := make_S3Xml text in
    if negb (root_is xml (lit "Error")) then Throw RuntimeError
    else
      let? code := optional_text xml (lit "Code") in
      let? _ := optional_text xml (lit "Message") in
      let? _ := optional_text xml (lit "RequestId") in
      let? _ := optional_text xml (lit "HostId") in
      Ok code
  with Ok code => Some code | Throw _ => None end.

(** What [throw_s3_response] throws. *)
Definition s3_response_error (response : Response) : exn :=
  match (if vsize (body response) =? 0 then None else parse_s3_error xml_error_code (body response)) with
  | Some code => SystemError (errno_for_s3_error (status response) code)
  | None => SystemError (errno_for_s3_status (status response))
  end.

Definition require_s3_success (response : Response) : result unit :=
  let success := (200 <=? status response) && (status response <? 300) in
  let embedded_error := success && negb (vsize (body response) =? 0) &&
    match parse_s3_error xml_error_code (body response) with Some _ => true | None => false end in
  if negb success || embedded_error then Throw (s3_response_error response) else Ok tt.

(** ** Listings *)

Definition listed_object (e : element) : result ListedObject :=
  let? encoded := required_text e (lit "Key") in
  let? key := percent_decode encoded in
  let? size_text := required_text e (lit "Size") in
  match parse_unsigned (trim_xml_space size_text) with
  | None => Throw RuntimeError
  | Some size =>
      let? etag := optional_text e (lit "ETag") in
      let? modified := required_text e (lit "LastModified") in
      let? mtime := parse_s3_mtime (trim_xml_space modified) in
      Ok {| lo_key := key; lo_etag := etag; lo_mtime := mtime; lo_size := size |}
  end.

(** The loop over the children of the root. *)
Fixpoint list_children (es : list element) : result (list ListedObject * list bytes) :=
  match es with
  | [] => Ok ([], [])
  | e :: es =>
      if named e (lit "Contents") then
        let? o := listed_object e in
        let? rest := list_children es in Ok (o :: rest.1, rest.2)
      else if named e (lit "CommonPrefixes") then
        let? encoded := required_text e (lit "Prefix") in
        let? prefix := percent_decode encoded in
        let? rest := list_children es in Ok (rest.1, prefix :: rest.2)
      else list_children es
  end.

Definition parse_list_xml (body : bytes) : result ListedXmlPage :=
  let? xml := make_S3Xml body in
  let? root := result_root xml (lit "ListBucketResult") in
  let? listed := list_children (child_elements root) in
  let? truncated := required_bool root (lit "IsTruncated") in
  let? token := optional_text root (lit "NextContinuationToken") in
  if Bool.eqb truncated (vsize token =? 0) then Throw RuntimeError
  else Ok {| lx_objects := listed.1; lx_prefixes := listed.2; lx_token := token; lx_truncated := truncated |}.

(** [decode_directory_response] and [list_directory_page]: [fetch] gives the answer to the request
    for the page of a token, after its retries. *)
Definition list_directory_page (fetch : bytes -> result Response) (prefix token : bytes) : result ListedPage :=
  let? response := fetch token in
  if negb (status response =? 200) then Throw (s3_response_error response)
  else
    let? listed := parse_list_xml (body response) in
    Ok (decode_directory_page listed prefix).

(** [function] changes a state and may throw.  [None]: more than [fuel] pages. *)
Fixpoint for_each_directory_page {A} (fuel : nat) (fetch : bytes -> result Response) (prefix : bytes)
    (function : A -> list ListedChild -> A * result unit) (a : A) (token : bytes) : option (A * result unit) :=
  match fuel with
  | O => None
  | S fuel =>
      match list_directory_page fetch prefix token with
      | Throw e => Some (a, Throw e)
      | Ok page =>
          match function a (lp_children page) with
          | (a, Throw e) => Some (a, Throw e)
          | (a, Ok _) =>
              if negb (lp_truncated page) then Some (a, Ok tt)
              else for_each_directory_page fuel fetch prefix function a (lp_token page)
          end
      end
  end.

(** ** Sessions, uploads and probes *)

Record SessionCredentials := { access_key_id : bytes; secret_access_key : bytes; session_token : bytes }.

Definition unsafe_text (s : bytes) : bool := has_char (chr 13) s || has_char (chr 10) s.

(** The answer to [CreateSession]. *)
Definition parse_create_session (response : Response) : result SessionCredentials :=
  if negb (status response =? 200) then Throw (s3_response_error response)
  else
    let? xml := make_S3Xml (body response) in
    let? root := result_root xml (lit "CreateSessionResult") in
    let? values := required_child root (lit "Credentials") in
    let? key := required_text values (lit "AccessKeyId") in
    let? secret := required_text values (lit "SecretAccessKey") in
    let? session := required_text values (lit "SessionToken") in
    if (vsize key =? 0) || (vsize secret =? 0) || (vsize session =? 0) then Throw RuntimeError
    else if unsafe_text key || unsafe_text session then Throw RuntimeError
    else Ok {| access_key_id := key; secret_access_key := secret; session_token := session |}.

(** The answer to [CreateMultipartUpload] after its headers are accepted. *)
Definition parse_upload_id (body : bytes) : result bytes :=
  let? xml := make_S3Xml body in
  let? root := result_root xml (lit "InitiateMultipartUploadResult") in
  let? upload_id := required_text root (lit "UploadId") in
  if vsize upload_id =? 0 then Throw RuntimeError else Ok upload_id.

Definition error_code_in (body : bytes) (codes : list bytes) : result bool :=
  let? xml := make_S3Xml body in
  if negb (root_is xml (lit "Error")) then Ok false
  else
    let? code := required_text xml (lit "Code") in
    Ok (existsb (str_eqb code) codes).

Definition rename_object_unsupported (response : Response) : result bool :=
  if (status response =? 405) || (status response =? 501) then Ok true
  else if negb (status response =? 400) then Ok false
  else if vsize (body response) =? 0 then Ok true
  else error_code_in (body response) [lit "NotImplemented"; lit "InvalidRequest"].

Definition rename_object_source_missing (response : Response) : result bool :=
  if negb (status response =? 400) && negb (status response =? 404) then Ok false
  else if vsize (body response) =? 0 then Ok false
  else error_code_in (body response) [lit "NoSuchKey"; lit "NoSuchObject"].

End Answers.

(** ** Documents that the service writes *)

Definition leaf (name : bytes) (text : bytes) : xnode := XElement name [XText text].

Definition object_node (key etag modified : bytes) (size : Z) : xnode :=
  XElement (lit "Contents")
    [leaf (lit "Key") (uri_encode key false); leaf (lit "LastModified") modified; leaf (lit "ETag") etag;
     leaf (lit "Size") (to_chars size); leaf (lit "StorageClass") (lit "STANDARD")].

Definition prefix_node (prefix : bytes) : xnode :=
  XElement (lit "CommonPrefixes") [leaf (lit "Prefix") (uri_encode prefix false)].

(** A page with its objects, each with the text of its time, its prefixes, and the token of the
    next page, [[]] on the last. *)
Definition list_document (objects : list (ListedObject * bytes)) (prefixes : list bytes) (token : bytes) : element :=
  (lit "ListBucketResult",
   leaf (lit "EncodingType") (lit "url") ::
   map (fun o => object_node (lo_key o.1) (lo_etag o.1) o.2 (lo_size o.1)) objects ++
   map prefix_node prefixes ++
   (if vsize token =? 0 then [leaf (lit "IsTruncated") (lit "false")]
    else [leaf (lit "IsTruncated") (lit "true"); leaf (lit "NextContinuationToken") token])).

(** [body] is text of the document [e]. *)
Definition document (xml_parse : bytes -> option (option element)) (body : bytes) (e : element) : Prop :=
  has_char Ascii.zero body = false /\ xml_parse body = Some (Some e).

(** ** Reading what the service writes *)

Lemma trim_front_plain s : Forall (fun c => isspace c = false) s -> trim_front s = s.
Proof. destruct 1 as [|c s Hc]; cbn; [done|]. by rewrite Hc. Qed.

Lemma trim_plain s : Forall (fun c => isspace c = false) s -> trim_xml_space s = s.
Proof.
  intros H. unfold trim_xml_space. rewrite (trim_front_plain s), trim_front_plain, rev_involutive; [done| |done].
  by apply Forall_rev.
Qed.

Lemma digit_no_space c : isdigit c = true -> isspace c = false.
Proof. unfold isdigit, isspace. lia. Qed.

Lemma parse_to_chars n : 0 <= n < 2 ^ 64 -> parse_unsigned (trim_xml_space (to_chars n)) = Some n.
Proof.
  intros Hn. rewrite trim_plain; [by apply from_chars_to_chars|]. destruct (to_chars_spec n Hn) as (_ & Hd & _).
  exact (Forall_impl _ _ _ Hd digit_no_space).
Qed.

(** Elements of other names are passed over. *)
Lemma first_named_skip es k name :
  Forall (fun e => named e name = false) es -> first_named (es ++ k) name = first_named k name.
Proof. induction 1 as [|e es He _ IH]; cbn; [done|]. by rewrite He. Qed.

Lemma unique_child_skip e es k name required :
  child_elements e = es ++ k -> Forall (fun e => named e name = false) es ->
  unique_child e name required = unique_child (e.1, map (fun c => XElement c.1 c.2) k) name required.
Proof.
  intros E Hes. unfold unique_child. rewrite E, first_named_skip by done.
  assert (H : child_elements (e.1, map (fun c => XElement c.1 c.2) k) = k).
  { unfold child_elements. cbn [snd]. clear. induction k as [|[? ?] k IH]; cbn; [done|]. by rewrite IH. }
  by rewrite H.
Qed.

Definition object_ok (o : ListedObject * bytes) : Prop :=
  0 <= lo_size o.1 < 2 ^ 64 /\ parse_s3_mtime (trim_xml_space o.2) = Ok (lo_mtime o.1).

Lemma listed_object_node o :
  object_ok o ->
  match object_node (lo_key o.1) (lo_etag o.1) o.2 (lo_size o.1) with
  | XElement name children => named (name, children) (lit "Contents") = true /\ listed_object (name, children) = Ok o.1
  | _ => False
  end.
Proof.
  intros [Hs Ht]. destruct o as [[key etag mtime size] text]. cbn [lo_key lo_etag lo_size lo_mtime fst snd object_node] in *.
  split; [reflexivity|]. unfold listed_object.
  set (e := (lit "Contents", _)).
  assert (H1 : required_text e (lit "Key") = Ok (uri_encode key false ++ [])) by reflexivity.
  assert (H2 : required_text e (lit "Size") = Ok (to_chars size ++ [])) by reflexivity.
  assert (H3 : optional_text e (lit "ETag") = Ok (etag ++ [])) by reflexivity.
  assert (H4 : required_text e (lit "LastModified") = Ok (text ++ [])) by reflexivity.
  rewrite H1, H2, H3, H4, !app_nil_r. cbn [rbind]. rewrite percent_decode_encode. cbn [rbind].
  rewrite parse_to_chars by done. cbn [rbind]. by rewrite Ht.
Qed.

Definition element_of (n : xnode) : option element :=
  match n with XElement name children => Some (name, children) | _ => None end.

Lemma child_elements_eq name nodes : child_elements (name, nodes) = omap element_of nodes.
Proof. done. Qed.

Lemma list_children_objects objects es :
  Forall object_ok objects ->
  list_children (omap element_of (map (fun o => object_node (lo_key o.1) (lo_etag o.1) o.2 (lo_size o.1)) objects) ++ es) =
  let? rest := list_children es in Ok (map fst objects ++ rest.1, rest.2).
Proof.
  induction 1 as [|o objects Ho _ IH]; cbn [map omap list_omap app].
  - destruct (list_children es) as [[? ?]|]; done.
  - pose proof (listed_object_node o Ho) as H. unfold object_node in *. cbn [element_of]. destruct H as [Hn Hl].
    cbn [app list_children]. rewrite Hn, Hl. cbn [rbind]. cbn in IH |- *. rewrite IH. by destruct (list_children es) as [[? ?]|].
Qed.

Lemma list_children_prefixes prefixes es :
  list_children (omap element_of (map prefix_node prefixes) ++ es) =
  let? rest := list_children es in Ok (rest.1, prefixes ++ rest.2).
Proof.
  induction prefixes as [|p prefixes IH].
  - cbn. destruct (list_children es) as [[? ?]|]; done.
  - cbn [map omap list_omap app]. unfold prefix_node at 1. cbn [element_of app list_children].
    set (e := (lit "CommonPrefixes", _)).
    assert (H1 : named e (lit "Contents") = false) by reflexivity. assert (H2 : named e (lit "CommonPrefixes") = true) by reflexivity.
    assert (H3 : required_text e (lit "Prefix") = Ok (uri_encode p false ++ [])) by reflexivity.
    rewrite H1, H2, H3, app_nil_r. cbn [rbind]. rewrite percent_decode_encode. cbn [rbind]. cbn in IH |- *. rewrite IH.
    by destruct (list_children es) as [[? ?]|].
Qed.

Lemma nonempty_vsize (s : bytes) : s <> [] -> (vsize s =? 0) = false.
Proof. destruct s; [done|]. intros _. apply Z.eqb_neq. unfold vsize. cbn [length]. lia. Qed.

(** The end of a page, after its objects and prefixes. *)
Definition page_end (token : bytes) : list xnode :=
  if vsize token =? 0 then [leaf (lit "IsTruncated") (lit "false")]
  else [leaf (lit "IsTruncated") (lit "true"); leaf (lit "NextContinuationToken") token].

Lemma entries_other_name objects prefixes name :
  str_eqb (lit "EncodingType") name = false -> str_eqb (lit "Contents") name = false ->
  str_eqb (lit "CommonPrefixes") name = false ->
  Forall (fun e => named e name = false)
    (omap element_of (leaf (lit "EncodingType") (lit "url") ::
      map (fun o : ListedObject * bytes => object_node (lo_key o.1) (lo_etag o.1) o.2 (lo_size o.1)) objects ++ map prefix_node prefixes)).
Proof.
  intros H1 H2 H3. cbn [omap list_omap leaf element_of]. constructor; [exact H1|].
  induction objects as [|o objects IH]; cbn [map app omap list_omap object_node element_of]; [|by constructor].
  induction prefixes as [|p prefixes IH]; cbn; constructor; [exact H3|exact IH].
Qed.

Lemma list_document_end objects prefixes token name required :
  str_eqb (lit "EncodingType") name = false -> str_eqb (lit "Contents") name = false ->
  str_eqb (lit "CommonPrefixes") name = false ->
  unique_child (list_document objects prefixes token) name required =
  unique_child (lit "ListBucketResult", page_end token) name required.
Proof.
  intros H1 H2 H3. erewrite unique_child_skip with (k := omap element_of (page_end token)); [| |by apply (entries_other_name objects prefixes)].
  - unfold page_end. by destruct (vsize token =? 0).
  - unfold list_document. rewrite child_elements_eq, <- omap_app. f_equal. cbn. f_equal. by rewrite app_assoc.
Qed.

Section Pages.
Variable xml_parse : bytes -> option (option element).

Lemma parse_list_document body objects prefixes token :
  document xml_parse body (list_document objects prefixes token) -> Forall object_ok objects ->
  parse_list_xml xml_parse body =
    Ok {| lx_objects := map fst objects; lx_prefixes := prefixes; lx_token := token; lx_truncated := negb (vsize token =? 0) |}.
Proof.
  intros [Hz Hp] Ho. unfold parse_list_xml, make_S3Xml. rewrite Hz, Hp. cbn [rbind].
  assert (Hr : result_root (list_document objects prefixes token) (lit "ListBucketResult") = Ok (list_document objects prefixes token)) by reflexivity.
  rewrite Hr. cbn [rbind].
  assert (Hl : list_children (child_elements (list_document objects prefixes token)) = Ok (map fst objects, prefixes)).
  { unfold list_document. rewrite child_elements_eq. cbn [omap list_omap leaf element_of list_children].
    change (named (lit "EncodingType", _) (lit "Contents")) with false. change (named (lit "EncodingType", _) (lit "CommonPrefixes")) with false.
    cbn iota. fold (page_end token). change (list_omap _ _ element_of) with (omap element_of).
    rewrite !omap_app, list_children_objects by done. rewrite list_children_prefixes.
    assert (He : list_children (omap element_of (page_end token)) = Ok ([], [])) by (unfold page_end; by destruct (vsize token =? 0)).
    rewrite He. cbn. by rewrite !app_nil_r. }
  rewrite Hl. cbn [rbind]. unfold required_bool, required_text, required_child, optional_text.
  rewrite !list_document_end by reflexivity. unfold page_end. destruct (decide (token = [])) as [->|E]; [reflexivity|].
  pose proof (nonempty_vsize token E) as H3. rewrite H3.
  assert (H1 : (let? e := let? e := unique_child (lit "ListBucketResult", [leaf (lit "IsTruncated") (lit "true"); leaf (lit "NextContinuationToken") token])
    (lit "IsTruncated") true in match e with Some e => Ok e | None => Throw RuntimeError end in element_text e) = Ok (lit "true")) by reflexivity.
  rewrite H1. cbn [rbind]. change (trim_xml_space (lit "true")) with (lit "true").
  change (str_eqb (lit "true") (lit "true") || _) with true. cbn iota. cbn [rbind].
  assert (H2 : unique_child (lit "ListBucketResult", [leaf (lit "IsTruncated") (lit "true"); leaf (lit "NextContinuationToken") token])
    (lit "NextContinuationToken") false = Ok (Some (lit "NextContinuationToken", [XText token]))) by reflexivity.
  rewrite H2. cbn [rbind element_text node_text snd]. rewrite app_nil_r.
  by rewrite H3.
Qed.

(** A page of the service: its objects, with the texts of their times, and its prefixes. *)
Record Page := { pg_objects : list (ListedObject * bytes); pg_prefixes : list bytes }.

Definition page_children (prefix : bytes) (p : Page) : list ListedChild :=
  lp_children (decode_directory_page
    {| lx_objects := map fst (pg_objects p); lx_prefixes := pg_prefixes p; lx_token := []; lx_truncated := false |} prefix).

(** The service answers the request with [token] with the page [p] and the token of the next. *)
Definition answers (fetch : bytes -> result Response) (token : bytes) (p : Page) (next : bytes) : Prop :=
  exists response, fetch token = Ok response /\ status response = 200 /\
    document xml_parse (body response) (list_document (pg_objects p) (pg_prefixes p) next) /\ Forall object_ok (pg_objects p).

(** The service gives the pages one after the other, from [token] on. *)
Fixpoint serves (fetch : bytes -> result Response) (token : bytes) (pages : list Page) : Prop :=
  match pages with
  | [] => False
  | [p] => answers fetch token p []
  | p :: pages => exists next, next <> [] /\ answers fetch token p next /\ serves fetch next pages
  end.

Lemma list_directory_page_answer fetch prefix token p next :
  answers fetch token p next ->
  exists page, list_directory_page xml_parse fetch prefix token = Ok page /\
    lp_children page = page_children prefix p /\ lp_token page = next /\ lp_truncated page = negb (vsize next =? 0).
Proof.
  intros (response & Hf & Hs & Hd & Ho). unfold list_directory_page. rewrite Hf. cbn [rbind]. rewrite Hs.
  change (negb (200 =? 200)) with false. cbn iota. rewrite (parse_list_document _ _ _ _ Hd Ho). cbn [rbind]. eexists. by split.
Qed.

Lemma for_each_pages {A} fetch prefix (function : A -> list ListedChild -> A * result unit) pages :
  (forall a c, (function a c).2 = Ok tt) ->
  forall a token k, serves fetch token pages ->
  for_each_directory_page xml_parse (length pages + k) fetch prefix function a token =
    Some (foldl (fun a p => (function a (page_children prefix p)).1) a pages, Ok tt).
Proof.
  intros Hf. induction pages as [|p pages IH]; intros a token k Hs; [done|].
  assert (exists next, answers fetch token p next /\ (if vsize next =? 0 then pages = [] else serves fetch next pages)) as (next & Ha & Hn).
  { destruct pages as [|q pages]; [exists []; by split|]. destruct Hs as (next & Hne & Ha & Hs). exists next. by rewrite nonempty_vsize. }
  destruct (list_directory_page_answer fetch prefix token p next Ha) as (page & E & Hc & Ht & Htr).
  cbn [length Nat.add for_each_directory_page]. rewrite E, Hc, Htr. cbn [foldl].
  specialize (Hf a (page_children prefix p)). destruct (function a (page_children prefix p)) as [a1 r]. cbn in Hf |- *. subst r.
  destruct (vsize next =? 0); cbn [negb].
  - by subst pages.
  - rewrite Ht. by apply IH.
Qed.

Lemma for_each_repeated {A} fetch prefix (function : A -> list ListedChild -> A * result unit) token p :
  (forall a c, (function a c).2 = Ok tt) -> token <> [] -> answers fetch token p token ->
  forall fuel a, for_each_directory_page xml_parse fuel fetch prefix function a token = None.
Proof.
  intros Hf Hne Ha. induction fuel as [|fuel IH]; intros a; cbn; [done|].
  destruct (list_directory_page_answer fetch prefix token p token Ha) as (page & -> & -> & -> & ->).
  rewrite nonempty_vsize by done. specialize (Hf a (page_children prefix p)). destruct (function _ _) as [a1 r]. cbn in Hf |- *. subst r. apply IH.
Qed.

End Pages.

(** C15: a directory is listed whole.  When the service gives its listing in pages, each with the
    token of the next, with keys and prefixes encoded as asked for, then the synchronous listing
    ends after as many requests as there are pages, and the caller has received the children of
    every page once and in order.  But a page that names the token it was asked for with as the
    next one makes it ask for that page for ever. *)
Theorem synchronous_listing {A} xml_parse fetch prefix (function : A -> list ListedChild -> A * result unit) :
  (forall a c, (function a c).2 = Ok tt) ->
  (forall pages a k, serves xml_parse fetch [] pages ->
    for_each_directory_page xml_parse (length pages + k) fetch prefix function a [] =
      Some (foldl (fun a p => (function a (page_children prefix p)).1) a pages, Ok tt)) /\
  (forall token p fuel a, token <> [] -> answers xml_parse fetch token p token ->
    for_each_directory_page xml_parse fuel fetch prefix function a token = None).
Proof.
  intros Hf. split; [intros pages a k; by apply for_each_pages|].
  intros token p fuel a Hne Ha. by apply (for_each_repeated xml_parse fetch prefix function token p).
Qed.

Definition sample_page : Page :=
  {| pg_objects := [({| lo_key := lit "d/a b"; lo_etag := lit "e"; lo_mtime := 1767323045; lo_size := 7 |}, lit " 2026-01-02T03:04:05Z ")];
     pg_prefixes := [lit "d/sub/"] |}.
Definition sample_last : Page := {| pg_objects := []; pg_prefixes := [lit "d/z/"] |}.

Definition sample_parse (body : bytes) : option (option element) :=
  let d p token := Some (Some (list_document (pg_objects p) (pg_prefixes p) token)) in
  if str_eqb body (lit "first") then d sample_page (lit "next")
  else if str_eqb body (lit "same") then d sample_page (lit "same") else d sample_last [].
Definition sample_fetch (token : bytes) : result Response :=
  Ok (mkResponse 200 (if str_eqb token [] then lit "first" else if str_eqb token (lit "same") then lit "same" else lit "last") []).

Lemma sample_page_ok : Forall object_ok (pg_objects sample_page).
Proof. repeat constructor; cbn; lia. Qed.

Lemma synchronous_listing_witness :
  let function (a c : list ListedChild) := (a ++ c, Ok tt) in
  for_each_directory_page sample_parse 2 sample_fetch (lit "d/") function [] [] =
    Some ([{| lc_name := lit "a b"; lc_mtime := 1767323045; lc_size := 7; lc_directory := false |};
           {| lc_name := lit "sub"; lc_mtime := 0; lc_size := 0; lc_directory := true |};
           {| lc_name := lit "z"; lc_mtime := 0; lc_size := 0; lc_directory := true |}], Ok tt) /\
  forall fuel, for_each_directory_page sample_parse fuel sample_fetch (lit "d/") function [] (lit "same") = None.
Proof.
  intros function. destruct (synchronous_listing sample_parse sample_fetch (lit "d/") function ltac:(done)) as [H1 H2]. split.
  - refine (eq_trans (H1 [sample_page; sample_last] [] 0%nat _) _); [|reflexivity]. exists (lit "next"). split; [done|]. split.
    + eexists. split; [reflexivity|]. split; [done|]. split; [done|exact sample_page_ok].
    + eexists. split; [reflexivity|]. split; [done|]. split; [done|constructor].
  - intros fuel. apply (H2 _ sample_page); [done|]. eexists. split; [reflexivity|]. split; [done|]. split; [done|exact sample_page_ok].
Defined.
