(* ===== verification/NativeRename.v ===== *)
(** * The service's own rename

    [AsyncNativeRename] of [fuse.cpp]: whether the service has RenameObject is found out once per
    mount, by renaming an object that does not exist; the member [rename_object_support] of the
    state remembers it.  Every callback is one function.  The member [history] is not in the code;
    it lists the requests, the answers and what was known of the service. *)

From S2P Require Import Prelude StdText Calendar S3Text Retry S3Xml.

(** ** Data *)

Inductive Stage := PROBE | DELETE_PROBE | RENAME.
Inductive SessionAction := RESUME_ADVANCE | SUBMIT_PROBE | SUBMIT_PROBE_DELETE | SUBMIT_RENAME.

(** [Known]: the value of [rename_object_support] that [advance] reads. *)
Inductive Event := Known (support : Z) | Sent (r : Stage) | Answered (r : Stage) (response : Response).

Record Native := mkNative {
  no_replace_ : bool; stage_ : Stage; session_action_ : SessionAction; session_attempt_ : Z;
  started_ : bool; cancelled_ : bool; posted_ : bool; session_ : bool; request_ : bool;
  rename_object_support : Z; completions : list (bool * option exn); history : list Event;
}.
#[global] Instance Native_settable : Settable Native := fun s =>
  mkNative (no_replace_ s) (stage_ s) (session_action_ s) (session_attempt_ s) (started_ s) (cancelled_ s)
    (posted_ s) (session_ s) (request_ s) (rename_object_support s) (completions s) (history s).

Definition make_Native (no_replace : bool) (support : Z) : Native :=
  mkNative no_replace PROBE RESUME_ADVANCE 0 false false false false false support [] [].

(** What submitting does: it sends the request; signing throws; the request does not start. *)
Inductive Submission := Submits | SignThrows (e : exn) | StartThrows (errno : Z).
Record Env := mkEnv { env_ready : bool; env_submit : Submission; env_session : option Z }.

(** ** Submitting *)

(** [start]; [posted]: whether the reactor takes the task. *)
Definition start (s : Native) (posted : bool) : Native * bool :=
  if started_ s || negb (bool_decide (completions s = [])) then (s, false)
  else if posted then (s <| started_ := true |> <| posted_ := true |>, true) else (s, false).

Definition cancel (s : Native) : Native := s <| cancelled_ := true |>.

Definition finish (s : Native) (renamed : bool) (error : option exn) : Native :=
  s <| session_ := false |> <| request_ := false |> <| completions := completions s ++ [(renamed, error)] |>.

Definition await_session (s : Native) (action : SessionAction) (env : Env) : Native * option exn :=
  let s := s <| session_action_ := action |> in
  match env_session env with
  | None => (s <| session_ := true |>, None)
  | Some errno => (s, Some (SystemError errno))
  end.

(** [submit_probe], [submit_probe_delete] and [submit_rename] differ in the stage. *)
Definition submit (s : Native) (stage : Stage) : Native :=
  s <| stage_ := stage |> <| request_ := true |> <| history := history s ++ [Sent stage] |>.

Definition again (e : exn) : bool := bool_decide (e = SystemError EAGAIN).

(** [submit_authorized] with an action other than [RESUME_ADVANCE]. *)
Definition submit_request (s : Native) (stage : Stage) (action : SessionAction) (env : Env) : Native * option exn :=
  if negb (env_ready env) then await_session s action env
  else
    match env_submit env with
    | Submits => (submit s stage, None)
    | SignThrows e => if again e then await_session s action env else (s, Some e)
    | StartThrows errno =>
        let s := s <| stage_ := stage |> in
        if errno =? EAGAIN then await_session s action env else (s, Some (SystemError errno))
    end.

Definition or_finish (r : Native * option exn) : Native :=
  match r with (s, None) => s | (s, Some e) => finish s false (Some e) end.

Definition advance (s : Native) (env : Env) : Native :=
  if cancelled_ s then finish s false (Some (SystemError ECANCELED))
  else if negb (env_ready env) then or_finish (await_session s RESUME_ADVANCE env)
  else
    let support := rename_object_support s in
    let s := s <| history := history s ++ [Known support] |> in
    if support <? 0 then finish s false None
    else if 0 <? support then or_finish (submit_request s RENAME SUBMIT_RENAME env)
    else or_finish (submit_request s PROBE SUBMIT_PROBE env).

Definition submit_authorized (s : Native) (action : SessionAction) (env : Env) : Native * option exn :=
  match action with
  | RESUME_ADVANCE => if negb (env_ready env) then await_session s action env else (advance s env, None)
  | SUBMIT_PROBE => submit_request s PROBE action env
  | SUBMIT_PROBE_DELETE => submit_request s DELETE_PROBE action env
  | SUBMIT_RENAME => submit_request s RENAME action env
  end.

(** ** Callbacks *)

Definition run (s : Native) (env : Env) : Native := advance (s <| posted_ := false |>) env.

Definition cancel_queued (s : Native) : Native :=
  finish (s <| posted_ := false |> <| cancelled_ := true |>) false (Some (SystemError ECANCELED)).

Definition session_ready (s : Native) (error : option exn) (env : Env) : Native :=
  let s := s <| session_ := false |> in
  match error with
  | Some e => finish s false (Some e)
  | None =>
      if cancelled_ s then finish s false (Some (SystemError ECANCELED))
      else or_finish (submit_authorized s (session_action_ s) env)
  end.

Section Answers.
Variable xml_parse : bytes -> option (option element).

Definition probe_received (s : Native) (response : Response) (env : Env) : Native * option exn :=
  if (status response =? 200) || (status response =? 201) || (status response =? 204)
  then submit_authorized s SUBMIT_PROBE_DELETE env
  else
    match rename_object_source_missing xml_parse response with
    | Throw e => (s, Some e)
    | Ok true => submit_authorized (s <| rename_object_support := 1 |>) SUBMIT_RENAME env
    | Ok false =>
        match rename_object_unsupported xml_parse response with
        | Throw e => (s, Some e)
        | Ok true => (finish (s <| rename_object_support := -1 |>) false None, None)
        | Ok false => (s, Some (s3_response_error xml_parse response))
        end
    end.

Definition delete_probe_received (s : Native) (response : Response) : Native * option exn :=
  if negb (status response =? 200) && negb (status response =? 204) && negb (status response =? 404)
  then (s, Some (s3_response_error xml_parse response))
  else (finish (s <| rename_object_support := -1 |>) false None, None).

Definition rename_received (s : Native) (response : Response) : Native * option exn :=
  if status response =? 200 then (finish (s <| rename_object_support := 1 |>) true None, None)
  else if status response =? 412 then (s, Some (SystemError (if no_replace_ s then EEXIST else ESTALE)))
  else
    match rename_object_unsupported xml_parse response with
    | Throw e => (s, Some e)
    | Ok false => (s, Some (s3_response_error xml_parse response))
    | Ok true => (finish (s <| rename_object_support := -1 |>) false None, None)
    end.

Variable directory_bucket : bool.

Definition stage_action (stage : Stage) : SessionAction :=
  match stage with PROBE => SUBMIT_PROBE | DELETE_PROBE => SUBMIT_PROBE_DELETE | RENAME => SUBMIT_RENAME end.

Definition received (s : Native) (answer : result Response) (env : Env) : Native :=
  let s := s <| request_ := false |> in
  or_finish
    match answer with
    | Throw e => (s, Some e)
    | Ok value =>
        let s := s <| history := history s ++ [Answered (stage_ s) value] |> in
        if ((status value =? 401) || (status value =? 403)) && directory_bucket && (session_attempt_ s <? 3)
        then submit_authorized (s <| session_attempt_ := session_attempt_ s + 1 |>) (stage_action (stage_ s)) env
        else
          let s := s <| session_attempt_ := 0 |> in
          if cancelled_ s then (s, Some (SystemError ECANCELED))
          else
            match stage_ s with
            | PROBE => probe_received s value env
            | DELETE_PROBE => delete_probe_received s value
            | RENAME => rename_received s value
            end
    end.

(** ** Runs *)

(** Other operations of the mount set [rename_object_support] to 1 and -1. *)
Inductive native_run : Native -> Prop :=
  | nr_start no_replace support s : start (make_Native no_replace support) true = (s, true) -> native_run s
  | nr_cancel s : native_run s -> native_run (cancel s)
  | nr_support s support : native_run s -> native_run (s <| rename_object_support := support |>)
  | nr_run s env : native_run s -> posted_ s = true -> native_run (run s env)
  | nr_cancel_queued s : native_run s -> posted_ s = true -> native_run (cancel_queued s)
  | nr_session s error env : native_run s -> session_ s = true -> native_run (session_ready s error env)
  | nr_received s answer env :
      native_run s -> request_ s = true -> (cancelled_ s = true -> exists e, answer = Throw e) ->
      native_run (received s answer env).

(** The service is known to have RenameObject: the mount found out before, or the probe failed for
    want of its source. *)
Definition supported (h : list Event) : Prop :=
  (exists v, Known v ∈ h /\ 0 < v) \/
  (exists r, Answered PROBE r ∈ h /\ rename_object_source_missing xml_parse r = Ok true).

Definition probe_made (h : list Event) : Prop :=
  exists r, Answered PROBE r ∈ h /\ (status r = 200 \/ status r = 201 \/ status r = 204).

(** The service is known not to have it: the mount found out before, it says so, or it has written
    an object for the probe. *)
Definition unsupported (h : list Event) : Prop :=
  (exists v, Known v ∈ h /\ v < 0) \/
  (exists stage r, Answered stage r ∈ h /\ rename_object_unsupported xml_parse r = Ok true) \/ probe_made h.

Definition never_renamed (h : list Event) : Prop := forall r, Answered RENAME r ∈ h -> status r <> 200.

Definition sent_ok (h : list Event) : Prop :=
  forall h1 stage h2, h = h1 ++ Sent stage :: h2 ->
    match stage with PROBE => True | DELETE_PROBE => probe_made h1 | RENAME => supported h1 end.

Definition action_ok (h : list Event) (action : SessionAction) : Prop :=
  match action with
  | RESUME_ADVANCE | SUBMIT_PROBE => True
  | SUBMIT_PROBE_DELETE => probe_made h
  | SUBMIT_RENAME => supported h
  end.

Definition result_ok (s : Native) (c : bool * option exn) : Prop :=
  match c with
  | (true, None) => exists r, Answered RENAME r ∈ history s /\ status r = 200
  | (true, Some _) => False
  | (false, None) => unsupported (history s) /\ never_renamed (history s)
  | (false, Some _) => True
  end.

Inductive phase (s : Native) : Prop :=
  | ph_posted : posted_ s = true -> session_ s = false -> request_ s = false -> completions s = [] ->
      never_renamed (history s) -> phase s
  | ph_session : posted_ s = false -> session_ s = true -> request_ s = false -> completions s = [] ->
      never_renamed (history s) -> action_ok (history s) (session_action_ s) -> phase s
  | ph_request : posted_ s = false -> session_ s = false -> request_ s = true -> completions s = [] ->
      never_renamed (history s) -> action_ok (history s) (stage_action (stage_ s)) -> phase s
  | ph_done c : posted_ s = false -> session_ s = false -> request_ s = false -> completions s = [c] -> result_ok s c -> phase s.

Definition native_inv (s : Native) : Prop := sent_ok (history s) /\ phase s.

Definition idle (s : Native) : Prop := posted_ s = false /\ session_ s = false /\ request_ s = false /\ completions s = [].
Definition ready (s : Native) : Prop := idle s /\ sent_ok (history s) /\ never_renamed (history s).

(** ** Histories *)

Lemma supported_snoc h e : supported h -> supported (h ++ [e]).
Proof. intros [(v & Hv & H)|(r & Hr & H)]; [left; exists v|right; exists r]; (split; [set_solver|done]). Qed.
Lemma probe_made_snoc h e : probe_made h -> probe_made (h ++ [e]).
Proof. intros (r & Hr & H). exists r. split; [set_solver|done]. Qed.
Lemma action_ok_snoc h e a : action_ok h a -> action_ok (h ++ [e]) a.
Proof. destruct a; cbn; [done|done|apply probe_made_snoc|apply supported_snoc]. Qed.
Lemma never_renamed_snoc h e : never_renamed h -> (forall r, e = Answered RENAME r -> status r <> 200) -> never_renamed (h ++ [e]).
Proof. intros Hn He r [Hr|Hr]%elem_of_app; [by apply Hn|]. apply list_elem_of_singleton in Hr. by apply He. Qed.
Lemma sent_snoc h e :
  sent_ok h -> (forall stage, e = Sent stage -> action_ok h (stage_action stage)) -> sent_ok (h ++ [e]).
Proof.
  intros Hs He h1 stage h2 E. destruct h2 as [|x h2 _] using rev_ind.
  - apply app_inj_tail in E as [-> ->]. specialize (He stage eq_refl). by destruct stage.
  - rewrite app_comm_cons, app_assoc in E. apply app_inj_tail in E as [-> _]. by apply (Hs h1 stage h2).
Qed.

(** ** The steps keep the invariant *)

Lemma native_finish_inv s renamed error :
  sent_ok (history s) -> idle s -> result_ok s (renamed, error) -> native_inv (finish s renamed error).
Proof.
  intros Hs (Hp & _ & _ & Hc) Hr. split; [done|]. apply (ph_done _ (renamed, error)); [done..|cbn; by rewrite Hc|done].
Qed.

Lemma native_await_inv s action env s' r :
  ready s -> action_ok (history s) action -> await_session s action env = (s', r) ->
  match r with None => native_inv s' | Some _ => ready s' end.
Proof.
  intros ((Hp & Hse & Hrq & Hc) & Hs & Hn) Ha. unfold await_session. destruct (env_session env); intros [= <- <-]; [done|].
  split; [done|]. by apply ph_session.
Qed.

Lemma native_submit_inv s stage : ready s -> action_ok (history s) (stage_action stage) -> native_inv (submit s stage).
Proof.
  intros ((Hp & Hse & Hrq & Hc) & Hs & Hn) Ha. split.
  - apply sent_snoc; [done|]. by intros ? [= <-].
  - apply ph_request; [done..|by apply never_renamed_snoc|by apply action_ok_snoc].
Qed.

Lemma native_submit_request_inv s stage env s' r :
  ready s -> action_ok (history s) (stage_action stage) -> submit_request s stage (stage_action stage) env = (s', r) ->
  match r with None => native_inv s' | Some _ => ready s' end.
Proof.
  intros Hr Ha. unfold submit_request. destruct (negb (env_ready env)); [by apply native_await_inv|].
  destruct (env_submit env) as [|e|errno].
  - intros [= <- <-]. by apply native_submit_inv.
  - destruct (again e); [by apply native_await_inv|]. by intros [= <- <-].
  - destruct (errno =? EAGAIN); [by apply native_await_inv|]. by intros [= <- <-].
Qed.

Lemma or_finish_inv x : match x.2 with None => native_inv x.1 | Some _ => ready x.1 end -> native_inv (or_finish x).
Proof. destruct x as [s [e|]]; cbn; [|done]. intros (Hi & Hs & _). by apply native_finish_inv. Qed.

Lemma native_advance_inv s env : ready s -> native_inv (advance s env).
Proof.
  intros Hr. pose proof Hr as (Hi & Hs & Hn). unfold advance. destruct (cancelled_ s); [by apply native_finish_inv|].
  destruct (negb (env_ready env)) eqn:Er.
  - apply or_finish_inv. destruct (await_session s RESUME_ADVANCE env) as [s' r] eqn:E. by apply (native_await_inv _ _ _ _ _ Hr) in E.
  - set (s1 := s <| history := history s ++ [Known (rename_object_support s)] |>).
    assert (Hr1 : ready s1) by (split; [done|]; split; [by apply sent_snoc|by apply never_renamed_snoc]).
    assert (Hk : Known (rename_object_support s) ∈ history s1) by (cbn; set_solver).
    destruct (Z.ltb_spec (rename_object_support s) 0) as [Hneg|].
    { apply native_finish_inv; [apply Hr1|done|]. split; [left; eauto|apply Hr1]. }
    destruct (Z.ltb_spec 0 (rename_object_support s)); apply or_finish_inv.
    + destruct (submit_request s1 RENAME SUBMIT_RENAME env) as [s' r] eqn:E.
      apply (native_submit_request_inv s1 RENAME env s' r) in E; [done..|]. left. eauto.
    + destruct (submit_request s1 PROBE SUBMIT_PROBE env) as [s' r] eqn:E. by apply (native_submit_request_inv s1 PROBE env s' r) in E.
Qed.

Lemma native_submit_authorized_inv s action env s' r :
  ready s -> action_ok (history s) action -> submit_authorized s action env = (s', r) ->
  match r with None => native_inv s' | Some _ => ready s' end.
Proof.
  intros Hr Ha. destruct action; cbn [submit_authorized].
  - destruct (negb (env_ready env)); [by apply native_await_inv|]. intros [= <- <-]. by apply native_advance_inv.
  - by apply (native_submit_request_inv s PROBE).
  - by apply (native_submit_request_inv s DELETE_PROBE).
  - by apply (native_submit_request_inv s RENAME).
Qed.

Lemma native_received_inv s answer env :
  native_inv s -> request_ s = true -> (cancelled_ s = true -> exists e, answer = Throw e) -> native_inv (received s answer env).
Proof.
  intros [Hs Hp] Hrq Hcan. destruct Hp as [| |Hpo Hse _ Hc Hn Ha|]; [congruence..| |congruence].
  unfold received. apply or_finish_inv. set (s0 := s <| request_ := false |>). destruct answer as [value|e]; [|done].
  change (stage_ s0) with (stage_ s). change (history s0) with (history s).
  set (s1 := s0 <| history := history s ++ [Answered (stage_ s) value] |>).
  assert (Hs1 : sent_ok (history s1)) by (by apply sent_snoc). assert (Hi : forall n, idle (s1 <| session_attempt_ := n |>)) by done.
  assert (Ha1 : action_ok (history s1) (stage_action (stage_ s))) by (by apply action_ok_snoc).
  assert (Hin : Answered (stage_ s) value ∈ history s1) by (cbn; set_solver).
  change (session_attempt_ s1) with (session_attempt_ s). change (stage_ s1) with (stage_ s). change (cancelled_ s1) with (cancelled_ s).
  destruct (((status value =? 401) || (status value =? 403)) && directory_bucket && (session_attempt_ s <? 3)) eqn:Eref.
  { assert (Hready : ready (s1 <| session_attempt_ := session_attempt_ s + 1 |>)).
    { split; [done|]. split; [done|]. apply never_renamed_snoc; [done|]. intros r [= _ <-].
      rewrite !andb_true_iff, orb_true_iff, !Z.eqb_eq in Eref. lia. }
    destruct (submit_authorized _ _ env) as [s' r] eqn:E. by apply native_submit_authorized_inv in E. }
  set (s2 := s1 <| session_attempt_ := 0 |>). change (cancelled_ s2) with (cancelled_ s). change (stage_ s2) with (stage_ s).
  destruct (cancelled_ s); [by destruct (Hcan eq_refl)|].
  assert (Hready : stage_ s <> RENAME \/ status value <> 200 -> ready s2).
  { intros Hor. split; [done|]. split; [done|]. apply never_renamed_snoc; [done|]. intros r [= E <-]. by destruct Hor. }
  assert (Hready' : forall n, stage_ s <> RENAME \/ status value <> 200 -> ready (s2 <| rename_object_support := n |>)) by (intros n; exact Hready).
  destruct (stage_ s) eqn:Es.
  - assert (R : ready s2) by (apply Hready; by left). unfold probe_received.
    destruct ((status value =? 200) || (status value =? 201) || (status value =? 204)) eqn:E2.
    + destruct (submit_authorized s2 SUBMIT_PROBE_DELETE env) as [s' r] eqn:E. apply native_submit_authorized_inv in E; [done..|].
      exists value. split; [done|]. lia.
    + destruct (rename_object_source_missing _ _) as [[|]|] eqn:Em; [| |done].
      * destruct (submit_authorized (s2 <| rename_object_support := 1 |>) SUBMIT_RENAME env) as [s' r] eqn:E.
        apply native_submit_authorized_inv in E; [done..|]. right. by exists value.
      * destruct (rename_object_unsupported _ _) as [[|]|] eqn:Eu; [|done..]. cbn [fst snd].
        apply native_finish_inv; [done..|]. split; [|apply R]. right. left. by eexists _, value.
  - assert (R : ready s2) by (apply Hready; by left). unfold delete_probe_received.
    destruct (negb (status value =? 200) && negb (status value =? 204) && negb (status value =? 404)); [done|]. cbn [fst snd].
    apply native_finish_inv; [done..|]. split; [|apply R]. right. right. exact Ha1.
  - unfold rename_received. destruct (Z.eqb_spec (status value) 200) as [H200|Hne].
    + cbn [fst snd]. apply native_finish_inv; [done..|]. by exists value.
    + assert (R : ready s2) by (apply Hready; by right). destruct (status value =? 412); [done|].
      destruct (rename_object_unsupported _ _) as [[|]|] eqn:Eu; [|done..]. cbn [fst snd].
      apply native_finish_inv; [done..|]. split; [|apply R]. right. left. by eexists _, value.
Qed.

Lemma native_run_inv s : native_run s -> native_inv s.
Proof.
  induction 1 as [nr support s E|s _ IH|s support _ IH|s env _ IH Hq|s _ IH Hq|s error env _ IH Hq|s answer env _ IH Hq Hc].
  - injection E as <-. split.
    + intros h1 stage h2 E. by destruct h1.
    + apply ph_posted; try done. intros r Hr. by apply elem_of_nil in Hr.
  - destruct IH as [Hs Hp]. split; [done|]. destruct Hp; [by apply ph_posted|by apply ph_session|by apply ph_request|by eapply ph_done].
  - destruct IH as [Hs Hp]. split; [done|]. destruct Hp; [by apply ph_posted|by apply ph_session|by apply ph_request|by eapply ph_done].
  - destruct IH as [Hs Hp]. destruct Hp as [_ Hse Hrq Hco Hn| | |]; [|congruence..]. by apply native_advance_inv.
  - destruct IH as [Hs Hp]. destruct Hp as [_ Hse Hrq Hco Hn| | |]; [|congruence..]. by apply native_finish_inv.
  - destruct IH as [Hs Hp]. destruct Hp as [|Hpo _ Hrq Hco Hn Ha| |]; [congruence| |congruence..].
    unfold session_ready. set (s1 := s <| session_ := false |>). assert (Hr : ready s1) by done.
    destruct error as [e|]; [by apply native_finish_inv|]. destruct (cancelled_ s1); [by apply native_finish_inv|].
    apply or_finish_inv. destruct (submit_authorized s1 (session_action_ s1) env) as [s' r] eqn:E. by apply native_submit_authorized_inv in E.
  - by apply native_received_inv.
Qed.

End Answers.

(** ** Claims *)

(** C16: the service's own rename is used when it exists, and reported truly.  In every run, also
    when other operations find out about the service meanwhile, the rename is requested only when
    the service is known to have it, and the object of a probe is deleted only when the probe has
    written it.  The operation reports a rename only when the service has confirmed it, and that it
    must be done otherwise only when the service is known not to have it and has renamed nothing.
    Until it completes, once, exactly one task, session or request is under way. *)
Theorem native_rename_reported xml_parse directory_bucket s :
  native_run xml_parse directory_bucket s ->
  sent_ok xml_parse (history s) /\
  (forall c, c ∈ completions s -> result_ok xml_parse s c) /\
  (if bool_decide (completions s = [])
   then Z.b2z (posted_ s) + Z.b2z (session_ s) + Z.b2z (request_ s) = 1
   else vsize (completions s) = 1 /\ posted_ s = false /\ session_ s = false /\ request_ s = false).
Proof.
  intros R. apply native_run_inv in R as [Hs Hp]. split; [done|]. split.
  - destruct Hp as [? ? ? Hc|? ? ? Hc|? ? ? Hc|c ? ? ? Hc Hr]; rewrite Hc; [by intros ? ?%elem_of_nil..|].
    by intros ? ->%list_elem_of_singleton.
  - destruct Hp as [Hq Hse Hrq Hc|Hq Hse Hrq Hc|Hq Hse Hrq Hc|c Hq Hse Hrq Hc]; rewrite Hq, Hse, Hrq, Hc; done.
Qed.

(** ** Example: a probe, then the rename *)

Definition sample_error : bytes -> option (option element) :=
  fun _ => Some (Some (lit "Error", [leaf (lit "Code") (lit "NoSuchKey")])).
Definition sample_env : Env := mkEnv true Submits None.

Definition sample_started : Native := (start (make_Native false 0) true).1.
Definition sample_probed : Native :=
  received sample_error true (run sample_started sample_env) (Ok (mkResponse 404 (lit "xml") [])) sample_env.
Definition sample_done : Native := received sample_error true sample_probed (Ok (mkResponse 200 [] [])) sample_env.

Lemma sample_done_run : native_run sample_error true sample_done.
Proof.
  apply nr_received; [|reflexivity|done]. apply nr_received; [|reflexivity|done]. apply nr_run; [|reflexivity].
  by apply (nr_start _ _ false 0).
Qed.

Lemma native_rename_reported_witness :
  completions sample_done = [(true, None)] /\ result_ok sample_error sample_done (true, None) /\
  rename_object_support sample_done = 1.
Proof.
  split; [reflexivity|]. split; [|reflexivity].
  destruct (native_rename_reported sample_error true sample_done sample_done_run) as (_ & H & _). apply H.
  change (completions sample_done) with [(true, @None exn)]. constructor.
Defined.
