(* ===== verification/CopyRename.v ===== *)
(** * Copying and renaming objects

    [AsyncCopyOrRename] of [fuse.cpp].  A rename first asks for the service's own rename; when the
    service has none, the object is copied, in one request or in parts, and the source is deleted
    after the copy.  Every callback is one function of the operation's members.  [Env] says what
    submitting a request does: the session may not be ready, signing or starting may fail.  The
    member [history] is not in the code; it lists the requests and the answers. *)

From S2P Require Import Prelude StdText Calendar S3Text Retry S3Xml.

(** ** Data *)

Inductive Mode := COPY_ONLY | RENAME.

Inductive Stage :=
  | COPY_OBJECT | PUT_MARKER | DELETE_SOURCE | CREATE_MULTIPART | COPY_PART | COMPLETE_MULTIPART | ABORT_MULTIPART.
#[global] Instance Mode_eq_dec : EqDecision Mode.
Proof. solve_decision. Defined.
#[global] Instance Stage_eq_dec : EqDecision Stage.
Proof. solve_decision. Defined.

(** The requests, with what varies between those of one operation; [if_none_match]: the header that
    refuses to replace an object. *)
Inductive Request :=
  | CopyObject (if_none_match : bool)
  | PutMarker (if_none_match : bool)
  | DeleteSource
  | CreateMultipart
  | CopyPart (upload : bytes) (number first last : Z)
  | CompleteMultipart (upload : bytes) (etags : list bytes) (if_none_match : bool)
  | AbortMultipart (upload : bytes).

Inductive Event := Renamed | Sent (r : Request) | Answered (r : Request) (response : Response).

Record Op := mkOp {
  mode_ : Mode; size_ : Z; key_ : bytes; no_replace_ : bool;
  stage_ : Stage; resume_stage_ : Stage; upload_id_ : bytes; part_etags_ : list bytes; part_index_ : Z;
  pending_error_ : option exn; session_attempt_ : Z; started_ : bool; cancelled_ : bool; outcome_ambiguous_ : bool;
  native_ : bool; session_ : bool; request_ : option Request;
  completions : list (option exn); history : list Event;
}.
#[global] Instance Op_settable : Settable Op := fun s =>
  mkOp (mode_ s) (size_ s) (key_ s) (no_replace_ s) (stage_ s) (resume_stage_ s) (upload_id_ s) (part_etags_ s)
    (part_index_ s) (pending_error_ s) (session_attempt_ s) (started_ s) (cancelled_ s) (outcome_ambiguous_ s)
    (native_ s) (session_ s) (request_ s) (completions s) (history s).

Definition make_Op (mode : Mode) (size : Z) (key : bytes) (no_replace : bool) : Op :=
  mkOp mode size key no_replace COPY_OBJECT COPY_OBJECT [] [] 0 None 0 false false false false false None [] [].

(** What happens when a request of a stage is submitted: it is sent; the credentials are being
    refreshed; making it throws; it does not start. *)
Inductive Submission := Submits | RefreshPending | SignThrows (e : exn) | StartThrows (errno : Z).

(** [env_ready]: [AsyncExpressSession::ready]; [env_session]: the error number when a session cannot be
    started. *)
Record Env := mkEnv { env_ready : bool; env_submit : Submission; env_session : option Z }.

(** The mount's configuration. *)
Record Config := mkConfig { bucket_empty : bool; directory_bucket : bool }.

Definition kMaximumSingleCopySize : Z := 5 * 1024 * 1024 * 1024.
Definition kCopyPartSize : Z := 1024 * 1024 * 1024.

(** ** Submitting *)

Definition copy_only (s : Op) : bool := bool_decide (mode_ s = COPY_ONLY).

Definition finish (s : Op) (error : option exn) : Op :=
  s <| native_ := false |> <| session_ := false |> <| request_ := None |> <| completions := completions s ++ [error] |>.

Definition finish_uncertain (s : Op) : Op := finish s (Some (SystemError EIO)).

Definition needs_express_session (stage : Stage) : bool :=
  match stage with
  | PUT_MARKER | DELETE_SOURCE | CREATE_MULTIPART | COMPLETE_MULTIPART | ABORT_MULTIPART => true
  | COPY_OBJECT | COPY_PART => false
  end.

(** The request that [submit_stage] makes. *)
Definition stage_request (s : Op) (stage : Stage) : Request :=
  match stage with
  | COPY_OBJECT => CopyObject (no_replace_ s)
  | PUT_MARKER => PutMarker false
  | DELETE_SOURCE => DeleteSource
  | CREATE_MULTIPART => CreateMultipart
  | COPY_PART =>
      let begin := u64 (part_index_ s * kCopyPartSize) in
      CopyPart (upload_id_ s) (part_index_ s + 1) begin (u64 (Z.min (size_ s) (u64 (begin + kCopyPartSize)) - 1))
  | COMPLETE_MULTIPART => CompleteMultipart (upload_id_ s) (part_etags_ s) (no_replace_ s)
  | ABORT_MULTIPART => AbortMultipart (upload_id_ s)
  end.

Definition submitted (s : Op) (stage : Stage) : Op :=
  s <| stage_ := stage |> <| request_ := Some (stage_request s stage) |>
    <| history := history s ++ [Sent (stage_request s stage)] |>.

(** A function that may throw returns the exception beside the state. *)
Definition await_session (s : Op) (stage : Stage) (env : Env) : Op * option exn :=
  let s := s <| resume_stage_ := stage |> in
  match env_session env with
  | None => (s <| session_ := true |>, None)
  | Some errno => (s, Some (SystemError errno))
  end.

Definition schedule (s : Op) (stage : Stage) (env : Env) : Op * option exn :=
  if cancelled_ s && negb (bool_decide (stage = ABORT_MULTIPART)) then (s, Some (SystemError ECANCELED))
  else if needs_express_session stage && negb (env_ready env) then await_session s stage env
  else
    match env_submit env with
    | Submits => (submitted s stage, None)
    | RefreshPending => await_session s stage env
    | SignThrows e =>
        if needs_express_session stage && bool_decide (e = SystemError EAGAIN) then await_session s stage env else (s, Some e)
    | StartThrows errno =>
        let s := s <| stage_ := stage |> in
        if needs_express_session stage && (errno =? EAGAIN) then await_session s stage env
        else (s, Some (SystemError errno))
    end.

(** ** Failing *)

Definition warn_abort_failure (s : Op) : Op :=
  finish (s <| upload_id_ := [] |> <| pending_error_ := None |>) (pending_error_ s).

Definition fail_or_abort (s : Op) (error : exn) (env : Env) : Op :=
  if vsize (upload_id_ s) =? 0 then finish s (Some error)
  else
    let s := s <| pending_error_ := Some error |> in
    match schedule s ABORT_MULTIPART env with
    | (s, None) => s
    | (s, Some _) => warn_abort_failure s
    end.

(** ** The fallback and the answers *)

Definition start_fallback (config : Config) (s : Op) (env : Env) : Op * option exn :=
  if cancelled_ s then (s, Some (SystemError ECANCELED))
  else if bucket_empty config then (s, Some (SystemError EOPNOTSUPP))
  else if kMaximumSingleCopySize <? size_ s then
    if kMaximumMultipartParts <? u64 (size_ s + kCopyPartSize - 1) / kCopyPartSize then (s, Some (SystemError EFBIG))
    else schedule s CREATE_MULTIPART env
  else schedule s COPY_OBJECT env.

Section Answers.
Variable xml_parse : bytes -> option (option element).

(** The root element of a successful answer, and its [ETag], which may not be empty. *)
Definition answer_root (response : Response) (expected : bytes) : result element :=
  let? _ := require_s3_success xml_parse response in
  let? xml := make_S3Xml xml_parse (body response) in
  result_root xml expected.

Definition answer_text (response : Response) (expected name : bytes) : result bytes :=
  let? root := answer_root response expected in
  let? text := required_text root name in
  if vsize text =? 0 then Throw RuntimeError else Ok text.

Definition after_copy (s : Op) (env : Env) : Op * option exn :=
  if copy_only s then (finish s None, None) else schedule s DELETE_SOURCE env.

Definition copy_received (s : Op) (response : Response) (env : Env) : Op * option exn :=
  if status response =? 412 then (s, Some (SystemError (if no_replace_ s then EEXIST else ESTALE)))
  else if negb (status response =? 200) then
    let marker_copy_unsupported :=
      (size_ s =? 0) && ends_with (lit "/") (key_ s) &&
      ((status response =? 400) || (status response =? 405) || (status response =? 501)) in
    if marker_copy_unsupported then schedule s PUT_MARKER env else (s, Some (s3_response_error xml_parse response))
  else
    match answer_text response (lit "CopyObjectResult") (lit "ETag") with
    | Throw e => (s, Some e)
    | Ok _ => after_copy s env
    end.

Definition marker_received (s : Op) (response : Response) (env : Env) : Op * option exn :=
  match require_s3_success xml_parse response with Throw e => (s, Some e) | Ok _ => after_copy s env end.

Definition delete_received (s : Op) (response : Response) : Op * option exn :=
  if status response =? 412 then (s, Some (SystemError ESTALE))
  else if negb (status response =? 200) && negb (status response =? 204) then (s, Some (s3_response_error xml_parse response))
  else (finish s None, None).

(** [required_text] is assigned to [upload_id_] before it is tested. *)
Definition create_received (s : Op) (response : Response) (env : Env) : Op * option exn :=
  match
    let? root := answer_root response (lit "InitiateMultipartUploadResult") in
    required_text root (lit "UploadId")
  with
  | Throw e => (s, Some e)
  | Ok upload_id =>
      let s := s <| upload_id_ := upload_id |> in
      if vsize upload_id =? 0 then (s, Some RuntimeError) else schedule s COPY_PART env
  end.

Definition part_received (s : Op) (response : Response) (env : Env) : Op * option exn :=
  match answer_text response (lit "CopyPartResult") (lit "ETag") with
  | Throw e => (s, Some e)
  | Ok etag =>
      let s := s <| part_etags_ := part_etags_ s ++ [etag] |> <| part_index_ := part_index_ s + 1 |> in
      if u64 (part_index_ s * kCopyPartSize) <? size_ s then schedule s COPY_PART env
      else schedule s COMPLETE_MULTIPART env
  end.

Definition complete_received (s : Op) (response : Response) (env : Env) : Op * option exn :=
  if (status response =? 412) && no_replace_ s then (s, Some (SystemError EEXIST))
  else
    match answer_root response (lit "CompleteMultipartUploadResult") with
    | Throw e => (s, Some e)
    | Ok _ => after_copy (s <| upload_id_ := [] |>) env
    end.

Definition response_received (s : Op) (response : Response) (env : Env) : Op * option exn :=
  match stage_ s with
  | COPY_OBJECT => copy_received s response env
  | PUT_MARKER => marker_received s response env
  | DELETE_SOURCE => delete_received s response
  | CREATE_MULTIPART => create_received s response env
  | COPY_PART => part_received s response env
  | COMPLETE_MULTIPART => complete_received s response env
  | ABORT_MULTIPART => (s, None)
  end.

(** ** Callbacks *)

Variable config : Config.

Definition commits (stage : Stage) : bool :=
  match stage with COPY_OBJECT | COMPLETE_MULTIPART => true | _ => false end.

Definition session_ready (s : Op) (error : option exn) (env abort : Env) : Op :=
  let s := s <| session_ := false |> in
  match error with
  | Some e =>
      if bool_decide (resume_stage_ s = ABORT_MULTIPART) && bool_decide (pending_error_ s <> None) then warn_abort_failure s
      else fail_or_abort s e abort
  | None =>
      match schedule s (resume_stage_ s) env with
      | (s, None) => s
      | (s, Some e) => fail_or_abort s e abort
      end
  end.

(** [Ok true]: the service has renamed the object. *)
Definition native_complete (s : Op) (renamed : result bool) (env : Env) : Op :=
  let s := s <| native_ := false |> in
  match renamed with
  | Throw e => finish s (Some e)
  | Ok true => finish (s <| history := history s ++ [Renamed] |>) None
  | Ok false => match start_fallback config s env with (s, None) => s | (s, Some e) => finish s (Some e) end
  end.

(** [received], after the members of the finished request are taken: [request] is what was asked,
    [ambiguous] what [request_->ambiguous()] was. *)
Definition received (s : Op) (request : Request) (answer : result Response) (request_ambiguous : bool) (env abort : Env) : Op :=
  let s := if commits (stage_ s) then s <| outcome_ambiguous_ := outcome_ambiguous_ s || request_ambiguous |> else s in
  let ambiguous := outcome_ambiguous_ s in
  let s := s <| request_ := None |> in
  match answer with
  | Ok value =>
      let s := s <| history := history s ++ [Answered request value] |> in
      let refused := ((status value =? 401) || (status value =? 403)) && directory_bucket config && needs_express_session (stage_ s) in
      if refused && (session_attempt_ s <? 3) then
        let s := s <| session_attempt_ := session_attempt_ s + 1 |> in
        match schedule s (stage_ s) env with
        | (s, None) => s
        | (s, Some e) =>
            if bool_decide (stage_ s = ABORT_MULTIPART) && bool_decide (pending_error_ s <> None) then warn_abort_failure s
            else fail_or_abort s e abort
        end
      else
        let s := s <| session_attempt_ := 0 |> in
        if bool_decide (stage_ s = ABORT_MULTIPART) then warn_abort_failure s
        else
          match if cancelled_ s then (s, Some (SystemError ECANCELED)) else response_received s value env with
          | (s, None) => s
          | (s, Some e) => if copy_only s && ambiguous && commits (stage_ s) then finish_uncertain s else fail_or_abort s e abort
          end
  | Throw e =>
      if bool_decide (stage_ s = ABORT_MULTIPART) then warn_abort_failure s
      else if copy_only s && ambiguous && commits (stage_ s) then finish_uncertain s
      else
        match stage_ s with
        | CREATE_MULTIPART | COMPLETE_MULTIPART => finish s (Some e)
        | _ => fail_or_abort s e abort
        end
  end.

(** [start]; [native]: whether the native rename starts. *)
Definition start (s : Op) (native : bool) (env : Env) : Op * bool :=
  if started_ s || negb (bool_decide (completions s = [])) then (s, false)
  else
    let s := s <| started_ := true |> in
    if copy_only s then
      match start_fallback config s env with
      | (s, None) => (s, true)
      | (s, Some _) => (s <| started_ := false |>, false)
      end
    else if native then (s <| native_ := true |>, true) else (s <| started_ := false |>, false).

Definition cancel (s : Op) : Op := s <| cancelled_ := true |>.

End Answers.

(** ** Runs *)

Section Runs.
Variable xml_parse : bytes -> option (option element).
Variable config : Config.

(** Replacing is forbidden for files only: renames of directories and their markers pass [false],
    and links are of files.  A request that was under way when the operation was cancelled answers
    with an error, as [S3Request] shows; after that only the abort is sent. *)
Inductive copy_run : Op -> Prop :=
  | cr_start mode size key no_replace native env s :
      0 <= size <= INT64_MAX -> (no_replace = true -> ends_with (lit "/") key = false) ->
      start config (make_Op mode size key no_replace) native env = (s, true) -> copy_run s
  | cr_cancel s : copy_run s -> copy_run (cancel s)
  | cr_native s renamed env : copy_run s -> native_ s = true -> copy_run (native_complete config s renamed env)
  | cr_session s error env abort : copy_run s -> session_ s = true -> copy_run (session_ready s error env abort)
  | cr_received s request answer ambiguous env abort :
      copy_run s -> request_ s = Some request ->
      (cancelled_ s = true -> stage_ s <> ABORT_MULTIPART -> exists e, answer = Throw e) ->
      copy_run (received xml_parse config s request answer ambiguous env abort).

(** ** What a history shows *)

Definition copy_ok (r : Response) : Prop := exists e, answer_text xml_parse r (lit "CopyObjectResult") (lit "ETag") = Ok e.
Definition complete_ok (r : Response) : Prop := exists root, answer_root xml_parse r (lit "CompleteMultipartUploadResult") = Ok root.

Definition part_request (size : Z) (upload : bytes) (i : Z) : Request :=
  CopyPart upload (i + 1) (i * kCopyPartSize) (Z.min size ((i + 1) * kCopyPartSize) - 1).

(** Part [i] was copied for every tag [i], and the service gave the tag. *)
Definition parts_copied (h : list Event) (size : Z) (upload : bytes) (etags : list bytes) : Prop :=
  forall i, 0 <= i < vsize etags -> exists r, Answered (part_request size upload i) r ∈ h /\
    answer_text xml_parse r (lit "CopyPartResult") (lit "ETag") = Ok (vget [] etags i).

(** The parts are all parts of the object, and at most 10,000. *)
Definition all_parts (size : Z) (etags : list bytes) : Prop :=
  (vsize etags - 1) * kCopyPartSize < size <= vsize etags * kCopyPartSize /\ vsize etags <= kMaximumMultipartParts.

(** The service has confirmed a copy of the whole object. *)
Definition copied (h : list Event) (size : Z) (key : bytes) : Prop :=
  (exists x r, Answered (CopyObject x) r ∈ h /\ copy_ok r) \/
  (size = 0 /\ ends_with (lit "/") key = true /\ exists x r, Answered (PutMarker x) r ∈ h /\ require_s3_success xml_parse r = Ok tt) \/
  (exists upload etags x r, Answered (CompleteMultipart upload etags x) r ∈ h /\ complete_ok r /\
    parts_copied h size upload etags /\ all_parts size etags).

Definition not_completed (h : list Event) (upload : bytes) : Prop :=
  forall etags x r, Answered (CompleteMultipart upload etags x) r ∈ h -> ~ complete_ok r.

Definition created (h : list Event) (upload : bytes) : Prop :=
  exists r root, Answered CreateMultipart r ∈ h /\
    answer_root xml_parse r (lit "InitiateMultipartUploadResult") = Ok root /\ required_text root (lit "UploadId") = Ok upload.

(** What the operation reports when it succeeds. *)
Definition succeeded (s : Op) : Prop :=
  (mode_ s = COPY_ONLY /\ copied (history s) (size_ s) (key_ s)) \/
  (mode_ s = RENAME /\ (Renamed ∈ history s \/
     copied (history s) (size_ s) (key_ s) /\
     exists r, Answered DeleteSource r ∈ history s /\ (status r = 200 \/ status r = 204))).

(** ** Invariant *)

Definition idle (s : Op) : Prop := native_ s = false /\ session_ s = false /\ request_ s = None /\ completions s = [].

Definition deletes_ok (h : list Event) (mode : Mode) (size : Z) (key : bytes) : Prop :=
  forall h1 h2, h = h1 ++ Sent DeleteSource :: h2 -> mode = RENAME /\ copied h1 size key.

(** The parts of the open upload; none before there is one. *)
Definition upload_state (s : Op) : Prop :=
  (upload_id_ s = [] \/
   created (history s) (upload_id_ s) /\ not_completed (history s) (upload_id_ s) /\
   parts_copied (history s) (size_ s) (upload_id_ s) (part_etags_ s) /\ part_index_ s = vsize (part_etags_ s)).

(** What makes the destination refuses to replace an object exactly when that is asked for. *)
Definition exclusive_ok (h : list Event) (no_replace : bool) : Prop :=
  forall r, Sent r ∈ h ->
    match r with CopyObject x | CompleteMultipart _ _ x | PutMarker x => x = no_replace | _ => True end.

Definition aborts_ok (h : list Event) : Prop :=
  forall upload, Sent (AbortMultipart upload) ∈ h -> created h upload /\ not_completed h upload.

Record core (s : Op) : Prop := {
  co_started : started_ s = true;
  co_size : 0 <= size_ s <= INT64_MAX;
  co_upload : upload_state s;
  co_deletes : deletes_ok (history s) (mode_ s) (size_ s) (key_ s);
  co_aborts : aborts_ok (history s);
  co_exclusive : exclusive_ok (history s) (no_replace_ s);
  co_file : no_replace_ s = true -> ends_with (lit "/") (key_ s) = false;
}.

Definition no_abort (h : list Event) : Prop := forall upload, Sent (AbortMultipart upload) ∉ h.
Definition part_limit (s : Op) : Prop := size_ s <= kMaximumMultipartParts * kCopyPartSize.

(** What holds when a stage is scheduled, sent or awaits its session. *)
Definition stage_ok (s : Op) (stage : Stage) : Prop :=
  (stage <> ABORT_MULTIPART -> no_abort (history s)) /\
  match stage with
  | COPY_OBJECT => upload_id_ s = []
  | PUT_MARKER => upload_id_ s = [] /\ size_ s = 0 /\ ends_with (lit "/") (key_ s) = true
  | DELETE_SOURCE => upload_id_ s = [] /\ mode_ s = RENAME /\ copied (history s) (size_ s) (key_ s)
  | CREATE_MULTIPART =>
      upload_id_ s = [] /\ part_etags_ s = [] /\ part_index_ s = 0 /\ kMaximumSingleCopySize < size_ s /\ part_limit s /\
      forall upload, not_completed (history s) upload
  | COPY_PART => upload_id_ s <> [] /\ part_index_ s * kCopyPartSize < size_ s /\ part_limit s
  | COMPLETE_MULTIPART => upload_id_ s <> [] /\ all_parts (size_ s) (part_etags_ s)
  | ABORT_MULTIPART => upload_id_ s <> [] /\ pending_error_ s <> None
  end.

(** Exactly one thing is under way, or the operation has completed, once. *)
Inductive phase (s : Op) : Prop :=
  | ph_native : native_ s = true -> session_ s = false -> request_ s = None -> completions s = [] ->
      mode_ s = RENAME -> upload_id_ s = [] -> part_etags_ s = [] -> part_index_ s = 0 -> no_abort (history s) ->
      (forall upload, not_completed (history s) upload) -> phase s
  | ph_session : native_ s = false -> session_ s = true -> request_ s = None -> completions s = [] ->
      stage_ok s (resume_stage_ s) -> phase s
  | ph_request : native_ s = false -> session_ s = false -> request_ s = Some (stage_request s (stage_ s)) -> completions s = [] ->
      stage_ok s (stage_ s) -> phase s
  | ph_done e : native_ s = false -> session_ s = false -> request_ s = None -> completions s = [e] ->
      (e = None -> succeeded s) -> phase s.

Definition copy_inv (s : Op) : Prop := core s /\ phase s.

(** ** Histories only grow *)

Lemma copied_mono h e size key : copied h size key -> copied (h ++ e) size key.
Proof.
  intros [(x & r & Hr & Ho)|[(Hs & Hk & x & r & Hr & Ho)|(u & l & x & r & Hr & Ho & Hp & Ha)]].
  - left. exists x, r. split; [set_solver|done].
  - right. left. split_and!; [done..|]. exists x, r. split; [set_solver|done].
  - right. right. exists u, l, x, r. split_and!; [set_solver|done| |done..].
    intros i Hi. destruct (Hp i Hi) as (ri & Hri & E). exists ri. split; [set_solver|done].
Qed.

Lemma parts_copied_mono h e size u l : parts_copied h size u l -> parts_copied (h ++ e) size u l.
Proof. intros Hp i Hi. destruct (Hp i Hi) as (r & Hr & E). exists r. split; [set_solver|done]. Qed.

Lemma created_mono h e u : created h u -> created (h ++ e) u.
Proof. intros (r & root & Hr & H). exists r, root. split; [set_solver|done]. Qed.

Lemma not_completed_sent h r u : not_completed h u -> not_completed (h ++ [Sent r]) u.
Proof. intros Hn etags y x [Hx|Hx]%elem_of_app; [by apply (Hn etags y)|]. set_solver. Qed.

Lemma deletes_snoc h e mode size key :
  deletes_ok h mode size key -> (e = Sent DeleteSource -> mode = RENAME /\ copied h size key) ->
  deletes_ok (h ++ [e]) mode size key.
Proof.
  intros Hd He h1 h2 E. destruct h2 as [|x h2 _] using rev_ind.
  - apply app_inj_tail in E as [-> ->]. by apply He.
  - rewrite app_comm_cons, app_assoc in E. apply app_inj_tail in E as [-> _]. by apply (Hd h1 h2).
Qed.

Lemma aborts_snoc h e :
  aborts_ok h -> (forall u, e = Sent (AbortMultipart u) -> created h u /\ not_completed h u) ->
  (forall u l x r, e = Answered (CompleteMultipart u l x) r -> complete_ok r -> no_abort h) -> aborts_ok (h ++ [e]).
Proof.
  intros Ha He Hc u Hu. assert (created h u /\ not_completed h u) as [Hcr Hn].
  { apply elem_of_app in Hu as [Hu|Hu]; [by apply Ha|]. apply list_elem_of_singleton in Hu. by apply He. }
  split; [by apply created_mono|]. intros l x r [Hr|Hr]%elem_of_app Hok; [by apply (Hn l x r)|].
  apply list_elem_of_singleton in Hr. apply elem_of_app in Hu as [Hu|Hu].
  - by apply (Hc u l x r (eq_sym Hr) Hok u).
  - apply list_elem_of_singleton in Hu. congruence.
Qed.

Lemma exclusive_answered h r v b : exclusive_ok h b -> exclusive_ok (h ++ [Answered r v]) b.
Proof. intros Hx q [Hq|Hq]%elem_of_app; [by apply Hx|]. by apply list_elem_of_singleton in Hq. Qed.

Lemma exclusive_sent s stage :
  exclusive_ok (history s) (no_replace_ s) -> (stage = PUT_MARKER -> no_replace_ s = false) ->
  exclusive_ok (history s ++ [Sent (stage_request s stage)]) (no_replace_ s).
Proof.
  intros Hx Hm q [Hq|Hq]%elem_of_app; [by apply Hx|]. apply list_elem_of_singleton in Hq as [= ->].
  destruct stage; try done. cbn. symmetry. by apply Hm.
Qed.

Lemma no_abort_snoc h e : no_abort h -> (forall u, e <> Sent (AbortMultipart u)) -> no_abort (h ++ [e]).
Proof. intros Hn He u [Hu|Hu]%elem_of_app; [by apply (Hn u)|]. apply list_elem_of_singleton in Hu. by apply (He u). Qed.

(** ** The steps keep the invariant *)

Lemma copy_finish_inv s error :
  core s -> idle s -> (error = None -> succeeded s) -> copy_inv (finish s error).
Proof.
  intros [] (_ & _ & _ & Hc) Hs. split; [by constructor|]. apply (ph_done _ error); cbn; [done..|by rewrite Hc|done].
Qed.

Lemma warn_abort_inv s : core s -> idle s -> pending_error_ s <> None -> copy_inv (warn_abort_failure s).
Proof.
  intros [Hst Hsz Hu Hd Ha Hx Hf] (_ & _ & _ & Hc) Hp. split; [constructor; cbn; [done..|by left|done|done|done|done]|].
  apply (ph_done _ (pending_error_ s)); cbn; [done..|by rewrite Hc|done].
Qed.

Lemma submitted_inv s stage : core s -> idle s -> stage_ok s stage -> copy_inv (submitted s stage).
Proof.
  intros [Hst Hsz Hu Hd Ha Hx Hf] (Hn & Hse & _ & Hc) [Hab Hok]. split.
  - constructor; cbn; [done..| | | | |done].
    + destruct Hu as [Hu|(H1 & H2 & H3 & H4)]; [by left|]. right. cbn.
      split_and!; [by apply created_mono|by apply not_completed_sent|by apply parts_copied_mono|done].
    + apply deletes_snoc; [done|]. intros [= E]. destruct stage; try done. by destruct Hok as (_ & ? & ?).
    + apply aborts_snoc; [done| |done]. intros u [= E]. destruct stage; try done. injection E as <-. destruct Hok as [Hne _].
      by destruct Hu as [?|(? & ? & _)].
    + apply exclusive_sent; [done|]. intros ->. destruct Hok as (_ & _ & Hk). destruct (no_replace_ s); [|done].
      rewrite Hf in Hk; done.
  - apply ph_request; cbn; [done..|destruct stage; done|done|]. split; cbn.
    + intros Hne. apply no_abort_snoc; [by apply Hab|]. intros u [= E]. by destruct stage.
    + destruct stage; try done.
      * destruct Hok as (? & ? & ?). split_and!; [done..|by apply copied_mono].
      * destruct Hok as (? & ? & ? & ? & ? & Hnc). split_and!; [done..|]. intros u. by apply not_completed_sent.
Qed.

(** Only the stages differ. *)
Definition restaged (s s' : Op) : Prop := exists a b, s' = s <| stage_ := a |> <| resume_stage_ := b |>.

Lemma restaged_core s s' : restaged s s' -> core s -> core s'.
Proof. intros (a & b & ->) []. by constructor. Qed.
Lemma restaged_idle s s' : restaged s s' -> idle s -> idle s'.
Proof. by intros (a & b & ->). Qed.

Lemma copy_await_inv s stage env s' r :
  core s -> idle s -> stage_ok s stage -> await_session s stage env = (s', r) ->
  match r with None => copy_inv s' | Some _ => restaged s s' end.
Proof.
  intros [] (Hn & Hse & Hrq & Hc) Hok. unfold await_session. destruct (env_session env) as [errno|]; intros [= <- <-].
  - exists (stage_ s), stage. by destruct s.
  - split; [by constructor|]. by apply ph_session.
Qed.

Lemma copy_schedule_inv s stage env s' r :
  core s -> idle s -> stage_ok s stage -> schedule s stage env = (s', r) ->
  match r with None => copy_inv s' | Some _ => restaged s s' end.
Proof.
  intros Hc Hi Hok. assert (Hself : restaged s s) by (exists (stage_ s), (resume_stage_ s); by destruct s).
  unfold schedule. destruct (cancelled_ s && _); [by intros [= <- <-]|].
  destruct (needs_express_session stage && negb _); [by apply copy_await_inv|].
  destruct (env_submit env) as [| |e|errno].
  - intros [= <- <-]. by apply submitted_inv.
  - by apply copy_await_inv.
  - destruct (_ && _); [by apply copy_await_inv|]. by intros [= <- <-].
  - destruct (_ && _).
    + intros E. pose proof (copy_await_inv (s <| stage_ := stage |>) stage env s' r) as H.
      assert (Hc' : core (s <| stage_ := stage |>)) by (destruct Hc; by constructor).
      specialize (H Hc' Hi Hok E). destruct r; [|done]. destruct H as (a & b & ->). exists a, b. by destruct s.
    + intros [= <- <-]. exists stage, (resume_stage_ s). by destruct s.
Qed.

Lemma fail_or_abort_inv s e env : core s -> idle s -> copy_inv (fail_or_abort s e env).
Proof.
  intros Hc Hi. unfold fail_or_abort. destruct (vsize (upload_id_ s) =? 0) eqn:Eu; [by apply copy_finish_inv|].
  set (s1 := s <| pending_error_ := Some e |>).
  assert (Hc1 : core s1) by (destruct Hc; by constructor). assert (Hi1 : idle s1) by done.
  assert (Hok : stage_ok s1 ABORT_MULTIPART).
  { split; [done|]. split; [|done]. cbn. intros E. by rewrite E in Eu. }
  destruct (schedule s1 ABORT_MULTIPART env) as [s' r] eqn:E. pose proof (copy_schedule_inv _ _ _ _ _ Hc1 Hi1 Hok E) as H.
  destruct r as [e'|]; [|done]. apply warn_abort_inv; [by eapply restaged_core|by eapply restaged_idle|].
  by destruct H as (a & b & ->).
Qed.

(** A step that ends with a throw is followed by [fail_or_abort]. *)
Lemma then_fail s s' (r : option exn) abort :
  core s -> idle s -> match r with None => copy_inv s' | Some _ => restaged s s' end ->
  copy_inv (match r with None => s' | Some e => fail_or_abort s' e abort end).
Proof.
  intros Hc Hi H. destruct r; [|done]. apply fail_or_abort_inv; [by eapply restaged_core|by eapply restaged_idle].
Qed.

Lemma start_fallback_inv s env s' r :
  core s -> idle s -> upload_id_ s = [] -> part_etags_ s = [] -> part_index_ s = 0 -> no_abort (history s) ->
  (forall upload, not_completed (history s) upload) ->
  start_fallback config s env = (s', r) -> match r with None => copy_inv s' | Some _ => restaged s s' end.
Proof.
  intros Hc Hi Hu Hp Hx Hn Hnc. assert (Hself : restaged s s) by (exists (stage_ s), (resume_stage_ s); by destruct s).
  pose proof (co_size _ Hc) as Hsz. unfold INT64_MAX in Hsz.
  unfold start_fallback. destruct (cancelled_ s); [by intros [= <- <-]|]. destruct (bucket_empty config); [by intros [= <- <-]|].
  destruct (Z.ltb_spec kMaximumSingleCopySize (size_ s)) as [Hbig|].
  - destruct (Z.ltb_spec kMaximumMultipartParts (u64 (size_ s + kCopyPartSize - 1) / kCopyPartSize)) as [|Hcnt]; [by intros [= <- <-]|].
    apply copy_schedule_inv; [done..|]. split; [done|]. split_and!; [done..| |done]. unfold part_limit.
    unfold u64, kMaximumMultipartParts, kCopyPartSize in *. rewrite Z.mod_small in Hcnt by lia.
    pose proof (Z.mul_succ_div_gt (size_ s + 1024 * 1024 * 1024 - 1) (1024 * 1024 * 1024)). lia.
  - by apply copy_schedule_inv.
Qed.

Lemma copy_native_complete_inv s renamed env :
  copy_inv s -> native_ s = true -> copy_inv (native_complete config s renamed env).
Proof.
  intros [Hc Hp] Hn. destruct Hp as [_ Hse Hrq Hco Hm Hu Het Hix Hab Hnc| | |]; [|congruence..].
  assert (Hi : idle (s <| native_ := false |>)) by done.
  assert (Hc1 : core (s <| native_ := false |>)) by (destruct Hc; by constructor).
  unfold native_complete. destruct renamed as [[|]|e].
  - apply copy_finish_inv; [|done|].
    + destruct Hc as [_ _ _ _ _ Hx Hf]. destruct Hc1. constructor; cbn; [done..| | | | |done].
      * left. done.
      * by apply deletes_snoc.
      * by apply aborts_snoc.
      * intros q [Hq|Hq]%elem_of_app; [by apply Hx|]. by apply list_elem_of_singleton in Hq.
    + intros _. right. split; [done|]. left. cbn. set_solver.
  - destruct (start_fallback config _ env) as [s' r] eqn:E.
    pose proof (start_fallback_inv _ _ _ _ Hc1 Hi Hu Het Hix Hab Hnc E) as H. destruct r as [e|]; [|done].
    apply copy_finish_inv; [by eapply restaged_core|by eapply restaged_idle|done].
  - by apply copy_finish_inv.
Qed.

Lemma copy_session_ready_inv s error env abort :
  copy_inv s -> session_ s = true -> copy_inv (session_ready s error env abort).
Proof.
  intros [Hc Hp] Hs. destruct Hp as [|Hn _ Hrq Hco Hok| |]; [congruence| |congruence..].
  set (s1 := s <| session_ := false |>). assert (Hi : idle s1) by done. assert (Hc1 : core s1) by (destruct Hc; by constructor).
  unfold session_ready. fold s1. destruct error as [e|].
  - destruct (_ && _) eqn:E; [|by apply fail_or_abort_inv]. apply andb_true_iff in E as [_ E%bool_decide_eq_true]. by apply warn_abort_inv.
  - destruct (schedule s1 (resume_stage_ s1) env) as [s' r] eqn:E.
    exact (then_fail _ _ _ _ Hc1 Hi (copy_schedule_inv _ _ _ _ _ Hc1 Hi Hok E)).
Qed.

(** ** Answers *)

Definition or_throw (s' : Op) (r : option exn) : Prop :=
  match r with None => copy_inv s' | Some _ => core s' /\ idle s' end.

Lemma restaged_or_throw s s' (r : option exn) :
  core s -> idle s -> match r with None => copy_inv s' | Some _ => restaged s s' end -> or_throw s' r.
Proof. intros Hc Hi H. destruct r; [|done]. split; [by eapply restaged_core|by eapply restaged_idle]. Qed.

Lemma after_copy_inv s env s' r :
  core s -> idle s -> upload_id_ s = [] -> no_abort (history s) -> copied (history s) (size_ s) (key_ s) ->
  after_copy s env = (s', r) -> or_throw s' r.
Proof.
  intros Hc Hi Hu Hn Hcp. unfold after_copy, copy_only. case_bool_decide as Hm.
  - intros [= <- <-]. apply copy_finish_inv; [done..|]. intros _. by left.
  - intros E. apply (restaged_or_throw s); [done..|]. revert E. apply copy_schedule_inv; [done..|]. split; [done|].
    split_and!; [done| |done]. by destruct (mode_ s).
Qed.

Lemma copy_received_inv s value env s' r :
  core s -> idle s -> stage_ok s COPY_OBJECT -> Answered (stage_request s COPY_OBJECT) value ∈ history s ->
  copy_received xml_parse s value env = (s', r) -> or_throw s' r.
Proof.
  intros Hc Hi [Hn Hu] Hh. specialize (Hn ltac:(done)). unfold copy_received. destruct (status value =? 412); [by intros [= <- <-]|].
  destruct (negb (status value =? 200)).
  - destruct (_ && _) eqn:E; [|by intros [= <- <-]]. apply andb_true_iff in E as [[Hz%Z.eqb_eq Hk]%andb_true_iff _].
    intros E. apply (restaged_or_throw s); [done..|]. revert E. by apply copy_schedule_inv.
  - destruct (answer_text _ _ _ _) as [etag|] eqn:E; [|by intros [= <- <-]]. apply after_copy_inv; [done..|].
    left. eexists _, value. split; [done|]. by exists etag.
Qed.

Lemma marker_received_inv s value env s' r :
  core s -> idle s -> stage_ok s PUT_MARKER -> Answered (stage_request s PUT_MARKER) value ∈ history s ->
  marker_received xml_parse s value env = (s', r) -> or_throw s' r.
Proof.
  intros Hc Hi [Hn (Hu & Hz & Hk)] Hh. specialize (Hn ltac:(done)). unfold marker_received.
  destruct (require_s3_success _ _) as [[]|] eqn:E; [|by intros [= <- <-]]. apply after_copy_inv; [done..|].
  right. left. split_and!; [done..|]. by eexists _, value.
Qed.

Lemma delete_received_inv s value s' r :
  core s -> idle s -> stage_ok s DELETE_SOURCE -> Answered DeleteSource value ∈ history s ->
  delete_received xml_parse s value = (s', r) -> or_throw s' r.
Proof.
  intros Hc Hi [Hn (Hu & Hm & Hcp)] Hh. unfold delete_received. destruct (status value =? 412); [by intros [= <- <-]|].
  destruct (Z.eqb_spec (status value) 200) as [H1|], (Z.eqb_spec (status value) 204) as [H2|]; cbn [negb andb]; intros [= <- <-];
    [apply copy_finish_inv; [done..|]; intros _; right; split; [done|]; right; split; [done|]; exists value; auto..|done].
Qed.

Lemma create_received_inv s value env s' r :
  core s -> idle s -> stage_ok s CREATE_MULTIPART -> Answered CreateMultipart value ∈ history s ->
  create_received xml_parse s value env = (s', r) -> or_throw s' r.
Proof.
  intros Hc Hi [Hn (Hu & Het & Hix & Hbig & Hlim & Hnc)] Hh. specialize (Hn ltac:(done)). unfold create_received.
  destruct (answer_root _ _ _) as [root|] eqn:Er; cbn [rbind]; [|by intros [= <- <-]].
  destruct (required_text root _) as [upload|] eqn:Et; [|by intros [= <- <-]].
  set (s1 := s <| upload_id_ := upload |>).
  assert (Hc1 : core s1).
  { destruct Hc as [Hst Hsz _ Hd Ha Hx Hf]. constructor; cbn; [done..| |done|done|done|done].
    right. cbn. rewrite Het. split_and!; [by exists value, root|apply Hnc|intros i Hi'; change (vsize (@nil bytes)) with 0 in Hi'; lia|done]. }
  destruct (vsize upload =? 0) eqn:Ev; [by intros [= <- <-]|].
  intros E. apply (restaged_or_throw s1); [done..|]. revert E. apply copy_schedule_inv; [done..|]. split; [done|].
  split_and!; [|change (part_index_ s * kCopyPartSize < size_ s); rewrite Hix, Z.mul_0_l; unfold kMaximumSingleCopySize in Hbig; lia|done].
  change (upload <> []). by intros ->.
Qed.

Lemma part_request_eq s :
  0 <= size_ s <= INT64_MAX -> 0 <= part_index_ s -> part_index_ s * kCopyPartSize < size_ s ->
  stage_request s COPY_PART = part_request (size_ s) (upload_id_ s) (part_index_ s).
Proof.
  intros Hs Hp Hl. unfold stage_request, part_request, INT64_MAX, kCopyPartSize, u64 in *.
  rewrite (Z.mod_small (part_index_ s * _)) by lia. rewrite (Z.mod_small (_ + _)) by lia. rewrite Z.mod_small by lia. f_equal. lia.
Qed.

Lemma part_received_inv s value env s' r :
  core s -> idle s -> stage_ok s COPY_PART -> Answered (stage_request s COPY_PART) value ∈ history s ->
  part_received xml_parse s value env = (s', r) -> or_throw s' r.
Proof.
  intros Hc Hi [Hn (Hu & Hix & Hlim)] Hh. specialize (Hn ltac:(done)). unfold part_received.
  destruct (answer_text _ _ _ _) as [etag|] eqn:Et; [|by intros [= <- <-]].
  set (s1 := s <| part_etags_ := part_etags_ s ++ [etag] |> <| part_index_ := part_index_ s + 1 |>).
  pose proof Hc as [Hst Hsz Hup Hd Ha Hx Hf]. destruct Hup as [|(Hcr & Hnc & Hpc & Hpi)]; [done|].
  assert (Hv : vsize (part_etags_ s ++ [etag]) = part_index_ s + 1) by (rewrite Hpi; unfold vsize; rewrite length_app; cbn; lia).
  assert (Hp0 : 0 <= part_index_ s) by (rewrite Hpi; unfold vsize; lia).
  rewrite part_request_eq in Hh by done.
  assert (Hc1 : core s1).
  { constructor; cbn; [done..| |done|done|done|done]. right. cbn. split_and!; [done..| |by rewrite Hv].
    intros i Hi'. rewrite Hv in Hi'. destruct (decide (i = part_index_ s)) as [->|Hne].
    - exists value. split; [done|]. rewrite Et. f_equal. unfold vget. rewrite Hpi. unfold vsize. rewrite Nat2Z.id.
      by rewrite list_lookup_middle.
    - destruct (Hpc i ltac:(lia)) as (ri & Hri & E). exists ri. split; [done|]. rewrite E. f_equal. unfold vget.
      rewrite lookup_app_l; [done|]. unfold vsize in *. lia. }
  assert (Hok : stage_ok s1 (if part_index_ s1 * kCopyPartSize <? size_ s1 then COPY_PART else COMPLETE_MULTIPART)).
  { split; [by intros _|]. unfold part_limit, all_parts, INT64_MAX, kMaximumMultipartParts, kCopyPartSize in *. cbn [part_index_ size_ s1] in *.
    change (part_index_ s1) with (part_index_ s + 1). change (size_ s1) with (size_ s). change (part_etags_ s1) with (part_etags_ s ++ [etag]).
    destruct (Z.ltb_spec ((part_index_ s + 1) * (1024 * 1024 * 1024)) (size_ s)); [split_and!; [done|lia|done]|].
    rewrite Hv. split; [done|]. lia. }
  assert (Hw : u64 (part_index_ s1 * kCopyPartSize) = part_index_ s1 * kCopyPartSize).
  { unfold u64, INT64_MAX, kCopyPartSize in *. change (part_index_ s1) with (part_index_ s + 1). apply Z.mod_small. lia. }
  fold s1. rewrite Hw. intros E. apply (restaged_or_throw s1); [done..|].
  destruct (part_index_ s1 * kCopyPartSize <? size_ s1); revert E; by apply copy_schedule_inv.
Qed.

Lemma complete_received_inv s value env s' r :
  core (s <| upload_id_ := [] |>) -> (~ complete_ok value -> core s) -> idle s -> no_abort (history s) ->
  all_parts (size_ s) (part_etags_ s) -> parts_copied (history s) (size_ s) (upload_id_ s) (part_etags_ s) ->
  Answered (stage_request s COMPLETE_MULTIPART) value ∈ history s ->
  complete_received xml_parse s value env = (s', r) -> or_throw s' r.
Proof.
  intros Hc0 Hc Hi Hn Hall Hpc Hh. unfold complete_received. destruct (_ && _) eqn:E.
  - intros [= <- <-]. split; [|done]. apply Hc. intros [root Hr]. apply andb_true_iff in E as [E%Z.eqb_eq _].
    unfold answer_root, require_s3_success in Hr. rewrite E in Hr. done.
  - destruct (answer_root _ _ _) as [root|] eqn:Er.
    + apply after_copy_inv; [done..|]. cbn. right. right. exists (upload_id_ s), (part_etags_ s), (no_replace_ s), value. split_and!; [done| |done|done]. by exists root.
    + intros [= <- <-]. split; [|done]. apply Hc. intros [root Hr]. unfold complete_ok in *. congruence.
Qed.

(** The operation when an answer has arrived. *)
Definition taken (s : Op) (ambiguous : bool) : Op := s <| outcome_ambiguous_ := ambiguous |> <| request_ := None |>.
Definition answered (s : Op) (ambiguous : bool) (value : Response) (attempt : Z) : Op :=
  taken s ambiguous <| history := history s ++ [Answered (stage_request s (stage_ s)) value] |> <| session_attempt_ := attempt |>.

Lemma not_completed_answered h r value u :
  not_completed h u -> (forall l x, r = CompleteMultipart u l x -> ~ complete_ok value) -> not_completed (h ++ [Answered r value]) u.
Proof.
  intros Hn Hr l y x [Hx|Hx]%elem_of_app; [by apply (Hn l y)|]. apply list_elem_of_singleton in Hx. injection Hx as <- <-. by apply (Hr l y).
Qed.

Lemma taken_core s ambiguous : core s -> core (taken s ambiguous).
Proof. intros []. by constructor. Qed.

Lemma answered_core s ambiguous value attempt upload :
  core s -> stage_ok s (stage_ s) ->
  upload = [] \/ upload = upload_id_ s /\ (stage_ s = COMPLETE_MULTIPART -> ~ complete_ok value) ->
  core (answered s ambiguous value attempt <| upload_id_ := upload |>).
Proof.
  intros [Hst Hsz Hup Hd Ha Hx Hf] [Hn Hok] Hu. constructor; cbn; [done..| | | |by apply exclusive_answered|done].
  - destruct Hu as [->|[-> Hnc]]; [by left|]. destruct Hup as [|(H1 & H2 & H3 & H4)]; [by left|]. right. cbn. split_and!; [|
      apply not_completed_answered; [done|]; intros l x E; apply Hnc; by destruct (stage_ s)|by apply parts_copied_mono|done].
    by apply created_mono.
  - apply deletes_snoc; [done|]. done.
  - apply aborts_snoc; [done|done|]. intros u l x r [= E <-] _. apply Hn. intros E'. by rewrite E' in E.
Qed.

Lemma answered_same s ambiguous value attempt :
  answered s ambiguous value attempt <| upload_id_ := upload_id_ s |> = answered s ambiguous value attempt.
Proof. by destruct s. Qed.

Lemma answered_stage_ok s ambiguous value attempt :
  stage_ok s (stage_ s) -> stage_ok (answered s ambiguous value attempt) (stage_ s).
Proof.
  intros [Hn Hok]. split; cbn; [intros Hne; apply no_abort_snoc; [by apply Hn|done]|].
  destruct (stage_ s); try done.
  - destruct Hok as (? & ? & ?). split_and!; [done..|by apply copied_mono].
  - destruct Hok as (? & ? & ? & ? & ? & Hnc). split_and!; [done..|]. intros u. by apply not_completed_answered.
Qed.

Lemma complete_ok_status value : complete_ok value -> 200 <= status value < 300.
Proof.
  intros [root Hr]. unfold answer_root, require_s3_success in Hr.
  destruct (Z.leb_spec 200 (status value)), (Z.ltb_spec (status value) 300); cbn in Hr; done || lia.
Qed.

(** [stage_] of a completed operation does not matter. *)
Lemma received_ok_inv s ambiguous value attempt env s' r :
  core s -> idle (taken s ambiguous) -> stage_ok s (stage_ s) -> stage_ s <> ABORT_MULTIPART ->
  response_received xml_parse (answered s ambiguous value attempt) value env = (s', r) -> or_throw s' r.
Proof.
  intros Hc Hi Hok Hna. set (s1 := answered s ambiguous value attempt).
  assert (Hi1 : idle s1) by done. pose proof (answered_stage_ok s ambiguous value attempt Hok) as Hok1. fold s1 in Hok1.
  assert (Hh : Answered (stage_request s (stage_ s)) value ∈ history s1) by (cbn; set_solver).
  assert (Hc1 : (stage_ s = COMPLETE_MULTIPART -> ~ complete_ok value) -> core s1).
  { intros Hnc. pose proof (answered_core s ambiguous value attempt (upload_id_ s) Hc Hok) as H. rewrite answered_same in H. apply H. by right. }
  unfold response_received. change (stage_ s1) with (stage_ s). destruct (stage_ s) eqn:Es.
  - by apply copy_received_inv; [apply Hc1|..].
  - by apply marker_received_inv; [apply Hc1|..].
  - by apply delete_received_inv; [apply Hc1|..].
  - by apply create_received_inv; [apply Hc1|..].
  - by apply part_received_inv; [apply Hc1|..].
  - destruct Hok1 as [Hn1 [Hu Hall]]. destruct (co_upload _ Hc) as [|(_ & _ & Hpc & _)]; [done|].
    apply complete_received_inv; [apply answered_core; [done|by rewrite Es|by left]|by intros ?; apply Hc1|done|by apply Hn1|done| |done].
    by apply parts_copied_mono.
  - done.
Qed.

Lemma copy_answer_inv s request answer request_ambiguous env abort :
  copy_inv s -> request_ s = Some request ->
  (cancelled_ s = true -> stage_ s <> ABORT_MULTIPART -> exists e, answer = Throw e) ->
  copy_inv (received xml_parse config s request answer request_ambiguous env abort).
Proof.
  intros [Hc Hp] Hr Hcan. destruct Hp as [| |Hn Hse Hrq Hco Hok|]; [congruence..| |congruence].
  assert (request = stage_request s (stage_ s)) as -> by congruence.
  unfold received. set (am := outcome_ambiguous_ s || request_ambiguous).
  set (ambiguous := if commits (stage_ s) then am else outcome_ambiguous_ s).
  assert (Et : (if commits (stage_ s) then s <| outcome_ambiguous_ := am |> else s) = s <| outcome_ambiguous_ := ambiguous |>).
  { subst ambiguous. destruct (commits (stage_ s)); [done|by destruct s]. }
  rewrite Et. change (outcome_ambiguous_ (s <| outcome_ambiguous_ := ambiguous |>)) with ambiguous. fold (taken s ambiguous).
  assert (Hi : idle (taken s ambiguous)) by done. destruct answer as [value|e].
  - change (stage_ (taken s ambiguous <| history := _ |>)) with (stage_ s).
    change (session_attempt_ (taken s ambiguous <| history := _ |>)) with (session_attempt_ s).
    change (history (taken s ambiguous)) with (history s).
    destruct (_ && (session_attempt_ s <? 3)) eqn:Eref.
    + fold (answered s ambiguous value (session_attempt_ s + 1)). set (s1 := answered s ambiguous value (session_attempt_ s + 1)).
      assert (Hnc : ~ complete_ok value).
      { intros Hcs%complete_ok_status. rewrite !andb_true_iff, orb_true_iff, !Z.eqb_eq in Eref. lia. }
      assert (Hc1 : core s1).
      { pose proof (answered_core s ambiguous value (session_attempt_ s + 1) (upload_id_ s) Hc Hok) as H.
        rewrite answered_same in H. apply H. by right. }
      assert (Hi1 : idle s1) by done. pose proof (answered_stage_ok s ambiguous value (session_attempt_ s + 1) Hok) as Hok1.
      destruct (schedule s1 (stage_ s1) env) as [s' r] eqn:E. pose proof (copy_schedule_inv _ _ _ _ _ Hc1 Hi1 Hok1 E) as H.
      destruct r as [e|]; [|done]. pose proof (restaged_core _ _ H Hc1). pose proof (restaged_idle _ _ H Hi1).
      destruct (bool_decide (stage_ s' = ABORT_MULTIPART) && bool_decide (pending_error_ s' <> None)) eqn:Ea;
        [|by apply fail_or_abort_inv]. apply andb_true_iff in Ea as [_ Ea%bool_decide_eq_true]. by apply warn_abort_inv.
    + fold (answered s ambiguous value 0). set (s1 := answered s ambiguous value 0). change (stage_ s1) with (stage_ s).
      case_bool_decide as Hab.
      * apply warn_abort_inv; [|done|].
        -- pose proof (answered_core s ambiguous value 0 (upload_id_ s) Hc Hok) as H. rewrite answered_same in H. apply H. right. split; [done|].
           by rewrite Hab.
        -- destruct Hok as [_ Hok]. rewrite Hab in Hok. by destruct Hok.
      * change (cancelled_ s1) with (cancelled_ s). destruct (cancelled_ s); [by destruct (Hcan eq_refl Hab)|].
        destruct (response_received xml_parse s1 value env) as [s' r] eqn:E.
        pose proof (received_ok_inv _ _ _ _ _ _ _ Hc Hi Hok Hab E) as H. destruct r as [e|]; [|done]. destruct H as [H1 H2].
        destruct (copy_only s' && ambiguous && commits (stage_ s')); [by apply copy_finish_inv|by apply fail_or_abort_inv].
  - pose proof (taken_core _ ambiguous Hc) as Hc1. change (stage_ (taken s ambiguous)) with (stage_ s).
    case_bool_decide as Hab.
    + apply warn_abort_inv; [done..|]. destruct Hok as [_ Hok]. rewrite Hab in Hok. by destruct Hok.
    + destruct (copy_only (taken s ambiguous) && ambiguous && commits (stage_ s)); [by apply copy_finish_inv|].
      destruct (stage_ s); first [by apply fail_or_abort_inv|by apply copy_finish_inv].
Qed.

Lemma copy_run_inv s : copy_run s -> copy_inv s.
Proof.
  induction 1 as [mode size key nr native env s Hsz Hf E|s _ IH|s renamed env _ IH Hn|s error env abort _ IH Hs|s request answer am env abort _ IH Hr Hc].
  - unfold start in E. cbn [started_ make_Op completions orb negb] in E. rewrite bool_decide_eq_true_2 in E by done. cbn [negb] in E.
    set (s0 := make_Op mode size key nr <| started_ := true |>) in E.
    assert (Hnil : forall x : Event, x ∉ []) by (intros x Hx; by apply elem_of_nil in Hx).
    assert (H0 : core s0).
    { constructor; cbn; [done..|by left| | | |done].
      - intros h1 h2 Eh. by destruct h1.
      - intros u Hu. by apply Hnil in Hu.
      - intros q Hq. by apply Hnil in Hq. }
    destruct (copy_only s0) eqn:Ecp.
    + destruct (start_fallback config s0 env) as [s1 r] eqn:Ef. destruct r as [e|]; [done|]. injection E as <-.
      refine (start_fallback_inv s0 env s1 None H0 _ _ _ _ _ _ Ef); try done; intros u; [by apply Hnil|]. intros l x r Hu. by apply Hnil in Hu.
    + destruct native; [|done]. injection E as <-. split; [destruct H0; by constructor|]. apply ph_native; try done.
      * unfold copy_only in Ecp. apply bool_decide_eq_false in Ecp. cbn in *. by destruct mode.
      * intros u. by apply Hnil.
      * intros u l x r Hu. by apply Hnil in Hu.
  - destruct IH as [[] Hp]. split; [by constructor|]. destruct Hp; [by apply ph_native|by apply ph_session|by apply ph_request|by eapply ph_done].
  - by apply copy_native_complete_inv.
  - by apply copy_session_ready_inv.
  - by apply copy_answer_inv.
Qed.

End Runs.

(** ** Claims *)

(** C5: a rename never loses its object.  In every run of a copy or rename, with requests, sessions
    and signatures that fail at any point and with cancellation, the source is deleted only by a
    rename, and only after the service has confirmed a copy of the whole object: a copy in one
    request, an empty marker for an empty marker, or a multipart copy whose parts were all copied,
    each from its range of the source, and completed with their tags in order.  Success is reported
    only for a confirmed copy, and for a rename only when the source was deleted or the service
    renamed it.  An upload is aborted only when this operation has created it and no completion of
    it was confirmed.  What makes the destination refuses to replace an object exactly when
    that is asked for.  Until it completes, which it does once, exactly one request, session or
    native rename is under way. *)
Theorem rename_never_loses xml_parse config s :
  copy_run xml_parse config s ->
  (forall h1 h2, history s = h1 ++ Sent DeleteSource :: h2 -> mode_ s = RENAME /\ copied xml_parse h1 (size_ s) (key_ s)) /\
  (None ∈ completions s -> succeeded xml_parse s) /\
  (forall upload, Sent (AbortMultipart upload) ∈ history s ->
     created xml_parse (history s) upload /\ not_completed xml_parse (history s) upload) /\
  exclusive_ok (history s) (no_replace_ s) /\
  (if bool_decide (completions s = [])
   then Z.b2z (native_ s) + Z.b2z (session_ s) + Z.b2z (bool_decide (request_ s <> None)) = 1
   else vsize (completions s) = 1 /\ native_ s = false /\ session_ s = false /\ request_ s = None).
Proof.
  intros R. apply copy_run_inv in R as [Hc Hp]. split_and!; [apply Hc| |apply Hc|apply Hc|].
  - destruct Hp as [? ? ? Hco|? ? ? Hco|? ? ? Hco|e ? ? ? Hco Hs]; rewrite Hco; [by intros ?%elem_of_nil..|].
    intros He%list_elem_of_singleton. by apply Hs.
  - destruct Hp as [Hn Hs Hr Hco|Hn Hs Hr Hco|Hn Hs Hr Hco|e Hn Hs Hr Hco]; rewrite Hn, Hs, Hr, Hco; done.
Qed.

(** ** Example: a rename that copies and deletes *)

Definition sample_answer : bytes -> option (option element) :=
  fun _ => Some (Some (lit "CopyObjectResult", [leaf (lit "ETag") (lit "e")])).
Definition sample_config : Config := mkConfig false false.
Definition sample_env : Env := mkEnv true Submits None.

Definition sample_copying : Op :=
  native_complete sample_config (make_Op RENAME 7 (lit "a") true <| started_ := true |> <| native_ := true |>) (Ok false) sample_env.
Definition sample_deleting : Op :=
  received sample_answer sample_config sample_copying (CopyObject true) (Ok (mkResponse 200 (lit "xml") [])) false sample_env sample_env.
Definition sample_renamed : Op :=
  received sample_answer sample_config sample_deleting DeleteSource (Ok (mkResponse 204 [] [])) false sample_env sample_env.

Lemma sample_renamed_run : copy_run sample_answer sample_config sample_renamed.
Proof.
  apply cr_received; [|reflexivity|done]. apply cr_received; [|reflexivity|done]. apply cr_native; [|reflexivity].
  apply (cr_start _ _ RENAME 7 (lit "a") true true sample_env); [unfold INT64_MAX; lia|reflexivity|reflexivity].
Qed.

Lemma rename_never_loses_witness :
  completions sample_renamed = [None] /\ succeeded sample_answer sample_renamed /\
  history sample_renamed =
    [Sent (CopyObject true); Answered (CopyObject true) (mkResponse 200 (lit "xml") []); Sent DeleteSource;
     Answered DeleteSource (mkResponse 204 [] [])].
Proof.
  split; [reflexivity|]. split; [|reflexivity].
  destruct (rename_never_loses sample_answer sample_config sample_renamed sample_renamed_run) as (_ & H & _).
  apply H. change (completions sample_renamed) with [@None exn]. constructor.
Defined.

