(* ===== verification/S3Request.v ===== *)
(** * Asynchronous S3 requests

    [AsyncS3Request] of [fuse.cpp]: a request that runs on a reactor.  It signs, leases a
    connection, waits for one when the pool is empty, starts the HTTP operation and repeats it
    after a timer.  The code is a set of callbacks; here each is a function on the state of the
    object, and what the reactor, the pool and the system calls answer are its arguments. *)

From S2P Require Import Prelude StdText S3Text Http1Request Retry.

(** The outstanding operations are those the reactor or the HTTP client will call back for. *)
Record S3Request := mkS3Request {
  arg_headers : list header;      (* arguments_.headers *)
  range : bool;                   (* arguments_.range *)
  directory_bucket : bool;        (* state_.config.directory_bucket *)
  complete_ : bool;               (* complete_ != nullptr *)
  max_attempts_ : Z;
  attempt_ : Z;
  lease_ : bool;
  http_ : bool;                   (* an HTTP operation is running *)
  task_ : bool;                   (* task_ is in the reactor's queue *)
  wait_ : bool;                   (* wait_ is submitted: the pool's pipe or the timer *)
  credentials_wait_ : bool;       (* credentials_wait_ is submitted *)
  timer_ : bool;
  timer_ns : Z;                   (* the timer's value, in nanoseconds *)
  pool_wait_ : bool;
  bulk_ : bool;
  started_ : bool;
  cancelled_ : bool;
  ambiguous_ : bool;
  resign_ : bool;
  (* what the outside sees *)
  range_signing_mode : Z;         (* of the mount *)
  waiters : Z;                    (* begin_async_wait calls without end_async_wait *)
  sent : Z;                       (* HTTP operations started *)
  published_once : bool;          (* an operation has handed range data to its sink *)
  completions : list (result Response) }.

#[export] Instance S3Request_settable : Settable S3Request := fun s =>
  mkS3Request (arg_headers s) (range s) (directory_bucket s) (complete_ s) (max_attempts_ s) (attempt_ s) (lease_ s)
    (http_ s) (task_ s) (wait_ s) (credentials_wait_ s) (timer_ s) (timer_ns s) (pool_wait_ s) (bulk_ s) (started_ s) (cancelled_ s)
    (ambiguous_ s) (resign_ s) (range_signing_mode s) (waiters s) (sent s) (published_once s) (completions s).

Definition make_S3Request (hs : list header) (range directory_bucket : bool) (max_attempts : Z) (lease bulk : bool) (mode : Z) :
    S3Request :=
  mkS3Request hs range directory_bucket true max_attempts 0 lease false false false false false 0 false (bulk || lease)
    false false false false mode 0 0 false [].

(** ** Ending *)

Definition finish (s : S3Request) (r : result Response) : S3Request :=
  s <| http_ := false |> <| lease_ := false |> <| complete_ := false |> <| completions := completions s ++ [r] |>.

Definition fail (s : S3Request) (error : Z) : S3Request := finish s (Throw (SystemError error)).

(** [posted] is what [FuseReactor::post] returns. *)
Definition start (s : S3Request) (posted : bool) : S3Request * bool :=
  if started_ s || negb (complete_ s) || (max_attempts_ s =? 0) then (s, false)
  else if posted then (s <| started_ := true |> <| task_ := true |>, true)
  else (s, false).

(** The operations that are outstanding are cancelled and still call back. *)
Definition cancel (s : S3Request) : S3Request := s <| cancelled_ := true |>.

(** ** A response *)

Definition strip_request_authorization (hs : list header) : list header :=
  List.filter (fun h => negb (one_of (fst h) ["authorization"; "x-amz-date"; "x-amz-security-token";
                                             "x-amz-s3session-token"; "x-amz-content-sha256"]%string)) hs.

(** What follows the first occurrence of [wanted]. *)
Fixpoint after_text (text wanted : bytes) : option bytes :=
  if starts_with wanted text then Some (drop (length wanted) text)
  else match text with [] => None | _ :: text => after_text text wanted end.

(** Whether one of the names separated by [;] is [range]; [name] is the one being read. *)
Fixpoint names_range (name names : bytes) : bool :=
  match names with
  | [] => str_eqb name (lit "range")
  | c :: names => if ascii_eqb c ";" then str_eqb name (lit "range") || names_range [] names
                  else names_range (name ++ [c]) names
  end.

Fixpoint signed_range (hs : list header) : bool :=
  match hs with
  | [] => false
  | h :: hs =>
      if negb (str_eqb (fst h) (lit "authorization")) then signed_range hs
      else match after_text (snd h) (lit "SignedHeaders=") with
           | None => false
           | Some names => names_range [] (before_char "," names) || signed_range hs
           end
  end.

(** What [received] asks the operation and the system: the status and the bytes the HTTP
    operation has published, the clocks, and the errno of a failing system call. *)
Record ReceivedEnv := mkReceivedEnv {
  http_status : Z; http_body_bytes : Z; env_realtime : option Z; env_monotonic : Z;
  timer_create : option Z; timer_settime : option Z; timer_submit : option Z }.

Section Request.
Variable xml_error_code : bytes -> option bytes.

Definition published (s : S3Request) (env : ReceivedEnv) : bool :=
  range s && http_ s && ((http_status env =? 200) || (http_status env =? 206)) && negb (http_body_bytes env =? 0).

Definition wait_retry (s : S3Request) (env : ReceivedEnv) (milliseconds : Z) : S3Request :=
  match timer_ s, timer_create env with
  | false, Some e => fail s e
  | _, _ =>
      let s := s <| timer_ := true |> in
      match timer_settime env with
      | Some e => fail s e
      | None =>
          match timer_submit env with
          | Some e => fail s e
          | None => s <| timer_ns := Z.max 1 (u64 (milliseconds * 1000000)) |> <| wait_ := true |>
          end
      end
  end.

Definition rejected_range (s : S3Request) (value : Response) : bool :=
  (status value =? 403) && range s && negb (directory_bucket s) && (attempt_ s + 1 <? max_attempts_ s) &&
  negb (signed_range (arg_headers s)).

Definition received (s : S3Request) (env : ReceivedEnv) (value : Response) (error : option exn) : S3Request :=
  let pub := published s env in
  let failed := bool_decide (is_Some error) in
  let s := s <| ambiguous_ := ambiguous_ s || failed |> <| http_ := false |> <| lease_ := false |>
             <| published_once := published_once s || pub |> in
  if cancelled_ s then fail s ECANCELED
  else
    let resign := negb pub && negb failed && rejected_range s value in
    let retry := (negb failed && retryable_response xml_error_code value) || resign in
    let s := if resign then s <| resign_ := true |> <| range_signing_mode := 2 |> else s in
    if pub || (negb failed && negb retry) || (max_attempts_ s <=? attempt_ s + 1)
    then finish s (match error with Some e => Throw e | None => Ok value end)
    else
      let milliseconds := async_retry_milliseconds value (attempt_ s) (env_realtime env) (env_monotonic env) in
      wait_retry (s <| attempt_ := attempt_ s + 1 |>) env milliseconds.

(** ** Acquiring a connection *)

Inductive Auth := Signed (authorization : list header) | RefreshPending | AuthThrows (e : exn).
Inductive CredentialStart := CredentialsSubmitted | CredentialsRefused (errno : Z) | CredentialsThrow (e : exn).

Record AcquireEnv := mkAcquireEnv {
  auth : Auth; credentials_start : CredentialStart; first_lease : bool; second_lease : bool;
  wait_submit : option Z; make_request : result unit; on_error : ReceivedEnv }.

Definition empty_response : Response := mkResponse 0 [] [].

(** [make_async_request] and [start]; the operation calls back later. *)
Definition send (s : S3Request) (env : AcquireEnv) : S3Request :=
  match make_request env with
  | Ok _ => s <| http_ := true |> <| sent := sent s + 1 |>
  | Throw e => received s (on_error env) empty_response (Some e)
  end.

Definition lease_and_send (s : S3Request) (env : AcquireEnv) : S3Request :=
  let s := if lease_ s then s else s <| lease_ := first_lease env |> in
  if lease_ s then send s env
  else
    let s := s <| waiters := waiters s + 1 |> <| pool_wait_ := true |> <| lease_ := second_lease env |> in
    if lease_ s then send (s <| waiters := waiters s - 1 |> <| pool_wait_ := false |>) env
    else
      match wait_submit env with
      | None => s <| wait_ := true |>
      | Some e => fail (s <| waiters := waiters s - 1 |> <| pool_wait_ := false |>) e
      end.

Definition acquire (s : S3Request) (env : AcquireEnv) : S3Request :=
  if cancelled_ s then fail s ECANCELED
  else if resign_ s then
    match auth env with
    | Signed authorization =>
        lease_and_send (s <| arg_headers := strip_request_authorization (arg_headers s) ++ authorization |>
                          <| resign_ := false |>) env
    | RefreshPending =>
        match credentials_start env with
        | CredentialsSubmitted => s <| credentials_wait_ := true |>
        | CredentialsRefused e => fail s e
        | CredentialsThrow e => finish s (Throw e)
        end
    | AuthThrows e => received s (on_error env) empty_response (Some e)
    end
  else lease_and_send s env.

(** The callback of [wait_] and of [credentials_wait_]; the caller has cleared the operation. *)
Definition available (s : S3Request) (res : Z) (env : AcquireEnv) : S3Request :=
  let s := if pool_wait_ s then s <| waiters := waiters s - 1 |> <| pool_wait_ := false |> else s in
  if (res <? 0) || cancelled_ s then fail s (if cancelled_ s then ECANCELED else - res) else acquire s env.

(** ** Runs *)

(** A callback comes for an outstanding operation, and once for each. *)
Inductive callback (s : S3Request) : S3Request -> Prop :=
  | call_run env : task_ s = true -> callback s (acquire (s <| task_ := false |>) env)
  | call_cancel_queued : task_ s = true -> callback s (fail (s <| task_ := false |>) ECANCELED)
  | call_wait res env : wait_ s = true -> callback s (available (s <| wait_ := false |>) res env)
  | call_credentials res env :
      credentials_wait_ s = true -> callback s (available (s <| credentials_wait_ := false |>) res env)
  | call_received env value error : http_ s = true -> callback s (received s env value error).

Inductive request_step (s : S3Request) : S3Request -> Prop :=
  | req_start posted : request_step s (start s posted).1
  | req_cancel : request_step s (cancel s)
  | req_callback s' : callback s s' -> request_step s s'.

Inductive request_run : S3Request -> Prop :=
  | req_new hs range directory max lease bulk mode :
      0 <= max -> request_run (make_S3Request hs range directory max lease bulk mode)
  | req_next s s' : request_run s -> request_step s s' -> request_run s'.

(** ** The invariant *)

(** Inside a callback: nothing is outstanding but perhaps the HTTP operation. *)
Record settling (s : S3Request) : Prop := {
  se_complete : complete_ s = true;
  se_completions : completions s = [];
  se_started : started_ s = true;
  se_task : task_ s = false;
  se_wait : wait_ s = false;
  se_credentials : credentials_wait_ s = false;
  se_pool : pool_wait_ s = false;
  se_waiters : waiters s = 0;
  se_attempt : 0 <= attempt_ s < max_attempts_ s;
  se_sent : 0 <= sent s <= attempt_ s + 1 }.

(** About to send the attempt. *)
Record idle (s : S3Request) : Prop := {
  id_settling : settling s;
  id_sent : sent s <= attempt_ s;
  id_http : http_ s = false;
  id_published : published_once s = false }.

Definition outstanding (s : S3Request) : Z :=
  Z.b2z (task_ s) + Z.b2z (wait_ s) + Z.b2z (credentials_wait_ s) + Z.b2z (http_ s).

Record running (s : S3Request) : Prop := {
  ru_complete : complete_ s = true;
  ru_completions : completions s = [];
  ru_started : started_ s = true;
  ru_one : outstanding s = 1;
  ru_pool : pool_wait_ s = true -> wait_ s = true;
  ru_waiters : waiters s = Z.b2z (pool_wait_ s);
  ru_lease : lease_ s = true -> http_ s = true \/ task_ s = true;
  ru_resign : resign_ s = true -> lease_ s = false;
  ru_attempt : 0 <= attempt_ s < max_attempts_ s;
  ru_sent : 0 <= sent s <= attempt_ s + Z.b2z (http_ s);
  ru_published : published_once s = false }.

(** The result that was delivered is final. *)
Definition final (s : S3Request) (r : result Response) : Prop :=
  forall value, r = Ok value ->
    published_once s = true \/ retryable_response xml_error_code value = false \/ max_attempts_ s <= attempt_ s + 1.

Record finished (s : S3Request) : Prop := {
  fi_complete : complete_ s = false;
  fi_one : exists r, completions s = [r] /\ final s r;
  fi_nothing : outstanding s = 0;
  fi_pool : pool_wait_ s = false;
  fi_waiters : waiters s = 0;
  fi_lease : lease_ s = false;
  fi_sent : 0 <= sent s <= max_attempts_ s }.

Record fresh (s : S3Request) : Prop := {
  fr_complete : complete_ s = true;
  fr_completions : completions s = [];
  fr_started : started_ s = false;
  fr_nothing : outstanding s = 0;
  fr_pool : pool_wait_ s = false;
  fr_waiters : waiters s = 0;
  fr_resign : resign_ s = false;
  fr_attempt : attempt_ s = 0 /\ 0 <= max_attempts_ s;
  fr_sent : sent s = 0;
  fr_published : published_once s = false }.

Definition request_inv (s : S3Request) : Prop := fresh s \/ running s \/ finished s.

Ltac open_request s := destruct s; cbn in *; subst.

Lemma finish_finished s r : settling s -> final s r -> finished (finish s r).
Proof. intros [] Hf. open_request s. split; cbn; [done|by exists r|done..|lia]. Qed.

Lemma fail_finished s e : settling s -> finished (fail s e).
Proof. intros. by apply finish_finished. Qed.

Lemma wait_retry_inv s env ms : idle s -> lease_ s = false -> request_inv (wait_retry s env ms).
Proof.
  intros [S ? Hh ?] Hl. unfold wait_retry.
  assert (settling (s <| timer_ := true |>)) by (destruct S; by split).
  assert (running (s <| timer_ := true |> <| timer_ns := Z.max 1 (u64 (ms * 1000000)) |> <| wait_ := true |>)).
  { destruct S. open_request s. split; cbn; try done; lia. }
  unfold request_inv. repeat case_match; right; auto using fail_finished.
Qed.

(** ** Every callback keeps it *)

Lemma received_inv s env value error :
  settling s -> published_once s = false -> request_inv (received s env value error).
Proof.
  intros S Hp. unfold received. cbn zeta.
  set (s1 := s <| ambiguous_ := _ |> <| http_ := false |> <| lease_ := false |> <| published_once := _ |>).
  assert (S1 : settling s1) by (destruct S; by split).
  assert (Hpo : published_once s1 = published s env) by (unfold s1; cbn; by rewrite Hp).
  change (cancelled_ s1) with (cancelled_ s).
  destruct (cancelled_ s); [right; right; by apply fail_finished|].
  set (resign := negb (published s env) && _ && _). set (retry := _ || resign).
  set (s2 := if resign then _ else s1).
  assert (S2 : settling s2 /\ published_once s2 = published_once s1 /\ http_ s2 = false /\ lease_ s2 = false)
    by (unfold s2; destruct resign; (split; [destruct S1; by split|done])).
  destruct S2 as (S2 & Hp2 & Hh2 & Hl2). rewrite Hpo in Hp2.
  destruct (published s env || _ || _) eqn:Eend.
  - right. right. apply finish_finished; [done|]. intros v Hv. destruct error as [e|]; [done|]. injection Hv as <-.
    rewrite Hp2. apply orb_true_iff in Eend as [[?|E]%orb_true_iff|E]; [by left| |right; right; by apply Z.leb_le].
    right. left. cbn in E. unfold retry in E. by destruct (retryable_response _ _).
  - apply orb_false_iff in Eend as [[Epub _]%orb_false_iff Emax]. apply Z.leb_gt in Emax.
    apply wait_retry_inv; [|done]. destruct S2 as [? ? ? ? ? ? ? ? ? ?]. split; [split| | |]; cbn; try done; try lia.
    by rewrite Hp2.
Qed.

Lemma send_inv s env : idle s -> resign_ s = false -> request_inv (send s env).
Proof.
  intros [S ? ? Hp] Hr. unfold send. destruct (make_request env); [|by apply received_inv].
  right. left. destruct S. open_request s. split; cbn; try done; lia.
Qed.

Lemma lease_and_send_inv s env : idle s -> resign_ s = false -> request_inv (lease_and_send s env).
Proof.
  intros I Hr. unfold lease_and_send. cbn zeta.
  assert (Hset : forall b, idle (s <| lease_ := b |>)) by (intros b; destruct I as [[] ? ? ?]; split; by try split).
  destruct (lease_ s) eqn:Hl; [rewrite Hl; by apply send_inv|]. cbn.
  destruct (first_lease env); [by apply send_inv; [apply Hset|]|]. destruct (second_lease env).
  - apply send_inv; [|done]. destruct I as [[] ? ? ?]. split; [split| | |]; cbn; try done; lia.
  - destruct (wait_submit env) as [e|].
    + right. right. apply fail_finished. destruct I as [[] ? ? ?]. split; cbn; try done; lia.
    + right. left. destruct I as [[] ? ? ?]. open_request s. split; cbn; try done; lia.
Qed.

Lemma acquire_inv s env : idle s -> (resign_ s = true -> lease_ s = false) -> request_inv (acquire s env).
Proof.
  intros I Hl. unfold acquire. pose proof (id_settling _ I) as S.
  destruct (cancelled_ s); [right; right; by apply fail_finished|].
  destruct (resign_ s) eqn:Hr; [|by apply lease_and_send_inv].
  destruct (auth env) as [hs| |e].
  - apply lease_and_send_inv; [|done]. destruct I as [[] ? ? ?]. split; by try split.
  - destruct (credentials_start env); [|right; right; by apply fail_finished|right; right; by apply finish_finished].
    right. left. specialize (Hl eq_refl). destruct I as [[] ? ? ?]. open_request s. split; cbn; try done; lia.
  - apply received_inv; [done|apply I].
Qed.

(** A callback finds the request running, with its own operation the outstanding one. *)
Lemma callback_running s s' : request_inv s -> callback s s' -> running s.
Proof.
  intros [[]|[?|[]]] C; [|done|]; exfalso; unfold outstanding in *; inversion C as [? H|H|? ? H|? ? H|? ? ? H]; rewrite H in *;
    destruct (task_ s), (wait_ s), (credentials_wait_ s), (http_ s); cbn in *; lia.
Qed.

Lemma available_inv s res env :
  let s1 := s <| waiters := 0 |> <| pool_wait_ := false |> in
  idle s1 -> waiters s = Z.b2z (pool_wait_ s) -> (resign_ s = true -> lease_ s = false) -> request_inv (available s res env).
Proof.
  intros s1 I Hw Hr. unfold available. cbn zeta.
  assert (E : (if pool_wait_ s then s <| waiters := waiters s - 1 |> <| pool_wait_ := false |> else s) = s1).
  { unfold s1. destruct s. cbn in *. subst. by destruct pool_wait_0. }
  rewrite E. destruct (_ || _); [right; right; apply fail_finished, I|by apply acquire_inv].
Qed.

Lemma callback_inv s s' : request_inv s -> callback s s' -> request_inv s'.
Proof.
  intros Hinv C. pose proof (callback_running s s' Hinv C) as [? ? ? Hone Hpool Hw Hlease Hres Hat Hse Hpub].
  unfold outstanding in Hone.
  assert (Hothers : forall b c d : bool, 1 + Z.b2z b + Z.b2z c + Z.b2z d = 1 -> b = false /\ c = false /\ d = false)
    by (intros [] [] []; cbn; lia || done).
  destruct C as [env H|H|res env H|res env H|env value error H]; rewrite H in Hone; cbn [Z.b2z] in Hone.
  - destruct (Hothers (wait_ s) (credentials_wait_ s) (http_ s) ltac:(lia)) as (E1 & E2 & E3).
    destruct (pool_wait_ s) eqn:Ep; [by rewrite (Hpool eq_refl) in E1|]. rewrite E3 in Hse.
    apply acquire_inv; [|done]. split; [split| | |]; cbn in *; try done; lia.
  - destruct (Hothers (wait_ s) (credentials_wait_ s) (http_ s) ltac:(lia)) as (E1 & E2 & E3).
    destruct (pool_wait_ s) eqn:Ep; [by rewrite (Hpool eq_refl) in E1|]. rewrite E3 in Hse.
    right. right. apply fail_finished. split; cbn in *; try done; lia.
  - destruct (Hothers (task_ s) (credentials_wait_ s) (http_ s) ltac:(lia)) as (E1 & E2 & E3). rewrite E3 in Hse.
    apply available_inv; [|done..]. split; [split| | |]; cbn in *; try done; lia.
  - destruct (Hothers (task_ s) (wait_ s) (http_ s) ltac:(lia)) as (E1 & E2 & E3). rewrite E3 in Hse.
    apply available_inv; [|done..]. split; [split| | |]; cbn in *; try done; lia.
  - destruct (Hothers (task_ s) (wait_ s) (credentials_wait_ s) ltac:(lia)) as (E1 & E2 & E3). rewrite H in Hse.
    destruct (pool_wait_ s) eqn:Ep; [by rewrite (Hpool eq_refl) in E2|].
    apply received_inv; [|done]. split; cbn in *; try done; lia.
Qed.

Lemma request_start_inv s posted : request_inv s -> request_inv (start s posted).1.
Proof.
  intros I. unfold start. destruct (started_ s || negb (complete_ s) || (max_attempts_ s =? 0)) eqn:E; [done|].
  destruct posted; [|done]. apply orb_false_iff in E as [[Es Ec]%orb_false_iff Em]. apply Z.eqb_neq in Em.
  destruct I as [F|[R|D]]; [|by rewrite (ru_started _ R) in Es|by rewrite (fi_complete _ D) in Ec].
  right. left. destruct F as [? ? ? Hn Hp Hw Hr [? ?] ? ?]. unfold outstanding in Hn.
  split; cbn; rewrite ?Hp, ?Hw, ?Hr; try done; try lia; try (intros; by right).
  all: unfold outstanding; cbn; destruct (task_ s), (wait_ s), (credentials_wait_ s), (http_ s); cbn in *; lia.
Qed.

Lemma request_run_inv s : request_run s -> request_inv s.
Proof.
  induction 1 as [hs range directory max lease bulk mode|s s' _ IH [posted| |s1 C]].
  - left. by split.
  - by apply request_start_inv.
  - destruct IH as [[]|[[]|[]]]; [left|right; left|right; right]; by split.
  - by eapply callback_inv.
Qed.

(** ** Cancellation *)

Lemma finish_result s r : completions (finish s r) = completions s ++ [r].
Proof. done. Qed.

(** After [cancel] the next callback ends the request. *)
Lemma cancelled_callback s s' :
  request_inv s -> cancelled_ s = true -> callback s s' -> completions s' = [Throw (SystemError ECANCELED)].
Proof.
  intros Hinv Hc C. pose proof (ru_completions _ (callback_running s s' Hinv C)) as E.
  destruct C as [env _|_|res env _|res env _|env value error _]; unfold acquire, available, received; cbn zeta; cbn -[fail].
  all: try (destruct (pool_wait_ s)); cbn -[fail]; rewrite ?Hc, ?orb_true_r; unfold fail, finish; cbn; by rewrite E.
Qed.

End Request.

(** ** Theorem *)

(** C17: whatever the pool, the server, the credentials and the system calls answer, an
    asynchronous request that was started has exactly one operation outstanding until it
    completes, and completes at most once; then nothing is outstanding, its connection and its
    place among the pool's waiters are given back.  It starts at most [max_attempts_] HTTP
    operations and none after range data was published; while it waits for a timer, for
    credentials or for a connection it holds no connection.  A response it delivers needs no
    retry, had published data, or was that of the last attempt.  After [cancel] the next
    callback completes it with [ECANCELED]. *)
Theorem async_request_correct xml_error_code s :
  request_run xml_error_code s ->
  (started_ s = true -> completions s = [] -> outstanding s = 1) /\
  (completions s <> [] -> exists r, completions s = [r] /\ final xml_error_code s r /\
     outstanding s = 0 /\ lease_ s = false /\ waiters s = 0) /\
  waiters s = Z.b2z (pool_wait_ s) /\ sent s <= max_attempts_ s /\
  (published_once s = true -> completions s <> []) /\
  (started_ s = true -> lease_ s = true -> http_ s = true \/ task_ s = true) /\
  (forall s', cancelled_ s = true -> callback xml_error_code s s' -> completions s' = [Throw (SystemError ECANCELED)]).
Proof.
  intros R. pose proof (request_run_inv _ _ R) as I. pose proof (cancelled_callback xml_error_code s) as Hc.
  split_and!; [..|by intros s' ??; apply Hc].
  all: destruct I as [[? Hco ? ? Hp ? ? [? ?] ? Hpub]|[[? Hco ? ? ? ? ? ? ? [? Hse] Hpub]|[? (r & Hco & Hf) ? Hp ? ? ?]]].
  all: try rewrite Hco; try congruence; try done.
  all: try (intros _; exists r; by split_and!).
  all: try (rewrite ?Hp; cbn; lia).
  destruct (http_ s); cbn in Hse; lia.
Qed.

(** A range request whose first answer refuses the unsigned range header, and which is signed
    and sent again. *)
Definition sample_received : ReceivedEnv := mkReceivedEnv 403 0 (Some 0) 0 None None None.
Definition sample_acquire : AcquireEnv :=
  mkAcquireEnv (Signed [(lit "authorization", lit "AWS4 SignedHeaders=host;range,Signature=0")]) CredentialsSubmitted
    false true None (Ok tt) sample_received.
Definition sample_new : S3Request :=
  make_S3Request [(lit "authorization", lit "AWS4 SignedHeaders=host,Signature=0")] true false 4 false false 0.
Definition sample_posted : S3Request := (start sample_new true).1.
Definition sample_sending : S3Request := acquire sample_xml (sample_posted <| task_ := false |>) sample_acquire.
Definition sample_refused : S3Request := received sample_xml sample_sending sample_received (mkResponse 403 [] []) None.
Definition sample_resent : S3Request := available sample_xml (sample_refused <| wait_ := false |>) 8 sample_acquire.

Lemma sample_resent_run : request_run sample_xml sample_resent.
Proof.
  eapply (req_next _ sample_refused); [|apply req_callback, call_wait; by vm_compute].
  eapply (req_next _ sample_sending); [|apply req_callback, call_received; by vm_compute].
  eapply (req_next _ sample_posted); [|apply req_callback, call_run; by vm_compute].
  eapply (req_next _ sample_new); [|apply req_start]. by apply req_new.
Qed.

Lemma async_request_correct_witness :
  sent sample_resent = 2 /\ timer_ns sample_refused = 25000000 /\ signed_range (arg_headers sample_resent) = true /\
  outstanding sample_resent = 1.
Proof.
  split; [vm_compute; reflexivity|]. split; [vm_compute; reflexivity|]. split; [vm_compute; reflexivity|].
  apply (async_request_correct sample_xml sample_resent sample_resent_run); vm_compute; reflexivity.
Defined.
