(* ===== verification/Express.v ===== *)
(** * S3 Express sessions

    Directory buckets are used through a session that is created by a signed request and
    expires after five minutes ([fuse.cpp]).  Threads create or wait for it in
    [ensure_express_session]; on a reactor an [AsyncExpressSession] enters a list of waiters and
    the first one sends the request.  The steps are the critical sections of
    [credentials_mutex]; what the request brings is an argument.  Each caller of
    [ensure_express_session] and each [AsyncExpressSession] has a number of its own. *)

From S2P Require Import Prelude StdText.

Inductive Who := Thread (id : Z) | Session (id : Z).

(** A refresh is one of [ensure_express_session] or of [begin_refresh]; it has installed the
    new credentials or not yet. *)
Inductive Refresh := Requesting (who : Who) | Installed (who : Who).

Record Express := mkExpress {
  access_key_id : bytes;          (* of express_credentials *)
  express_expiration_ns : Z;
  express_refreshing : bool;
  express_async_waiters : list Z; (* the sessions in the list, first one first *)
  (* who is where outside the critical sections *)
  asleep : list Z;                (* threads in credentials_condition.wait *)
  woken : list Z;                 (* threads that a notification has woken *)
  base_waits : list Z;            (* sessions that wait for base credentials *)
  refreshes : list Refresh;
  returned : list Z;              (* threads that have returned or thrown *)
  completed : list (Z * option exn) }.

#[export] Instance Express_settable : Settable Express := fun s =>
  mkExpress (access_key_id s) (express_expiration_ns s) (express_refreshing s) (express_async_waiters s) (asleep s)
    (woken s) (base_waits s) (refreshes s) (returned s) (completed s).

Definition new_express : Express := mkExpress [] 0 false [] [] [] [] [] [] [].

(** [15ULL * 1'000'000'000ULL] and [285ULL * 1'000'000'000ULL]. *)
Definition margin_ns : Z := 15000000000.
Definition lifetime_ns : Z := 285000000000.

(** More than the margin is left at time [now]. *)
Definition session_current (s : Express) (now : Z) : bool :=
  negb (bool_decide (access_key_id s = [])) && (u64 (now + margin_ns) <? express_expiration_ns s).

(** [AsyncExpressSession::ready] of a directory bucket. *)
Definition session_ready (s : Express) (now : Z) : bool :=
  negb (express_refreshing s) && session_current s now && negb (now =? 0).

(** The choice of [authorization_headers] on a reactor. *)
Definition reactor_credentials (s : Express) (now : Z) : result bytes :=
  if express_refreshing s || bool_decide (access_key_id s = []) || (express_expiration_ns s <=? u64 (now + margin_ns))
  then Throw (SystemError EAGAIN) else Ok (access_key_id s).

Definition invalidate_express_session (s : Express) : Express := s <| express_expiration_ns := 0 |>.

(** ** Threads *)

(** The critical section of [ensure_express_session], on entry and after a wake-up; [now] is
    the time of the call. *)
Definition ensure_section (s : Express) (id now : Z) : Express :=
  if express_refreshing s then s <| asleep := id :: asleep s |>
  else if session_current s now then s <| returned := id :: returned s |>
  else s <| express_refreshing := true |> <| refreshes := Requesting (Thread id) :: refreshes s |>.

(** ** Sessions *)

Definition complete_session (s : Express) (id : Z) (error : option exn) : Express :=
  s <| completed := (id, error) :: completed s |>.

(** What [state_.credentials.get()] and the wait for it give. *)
Inductive Base := BaseOk | BasePending (submitted : result unit) | BaseThrows (e : exn).

Definition enter (s : Express) (id : Z) (cancelled : bool) (base : Base) (now : Z) : Express :=
  if cancelled then complete_session s id (Some (SystemError ECANCELED))
  else
    match base with
    | BaseThrows e => complete_session s id (Some e)
    | BasePending (Throw e) => complete_session s id (Some e)
    | BasePending (Ok _) => s <| base_waits := id :: base_waits s |>
    | BaseOk =>
        if session_current s now && negb (now =? 0) then complete_session s id None
        else
          let s := s <| express_async_waiters := id :: express_async_waiters s |> in
          if express_refreshing s then s
          else s <| express_refreshing := true |> <| refreshes := Requesting (Session id) :: refreshes s |>
    end.

(** What [ready_task] reports. *)
Definition session_result (cancelled : bool) (error : option exn) : option exn :=
  match error with
  | Some e => Some e
  | None => if cancelled then Some (SystemError ECANCELED) else None
  end.

(** ** The end of a refresh *)

Definition install (s : Express) (key : bytes) (now : Z) : Express :=
  s <| access_key_id := key |> <| express_expiration_ns := u64 (now + lifetime_ns) |>.

Definition finish_async_express_waiters (s : Express) (error : option exn) : Express :=
  s <| express_refreshing := false |> <| express_async_waiters := [] |>
    <| asleep := [] |> <| woken := asleep s ++ woken s |>
    <| completed := rev (map (fun id => (id, error)) (express_async_waiters s)) ++ completed s |>.

(** A thread that has refreshed returns or throws. *)
Definition leave (s : Express) (who : Who) : Express :=
  match who with Thread id => s <| returned := id :: returned s |> | Session _ => s end.

Definition drop_refresh (s : Express) (before behind : list Refresh) : Express := s <| refreshes := before ++ behind |>.

(** ** Runs *)

(** [threads] and [sessions] are those that have entered. *)
Inductive express_run : list Z -> list Z -> Express -> Prop :=
  | ex_new key expiration : express_run [] [] (new_express <| access_key_id := key |> <| express_expiration_ns := expiration |>)
  | ex_thread ts ss s id now : express_run ts ss s -> express_run (id :: ts) ss (ensure_section s id now)
  | ex_woken ts ss s a id b now :
      express_run ts ss s -> woken s = a ++ id :: b -> express_run ts ss (ensure_section (s <| woken := a ++ b |>) id now)
  | ex_spurious ts ss s a id b now :
      express_run ts ss s -> asleep s = a ++ id :: b -> express_run ts ss (ensure_section (s <| asleep := a ++ b |>) id now)
  | ex_enter ts ss s id cancelled base now :
      express_run ts ss s -> express_run ts (id :: ss) (enter s id cancelled base now)
  | ex_base_ready ts ss s a id b cancelled base now :
      express_run ts ss s -> base_waits s = a ++ id :: b ->
      express_run ts ss (enter (s <| base_waits := a ++ b |>) id cancelled base now)
  | ex_base_failed ts ss s a id b e :
      express_run ts ss s -> base_waits s = a ++ id :: b ->
      express_run ts ss (complete_session (s <| base_waits := a ++ b |>) id (Some e))
  | ex_install ts ss s a who b key now :
      express_run ts ss s -> refreshes s = a ++ Requesting who :: b -> key <> [] ->
      express_run ts ss (install (s <| refreshes := a ++ Installed who :: b |>) key now)
  | ex_finish ts ss s a who b :
      express_run ts ss s -> refreshes s = a ++ Installed who :: b ->
      express_run ts ss (leave (finish_async_express_waiters (drop_refresh s a b) None) who)
  | ex_fail ts ss s a who b e :
      express_run ts ss s -> refreshes s = a ++ Requesting who :: b ->
      express_run ts ss (leave (finish_async_express_waiters (drop_refresh s a b) (Some e)) who)
  | ex_invalidate ts ss s : express_run ts ss s -> express_run ts ss (invalidate_express_session s).

(** ** The invariant *)

Definition who_of (r : Refresh) : Who := match r with Requesting w | Installed w => w end.
Definition refreshing_threads (s : Express) : list Z :=
  omap (fun r => match who_of r with Thread id => Some id | Session _ => None end) (refreshes s).

Record express_inv (ts ss : list Z) (s : Express) : Prop := {
  ei_one : if express_refreshing s then exists r, refreshes s = [r] else refreshes s = [];
  ei_waiters : express_refreshing s = false -> express_async_waiters s = [] /\ asleep s = [];
  ei_threads : ts ≡ₚ asleep s ++ woken s ++ refreshing_threads s ++ returned s;
  ei_sessions : ss ≡ₚ base_waits s ++ express_async_waiters s ++ map fst (completed s);
  ei_refresher : forall id, Session id ∈ map who_of (refreshes s) -> id ∈ express_async_waiters s }.

(** The lists of those who have entered matter up to their order. *)
#[export] Instance express_inv_perm : Proper ((≡ₚ) ==> (≡ₚ) ==> eq ==> iff) express_inv.
Proof.
  assert (H : forall ts ts' ss ss' s, ts ≡ₚ ts' -> ss ≡ₚ ss' -> express_inv ts ss s -> express_inv ts' ss' s).
  { intros ts ts' ss ss' s Ht Hs []. split; try done; [by rewrite <-Ht|by rewrite <-Hs]. }
  intros ts ts' Ht ss ss' Hs s ? <-. split; by apply H.
Qed.

Lemma ensure_inv ts ss s id now : express_inv ts ss s -> express_inv (id :: ts) ss (ensure_section s id now).
Proof.
  intros [H1 H2 H3 H4 H5]. unfold ensure_section. destruct (express_refreshing s) eqn:E.
  - split; cbn; rewrite ?E; try done. by rewrite H3.
  - destruct (session_current s now).
    + split; cbn; rewrite ?E; try done. rewrite H3. solve_Permutation.
    + destruct (H2 eq_refl) as [Hw Ha]. split; cbn; try done; [by exists (Requesting (Thread id)); rewrite H1| |].
      * unfold refreshing_threads in *. cbn. rewrite H3. solve_Permutation.
      * intros id'. rewrite H1. cbn. set_solver.
Qed.

(** A thread that wakes up leaves its list and enters again. *)
Lemma resume_inv ts ss s id now sl wk :
  express_inv ts ss s -> asleep s ++ woken s ≡ₚ id :: sl ++ wk -> (express_refreshing s = false -> sl = []) ->
  express_inv ts ss (ensure_section (s <| asleep := sl |> <| woken := wk |>) id now).
Proof.
  intros [H1 H2 H3 H4 H5] Hp Ha.
  assert (E : ts ≡ₚ id :: sl ++ wk ++ refreshing_threads s ++ returned s) by (rewrite H3, app_assoc, Hp; solve_Permutation).
  rewrite E. apply ensure_inv. split; cbn; try done. intros Hr. by destruct (H2 Hr), (Ha Hr).
Qed.

Lemma enter_inv ts ss s id cancelled base now :
  express_inv ts ss s -> express_inv ts (id :: ss) (enter s id cancelled base now).
Proof.
  intros [H1 H2 H3 H4 H5]. unfold enter, complete_session.
  assert (Hdone : forall e, express_inv ts (id :: ss) (s <| completed := (id, e) :: completed s |>)).
  { intros e. split; cbn; try done. rewrite H4. solve_Permutation. }
  destruct cancelled; [done|]. destruct base as [|[?|?]|?]; [|split; cbn; try done; by rewrite H4|done..].
  destruct (session_current s now && _); [done|]. cbn.
  destruct (express_refreshing s) eqn:E; cbn.
  - split; cbn; rewrite ?E; try done.
    + rewrite H4. solve_Permutation.
    + intros id' Hin. apply H5 in Hin. set_solver.
  - split; cbn; try done; [by exists (Requesting (Session id)); rewrite H1| |].
    + rewrite H4. solve_Permutation.
    + intros id'. rewrite H1. cbn. set_solver.
Qed.

(** A session whose wait for base credentials has ended enters again or fails. *)
Lemma base_wait_inv ts ss s a id b cancelled base now :
  express_inv ts ss s -> base_waits s = a ++ id :: b ->
  express_inv ts ss (enter (s <| base_waits := a ++ b |>) id cancelled base now).
Proof.
  intros [H1 H2 H3 H4 H5] E.
  assert (Hs : ss ≡ₚ id :: (a ++ b) ++ express_async_waiters s ++ map fst (completed s))
    by (rewrite H4, E; solve_Permutation).
  rewrite Hs. apply enter_inv. by split.
Qed.

(** The end of the refresh [r], successful or not. *)
Lemma express_finish_inv ts ss s a r b error :
  express_inv ts ss s -> refreshes s = a ++ r :: b ->
  express_inv ts ss (leave (finish_async_express_waiters (drop_refresh s a b) error) (who_of r)).
Proof.
  intros [H1 H2 H3 H4 H5] Hr.
  assert (a = [] /\ b = []) as [-> ->].
  { destruct (express_refreshing s).
    - destruct H1 as [r' E]. rewrite Hr in E. by apply app_singleton in E as [[-> ?]|[? ?]]; simplify_eq.
    - rewrite H1 in Hr. by destruct a. }
  assert (Hs : ss ≡ₚ base_waits s ++ [] ++ map fst (rev (map (fun id => (id, error)) (express_async_waiters s)) ++ completed s)).
  { rewrite H4, map_app, map_rev, map_map. cbn. by rewrite map_id, <-Permutation_rev. }
  unfold refreshing_threads in H3. rewrite Hr in H3. cbn in H3.
  destruct r as [[id|id]|[id|id]]; (split; cbn in *; [done|done|rewrite H3; solve_Permutation|exact Hs|]);
    intros id' []%not_elem_of_nil.
Qed.

Lemma express_run_inv ts ss s : express_run ts ss s -> express_inv ts ss s.
Proof.
  induction 1 as [key expiration|ts ss s id now _ IH|ts ss s a id b now _ IH E|ts ss s a id b now _ IH E
    |ts ss s id cancelled base now _ IH|ts ss s a id b cancelled base now _ IH E|ts ss s a id b e _ IH E
    |ts ss s a who b key now _ IH E Hk|ts ss s a who b _ IH E|ts ss s a who b e _ IH E|ts ss s _ IH].
  - split; cbn; try done; set_solver.
  - by apply ensure_inv.
  - assert (Es : s <| woken := a ++ b |> = s <| asleep := asleep s |> <| woken := a ++ b |>) by (by destruct s).
    rewrite Es. apply resume_inv; [done|rewrite E; solve_Permutation|]. intros Hr. by destruct (ei_waiters _ _ _ IH Hr).
  - assert (Es : s <| asleep := a ++ b |> = s <| asleep := a ++ b |> <| woken := woken s |>) by (by destruct s).
    rewrite Es. apply resume_inv; [done|rewrite E; solve_Permutation|].
    intros Hr. destruct (ei_waiters _ _ _ IH Hr) as [_ Ha]. rewrite E in Ha. by destruct a.
  - by apply enter_inv.
  - by apply base_wait_inv.
  - exact (base_wait_inv ts ss s a id b false (BaseThrows e) 0 IH E).
  - destruct IH as [H1 H2 H3 H4 H5]. unfold refreshing_threads in *. rewrite E, omap_app in H3. rewrite E, map_app in H5.
    split; cbn; try done.
    + destruct (express_refreshing s); [|by rewrite H1 in E; destruct a].
      destruct H1 as [r Hr]. rewrite E in Hr. apply app_singleton in Hr as [[-> Hr]|[_ ?]]; [|done].
      injection Hr as _ ->. by eexists.
    + unfold refreshing_threads. cbn. by rewrite omap_app.
    + intros id. rewrite map_app. cbn. apply H5.
  - exact (express_finish_inv ts ss s a (Installed who) b None IH E).
  - exact (express_finish_inv ts ss s a (Requesting who) b (Some e) IH E).
  - destruct IH. by split.
Qed.

Lemma ready_credentials s now : session_ready s now = true -> reactor_credentials s now = Ok (access_key_id s).
Proof.
  unfold session_ready, session_current, reactor_credentials. intros H.
  apply andb_true_iff in H as [[Hr [Hk He]%andb_true_iff]%andb_true_iff _].
  destruct (express_refreshing s); [done|]. destruct (bool_decide (access_key_id s = [])); [done|].
  apply Z.ltb_lt in He. cbn. destruct (Z.leb_spec (express_expiration_ns s) (u64 (now + margin_ns))); [lia|done].
Qed.

Lemma installed_current s key now later :
  key <> [] -> 0 <= now -> now <= later < now + (lifetime_ns - margin_ns) -> later + lifetime_ns < 2 ^ 64 ->
  session_current (install s key now) later = true.
Proof.
  intros Hk ???. unfold session_current, install, lifetime_ns, margin_ns in *.
  cbn. rewrite bool_decide_eq_false_2 by done. rewrite !u64_small by lia. apply Z.ltb_lt. lia.
Qed.

(** ** Theorem *)

(** C18: however threads and sessions meet, at most one refresh of the session is under way, and
    one is whenever [express_refreshing] is set, a session is in the list of waiters or a thread
    sleeps, so nobody waits for a refresh that nobody makes; the refreshing session is itself
    in the list.  Every session that entered waits in exactly one place or has completed once,
    and every thread sleeps, is about to run, refreshes or has returned.  On a reactor a request
    that finds the session ready is given its credentials, and a session that was just created
    is usable for 270 seconds. *)
Theorem express_session_correct ts ss s :
  express_run ts ss s ->
  (if express_refreshing s then exists r, refreshes s = [r] else refreshes s = []) /\
  (express_async_waiters s <> [] \/ asleep s <> [] -> exists r, refreshes s = [r]) /\
  (forall id, Session id ∈ map who_of (refreshes s) -> id ∈ express_async_waiters s) /\
  ss ≡ₚ base_waits s ++ express_async_waiters s ++ map fst (completed s) /\
  ts ≡ₚ asleep s ++ woken s ++ refreshing_threads s ++ returned s /\
  (forall now, session_ready s now = true -> reactor_credentials s now = Ok (access_key_id s)) /\
  (forall key now later, key <> [] -> 0 <= now -> now <= later < now + (lifetime_ns - margin_ns) ->
     later + lifetime_ns < 2 ^ 64 -> session_current (install s key now) later = true).
Proof.
  intros R. pose proof (express_run_inv _ _ _ R) as [H1 H2 H3 H4 H5].
  split_and!; try done; [|intros; by apply ready_credentials|intros; by apply installed_current].
  intros Hw. destruct (express_refreshing s); [done|]. destruct (H2 eq_refl). tauto.
Qed.

(** Session 1 refreshes while session 2 and thread 3 wait; the request fails. *)
Definition sample_waiting : Express :=
  ensure_section (enter (enter new_express 1 false BaseOk 5) 2 false BaseOk 6) 3 7.
Definition sample_failed : Express :=
  leave (finish_async_express_waiters (drop_refresh sample_waiting [] []) (Some RuntimeError)) (Session 1).

Lemma sample_waiting_run : express_run [3] [2; 1] sample_waiting.
Proof. apply ex_thread, ex_enter, ex_enter, (ex_new [] 0). Qed.

Lemma express_session_correct_witness :
  asleep sample_waiting = [3] /\ completed sample_failed = [(1, Some RuntimeError); (2, Some RuntimeError)] /\
  exists r, refreshes sample_waiting = [r].
Proof.
  split; [reflexivity|]. split; [reflexivity|].
  apply (express_session_correct [3] [2; 1] sample_waiting sample_waiting_run). left. discriminate.
Defined.
