(* ===== verification/CredentialSource.v ===== *)
(** * Where credentials come from

    The sources of [credentials.cpp]: endpoint URLs and the rule for plaintext ones, profile
    files, the order in which [discover] tries the sources, and the requests the container and
    metadata services are sent.  JSON and XML documents are read by libraries, whose results
    are parameters; HTTP replies come from an oracle, and every request made is recorded. *)

From S2P Require Import Prelude StdText Calendar Checksum S3Text SigV4 Http1Request Retry.

Definition credential_trim (s : bytes) : bytes := rev (trim_front (rev (trim_front s))).

Definition has_line_break (s : bytes) : bool := has_char CR s || has_char LF s.

Definition validate_credentials (c : Credentials) : result unit :=
  if bool_decide (access_key_id c = []) || bool_decide (secret_access_key c = []) then Throw RuntimeError
  else if has_line_break (access_key_id c) || has_line_break (session_token c) then Throw RuntimeError
  else Ok tt.

(** ** Endpoints *)

Record CredentialEndpoint := mkEndpoint { ep_host : bytes; ep_authority : bytes; ep_path : bytes; ep_port : Z; ep_tls : bool }.

(** The part of the URL behind the scheme. *)
Definition endpoint_scheme (url : bytes) : result (bool * Z * bytes) :=
  if starts_with (lit "https://") url then Ok (true, 443, drop_z 8 url)
  else if starts_with (lit "http://") url then Ok (false, 80, drop_z 7 url)
  else Throw RuntimeError.

(** The host and the port text of an authority. *)
Definition split_authority (authority : bytes) : result (bytes * bytes) :=
  if starts_with (lit "[") authority then
    match find_char "]" authority with
    | None => Throw RuntimeError
    | Some close =>
        let host := substr authority 1 (close - 1) in
        if close + 1 <? vsize authority then
          if negb (ascii_eqb (at_z authority (close + 1)) ":") then Throw RuntimeError
          else Ok (host, drop_z (close + 2) authority)
        else Ok (host, [])
    end
  else
    match rfind_char ":" authority with
    | Some colon => Ok (take_z colon authority, drop_z (colon + 1) authority)
    | None => Ok (authority, [])
    end.

Definition endpoint_port (default : Z) (port : bytes) : result Z :=
  match port with
  | [] => Ok default
  | _ =>
      match from_chars_all UINT32_MAX port with
      | Some value => if (value =? 0) || (65535 <? value) then Throw RuntimeError else Ok value
      | None => Throw RuntimeError
      end
  end.

Definition parse_credential_endpoint (url : bytes) : result CredentialEndpoint :=
  let? '(tls, port, url) := endpoint_scheme url in
  let '(authority, path) := match find_char "/" url with
                            | Some slash => (take_z slash url, drop_z slash url)
                            | None => (url, lit "/")
                            end in
  if bool_decide (authority = []) || has_char "@" authority || has_char "?" authority || has_char "#" authority ||
     has_char "#" path
  then Throw RuntimeError
  else
    let? '(host, port_text) := split_authority authority in
    if bool_decide (host = []) then Throw RuntimeError
    else
      let? port := endpoint_port port port_text in
      Ok (mkEndpoint host authority path port tls).

(** [inet_pton(AF_INET)]: four decimal numbers below 256 without leading zeros. *)
Definition dotted_number (s : bytes) : option Z :=
  if (3 <? vsize s) || (starts_with (lit "0") s && (1 <? vsize s)) then None
  else match from_chars_all UINT32_MAX s with Some n => if n <=? 255 then Some n else None | None => None end.

(** The parts of a text between the dots; [part] is the one being read. *)
Fixpoint split_dots (part s : bytes) : list bytes :=
  match s with
  | [] => [part]
  | c :: s => if ascii_eqb c "." then part :: split_dots [] s else split_dots (part ++ [c]) s
  end.

Definition inet_pton4 (s : bytes) : option Z :=
  match map dotted_number (split_dots [] s) with
  | [Some a; Some b; Some c; Some d] => Some (a * 2 ^ 24 + b * 2 ^ 16 + c * 2 ^ 8 + d)
  | _ => None
  end.

Section Sources.
(** [inet_pton(AF_INET6)] accepts the text and it is the loopback address. *)
Variable inet6_loopback : bytes -> bool.

Definition safe_plaintext_container_host (host : bytes) : bool :=
  if str_eqb host (lit "localhost") || str_eqb host (lit "fd00:ec2::23") || str_eqb host (lit "fd00:ec2::254") then true
  else
    match inet_pton4 host with
    | Some address => (Z.land address 4278190080 =? 2130706432) || (Z.land address 4294901760 =? 2851995648)
    | None => inet6_loopback host
    end.

(** ** Documents *)

Record Snapshot := mkSnapshot { sn_credentials : Credentials; expiration : Z }.

Inductive JsonValue := JsonAbsent | JsonText (s : bytes) | JsonInt (n : Z) | JsonOther.

(** [yyjson]: the members of a document that is an object. *)
Variable json_object : bytes -> option (bytes -> JsonValue).

Definition json_string (root : bytes -> JsonValue) (name : bytes) (required : bool) : result bytes :=
  match root name with
  | JsonAbsent => if required then Throw RuntimeError else Ok []
  | JsonText s => Ok s
  | _ => Throw RuntimeError
  end.

Definition json_version_ok (root : bytes -> JsonValue) (process_format : bool) : bool :=
  negb process_format || match root (lit "Version") with JsonInt 1 => true | _ => false end.

Definition parse_json_credentials (text : bytes) (process_format : bool) : result Snapshot :=
  match json_object text with
  | None => Throw RuntimeError
  | Some root =>
      if negb (json_version_ok root process_format) then Throw RuntimeError
      else
        let? access := json_string root (lit "AccessKeyId") true in
        let? secret := json_string root (lit "SecretAccessKey") true in
        let? token := json_string root (if process_format then lit "SessionToken" else lit "Token") false in
        let? text := json_string root (lit "Expiration") false in
        let? expiration := match text with [] => Ok 0 | _ => parse_expiration text end in
        let c := {| access_key_id := access; secret_access_key := secret; session_token := token |} in
        let? _ := validate_credentials c in
        Ok (mkSnapshot c expiration)
  end.

(** ** Requests *)

Record Sent := mkSent { to : CredentialEndpoint; sent_method : bytes; sent_headers : list header }.

(** A computation that sends requests and may throw. *)
Definition loading A : Type := list Sent * result A.
Definition give {A} (r : result A) : loading A := ([], r).
Definition after {A B} (m : loading A) (k : A -> loading B) : loading B :=
  match m with
  | (sent, Ok a) => let '(more, r) := k a in (sent ++ more, r)
  | (sent, Throw e) => (sent, Throw e)
  end.
Local Notation "'let!' x ':=' m 'in' k" := (after m (fun x => k)) (at level 10, x binder, m at level 100, k at level 200).

Variable http : CredentialEndpoint -> bytes -> list header -> result Response.

Definition credential_request (endpoint : CredentialEndpoint) (method : bytes) (hs : list header) : loading Response :=
  ([mkSent endpoint method hs], http endpoint method hs).

Definition require {A} (b : bool) (k : loading A) : loading A := if b then k else give (Throw RuntimeError).

Definition load_container (uri token : bytes) : loading Snapshot :=
  let! endpoint := give (parse_credential_endpoint uri) in
  require (ep_tls endpoint || safe_plaintext_container_host (ep_host endpoint))
    (let hs := match token with [] => [] | _ => [(lit "authorization", token)] end in
     let! response := credential_request endpoint (lit "GET") hs in
     require (status response =? 200) (give (parse_json_credentials (body response) false))).

Definition at_path (endpoint : CredentialEndpoint) (path : bytes) : CredentialEndpoint :=
  mkEndpoint (ep_host endpoint) (ep_authority endpoint) path (ep_port endpoint) (ep_tls endpoint).

Definition load_imds (url : bytes) : loading Snapshot :=
  let! endpoint := give (parse_credential_endpoint url) in
  require (negb (ep_tls endpoint) && safe_plaintext_container_host (ep_host endpoint))
    (let base := if str_eqb (ep_path endpoint) (lit "/") then [] else ep_path endpoint in
     let! response := credential_request (at_path endpoint (base ++ lit "/latest/api/token")) (lit "PUT")
                        [(lit "x-aws-ec2-metadata-token-ttl-seconds", lit "21600")] in
     require (status response =? 200)
       (let token := credential_trim (body response) in
        require (negb (bool_decide (token = [])) && negb (has_line_break token))
          (let hs := [(lit "x-aws-ec2-metadata-token", token)] in
           let roles := base ++ lit "/latest/meta-data/iam/security-credentials/" in
           let! response := credential_request (at_path endpoint roles) (lit "GET") hs in
           require (status response =? 200)
             (let role := credential_trim (body response) in
              require (negb (bool_decide (role = [])) && negb (has_char "/" role) && negb (has_line_break role))
                (let! response := credential_request (at_path endpoint (roles ++ uri_encode role false)) (lit "GET") hs in
                 require (status response =? 200) (give (parse_json_credentials (body response) false))))))).

End Sources.

(** ** Profiles *)

Record Profile := mkProfile {
  pr_credentials : Credentials; pr_process : bytes; pr_token_file : bytes; pr_role_arn : bytes;
  pr_role_session_name : bytes; pr_credential_source : bytes; pr_source_profile : bytes; pr_sso_session : bytes }.

#[export] Instance Profile_settable : Settable Profile := fun p =>
  mkProfile (pr_credentials p) (pr_process p) (pr_token_file p) (pr_role_arn p) (pr_role_session_name p)
    (pr_credential_source p) (pr_source_profile p) (pr_sso_session p).

Definition no_credentials : Credentials := {| access_key_id := []; secret_access_key := []; session_token := [] |}.
Definition empty_profile : Profile := mkProfile no_credentials [] [] [] [] [] [] [].

(** The name of a section line. *)
Definition section_name (config_file : bool) (text : bytes) : bytes :=
  let section := credential_trim (substr text 1 (vsize text - 2)) in
  if config_file && starts_with (lit "profile ") section then credential_trim (drop_z 8 section) else section.

Definition assign_value (name value : bytes) (p : Profile) : Profile :=
  let c := pr_credentials p in
  if str_eqb name (lit "aws_access_key_id") then
    p <| pr_credentials := {| access_key_id := value; secret_access_key := secret_access_key c; session_token := session_token c |} |>
  else if str_eqb name (lit "aws_secret_access_key") then
    p <| pr_credentials := {| access_key_id := access_key_id c; secret_access_key := value; session_token := session_token c |} |>
  else if str_eqb name (lit "aws_session_token") || str_eqb name (lit "aws_security_token") then
    p <| pr_credentials := {| access_key_id := access_key_id c; secret_access_key := secret_access_key c; session_token := value |} |>
  else if str_eqb name (lit "credential_process") then p <| pr_process := value |>
  else if str_eqb name (lit "web_identity_token_file") then p <| pr_token_file := value |>
  else if str_eqb name (lit "role_arn") then p <| pr_role_arn := value |>
  else if str_eqb name (lit "role_session_name") then p <| pr_role_session_name := value |>
  else if str_eqb name (lit "credential_source") then p <| pr_credential_source := value |>
  else if str_eqb name (lit "source_profile") then p <| pr_source_profile := value |>
  else if str_eqb name (lit "sso_session") || str_eqb name (lit "sso_start_url") then p <| pr_sso_session := value |>
  else p.

(** One line: whether the wanted section is selected, and the profile so far. *)
Definition profile_line (profile : bytes) (config_file : bool) (state : bool * Profile) (line : bytes) : bool * Profile :=
  let '(selected, p) := state in
  let text := credential_trim line in
  match text with
  | [] => state
  | c :: _ =>
      if ascii_eqb c "#" || ascii_eqb c ";" then state
      else if ascii_eqb c "[" && ends_with (lit "]") text
      then (str_eqb (section_name config_file text) profile, p)
      else if negb selected then state
      else match find_char "=" text with
           | None => state
           | Some equal =>
               (selected, assign_value (credential_trim (take_z equal text)) (credential_trim (drop_z (equal + 1) text)) p)
           end
  end.

(** The lines of the file, [None] when it cannot be opened. *)
Definition parse_profile_file (file : option (list bytes)) (profile : bytes) (config_file : bool) (p : Profile) : Profile :=
  match file with
  | None => p
  | Some lines => snd (fold_left (profile_line profile config_file) lines (false, p))
  end.

Definition load_profile (config_file shared_file : option (list bytes)) (profile : bytes) : Profile :=
  parse_profile_file shared_file profile false (parse_profile_file config_file profile true empty_profile).

(** ** The order of the sources *)

Inductive Source := Static (environment : bool) (c : Credentials) | Process (command : bytes)
  | WebIdentity (token_file role_arn session : bytes) | Container (uri token : bytes) | Imds (endpoint : bytes) | Anonymous.

Section Discover.
(** [getenv], the empty text when unset, and the files. *)
Variable env : bytes -> bytes.
Variable file_lines : bytes -> option (list bytes).
Variable read_credential_file : bytes -> result bytes.

Definition nonempty (s : bytes) : bool := negb (bool_decide (s = [])).

Definition environment_true (name : bytes) : bool :=
  ascii_equal_ignore_case (env name) (lit "true") || str_eqb (env name) (lit "1").

Definition first_nonempty (a b : bytes) : bytes := match a with [] => b | _ => a end.

Definition profile_name : bytes := first_nonempty (env (lit "AWS_PROFILE")) (first_nonempty (env (lit "AWS_DEFAULT_PROFILE")) (lit "default")).

Definition profile_path (variable suffix : bytes) : bytes :=
  match env variable with
  | [] => if nonempty (env (lit "HOME")) then env (lit "HOME") ++ suffix else []
  | path => path
  end.

Definition discovered_profile : Profile :=
  load_profile (file_lines (profile_path (lit "AWS_CONFIG_FILE") (lit "/.aws/config")))
    (file_lines (profile_path (lit "AWS_SHARED_CREDENTIALS_FILE") (lit "/.aws/credentials"))) profile_name.

Definition container_source (credential_source : bytes) : option (result Source) :=
  let relative := env (lit "AWS_CONTAINER_CREDENTIALS_RELATIVE_URI") in
  let full := env (lit "AWS_CONTAINER_CREDENTIALS_FULL_URI") in
  if nonempty relative || nonempty full || ascii_equal_ignore_case credential_source (lit "EcsContainer") then
    Some (let uri := if nonempty relative then lit "http://169.254.170.2" ++ relative else full in
          if negb (nonempty uri) then Throw RuntimeError
          else
            let token := env (lit "AWS_CONTAINER_AUTHORIZATION_TOKEN") in
            let token_path := env (lit "AWS_CONTAINER_AUTHORIZATION_TOKEN_FILE") in
            let? token := if negb (nonempty token) && nonempty token_path
                          then let? text := read_credential_file token_path in Ok (credential_trim text) else Ok token in
            if has_line_break token then Throw RuntimeError else Ok (Container uri token))
  else None.

(** [discover] up to the load of the source it settles on. *)
Definition choose_source : result Source :=
  let c := {| access_key_id := env (lit "AWS_ACCESS_KEY_ID"); secret_access_key := env (lit "AWS_SECRET_ACCESS_KEY");
              session_token := env (lit "AWS_SESSION_TOKEN") |} in
  if nonempty (access_key_id c) || nonempty (secret_access_key c) then
    let? _ := validate_credentials c in Ok (Static true c)
  else
    let token_file := env (lit "AWS_WEB_IDENTITY_TOKEN_FILE") in
    let role_arn := env (lit "AWS_ROLE_ARN") in
    if nonempty token_file || nonempty role_arn then
      if negb (nonempty token_file) || negb (nonempty role_arn) then Throw RuntimeError
      else Ok (WebIdentity token_file role_arn (env (lit "AWS_ROLE_SESSION_NAME")))
    else
      let p := discovered_profile in
      if nonempty (access_key_id (pr_credentials p)) || nonempty (secret_access_key (pr_credentials p)) then
        let? _ := validate_credentials (pr_credentials p) in Ok (Static false (pr_credentials p))
      else if nonempty (pr_process p) then Ok (Process (pr_process p))
      else if nonempty (pr_token_file p) then
        if negb (nonempty (pr_role_arn p)) then Throw RuntimeError
        else Ok (WebIdentity (pr_token_file p) (pr_role_arn p) (pr_role_session_name p))
      else if nonempty (pr_role_arn p) || nonempty (pr_source_profile p) || nonempty (pr_sso_session p) then Throw RuntimeError
      else
        match container_source (pr_credential_source p) with
        | Some r => r
        | None =>
            if environment_true (lit "AWS_EC2_METADATA_DISABLED") then Ok Anonymous
            else Ok (Imds (first_nonempty (env (lit "AWS_EC2_METADATA_SERVICE_ENDPOINT")) (lit "http://169.254.169.254")))
        end.

End Discover.

(** ** Endpoints read back *)

Lemma endpoint_port_number default port :
  1 <= port <= 65535 -> endpoint_port default (to_chars port) = Ok port.
Proof.
  intros Hp. destruct (to_chars_spec port) as (Hne & Hd & Hv); [lia|].
  unfold endpoint_port. destruct (to_chars port) as [|c l] eqn:E; [done|]. rewrite <-E in *.
  assert (from_chars_all UINT32_MAX (to_chars port) = Some port) as ->.
  { apply from_chars_all_spec. split_and!; try done. unfold UINT32_MAX. lia. }
  destruct (Z.eqb_spec port 0); [lia|]. destruct (Z.ltb_spec 65535 port); [lia|done].
Qed.

Lemma rfind_char_app c a b : c ∉ b -> rfind_char c (a ++ c :: b) = Some (vsize a).
Proof.
  intros Hb. assert (Hnone : rfind_char c b = None).
  { induction b as [|x b IH]; [done|]. cbn. apply not_elem_of_cons in Hb as [Hx Hb]. rewrite (IH Hb).
    unfold ascii_eqb. by destruct (Ascii.eqb_spec x c) as [->|]. }
  induction a as [|x a IH]; cbn.
  - rewrite Hnone. unfold ascii_eqb. by rewrite Ascii.eqb_refl.
  - rewrite IH. f_equal. unfold vsize. cbn. lia.
Qed.

Lemma digits_avoid (c : ascii) (l : bytes) : Forall (fun c => isdigit c = true) l -> isdigit c = false -> c ∉ l.
Proof. intros Hl Hc Hin. rewrite Forall_forall in Hl. specialize (Hl c Hin). congruence. Qed.

Definition authority_text (bracket : bool) (host : bytes) (port : Z) : bytes :=
  (if bracket then lit "[" ++ host ++ lit "]" else host) ++ lit ":" ++ to_chars port.

Definition url_text (tls : bool) (authority path : bytes) : bytes :=
  (if tls then lit "https://" else lit "http://") ++ authority ++ path.

(** A host that can stand in a URL: a name or an IPv4 address, or an IPv6 address in brackets. *)
Definition plain_host (bracket : bool) (host : bytes) : Prop :=
  host <> [] /\ Forall (fun c => ~ c ∈ lit "/@?#]") host /\ (bracket = false -> ~ ":"%char ∈ host /\ ~ "["%char ∈ host).

Lemma plain_avoid bracket host c : plain_host bracket host -> c ∈ lit "/@?#]" -> c ∉ host.
Proof. intros (_ & H & _) Hc Hin. rewrite Forall_forall in H. by apply (H c Hin). Qed.

Lemma delimiter_cases (c : ascii) : c ∈ lit "/@?#" -> c = "/"%char \/ c = "@"%char \/ c = "?"%char \/ c = "#"%char.
Proof. cbn. rewrite !elem_of_cons, elem_of_nil. tauto. Qed.

Lemma authority_avoid bracket host port c :
  plain_host bracket host -> 1 <= port <= 65535 -> c ∈ lit "/@?#" -> c ∉ authority_text bracket host port.
Proof.
  intros Hh Hp Hc. destruct (to_chars_spec port) as (_ & Hd & _); [lia|].
  assert (c ∉ lit "[]:" /\ c ∈ lit "/@?#]" /\ isdigit c = false) as (Hb & Hc' & Hdig).
  { destruct (delimiter_cases c Hc) as [->|[->|[->| ->]]]; (split_and!; [cbn; by rewrite !not_elem_of_cons; split_and!; try apply not_elem_of_nil|cbn; rewrite !elem_of_cons; tauto|done]). }
  pose proof (plain_avoid _ _ _ Hh Hc') as Hhost. pose proof (digits_avoid c _ Hd Hdig) as Hport.
  change (lit "[]:") with (lit "[" ++ lit "]" ++ lit ":") in Hb. rewrite !not_elem_of_app in Hb. destruct Hb as (? & ? & ?).
  unfold authority_text. destruct bracket; rewrite !not_elem_of_app; tauto.
Qed.

Lemma at_z_app (a b : bytes) c : at_z (a ++ c :: b) (vsize a) = c.
Proof. unfold at_z, vget, vsize. by rewrite Nat2Z.id, list_lookup_middle. Qed.

(** [[host]:port]. *)
Lemma split_bracketed (host port : bytes) :
  "]"%char ∉ host -> split_authority ("["%char :: host ++ "]"%char :: ":"%char :: port) = Ok (host, port).
Proof.
  intros Hc. unfold split_authority. cbn [starts_with lit]. rewrite app_comm_cons.
  change (starts_with (lit "[") _) with true. cbn iota.
  rewrite find_char_app by (apply not_elem_of_cons; by split).
  set (front := ("["%char :: host) ++ ["]"%char]).
  assert (Ef : ("["%char :: host) ++ "]"%char :: ":"%char :: port = front ++ ":"%char :: port)
    by (unfold front; by rewrite <-app_assoc).
  assert (Hf : vsize front = vsize ("["%char :: host) + 1) by (unfold front, vsize; rewrite length_app; cbn; lia).
  assert (Hat : at_z (("["%char :: host) ++ "]"%char :: ":"%char :: port) (vsize ("["%char :: host) + 1) = ":"%char)
    by (rewrite Ef, <-Hf; apply at_z_app).
  assert (Hdrop : drop_z (vsize ("["%char :: host) + 2) (("["%char :: host) ++ "]"%char :: ":"%char :: port) = port).
  { rewrite Ef. replace (vsize ("["%char :: host) + 2) with (vsize front + 1) by lia. apply drop_app_z_S. }
  rewrite Hat, Hdrop. assert (vsize ("["%char :: host) = vsize host + 1) as -> by (unfold vsize; cbn; lia).
  destruct (Z.ltb_spec (vsize host + 1 + 1) (vsize (("["%char :: host) ++ "]"%char :: ":"%char :: port))) as [|Hbad].
  - cbn [ascii_eqb negb]. unfold substr. replace (vsize host + 1 - 1) with (vsize host) by lia. cbn.
    change (drop_z 1 ("["%char :: ?l)) with l. by rewrite take_app_z.
  - unfold vsize in Hbad. rewrite length_app in Hbad. cbn in Hbad. lia.
Qed.

Lemma split_authority_text bracket host port :
  plain_host bracket host -> 1 <= port <= 65535 ->
  split_authority (authority_text bracket host port) = Ok (host, to_chars port).
Proof.
  intros Hh Hp. pose proof Hh as (Hne & _ & Hplain). destruct (to_chars_spec port) as (_ & Hd & _); [lia|].
  unfold authority_text. destruct bracket.
  - rewrite <-!app_assoc. apply split_bracketed. eapply plain_avoid; [done|]. cbn. rewrite !elem_of_cons. tauto.
  - destruct (Hplain eq_refl) as [_ Hb]. change (lit ":" ++ to_chars port) with (":"%char :: to_chars port).
    assert (E : rfind_char ":" (host ++ ":"%char :: to_chars port) = Some (vsize host))
      by (apply rfind_char_app, digits_avoid; done).
    destruct host as [|c host]; [done|]. unfold split_authority. rewrite E, take_app_z, drop_app_z_S.
    assert (c <> "["%char) by (intros ->; by apply Hb, list_elem_of_here).
    assert (Hs : starts_with (lit "[") ((c :: host) ++ ":"%char :: to_chars port) = false).
    { apply not_true_iff_false. rewrite starts_with_spec. intros [t Ht]. by injection Ht as ->. }
    by rewrite Hs.
Qed.

(** ** Masks *)

Lemma high_bits (a n m v : Z) :
  0 <= a < 2 ^ (n + m) -> 0 <= n -> 0 <= m -> Z.land a (Z.shiftl (Z.ones m) n) = Z.shiftl v n -> a / 2 ^ n = v.
Proof.
  intros Ha Hn Hm H. apply (f_equal (fun x => Z.shiftr x n)) in H.
  rewrite Z.shiftr_land, !Z.shiftr_shiftl_l, Z.sub_diag, !Z.shiftl_0_r, Z.land_ones in H by lia.
  rewrite Z.shiftr_div_pow2 in H by lia. rewrite <-H. symmetry. apply Z.mod_small.
  rewrite Z.pow_add_r in Ha by lia. split; [apply Z.div_pos; lia|apply Z.div_lt_upper_bound; lia].
Qed.

Lemma dotted_number_range s n : dotted_number s = Some n -> 0 <= n <= 255.
Proof.
  unfold dotted_number. destruct (_ || _); [done|]. destruct (from_chars_all UINT32_MAX s) as [v|] eqn:E; [|done].
  apply from_chars_all_spec in E as (_ & Hd & Hv & _). pose proof (digits_value_nonneg _ _ Hd Hv).
  destruct (Z.leb_spec v 255); [|done]. intros [= <-]. lia.
Qed.

Lemma inet_pton4_range s a : inet_pton4 s = Some a -> 0 <= a < 2 ^ 32.
Proof.
  unfold inet_pton4.
  assert (H : Forall (fun o => forall n, o = Some n -> 0 <= n <= 255) (map dotted_number (split_dots [] s))).
  { apply Forall_map, Forall_true. intros x n. apply dotted_number_range. }
  destruct (map dotted_number _) as [|[n1|] [|[n2|] [|[n3|] [|[n4|] [|? ?]]]]]; try discriminate.
  rewrite !Forall_cons in H. destruct H as (H1 & H2 & H3 & H4 & _).
  specialize (H1 _ eq_refl). specialize (H2 _ eq_refl). specialize (H3 _ eq_refl). specialize (H4 _ eq_refl).
  intros E%(inj Some). lia.
Qed.

(** ** Theorems *)

(** A host that is on this machine or on its link: [localhost], 127.0.0.0/8, 169.254.0.0/16,
    the IPv6 loopback, or one of the two addresses of the metadata services. *)
Definition local_host (inet6_loopback : bytes -> bool) (host : bytes) : Prop :=
  host = lit "localhost" \/ host = lit "fd00:ec2::23" \/ host = lit "fd00:ec2::254" \/
  (exists a, inet_pton4 host = Some a /\ (a / 2 ^ 24 = 127 \/ a / 2 ^ 16 = 169 * 256 + 254)) \/
  inet6_loopback host = true.

Lemma safe_host_local inet6 host : safe_plaintext_container_host inet6 host = true -> local_host inet6 host.
Proof.
  unfold safe_plaintext_container_host, local_host.
  destruct (str_eqb_spec host (lit "localhost")); [by left|].
  destruct (str_eqb_spec host (lit "fd00:ec2::23")); [by right; left|].
  destruct (str_eqb_spec host (lit "fd00:ec2::254")); [by right; right; left|]. cbn [orb].
  destruct (inet_pton4 host) as [a|] eqn:E; [|by do 4 right].
  apply inet_pton4_range in E as Ha. intros [H|H]%orb_true_iff; apply Z.eqb_eq in H; do 3 right; left; exists a; (split; [done|]).
  - left. by apply (high_bits a 24 8).
  - right. by apply (high_bits a 16 16).
Qed.

(** A request that carries secrets: encrypted or to a local host, and with header values that
    cannot end a line. *)
Definition guarded (inet6_loopback : bytes -> bool) (s : Sent) : Prop :=
  (ep_tls (to s) = true \/ local_host inet6_loopback (ep_host (to s))) /\
  Forall (fun h => has_line_break (snd h) = false) (sent_headers s).

Lemma guarded_after {A B} P (m : loading A) (k : A -> loading B) :
  Forall P m.1 -> (forall a, m.2 = Ok a -> Forall P (k a).1) -> Forall P (after m k).1.
Proof.
  destruct m as [sent [a|e]]; cbn; intros Hm Hk; [|done].
  specialize (Hk a eq_refl). destruct (k a) as [more r]. cbn in *. by apply Forall_app.
Qed.

Lemma guarded_require {A} P (b : bool) (k : loading A) : (b = true -> Forall P k.1) -> Forall P (require b k).1.
Proof. destruct b; cbn; [auto|constructor]. Qed.

Lemma load_container_guarded inet6 json http uri token :
  has_line_break token = false -> Forall (guarded inet6) (load_container inet6 json http uri token).1.
Proof.
  intros Ht. unfold load_container. apply guarded_after; [constructor|]. intros endpoint _.
  apply guarded_require. intros Hsafe. apply guarded_after; [|intros; apply guarded_require; by constructor].
  apply Forall_singleton. split.
  - cbn. apply orb_true_iff in Hsafe as [?|?]; [by left|right; by apply safe_host_local].
  - cbn. destruct token; [constructor|]. by apply Forall_singleton.
Qed.

Lemma load_imds_guarded inet6 json http url : Forall (guarded inet6) (load_imds inet6 json http url).1.
Proof.
  unfold load_imds. apply guarded_after; [constructor|]. intros endpoint _.
  apply guarded_require. intros [_ Hsafe%safe_host_local]%andb_true_iff.
  assert (Hone : forall path method hs, Forall (fun h => has_line_break (snd h) = false) hs ->
    Forall (guarded inet6) (credential_request http (at_path endpoint path) method hs).1).
  { intros. apply Forall_singleton. split; [by right|done]. }
  apply guarded_after; [apply Hone; by apply Forall_singleton|]. intros r1 _.
  apply guarded_require. intros _. apply guarded_require. intros [_ Htoken%negb_true_iff]%andb_true_iff.
  apply guarded_after; [apply Hone; by apply Forall_singleton|]. intros r2 _.
  apply guarded_require. intros _. apply guarded_require. intros _.
  apply guarded_after; [apply Hone; by apply Forall_singleton|]. intros r3 _.
  apply guarded_require. by constructor.
Qed.

Lemma container_token_safe env read source uri token :
  container_source env read source = Some (Ok (Container uri token)) -> has_line_break token = false.
Proof.
  unfold container_source. destruct (_ || _); [|done]. intros [= H].
  destruct (negb (nonempty _)); [done|]. apply rbind_ok in H as (t & _ & H).
  destruct (has_line_break t) eqn:E; [done|]. by apply Ok_inj in H as [= _ <-].
Qed.

Lemma choose_container env lines read uri token :
  choose_source env lines read = Ok (Container uri token) -> has_line_break token = false.
Proof.
  unfold choose_source. cbn zeta.
  destruct (_ || _); [intros (? & _ & H)%rbind_ok; discriminate|].
  destruct (_ || _); [destruct (_ || _); discriminate|].
  destruct (_ || _); [intros (? & _ & H)%rbind_ok; discriminate|].
  destruct (nonempty _); [discriminate|]. destruct (nonempty _); [destruct (negb _); discriminate|].
  destruct (_ || _); [discriminate|].
  destruct (container_source _ _ _) as [r|] eqn:E; [|destruct (environment_true _ _); discriminate].
  intros ->. by apply container_token_safe in E.
Qed.

(** an endpoint URL is read as it was written: the scheme gives the transport, the host is
    what stands before the port or inside the brackets, and the path is kept. *)
Theorem credential_endpoint_roundtrip (tls bracket : bool) (host : bytes) (port : Z) (path : bytes) :
  plain_host bracket host -> 1 <= port <= 65535 -> (path = [] \/ starts_with (lit "/") path = true) -> "#"%char ∉ path ->
  parse_credential_endpoint (url_text tls (authority_text bracket host port) path) =
    Ok (mkEndpoint host (authority_text bracket host port) (match path with [] => lit "/" | _ => path end) port tls).
Proof.
  intros Hh Hp Hpath Hhash. unfold parse_credential_endpoint.
  assert (Hs : endpoint_scheme (url_text tls (authority_text bracket host port) path) =
    Ok (tls, if tls then 443 else 80, authority_text bracket host port ++ path)) by (by destruct tls).
  rewrite Hs. cbn [rbind]. pose proof (fun c => authority_avoid bracket host port c Hh Hp) as Hav.
  assert (Hd : forall c, c ∈ lit "/@?#" -> has_char c (authority_text bracket host port) = false)
    by (intros c Hc; by apply has_char_false, Hav).
  assert (Hin : forall c, c = "/"%char \/ c = "@"%char \/ c = "?"%char \/ c = "#"%char -> c ∈ lit "/@?#")
    by (cbn; intros c; rewrite !elem_of_cons; tauto).
  assert (Hne : authority_text bracket host port <> []).
  { unfold authority_text. destruct Hh as (? & _). by destruct bracket, host. }
  assert (Hsplit : match find_char "/" (authority_text bracket host port ++ path) with
                   | Some i => (take_z i (authority_text bracket host port ++ path), drop_z i (authority_text bracket host port ++ path))
                   | None => (authority_text bracket host port ++ path, lit "/")
                   end = (authority_text bracket host port, match path with [] => lit "/" | _ => path end)).
  { destruct path as [|c path].
    - rewrite app_nil_r, (proj2 (find_char_None _ _)) by (apply Hav, Hin; tauto). done.
    - destruct Hpath as [?|Hpath]; [done|]. apply starts_with_spec in Hpath as [t Ht]. injection Ht as -> ->.
      rewrite find_char_app by (apply Hav, Hin; tauto). by rewrite take_app_z, drop_app_z. }
  rewrite Hsplit, bool_decide_eq_false_2, !Hd by (done || apply Hin; tauto). cbn [orb].
  assert (has_char "#" match path with [] => lit "/" | _ => path end = false) as -> by
    (destruct path; [done|by apply has_char_false]).
  rewrite split_authority_text by done; cbn [rbind]; rewrite bool_decide_eq_false_2 by (by destruct Hh);
    by rewrite endpoint_port_number.
Qed.

Lemma credential_endpoint_roundtrip_witness :
  parse_credential_endpoint (lit "http://[fd00:ec2::23]:80/v2/credentials") =
    Ok (mkEndpoint (lit "fd00:ec2::23") (lit "[fd00:ec2::23]:80") (lit "/v2/credentials") 80 false).
Proof.
  apply (credential_endpoint_roundtrip false true (lit "fd00:ec2::23") 80 (lit "/v2/credentials")).
  - split; [discriminate|]. split; [|discriminate]. apply (bool_decide_unpack _). vm_compute. exact I.
  - lia.
  - right. reflexivity.
  - apply (bool_decide_unpack _). vm_compute. exact I.
Defined.

(** C21: the secrets of the container and metadata services stay on the machine.  Every request
    that [load_imds] sends, and every request [load_container] sends for a source that
    [discover] has chosen, is encrypted or goes to a loopback or link-local host, and none of
    its header values contains a line break, whatever the services answer. *)
Theorem credential_requests_guarded inet6_loopback json_object http env lines read :
  (forall uri token, choose_source env lines read = Ok (Container uri token) ->
     Forall (guarded inet6_loopback) (load_container inet6_loopback json_object http uri token).1) /\
  (forall url, Forall (guarded inet6_loopback) (load_imds inet6_loopback json_object http url).1).
Proof.
  split.
  - intros uri token H. by apply load_container_guarded, (choose_container env lines read uri).
  - intros url. apply load_imds_guarded.
Qed.

(** A container endpoint on the link, and one elsewhere that is refused before anything is sent. *)
Definition sample_env (uri : bytes) (name : bytes) : bytes :=
  if str_eqb name (lit "AWS_CONTAINER_CREDENTIALS_FULL_URI") then uri
  else if str_eqb name (lit "AWS_CONTAINER_AUTHORIZATION_TOKEN") then lit "secret" else [].

Lemma credential_requests_guarded_witness :
  choose_source (sample_env (lit "http://169.254.170.23/v1")) (fun _ => None) Ok =
    Ok (Container (lit "http://169.254.170.23/v1") (lit "secret")) /\
  (load_container (fun _ => false) (fun _ => None) (fun _ _ _ => Throw RuntimeError) (lit "http://example.com/v1") (lit "secret")).1 = [] /\
  Forall (guarded (fun _ => false))
    (load_container (fun _ => false) (fun _ => None) (fun _ _ _ => Throw RuntimeError) (lit "http://169.254.170.23/v1") (lit "secret")).1.
Proof.
  assert (E : choose_source (sample_env (lit "http://169.254.170.23/v1")) (fun _ => None) Ok =
    Ok (Container (lit "http://169.254.170.23/v1") (lit "secret"))) by (vm_compute; reflexivity).
  split; [exact E|]. split; [vm_compute; reflexivity|].
  exact (proj1 (credential_requests_guarded (fun _ => false) (fun _ => None) (fun _ _ _ => Throw RuntimeError)
    (sample_env (lit "http://169.254.170.23/v1")) (fun _ => None) Ok) _ _ E).
Defined.
