(* ===== verification/CredentialRefresh.v ===== *)
(** * Refreshing credentials

    [CredentialProvider] of [credentials.cpp]: the snapshot the requests use, when it is
    refreshed, and what happens when a source fails.  Only the refresher thread changes the
    snapshot; readers take it without the mutex.  Snapshots are kept, so that a reference that
    [get] has returned stays valid.  What the sources and the clocks give is an argument. *)

From S2P Require Import Prelude StdText SigV4 CredentialSource.

(** [SOURCE_SHARED_FILE], the four sources with an expiration, and the static ones. *)
Inductive Kind := SharedFile | Expiring | Fixed.

Definition refreshable (k : Kind) : bool := match k with Fixed => false | _ => true end.

Record Provider := mkProvider {
  kind : Kind; shared_reload_ms : Z; snapshots_ : list Snapshot; current_ : option Snapshot;
  next_refresh_ns_ : Z; refresh_error_ : option exn; stopped_ : bool }.

#[export] Instance Provider_settable : Settable Provider := fun p =>
  mkProvider (kind p) (shared_reload_ms p) (snapshots_ p) (current_ p) (next_refresh_ns_ p) (refresh_error_ p) (stopped_ p).

Definition new_provider (k : Kind) (reload : Z) : Provider := mkProvider k reload [] None UINT64_MAX None false.

Definition kCredentialRetryNs : Z := 30000000000.

(** [x > UINT64_MAX - now ? UINT64_MAX : now + x]. *)
Definition add_time (now delay : Z) : Z := if UINT64_MAX - now <? delay then UINT64_MAX else now + delay.

(** [epoch] is what [credential_epoch_seconds] gives when it is called. *)
Definition schedule_refresh (p : Provider) (value : Snapshot) (now_ns : Z) (epoch : result Z) : Provider * result unit :=
  let set delay := (p <| next_refresh_ns_ := if delay =? UINT64_MAX then UINT64_MAX else add_time now_ns delay |>, Ok tt) in
  match kind p with
  | SharedFile => set (u64 (shared_reload_ms p * 1000000))
  | Expiring =>
      match epoch with
      | Throw e => (p, Throw e)
      | Ok now =>
          let refresh := if expiration value =? 0 then 300 else Z.max 1 (expiration value - now - 300) in
          set (u64 (refresh * 1000000000))
      end
  | Fixed => set UINT64_MAX
  end.

Definition install (p : Provider) (value : Snapshot) (now_ns : Z) (epoch schedule_epoch : result Z) : Provider * result unit :=
  match epoch with
  | Throw e => (p, Throw e)
  | Ok now =>
      if negb (expiration value =? 0) && (expiration value <=? now) then (p, Throw RuntimeError)
      else schedule_refresh (p <| snapshots_ := snapshots_ p ++ [value] |> <| current_ := Some value |>) value now_ns schedule_epoch
  end.

(** What the calls of one refresh give, in the order of the code. *)
Record RefreshEnv := mkRefreshEnv {
  load_source : result Snapshot; check_epoch : result Z; install_epoch : result Z; schedule_epoch : result Z;
  catch_epoch : result Z }.

Definition same_snapshot (a b : Snapshot) : bool :=
  (expiration a =? expiration b) && str_eqb (access_key_id (sn_credentials a)) (access_key_id (sn_credentials b)) &&
  str_eqb (secret_access_key (sn_credentials a)) (secret_access_key (sn_credentials b)) &&
  str_eqb (session_token (sn_credentials a)) (session_token (sn_credentials b)).

(** The [try] block. *)
Definition refresh_try (p : Provider) (now_ns : Z) (env : RefreshEnv) : Provider * result unit :=
  match load_source env with
  | Throw e => (p, Throw e)
  | Ok value =>
      let accept :=
        match current_ p with
        | Some current =>
            if same_snapshot current value then schedule_refresh p current now_ns (schedule_epoch env)
            else install p value now_ns (install_epoch env) (schedule_epoch env)
        | None => install p value now_ns (install_epoch env) (schedule_epoch env)
        end in
      if expiration value =? 0 then accept
      else
        match check_epoch env with
        | Throw e => (p, Throw e)
        | Ok now => if expiration value <=? now then (p, Throw RuntimeError) else accept
        end
  end.

Definition refresh_locked (p : Provider) (now_ns : Z) (env : RefreshEnv) : Provider * result unit :=
  match refresh_try p now_ns env with
  | (p, Ok _) => (p, Ok tt)
  | (p, Throw error) =>
      match catch_epoch env with
      | Throw e => (p, Throw e)
      | Ok now =>
          match current_ p with
          | Some current =>
              if (expiration current =? 0) || (now <? expiration current) then
                let retry := if expiration current =? 0 then kCredentialRetryNs
                             else Z.min kCredentialRetryNs (u64 ((expiration current - now) * 1000000000)) in
                (p <| next_refresh_ns_ := add_time now_ns retry |>, Ok tt)
              else (p, Throw error)
          | None => (p, Throw error)
          end
      end
  end.

(** One turn of [refresh_loop]; [now] is what [credential_monotonic_ns] gives. *)
Definition refresh_turn (p : Provider) (now : result Z) (env : RefreshEnv) : Provider :=
  match now with
  | Throw e => p <| refresh_error_ := Some e |> <| current_ := None |> <| stopped_ := true |>
  | Ok now =>
      let due := next_refresh_ns_ p in
      if (due =? UINT64_MAX) || (now <? due) then p
      else
        match refresh_locked p now env with
        | (p, Ok _) => p <| refresh_error_ := None |>
        | (p, Throw e) =>
            p <| refresh_error_ := Some e |> <| current_ := None |> <| next_refresh_ns_ := add_time now kCredentialRetryNs |>
        end
  end.

Inductive Reader := Given (c : Credentials) | Refreshing | Thrown (e : exn).

(** [get]; on a reactor the mutex may be taken ([locked]), and the refresher may store a
    snapshot between the loads ([later], the value of the second load). *)
Definition get (p : Provider) (on_reactor locked : bool) (later : option Snapshot) : Reader :=
  match current_ p with
  | Some s => Given (sn_credentials s)
  | None =>
      match later with
      | Some s => Given (sn_credentials s)
      | None =>
          if on_reactor && locked then Refreshing
          else match refresh_error_ p with Some e => Thrown e | None => Thrown LogicError end
      end
  end.

(** ** Time *)

Section Time.
(** The real time when the monotonic clock was zero; the clocks advance together. *)
Variable base : Z.

Definition epoch_at (t : Z) : Z := base + t / 1000000000.

(** A reading taken between the times [a] and [b]. *)
Definition read_between (a b : Z) (r : result Z) : Prop := forall v, r = Ok v -> exists t, a <= t <= b /\ v = epoch_at t.

Record env_between (a b : Z) (env : RefreshEnv) : Prop := {
  eb_check : read_between a b (check_epoch env);
  eb_install : read_between a b (install_epoch env);
  eb_schedule : read_between a b (schedule_epoch env);
  eb_catch : read_between a b (catch_epoch env) }.

(** Shared files and static sources have no expiration. *)
Definition source_ok (k : Kind) (value : Snapshot) : Prop := k = Expiring \/ expiration value = 0.

(** [cred_run t p]: the state at time [t]. *)
Inductive cred_run : Z -> Provider -> Prop :=
  | cred_start k reload value now t e1 e2 p :
      0 <= now <= t -> read_between now t e1 -> read_between now t e2 -> source_ok k value ->
      install (new_provider k reload) value now e1 e2 = (p, Ok tt) -> cred_run t p
  | cred_turn t p now t' env :
      cred_run t p -> refreshable (kind p) = true -> stopped_ p = false -> t <= now <= t' -> env_between now t' env ->
      (forall value, load_source env = Ok value -> source_ok (kind p) value) ->
      cred_run t' (refresh_turn p (Ok now) env)
  | cred_clock t p e env : cred_run t p -> refreshable (kind p) = true -> stopped_ p = false -> cred_run t (refresh_turn p (Throw e) env).

(** The time at which a snapshot expires. *)
Definition expiry_ns (s : Snapshot) : Z := (expiration s - base) * 1000000000.

Record cred_inv (p : Provider) : Prop := {
  ci_kept : forall s, current_ p = Some s -> s ∈ snapshots_ p;
  ci_source : forall s, current_ p = Some s -> source_ok (kind p) s;
  ci_due : forall s, current_ p = Some s -> expiration s <> 0 -> next_refresh_ns_ p <= expiry_ns s + 1000000000;
  ci_error : current_ p = None -> is_Some (refresh_error_ p) }.

Lemma add_time_le now delay : 0 <= now -> add_time now delay <= now + delay.
Proof. intros. unfold add_time. destruct (Z.ltb_spec (UINT64_MAX - now) delay); lia. Qed.

Lemma u64_le x : 0 <= x -> u64 x <= x.
Proof. intros. unfold u64. by apply Z.mod_le. Qed.

(** A reading before the expiration was taken before it. *)
Lemma before_expiry s t : epoch_at t < expiration s -> t < expiry_ns s.
Proof. unfold epoch_at, expiry_ns. intros. pose proof (Z.mul_succ_div_gt t 1000000000 ltac:(lia)). nia. Qed.

Lemma left_after s t : expiry_ns s - 1000000000 < (expiration s - epoch_at t) * 1000000000 + t <= expiry_ns s + 1000000000.
Proof. unfold epoch_at, expiry_ns. pose proof (Z.div_mod t 1000000000 ltac:(lia)). pose proof (Z.mod_pos_bound t 1000000000 ltac:(lia)). lia. Qed.

(** ** The refresh is due in time *)

(** [schedule_refresh] for a snapshot that was not expired when it was checked at [t0]. *)
Lemma schedule_due p value now t t0 epoch :
  0 <= now -> source_ok (kind p) value -> read_between now t epoch ->
  (expiration value <> 0 -> now <= t0 /\ epoch_at t0 < expiration value) ->
  match schedule_refresh p value now epoch with
  | (p', Ok _) => current_ p' = current_ p /\ snapshots_ p' = snapshots_ p /\ kind p' = kind p /\
                  refresh_error_ p' = refresh_error_ p /\ stopped_ p' = stopped_ p /\
                  (expiration value <> 0 -> next_refresh_ns_ p' <= expiry_ns value + 1000000000)
  | (p', Throw _) => p' = p
  end.
Proof.
  intros Hnow Hk Hread Hchecked. unfold schedule_refresh.
  destruct (kind p) eqn:Ek; [cbn; split_and!; try done; destruct Hk; [done|lia]| |cbn; split_and!; try done; destruct Hk; [done|lia]].
  destruct epoch as [v|e]; [|done]. cbn. split_and!; try done. intros Hne.
  destruct (Hchecked Hne) as [Ht0 Hlt]. apply before_expiry in Hlt. destruct (Hread v eq_refl) as (t1 & Ht1 & ->).
  destruct (Z.eqb_spec (expiration value) 0); [done|].
  set (refresh := Z.max 1 (expiration value - epoch_at t1 - 300)).
  pose proof (u64_le (refresh * 1000000000) ltac:(lia)) as Hu. pose proof (left_after value t1) as Hl.
  assert (Hadd : add_time now (u64 (refresh * 1000000000)) <= expiry_ns value + 1000000000).
  { pose proof (add_time_le now (u64 (refresh * 1000000000)) Hnow). lia. }
  destruct (Z.eqb_spec (u64 (refresh * 1000000000)) UINT64_MAX) as [E|]; [|done].
  rewrite E in *. unfold add_time in Hadd. destruct (Z.ltb_spec (UINT64_MAX - now) UINT64_MAX); lia.
Qed.

Lemma install_inv p value now t e1 e2 :
  0 <= now -> source_ok (kind p) value -> read_between now t e1 -> read_between now t e2 ->
  match install p value now e1 e2 with
  | (p', Ok _) => current_ p' = Some value /\ value ∈ snapshots_ p' /\ kind p' = kind p /\ stopped_ p' = stopped_ p /\
                  (expiration value <> 0 -> next_refresh_ns_ p' <= expiry_ns value + 1000000000)
  | (p', Throw _) => p' = p \/ (current_ p' = Some value /\ value ∈ snapshots_ p' /\ kind p' = kind p /\ stopped_ p' = stopped_ p)
  end.
Proof.
  intros Hnow Hk H1 H2. unfold install. destruct e1 as [v|e]; [|by left].
  destruct (negb (expiration value =? 0) && (expiration value <=? v)) eqn:E; [by left|].
  set (p1 := p <| snapshots_ := _ |> <| current_ := Some value |>). destruct (H1 v eq_refl) as (t0 & Ht0 & ->).
  assert (Hc : expiration value <> 0 -> now <= t0 /\ epoch_at t0 < expiration value).
  { intros Hne. split; [lia|]. destruct (Z.eqb_spec (expiration value) 0); [done|]. cbn in E. apply Z.leb_gt in E. lia. }
  assert (Hin : value ∈ snapshots_ p1) by (unfold p1; cbn; apply elem_of_app; right; by apply list_elem_of_singleton).
  pose proof (schedule_due p1 value now t t0 e2 Hnow Hk H2 Hc) as Hs.
  destruct (schedule_refresh p1 value now e2) as [p' [u|e]].
  - destruct Hs as (E1 & E2 & E3 & _ & E5 & E6). split_and!; try done. by rewrite E2.
  - subst p'. right. done.
Qed.

(** What the [try] block leaves: snapshots that are kept and, if it succeeded, one that was
    found valid during the refresh and is refreshed again in time. *)
Definition tried (p : Provider) (now t : Z) (pr : Provider * result unit) : Prop :=
  kind pr.1 = kind p /\ stopped_ pr.1 = stopped_ p /\
  (forall s, current_ pr.1 = Some s -> s ∈ snapshots_ pr.1 /\ source_ok (kind p) s) /\
  (pr.2 = Ok tt -> exists s, current_ pr.1 = Some s /\
     (expiration s <> 0 -> next_refresh_ns_ pr.1 <= expiry_ns s + 1000000000 /\
        exists t1, now <= t1 <= t /\ epoch_at t1 < expiration s)).

Lemma tried_unchanged p now t e : cred_inv p -> tried p now t (p, Throw e).
Proof. intros [Hkept Hsrc _ _]. split_and!; try done. intros s Hs. by split; [apply Hkept|apply Hsrc]. Qed.

Lemma install_tried p value now t e1 e2 :
  0 <= now -> cred_inv p -> source_ok (kind p) value -> read_between now t e1 -> read_between now t e2 ->
  (expiration value <> 0 -> exists t0, now <= t0 <= t /\ epoch_at t0 < expiration value) ->
  tried p now t (install p value now e1 e2).
Proof.
  intros Hnow Hinv Hk H1 H2 Hc. pose proof (install_inv p value now t e1 e2 Hnow Hk H1 H2) as H.
  destruct (install p value now e1 e2) as [p' [[]|e]].
  - destruct H as (Ec & Hin & Ek & Es & Hd). split_and!; try done; cbn.
    + rewrite Ec. by intros s [= <-].
    + intros _. exists value. split; [done|]. intros Hne. split; [by apply Hd|by apply Hc].
  - destruct H as [->|(Ec & Hin & Ek & Es)]; [by apply tried_unchanged|].
    split_and!; try done. cbn. rewrite Ec. by intros s [= <-].
Qed.

Lemma schedule_tried p current now t epoch :
  0 <= now -> cred_inv p -> current_ p = Some current -> read_between now t epoch ->
  (expiration current <> 0 -> exists t0, now <= t0 <= t /\ epoch_at t0 < expiration current) ->
  tried p now t (schedule_refresh p current now epoch).
Proof.
  intros Hnow Hinv Ecur Hr Hc. pose proof Hinv as [Hkept Hsrc _ _].
  assert (exists t0, expiration current <> 0 -> now <= t0 /\ epoch_at t0 < expiration current) as [t0 Hc'].
  { destruct (Z.eq_dec (expiration current) 0); [by exists 0|]. destruct (Hc n) as (t0 & ? & ?). exists t0. lia. }
  pose proof (schedule_due p current now t t0 epoch Hnow (Hsrc _ Ecur) Hr Hc') as H.
  destruct (schedule_refresh p current now epoch) as [p' [[]|e]]; [|subst p'; by apply tried_unchanged].
  destruct H as (E1 & E2 & E3 & E4 & E5 & Hd). split_and!; try done; cbn.
  - rewrite E1, E2. intros s Hs. by split; [apply Hkept|apply Hsrc].
  - intros _. exists current. rewrite E1. split; [done|]. intros Hne. split; [by apply Hd|by apply Hc].
Qed.

Lemma same_expiration a b : same_snapshot a b = true -> expiration a = expiration b.
Proof. unfold same_snapshot. rewrite !andb_true_iff. intros [[[H _] _] _]. by apply Z.eqb_eq. Qed.

Lemma refresh_try_tried p now t env :
  0 <= now -> cred_inv p -> env_between now t env -> (forall value, load_source env = Ok value -> source_ok (kind p) value) ->
  tried p now t (refresh_try p now env).
Proof.
  intros Hnow Hinv [Hc Hi Hs _] Hload. unfold refresh_try.
  destruct (load_source env) as [value|e]; [|by apply tried_unchanged]. specialize (Hload value eq_refl).
  assert (Haccept : (expiration value <> 0 -> exists t0, now <= t0 <= t /\ epoch_at t0 < expiration value) ->
    tried p now t
      match current_ p with
      | Some current => if same_snapshot current value then schedule_refresh p current now (schedule_epoch env)
                        else install p value now (install_epoch env) (schedule_epoch env)
      | None => install p value now (install_epoch env) (schedule_epoch env)
      end).
  { intros Hv. destruct (current_ p) as [current|] eqn:Ecur; [|by apply install_tried].
    destruct (same_snapshot current value) eqn:Es; [|by apply install_tried].
    apply same_expiration in Es. apply schedule_tried; try done. by rewrite Es. }
  cbn zeta. destruct (Z.eqb_spec (expiration value) 0); [by apply Haccept|].
  destruct (check_epoch env) as [v|e]; [|by apply tried_unchanged].
  destruct (Z.leb_spec (expiration value) v); [by apply tried_unchanged|]. apply Haccept. intros _.
  destruct (Hc v eq_refl) as (t0 & ? & ->). by exists t0.
Qed.

(** After a refresh that did not throw, the snapshot was found valid during the refresh. *)
Lemma refresh_locked_inv p now t env p' :
  0 <= now -> cred_inv p -> env_between now t env -> (forall value, load_source env = Ok value -> source_ok (kind p) value) ->
  refresh_locked p now env = (p', Ok tt) ->
  exists s, current_ p' = Some s /\ s ∈ snapshots_ p' /\ source_ok (kind p') s /\ kind p' = kind p /\ stopped_ p' = stopped_ p /\
    (expiration s <> 0 -> next_refresh_ns_ p' <= expiry_ns s + 1000000000 /\ exists t1, now <= t1 <= t /\ epoch_at t1 < expiration s).
Proof.
  intros Hnow Hinv Henv Hload. pose proof (refresh_try_tried p now t env Hnow Hinv Henv Hload) as (Hk & Hst & Hkept & Hok).
  unfold refresh_locked. destruct (refresh_try p now env) as [q [[]|error]]; cbn in *.
  - intros [= <-]. destruct (Hok eq_refl) as (s & Es & Hd). destruct (Hkept s Es). exists s. by rewrite Hk.
  - destruct (catch_epoch env) as [v|] eqn:Ecatch; [|done]. destruct (current_ q) as [s|] eqn:Es; [|done].
    destruct (Hkept s eq_refl) as [Hin Hsrc].
    destruct ((expiration s =? 0) || (v <? expiration s)) eqn:Ev; [|done]. intros [= <-].
    exists s. cbn. rewrite Hk. split_and!; try done. intros Hne.
    destruct (Z.eqb_spec (expiration s) 0); [done|]. cbn in Ev. apply Z.ltb_lt in Ev.
    destruct (eb_catch _ _ _ Henv v Ecatch) as (t1 & Ht1 & ->). split; [|by exists t1].
    pose proof (left_after s t1). pose proof (u64_le ((expiration s - epoch_at t1) * 1000000000) ltac:(lia)).
    pose proof (add_time_le now (Z.min kCredentialRetryNs (u64 ((expiration s - epoch_at t1) * 1000000000))) Hnow). lia.
Qed.

Lemma refresh_turn_inv p now t env :
  0 <= now -> cred_inv p -> env_between now t env -> (forall value, load_source env = Ok value -> source_ok (kind p) value) ->
  cred_inv (refresh_turn p (Ok now) env).
Proof.
  intros Hnow Hinv Henv Hload. unfold refresh_turn. cbn zeta. destruct (_ || _); [done|].
  destruct (refresh_locked p now env) as [p' [[]|e]] eqn:E.
  - destruct (refresh_locked_inv p now t env p' Hnow Hinv Henv Hload E) as (s & Es & Hin & Hsrc & _ & _ & Hd).
    split; cbn; rewrite Es; intros; simplify_eq; try done. by apply Hd.
  - split; cbn; done.
Qed.

Lemma cred_run_inv t p : cred_run t p -> cred_inv p /\ 0 <= t.
Proof.
  induction 1 as [k reload value now t e1 e2 p Ht H1 H2 Hk E|t p now t' env _ [IH ?] Hr Hs Ht Henv Hload|t p e env _ [IH ?] Hr Hs].
  - split; [|lia]. pose proof (install_inv (new_provider k reload) value now t e1 e2 ltac:(lia) Hk H1 H2) as H.
    rewrite E in H. destruct H as (Ec & Hin & Ek & _ & Hd).
    split; rewrite Ec; intros; simplify_eq; try done; [by rewrite Ek|by apply Hd].
  - split; [|lia]. eapply refresh_turn_inv; [lia|done..].
  - split; [|lia]. split; cbn; done.
Qed.
End Time.

(** ** Theorem *)

(** C20: whatever the sources, their failures and the clock readings, the snapshot that requests
    use is one that is kept, and if it expires its next refresh is due no later than one second
    after its expiration.  A refresh that is due ends with a snapshot that was found valid
    during that very refresh, or with none and an error; without a snapshot every reader gets
    the error of the last refresh, or, on a reactor while the refresher holds the mutex, the
    answer to come back later. *)
Theorem credentials_refreshed_in_time base t p :
  cred_run base t p ->
  (forall s, current_ p = Some s -> s ∈ snapshots_ p /\
     (expiration s <> 0 -> next_refresh_ns_ p <= expiry_ns base s + 1000000000)) /\
  (forall on_reactor locked, current_ p = None ->
     (exists e, refresh_error_ p = Some e /\ get p on_reactor locked None = if on_reactor && locked then Refreshing else Thrown e)) /\
  (forall now t' env, t <= now <= t' -> env_between base now t' env ->
     (forall value, load_source env = Ok value -> source_ok (kind p) value) ->
     next_refresh_ns_ p <> UINT64_MAX -> next_refresh_ns_ p <= now ->
     match current_ (refresh_turn p (Ok now) env) with
     | Some s => expiration s = 0 \/ exists t1, now <= t1 <= t' /\ epoch_at base t1 < expiration s
     | None => is_Some (refresh_error_ (refresh_turn p (Ok now) env))
     end).
Proof.
  intros R. destruct (cred_run_inv base t p R) as [I Ht]. pose proof I as [Hkept Hsrc Hdue Herr]. split_and!.
  - intros s Hs. by split; [apply Hkept|apply Hdue].
  - intros r l Hn. destruct (Herr Hn) as [e He]. exists e. split; [done|]. unfold get. rewrite Hn, He. by destruct (r && l).
  - intros now t' env Hnow Henv Hload Hmax Hle. unfold refresh_turn. cbn zeta.
    destruct (Z.eqb_spec (next_refresh_ns_ p) UINT64_MAX); [done|]. destruct (Z.ltb_spec now (next_refresh_ns_ p)); [lia|]. cbn [orb].
    destruct (refresh_locked p now env) as [p' [[]|e]] eqn:E; [|cbn; by eexists].
    destruct (refresh_locked_inv base p now t' env p' ltac:(lia) I Henv Hload E) as (s & Es & _ & _ & _ & _ & Hd).
    cbn. rewrite Es. destruct (Z.eq_dec (expiration s) 0) as [|Hne]; [by left|right]. apply (Hd Hne).
Qed.

(** Credentials that expire 1000 seconds after the start; the first refresh, 700 seconds later,
    fails, and they are kept for a retry 30 seconds later. *)
Definition sample_snapshot : Snapshot := mkSnapshot {| access_key_id := lit "a"; secret_access_key := lit "b"; session_token := [] |} 2000.
Definition sample_provider : Provider := (install (new_provider Expiring 0) sample_snapshot 0 (Ok 1000) (Ok 1000)).1.
Definition sample_env_failed : RefreshEnv := mkRefreshEnv (Throw RuntimeError) (Ok 1700) (Ok 1700) (Ok 1700) (Ok 1700).
Definition sample_retained : Provider := refresh_turn sample_provider (Ok 700000000000) sample_env_failed.

Lemma sample_reading (a b : Z) (Ha : a <= 700000000000 <= b) : read_between 1000 a b (Ok 1700).
Proof. intros v H. injection H as <-. exists 700000000000. split; [exact Ha|reflexivity]. Qed.

Lemma sample_retained_run : cred_run 1000 700000000000 sample_retained.
Proof.
  apply (cred_turn 1000 0 sample_provider 700000000000).
  - apply (cred_start 1000 Expiring 0 sample_snapshot 0 0 (Ok 1000) (Ok 1000)).
    + lia.
    + intros v H. injection H as <-. exists 0. split; [lia|reflexivity].
    + intros v H. injection H as <-. exists 0. split; [lia|reflexivity].
    + left. reflexivity.
    + vm_compute. reflexivity.
  - reflexivity.
  - reflexivity.
  - lia.
  - split; apply sample_reading; lia.
  - discriminate.
Qed.

Lemma credentials_refreshed_in_time_witness :
  current_ sample_retained = Some sample_snapshot /\ next_refresh_ns_ sample_retained = 730000000000 /\
  next_refresh_ns_ sample_retained <= expiry_ns 1000 sample_snapshot + 1000000000.
Proof.
  split; [vm_compute; reflexivity|]. split; [vm_compute; reflexivity|].
  apply (proj1 (credentials_refreshed_in_time 1000 700000000000 sample_retained sample_retained_run) sample_snapshot).
  - vm_compute. reflexivity.
  - discriminate.
Defined.

(** An expiration in the year 9999 is more nanoseconds away than a [uint64_t] holds: the product
    wraps before the saturating addition, and the refresh is scheduled centuries early. *)
Example far_expiration_wraps :
  let far := mkSnapshot {| access_key_id := lit "a"; secret_access_key := lit "b"; session_token := [] |} 253402300799 in
  next_refresh_ns_ (schedule_refresh (new_provider Expiring 0) far 0 (Ok 1763000000)).1 =
    (253402300799 - 1763000000 - 300) * 1000000000 - 13 * 2 ^ 64.
Proof. vm_compute. reflexivity. Qed.
