(* ===== verification/CacheLayout.v ===== *)
(** * The layout of the cache directory

    The encoding of [cache.cpp] that names the files of object keys, one component at a time.
    [SHA256] is a parameter. *)

From S2P Require Import Prelude StdText.

(** ** File names *)

Definition hex_alphabet : bytes := lit "0123456789abcdef".
Definition base64url_alphabet : bytes := lit "ABCDEFGHIJKLMNOPQRSTUVWXYZabcdefghijklmnopqrstuvwxyz0123456789-_".

Definition cache_hex (b : bytes) : bytes :=
  b ≫= (fun c => [at_z hex_alphabet (Z.shiftr (u8 c) 4); at_z hex_alphabet (Z.land (u8 c) 15)]).

Definition sym (i : Z) : ascii := at_z base64url_alphabet i.

Fixpoint cache_base64url (value : bytes) : bytes :=
  match value with
  | a :: b :: c :: rest =>
      let a := u8 a in let b := u8 b in let c := u8 c in
      sym (Z.shiftr a 2) :: sym (Z.lor (Z.shiftl (Z.land a 3) 4) (Z.shiftr b 4)) ::
      sym (Z.lor (Z.shiftl (Z.land b 15) 2) (Z.shiftr c 6)) :: sym (Z.land c 63) :: cache_base64url rest
  | [a; b] =>
      let a := u8 a in let b := u8 b in
      [sym (Z.shiftr a 2); sym (Z.lor (Z.shiftl (Z.land a 3) 4) (Z.shiftr b 4)); sym (Z.shiftl (Z.land b 15) 2)]
  | [a] => let a := u8 a in [sym (Z.shiftr a 2); sym (Z.shiftl (Z.land a 3) 4)]
  | [] => []
  end.

Definition kCacheEscapePrefix : bytes := lit ".~ngs3fs~.".
Definition kCacheValueName : bytes := lit ".~ngs3fs~.value".

Definition cache_component_needs_escape (value : bytes) : bool :=
  bool_decide (value = []) || str_eqb value (lit ".") || str_eqb value (lit "..") ||
  starts_with kCacheEscapePrefix value || existsb (fun c => (u8 c <? 32) || (u8 c =? 127)) value.

Section Encode.
Variable SHA256 : bytes -> bytes.

Definition cache_encode_component (component : bytes) (name_max : Z) : result bytes :=
  if negb (cache_component_needs_escape component) && (vsize component <=? name_max) then Ok component
  else
    let encoded := kCacheEscapePrefix ++ lit "b" ++ cache_base64url component in
    if vsize encoded <=? name_max then Ok encoded
    else
      let encoded := kCacheEscapePrefix ++ lit "h" ++ cache_hex (SHA256 component) in
      if name_max <? vsize encoded then Throw (SystemError ENAMETOOLONG) else Ok encoded.
End Encode.

(** ** Encodings can be told apart *)

Lemma check_small (n : Z) (P : Z -> bool) i : forallb P (zrange 0 n) = true -> 0 <= i < n -> P i = true.
Proof. rewrite forallb_forall. intros H Hi. apply H, list_elem_of_In, elem_of_zrange. done. Qed.

Lemma check_small2 (n m : Z) (P : Z -> Z -> bool) i j :
  forallb (fun i => forallb (P i) (zrange 0 m)) (zrange 0 n) = true -> 0 <= i < n -> 0 <= j < m -> P i j = true.
Proof. intros H Hi Hj. apply (check_small n _ i) in H; [|done]. by apply (check_small m _ j) in H. Qed.

Lemma sym_inj i j : 0 <= i < 64 -> 0 <= j < 64 -> sym i = sym j -> i = j.
Proof.
  intros Hi Hj E.
  pose proof (check_small2 64 64 (fun i j => negb (ascii_eqb (sym i) (sym j)) || (i =? j)) i j ltac:(by vm_compute) Hi Hj) as H.
  cbn beta in H. rewrite E in H. unfold ascii_eqb in H. rewrite Ascii.eqb_refl in H. by apply Z.eqb_eq.
Qed.

(** The four indices of a triple as quotients and remainders. *)
Lemma first_index a : Z.shiftr a 2 = a / 4.
Proof. by rewrite Z.shiftr_div_pow2. Qed.

Lemma second_index a b : 0 <= b < 256 -> Z.lor (Z.shiftl (Z.land a 3) 4) (Z.shiftr b 4) = a mod 4 * 16 + b / 16.
Proof.
  intros Hb. change 3 with (Z.ones 2). rewrite Z.land_ones, Z.shiftr_div_pow2 by lia.
  change (2 ^ 2) with 4. change (2 ^ 4) with 16.
  assert (0 <= a mod 4 < 4) by (apply Z.mod_pos_bound; lia).
  assert (0 <= b / 16 < 16) by (split; [apply Z.div_pos|apply Z.div_lt_upper_bound]; lia).
  apply Z.eqb_eq, (check_small2 4 16 (fun r q => Z.lor (Z.shiftl r 4) q =? r * 16 + q)); [by vm_compute|done..].
Qed.

Lemma third_index b c : 0 <= c < 256 -> Z.lor (Z.shiftl (Z.land b 15) 2) (Z.shiftr c 6) = b mod 16 * 4 + c / 64.
Proof.
  intros Hc. change 15 with (Z.ones 4). rewrite Z.land_ones, Z.shiftr_div_pow2 by lia.
  change (2 ^ 4) with 16. change (2 ^ 6) with 64.
  assert (0 <= b mod 16 < 16) by (apply Z.mod_pos_bound; lia).
  assert (0 <= c / 64 < 4) by (split; [apply Z.div_pos|apply Z.div_lt_upper_bound]; lia).
  apply Z.eqb_eq, (check_small2 16 4 (fun r q => Z.lor (Z.shiftl r 2) q =? r * 4 + q)); [by vm_compute|done..].
Qed.

Lemma fourth_index c : Z.land c 63 = c mod 64.
Proof. change 63 with (Z.ones 6). by rewrite Z.land_ones. Qed.

Lemma second_last a : Z.shiftl (Z.land a 3) 4 = a mod 4 * 16.
Proof. change 3 with (Z.ones 2). rewrite Z.land_ones, Z.shiftl_mul_pow2 by lia. done. Qed.

Lemma third_last b : Z.shiftl (Z.land b 15) 2 = b mod 16 * 4.
Proof. change 15 with (Z.ones 4). rewrite Z.land_ones, Z.shiftl_mul_pow2 by lia. done. Qed.

Ltac same_symbols :=
  repeat match goal with
    | H : sym ?i = sym ?j |- _ => apply sym_inj in H; [|Z.to_euclidean_division_equations; lia..]
    end.

Lemma cache_base64url_inj (n : nat) (v w : bytes) : (length v <= n)%nat -> cache_base64url v = cache_base64url w -> v = w.
Proof.
  revert v w. induction n as [|n IH]; intros v w Hn E.
  - destruct v; [|cbn in Hn; lia]. by destruct w as [|? [|? [|? ?]]].
  - destruct v as [|a [|b [|c v]]], w as [|a' [|b' [|c' w]]]; try done; cbn [cache_base64url] in E; try discriminate;
      pose proof (u8_range a); pose proof (u8_range a'); try (pose proof (u8_range b); pose proof (u8_range b'));
      try (pose proof (u8_range c); pose proof (u8_range c'));
      rewrite ?first_index, ?second_index, ?third_index, ?fourth_index, ?second_last, ?third_last in E by done.
    + injection E as E1 E2. same_symbols. f_equal. apply u8_inj. Z.to_euclidean_division_equations; lia.
    + injection E as E1 E2 E3. same_symbols. f_equal; [|f_equal]; apply u8_inj; Z.to_euclidean_division_equations; lia.
    + injection E as E1 E2 E3 E4 E5. same_symbols.
      assert (a = a' /\ b = b' /\ c = c') as (-> & -> & ->)
        by (split_and!; apply u8_inj; Z.to_euclidean_division_equations; lia).
      do 3 f_equal. apply IH; [cbn in Hn; lia|done].
Qed.

Lemma hex_digit_inj i j : 0 <= i < 16 -> 0 <= j < 16 -> at_z hex_alphabet i = at_z hex_alphabet j -> i = j.
Proof.
  intros Hi Hj E.
  pose proof (check_small2 16 16 (fun i j => negb (ascii_eqb (at_z hex_alphabet i) (at_z hex_alphabet j)) || (i =? j)) i j
    ltac:(by vm_compute) Hi Hj) as H.
  cbn beta in H. rewrite E in H. unfold ascii_eqb in H. rewrite Ascii.eqb_refl in H. by apply Z.eqb_eq.
Qed.

Lemma cache_hex_inj (v w : bytes) : cache_hex v = cache_hex w -> v = w.
Proof.
  revert w. induction v as [|c v IH]; intros [|d w] E; try done. cbn in E. injection E as E1 E2 E3.
  pose proof (u8_range c). pose proof (u8_range d). f_equal; [|by apply IH].
  rewrite !Z.shiftr_div_pow2 in E1 by lia. change 15 with (Z.ones 4) in E2. rewrite !Z.land_ones in E2 by lia.
  apply hex_digit_inj in E1; [|change (2 ^ 4) with 16; Z.to_euclidean_division_equations; lia..].
  apply hex_digit_inj in E2; [|change (2 ^ 4) with 16; Z.to_euclidean_division_equations; lia..].
  apply u8_inj. change (2 ^ 4) with 16 in *. Z.to_euclidean_division_equations; lia.
Qed.

(** Every symbol of the alphabets can stand in a file name. *)
Definition name_char (c : ascii) : bool := negb (ascii_eqb c "/") && (32 <=? u8 c) && negb (u8 c =? 127).

Lemma sym_name i : 0 <= i < 64 -> name_char (sym i) = true.
Proof. intros Hi. by apply (check_small 64 (fun i => name_char (sym i))); [vm_compute|]. Qed.

Lemma base64url_name (n : nat) (v : bytes) : (length v <= n)%nat -> Forall (fun c => name_char c = true) (cache_base64url v).
Proof.
  revert v. induction n as [|n IH]; intros v Hn; [destruct v; [constructor|cbn in Hn; lia]|].
  destruct v as [|a [|b [|c v]]]; cbn [cache_base64url]; [constructor|..];
    pose proof (u8_range a); try pose proof (u8_range b); try pose proof (u8_range c);
    rewrite ?first_index, ?second_index, ?third_index, ?fourth_index, ?second_last, ?third_last by done;
    repeat constructor; try (apply sym_name; Z.to_euclidean_division_equations; lia).
  apply IH. cbn in Hn. lia.
Qed.

Lemma hex_name (v : bytes) : Forall (fun c => name_char c = true) (cache_hex v).
Proof.
  induction v as [|c v IH]; [constructor|]. cbn. pose proof (u8_range c).
  assert (Hs : forall i, 0 <= i < 16 -> name_char (at_z hex_alphabet i) = true)
    by (intros i Hi; by apply (check_small 16 (fun i => name_char (at_z hex_alphabet i))); [vm_compute|]).
  repeat constructor; [..|exact IH]; apply Hs.
  - rewrite Z.shiftr_div_pow2 by lia. change (2 ^ 4) with 16. Z.to_euclidean_division_equations; lia.
  - change 15 with (Z.ones 4). rewrite Z.land_ones by lia. apply Z.mod_pos_bound. lia.
Qed.

(** ** Theorems *)

(** A name a directory can hold beside the cache's own names: not empty, not [.] or [..], without
    slashes and control characters, not longer than the file system allows, and not
    [kCacheValueName]. *)
Definition good_name (name_max : Z) (name : bytes) : Prop :=
  name <> [] /\ name <> lit "." /\ name <> lit ".." /\ Forall (fun c => name_char c = true) name /\
  vsize name <= name_max /\ name <> kCacheValueName.

Lemma needs_escape_false v :
  cache_component_needs_escape v = false ->
  v <> [] /\ v <> lit "." /\ v <> lit ".." /\ (forall s, v <> kCacheEscapePrefix ++ s) /\
  Forall (fun c => (u8 c <? 32) || (u8 c =? 127) = false) v.
Proof.
  unfold cache_component_needs_escape. rewrite !orb_false_iff. intros [[[[H1 H2] H3] H4] H5].
  apply bool_decide_eq_false in H1. split_and!; [done|intros ->; done|intros ->; done| |].
  - intros s ->. apply not_true_iff_false in H4. apply H4, starts_with_spec. by exists s.
  - apply Forall_forall. intros c Hc. apply not_true_iff_false. intros Hbad.
    apply not_true_iff_false in H5. apply H5, existsb_exists. exists c. split; [by apply list_elem_of_In|done].
Qed.

Lemma escaped_name (tag v : bytes) name_max :
  Forall (fun c => name_char c = true) v -> (tag = lit "b" \/ tag = lit "h") -> vsize (kCacheEscapePrefix ++ tag ++ v) <= name_max ->
  good_name name_max (kCacheEscapePrefix ++ tag ++ v).
Proof.
  intros Hv Ht Hs. split_and!; try done; [..|by destruct Ht as [-> | ->]].
  apply Forall_app. split; [by repeat constructor|]. apply Forall_app. split; [|done].
  destruct Ht as [-> | ->]; by repeat constructor.
Qed.

(** The three forms of an encoded component. *)
Lemma encode_cases SHA256 name_max v y :
  cache_encode_component SHA256 v name_max = Ok y ->
  (cache_component_needs_escape v = false /\ vsize v <= name_max /\ y = v) \/
  (y = kCacheEscapePrefix ++ lit "b" ++ cache_base64url v /\ vsize y <= name_max) \/
  (y = kCacheEscapePrefix ++ lit "h" ++ cache_hex (SHA256 v) /\ vsize y <= name_max).
Proof.
  unfold cache_encode_component.
  destruct (cache_component_needs_escape v); cbn [negb andb];
    [|destruct (Z.leb_spec (vsize v) name_max); [intros <-%Ok_inj; auto|]].
  all: cbn zeta; destruct (Z.leb_spec (vsize (kCacheEscapePrefix ++ lit "b" ++ cache_base64url v)) name_max); [intros <-%Ok_inj; auto|].
  all: destruct (Z.ltb_spec name_max (vsize (kCacheEscapePrefix ++ lit "h" ++ cache_hex (SHA256 v)))); [done|intros <-%Ok_inj; auto].
Qed.

Lemma encode_same SHA256 name_max a b x :
  cache_encode_component SHA256 a name_max = Ok x -> cache_encode_component SHA256 b name_max = Ok x ->
  a = b \/ (a <> b /\ SHA256 a = SHA256 b).
Proof.
  intros [(Ha & _ & ->)|[[-> _]|[-> _]]]%encode_cases [(Hb & _ & E)|[[E _]|[E _]]]%encode_cases; try discriminate.
  all: try (apply needs_escape_false in Ha as (_ & _ & _ & H4 & _); by destruct (H4 _ E)).
  all: try (apply needs_escape_false in Hb as (_ & _ & _ & H4 & _); symmetry in E; by destruct (H4 _ E)).
  - by left.
  - left. injection E as E. by eapply cache_base64url_inj.
  - injection E as E%cache_hex_inj. destruct (decide (a = b)); [by left|by right].
Qed.

Lemma encode_good SHA256 name_max a x :
  ~ "/"%char ∈ a -> cache_encode_component SHA256 a name_max = Ok x -> good_name name_max x.
Proof.
  intros Hslash [(Ha & Hs & ->)|[[-> Hs]|[-> Hs]]]%encode_cases.
  - apply needs_escape_false in Ha as (H1 & H2 & H3 & H4 & H5). split_and!; try done.
    + apply Forall_forall. intros c Hc. rewrite Forall_forall in H5. specialize (H5 c Hc).
      apply orb_false_iff in H5 as [H5 H6]. unfold name_char. rewrite H6. apply Z.ltb_ge in H5.
      destruct (Z.leb_spec 32 (u8 c)); [|lia]. unfold ascii_eqb. by destruct (Ascii.eqb_spec c "/") as [->|].
    + intros E. by apply (H4 (lit "value")).
  - apply escaped_name; [by eapply base64url_name|by left|done].
  - apply escaped_name; [apply hex_name|by right|done].
Qed.

(** object keys are stored under names of their own.  For a component of a key (which
    contains no slash) the encoding is a valid file name that differs from the cache's own
    value file; and two components that are encoded to the same name are equal, unless they
    are two different texts with the same SHA-256 digest. *)
Theorem cache_encode_component_injective SHA256 name_max a b x :
  ~ "/"%char ∈ a -> cache_encode_component SHA256 a name_max = Ok x ->
  good_name name_max x /\
  (cache_encode_component SHA256 b name_max = Ok x -> a = b \/ (a <> b /\ SHA256 a = SHA256 b)).
Proof. intros Hslash Ea. split; [by eapply encode_good|intros Eb; by eapply encode_same]. Qed.

(** A digest that is enough for the two components below. *)
Definition sample_digest (v : bytes) : bytes := take_z 2 v.

Lemma cache_encode_component_injective_witness :
  cache_encode_component sample_digest (lit "..") 20 = Ok (lit ".~ngs3fs~.bLi4") /\
  good_name 20 (lit ".~ngs3fs~.bLi4") /\
  (cache_encode_component sample_digest (lit ".~ngs3fs~.bLi4") 40 = Ok (lit ".~ngs3fs~.bLn5uZ3MzZnN-LmJMaTQ")).
Proof.
  split; [vm_compute; reflexivity|]. split; [|vm_compute; reflexivity].
  apply (cache_encode_component_injective sample_digest 20 (lit "..") (lit "..") (lit ".~ngs3fs~.bLi4")).
  - apply (bool_decide_unpack _). vm_compute. exact I.
  - vm_compute. reflexivity.
Defined.
