(* ===== verification/CacheTree.v ===== *)
(** * The tree of cached objects

    Each key has a file in the cache directory, found by the encoded components of the key
    ([cache_leaf], [cache_find_leaf], [cache_promote_file] of [cache.cpp]).  A key may be a
    prefix of another ([a] and [a/b]): the file of the shorter one is then moved to a value file
    inside the directory that the longer one needs.  The file system is a map from paths to
    nodes on which [mkdirat] and [renameat] act as POSIX says; a system call that fails
    otherwise is an argument. *)

From S2P Require Import Prelude StdText CacheLayout.

(** A regular file, known by its content, a directory, a symbolic link, or something else. *)
Inductive Node := File (content : Z) | Dir | Link | Special.

Abbreviation path := (list bytes).
Abbreviation FileSystem := (gmap (list bytes) Node).

Definition ELOOP : Z := 40.

(** ** Keys *)

(** The components of a key; [part] is the one being read. *)
Fixpoint key_components (part key : bytes) : list bytes :=
  match key with
  | [] => [part]
  | c :: key => if ascii_eqb c "/" then part :: key_components [] key else key_components (part ++ [c]) key
  end.

(** ** Promotion *)

(** The call of [cache_promote_file] that fails, if one does. *)
Inductive PromoteFault := RenameSource | MakeDirectory | OpenDirectory | RenameValue.

Definition is_directory (n : option Node) : bool := match n with Some Dir => true | _ => false end.

(** [unlinked] and [renamed] say whether the two calls of the handler, whose results are ignored,
    go through; [unlinkat] takes a directory only, and [renameat] does not replace one by a file. *)
Definition cache_promote_file (fs : FileSystem) (dir : path) (name temporary : bytes) (content : Z)
    (fault : option (PromoteFault * Z)) (unlinked renamed : bool) : FileSystem * result unit :=
  let moved := <[dir ++ [temporary] := File content]> (delete (dir ++ [name]) fs) in
  let made := <[dir ++ [name] := Dir]> moved in
  let undo fs :=
    let fs := if unlinked && is_directory (fs !! (dir ++ [name])) then delete (dir ++ [name]) fs else fs in
    if renamed && negb (is_directory (fs !! (dir ++ [name])))
    then <[dir ++ [name] := File content]> (delete (dir ++ [temporary]) fs) else fs in
  match fault with
  | Some (RenameSource, e) => (fs, Throw (SystemError e))
  | Some (MakeDirectory, e) => (undo moved, Throw (SystemError e))
  | Some (OpenDirectory, e) | Some (RenameValue, e) => (undo made, Throw (SystemError e))
  | None => (<[dir ++ [name; kCacheValueName] := File content]> (delete (dir ++ [temporary]) made), Ok tt)
  end.

(** ** Paths *)

Section Tree.
Variable temporary : bytes.

(** What fails while a component is entered: [fstatat], the [mkdirat] of a new directory, a
    call of the promotion, with what its handler achieves, or opening the directory, which
    also checks its owner. *)
Inductive Fault :=
  | StatFails (x : exn) | MkdirFails (x : exn)
  | PromoteFails (f : PromoteFault) (e : Z) (unlinked renamed : bool)
  | OpenFails (x : exn).

(** The handler of a failed promotion leaves the file under its temporary name. *)
Definition not_undone (fault : option Fault) : bool :=
  match fault with
  | Some (PromoteFails RenameSource _ _ _) => false
  | Some (PromoteFails MakeDirectory _ _ renamed) => negb renamed
  | Some (PromoteFails _ _ unlinked renamed) => negb (unlinked && renamed)
  | _ => false
  end.

Definition open_directory (fs : FileSystem) (fault : option Fault) : FileSystem * result unit :=
  match fault with Some (OpenFails x) => (fs, Throw x) | _ => (fs, Ok tt) end.

(** One inner component of [cache_leaf]. *)
Definition enter_component (fs : FileSystem) (dir : path) (name : bytes) (fault : option Fault) : FileSystem * result unit :=
  match fault, fs !! (dir ++ [name]) with
  | Some (StatFails x), _ => (fs, Throw x)
  | Some (MkdirFails x), None => (fs, Throw x)
  | _, None => open_directory (<[dir ++ [name] := Dir]> fs) fault
  | _, Some (File content) =>
      match (match fault with
             | Some (PromoteFails f e unlinked renamed) =>
                 cache_promote_file fs dir name temporary content (Some (f, e)) unlinked renamed
             | _ => cache_promote_file fs dir name temporary content None true true
             end) with
      | (fs, Ok _) => open_directory fs fault
      | r => r
      end
  | _, Some Dir => open_directory fs fault
  | _, Some Link | _, Some Special => (fs, Throw (SystemError ELOOP))
  end.

(** The components of the key, encoded when they are reached; [faults] gives what fails in them,
    one for each. *)
Fixpoint leaf_at (fs : FileSystem) (dir : path) (names : list (result bytes)) (faults : list (option Fault)) :
    FileSystem * result path :=
  match names with
  | [] => (fs, Throw LogicError)
  | Throw e :: _ => (fs, Throw e)
  | [Ok name] =>
      match default None (head faults), fs !! (dir ++ [name]) with
      | Some (StatFails x), _ => (fs, Throw x)
      | Some (OpenFails x), Some Dir => (fs, Throw x)
      | _, Some Dir => (fs, Ok (dir ++ [name; kCacheValueName]))
      | _, Some Link => (fs, Throw (SystemError ELOOP))
      | _, _ => (fs, Ok (dir ++ [name]))
      end
  | Ok name :: names =>
      match enter_component fs dir name (default None (head faults)) with
      | (fs, Ok _) => leaf_at fs (dir ++ [name]) names (tail faults)
      | (fs, Throw e) => (fs, Throw e)
      end
  end.

End Tree.

Fixpoint find_at (fs : FileSystem) (dir : path) (names : list (result bytes)) : result (option path) :=
  match names with
  | [] => Throw LogicError
  | Throw e :: _ => Throw e
  | [Ok name] =>
      match fs !! (dir ++ [name]) with
      | None => Ok None
      | Some Dir =>
          match fs !! (dir ++ [name; kCacheValueName]) with
          | None => Ok None
          | Some (File _) => Ok (Some (dir ++ [name; kCacheValueName]))
          | Some _ => Throw RuntimeError
          end
      | Some (File _) => Ok (Some (dir ++ [name]))
      | Some _ => Throw RuntimeError
      end
  | Ok name :: names =>
      match fs !! (dir ++ [name]) with
      | Some Dir => find_at fs (dir ++ [name]) names
      | _ => Ok None
      end
  end.

Section Keys.
Variable SHA256 : bytes -> bytes.
Variable name_max : Z.

Definition encoded (key : bytes) : list (result bytes) :=
  map (fun c => cache_encode_component SHA256 c name_max) (key_components [] key).

Definition cache_leaf (temporary : bytes) (fs : FileSystem) (key : bytes) (faults : list (option Fault)) :
    FileSystem * result path :=
  leaf_at temporary fs [] (encoded key) faults.

Definition cache_find_leaf (fs : FileSystem) (key : bytes) : result (option path) := find_at fs [] (encoded key).
End Keys.

(** ** What is stored *)

Definition stored (fs : FileSystem) (names : path) : option Z :=
  match fs !! names with
  | Some (File content) => Some content
  | Some Dir => match fs !! (names ++ [kCacheValueName]) with Some (File content) => Some content | _ => None end
  | _ => None
  end.

(** A tree that the cache has made: files and directories only, entries below directories, and
    no directory with the name of a value file. *)
Record tree_shape (fs : FileSystem) : Prop := {
  to_nodes : forall p n, fs !! p = Some n -> n = Dir \/ exists c, n = File c;
  to_parent : forall p name n, fs !! (p ++ [name]) = Some n -> p = [] \/ fs !! p = Some Dir;
  to_value : forall p, fs !! (p ++ [kCacheValueName]) <> Some Dir;
  to_root : fs !! [] = None }.

(** A name that no entry has; each promotion takes a new one. *)
Definition unused (name : bytes) (fs : FileSystem) : Prop := forall p, fs !! (p ++ [name]) = None.

Record tree_ok (temporary : bytes) (fs : FileSystem) : Prop := {
  to_shape : tree_shape fs;
  to_temporary : unused temporary fs }.

Definition plain_names (temporary : bytes) (names : path) : Prop :=
  names <> [] /\ Forall (fun n => n <> kCacheValueName /\ n <> temporary) names.

Section Proofs.
Variable temporary : bytes.
Hypothesis temporary_name : temporary <> kCacheValueName.

Lemma snoc_value (p q : path) name : p ++ [kCacheValueName] = q ++ [name] -> name = kCacheValueName.
Proof. intros H. by apply app_inj_tail in H as [_ ?]. Qed.

Lemma plain_last p name : plain_names temporary (p ++ [name]) -> name <> kCacheValueName /\ name <> temporary.
Proof. intros [_ H]. apply Forall_app in H as [_ H]. rewrite Forall_singleton in H. exact H. Qed.

(** A plain path is not that of a value file. *)
Lemma plain_not_value names p : plain_names temporary names -> names <> p ++ [kCacheValueName].
Proof. intros H ->. by destruct (plain_last _ _ H). Qed.

(** Making the directory a longer key needs changes nothing that is stored. *)
Lemma make_directory_ok fs p :
  tree_ok temporary fs -> plain_names temporary p -> fs !! p = None ->
  (forall q name, p = q ++ [name] -> q = [] \/ fs !! q = Some Dir) ->
  tree_ok temporary (<[p := Dir]> fs) /\
  (forall names, plain_names temporary names -> stored (<[p := Dir]> fs) names = stored fs names).
Proof.
  intros [[T1 T2 T3 T4] T5] Hp Hnone Hpar. split.
  - split; [split|].
    + intros q n. rewrite lookup_insert_Some. intros [[_ <-]|[_ H]]; [by left|by eapply T1].
    + intros q name n. rewrite lookup_insert_Some. intros [[E _]|[Hne H]].
      * destruct (Hpar q name E) as [?|H]; [by left|right]. rewrite lookup_insert_ne; [done|].
        intros ->. by apply (f_equal length) in E; rewrite length_app in E; cbn in E; lia.
      * destruct (T2 _ _ _ H) as [?|H']; [by left|right]. by rewrite lookup_insert_ne by congruence.
    + intros q Hq. rewrite lookup_insert_Some in Hq. destruct Hq as [[E _]|[_ H]]; [by eapply plain_not_value|by eapply T3].
    + rewrite lookup_insert_ne; [done|]. by destruct Hp.
    + intros q. rewrite lookup_insert_None. split; [done|]. intros ->. by destruct (plain_last _ _ Hp).
  - intros names Hn. unfold stored. destruct (decide (names = p)) as [->|Hne].
    + rewrite lookup_insert_eq, Hnone, lookup_insert_ne by (intros E; by eapply plain_not_value).
      destruct (fs !! (p ++ [kCacheValueName])) as [n|] eqn:E; [|done].
      destruct (T2 _ _ _ E) as [->|H]; [by destruct Hp|congruence].
    + rewrite (lookup_insert_ne fs p names) by congruence.
      by rewrite (lookup_insert_ne fs p (names ++ _)) by (intros E; exact (plain_not_value _ _ Hp E)).
Qed.

(** The state a successful promotion leaves. *)
Lemma promoted_lookup fs dir name content :
  tree_ok temporary fs -> plain_names temporary (dir ++ [name]) -> fs !! (dir ++ [name]) = Some (File content) ->
  (cache_promote_file fs dir name temporary content None true true).1 =
    <[dir ++ [name; kCacheValueName] := File content]> (<[dir ++ [name] := Dir]> fs).
Proof.
  intros [_ T5] Hp Hf. cbn. destruct (plain_last _ _ Hp) as [_ Ht]. f_equal.
  assert (Hne : dir ++ [name] <> dir ++ [temporary]) by (intros E; by apply app_inj_tail in E as [_ ?]).
  rewrite delete_insert_ne by done. rewrite delete_insert_id.
  - apply insert_delete_eq.
  - rewrite lookup_delete_ne by done. apply T5.
Qed.

Lemma promote_fault fs dir name content f e unlinked renamed :
  tree_ok temporary fs -> plain_names temporary (dir ++ [name]) -> fs !! (dir ++ [name]) = Some (File content) ->
  not_undone (Some (PromoteFails f e unlinked renamed)) = false ->
  (cache_promote_file fs dir name temporary content (Some (f, e)) unlinked renamed).1 = fs.
Proof.
  intros [_ T5] Hp Hf Hu. destruct (plain_last _ _ Hp) as [_ Ht].
  assert (Hne : dir ++ [name] <> dir ++ [temporary]) by (intros E; by apply app_inj_tail in E as [_ ?]).
  assert (Hback : forall m, (forall q, q <> dir ++ [name] -> q <> dir ++ [temporary] -> m !! q = fs !! q) ->
    <[dir ++ [name] := File content]> (delete (dir ++ [temporary]) m) = fs).
  { intros m Hm. apply map_eq. intros q. destruct (decide (q = dir ++ [name])) as [->|]; [by rewrite lookup_insert_eq|].
    rewrite lookup_insert_ne by done. destruct (decide (q = dir ++ [temporary])) as [->|]; [by rewrite lookup_delete_eq, T5|].
    rewrite lookup_delete_ne by done. by apply Hm. }
  destruct f; cbn in Hu |- *; [done|destruct renamed; [|done]|destruct unlinked, renamed; try done..].
  - rewrite lookup_insert_ne, lookup_delete_eq by done. cbn. rewrite andb_false_r.
    rewrite lookup_insert_ne, lookup_delete_eq by done. cbn. apply Hback.
    intros q H1 H2. by rewrite lookup_insert_ne, lookup_delete_ne by done.
  - rewrite lookup_insert_eq. cbn. rewrite lookup_delete_eq. cbn. apply Hback.
    intros q H1 H2. by rewrite lookup_delete_ne, !lookup_insert_ne, lookup_delete_ne by done.
  - rewrite lookup_insert_eq. cbn. rewrite lookup_delete_eq. cbn. apply Hback.
    intros q H1 H2. by rewrite lookup_delete_ne, !lookup_insert_ne, lookup_delete_ne by done.
Qed.

(** The file of [dir ++ [name]] is left under the temporary name; nothing else has changed. *)
Record left_behind (fs fs' : FileSystem) (dir : path) (name : bytes) (content : Z) : Prop := {
  lb_shape : tree_shape fs';
  lb_before : stored fs (dir ++ [name]) = Some content;
  lb_after : stored fs' (dir ++ [name]) = None;
  lb_file : fs' !! (dir ++ [temporary]) = Some (File content);
  lb_other names : plain_names temporary names -> names <> dir ++ [name] -> stored fs' names = stored fs names;
}.

Lemma promote_left_lookup fs dir name content f e unlinked renamed :
  plain_names temporary (dir ++ [name]) -> not_undone (Some (PromoteFails f e unlinked renamed)) = true ->
  let fs' := (cache_promote_file fs dir name temporary content (Some (f, e)) unlinked renamed).1 in
  (fs' !! (dir ++ [name]) = None \/ fs' !! (dir ++ [name]) = Some Dir) /\
  forall q, q <> dir ++ [name] -> fs' !! q = if decide (q = dir ++ [temporary]) then Some (File content) else fs !! q.
Proof.
  intros Hp Hu. destruct (plain_last _ _ Hp) as [_ Ht].
  assert (Hne : dir ++ [name] <> dir ++ [temporary]) by (intros E; by apply app_inj_tail in E as [_ ?]).
  split.
  - destruct f; cbn in Hu |- *; [done|destruct renamed; [done|]|destruct unlinked, renamed; try done..].
    all: cbn; rewrite ?lookup_insert_eq, ?lookup_insert_ne, ?lookup_delete_eq by done; cbn.
    all: rewrite ?lookup_insert_eq; cbn; rewrite ?lookup_insert_eq, ?lookup_delete_eq; auto.
    all: destruct unlinked; cbn; rewrite ?lookup_insert_ne, ?lookup_delete_eq by done; auto.
  - intros q Hq. assert (Hm : forall m : FileSystem, (m = <[dir ++ [temporary] := File content]> (delete (dir ++ [name]) fs)) ->
      m !! q = if decide (q = dir ++ [temporary]) then Some (File content) else fs !! q).
    { intros m ->. case_decide as E; [by rewrite E, lookup_insert_eq|by rewrite lookup_insert_ne, lookup_delete_ne by done]. }
    destruct f; cbn in Hu |- *; [done|destruct renamed; [done|]|destruct unlinked, renamed; try done..].
    all: cbn; rewrite ?lookup_insert_eq; cbn; rewrite ?lookup_insert_eq; cbn.
    all: rewrite ?(lookup_insert_ne _ (dir ++ [temporary]) (dir ++ [name])), ?lookup_delete_eq by done; cbn.
    all: rewrite ?andb_false_r; cbn; rewrite ?lookup_delete_ne, ?(lookup_insert_ne _ (dir ++ [name]) q) by done; by apply Hm.
Qed.

Lemma promote_left fs dir name content f e unlinked renamed :
  tree_ok temporary fs -> plain_names temporary (dir ++ [name]) -> fs !! (dir ++ [name]) = Some (File content) ->
  not_undone (Some (PromoteFails f e unlinked renamed)) = true ->
  left_behind fs (cache_promote_file fs dir name temporary content (Some (f, e)) unlinked renamed).1 dir name content.
Proof.
  intros T Hp Hf Hu. pose proof T as [[T1 T2 T3 T4] T5]. destruct (plain_last _ _ Hp) as [Hnv Ht].
  destruct (promote_left_lookup fs dir name content f e unlinked renamed Hp Hu) as [Hat Hrest].
  set (fs' := (cache_promote_file _ _ _ _ _ _ _ _).1) in *. clearbody fs'. set (p := dir ++ [name]) in *.
  assert (Htp : dir ++ [temporary] <> p) by (intros E; by apply app_inj_tail in E as [_ ?]).
  assert (Hv : forall q, q ++ [kCacheValueName] <> p) by (intros q E; symmetry in E; exact (plain_not_value _ _ Hp E)).
  assert (Hval : forall q, fs' !! (q ++ [kCacheValueName]) = fs !! (q ++ [kCacheValueName])).
  { intros q. rewrite Hrest by apply Hv. rewrite decide_False; [done|]. intros E.
    apply app_inj_tail in E as [_ ?]. by apply temporary_name. }
  assert (Hpv : fs !! (p ++ [kCacheValueName]) = None).
  { destruct (fs !! (p ++ [kCacheValueName])) eqn:E; [|done]. destruct (T2 _ _ _ E) as [E'|E'].
    - by apply app_eq_nil in E' as [_ ?].
    - congruence. }
  split; fold p.
  - split.
    + intros q n Hq. destruct (decide (q = p)) as [->|Hqp]; [destruct Hat; left; congruence|].
      rewrite Hrest in Hq by done. case_decide; [right; exists content; congruence|by eapply T1].
    + assert (Hdir : forall q, q = [] \/ fs !! q = Some Dir -> q = [] \/ fs' !! q = Some Dir).
      { intros q [?|Hq]; [by left|right]. rewrite Hrest by (intros ->; congruence). rewrite decide_False; [done|].
        intros ->. by rewrite T5 in Hq. }
      intros q nm n Hq. apply Hdir. destruct (decide (q ++ [nm] = p)) as [E|Hqp].
      * apply (T2 q nm (File content)). by rewrite E.
      * rewrite Hrest in Hq by done. case_decide as E; [|by eapply T2]. apply app_inj_tail in E as [-> _].
        apply (T2 dir name (File content)). exact Hf.
    + intros q Hq. rewrite Hval in Hq. by apply (T3 q).
    + rewrite Hrest by (intros E; symmetry in E; by apply app_eq_nil in E as [_ ?]).
      rewrite decide_False; [done|]. intros E. symmetry in E. by apply app_eq_nil in E as [_ ?].
  - unfold stored. by rewrite Hf.
  - unfold stored. rewrite Hval, Hpv. by destruct Hat as [-> | ->].
  - by rewrite Hrest, decide_True.
  - intros names Hn Hne. unfold stored. rewrite Hval, Hrest, decide_False; [done| |done].
    intros ->. by destruct (plain_last _ _ Hn).
Qed.

Lemma promote_ok fs dir name content :
  tree_ok temporary fs -> plain_names temporary (dir ++ [name]) -> fs !! (dir ++ [name]) = Some (File content) ->
  let fs' := <[dir ++ [name; kCacheValueName] := File content]> (<[dir ++ [name] := Dir]> fs) in
  tree_ok temporary fs' /\ fs' !! (dir ++ [name]) = Some Dir /\
  (forall names, plain_names temporary names -> stored fs' names = stored fs names).
Proof.
  intros [[T1 T2 T3 T4] T5] Hp Hf fs'. set (p := dir ++ [name]) in *.
  assert (Ev : dir ++ [name; kCacheValueName] = p ++ [kCacheValueName]) by (unfold p; by rewrite <-app_assoc).
  assert (Hpv : p <> p ++ [kCacheValueName]) by (apply (plain_not_value p p Hp)).
  assert (Hdir : fs' !! p = Some Dir) by (unfold fs'; rewrite Ev, lookup_insert_ne by done; by rewrite lookup_insert_eq).
  assert (Hval : fs' !! (p ++ [kCacheValueName]) = Some (File content)) by (unfold fs'; by rewrite Ev, lookup_insert_eq).
  assert (Hother : forall q, q <> p -> q <> p ++ [kCacheValueName] -> fs' !! q = fs !! q).
  { intros q H1 H2. unfold fs'. by rewrite Ev, !lookup_insert_ne by done. }
  split_and!; [|done|].
  - split; [split|].
    + intros q n Hq. destruct (decide (q = p)) as [->|]; [rewrite Hdir in Hq; left; congruence|].
      destruct (decide (q = p ++ [kCacheValueName])) as [->|]; [rewrite Hval in Hq; right; exists content; congruence|].
      rewrite Hother in Hq by done. by eapply T1.
    + intros q nm n Hq. destruct (decide (q = p)) as [->|Hqp]; [by right|].
      assert (fs !! (q ++ [nm]) = Some n \/ q ++ [nm] = p) as [H|E].
      { destruct (decide (q ++ [nm] = p)) as [|H1]; [by right|]. destruct (decide (q ++ [nm] = p ++ [kCacheValueName])) as [E|H2].
        - by apply app_inj_tail in E as [-> _].
        - left. by rewrite <-Hother. }
      all: assert (Hpar : q = [] \/ fs !! q = Some Dir) by (first [exact (T2 _ _ _ H)|rewrite <-E in Hf; exact (T2 _ _ _ Hf)]).
      all: destruct Hpar as [?|Hpar]; [by left|right].
      all: rewrite Hother; [done|done|]; intros ->; by destruct (T3 p).
    + intros q Hq. destruct (decide (q ++ [kCacheValueName] = p)) as [E|H1]; [by destruct (plain_not_value p q Hp)|].
      destruct (decide (q ++ [kCacheValueName] = p ++ [kCacheValueName])) as [E|H2]; [rewrite E, Hval in Hq; done|].
      rewrite Hother in Hq by done. by eapply T3.
    + rewrite Hother; [done| |by destruct p]. intros E. by destruct Hp.
    + intros q. rewrite Hother; [done|..].
      * intros E. rewrite <-E in Hp. by destruct (plain_last _ _ Hp).
      * intros E. by apply app_inj_tail in E as [_ ?].
  - intros names Hn. unfold stored. destruct (decide (names = p)) as [->|Hne].
    + by rewrite Hdir, Hval, Hf.
    + rewrite (Hother names) by (done || apply (plain_not_value names p Hn)). destruct (fs !! names) as [[]|]; try done.
      rewrite Hother; [done|intros E; symmetry in E; by apply (plain_not_value p names Hp)|].
      intros E. by apply app_inj_tail in E as [? _].
Qed.

(** [dir] is the root or a directory, with a plain path. *)
Definition at_directory (fs : FileSystem) (dir : path) : Prop :=
  Forall (fun n => n <> kCacheValueName /\ n <> temporary) dir /\ (dir = [] \/ fs !! dir = Some Dir).

Definition plain_name (name : bytes) : Prop := name <> kCacheValueName /\ name <> temporary.

Lemma plain_snoc fs dir name : at_directory fs dir -> plain_name name -> plain_names temporary (dir ++ [name]).
Proof.
  intros [Hd _] Hn. split; [by destruct dir|]. apply Forall_app. split; [done|]. rewrite Forall_singleton. exact Hn.
Qed.

(** What entering a component promises, whatever fails but the handler of a promotion. *)
Definition entered (fs : FileSystem) (p : path) (res : FileSystem * result unit) : Prop :=
  tree_ok temporary res.1 /\ (forall names, plain_names temporary names -> stored res.1 names = stored fs names) /\
  (res.2 = Ok tt -> at_directory res.1 p).

(** And when that fails. *)
Definition entry_lost (fs : FileSystem) (dir : path) (name : bytes) (res : FileSystem * result unit) : Prop :=
  (exists e, res.2 = Throw e) /\ exists content, left_behind fs res.1 dir name content.

Lemma open_directory_ok fs0 fs p fault :
  tree_ok temporary fs -> (forall names, plain_names temporary names -> stored fs names = stored fs0 names) ->
  at_directory fs p -> entered fs0 p (open_directory fs fault).
Proof. intros T Hs Hd. unfold open_directory. destruct fault as [[]|]; by split_and!. Qed.

Lemma promotion_ok fs dir name content :
  tree_ok temporary fs -> plain_names temporary (dir ++ [name]) -> fs !! (dir ++ [name]) = Some (File content) ->
  entered fs (dir ++ [name]) (cache_promote_file fs dir name temporary content None true true).
Proof.
  intros T Hp E. pose proof (promote_ok fs dir name content T Hp E) as (T' & Hdir & Hs).
  unfold entered. rewrite (promoted_lookup fs dir name content T Hp E).
  split_and!; [done|done|]. intros _. split; [by destruct Hp|by right].
Qed.

Lemma promotion_fails fs dir name content f e unlinked renamed :
  tree_ok temporary fs -> plain_names temporary (dir ++ [name]) -> fs !! (dir ++ [name]) = Some (File content) ->
  let res := cache_promote_file fs dir name temporary content (Some (f, e)) unlinked renamed in
  res.2 = Throw (SystemError e) /\
  if not_undone (Some (PromoteFails f e unlinked renamed)) then entry_lost fs dir name res
  else entered fs (dir ++ [name]) res.
Proof.
  intros T Hp E res. assert (Hr : res.2 = Throw (SystemError e)) by (unfold res; by destruct f).
  split; [done|]. destruct (not_undone _) eqn:Eu.
  - split; [by eexists|]. exists content. by apply promote_left.
  - unfold entered. unfold res. rewrite (promote_fault fs dir name content f e unlinked renamed T Hp E Eu).
    split_and!; [done|done|]. fold res. by rewrite Hr.
Qed.

Lemma enter_component_ok fs dir name fault :
  tree_ok temporary fs -> at_directory fs dir -> plain_name name ->
  entered fs (dir ++ [name]) (enter_component temporary fs dir name fault) \/
  not_undone fault = true /\ entry_lost fs dir name (enter_component temporary fs dir name fault).
Proof.
  intros T Hd Hn. pose proof (plain_snoc fs dir name Hd Hn) as Hp. unfold enter_component.
  assert (Hall : Forall (fun n => n <> kCacheValueName /\ n <> temporary) (dir ++ [name])) by (by destruct Hp).
  assert (Hthrow : forall x, entered fs (dir ++ [name]) (fs, Throw x)) by (intros; by split_and!).
  destruct (fs !! (dir ++ [name])) as [[content| | |]|] eqn:E.
  - assert (Hprom : entered fs (dir ++ [name]) (match cache_promote_file fs dir name temporary content None true true with
                                                | (fs, Ok _) => open_directory fs fault | r => r end)).
    { pose proof (promotion_ok fs dir name content T Hp E) as H.
      destruct (cache_promote_file fs dir name temporary content None true true) as [fs' [[]|x]]; [|exact H].
      destruct H as (T' & Hs & Hd'). apply open_directory_ok; [done..|]. by apply Hd'. }
    destruct fault as [[x|x|f e unlinked renamed|x]|]; [left; apply Hthrow|left; exact Hprom| |left; exact Hprom..].
    destruct (promotion_fails fs dir name content f e unlinked renamed T Hp E) as [Hr Hres].
    destruct (cache_promote_file fs dir name temporary content (Some (f, e)) unlinked renamed) as [fs' r].
    cbn [snd] in Hr. subst r. destruct (not_undone _) eqn:Eu; [by right|by left].
  - assert (Hopen : entered fs (dir ++ [name]) (open_directory fs fault)) by (apply open_directory_ok; [done..|split; [done|by right]]).
    left. destruct fault as [[]|]; apply Hthrow || apply Hopen.
  - left. destruct fault as [[]|]; apply Hthrow.
  - left. destruct fault as [[]|]; apply Hthrow.
  - assert (Hopen : entered fs (dir ++ [name]) (open_directory (<[dir ++ [name] := Dir]> fs) fault)).
    { destruct (make_directory_ok fs (dir ++ [name]) T Hp E) as [T' Hs].
      - intros q nm Eq. apply app_inj_tail in Eq as [<- _]. apply Hd.
      - apply open_directory_ok; [done..|]. split; [done|right; by rewrite lookup_insert_eq]. }
    left. destruct fault as [[]|]; apply Hthrow || apply Hopen.
Qed.

(** Where the file of the names [ns] is to be created. *)
Definition leaf_path (fs : FileSystem) (ns p : path) : Prop :=
  (p = ns /\ fs !! ns <> Some Dir) \/ (p = ns ++ [kCacheValueName] /\ fs !! ns = Some Dir).

(** The place is prepared, or refused, and nothing that is stored has changed. *)
Definition prepared (fs : FileSystem) (dir : path) (names : list (result bytes)) (fs' : FileSystem) (r : result path) : Prop :=
  tree_ok temporary fs' /\ (forall ns, plain_names temporary ns -> stored fs' ns = stored fs ns) /\
  (forall p, r = Ok p -> exists ns name, names = map Ok (ns ++ [name]) /\ at_directory fs' (dir ++ ns) /\
     plain_name name /\ leaf_path fs' (dir ++ ns ++ [name]) p).

(** A promotion failed and its handler too. *)
Definition preparation_lost (fs : FileSystem) (faults : list (option Fault)) (fs' : FileSystem) (r : result path) : Prop :=
  (exists e, r = Throw e) /\ (exists f, f ∈ faults /\ not_undone f = true) /\
  exists dir name content, plain_names temporary (dir ++ [name]) /\ left_behind fs fs' dir name content.

Lemma left_behind_from fs0 fs fs' dir name content :
  (forall ns, plain_names temporary ns -> stored fs ns = stored fs0 ns) -> plain_names temporary (dir ++ [name]) ->
  left_behind fs fs' dir name content -> left_behind fs0 fs' dir name content.
Proof.
  intros Hs Hp [L1 L2 L3 L4 L5]. split; try done; [by rewrite <-Hs|].
  intros names Hn Hne. rewrite L5 by done. by apply Hs.
Qed.

Lemma leaf_at_ok names : forall fs dir faults,
  tree_ok temporary fs -> at_directory fs dir -> Forall (fun r => forall n, r = Ok n -> plain_name n) names ->
  let '(fs', r) := leaf_at temporary fs dir names faults in
  prepared fs dir names fs' r \/ preparation_lost fs faults fs' r.
Proof.
  induction names as [|[name|e] names IH]; intros fs dir faults T Hd Hn; [by left|..|by left].
  apply Forall_cons in Hn as [Hname Hn]. specialize (Hname name eq_refl).
  destruct names as [|next names].
  - cbn. assert (Hp : forall r, (forall p, r = Ok p -> leaf_path fs (dir ++ [name]) p) -> prepared fs dir [Ok name] fs r).
    { intros r Hr. split_and!; try done. intros p Hrp. exists [], name. rewrite app_nil_r. split_and!; try done. by apply Hr. }
    destruct (default None (head faults)) as [[]|], (fs !! (dir ++ [name])) as [[content| | |]|] eqn:E; left; apply Hp;
      intros p [= <-]; unfold leaf_path; rewrite E.
    all: first [by left|right; by rewrite <-app_assoc].
  - change (leaf_at temporary fs dir (Ok name :: next :: names) faults) with
      (match enter_component temporary fs dir name (default None (head faults)) with
       | (fs, Ok _) => leaf_at temporary fs (dir ++ [name]) (next :: names) (tail faults)
       | (fs, Throw e) => (fs, Throw e)
       end).
    set (rest := next :: names) in *.
    pose proof (enter_component_ok fs dir name (default None (head faults)) T Hd Hname) as He.
    destruct (enter_component temporary fs dir name (default None (head faults))) as [fs1 [[]|e]].
    + destruct He as [(T1 & Hs1 & Hd1)|(_ & (? & ?) & _)]; [|done]. specialize (Hd1 eq_refl). cbn [fst] in *.
      pose proof (IH fs1 (dir ++ [name]) (tail faults) T1 Hd1 Hn) as H.
      destruct (leaf_at temporary fs1 (dir ++ [name]) rest (tail faults)) as [fs2 r2].
      destruct H as [(T2 & Hs2 & Hr)|(Ht & (f & Hf & Hu) & dir' & name' & content & Hp & Hl)].
      * left. split_and!; [done|intros; rewrite Hs2 by done; by apply Hs1|].
        intros p Hp. destruct (Hr p Hp) as (ns & last & -> & Hdir & Hl & Hleaf). exists (name :: ns), last.
        rewrite <-app_assoc in Hdir, Hleaf. by split_and!.
      * right. split_and!; [done| |].
        -- exists f. split; [|done]. destruct faults; [done|]. by apply list_elem_of_further.
        -- exists dir', name', content. split; [done|]. by eapply left_behind_from.
    + destruct He as [(T1 & Hs1 & _)|(Hu & _ & content & Hl)]; [left; by split_and!|right].
      split_and!; [by eexists| |].
      * exists (default None (head faults)). split; [|done]. destruct faults as [|f faults]; [done|]. apply list_elem_of_here.
      * exists dir, name, content. split; [by eapply plain_snoc|done].
Qed.

(** Creating the file at the leaf stores it under its names and changes nothing else. *)
Lemma create_leaf fs ns p content :
  tree_ok temporary fs -> plain_names temporary ns -> leaf_path fs ns p ->
  stored (<[p := File content]> fs) ns = Some content /\
  (forall other, plain_names temporary other -> other <> ns -> stored (<[p := File content]> fs) other = stored fs other).
Proof.
  intros [[T1 T2 T3 T4] T5] Hn [[-> Hleaf]|[-> Hleaf]]; unfold stored.
  - split; [by rewrite lookup_insert_eq|]. intros other Ho Hne.
    rewrite (lookup_insert_ne fs ns other) by congruence.
    by rewrite (lookup_insert_ne fs ns (other ++ _)) by (intros E; exact (plain_not_value _ _ Hn E)).
  - split.
    + rewrite lookup_insert_ne by (intros E; symmetry in E; exact (plain_not_value _ _ Hn E)). by rewrite Hleaf, lookup_insert_eq.
    + intros other Ho Hne. rewrite lookup_insert_ne by (intros E; symmetry in E; exact (plain_not_value _ _ Ho E)).
      rewrite lookup_insert_ne; [done|]. intros E. by apply app_inj_tail in E as [? _].
Qed.

(** Nothing is below a path that is not a directory. *)
Lemma below_nothing fs q rest :
  tree_shape fs -> q <> [] -> fs !! q <> Some Dir -> rest <> [] -> fs !! (q ++ rest) = None.
Proof.
  intros [T1 T2 T3 T4] Hq Hdir. induction rest as [|name rest IH] using rev_ind; [done|intros _].
  destruct (fs !! (q ++ rest ++ [name])) as [n|] eqn:E; [|done]. rewrite app_assoc in E.
  destruct (T2 _ _ _ E) as [H|H]; [by destruct q|]. destruct rest as [|x rest].
  - rewrite app_nil_r in H. done.
  - rewrite IH in H by done. done.
Qed.

(** A lookup finds exactly what is stored. *)
Lemma find_at_ok ns : forall fs dir,
  tree_shape fs -> ns <> [] ->
  match stored fs (dir ++ ns) with
  | Some content => exists p, find_at fs dir (map Ok ns) = Ok (Some p) /\ fs !! p = Some (File content)
  | None => find_at fs dir (map Ok ns) = Ok None
  end.
Proof.
  induction ns as [|name ns IH]; intros fs dir T Hne; [done|]. destruct ns as [|next ns].
  - unfold stored. cbn [map find_at]. destruct (fs !! (dir ++ [name])) as [[content| | |]|] eqn:E.
    + by eexists.
    + rewrite <-app_assoc. cbn [app]. destruct (fs !! (dir ++ [name; kCacheValueName])) as [[content| | |]|] eqn:Ev; [by eexists|..|done].
      all: exfalso. 1: apply (to_value _ T (dir ++ [name])); by rewrite <-app_assoc.
      all: by destruct (to_nodes _ T _ _ Ev) as [?|[? ?]].
    + by destruct (to_nodes _ T _ _ E) as [?|[? ?]].
    + by destruct (to_nodes _ T _ _ E) as [?|[? ?]].
    + done.
  - assert (Hcons : dir ++ name :: next :: ns = (dir ++ [name]) ++ next :: ns) by (by rewrite <-app_assoc).
    change (find_at fs dir (map Ok (name :: next :: ns))) with
      (match fs !! (dir ++ [name]) with Some Dir => find_at fs (dir ++ [name]) (map Ok (next :: ns)) | _ => Ok None end).
    rewrite Hcons. destruct (fs !! (dir ++ [name])) as [[content| | |]|] eqn:E; [|by apply IH|..].
    all: assert (Hnone : fs !! ((dir ++ [name]) ++ next :: ns) = None)
      by (apply below_nothing; [done|by destruct dir|by rewrite E|done]).
    all: unfold stored; by rewrite Hnone.
Qed.

(** The names of new entries. *)
Lemma promote_unused fs dir name content fault unlinked renamed other :
  unused other fs -> other <> temporary -> other <> kCacheValueName -> other <> name ->
  unused other (cache_promote_file fs dir name temporary content fault unlinked renamed).1.
Proof.
  intros Hu Ht Hv Hn q. assert (Hq : forall d x, other <> x -> d ++ [x] <> q ++ [other])
    by (intros d x Hx E; apply app_inj_tail in E as [_ ?]; congruence).
  assert (Hvalue : dir ++ [name; kCacheValueName] <> q ++ [other])
    by (change [name; kCacheValueName] with ([name] ++ [kCacheValueName]); rewrite app_assoc; by apply Hq).
  destruct fault as [[[] e]|]; cbn; repeat case_match; cbn; rewrite ?lookup_insert_ne, ?lookup_delete_ne by auto;
    rewrite ?lookup_insert_ne, ?lookup_delete_ne by auto; try apply Hu.
Qed.

Lemma leaf_at_unused other names : forall fs dir faults,
  unused other fs -> other <> temporary -> other <> kCacheValueName -> Forall (fun r => r <> Ok other) names ->
  unused other (leaf_at temporary fs dir names faults).1.
Proof.
  intros fs dir faults Hu Ht Hv. revert fs dir faults Hu.
  induction names as [|[name|e] names IH]; intros fs dir faults Hu Hn; [done| |done].
  apply Forall_cons in Hn as [Hname Hn]. assert (Hne : other <> name) by congruence.
  destruct names as [|next names]; [cbn; by repeat case_match|].
  change (leaf_at temporary fs dir (Ok name :: next :: names) faults) with
    (match enter_component temporary fs dir name (default None (head faults)) with
     | (fs, Ok _) => leaf_at temporary fs (dir ++ [name]) (next :: names) (tail faults)
     | (fs, Throw e) => (fs, Throw e)
     end).
  assert (He : unused other (enter_component temporary fs dir name (default None (head faults))).1).
  { generalize (default None (head faults)). intros fault.
    assert (Hopen : forall m, unused other m -> unused other (open_directory m fault).1)
      by (intros m Hm; unfold open_directory; by repeat case_match).
    assert (Hmake : unused other (<[dir ++ [name] := Dir]> fs)).
    { intros q. rewrite lookup_insert_ne; [apply Hu|]. intros E. apply app_inj_tail in E as [_ ?]. congruence. }
    assert (Hprom : forall content f u v, unused other (match cache_promote_file fs dir name temporary content f u v with
                                               | (fs, Ok _) => open_directory fs fault | r => r end).1).
    { intros content f u v. pose proof (promote_unused fs dir name content f u v other Hu Ht Hv Hne).
      destruct (cache_promote_file _ _ _ _ _ _ _ _) as [m [[]|]]; [by apply Hopen|done]. }
    unfold enter_component. destruct fault as [[]|], (fs !! (dir ++ [name])) as [[]|]; try done;
      first [apply Hprom|by apply Hopen]. }
  destruct (enter_component _ _ _ _ _) as [fs1 [[]|e]]; [|done]. by apply IH.
Qed.

Lemma create_leaf_ok fs dir name p content :
  tree_ok temporary fs -> at_directory fs dir -> plain_name name -> leaf_path fs (dir ++ [name]) p ->
  tree_ok temporary (<[p := File content]> fs).
Proof.
  intros T Hd Hname Hleaf. pose proof (plain_snoc fs dir name Hd Hname) as Hp. pose proof T as [[T1 T2 T3 T4] T5].
  assert (Hnodir : fs !! p <> Some Dir) by (destruct Hleaf as [[-> ?]|[-> _]]; [done|apply T3]).
  assert (Hpne : p <> []) by (destruct Hleaf as [[-> _]|[-> _]]; by destruct dir).
  split; [split|].
  - intros q n Hq. rewrite lookup_insert_Some in Hq. destruct Hq as [[_ <-]|[_ Hq]]; [right; by eexists|by eapply T1].
  - intros q nm n Hq. rewrite lookup_insert_Some in Hq. destruct Hq as [[E _]|[Hne Hq]].
    + assert (Hpar : q = [] \/ fs !! q = Some Dir).
      { destruct Hleaf as [[-> _]|[-> Hdir]]; apply app_inj_tail in E as [<- _]; [apply Hd|by right]. }
      destruct Hpar as [?|Hpar]; [by left|right]. rewrite lookup_insert_ne; [done|congruence].
    + destruct (T2 _ _ _ Hq) as [?|Hpar]; [by left|right]. rewrite lookup_insert_ne; [done|congruence].
  - intros q Hq. rewrite lookup_insert_Some in Hq. destruct Hq as [[_ ?]|[_ Hq]]; [done|by eapply T3].
  - by rewrite lookup_insert_ne.
  - intros q. rewrite lookup_insert_None. split; [apply T5|].
    destruct Hleaf as [[-> _]|[-> _]]; intros E; apply app_inj_tail in E as [_ E]; [by destruct Hname|by apply temporary_name].
Qed.

End Proofs.

(** ** Keys *)

Fixpoint join (cs : list bytes) : bytes :=
  match cs with [] => [] | [c] => c | c :: cs => c ++ lit "/" ++ join cs end.

Lemma key_components_nonempty part key : key_components part key <> [].
Proof. revert part. induction key as [|c key IH]; intros part; cbn; [done|]. case_match; [done|apply IH]. Qed.

Lemma join_components part key : join (key_components part key) = part ++ key.
Proof.
  revert part. induction key as [|c key IH]; intros part; cbn; [by rewrite app_nil_r|].
  unfold ascii_eqb. destruct (Ascii.eqb_spec c "/") as [->|]; [|by rewrite IH, <-app_assoc].
  cbn. pose proof (IH []) as E. pose proof (key_components_nonempty [] key).
  destruct (key_components [] key); [done|]. cbn [app] in E. by rewrite E.
Qed.

Lemma components_plain part key : ~ "/"%char ∈ part -> Forall (fun c => ~ "/"%char ∈ c) (key_components part key).
Proof.
  revert part. induction key as [|c key IH]; intros part Hp; cbn; [by repeat constructor|].
  unfold ascii_eqb. destruct (Ascii.eqb_spec c "/") as [->|].
  - constructor; [done|]. apply IH. apply not_elem_of_nil.
  - apply IH. rewrite not_elem_of_app, list_elem_of_singleton. split; [done|congruence].
Qed.

Fixpoint all_ok (l : list (result bytes)) : option path :=
  match l with
  | [] => Some []
  | Ok n :: l => cons n <$> all_ok l
  | Throw _ :: _ => None
  end.

Lemma all_ok_Some l ns : all_ok l = Some ns <-> l = map Ok ns.
Proof.
  revert ns. induction l as [|[n|e] l IH]; intros ns; cbn.
  - split; [by intros [= <-]|by destruct ns].
  - rewrite fmap_Some. split; [intros (ns' & ->%IH & ->); done|]. destruct ns as [|m ns]; [done|].
    cbn. intros [= -> ->]. exists ns. split; [by apply IH|done].
  - split; [done|by destruct ns].
Qed.

Lemma find_at_error names : forall fs dir p, all_ok names = None -> find_at fs dir names <> Ok (Some p).
Proof.
  induction names as [|[n|e] names IH]; intros fs dir p; cbn [all_ok]; [done| |done].
  rewrite fmap_None. intros Hnone. destruct names as [|next names]; [done|].
  change (find_at fs dir (Ok n :: next :: names)) with
    (match fs !! (dir ++ [n]) with Some Dir => find_at fs (dir ++ [n]) (next :: names) | _ => Ok None end).
  destruct (fs !! (dir ++ [n])) as [[]|]; try done. by apply IH.
Qed.

Section KeyTheorem.
Variable SHA256 : bytes -> bytes.
Variable name_max : Z.

(** The name a promotion takes; [suffix] is the process and the sequence number. *)
Definition promote_name (suffix : bytes) : bytes := kCacheEscapePrefix ++ lit "promote-" ++ suffix.

(** What a lookup of the key finds. *)
Definition key_stored (fs : FileSystem) (key : bytes) : option Node :=
  match cache_find_leaf SHA256 name_max fs key with Ok (Some p) => fs !! p | _ => None end.

Lemma encoded_plain suffix key :
  Forall (fun r => forall n, r = Ok n -> plain_name (promote_name suffix) n) (encoded SHA256 name_max key).
Proof.
  unfold encoded. apply Forall_map. eapply Forall_impl; [apply (components_plain [] key), not_elem_of_nil|].
  intros c Hc n Hn. split; [by destruct (encode_good _ _ _ _ Hc Hn) as (_ & _ & _ & _ & _ & ?)|].
  intros ->. apply encode_cases in Hn as [(He & _ & E)|[[E _]|[E _]]]; [|done..].
  apply needs_escape_false in He as (_ & _ & _ & H4 & _). symmetry in E. by destruct (H4 _ E).
Qed.

Lemma key_stored_spec fs key :
  tree_shape fs ->
  key_stored fs key = match all_ok (encoded SHA256 name_max key) with Some ns => File <$> stored fs ns | None => None end.
Proof.
  intros T. unfold key_stored, cache_find_leaf. destruct (all_ok _) as [ns|] eqn:E.
  - pose proof E as Em. apply all_ok_Some in Em. rewrite Em.
    assert (Hne : ns <> []).
    { intros ->. unfold encoded in Em. apply map_eq_nil in Em. by apply (key_components_nonempty [] key). }
    pose proof (find_at_ok ns fs [] T Hne) as H. cbn [app] in H. destruct (stored fs ns) as [content|].
    + destruct H as (p & -> & ->). done.
    + by rewrite H.
  - destruct (find_at fs [] _) as [[p|]|] eqn:Ef; try done. by apply find_at_error in Ef.
Qed.

(** No component of one key has the digest of a different component of the other. *)
Definition collision_free (k l : bytes) : Prop :=
  forall a b, a ∈ key_components [] k -> b ∈ key_components [] l -> SHA256 a = SHA256 b -> a = b.

Lemma encoded_inj k l ns :
  collision_free k l -> encoded SHA256 name_max k = map Ok ns -> encoded SHA256 name_max l = map Ok ns -> k = l.
Proof.
  intros Hc Ek El. change k with ([] ++ k). change l with ([] ++ l). rewrite <-!(join_components []). f_equal.
  unfold collision_free, encoded in *. revert Hc ns Ek El. generalize (key_components [] l), (key_components [] k).
  intros cl ck. revert cl. induction ck as [|a ck IH]; intros [|b cl] Hc [|n ns] Ek El; try done.
  cbn in Ek, El. injection Ek as Ea Ek. injection El as Eb El. f_equal.
  - destruct (encode_same _ _ _ _ _ Ea Eb) as [?|[_ H]]; [done|]. apply Hc; [apply list_elem_of_here..|done].
  - eapply IH; [|done..]. intros x y Hx Hy. apply Hc; by apply list_elem_of_further.
Qed.
End KeyTheorem.

(** ** Theorem *)

(** The names that stand for keys. *)
Lemma encoded_names SHA256 name_max suffix k ns :
  encoded SHA256 name_max k = map Ok ns -> plain_names (promote_name suffix) ns.
Proof.
  intros E. pose proof (encoded_plain SHA256 name_max suffix k) as H. rewrite E, Forall_map in H. split.
  - intros ->. unfold encoded in E. apply map_eq_nil in E. by apply (key_components_nonempty [] k).
  - eapply Forall_impl; [exact H|]. intros n Hn. by apply Hn.
Qed.

(** Equal contents of the names are equal lookups. *)
Lemma key_stored_same SHA256 name_max fs fs' k :
  tree_shape fs -> tree_shape fs' ->
  (forall ns, encoded SHA256 name_max k = map Ok ns -> stored fs' ns = stored fs ns) ->
  key_stored SHA256 name_max fs' k = key_stored SHA256 name_max fs k.
Proof.
  intros T T' Hs. rewrite !key_stored_spec by done. destruct (all_ok _) as [ns|] eqn:E; [|done].
  apply all_ok_Some in E. by rewrite Hs.
Qed.

Lemma prepared_map SHA256 name_max suffix fs key fs' r :
  tree_shape fs -> prepared (promote_name suffix) fs [] (encoded SHA256 name_max key) fs' r ->
  (forall k, key_stored SHA256 name_max fs' k = key_stored SHA256 name_max fs k) /\
  (forall p content, r = Ok p ->
     tree_shape (<[p := File content]> fs') /\
     key_stored SHA256 name_max (<[p := File content]> fs') key = Some (File content) /\
     (forall k, k <> key -> collision_free SHA256 k key ->
        key_stored SHA256 name_max (<[p := File content]> fs') k = key_stored SHA256 name_max fs k)).
Proof.
  intros T (T' & Hs & Hr). set (temporary := promote_name suffix) in *. assert (Htv : temporary <> kCacheValueName) by done.
  assert (Hplain : forall k ns, encoded SHA256 name_max k = map Ok ns -> plain_names temporary ns)
    by (intros k ns; apply encoded_names).
  pose proof (to_shape _ _ T') as S'.
  assert (Hkeys : forall k, key_stored SHA256 name_max fs' k = key_stored SHA256 name_max fs k)
    by (intros k; apply key_stored_same; [done..|]; intros ns E; apply Hs; by eapply Hplain).
  split; [done|]. intros p content ->. destruct (Hr p eq_refl) as (ns & name & E & Hd & Hname & Hleaf). cbn [app] in *.
  pose proof (to_shape _ _ (create_leaf_ok temporary Htv fs' ns name p content T' Hd Hname Hleaf)) as T2.
  destruct (create_leaf temporary fs' (ns ++ [name]) p content T' (Hplain _ _ E) Hleaf) as [Hown Hother].
  split_and!; [done| |].
  - rewrite key_stored_spec by done. rewrite (proj2 (all_ok_Some _ _) E), Hown. done.
  - intros k Hk Hc. rewrite <-Hkeys. apply key_stored_same; [done..|]. intros ks Ek.
    apply Hother; [by eapply Hplain|]. intros ->. apply Hk. by eapply encoded_inj.
Qed.

(** C7: the cache tree is a map from keys to files.  Preparing the place for a key means making
    directories and moving the files of shorter keys out of the way; system calls may fail at
    any point.  The tree keeps its shape and names of later promotions stay unused.  Unless a
    promotion fails and the handler that should undo it fails as well, no lookup changes;
    creating the file at the place returned then makes a lookup of the key find it and changes
    no other key's file, as long as no two different components have the same SHA-256 digest.
    If the handler fails, the call is refused and one key is no longer found: its file is in
    the same directory under the temporary name; no other lookup changes. *)
Theorem cache_tree_refines_map SHA256 name_max suffix fs key faults :
  tree_shape fs -> unused (promote_name suffix) fs ->
  let '(fs', r) := cache_leaf SHA256 name_max (promote_name suffix) fs key faults in
  tree_shape fs' /\
  (forall other, other <> suffix -> unused (promote_name other) fs -> unused (promote_name other) fs') /\
  ((unused (promote_name suffix) fs' /\
    (forall k, key_stored SHA256 name_max fs' k = key_stored SHA256 name_max fs k) /\
    (forall p content, r = Ok p ->
       tree_shape (<[p := File content]> fs') /\
       key_stored SHA256 name_max (<[p := File content]> fs') key = Some (File content) /\
       (forall k, k <> key -> collision_free SHA256 k key ->
          key_stored SHA256 name_max (<[p := File content]> fs') k = key_stored SHA256 name_max fs k))) \/
   ((exists e, r = Throw e) /\ (exists f, f ∈ faults /\ not_undone f = true) /\
    exists dir name content, fs' !! (dir ++ [promote_name suffix]) = Some (File content) /\
      forall k, (encoded SHA256 name_max k = map Ok (dir ++ [name]) ->
                 key_stored SHA256 name_max fs k = Some (File content) /\ key_stored SHA256 name_max fs' k = None) /\
                (encoded SHA256 name_max k <> map Ok (dir ++ [name]) ->
                 key_stored SHA256 name_max fs' k = key_stored SHA256 name_max fs k))).
Proof.
  intros T Hu. assert (Htv : promote_name suffix <> kCacheValueName) by done.
  pose proof (leaf_at_ok (promote_name suffix) Htv (encoded SHA256 name_max key) fs [] faults (Build_tree_ok _ _ T Hu)
    (conj (Forall_nil_2 _) (or_introl eq_refl)) (encoded_plain SHA256 name_max suffix key)) as H.
  assert (Hnew : forall other, other <> suffix -> unused (promote_name other) fs ->
    unused (promote_name other) (cache_leaf SHA256 name_max (promote_name suffix) fs key faults).1).
  { intros other Ho Hunused. apply leaf_at_unused; [done| |done|].
    - intros E. apply Ho. by do 2 apply app_inv_head in E.
    - eapply Forall_impl; [apply (encoded_plain SHA256 name_max other key)|]. intros [n|] Hn; [|done].
      intros [= ->]. by destruct (Hn _ eq_refl). }
  unfold cache_leaf in *. destruct (leaf_at (promote_name suffix) fs [] _ faults) as [fs' r].
  destruct H as [H|(Hr & Hf & dir & name & content & Hp & [L1 L2 L3 L4 L5])].
  - pose proof H as ([T' Hu'] & _ & _). split_and!; [done|done|left]. split; [done|]. by eapply prepared_map.
  - split_and!; [done|done|right]. split_and!; [done|done|]. exists dir, name, content. split; [done|]. intros k. split.
    + intros E. rewrite !key_stored_spec by done. rewrite (proj2 (all_ok_Some _ _) E), L2, L3. done.
    + intros E. apply key_stored_same; [done..|]. intros ns En. apply L5; [by eapply encoded_names|]. intros ->. done.
Qed.

(** The key [a] is stored; then [a/b] needs a directory of its name. *)
Definition sample_temporary : bytes := promote_name (lit "7-0").
Definition sample_fs : FileSystem := {[ [lit "a"] := File 1 ]}.

Lemma sample_fs_ok : tree_shape sample_fs /\ forall suffix, unused (promote_name suffix) sample_fs.
Proof.
  unfold sample_fs. split; [split|].
  - intros p n [_ <-]%lookup_singleton_Some. right. by exists 1.
  - intros p name n [E _]%lookup_singleton_Some. left. destruct p as [|x [|y p]]; [done|discriminate..].
  - intros p [_ E]%lookup_singleton_Some. discriminate.
  - done.
  - intros suffix p. apply lookup_singleton_None. intros E. change [lit "a"] with ([] ++ [lit "a"]) in E.
    apply app_inj_tail in E as [_ E]. discriminate.
Qed.

Lemma cache_tree_refines_map_witness :
  (cache_leaf sample_digest 255 sample_temporary sample_fs (lit "a/b") []).2 = Ok [lit "a"; lit "b"] /\
  let '(fs', r) := cache_leaf sample_digest 255 sample_temporary sample_fs (lit "a/b") [] in
  tree_shape fs' /\ key_stored sample_digest 255 fs' (lit "a") = key_stored sample_digest 255 sample_fs (lit "a").
Proof.
  split; [vm_compute; reflexivity|].
  pose proof (cache_tree_refines_map sample_digest 255 (lit "7-0") sample_fs (lit "a/b") [] (proj1 sample_fs_ok)
    (proj2 sample_fs_ok (lit "7-0"))) as H.
  fold sample_temporary in H.
  destruct (cache_leaf sample_digest 255 sample_temporary sample_fs (lit "a/b") []) as [fs' r] eqn:E.
  destruct H as (H1 & _ & [(_ & H2 & _)|(_ & (f & Hf & _) & _)]); [split; [exact H1|apply H2]|by apply not_elem_of_nil in Hf].
Defined.
