(* ===== verification/PrefetchBudget.v ===== *)
(** * PrefetchBudget

    Models [PrefetchBudget] of [src/src/io.hpp] and [src/src/io.cpp]: page-rounded admission
    of transient read-ahead memory, with a minimum protected for demand reads, reservations
    that may be split, and the revision-checked subscription of waiters.  Every function is
    one critical section of [State::mutex]; [wake_event] takes the mutex again afterwards and
    is a function of its own. *)

From S2P Require Import Prelude.

Record Usage := { speculative : Z; demand : Z }.
Definition no_usage : Usage := {| speculative := 0; demand := 0 |}.

(** [waiters] is the intrusive list of [Waiter]s, by identity, head first; [linked] are the
    waiters whose [linked] flag is set; [event] is the eventfd's counter, if it exists. *)
Record Budget := {
  capacity : Z; demand_reserve : Z; page_size : Z;
  files : gmap Z Usage; used : Usage;
  peak : Z; file_peak : Z; revision : Z; stopped : bool;
  waiters : list Z; linked : gset Z;
  event : option Z; event_waiters : Z;
}.

(** A [Reservation]; one with [r_bytes = 0] is the empty (or moved-from) object. *)
Record Reservation := { r_file : Z; r_bytes : Z; r_demand : bool }.

Definition with_usage (s : Budget) (fs : gmap Z Usage) (u : Usage) (p fp : Z) : Budget :=
  {| capacity := capacity s; demand_reserve := demand_reserve s; page_size := page_size s;
     files := fs; used := u; peak := p; file_peak := fp; revision := revision s;
     stopped := stopped s; waiters := waiters s; linked := linked s;
     event := event s; event_waiters := event_waiters s |}.

(** [++revision] and [detach_waiters]. *)
Definition advance (s : Budget) (stop : bool) : Budget :=
  {| capacity := capacity s; demand_reserve := demand_reserve s; page_size := page_size s;
     files := files s; used := used s; peak := peak s; file_peak := file_peak s;
     revision := u64 (revision s + 1); stopped := stop;
     waiters := []; linked := linked s ∖ list_to_set (waiters s);
     event := event s; event_waiters := event_waiters s |}.

Definition with_waiters (s : Budget) (w : list Z) (l : gset Z) : Budget :=
  {| capacity := capacity s; demand_reserve := demand_reserve s; page_size := page_size s;
     files := files s; used := used s; peak := peak s; file_peak := file_peak s;
     revision := revision s; stopped := stopped s; waiters := w; linked := l;
     event := event s; event_waiters := event_waiters s |}.

Definition with_event (s : Budget) (e : option Z) (n : Z) : Budget :=
  {| capacity := capacity s; demand_reserve := demand_reserve s; page_size := page_size s;
     files := files s; used := used s; peak := peak s; file_peak := file_peak s;
     revision := revision s; stopped := stopped s; waiters := waiters s; linked := linked s;
     event := e; event_waiters := n |}.

Definition make_PrefetchBudget (cap reserve page : Z) : result Budget :=
  if (page =? 0) || (reserve =? 0) || (cap <? reserve) ||
     negb (cap mod page =? 0) || negb (reserve mod page =? 0)
  then Throw InvalidArgument
  else Ok {| capacity := cap; demand_reserve := reserve; page_size := page;
             files := ∅; used := no_usage; peak := 0; file_peak := 0; revision := 0;
             stopped := false; waiters := []; linked := ∅; event := None; event_waiters := 0 |}.

Definition default_capacity (physical_bytes page : Z) : result Z :=
  if page =? 0 then Throw InvalidArgument
  else
    let limit := physical_bytes / 10 in
    if limit >? SIZE_MAX then Throw OverflowError else Ok (limit - limit mod page).

Definition file_limit (size window configured page : Z) : result Z :=
  if (page =? 0) || (window =? 0) || negb (window mod page =? 0) || negb (configured mod page =? 0)
  then Throw InvalidArgument
  else
    let maximum := SIZE_MAX - SIZE_MAX mod page in
    let adaptive := if window >? maximum / 2 then maximum else u64 (window * 2) in
    let limit := if negb (configured =? 0) then configured else Z.min size adaptive in
    if limit >? maximum then Throw OverflowError
    else
      let remainder := limit mod page in
      Ok (u64 (limit + (if remainder =? 0 then 0 else page - remainder))).

Definition add_usage (u : Usage) (dem : bool) (bytes : Z) : Usage :=
  if dem then {| speculative := speculative u; demand := u64 (demand u + bytes) |}
  else {| speculative := u64 (speculative u + bytes); demand := demand u |}.

Definition sub_usage (u : Usage) (dem : bool) (bytes : Z) : Usage :=
  if dem then {| speculative := speculative u; demand := u64 (demand u - bytes) |}
  else {| speculative := u64 (speculative u - bytes); demand := demand u |}.

Definition usage_total (u : Usage) : Z := u64 (demand u + speculative u).

Definition usage_of (s : Budget) (file : Z) : Usage := default no_usage (files s !! file).

(** [Ok None] is the empty reservation that [try_reserve] returns when it cannot admit. *)
Definition try_reserve (s : Budget) (file limit preferred minimum : Z) (dem : bool) :
    Budget * result (option Reservation) :=
  if (minimum =? 0) || (minimum >? preferred) || (limit =? 0) ||
     negb (limit mod page_size s =? 0) || negb (preferred mod page_size s =? 0) ||
     negb (minimum mod page_size s =? 0)
  then (s, Throw InvalidArgument)
  else if stopped s then (s, Ok None)
  else
    let u := usage_of s file in
    let file_reserve := Z.min limit (demand_reserve s) in
    let global := usage_total (used s) in
    let total := usage_total u in
    if (global >? capacity s) || (total >? limit) then (s, Ok None)
    else
      let bytes := Z.min preferred (Z.min (capacity s - global) (limit - total)) in
      let cap := capacity s - demand_reserve s in
      let file_cap := limit - file_reserve in
      if negb dem && ((speculative (used s) >? cap) || (speculative u >? file_cap))
      then (s, Ok None)
      else
        let bytes :=
          if dem then bytes
          else Z.min bytes (Z.min (cap - speculative (used s)) (file_cap - speculative u)) in
        if bytes <? minimum then (s, Ok None)
        else
          let entry := add_usage u dem bytes in
          let all := add_usage (used s) dem bytes in
          (with_usage s (<[file := entry]> (files s)) all
             (Z.max (peak s) (usage_total all)) (Z.max (file_peak s) (usage_total entry)),
           Ok (Some {| r_file := file; r_bytes := bytes; r_demand := dem |})).

(** [split]: the remaining reservation and the transferred one. *)
Definition split (s : Budget) (r : Reservation) (bytes : Z) : result (Reservation * Reservation) :=
  if (r_bytes r =? 0) || (bytes =? 0) || (bytes >? r_bytes r) || negb (bytes mod page_size s =? 0)
  then Throw InvalidArgument
  else Ok ({| r_file := r_file r; r_bytes := r_bytes r - bytes; r_demand := r_demand r |},
           {| r_file := r_file r; r_bytes := bytes; r_demand := r_demand r |}).

(** [Reservation::reset]: the locked part, and the waiters to call. *)
Definition reset (s : Budget) (r : Reservation) : Budget * list Z :=
  if r_bytes r =? 0 then (s, [])
  else
    let entry := sub_usage (usage_of s (r_file r)) (r_demand r) (r_bytes r) in
    let all := sub_usage (used s) (r_demand r) (r_bytes r) in
    let fs := if (demand entry =? 0) && (speculative entry =? 0)
              then delete (r_file r) (files s) else <[r_file r := entry]> (files s) in
    (advance (with_usage s fs all (peak s) (file_peak s)) (stopped s), waiters s).

(** Move assignment: the old reservation is released, the other one is left empty. *)
Definition assign (s : Budget) (self other : Reservation) :
    Budget * list Z * Reservation * Reservation :=
  let '(s, woken) := reset s self in
  (s, woken, other, {| r_file := r_file other; r_bytes := 0; r_demand := r_demand other |}).

(** [wake_event]: one token per asynchronous waiter. *)
Definition wake_event (s : Budget) : Budget :=
  match event s with
  | Some n => if event_waiters s =? 0 then s
              else with_event s (Some (n + event_waiters s)) (event_waiters s)
  | None => s
  end.

(** [Ok None] is the return value -1, [Ok (Some tt)] the eventfd.  [error] is the errno of a
    failing [eventfd] call. *)
Definition begin_async_wait (s : Budget) (rev : Z) (error : option Z) :
    Budget * result (option unit) :=
  if stopped s || negb (revision s =? rev) then (s, Ok None)
  else match event s with
  | Some n => (with_event s (Some n) (event_waiters s + 1), Ok (Some tt))
  | None => match error with
            | None => (with_event s (Some 0) (event_waiters s + 1), Ok (Some tt))
            | Some e => (s, Throw (SystemError e))
            end
  end.

Definition end_async_wait (s : Budget) : Budget := with_event s (event s) (event_waiters s - 1).

Definition file_used (s : Budget) (file : Z) : Z := usage_total (usage_of s file).

Record Snapshot := {
  snap_used : Z; snap_capacity : Z; snap_peak : Z; snap_files : Z; snap_revision : Z;
  snap_stopped : bool; snap_file_peak : Z }.

Definition snapshot (s : Budget) : Snapshot :=
  {| snap_used := usage_total (used s); snap_capacity := capacity s; snap_peak := peak s;
     snap_files := Z.of_nat (size (files s)); snap_revision := revision s;
     snap_stopped := stopped s; snap_file_peak := file_peak s |}.

(** [ready] is [waiter.ready != nullptr]. *)
Definition subscribe (s : Budget) (waiter : Z) (ready : bool) (rev : Z) : Budget * result bool :=
  if negb ready || bool_decide (waiter ∈ linked s) then (s, Throw InvalidArgument)
  else if stopped s || negb (revision s =? rev) then (s, Ok false)
  else (with_waiters s (waiter :: waiters s) ({[waiter]} ∪ linked s), Ok true).

(** Unlinking the first occurrence of a waiter; [None] when the walk reaches the end. *)
Fixpoint unlink (waiter : Z) (l : list Z) : option (list Z) :=
  match l with
  | [] => None
  | w :: l => if w =? waiter then Some l else cons w <$> unlink waiter l
  end.

Definition unsubscribe (s : Budget) (waiter : Z) : Budget * bool :=
  match unlink waiter (waiters s) with
  | None => (s, false)
  | Some l => (with_waiters s l (linked s ∖ {[waiter]}), true)
  end.

(** The predicate of [wait]; [Some] is what [wait] returns once it holds. *)
Definition wait (s : Budget) (rev : Z) : option bool :=
  if stopped s || negb (revision s =? rev) then Some (negb (stopped s)) else None.

Definition notify_reclaimable (s : Budget) : Budget * list Z :=
  if stopped s then (s, []) else (advance s false, waiters s).

Definition stop (s : Budget) : Budget * list Z :=
  if stopped s then (s, []) else (advance s true, waiters s).

(** ** The system: a budget and its live reservations *)

Definition charge_of (file : Z) (dem : bool) (r : Reservation) : Z :=
  if (r_file r =? file) && Bool.eqb (r_demand r) dem then r_bytes r else 0.
Definition charge_all (dem : bool) (r : Reservation) : Z :=
  if Bool.eqb (r_demand r) dem then r_bytes r else 0.

Definition System : Type := Budget * list Reservation.

(** Every call of the interface, by any thread: the locked sections interleave in any order.
    The label is what the call wakes. *)
Inductive budget_step : System -> list Z -> System -> Prop :=
  | step_reserve s rs file limit preferred minimum dem s' r :
      0 <= minimum -> is_u64 limit -> is_u64 preferred ->
      try_reserve s file limit preferred minimum dem = (s', Ok r) ->
      budget_step (s, rs) [] (s', option_list r ++ rs)
  | step_reserve_throw s rs file limit preferred minimum dem s' e :
      try_reserve s file limit preferred minimum dem = (s', Throw e) ->
      budget_step (s, rs) [] (s', rs)
  | step_split s rs1 r rs2 bytes a b :
      0 <= bytes -> split s r bytes = Ok (a, b) ->
      budget_step (s, rs1 ++ r :: rs2) [] (s, rs1 ++ a :: b :: rs2)
  | step_reset s rs1 r rs2 s' woken :
      reset s r = (s', woken) -> budget_step (s, rs1 ++ r :: rs2) woken (s', rs1 ++ rs2)
  | step_wake_event s rs : budget_step (s, rs) [] (wake_event s, rs)
  | step_begin_async s rs rev error s' r :
      begin_async_wait s rev error = (s', r) -> budget_step (s, rs) [] (s', rs)
  | step_end_async s rs : 0 < event_waiters s -> budget_step (s, rs) [] (end_async_wait s, rs)
  | step_subscribe s rs waiter ready rev s' r :
      subscribe s waiter ready rev = (s', r) -> budget_step (s, rs) [] (s', rs)
  | step_unsubscribe s rs waiter s' b :
      unsubscribe s waiter = (s', b) -> budget_step (s, rs) [] (s', rs)
  | step_notify s rs s' woken :
      notify_reclaimable s = (s', woken) -> budget_step (s, rs) woken (s', rs)
  | step_stop s rs s' woken : stop s = (s', woken) -> budget_step (s, rs) woken (s', rs).

Inductive reachable (s0 : Budget) : System -> Prop :=
  | reachable_start : reachable s0 (s0, [])
  | reachable_step x woken y : reachable s0 x -> budget_step x woken y -> reachable s0 y.

(** ** The invariant *)

Record config_ok (s : Budget) : Prop := {
  cfg_page : 0 < page_size s;
  cfg_reserve : 0 < demand_reserve s <= capacity s;
  cfg_capacity : capacity s < 2 ^ 64;
  cfg_capacity_pages : (page_size s | capacity s);
  cfg_reserve_pages : (page_size s | demand_reserve s);
}.

Record budget_inv (x : System) : Prop := {
  inv_config : config_ok x.1;
  inv_live : Forall (fun r => 0 <= r_bytes r /\ (page_size x.1 | r_bytes r)) x.2;
  inv_files : forall f, usage_of x.1 f =
    {| speculative := zsum (charge_of f false) x.2; demand := zsum (charge_of f true) x.2 |};
  inv_used : used x.1 =
    {| speculative := zsum (charge_all false) x.2; demand := zsum (charge_all true) x.2 |};
  inv_entries : forall f u, files x.1 !! f = Some u -> 0 < demand u + speculative u;
  inv_capacity : demand (used x.1) + speculative (used x.1) <= capacity x.1;
  inv_reserve : speculative (used x.1) <= capacity x.1 - demand_reserve x.1;
  inv_peak : demand (used x.1) + speculative (used x.1) <= peak x.1 <= capacity x.1;
  inv_waiters : NoDup (waiters x.1) /\ linked x.1 = list_to_set (waiters x.1);
  inv_stopped : stopped x.1 = true -> waiters x.1 = [];
}.

Lemma charge_of_nonneg f d r : 0 <= r_bytes r -> 0 <= charge_of f d r <= charge_all d r.
Proof. intros. unfold charge_of, charge_all. destruct (r_file r =? f), (Bool.eqb _ _); cbn; lia. Qed.

Lemma live_charges x f d :
  Forall (fun r => 0 <= r_bytes r /\ (page_size x | r_bytes r)) f ->
  forall file, 0 <= zsum (charge_of file d) f <= zsum (charge_all d) f.
Proof.
  intros Hl file. rewrite Forall_forall in Hl. split.
  - apply zsum_nonneg. intros r Hr. apply charge_of_nonneg, Hl, Hr.
  - apply zsum_le. intros r Hr. apply charge_of_nonneg, Hl, Hr.
Qed.

(** The bounds that keep every sum of the code inside [size_t]. *)
Lemma inv_bounds x :
  budget_inv x ->
  0 <= demand (used x.1) /\ 0 <= speculative (used x.1) /\
  usage_total (used x.1) = demand (used x.1) + speculative (used x.1) /\
  forall f, 0 <= demand (usage_of x.1 f) <= demand (used x.1) /\
            0 <= speculative (usage_of x.1 f) <= speculative (used x.1) /\
            usage_total (usage_of x.1 f) = demand (usage_of x.1 f) + speculative (usage_of x.1 f).
Proof.
  intros I. pose proof (inv_capacity x I). pose proof (inv_config x I) as C.
  pose proof (cfg_capacity _ C). pose proof (cfg_reserve _ C).
  pose proof (fun d => live_charges _ _ d (inv_live x I)) as Hc.
  unfold usage_total. rewrite (inv_used x I) in *. cbn in *.
  pose proof (Hc true 0). pose proof (Hc false 0).
  split; [lia|]. split; [lia|]. split; [apply u64_small; lia|].
  intros f. rewrite (inv_files x I f). cbn. pose proof (Hc true f). pose proof (Hc false f).
  split; [lia|]. split; [lia|]. apply u64_small. lia.
Qed.

Lemma usage_of_insert s fs u p fp f g entry :
  fs = <[f := entry]> (files s) ->
  usage_of (with_usage s fs u p fp) g = if f =? g then entry else usage_of s g.
Proof.
  intros ->. unfold usage_of. cbn. destruct (Z.eqb_spec f g) as [->|].
  - by rewrite lookup_insert_eq.
  - by rewrite lookup_insert_ne.
Qed.

Lemma usage_of_erase s fs u p fp f g entry :
  fs = (if (demand entry =? 0) && (speculative entry =? 0)
        then delete f (files s) else <[f := entry]> (files s)) ->
  usage_of (with_usage s fs u p fp) g = if f =? g then entry else usage_of s g.
Proof.
  intros ->. destruct (_ && _) eqn:E; [|by apply usage_of_insert].
  unfold usage_of. cbn. bool_case. destruct (Z.eqb_spec f g) as [->|].
  - rewrite lookup_delete_eq. cbn. destruct entry; cbn in *; by subst.
  - by rewrite lookup_delete_ne.
Qed.

Lemma try_reserve_cases s file limit preferred minimum dem s' r :
  try_reserve s file limit preferred minimum dem = (s', Ok (Some r)) ->
  let u := usage_of s file in
  stopped s = false /\ 0 <> minimum /\ (minimum <= r_bytes r <= preferred) /\
  (limit mod page_size s = 0) /\ (preferred mod page_size s = 0) /\
  usage_total (used s) + r_bytes r <= capacity s /\ usage_total u + r_bytes r <= limit /\
  (dem = false -> speculative (used s) + r_bytes r <= capacity s - demand_reserve s /\
                  speculative u + r_bytes r <= limit - Z.min limit (demand_reserve s)) /\
  (r_bytes r = preferred \/ r_bytes r = capacity s - usage_total (used s) \/
   r_bytes r = limit - usage_total u \/
   (dem = false /\ (r_bytes r = capacity s - demand_reserve s - speculative (used s) \/
                    r_bytes r = limit - Z.min limit (demand_reserve s) - speculative u))) /\
  r = {| r_file := file; r_bytes := r_bytes r; r_demand := dem |} /\
  s' = with_usage s (<[file := add_usage u dem (r_bytes r)]> (files s))
         (add_usage (used s) dem (r_bytes r))
         (Z.max (peak s) (usage_total (add_usage (used s) dem (r_bytes r))))
         (Z.max (file_peak s) (usage_total (add_usage u dem (r_bytes r)))).
Proof.
  unfold try_reserve. intros H. repeat (case_match; [discriminate|]).
  injection H as <- <-. cbn [r_bytes].
  destruct dem; cbn [negb andb] in *; bool_case; split_and!; try done; lia.
Qed.

Lemma try_reserve_none s file limit preferred minimum dem s' :
  try_reserve s file limit preferred minimum dem = (s', Ok None) -> s' = s.
Proof. unfold try_reserve. intros. by repeat case_match; simplify_eq. Qed.

Lemma try_reserve_throw s file limit preferred minimum dem s' e :
  try_reserve s file limit preferred minimum dem = (s', Throw e) -> s' = s.
Proof. unfold try_reserve. intros. by repeat case_match; simplify_eq. Qed.

Lemma zsum_divide {A} (f : A -> Z) p l : (forall x, x ∈ l -> (p | f x)) -> (p | zsum f l).
Proof.
  induction l as [|x l IH]; intros H; [apply Z.divide_0_r|]. rewrite zsum_cons.
  apply Z.divide_add_r; [apply H|apply IH; intros]; set_solver.
Qed.

(** All charges are whole pages. *)
Lemma inv_pages x :
  budget_inv x ->
  (page_size x.1 | usage_total (used x.1)) /\ (page_size x.1 | speculative (used x.1)) /\
  forall f, (page_size x.1 | usage_total (usage_of x.1 f)) /\
            (page_size x.1 | speculative (usage_of x.1 f)).
Proof.
  intros I. destruct (inv_bounds x I) as (_ & _ & -> & Hf).
  assert (forall g : Reservation -> Z, (forall r, g r = 0 \/ g r = r_bytes r) ->
    (page_size x.1 | zsum g x.2)) as Hdiv.
  { intros g Hg. apply zsum_divide. intros r Hr. pose proof (inv_live x I) as L.
    rewrite Forall_forall in L. destruct (Hg r) as [->| ->]; [apply Z.divide_0_r|apply L, Hr]. }
  assert (forall d r, charge_all d r = 0 \/ charge_all d r = r_bytes r) as Ha
    by (intros; unfold charge_all; case_match; auto).
  assert (forall f d r, charge_of f d r = 0 \/ charge_of f d r = r_bytes r) as Ho
    by (intros; unfold charge_of; case_match; auto).
  rewrite (inv_used x I). cbn [demand speculative]. split; [apply Z.divide_add_r; auto|].
  split; [auto|]. intros f. destruct (Hf f) as (_ & _ & ->).
  rewrite (inv_files x I f). cbn [demand speculative]. split; [apply Z.divide_add_r|]; auto.
Qed.

Lemma add_usage_small u (d : bool) b :
  0 <= demand u -> 0 <= speculative u -> 0 <= b -> demand u + speculative u + b < 2 ^ 64 ->
  add_usage u d b = {| speculative := speculative u + (if d then 0 else b);
                       demand := demand u + (if d then b else 0) |}.
Proof.
  intros. unfold add_usage. destruct d; f_equal; rewrite ?u64_small; lia.
Qed.

Lemma sub_usage_small u (d : bool) b :
  0 <= demand u < 2 ^ 64 -> 0 <= speculative u < 2 ^ 64 -> 0 <= b ->
  b <= (if d then demand u else speculative u) ->
  sub_usage u d b = {| speculative := speculative u - (if d then 0 else b);
                       demand := demand u - (if d then b else 0) |}.
Proof.
  intros. unfold sub_usage. destruct d; f_equal; rewrite ?u64_small; lia.
Qed.

Lemma charge_of_self r f d :
  charge_of f d r = if (r_file r =? f) && Bool.eqb (r_demand r) d then r_bytes r else 0.
Proof. done. Qed.

Lemma mod_divide a b : b <> 0 -> a mod b = 0 -> (b | a).
Proof. intros. by apply Z.mod_divide. Qed.

Lemma reserve_preserves s rs file limit preferred minimum dem s' r :
  0 <= minimum -> is_u64 limit -> is_u64 preferred ->
  budget_inv (s, rs) -> try_reserve s file limit preferred minimum dem = (s', Ok (Some r)) ->
  budget_inv (s', r :: rs).
Proof.
  intros Hmin Hlim Hpref I Htry.
  destruct (try_reserve_cases _ _ _ _ _ _ _ _ Htry)
    as (Hns & Hm0 & Hb & Hl & Hp & Hcap & Hfile & Hspec & Hval & Hr & ->).
  destruct (inv_bounds _ I) as (B1 & B2 & B3 & B4). cbn [fst] in *.
  destruct (inv_pages _ I) as (P1 & P2 & P3). cbn [fst] in *.
  destruct I as [C Hlive Hfiles Hused Hent Hc Hres Hpk Hw Hst]; cbn [fst snd] in *.
  pose proof C as [C1 C2 C3 C4 C5].
  destruct (B4 file) as (F1 & F2 & F3). destruct (P3 file) as [Q1 Q2].
  rewrite B3 in *. rewrite F3 in *.
  assert (page_size s | r_bytes r) as Hdiv.
  { apply mod_divide in Hl, Hp; [|lia..].
    destruct Hval as [->|[->|[->|[_ [->|E]]]]]; [done|..].
    - by apply Z.divide_sub_r.
    - by apply Z.divide_sub_r.
    - by repeat apply Z.divide_sub_r.
    - rewrite E. destruct (Z.min_spec limit (demand_reserve s)) as [[_ ->]|[_ ->]];
        by repeat apply Z.divide_sub_r. }
  set (b := r_bytes r) in *.
  rewrite !add_usage_small by lia. rewrite Hr.
  assert (forall f d, charge_of f d {| r_file := file; r_bytes := b; r_demand := dem |} =
    if file =? f then if dem then (if d then b else 0) else (if d then 0 else b) else 0) as Hch.
  { intros f d. unfold charge_of. cbn. by destruct (file =? f), dem, d. }
  assert (forall d, charge_all d {| r_file := file; r_bytes := b; r_demand := dem |} =
    if dem then (if d then b else 0) else (if d then 0 else b)) as Hca.
  { intros d. unfold charge_all. cbn. by destruct dem, d. }
  constructor; cbn [fst snd].
  - done.
  - constructor; [split; [cbn; lia|done]|done].
  - intros f. rewrite (usage_of_insert s _ _ _ _ file f _ eq_refl), !zsum_cons, !Hch.
    rewrite !Hfiles. destruct (Z.eqb_spec file f) as [->|]; [|done].
    cbn. destruct dem; f_equal; lia.
  - rewrite !zsum_cons, !Hca, Hused. cbn. destruct dem; cbn; f_equal; lia.
  - intros f u. cbn. destruct (Z.eqb_spec file f) as [->|Hne].
    + rewrite lookup_insert_eq. intros [= <-]. cbn. destruct dem; lia.
    + rewrite lookup_insert_ne by done. apply Hent.
  - cbn. destruct dem; lia.
  - cbn. destruct dem; [lia|]. specialize (Hspec eq_refl). lia.
  - cbn. unfold usage_total. cbn. rewrite u64_small by (destruct dem; lia). destruct dem; lia.
  - done.
  - done.
Qed.

(** The order of the reservations does not matter. *)
#[global] Instance zsum_proper {A} (f : A -> Z) : Proper (Permutation ==> eq) (zsum f).
Proof. intros l l' Hp. induction Hp; cbn in *; unfold zsum in *; lia. Qed.

Lemma budget_inv_perm s rs rs' : Permutation rs rs' -> budget_inv (s, rs) -> budget_inv (s, rs').
Proof.
  intros Hp [C Hlive Hfiles Hused Hent Hc Hres Hpk Hw Hst]. cbn [fst snd] in *.
  constructor; cbn [fst snd]; try done.
  - by rewrite <- Hp.
  - intros f. by rewrite <- !Hp.
  - by rewrite <- !Hp.
Qed.

(** Releasing a reservation. *)
Lemma reset_preserves s rs r s' woken :
  budget_inv (s, r :: rs) -> reset s r = (s', woken) -> budget_inv (s', rs).
Proof.
  intros I. pose proof (inv_bounds _ I) as (B1 & B2 & _ & B4). cbn [fst] in *.
  destruct I as [C Hlive Hfiles Hused Hent Hc Hres Hpk Hw Hst]; cbn [fst snd] in *.
  apply Forall_cons in Hlive as [[Hb _] Hlive]. unfold reset.
  assert (forall f d, 0 <= zsum (charge_of f d) rs <= zsum (charge_all d) rs) as Hrest
    by (intros f d; by apply (live_charges s)).
  destruct (Z.eqb_spec (r_bytes r) 0) as [E|E].
  { intros [= <- <-]. constructor; cbn [fst snd]; try done.
    - intros f. rewrite Hfiles, !zsum_cons. unfold charge_of at 1 3. rewrite E. by repeat case_match.
    - rewrite Hused, !zsum_cons. unfold charge_all at 1 3. rewrite E. by repeat case_match. }
  intros [= <- <-].
  destruct (B4 (r_file r)) as (F1 & F2 & _). pose proof (cfg_capacity _ C).
  assert (forall d, charge_of (r_file r) d r = charge_all d r) as Hself.
  { intros d. unfold charge_of, charge_all. by rewrite Z.eqb_refl. }
  assert (forall d, charge_all d r = if r_demand r then (if d then r_bytes r else 0)
                                     else (if d then 0 else r_bytes r)) as Hall.
  { intros d. unfold charge_all. by destruct (r_demand r), d. }
  pose proof (Hfiles (r_file r)) as Hown. rewrite !zsum_cons, !Hself, !Hall in Hown.
  rewrite !zsum_cons, !Hall in Hused.
  pose proof (Hrest (r_file r) true). pose proof (Hrest (r_file r) false).
  rewrite Hown in F1, F2. rewrite Hused in F1, F2, B1, B2, Hc, Hres, Hpk. cbn in F1, F2, B1, B2, Hc, Hres, Hpk.
  assert (sub_usage (usage_of s (r_file r)) (r_demand r) (r_bytes r) =
    {| speculative := zsum (charge_of (r_file r) false) rs;
       demand := zsum (charge_of (r_file r) true) rs |}) as Hentry.
  { rewrite sub_usage_small; rewrite ?Hown; cbn; destruct (r_demand r); f_equal; lia. }
  assert (sub_usage (used s) (r_demand r) (r_bytes r) =
    {| speculative := zsum (charge_all false) rs; demand := zsum (charge_all true) rs |}) as ->.
  { rewrite sub_usage_small; rewrite ?Hused; cbn; destruct (r_demand r); f_equal; lia. }
  generalize dependent (sub_usage (usage_of s (r_file r)) (r_demand r) (r_bytes r)).
  intros entry Hentry.
  constructor; cbn [fst snd].
  - destruct C. by constructor.
  - done.
  - intros f. change (usage_of (advance ?x ?b) f) with (usage_of x f).
    rewrite (usage_of_erase s _ _ _ _ (r_file r) f _ eq_refl).
    destruct (Z.eqb_spec (r_file r) f) as [<-|Hne]; [done|].
    rewrite Hfiles, !zsum_cons. unfold charge_of at 1 3. by rewrite (proj2 (Z.eqb_neq _ _) Hne).
  - done.
  - intros f u. cbn. destruct (_ && _) eqn:Ez.
    + intros [_ Hu]%lookup_delete_Some. by apply (Hent f).
    + destruct (Z.eqb_spec (r_file r) f) as [<-|Hne].
      * rewrite lookup_insert_eq. intros [= <-]. rewrite Hentry in Ez |- *. cbn in *.
        apply andb_false_iff in Ez. rewrite !Z.eqb_neq in Ez. lia.
      * rewrite lookup_insert_ne by done. apply Hent.
  - cbn. destruct (r_demand r); lia.
  - cbn. destruct (r_demand r); lia.
  - cbn. destruct (r_demand r); lia.
  - destruct Hw as [_ Hl]. cbn. rewrite Hl. split; [constructor|set_solver].
  - done.
Qed.

Lemma split_preserves s rs r bytes a b :
  0 <= bytes -> split s r bytes = Ok (a, b) ->
  budget_inv (s, r :: rs) -> budget_inv (s, a :: b :: rs).
Proof.
  intros Hbytes Hs [C Hlive Hfiles Hused Hent Hc Hres Hpk Hw Hst]. unfold split in Hs.
  case_match; [done|]. injection Hs as <- <-. bool_case. cbn [fst snd] in *.
  apply Forall_cons in Hlive as [[Hb Hp] Hlive]. pose proof (cfg_page _ C).
  assert (page_size s | bytes) by (apply mod_divide; lia).
  assert (forall f d, charge_of f d {| r_file := r_file r; r_bytes := r_bytes r - bytes;
                                       r_demand := r_demand r |} +
    charge_of f d {| r_file := r_file r; r_bytes := bytes; r_demand := r_demand r |} =
    charge_of f d r) as Ho.
  { intros f d. unfold charge_of. cbn. case_match; lia. }
  assert (forall d, charge_all d {| r_file := r_file r; r_bytes := r_bytes r - bytes;
                                    r_demand := r_demand r |} +
    charge_all d {| r_file := r_file r; r_bytes := bytes; r_demand := r_demand r |} =
    charge_all d r) as Ha.
  { intros d. unfold charge_all. cbn. case_match; lia. }
  constructor; cbn [fst snd]; try done.
  - repeat constructor; cbn; [lia|by apply Z.divide_sub_r|lia|done|done].
  - intros f. rewrite Hfiles, !zsum_cons. f_equal; [pose proof (Ho f false)|pose proof (Ho f true)]; lia.
  - rewrite Hused, !zsum_cons. f_equal; [pose proof (Ha false)|pose proof (Ha true)]; lia.
Qed.

(** A step that leaves the counters alone and keeps the waiter list consistent. *)
Lemma frame_preserves s s' rs :
  budget_inv (s, rs) ->
  capacity s' = capacity s -> demand_reserve s' = demand_reserve s -> page_size s' = page_size s ->
  files s' = files s -> used s' = used s -> peak s' = peak s ->
  NoDup (waiters s') /\ linked s' = list_to_set (waiters s') ->
  (stopped s' = true -> waiters s' = []) -> budget_inv (s', rs).
Proof.
  intros [C Hlive Hfiles Hused Hent Hc Hres Hpk Hw Hst] E1 E2 E3 E4 E5 E6 E7 E8.
  cbn [fst snd] in *.
  assert (forall f, usage_of s' f = usage_of s f) as Hu by (intros; unfold usage_of; by rewrite E4).
  constructor; cbn [fst snd]; rewrite ?E1, ?E2, ?E3, ?E4, ?E5, ?E6; try done.
  - destruct C. constructor; rewrite ?E1, ?E2, ?E3; done.
  - intros f. by rewrite Hu.
Qed.

Lemma unlink_spec w l l' :
  unlink w l = Some l' -> exists a b, l = a ++ w :: b /\ l' = a ++ b.
Proof.
  revert l'. induction l as [|x l IH]; intros l'; cbn; [done|].
  destruct (Z.eqb_spec x w) as [->|]; [intros [= <-]; by exists [], l|].
  intros (m & Hm & ->)%fmap_Some. destruct (IH m Hm) as (a & b & -> & ->). by exists (x :: a), b.
Qed.

Lemma step_preserves x woken y : budget_inv x -> budget_step x woken y -> budget_inv y.
Proof.
  intros I Hstep. destruct Hstep as [s rs file limit preferred minimum dem s' r Hm Hl Hp E
    |s rs file limit preferred minimum dem s' e E|s rs1 r rs2 bytes a b Hb E|s rs1 r rs2 s' woken E
    |s rs|s rs rev error s' r E|s rs Hw|s rs waiter ready rev s' r E|s rs waiter s' b E
    |s rs s' woken E|s rs s' woken E].
  - destruct r as [r|]; [exact (reserve_preserves s rs _ _ _ _ _ _ _ Hm Hl Hp I E)|].
    by apply try_reserve_none in E as ->.
  - by apply try_reserve_throw in E as ->.
  - eapply (budget_inv_perm _ (a :: b :: rs1 ++ rs2)); [by rewrite <- !Permutation_middle|].
    eapply split_preserves; [done..|]. eapply budget_inv_perm; [|exact I].
    by rewrite <- Permutation_middle.
  - eapply reset_preserves; [|done]. eapply budget_inv_perm; [|exact I].
    by rewrite <- Permutation_middle.
  - unfold wake_event. repeat case_match; [done| |done].
    eapply frame_preserves; try done; apply I.
  - unfold begin_async_wait in E. repeat case_match; simplify_eq; try done;
      eapply frame_preserves; try done; apply I.
  - eapply frame_preserves; try done; apply I.
  - unfold subscribe in E. repeat case_match; simplify_eq; try done. bool_case.
    destruct (inv_waiters _ I) as [Hnd Hl]. cbn [fst] in *.
    eapply frame_preserves; try done; cbn; [|congruence].
    rewrite Hl in *. split; [|set_solver]. constructor; [|done].
    match goal with H : bool_decide _ = false |- _ => apply bool_decide_eq_false in H end. set_solver.
  - unfold unsubscribe in E. destruct (unlink waiter (waiters s)) as [l|] eqn:U; simplify_eq; [|done].
    apply unlink_spec in U as (a & b' & Hw & ->). destruct (inv_waiters _ I) as [Hnd Hl].
    cbn [fst] in *. rewrite Hw in *. eapply frame_preserves; try done; cbn.
    + rewrite Hl. apply NoDup_app in Hnd as (N1 & N2 & N3%NoDup_cons). destruct N3 as [N3 N4].
      split; [apply NoDup_app; set_solver|]. rewrite !list_to_set_app_L, list_to_set_cons.
      assert (waiter ∉ a) by (intros Ha; apply (N2 waiter Ha); set_solver). set_solver.
    + intros Hs. pose proof (inv_stopped _ I Hs) as Hn. cbn in Hn. rewrite Hw in Hn.
      by destruct a.
  - unfold notify_reclaimable in E. case_match; simplify_eq; [done|].
    destruct (inv_waiters _ I) as [_ Hl]. cbn [fst] in Hl.
    eapply frame_preserves; try done; cbn. rewrite Hl. split; [constructor|set_solver].
  - unfold stop in E. case_match; simplify_eq; [done|].
    destruct (inv_waiters _ I) as [_ Hl]. cbn [fst] in Hl.
    eapply frame_preserves; try done; cbn. rewrite Hl. split; [constructor|set_solver].
Qed.

Lemma start_inv cap reserve page s :
  is_u64 cap -> is_u64 reserve -> 0 <= page ->
  make_PrefetchBudget cap reserve page = Ok s -> budget_inv (s, []).
Proof.
  intros Hc Hr Hp. unfold make_PrefetchBudget. case_match; [done|]. intros [= <-]. bool_case.
  constructor; cbn; try done; try lia; [|split; [constructor|done]].
  constructor; cbn; try lia; apply mod_divide; lia.
Qed.

Lemma reachable_inv s0 x : budget_inv (s0, []) -> reachable s0 x -> budget_inv x.
Proof. intros H0. induction 1; [done|by eapply step_preserves]. Qed.

(** ** Claims *)

Lemma zsum_charges rs : zsum r_bytes rs = zsum (charge_all true) rs + zsum (charge_all false) rs.
Proof.
  induction rs as [|r rs IH]; [done|]. rewrite !zsum_cons, IH.
  assert (r_bytes r = charge_all true r + charge_all false r); [|lia].
  unfold charge_all. destruct (r_demand r); cbn; lia.
Qed.

(** in every reachable state of the budget, whatever the interleaving of reservations,
    splits, releases and stops, the counters are exactly the live reservations, their sum
    never exceeds the capacity, speculation never enters the demand reserve, and when no
    reservation is left no file is charged. *)
Theorem budget_accounting cap reserve page s0 s rs :
  is_u64 cap -> is_u64 reserve -> 0 <= page ->
  make_PrefetchBudget cap reserve page = Ok s0 -> reachable s0 (s, rs) ->
  usage_total (used s) = zsum r_bytes rs /\ zsum r_bytes rs <= capacity s /\
  peak s <= capacity s /\ speculative (used s) <= capacity s - demand_reserve s /\
  (forall f, file_used s f = zsum (charge_of f true) rs + zsum (charge_of f false) rs) /\
  (rs = [] -> files s = ∅).
Proof.
  intros Hc Hr Hp Hmake Hreach. pose proof (start_inv _ _ _ _ Hc Hr Hp Hmake) as I0.
  pose proof (reachable_inv _ _ I0 Hreach) as I. destruct (inv_bounds _ I) as (_ & _ & B3 & B4).
  destruct I as [C Hlive Hfiles Hused Hent Hcap Hres Hpk Hw Hst]; cbn [fst snd] in *.
  rewrite zsum_charges. rewrite B3, Hused in *. cbn in *. split_and!; try lia.
  - intros f. unfold file_used. destruct (B4 f) as (_ & _ & ->). by rewrite Hfiles.
  - intros ->. apply map_empty. intros f. destruct (files s !! f) as [u|] eqn:E; [|done].
    specialize (Hent f u E). specialize (Hfiles f). unfold usage_of in Hfiles.
    rewrite E in Hfiles. cbn in Hfiles. subst u. cbn in Hent. lia.
Qed.

Definition sample_budget : Budget :=
  match make_PrefetchBudget 65536 16384 4096 with
  | Ok s => s
  | Throw _ => {| capacity := 0; demand_reserve := 0; page_size := 0; files := ∅;
                  used := no_usage; peak := 0; file_peak := 0; revision := 0; stopped := false;
                  waiters := []; linked := ∅; event := None; event_waiters := 0 |}
  end.

Lemma sample_reserved :
  exists s r, try_reserve sample_budget 7 32768 8192 4096 false = (s, Ok (Some r)) /\ r_bytes r = 8192.
Proof. eexists _, _. split; [vm_compute; reflexivity|reflexivity]. Qed.

Lemma budget_accounting_witness :
  exists s rs, reachable sample_budget (s, rs) /\ rs <> [] /\
    usage_total (used s) = zsum r_bytes rs.
Proof.
  destruct sample_reserved as (s & r & E & _).
  assert (reachable sample_budget (s, [r])) as Hr.
  { eapply (reachable_step _ _ []); [constructor|].
    apply (step_reserve _ [] 7 32768 8192 4096 false s (Some r)); [lia|lia|lia|exact E]. }
  exists s, [r]. split; [exact Hr|]. split; [done|].
  apply (budget_accounting 65536 16384 4096 sample_budget s [r]); [lia|lia|lia|reflexivity|exact Hr].
Defined.

(** the demand reserve is real: in every reachable state that is not stopped, a demand
    reservation of at least [minimum] bytes succeeds whenever the demand charges leave room
    for it inside the reserve and the file is below its limit, however much memory
    speculation holds. *)
Theorem demand_admitted cap reserve page s0 s rs file limit preferred minimum :
  is_u64 cap -> is_u64 reserve -> 0 <= page ->
  make_PrefetchBudget cap reserve page = Ok s0 -> reachable s0 (s, rs) ->
  stopped s = false -> 0 < minimum <= preferred -> 0 < limit ->
  limit mod page_size s = 0 -> preferred mod page_size s = 0 -> minimum mod page_size s = 0 ->
  demand (used s) + minimum <= demand_reserve s -> file_used s file + minimum <= limit ->
  exists s' r, try_reserve s file limit preferred minimum true = (s', Ok (Some r)) /\
               minimum <= r_bytes r <= preferred.
Proof.
  intros Hc Hr Hp Hmake Hreach Hns Hmin Hlim M1 M2 M3 Hroom Hfile.
  pose proof (start_inv _ _ _ _ Hc Hr Hp Hmake) as I0.
  pose proof (reachable_inv _ _ I0 Hreach) as I. destruct (inv_bounds _ I) as (B1 & B2 & B3 & B4).
  pose proof (inv_reserve _ I). cbn [fst] in *. unfold file_used in Hfile.
  unfold try_reserve. rewrite Hns, M1, M2, M3, B3. cbn [negb andb Z.eqb].
  repeat case_match; bool_case; try lia.
  eexists _, _. split; [reflexivity|]. cbn. lia.
Qed.

Lemma demand_admitted_witness :
  exists s' r, try_reserve sample_budget 7 32768 8192 4096 true = (s', Ok (Some r)) /\
               4096 <= r_bytes r <= 8192.
Proof.
  apply (demand_admitted 65536 16384 4096 sample_budget sample_budget []);
    [lia|lia|lia|reflexivity|constructor|reflexivity|lia|lia|reflexivity|reflexivity|reflexivity
    |vm_compute; congruence|vm_compute; congruence].
Defined.

(** no wake-up is lost.  [subscribe] refuses a waiter only when the budget was stopped or
    its revision moved since the caller looked; and a subscribed waiter stays subscribed, with
    revision and stop flag unchanged, until a step calls it or it unsubscribes. *)
Theorem no_lost_wakeup x woken y waiter :
  budget_step x woken y ->
  (forall rev s' b, subscribe x.1 waiter true rev = (s', Ok b) ->
     if b then waiter ∈ waiters s' /\ revision s' = rev /\ stopped s' = false
     else stopped x.1 = true \/ revision x.1 <> rev) /\
  (waiter ∈ waiters x.1 ->
   (waiter ∈ waiters y.1 /\ revision y.1 = revision x.1 /\ stopped y.1 = stopped x.1) \/
   waiter ∈ woken \/ unsubscribe x.1 waiter = (y.1, true)).
Proof.
  intros Hstep. split.
  { intros rev s' b. unfold subscribe. cbn [negb orb]. repeat case_match; intros ?; simplify_eq; bool_case.
    - apply orb_true_iff in H0 as [->|H0]; [by left|]. right. bool_case. done.
    - cbn. split; [set_solver|]. done. }
  intros Hin. destruct Hstep as [s rs file limit preferred minimum dem s' r Hm Hl Hp E
    |s rs file limit preferred minimum dem s' e E|s rs1 r rs2 bytes a b Hb E|s rs1 r rs2 s' woken E
    |s rs|s rs rev error s' r E|s rs Hw|s rs w ready rev s' r E|s rs w s' b E
    |s rs s' woken E|s rs s' woken E]; cbn [fst] in *.
  - left. unfold try_reserve in E. by repeat case_match; simplify_eq.
  - apply try_reserve_throw in E as ->. by left.
  - by left.
  - unfold reset in E. case_match; simplify_eq; [by left|]. right. by left.
  - left. unfold wake_event. by repeat case_match.
  - left. unfold begin_async_wait in E. by repeat case_match; simplify_eq.
  - by left.
  - left. unfold subscribe in E. repeat case_match; simplify_eq; try done. cbn. split; [set_solver|done].
  - unfold unsubscribe in E. destruct (unlink w (waiters s)) as [l|] eqn:U; simplify_eq; [|by left].
    destruct (decide (w = waiter)) as [->|Hne].
    + right. right. unfold unsubscribe. by rewrite U.
    + left. apply unlink_spec in U as (a & b & Ha & ->). rewrite Ha in Hin. cbn. split; [set_solver|done].
  - unfold notify_reclaimable in E. case_match; simplify_eq; [by left|]. right. by left.
  - unfold stop in E. case_match; simplify_eq; [by left|]. right. by left.
Qed.

Definition subscribed_budget : Budget := (subscribe sample_budget 5 true 0).1.

Lemma no_lost_wakeup_witness : 5 ∈ (notify_reclaimable subscribed_budget).2.
Proof.
  destruct (no_lost_wakeup (subscribed_budget, []) (notify_reclaimable subscribed_budget).2
    ((notify_reclaimable subscribed_budget).1, []) 5) as [_ H].
  - constructor. reflexivity.
  - destruct H as [(_ & H & _)|[H|H]]; [left|vm_compute in H; discriminate|exact H|].
    vm_compute in H. discriminate.
Defined.

(** releasing a reservation undoes it: after [try_reserve] and [reset] the charges of
    every file and the totals are what they were, and all waiters are called. *)
Theorem reserve_reset_roundtrip s0 s rs file limit preferred minimum dem s' r :
  budget_inv (s0, []) -> reachable s0 (s, rs) -> is_u64 limit -> is_u64 preferred -> 0 <= minimum ->
  try_reserve s file limit preferred minimum dem = (s', Ok (Some r)) ->
  let '(s'', woken) := reset s' r in
  files s'' = files s /\ used s'' = used s /\ woken = waiters s /\
  revision s'' = u64 (revision s + 1).
Proof.
  intros I0 Hreach Hlim Hpref Hmin Htry. pose proof (reachable_inv _ _ I0 Hreach) as I.
  pose proof (reserve_preserves _ _ _ _ _ _ _ _ _ Hmin Hlim Hpref I Htry) as I'.
  destruct (try_reserve_cases _ _ _ _ _ _ _ _ Htry)
    as (_ & Hm0 & Hb & _ & _ & Hcap & _ & _ & _ & Hr & Hs').
  destruct (reset s' r) as [s'' woken] eqn:E. pose proof (reset_preserves _ _ _ _ _ I' E) as I''.
  assert (forall f, usage_of s'' f = usage_of s f) as Hu.
  { intros f. etransitivity; [exact (inv_files _ I'' f)|symmetry; exact (inv_files _ I f)]. }
  assert (used s'' = used s) as Hused
    by (etransitivity; [exact (inv_used _ I'')|symmetry; exact (inv_used _ I)]).
  unfold reset in E. rewrite (proj2 (Z.eqb_neq (r_bytes r) 0)) in E by lia.
  injection E as <- <-. rewrite Hs' in *. split; [|done].
  apply map_eq. intros f. specialize (Hu f). unfold usage_of in Hu.
  pose proof (inv_entries _ I f) as En. pose proof (inv_entries _ I'' f) as En''. cbn [fst] in *.
  destruct (files (advance _ _) !! f) as [u|], (files s !! f) as [v|]; cbn in Hu; try congruence.
  - specialize (En'' u eq_refl). rewrite Hu in En''. cbn in En''. lia.
  - specialize (En v eq_refl). rewrite <- Hu in En. cbn in En. lia.
Qed.

Lemma reserve_reset_roundtrip_witness :
  exists s' r, try_reserve sample_budget 7 32768 8192 4096 true = (s', Ok (Some r)) /\
    files (reset s' r).1 = files sample_budget.
Proof.
  eexists _, _. split; [vm_compute; reflexivity|].
  match goal with |- files (reset ?s' ?r).1 = _ =>
    pose proof (reserve_reset_roundtrip sample_budget sample_budget [] 7 32768 8192 4096 true s' r)
      as H; destruct (reset s' r) as [s'' w] end.
  apply H; [|constructor|lia|lia|lia|vm_compute; reflexivity].
  apply (start_inv 65536 16384 4096); [lia|lia|lia|reflexivity].
Defined.

Lemma round_up_spec x page :
  0 < page ->
  let up := x + (if x mod page =? 0 then 0 else page - x mod page) in
  (page | up) /\ x <= up < x + page.
Proof.
  intros Hp. pose proof (Z.mod_pos_bound x page Hp). pose proof (Z.div_mod x page ltac:(lia)).
  destruct (Z.eqb_spec (x mod page) 0); (split; [|lia]).
  - exists (x / page). lia.
  - exists (x / page + 1). lia.
Qed.

(** [file_limit] never wraps: it returns the smallest multiple of the page size that is
    at least the configured limit, or else the smaller of the file size and twice the window
    (twice the window saturating at the largest multiple). *)
Theorem file_limit_rounds size window configured page limit :
  is_u64 size -> is_u64 window -> is_u64 configured -> is_u64 page ->
  file_limit size window configured page = Ok limit ->
  let wanted := if configured =? 0
                then Z.min size (Z.min (2 * window) (SIZE_MAX - SIZE_MAX mod page))
                else configured in
  is_u64 limit /\ (page | limit) /\ wanted <= limit < wanted + page.
Proof.
  intros Hs Hw Hc Hp. unfold file_limit. case_match; [done|]. bool_case.
  set (maximum := SIZE_MAX - SIZE_MAX mod page).
  assert (0 < page) by lia. pose proof (Z.mod_pos_bound SIZE_MAX page ltac:(lia)) as Hmod.
  assert (page | maximum) as Hmax.
  { apply mod_divide; [lia|]. unfold maximum. rewrite Zminus_mod_idemp_r, Z.sub_diag. done. }
  assert (0 <= maximum < 2 ^ 64) as Hm by (unfold maximum, SIZE_MAX, UINT64_MAX in *;
    pose proof (Z.mod_le (2 ^ 64 - 1) page ltac:(lia) ltac:(lia)); lia).
  assert ((if window >? maximum / 2 then maximum else u64 (window * 2))
          = Z.min (2 * window) maximum) as ->.
  { pose proof (Z.div_mod maximum 2 ltac:(lia)). pose proof (Z.mod_pos_bound maximum 2 ltac:(lia)).
    rewrite Z.gtb_ltb. destruct (Z.ltb_spec (maximum / 2) window); [lia|].
    rewrite u64_small by lia. lia. }
  set (wanted := if configured =? 0 then _ else _).
  assert ((if negb (configured =? 0) then configured else Z.min size (Z.min (2 * window) maximum))
          = wanted) as -> by (unfold wanted; by destruct (configured =? 0)).
  assert (0 <= wanted) by (unfold wanted; case_match; lia).
  rewrite Z.gtb_ltb. destruct (Z.ltb_spec maximum wanted) as [|Hle]; [done|]. intros <-%Ok_inj.
  cbv zeta. pose proof (round_up_spec wanted page ltac:(lia)) as (Hd & Hlo & Hhi).
  set (up := wanted + _) in *.
  assert (up <= maximum) as Hup.
  { destruct Hmax as [k Hk], Hd as [j Hj]. assert (k * page < (j - 1) * page -> False) by lia.
    assert (j <= k); [|nia]. destruct (Z.le_gt_cases j k); [done|]. nia. }
  rewrite u64_small by lia. split; [lia|]. split; [done|lia].
Qed.

Lemma file_limit_rounds_witness : file_limit 10000 65536 0 4096 = Ok 12288 /\ (4096 | 12288).
Proof.
  split; [reflexivity|].
  apply (file_limit_rounds 10000 65536 0 4096 12288); [lia|lia|lia|lia|reflexivity].
Defined.
