(* ===== verification/ReceivePool.v ===== *)
(** * ReceiveBlockPool

    Models [ReceiveBlockPool] of [src/src/io.cpp]: a bounded pool of 2 MiB mappings whose
    freelist is threaded through the first word of the idle blocks.  Memory is a function of
    a block's address and an offset into it: mappings returned by [mmap] do not overlap. *)

From S2P Require Import Prelude.

Definition kReceiveBlockSize : Z := 2 * 1024 * 1024.
#[global] Opaque kReceiveBlockSize.

Lemma block_size : kReceiveBlockSize = 2097152.
Proof. reflexivity. Qed.

Definition Mem : Type := Z -> Z -> ascii.

(** [*static_cast<void**>(block) = pointer], little-endian. *)
Definition store_pointer (m : Mem) (block pointer : Z) : Mem :=
  fun b o => if (b =? block) && (0 <=? o) && (o <? 8)
             then chr (u8_of (Z.shiftr pointer (8 * o))) else m b o.

(** [*static_cast<void**>(block)]. *)
Definition load_pointer (m : Mem) (block : Z) : Z :=
  zsum (fun o => Z.shiftl (u8 (m block o)) (8 * o)) (zrange 0 8).

(** A null pointer is 0. *)
Record Pool := { free_ : Z; mapped_ : Z; idle_ : Z; capacity_ : Z }.

Definition make_ReceiveBlockPool (capacity : Z) : result Pool :=
  let capacity := capacity / kReceiveBlockSize * kReceiveBlockSize in
  if capacity =? 0 then Throw InvalidArgument
  else Ok {| free_ := 0; mapped_ := 0; idle_ := 0; capacity_ := capacity |}.

(** The critical section of [acquire]: a block of the freelist, or [None] when room for a
    new mapping has been taken and [allocate_block] is to be called. *)
Definition acquire_locked (p : Pool) (m : Mem) : Pool * result (option Z) :=
  if negb (free_ p =? 0) then
    let block := free_ p in
    ({| free_ := load_pointer m block; mapped_ := mapped_ p;
        idle_ := u64 (idle_ p - kReceiveBlockSize); capacity_ := capacity_ p |}, Ok (Some block))
  else if mapped_ p =? capacity_ p then (p, Throw (SystemError ENOMEM))
  else ({| free_ := free_ p; mapped_ := u64 (mapped_ p + kReceiveBlockSize);
           idle_ := idle_ p; capacity_ := capacity_ p |}, Ok None).

(** [mmap] is the outcome of the system call: the mapping, or an errno. *)
Definition allocate_block (p : Pool) (mmap : Z + Z) : Pool * result Z :=
  match mmap with
  | inl block => (p, Ok block)
  | inr error =>
      ({| free_ := free_ p; mapped_ := u64 (mapped_ p - kReceiveBlockSize);
          idle_ := idle_ p; capacity_ := capacity_ p |}, Throw (SystemError error))
  end.

Definition acquire (p : Pool) (m : Mem) (mmap : Z + Z) : Pool * result Z :=
  match acquire_locked p m with
  | (p, Ok (Some block)) => (p, Ok block)
  | (p, Ok None) => allocate_block p mmap
  | (p, Throw e) => (p, Throw e)
  end.

Definition release (p : Pool) (m : Mem) (block : Z) : Pool * Mem :=
  if block =? 0 then (p, m)
  else ({| free_ := block; mapped_ := mapped_ p; idle_ := u64 (idle_ p + kReceiveBlockSize);
           capacity_ := capacity_ p |}, store_pointer m block (free_ p)).

Definition preallocate_target (p : Pool) (count : Z) : Z :=
  Z.min count (capacity_ p / kReceiveBlockSize) * kReceiveBlockSize.

(** The loop of [preallocate]; turn [i] takes the [i]-th outcome of [mmap].  Each turn maps one
    block, so [count] turns and the final test are enough. *)
Fixpoint preallocate_loop (fuel : nat) (target : Z) (mmap : list (Z + Z)) (p : Pool) (m : Mem) :
    Pool * Mem * result unit :=
  match fuel with
  | O => (p, m, Ok tt)
  | S fuel =>
      if mapped_ p >=? target then (p, m, Ok tt)
      else
        let p := {| free_ := free_ p; mapped_ := u64 (mapped_ p + kReceiveBlockSize);
                    idle_ := idle_ p; capacity_ := capacity_ p |} in
        match allocate_block p (hd (inr ENOMEM) mmap) with
        | (p, Throw e) => (p, m, Throw e)
        | (p, Ok block) =>
            let '(p, m) := release p m block in preallocate_loop fuel target (tl mmap) p m
        end
  end.

Definition preallocate (p : Pool) (m : Mem) (count : Z) (mmap : list (Z + Z)) :
    Pool * Mem * result unit :=
  preallocate_loop (S (Z.to_nat count)) (preallocate_target p count) mmap p m.

(** The destructor: the blocks it unmaps, in order.  The chain is followed until a null
    pointer; [fuel] bounds it by the number of idle blocks. *)
Fixpoint unmap_chain (fuel : nat) (m : Mem) (block : Z) : list Z :=
  match fuel with
  | O => []
  | S fuel => if block =? 0 then [] else block :: unmap_chain fuel m (load_pointer m block)
  end.

Definition destroy_ReceiveBlockPool (p : Pool) (m : Mem) : list Z :=
  unmap_chain (Z.to_nat (idle_ p / kReceiveBlockSize)) m (free_ p).

(** ** Pointers in memory *)

Lemma load_store m block pointer : is_u64 pointer -> load_pointer (store_pointer m block pointer) block = pointer.
Proof.
  intros Hp. unfold load_pointer, store_pointer.
  assert (forall o, 0 <= o < 8 -> u8 (if (block =? block) && (0 <=? o) && (o <? 8)
    then chr (u8_of (Z.shiftr pointer (8 * o))) else m block o) = (pointer / 2 ^ (8 * o)) mod 256) as Hb.
  { intros o Ho. rewrite Z.eqb_refl, (proj2 (Z.leb_le _ _)), (proj2 (Z.ltb_lt _ _)) by lia. cbn.
    rewrite u8_chr by (apply Z.mod_pos_bound; lia).
    unfold u8_of. by rewrite Z.shiftr_div_pow2 by lia. }
  change (zrange 0 8) with [0;1;2;3;4;5;6;7]. cbn [zsum foldr].
  rewrite !Hb by lia. rewrite !Z.shiftl_mul_pow2 by lia.
  change (2 ^ (8 * 0)) with 1. change (2 ^ (8 * 1)) with 256. change (2 ^ (8 * 2)) with 65536.
  change (2 ^ (8 * 3)) with 16777216. change (2 ^ (8 * 4)) with 4294967296.
  change (2 ^ (8 * 5)) with 1099511627776. change (2 ^ (8 * 6)) with 281474976710656.
  change (2 ^ (8 * 7)) with 72057594037927936.
  Z.to_euclidean_division_equations. lia.
Qed.

Lemma load_frame m m' block : (forall o, m' block o = m block o) -> load_pointer m' block = load_pointer m block.
Proof.
  intros H. unfold load_pointer. change (zrange 0 8) with [0;1;2;3;4;5;6;7]. cbn [zsum foldr].
  by rewrite !H.
Qed.

Lemma store_frame m block pointer b : b <> block -> forall o, store_pointer m block pointer b o = m b o.
Proof. intros Hb o. unfold store_pointer. by rewrite (proj2 (Z.eqb_neq _ _) Hb). Qed.

(** ** The freelist *)

(** [free_] heads the chain of the blocks [l] threaded through memory. *)
Fixpoint freelist (m : Mem) (head : Z) (l : list Z) : Prop :=
  match l with
  | [] => head = 0
  | b :: l => head = b /\ freelist m (load_pointer m b) l
  end.

Lemma freelist_frame m m' head l :
  (forall b, b ∈ l -> forall o, m' b o = m b o) -> freelist m head l -> freelist m' head l.
Proof.
  revert head. induction l as [|b l IH]; intros head Hm; [done|]. intros [-> Hl].
  split; [done|]. rewrite (load_frame m m'); [|intros; apply Hm; set_solver].
  apply IH; [set_solver|done].
Qed.

(** The pool's idle blocks [idle], leased blocks [leased] and the number [pending] of
    mappings between the critical section of [acquire] and the end of [allocate_block]. *)
Record pool_inv (p : Pool) (m : Mem) (idle : list Z) (leased : gset Z) (pending : Z) : Prop := {
  pool_chain : freelist m (free_ p) idle;
  pool_nodup : NoDup idle;
  pool_apart : forall b, b ∈ idle -> b ∉ leased;
  pool_addresses : forall b, b ∈ idle \/ b ∈ leased -> 0 < b < 2 ^ 64;
  pool_idle : idle_ p = kReceiveBlockSize * vsize idle;
  pool_mapped : mapped_ p = kReceiveBlockSize * (vsize idle + Z.of_nat (size leased) + pending);
  pool_pending : 0 <= pending;
  pool_capacity : mapped_ p <= capacity_ p < 2 ^ 64;
  pool_blocks : (kReceiveBlockSize | capacity_ p);
}.

(** ** The critical sections preserve the invariant *)

Section Preserve.
Context (p : Pool) (m : Mem) (idle : list Z) (leased : gset Z) (pending : Z).
Context (I : pool_inv p m idle leased pending).

Lemma mapped_nonneg : 0 <= mapped_ p.
Proof.
  destruct I as [? ? ? ? ? Hm ? ? ?]. pose proof (vsize_nonneg idle). rewrite block_size in *. lia.
Qed.

Lemma mapped_room : mapped_ p <> capacity_ p -> mapped_ p + kReceiveBlockSize <= capacity_ p.
Proof.
  intros Hne. destruct I as [? ? ? ? ? Hm ? [? ?] [k Hk]]. rewrite block_size in *. lia.
Qed.

(** Hit: the head of the freelist becomes leased. *)
Lemma acquire_hit :
  free_ p <> 0 ->
  exists b rest p', idle = b :: rest /\ acquire_locked p m = (p', Ok (Some b)) /\
    b ∉ leased /\ pool_inv p' m rest ({[b]} ∪ leased) pending.
Proof.
  intros Hf. destruct I as [Hc Hnd Hap Had Hi Hm Hp [Hcap Hlt] Hb].
  unfold acquire_locked. rewrite (proj2 (Z.eqb_neq _ _) Hf). cbn [negb].
  destruct idle as [|b rest]; [done|]. destruct Hc as [Hhead Hc].
  apply NoDup_cons in Hnd as [Hn Hnd]. pose proof (Hap b ltac:(set_solver)) as Hbl.
  exists b, rest. eexists. split; [done|]. rewrite Hhead. split; [reflexivity|]. split; [done|].
  assert (size ({[b]} ∪ leased) = S (size leased)) as Hs.
  { rewrite size_union, size_singleton by set_solver. lia. }
  unfold vsize in *. cbn [length] in *. rewrite block_size in *.
  constructor; cbn [free_ mapped_ idle_ capacity_]; rewrite ?Hs, ?block_size.
  - done.
  - done.
  - intros c Hcr. specialize (Hap c ltac:(set_solver)). set_solver.
  - intros c Hcr. apply Had. set_solver.
  - rewrite u64_small by lia. unfold vsize. lia.
  - unfold vsize. lia.
  - done.
  - done.
  - done.
Qed.

(** Miss: room for one mapping is taken, or the pool is exhausted. *)
Lemma acquire_miss :
  free_ p = 0 ->
  (exists p', acquire_locked p m = (p', Ok None) /\ pool_inv p' m idle leased (pending + 1)) \/
  (acquire_locked p m = (p, Throw (SystemError ENOMEM)) /\ mapped_ p = capacity_ p).
Proof.
  intros Hf. unfold acquire_locked. rewrite Hf. cbn [negb Z.eqb].
  destruct (Z.eqb_spec (mapped_ p) (capacity_ p)) as [E|E]; [right; done|]. left.
  pose proof (mapped_room E). destruct I as [Hc Hnd Hap Had Hi Hm Hp [Hcap Hlt] Hb].
  eexists. split; [reflexivity|]. rewrite Hf in Hc. pose proof (vsize_nonneg idle).
  rewrite block_size in *. rewrite u64_small by lia.
  constructor; cbn; rewrite ?block_size; try done; lia.
Qed.

(** The mapping arrives: [mmap] returns an address that is not in use. *)
Lemma allocate_ok b :
  0 < pending -> 0 < b < 2 ^ 64 -> b ∉ idle -> b ∉ leased ->
  allocate_block p (inl b) = (p, Ok b) /\ pool_inv p m idle ({[b]} ∪ leased) (pending - 1).
Proof.
  intros Hpos Hb Hni Hnl. split; [done|].
  destruct I as [Hc Hnd Hap Had Hi Hm Hp Hcap Hblk].
  assert (size ({[b]} ∪ leased) = S (size leased)) as Hs.
  { rewrite size_union, size_singleton by set_solver. lia. }
  constructor; rewrite ?Hs; try done; try lia; set_solver.
Qed.

Lemma allocate_failed e :
  0 < pending ->
  exists p', allocate_block p (inr e) = (p', Throw (SystemError e)) /\
    pool_inv p' m idle leased (pending - 1).
Proof.
  intros Hpos. eexists. split; [reflexivity|].
  destruct I as [Hc Hnd Hap Had Hi Hm Hp [Hcap Hlt] Hblk]. pose proof (vsize_nonneg idle).
  rewrite block_size in *.
  constructor; cbn; rewrite ?block_size, ?u64_small; try done; lia.
Qed.

(** Releasing a leased block threads it onto the freelist; no other block is touched. *)
Lemma release_leased b :
  b ∈ leased ->
  exists p' m', release p m b = (p', m') /\ (forall c o, c <> b -> m' c o = m c o) /\
    pool_inv p' m' (b :: idle) (leased ∖ {[b]}) pending.
Proof.
  intros Hb. destruct I as [Hc Hnd Hap Had Hi Hm Hp [Hcap Hlt] Hblk].
  pose proof (Had b (or_intror Hb)) as Hrange. unfold release.
  rewrite (proj2 (Z.eqb_neq b 0)) by lia. eexists _, _. split; [reflexivity|].
  assert (forall c o, c <> b -> store_pointer m b (free_ p) c o = m c o) as Hframe
    by (intros; by apply store_frame).
  split; [done|].
  assert (b ∉ idle) as Hni by (intros H; by apply (Hap b)).
  assert (size leased = S (size (leased ∖ {[b]}))) as Hs.
  { rewrite size_difference, size_singleton by set_solver.
    assert (size leased <> 0%nat); [|lia]. intros H0%size_empty_inv. set_solver. }
  assert (is_u64 (free_ p)) as Hfree.
  { destruct idle as [|c r]; cbn in Hc; [rewrite Hc; lia|]. destruct Hc as [-> _].
    pose proof (Had c ltac:(set_solver)). lia. }
  pose proof (vsize_nonneg idle).
  assert (vsize (b :: idle) = vsize idle + 1) as Hv by (unfold vsize; cbn [length]; lia).
  constructor; cbn [free_ mapped_ idle_ capacity_]; try done.
  - split; [done|]. rewrite load_store by done.
    eapply freelist_frame; [|exact Hc]. intros c Hcin o. apply Hframe. set_solver.
  - by constructor.
  - set_solver.
  - set_solver.
  - rewrite Hv, block_size in *. rewrite u64_small; lia.
  - rewrite Hv. lia.
Qed.

(** Users write only to blocks they lease. *)
Lemma user_writes m' :
  (forall b o, b ∉ leased -> m' b o = m b o) -> pool_inv p m' idle leased pending.
Proof.
  intros Hm'. destruct I as [Hc Hnd Hap Had Hi Hm Hp Hcap Hblk]. constructor; try done.
  eapply freelist_frame; [|exact Hc]. intros b Hb o. apply Hm'. by apply Hap.
Qed.
End Preserve.

(** ** All interleavings *)

(** The pool with the blocks it has mapped, the leased ones among them, and the mappings
    being made. *)
Record PoolState := {
  ps_pool : Pool; ps_mem : Mem; ps_blocks : gset Z; ps_leased : gset Z; ps_pending : Z }.

Definition start_state (p : Pool) (m : Mem) : PoolState :=
  {| ps_pool := p; ps_mem := m; ps_blocks := ∅; ps_leased := ∅; ps_pending := 0 |}.

Inductive pool_step : PoolState -> PoolState -> Prop :=
  | pool_hit p m blocks leased n p' b :
      acquire_locked p m = (p', Ok (Some b)) ->
      pool_step {| ps_pool := p; ps_mem := m; ps_blocks := blocks; ps_leased := leased; ps_pending := n |}
        {| ps_pool := p'; ps_mem := m; ps_blocks := blocks; ps_leased := {[b]} ∪ leased; ps_pending := n |}
  | pool_miss p m blocks leased n p' :
      acquire_locked p m = (p', Ok None) ->
      pool_step {| ps_pool := p; ps_mem := m; ps_blocks := blocks; ps_leased := leased; ps_pending := n |}
        {| ps_pool := p'; ps_mem := m; ps_blocks := blocks; ps_leased := leased; ps_pending := n + 1 |}
  | pool_preallocate p m blocks leased n count :
      0 <= count -> mapped_ p < preallocate_target p count ->
      pool_step {| ps_pool := p; ps_mem := m; ps_blocks := blocks; ps_leased := leased; ps_pending := n |}
        {| ps_pool := {| free_ := free_ p; mapped_ := u64 (mapped_ p + kReceiveBlockSize);
                         idle_ := idle_ p; capacity_ := capacity_ p |};
           ps_mem := m; ps_blocks := blocks; ps_leased := leased; ps_pending := n + 1 |}
  | pool_map p m blocks leased n p' b :
      0 < n -> 0 < b < 2 ^ 64 -> b ∉ blocks -> allocate_block p (inl b) = (p', Ok b) ->
      pool_step {| ps_pool := p; ps_mem := m; ps_blocks := blocks; ps_leased := leased; ps_pending := n |}
        {| ps_pool := p'; ps_mem := m; ps_blocks := {[b]} ∪ blocks; ps_leased := {[b]} ∪ leased;
           ps_pending := n - 1 |}
  | pool_map_failed p m blocks leased n p' e :
      0 < n -> allocate_block p (inr e) = (p', Throw (SystemError e)) ->
      pool_step {| ps_pool := p; ps_mem := m; ps_blocks := blocks; ps_leased := leased; ps_pending := n |}
        {| ps_pool := p'; ps_mem := m; ps_blocks := blocks; ps_leased := leased; ps_pending := n - 1 |}
  | pool_release p m blocks leased n p' m' b :
      b ∈ leased -> release p m b = (p', m') ->
      pool_step {| ps_pool := p; ps_mem := m; ps_blocks := blocks; ps_leased := leased; ps_pending := n |}
        {| ps_pool := p'; ps_mem := m'; ps_blocks := blocks; ps_leased := leased ∖ {[b]}; ps_pending := n |}
  | pool_write p m blocks leased n m' :
      (forall b o, b ∉ leased -> m' b o = m b o) ->
      pool_step {| ps_pool := p; ps_mem := m; ps_blocks := blocks; ps_leased := leased; ps_pending := n |}
        {| ps_pool := p; ps_mem := m'; ps_blocks := blocks; ps_leased := leased; ps_pending := n |}.

Inductive pool_reachable (p : Pool) (m : Mem) : PoolState -> Prop :=
  | pool_start : pool_reachable p m (start_state p m)
  | pool_next s s' : pool_reachable p m s -> pool_step s s' -> pool_reachable p m s'.

Definition state_inv (s : PoolState) : Prop :=
  exists idle, pool_inv (ps_pool s) (ps_mem s) idle (ps_leased s) (ps_pending s) /\
    forall b, b ∈ ps_blocks s <-> b ∈ idle \/ b ∈ ps_leased s.

Lemma preallocate_room p m idle leased n count :
  pool_inv p m idle leased n -> 0 <= count -> mapped_ p < preallocate_target p count ->
  pool_inv {| free_ := free_ p; mapped_ := u64 (mapped_ p + kReceiveBlockSize);
              idle_ := idle_ p; capacity_ := capacity_ p |} m idle leased (n + 1).
Proof.
  intros I Hc Ht. unfold preallocate_target in Ht.
  assert (mapped_ p <> capacity_ p) as Hne.
  { pose proof (Z.mul_div_le (capacity_ p) kReceiveBlockSize). rewrite block_size in *.
    pose proof (pool_capacity _ _ _ _ _ I). lia. }
  pose proof (mapped_room _ _ _ _ _ I Hne). destruct I as [? ? ? ? ? Hm ? [? ?] Hb].
  pose proof (vsize_nonneg idle). rewrite block_size in *.
  constructor; cbn [free_ mapped_ idle_ capacity_]; rewrite ?block_size, ?u64_small; try done; lia.
Qed.

Lemma pool_step_inv s s' : state_inv s -> pool_step s s' -> state_inv s'.
Proof.
  intros (idle & I & Hblocks) Hstep. destruct Hstep as [p m blocks leased n p' b E
    |p m blocks leased n p' E|p m blocks leased n count Hc Ht|p m blocks leased n p' b Hn Hb Hf E
    |p m blocks leased n p' e Hn E|p m blocks leased n p' m' b Hb E|p m blocks leased n m' Hm];
    cbn [ps_pool ps_mem ps_blocks ps_leased ps_pending] in *;
    unfold state_inv; cbn [ps_pool ps_mem ps_blocks ps_leased ps_pending].
  - destruct (Z.eq_dec (free_ p) 0) as [Hf|Hf].
    { destruct (acquire_miss _ _ _ _ _ I Hf) as [(? & E' & _)|[E' _]]; congruence. }
    destruct (acquire_hit _ _ _ _ _ I Hf) as (b' & rest & p'' & -> & E' & Hbl & I').
    rewrite E in E'. simplify_eq. exists rest. split; [done|]. set_solver.
  - destruct (Z.eq_dec (free_ p) 0) as [Hf|Hf].
    2: { destruct (acquire_hit _ _ _ _ _ I Hf) as (? & ? & ? & _ & E' & _). congruence. }
    destruct (acquire_miss _ _ _ _ _ I Hf) as [(p'' & E' & I')|[E' _]]; [|congruence].
    rewrite E in E'. simplify_eq. exists idle. done.
  - exists idle. split; [|done]. by eapply preallocate_room.
  - destruct (allocate_ok _ _ _ _ _ I b) as [E' I']; [done|done|set_solver|set_solver|].
    rewrite E in E'. simplify_eq. exists idle. split; [done|]. set_solver.
  - destruct (allocate_failed _ _ _ _ _ I e) as (p'' & E' & I'); [done|].
    rewrite E in E'. simplify_eq. exists idle. done.
  - destruct (release_leased _ _ _ _ _ I b Hb) as (p'' & m'' & E' & _ & I').
    rewrite E in E'. simplify_eq. exists (b :: idle). split; [done|].
    intros c. rewrite Hblocks. destruct (decide (c = b)) as [->|]; set_solver.
  - exists idle. split; [|done]. by eapply user_writes.
Qed.

Lemma pool_start_inv cap p m : is_u64 cap -> make_ReceiveBlockPool cap = Ok p -> state_inv (start_state p m).
Proof.
  intros Hc. unfold make_ReceiveBlockPool. case_match; [done|]. intros [= <-].
  exists []. split; [|set_solver]. pose proof (Z.mul_div_le cap kReceiveBlockSize) as Hle.
  assert (0 <= cap / kReceiveBlockSize) by (rewrite block_size; apply Z.div_pos; lia).
  constructor; cbn; rewrite ?block_size in *; try done; try set_solver.
  - constructor.
  - lia.
  - exists (cap / 2097152). done.
Qed.

Lemma pool_reachable_inv p m s : state_inv (start_state p m) -> pool_reachable p m s -> state_inv s.
Proof. intros H0. induction 1; [done|by eapply pool_step_inv]. Qed.

(** in every interleaving of acquisitions, mappings, failures, releases and writes to
    leased blocks, the pool never maps more than its capacity, its counters are the blocks on
    the freelist, the leased blocks and the mappings in flight, the freelist threaded through
    the idle blocks is intact, and a block that [acquire] hands out is a mapped block that
    nobody holds. *)
Theorem pool_bounded_exclusive cap p0 m0 s :
  is_u64 cap -> make_ReceiveBlockPool cap = Ok p0 -> pool_reachable p0 m0 s ->
  let p := ps_pool s in
  mapped_ p = idle_ p + kReceiveBlockSize * (Z.of_nat (size (ps_leased s)) + ps_pending s) /\
  mapped_ p <= capacity_ p /\
  (exists idle, freelist (ps_mem s) (free_ p) idle /\ NoDup idle /\
     idle_ p = kReceiveBlockSize * vsize idle /\
     forall b, b ∈ idle <-> b ∈ ps_blocks s ∖ ps_leased s) /\
  (forall p' b, acquire_locked p (ps_mem s) = (p', Ok (Some b)) ->
     b ∈ ps_blocks s /\ b ∉ ps_leased s).
Proof.
  intros Hc Hmake Hr. pose proof (pool_reachable_inv _ _ _ (pool_start_inv _ _ _ Hc Hmake) Hr)
    as (idle & I & Hb). cbv zeta. pose proof I as [Hch Hnd Hap Had Hi Hm Hp [Hcap _] _].
  split; [lia|]. split; [done|]. split.
  - exists idle. split_and!; try done. intros b. rewrite elem_of_difference, Hb.
    specialize (Hap b). tauto.
  - intros p' b E. destruct (Z.eq_dec (free_ (ps_pool s)) 0) as [Hf|Hf].
    { destruct (acquire_miss _ _ _ _ _ I Hf) as [(? & E' & _)|[E' _]]; congruence. }
    destruct (acquire_hit _ _ _ _ _ I Hf) as (b' & rest & p'' & E0 & E' & Hbl & _).
    rewrite E in E'. simplify_eq. split; [|done]. apply Hb. left. set_solver.
Qed.

(** A fresh pool of one block, and the state after a miss, a mapping and a release. *)
Definition sample_pool : Pool := {| free_ := 0; mapped_ := 0; idle_ := 0; capacity_ := kReceiveBlockSize |}.
Definition zero_mem : Mem := fun _ _ => Ascii.zero.

Lemma pool_bounded_exclusive_witness :
  exists s, pool_reachable sample_pool zero_mem s /\ ps_leased s = {[4096]} /\
    mapped_ (ps_pool s) <= capacity_ (ps_pool s).
Proof.
  assert (acquire_locked sample_pool zero_mem =
    ({| free_ := 0; mapped_ := kReceiveBlockSize; idle_ := 0; capacity_ := kReceiveBlockSize |},
     Ok None)) as E by (unfold acquire_locked; cbn; rewrite block_size; reflexivity).
  set (s := {| ps_pool := {| free_ := 0; mapped_ := kReceiveBlockSize; idle_ := 0;
                             capacity_ := kReceiveBlockSize |};
               ps_mem := zero_mem; ps_blocks := {[4096]} ∪ ∅; ps_leased := {[4096]} ∪ ∅;
               ps_pending := 0 + 1 - 1 |}).
  assert (pool_reachable sample_pool zero_mem s) as Hr.
  { eapply pool_next; [eapply pool_next; [apply pool_start|apply pool_miss, E]|].
    apply pool_map; [lia|lia|set_solver|reflexivity]. }
  exists s. split; [exact Hr|]. split; [cbn; set_solver|].
  apply (pool_bounded_exclusive kReceiveBlockSize sample_pool zero_mem s);
    [rewrite block_size; lia|unfold make_ReceiveBlockPool; rewrite block_size; reflexivity|exact Hr].
Defined.

(** ** Preallocation *)

Lemma preallocate_loop_spec fuel target mmap p m idle leased :
  pool_inv p m idle leased 0 -> (kReceiveBlockSize | target) -> target <= capacity_ p ->
  NoDup mmap -> Forall (fun b => 0 < b < 2 ^ 64 /\ b ∉ idle /\ b ∉ leased) mmap ->
  target <= mapped_ p + kReceiveBlockSize * vsize mmap -> (length mmap < fuel)%nat ->
  exists p' m' fresh,
    preallocate_loop fuel target (map inl mmap) p m = (p', m', Ok tt) /\
    mapped_ p' = Z.max (mapped_ p) target /\
    pool_inv p' m' (fresh ++ idle) leased 0 /\ fresh ⊆ mmap /\
    (forall b o, b ∈ leased -> m' b o = m b o).
Proof.
  revert fuel p m idle. induction mmap as [|b mmap IH];
    intros fuel p m idle I Ht Hcap Hnd Hf Hroom Hfuel; (destruct fuel as [|fuel]; [lia|]);
    cbn [preallocate_loop map]; rewrite Z.geb_leb; destruct (Z.leb_spec target (mapped_ p)) as [Hdone|Hmore].
  - exists p, m, []. split_and!; [done|lia|done|set_solver|done].
  - unfold vsize in Hroom. cbn in Hroom. lia.
  - exists p, m, []. split_and!; [done|lia|done|set_solver|done].
  - assert (mapped_ p < preallocate_target p (capacity_ p)) as Hlt.
    { unfold preallocate_target. destruct (pool_blocks _ _ _ _ _ I) as [k Hk].
      pose proof (pool_capacity _ _ _ _ _ I) as [? ?]. rewrite Hk in *.
      rewrite Z.div_mul by (rewrite block_size; lia). rewrite block_size in *.
      pose proof (pool_mapped _ _ _ _ _ I) as Hm. pose proof (vsize_nonneg idle).
      rewrite block_size in Hm. lia. }
    pose proof (pool_capacity _ _ _ _ _ I) as [? ?]. pose proof (mapped_nonneg _ _ _ _ _ I).
    pose proof (preallocate_room _ _ _ _ _ (capacity_ p) I ltac:(lia) Hlt) as I1.
    cbn [hd tl]. apply Forall_cons in Hf as [(Hb & Hbi & Hbl) Hf].
    destruct (allocate_ok _ _ _ _ _ I1 b ltac:(lia) Hb Hbi Hbl) as [E I2]. rewrite E.
    destruct (release_leased _ _ _ _ _ I2 b ltac:(set_solver)) as (p2 & m2 & E2 & Hfr & I3).
    rewrite E2. replace (({[b]} ∪ leased) ∖ {[b]}) with leased in I3 by set_solver.
    replace (0 + 1 - 1) with 0 in I3 by lia.
    apply NoDup_cons in Hnd as [Hbm Hnd].
    assert (mapped_ p2 = mapped_ p + kReceiveBlockSize /\ capacity_ p2 = capacity_ p) as [Hmp Hcp].
    { unfold release in E2. rewrite (proj2 (Z.eqb_neq b 0)) in E2 by lia. injection E2 as <- _.
      cbn. split; [|done]. apply u64_small. pose proof (pool_mapped _ _ _ _ _ I) as Hm.
      pose proof (mapped_room _ _ _ _ _ I). pose proof (vsize_nonneg idle).
      rewrite block_size in *. lia. }
    destruct (IH fuel p2 m2 (b :: idle)) as (p' & m' & fresh & E' & Hmax & I' & Hsub & Hfr').
    + done.
    + done.
    + lia.
    + done.
    + rewrite Forall_forall in Hf |- *. intros x Hx. destruct (Hf x Hx) as (? & ? & ?).
      split_and!; [lia|lia| |done]. rewrite elem_of_cons. intros [->|]; done.
    + unfold vsize in *. cbn [length] in Hroom. lia.
    + cbn in Hfuel. lia.
    + rewrite E'. exists p', m', (fresh ++ [b]). split_and!; [done| |by rewrite <- app_assoc| |].
      * rewrite Hmax, Hmp. destruct Ht as [k Hk]. pose proof (pool_mapped _ _ _ _ _ I) as Hm.
        rewrite block_size in *. lia.
      * set_solver.
      * intros c o Hc. rewrite Hfr' by done. apply Hfr. set_solver.
Qed.

(** [preallocate] fills the pool: when [mmap] delivers fresh blocks it returns, the pool
    then maps exactly [min(count, capacity / 2 MiB)] blocks or what it had if that was more,
    the new ones are idle, and no leased block is touched. *)
Theorem preallocate_fills p m idle leased count mmap :
  pool_inv p m idle leased 0 -> 0 <= count ->
  NoDup mmap -> Forall (fun b => 0 < b < 2 ^ 64 /\ b ∉ idle /\ b ∉ leased) mmap ->
  vsize mmap = count ->
  exists p' m' fresh,
    preallocate p m count (map inl mmap) = (p', m', Ok tt) /\
    mapped_ p' = Z.max (mapped_ p) (Z.min count (capacity_ p / kReceiveBlockSize) * kReceiveBlockSize) /\
    pool_inv p' m' (fresh ++ idle) leased 0 /\
    (forall b o, b ∈ leased -> m' b o = m b o).
Proof.
  intros I Hc Hnd Hf Hlen. unfold preallocate.
  pose proof (pool_capacity _ _ _ _ _ I) as [? ?]. pose proof (mapped_nonneg _ _ _ _ _ I).
  pose proof (Z.mul_div_le (capacity_ p) kReceiveBlockSize) as Hdiv.
  destruct (preallocate_loop_spec (S (Z.to_nat count)) (preallocate_target p count) mmap p m idle leased)
    as (p' & m' & fresh & E & Hmax & I' & _ & Hfr); unfold preallocate_target in *; try done.
  - by exists (Z.min count (capacity_ p / kReceiveBlockSize)).
  - rewrite block_size in *. lia.
  - rewrite Hlen, block_size. lia.
  - unfold vsize in Hlen. lia.
  - by exists p', m', fresh.
Qed.

Lemma sample_pool_inv : pool_inv sample_pool zero_mem [] ∅ 0.
Proof.
  destruct (pool_start_inv kReceiveBlockSize sample_pool zero_mem) as (idle & I & Hb);
    [rewrite block_size; lia|unfold make_ReceiveBlockPool; rewrite block_size; reflexivity|].
  destruct idle as [|x l]; [exact I|]. exfalso. cbn in Hb. set_solver.
Qed.

Lemma preallocate_fills_witness :
  exists p' m', preallocate sample_pool zero_mem 1 (map inl [4096]) = (p', m', Ok tt) /\
    mapped_ p' = kReceiveBlockSize.
Proof.
  destruct (preallocate_fills sample_pool zero_mem [] ∅ 1 [4096]) as (p' & m' & fresh & E & Hm & _).
  - apply sample_pool_inv.
  - lia.
  - apply NoDup_singleton.
  - repeat constructor; set_solver.
  - reflexivity.
  - exists p', m'. split; [exact E|]. rewrite Hm. cbn [mapped_ capacity_ sample_pool].
    rewrite block_size. reflexivity.
Defined.

(** [acquire] as a whole, for a mapping that is not in use. *)
Definition fresh_mapping (idle : list Z) (leased : gset Z) (mmap : Z + Z) : Prop :=
  match mmap with inl b => 0 < b < 2 ^ 64 /\ b ∉ idle /\ b ∉ leased | inr _ => True end.

Lemma acquire_spec p m idle leased n mmap :
  pool_inv p m idle leased n -> fresh_mapping idle leased mmap ->
  match acquire p m mmap with
  | (p', Ok b) => exists idle', b ∉ leased /\ 0 < b /\ pool_inv p' m idle' ({[b]} ∪ leased) n
  | (p', Throw e) => pool_inv p' m idle leased n /\ exists x, e = SystemError x
  end.
Proof.
  intros I Hm. unfold acquire. destruct (Z.eq_dec (free_ p) 0) as [Hf|Hf].
  - destruct (acquire_miss _ _ _ _ _ I Hf) as [(p' & -> & I')|[-> _]]; [|by eauto].
    pose proof (pool_pending _ _ _ _ _ I). destruct mmap as [b|e]; cbn [fresh_mapping] in Hm.
    + destruct Hm as (Hb & Hi & Hl). destruct (allocate_ok _ _ _ _ _ I' b ltac:(lia) Hb Hi Hl) as [-> I''].
      exists idle. replace (n + 1 - 1) with n in I'' by lia. split_and!; [done|lia|done].
    + destruct (allocate_failed _ _ _ _ _ I' e ltac:(lia)) as (p'' & -> & I'').
      replace (n + 1 - 1) with n in I'' by lia. by eauto.
  - destruct (acquire_hit _ _ _ _ _ I Hf) as (b & rest & p' & Hi & -> & Hl & I'). exists rest.
    split_and!; [done| |done]. pose proof (pool_addresses _ _ _ _ _ I b). set_solver by lia.
Qed.

(** The destructor unmaps exactly the idle blocks, each once. *)
Lemma destroy_unmaps_idle p m idle leased n :
  pool_inv p m idle leased n -> destroy_ReceiveBlockPool p m = idle.
Proof.
  intros I. unfold destroy_ReceiveBlockPool. rewrite (pool_idle _ _ _ _ _ I).
  rewrite Z.mul_comm, Z.div_mul by (rewrite block_size; lia). unfold vsize. rewrite Nat2Z.id.
  pose proof (pool_chain _ _ _ _ _ I) as Hc.
  assert (forall b, b ∈ idle -> b <> 0) as Hnz
    by (intros b Hb; pose proof (pool_addresses _ _ _ _ _ I b (or_introl Hb)); lia).
  revert Hc Hnz. generalize (free_ p). clear I. induction idle as [|b idle IH]; intros head Hc Hnz; [done|].
  destruct Hc as [-> Hc]. cbn. rewrite (proj2 (Z.eqb_neq b 0)) by (apply Hnz; set_solver).
  f_equal. apply IH; [done|set_solver].
Qed.
