(* ===== verification/RangeStorage.v ===== *)
(** * AnonymousRangeStorage

    Models [AnonymousRangeStorage] of [src/src/io.cpp]: the receive buffer of an uncached
    read, a sequence of 2 MiB blocks leased from the [ReceiveBlockPool] and paid for by a
    [PrefetchBudget] reservation.  The pool, the budget and memory are shared objects, so the
    operations take and return the [World] that holds them. *)

From S2P Require Import Prelude StdText PrefetchBudget ReceivePool.

Record World := { w_pool : Pool; w_mem : Mem; w_budget : Budget }.

Definition with_pool (w : World) (p : Pool) : World :=
  {| w_pool := p; w_mem := w_mem w; w_budget := w_budget w |}.
Definition with_budget (w : World) (b : Budget) : World :=
  {| w_pool := w_pool w; w_mem := w_mem w; w_budget := b |}.

(** [mapping] is 0 once the block has been recycled. *)
Record Chunk := { mapping : Z; offset : Z; length_ : Z; used : Z }.

Record Storage := { size_ : Z; produced_ : Z; charge_ : Reservation; chunks_ : list Chunk }.

Definition no_charge : Reservation := {| r_file := 0; r_bytes := 0; r_demand := false |}.

Definition blocks_of (size : Z) : Z := u64 (size + kReceiveBlockSize - 1) / kReceiveBlockSize.

(** A constructor that throws destroys [charge_], which returns it to the budget. *)
Definition make_AnonymousRangeStorage (w : World) (pool : bool) (size : Z) (charge : Reservation) :
    World * result Storage :=
  let fail := (with_budget w (PrefetchBudget.reset (w_budget w) charge).1, Throw InvalidArgument) in
  if negb pool || (size =? 0) || (size >? SIZE_MAX - (kReceiveBlockSize - 1)) then fail
  else if negb (r_bytes charge =? 0) &&
          (negb (r_bytes charge =? u64 (blocks_of size * kReceiveBlockSize)) ||
           negb (kReceiveBlockSize mod page_size (w_budget w) =? 0)) then fail
  else (w, Ok {| size_ := size; produced_ := 0; charge_ := charge; chunks_ := [] |}).

(** [pool_->release] of every chunk's mapping. *)
Definition release_chunks (w : World) (chunks : list Chunk) : World :=
  fold_left (fun w c => let '(p, m) := release (w_pool w) (w_mem w) (mapping c) in
                        {| w_pool := p; w_mem := m; w_budget := w_budget w |}) chunks w.

(** [release], which is also the destructor. *)
Definition release_storage (w : World) (st : Storage) : World * Storage :=
  let w := release_chunks w (chunks_ st) in
  (with_budget w (PrefetchBudget.reset (w_budget w) (charge_ st)).1,
   {| size_ := size_ st; produced_ := produced_ st; charge_ := no_charge; chunks_ := [] |}).

Definition allocate_next (w : World) (st : Storage) (mmap : Z + Z) : World * Storage * result unit :=
  if produced_ st >=? size_ st then (w, st, Throw RuntimeError)
  else
    let target := Z.min kReceiveBlockSize (size_ st - produced_ st) in
    match acquire (w_pool w) (w_mem w) mmap with
    | (p, Throw e) => (with_pool w p, st, Throw e)
    | (p, Ok block) =>
        (with_pool w p,
         {| size_ := size_ st; produced_ := produced_ st; charge_ := charge_ st;
            chunks_ := chunks_ st ++
              [{| mapping := block; offset := produced_ st; length_ := target; used := 0 |}] |},
         Ok tt)
    end.

(** A span of memory: block, first offset, length; [(0, 0, 0)] is the empty span. *)
Definition Span : Type := Z * Z * Z.

Definition needs_chunk (st : Storage) : bool :=
  match last (chunks_ st) with
  | None => true
  | Some c => produced_ st >=? offset c + length_ c
  end.

Definition writable (w : World) (st : Storage) (maximum : Z) (mmap : Z + Z) :
    World * Storage * result Span :=
  if (maximum =? 0) || (produced_ st =? size_ st) then (w, st, Ok (0, 0, 0))
  else
    let '(w, st, r) := if needs_chunk st then allocate_next w st mmap else (w, st, Ok tt) in
    match r, last (chunks_ st) with
    | Throw e, _ => (w, st, Throw e)
    | Ok _, None => (w, st, Throw LogicError)
    | Ok _, Some c =>
        if (mapping c =? 0) || (produced_ st <? offset c) || (produced_ st >? offset c + length_ c)
        then (w, st, Throw LogicError)
        else
          let used := produced_ st - offset c in
          (w, st, Ok (mapping c, used, Z.min maximum (length_ c - used)))
    end.

(** [chunks_.back()] replaced. *)
Definition set_last (l : list Chunk) (c : Chunk) : list Chunk := removelast l ++ [c].

Definition commit (st : Storage) (bytes : Z) : Storage * result unit :=
  match (if bytes =? 0 then None else last (chunks_ st)) with
  | None => (st, Throw InvalidArgument)
  | Some c =>
      if (mapping c =? 0) || negb (produced_ st =? offset c + used c) ||
         (bytes >? length_ c - used c)
      then (st, Throw InvalidArgument)
      else
        ({| size_ := size_ st; produced_ := u64 (produced_ st + bytes); charge_ := charge_ st;
            chunks_ := set_last (chunks_ st)
              {| mapping := mapping c; offset := offset c; length_ := length_ c;
                 used := u64 (used c + bytes) |} |}, Ok tt)
  end.

(** The chunks from index [offset / kReceiveBlockSize] on. *)
Definition chunks_from (st : Storage) (off : Z) : list Chunk :=
  drop (Z.to_nat (off / kReceiveBlockSize)) (chunks_ st).

(** [position < chunk.offset || position >= chunk.offset + chunk.used]. *)
Definition outside (c : Chunk) (position : Z) : bool :=
  (position <? offset c) || (position >=? offset c + used c).

Fixpoint available_loop (chunks : list Chunk) (position remaining : Z) : bool :=
  match chunks with
  | [] => false
  | c :: chunks =>
      if outside c position then available_loop chunks position remaining
      else if mapping c =? 0 then false
      else
        let count := Z.min remaining (used c - (position - offset c)) in
        if remaining - count =? 0 then true
        else available_loop chunks (position + count) (remaining - count)
  end.

Definition available (st : Storage) (off len : Z) : bool :=
  if (off >? produced_ st) || (len >? produced_ st - off) then false
  else if len =? 0 then true
  else available_loop (chunks_from st off) off len.

(** [memcpy] of [n] bytes out of a block. *)
Definition read_span (m : Mem) (s : Span) : bytes :=
  let '(block, start, n) := s in map (fun o => m block (start + o)) (zrange 0 n).

(** [None] is the return value [false]; [wanted] is [output.size() - copied]. *)
Fixpoint copy_loop (m : Mem) (chunks : list Chunk) (position wanted : Z) : option bytes :=
  match chunks with
  | [] => None
  | c :: chunks =>
      if outside c position then copy_loop m chunks position wanted
      else if mapping c =? 0 then None
      else
        let local := position - offset c in
        let count := Z.min wanted (used c - local) in
        let copied := read_span m (mapping c, local, count) in
        if wanted - count =? 0 then Some copied
        else app copied <$> copy_loop m chunks (position + count) (wanted - count)
  end.

Definition copy_to (w : World) (st : Storage) (off len : Z) : option bytes :=
  if (off >? produced_ st) || (len >? produced_ st - off) then None
  else if len =? 0 then Some []
  else copy_loop (w_mem w) (chunks_from st off) off len.

Fixpoint spans_loop (chunks : list Chunk) (position remaining : Z) : result (list Span) :=
  match chunks with
  | [] => Throw RuntimeError
  | c :: chunks =>
      if outside c position then spans_loop chunks position remaining
      else if mapping c =? 0 then Throw RuntimeError
      else
        let local := position - offset c in
        let count := Z.min remaining (used c - local) in
        if remaining - count =? 0 then Ok [(mapping c, local, count)]
        else let? rest := spans_loop chunks (position + count) (remaining - count) in
             Ok ((mapping c, local, count) :: rest)
  end.

Definition spans (st : Storage) (off len : Z) : result (list Span) :=
  if (off >? produced_ st) || (len >? produced_ st - off) then Throw OutOfRange
  else if len =? 0 then Ok []
  else spans_loop (chunks_from st off) off len.

Definition release_for_retry (w : World) (st : Storage) : World * Storage * Reservation :=
  (release_chunks w (chunks_ st),
   {| size_ := size_ st; produced_ := 0; charge_ := no_charge; chunks_ := [] |}, charge_ st).

(** [chunk.used != chunk.length || ...]: the chunk is recycled by [discard]. *)
Definition recyclable (c : Chunk) (off end_ : Z) : bool :=
  negb ((mapping c =? 0) || negb (used c =? length_ c) || (offset c <? off) ||
        (offset c + length_ c >? end_)).

(** The loop of [discard]: the world, the chunks visited, [bytes] and [released]. *)
Fixpoint discard_loop (w : World) (chunks : list Chunk) (off end_ : Z) :
    World * list Chunk * Z * Z :=
  match chunks with
  | [] => (w, [], 0, 0)
  | c :: rest =>
      if offset c >=? end_ then (w, chunks, 0, 0)
      else if negb (recyclable c off end_) then
        let '(w, rest, b, r) := discard_loop w rest off end_ in (w, c :: rest, b, r)
      else
        let '(p, m) := release (w_pool w) (w_mem w) (mapping c) in
        let w := {| w_pool := p; w_mem := m; w_budget := w_budget w |} in
        let '(w, rest, b, r) := discard_loop w rest off end_ in
        (w, {| mapping := 0; offset := offset c; length_ := length_ c; used := used c |} :: rest,
         length_ c + b, kReceiveBlockSize + r)
  end.

(** [discard] is [noexcept]: a throwing [split] would end the program, here [Throw]. *)
Definition discard (w : World) (st : Storage) (off len : Z) : World * Storage * result Z :=
  if (off >? produced_ st) || (len >? produced_ st - off) then (w, st, Ok 0)
  else
    let first := Z.to_nat (off / kReceiveBlockSize) in
    let '(w, tail, bytes, released) := discard_loop w (drop first (chunks_ st)) off (off + len) in
    let chunks := take first (chunks_ st) ++ tail in
    let st' charge := {| size_ := size_ st; produced_ := produced_ st; charge_ := charge;
                         chunks_ := chunks |} in
    if negb (r_bytes (charge_ st) =? 0) && negb (released =? 0) then
      match PrefetchBudget.split (w_budget w) (charge_ st) released with
      | Throw e => (w, st' (charge_ st), Throw e)
      | Ok (rest, part) =>
          (with_budget w (PrefetchBudget.reset (w_budget w) part).1, st' rest, Ok bytes)
      end
    else (w, st' (charge_ st), Ok bytes).

(** ** Invariant *)

Record storage_ok (st : Storage) : Prop := {
  so_size : 0 < size_ st <= SIZE_MAX - (kReceiveBlockSize - 1);
  so_chunk : forall i c, chunks_ st !! i = Some c ->
    offset c = Z.of_nat i * kReceiveBlockSize /\
    length_ c = Z.min kReceiveBlockSize (size_ st - offset c) /\
    0 < length_ c /\ 0 <= used c <= length_ c;
  so_full : forall i c, chunks_ st !! i = Some c -> (S i < length (chunks_ st))%nat ->
    used c = length_ c;
  so_produced : produced_ st = match last (chunks_ st) with
                               | None => 0 | Some c => offset c + used c end;
  so_recycled : forall c, c ∈ chunks_ st -> mapping c = 0 -> used c = length_ c;
}.

Definition live (c : Chunk) : Prop := mapping c <> 0.
#[global] Instance live_dec c : Decision (live c).
Proof. unfold live. apply _. Defined.
Definition mappings (st : Storage) : list Z := map mapping (filter live (chunks_ st)).

(** The storage holds the bytes [data] in blocks it leases. *)
Record holds (m : Mem) (leased : gset Z) (st : Storage) (data : bytes) : Prop := {
  h_length : vsize data = produced_ st;
  h_bytes : forall c, c ∈ chunks_ st -> live c -> forall o, 0 <= o < used c ->
    m (mapping c) o = at_z data (offset c + o);
  h_leased : forall c, c ∈ chunks_ st -> live c -> mapping c ∈ leased;
  h_nodup : NoDup (mappings st);
}.

(** The bytes [off, off + len) of a chunk are wanted. *)
Definition touched (off len : Z) (c : Chunk) : Prop := offset c < off + len /\ off < offset c + length_ c.

Section Facts.
Context (st : Storage) (S : storage_ok st).

Lemma chunk_next i c d :
  chunks_ st !! i = Some c -> chunks_ st !! (Datatypes.S i) = Some d ->
  length_ c = kReceiveBlockSize /\ used c = kReceiveBlockSize /\ offset d = offset c + kReceiveBlockSize.
Proof.
  intros Hc Hd. destruct (so_chunk st S _ _ Hc) as (O1 & L1 & ? & ?).
  destruct (so_chunk st S _ _ Hd) as (O2 & L2 & ? & ?).
  pose proof (so_full st S i c Hc (lookup_lt_Some _ _ _ Hd)) as Hf. rewrite block_size in *. lia.
Qed.

Lemma produced_bound i c :
  chunks_ st !! i = Some c ->
  offset c + used c <= produced_ st /\
  (produced_ st <> offset c + used c -> exists d, chunks_ st !! (Datatypes.S i) = Some d /\
     used c = kReceiveBlockSize /\ offset d = offset c + kReceiveBlockSize).
Proof.
  intros Hc. rewrite (so_produced st S). pose proof (lookup_lt_Some _ _ _ Hc) as Hlt.
  destruct (last (chunks_ st)) as [l|] eqn:El.
  2: { apply last_None in El. rewrite El in Hlt. cbn in Hlt. lia. }
  rewrite last_lookup in El. destruct (so_chunk st S _ _ El) as (O2 & L2 & ? & ?).
  destruct (so_chunk st S _ _ Hc) as (O1 & L1 & ? & ?).
  destruct (decide (Datatypes.S i < length (chunks_ st))%nat) as [Hn|Hn].
  - destruct (lookup_lt_is_Some_2 (chunks_ st) (Datatypes.S i) Hn) as [d Hd].
    destruct (chunk_next _ _ _ Hc Hd) as (E1 & E2 & E3). rewrite block_size in *. split; [lia|].
    intros _. by exists d.
  - replace (pred (length (chunks_ st))) with i in El by lia. rewrite Hc in El. simplify_eq. done.
Qed.

Lemma produced_size : 0 <= produced_ st <= size_ st.
Proof.
  rewrite (so_produced st S). pose proof (so_size st S).
  destruct (last (chunks_ st)) as [c|] eqn:E; [|lia]. rewrite last_lookup in E.
  destruct (so_chunk st S _ _ E) as (? & ? & ? & ?). rewrite block_size in *. lia.
Qed.

Lemma produced_blocks : produced_ st <= Z.of_nat (length (chunks_ st)) * kReceiveBlockSize.
Proof.
  rewrite (so_produced st S). destruct (last (chunks_ st)) as [c|] eqn:E.
  - rewrite last_lookup in E. pose proof (lookup_lt_Some _ _ _ E).
    destruct (so_chunk st S _ _ E) as (O1 & L1 & ? & ?). rewrite block_size in *. lia.
  - rewrite block_size. lia.
Qed.
End Facts.

(** ** The three readers walk the same chunks *)

Lemma available_loop_spans cs p n :
  available_loop cs p n = match spans_loop cs p n with Ok _ => true | Throw _ => false end.
Proof.
  revert p n. induction cs as [|c cs IH]; intros p n; [done|]. cbn.
  destruct (outside c p); [apply IH|]. destruct (mapping c =? 0); [done|].
  destruct (_ =? 0); [done|]. rewrite IH. by destruct (spans_loop cs _ _).
Qed.

Lemma copy_loop_spans m cs p n :
  copy_loop m cs p n =
  match spans_loop cs p n with Ok l => Some (concat (map (read_span m) l)) | Throw _ => None end.
Proof.
  revert p n. induction cs as [|c cs IH]; intros p n; [done|]. cbn [copy_loop spans_loop].
  destruct (outside c p); [apply IH|]. destruct (mapping c =? 0); [done|].
  destruct (_ =? 0); [cbn; by rewrite app_nil_r|]. rewrite IH. by destruct (spans_loop cs _ _).
Qed.

Lemma read_span_data m data block start n pos :
  0 <= pos -> 0 <= n -> pos + n <= vsize data ->
  (forall o, 0 <= o < n -> m block (start + o) = at_z data (pos + o)) ->
  read_span m (block, start, n) = substr data pos n.
Proof.
  intros Hp Hn Hd Hm. rewrite <- map_at_z by done. unfold read_span. apply map_ext_in.
  intros o Ho. apply list_elem_of_In, elem_of_zrange in Ho. by apply Hm.
Qed.

Lemma spans_loop_spec m leased st data :
  storage_ok st -> holds m leased st data ->
  forall cs k p n, drop k (chunks_ st) = cs ->
  Z.of_nat k * kReceiveBlockSize <= p < (Z.of_nat k + 1) * kReceiveBlockSize ->
  0 < n -> p + n <= produced_ st ->
  match spans_loop cs p n with
  | Ok l => concat (map (read_span m) l) = substr data p n /\
            forall c, c ∈ cs -> touched p n c -> live c
  | Throw e => e = RuntimeError /\ exists c, c ∈ cs /\ touched p n c /\ ~ live c
  end.
Proof.
  intros HS Hh. induction cs as [|c cs IH]; intros k p n Hdrop Hp Hn Hpn.
  { exfalso. apply (f_equal length) in Hdrop. rewrite length_drop in Hdrop. cbn in Hdrop.
    pose proof (produced_blocks st HS). rewrite block_size in *. lia. }
  assert (chunks_ st !! k = Some c) as Hc.
  { rewrite <- (Nat.add_0_r k), <- lookup_drop, Hdrop. done. }
  assert (drop (S k) (chunks_ st) = cs) as Hdrop'.
  { rewrite (drop_S _ _ _ Hc) in Hdrop. congruence. }
  pose proof (h_length _ _ _ _ Hh) as Hlen.
  assert (0 <= p) as Hp0 by (rewrite block_size in Hp; lia).
  destruct (so_chunk st HS _ _ Hc) as (Ho & Hl & Hl0 & Hu).
  destruct (produced_bound st HS _ _ Hc) as [Hpb Hnext].
  assert (p < offset c + used c) as Hin.
  { destruct (Z.eq_dec (produced_ st) (offset c + used c)); [lia|].
    destruct Hnext as (d & _ & -> & _); [done|]. lia. }
  cbn [spans_loop]. unfold outside. rewrite (proj2 (Z.ltb_ge _ _)) by lia.
  rewrite Z.geb_leb, (proj2 (Z.leb_gt _ _)) by lia. cbn [orb].
  assert (c ∈ chunks_ st) as Hcin by (by eapply list_elem_of_lookup_2).
  destruct (Z.eqb_spec (mapping c) 0) as [Hz|Hz].
  { split; [done|]. exists c. split; [set_solver|]. split; [split; lia|]. by intros []. }
  set (count := Z.min n (used c - (p - offset c))).
  assert (read_span m (mapping c, p - offset c, count) = substr data p count) as Hread.
  { apply read_span_data; [lia|lia|lia|]. intros o Hoo.
    rewrite (h_bytes _ _ _ _ Hh c Hcin Hz) by lia. f_equal. lia. }
  destruct (Z.eqb_spec (n - count) 0) as [E|E].
  - cbn [map concat]. rewrite app_nil_r, Hread. replace count with n by lia. split; [done|].
    intros d Hd [Ht1 Ht2]. apply elem_of_cons in Hd as [->|Hd]; [done|]. exfalso.
    apply list_elem_of_lookup_1 in Hd as [j Hj]. rewrite <- Hdrop', lookup_drop in Hj.
    destruct (so_chunk st HS _ _ Hj) as (Ho' & _). rewrite block_size in *. lia.
  - destruct Hnext as (d & Hd & Hub & _); [lia|].
    specialize (IH (S k) (p + count) (n - count) Hdrop').
    destruct (spans_loop cs (p + count) (n - count)) as [l|e]; cbn [rbind].
    + destruct IH as [IH1 IH2]; [lia..|]. cbn [map concat]. rewrite Hread, IH1.
      rewrite substr_split by lia. split; [f_equal; lia|].
      intros c' Hc' Ht. apply elem_of_cons in Hc' as [->|Hc']; [done|]. apply IH2; [done|].
      destruct Ht. apply list_elem_of_lookup_1 in Hc' as [j Hj]. rewrite <- Hdrop', lookup_drop in Hj.
      destruct (so_chunk st HS _ _ Hj) as (Ho' & _ & ? & _). unfold touched. rewrite block_size in *. lia.
    + destruct IH as (-> & c' & Hc' & Ht & Hz'); [lia..|]. split; [done|].
      exists c'. split; [set_solver|]. split; [|done]. unfold touched in *. lia.
Qed.

(** ** Receiving *)

(** What the network layer does with a writable span: fill it, then commit. *)
Definition write_span (m : Mem) (s : Span) (input : bytes) : Mem :=
  let '(block, start, n) := s in
  fun b o => if (b =? block) && (start <=? o) && (o <? start + n)
             then at_z input (o - start) else m b o.

Definition receive (w : World) (st : Storage) (mmap : Z + Z) (input : bytes) :
    World * Storage * result Z :=
  match writable w st (vsize input) mmap with
  | (w, st, Throw e) => (w, st, Throw e)
  | (w, st, Ok (block, start, n)) =>
      let w := {| w_pool := w_pool w; w_mem := write_span (w_mem w) (block, start, n) input;
                  w_budget := w_budget w |} in
      let '(st, r) := commit st n in
      (w, st, let? _ := r in Ok n)
  end.

Lemma last_snoc_chunk (l : list Chunk) c : last (l ++ [c]) = Some c.
Proof. apply last_snoc. Qed.

Lemma lookup_snoc_cases {A} (l : list A) x i y :
  (l ++ [x]) !! i = Some y -> l !! i = Some y \/ (i = length l /\ y = x).
Proof.
  intros H. apply lookup_app_Some in H as [?|[Hge H]]; [by left|]. right.
  apply list_lookup_singleton_Some in H as [E <-]. split; [lia|done].
Qed.

(** A new chunk at the cursor. *)
Lemma allocate_next_ok st block :
  storage_ok st -> produced_ st < size_ st -> needs_chunk st = true -> 0 < block ->
  storage_ok {| size_ := size_ st; produced_ := produced_ st; charge_ := charge_ st;
    chunks_ := chunks_ st ++ [{| mapping := block; offset := produced_ st;
      length_ := Z.min kReceiveBlockSize (size_ st - produced_ st); used := 0 |}] |}.
Proof.
  intros HS Hp Hn Hb. unfold needs_chunk in Hn. pose proof (produced_size st HS) as Hps.
  assert (produced_ st = Z.of_nat (length (chunks_ st)) * kReceiveBlockSize /\
          forall i c, chunks_ st !! i = Some c -> used c = length_ c) as [Hprod Hall].
  { pose proof (so_produced st HS) as Hpr. destruct (last (chunks_ st)) as [c|] eqn:El.
    - rewrite last_lookup in El. destruct (so_chunk st HS _ _ El) as (Ho & Hl & Hl0 & Hu).
      pose proof (lookup_lt_Some _ _ _ El). bool_case. split; [rewrite block_size in *; lia|].
      intros i d Hd. destruct (decide (S i < length (chunks_ st))%nat).
      + by apply (so_full st HS i).
      + pose proof (lookup_lt_Some _ _ _ Hd).
        replace (pred (length (chunks_ st))) with i in El by lia. rewrite Hd in El. simplify_eq. lia.
    - apply last_None in El. rewrite El, Hpr. split; [cbn; lia|]. intros i d. by rewrite lookup_nil. }
  constructor; cbn [size_ produced_ charge_ chunks_].
  - apply HS.
  - intros i c [Hc|[-> ->]]%lookup_snoc_cases; [by apply HS|]. cbn. rewrite block_size in *. lia.
  - intros i c [Hc|[-> ->]]%lookup_snoc_cases Hlt; [by apply (Hall i)|].
    rewrite length_app in Hlt. cbn in Hlt. lia.
  - rewrite last_snoc_chunk. cbn. lia.
  - intros c [Hc|Hc]%elem_of_app; [by apply HS|]. apply list_elem_of_singleton in Hc as ->. cbn. lia.
Qed.

Lemma set_last_spec l c d : last l = Some c -> exists a, l = a ++ [c] /\ set_last l d = a ++ [d].
Proof.
  intros (a & ->)%last_Some. exists a. split; [done|]. unfold set_last. by rewrite removelast_last.
Qed.

(** The storage after [n] more bytes of its last chunk [c] are committed. *)
Definition committed (st : Storage) (a : list Chunk) (c : Chunk) (n : Z) : Storage :=
  {| size_ := size_ st; produced_ := produced_ st + n; charge_ := charge_ st;
     chunks_ := a ++ [{| mapping := mapping c; offset := offset c; length_ := length_ c;
                         used := used c + n |}] |}.

Section Commit.
Context (st : Storage) (HS : storage_ok st).
Context (a : list Chunk) (c : Chunk) (Ha : chunks_ st = a ++ [c]) (Hlive : live c).
Context (n : Z) (Hn : 0 < n <= length_ c - used c).

Lemma last_chunk :
  produced_ st = offset c + used c /\ offset c = Z.of_nat (length a) * kReceiveBlockSize /\
  length_ c = Z.min kReceiveBlockSize (size_ st - offset c) /\ 0 < length_ c /\
  0 <= used c <= length_ c.
Proof.
  split; [by rewrite (so_produced st HS), Ha, last_snoc|]. apply (so_chunk st HS).
  by rewrite Ha, lookup_app_r, Nat.sub_diag by lia.
Qed.

Lemma commit_committed : commit st n = (committed st a c n, Ok tt).
Proof.
  destruct last_chunk as (Hp & Ho & Hl & Hl0 & Hu). pose proof (so_size st HS).
  unfold commit. rewrite (proj2 (Z.eqb_neq n 0)) by lia. rewrite Ha, last_snoc.
  rewrite (proj2 (Z.eqb_neq _ _) Hlive), Hp, Z.eqb_refl.
  rewrite Z.gtb_ltb, (proj2 (Z.ltb_ge _ _)) by lia. cbn [negb orb].
  rewrite !u64_small by (unfold SIZE_MAX, UINT64_MAX in *; rewrite block_size in *; lia).
  unfold committed, set_last. by rewrite removelast_last, Hp.
Qed.

Lemma committed_ok : storage_ok (committed st a c n).
Proof.
  destruct last_chunk as (Hp & Ho & Hl & Hl0 & Hu). constructor; cbn [size_ produced_ chunks_ committed].
  - apply HS.
  - intros i d [Hd|[-> ->]]%lookup_snoc_cases; [|cbn; lia].
    apply (so_chunk st HS i). rewrite Ha. by apply lookup_app_l_Some.
  - intros i d [Hd|[-> ->]]%lookup_snoc_cases Hlt; rewrite length_app in Hlt; cbn in Hlt; [|lia].
    apply (so_full st HS i); rewrite Ha; [by apply lookup_app_l_Some|]. rewrite length_app. cbn. lia.
  - rewrite last_snoc. cbn. lia.
  - intros d [Hd|Hd]%elem_of_app; [apply (so_recycled st HS); rewrite Ha; set_solver|].
    apply list_elem_of_singleton in Hd as ->. cbn. intros E. by destruct (Hlive E).
Qed.

Lemma committed_mappings : mappings (committed st a c n) = mappings st.
Proof.
  unfold mappings. cbn [chunks_ committed]. rewrite Ha, !filter_app, !map_app. f_equal.
  rewrite !filter_cons, !filter_nil. by repeat case_decide.
Qed.

(** Filling [n] bytes at the cursor and committing them appends them to the data. *)
Lemma committed_holds m leased data input :
  holds m leased st data -> n <= vsize input ->
  holds (write_span m (mapping c, used c, n) input) leased (committed st a c n)
    (data ++ take_z n input).
Proof.
  intros [Hh1 Hh2 Hh3 Hh4] Hin. destruct last_chunk as (Hp & Ho & Hl & Hl0 & Hu).
  assert (forall x, 0 <= x < produced_ st -> at_z (data ++ take_z n input) x = at_z data x) as Hold.
  { intros x Hx. unfold at_z, vget. rewrite lookup_app_l; [done|]. unfold vsize in Hh1. lia. }
  assert (0 <= offset c) by (rewrite block_size in *; lia).
  constructor; cbn [produced_ chunks_ committed].
  - unfold vsize, take_z in *. rewrite length_app, length_take. lia.
  - intros d [Hd|Hd]%elem_of_app Hdl o Hoo.
    + assert (d ∈ chunks_ st) as Hdin by (rewrite Ha; set_solver).
      assert (mapping d <> mapping c) as Hne.
      { unfold mappings in Hh4. rewrite Ha, filter_app, map_app in Hh4.
        apply NoDup_app in Hh4 as (_ & Hdis & _). intros E. apply (Hdis (mapping d)).
        - by apply list_elem_of_In, in_map, list_elem_of_In, list_elem_of_filter.
        - rewrite filter_cons, filter_nil, decide_True by done. cbn. rewrite E. set_solver. }
      cbn [write_span]. rewrite (proj2 (Z.eqb_neq _ _) Hne). cbn [andb].
      rewrite Hold; [by apply Hh2|]. apply list_elem_of_lookup_1 in Hdin as [j Hj].
      destruct (produced_bound st HS _ _ Hj). destruct (so_chunk st HS _ _ Hj) as (? & ? & ? & ?).
      rewrite block_size in *. lia.
    + apply list_elem_of_singleton in Hd as ->. cbn in Hoo, Hdl |- *. rewrite Z.eqb_refl. cbn [andb].
      destruct (Z.leb_spec (used c) o) as [Hge|Hlt].
      * rewrite (proj2 (Z.ltb_lt _ _)) by lia. cbn [andb]. unfold at_z, vget.
        rewrite lookup_app_r by (unfold vsize in Hh1; lia). unfold take_z.
        rewrite lookup_take_lt by (unfold vsize in Hh1; lia). do 2 f_equal. unfold vsize in Hh1. lia.
      * cbn [andb]. rewrite Hold by lia. apply Hh2; [rewrite Ha; set_solver|done|lia].
  - intros d [Hd|Hd]%elem_of_app Hdl; [apply Hh3; [rewrite Ha; set_solver|done]|].
    apply list_elem_of_singleton in Hd as ->. cbn in *. apply (Hh3 c); [rewrite Ha; set_solver|done].
  - by rewrite committed_mappings.
Qed.
End Commit.

Lemma holds_allocated m leased st data block :
  holds m leased st data -> block ∉ leased -> 0 < block ->
  (forall c, c ∈ chunks_ st -> live c -> mapping c ∈ leased) ->
  forall size offset_ length,
  holds m ({[block]} ∪ leased) {| size_ := size; produced_ := produced_ st; charge_ := charge_ st;
    chunks_ := chunks_ st ++ [{| mapping := block; offset := offset_; length_ := length; used := 0 |}] |}
    data.
Proof.
  intros [Hh1 Hh2 Hh3 Hh4] Hb Hpos Hl size o len. constructor; cbn [produced_ chunks_].
  - done.
  - intros c [Hc|Hc]%elem_of_app; [by apply Hh2|]. apply list_elem_of_singleton in Hc as ->. cbn. lia.
  - intros c [Hc|Hc]%elem_of_app Hcl; [set_solver|]. apply list_elem_of_singleton in Hc as ->. cbn. set_solver.
  - unfold mappings in *. cbn [chunks_]. rewrite filter_app, map_app.
    rewrite filter_cons, filter_nil, decide_True by (unfold live; cbn; lia). cbn [map].
    apply NoDup_app. split; [done|]. split; [|apply NoDup_singleton].
    intros x Hx ->%list_elem_of_singleton. apply Hb. cbn in Hx.
    apply list_elem_of_In, in_map_iff in Hx as (c & Hc & Hin).
    apply list_elem_of_In, list_elem_of_filter in Hin as [Hlc Hin]. rewrite <- Hc. by apply Hl.
Qed.

(** The cursor of a storage that has room: a live last chunk with free space, after
    [allocate_next] if need be. *)
Lemma writable_spec w st data leased idle pend mmap maximum :
  storage_ok st -> holds (w_mem w) leased st data ->
  pool_inv (w_pool w) (w_mem w) idle leased pend -> fresh_mapping idle leased mmap ->
  0 < maximum -> produced_ st < size_ st ->
  match writable w st maximum mmap with
  | (w', st', Ok (b, start, n)) =>
      exists a c idle' leased', chunks_ st' = a ++ [c] /\ live c /\ b = mapping c /\ start = used c /\
        0 < n <= length_ c - used c /\ n <= maximum /\ w_mem w' = w_mem w /\
        storage_ok st' /\ holds (w_mem w) leased' st' data /\ leased ⊆ leased' /\
        pool_inv (w_pool w') (w_mem w) idle' leased' pend
  | (w', st', Throw e) =>
      st' = st /\ w_mem w' = w_mem w /\ pool_inv (w_pool w') (w_mem w) idle leased pend /\
      exists x, e = SystemError x
  end.
Proof.
  intros HS Hh I Hm Hmax Hroom. unfold writable.
  rewrite (proj2 (Z.eqb_neq _ _)), (proj2 (Z.eqb_neq _ _)) by lia. cbn [orb].
  destruct (needs_chunk st) eqn:Hneed.
  - unfold allocate_next. rewrite Z.geb_leb, (proj2 (Z.leb_gt _ _)) by lia.
    pose proof (acquire_spec _ _ _ _ _ _ I Hm) as Hacq.
    destruct (acquire (w_pool w) (w_mem w) mmap) as [p [b|e]].
    2: { destruct Hacq as [I' He]. split_and!; done. }
    destruct Hacq as (idle' & Hbl & Hb & I'). cbn [chunks_ produced_]. rewrite last_snoc. cbn.
    rewrite (proj2 (Z.eqb_neq b 0)), (proj2 (Z.ltb_ge _ _)) by lia. rewrite block_size.
    rewrite Z.gtb_ltb, (proj2 (Z.ltb_ge _ _)) by lia. cbn [orb]. rewrite Z.sub_diag, Z.sub_0_r.
    eexists _, _, idle', ({[b]} ∪ leased). split; [reflexivity|].
    split_and!; try done; cbn; try lia; [unfold live; cbn; lia| | |set_solver].
    + rewrite <- block_size. by apply allocate_next_ok.
    + apply holds_allocated; try done. apply Hh.
  - unfold needs_chunk in Hneed. destruct (last (chunks_ st)) as [c|] eqn:Hl; [|done].
    rewrite Z.geb_leb in Hneed. bool_case.
    pose proof Hl as (a & Ha)%last_Some. destruct (last_chunk st HS a c Ha) as (Hp & Ho & Hlen & Hl0 & Hu).
    assert (live c) as Hlive.
    { intros Hz. pose proof (so_recycled st HS c) as Hr. rewrite Ha in Hr.
      specialize (Hr ltac:(set_solver) Hz). lia. }
    rewrite (proj2 (Z.eqb_neq _ _) Hlive), (proj2 (Z.ltb_ge _ _)) by lia.
    rewrite Z.gtb_ltb, (proj2 (Z.ltb_ge _ _)) by lia. cbn [orb].
    exists a, c, idle, leased. split_and!; try done; lia.
Qed.

(** receiving is appending: while the storage has room, filling the span that [writable]
    returns and committing it appends a non-empty prefix of the input to the data the storage
    holds, or the pool is exhausted (or [mmap] fails) and nothing changes; the pool's
    accounting is kept in both cases. *)
Theorem receive_appends w st data leased idle pend mmap input :
  storage_ok st -> holds (w_mem w) leased st data ->
  pool_inv (w_pool w) (w_mem w) idle leased pend -> fresh_mapping idle leased mmap ->
  input <> [] -> produced_ st < size_ st ->
  match receive w st mmap input with
  | (w', st', Ok n) =>
      0 < n <= vsize input /\ storage_ok st' /\
      exists idle' leased', leased ⊆ leased' /\
        holds (w_mem w') leased' st' (data ++ take_z n input) /\
        pool_inv (w_pool w') (w_mem w') idle' leased' pend
  | (w', st', Throw e) =>
      st' = st /\ w_mem w' = w_mem w /\ pool_inv (w_pool w') (w_mem w') idle leased pend /\
      exists x, e = SystemError x
  end.
Proof.
  intros HS Hh I Hm Hin Hroom. unfold receive.
  assert (0 < vsize input) as Hv by (destruct input; [done|]; unfold vsize; cbn [length]; lia).
  pose proof (writable_spec w st data leased idle pend mmap (vsize input) HS Hh I Hm Hv Hroom) as Hw.
  destruct (writable w st (vsize input) mmap) as [[w' st'] [[[b start] n]|e]].
  2: { destruct Hw as (-> & -> & ? & ?). done. }
  destruct Hw as (a & c & idle' & leased' & Ha & Hlive & -> & -> & Hn & Hmax & Hmem & HS' & Hh' & Hsub & I').
  rewrite (commit_committed st' HS' a c Ha Hlive n Hn). cbn [rbind w_mem w_pool].
  split; [lia|]. split; [by apply committed_ok|]. exists idle', leased'. split; [done|].
  rewrite Hmem. split; [by apply committed_holds|].
  apply (user_writes _ _ _ _ _ I'). intros b o Hb. cbn.
  rewrite (proj2 (Z.eqb_neq b (mapping c))); [done|]. intros ->. apply Hb.
  apply (h_leased _ _ _ _ Hh'); [rewrite Ha; set_solver|done].
Qed.

(** C39: reading returns what was received: for any range inside the produced bytes,
    [copy_to], [available] and the memory behind [spans] all give exactly the received bytes
    when no block of the range was recycled, and all refuse when one was; a range beyond the
    produced bytes is refused. *)
Theorem read_returns_received w leased st data off len :
  storage_ok st -> holds (w_mem w) leased st data -> 0 <= off -> 0 <= len ->
  if (off <=? produced_ st) && (len <=? produced_ st - off) then
    (len = 0 \/ (forall c, c ∈ chunks_ st -> touched off len c -> live c) ->
       copy_to w st off len = Some (substr data off len) /\ available st off len = true /\
       exists l, spans st off len = Ok l /\ concat (map (read_span (w_mem w)) l) = substr data off len) /\
    (0 < len -> (exists c, c ∈ chunks_ st /\ touched off len c /\ ~ live c) ->
       copy_to w st off len = None /\ available st off len = false /\
       spans st off len = Throw RuntimeError)
  else copy_to w st off len = None /\ available st off len = false /\ spans st off len = Throw OutOfRange.
Proof.
  intros HS Hh Ho Hl. unfold copy_to, available, spans. rewrite !Z.gtb_ltb, !Z.ltb_antisym.
  destruct (off <=? produced_ st) eqn:E1; cbn [negb orb andb]; [|done].
  destruct (len <=? produced_ st - off) eqn:E2; cbn [negb orb andb]; [|done]. bool_case.
  destruct (Z.eqb_spec len 0) as [->|Hne].
  { split; [|lia]. intros _. split; [done|]. split; [done|]. by exists []. }
  rewrite available_loop_spans, copy_loop_spans.
  assert (0 <= off / kReceiveBlockSize) as Hk by (rewrite block_size; apply Z.div_pos; lia).
  pose proof (spans_loop_spec _ _ _ _ HS Hh (chunks_from st off) (Z.to_nat (off / kReceiveBlockSize))
    off len eq_refl) as Hspec.
  rewrite Z2Nat.id in Hspec by done.
  assert (off / kReceiveBlockSize * kReceiveBlockSize <= off
          < (off / kReceiveBlockSize + 1) * kReceiveBlockSize) as Hin
    by (rewrite block_size; Z.to_euclidean_division_equations; lia).
  specialize (Hspec Hin ltac:(lia) ltac:(lia)).
  assert (forall c, c ∈ chunks_ st -> touched off len c -> c ∈ chunks_from st off) as Hlater.
  { intros c [j Hj]%list_elem_of_lookup_1 [_ Ht]. destruct (so_chunk st HS _ _ Hj) as (Hoc & Hlc & _).
    apply (list_elem_of_lookup_2 _ (j - Z.to_nat (off / kReceiveBlockSize))).
    unfold chunks_from. rewrite lookup_drop. rewrite <- Hj. f_equal.
    assert (off / kReceiveBlockSize <= Z.of_nat j); [|lia]. rewrite block_size in *.
    Z.to_euclidean_division_equations. lia. }
  assert (forall c, c ∈ chunks_from st off -> c ∈ chunks_ st) as Hback.
  { intros c [j Hj]%list_elem_of_lookup_1. unfold chunks_from in Hj. rewrite lookup_drop in Hj.
    by eapply list_elem_of_lookup_2. }
  destruct (spans_loop _ off len) as [l|e].
  - destruct Hspec as [Hd Hall]. split; [|intros _ (c & Hc & Ht & Hnl); exfalso; apply Hnl; by auto].
    intros _. rewrite Hd. split; [done|]. split; [done|]. by exists l.
  - destruct Hspec as (-> & c & Hc & Ht & Hnl). split; [|done].
    intros [|Hall]; [lia|]. exfalso. apply Hnl. by auto.
Qed.

(** ** Recycling *)

Definition recycle (off end_ : Z) (c : Chunk) : Chunk :=
  if recyclable c off end_
  then {| mapping := 0; offset := offset c; length_ := length_ c; used := used c |} else c.

Definition recycled (off end_ : Z) (cs : list Chunk) : list Chunk :=
  filter (fun c => recyclable c off end_ = true) cs.

Definition increasing (cs : list Chunk) : Prop :=
  forall i j c d, cs !! i = Some c -> cs !! j = Some d -> (i < j)%nat -> offset c < offset d.

Lemma increasing_tail c cs : increasing (c :: cs) -> increasing cs.
Proof. intros H i j x y Hx Hy Hij. apply (H (S i) (S j)); [done|done|lia]. Qed.

Lemma recyclable_spec c off end_ :
  recyclable c off end_ = true <->
  live c /\ used c = length_ c /\ off <= offset c /\ offset c + length_ c <= end_.
Proof.
  unfold recyclable, live. rewrite negb_true_iff, !orb_false_iff, negb_false_iff, Z.eqb_neq, Z.eqb_eq.
  rewrite Z.ltb_ge, Z.gtb_ltb, Z.ltb_ge. tauto.
Qed.

(** The loop recycles every recyclable chunk and returns its block to the pool. *)
Lemma discard_loop_spec cs w idle leased pend off end_ :
  pool_inv (w_pool w) (w_mem w) idle leased pend -> increasing cs ->
  (forall c, c ∈ cs -> 0 < length_ c) ->
  (forall c, c ∈ cs -> live c -> mapping c ∈ leased) -> NoDup (map mapping (filter live cs)) ->
  exists w' idle',
    discard_loop w cs off end_ =
      (w', map (recycle off end_) cs, zsum length_ (recycled off end_ cs),
       kReceiveBlockSize * vsize (recycled off end_ cs)) /\
    w_budget w' = w_budget w /\
    (forall b o, b ∉ map mapping (recycled off end_ cs) -> w_mem w' b o = w_mem w b o) /\
    pool_inv (w_pool w') (w_mem w') idle'
      (leased ∖ list_to_set (map mapping (recycled off end_ cs))) pend.
Proof.
  revert w idle leased. induction cs as [|c cs IH]; intros w idle leased I Hinc Hpos Hl Hnd.
  { exists w, idle. split_and!; [done|done|done|]. cbn. by rewrite difference_empty_L. }
  cbn [discard_loop]. rewrite Z.geb_leb. destruct (Z.leb_spec end_ (offset c)) as [Hend|Hend].
  - assert (forall d, d ∈ c :: cs -> recyclable d off end_ = false) as Hnone.
    { intros d Hd. apply not_true_iff_false. rewrite recyclable_spec. intros (_ & _ & _ & He).
      specialize (Hpos d Hd). apply list_elem_of_lookup_1 in Hd as [[|j] Hj]; [simplify_eq/=; lia|].
      pose proof (Hinc 0%nat (S j) c d eq_refl Hj ltac:(lia)). lia. }
    assert (recycled off end_ (c :: cs) = []) as ->.
    { destruct (recycled off end_ (c :: cs)) as [|d l] eqn:Er; [done|]. exfalso.
      assert (d ∈ recycled off end_ (c :: cs)) as Hd by (rewrite Er; set_solver).
      apply list_elem_of_filter in Hd as [Hd1 Hd2]. by rewrite (Hnone d Hd2) in Hd1. }
    exists w, idle. split_and!; [|done|done|cbn; by rewrite difference_empty_L]. cbn [vsize].
    replace (map (recycle off end_) (c :: cs)) with (c :: cs); [done|].
    symmetry. rewrite <- (map_id (c :: cs)) at 2. apply map_ext_in. intros d Hd%list_elem_of_In.
    unfold recycle. by rewrite (Hnone d Hd).
  - assert (NoDup (map mapping (filter live cs))) as Hnd'.
    { rewrite filter_cons in Hnd. case_decide; [by apply NoDup_cons in Hnd as [_ ?]|done]. }
    destruct (recyclable c off end_) eqn:E; cbn [negb].
    + pose proof E as (Hlive & _)%recyclable_spec.
      destruct (release_leased _ _ _ _ _ I (mapping c)) as (p & m & Er & Hfr & I');
        [by apply Hl; [set_solver|]|].
      rewrite Er. set (w1 := {| w_pool := p; w_mem := m; w_budget := w_budget w |}).
      assert (mapping c ∉ map mapping (filter live cs)) as Hnin.
      { rewrite filter_cons, decide_True in Hnd by done. by apply NoDup_cons in Hnd as [? _]. }
      destruct (IH w1 (mapping c :: idle) (leased ∖ {[mapping c]})) as (w' & idle' & Ed & Hb & Hfr' & I'');
        [done|by eapply increasing_tail|set_solver| |done|].
      { intros d Hd Hdl. apply elem_of_difference. split; [apply Hl; set_solver|].
        rewrite elem_of_singleton. intros Heq. apply Hnin. rewrite <- Heq.
        by apply list_elem_of_In, in_map, list_elem_of_In, list_elem_of_filter. }
      rewrite Ed. exists w', idle'.
      assert (recycled off end_ (c :: cs) = c :: recycled off end_ cs) as ->
        by (unfold recycled; by rewrite filter_cons, decide_True).
      split_and!.
      * cbn [map]. unfold recycle at 2. rewrite E, zsum_cons. do 3 f_equal.
        unfold vsize. cbn [length]. lia.
      * by rewrite Hb.
      * intros b o Hbo. cbn [map] in Hbo. rewrite Hfr' by set_solver. apply Hfr. set_solver.
      * cbn [map list_to_set]. rewrite <- difference_difference_l_L. done.
    + destruct (IH w idle leased) as (w' & idle' & Ed & Hb & Hfr' & I'');
        [done|by eapply increasing_tail|set_solver|set_solver|done|].
      rewrite Ed. exists w', idle'.
      assert (recycled off end_ (c :: cs) = recycled off end_ cs) as ->
        by (unfold recycled; by rewrite filter_cons, decide_False by (by rewrite E)).
      split_and!; [|done|done|done]. cbn [map]. unfold recycle at 2. by rewrite E.
Qed.

Definition recycled_count (st : Storage) : Z := vsize (filter (fun c => mapping c = 0) (chunks_ st)).

(** The charge pays for the blocks that were not recycled yet. *)
Definition charge_ok (b : Budget) (st : Storage) : Prop :=
  r_bytes (charge_ st) = 0 \/
  (r_bytes (charge_ st) = kReceiveBlockSize * (blocks_of (size_ st) - recycled_count st) /\
   0 < page_size b /\ (page_size b | kReceiveBlockSize)).

Lemma blocks_of_spec size :
  0 < size <= SIZE_MAX - (kReceiveBlockSize - 1) ->
  (blocks_of size - 1) * kReceiveBlockSize < size <= blocks_of size * kReceiveBlockSize.
Proof.
  unfold blocks_of, SIZE_MAX, UINT64_MAX. rewrite block_size. intros.
  rewrite u64_small by lia. Z.to_euclidean_division_equations. lia.
Qed.

Lemma chunks_bound st : storage_ok st -> Z.of_nat (length (chunks_ st)) <= blocks_of (size_ st).
Proof.
  intros HS. pose proof (blocks_of_spec _ (so_size st HS)) as Hb.
  destruct (last (chunks_ st)) as [c|] eqn:El.
  - rewrite last_lookup in El. pose proof (lookup_lt_Some _ _ _ El).
    destruct (so_chunk st HS _ _ El) as (? & ? & ? & _). rewrite block_size in *. lia.
  - apply last_None in El. rewrite El. cbn. rewrite block_size in *. pose proof (so_size st HS). lia.
Qed.

Lemma recycle_null off end_ c :
  mapping (recycle off end_ c) = 0 <-> mapping c = 0 \/ recyclable c off end_ = true.
Proof. unfold recycle. destruct (recyclable c off end_); cbn; naive_solver. Qed.

Lemma recycle_list cs off end_ :
  vsize (filter (fun c => mapping c = 0) (map (recycle off end_) cs)) =
    vsize (filter (fun c => mapping c = 0) cs) + vsize (recycled off end_ cs) /\
  vsize (filter (fun c => mapping c = 0) cs) + vsize (recycled off end_ cs) <= vsize cs.
Proof.
  unfold recycled, vsize. induction cs as [|c cs [IH1 IH2]]; [done|]. cbn [map].
  rewrite !filter_cons. pose proof (recycle_null off end_ c) as Hn.
  pose proof (recyclable_spec c off end_) as Hr. unfold live in Hr.
  repeat case_decide; cbn [length]; try lia; tauto.
Qed.

Lemma recycle_front st off end_ :
  storage_ok st -> 0 <= off ->
  map (recycle off end_) (take (Z.to_nat (off / kReceiveBlockSize)) (chunks_ st)) =
    take (Z.to_nat (off / kReceiveBlockSize)) (chunks_ st) /\
  recycled off end_ (take (Z.to_nat (off / kReceiveBlockSize)) (chunks_ st)) = [].
Proof.
  intros HS Ho.
  assert (forall c, c ∈ take (Z.to_nat (off / kReceiveBlockSize)) (chunks_ st) ->
    recyclable c off end_ = false) as Hnone.
  { intros c [i Hi]%list_elem_of_lookup_1. apply lookup_take_Some in Hi as [Hi Hlt].
    destruct (so_chunk st HS _ _ Hi) as (Hoc & _). apply not_true_iff_false. rewrite recyclable_spec.
    intros (_ & _ & Hle & _). rewrite block_size in *. Z.to_euclidean_division_equations. lia. }
  split.
  - rewrite <- (map_id (take _ _)) at 2. apply map_ext_in. intros c Hc%list_elem_of_In.
    unfold recycle. by rewrite (Hnone c Hc).
  - destruct (recycled _ _ _) as [|d l] eqn:Er; [done|]. exfalso.
    assert (d ∈ recycled off end_ (take (Z.to_nat (off / kReceiveBlockSize)) (chunks_ st))) as Hd
      by (rewrite Er; set_solver).
    apply list_elem_of_filter in Hd as [Hd1 Hd2]. by rewrite (Hnone d Hd2) in Hd1.
Qed.

Definition with_chunks (st : Storage) (r : Reservation) (cs : list Chunk) : Storage :=
  {| size_ := size_ st; produced_ := produced_ st; charge_ := r; chunks_ := cs |}.

Lemma recycle_fields off end_ c :
  offset (recycle off end_ c) = offset c /\ length_ (recycle off end_ c) = length_ c /\
  used (recycle off end_ c) = used c.
Proof. unfold recycle. by destruct (recyclable c off end_). Qed.

Lemma recycle_live off end_ c : live (recycle off end_ c) <-> live c /\ recyclable c off end_ = false.
Proof. unfold recycle, live. destruct (recyclable c off end_); cbn; naive_solver. Qed.

Lemma recycle_ok st r off end_ :
  storage_ok st -> storage_ok (with_chunks st r (map (recycle off end_) (chunks_ st))).
Proof.
  intros HS. constructor; cbn [size_ produced_ chunks_ with_chunks].
  - apply HS.
  - intros i c. change (map ?f) with (fmap (M:=list) f). rewrite list_lookup_fmap.
    intros (d & Hd & ->)%fmap_Some. destruct (recycle_fields off end_ d) as (-> & -> & ->). by apply HS.
  - intros i c. change (map ?f) with (fmap (M:=list) f). rewrite list_lookup_fmap, length_fmap.
    intros (d & Hd & ->)%fmap_Some Hlt. destruct (recycle_fields off end_ d) as (_ & -> & ->).
    by apply (so_full st HS i).
  - rewrite (so_produced st HS). change (map ?f) with (fmap (M:=list) f). rewrite fmap_last.
    destruct (last (chunks_ st)) as [c|]; [|done]. cbn.
    by destruct (recycle_fields off end_ c) as (-> & _ & ->).
  - intros c. change (map ?f) with (fmap (M:=list) f). rewrite list_elem_of_fmap.
    intros (d & -> & Hd). destruct (recycle_fields off end_ d) as (_ & -> & ->). unfold recycle.
    destruct (recyclable d off end_) eqn:E; cbn; [|by apply HS].
    by apply recyclable_spec in E as (_ & ? & _).
Qed.

Lemma recycle_mappings off end_ cs :
  map mapping (filter live (map (recycle off end_) cs)) =
  map mapping (filter (fun c => live c /\ recyclable c off end_ = false) cs).
Proof.
  induction cs as [|c cs IH]; [done|]. cbn [map]. rewrite !filter_cons. pose proof (recycle_live off end_ c) as Hl.
  case_decide as D1; case_decide as D2; try tauto. cbn [map]. rewrite IH. f_equal.
  unfold recycle. destruct D2 as [_ ->]. done.
Qed.

Lemma filter_nodup (Q : Chunk -> Prop) `{forall c, Decision (Q c)} cs :
  NoDup (map mapping (filter live cs)) ->
  NoDup (map mapping (filter (fun c => live c /\ Q c) cs)).
Proof.
  induction cs as [|c cs IH]; [done|]. rewrite !filter_cons. intros Hnd.
  repeat case_decide; try tauto; cbn [map] in *.
  - apply NoDup_cons in Hnd as [Hn Hnd]. constructor; [|by apply IH].
    intros Hin. apply Hn. apply list_elem_of_In, in_map_iff in Hin as (d & Hd & Hdin).
    apply list_elem_of_In, list_elem_of_filter in Hdin as [[? ?] ?]. rewrite <- Hd.
    by apply list_elem_of_In, in_map, list_elem_of_In, list_elem_of_filter.
  - apply NoDup_cons in Hnd as [_ Hnd]. by apply IH.
Qed.

Lemma recycle_holds m m' leased st r data off end_ :
  holds m leased st data ->
  (forall b o, b ∉ map mapping (recycled off end_ (chunks_ st)) -> m' b o = m b o) ->
  holds m' (leased ∖ list_to_set (map mapping (recycled off end_ (chunks_ st))))
    (with_chunks st r (map (recycle off end_) (chunks_ st))) data.
Proof.
  intros [Hh1 Hh2 Hh3 Hh4] Hm.
  assert (forall c, c ∈ chunks_ st -> live c -> recyclable c off end_ = false ->
    mapping c ∉ map mapping (recycled off end_ (chunks_ st))) as Hkeep.
  { intros c Hc Hl Hr Hin. apply list_elem_of_In, in_map_iff in Hin as (d & Hd & Hdin).
    apply list_elem_of_In, list_elem_of_filter in Hdin as [Hdr Hdin].
    assert (live d) as Hdl by (by apply recyclable_spec in Hdr as [? _]).
    assert (c = d) as ->; [|congruence]. unfold mappings in Hh4.
    apply list_elem_of_lookup_1 in Hc as [i Hi], Hdin as [j Hj].
    destruct (list_elem_of_lookup_1 (filter live (chunks_ st)) c) as [i' Hi'];
      [apply list_elem_of_filter; split; [done|by eapply list_elem_of_lookup_2]|].
    destruct (list_elem_of_lookup_1 (filter live (chunks_ st)) d) as [j' Hj'];
      [apply list_elem_of_filter; split; [done|by eapply list_elem_of_lookup_2]|].
    assert (i' = j') as ->; [|congruence]. eapply NoDup_lookup; [exact Hh4| |].
    - change (map ?f) with (fmap (M:=list) f). rewrite list_lookup_fmap, Hi'. reflexivity.
    - change (map ?f) with (fmap (M:=list) f). rewrite list_lookup_fmap, Hj'. cbn. by rewrite Hd. }
  constructor; cbn [produced_ chunks_ with_chunks].
  - done.
  - intros c. change (map ?f) with (fmap (M:=list) f). rewrite list_elem_of_fmap.
    intros (d & -> & Hd) [Hdl Hdr]%recycle_live o. destruct (recycle_fields off end_ d) as (-> & _ & ->).
    intros Hoo. assert (mapping (recycle off end_ d) = mapping d) as -> by (unfold recycle; by rewrite Hdr).
    rewrite Hm by (by apply Hkeep). by apply Hh2.
  - intros c. change (map ?f) with (fmap (M:=list) f) at 1. rewrite list_elem_of_fmap.
    intros (d & -> & Hd) [Hdl Hdr]%recycle_live.
    assert (mapping (recycle off end_ d) = mapping d) as -> by (unfold recycle; by rewrite Hdr).
    apply elem_of_difference. split; [by apply Hh3|]. rewrite elem_of_list_to_set. by apply Hkeep.
  - unfold mappings in *. cbn [chunks_ with_chunks]. rewrite recycle_mappings.
    by apply filter_nodup.
Qed.

Lemma chunks_increasing st k : storage_ok st -> increasing (drop k (chunks_ st)).
Proof.
  intros HS i j c d Hc Hd Hij. rewrite lookup_drop in Hc, Hd.
  destruct (so_chunk st HS _ _ Hc) as (-> & _). destruct (so_chunk st HS _ _ Hd) as (-> & _).
  rewrite block_size. lia.
Qed.

(** The part of [discard] that does not concern the charge. *)
Lemma discard_chunks w st data leased idle pend off end_ :
  storage_ok st -> holds (w_mem w) leased st data ->
  pool_inv (w_pool w) (w_mem w) idle leased pend -> 0 <= off ->
  let first := Z.to_nat (off / kReceiveBlockSize) in
  let gone := recycled off end_ (chunks_ st) in
  exists w' idle',
    discard_loop w (drop first (chunks_ st)) off end_ =
      (w', map (recycle off end_) (drop first (chunks_ st)), zsum length_ gone,
       kReceiveBlockSize * vsize gone) /\
    take first (chunks_ st) ++ map (recycle off end_) (drop first (chunks_ st)) =
      map (recycle off end_) (chunks_ st) /\
    w_budget w' = w_budget w /\
    (forall b o, b ∉ map mapping gone -> w_mem w' b o = w_mem w b o) /\
    pool_inv (w_pool w') (w_mem w') idle' (leased ∖ list_to_set (map mapping gone)) pend.
Proof.
  intros HS Hh I Ho first gone. destruct (recycle_front st off end_ HS Ho) as [Hf1 Hf2].
  fold first in Hf1, Hf2.
  assert (recycled off end_ (drop first (chunks_ st)) = gone) as Hg.
  { unfold gone. rewrite <- (take_drop first (chunks_ st)) at 2. unfold recycled in *.
    by rewrite filter_app, Hf2. }
  assert (forall c, c ∈ drop first (chunks_ st) -> c ∈ chunks_ st) as Hin.
  { intros c Hc. rewrite <- (take_drop first (chunks_ st)). set_solver. }
  destruct (discard_loop_spec (drop first (chunks_ st)) w idle leased pend off end_ I) as (w' & idle' & E & Hrest).
  - by apply chunks_increasing.
  - intros c [i Hi]%Hin%list_elem_of_lookup_1. by destruct (so_chunk st HS _ _ Hi) as (_ & _ & ? & _).
  - intros c Hc. apply (h_leased _ _ _ _ Hh), Hin, Hc.
  - pose proof (h_nodup _ _ _ _ Hh) as Hnd. unfold mappings in Hnd.
    rewrite <- (take_drop first (chunks_ st)), filter_app, map_app in Hnd.
    by apply NoDup_app in Hnd as (_ & _ & ?).
  - rewrite Hg in E, Hrest. exists w', idle'. split; [done|]. split; [|done].
    rewrite <- (take_drop first (chunks_ st)) at 3. by rewrite map_app, Hf1.
Qed.

(** [discard] recycles exactly the complete blocks inside the interval: their blocks go
    back to the pool, their logical bytes are returned, the charge shrinks by 2 MiB for each
    and never fails to split, and everything else the storage holds stays readable. *)
Theorem discard_recycles w st data leased idle pend off len :
  storage_ok st -> holds (w_mem w) leased st data ->
  pool_inv (w_pool w) (w_mem w) idle leased pend -> charge_ok (w_budget w) st ->
  0 <= off -> 0 <= len -> off + len <= produced_ st ->
  let gone := recycled off (off + len) (chunks_ st) in
  exists w' st' idle',
    discard w st off len = (w', st', Ok (zsum length_ gone)) /\
    chunks_ st' = map (recycle off (off + len)) (chunks_ st) /\
    storage_ok st' /\
    holds (w_mem w') (leased ∖ list_to_set (map mapping gone)) st' data /\
    pool_inv (w_pool w') (w_mem w') idle' (leased ∖ list_to_set (map mapping gone)) pend /\
    charge_ok (w_budget w) st' /\
    r_bytes (charge_ st') = r_bytes (charge_ st) -
      (if r_bytes (charge_ st) =? 0 then 0 else kReceiveBlockSize * vsize gone).
Proof.
  intros HS Hh I Hch Ho Hl Hp gone. unfold discard.
  rewrite Z.gtb_ltb, (proj2 (Z.ltb_ge _ _)), Z.gtb_ltb, (proj2 (Z.ltb_ge _ _)) by lia. cbn [orb].
  destruct (discard_chunks w st data leased idle pend off (off + len) HS Hh I Ho)
    as (w' & idle' & -> & -> & Hb & Hfr & I'). fold gone in Hfr, I' |- *.
  destruct (recycle_list (chunks_ st) off (off + len)) as [Hc1 Hc2]. fold gone in Hc1, Hc2.
  pose proof (chunks_bound st HS) as Hcb. pose proof (vsize_nonneg gone) as Hg.
  assert (forall r, recycled_count (with_chunks st r (map (recycle off (off + len)) (chunks_ st)))
    = recycled_count st + vsize gone) as Hcount by (intros; exact Hc1).
  assert (recycled_count st + vsize gone <= blocks_of (size_ st)) as Hle
    by (unfold recycled_count, vsize in *; lia).
  destruct (Z.eqb_spec (r_bytes (charge_ st)) 0) as [E0|E0]; cbn [negb andb].
  - exists w', (with_chunks st (charge_ st) (map (recycle off (off + len)) (chunks_ st))), idle'.
    split_and!; [done|done|by apply recycle_ok|by eapply recycle_holds|done|by left|cbn; lia].
  - destruct Hch as [?|(Hr & Hpage & Hdiv)]; [done|].
    destruct (Z.eqb_spec (kReceiveBlockSize * vsize gone) 0) as [Eg|Eg]; cbn [negb].
    + exists w', (with_chunks st (charge_ st) (map (recycle off (off + len)) (chunks_ st))), idle'.
      assert (vsize gone = 0) as Hg0 by (rewrite block_size in Eg; lia).
      split_and!; [done|done|by apply recycle_ok|by eapply recycle_holds|done| |cbn; lia].
      right. rewrite Hcount, Hg0, Z.add_0_r. done.
    + unfold PrefetchBudget.split. rewrite Hb, (proj2 (Z.eqb_neq _ _) E0), (proj2 (Z.eqb_neq _ _) Eg).
      rewrite Z.gtb_ltb, (proj2 (Z.ltb_ge _ _)) by (rewrite Hr, block_size in *; lia).
      assert ((kReceiveBlockSize * vsize gone) mod page_size (w_budget w) = 0) as ->.
      { apply Z.mod_divide; [lia|]. by apply Z.divide_mul_l. }
      cbn [orb negb Z.eqb].
      eexists _, (with_chunks st _ (map (recycle off (off + len)) (chunks_ st))), idle'.
      split; [reflexivity|]. cbn [w_mem w_pool with_budget charge_ chunks_ with_chunks r_bytes].
      split_and!; [done|by apply recycle_ok|by eapply recycle_holds|done| |done].
      right. rewrite Hcount. cbn [charge_ with_chunks r_bytes size_]. split; [rewrite Hr; lia|done].
Qed.

(** Returning every block. *)
Lemma release_chunks_spec cs w idle leased pend :
  pool_inv (w_pool w) (w_mem w) idle leased pend ->
  (forall c, c ∈ cs -> live c -> mapping c ∈ leased) -> NoDup (map mapping (filter live cs)) ->
  exists idle', pool_inv (w_pool (release_chunks w cs)) (w_mem (release_chunks w cs)) idle'
    (leased ∖ list_to_set (map mapping (filter live cs))) pend /\
    w_budget (release_chunks w cs) = w_budget w.
Proof.
  unfold release_chunks. revert w idle leased. induction cs as [|c cs IH]; intros w idle leased I Hl Hnd.
  { exists idle. cbn. by rewrite difference_empty_L. }
  cbn [fold_left]. rewrite filter_cons in Hnd |- *. case_decide as Hc.
  - cbn [map] in Hnd |- *. apply NoDup_cons in Hnd as [Hn Hnd].
    destruct (release_leased _ _ _ _ _ I (mapping c)) as (p & m & -> & _ & I'); [by apply Hl; [set_solver|]|].
    destruct (IH {| w_pool := p; w_mem := m; w_budget := w_budget w |} (mapping c :: idle)
      (leased ∖ {[mapping c]})) as (idle' & I'' & Hb); [done| |done|].
    + intros d Hd Hdl. apply elem_of_difference. split; [apply Hl; [set_solver|done]|].
      rewrite elem_of_singleton. intros E. apply Hn. rewrite <- E.
      by apply list_elem_of_In, in_map, list_elem_of_In, list_elem_of_filter.
    + exists idle'. split; [|done]. cbn [list_to_set]. rewrite <- difference_difference_l_L. done.
  - assert (mapping c = 0) as Hz by (unfold live in Hc; lia).
    unfold release. rewrite Hz. cbn [Z.eqb]. apply (IH {| w_pool := w_pool w; w_mem := w_mem w; w_budget := w_budget w |} idle leased);
      [done|set_solver|done].
Qed.

(** destroying or retrying a storage returns every block it still leases to the pool and
    nothing else, and a retry hands the whole remaining charge on without releasing it. *)
Theorem release_returns_blocks w st data leased idle pend :
  holds (w_mem w) leased st data -> pool_inv (w_pool w) (w_mem w) idle leased pend ->
  let '(w1, st1) := release_storage w st in
  let '(w2, st2, r) := release_for_retry w st in
  (exists idle', pool_inv (w_pool w1) (w_mem w1) idle' (leased ∖ list_to_set (mappings st)) pend) /\
  (exists idle', pool_inv (w_pool w2) (w_mem w2) idle' (leased ∖ list_to_set (mappings st)) pend) /\
  w_budget w1 = (PrefetchBudget.reset (w_budget w) (charge_ st)).1 /\
  r = charge_ st /\ w_budget w2 = w_budget w /\ chunks_ st1 = [] /\ chunks_ st2 = [] /\
  produced_ st2 = 0.
Proof.
  intros Hh I. destruct (release_chunks_spec (chunks_ st) w idle leased pend I) as (idle' & I' & Hb).
  - apply Hh.
  - apply Hh.
  - cbn. unfold mappings. split_and!; try done; [by exists idle'|by exists idle'|]. by rewrite Hb.
Qed.

(** ** A sample storage: ten bytes wanted, five received in block 4096 *)

Definition sample_mem : Mem := fun _ o => at_z (lit "hello") o.
Definition empty_storage : Storage :=
  {| size_ := 10; produced_ := 0; charge_ := no_charge; chunks_ := [] |}.
Definition sample_storage : Storage :=
  {| size_ := 10; produced_ := 5; charge_ := no_charge;
     chunks_ := [{| mapping := 4096; offset := 0; length_ := 10; used := 5 |}] |}.
Definition leased_pool : Pool :=
  {| free_ := 0; mapped_ := kReceiveBlockSize; idle_ := 0; capacity_ := kReceiveBlockSize |}.
Definition sample_world (p : Pool) (m : Mem) : World :=
  {| w_pool := p; w_mem := m; w_budget := sample_budget |}.

Lemma empty_storage_ok : storage_ok empty_storage /\ holds zero_mem ∅ empty_storage [].
Proof.
  split; constructor; cbn [size_ produced_ chunks_ empty_storage last].
  - unfold SIZE_MAX, UINT64_MAX. rewrite block_size. lia.
  - intros i c. by rewrite lookup_nil.
  - intros i c. by rewrite lookup_nil.
  - done.
  - intros c Hc. by apply not_elem_of_nil in Hc.
  - done.
  - intros c Hc. by apply not_elem_of_nil in Hc.
  - intros c Hc. by apply not_elem_of_nil in Hc.
  - constructor.
Qed.

Lemma sample_storage_ok : storage_ok sample_storage /\ holds sample_mem {[4096]} sample_storage (lit "hello").
Proof.
  split; constructor; cbn [size_ produced_ chunks_ sample_storage last].
  - unfold SIZE_MAX, UINT64_MAX. rewrite block_size. lia.
  - intros i c Hc. apply list_lookup_singleton_Some in Hc as [-> <-]. cbn. rewrite block_size. lia.
  - intros i c Hc Hlt. apply list_lookup_singleton_Some in Hc as [-> <-]. cbn in Hlt. lia.
  - done.
  - intros c Hc Hz. apply list_elem_of_singleton in Hc as ->. cbn in Hz. lia.
  - done.
  - intros c Hc _ o Ho. by apply list_elem_of_singleton in Hc as ->.
  - intros c Hc _. apply list_elem_of_singleton in Hc as ->. cbn. set_solver.
  - apply NoDup_singleton.
Qed.

Lemma leased_pool_inv : pool_inv leased_pool sample_mem [] {[4096]} 0.
Proof.
  constructor; cbn [free_ mapped_ idle_ capacity_ leased_pool]; rewrite ?size_singleton.
  - done.
  - constructor.
  - intros b Hb. by apply not_elem_of_nil in Hb.
  - intros b [Hb|Hb]; [by apply not_elem_of_nil in Hb|]. apply elem_of_singleton in Hb as ->. lia.
  - unfold vsize. cbn [length]. lia.
  - unfold vsize. cbn [length]. lia.
  - lia.
  - rewrite block_size. lia.
  - by exists 1.
Qed.

Lemma receive_appends_witness :
  exists w st n, receive (sample_world sample_pool zero_mem) empty_storage (inl 4096) (lit "hello")
    = (w, st, Ok n) /\ storage_ok st.
Proof.
  pose proof (receive_appends (sample_world sample_pool zero_mem) empty_storage [] ∅ [] 0 (inl 4096)
    (lit "hello") (proj1 empty_storage_ok) (proj2 empty_storage_ok) sample_pool_inv) as H.
  assert (exists w st, receive (sample_world sample_pool zero_mem) empty_storage (inl 4096) (lit "hello")
    = (w, st, Ok 5)) as (w & st & E).
  { unfold receive, writable, allocate_next, acquire, acquire_locked. cbn. rewrite !block_size.
    cbn. eexists _, _. reflexivity. }
  rewrite E in H. exists w, st, 5. split; [exact E|].
  apply H; [cbn; split_and!; [lia|lia|set_solver|set_solver]|done|cbn; lia].
Defined.

Lemma read_returns_received_witness :
  copy_to (sample_world leased_pool sample_mem) sample_storage 1 3 = Some (substr (lit "hello") 1 3).
Proof.
  apply (read_returns_received (sample_world leased_pool sample_mem) {[4096]} sample_storage
    (lit "hello") 1 3 (proj1 sample_storage_ok) (proj2 sample_storage_ok)); [lia|lia|].
  right. intros c Hc _. apply list_elem_of_singleton in Hc as ->. unfold live. cbn. lia.
Defined.

Lemma discard_recycles_witness :
  exists w st, discard (sample_world leased_pool sample_mem) sample_storage 0 5 = (w, st, Ok 0) /\
    storage_ok st.
Proof.
  destruct (discard_recycles (sample_world leased_pool sample_mem) sample_storage (lit "hello") {[4096]}
    [] 0 0 5 (proj1 sample_storage_ok) (proj2 sample_storage_ok) leased_pool_inv)
    as (w & st & idle & E & _ & Hok & _); [by left|lia|lia|cbn; lia|].
  exists w, st. split; [exact E|exact Hok].
Defined.

Lemma release_returns_blocks_witness :
  chunks_ (release_storage (sample_world leased_pool sample_mem) sample_storage).2 = [].
Proof.
  pose proof (release_returns_blocks (sample_world leased_pool sample_mem) sample_storage (lit "hello")
    {[4096]} [] 0 (proj2 sample_storage_ok) leased_pool_inv) as H.
  destruct (release_storage _ _) as [w1 st1]. cbn in H. apply H.
Defined.
