(* ===== verification/CacheBitmap.v ===== *)
(** * Cache bitmap

    Models the two-bit page states a cache entry keeps in its mapped metadata file
    ([src/src/cache.hpp] and [src/src/cache.cpp]): the size of the mapping, [page_state],
    [set_page_state], and the range tests, one of which compares 32 pages at a time.

    Every access is made with the entry's mutex held, so the compare-and-swap loop of
    [set_page_state] is one atomic replacement of the word. *)

From S2P Require Import Prelude.

Inductive CachePageState :=
  | CACHE_PAGE_MISSING
  | CACHE_PAGE_READ_PENDING
  | CACHE_PAGE_CLEAN
  | CACHE_PAGE_BAD.

#[global] Instance CachePageState_eq_dec : EqDecision CachePageState.
Proof. solve_decision. Defined.

Definition page_state_eqb (a b : CachePageState) : bool := bool_decide (a = b).

(** The enumerators' values, and the conversion back from two bits. *)
Definition state_bits (s : CachePageState) : Z :=
  match s with
  | CACHE_PAGE_MISSING => 0
  | CACHE_PAGE_READ_PENDING => 1
  | CACHE_PAGE_CLEAN => 2
  | CACHE_PAGE_BAD => 3
  end.

Definition state_of_bits (x : Z) : CachePageState :=
  if x =? 0 then CACHE_PAGE_MISSING
  else if x =? 1 then CACHE_PAGE_READ_PENDING
  else if x =? 2 then CACHE_PAGE_CLEAN
  else CACHE_PAGE_BAD.

Definition kCacheBitmapUnit : Z := 32 * 1024.
Definition kCacheMetaHeaderSize : Z := 4096.

Definition cache_round_up (value alignment : Z) : result Z :=
  if (alignment =? 0) || (value >? SIZE_MAX - (alignment - 1)) then Throw OverflowError
  else Ok ((value + alignment - 1) / alignment * alignment).

Definition cache_bitmap_words (size page_size : Z) : result Z :=
  let pages := if size =? 0 then 0 else (size - 1) / page_size + 1 in
  if pages >? SIZE_MAX then Throw OverflowError else Ok ((pages + 31) / 32).

Definition cache_mapping_size (size page_size : Z) : result Z :=
  let? words := cache_bitmap_words size page_size in
  if words >? (SIZE_MAX - kCacheMetaHeaderSize) / 8 then Throw OverflowError
  else Ok (kCacheMetaHeaderSize + words * 8).

(** ** Single pages *)

Definition page_state (words : list Z) (page : Z) : CachePageState :=
  let word := page / 32 in
  let shift := page mod 32 * 2 in
  state_of_bits (Z.land (Z.shiftr (vget 0 words word) shift) 3).

Definition set_page_state (words : list Z) (page : Z) (state : CachePageState) : list Z :=
  let word := page / 32 in
  let shift := page mod 32 * 2 in
  let mask := u64 (Z.shiftl 3 shift) in
  let current := vget 0 words word in
  vset words word
    (Z.lor (Z.land current (Z.lxor UINT64_MAX mask)) (u64 (Z.shiftl (state_bits state) shift))).

(** ** Ranges *)

Definition first_page_of (offset : Z) : Z := offset / kCacheBitmapUnit.

(** The page of the last byte of a non-empty range. *)
Definition last_page_of (offset length : Z) : Z := u64 (offset + length - 1) / kCacheBitmapUnit.

Definition range_has_state (words : list Z) (offset length : Z) (state : CachePageState) : bool :=
  if length =? 0 then false
  else existsb (fun page => page_state_eqb (page_state words page) state)
         (zrange (first_page_of offset) (last_page_of offset length + 1)).

(** One turn of the loop compares up to 32 pages; it advances by at least one, so the number
    of pages is enough fuel. *)
Fixpoint range_all_loop (fuel : nat) (words : list Z) (pattern page last : Z) : bool :=
  match fuel with
  | O => true
  | S fuel =>
      if page <? last then
        let word := page / 32 in
        let bit := page mod 32 * 2 in
        let count := Z.min (32 - page mod 32) (last - page) in
        let mask := u64 (Z.shiftl (Z.shiftr UINT64_MAX ((32 - count) * 2)) bit) in
        if negb (Z.land (vget 0 words word) mask =? Z.land pattern mask) then false
        else range_all_loop fuel words pattern (page + count) last
      else true
  end.

Definition state_pattern (state : CachePageState) : Z := u64 (state_bits state * 0x5555555555555555).

Definition range_all_state (words : list Z) (offset length : Z) (state : CachePageState) : bool :=
  if length =? 0 then true
  else
    let first := first_page_of offset in
    let last := last_page_of offset length + 1 in
    range_all_loop (Z.to_nat (last - first)) words (state_pattern state) first last.

(** The loops [for (page : pages) if (f applies to page_state(page)) set_page_state(...)] of
    the cache entry; the flag says whether any page was set. *)
Fixpoint update_pages (f : CachePageState -> option CachePageState) (words : list Z)
    (pages : list Z) : list Z * bool :=
  match pages with
  | [] => (words, false)
  | page :: rest =>
      match f (page_state words page) with
      | Some s => ((update_pages f (set_page_state words page s) rest).1, true)
      | None => update_pages f words rest
      end
  end.

Definition set_pages (words : list Z) (pages : list Z) (s : CachePageState) : list Z :=
  (update_pages (fun _ => Some s) words pages).1.

(** ** Lemmas *)

Lemma page_state_eqb_spec a b : page_state_eqb a b = true <-> a = b.
Proof. apply bool_decide_eq_true. Qed.

Lemma page_state_eqb_false a b : page_state_eqb a b = false <-> a <> b.
Proof. apply bool_decide_eq_false. Qed.

Lemma state_bits_range s : 0 <= state_bits s < 4.
Proof. by destruct s. Qed.

(** Two bits select the state. *)
Lemma state_of_bits_spec x s :
  state_of_bits (Z.land x 3) = s <->
  Z.testbit x 0 = Z.testbit (state_bits s) 0 /\ Z.testbit x 1 = Z.testbit (state_bits s) 1.
Proof.
  change 3 with (Z.ones 2). rewrite Z.land_ones by lia.
  assert (Hb : forall n, 0 <= n < 2 -> Z.testbit x n = Z.testbit (x mod 2 ^ 2) n).
  { intros. by rewrite Z.mod_pow2_bits_low by lia. }
  rewrite (Hb 0), (Hb 1) by lia.
  pose proof (Z.mod_pos_bound x (2 ^ 2) ltac:(lia)) as H.
  set (y := x mod 2 ^ 2) in *. clearbody y.
  assert (y = 0 \/ y = 1 \/ y = 2 \/ y = 3) as [->|[->|[->| ->]]] by lia;
    destruct s; cbn; split; (done || (intros; by intuition) || by intros []).
Qed.

Lemma page_state_spec ws p s :
  page_state ws p = s <->
  Z.testbit (vget 0 ws (p / 32)) (p mod 32 * 2) = Z.testbit (state_bits s) 0 /\
  Z.testbit (vget 0 ws (p / 32)) (p mod 32 * 2 + 1) = Z.testbit (state_bits s) 1.
Proof.
  unfold page_state. rewrite state_of_bits_spec, !Z.shiftr_spec by lia.
  by rewrite Z.add_0_l, (Z.add_comm 1).
Qed.

(** [mask] covers the two bits at [shift], whatever the width. *)
Lemma testbit_two x shift n :
  0 <= shift -> 0 <= n -> 0 <= x < 4 ->
  Z.testbit (Z.shiftl x shift) n = (shift <=? n) && (n <? shift + 2) && Z.testbit x (n - shift).
Proof.
  intros. rewrite Z.shiftl_spec by lia.
  destruct (Z.leb_spec shift n), (Z.ltb_spec n (shift + 2)); cbn; try done.
  - apply (testbit_high x 2); lia.
  - by rewrite Z.testbit_neg_r by lia.
  - lia.
Qed.

Lemma testbit_u64 x n : 0 <= n -> Z.testbit (u64 x) n = (n <? 64) && Z.testbit x n.
Proof.
  intros. unfold u64. destruct (Z.ltb_spec n 64).
  - by rewrite Z.mod_pow2_bits_low by lia.
  - by rewrite Z.mod_pow2_bits_high by lia.
Qed.

Lemma testbit_u64_max n : 0 <= n -> Z.testbit UINT64_MAX n = (n <? 64).
Proof.
  intros. change UINT64_MAX with (Z.ones 64). apply eq_true_iff_eq.
  rewrite Z.testbit_ones_nonneg by lia. done.
Qed.

(** The bits of the word [set_page_state] writes. *)
Lemma set_page_word_bits w s shift n :
  0 <= shift <= 62 -> 0 <= n < 64 ->
  Z.testbit (Z.lor (Z.land w (Z.lxor UINT64_MAX (u64 (Z.shiftl 3 shift))))
               (u64 (Z.shiftl (state_bits s) shift))) n =
  if (shift <=? n) && (n <? shift + 2) then Z.testbit (state_bits s) (n - shift)
  else Z.testbit w n.
Proof.
  intros. pose proof (state_bits_range s).
  rewrite Z.lor_spec, Z.land_spec, Z.lxor_spec, !testbit_u64, testbit_u64_max, !testbit_two by lia.
  rewrite (proj2 (Z.ltb_lt n 64)) by lia. cbn [andb].
  destruct ((shift <=? n) && (n <? shift + 2)) eqn:E; [|by destruct (Z.testbit w n)].
  bool_case. assert (n - shift = 0 \/ n - shift = 1) as [-> | ->] by lia;
    by destruct (Z.testbit w n), s.
Qed.

Lemma vsize_set_page_state ws p s : vsize (set_page_state ws p s) = vsize ws.
Proof. apply vsize_vset. Qed.

Lemma page_state_set ws p q s :
  0 <= p -> p / 32 < vsize ws -> 0 <= q ->
  page_state (set_page_state ws p s) q = if p =? q then s else page_state ws q.
Proof.
  intros Hp Hb Hq.
  assert (0 <= p / 32) by (apply Z.div_pos; lia).
  assert (0 <= q / 32) by (apply Z.div_pos; lia).
  pose proof (Z.mod_pos_bound p 32 ltac:(lia)). pose proof (Z.mod_pos_bound q 32 ltac:(lia)).
  apply page_state_spec. unfold set_page_state. rewrite vget_vset by lia.
  pose proof (Z.div_mod p 32 ltac:(lia)). pose proof (Z.div_mod q 32 ltac:(lia)).
  destruct (Z.eqb_spec p q) as [->|Hne].
  - rewrite Z.eqb_refl, !set_page_word_bits by lia.
    rewrite !(proj2 (Z.leb_le _ _)), !(proj2 (Z.ltb_lt _ _)) by lia. cbn [andb].
    split; f_equal; lia.
  - destruct (Z.eqb_spec (p / 32) (q / 32)) as [E|]; [|by apply page_state_spec].
    rewrite !set_page_word_bits by lia.
    assert (p mod 32 < q mod 32 \/ q mod 32 < p mod 32) as [|] by lia.
    + rewrite !(proj2 (Z.ltb_ge _ (p mod 32 * 2 + 2))), !andb_false_r by lia.
      rewrite E. by apply page_state_spec.
    + rewrite !(proj2 (Z.leb_gt (p mod 32 * 2) _)) by lia. cbn [andb].
      rewrite E. by apply page_state_spec.
Qed.

(** *** Loops over pages *)

Lemma update_pages_size f ws l : vsize (update_pages f ws l).1 = vsize ws.
Proof.
  revert ws; induction l as [|p l IH]; intros ws; cbn; [done|].
  destruct (f _); cbn; rewrite IH; [apply vsize_set_page_state|done].
Qed.

(** Each page of the range is mapped through [f] once; the others keep their state. *)
Lemma update_pages_state f ws a b q :
  0 <= a -> b <= 32 * vsize ws -> 0 <= q ->
  page_state (update_pages f ws (zrange a b)).1 q =
  if (a <=? q) && (q <? b) then default (page_state ws q) (f (page_state ws q))
  else page_state ws q.
Proof.
  intros Ha Hb Hq.
  destruct (Z.le_gt_cases b a) as [|Hlt].
  { rewrite zrange_nil by done. cbn. destruct (_ && _) eqn:E; bool_case; [lia|done]. }
  remember (Z.to_nat (b - a)) as n eqn:En. revert ws a Ha Hb Hlt En.
  induction n as [|n IH]; intros ws a Ha Hb Hlt En; [lia|].
  assert (a / 32 < vsize ws) by (apply Z.div_lt_upper_bound; lia).
  rewrite zrange_cons by lia. cbn [update_pages].
  assert (Hrest : forall ws', vsize ws' = vsize ws ->
    page_state (update_pages f ws' (zrange (a + 1) b)).1 q =
    if (a + 1 <=? q) && (q <? b) then default (page_state ws' q) (f (page_state ws' q))
    else page_state ws' q).
  { intros ws' Hs. destruct (Z.eq_dec (a + 1) b) as [->|].
    - rewrite zrange_nil by lia. cbn. destruct (_ && _) eqn:E; bool_case; [lia|done].
    - apply IH; lia. }
  destruct (f (page_state ws a)) as [s|] eqn:Ef; cbn [fst]; rewrite Hrest;
    rewrite ?vsize_set_page_state; try done;
    rewrite ?page_state_set by done;
    destruct (Z.eqb_spec a q) as [->|];
    repeat match goal with
           | |- context [?x <=? ?y] => destruct (Z.leb_spec x y)
           | |- context [?x <? ?y] => destruct (Z.ltb_spec x y)
           end;
    cbn [andb]; rewrite ?Ef; (lia || done).
Qed.

Lemma update_pages_changed f ws a b :
  0 <= a -> b <= 32 * vsize ws ->
  (update_pages f ws (zrange a b)).2 = false ->
  forall q, a <= q < b -> f (page_state ws q) = None.
Proof.
  intros Ha Hb. remember (Z.to_nat (b - a)) as n eqn:En. revert a Ha En.
  induction n as [|n IH]; intros a Ha En Hc q Hq; [lia|].
  rewrite zrange_cons in Hc by lia. cbn in Hc.
  destruct (f (page_state ws a)) eqn:Ef; [done|].
  destruct (Z.eq_dec q a) as [->|]; [done|]. apply (IH (a + 1)); try done; lia.
Qed.

Lemma update_pages_unchanged f ws l :
  (update_pages f ws l).2 = false -> (update_pages f ws l).1 = ws.
Proof.
  induction l as [|p l IH]; cbn; [done|]. by destruct (f (page_state ws p)); cbn.
Qed.

Lemma set_pages_state ws a b s q :
  0 <= a -> b <= 32 * vsize ws -> 0 <= q ->
  page_state (set_pages ws (zrange a b) s) q =
  if (a <=? q) && (q <? b) then s else page_state ws q.
Proof. intros. unfold set_pages. by rewrite update_pages_state. Qed.

Lemma set_pages_size ws l s : vsize (set_pages ws l s) = vsize ws.
Proof. apply update_pages_size. Qed.

(** *** The word-at-a-time comparison *)

Lemma pattern_bits s n :
  0 <= n < 64 -> Z.testbit (state_pattern s) n = Z.testbit (state_bits s) (n mod 2).
Proof.
  intros Hn.
  assert (H : forallb (fun s => forallb (fun n =>
    Bool.eqb (Z.testbit (state_pattern s) n) (Z.testbit (state_bits s) (n mod 2)))
    (zrange 0 64)) [CACHE_PAGE_MISSING; CACHE_PAGE_READ_PENDING; CACHE_PAGE_CLEAN; CACHE_PAGE_BAD]
    = true) by reflexivity.
  rewrite forallb_forall in H. specialize (H s ltac:(destruct s; cbn; tauto)).
  rewrite forallb_forall in H. apply Bool.eqb_prop, H, list_elem_of_In, elem_of_zrange. lia.
Qed.

Lemma range_mask_bits bit count n :
  0 <= bit -> 0 <= count <= 32 -> bit + 2 * count <= 64 -> 0 <= n ->
  Z.testbit (u64 (Z.shiftl (Z.shiftr UINT64_MAX ((32 - count) * 2)) bit)) n =
  (bit <=? n) && (n <? bit + 2 * count).
Proof.
  intros. rewrite testbit_u64, Z.shiftl_spec by lia.
  destruct (Z.leb_spec bit n); cbn.
  - rewrite Z.shiftr_spec, testbit_u64_max by lia.
    destruct (Z.ltb_spec n 64), (Z.ltb_spec (n - bit + (32 - count) * 2) 64),
      (Z.ltb_spec n (bit + 2 * count)); (done || lia).
  - rewrite Z.testbit_neg_r by lia. apply andb_false_r.
Qed.

(** The masked comparison holds exactly when each of the pages has the state. *)
Lemma masked_compare ws s page count :
  0 <= page -> 0 < count <= 32 - page mod 32 ->
  let mask := u64 (Z.shiftl (Z.shiftr UINT64_MAX ((32 - count) * 2)) (page mod 32 * 2)) in
  Z.land (vget 0 ws (page / 32)) mask = Z.land (state_pattern s) mask <->
  (forall q, page <= q < page + count -> page_state ws q = s).
Proof.
  intros Hp Hc mask. pose proof (Z.mod_pos_bound page 32 ltac:(lia)).
  pose proof (Z.div_mod page 32 ltac:(lia)).
  assert (Hmask : forall n, 0 <= n ->
    Z.testbit mask n = (page mod 32 * 2 <=? n) && (n <? page mod 32 * 2 + 2 * count))
    by (intros; apply range_mask_bits; lia).
  split.
  - intros E q Hq. apply page_state_spec.
    assert (Hd : q / 32 = page / 32).
    { symmetry. apply (Z.div_unique q 32 _ (page mod 32 + (q - page))); lia. }
    assert (Hm : q mod 32 = page mod 32 + (q - page)).
    { symmetry. apply (Z.mod_unique q 32 (page / 32)); lia. }
    assert (Hbit : forall b, 0 <= b < 2 -> Z.testbit (vget 0 ws (q / 32)) (q mod 32 * 2 + b) =
                                Z.testbit (state_bits s) b).
    { intros b Hb. apply (f_equal (fun x => Z.testbit x (q mod 32 * 2 + b))) in E.
      rewrite !Z.land_spec, Hmask, <- Hd in E by lia.
      rewrite (proj2 (Z.leb_le _ _)), (proj2 (Z.ltb_lt _ _)), !andb_true_r in E by lia.
      rewrite E, pattern_bits by lia. f_equal.
      rewrite Z.add_comm, Z.mul_comm, (Z.mul_comm 2), Z.mod_add by lia. apply Z.mod_small; lia. }
    rewrite <- (Hbit 0), <- (Hbit 1), Z.add_0_r by lia. done.
  - intros Hq. apply Z.bits_inj'. intros n Hn. rewrite !Z.land_spec, Hmask by done.
    destruct ((page mod 32 * 2 <=? n) && _) eqn:E; [|by rewrite !andb_false_r]. rewrite !andb_true_r. bool_case.
    rewrite pattern_bits by lia.
    pose proof (Z.div_mod n 2 ltac:(lia)). pose proof (Z.mod_pos_bound n 2 ltac:(lia)).
    set (q := page / 32 * 32 + n / 2).
    assert (Hd : q / 32 = page / 32) by (symmetry; apply (Z.div_unique q 32 _ (n / 2)); lia).
    assert (Hm : q mod 32 = n / 2) by (symmetry; apply (Z.mod_unique q 32 (page / 32)); lia).
    destruct (proj1 (page_state_spec ws q s)) as [Hb0 Hb1]; [apply Hq; lia|].
    rewrite Hd, Hm in Hb0, Hb1.
    assert (n mod 2 = 0 \/ n mod 2 = 1) as [Eb|Eb] by lia; rewrite Eb.
    + rewrite <- Hb0. f_equal. lia.
    + rewrite <- Hb1. f_equal. lia.
Qed.

Lemma range_all_loop_spec fuel ws s page last :
  0 <= page -> (Z.to_nat (last - page) <= fuel)%nat ->
  range_all_loop fuel ws (state_pattern s) page last = true <->
  (forall q, page <= q < last -> page_state ws q = s).
Proof.
  revert page. induction fuel as [|fuel IH]; intros page Hp Hf; cbn [range_all_loop].
  { split; [intros _ q ?; lia|done]. }
  destruct (Z.ltb_spec page last); [|split; [intros _ q ?; lia|done]].
  pose proof (Z.mod_pos_bound page 32 ltac:(lia)).
  set (count := Z.min (32 - page mod 32) (last - page)).
  pose proof (masked_compare ws s page count Hp ltac:(lia)) as HM. cbv zeta in HM.
  destruct (Z.eqb_spec
    (Z.land (vget 0 ws (page / 32))
       (u64 (Z.shiftl (Z.shiftr UINT64_MAX ((32 - count) * 2)) (page mod 32 * 2))))
    (Z.land (state_pattern s)
       (u64 (Z.shiftl (Z.shiftr UINT64_MAX ((32 - count) * 2)) (page mod 32 * 2)))))
    as [E|E]; cbn [negb].
  - rewrite IH by lia. pose proof (proj1 HM E) as HE. split; intros Hq q ?.
    + destruct (Z.lt_ge_cases q (page + count)); [apply HE|apply Hq]; lia.
    + apply Hq; lia.
  - split; [done|]. intros Hq. destruct E. apply HM. intros; apply Hq; lia.
Qed.

(** The bounds of a range that does not wrap around. *)
Lemma last_page_small offset length :
  0 <= offset -> 0 < length -> offset + length <= 2 ^ 64 ->
  last_page_of offset length = (offset + length - 1) / kCacheBitmapUnit.
Proof. intros. unfold last_page_of. rewrite u64_small by lia. done. Qed.

Lemma range_all_state_spec ws offset length s :
  0 <= offset ->
  range_all_state ws offset length s = true <->
  length = 0 \/
  (forall q, first_page_of offset <= q <= last_page_of offset length -> page_state ws q = s).
Proof.
  intros. unfold range_all_state. destruct (Z.eqb_spec length 0) as [->|]; [tauto|].
  rewrite range_all_loop_spec; [|apply Z.div_pos; unfold kCacheBitmapUnit; lia|lia].
  split; [intros H'; right|intros [|H']]; try lia; intros; apply H'; lia.
Qed.

(** The pages of an object that [cache_mapping_size] reserves room for. *)
Lemma mapping_covers size n page :
  0 < size -> 0 <= page <= (size - 1) / kCacheBitmapUnit ->
  cache_mapping_size size kCacheBitmapUnit = Ok n ->
  page / 32 < (n - kCacheMetaHeaderSize) / 8.
Proof.
  intros Hs Hp. unfold cache_mapping_size, cache_bitmap_words.
  rewrite (proj2 (Z.eqb_neq size 0)) by lia.
  set (pages := (size - 1) / kCacheBitmapUnit + 1) in *.
  destruct (pages >? SIZE_MAX); [done|]. cbn [rbind].
  destruct ((pages + 31) / 32 >? _); [done|]. intros <-%Ok_inj.
  unfold kCacheMetaHeaderSize. rewrite Z.add_simpl_l, Z.div_mul by lia.
  apply Z.div_lt_upper_bound; [lia|]. unfold pages in *. clearbody pages.
  Z.to_euclidean_division_equations; lia.
Qed.

(** testing a range of pages word by word, 32 two-bit states at a time, gives the same
    answer as looking at each page of the range, for every state, every range that does not
    wrap around and every content of the bitmap. *)
Theorem range_all_state_pages words offset length state :
  0 <= offset -> 0 < length -> offset + length <= 2 ^ 64 ->
  range_all_state words offset length state =
  forallb (fun page => page_state_eqb (page_state words page) state)
    (zrange (offset / kCacheBitmapUnit) ((offset + length - 1) / kCacheBitmapUnit + 1)).
Proof.
  intros. apply eq_true_iff_eq. rewrite range_all_state_spec by done.
  rewrite last_page_small, forallb_forall by done. unfold first_page_of. split.
  - intros [|Hq] q Hin; [lia|]. apply list_elem_of_In, elem_of_zrange in Hin.
    apply page_state_eqb_spec, Hq. lia.
  - intros Hq. right. intros q ?. apply page_state_eqb_spec, Hq, list_elem_of_In, elem_of_zrange. lia.
Qed.

Lemma range_all_state_pages_witness :
  range_all_state [0xaaaaaaaaaaaaaaaa; 0xa] (31 * 32768) 65537 CACHE_PAGE_CLEAN =
  forallb (fun page => page_state_eqb (page_state [0xaaaaaaaaaaaaaaaa; 0xa] page) CACHE_PAGE_CLEAN)
    (zrange (31 * 32768 / kCacheBitmapUnit) ((31 * 32768 + 65537 - 1) / kCacheBitmapUnit + 1)).
Proof. apply range_all_state_pages; lia. Defined.
