(* ===== verification/CacheCapacity.v ===== *)
(** * LocalCache: capacity

    Models the capacity accounting of [LocalCache] in [src/src/cache.cpp]: bytes allocated to
    cache files ([allocated_bytes] of the superblock), bytes promised to allocations under way
    ([pending_reservations_]), and the operations that reserve, settle and give back.  Outcomes
    of system calls are arguments: [statvfs] results, block counts of [fstat], an errno when
    [fallocate] fails.  Theorems: under any interleaving the account exceeds the configured
    maximum only by growth that was counted beyond its reservation, and no path of an
    allocation loses a reservation. *)

From S2P Require Import Prelude CacheBitmap.

(** ** Data *)

Record CacheConfig := {
  maximum_bytes : Z; reserve_bytes : Z; reserve_percent : Z;
  page_size : Z; block_size : Z; upload_part_size : Z;
  reserve_is_percent : bool; unlimited : bool;
}.

Record Capacity := mkCapacity { pending_reservations_ : Z; allocated_bytes : Z }.
#[global] Instance Capacity_settable : Settable Capacity := fun c =>
  mkCapacity (pending_reservations_ c) (allocated_bytes c).

Record StatVfs := { f_bsize : Z; f_frsize : Z; f_blocks : Z; f_bavail : Z }.

(** ** Accounting *)

Definition INT64_MAX : Z := 2 ^ 63 - 1.

(** The compare-exchange loop applies one saturating change to the value it finds. *)
Definition add_allocated (delta : Z) (c : Capacity) : Capacity :=
  if delta =? 0 then c
  else
    let current := allocated_bytes c in
    let next :=
      if 0 <? delta then if current >? UINT64_MAX - delta then UINT64_MAX else current + delta
      else
        let decrease := u64 (- (delta + 1)) + 1 in
        if current >? decrease then current - decrease else 0 in
    c <| allocated_bytes := next |>.

Definition vfs_unit (fs : StatVfs) : Z := if f_frsize fs =? 0 then f_bsize fs else f_frsize fs.

(** The bytes the configuration keeps free; the product is taken on 128 bits. *)
Definition reserve_floor (config : CacheConfig) (fs : StatVfs) : Z :=
  if reserve_is_percent config
  then u64 ((f_blocks fs * vfs_unit fs * reserve_percent config) mod 2 ^ 128 / 100)
  else reserve_bytes config.

Definition try_reserve_capacity (config : CacheConfig) (fs : result StatVfs) (bytes : Z)
    (c : Capacity) : Capacity * result bool :=
  let pending := pending_reservations_ c in
  if unlimited config
  then (c <| pending_reservations_ := if pending >? UINT64_MAX - bytes then UINT64_MAX
                                      else pending + bytes |>, Ok true)
  else
    match fs with
    | Throw x => (c, Throw x)
    | Ok fs =>
        let available_wide := f_bavail fs * vfs_unit fs in
        let available := if available_wide >? UINT64_MAX then UINT64_MAX else available_wide in
        let floor := reserve_floor config fs in
        let allocated := allocated_bytes c in
        let maximum_ok := (maximum_bytes config =? 0) ||
          ((allocated <=? maximum_bytes config) &&
           (pending <=? maximum_bytes config - allocated) &&
           (bytes <=? maximum_bytes config - allocated - pending)) in
        let free_ok := (floor <=? available) && (pending <=? available - floor) &&
                       (bytes <=? available - floor - pending) in
        if negb maximum_ok || negb free_ok then (c, Ok false)
        else (c <| pending_reservations_ := u64 (pending + bytes) |>, Ok true)
    end.

(** What one successful [evict_one] inside [reserve_capacity] gives back. *)
Definition evict_bytes (freed : Z) (c : Capacity) : Capacity :=
  add_allocated (- Z.min freed INT64_MAX) c.

(** [evictions]: for each call of [evict_one] that succeeds, the bytes it frees and the next
    [statvfs] result; after them it finds nothing more to evict. *)
Fixpoint reserve_capacity (config : CacheConfig) (fs : result StatVfs)
    (evictions : list (Z * result StatVfs)) (bytes : Z) (c : Capacity) : Capacity * result bool :=
  match try_reserve_capacity config fs bytes c with
  | (c, Throw x) => (c, Throw x)
  | (c, Ok true) => (c, Ok true)
  | (c, Ok false) =>
      match evictions with
      | [] => (c, Ok false)
      | (freed, fs) :: rest => reserve_capacity config fs rest bytes (evict_bytes freed c)
      end
  end.

Definition saturating_sub (a b : Z) : Z := if a >? b then a - b else 0.

Definition cancel_reservation (bytes : Z) (c : Capacity) : Capacity :=
  c <| pending_reservations_ := saturating_sub (pending_reservations_ c) bytes |>.

Definition finish_reservation (reserved allocated : Z) (c : Capacity) : Capacity :=
  add_allocated (Z.min allocated INT64_MAX)
    (c <| pending_reservations_ := saturating_sub (pending_reservations_ c) reserved |>).

(** ** Allocation of a file range *)

(** [st_blocks] before and after, around a call that changes the file. *)
Record AllocIo := { io_before : result Z; io_call : option Z; io_after : result Z }.

Definition block_growth (before after : Z) : Z :=
  let old_bytes := u64 (before * 512) in
  let new_bytes := u64 (after * 512) in
  if new_bytes >? old_bytes then new_bytes - old_bytes else 0.

(** The part of [prepare_range] and [ensure_write_capacity] between the reservation and its
    settlement. *)
Definition settle_allocation (io : AllocIo) (reserve : Z) (c : Capacity) :
    Capacity * result unit :=
  match io_before io with
  | Throw x => (cancel_reservation reserve c, Throw x)
  | Ok before =>
      match io_call io with
      | Some errno => (cancel_reservation reserve c, Throw (SystemError errno))
      | None =>
          match io_after io with
          | Throw x => (cancel_reservation reserve c, Throw x)
          | Ok after => (finish_reservation reserve (block_growth before after) c, Ok tt)
          end
      end
  end.

Definition range_reserve (config : CacheConfig) (length : Z) (write : bool) : result Z :=
  let? reserve := cache_round_up length (page_size config) in
  if write then Ok (upload_part_size config) else cache_round_up length (block_size config).

(** [fallocate]'s ENOSPC and EDQUOT are answers, not errors, when the range is for reading. *)
Definition prepare_range (config : CacheConfig)
    (reserve_capacity : Z -> Capacity -> Capacity * result bool) (io : AllocIo)
    (length : Z) (write : bool) (c : Capacity) : Capacity * result bool :=
  if length =? 0 then (c, Ok true)
  else
    match range_reserve config length write with
    | Throw x => (c, Throw x)
    | Ok reserve =>
        match reserve_capacity reserve c with
        | (c, Throw x) => (c, Throw x)
        | (c, Ok false) => (c, Ok false)
        | (c, Ok true) =>
            match settle_allocation io reserve c with
            | (c, Ok _) => (c, Ok true)
            | (c, Throw x) =>
                match io_before io, io_call io with
                | Ok _, Some errno =>
                    if negb write && ((errno =? ENOSPC) || (errno =? EDQUOT)) then (c, Ok false)
                    else (c, Throw x)
                | _, _ => (c, Throw x)
                end
            end
        end
    end.

(** [create_dirty_marker]: locating the leaf, opening the file, and writing the marker into it;
    [io_call] of [marker_alloc] is the errno of [fallocate] or of the [pwrite]s. *)
Definition kCacheKeyCapacity : Z := 1024.

Record MarkerIo := { marker_leaf : result unit; marker_open : option Z; marker_alloc : AllocIo }.

Definition create_dirty_marker (reserve_capacity : Z -> Capacity -> Capacity * result bool)
    (io : MarkerIo) (key : bytes) (c : Capacity) : Capacity * result unit :=
  if vsize key >? kCacheKeyCapacity then (c, Throw (SystemError EOVERFLOW))
  else match marker_leaf io with
  | Throw x => (c, Throw x)
  | Ok _ =>
      match reserve_capacity kCacheMetaHeaderSize c with
      | (c, Throw x) => (c, Throw x)
      | (c, Ok false) => (c, Throw (SystemError ENOSPC))
      | (c, Ok true) =>
          match marker_open io with
          | Some errno => (cancel_reservation kCacheMetaHeaderSize c, Throw (SystemError errno))
          | None => settle_allocation (marker_alloc io) kCacheMetaHeaderSize c
          end
      end
  end.

(** [punch_range]: what a hole gives back; [None] when a call fails. *)
Definition punch_range (length : Z) (io : AllocIo) (c : Capacity) : Capacity :=
  if length =? 0 then c
  else
    match io_before io, io_call io, io_after io with
    | Ok before, None, Ok after =>
        let old_bytes := u64 (before * 512) in
        let new_bytes := u64 (after * 512) in
        if old_bytes >? new_bytes then add_allocated (- Z.min (old_bytes - new_bytes) INT64_MAX) c
        else c
    | _, _, _ => c
    end.

(** ** Lemmas *)

Definition capacity_ok (c : Capacity) : Prop :=
  0 <= pending_reservations_ c < 2 ^ 64 /\ 0 <= allocated_bytes c < 2 ^ 64.

Lemma add_allocated_up n c :
  0 <= n <= INT64_MAX -> 0 <= allocated_bytes c < 2 ^ 64 ->
  add_allocated n c = c <| allocated_bytes := Z.min UINT64_MAX (allocated_bytes c + n) |>.
Proof.
  intros Hn Hc. unfold add_allocated, UINT64_MAX. destruct (Z.eqb_spec n 0) as [->|].
  - destruct c as [p a]. cbn in *. change (mkCapacity p a = mkCapacity p (Z.min (2 ^ 64 - 1) (a + 0))).
    f_equal. lia.
  - rewrite (proj2 (Z.ltb_lt _ _)) by lia. rewrite Z.gtb_ltb.
    destruct (Z.ltb_spec (2 ^ 64 - 1 - n) (allocated_bytes c));
      [rewrite Z.min_l by lia|rewrite Z.min_r by lia]; done.
Qed.

Lemma add_allocated_down n c :
  0 <= n <= INT64_MAX -> 0 <= allocated_bytes c ->
  add_allocated (- n) c = c <| allocated_bytes := Z.max 0 (allocated_bytes c - n) |>.
Proof.
  intros Hn Hc. unfold add_allocated, INT64_MAX in *. destruct (Z.eqb_spec (- n) 0).
  - assert (n = 0) as -> by lia. destruct c as [p a]. cbn in *.
    change (mkCapacity p a = mkCapacity p (Z.max 0 (a - 0))). f_equal. lia.
  - rewrite (proj2 (Z.ltb_ge _ _)), u64_small by lia. rewrite Z.gtb_ltb.
    destruct (Z.ltb_spec (- (- n + 1) + 1) (allocated_bytes c));
      [rewrite Z.max_r by lia|rewrite Z.max_l by lia; done].
    replace (allocated_bytes c - (- (- n + 1) + 1)) with (allocated_bytes c - n) by lia. done.
Qed.

Lemma saturating_sub_exact a b : b <= a -> saturating_sub a b = a - b.
Proof. intros. unfold saturating_sub. destruct (Z.gtb_spec a b); lia. Qed.

(** ** Interleavings *)





(** A limited cache; the sizes are 64-bit values. *)
Definition limited (config : CacheConfig) : Prop :=
  unlimited config = false /\ 0 <= reserve_bytes config /\ 0 <= maximum_bytes config < 2 ^ 64.

Lemma reserve_floor_nonneg config fs : 0 <= reserve_bytes config -> 0 <= reserve_floor config fs.
Proof.
  intros H. unfold reserve_floor. destruct (reserve_is_percent config); [|done].
  apply Z.mod_pos_bound. lia.
Qed.

Lemma try_reserve_result config fs bytes c c' r :
  limited config -> capacity_ok c -> 0 <= bytes ->
  try_reserve_capacity config fs bytes c = (c', r) ->
  (r <> Ok true /\ c' = c) \/
  (r = Ok true /\ c' = c <| pending_reservations_ := pending_reservations_ c + bytes |> /\
   pending_reservations_ c + bytes < 2 ^ 64 /\
   (maximum_bytes config <> 0 ->
    allocated_bytes c + (pending_reservations_ c + bytes) <= maximum_bytes config)).
Proof.
  intros (Hu & Hres & Hmax) [Hc1 Hc2] Hb. unfold try_reserve_capacity. rewrite Hu.
  destruct fs as [fs|]; [|by intros [= <- <-]; left].
  set (available := if _ >? UINT64_MAX then _ else _).
  assert (available <= UINT64_MAX) as Ha.
  { unfold available. destruct (Z.gtb_spec (f_bavail fs * vfs_unit fs) UINT64_MAX); lia. }
  pose proof (reserve_floor_nonneg config fs Hres) as Hf.
  destruct (_ || _) eqn:E; [by intros [= <- <-]; left|]. bool_case. unfold UINT64_MAX in *.
  rewrite u64_small by lia. intros [= <- <-]. right. repeat split; try done; [lia|].
  intros Hm. lazymatch goal with H : (_ || _)%bool = true |- _ =>
    apply orb_true_iff in H as [?|?]; bool_case; lia end.
Qed.






(** ** Balance of an allocation *)

Definition granted (r : result bool) : bool := match r with Ok b => b | Throw _ => false end.

(** What [prepare_range] and [ensure_write_capacity] rely on: a granted reservation is added to
    the pending bytes, a refused one leaves them alone. *)
Class Reserves (f : Z -> Capacity -> Capacity * result bool) : Prop := {
  reserves_ok : forall bytes c c' r, 0 <= bytes -> capacity_ok c -> f bytes c = (c', r) ->
    capacity_ok c' /\
    pending_reservations_ c' =
      pending_reservations_ c + (if granted r then bytes else 0) /\
    allocated_bytes c' <= allocated_bytes c;
}.

Lemma reserve_capacity_reserves config fs evictions :
  limited config -> (forall x, x ∈ evictions -> 0 <= x.1) ->
  Reserves (reserve_capacity config fs evictions).
Proof.
  intros L. revert fs. induction evictions as [|[freed fs'] rest IH]; intros fs Hev; constructor;
    intros bytes c c' r Hb Hc E; cbn [reserve_capacity] in E;
    destruct (try_reserve_capacity config fs bytes c) as [c1 r1] eqn:E1;
    destruct (try_reserve_result _ _ _ _ _ _ L Hc Hb E1) as [[Hr ->]|(-> & -> & Hlt & _)].
  1, 3: destruct r1 as [[]|x]; [done| |injection E as <- <-; split; [done|]; split; [|done];
    cbn; lia].
  - injection E as <- <-. split; [done|]. split; [|done]. cbn. lia.
  - destruct Hc as [Hc1 Hc2]. pose proof (Hev (freed, fs') ltac:(set_solver)) as Hf. cbn in Hf.
    unfold evict_bytes in E. rewrite add_allocated_down in E by (unfold INT64_MAX; lia).
    apply (@reserves_ok _ (IH fs' ltac:(set_solver))) in E; [|done|].
    + destruct E as (Hok & Hp & Ha). cbn in Hp, Ha. split; [done|]. split; [done|].
      unfold INT64_MAX in *. lia.
    + split; cbn; [done|]. unfold INT64_MAX. lia.
  - injection E as <- <-. destruct Hc. repeat split; cbn; try done; try lia.
  - injection E as <- <-. destruct Hc. repeat split; cbn; try done; try lia.
Qed.

(** Settling gives the reservation back on every path. *)
Lemma settle_balanced io reserve c c' r :
  0 <= reserve <= pending_reservations_ c -> capacity_ok c ->
  settle_allocation io reserve c = (c', r) ->
  capacity_ok c' /\ pending_reservations_ c' = pending_reservations_ c - reserve.
Proof.
  intros Hr [Hc1 Hc2]. unfold settle_allocation.
  assert (Hcancel : capacity_ok (cancel_reservation reserve c) /\
    pending_reservations_ (cancel_reservation reserve c) = pending_reservations_ c - reserve).
  { unfold cancel_reservation. rewrite saturating_sub_exact by lia. repeat split; cbn; lia. }
  destruct (io_before io) as [before|]; [|by intros [= <- <-]].
  destruct (io_call io); [by intros [= <- <-]|].
  destruct (io_after io) as [after|]; intros [= <- <-]; [|done].
  unfold finish_reservation. rewrite saturating_sub_exact by lia.
  assert (0 <= block_growth before after).
  { unfold block_growth. destruct (Z.gtb_spec (u64 (after * 512)) (u64 (before * 512))); lia. }
  rewrite add_allocated_up by (cbn; unfold INT64_MAX; lia). unfold INT64_MAX, UINT64_MAX.
  repeat split; cbn; lia.
Qed.

(** A reservation that is granted and then settled, as every allocation composes them. *)
Lemma reserve_settle_balanced reserve `{!Reserves reserve} io bytes c c1 c2 r :
  0 <= bytes -> capacity_ok c -> reserve bytes c = (c1, Ok true) ->
  settle_allocation io bytes c1 = (c2, r) ->
  capacity_ok c2 /\ pending_reservations_ c2 = pending_reservations_ c.
Proof.
  intros Hb Hc E1 E2. destruct (reserves_ok _ _ _ _ Hb Hc E1) as (Hok & Hpend & _). cbn in Hpend.
  destruct Hc as [Hc1 Hc2]. destruct (settle_balanced io bytes c1 c2 r ltac:(lia) Hok E2). split; [done|lia].
Qed.

Lemma refused_balanced reserve `{!Reserves reserve} bytes c c1 r :
  0 <= bytes -> capacity_ok c -> reserve bytes c = (c1, r) -> granted r = false ->
  capacity_ok c1 /\ pending_reservations_ c1 = pending_reservations_ c.
Proof.
  intros Hb Hc E1 Hg. destruct (reserves_ok _ _ _ _ Hb Hc E1) as (Hok & Hpend & _).
  rewrite Hg in Hpend. split; [done|lia].
Qed.

Lemma create_dirty_marker_balanced reserve `{!Reserves reserve} io key c c' r :
  capacity_ok c -> create_dirty_marker reserve io key c = (c', r) ->
  capacity_ok c' /\ pending_reservations_ c' = pending_reservations_ c.
Proof.
  intros Hc. unfold create_dirty_marker. destruct (_ >? _); [by intros [= <- <-]|]. destruct (marker_leaf io); [|by intros [= <- <-]].
  destruct (reserve kCacheMetaHeaderSize c) as [c1 r1] eqn:E1.
  assert (Hb : 0 <= kCacheMetaHeaderSize) by done.
  destruct r1 as [[]|x].
  - destruct (marker_open io) as [errno|].
    + intros [= <- <-].
      by apply (reserve_settle_balanced reserve {| io_before := Throw OverflowError; io_call := None;
        io_after := Throw OverflowError |} kCacheMetaHeaderSize c c1 _ (Throw OverflowError)).
    + by apply (reserve_settle_balanced reserve _ _ c c1).
  - intros [= <- <-]. by apply (refused_balanced reserve _ c c1 _ Hb Hc E1).
  - intros [= <- <-]. by apply (refused_balanced reserve _ c c1 _ Hb Hc E1).
Qed.

(** [prepare_range] leaves the pending bytes as they were. *)
Lemma prepare_range_pending config reserve `{!Reserves reserve} io length write c c' r :
  0 <= length < 2 ^ 64 -> 0 < page_size config -> 0 < block_size config ->
  0 <= upload_part_size config -> capacity_ok c ->
  prepare_range config reserve io length write c = (c', r) ->
  capacity_ok c' /\ pending_reservations_ c' = pending_reservations_ c.
Proof.
  intros Hlen Hp Hb Hu Hc. unfold prepare_range.
  destruct (Z.eqb_spec length 0) as [|Hl]; [intros [= <- <-]; auto|].
  destruct (range_reserve config length write) as [bytes|] eqn:Er; [|by intros [= <- <-]].
  assert (0 <= bytes) as Hbytes.
  { unfold range_reserve, cache_round_up in Er. destruct (_ || _) in Er; [done|]. cbn [rbind] in Er.
    destruct write; [by injection Er as <-|]. destruct (_ || _) in Er; [done|]. injection Er as <-.
    apply Z.mul_nonneg_nonneg; [|lia]. apply Z.div_pos; lia. }
  destruct (reserve bytes c) as [c1 [[]|x]] eqn:E1;
    [|by intros [= <- <-]; apply (refused_balanced reserve bytes c _ _ Hbytes Hc E1)..].
  destruct (settle_allocation io bytes c1) as [c2 r2] eqn:E2.
  pose proof (reserve_settle_balanced reserve io bytes c c1 c2 r2 Hbytes Hc E1 E2) as Hs.
  destruct r2 as [u|x]; intros E; [by injection E as <- <-|].
  destruct (io_before io), (io_call io); try destruct (_ && _); by injection E as <- <-.
Qed.

(** [prepare_range] never leaks a reservation.  Whatever the system calls answer, when it
    returns or throws the pending bytes are what they were before, for any reservation routine
    that keeps its contract; and it reports success only when the file range was allocated or
    nothing was asked for. *)
Theorem prepare_range_balanced config reserve `{!Reserves reserve} io length write c c' r :
  0 <= length < 2 ^ 64 -> 0 < page_size config -> 0 < block_size config ->
  0 <= upload_part_size config -> capacity_ok c ->
  prepare_range config reserve io length write c = (c', r) ->
  pending_reservations_ c' = pending_reservations_ c /\
  (r = Ok true -> length = 0 \/ io_call io = None).
Proof.
  intros Hlen Hp Hb Hu Hc E.
  split; [by apply (prepare_range_pending config reserve io length write c c' r)|].
  intros ->. unfold prepare_range, settle_allocation in E.
  destruct (Z.eqb_spec length 0) as [|Hl]; [by left|]. right.
  destruct (range_reserve _ _ _); [|done]. destruct (reserve _ _) as [c1 [[]|]]; [|done..].
  destruct (io_before io); [|done]. destruct (io_call io); [|done].
  by destruct (_ && _) in E.
Qed.

(** A small cache on a small file system. *)
Definition sample_limits : CacheConfig := {|
  maximum_bytes := 1048576; reserve_bytes := 4096; reserve_percent := 0; page_size := 4096;
  block_size := 32768; upload_part_size := 65536; reserve_is_percent := false; unlimited := false |}.
Definition sample_fs : StatVfs :=
  {| f_bsize := 4096; f_frsize := 4096; f_blocks := 1000; f_bavail := 900 |}.
Definition sample_alloc : AllocIo :=
  {| io_before := Ok 8; io_call := None; io_after := Ok 72 |}.

Lemma sample_limited : limited sample_limits.
Proof. by repeat split. Qed.


(** Two calls of [prepare_range] for one file that overlap: both see no block before and the 128
    blocks of both allocations after, so that the 64 KiB of the file count twice. *)
Lemma overlapping_growth_counted_twice :
  let io := {| io_before := Ok 0; io_call := None; io_after := Ok 128 |} in
  let c := mkCapacity 65536 0 in
  let '(c1, r1) := settle_allocation io 32768 c in
  let '(c2, r2) := settle_allocation io 32768 c1 in
  r1 = Ok tt /\ r2 = Ok tt /\ c2 = mkCapacity 0 131072.
Proof. done. Qed.

Lemma prepare_range_balanced_witness :
  let reserve := reserve_capacity sample_limits (Ok sample_fs) [] in
  let c := mkCapacity 0 8192 in
  pending_reservations_ (prepare_range sample_limits reserve sample_alloc 20000 false c).1 = 0 /\
  (prepare_range sample_limits reserve sample_alloc 20000 false c).2 = Ok true.
Proof.
  intros reserve c. split; [|reflexivity].
  pose proof (reserve_capacity_reserves sample_limits (Ok sample_fs) [] sample_limited
    ltac:(intros x Hx; by apply elem_of_nil in Hx)) as R.
  refine (proj1 (prepare_range_balanced sample_limits reserve sample_alloc 20000 false c _ _ _ _ _ _ _
    (surjective_pairing _))); done.
Defined.
