(* ===== verification/CacheEntry.v ===== *)
(** * CacheEntry

    Models [CacheEntry] of [src/src/cache.hpp] and [src/src/cache.cpp]: one cached object
    generation, with its page bitmap, the fetches that own unpublished pages, region pins,
    checksum verification, retirement and eviction.  Members keep their names; every function
    is one critical section of [mutex_], and a function that releases the mutex in between is
    split there.

    System calls appear through their outcomes, which are arguments: an [option Z] of an
    eventfd creation or [fstat] is the errno or the block count it gives.  Waiting threads are
    counted by [waiters_], and [wait_fd_] is the counter of the semaphore eventfd, if it was
    created.  [punched_] records the ranges the entry asked [LocalCache::punch_range] or
    [fallocate] to free in its data file, newest first. *)

From S2P Require Import Prelude CacheBitmap CacheCapacity.

(** ** Data *)

(** The members of the metadata header that change while an entry is open.  An array with its
    length is the list of the bytes in use. *)
Record CacheMetaHeader := mkCacheMetaHeader {
  flags : Z; object_size : Z; mtime : Z; written_end : Z;
  etag : bytes; version_id : bytes; upload_id : bytes;
  header_part_size : Z; write_phase : Z;
}.
#[global] Instance CacheMetaHeader_settable : Settable CacheMetaHeader := fun h =>
  mkCacheMetaHeader (flags h) (object_size h) (mtime h) (written_end h) (etag h) (version_id h)
    (upload_id h) (header_part_size h) (write_phase h).

Definition kCacheMetaDirty : Z := 1.
Definition kCacheMetaExported : Z := 2.
Definition has_flag (f mask : Z) : bool := negb (Z.land f mask =? 0).

Definition kChecksumUnknown : Z := 0.
Definition kChecksumLoading : Z := 1.
Definition kChecksumAvailable : Z := 2.
Definition kChecksumUnavailable : Z := 3.
Definition kPartUnverified : Z := 0.
Definition kPartVerifying : Z := 1.
Definition kPartRetrying : Z := 2.
Definition kPartVerified : Z := 3.
Definition kPartBad : Z := 4.

Definition kCacheEtagCapacity : Z := 512.
Definition kCacheVersionCapacity : Z := 1024.
Definition kCacheUploadIdCapacity : Z := 1024.

Record CacheIdentity := {
  id_key : bytes; id_etag : bytes; id_version_id : bytes; id_size : Z; id_mtime : Z;
}.

(** A claim with [claim_length = 0] is the empty one that [claim_fetch] returns when there is
    nothing to fetch. *)
Record CacheFetchClaim := {
  claim_offset : Z; claim_epoch : Z; claim_id : Z; claim_length : Z;
}.
Definition no_claim : CacheFetchClaim :=
  {| claim_offset := 0; claim_epoch := 0; claim_id := 0; claim_length := 0 |}.

Record ActiveFetch := mkActiveFetch {
  fetch_id : Z; fetch_epoch : Z; fetch_offset : Z; fetch_length : Z;
  published : Z; verifying : bool; retrying : bool; prior_states : list CachePageState;
}.
#[global] Instance ActiveFetch_settable : Settable ActiveFetch := fun a =>
  mkActiveFetch (fetch_id a) (fetch_epoch a) (fetch_offset a) (fetch_length a)
    (published a) (verifying a) (retrying a) (prior_states a).

Record CacheChecksumPart := {
  part_offset : Z; part_size : Z; part_algorithm : Z; part_value : bytes;
}.

Inductive CacheChecksumAction :=
  | CACHE_CHECKSUM_NONE
  | CACHE_CHECKSUM_WAIT
  | CACHE_CHECKSUM_VERIFY
  | CACHE_CHECKSUM_BAD.

Record CacheChecksumClaim := {
  cc_action : CacheChecksumAction; cc_offset : Z; cc_size : Z; cc_epoch : Z; cc_part : Z;
  cc_algorithm : Z; cc_value : bytes;
}.
Definition checksum_claim (action : CacheChecksumAction) : CacheChecksumClaim :=
  {| cc_action := action; cc_offset := 0; cc_size := 0; cc_epoch := 0; cc_part := 0;
     cc_algorithm := 0; cc_value := [] |}.

(** [dirty_fd_] says whether the dirty marker's descriptor is open. *)
Record CacheEntry := mkCacheEntry {
  key_ : bytes; header_ : CacheMetaHeader; words_ : list Z; size_ : Z; epoch_ : Z;
  block_size_ : Z; page_count_ : Z; dirty_fd_ : bool; wait_fd_ : option Z; waiters_ : Z;
  referenced_ : list Z; region_pins_ : list Z; active_claims_ : list ActiveFetch;
  reserved_units_ : list Z; checksum_parts_ : list CacheChecksumPart;
  checksum_states_ : list Z; next_claim_id_ : Z; clock_hand_ : Z; checksum_ops_ : Z;
  pinned_regions_ : Z; checksum_manifest_ : Z; eviction_disabled_ : bool; detached_ : bool;
  stale_ : bool; punched_ : list (Z * Z);
}.
#[global] Instance CacheEntry_settable : Settable CacheEntry := fun e =>
  mkCacheEntry (key_ e) (header_ e) (words_ e) (size_ e) (epoch_ e) (block_size_ e)
    (page_count_ e) (dirty_fd_ e) (wait_fd_ e) (waiters_ e) (referenced_ e) (region_pins_ e)
    (active_claims_ e) (reserved_units_ e) (checksum_parts_ e) (checksum_states_ e)
    (next_claim_id_ e) (clock_hand_ e) (checksum_ops_ e) (pinned_regions_ e)
    (checksum_manifest_ e) (eviction_disabled_ e) (detached_ e) (stale_ e) (punched_ e).

(** [mapping_size_]: the header and the bitmap words that are mapped. *)
Definition mapping_size_ (e : CacheEntry) : Z := kCacheMetaHeaderSize + vsize (words_ e) * 8.

Definition is_dirty (e : CacheEntry) : bool := has_flag (flags (header_ e)) kCacheMetaDirty.
Definition is_exported (e : CacheEntry) : bool := has_flag (flags (header_ e)) kCacheMetaExported.
Definition dirty_or_exported (e : CacheEntry) : bool :=
  has_flag (flags (header_ e)) (Z.lor kCacheMetaDirty kCacheMetaExported).

Definition state_at (e : CacheEntry) (page : Z) : CachePageState := page_state (words_ e) page.

(** ** Blocks *)

Definition block_first_page (e : CacheEntry) (offset : Z) : Z :=
  (offset / block_size_ e * block_size_ e) / kCacheBitmapUnit.

Definition block_last_page (e : CacheEntry) (offset : Z) : Z :=
  let first := offset / block_size_ e * block_size_ e in
  let last := Z.min (size_ e) (u64 (first + block_size_ e)) in
  if last =? 0 then 0 else Z.min (page_count_ e) ((last - 1) / kCacheBitmapUnit + 1).

Definition block_pages (e : CacheEntry) (offset : Z) : list Z :=
  zrange (block_first_page e offset) (block_last_page e offset).

(** The pages of a whole claim, as [mark_bad] and [begin_retry_locked] clip them. *)
Definition claim_end_page (e : CacheEntry) (c : CacheFetchClaim) : Z :=
  Z.min (page_count_ e) (last_page_of (claim_offset c) (claim_length c) + 1).

(** ** Construction

    [PENDING -> MISSING] is what becomes of a fetch that a previous process left behind. *)

Definition pending_to (s : CachePageState) (x : CachePageState) : option CachePageState :=
  if page_state_eqb x CACHE_PAGE_READ_PENDING then Some s else None.

Definition add_punch (offset length : Z) (e : CacheEntry) : CacheEntry :=
  e <| punched_ := (offset, length) :: punched_ e |>.

Definition recover_block (punch_missing : bool) (e : CacheEntry) (block : Z) : CacheEntry :=
  let offset := block * block_size_ e in
  let pages := block_pages e offset in
  let '(words, had_pending) := update_pages (pending_to CACHE_PAGE_MISSING) (words_ e) pages in
  let all_missing := had_pending &&
    forallb (fun page => page_state_eqb (page_state words page) CACHE_PAGE_MISSING) pages in
  let e := e <| words_ := words |> in
  if punch_missing && all_missing && negb (is_exported e)
  then add_punch offset (block_size_ e) e else e.

Definition make_CacheEntry (config : CacheConfig) (key : bytes) (dirty_fd : bool)
    (header : CacheMetaHeader) (words : list Z) (epoch size : Z) (punch_missing : bool) :
    CacheEntry :=
  let page_count := if size =? 0 then 0 else (size - 1) / kCacheBitmapUnit + 1 in
  let regions := if size =? 0 then 0 else (size - 1) / block_size config + 1 in
  let e := {|
    key_ := key; header_ := header; words_ := words; size_ := size; epoch_ := epoch;
    block_size_ := block_size config; page_count_ := page_count; dirty_fd_ := dirty_fd;
    wait_fd_ := None; waiters_ := 0;
    referenced_ := replicate (Z.to_nat regions) 0;
    region_pins_ := replicate (Z.to_nat regions) 0;
    active_claims_ := []; reserved_units_ := []; checksum_parts_ := []; checksum_states_ := [];
    next_claim_id_ := 1; clock_hand_ := 0; checksum_ops_ := 0; pinned_regions_ := 0;
    checksum_manifest_ := kChecksumUnknown;
    eviction_disabled_ := has_flag (flags header) kCacheMetaExported;
    detached_ := false; stale_ := false; punched_ := [] |} in
  fold_left (recover_block punch_missing) (zrange 0 (vsize (referenced_ e))) e.

(** ** Queries *)

Definition range_clean (e : CacheEntry) (offset length : Z) : bool :=
  negb (stale_ e) && range_all_state (words_ e) offset length CACHE_PAGE_CLEAN.

Definition range_available_or_pending (e : CacheEntry) (offset length : Z) : bool :=
  if stale_ e || (length =? 0) || (size_ e <=? offset) then false
  else
    let length := Z.min length (size_ e - offset) in
    forallb (fun page =>
        page_state_eqb (state_at e page) CACHE_PAGE_CLEAN ||
        page_state_eqb (state_at e page) CACHE_PAGE_READ_PENDING)
      (zrange (first_page_of offset) (last_page_of offset length + 1)).

Definition range_bad (e : CacheEntry) (offset length : Z) : bool :=
  if stale_ e then false else range_has_state (words_ e) offset length CACHE_PAGE_BAD.

Definition whole_object_clean (e : CacheEntry) : bool :=
  range_all_state (words_ e) 0 (Z.min (size_ e) SIZE_MAX) CACHE_PAGE_CLEAN.

Definition fully_clean (e : CacheEntry) : bool :=
  negb (stale_ e) && negb (is_dirty e) && whole_object_clean e.

(** [try_export]: an exported generation is immutable and never evicted. *)
Definition try_export (config : CacheConfig) (verify : bool) (e : CacheEntry) :
    CacheEntry * bool :=
  if negb (unlimited config) || stale_ e || detached_ e || is_dirty e ||
     negb (Nat.eqb (length (active_claims_ e)) 0) || negb (checksum_ops_ e =? 0) ||
     negb (pinned_regions_ e =? 0) ||
     existsb (fun s => s =? kPartBad) (checksum_states_ e) || negb (whole_object_clean e)
  then (e, false)
  else if verify &&
    (negb (checksum_manifest_ e =? kChecksumAvailable) ||
     (negb (size_ e =? 0) && Nat.eqb (length (checksum_parts_ e)) 0) ||
     negb (Nat.eqb (length (checksum_states_ e)) (length (checksum_parts_ e))) ||
     existsb (fun s => s =? kPartUnverified) (checksum_states_ e) ||
     existsb (fun s => negb (s =? kPartVerified)) (checksum_states_ e))
  then (e, false)
  else
    let header := header_ e in
    let header := if negb (is_exported e)
                  then header <| flags := Z.lor (flags header) kCacheMetaExported |> else header in
    (e <| header_ := header |> <| eviction_disabled_ := true |>, true).

(** ** Waiters *)

Definition notify_waiters_locked (e : CacheEntry) : CacheEntry :=
  match wait_fd_ e with
  | None => e
  | Some n => if waiters_ e =? 0 then e else e <| wait_fd_ := Some (n + waiters_ e) |>
  end.

(** Creates the eventfd when it does not exist ([eventfd] is its errno, if it fails) and
    registers a waiter. *)
Definition register_waiter (eventfd : option Z) (e : CacheEntry) : CacheEntry * result bool :=
  match wait_fd_ e, eventfd with
  | None, Some errno => (e, Throw (SystemError errno))
  | None, None => (e <| wait_fd_ := Some 0 |> <| waiters_ := u32 (waiters_ e + 1) |>, Ok true)
  | Some _, _ => (e <| waiters_ := u32 (waiters_ e + 1) |>, Ok true)
  end.

(** [end_async_wait]; [None] is its [abort]. *)
Definition end_async_wait (e : CacheEntry) : option CacheEntry :=
  if waiters_ e =? 0 then None else Some (e <| waiters_ := waiters_ e - 1 |>).

(** A waiter's read of the eventfd; [None] while it would block. *)
Definition read_event (e : CacheEntry) : option CacheEntry :=
  match wait_fd_ e with
  | Some n => if 0 <? n then Some (e <| wait_fd_ := Some (n - 1) |>) else None
  | None => None
  end.

(** ** Pins *)

(** The regions of a non-empty range, clipped to the vector. *)
Definition first_region (e : CacheEntry) (offset : Z) : Z := offset / block_size_ e.
Definition last_region (e : CacheEntry) (offset length : Z) : Z :=
  u64 (offset + length - 1) / block_size_ e + 1.
Definition clipped_region (e : CacheEntry) (offset length : Z) : Z :=
  Z.min (vsize (region_pins_ e)) (last_region e offset length).

Definition pins_full (pins : list Z) (regions : list Z) : bool :=
  existsb (fun r => vget 0 pins r =? UINT32_MAX) regions.

Definition bump_pins (pins : list Z) (regions : list Z) : list Z :=
  fold_left (fun pins r => vset pins r (vget 0 pins r + 1)) regions pins.

(** The decrementing loops: the vector, [pinned_regions_], and whether any count changed. *)
Fixpoint drop_pins (pins : list Z) (pinned : Z) (regions : list Z) : list Z * Z * bool :=
  match regions with
  | [] => (pins, pinned, false)
  | r :: rest =>
      if vget 0 pins r =? 0 then drop_pins pins pinned rest
      else
        let '(pins, pinned, _) :=
          drop_pins (vset pins r (vget 0 pins r - 1)) (u64 (pinned - 1)) rest in
        (pins, pinned, true)
  end.

Definition mark_referenced (e : CacheEntry) (regions : list Z) : CacheEntry :=
  e <| referenced_ := fold_left (fun l r => vset l r 1) regions (referenced_ e) |>.

Definition add_pins (e : CacheEntry) (first last : Z) : CacheEntry :=
  e <| region_pins_ := bump_pins (region_pins_ e) (zrange first last) |>
    <| pinned_regions_ := u64 (pinned_regions_ e + (last - first)) |>.

Definition release_pins (e : CacheEntry) (first last : Z) : CacheEntry * bool :=
  let '(pins, pinned, released) :=
    drop_pins (region_pins_ e) (pinned_regions_ e) (zrange first last) in
  (e <| region_pins_ := pins |> <| pinned_regions_ := pinned |>, released).

(** ** Readers *)

Definition part_end (p : CacheChecksumPart) : Z := u64 (part_offset p + part_size p).

(** [std::lower_bound] over the parts, which are in order and adjacent: the first one that
    ends after [begin]. *)
Fixpoint parts_from (begin : Z) (parts : list (CacheChecksumPart * Z)) :
    list (CacheChecksumPart * Z) :=
  match parts with
  | [] => []
  | (p, s) :: rest => if part_end p <=? begin then parts_from begin rest else parts
  end.

Fixpoint blocked_loop (last blocked : Z) (parts : list (CacheChecksumPart * Z)) : Z :=
  match parts with
  | [] => blocked
  | (p, state) :: rest =>
      if part_offset p <? last then
        if state =? kPartBad then kPartBad
        else blocked_loop last (if state =? kPartRetrying then state else blocked) rest
      else blocked
  end.

Definition checksum_blocked_locked (e : CacheEntry) (offset length : Z) : Z :=
  if stale_ e || (size_ e <=? offset) || (length =? 0) then 0
  else
    let last := offset + Z.min length (size_ e - offset) in
    blocked_loop last 0 (parts_from offset (combine (checksum_parts_ e) (checksum_states_ e))).

Definition checksum_failed (e : CacheEntry) (offset length : Z) : bool :=
  checksum_blocked_locked e offset length =? kPartBad.

Definition pin_clean (offset length : Z) (e : CacheEntry) : CacheEntry * result bool :=
  if stale_ e then (e, Ok false)
  else if length =? 0 then (e, Ok true)
  else if negb (range_all_state (words_ e) offset length CACHE_PAGE_CLEAN) ||
          negb (checksum_blocked_locked e offset length =? 0)
  then (e, Ok false)
  else
    let first := first_region e offset in
    let last := clipped_region e offset length in
    if pins_full (region_pins_ e) (zrange first last) then (e, Throw OverflowError)
    else (mark_referenced (add_pins e first last) (zrange first last), Ok true).

Definition pin (offset length : Z) (e : CacheEntry) : CacheEntry * result unit :=
  if stale_ e then (e, Throw (SystemError ESTALE))
  else if length =? 0 then (e, Ok tt)
  else
    let first := first_region e offset in
    let last := clipped_region e offset length in
    if pins_full (region_pins_ e) (zrange first last) then (e, Throw OverflowError)
    else (add_pins e first last, Ok tt).

Definition unpin (offset length : Z) (e : CacheEntry) : CacheEntry :=
  if length =? 0 then e
  else
    let '(e, released_region) :=
      release_pins e (first_region e offset) (clipped_region e offset length) in
    if released_region then notify_waiters_locked e else e.

Definition touch (offset length : Z) (e : CacheEntry) : CacheEntry :=
  if (length =? 0) || Nat.eqb (List.length (referenced_ e)) 0 then e
  else mark_referenced e
         (zrange (first_region e offset)
            (Z.min (vsize (referenced_ e)) (last_region e offset length))).

Definition disable_eviction (e : CacheEntry) : CacheEntry := e <| eviction_disabled_ := true |>.

(** [range_ready_locked]: nothing a new attempt would still have to wait for. *)

(** Outcome of the scan over the pages of one block: pending, or whether it is incomplete. *)
Definition block_scan (e : CacheEntry) (offset : Z) : option bool :=
  let pages := block_pages e offset in
  if existsb (fun page => page_state_eqb (state_at e page) CACHE_PAGE_READ_PENDING) pages
  then None
  else Some (existsb (fun page => negb (page_state_eqb (state_at e page) CACHE_PAGE_CLEAN)) pages).

Definition block_ready (e : CacheEntry) (block : Z) : bool :=
  match block_scan e (block * block_size_ e) with
  | None => false
  | Some block_incomplete =>
      negb (block_incomplete && (block <? vsize (region_pins_ e)) &&
            negb (vget 0 (region_pins_ e) block =? 0))
  end.

Definition range_ready_locked (e : CacheEntry) (offset length : Z) : bool :=
  if stale_ e || (length =? 0) then true
  else
    let checksum := checksum_blocked_locked e offset length in
    if checksum =? kPartBad then true
    else if checksum =? kPartRetrying then false
    else
      let pages := zrange (first_page_of offset) (last_page_of offset length + 1) in
      if existsb (fun page => page_state_eqb (state_at e page) CACHE_PAGE_BAD) pages then true
      else if existsb (fun page => page_state_eqb (state_at e page) CACHE_PAGE_READ_PENDING) pages
      then false
      else forallb (block_ready e)
             (zrange (offset / block_size_ e) (u64 (offset + length - 1) / block_size_ e + 1)).

(** [Ok false] is the result -1, for which no waiter was registered. *)
Definition begin_async_wait (eventfd : option Z) (offset length : Z) (e : CacheEntry) :
    CacheEntry * result bool :=
  if range_ready_locked e offset length then (e, Ok false) else register_waiter eventfd e.

Definition begin_checksum_wait (eventfd : option Z) (offset length : Z) (e : CacheEntry) :
    CacheEntry * result bool :=
  if negb (checksum_blocked_locked e offset length =? kPartRetrying) then (e, Ok false)
  else register_waiter eventfd e.

(** One turn of [wait_for_range]: the range is ready, or the thread becomes a waiter. *)
Definition wait_for_range_turn (eventfd : option Z) (offset length : Z) (e : CacheEntry) :
    CacheEntry * result bool :=
  if range_ready_locked e offset length
  then (e, if stale_ e then Throw (SystemError ESTALE) else Ok false)
  else register_waiter eventfd e.

(** ** Fetches *)

(** The first page at or after [page] that is not clean, if it is missing. *)
Fixpoint first_missing (e : CacheEntry) (pages : list Z) : option Z :=
  match pages with
  | [] => None
  | page :: rest =>
      match state_at e page with
      | CACHE_PAGE_CLEAN => first_missing e rest
      | CACHE_PAGE_MISSING => Some page
      | _ => None
      end
  end.

(** A block is blocked by pins and by pending or bad pages; the inner loop stops at the first
    blocked page. *)
Definition block_blocked (e : CacheEntry) (block : Z) : bool :=
  let region := block / block_size_ e in
  ((region <? vsize (region_pins_ e)) && negb (vget 0 (region_pins_ e) region =? 0)) ||
  existsb (fun page => page_state_eqb (state_at e page) CACHE_PAGE_READ_PENDING ||
                       page_state_eqb (state_at e page) CACHE_PAGE_BAD) (block_pages e block).

Definition block_all_clean (e : CacheEntry) (block : Z) : bool :=
  forallb (fun page => page_state_eqb (state_at e page) CACHE_PAGE_CLEAN) (block_pages e block).

(** The end of the run of blocks that can be claimed. *)
Fixpoint claim_scan (fuel : nat) (e : CacheEntry) (start block last : Z) : Z :=
  match fuel with
  | O => last
  | S fuel =>
      if block <? last then
        if block_blocked e block || (negb (block =? start) && block_all_clean e block) then block
        else if block >? UINT64_MAX - block_size_ e then last
        else claim_scan fuel e start (block + block_size_ e) last
      else last
  end.

(** Rounds up to whole blocks, saturating at the largest 64-bit value. *)
Definition block_round_up (e : CacheEntry) (x : Z) : Z :=
  if x >? UINT64_MAX - (block_size_ e - 1) then UINT64_MAX
  else (x + block_size_ e - 1) / block_size_ e * block_size_ e.

Definition claim_limit (e : CacheEntry) (start request_end expansion : Z) : Z :=
  let extent := Z.max expansion (block_size_ e) in
  let expanded_end := if start >? UINT64_MAX - extent then UINT64_MAX else start + extent in
  Z.min (size_ e) (Z.max (block_round_up e request_end) (block_round_up e expanded_end)).

(** [id = next_claim_id_++], once more when that was zero: the id and the next one. *)
Definition fresh_id (e : CacheEntry) : Z * Z :=
  if next_claim_id_ e =? 0 then (u64 (next_claim_id_ e + 1), u64 (next_claim_id_ e + 2))
  else (next_claim_id_ e, u64 (next_claim_id_ e + 1)).

Definition install_claim (e : CacheEntry) (start last : Z) : CacheEntry * CacheFetchClaim :=
  let first_page := block_first_page e start in
  let end_page := Z.min (page_count_ e) ((last - 1) / kCacheBitmapUnit + 1) in
  let pages := zrange first_page end_page in
  let '(id, next) := fresh_id e in
  let active := {|
    fetch_id := id; fetch_epoch := epoch_ e; fetch_offset := start; fetch_length := last - start;
    published := 0; verifying := false; retrying := false;
    prior_states := map (state_at e) pages |} in
  (e <| next_claim_id_ := next |>
     <| words_ := set_pages (words_ e) pages CACHE_PAGE_READ_PENDING |>
     <| active_claims_ := active_claims_ e ++ [active] |>,
   {| claim_offset := start; claim_epoch := epoch_ e; claim_id := id;
      claim_length := last - start |}).

Definition claim_fetch (wanted_offset wanted_length expansion : Z) (e : CacheEntry) :
    CacheEntry * result CacheFetchClaim :=
  if stale_ e then (e, Throw (SystemError ESTALE))
  else if (wanted_length =? 0) || (size_ e <=? wanted_offset) || dirty_or_exported e
  then (e, Ok no_claim)
  else
    let wanted_length := Z.min wanted_length (size_ e - wanted_offset) in
    match first_missing e (zrange (first_page_of wanted_offset)
                             (last_page_of wanted_offset wanted_length + 1)) with
    | None => (e, Ok no_claim)
    | Some missing =>
        let start := missing * kCacheBitmapUnit / block_size_ e * block_size_ e in
        let limit := claim_limit e start (wanted_offset + wanted_length) expansion in
        let last := claim_scan (Z.to_nat (limit / block_size_ e + 1)) e start start limit in
        if last <=? start then (e, Ok no_claim)
        else let '(e, claim) := install_claim e start last in (e, Ok claim)
    end.

(** The [find_if] over [active_claims_] that every later operation on a claim starts with. *)
Definition is_claim (c : CacheFetchClaim) (a : ActiveFetch) : bool :=
  (fetch_id a =? claim_id c) && (fetch_epoch a =? claim_epoch c) &&
  (fetch_offset a =? claim_offset c) && (fetch_length a =? claim_length c).

Fixpoint find_claim (c : CacheFetchClaim) (l : list ActiveFetch) : option ActiveFetch :=
  match l with
  | [] => None
  | a :: rest => if is_claim c a then Some a else find_claim c rest
  end.

Fixpoint replace_claim (c : CacheFetchClaim) (b : ActiveFetch) (l : list ActiveFetch) :
    list ActiveFetch :=
  match l with
  | [] => []
  | a :: rest => if is_claim c a then b :: rest else a :: replace_claim c b rest
  end.

Fixpoint erase_claim (c : CacheFetchClaim) (l : list ActiveFetch) : list ActiveFetch :=
  match l with
  | [] => []
  | a :: rest => if is_claim c a then rest else a :: erase_claim c rest
  end.

Definition claim_end (c : CacheFetchClaim) : Z := u64 (claim_offset c + claim_length c).

(** The loop of [publish_clean]: words, published bytes and whether a page changed. *)
Fixpoint publish_loop (fuel : nat) (e : CacheEntry) (c : CacheFetchClaim) (final : bool)
    (progress block : Z) (words : list Z) (done : Z) (changed : bool) : list Z * Z * bool :=
  match fuel with
  | O => (words, done, changed)
  | S fuel =>
      if block <? claim_end c then
        let block_end := Z.min (size_ e) (u64 (block + block_size_ e)) in
        if progress <? block_end then (words, done, changed)
        else if (block_end =? size_ e) && negb (block_end mod block_size_ e =? 0) && negb final
        then (words, done, changed)
        else
          let '(words, any) :=
            update_pages (pending_to CACHE_PAGE_CLEAN) words (block_pages e block) in
          let done := u64 (block_end - claim_offset c) in
          if block >? UINT64_MAX - block_size_ e then (words, done, changed || any)
          else publish_loop fuel e c final progress (block + block_size_ e) words done
                 (changed || any)
      else (words, done, changed)
  end.

(** Enough turns for every block of a claim. *)
Definition claim_fuel (e : CacheEntry) (c : CacheFetchClaim) : nat :=
  Z.to_nat (claim_length c / block_size_ e + 1).

Definition publish_clean (c : CacheFetchClaim) (already length : Z) (final : bool)
    (e : CacheEntry) : CacheEntry :=
  match find_claim c (active_claims_ e) with
  | None => e
  | Some active =>
      if stale_ e || (length <? already) || ((length =? already) && negb final) then e
      else
        let progress := u64 (claim_offset c + Z.min length (claim_length c)) in
        let '(words, done, changed) :=
          publish_loop (claim_fuel e c) e c final progress
            (u64 (claim_offset c + published active)) (words_ e) (published active) false in
        let e := e <| words_ := words |>
                   <| active_claims_ :=
                        replace_claim c (active <| published := done |>) (active_claims_ e) |> in
        if changed then notify_waiters_locked e else e
  end.

Definition end_fetch_locked (c : CacheFetchClaim) (e : CacheEntry) : CacheEntry * bool :=
  match find_claim c (active_claims_ e) with
  | None => (e, false)
  | Some active =>
      let e := if verifying active
               then (release_pins e (first_region e (claim_offset c))
                       (last_region e (claim_offset c) (claim_length c))).1
               else e in
      (e <| active_claims_ := erase_claim c (active_claims_ e) |>, true)
  end.

(** The loop of [finish_fetch]: pending pages become missing and their blocks are punched. *)
Fixpoint finish_loop (fuel : nat) (c : CacheFetchClaim) (block : Z) (e : CacheEntry) :
    CacheEntry :=
  match fuel with
  | O => e
  | S fuel =>
      if block <? claim_end c then
        let '(words, incomplete) :=
          update_pages (pending_to CACHE_PAGE_MISSING) (words_ e) (block_pages e block) in
        let e := e <| words_ := words |> in
        let e := if incomplete then add_punch block (block_size_ e) e else e in
        if block >? UINT64_MAX - block_size_ e then e
        else finish_loop fuel c (block + block_size_ e) e
      else e
  end.

Definition finish_fetch (c : CacheFetchClaim) (e : CacheEntry) : CacheEntry :=
  notify_waiters_locked
    match find_claim c (active_claims_ e) with
    | None => e
    | Some active =>
        (end_fetch_locked c
           (finish_loop (claim_fuel e c) c (u64 (claim_offset c + published active)) e)).1
    end.

Definition fail_fetch (c : CacheFetchClaim) (e : CacheEntry) : CacheEntry := finish_fetch c e.

Definition restore_pages (words : list Z) (first : Z) (prior : list CachePageState)
    (indices : list Z) : list Z :=
  fold_left (fun words index =>
      set_page_state words (first + index) (vget CACHE_PAGE_MISSING prior index)) indices words.

Definition rollback_fetch (c : CacheFetchClaim) (e : CacheEntry) : CacheEntry :=
  match find_claim c (active_claims_ e) with
  | None => e
  | Some active =>
      let first := block_first_page e (claim_offset c) in
      let from := u64 (published active + kCacheBitmapUnit - 1) / kCacheBitmapUnit in
      let words := restore_pages (words_ e) first (prior_states active)
                     (zrange from (vsize (prior_states active))) in
      notify_waiters_locked (end_fetch_locked c (e <| words_ := words |>)).1
  end.

Definition mark_bad (c : CacheFetchClaim) (e : CacheEntry) : CacheEntry :=
  notify_waiters_locked
    match find_claim c (active_claims_ e) with
    | Some active =>
        if stale_ e then e
        else
          let first := claim_offset c / kCacheBitmapUnit +
            (if verifying active then 0
             else u64 (published active + kCacheBitmapUnit - 1) / kCacheBitmapUnit) in
          e <| words_ := set_pages (words_ e) (zrange first (claim_end_page e c)) CACHE_PAGE_BAD |>
    | None => e
    end.

(** ** Whole-object verification of a fetch *)

Definition overlaps (c : CacheFetchClaim) (a : ActiveFetch) : bool :=
  (fetch_offset a <? claim_end c) && (claim_offset c <? u64 (fetch_offset a + fetch_length a)).

(** [&item != &*active]: the claims other than the found one. *)
Definition other_overlaps (c : CacheFetchClaim) (l : list ActiveFetch) : bool :=
  existsb (overlaps c) (erase_claim c l).

Definition pin_fetch_verification (c : CacheFetchClaim) (e : CacheEntry) :
    CacheEntry * result bool :=
  match find_claim c (active_claims_ e) with
  | None => (e, Ok false)
  | Some active =>
      if stale_ e then (e, Ok false)
      else if verifying active then (e, Ok true)
      else if negb (published active =? claim_length c) || negb (checksum_ops_ e =? 0) ||
              (checksum_manifest_ e =? kChecksumAvailable) ||
              negb (range_all_state (words_ e) (claim_offset c) (claim_length c) CACHE_PAGE_CLEAN)
      then (e, Ok false)
      else if other_overlaps c (active_claims_ e) then (e, Ok false)
      else
        let first := first_region e (claim_offset c) in
        let last := last_region e (claim_offset c) (claim_length c) in
        if pins_full (region_pins_ e) (zrange first last) then (e, Throw OverflowError)
        else
          (add_pins e first last
             <| active_claims_ :=
                  replace_claim c (active <| verifying := true |>) (active_claims_ e) |>,
           Ok true)
  end.

(** Pins on a region that verification holds: one per part in progress and per verifying
    fetch that touches it. *)
Definition part_in_progress (state : Z) : bool :=
  (state =? kPartVerifying) || (state =? kPartRetrying).

Definition part_touches (first last : Z) (p : CacheChecksumPart) : bool :=
  (part_offset p <? last) && (first <? part_end p).

Definition fetch_touches (first last : Z) (a : ActiveFetch) : bool :=
  (fetch_offset a <? last) && (first <? u64 (fetch_offset a + fetch_length a)).

Definition verification_pins (e : CacheEntry) (region : Z) : Z :=
  let first := region * block_size_ e in
  let last := Z.min (size_ e) (u64 (first + block_size_ e)) in
  zsum (fun ps : CacheChecksumPart * Z =>
          if part_in_progress ps.2 && part_touches first last ps.1 then 1 else 0)
    (combine (checksum_parts_ e) (checksum_states_ e)) +
  zsum (fun a => if verifying a && fetch_touches first last a then 1 else 0) (active_claims_ e).

Definition retry_pins_ready_locked (e : CacheEntry) (offset length : Z) : bool :=
  forallb (fun region => vget 0 (region_pins_ e) region <=? verification_pins e region)
    (zrange (first_region e offset) (last_region e offset length)).

(** [Ok true]: no admitted reply still reads the claim's blocks. *)
Definition begin_retry_locked (c : CacheFetchClaim) (e : CacheEntry) : CacheEntry * result bool :=
  match find_claim c (active_claims_ e) with
  | None => (e, Throw (SystemError ESTALE))
  | Some active =>
      if stale_ e then (e, Throw (SystemError ESTALE))
      else if negb (verifying active) then (e, Throw LogicError)
      else
        let e :=
          if retrying active then e
          else
            let pages := zrange (claim_offset c / kCacheBitmapUnit) (claim_end_page e c) in
            notify_waiters_locked
              (e <| words_ := set_pages (words_ e) pages CACHE_PAGE_READ_PENDING |>
                 <| active_claims_ :=
                      replace_claim c (active <| published := 0 |> <| retrying := true |>)
                        (active_claims_ e) |>) in
        (e, Ok (retry_pins_ready_locked e (claim_offset c) (claim_length c)))
  end.

(** [begin_retry_wait], and one turn of [begin_retry]: [Ok false] when the pins are gone. *)
Definition begin_retry_wait (eventfd : option Z) (c : CacheFetchClaim) (e : CacheEntry) :
    CacheEntry * result bool :=
  let '(e, ready) := begin_retry_locked c e in
  match ready with
  | Throw x => (e, Throw x)
  | Ok true => (e, Ok false)
  | Ok false => register_waiter eventfd e
  end.

Definition finish_retry (c : CacheFetchClaim) (valid : bool) (e : CacheEntry) : CacheEntry :=
  finish_fetch c (if valid then publish_clean c 0 (claim_length c) true e else mark_bad c e).

(** ** Part checksums *)

(** [Ok (Some b)] is the result [b]; [Ok None] is a turn that has to wait. *)
Definition begin_checksum_manifest (wait : bool) (e : CacheEntry) :
    CacheEntry * result (option bool) :=
  if negb (stale_ e) && (checksum_manifest_ e =? kChecksumLoading)
  then (e, Ok (if wait then None else Some false))
  else if stale_ e then (e, Throw (SystemError ESTALE))
  else if is_exported e
  then (if checksum_manifest_ e =? kChecksumUnknown
        then e <| checksum_manifest_ := kChecksumUnavailable |> else e, Ok (Some false))
  else if negb (checksum_manifest_ e =? kChecksumUnknown) then (e, Ok (Some false))
  else if existsb verifying (active_claims_ e) then (e, Ok (Some false))
  else (e <| checksum_manifest_ := kChecksumLoading |>
          <| checksum_ops_ := u64 (checksum_ops_ e + 1) |>, Ok (Some true)).

Definition begin_manifest_wait (eventfd : option Z) (e : CacheEntry) : CacheEntry * result bool :=
  if stale_ e || negb (checksum_manifest_ e =? kChecksumLoading) then (e, Ok false)
  else register_waiter eventfd e.

(** The parts must follow each other from offset zero to the object's size. *)
Fixpoint parts_valid (size offset : Z) (parts : list CacheChecksumPart) : bool :=
  match parts with
  | [] => offset =? size
  | p :: rest =>
      if negb (part_offset p =? offset) || (part_size p =? 0) || (size <? offset) ||
         (size - offset <? part_size p) || Nat.eqb (length (part_value p)) 0
      then false
      else parts_valid size (offset + part_size p) rest
  end.

Definition drop_checksum_op (e : CacheEntry) : CacheEntry :=
  if checksum_ops_ e =? 0 then e else e <| checksum_ops_ := checksum_ops_ e - 1 |>.

Definition finish_checksum_manifest (parts : list CacheChecksumPart) (e : CacheEntry) :
    CacheEntry :=
  let valid := negb (stale_ e) && negb (Nat.eqb (length parts) 0) &&
               parts_valid (size_ e) 0 parts in
  notify_waiters_locked
    (drop_checksum_op
       (if valid
        then e <| checksum_parts_ := parts |>
               <| checksum_states_ := replicate (length parts) kPartUnverified |>
               <| checksum_manifest_ := kChecksumAvailable |>
        else e <| checksum_parts_ := [] |> <| checksum_states_ := [] |>
               <| checksum_manifest_ := kChecksumUnavailable |>)).

Definition checksum_manifest_unavailable (e : CacheEntry) : CacheEntry :=
  notify_waiters_locked
    (drop_checksum_op
       (e <| checksum_parts_ := [] |> <| checksum_states_ := [] |>
          <| checksum_manifest_ := kChecksumUnavailable |>)).

Definition checksum_manifest_available (e : CacheEntry) : bool :=
  negb (stale_ e) && (checksum_manifest_ e =? kChecksumAvailable).

(** The loop of [claim_checksum] from part [i] on. *)
Fixpoint claim_checksum_loop (e : CacheEntry) (offset last : Z) (skip_in_progress : bool) (i : Z)
    (parts : list CacheChecksumPart) : CacheEntry * result CacheChecksumClaim :=
  match parts with
  | [] => (e, Ok (checksum_claim CACHE_CHECKSUM_NONE))
  | part :: rest =>
      let next := claim_checksum_loop e offset last skip_in_progress (i + 1) rest in
      if (last <=? part_offset part) || (part_end part <=? offset) then next
      else
        let state := vget kPartUnverified (checksum_states_ e) i in
        if state =? kPartBad then (e, Ok (checksum_claim CACHE_CHECKSUM_BAD))
        else if part_in_progress state
        then if skip_in_progress then next else (e, Ok (checksum_claim CACHE_CHECKSUM_WAIT))
        else if negb (state =? kPartUnverified) ||
                negb (range_all_state (words_ e) (part_offset part) (part_size part)
                        CACHE_PAGE_CLEAN)
        then next
        else
          let first := first_region e (part_offset part) in
          let last := clipped_region e (part_offset part) (part_size part) in
          if pins_full (region_pins_ e) (zrange first last) then (e, Throw OverflowError)
          else
            (add_pins e first last
               <| checksum_states_ := vset (checksum_states_ e) i kPartVerifying |>
               <| checksum_ops_ := u64 (checksum_ops_ e + 1) |>,
             Ok {| cc_action := CACHE_CHECKSUM_VERIFY; cc_offset := part_offset part;
                   cc_size := part_size part; cc_epoch := epoch_ e; cc_part := i;
                   cc_algorithm := part_algorithm part; cc_value := part_value part |})
  end.

Definition claim_checksum (offset length : Z) (skip_in_progress : bool) (e : CacheEntry) :
    CacheEntry * result CacheChecksumClaim :=
  if stale_ e then (e, Throw (SystemError ESTALE))
  else if negb (checksum_manifest_ e =? kChecksumAvailable) || (length =? 0)
  then (e, Ok (checksum_claim CACHE_CHECKSUM_NONE))
  else if is_exported e then (e, Ok (checksum_claim CACHE_CHECKSUM_NONE))
  else if size_ e <=? offset then (e, Ok (checksum_claim CACHE_CHECKSUM_NONE))
  else claim_checksum_loop e offset (offset + Z.min length (size_ e - offset)) skip_in_progress 0
         (checksum_parts_ e).

(** [wait_for_checksum]'s condition. *)
Definition checksum_ready (e : CacheEntry) (offset length : Z) : bool :=
  if stale_ e || negb (checksum_manifest_ e =? kChecksumAvailable) || (length =? 0) ||
     (size_ e <=? offset)
  then true
  else
    let last := offset + Z.min length (size_ e - offset) in
    negb (existsb (fun ps : CacheChecksumPart * Z =>
                     part_touches offset last ps.1 && part_in_progress ps.2)
            (combine (checksum_parts_ e) (checksum_states_ e))).

Definition part_state (e : CacheEntry) (i : Z) : Z := vget kPartUnverified (checksum_states_ e) i.

Definition set_part_state (e : CacheEntry) (i s : Z) : CacheEntry :=
  e <| checksum_states_ := vset (checksum_states_ e) i s |>.

Definition checksum_mismatch (c : CacheChecksumClaim) (e : CacheEntry) : CacheEntry :=
  notify_waiters_locked
    (if negb (stale_ e) && (cc_epoch c =? epoch_ e) &&
        (cc_part c <? vsize (checksum_states_ e)) && (part_state e (cc_part c) =? kPartVerifying)
     then set_part_state e (cc_part c) kPartRetrying else e).

Definition begin_checksum_retry_locked (c : CacheChecksumClaim) (e : CacheEntry) :
    CacheEntry * result bool :=
  if stale_ e || negb (cc_epoch c =? epoch_ e) || (vsize (checksum_states_ e) <=? cc_part c) ||
     negb (part_in_progress (part_state e (cc_part c)))
  then (e, Throw (SystemError ESTALE))
  else
    let e := if part_state e (cc_part c) =? kPartVerifying
             then notify_waiters_locked (set_part_state e (cc_part c) kPartRetrying) else e in
    (e, Ok (retry_pins_ready_locked e (cc_offset c) (cc_size c))).

Definition begin_checksum_retry_wait (eventfd : option Z) (c : CacheChecksumClaim)
    (e : CacheEntry) : CacheEntry * result bool :=
  let '(e, ready) := begin_checksum_retry_locked c e in
  match ready with
  | Throw x => (e, Throw x)
  | Ok true => (e, Ok false)
  | Ok false => register_waiter eventfd e
  end.

Definition finish_checksum (c : CacheChecksumClaim) (valid : bool) (e : CacheEntry) :
    CacheEntry :=
  if (vsize (checksum_states_ e) <=? cc_part c) || negb (cc_epoch c =? epoch_ e) then e
  else if negb (part_in_progress (part_state e (cc_part c))) then e
  else
    let e := set_part_state e (cc_part c) (if valid then kPartVerified else kPartBad) in
    let last := Z.min (vsize (region_pins_ e))
                  (u64 (u64 (cc_offset c + cc_size c) - 1) / block_size_ e + 1) in
    notify_waiters_locked
      (drop_checksum_op (release_pins e (first_region e (cc_offset c)) last).1).

Definition clean_to_missing (x : CachePageState) : option CachePageState :=
  if page_state_eqb x CACHE_PAGE_CLEAN then Some CACHE_PAGE_MISSING else None.

Definition abandon_checksum (c : CacheChecksumClaim) (e : CacheEntry) : CacheEntry :=
  if (vsize (checksum_states_ e) <=? cc_part c) || negb (cc_epoch c =? epoch_ e) then e
  else if negb (part_in_progress (part_state e (cc_part c))) then e
  else
    let e := set_part_state e (cc_part c) kPartUnverified in
    let last := Z.min (size_ e) (u64 (cc_offset c + cc_size c)) in
    let last_page := Z.min (page_count_ e) (u64 (last - 1) / kCacheBitmapUnit + 1) in
    let e := e <| words_ := (update_pages clean_to_missing (words_ e)
                               (zrange (cc_offset c / kCacheBitmapUnit) last_page)).1 |> in
    let last_region := Z.min (vsize (region_pins_ e)) (u64 (last - 1) / block_size_ e + 1) in
    notify_waiters_locked
      (drop_checksum_op (release_pins e (first_region e (cc_offset c)) last_region).1).

(** ** Retirement *)

Definition quiescent (e : CacheEntry) : bool :=
  Nat.eqb (length (active_claims_ e)) 0 && (checksum_ops_ e =? 0) && (pinned_regions_ e =? 0).

(** One turn of [retire_generation]: [Ok true] when it returns, [Ok false] when it waits.  A
    caller that may not block gets [CacheRetirementPending], a [system_error] of [EAGAIN]. *)
Definition retire_generation (may_block : bool) (e : CacheEntry) : CacheEntry * result bool :=
  let e := if stale_ e then e else notify_waiters_locked (e <| stale_ := true |>) in
  if quiescent e then (e, Ok true)
  else (e, if may_block then Ok false else Throw (SystemError EAGAIN)).

Definition begin_retire_wait (eventfd : option Z) (e : CacheEntry) : CacheEntry * result bool :=
  if negb (stale_ e) then (e, Throw LogicError)
  else if quiescent e then (e, Ok false)
  else register_waiter eventfd e.

(** ** Eviction *)

(** Outcomes of the system calls around one punch: block counts before and after ([None] when
    [fstat] fails) and whether [fallocate] succeeds. *)
Record EvictIo := { blocks_before : option Z; punch_ok : bool; blocks_after : option Z }.

(** The pages of a region: whether all are clean or missing, and the clean ones seen before a
    page that is not ended the loop. *)
Fixpoint evict_scan (words : list Z) (pages : list Z) : bool * list Z :=
  match pages with
  | [] => (true, [])
  | page :: rest =>
      match page_state words page with
      | CACHE_PAGE_CLEAN => let '(ok, clean) := evict_scan words rest in (ok, page :: clean)
      | CACHE_PAGE_MISSING => evict_scan words rest
      | _ => (false, [])
      end
  end.

Definition region_pages (e : CacheEntry) (region : Z) : list Z :=
  let offset := region * block_size_ e in
  let last := Z.min (size_ e) (u64 (offset + block_size_ e)) in
  zrange (offset / kCacheBitmapUnit) ((last - 1) / kCacheBitmapUnit + 1).

(** Frees the clean pages of one region: the entry and the bytes freed. *)
Definition evict_region (io : EvictIo) (region : Z) (clean_pages : list Z) (e : CacheEntry) :
    CacheEntry * Z :=
  match blocks_before io with
  | None => (e, 0)
  | Some before =>
      let words := set_pages (words_ e) clean_pages CACHE_PAGE_MISSING in
      if negb (punch_ok io)
      then (e <| words_ := set_pages words clean_pages CACHE_PAGE_CLEAN |>, 0)
      else
        let e := add_punch (region * block_size_ e) (block_size_ e) (e <| words_ := words |>) in
        match blocks_after io with
        | None => (e, 0)
        | Some after =>
            let old_bytes := u64 (before * 512) in
            let new_bytes := u64 (after * 512) in
            (notify_waiters_locked e, if new_bytes <? old_bytes then old_bytes - new_bytes else 0)
        end
  end.

(** The clock scan: a referenced region loses its bit, the first evictable one is freed. *)
Fixpoint evict_loop (io : EvictIo) (scans : nat) (e : CacheEntry) : CacheEntry * Z :=
  match scans with
  | O => (e, 0)
  | S scans =>
      let region := clock_hand_ e mod vsize (referenced_ e) in
      let e := e <| clock_hand_ := u64 (clock_hand_ e + 1) |> in
      if negb (vget 0 (referenced_ e) region =? 0)
      then evict_loop io scans (e <| referenced_ := vset (referenced_ e) region 0 |>)
      else
        let '(evictable, clean_pages) := evict_scan (words_ e) (region_pages e region) in
        if negb (evictable && (vget 0 (region_pins_ e) region =? 0)) ||
           Nat.eqb (length clean_pages) 0
        then evict_loop io scans e
        else evict_region io region clean_pages e
  end.

Definition evict_one_region (config : CacheConfig) (io : EvictIo) (e : CacheEntry) :
    CacheEntry * Z :=
  if unlimited config || stale_ e || eviction_disabled_ e || dirty_or_exported e ||
     Nat.eqb (length (referenced_ e)) 0
  then (e, 0)
  else evict_loop io (length (referenced_ e)) e.

(** ** Writes

    [begin_write] takes the mutex twice, around the creation of the dirty marker. *)

(** [Ok None]: the marker is already there; [Ok (Some epoch)]: it is to be created. *)
Definition begin_write_check (e : CacheEntry) : result (option Z) :=
  if stale_ e then Throw (SystemError ESTALE)
  else if dirty_fd_ e then Ok None
  else Ok (Some (epoch_ e)).

Definition begin_write_install (epoch : Z) (e : CacheEntry) : CacheEntry * result unit :=
  if stale_ e || negb (epoch_ e =? epoch) then (e, Throw (SystemError ESTALE))
  else if dirty_fd_ e then (e, Ok tt)
  else
    (e <| dirty_fd_ := true |>
       <| header_ := header_ e <| flags := Z.lor (flags (header_ e)) kCacheMetaDirty |>
                               <| write_phase := 1 |> |>, Ok tt).

(** [ensure_write_capacity]: the mapping size that covers whole upload parts up to [last]. *)
Definition write_mapping_size (config : CacheConfig) (last : Z) : result Z :=
  let unit := upload_part_size config in
  if (unit =? 0) || (last >? UINT64_MAX - (unit - 1)) then Throw OverflowError
  else cache_mapping_size ((last + unit - 1) / unit * unit) kCacheBitmapUnit.

(** The critical section after [fallocate] grew the file from [old_size]: [Ok false] is the
    [continue] taken when another writer changed the mapping meanwhile. *)
Definition grow_mapping (old_size wanted : Z) (mremap : option Z) (e : CacheEntry) :
    CacheEntry * result bool :=
  if negb (mapping_size_ e =? old_size) then (e, Ok false)
  else match mremap with
       | Some errno => (e, Throw (SystemError errno))
       | None => (e <| words_ := words_ e ++ replicate (Z.to_nat ((wanted - old_size) / 8)) 0 |>,
                  Ok true)
       end.

(** The calls of one turn after the reservation. *)
Record GrowIo := { grow_alloc : AllocIo; mremap : option Z }.

(** One turn of the loop: [Ok false] is its [continue]. *)
Definition ensure_write_capacity (config : CacheConfig)
    (reserve_capacity : Z -> Capacity -> Capacity * result bool) (io : GrowIo) (last : Z)
    (c : Capacity) (e : CacheEntry) : CacheEntry * Capacity * result bool :=
  if last =? 0 then (e, c, Ok true)
  else
    match write_mapping_size config last with
    | Throw x => (e, c, Throw x)
    | Ok wanted =>
        let old_size := mapping_size_ e in
        if wanted <=? old_size then (e, c, Ok true)
        else
          match cache_round_up (wanted - old_size) (page_size config) with
          | Throw x => (e, c, Throw x)
          | Ok bytes =>
              match reserve_capacity bytes c with
              | (c, Throw x) => (e, c, Throw x)
              | (c, Ok false) => (e, c, Throw (SystemError ENOSPC))
              | (c, Ok true) =>
                  match settle_allocation (grow_alloc io) bytes c with
                  | (c, Throw x) => (e, c, Throw x)
                  | (c, Ok _) =>
                      let '(e, r) := grow_mapping old_size wanted (mremap io) e in (e, c, r)
                  end
              end
          end
    end.

(** The loop over upload parts; [alloc] gives the outcomes of each part's allocation. *)
Fixpoint reserve_parts (config : CacheConfig)
    (reserve_capacity : Z -> Capacity -> Capacity * result bool) (alloc : Z -> AllocIo)
    (parts : list Z) (c : Capacity) (e : CacheEntry) : CacheEntry * Capacity * result unit :=
  match parts with
  | [] => (e, c, Ok tt)
  | part :: rest =>
      if negb (vget 0 (reserved_units_ e) part =? 0)
      then reserve_parts config reserve_capacity alloc rest c e
      else match prepare_range config reserve_capacity (alloc part) 1 true c with
           | (c, Throw x) => (e, c, Throw x)
           | (c, Ok false) => (e, c, Throw (SystemError ENOSPC))
           | (c, Ok true) =>
               reserve_parts config reserve_capacity alloc rest c
                 (e <| reserved_units_ := vset (reserved_units_ e) part 1 |>)
           end
  end.

(** [begin_write] without another thread in between; when the generation went stale meanwhile
    the marker is removed, which gives back the [removed] bytes. *)
Definition begin_write (reserve_capacity : Z -> Capacity -> Capacity * result bool)
    (marker : MarkerIo) (removed : Z) (c : Capacity) (e : CacheEntry) :
    CacheEntry * Capacity * result unit :=
  match begin_write_check e with
  | Throw x => (e, c, Throw x)
  | Ok None => (e, c, Ok tt)
  | Ok (Some epoch) =>
      match create_dirty_marker reserve_capacity marker (key_ e) c with
      | (c, Throw x) => (e, c, Throw x)
      | (c, Ok _) =>
          match begin_write_install epoch e with
          | (e, Throw x) => (e, evict_bytes removed c, Throw x)
          | (e, Ok _) => (e, c, Ok tt)
          end
      end
  end.

(** The outcomes of the calls [prepare_write] makes. *)
Record WriteIo := { wio_grow : GrowIo; wio_parts : Z -> AllocIo; wio_marker : MarkerIo }.

(** [prepare_write] without another writer in between. *)
Definition prepare_write (config : CacheConfig)
    (reserve_capacity : Z -> Capacity -> Capacity * result bool) (io : WriteIo)
    (offset length : Z) (c : Capacity) (e : CacheEntry) : CacheEntry * Capacity * result unit :=
  if length =? 0 then (e, c, Ok tt)
  else if is_exported e then (e, c, Throw (SystemError ESTALE))
  else if offset >? UINT64_MAX - length then (e, c, Throw OverflowError)
  else
    let last_byte := offset + length in
    match ensure_write_capacity config reserve_capacity (wio_grow io) last_byte c e with
    | (e, c, Throw x) => (e, c, Throw x)
    | (e, c, Ok _) =>
        let unit := upload_part_size config in
        let last := (last_byte - 1) / unit in
        let e := if vsize (reserved_units_ e) <=? last
                 then e <| reserved_units_ := reserved_units_ e ++
                             replicate (Z.to_nat (last + 1 - vsize (reserved_units_ e))) 0 |>
                 else e in
        match reserve_parts config reserve_capacity (wio_parts io)
                (zrange (offset / unit) (last + 1)) c e with
        | (e, c, Throw x) => (e, c, Throw x)
        | (e, c, Ok _) => begin_write reserve_capacity (wio_marker io) 0 c e
        end
    end.

Definition grow {A} (l : list A) (n : Z) (x : A) : list A :=
  l ++ replicate (Z.to_nat (n - vsize l)) x.

Definition publish_dirty (offset length new_end : Z) (e : CacheEntry) :
    CacheEntry * result unit :=
  if stale_ e || negb (is_dirty e) then (e, Throw (SystemError ESTALE))
  else if negb (offset =? written_end (header_ e)) || (length =? 0) ||
          negb (new_end =? u64 (offset + length))
  then (e, Throw LogicError)
  else
    let last := u64 (new_end - 1) / kCacheBitmapUnit in
    let regions := u64 (new_end - 1) / block_size_ e + 1 in
    let e := e <| page_count_ := last + 1 |> in
    let e := if vsize (referenced_ e) <? regions
             then e <| referenced_ := grow (referenced_ e) regions 0 |>
                    <| region_pins_ := grow (region_pins_ e) regions 0 |> else e in
    (e <| words_ := set_pages (words_ e) (zrange (offset / kCacheBitmapUnit) (last + 1))
                      CACHE_PAGE_CLEAN |>
       <| header_ := header_ e <| object_size := new_end |> <| written_end := new_end |> |>
       <| size_ := new_end |>, Ok tt).

Definition set_upload_id (config : CacheConfig) (id : bytes) (e : CacheEntry) :
    CacheEntry * result unit :=
  if vsize id >? kCacheUploadIdCapacity then (e, Throw (SystemError EOVERFLOW))
  else
    (e <| header_ := header_ e <| upload_id := id |>
                               <| header_part_size := upload_part_size config |>
                               <| write_phase := if Nat.eqb (length id) 0 then 1 else 2 |> |>,
     Ok tt).

Definition isolate_write (e : CacheEntry) : CacheEntry :=
  if negb (is_dirty e) then e else e <| header_ := header_ e <| write_phase := 3 |> |>.

(** [flags &= ~kCacheMetaDirty] on 32 bits. *)
Definition clear_dirty (h : CacheMetaHeader) : CacheMetaHeader :=
  h <| flags := Z.land (flags h) (Z.lxor UINT32_MAX kCacheMetaDirty) |>.

Definition discard_write (e : CacheEntry) : CacheEntry :=
  e <| header_ := clear_dirty (header_ e) <| write_phase := 0 |> |>
    <| stale_ := true |> <| detached_ := true |> <| dirty_fd_ := false |>.

(** [sync_write]: the errnos of the three calls. *)
Definition sync_write (fdatasync msync fdatasync_marker : option Z) (e : CacheEntry) : result unit :=
  if stale_ e then Throw (SystemError ESTALE)
  else match fdatasync, msync, (if dirty_fd_ e then fdatasync_marker else None) with
       | Some errno, _, _ | None, Some errno, _ | None, None, Some errno => Throw (SystemError errno)
       | None, None, None => Ok tt
       end.

(** [msync] is the errno when writing the mapping back fails; the header has changed then. *)
Definition commit_write (identity : CacheIdentity) (msync : option Z) (e : CacheEntry) :
    CacheEntry * result unit :=
  if (vsize (id_etag identity) >? kCacheEtagCapacity) ||
     (vsize (id_version_id identity) >? kCacheVersionCapacity)
  then (e, Throw (SystemError EOVERFLOW))
  else if negb (bool_decide (id_key identity = key_ e)) || negb (id_size identity =? size_ e)
  then (e, Throw LogicError)
  else
    let e := e <| header_ := clear_dirty (header_ e)
                    <| etag := id_etag identity |> <| version_id := id_version_id identity |>
                    <| mtime := id_mtime identity |> <| write_phase := 0 |>
                    <| upload_id := [] |> |>
               <| eviction_disabled_ := false |> in
    match msync with
    | Some errno => (e, Throw (SystemError errno))
    | None => (e <| dirty_fd_ := false |>, Ok tt)
    end.
