(* ===== verification/ObjectParts.v ===== *)
(** * Parts of objects and of uploads

    The checksum manifest of a multipart object, which [GetObjectAttributes] returns page by page
    ([part_checksum], [parse_checksum_manifest_page], [get_checksum_manifest] of [fuse.cpp]), the
    verification of a cached part against it ([verify_cached_part]), and the parts of an
    interrupted upload that recovery reuses ([OwnerCacheRecovery]).  The answers of the service
    are the function [fetch] of the marker that a request names. *)

From S2P Require Import Prelude StdText Crc Checksum Calendar S3Text Retry S3Xml CacheEntry.

Definition kPreferredIoSize : Z := 256 * 1024.

(** [uint32_t(algorithm)] and back. *)
Definition all_algorithms : list ChecksumAlgorithm :=
  [CHECKSUM_AUTO; CHECKSUM_PROTOCOL_DEFAULT; CHECKSUM_NONE; CHECKSUM_CRC32; CHECKSUM_CRC32C; CHECKSUM_CRC64NVME;
   CHECKSUM_SHA1; CHECKSUM_SHA256; CHECKSUM_MD5; CHECKSUM_XXHASH64; CHECKSUM_XXHASH3; CHECKSUM_XXHASH128;
   CHECKSUM_SHA512; CHECKSUM_CRC64XZ].
Definition algorithm_code (algorithm : ChecksumAlgorithm) : Z :=
  match algorithm with
  | CHECKSUM_AUTO => 0 | CHECKSUM_PROTOCOL_DEFAULT => 1 | CHECKSUM_NONE => 2 | CHECKSUM_CRC32 => 3
  | CHECKSUM_CRC32C => 4 | CHECKSUM_CRC64NVME => 5 | CHECKSUM_SHA1 => 6 | CHECKSUM_SHA256 => 7
  | CHECKSUM_MD5 => 8 | CHECKSUM_XXHASH64 => 9 | CHECKSUM_XXHASH3 => 10 | CHECKSUM_XXHASH128 => 11
  | CHECKSUM_SHA512 => 12 | CHECKSUM_CRC64XZ => 13
  end.
Definition code_algorithm (code : Z) : ChecksumAlgorithm := vget CHECKSUM_NONE all_algorithms code.

(** ** The checksum of a part *)

(** The lambda [read]. *)
Definition read_part_checksum (part : element) (candidate : ChecksumAlgorithm) : result bytes :=
  let? value := optional_text part (checksum_xml_name candidate) in
  Ok (trim_xml_space value).

Fixpoint first_part_checksum (part : element) (preferred : ChecksumAlgorithm) (algorithms : list ChecksumAlgorithm) :
    result (option (ChecksumAlgorithm * bytes)) :=
  match algorithms with
  | [] => Ok None
  | candidate :: algorithms =>
      if decide (candidate = preferred) then first_part_checksum part preferred algorithms
      else
        let? value := read_part_checksum part candidate in
        if vsize value =? 0 then first_part_checksum part preferred algorithms else Ok (Some (candidate, value))
  end.

Definition part_algorithms : list ChecksumAlgorithm :=
  [CHECKSUM_CRC64NVME; CHECKSUM_CRC32C; CHECKSUM_CRC32; CHECKSUM_SHA256; CHECKSUM_SHA1; CHECKSUM_XXHASH128;
   CHECKSUM_XXHASH3; CHECKSUM_XXHASH64; CHECKSUM_SHA512; CHECKSUM_MD5].

Definition part_checksum (part : element) (preferred : ChecksumAlgorithm) :
    result (option (ChecksumAlgorithm * bytes)) :=
  if checksum_is_s3 preferred then
    let? value := read_part_checksum part preferred in
    if vsize value =? 0 then first_part_checksum part preferred part_algorithms else Ok (Some (preferred, value))
  else first_part_checksum part preferred part_algorithms.

(** ** The manifest *)

Record ChecksumManifestState := mkManifest {
  manifest_parts : list CacheChecksumPart; expected_number : Z; marker : Z; manifest_offset : Z;
}.
#[global] Instance ChecksumManifestState_settable : Settable ChecksumManifestState := fun s =>
  mkManifest (manifest_parts s) (expected_number s) (marker s) (manifest_offset s).

Definition new_manifest : ChecksumManifestState := mkManifest [] 1 0 0.

(** One turn of the loop over the children of [ObjectParts]. *)
Definition manifest_part (object_size : Z) (preferred : ChecksumAlgorithm) (state : ChecksumManifestState)
    (part : element) : result ChecksumManifestState :=
  if negb (named part (lit "Part")) then Ok state
  else
    let? number_text := required_text part (lit "PartNumber") in
    let? size_text := required_text part (lit "Size") in
    match parse_unsigned (trim_xml_space number_text), parse_unsigned (trim_xml_space size_text) with
    | Some number, Some size =>
        if negb (number =? expected_number state) || (kMaximumMultipartParts <? number) || (size =? 0) ||
           (object_size <? manifest_offset state) || (object_size - manifest_offset state <? size)
        then Throw RuntimeError
        else
          let? checksum := part_checksum part preferred in
          match checksum with
          | None => Throw RuntimeError
          | Some (algorithm, value) =>
              Ok (mkManifest
                (manifest_parts state ++
                  [{| part_offset := manifest_offset state; part_size := size;
                      part_algorithm := algorithm_code algorithm; part_value := value |}])
                (u32 (expected_number state + 1)) (marker state) (u64 (manifest_offset state + size)))
          end
    | _, _ => Throw RuntimeError
    end.

Fixpoint manifest_loop (object_size : Z) (preferred : ChecksumAlgorithm) (state : ChecksumManifestState)
    (parts : list element) : result ChecksumManifestState :=
  match parts with
  | [] => Ok state
  | part :: parts =>
      let? state := manifest_part object_size preferred state part in
      manifest_loop object_size preferred state parts
  end.

Section Service.
Variable xml_parse : bytes -> option (option element).

(** [true] in the result: the manifest is complete. *)
Definition parse_checksum_manifest_page (state : ChecksumManifestState) (response : Response) (object_size : Z)
    (preferred : ChecksumAlgorithm) : result (ChecksumManifestState * bool) :=
  if negb (status response =? 200) then Throw (s3_response_error xml_parse response)
  else
    let? xml := make_S3Xml xml_parse (body response) in
    let? root := result_root xml (lit "GetObjectAttributesOutput") in
    let? parts := required_child root (lit "ObjectParts") in
    let? state := manifest_loop object_size preferred state (child_elements parts) in
    let? truncated := required_bool parts (lit "IsTruncated") in
    if negb truncated then
      if negb (manifest_offset state =? object_size) then Throw RuntimeError else Ok (state, true)
    else
      let? next_text := required_text parts (lit "NextPartNumberMarker") in
      match parse_unsigned (trim_xml_space next_text) with
      | Some next =>
          if (next <=? marker state) || negb (next =? u32 (expected_number state - 1)) || (kMaximumMultipartParts <? next)
          then Throw RuntimeError
          else Ok (state <| marker := next |>, false)
      | None => Throw RuntimeError
      end.

(** The loop of [get_checksum_manifest]; [None]: more than [fuel] pages. *)
Fixpoint get_checksum_manifest (fuel : nat) (fetch : Z -> result Response) (object_size : Z)
    (preferred : ChecksumAlgorithm) (manifest : ChecksumManifestState) : option (result (list CacheChecksumPart)) :=
  match fuel with
  | O => None
  | S fuel =>
      match
        let? response := fetch (marker manifest) in
        parse_checksum_manifest_page manifest response object_size preferred
      with
      | Throw e => Some (Throw e)
      | Ok (manifest, true) => Some (Ok (manifest_parts manifest))
      | Ok (manifest, false) => get_checksum_manifest fuel fetch object_size preferred manifest
      end
  end.

(** ** Parts of an interrupted upload *)

(** The members of [OwnerCacheRecovery] and of its handle. *)
Record Recovery := mkRecovery { part_etags : list bytes; marker_ : Z }.

(** [size_t((handle.size - 1) / part_size + 1)] and the guards before it. *)
Definition recovery_count (part_size size : Z) : result Z :=
  if size =? 0 then Throw RuntimeError
  else
    let count := (size - 1) / part_size + 1 in
    if kMaximumMultipartParts <? count then Throw RuntimeError else Ok count.

Definition part_length (part_size size offset : Z) : Z := Z.min part_size (size - offset).

(** One turn of the loop of [listed] over the children: [etags] and [last]. *)
Definition listed_part (part_size size : Z) (etags : list bytes) (last : Z) (child : element) :
    result (list bytes * Z) :=
  if negb (named child (lit "Part")) then Ok (etags, last)
  else
    let? number_text := required_text child (lit "PartNumber") in
    match parse_unsigned (trim_xml_space number_text) with
    | None => Throw RuntimeError
    | Some number =>
        let? length_text := required_text child (lit "Size") in
        match parse_unsigned (trim_xml_space length_text) with
        | None => Throw RuntimeError
        | Some length =>
            if (number <=? last) || (vsize etags <? number) then Throw RuntimeError
            else
              let offset := u64 ((number - 1) * part_size) in
              let expected := Z.min part_size (u64 (size - offset)) in
              let? etag := required_text child (lit "ETag") in
              if negb (length =? expected) || (vsize etag =? 0) then Throw RuntimeError
              else Ok (vset etags (number - 1) etag, number)
        end
    end.

Fixpoint listed_loop (part_size size : Z) (etags : list bytes) (last : Z) (children : list element) :
    result (list bytes * Z) :=
  match children with
  | [] => Ok (etags, last)
  | child :: children =>
      let? r := listed_part part_size size etags last child in
      listed_loop part_size size r.1 r.2 children
  end.

(** [true] in the result: [parts] is called, otherwise [list] again. *)
Definition listed (part_size size : Z) (self : Recovery) (response : Response) : result (Recovery * bool) :=
  let? _ := require_s3_success xml_parse response in
  let? xml := make_S3Xml xml_parse (body response) in
  let? root := result_root xml (lit "ListPartsResult") in
  let? r := listed_loop part_size size (part_etags self) (marker_ self) (child_elements root) in
  let? truncated := required_bool root (lit "IsTruncated") in
  if truncated then
    let? next_text := required_text root (lit "NextPartNumberMarker") in
    match parse_unsigned (trim_xml_space next_text) with
    | Some next =>
        if (next <=? marker_ self) || (kMaximumMultipartParts <? next) || (next <? r.2) then Throw RuntimeError
        else Ok (mkRecovery r.1 next, false)
    | None => Throw RuntimeError
    end
  else Ok (mkRecovery r.1 (marker_ self), true).

(** [list] and [listed] until [parts] is called; [None]: more than [fuel] requests. *)
Fixpoint list_parts (fuel : nat) (fetch : Z -> result Response) (part_size size : Z) (self : Recovery) :
    option (result Recovery) :=
  match fuel with
  | O => None
  | S fuel =>
      match let? response := fetch (marker_ self) in listed part_size size self response with
      | Throw e => Some (Throw e)
      | Ok (self, true) => Some (Ok self)
      | Ok (self, false) => list_parts fuel fetch part_size size self
      end
  end.

(** What [parts] does with a part: it takes the one that is stored, or uploads the bytes. *)
Inductive PartAction := Reuse (etag : bytes) | Upload.
Record PartStep := mkStep { ps_number : Z; ps_offset : Z; ps_length : Z; ps_action : PartAction }.

Fixpoint parts_loop (part_size size part_index : Z) (etags : list bytes) : list PartStep :=
  match etags with
  | [] => []
  | etag :: etags =>
      let offset := u64 (part_index * part_size) in
      let length := Z.min part_size (u64 (size - offset)) in
      mkStep (part_index + 1) offset length (if vsize etag =? 0 then Upload else Reuse etag) ::
      parts_loop part_size size (part_index + 1) etags
  end.

(** The recovery of an upload that is not one small object, up to its completion. *)
Definition recover_parts (fuel : nat) (fetch : Z -> result Response) (part_size size : Z) (upload_id : bytes) :
    option (result (list PartStep)) :=
  match recovery_count part_size size with
  | Throw e => Some (Throw e)
  | Ok count =>
      let self := mkRecovery (replicate (Z.to_nat count) []) 0 in
      if vsize upload_id =? 0 then Some (Ok (parts_loop part_size size 0 (part_etags self)))
      else
        match list_parts fuel fetch part_size size self with
        | None => None
        | Some r => Some (let? self := r in Ok (parts_loop part_size size 0 (part_etags self)))
        end
  end.

End Service.

(** ** Verification of a cached part *)

Section Verify.
Context `{lib : DigestLibrary}.

(** [pread] of the data file, after interrupted calls: the [n]-th call, at an offset, for at
    most [count] bytes. *)
Variable pread : nat -> Z -> Z -> result bytes.

(** [None]: more than [fuel] calls. *)
Fixpoint checksum_loop (fuel call : nat) (offset size consumed : Z) (checksum : DataChecksum) :
    option (DataChecksum * result unit) :=
  if consumed =? size then Some (checksum, Ok tt)
  else
    match fuel with
    | O => None
    | S fuel =>
        match pread call (offset + consumed) (Z.min kPreferredIoSize (size - consumed)) with
        | Throw e => Some (checksum, Throw e)
        | Ok [] => Some (checksum, Throw RuntimeError)
        | Ok bytes =>
            match DataChecksum_update checksum bytes with
            | (checksum, Throw e) => Some (checksum, Throw e)
            | (checksum, Ok _) => checksum_loop fuel (S call) offset size (consumed + vsize bytes) checksum
            end
        end
    end.

Definition verify_cached_part (fuel : nat) (claim : CacheChecksumClaim) : option (result bool) :=
  match make_DataChecksum (code_algorithm (cc_algorithm claim)) with
  | Throw e => Some (Throw e)
  | Ok checksum =>
      match checksum_loop fuel 0 (cc_offset claim) (cc_size claim) 0 checksum with
      | None => None
      | Some (checksum, r) =>
          Some (let? _ := r in
                let? value := (DataChecksum_finish checksum).2 in
                Ok (str_eqb (cv_base64 value) (cc_value claim)))
      end
  end.

End Verify.

(** ** The manifest covers the object *)

Lemma parts_valid_snoc size offset parts p n :
  parts_valid size offset parts = true -> part_offset p = size -> part_size p = n -> 0 < n -> part_value p <> [] ->
  parts_valid (size + n) offset (parts ++ [p]) = true.
Proof.
  revert offset. induction parts as [|q parts IH]; intros offset H Ho Hn Hpos Hv; cbn [app parts_valid] in *.
  - apply Z.eqb_eq in H as ->. subst n. rewrite Ho, Z.eqb_refl.
    destruct (Z.eqb_spec (part_size p) 0); [lia|]. destruct (Z.ltb_spec (size + part_size p) size); [lia|].
    destruct (Z.ltb_spec (size + part_size p - size) (part_size p)); [lia|]. destruct (part_value p); [done|]. cbn. apply Z.eqb_refl.
  - destruct (negb (part_offset q =? offset) || (part_size q =? 0) || (size <? offset) || (size - offset <? part_size q) ||
      Nat.eqb (length (part_value q)) 0) eqn:E; [done|].
    rewrite !orb_false_iff in E. destruct E as [[[[E1 E2] E3] E4] E5]. rewrite E1, E2, E5. apply Z.ltb_ge in E3, E4.
    destruct (Z.ltb_spec (size + n) offset); [lia|]. destruct (Z.ltb_spec (size + n - offset) (part_size q)); [lia|]. cbn. by apply IH.
Qed.

Definition is_part_algorithm (code : Z) : Prop := exists a, checksum_is_s3 a = true /\ code = algorithm_code a.

Lemma first_part_checksum_ok part preferred l a v :
  first_part_checksum part preferred l = Ok (Some (a, v)) -> a ∈ l /\ v <> [].
Proof.
  induction l as [|c l IH]; cbn; [done|]. case_decide; [intros H1; destruct (IH H1); split; [by constructor|done]|].
  destruct (read_part_checksum part c) as [value|] eqn:E; cbn; [|done].
  destruct (Z.eqb_spec (vsize value) 0) as [|Hne]; [intros H1; destruct (IH H1); split; [by constructor|done]|].
  intros [= <- <-]. split; [constructor|]. by intros ->.
Qed.

Lemma part_checksum_ok part preferred a v :
  part_checksum part preferred = Ok (Some (a, v)) -> checksum_is_s3 a = true /\ v <> [].
Proof.
  assert (Hl : forall a, a ∈ part_algorithms -> checksum_is_s3 a = true).
  { apply Forall_forall. unfold part_algorithms. repeat constructor. }
  unfold part_checksum. destruct (checksum_is_s3 preferred) eqn:Es.
  - destruct (read_part_checksum part preferred) as [value|]; cbn [rbind]; [|done]. destruct (Z.eqb_spec (vsize value) 0) as [|Hne].
    + intros [? ?]%first_part_checksum_ok. auto.
    + intros [= <- <-]. split; [done|]. by intros ->.
  - intros [? ?]%first_part_checksum_ok. auto.
Qed.

Record manifest_inv (object_size : Z) (s : ChecksumManifestState) : Prop := {
  mi_valid : parts_valid (manifest_offset s) 0 (manifest_parts s) = true;
  mi_number : expected_number s = vsize (manifest_parts s) + 1;
  mi_count : vsize (manifest_parts s) <= kMaximumMultipartParts;
  mi_marker : 0 <= marker s <= vsize (manifest_parts s);
  mi_offset : 0 <= manifest_offset s <= object_size;
  mi_algorithms : Forall (fun p => is_part_algorithm (part_algorithm p)) (manifest_parts s);
}.

Lemma new_manifest_inv object_size : 0 <= object_size -> manifest_inv object_size new_manifest.
Proof. intros H. constructor; cbn; unfold kMaximumMultipartParts; try done; lia. Qed.

Lemma parse_unsigned_range s v : parse_unsigned s = Some v -> is_u64 v.
Proof.
  intros (_ & Hd & Hv & Hm)%from_chars_all_spec. unfold UINT64_MAX in Hm. pose proof (digits_value_nonneg s v Hd Hv). lia.
Qed.

Lemma manifest_part_inv object_size preferred s part s' :
  is_u64 object_size -> manifest_inv object_size s -> manifest_part object_size preferred s part = Ok s' ->
  manifest_inv object_size s' /\ marker s' = marker s.
Proof.
  intros Hu I. pose proof I as [Hv Hn Hc Hm Ho Ha]. unfold manifest_part. destruct (negb (named part _)); [by intros [= <-]|].
  destruct (required_text part (lit "PartNumber")) as [nt|]; cbn [rbind]; [|done].
  destruct (required_text part (lit "Size")) as [st|]; cbn [rbind]; [|done].
  destruct (parse_unsigned (trim_xml_space nt)) as [number|] eqn:En; [|done].
  destruct (parse_unsigned (trim_xml_space st)) as [size|] eqn:Es; [|done].
  apply parse_unsigned_range in En, Es. destruct (_ || _) eqn:E; [done|].
  rewrite !orb_false_iff, negb_false_iff, Z.eqb_eq, Z.eqb_neq, !Z.ltb_ge in E. destruct E as [[[[E1 E2] E3] E4] E5].
  destruct (part_checksum part preferred) as [[[a v]|]|] eqn:Ec; cbn [rbind]; [|done..]. apply part_checksum_ok in Ec as [Hs3 Hne].
  unfold kMaximumMultipartParts in *.
  intros [= <-]. unfold u32, u64. rewrite !Z.mod_small by lia. split; [|done]. constructor; cbn; unfold kMaximumMultipartParts.
  - apply parts_valid_snoc; cbn; [done..|lia|done].
  - unfold vsize in *. rewrite length_app. cbn. lia.
  - unfold vsize in *. rewrite length_app. cbn. lia.
  - unfold vsize in *. rewrite length_app. cbn. lia.
  - lia.
  - apply Forall_app. split; [done|]. constructor; [|constructor]. by exists a.
Qed.

Lemma manifest_loop_inv object_size preferred parts s s' :
  is_u64 object_size -> manifest_inv object_size s -> manifest_loop object_size preferred s parts = Ok s' ->
  manifest_inv object_size s' /\ marker s' = marker s.
Proof.
  intros Hu. revert s. induction parts as [|p parts IH]; intros s I; cbn; [by intros [= <-]|].
  destruct (manifest_part object_size preferred s p) as [s1|] eqn:E; cbn [rbind]; [|done].
  destruct (manifest_part_inv _ _ _ _ _ Hu I E) as [I1 E1]. rewrite <- E1. by apply IH.
Qed.

Section ManifestRun.
Variable xml_parse : bytes -> option (option element).

Lemma manifest_page_inv object_size preferred s response s' complete :
  is_u64 object_size -> manifest_inv object_size s ->
  parse_checksum_manifest_page xml_parse s response object_size preferred = Ok (s', complete) ->
  manifest_inv object_size s' /\
  if complete then manifest_offset s' = object_size else marker s < marker s' <= kMaximumMultipartParts.
Proof.
  intros Hu I. unfold parse_checksum_manifest_page. destruct (negb (status response =? 200)); [done|].
  destruct (make_S3Xml _ _) as [xml|]; cbn [rbind]; [|done]. destruct (result_root _ _) as [root|]; cbn [rbind]; [|done].
  destruct (required_child _ _) as [parts|]; cbn [rbind]; [|done].
  destruct (manifest_loop _ _ _ _) as [s1|] eqn:E; cbn [rbind]; [|done]. destruct (manifest_loop_inv _ _ _ _ _ Hu I E) as [I1 E1].
  destruct (required_bool _ _) as [truncated|]; cbn [rbind]; [|done]. destruct truncated; cbn.
  - destruct (required_text _ _) as [nt|]; cbn [rbind]; [|done]. destruct (parse_unsigned _) as [next|]; [|done].
    destruct (_ || _) eqn:Ec; [done|]. rewrite !orb_false_iff, negb_false_iff, Z.eqb_eq, Z.ltb_ge, Z.leb_gt in Ec.
    destruct Ec as [[Ec1 Ec2] Ec3]. intros [= <- <-]. destruct I1 as [Hv Hn Hc Hm Ho Ha].
    unfold u32, kMaximumMultipartParts in *. rewrite Z.mod_small in Ec2 by lia. split; [|cbn; lia].
    constructor; cbn; unfold kMaximumMultipartParts; try done; lia.
  - destruct (Z.eqb_spec (manifest_offset s1) object_size); cbn [rbind]; [|done]. by intros [= <- <-].
Qed.

Lemma get_manifest_spec fetch object_size preferred fuel s :
  is_u64 object_size -> manifest_inv object_size s -> kMaximumMultipartParts - marker s < Z.of_nat fuel ->
  exists r, get_checksum_manifest xml_parse fuel fetch object_size preferred s = Some r /\
    forall parts, r = Ok parts -> parts_valid object_size 0 parts = true /\ vsize parts <= kMaximumMultipartParts /\
      Forall (fun p => is_part_algorithm (part_algorithm p)) parts.
Proof.
  intros Hu. revert s. induction fuel as [|fuel IH]; intros s I Hf.
  { pose proof (mi_marker _ _ I). pose proof (mi_count _ _ I). lia. }
  cbn [get_checksum_manifest]. destruct (fetch (marker s)) as [response|]; cbn [rbind]; [|by eexists].
  destruct (parse_checksum_manifest_page _ _ _ _ _) as [[s' complete]|] eqn:E; [|by eexists].
  destruct (manifest_page_inv _ _ _ _ _ _ Hu I E) as [I' H']. destruct complete.
  - eexists. split; [done|]. intros parts [= <-]. destruct I'. by rewrite <- H'.
  - apply IH; [done|]. lia.
Qed.

End ManifestRun.

(** ** The manifest is what the service has *)

(** A part of the object: size, algorithm and checksum. *)
Definition StoredPart : Type := Z * ChecksumAlgorithm * bytes.

Definition stored_ok (p : StoredPart) : Prop :=
  0 < p.1.1 /\ checksum_is_s3 p.1.2 = true /\ p.2 <> [] /\ Forall (fun c => isspace c = false) p.2.

Definition part_node (number : Z) (p : StoredPart) : xnode :=
  XElement (lit "Part")
    [leaf (lit "PartNumber") (to_chars number); leaf (lit "Size") (to_chars p.1.1); leaf (checksum_xml_name p.1.2) p.2].

Fixpoint part_nodes (number : Z) (ps : list StoredPart) : list xnode :=
  match ps with [] => [] | p :: ps => part_node number p :: part_nodes (number + 1) ps end.

Definition manifest_end (next : option Z) : list xnode :=
  match next with
  | None => [leaf (lit "IsTruncated") (lit "false")]
  | Some next => [leaf (lit "IsTruncated") (lit "true"); leaf (lit "NextPartNumberMarker") (to_chars next)]
  end.

Definition manifest_document (number : Z) (ps : list StoredPart) (next : option Z) : element :=
  (lit "GetObjectAttributesOutput", [XElement (lit "ObjectParts") (part_nodes number ps ++ manifest_end next)]).

(** The parts one after the other from [offset] on. *)
Fixpoint tiled (offset : Z) (ps : list StoredPart) : list CacheChecksumPart :=
  match ps with
  | [] => []
  | p :: ps =>
      {| part_offset := offset; part_size := p.1.1; part_algorithm := algorithm_code p.1.2; part_value := p.2 |} ::
      tiled (offset + p.1.1) ps
  end.

Definition stored_size (ps : list StoredPart) : Z := zsum (fun p : StoredPart => p.1.1) ps.

Lemma read_stored n p c :
  stored_ok p -> checksum_is_s3 c = true ->
  read_part_checksum (lit "Part", [leaf (lit "PartNumber") (to_chars n); leaf (lit "Size") (to_chars p.1.1);
    leaf (checksum_xml_name p.1.2) p.2]) c = Ok (if decide (c = p.1.2) then p.2 else []).
Proof.
  destruct p as [[size a] v]. cbn [fst snd]. intros (_ & Ha & _ & Hv) Hc. cbn [fst snd] in *. unfold read_part_checksum.
  assert (H : optional_text (lit "Part", [leaf (lit "PartNumber") (to_chars n); leaf (lit "Size") (to_chars size);
    leaf (checksum_xml_name a) v]) (checksum_xml_name c) = Ok (if decide (c = a) then v ++ [] else [])).
  { destruct c; try (by apply (f_equal negb) in Hc); destruct a; try (by apply (f_equal negb) in Ha); reflexivity. }
  rewrite H. cbn [rbind]. case_decide; [|done]. by rewrite app_nil_r, trim_plain.
Qed.

Lemma vsize_nonempty {A} (l : list A) : l <> [] -> (vsize l =? 0) = false.
Proof. destruct l; [done|]. intros _. apply Z.eqb_neq. unfold vsize. cbn [length]. lia. Qed.

Lemma part_checksum_stored n p preferred :
  stored_ok p ->
  part_checksum (lit "Part", [leaf (lit "PartNumber") (to_chars n); leaf (lit "Size") (to_chars p.1.1);
    leaf (checksum_xml_name p.1.2) p.2]) preferred = Ok (Some (p.1.2, p.2)).
Proof.
  intros Hp. pose proof Hp as (_ & Ha & Hne & _). set (e := (lit "Part", _)).
  assert (Hl : forall l, Forall (fun a => checksum_is_s3 a = true) l -> p.1.2 ∈ l -> p.1.2 <> preferred ->
    first_part_checksum e preferred l = Ok (Some (p.1.2, p.2))).
  { induction 1 as [|c l Hc _ IH]; intros Hin Hpr; [by apply elem_of_nil in Hin|]. cbn.
    destruct (decide (c = preferred)) as [->|Hcp].
    - apply IH; [|done]. apply elem_of_cons in Hin as [|]; [done|done].
    - unfold e at 1. rewrite read_stored by done. cbn [rbind]. destruct (decide (c = p.1.2)) as [->|Hca].
      + by rewrite vsize_nonempty.
      + cbn. apply IH; [|done]. apply elem_of_cons in Hin as [|]; [done|done]. }
  assert (Hall : Forall (fun a => checksum_is_s3 a = true) part_algorithms) by (unfold part_algorithms; repeat constructor).
  assert (Hin : p.1.2 ∈ part_algorithms).
  { clear -Ha. unfold part_algorithms. destruct (p.1.2); try (by apply (f_equal negb) in Ha); set_solver. }
  unfold part_checksum. destruct (checksum_is_s3 preferred) eqn:Es.
  - unfold e at 1. rewrite read_stored by done. cbn [rbind]. destruct (decide (preferred = p.1.2)) as [->|Hne2].
    + by rewrite vsize_nonempty.
    + cbn [vsize]. change (vsize (@nil ascii) =? 0) with true. cbn iota. by apply Hl; [..|apply not_eq_sym].
  - apply Hl; [done..|]. intros E. by rewrite <- E, Ha in Es.
Qed.

Lemma manifest_part_stored object_size preferred s p :
  is_u64 object_size -> stored_ok p -> 1 <= expected_number s <= kMaximumMultipartParts ->
  0 <= manifest_offset s -> manifest_offset s + p.1.1 <= object_size ->
  (let? e := match part_node (expected_number s) p with XElement n c => Ok (n, c) | _ => Throw RuntimeError end in
   manifest_part object_size preferred s e) =
  Ok (mkManifest (manifest_parts s ++ tiled (manifest_offset s) [p]) (expected_number s + 1) (marker s) (manifest_offset s + p.1.1)).
Proof.
  intros Hu Hp Hn Ho Hs. pose proof Hp as (Hpos & _). unfold kMaximumMultipartParts in *. unfold part_node. cbn [rbind].
  unfold manifest_part. set (e := (lit "Part", _)).
  assert (H0 : named e (lit "Part") = true) by reflexivity.
  assert (H1 : required_text e (lit "PartNumber") = Ok (to_chars (expected_number s) ++ [])).
  { destruct p as [[size a] v]. subst e. cbn [fst snd]. destruct a; reflexivity. }
  assert (H2 : required_text e (lit "Size") = Ok (to_chars p.1.1 ++ [])).
  { destruct p as [[size a] v]. subst e. cbn [fst snd]. destruct a; reflexivity. }
  rewrite H0, H1, H2, !app_nil_r. cbn [negb rbind]. rewrite !parse_to_chars by lia.
  rewrite Z.eqb_refl. destruct (Z.ltb_spec kMaximumMultipartParts (expected_number s)) as [Hl|_]; [unfold kMaximumMultipartParts in Hl; lia|].
  destruct (Z.eqb_spec p.1.1 0); [lia|]. destruct (Z.ltb_spec object_size (manifest_offset s)); [lia|].
  destruct (Z.ltb_spec (object_size - manifest_offset s) p.1.1); [lia|]. cbn [negb orb].
  unfold e. rewrite part_checksum_stored by done. cbn [rbind]. unfold u32, u64. rewrite !Z.mod_small by lia. done.
Qed.

Lemma tiled_app offset ps qs : tiled offset (ps ++ qs) = tiled offset ps ++ tiled (offset + stored_size ps) qs.
Proof.
  revert offset. induction ps as [|p ps IH]; intros offset; cbn [tiled app]; [by rewrite Z.add_0_r|].
  rewrite IH. unfold stored_size. by rewrite zsum_cons, Z.add_assoc.
Qed.

Lemma vsize_tiled offset ps : vsize (tiled offset ps) = vsize ps.
Proof. revert offset. induction ps as [|p ps IH]; intros offset; [done|]. unfold vsize in *. cbn [tiled length]. specialize (IH (offset + p.1.1)). lia. Qed.

Lemma stored_size_nonneg ps : Forall stored_ok ps -> 0 <= stored_size ps.
Proof. intros H. apply zsum_nonneg. intros q Hq. rewrite Forall_forall in H. destruct (H q Hq). lia. Qed.

Lemma manifest_loop_stored object_size preferred ps s k :
  is_u64 object_size -> Forall stored_ok ps -> 1 <= expected_number s ->
  expected_number s + vsize ps <= kMaximumMultipartParts + 1 ->
  0 <= manifest_offset s -> manifest_offset s + stored_size ps <= object_size ->
  manifest_loop object_size preferred s (omap element_of (part_nodes (expected_number s) ps) ++ k) =
  manifest_loop object_size preferred
    (mkManifest (manifest_parts s ++ tiled (manifest_offset s) ps) (expected_number s + vsize ps) (marker s)
       (manifest_offset s + stored_size ps)) k.
Proof.
  intros Hu Hps. revert s. induction Hps as [|p ps Hp Hps IH]; intros s H1 Hn Ho Hs.
  - cbn [part_nodes tiled]. change (vsize (@nil StoredPart)) with 0. change (stored_size []) with 0. rewrite app_nil_r, !Z.add_0_r. by destruct s.
  - assert (Hv : vsize (p :: ps) = vsize ps + 1) by (unfold vsize; cbn [length]; lia).
    assert (Hz : stored_size (p :: ps) = p.1.1 + stored_size ps) by done. rewrite Hv, Hz in *.
    pose proof (stored_size_nonneg ps Hps).
    assert (0 <= vsize ps) by (unfold vsize; lia). pose proof Hp as (Hpos & _).
    pose proof (manifest_part_stored object_size preferred s p Hu Hp) as E.
    cbn [part_nodes omap list_omap]. unfold part_node in *. cbn [element_of app manifest_loop rbind] in *.
    rewrite E by lia. cbn [rbind]. clear E.
    set (s1 := mkManifest _ _ _ _).
    change (expected_number s + 1) with (expected_number s1).
    etrans; [apply (IH s1); cbn; lia|]. f_equal. unfold s1. cbn. rewrite <- app_assoc. f_equal; lia.
Qed.

Lemma part_nodes_other n ps name :
  str_eqb (lit "Part") name = false -> Forall (fun e => named e name = false) (omap element_of (part_nodes n ps)).
Proof.
  intros H. revert n. induction ps as [|p ps IH]; intros n; cbn [part_nodes omap list_omap]; [constructor|].
  unfold part_node. cbn [element_of]. constructor; [exact H|apply IH].
Qed.

Lemma manifest_end_child n ps next name required :
  str_eqb (lit "Part") name = false ->
  unique_child (lit "ObjectParts", part_nodes n ps ++ manifest_end next) name required =
  unique_child (lit "ObjectParts", manifest_end next) name required.
Proof.
  intros H. erewrite unique_child_skip with (k := omap element_of (manifest_end next)); [| |by apply (part_nodes_other n ps)].
  - by destruct next.
  - by rewrite child_elements_eq, omap_app.
Qed.

Section ManifestPages.
Variable xml_parse : bytes -> option (option element).

Definition manifest_answer (fetch : Z -> result Response) (m : Z) (ps : list StoredPart) (next : option Z) : Prop :=
  exists response, fetch m = Ok response /\ status response = 200 /\
    document xml_parse (body response) (manifest_document (m + 1) ps next).

(** The service gives the parts after part [m], page by page. *)
Fixpoint serves_manifest (fetch : Z -> result Response) (m : Z) (pages : list (list StoredPart)) : Prop :=
  match pages with
  | [] => False
  | [ps] => manifest_answer fetch m ps None
  | ps :: pages => ps <> [] /\ manifest_answer fetch m ps (Some (m + vsize ps)) /\ serves_manifest fetch (m + vsize ps) pages
  end.

Lemma manifest_page_stored object_size preferred s response ps next :
  is_u64 object_size -> Forall stored_ok ps -> 0 <= marker s -> expected_number s = marker s + 1 ->
  marker s + vsize ps <= kMaximumMultipartParts ->
  0 <= manifest_offset s -> manifest_offset s + stored_size ps <= object_size ->
  status response = 200 -> document xml_parse (body response) (manifest_document (marker s + 1) ps next) ->
  match next with None => manifest_offset s + stored_size ps = object_size | Some n => ps <> [] /\ n = marker s + vsize ps end ->
  parse_checksum_manifest_page xml_parse s response object_size preferred =
    Ok (mkManifest (manifest_parts s ++ tiled (manifest_offset s) ps) (expected_number s + vsize ps)
          (default (marker s) next) (manifest_offset s + stored_size ps),
        match next with None => true | Some _ => false end).
Proof.
  intros Hu Hps Hm He Hn Ho Hs H200 [Hz Hd] Hnext. unfold parse_checksum_manifest_page, make_S3Xml. rewrite H200, Hz, Hd.
  change (negb (200 =? 200)) with false. cbn iota. cbn [rbind]. rewrite <- He in *.
  set (parts := (lit "ObjectParts", part_nodes (expected_number s) ps ++ manifest_end next)).
  assert (H1 : result_root (manifest_document (expected_number s) ps next) (lit "GetObjectAttributesOutput") =
    Ok (manifest_document (expected_number s) ps next)) by reflexivity.
  assert (H2 : required_child (manifest_document (expected_number s) ps next) (lit "ObjectParts") = Ok parts) by reflexivity.
  rewrite H1. cbn [rbind]. rewrite H2. cbn [rbind]. subst parts. rewrite child_elements_eq, omap_app, manifest_loop_stored by (done || lia).
  set (s1 := mkManifest _ _ _ _).
  assert (H3 : manifest_loop object_size preferred s1 (omap element_of (manifest_end next)) = Ok s1) by (by destruct next).
  rewrite H3. cbn [rbind]. unfold required_bool, required_text, required_child.
  rewrite !manifest_end_child by reflexivity. destruct next as [n|].
  - destruct Hnext as [Hne ->]. assert (Hv : 0 < vsize ps) by (destruct ps; [done|]; unfold vsize; cbn [length]; lia).
    set (n := marker s + vsize ps) in *.
    assert (H4 : (let? e := let? e := unique_child (lit "ObjectParts", manifest_end (Some n)) (lit "IsTruncated") true in
      match e with Some e => Ok e | None => Throw RuntimeError end in element_text e) = Ok (lit "true")) by reflexivity.
    assert (H5 : (let? e := let? e := unique_child (lit "ObjectParts", manifest_end (Some n)) (lit "NextPartNumberMarker") true in
      match e with Some e => Ok e | None => Throw RuntimeError end in element_text e) = Ok (to_chars n ++ [])) by reflexivity.
    rewrite H4. cbn [rbind]. change (trim_xml_space (lit "true")) with (lit "true").
    change (str_eqb (lit "true") (lit "true") || _) with true. cbn iota. cbn [rbind negb]. rewrite H5, app_nil_r. cbn [rbind].
    unfold kMaximumMultipartParts in *. rewrite parse_to_chars by lia. subst s1. cbn [marker expected_number].
    unfold u32. rewrite Z.mod_small by lia.
    destruct (Z.leb_spec n (marker s)); [lia|]. destruct (Z.eqb_spec n (expected_number s + vsize ps - 1)); [|lia].
    destruct (Z.ltb_spec 10000 n); [lia|]. done.
  - cbn -[Z.eqb]. subst s1. cbn [manifest_offset]. rewrite Hnext, Z.eqb_refl. done.
Qed.

Lemma get_manifest_stored fetch object_size preferred pages k s :
  is_u64 object_size -> Forall (Forall stored_ok) pages -> 0 <= marker s -> expected_number s = marker s + 1 ->
  marker s + vsize (concat pages) <= kMaximumMultipartParts ->
  0 <= manifest_offset s -> manifest_offset s + stored_size (concat pages) = object_size ->
  serves_manifest fetch (marker s) pages ->
  get_checksum_manifest xml_parse (length pages + k) fetch object_size preferred s =
    Some (Ok (manifest_parts s ++ tiled (manifest_offset s) (concat pages))).
Proof.
  intros Hu Hall. revert s. induction Hall as [|ps pages Hps Hall IH]; intros s Hm He Hn Ho Hs Hserve; [done|].
  assert (Hvs : vsize (concat (ps :: pages)) = vsize ps + vsize (concat pages)).
  { cbn [concat]. unfold vsize. rewrite length_app. lia. }
  assert (Hsz : stored_size (concat (ps :: pages)) = stored_size ps + stored_size (concat pages)) by apply zsum_app.
  assert (Hpos : 0 <= stored_size (concat pages)) by (apply stored_size_nonneg; by apply Forall_concat).
  rewrite Hvs in Hn. rewrite Hsz in Hs. assert (0 <= vsize (concat pages)) by (unfold vsize; lia).
  assert (0 <= vsize ps) by (unfold vsize; lia). pose proof (stored_size_nonneg ps Hps).
  assert (exists next, manifest_answer fetch (marker s) ps next /\
    match next with None => pages = [] | Some n => ps <> [] /\ n = marker s + vsize ps /\ serves_manifest fetch n pages end)
    as (next & (response & Hf & H200 & Hd) & Hnext).
  { destruct pages as [|qs pages]; [by exists None|]. destruct Hserve as (Hne & Ha & Hs'). by exists (Some (marker s + vsize ps)). }
  cbn [length Nat.add get_checksum_manifest]. rewrite Hf. cbn [rbind].
  assert (Hend : match next with None => manifest_offset s + stored_size ps = object_size | Some n => ps <> [] /\ n = marker s + vsize ps end).
  { destruct next; [by destruct Hnext as (? & ? & _)|]. subst pages. change (stored_size (concat [])) with 0 in Hs. lia. }
  rewrite (manifest_page_stored object_size preferred s response ps next) by first [done | lia].
  destruct next as [n|].
  - destruct Hnext as (Hne & -> & Hserve'). set (s1 := mkManifest _ _ _ _). etrans; [apply (IH s1); subst s1; cbn [marker expected_number manifest_offset default from_option id]; first [done | lia]|].
    subst s1. cbn [manifest_parts manifest_offset concat]. by rewrite <- app_assoc, tiled_app.
  - subst pages. cbn [manifest_parts concat]. by rewrite app_nil_r.
Qed.

End ManifestPages.

(** ** Recovery covers the file *)

(** The steps follow each other from [offset] to [size], with the part numbers from [number] on. *)
Fixpoint covers (part_size size number offset : Z) (steps : list PartStep) : Prop :=
  match steps with
  | [] => offset = size
  | s :: steps =>
      ps_number s = number /\ ps_offset s = offset /\ 0 < ps_length s <= part_size /\
      covers part_size size (number + 1) (offset + ps_length s) steps
  end.

Section RecoveryRun.
Variable xml_parse : bytes -> option (option element).
Variable fetch : Z -> result Response.
Variables part_size size : Z.
Hypothesis part_size_pos : 0 < part_size.
Hypothesis size_range : 0 < size < 2 ^ 64.

(** An answer of the service lists the part with this length and tag. *)
Definition lists_part (number length : Z) (etag : bytes) : Prop :=
  exists m response root child number_text length_text,
    fetch m = Ok response /\ make_S3Xml xml_parse (body response) = Ok root /\ child ∈ child_elements root /\
    named child (lit "Part") = true /\
    required_text child (lit "PartNumber") = Ok number_text /\ parse_unsigned (trim_xml_space number_text) = Some number /\
    required_text child (lit "Size") = Ok length_text /\ parse_unsigned (trim_xml_space length_text) = Some length /\
    required_text child (lit "ETag") = Ok etag.

Let count : Z := (size - 1) / part_size + 1.

Definition etags_ok (etags : list bytes) : Prop :=
  vsize etags = count /\
  forall i, 0 <= i < count -> vget [] etags i <> [] ->
    lists_part (i + 1) (part_length part_size size (i * part_size)) (vget [] etags i).

Lemma part_offset_range i : 0 <= i < count -> 0 <= i * part_size < size.
Proof.
  intros Hi. split; [nia|]. assert (part_size * ((size - 1) / part_size) <= size - 1) by (apply Z.mul_div_le; lia).
  unfold count in Hi. nia.
Qed.

Lemma count_pos : 0 < count.
Proof. unfold count. pose proof (Z.div_pos (size - 1) part_size). lia. Qed.

Lemma last_part : size <= count * part_size.
Proof. unfold count. pose proof (Z.mul_succ_div_gt (size - 1) part_size). nia. Qed.

Lemma listed_part_ok m response root child etags last etags' last' :
  fetch m = Ok response -> make_S3Xml xml_parse (body response) = Ok root -> child ∈ child_elements root ->
  etags_ok etags -> 0 <= last ->
  listed_part part_size size etags last child = Ok (etags', last') -> etags_ok etags' /\ last <= last'.
Proof.
  intros Hf Hx Hc [Hn He] Hl. unfold listed_part. destruct (named child (lit "Part")) eqn:Hp; cbn [negb]; [|by intros [= <- <-]].
  destruct (required_text child (lit "PartNumber")) as [nt|] eqn:Ent; cbn [rbind]; [|done].
  destruct (parse_unsigned (trim_xml_space nt)) as [number|] eqn:En; [|done].
  destruct (required_text child (lit "Size")) as [lt|] eqn:Elt; cbn [rbind]; [|done].
  destruct (parse_unsigned (trim_xml_space lt)) as [length|] eqn:El; [|done].
  destruct (Z.leb_spec number last) as [|Hnum]; [done|]. destruct (Z.ltb_spec (vsize etags) number) as [|Hcnt]; [done|]. cbn [orb].
  destruct (required_text child (lit "ETag")) as [etag|] eqn:Ee; cbn [rbind]; [|done].
  pose proof (part_offset_range (number - 1) ltac:(lia)) as Ho.
  unfold u64. rewrite (Z.mod_small ((number - 1) * part_size)), (Z.mod_small (size - _)) by lia.
  destruct (Z.eqb_spec length (Z.min part_size (size - (number - 1) * part_size))) as [Hlen|]; cbn [negb orb]; [|done].
  destruct (Z.eqb_spec (vsize etag) 0); [done|]. intros [= <- <-]. split; [|lia]. split; [by rewrite vsize_vset|].
  intros i Hi. rewrite vget_vset by lia. destruct (Z.eqb_spec (number - 1) i) as [<-|]; [|by apply He].
  intros _. unfold part_length. rewrite <- Hlen. replace (number - 1 + 1) with number by lia.
  by exists m, response, root, child, nt, lt.
Qed.

Lemma listed_loop_ok m response root children etags last etags' last' :
  fetch m = Ok response -> make_S3Xml xml_parse (body response) = Ok root -> children ⊆ child_elements root ->
  etags_ok etags -> 0 <= last ->
  listed_loop part_size size etags last children = Ok (etags', last') -> etags_ok etags' /\ last <= last'.
Proof.
  intros Hf Hx. revert etags last. induction children as [|c children IH]; intros etags last Hc He Hl; cbn [listed_loop].
  - intros [= <- <-]. split; [done|lia].
  - destruct (listed_part part_size size etags last c) as [[e1 l1]|] eqn:E; cbn [rbind]; [|done]. cbn [fst snd]. intros H.
    destruct (listed_part_ok _ _ _ _ _ _ _ _ Hf Hx (Hc c ltac:(constructor)) He Hl E) as [H1 H2].
    destruct (IH e1 l1) as [H3 H4]; [|done|lia|done|split; [done|lia]]. intros x Hx'. apply Hc. by constructor.
Qed.

Lemma listed_ok self response self' complete :
  fetch (marker_ self) = Ok response -> etags_ok (part_etags self) -> 0 <= marker_ self ->
  listed xml_parse part_size size self response = Ok (self', complete) ->
  etags_ok (part_etags self') /\ (complete = false -> marker_ self < marker_ self' <= kMaximumMultipartParts).
Proof.
  intros Hf He Hm. unfold listed. destruct (require_s3_success _ _) as [|]; cbn [rbind]; [|done].
  destruct (make_S3Xml _ _) as [xml|] eqn:Ex; cbn [rbind]; [|done].
  destruct (result_root _ _) as [root|] eqn:Er; cbn [rbind]; [|done].
  assert (root = xml) as ->.
  { revert Er. unfold result_root. destruct (negb (root_is xml _)); [destruct (_ && _); [done|by intros [= <-]]|].
    by destruct (optional_text xml _). }
  destruct (listed_loop _ _ _ _ _) as [[etags last]|] eqn:El; cbn [rbind]; [|done].
  destruct (listed_loop_ok _ _ _ _ _ _ _ _ Hf Ex ltac:(done) He Hm El) as [He' _].
  destruct (required_bool _ _) as [[|]|]; cbn [rbind fst snd]; [| |done].
  - destruct (required_text _ _) as [nt|]; cbn [rbind]; [|done]. destruct (parse_unsigned _) as [next|]; [|done].
    destruct (Z.leb_spec next (marker_ self)); [done|]. destruct (Z.ltb_spec kMaximumMultipartParts next); [done|].
    destruct (_ || _); [done|]. intros [= <- <-]. cbn. split; [done|lia].
  - intros [= <- <-]. done.
Qed.

Lemma list_parts_ok fuel self :
  etags_ok (part_etags self) -> 0 <= marker_ self <= kMaximumMultipartParts ->
  kMaximumMultipartParts - marker_ self < Z.of_nat fuel ->
  exists r, list_parts xml_parse fuel fetch part_size size self = Some r /\ forall self', r = Ok self' -> etags_ok (part_etags self').
Proof.
  revert self. induction fuel as [|fuel IH]; intros self He Hm Hf; [lia|]. cbn [list_parts].
  destruct (fetch (marker_ self)) as [response|] eqn:Ef; cbn [rbind]; [|by eexists].
  destruct (listed _ _ _ _ _) as [[self' complete]|] eqn:El; [|by eexists].
  destruct (listed_ok _ _ _ _ Ef He ltac:(lia) El) as [He' Hm']. destruct complete.
  - eexists. split; [done|]. by intros ? [= <-].
  - apply IH; [done|specialize (Hm' eq_refl); lia..].
Qed.

Lemma parts_loop_covers etags i :
  0 <= i -> i + vsize etags = count ->
  covers part_size size (i + 1) (Z.min size (i * part_size)) (parts_loop part_size size i etags).
Proof.
  revert i. induction etags as [|e etags IH]; intros i Hi Hc; cbn [parts_loop covers].
  - change (vsize (@nil bytes)) with 0 in Hc. pose proof last_part. assert (i = count) as -> by lia. lia.
  - assert (Hv : vsize (e :: etags) = vsize etags + 1) by (unfold vsize; cbn [length]; lia).
    assert (0 <= vsize etags) by (unfold vsize; lia). rewrite Hv in Hc.
    pose proof (part_offset_range i ltac:(lia)) as Ho. cbn [ps_number ps_offset ps_length].
    unfold u64. rewrite (Z.mod_small (i * part_size)), (Z.mod_small (size - _)) by lia. split_and!; [done|lia..|].
    specialize (IH (i + 1) ltac:(lia) ltac:(lia)).
    by replace (Z.min size (i * part_size) + Z.min part_size (size - i * part_size)) with (Z.min size ((i + 1) * part_size)) by lia.
Qed.

Lemma parts_loop_elem etags i step :
  0 <= i -> i + vsize etags <= count -> step ∈ parts_loop part_size size i etags ->
  exists j, 0 <= j < vsize etags /\ ps_number step = i + j + 1 /\
    ps_length step = part_length part_size size ((i + j) * part_size) /\
    ps_action step = if vsize (vget [] etags j) =? 0 then Upload else Reuse (vget [] etags j).
Proof.
  revert i. induction etags as [|e etags IH]; intros i Hi Hc; cbn [parts_loop]; [by intros ?%elem_of_nil|].
  assert (Hv : vsize (e :: etags) = vsize etags + 1) by (unfold vsize; cbn [length]; lia).
  assert (0 <= vsize etags) by (unfold vsize; lia). rewrite Hv in *. intros [->|Hs]%elem_of_cons.
  - exists 0. cbn [ps_number ps_length ps_action]. pose proof (part_offset_range i ltac:(lia)).
    unfold u64. rewrite (Z.mod_small (i * part_size)), (Z.mod_small (size - _)) by lia. rewrite !Z.add_0_r. split_and!; [lia..|done|done].
  - destruct (IH (i + 1) ltac:(lia) ltac:(lia) Hs) as (j & Hj & Hn & Hl & Ha). exists (j + 1).
    rewrite vget_cons by lia. replace (i + (j + 1)) with (i + 1 + j) by lia. split_and!; [lia..|done|done].
Qed.

Lemma recover_parts_ok fuel upload_id :
  kMaximumMultipartParts < Z.of_nat fuel ->
  exists r, recover_parts xml_parse fuel fetch part_size size upload_id = Some r /\
    forall steps, r = Ok steps ->
      vsize steps <= kMaximumMultipartParts /\ covers part_size size 1 0 steps /\
      forall step etag, step ∈ steps -> ps_action step = Reuse etag -> etag <> [] /\ lists_part (ps_number step) (ps_length step) etag.
Proof.
  intros Hf. unfold recover_parts, recovery_count. destruct (Z.eqb_spec size 0); [lia|]. fold count.
  destruct (Z.ltb_spec kMaximumMultipartParts count) as [|Hmax]; [by eexists|]. pose proof count_pos as Hcp.
  assert (H0 : etags_ok (replicate (Z.to_nat count) [])).
  { split; [unfold vsize; rewrite length_replicate; lia|]. intros i Hi H. exfalso. apply H. unfold vget.
    by rewrite lookup_replicate_2 by lia. }
  assert (Hfin : forall etags, etags_ok etags -> let steps := parts_loop part_size size 0 etags in
    vsize steps <= kMaximumMultipartParts /\ covers part_size size 1 0 steps /\
    forall step etag, step ∈ steps -> ps_action step = Reuse etag -> etag <> [] /\ lists_part (ps_number step) (ps_length step) etag).
  { intros etags [Hn He]. cbv zeta. split_and!.
    - assert (Hlen : forall i, length (parts_loop part_size size i etags) = length etags).
      { clear. induction etags as [|e etags IH]; intros i; cbn [parts_loop length]; [done|]. by rewrite IH. }
      unfold vsize in *. rewrite Hlen. lia.
    - pose proof (parts_loop_covers etags 0 ltac:(lia) ltac:(lia)) as Hc. rewrite Z.mul_0_l in Hc.
      by replace (Z.min size 0) with 0 in Hc by lia.
    - intros step etag Hs Ha. destruct (parts_loop_elem etags 0 step ltac:(lia) ltac:(lia) Hs) as (j & Hj & Hnum & Hl & Hact).
      rewrite Hact in Ha. destruct (Z.eqb_spec (vsize (vget [] etags j)) 0) as [|Hne]; [done|]. injection Ha as <-.
      assert (vget [] etags j <> []) by (by intros E; rewrite E in Hne). split; [done|].
      rewrite Hnum, Hl, Z.add_0_l. apply He; [lia|done]. }
  destruct (vsize upload_id =? 0).
  - eexists. split; [done|]. intros steps [= <-]. by apply Hfin.
  - destruct (list_parts_ok fuel (mkRecovery (replicate (Z.to_nat count) []) 0)) as (r & -> & Hr);
      [done|cbn; unfold kMaximumMultipartParts; lia|cbn; lia|].
    eexists. split; [done|]. destruct r as [self|]; cbn [rbind]; [|done]. intros steps [= <-]. apply Hfin, Hr. done.
Qed.

End RecoveryRun.

(** ** A part is compared whole *)

Lemma run_checksum_chunks `{Hlib : DigestStreaming} a chunks chunks' :
  concat chunks = concat chunks' -> run_checksum a chunks = run_checksum a chunks'.
Proof.
  intros E. destruct (crc64_polynomial a) as [p|] eqn:E64; [by rewrite !(run_checksum_crc64 a p), E by done|].
  destruct (crc32_polynomial a) as [p|] eqn:E32; [by rewrite !(run_checksum_crc32 a p), E by done|].
  destruct (is_library a) eqn:El; [by apply checksum_library_chunks|]. by rewrite !run_checksum_none.
Qed.

Section Reading.
Context `{lib : DigestLibrary}.
Variable file : bytes.
Variable pread : nat -> Z -> Z -> result bytes.

(** [pread] within the file returns at least one byte, and those that are there. *)
Definition reads_file : Prop := forall n offset c, 0 <= offset -> 0 < c -> offset + c <= vsize file ->
  exists k, 0 < k <= c /\ pread n offset c = Ok (substr file offset k).

Lemma checksum_loop_chunks : reads_file -> forall fuel call offset size consumed checksum,
  0 <= offset -> 0 <= consumed <= size -> offset + size <= vsize file -> size - consumed <= Z.of_nat fuel ->
  exists chunks, concat chunks = substr file (offset + consumed) (size - consumed) /\
    checksum_loop pread fuel call offset size consumed checksum = Some (update_all checksum chunks).
Proof.
  intros Hr. induction fuel as [|fuel IH]; intros call offset size consumed checksum Ho Hc Hs Hf.
  - assert (consumed = size) as -> by lia. exists []. cbn. rewrite Z.eqb_refl, Z.sub_diag. done.
  - cbn [checksum_loop]. destruct (Z.eqb_spec consumed size) as [->|Hne].
    { exists []. rewrite Z.sub_diag. done. }
    destruct (Hr call (offset + consumed) (Z.min kPreferredIoSize (size - consumed))) as (k & Hk & ->);
      [lia|unfold kPreferredIoSize; lia..|].
    assert (Hv : vsize (substr file (offset + consumed) k) = k) by (apply vsize_substr; lia).
    set (rest := substr file (offset + consumed + k) (size - consumed - k)).
    assert (Hj : substr file (offset + consumed) k ++ rest = substr file (offset + consumed) (size - consumed)).
    { subst rest. rewrite substr_split by lia. f_equal. lia. }
    destruct (substr file (offset + consumed) k) as [|b bytes] eqn:Eb; [change (vsize (@nil ascii)) with 0 in Hv; lia|].
    destruct (DataChecksum_update checksum (b :: bytes)) as [checksum' [[]|e]] eqn:Eu.
    + destruct (IH (S call) offset size (consumed + vsize (b :: bytes)) checksum') as (chunks & Hcat & E); [lia..|].
      exists ((b :: bytes) :: chunks). cbn [concat update_all]. rewrite Eu, E. split; [|done]. rewrite Hcat, Hv, <- Hj.
      f_equal. subst rest. f_equal; lia.
    + exists [b :: bytes; rest]. cbn [concat update_all]. rewrite Eu, app_nil_r. done.
Qed.

End Reading.

Lemma finish_manifest_parts e parts :
  stale_ e = false -> parts_valid (size_ e) 0 parts = true -> parts <> [] ->
  checksum_parts_ (finish_checksum_manifest parts e) = parts.
Proof.
  intros Hst Hv Hne. unfold finish_checksum_manifest. rewrite Hst, Hv.
  destruct (Nat.eqb_spec (length parts) 0) as [H0|_]; [by destruct parts|]. cbn [negb andb].
  unfold notify_waiters_locked, drop_checksum_op. cbn. by repeat case_match.
Qed.

(** ** Claims *)

(** C12: the checksum manifest of a multipart object.  Whatever the service answers, reading the
    manifest ends within 10,001 requests; a manifest it returns has at most 10,000 parts, each with
    the checksum of an S3 algorithm, which follow each other from the first to the last byte of the
    object, so that the cache takes it as it is.  A service that lists its parts in pages of any
    sizes, with one checksum each, is read exactly. *)
Theorem checksum_manifest_exact xml_parse fetch object_size preferred :
  is_u64 object_size ->
  (exists r, get_checksum_manifest xml_parse 10001 fetch object_size preferred new_manifest = Some r /\
    forall parts, r = Ok parts ->
      parts_valid object_size 0 parts = true /\ vsize parts <= kMaximumMultipartParts /\
      Forall (fun p => is_part_algorithm (part_algorithm p)) parts /\
      forall e, size_ e = object_size -> stale_ e = false -> parts <> [] ->
        checksum_parts_ (finish_checksum_manifest parts e) = parts) /\
  (forall pages k, Forall (Forall stored_ok) pages -> vsize (concat pages) <= kMaximumMultipartParts ->
    stored_size (concat pages) = object_size -> serves_manifest xml_parse fetch 0 pages ->
    get_checksum_manifest xml_parse (length pages + k) fetch object_size preferred new_manifest =
      Some (Ok (tiled 0 (concat pages)))).
Proof.
  intros Hu. split.
  - destruct (get_manifest_spec xml_parse fetch object_size preferred 10001 new_manifest Hu) as (r & E & Hr);
      [apply new_manifest_inv; lia|by vm_compute|].
    exists r. split; [done|]. intros parts Ep. destruct (Hr parts Ep) as (Hv & Hc & Ha). split_and!; [done..|].
    intros e Hs Hst Hne. by apply finish_manifest_parts; [|rewrite Hs|].
  - intros pages k Hall Hc Hs Hserve. by apply (get_manifest_stored xml_parse fetch object_size preferred pages k new_manifest).
Qed.

(** C13: recovery of an interrupted multipart upload.  Whatever the service answers, listing its
    parts ends within 10,001 requests.  When it succeeds, the parts that are completed are numbered
    from 1, at most 10,000, and follow each other from the first to the last byte of the file, and a
    part is reused only when the service lists it under that number with that length and tag. *)
Theorem recovery_covers_file xml_parse fetch part_size size upload_id :
  0 < part_size -> 0 < size < 2 ^ 64 ->
  exists r, recover_parts xml_parse 10001 fetch part_size size upload_id = Some r /\
    forall steps, r = Ok steps ->
      vsize steps <= kMaximumMultipartParts /\ covers part_size size 1 0 steps /\
      forall step etag, step ∈ steps -> ps_action step = Reuse etag ->
        etag <> [] /\ lists_part xml_parse fetch (ps_number step) (ps_length step) etag.
Proof. intros Hp Hs. apply recover_parts_ok; [done..|by vm_compute]. Qed.

(** C14: a cached part is accepted exactly when its checksum is the one in the manifest: however
    many bytes each read of the file returns, the digest is that of the whole part, and of nothing
    else. *)
Theorem verify_part_exact `{Hlib : DigestStreaming} file pread fuel claim :
  reads_file file pread -> 0 <= cc_offset claim -> 0 <= cc_size claim <= Z.of_nat fuel ->
  cc_offset claim + cc_size claim <= vsize file ->
  verify_cached_part pread fuel claim =
    Some (let? value := run_checksum (code_algorithm (cc_algorithm claim)) [substr file (cc_offset claim) (cc_size claim)] in
          Ok (str_eqb (cv_base64 value) (cc_value claim))).
Proof.
  intros Hr Ho Hs Hf. unfold verify_cached_part.
  destruct (make_DataChecksum (code_algorithm (cc_algorithm claim))) as [checksum|e] eqn:Em.
  - destruct (checksum_loop_chunks file pread Hr fuel 0 (cc_offset claim) (cc_size claim) 0 checksum) as (chunks & Hcat & ->); [lia..|].
    rewrite (run_checksum_chunks _ _ chunks); [|rewrite Hcat; cbn [concat]; by rewrite app_nil_r, Z.add_0_r, Z.sub_0_r].
    unfold run_checksum. rewrite Em. cbn [rbind]. by destruct (update_all checksum chunks) as [c [[]|e]].
  - unfold run_checksum. by rewrite Em.
Qed.

(** ** Examples *)

Definition sample_stored : list (list StoredPart) :=
  [[(5, CHECKSUM_SHA256, lit "aa="); (5, CHECKSUM_CRC32C, lit "bb=")]; [(3, CHECKSUM_SHA256, lit "cc=")]].

Definition sample_parts_document : element :=
  let part n size etag := XElement (lit "Part")
    [leaf (lit "PartNumber") (to_chars n); leaf (lit "ETag") (lit etag); leaf (lit "Size") (to_chars size)] in
  (lit "ListPartsResult", [part 1 5 "one"%string; part 3 3 "three"%string; leaf (lit "IsTruncated") (lit "false")]).

Definition parts_parse (text : bytes) : option (option element) :=
  if str_eqb text (lit "first") then Some (Some (manifest_document 1 (vget [] sample_stored 0) (Some 2)))
  else if str_eqb text (lit "second") then Some (Some (manifest_document 3 (vget [] sample_stored 1) None))
  else Some (Some sample_parts_document).

Definition manifest_fetch (m : Z) : result Response :=
  Ok (mkResponse 200 (if m =? 0 then lit "first" else lit "second") []).
Definition parts_fetch (_ : Z) : result Response := Ok (mkResponse 200 (lit "parts") []).

Lemma checksum_manifest_exact_witness :
  get_checksum_manifest parts_parse 2 manifest_fetch 13 CHECKSUM_SHA256 new_manifest =
    Some (Ok [{| part_offset := 0; part_size := 5; part_algorithm := 7; part_value := lit "aa=" |};
              {| part_offset := 5; part_size := 5; part_algorithm := 4; part_value := lit "bb=" |};
              {| part_offset := 10; part_size := 3; part_algorithm := 7; part_value := lit "cc=" |}]).
Proof.
  destruct (checksum_manifest_exact parts_parse manifest_fetch 13 CHECKSUM_SHA256 ltac:(lia)) as [_ H].
  apply (H sample_stored 0%nat); [|by vm_compute|done|].
  - repeat constructor; cbn; lia || done.
  - split; [done|]. split; eexists; (split; [reflexivity|]); by repeat split.
Defined.

Lemma recovery_covers_file_witness :
  let steps := [mkStep 1 0 5 (Reuse (lit "one")); mkStep 2 5 5 Upload; mkStep 3 10 3 (Reuse (lit "three"))] in
  recover_parts parts_parse 10001 parts_fetch 5 13 (lit "id") = Some (Ok steps) /\ covers 5 13 1 0 steps.
Proof.
  intros steps. assert (E : recover_parts parts_parse 10001 parts_fetch 5 13 (lit "id") = Some (Ok steps)) by reflexivity.
  split; [exact E|].
  destruct (recovery_covers_file parts_parse parts_fetch 5 13 (lit "id") ltac:(lia) ltac:(lia)) as (r & E' & H).
  rewrite E in E'. injection E' as <-. by destruct (H steps eq_refl) as (_ & Hc & _).
Defined.

Definition sample_claim : CacheChecksumClaim :=
  {| cc_action := CACHE_CHECKSUM_VERIFY; cc_offset := 2; cc_size := 3; cc_epoch := 0; cc_part := 0;
     cc_algorithm := 7; cc_value := lit "cde" |}.

Lemma verify_part_exact_witness :
  let file := lit "abcdefgh" in
  @verify_cached_part toy_library (fun _ offset _ => Ok (substr file offset 1)) 3 sample_claim = Some (Ok true).
Proof.
  intros file. refine (eq_trans (@verify_part_exact toy_library toy_streaming file _ 3 sample_claim _ _ _ _) _).
  - intros n offset c Ho Hc Hb. exists 1. split; [lia|done].
  - done.
  - cbn. lia.
  - by vm_compute.
  - reflexivity.
Defined.
