(* ===== verification/CacheHeaders.v ===== *)
(** * The cache's headers on disk

    [cache.cpp] keeps two kinds of header in shared mappings: one for the cache root and one for
    each cached object.  They are modelled byte by byte, with the functions that fill them in
    and the tests that decide what a later process accepts: whether the directory belongs to
    this mount, whether a cached object is the generation the server has, and whether an
    interrupted write can be resumed.

    A process can be killed between any two stores to a mapping.  The operations that change a
    header are therefore lists of stores, in program order, with a store for every byte that
    [memset] and [memcpy] write; a crash leaves the effect of a prefix of the list. *)

From S2P Require Import Prelude StdText CacheBitmap CacheCapacity CacheEntry.

(** ** Data *)

Definition kCacheRootVersion : Z := 2.
Definition kCacheMetaVersion : Z := 5.
Definition kCacheByteOrder : Z := 16909060.
Definition kCachePathVersion : Z := 1.
Definition kCacheRootHeaderSize : Z := 4096.
Definition kCacheWriteIdCapacity : Z := 32.
Definition kNamespaceCapacity : Z := 3968.

Definition root_magic : bytes := lit "NGS3ROOT".
Definition meta_magic : bytes := lit "NGS3CACH".
Definition dirty_magic : bytes := lit "NGS3DIRT".

Definition zeros (n : Z) : bytes := replicate (Z.to_nat n) Ascii.zero.

(** [memcpy] to the start of an array, and [memcmp] of the first [n] bytes. *)
Definition memcpy (dst src : bytes) : bytes := src ++ drop (length src) dst.
Definition memcmp_eq (a b : bytes) (n : Z) : bool := str_eqb (take (Z.to_nat n) a) (take (Z.to_nat n) b).

(** [std::string(data, length)] *)
Definition text_of (a : bytes) (n : Z) : bytes := take (Z.to_nat n) a.

Record CacheRootHeader := {
  r_magic : bytes; r_version : Z; r_header_size : Z; r_byte_order : Z; r_bitmap_unit : Z;
  r_path_version : Z; r_namespace_length : Z; r_next_epoch : Z; r_allocated_bytes : Z;
  r_namespace_id : bytes;
}.

(** Named [DiskHeader] here: [CacheEntry.CacheMetaHeader] is the part an open entry changes. *)
Record DiskHeader := mkDiskHeader {
  f_magic : bytes; f_version : Z; f_header_size : Z; f_bitmap_unit : Z; f_flags : Z;
  f_object_size : Z; f_mtime : Z; f_generation_epoch : Z; f_written_end : Z; f_key_length : Z;
  f_etag_length : Z; f_version_length : Z; f_upload_id_length : Z; f_write_id_length : Z;
  f_reserved : Z; f_upload_part_size : Z; f_checksum_algorithm : Z; f_write_phase : Z;
  f_key : bytes; f_etag : bytes; f_version_id : bytes; f_upload_id : bytes; f_write_id : bytes;
}.
#[global] Instance DiskHeader_settable : Settable DiskHeader := fun h =>
  mkDiskHeader (f_magic h) (f_version h) (f_header_size h) (f_bitmap_unit h) (f_flags h)
    (f_object_size h) (f_mtime h) (f_generation_epoch h) (f_written_end h) (f_key_length h)
    (f_etag_length h) (f_version_length h) (f_upload_id_length h) (f_write_id_length h)
    (f_reserved h) (f_upload_part_size h) (f_checksum_algorithm h) (f_write_phase h)
    (f_key h) (f_etag h) (f_version_id h) (f_upload_id h) (f_write_id h).

(** The members of [CacheConfig] that the headers record. *)
Record FormatConfig := { c_namespace_id : bytes; c_upload_part_size : Z; c_checksum_algorithm : Z }.

(** ** The root *)

Definition cache_root_matches (h : CacheRootHeader) (config : FormatConfig) : bool :=
  str_eqb (r_magic h) root_magic &&
  (r_version h =? kCacheRootVersion) &&
  (r_header_size h =? kCacheRootHeaderSize) &&
  (r_byte_order h =? kCacheByteOrder) &&
  (r_bitmap_unit h =? kCacheBitmapUnit) &&
  (r_path_version h =? kCachePathVersion) &&
  (r_namespace_length h =? vsize (c_namespace_id config)) &&
  (r_namespace_length h <=? kNamespaceCapacity) &&
  memcmp_eq (r_namespace_id h) (c_namespace_id config) (vsize (c_namespace_id config)).

Definition cache_initialize_root (config : FormatConfig) : result CacheRootHeader :=
  if kNamespaceCapacity <? vsize (c_namespace_id config) then Throw (SystemError EOVERFLOW)
  else Ok {|
    r_magic := root_magic; r_version := kCacheRootVersion; r_header_size := kCacheRootHeaderSize;
    r_byte_order := kCacheByteOrder; r_bitmap_unit := kCacheBitmapUnit;
    r_path_version := kCachePathVersion; r_namespace_length := u32 (vsize (c_namespace_id config));
    r_next_epoch := 1; r_allocated_bytes := 0;
    r_namespace_id := memcpy (zeros kNamespaceCapacity) (c_namespace_id config);
  |}.

(** ** An entry *)

Definition zero_header : DiskHeader := {|
  f_magic := zeros 8; f_version := 0; f_header_size := 0; f_bitmap_unit := 0; f_flags := 0;
  f_object_size := 0; f_mtime := 0; f_generation_epoch := 0; f_written_end := 0; f_key_length := 0;
  f_etag_length := 0; f_version_length := 0; f_upload_id_length := 0; f_write_id_length := 0;
  f_reserved := 0; f_upload_part_size := 0; f_checksum_algorithm := 0; f_write_phase := 0;
  f_key := zeros kCacheKeyCapacity; f_etag := zeros kCacheEtagCapacity;
  f_version_id := zeros kCacheVersionCapacity; f_upload_id := zeros kCacheUploadIdCapacity;
  f_write_id := zeros kCacheWriteIdCapacity;
|}.

Definition cache_initialize_header (identity : CacheIdentity) (bitmap_unit epoch : Z) : result DiskHeader :=
  if (kCacheKeyCapacity <? vsize (id_key identity)) || (kCacheEtagCapacity <? vsize (id_etag identity)) ||
     (kCacheVersionCapacity <? vsize (id_version_id identity))
  then Throw (SystemError EOVERFLOW)
  else
    Ok (zero_header
      <| f_magic := meta_magic |> <| f_version := kCacheMetaVersion |> <| f_header_size := kCacheMetaHeaderSize |>
      <| f_bitmap_unit := u32 bitmap_unit |> <| f_object_size := id_size identity |> <| f_mtime := id_mtime identity |>
      <| f_generation_epoch := epoch |> <| f_key_length := u32 (vsize (id_key identity)) |>
      <| f_etag_length := u32 (vsize (id_etag identity)) |> <| f_version_length := u32 (vsize (id_version_id identity)) |>
      <| f_key := memcpy (zeros kCacheKeyCapacity) (id_key identity) |>
      <| f_etag := memcpy (zeros kCacheEtagCapacity) (id_etag identity) |>
      <| f_version_id := memcpy (zeros kCacheVersionCapacity) (id_version_id identity) |>).

(** [id] is the text that [cache_hex] makes of the random bytes. *)
Definition cache_initialize_write_id (id : bytes) (h : DiskHeader) : DiskHeader :=
  h <| f_write_id := memcpy (f_write_id h) id |> <| f_write_id_length := u32 (vsize id) |>.

Definition cache_identity_matches (h : DiskHeader) (identity : CacheIdentity) (bitmap_unit : Z) : bool :=
  if negb (str_eqb (f_magic h) meta_magic) || negb (f_version h =? kCacheMetaVersion) ||
     negb (f_header_size h =? kCacheMetaHeaderSize) || has_flag (f_flags h) kCacheMetaDirty ||
     negb (f_bitmap_unit h =? bitmap_unit) || negb (f_object_size h =? id_size identity) ||
     (f_generation_epoch h =? 0) || negb (f_key_length h =? vsize (id_key identity)) ||
     negb (f_etag_length h =? vsize (id_etag identity)) ||
     negb (f_version_length h =? vsize (id_version_id identity)) ||
     (kCacheKeyCapacity <? f_key_length h) || (kCacheEtagCapacity <? f_etag_length h) ||
     (kCacheVersionCapacity <? f_version_length h) || (kCacheUploadIdCapacity <? f_upload_id_length h) ||
     (kCacheWriteIdCapacity <? f_write_id_length h)
  then false
  else if (negb (vsize (id_key identity) =? 0) && negb (memcmp_eq (f_key h) (id_key identity) (vsize (id_key identity)))) ||
          (negb (vsize (id_etag identity) =? 0) && negb (memcmp_eq (f_etag h) (id_etag identity) (vsize (id_etag identity)))) ||
          (negb (vsize (id_version_id identity) =? 0) &&
           negb (memcmp_eq (f_version_id h) (id_version_id identity) (vsize (id_version_id identity))))
  then false
  else if negb (bool_decide (id_version_id identity = [])) || negb (bool_decide (id_etag identity = [])) then true
  else f_mtime h =? id_mtime identity.

(** An exception would leave a [noexcept] function: it ends the process. *)
Definition cache_recovery_header_matches (h : DiskHeader) (key : bytes) (epoch : Z) (config : FormatConfig)
    (mapping_size : Z) : result bool :=
  if str_eqb (f_magic h) meta_magic && (f_version h =? kCacheMetaVersion) &&
     (f_header_size h =? kCacheMetaHeaderSize) && (f_bitmap_unit h =? kCacheBitmapUnit) &&
     has_flag (f_flags h) kCacheMetaDirty && (f_generation_epoch h =? epoch) &&
     (f_key_length h =? vsize key) && (f_key_length h <=? kCacheKeyCapacity) &&
     (f_etag_length h <=? kCacheEtagCapacity) && (f_version_length h <=? kCacheVersionCapacity) &&
     (f_upload_id_length h <=? kCacheUploadIdCapacity) && (f_write_id_length h =? kCacheWriteIdCapacity) &&
     (f_upload_part_size h =? c_upload_part_size config) &&
     (f_checksum_algorithm h =? c_checksum_algorithm config) &&
     ((f_write_phase h =? 1) || (f_write_phase h =? 2)) &&
     (((f_write_phase h =? 1) && (f_upload_id_length h =? 0)) ||
      ((f_write_phase h =? 2) && negb (f_upload_id_length h =? 0))) &&
     (f_written_end h =? f_object_size h)
  then
    let? wanted := cache_mapping_size (f_written_end h) kCacheBitmapUnit in
    Ok ((wanted <=? mapping_size) && memcmp_eq (f_key h) key (vsize key))
  else Ok false.

(** ** The dirty marker *)

Record CacheDirtyMarker := {
  d_magic : bytes; d_version : Z; d_header_size : Z; d_generation_epoch : Z; d_key_length : Z; d_key : bytes;
}.
Record CacheDirtyRecord := { dr_key : bytes; dr_epoch : Z; dr_valid : bool }.

(** The marker that [create_dirty_marker] writes. *)
Definition make_dirty_marker (key : bytes) (epoch : Z) : result CacheDirtyMarker :=
  if kCacheKeyCapacity <? vsize key then Throw (SystemError EOVERFLOW)
  else Ok {|
    d_magic := dirty_magic; d_version := kCacheMetaVersion; d_header_size := kCacheMetaHeaderSize;
    d_generation_epoch := epoch; d_key_length := u32 (vsize key); d_key := memcpy (zeros kCacheKeyCapacity) key;
  |}.

(** What [cache_scan_dirty_directory] makes of a marker it has read. *)
Definition scan_dirty_marker (m : CacheDirtyMarker) : result CacheDirtyRecord :=
  let valid := str_eqb (d_magic m) dirty_magic && (d_version m =? kCacheMetaVersion) &&
               (d_header_size m =? kCacheMetaHeaderSize) && negb (d_generation_epoch m =? 0) in
  if (d_key_length m =? 0) || (kCacheKeyCapacity <? d_key_length m) then Throw RuntimeError
  else Ok {| dr_key := text_of (d_key m) (d_key_length m); dr_epoch := d_generation_epoch m; dr_valid := valid |}.

(** ** Recovery *)

Record Recovered := {
  rec_key : bytes; rec_written_end : Z; rec_upload_id : bytes; rec_write_id : bytes; rec_units : Z;
}.

(** One record of [recover_dirty]: the entry it opens with what [written_end()], [upload_id()]
    and [write_id()] return, or [None] when the key is isolated. *)
Definition recover_record (config : FormatConfig) (record : CacheDirtyRecord) (h : DiskHeader)
    (mapping_size data_size : Z) : result (option Recovered) :=
  if negb (dr_valid record) || (mapping_size <? kCacheMetaHeaderSize) then Ok None
  else
    let? ok := cache_recovery_header_matches h (dr_key record) (dr_epoch record) config mapping_size in
    if negb ok || (Z.max data_size 0 <? f_written_end h) then Ok None
    else Ok (Some {|
      rec_key := dr_key record; rec_written_end := f_written_end h;
      rec_upload_id := text_of (f_upload_id h) (f_upload_id_length h);
      rec_write_id := text_of (f_write_id h) (f_write_id_length h);
      rec_units := if f_written_end h =? 0 then 0 else (f_written_end h - 1) / c_upload_part_size config + 1;
    |}).

(** ** Stores *)

Abbreviation Store := (DiskHeader -> DiskHeader).

Definition run (stores : list Store) (h : DiskHeader) : DiskHeader := foldl (fun h store => store h) h stores.

(** [memset] to zero and [memcpy] of an array member, byte by byte. *)
Definition memset_stores (member : (bytes -> bytes) -> Store) (n : Z) : list Store :=
  map (fun i => member (<[ i := Ascii.zero ]>)) (seq 0 (Z.to_nat n)).
Definition memcpy_stores (member : (bytes -> bytes) -> Store) (src : bytes) : list Store :=
  imap (fun i c => member (<[ i := c ]>)) src.

Definition at_etag (f : bytes -> bytes) : Store := fun h => h <| f_etag := f (f_etag h) |>.
Definition at_version_id (f : bytes -> bytes) : Store := fun h => h <| f_version_id := f (f_version_id h) |>.
Definition at_upload_id (f : bytes -> bytes) : Store := fun h => h <| f_upload_id := f (f_upload_id h) |>.

Definition clear_dirty_store : Store := fun h => h <| f_flags := Z.land (f_flags h) (Z.lxor UINT32_MAX kCacheMetaDirty) |>.

(** The stores of each operation that changes the header of a writer. *)
Definition begin_write_stores : list Store :=
  [ (fun h => h <| f_flags := Z.lor (f_flags h) kCacheMetaDirty |>); (fun h => h <| f_write_phase := 1 |>) ].

Definition publish_dirty_stores (written_end : Z) : list Store :=
  [ (fun h => h <| f_object_size := written_end |>); (fun h => h <| f_written_end := written_end |>) ].

Definition set_upload_id_stores (config : FormatConfig) (id : bytes) : list Store :=
  memset_stores at_upload_id kCacheUploadIdCapacity ++ memcpy_stores at_upload_id id ++
  [ (fun h => h <| f_upload_id_length := u32 (vsize id) |>);
    (fun h => h <| f_upload_part_size := c_upload_part_size config |>);
    (fun h => h <| f_write_phase := if bool_decide (id = []) then 1 else 2 |>) ].

Definition isolate_write_stores (h : DiskHeader) : list Store :=
  if has_flag (f_flags h) kCacheMetaDirty then [ (fun h => h <| f_write_phase := 3 |>) ] else [].

Definition discard_write_stores : list Store :=
  [ clear_dirty_store; (fun h => h <| f_write_phase := 0 |>) ].

Definition commit_write_stores (identity : CacheIdentity) : list Store :=
  memset_stores at_etag kCacheEtagCapacity ++ memset_stores at_version_id kCacheVersionCapacity ++
  memcpy_stores at_etag (id_etag identity) ++ memcpy_stores at_version_id (id_version_id identity) ++
  [ (fun h => h <| f_etag_length := u32 (vsize (id_etag identity)) |>);
    (fun h => h <| f_version_length := u32 (vsize (id_version_id identity)) |>);
    (fun h => h <| f_mtime := id_mtime identity |>);
    clear_dirty_store;
    (fun h => h <| f_write_phase := 0 |>);
    (fun h => h <| f_upload_id_length := 0 |>) ].

(** The header that the creation of a writer for a new generation maps. *)
Definition writer_header (config : FormatConfig) (base : CacheIdentity) (epoch : Z) (write_id : bytes) : result DiskHeader :=
  let identity := {| id_key := id_key base; id_etag := id_etag base; id_version_id := id_version_id base;
                     id_size := 0; id_mtime := 0 |} in
  let? h := cache_initialize_header identity kCacheBitmapUnit epoch in
  let h := cache_initialize_write_id write_id h in
  Ok (h <| f_upload_part_size := c_upload_part_size config |> <| f_checksum_algorithm := c_checksum_algorithm config |>).

(** ** Arrays *)

Lemma foldl_insert_zero k m (a : bytes) i :
  foldl (fun a i => <[ i := Ascii.zero ]> a) a (seq k m) !! i =
    if decide (k <= i < k + m /\ i < length a)%nat then Some Ascii.zero else a !! i.
Proof.
  revert k a. induction m as [|m IH]; intros k a; cbn [seq foldl]; [case_decide; [lia|done]|].
  rewrite IH, length_insert. destruct (decide (i = k)) as [->|Hik].
  - rewrite decide_False by lia. case_decide as Hd.
    + apply list_lookup_insert_eq. lia.
    + rewrite list_insert_ge by lia. done.
  - rewrite list_lookup_insert_ne by done. repeat case_decide; done || lia.
Qed.

Lemma memset_all (a : bytes) n :
  length a = n -> foldl (fun a i => <[ i := Ascii.zero ]> a) a (seq 0 n) = replicate n Ascii.zero.
Proof.
  intros <-. apply list_eq. intros i. rewrite foldl_insert_zero. case_decide as Hd.
  - symmetry. apply lookup_replicate_2. lia.
  - rewrite !lookup_ge_None_2; rewrite ?length_replicate; done || lia.
Qed.

Lemma memcpy_all (src : bytes) : forall k (a : bytes), (k + length src <= length a)%nat ->
  foldl (fun a (f : bytes -> bytes) => f a) a (imap (fun i c => <[ (k + i)%nat := c ]>) src) =
    take k a ++ src ++ drop (k + length src) a.
Proof.
  induction src as [|c src IH]; intros k a Hlen; cbn [imap foldl length] in *.
  - by rewrite Nat.add_0_r, app_nil_l, take_drop.
  - rewrite (imap_ext _ (fun i c => <[ (S k + i)%nat := c ]>)) by (intros i x _; cbn; by replace (k + S i)%nat with (S (k + i)) by lia).
    rewrite IH by (rewrite length_insert; lia). rewrite Nat.add_0_r.
    rewrite (take_S_r _ _ c) by (apply list_lookup_insert_eq; lia).
    rewrite take_insert_ge, drop_insert_lt by lia. rewrite <-app_assoc. by replace (k + S (length src))%nat with (S k + length src)%nat by lia.
Qed.

Lemma text_of_memcpy a src : text_of (memcpy a src) (vsize src) = src.
Proof. unfold text_of, memcpy, vsize. rewrite Nat2Z.id. apply take_app_length. Qed.

Lemma length_memcpy a src : (length src <= length a)%nat -> length (memcpy a src) = length a.
Proof. intros H. unfold memcpy. rewrite length_app, length_drop. lia. Qed.

Lemma run_app s t h : run (s ++ t) h = run t (run s h).
Proof. apply foldl_app. Qed.

(** A member's stores act on that member only. *)
Class Member (member : (bytes -> bytes) -> Store) := {
  member_id h : member (fun a => a) h = h;
  member_comp f g h : member f (member g h) = member (fun a => f (g a)) h;
}.
#[export] Instance Member_etag : Member at_etag.
Proof. by split; intros; destruct h. Qed.
#[export] Instance Member_version_id : Member at_version_id.
Proof. by split; intros; destruct h. Qed.
#[export] Instance Member_upload_id : Member at_upload_id.
Proof. by split; intros; destruct h. Qed.

Lemma run_member member `{!Member member} fs h :
  run (map member fs) h = member (fun a => foldl (fun a (f : bytes -> bytes) => f a) a fs) h.
Proof.
  revert h. induction fs as [|f fs IH]; intros h; cbn; [symmetry; apply member_id|].
  unfold run in IH. rewrite IH. apply member_comp.
Qed.

Lemma memcpy_stores_map member src : memcpy_stores member src = map member (imap (fun i c => <[ i := c ]>) src).
Proof. unfold memcpy_stores. symmetry. apply fmap_imap. Qed.

Lemma memset_stores_map member n :
  memset_stores member n = map member (map (fun i => <[ i := Ascii.zero ]>) (seq 0 (Z.to_nat n))).
Proof. unfold memset_stores. by rewrite map_map. Qed.

(** [memset] of a whole array and [memcpy] into it leave the text and zeros. *)
Lemma foldl_fill (a src : bytes) n :
  length a = Z.to_nat n -> vsize src <= n ->
  foldl (fun a (f : bytes -> bytes) => f a)
    (foldl (fun a (f : bytes -> bytes) => f a) a (map (fun i => <[ i := Ascii.zero ]>) (seq 0 (Z.to_nat n))))
    (imap (fun i c => <[ i := c ]>) src) = memcpy (zeros n) src.
Proof.
  intros Ha Hs. unfold vsize in Hs.
  assert (E : forall l (a : bytes), foldl (fun a (f : bytes -> bytes) => f a) a (map (fun i => <[ i := Ascii.zero ]>) l) =
    foldl (fun a i => <[ i := Ascii.zero ]> a) a l) by (induction l; intros; cbn; auto).
  rewrite E, memset_all by done. apply (memcpy_all src 0 (zeros n)). unfold zeros. rewrite length_replicate. lia.
Qed.

(** ** Which identity a header describes *)

Lemma memcmp_text a b0 b :
  text_of a (vsize b) = b0 -> memcmp_eq a b (vsize b) = true <-> b0 = b.
Proof.
  unfold memcmp_eq, text_of, vsize. rewrite Nat2Z.id, firstn_all. intros ->. by destruct (str_eqb_spec b0 b).
Qed.

Record describes (h : DiskHeader) (i : CacheIdentity) : Prop := {
  ds_magic : f_magic h = meta_magic; ds_version : f_version h = kCacheMetaVersion;
  ds_header : f_header_size h = kCacheMetaHeaderSize; ds_unit : f_bitmap_unit h = kCacheBitmapUnit;
  ds_clean : has_flag (f_flags h) kCacheMetaDirty = false; ds_epoch : f_generation_epoch h <> 0;
  ds_size : f_object_size h = id_size i; ds_mtime : f_mtime h = id_mtime i;
  ds_key_length : f_key_length h = vsize (id_key i); ds_etag_length : f_etag_length h = vsize (id_etag i);
  ds_version_length : f_version_length h = vsize (id_version_id i);
  ds_key : text_of (f_key h) (vsize (id_key i)) = id_key i;
  ds_etag : text_of (f_etag h) (vsize (id_etag i)) = id_etag i;
  ds_version_id : text_of (f_version_id h) (vsize (id_version_id i)) = id_version_id i;
  ds_capacities : vsize (id_key i) <= kCacheKeyCapacity /\ vsize (id_etag i) <= kCacheEtagCapacity /\
    vsize (id_version_id i) <= kCacheVersionCapacity /\ f_upload_id_length h <= kCacheUploadIdCapacity /\
    f_write_id_length h <= kCacheWriteIdCapacity;
}.

(** The server's generation is the cached one.  The modification time decides only when the
    server gives neither an ETag nor a version. *)
Definition same_generation (i j : CacheIdentity) : Prop :=
  id_key i = id_key j /\ id_etag i = id_etag j /\ id_version_id i = id_version_id j /\ id_size i = id_size j /\
  (id_etag i = [] -> id_version_id i = [] -> id_mtime i = id_mtime j).

Lemma array_matches a b0 b :
  text_of a (vsize b0) = b0 ->
  (vsize b0 =? vsize b) && negb (negb (vsize b =? 0) && negb (memcmp_eq a b (vsize b))) = true <-> b0 = b.
Proof.
  intros Ht. rewrite andb_true_iff, Z.eqb_eq. split.
  - intros [El Hm]. rewrite El in Ht. destruct (Z.eqb_spec (vsize b) 0) as [E|].
    + rewrite E in El. unfold vsize in *. by rewrite (nil_length_inv b0), (nil_length_inv b) by lia.
    + cbn in Hm. rewrite negb_involutive in Hm. by apply (memcmp_text a b0 b).
  - intros ->. split; [done|]. apply (memcmp_text a b b) in Ht as Hm. rewrite (proj2 Hm eq_refl). by rewrite andb_false_r.
Qed.

Lemma describes_matches h i j :
  describes h i -> cache_identity_matches h j kCacheBitmapUnit = true <-> same_generation i j.
Proof.
  intros []. destruct ds_capacities0 as (C1 & C2 & C3 & C4 & C5). unfold cache_identity_matches, same_generation.
  rewrite ds_magic0, ds_version0, ds_header0, ds_unit0, ds_clean0, ds_size0, ds_key_length0, ds_etag_length0, ds_version_length0, ds_mtime0.
  rewrite (proj2 (Z.eqb_neq _ _) ds_epoch0), str_eqb_refl, !Z.eqb_refl.
  repeat (match goal with |- context [?a <? ?b] => rewrite (proj2 (Z.ltb_ge a b)) by lia end).
  rewrite <-(array_matches _ _ (id_key j) ds_key0), <-(array_matches _ _ (id_etag j) ds_etag0), <-(array_matches _ _ (id_version_id j) ds_version_id0).
  rewrite <-(Z.eqb_eq (id_size i) (id_size j)), <-(Z.eqb_eq (id_mtime i) (id_mtime j)).
  destruct (Z.eqb_spec (vsize (id_etag i)) (vsize (id_etag j))) as [E2|], (Z.eqb_spec (vsize (id_version_id i)) (vsize (id_version_id j))) as [E3|].
  all: destruct (vsize (id_key i) =? vsize (id_key j)), (id_size i =? id_size j); cbn [negb andb orb];
    try (split; [done|intuition discriminate]).
  assert (Hnil : forall x y : bytes, vsize x = vsize y -> bool_decide (y = []) = bool_decide (x = []))
    by (unfold vsize; intros [] []; cbn; done || lia).
  rewrite (Hnil _ _ E2), (Hnil _ _ E3).
  destruct (negb (vsize (id_key j) =? 0) && _), (negb (vsize (id_etag j) =? 0) && _), (negb (vsize (id_version_id j) =? 0) && _);
    cbn [negb andb orb]; try (split; [done|intuition discriminate]).
  destruct (id_etag i), (id_version_id i); cbn; intuition discriminate.
Qed.

Lemma u32_capacity n c : 0 <= n -> n <= c -> c < 2 ^ 32 -> u32 n = n.
Proof. intros. apply u32_small. lia. Qed.

Lemma initialize_describes i epoch h :
  cache_initialize_header i kCacheBitmapUnit epoch = Ok h -> epoch <> 0 -> describes h i.
Proof.
  unfold cache_initialize_header.
  destruct (Z.ltb_spec kCacheKeyCapacity (vsize (id_key i))), (Z.ltb_spec kCacheEtagCapacity (vsize (id_etag i))),
    (Z.ltb_spec kCacheVersionCapacity (vsize (id_version_id i))); try done. cbn [orb].
  intros <-%Ok_inj He. pose proof (vsize_nonneg (id_key i)). pose proof (vsize_nonneg (id_etag i)).
  pose proof (vsize_nonneg (id_version_id i)).
  split; cbn; try done; try (by eapply u32_capacity); try apply text_of_memcpy.
Qed.

(** ** Writers *)

(** What a writer has done so far, as its operations promise it. *)
Record Writer := mkWriter {
  w_key : bytes; w_epoch : Z; w_write_id : bytes; w_end : Z; w_upload_id : bytes;
}.
#[global] Instance Writer_settable : Settable Writer := fun w =>
  mkWriter (w_key w) (w_epoch w) (w_write_id w) (w_end w) (w_upload_id w).

Inductive HeaderOp :=
  | Publish (written_end : Z)
  | SetUploadId (id : bytes)
  | Isolate
  | Discard
  | Commit (identity : CacheIdentity).

Definition stores (config : FormatConfig) (op : HeaderOp) (h : DiskHeader) : list Store :=
  match op with
  | Publish n => publish_dirty_stores n
  | SetUploadId id => set_upload_id_stores config id
  | Isolate => isolate_write_stores h
  | Discard => discard_write_stores
  | Commit identity => commit_write_stores identity
  end.

Definition after_op (op : HeaderOp) (w : Writer) : Writer :=
  match op with
  | Publish n => w <| w_end := n |>
  | SetUploadId id => w <| w_upload_id := id |>
  | Isolate | Discard | Commit _ => w
  end.

(** The callers publish ends of the file, and set an upload id once, when there is one. *)
Definition permitted (op : HeaderOp) (w : Writer) : Prop :=
  match op with
  | Publish n => is_u64 n
  | SetUploadId id => w_upload_id w = [] /\ id <> [] /\ vsize id <= kCacheUploadIdCapacity
  | Isolate | Discard => True
  | Commit i => vsize (id_etag i) <= kCacheEtagCapacity /\ vsize (id_version_id i) <= kCacheVersionCapacity
  end.

(** The header of a write that goes on. *)
Record live (config : FormatConfig) (w : Writer) (h : DiskHeader) : Prop := {
  lv_magic : f_magic h = meta_magic; lv_version : f_version h = kCacheMetaVersion;
  lv_header : f_header_size h = kCacheMetaHeaderSize; lv_unit : f_bitmap_unit h = kCacheBitmapUnit;
  lv_dirty : has_flag (f_flags h) kCacheMetaDirty = true; lv_epoch : f_generation_epoch h = w_epoch w;
  lv_key_length : f_key_length h = vsize (w_key w); lv_key : text_of (f_key h) (vsize (w_key w)) = w_key w;
  lv_key_ok : 0 < vsize (w_key w) <= kCacheKeyCapacity; lv_epoch_ok : w_epoch w <> 0;
  lv_etag_length : f_etag_length h <= kCacheEtagCapacity;
  lv_version_length : f_version_length h <= kCacheVersionCapacity;
  lv_write_id_length : f_write_id_length h = kCacheWriteIdCapacity;
  lv_write_id : text_of (f_write_id h) kCacheWriteIdCapacity = w_write_id w;
  lv_part_size : f_upload_part_size h = c_upload_part_size config;
  lv_algorithm : f_checksum_algorithm h = c_checksum_algorithm config;
  lv_phase : f_write_phase h = if bool_decide (w_upload_id w = []) then 1 else 2;
  lv_upload_length : f_upload_id_length h = vsize (w_upload_id w);
  lv_upload_ok : vsize (w_upload_id w) <= kCacheUploadIdCapacity;
  lv_upload : text_of (f_upload_id h) (vsize (w_upload_id w)) = w_upload_id w;
  lv_end : f_written_end h = w_end w; lv_size : f_object_size h = w_end w; lv_end_ok : is_u64 (w_end w);
  lv_arrays : length (f_etag h) = Z.to_nat kCacheEtagCapacity /\
    length (f_version_id h) = Z.to_nat kCacheVersionCapacity /\ length (f_upload_id h) = Z.to_nat kCacheUploadIdCapacity;
}.

Definition recovered (config : FormatConfig) (w : Writer) : Recovered := {|
  rec_key := w_key w; rec_written_end := w_end w; rec_upload_id := w_upload_id w; rec_write_id := w_write_id w;
  rec_units := if w_end w =? 0 then 0 else (w_end w - 1) / c_upload_part_size config + 1;
|}.

(** The metadata file is large enough for the bitmap of the object. *)
Definition mapped (n mapping_size : Z) : Prop := kCacheMetaHeaderSize + ((n + 32767) / 32768 + 31) / 32 * 8 <= mapping_size.

Lemma mapping_size_total n :
  is_u64 n -> cache_mapping_size n kCacheBitmapUnit = Ok (kCacheMetaHeaderSize + ((n + 32767) / 32768 + 31) / 32 * 8).
Proof.
  intros Hn. unfold cache_mapping_size, cache_bitmap_words. change kCacheBitmapUnit with 32768.
  assert (E : (if n =? 0 then 0 else (n - 1) / 32768 + 1) = (n + 32767) / 32768).
  { destruct (Z.eqb_spec n 0) as [->|]; [done|]. replace (n + 32767) with (n - 1 + 1 * 32768) by lia. by rewrite Z.div_add. }
  rewrite E. assert (Hb : 0 <= (n + 32767) / 32768 <= 2 ^ 49 + 1).
  { split; [apply Z.div_pos; lia|]. apply Z.div_le_upper_bound; lia. }
  change SIZE_MAX with (2 ^ 64 - 1). rewrite Z.gtb_ltb, (proj2 (Z.ltb_ge _ _)) by lia. cbn [rbind].
  assert (((n + 32767) / 32768 + 31) / 32 <= 2 ^ 49) by (apply Z.div_le_upper_bound; lia).
  rewrite Z.gtb_ltb, (proj2 (Z.ltb_ge _ _)); [done|]. etransitivity; [eassumption|]. vm_compute. discriminate.
Qed.

Lemma live_recovered config w h mapping data :
  live config w h -> mapped (w_end w) mapping -> w_end w <= data ->
  recover_record config {| dr_key := w_key w; dr_epoch := w_epoch w; dr_valid := true |} h mapping data = Ok (Some (recovered config w)).
Proof.
  intros [] Hm Hd. unfold recover_record, cache_recovery_header_matches. cbn [dr_valid dr_key dr_epoch negb orb].
  unfold mapped in Hm. assert (0 <= ((w_end w + 32767) / 32768 + 31) / 32) by (apply Z.div_pos; [|lia]; apply Z.add_nonneg_nonneg; [apply Z.div_pos; lia|lia]).
  rewrite (proj2 (Z.ltb_ge _ _)) by lia.
  rewrite lv_magic0, lv_version0, lv_header0, lv_unit0, lv_dirty0, lv_epoch0, lv_key_length0, lv_write_id_length0,
    lv_part_size0, lv_algorithm0, lv_phase0, lv_upload_length0, lv_end0, lv_size0, str_eqb_refl, !Z.eqb_refl.
  rewrite !(proj2 (Z.leb_le _ _)) by lia.
  assert (E : forall u : bytes, let p := if bool_decide (u = []) then 1 else 2 in
    ((p =? 1) || (p =? 2)) && ((p =? 1) && (vsize u =? 0) || (p =? 2) && negb (vsize u =? 0)) = true) by (by intros []).
  specialize (E (w_upload_id w)). cbn zeta in E. apply andb_true_iff in E as [E1 E2]. rewrite E1, E2. cbn [andb].
  rewrite mapping_size_total by done. cbn [rbind]. rewrite (proj2 (Z.leb_le _ mapping)) by done.
  rewrite (proj2 (memcmp_text _ _ _ lv_key0) eq_refl). cbn [andb negb orb].
  rewrite (proj2 (Z.ltb_ge _ _)) by lia. unfold recovered. by rewrite lv_upload0, lv_write_id0.
Qed.

(** What an accepted header says. *)
Lemma recover_some config record h mapping data r :
  recover_record config record h mapping data = Ok (Some r) ->
  has_flag (f_flags h) kCacheMetaDirty = true /\ f_written_end h = f_object_size h /\
  (f_write_phase h = 1 /\ f_upload_id_length h = 0 \/ f_write_phase h = 2 /\ f_upload_id_length h <> 0) /\
  r = {| rec_key := dr_key record; rec_written_end := f_written_end h;
         rec_upload_id := text_of (f_upload_id h) (f_upload_id_length h);
         rec_write_id := text_of (f_write_id h) (f_write_id_length h);
         rec_units := if f_written_end h =? 0 then 0 else (f_written_end h - 1) / c_upload_part_size config + 1 |}.
Proof.
  unfold recover_record, cache_recovery_header_matches. destruct (_ || _); [done|].
  match goal with |- context [if ?c then _ else Ok false] => destruct c eqn:E end; [|cbn; done].
  destruct (cache_mapping_size _ _); cbn [rbind]; [|done]. destruct (negb _ || _); [done|]. intros H%Ok_inj%(inj Some).
  rewrite !andb_true_iff in E. destruct E as [[Hr Hp] He].
  repeat split; [tauto|by apply Z.eqb_eq| |done].
  rewrite orb_true_iff, !andb_true_iff, negb_true_iff, !Z.eqb_eq, Z.eqb_neq in Hp. tauto.
Qed.

(** ** Every operation *)

Lemma land_cleared f : has_flag (Z.land f (Z.lxor UINT32_MAX kCacheMetaDirty)) kCacheMetaDirty = false.
Proof. unfold has_flag. by rewrite <-Z.land_assoc, Z.land_0_r. Qed.

Lemma lor_dirty f : has_flag (Z.lor f kCacheMetaDirty) kCacheMetaDirty = true.
Proof.
  unfold has_flag. rewrite Z.land_lor_distr_l. change (Z.land kCacheMetaDirty kCacheMetaDirty) with 1.
  destruct (Z.eqb_spec (Z.lor (Z.land f kCacheMetaDirty) 1) 0) as [E|]; [|done]. by apply Z.lor_eq_0_iff in E as [_ ?].
Qed.

Lemma run_fill member `{!Member member} n src h :
  run (memset_stores member n ++ memcpy_stores member src) h =
    member (fun a => foldl (fun a (f : bytes -> bytes) => f a)
      (foldl (fun a (f : bytes -> bytes) => f a) a (map (fun i => <[ i := Ascii.zero ]>) (seq 0 (Z.to_nat n))))
      (imap (fun i c => <[ i := c ]>) src)) h.
Proof. by rewrite run_app, memset_stores_map, memcpy_stores_map, !run_member, member_comp. Qed.

Lemma run_set_upload_id config id h :
  length (f_upload_id h) = Z.to_nat kCacheUploadIdCapacity -> vsize id <= kCacheUploadIdCapacity ->
  run (set_upload_id_stores config id) h =
    h <| f_upload_id := memcpy (zeros kCacheUploadIdCapacity) id |> <| f_upload_id_length := vsize id |>
      <| f_upload_part_size := c_upload_part_size config |> <| f_write_phase := if bool_decide (id = []) then 1 else 2 |>.
Proof.
  intros Hl Hs. unfold set_upload_id_stores. rewrite app_assoc, run_app, run_fill by apply _.
  unfold at_upload_id. rewrite foldl_fill by done. cbn.
  by rewrite (u32_capacity (vsize id) kCacheUploadIdCapacity) by (done || apply vsize_nonneg).
Qed.

Lemma run_commit_write i h :
  length (f_etag h) = Z.to_nat kCacheEtagCapacity -> length (f_version_id h) = Z.to_nat kCacheVersionCapacity ->
  vsize (id_etag i) <= kCacheEtagCapacity -> vsize (id_version_id i) <= kCacheVersionCapacity ->
  run (commit_write_stores i) h =
    h <| f_etag := memcpy (zeros kCacheEtagCapacity) (id_etag i) |>
      <| f_version_id := memcpy (zeros kCacheVersionCapacity) (id_version_id i) |>
      <| f_etag_length := vsize (id_etag i) |> <| f_version_length := vsize (id_version_id i) |>
      <| f_mtime := id_mtime i |> <| f_flags := Z.land (f_flags h) (Z.lxor UINT32_MAX kCacheMetaDirty) |>
      <| f_write_phase := 0 |> <| f_upload_id_length := 0 |>.
Proof.
  intros Hl1 Hl2 H1 H2. unfold commit_write_stores. rewrite !run_app, !memset_stores_map, !memcpy_stores_map, !run_member by apply _.
  unfold at_etag, at_version_id. cbn. rewrite !foldl_fill by done.
  rewrite (u32_capacity (vsize (id_etag i)) kCacheEtagCapacity) by (done || apply vsize_nonneg).
  by rewrite (u32_capacity (vsize (id_version_id i)) kCacheVersionCapacity) by (done || apply vsize_nonneg).
Qed.

Lemma live_after config w h op :
  live config w h -> permitted op w -> match op with Publish _ | SetUploadId _ => True | _ => False end ->
  live config (after_op op w) (run (stores config op h) h).
Proof.
  intros L P Hop. destruct op as [n|id| | |]; [| |destruct Hop..]; cbn [stores after_op permitted] in *.
  - destruct L. by split.
  - destruct P as (Hw & Hid & Hs). pose proof (lv_arrays _ _ _ L) as (_ & _ & Hl).
    rewrite run_set_upload_id by done. destruct L. split; cbn; try done.
    + apply text_of_memcpy.
    + destruct lv_arrays0 as (? & ? & ?). split_and!; [done..|]. unfold vsize in Hs.
      rewrite length_memcpy; unfold zeros; rewrite length_replicate; [done|lia].
Qed.

(** Array stores leave everything else alone. *)
Lemma run_array_stores (s : list Store) h :
  Forall (fun st => exists f, st = at_etag f \/ st = at_version_id f) s ->
  exists e v, run s h = h <| f_etag := e |> <| f_version_id := v |>.
Proof.
  intros Hs. revert h. induction Hs as [|st s (f & Hst) _ IH]; intros h; [exists (f_etag h), (f_version_id h); by destruct h|].
  destruct (IH (st h)) as (e & v & E). exists e, v. cbn. unfold run in E. rewrite E. by destruct h, Hst as [-> | ->].
Qed.

Lemma run_upload_stores (s : list Store) h :
  Forall (fun st => exists f, st = at_upload_id f) s -> exists u, run s h = h <| f_upload_id := u |>.
Proof.
  intros Hs. revert h. induction Hs as [|st s (f & ->) _ IH]; intros h; [exists (f_upload_id h); by destruct h|].
  destruct (IH (at_upload_id f h)) as (u & E). exists u. cbn. unfold run in E. rewrite E. by destruct h.
Qed.

Lemma member_stores_Forall (P : Store -> Prop) member n src :
  (forall f, P (member f)) -> Forall P (memset_stores member n) /\ Forall P (memcpy_stores member src).
Proof.
  intros HP. rewrite memset_stores_map, memcpy_stores_map.
  split; apply Forall_map, Forall_true; intros; apply HP.
Qed.

Lemma take_app_cases {A} k (a b : list A) : take k (a ++ b) = take k a \/ exists j, take k (a ++ b) = a ++ take (S j) b /\ (k = length a + S j)%nat.
Proof.
  rewrite take_app. destruct (decide (k <= length a)%nat); [left; by replace (k - length a)%nat with 0%nat by lia; rewrite app_nil_r|].
  right. exists (k - length a - 1)%nat. rewrite (take_ge a) by lia. split; [|lia]. do 2 f_equal. lia.
Qed.

(** A torn header whose members that recovery reads are those of the live one. *)
Lemma torn_same config w h h' record mapping data r :
  recover_record config record h' mapping data = Ok (Some r) -> live config w h -> dr_key record = w_key w ->
  f_written_end h' = f_written_end h -> f_write_id h' = f_write_id h -> f_write_id_length h' = f_write_id_length h ->
  text_of (f_upload_id h') (f_upload_id_length h') = text_of (f_upload_id h) (f_upload_id_length h) ->
  r = recovered config w.
Proof.
  intros (_ & _ & _ & ->)%recover_some [] Ek E1 E2 E3 E4. unfold recovered.
  by rewrite Ek, E1, E2, E3, E4, lv_end0, lv_upload_length0, lv_upload0, lv_write_id_length0, lv_write_id0.
Qed.

Lemma crash_publish config w h n k record mapping data r :
  live config w h -> dr_key record = w_key w ->
  recover_record config record (run (take k (publish_dirty_stores n)) h) mapping data = Ok (Some r) ->
  r = recovered config w \/ r = recovered config (w <| w_end := n |>).
Proof.
  intros L Ek Hr. destruct k as [|[|k]].
  1,2: left; by eapply torn_same.
  right. rewrite take_ge in Hr by (cbn; lia). cbn in Hr. apply recover_some in Hr as (_ & _ & _ & ->). destruct L.
  unfold recovered. cbn. by rewrite Ek, lv_upload_length0, lv_upload0, lv_write_id_length0, lv_write_id0.
Qed.

Lemma upload_id_nonzero (id : bytes) : id <> [] -> vsize id <= kCacheUploadIdCapacity -> u32 (vsize id) <> 0.
Proof.
  intros Hid Hs. rewrite (u32_capacity _ kCacheUploadIdCapacity (vsize_nonneg _) Hs eq_refl).
  unfold vsize. destruct id; [by destruct Hid|cbn; lia].
Qed.

Lemma crash_set_upload_id config w h id k record mapping data r :
  live config w h -> dr_key record = w_key w ->
  w_upload_id w = [] -> id <> [] -> vsize id <= kCacheUploadIdCapacity ->
  recover_record config record (run (take k (set_upload_id_stores config id)) h) mapping data = Ok (Some r) ->
  r = recovered config w \/ r = recovered config (w <| w_upload_id := id |>).
Proof.
  intros L Ek Hw Hid Hs Hr.
  pose proof (member_stores_Forall (fun st => exists f, st = at_upload_id f) at_upload_id kCacheUploadIdCapacity id
    (fun f => ex_intro _ f eq_refl)) as F.
  rewrite <-Forall_app in F. destruct (decide (length (set_upload_id_stores config id) <= k)%nat) as [Hk|Hk].
  { right. rewrite take_ge, run_set_upload_id in Hr by (done || apply L). apply recover_some in Hr as (_ & _ & _ & ->).
    destruct L. unfold recovered. cbn. by rewrite Ek, text_of_memcpy, lv_end0, lv_write_id_length0, lv_write_id0. }
  left. revert Hr Hk. unfold set_upload_id_stores. rewrite app_assoc.
  match goal with |- context [take k (?a ++ ?b)] => destruct (take_app_cases k a b) as [-> |(j & -> & ->)]; intros Hr Hk end.
  - destruct (run_upload_stores _ h (Forall_take _ k _ F)) as [u Eu]. rewrite Eu in Hr. eapply torn_same; [exact Hr|exact L|done..|].
    cbn. by rewrite (lv_upload_length _ _ _ L), Hw.
  - exfalso. destruct (run_upload_stores _ h F) as [u Eu]. pose proof (lv_phase _ _ _ L) as Hph. rewrite Hw in Hph. cbn in Hph.
    pose proof (upload_id_nonzero id Hid Hs) as Hu.
    rewrite length_app in Hk. cbn [length] in Hk. rewrite run_app, Eu in Hr.
    destruct j as [|[|j]]; [| |lia]; cbn in Hr; apply recover_some in Hr as (_ & _ & Hp & _); cbn in Hp; rewrite Hph in Hp; lia.
Qed.

(** No prefix of the stores that end a write is accepted as anything but the write before. *)
Lemma crash_commit config w h i k record mapping data r :
  live config w h -> dr_key record = w_key w ->
  recover_record config record (run (take k (commit_write_stores i)) h) mapping data = Ok (Some r) -> r = recovered config w.
Proof.
  intros L Ek Hr. set (P := fun st : Store => exists f, st = at_etag f \/ st = at_version_id f).
  pose proof (member_stores_Forall P at_etag kCacheEtagCapacity (id_etag i) (fun f => ex_intro _ f (or_introl eq_refl))) as [F1 F2].
  pose proof (member_stores_Forall P at_version_id kCacheVersionCapacity (id_version_id i) (fun f => ex_intro _ f (or_intror eq_refl))) as [F3 F4].
  revert Hr. unfold commit_write_stores. rewrite !app_assoc.
  match goal with |- context [take k (?a ++ ?b)] => assert (F : Forall P a) by (by rewrite !Forall_app);
    destruct (take_app_cases k a b) as [-> |(j & -> & _)] end; intros Hr.
  - destruct (run_array_stores _ h (Forall_take _ k _ F)) as (e & v & Ev). rewrite Ev in Hr. by eapply torn_same.
  - destruct (run_array_stores _ h F) as (e & v & Ev). rewrite run_app, Ev in Hr.
    do 3 (destruct j as [|j]; [by eapply torn_same|]).
    apply recover_some in Hr as (Hf & _). revert Hf.
    do 3 (destruct j as [|j]; [cbn; by rewrite land_cleared|]). cbn. by rewrite land_cleared.
Qed.

(** The crash of an operation of a live writer: what is accepted is the state before it or the
    state after it. *)
Lemma crash_atomic config w h op k mapping data r :
  live config w h -> permitted op w ->
  recover_record config {| dr_key := w_key w; dr_epoch := w_epoch w; dr_valid := true |}
    (run (take k (stores config op h)) h) mapping data = Ok (Some r) ->
  r = recovered config w \/ r = recovered config (after_op op w).
Proof.
  intros L P Hr. destruct op as [n|id| | |i]; cbn [stores after_op permitted] in *.
  - eapply crash_publish; [exact L| |exact Hr]. reflexivity.
  - destruct P as (Hw & Hid & Hs). eapply crash_set_upload_id; [exact L| |exact Hw|exact Hid|exact Hs|exact Hr]. reflexivity.
  - left. unfold isolate_write_stores in Hr. rewrite (lv_dirty _ _ _ L) in Hr. destruct k as [|k]; [by eapply torn_same|].
    cbn in Hr. rewrite take_nil in Hr. apply recover_some in Hr as (_ & _ & Hp & _). cbn in Hp. lia.
  - left. destruct k as [|k]; [by eapply torn_same|]. apply recover_some in Hr as (Hf & _). revert Hf.
    destruct k as [|k]; cbn; rewrite ?take_nil; cbn; by rewrite land_cleared.
  - left. eapply crash_commit; [exact L| |exact Hr]. reflexivity.
Qed.

(** Recovery always reaches a verdict. *)
Lemma recover_total config record h mapping data :
  is_u64 (f_written_end h) -> exists res, recover_record config record h mapping data = Ok res.
Proof.
  intros Hu. unfold recover_record, cache_recovery_header_matches. destruct (_ || _); [by eexists|].
  match goal with |- context [if ?c then _ else Ok false] => destruct c end; [|by eexists].
  rewrite mapping_size_total by done. cbn [rbind]. destruct (negb _ || _); by eexists.
Qed.

Ltac each_store := repeat (apply Forall_cons_2; [intros ??; assumption|]); apply Forall_nil_2.

Lemma stores_keep_u64 config op h w :
  permitted op w -> Forall (fun st : Store => forall h, is_u64 (f_written_end h) -> is_u64 (f_written_end (st h))) (stores config op h).
Proof.
  intros P. destruct op as [n|id| | |i]; cbn [stores permitted] in *.
  - each_store.
  - unfold set_upload_id_stores. rewrite app_assoc. apply Forall_app. split; [|each_store].
    apply Forall_app, member_stores_Forall. done.
  - unfold isolate_write_stores. case_match; each_store.
  - each_store.
  - match goal with |- Forall ?Q _ => destruct (member_stores_Forall Q at_etag kCacheEtagCapacity (id_etag i)) as [F1 F2]; [done|];
      destruct (member_stores_Forall Q at_version_id kCacheVersionCapacity (id_version_id i)) as [F3 F4]; [done|] end.
    unfold commit_write_stores. rewrite !Forall_app. split_and!; [assumption..|each_store].
Qed.

Lemma run_keeps (P : DiskHeader -> Prop) s h : Forall (fun st : Store => forall h, P h -> P (st h)) s -> P h -> P (run s h).
Proof. intros F. revert h. induction F as [|st s Hst _ IH]; intros h Hh; [done|]. cbn. by apply IH, Hst. Qed.

(** ** Histories of writes *)

(** A writer publishes and sets its upload id; the other operations end the write. *)
Definition goes_on (op : HeaderOp) : bool := match op with Publish _ | SetUploadId _ => true | _ => false end.

Definition written (ops : list HeaderOp) (w : Writer) : Writer := foldl (fun w op => after_op op w) w ops.
Definition header_after (config : FormatConfig) (ops : list HeaderOp) (h : DiskHeader) : DiskHeader :=
  foldl (fun h op => run (stores config op h) h) h ops.

Fixpoint history (ops : list HeaderOp) (w : Writer) : Prop :=
  match ops with [] => True | op :: ops => goes_on op = true /\ permitted op w /\ history ops (after_op op w) end.

Lemma history_live config ops w h :
  live config w h -> history ops w -> live config (written ops w) (header_after config ops h).
Proof.
  revert w h. induction ops as [|op ops IH]; intros w h L H; [done|]. destruct H as (Hg & P & H). cbn.
  apply IH; [|done]. apply live_after; [done..|]. by destruct op.
Qed.

Definition new_writer (base : CacheIdentity) (epoch : Z) (write_id : bytes) : Writer :=
  {| w_key := id_key base; w_epoch := epoch; w_write_id := write_id; w_end := 0; w_upload_id := [] |}.

Lemma writer_live config base epoch write_id h :
  writer_header config base epoch write_id = Ok h -> id_key base <> [] -> epoch <> 0 -> vsize write_id = kCacheWriteIdCapacity ->
  live config (new_writer base epoch write_id) (run begin_write_stores h).
Proof.
  intros Hh Hk He Hw. unfold writer_header in Hh. apply rbind_ok in Hh as (h1 & Hi & E). injection E as <-.
  unfold cache_initialize_header in Hi. cbn in Hi.
  destruct (Z.ltb_spec kCacheKeyCapacity (vsize (id_key base))) as [|C1], (Z.ltb_spec kCacheEtagCapacity (vsize (id_etag base))) as [|C2],
    (Z.ltb_spec kCacheVersionCapacity (vsize (id_version_id base))) as [|C3]; try discriminate.
  cbn [orb] in Hi. injection Hi as <-.
  pose proof (u32_capacity _ _ (vsize_nonneg (id_key base)) C1 eq_refl) as U1.
  pose proof (u32_capacity _ _ (vsize_nonneg (id_etag base)) C2 eq_refl) as U2.
  pose proof (u32_capacity _ _ (vsize_nonneg (id_version_id base)) C3 eq_refl) as U3.
  assert (Hkey : 0 < vsize (id_key base)) by (unfold vsize; destruct (id_key base); [by destruct Hk|cbn; lia]).
  assert (Harr : forall n src, 0 <= n -> vsize src <= n -> length (memcpy (zeros n) src) = Z.to_nat n).
  { intros n src Hn Hs. unfold vsize in Hs. rewrite length_memcpy; unfold zeros; rewrite length_replicate; lia. }
  unfold begin_write_stores, cache_initialize_write_id. split; cbn -[Z.lor zeros].
  all: rewrite ?U1, ?U2, ?U3, ?Hw; try reflexivity; try assumption; try (apply text_of_memcpy).
  - split; assumption.
  - rewrite <-Hw. apply text_of_memcpy.
  - apply Z.leb_le. reflexivity.
  - lia.
  - split_and!; [apply Harr; [done|assumption]..|reflexivity].
Qed.

(** ** The header of an open entry is what is on disk *)

Definition view (h : DiskHeader) : CacheMetaHeader := {|
  flags := f_flags h; object_size := f_object_size h; mtime := f_mtime h; written_end := f_written_end h;
  etag := text_of (f_etag h) (f_etag_length h); version_id := text_of (f_version_id h) (f_version_length h);
  upload_id := text_of (f_upload_id h) (f_upload_id_length h);
  header_part_size := f_upload_part_size h; write_phase := f_write_phase h;
|}.

(** The effect of an operation of [CacheEntry] on the entry. *)
Definition entry_op (config : CacheConfig) (msync : option Z) (op : HeaderOp) (e : CacheEntry) : CacheEntry * result unit :=
  match op with
  | Publish n => publish_dirty (written_end (header_ e)) (n - written_end (header_ e)) n e
  | SetUploadId id => set_upload_id config id e
  | Isolate => (isolate_write e, Ok tt)
  | Discard => (discard_write e, Ok tt)
  | Commit identity => commit_write identity msync e
  end.

(** ** Theorems *)

(** C6: a cached write survives the death of the process.  After any history of published
    ranges and upload ids, the marker leads a new process to exactly the bytes, the upload
    and the write id the writer had.  When the process dies within an operation, between any
    two bytes it stores, recovery reaches a verdict: it resumes the write as it was before the
    operation or as it is after it, or isolates the key; it never resumes from a torn header. *)
Theorem write_recovery_atomic config base epoch write_id h0 ops :
  writer_header config base epoch write_id = Ok h0 ->
  id_key base <> [] -> epoch <> 0 -> vsize write_id = kCacheWriteIdCapacity ->
  history ops (new_writer base epoch write_id) ->
  let w := written ops (new_writer base epoch write_id) in
  let h := header_after config ops (run begin_write_stores h0) in
  exists marker record,
    make_dirty_marker (id_key base) epoch = Ok marker /\ scan_dirty_marker marker = Ok record /\
    (forall mapping data, mapped (w_end w) mapping -> w_end w <= data ->
       recover_record config record h mapping data = Ok (Some (recovered config w))) /\
    (forall op k mapping data, permitted op w ->
       exists res, recover_record config record (run (take k (stores config op h)) h) mapping data = Ok res /\
         (res = None \/ res = Some (recovered config w) \/ res = Some (recovered config (after_op op w)))).
Proof.
  intros Hh Hk He Hw Hops w h. pose proof (history_live _ _ _ _ (writer_live _ _ _ _ _ Hh Hk He Hw) Hops) as L.
  fold w h in L. assert (Ekey : forall ops w, w_key (written ops w) = w_key w /\ w_epoch (written ops w) = w_epoch w).
  { intros l. induction l as [|o l IH]; intros u; [done|]. cbn. unfold written in IH. destruct (IH (after_op o u)) as [-> ->]. by destruct o. }
  destruct (Ekey ops (new_writer base epoch write_id)) as [E1 E2]. fold w in E1, E2. cbn in E1, E2.
  pose proof (lv_key_ok _ _ _ L) as Hlen. rewrite E1 in Hlen.
  eexists _, {| dr_key := w_key w; dr_epoch := w_epoch w; dr_valid := true |}. split; [|split; [|split]].
  - unfold make_dirty_marker. rewrite (proj2 (Z.ltb_ge _ _)) by lia. reflexivity.
  - unfold scan_dirty_marker. cbn [d_magic d_version d_header_size d_generation_epoch d_key_length d_key].
    rewrite (u32_capacity _ _ (vsize_nonneg _) (proj2 Hlen) eq_refl), text_of_memcpy.
    rewrite (proj2 (Z.eqb_neq (vsize (id_key base)) 0)), (proj2 (Z.ltb_ge _ _)) by lia.
    rewrite str_eqb_refl, !Z.eqb_refl, (proj2 (Z.eqb_neq _ _) He), E1, E2. reflexivity.
  - intros. by apply live_recovered.
  - intros op k mapping data P. destruct (recover_total config {| dr_key := w_key w; dr_epoch := w_epoch w; dr_valid := true |}
      (run (take k (stores config op h)) h) mapping data) as [[r|] Hr].
    + apply (run_keeps (fun h => is_u64 (f_written_end h))); [apply Forall_take; by eapply stores_keep_u64|].
      rewrite (lv_end _ _ _ L). apply (lv_end_ok _ _ _ L).
    + exists (Some r). split; [done|right]. destruct (crash_atomic _ _ _ _ _ _ _ _ L P Hr) as [-> | ->]; auto.
    + exists None. auto.
Qed.

Definition sample_config : FormatConfig := {| c_namespace_id := lit "bucket"; c_upload_part_size := 8388608; c_checksum_algorithm := 1 |}.
Definition sample_base : CacheIdentity := {| id_key := lit "dir/file"; id_etag := lit "e0"; id_version_id := []; id_size := 10; id_mtime := 7 |}.
Definition sample_write_id : bytes := replicate 32 "a"%char.
Definition sample_header : DiskHeader :=
  match writer_header sample_config sample_base 3 sample_write_id with Ok h => h | Throw _ => zero_header end.

Lemma sample_header_ok : writer_header sample_config sample_base 3 sample_write_id = Ok sample_header.
Proof. reflexivity. Qed.

Lemma write_recovery_atomic_witness :
  exists marker record, make_dirty_marker (lit "dir/file") 3 = Ok marker /\ scan_dirty_marker marker = Ok record /\
    recover_record sample_config record
      (header_after sample_config [Publish 100; SetUploadId (lit "up"); Publish 250] (run begin_write_stores sample_header)) 8192 300 =
      Ok (Some {| rec_key := lit "dir/file"; rec_written_end := 250; rec_upload_id := lit "up"; rec_write_id := sample_write_id; rec_units := 1 |}).
Proof.
  destruct (write_recovery_atomic sample_config sample_base 3 sample_write_id sample_header
    [Publish 100; SetUploadId (lit "up"); Publish 250] sample_header_ok) as (m & r & H1 & H2 & H3 & _).
  - discriminate.
  - discriminate.
  - reflexivity.
  - repeat split; discriminate.
  - exists m, r. split; [exact H1|]. split; [exact H2|]. apply (H3 8192 300); discriminate.
Defined.

Lemma commit_describes config w h i :
  live config w h -> id_key i = w_key w -> id_size i = w_end w ->
  vsize (id_etag i) <= kCacheEtagCapacity -> vsize (id_version_id i) <= kCacheVersionCapacity ->
  describes (run (commit_write_stores i) h) i.
Proof.
  intros L Ek Es H1 H2. destruct (lv_arrays _ _ _ L) as (A1 & A2 & _). rewrite run_commit_write by assumption.
  destruct L. split; cbn -[zeros]; try assumption; try reflexivity; try apply text_of_memcpy; try congruence.
  - apply land_cleared.
  - rewrite Ek, lv_write_id_length0. repeat split; try assumption; try apply lv_key_ok0; done.
Qed.

(** C22: a write that ends by committing is not recovered twice, and loses its key.  From the
    store that clears the dirty flag on, while [commit_write] waits for the metadata to reach
    the disk and before it removes the marker, the header describes the committed generation
    and a reader may use it; a process that dies there leaves a marker that makes the next
    mount isolate the key.  The same happens between the two stores of a publication. *)
Theorem commit_crash_blocks_key config w h i record mapping data :
  live config w h -> permitted (Commit i) w -> id_key i = w_key w -> id_size i = w_end w ->
  (forall j, cache_identity_matches (run (stores config (Commit i) h) h) j kCacheBitmapUnit = true <-> same_generation i j) /\
  recover_record config record (run (stores config (Commit i) h) h) mapping data = Ok None /\
  (forall n, n <> w_end w -> recover_record config record (run (take 1 (stores config (Publish n) h)) h) mapping data = Ok None).
Proof.
  intros L [P1 P2] Ek Es. cbn [stores].
  assert (Hu : is_u64 (f_written_end h)) by (rewrite (lv_end _ _ _ L); apply L).
  assert (Hnone : forall h', f_written_end h' = f_written_end h -> (forall r, recover_record config record h' mapping data <> Ok (Some r)) ->
    recover_record config record h' mapping data = Ok None).
  { intros h' E Hr. destruct (recover_total config record h' mapping data) as [[r|] H]; [by rewrite E|by destruct (Hr r)|done]. }
  destruct (lv_arrays _ _ _ L) as (A1 & A2 & _). split; [|split].
  - intros j. by apply describes_matches, (commit_describes config w).
  - rewrite run_commit_write by assumption. apply Hnone; [reflexivity|]. intros r (Hf & _)%recover_some. cbn in Hf.
    by rewrite land_cleared in Hf.
  - intros n Hn. apply Hnone; [reflexivity|]. intros r (_ & E & _)%recover_some. cbn in E. by rewrite (lv_end _ _ _ L) in E.
Qed.

Lemma sample_live : live sample_config (new_writer sample_base 3 sample_write_id) (run begin_write_stores sample_header).
Proof. apply (writer_live sample_config sample_base 3 sample_write_id _ sample_header_ok); discriminate || reflexivity. Qed.

Definition sample_commit : CacheIdentity :=
  {| id_key := lit "dir/file"; id_etag := lit "e1"; id_version_id := []; id_size := 0; id_mtime := 9 |}.

Lemma commit_crash_blocks_key_witness :
  recover_record sample_config {| dr_key := lit "dir/file"; dr_epoch := 3; dr_valid := true |}
    (run (stores sample_config (Commit sample_commit) (run begin_write_stores sample_header)) (run begin_write_stores sample_header)) 8192 0 = Ok None.
Proof.
  refine (proj1 (proj2 (commit_crash_blocks_key sample_config _ _ sample_commit {| dr_key := lit "dir/file"; dr_epoch := 3; dr_valid := true |} 8192 0 sample_live _ _ _))).
  - split; discriminate.
  - reflexivity.
  - reflexivity.
Defined.

(** a cached generation is used only for what it was fetched as.  A header that is filled
    in for one identity is accepted for another exactly if they agree in key, ETag, version
    and size, and in the modification time when there is neither ETag nor version; likewise a
    cache root is accepted exactly by a mount with the same namespace.  Filling in fails
    exactly if a text does not fit. *)
Theorem cache_headers_identify identity other config config' epoch :
  epoch <> 0 ->
  match cache_initialize_header identity kCacheBitmapUnit epoch with
  | Ok h => cache_identity_matches h other kCacheBitmapUnit = true <-> same_generation identity other
  | Throw x => x = SystemError EOVERFLOW /\
      (kCacheKeyCapacity < vsize (id_key identity) \/ kCacheEtagCapacity < vsize (id_etag identity) \/
       kCacheVersionCapacity < vsize (id_version_id identity))
  end /\
  match cache_initialize_root config with
  | Ok r => cache_root_matches r config' = true <-> c_namespace_id config = c_namespace_id config'
  | Throw x => x = SystemError EOVERFLOW /\ kNamespaceCapacity < vsize (c_namespace_id config)
  end.
Proof.
  intros He. split.
  - destruct (cache_initialize_header identity kCacheBitmapUnit epoch) as [h|x] eqn:E.
    + apply describes_matches. by eapply initialize_describes.
    + revert E. unfold cache_initialize_header.
      destruct (Z.ltb_spec kCacheKeyCapacity (vsize (id_key identity))), (Z.ltb_spec kCacheEtagCapacity (vsize (id_etag identity))),
        (Z.ltb_spec kCacheVersionCapacity (vsize (id_version_id identity))); cbn [orb]; intros [= <-]; auto.
  - unfold cache_initialize_root. destruct (Z.ltb_spec kNamespaceCapacity (vsize (c_namespace_id config))) as [|Hn]; [done|].
    unfold cache_root_matches. cbn [r_magic r_version r_header_size r_byte_order r_bitmap_unit r_path_version r_namespace_length r_namespace_id].
    rewrite (u32_capacity _ _ (vsize_nonneg _) Hn eq_refl), (proj2 (Z.leb_le _ _) Hn), str_eqb_refl, !Z.eqb_refl. cbn [andb].
    rewrite !andb_true_r, andb_true_iff, Z.eqb_eq. split.
    + intros [E Hm]. pose proof (text_of_memcpy (zeros kNamespaceCapacity) (c_namespace_id config)) as Ht. rewrite E in Ht.
      by apply (memcmp_text _ _ _ Ht).
    + intros E. split; [by rewrite E|]. rewrite <-E. by apply (memcmp_text _ _ _ (text_of_memcpy (zeros kNamespaceCapacity) (c_namespace_id config))).
Qed.

Lemma cache_headers_identify_witness :
  cache_identity_matches
    (match cache_initialize_header sample_base kCacheBitmapUnit 3 with Ok h => h | Throw _ => zero_header end)
    sample_base kCacheBitmapUnit = true.
Proof.
  pose proof (cache_headers_identify sample_base sample_base sample_config sample_config 3 ltac:(discriminate)) as [H _].
  apply H. repeat split.
Defined.

(** the model of an open entry refines the bytes on disk.  Each operation of a writer that
    succeeds on the entry changes the header the entry has in the model to what its stores,
    one byte at a time, leave in the mapping; so does a commit whose [msync] fails. *)
Theorem entry_header_on_disk config format msync w h e op e' r :
  live format w h -> c_upload_part_size format = upload_part_size config -> header_ e = view h ->
  entry_op config msync op e = (e', r) ->
  r = Ok tt \/ (exists errno, msync = Some errno /\ errno <> EOVERFLOW /\ r = Throw (SystemError errno)) ->
  match op with Publish _ => r = Ok tt | SetUploadId _ => r = Ok tt | _ => True end ->
  header_ e' = view (run (stores format op h) h).
Proof.
  intros L Ep Ev Hop Hr Hok. destruct (lv_arrays _ _ _ L) as (A1 & A2 & A3).
  destruct op as [n|id| | |i]; cbn [entry_op stores] in *.
  - subst r. unfold publish_dirty in Hop. destruct (_ || _); [discriminate|]. destruct (_ || _ || _); [discriminate|].
    cbn zeta in Hop. destruct (_ <? _); injection Hop as <-; cbn; by rewrite Ev.
  - subst r. unfold set_upload_id in Hop. destruct (Z.gtb_spec (vsize id) kCacheUploadIdCapacity); [discriminate|]. injection Hop as <-.
    rewrite run_set_upload_id by assumption. unfold view. cbn. rewrite text_of_memcpy, Ev, Ep. by destruct id.
  - injection Hop as <- _. unfold isolate_write, is_dirty, isolate_write_stores. rewrite Ev. cbn. destruct (has_flag _ _); cbn; by rewrite ?Ev.
  - injection Hop as <- _. unfold discard_write, clear_dirty. cbn. by rewrite Ev.
  - unfold commit_write in Hop.
    destruct (Z.gtb_spec (vsize (id_etag i)) kCacheEtagCapacity), (Z.gtb_spec (vsize (id_version_id i)) kCacheVersionCapacity); cbn [orb] in Hop;
      try (injection Hop as _ <-; destruct Hr as [|(x & _ & Hx & [= E])]; [discriminate|by destruct Hx]).
    destruct (negb _ || _); [injection Hop as _ <-; destruct Hr as [|(? & _ & _ & ?)]; discriminate|].
    rewrite run_commit_write by assumption. cbn zeta in Hop. unfold view. cbn -[zeros].
    rewrite !text_of_memcpy. destruct msync; injection Hop as <- _; cbn; by rewrite Ev.
Qed.

Definition sample_entry : CacheEntry := {|
  key_ := lit "dir/file"; header_ := view (run begin_write_stores sample_header); words_ := replicate 1 0; size_ := 0; epoch_ := 3;
  block_size_ := 1048576; page_count_ := 0; dirty_fd_ := true; wait_fd_ := None; waiters_ := 0; referenced_ := []; region_pins_ := [];
  active_claims_ := []; reserved_units_ := []; checksum_parts_ := []; checksum_states_ := []; next_claim_id_ := 1; clock_hand_ := 0;
  checksum_ops_ := 0; pinned_regions_ := 0; checksum_manifest_ := 0; eviction_disabled_ := true; detached_ := false; stale_ := false;
  punched_ := [];
|}.
Definition sample_cache_config : CacheConfig := {|
  maximum_bytes := 0; reserve_bytes := 0; reserve_percent := 5; page_size := 4096; block_size := 1048576; upload_part_size := 8388608;
  reserve_is_percent := true; unlimited := false;
|}.

Lemma entry_header_on_disk_witness :
  header_ (entry_op sample_cache_config None (SetUploadId (lit "up")) sample_entry).1 =
    view (run (stores sample_config (SetUploadId (lit "up")) (run begin_write_stores sample_header)) (run begin_write_stores sample_header)).
Proof.
  apply (entry_header_on_disk sample_cache_config sample_config None _ _ sample_entry _ _ (Ok tt) sample_live).
  - reflexivity.
  - reflexivity.
  - reflexivity.
  - left. reflexivity.
  - reflexivity.
Defined.
