(* ===== verification/CacheEntryLemmas.v ===== *)
(** * CacheEntry: what the operations compute

    Lemmas that describe the loops of [CacheEntry.v] by their effect on page states, pins and
    claims.  Pages and blocks are compared by the byte offset they start at. *)

From S2P Require Import Prelude CacheBitmap CacheEntry.

Abbreviation U := kCacheBitmapUnit.

Lemma unit_value : U = 32768.
Proof. reflexivity. Qed.

(** The largest object considered, 64 TiB; S3 allows less. *)
Definition max_object : Z := 2 ^ 46.

Definition units_of (unit size : Z) : Z := if size =? 0 then 0 else (size - 1) / unit + 1.

Lemma units_of_spec unit size i : 0 < unit -> 0 <= size -> 0 <= i ->
  i < units_of unit size <-> i * unit < size.
Proof.
  intros. unfold units_of. destruct (Z.eqb_spec size 0) as [->|]; [nia|].
  split; intros; Z.to_euclidean_division_equations; nia.
Qed.

Lemma units_of_nonneg unit size : 0 < unit -> 0 <= size -> 0 <= units_of unit size.
Proof.
  intros. unfold units_of. destruct (Z.eqb_spec size 0); [lia|].
  assert (0 <= (size - 1) / unit) by (apply Z.div_pos; lia). lia.
Qed.

(** ** Geometry of an entry *)

Record geometry (e : CacheEntry) : Prop := {
  geo_block : 0 < block_size_ e <= 2 ^ 27;
  geo_unit : block_size_ e mod U = 0;
  geo_size : 0 <= size_ e <= max_object;
  geo_pages : page_count_ e = units_of U (size_ e);
  geo_words : page_count_ e <= 32 * vsize (words_ e);
  geo_referenced : vsize (referenced_ e) = units_of (block_size_ e) (size_ e);
  geo_pins : vsize (region_pins_ e) = units_of (block_size_ e) (size_ e);
}.

Section Geometry.
Context (e : CacheEntry) (G : geometry e).

Lemma block_pos : 0 < block_size_ e.
Proof. apply (geo_block _ G). Qed.

Lemma size_small : size_ e < 2 ^ 62.
Proof. pose proof (geo_size _ G). unfold max_object in *. lia. Qed.

Lemma page_in_object q : 0 <= q -> q < page_count_ e <-> q * U < size_ e.
Proof.
  intros. rewrite (geo_pages _ G). apply units_of_spec; [done|apply (geo_size _ G)|done].
Qed.

Lemma region_in_object r : 0 <= r -> r < vsize (region_pins_ e) <-> r * block_size_ e < size_ e.
Proof.
  intros. rewrite (geo_pins _ G).
  apply units_of_spec; [apply block_pos|apply (geo_size _ G)|done].
Qed.

Lemma block_floor x : x mod block_size_ e = 0 -> x / block_size_ e * block_size_ e = x.
Proof. pose proof block_pos. pose proof (Z.div_mod x (block_size_ e) ltac:(lia)). lia. Qed.

(** Block boundaries are page boundaries. *)
Lemma aligned_unit x : x mod block_size_ e = 0 -> x mod U = 0.
Proof.
  intros. pose proof block_pos. apply Z.mod_divide; [done|].
  apply (Z.divide_trans _ (block_size_ e)); apply Z.mod_divide; (done || lia || apply (geo_unit _ G)).
Qed.

(** The block that a byte lies in, at or after any earlier block boundary. *)
Definition block_of (x : Z) : Z := x / block_size_ e * block_size_ e.

Lemma block_of_spec x :
  block_of x mod block_size_ e = 0 /\ block_of x <= x < block_of x + block_size_ e.
Proof.
  pose proof block_pos. unfold block_of. split; [apply Z.mod_mul; lia|].
  pose proof (Z.div_mod x (block_size_ e) ltac:(lia)).
  pose proof (Z.mod_pos_bound x (block_size_ e) ltac:(lia)). lia.
Qed.

Lemma block_of_after b x : b mod block_size_ e = 0 -> b <= x -> b <= block_of x.
Proof.
  intros Hb Hx. pose proof block_pos. rewrite <- (block_floor b Hb). unfold block_of.
  assert (b / block_size_ e <= x / block_size_ e) by (apply Z.div_le_mono; lia). nia.
Qed.

(** The pages of a block are those that start in it and in the object. *)
Lemma block_pages_bounds block q :
  0 <= block < size_ e -> block mod block_size_ e = 0 -> 0 <= q ->
  block_first_page e block <= q < block_last_page e block <->
  block <= q * U < Z.min (size_ e) (block + block_size_ e).
Proof.
  intros Hb Hm Hq. pose proof block_pos. pose proof size_small.
  pose proof (geo_block _ G). pose proof (geo_unit _ G).
  unfold block_first_page, block_last_page.
  rewrite (block_floor block Hm), u64_small by lia.
  rewrite (proj2 (Z.eqb_neq (Z.min _ _) 0)) by lia.
  pose proof (aligned_unit block Hm) as Hu.
  pose proof (page_in_object q Hq). rewrite unit_value in *.
  set (m := Z.min (size_ e) (block + block_size_ e)) in *.
  assert (m <= size_ e) by lia. assert (0 < m) by lia. clearbody m.
  Z.to_euclidean_division_equations; nia.
Qed.

Lemma block_pages_range block :
  0 <= block < size_ e -> block mod block_size_ e = 0 ->
  0 <= block_first_page e block /\ block_last_page e block <= 32 * vsize (words_ e).
Proof.
  intros Hb Hm. pose proof block_pos. split.
  - unfold block_first_page. apply Z.div_pos; [|done].
    assert (0 <= block / block_size_ e) by (apply Z.div_pos; lia). nia.
  - etransitivity; [|apply (geo_words _ G)]. unfold block_last_page.
    destruct (_ =? 0); [|lia].
    rewrite (geo_pages _ G). apply units_of_nonneg; [done|apply (geo_size _ G)].
Qed.

(** A loop over the pages of a block. *)
Lemma update_block_pages f ws block q :
  vsize ws = vsize (words_ e) ->
  0 <= block < size_ e -> block mod block_size_ e = 0 -> 0 <= q ->
  page_state (update_pages f ws (block_pages e block)).1 q =
  if (block <=? q * U) && (q * U <? Z.min (size_ e) (block + block_size_ e))
  then default (page_state ws q) (f (page_state ws q)) else page_state ws q.
Proof.
  intros Hs Hb Hm Hq. destruct (block_pages_range block Hb Hm).
  unfold block_pages. rewrite update_pages_state by (rewrite ?Hs; done).
  pose proof (block_pages_bounds block q Hb Hm Hq) as HB.
  destruct ((block_first_page e block <=? q) && _) eqn:E1,
    ((block <=? q * U) && _) eqn:E2; try done;
    [|bool_case; apply andb_false_iff in E1];
    [bool_case; apply andb_false_iff in E2|]; exfalso;
    rewrite ?Z.leb_gt, ?Z.ltb_ge in *; lia.
Qed.

Lemma elem_block_pages block q :
  0 <= block < size_ e -> block mod block_size_ e = 0 ->
  q ∈ block_pages e block <-> 0 <= q /\ block <= q * U < Z.min (size_ e) (block + block_size_ e).
Proof.
  intros Hb Hm. unfold block_pages. rewrite elem_of_zrange.
  destruct (block_pages_range block Hb Hm).
  split.
  - intros Hq. split; [lia|]. by apply block_pages_bounds; [| |lia|].
  - intros [? ?]. by apply block_pages_bounds.
Qed.
End Geometry.

(** ** Pins *)

Lemma zsum_insert {A} (d : A) (f : A -> Z) l n x :
  (n < length l)%nat -> zsum f (<[n := x]> l) = zsum f l - f (default d (l !! n)) + f x.
Proof.
  revert n; induction l as [|y l IH]; intros [|n] Hn; cbn in Hn; try lia.
  - change (<[O := x]> (y :: l)) with (x :: l). rewrite !zsum_cons. cbn. lia.
  - change (<[S n := x]> (y :: l)) with (y :: <[n := x]> l).
    change ((y :: l) !! S n) with (l !! n). rewrite !zsum_cons, IH by lia. lia.
Qed.

Lemma zsum_vset {A} (d : A) (f : A -> Z) l i x :
  0 <= i < vsize l -> zsum f (vset l i x) = zsum f l - f (vget d l i) + f x.
Proof. unfold vset, vsize, vget. intros. apply zsum_insert. lia. Qed.

Lemma zsum_id_zero l : (forall x, x ∈ l -> 0 <= x) -> zsum id l = 0 -> forall x, x ∈ l -> x = 0.
Proof.
  induction l as [|y l IH]; intros Hp Hz x Hx; [by apply elem_of_nil in Hx|].
  rewrite zsum_cons in Hz. assert (0 <= zsum id l) by (apply zsum_nonneg; set_solver).
  pose proof (Hp y ltac:(set_solver)). cbn in Hz.
  apply elem_of_cons in Hx as [->|Hx]; [lia|]. apply IH; [set_solver|lia|done].
Qed.

Definition in_range (a b r : Z) : Z := if (a <=? r) && (r <? b) then 1 else 0.

Lemma in_range_cons a b r : a < b -> in_range a b r = in_range (a + 1) b r + (if a =? r then 1 else 0).
Proof.
  intros. unfold in_range.
  destruct (Z.leb_spec a r), (Z.leb_spec (a + 1) r), (Z.ltb_spec r b), (Z.eqb_spec a r); cbn; lia.
Qed.

Lemma in_range_nil a b r : b <= a -> in_range a b r = 0.
Proof. intros. unfold in_range. destruct (Z.leb_spec a r), (Z.ltb_spec r b); cbn; lia. Qed.

Lemma in_range_out a b r : b <= r -> in_range a b r = 0.
Proof. intros. unfold in_range. rewrite (proj2 (Z.ltb_ge r b)) by done. by rewrite andb_false_r. Qed.

Lemma bump_pins_spec pins a b :
  0 <= a -> b <= vsize pins ->
  let pins' := bump_pins pins (zrange a b) in
  vsize pins' = vsize pins /\
  (forall r, 0 <= r -> vget 0 pins' r = vget 0 pins r + in_range a b r) /\
  zsum id pins' = zsum id pins + Z.max 0 (b - a).
Proof.
  intros Ha Hb. cbv zeta. remember (Z.to_nat (b - a)) as n eqn:En.
  revert pins a Ha Hb En. induction n as [|n IH]; intros pins a Ha Hb En.
  { rewrite zrange_nil by lia. cbn [bump_pins fold_left]. repeat split; [|lia].
    intros. rewrite in_range_nil by lia. lia. }
  rewrite zrange_cons by lia. cbn [bump_pins fold_left].
  destruct (IH (vset pins a (vget 0 pins a + 1)) (a + 1)) as (Hs & Hg & Hz);
    [lia|rewrite vsize_vset; lia|lia|]. fold (bump_pins (vset pins a (vget 0 pins a + 1)) (zrange (a + 1) b)).
  rewrite vsize_vset in Hs. split; [done|]. split.
  - intros r Hr. rewrite Hg, vget_vset, (in_range_cons a b) by lia.
    destruct (Z.eqb_spec a r) as [->|]; lia.
  - rewrite Hz, (zsum_vset 0) by lia. unfold id. lia.
Qed.

Lemma pins_full_false pins a b :
  pins_full pins (zrange a b) = false -> forall r, a <= r < b -> vget 0 pins r <> UINT32_MAX.
Proof.
  unfold pins_full. intros H r Hr E.
  assert (existsb (fun r => vget 0 pins r =? UINT32_MAX) (zrange a b) = true) as E'; [|congruence].
  apply existsb_exists. exists r. split; [by apply list_elem_of_In, elem_of_zrange|by apply Z.eqb_eq].
Qed.

Lemma drop_pins_spec pins pinned a b :
  0 <= a -> b <= vsize pins -> b - a <= pinned < 2 ^ 64 -> 0 <= pinned ->
  (forall r, a <= r < b -> 0 < vget 0 pins r) ->
  exists pins', drop_pins pins pinned (zrange a b) = (pins', pinned - Z.max 0 (b - a), a <? b) /\
  vsize pins' = vsize pins /\
  (forall r, 0 <= r -> vget 0 pins' r = vget 0 pins r - in_range a b r) /\
  zsum id pins' = zsum id pins - Z.max 0 (b - a).
Proof.
  intros Ha Hb Hp Hp0 Hpos. remember (Z.to_nat (b - a)) as n eqn:En.
  revert pins pinned a Ha Hb Hp Hp0 Hpos En. induction n as [|n IH]; intros pins pinned a Ha Hb Hp Hp0 Hpos En.
  { exists pins. rewrite zrange_nil by lia. cbn [drop_pins].
    rewrite (proj2 (Z.ltb_ge a b)) by lia. split; [do 2 f_equal; lia|]. split; [done|].
    split; [|lia]. intros. rewrite in_range_nil by lia. lia. }
  rewrite zrange_cons by lia. cbn [drop_pins].
  pose proof (Hpos a ltac:(lia)). rewrite (proj2 (Z.eqb_neq (vget 0 pins a) 0)) by lia.
  destruct (IH (vset pins a (vget 0 pins a - 1)) (u64 (pinned - 1)) (a + 1))
    as (pins' & E & Hs & Hg & Hz); rewrite ?vsize_vset, ?u64_small by lia; try lia.
  { intros r Hr. rewrite vget_vset by lia. rewrite (proj2 (Z.eqb_neq a r)) by lia. apply Hpos; lia. }
  exists pins'. rewrite u64_small in E by lia. rewrite E, (proj2 (Z.ltb_lt a b)) by lia.
  rewrite vsize_vset in Hs. split; [do 2 f_equal; lia|]. split; [done|]. split.
  - intros r Hr. rewrite Hg, vget_vset, (in_range_cons a b) by lia.
    destruct (Z.eqb_spec a r) as [->|]; lia.
  - rewrite Hz, (zsum_vset 0) by lia. unfold id. lia.
Qed.

(** ** Lists of claims *)

Lemma is_claim_spec c a :
  is_claim c a = true <->
  fetch_id a = claim_id c /\ fetch_epoch a = claim_epoch c /\
  fetch_offset a = claim_offset c /\ fetch_length a = claim_length c.
Proof. unfold is_claim. rewrite !andb_true_iff, !Z.eqb_eq. tauto. Qed.

(** A found claim splits the list at the element that is replaced or erased. *)
Lemma find_claim_split c l a :
  find_claim c l = Some a ->
  is_claim c a = true /\
  exists pre post, l = pre ++ a :: post /\ erase_claim c l = pre ++ post /\
    forall b, replace_claim c b l = pre ++ b :: post.
Proof.
  induction l as [|x l IH]; cbn; [done|]. destruct (is_claim c x) eqn:E.
  - intros [= ->]. split; [done|]. by exists [], l.
  - intros H. destruct (IH H) as (Hc & pre & post & -> & He & Hr). split; [done|].
    exists (x :: pre), post. cbn. rewrite He. split; [done|]. split; [done|].
    intros b. by rewrite Hr.
Qed.

Lemma find_claim_none_no_id c l :
  find_claim c l = None -> forall a, a ∈ l -> is_claim c a = false.
Proof.
  induction l as [|x l IH]; cbn; intros H a Ha; [by apply elem_of_nil in Ha|].
  destruct (is_claim c x) eqn:E; [done|]. apply elem_of_cons in Ha as [->|]; [done|]. by apply IH.
Qed.

(** ** Fetches *)

Definition fetch_end (a : ActiveFetch) : Z := fetch_offset a + fetch_length a.

(** Pages in the fetch's range, and those it still owns because they are not published. *)
Definition covers (a : ActiveFetch) (q : Z) : Prop := fetch_offset a <= q * U < fetch_end a.
Definition owns (a : ActiveFetch) (q : Z) : Prop :=
  fetch_offset a + published a <= q * U < fetch_end a.

Record fetch_ok (e : CacheEntry) (a : ActiveFetch) : Prop := {
  fok_epoch : fetch_epoch a = epoch_ e;
  fok_offset : 0 <= fetch_offset a;
  fok_align : fetch_offset a mod block_size_ e = 0;
  fok_length : 0 < fetch_length a;
  fok_inside : fetch_end a <= size_ e;
  fok_end : fetch_end a = size_ e \/ fetch_end a mod block_size_ e = 0;
  fok_published : 0 <= published a <= fetch_length a;
  fok_progress : published a = fetch_length a \/ published a mod block_size_ e = 0;
  fok_prior : vsize (prior_states a) = units_of U (fetch_length a);
  fok_prior_states : forall s, s ∈ prior_states a -> s = CACHE_PAGE_CLEAN \/ s = CACHE_PAGE_MISSING;
}.

Lemma fetch_ok_covers e a q : fetch_ok e a -> owns a q -> covers a q.
Proof. intros [] []. split; lia. Qed.

(** The effect of [pending_to] on one page. *)
Definition settle (s x : CachePageState) : CachePageState :=
  if page_state_eqb x CACHE_PAGE_READ_PENDING then s else x.

Lemma default_pending_to s x : default x (pending_to s x) = settle s x.
Proof. unfold pending_to, settle. by destruct (page_state_eqb _ _). Qed.

Lemma mod_block_add e x : 0 < block_size_ e ->
  x mod block_size_ e = 0 -> (x + block_size_ e) mod block_size_ e = 0.
Proof.
  intros Hb E. replace (x + block_size_ e) with (x + 1 * block_size_ e) by lia.
  by rewrite Z.mod_add by lia.
Qed.

Lemma mod_block_sub e x y : 0 < block_size_ e ->
  x mod block_size_ e = 0 -> y mod block_size_ e = 0 -> (x - y) mod block_size_ e = 0.
Proof. intros Hb Hx Hy. rewrite Zminus_mod, Hx, Hy. by apply Z.mod_0_l; lia. Qed.

(** The next block boundary, or the end of a range that ends at one or at the object's end. *)
Lemma next_block e block last :
  geometry e -> 0 <= block < last -> last <= size_ e -> block mod block_size_ e = 0 ->
  last = size_ e \/ last mod block_size_ e = 0 ->
  Z.min (size_ e) (block + block_size_ e) <= last.
Proof.
  intros G Hb Hl Hm [->|He]; [lia|]. pose proof (block_pos _ G).
  pose proof (Z.div_mod block (block_size_ e) ltac:(lia)) as Eb.
  pose proof (Z.div_mod last (block_size_ e) ltac:(lia)) as El.
  rewrite Hm in Eb. rewrite He in El.
  assert (block / block_size_ e < last / block_size_ e) by nia. nia.
Qed.

Section Loops.
Context (e : CacheEntry) (G : geometry e) (c : CacheFetchClaim).
Context (Ho : 0 <= claim_offset c) (Ha : claim_offset c mod block_size_ e = 0).
Context (Hl : 0 < claim_length c) (Hi : claim_offset c + claim_length c <= size_ e).
Context (He : claim_offset c + claim_length c = size_ e \/
              (claim_offset c + claim_length c) mod block_size_ e = 0).

Lemma claim_end_eq : claim_end c = claim_offset c + claim_length c.
Proof. pose proof (size_small _ G). unfold claim_end. apply u64_small. lia. Qed.

(** What a run of the publication loop from [done] bytes on establishes. *)
Record published_to (final : bool) (progress : Z) (ws : list Z) (done : Z)
    (ws' : list Z) (done' : Z) (changed' : bool) : Prop := {
  pub_words : vsize ws' = vsize ws;
  pub_range : done <= done' <= claim_length c;
  pub_align : done' = claim_length c \/ done' mod block_size_ e = 0;
  pub_received : done' = done \/ claim_offset c + done' <= progress;
  pub_all : final = true -> claim_end c <= progress -> done' = claim_length c;
  pub_same : changed' = false -> ws' = ws;
  pub_states : forall q, 0 <= q -> page_state ws' q =
    if (claim_offset c + done <=? q * U) && (q * U <? claim_offset c + done')
    then settle CACHE_PAGE_CLEAN (page_state ws q) else page_state ws q;
}.

Lemma published_to_refl final progress ws done changed :
  0 <= done <= claim_length c -> done = claim_length c \/ done mod block_size_ e = 0 ->
  (final = true -> claim_end c <= progress -> done = claim_length c) ->
  published_to final progress ws done ws done changed.
Proof.
  intros. constructor; try done; try lia.
  intros q Hq. destruct (_ && _) eqn:E; bool_case; [lia|done].
Qed.

Lemma publish_loop_stop fuel final progress block ws done changed :
  claim_end c <= block ->
  publish_loop fuel e c final progress block ws done changed = (ws, done, changed).
Proof. intros. destruct fuel; cbn; [done|]. by rewrite (proj2 (Z.ltb_ge _ _)) by done. Qed.

(** One published block followed by the rest of the loop. *)
Lemma published_to_step final progress ws done ws1 be any ws' done' changed changed' :
  claim_offset c + done < be -> be <= progress ->
  vsize ws1 = vsize ws -> (any = false -> ws1 = ws) ->
  (forall q, 0 <= q -> page_state ws1 q =
    if (claim_offset c + done <=? q * U) && (q * U <? be)
    then settle CACHE_PAGE_CLEAN (page_state ws q) else page_state ws q) ->
  (changed || any = true -> changed' = true) ->
  published_to final progress ws1 (be - claim_offset c) ws' done' changed' ->
  published_to final progress ws done ws' done' changed'.
Proof.
  intros Hlt Hp Hs Hany Hst Hch [H1 H2 H3 H4 H5 H6 H7].
  constructor; try done; try lia.
  - intros E. rewrite H6 by done. apply Hany. destruct any; [|done].
    rewrite orb_true_r in Hch. by rewrite Hch in E.
  - intros q Hq. rewrite H7, Hst by done.
    replace (claim_offset c + (be - claim_offset c)) with be by lia.
    destruct (Z.leb_spec be (q * U)), (Z.ltb_spec (q * U) be),
      (Z.leb_spec (claim_offset c + done) (q * U)),
      (Z.ltb_spec (q * U) (claim_offset c + done')); cbn; try done; lia.
Qed.

(** [publish_loop] turns the pending pages of complete received blocks clean. *)
Lemma publish_loop_spec fuel final progress ws done changed ws' done' changed' :
  vsize ws = vsize (words_ e) ->
  0 <= done <= claim_length c -> done = claim_length c \/ done mod block_size_ e = 0 ->
  claim_length c - done <= Z.of_nat fuel * block_size_ e ->
  publish_loop fuel e c final progress (claim_offset c + done) ws done changed =
    (ws', done', changed') ->
  published_to final progress ws done ws' done' changed' /\ (changed = true -> changed' = true).
Proof.
  pose proof (block_pos _ G) as Hbs. pose proof (size_small _ G) as Hsz.
  pose proof (geo_block _ G) as Hbb. pose proof claim_end_eq as Hce.
  revert ws done changed. induction fuel as [|fuel IH]; intros ws done changed Hs Hd Hm Hf.
  { cbn. intros [= <- <- <-]. split; [|done]. apply published_to_refl; [done|done|lia]. }
  cbn [publish_loop].
  destruct (Z.ltb_spec (claim_offset c + done) (claim_end c)) as [Hlt|Hge];
    [|intros [= <- <- <-]; split; [|done]; apply published_to_refl; (done || lia)].
  destruct Hm as [|Hm]; [lia|].
  assert (Hbm : (claim_offset c + done) mod block_size_ e = 0)
    by (rewrite Z.add_mod, Ha, Hm by lia; by apply Z.mod_0_l; lia).
  rewrite (u64_small (claim_offset c + done + block_size_ e)) by lia.
  pose proof (next_block e (claim_offset c + done) (claim_end c) G ltac:(lia) ltac:(lia) Hbm
    ltac:(rewrite Hce; lia)) as Hnext.
  set (be := Z.min (size_ e) (claim_offset c + done + block_size_ e)) in *.
  destruct (Z.ltb_spec progress be);
    [intros [= <- <- <-]; split; [|done]; apply published_to_refl; (by right) || (intros; lia)|].
  destruct ((be =? size_ e) && _ && negb final) eqn:Eshort;
    [intros [= <- <- <-]; split; [|done]; apply published_to_refl;
       (by right) || (intros ->; bool_case; done) || lia|].
  destruct (update_pages _ ws _) as [ws1 any] eqn:Eu.
  pose proof (f_equal fst Eu) as E1. pose proof (f_equal snd Eu) as E2. cbn in E1, E2.
  assert (Hs1 : vsize ws1 = vsize ws) by (rewrite <- E1; apply update_pages_size).
  assert (Hany : any = false -> ws1 = ws)
    by (intros ->; rewrite <- E1; by apply update_pages_unchanged).
  assert (Hst : forall q, 0 <= q -> page_state ws1 q =
    if (claim_offset c + done <=? q * U) && (q * U <? be)
    then settle CACHE_PAGE_CLEAN (page_state ws q) else page_state ws q).
  { intros q Hq. rewrite <- E1, (update_block_pages e G) by (done || lia).
    fold be. by rewrite default_pending_to. }
  rewrite (u64_small (be - claim_offset c)) by lia.
  rewrite Z.gtb_ltb, (proj2 (Z.ltb_ge _ _)) by (unfold UINT64_MAX; lia).
  destruct (Z.le_gt_cases (claim_offset c + done + block_size_ e) (size_ e)) as [Hfull|Hshort].
  - replace (claim_offset c + done + block_size_ e) with (claim_offset c + (be - claim_offset c))
      by lia.
    intros E. apply IH in E as [Hpub Hch]; [|congruence|lia| |lia].
    + split; [|intros ->; by apply Hch]. 
      apply (published_to_step final progress ws done ws1 be any ws' done' changed); (done || lia).
    + right. apply mod_block_sub; [done| |done].
      replace be with (claim_offset c + done + block_size_ e) by lia. by apply mod_block_add.
  - rewrite publish_loop_stop by lia. intros [= <- <- <-]. split; [|by intros ->].
    apply (published_to_step final progress ws done ws1 be any _ _ changed); try (done || lia).
    apply published_to_refl; lia.
Qed.

(** A page that [update_pages] changed was pending. *)
Lemma pending_page f block ws :
  (forall s, f s <> None -> s = CACHE_PAGE_READ_PENDING) ->
  vsize ws = vsize (words_ e) -> 0 <= block < size_ e -> block mod block_size_ e = 0 ->
  (update_pages f ws (block_pages e block)).2 = true ->
  exists q, 0 <= q /\ block <= q * U < Z.min (size_ e) (block + block_size_ e) /\
            page_state ws q = CACHE_PAGE_READ_PENDING.
Proof.
  intros Hf Hs Hb Hm Hu.
  assert (Hex : exists q, q ∈ block_pages e block /\ f (page_state ws q) <> None).
  { clear Hs. revert Hu. generalize (block_pages e block) as l. intros l. revert ws.
    induction l as [|p l IH]; intros ws; cbn; [done|].
    destruct (f (page_state ws p)) eqn:E; cbn.
    - intros _. exists p. rewrite E. split; [set_solver|done].
    - intros Hu. destruct (IH ws Hu) as (q & ? & ?). exists q. split; [set_solver|done]. }
  destruct Hex as (q & Hin & Hq). apply (elem_block_pages e G) in Hin as [? ?]; [|done..].
  exists q. repeat split; try lia. by apply Hf.
Qed.

Lemma finish_loop_stop fuel block e' :
  claim_end c <= block -> finish_loop fuel c block e' = e'.
Proof. intros. destruct fuel; cbn; [done|]. by rewrite (proj2 (Z.ltb_ge _ _)) by done. Qed.

(** The blocks [finish_loop] punches: each held a pending page. *)
Definition unfinished_block (from : Z) (ws : list Z) (hole : Z * Z) : Prop :=
  hole.2 = block_size_ e /\ hole.1 mod block_size_ e = 0 /\ from <= hole.1 < claim_end c /\
  exists q, 0 <= q /\ hole.1 <= q * U < Z.min (size_ e) (hole.1 + block_size_ e) /\
            page_state ws q = CACHE_PAGE_READ_PENDING.

(** [finish_loop] gives up the pending pages that are left. *)
Lemma finish_loop_spec fuel ws holes done :
  vsize ws = vsize (words_ e) ->
  0 <= done <= claim_length c -> done = claim_length c \/ done mod block_size_ e = 0 ->
  claim_length c - done <= Z.of_nat fuel * block_size_ e ->
  exists ws' new,
    finish_loop fuel c (claim_offset c + done) (e <| words_ := ws |> <| punched_ := holes |>) =
      e <| words_ := ws' |> <| punched_ := new ++ holes |> /\
    vsize ws' = vsize ws /\
    (forall q, 0 <= q -> page_state ws' q =
       if (claim_offset c + done <=? q * U) && (q * U <? claim_end c)
       then settle CACHE_PAGE_MISSING (page_state ws q) else page_state ws q) /\
    (forall hole, hole ∈ new -> unfinished_block (claim_offset c + done) ws hole).
Proof.
  pose proof (block_pos _ G) as Hbs. pose proof (size_small _ G) as Hsz.
  pose proof (geo_block _ G) as Hbb. pose proof claim_end_eq as Hce.
  revert ws holes done. induction fuel as [|fuel IH]; intros ws holes done Hs Hd Hm Hf.
  { exists ws, []. cbn [finish_loop]. split; [done|]. split; [done|]. split; [|set_solver].
    intros q Hq. destruct (_ && _) eqn:E; bool_case; [lia|done]. }
  destruct (Z.le_gt_cases (claim_end c) (claim_offset c + done)) as [Hge|Hlt].
  { rewrite finish_loop_stop by done. exists ws, []. split; [done|]. split; [done|].
    split; [|set_solver]. intros q Hq. destruct (_ && _) eqn:E; bool_case; [lia|done]. }
  destruct Hm as [|Hm]; [lia|].
  assert (Hbm : (claim_offset c + done) mod block_size_ e = 0)
    by (rewrite Z.add_mod, Ha, Hm by lia; by apply Z.mod_0_l; lia).
  pose proof (next_block e (claim_offset c + done) (claim_end c) G ltac:(lia) ltac:(lia) Hbm
    ltac:(rewrite Hce; lia)) as Hnext.
  cbn [finish_loop]. rewrite (proj2 (Z.ltb_lt _ _)) by done.
  change (block_pages (e <| words_ := ws |> <| punched_ := holes |>)) with (block_pages e).
  change (words_ (e <| words_ := ws |> <| punched_ := holes |>)) with ws.
  destruct (update_pages _ ws _) as [ws1 any] eqn:Eu.
  pose proof (f_equal fst Eu) as E1. pose proof (f_equal snd Eu) as E2. cbn [fst snd] in E1, E2.
  assert (Hs1 : vsize ws1 = vsize ws) by (rewrite <- E1; apply update_pages_size).
  set (be := Z.min (size_ e) (claim_offset c + done + block_size_ e)) in *.
  assert (Hst : forall q, 0 <= q -> page_state ws1 q =
    if (claim_offset c + done <=? q * U) && (q * U <? be)
    then settle CACHE_PAGE_MISSING (page_state ws q) else page_state ws q).
  { intros q Hq. rewrite <- E1, (update_block_pages e G) by (done || lia).
    fold be. by rewrite default_pending_to. }
  set (holes1 := if any then (claim_offset c + done, block_size_ e) :: holes else holes).
  set (new1 := if any then [(claim_offset c + done, block_size_ e)] else []).
  assert (Hnew1 : forall hole, hole ∈ new1 -> unfinished_block (claim_offset c + done) ws hole).
  { intros hole Hin. unfold new1 in Hin. destruct any; [|set_solver].
    apply list_elem_of_singleton in Hin as ->. split; [done|]. split; [done|]. split; [cbn; lia|].
    apply (pending_page (pending_to CACHE_PAGE_MISSING)); try done; [|cbn [fst]; lia].
    intros s. unfold pending_to. destruct (page_state_eqb s _) eqn:E; [|done].
    intros _. by apply page_state_eqb_spec. }
  match goal with |- exists ws' new, (if _ then ?x else _) = _ /\ _ =>
    assert (Ee : x = e <| words_ := ws1 |> <| punched_ := holes1 |>)
      by (unfold holes1; destruct any; reflexivity); rewrite Ee end.
  change (block_size_ (e <| words_ := ws1 |> <| punched_ := holes1 |>)) with (block_size_ e).
  rewrite Z.gtb_ltb, (proj2 (Z.ltb_ge _ _)) by (unfold UINT64_MAX; lia).
  assert (Happ : new1 ++ holes = holes1) by (unfold new1, holes1; by destruct any).
  destruct (Z.le_gt_cases (claim_offset c + done + block_size_ e) (size_ e)) as [Hfull|Hshort].
  - replace (claim_offset c + done + block_size_ e) with (claim_offset c + (be - claim_offset c))
      by lia.
    destruct (IH ws1 holes1 (be - claim_offset c)) as (ws' & new & Heq & Hs' & Hst' & Hnew);
      [congruence|lia| |lia|].
    { right. apply mod_block_sub; [done| |done].
      replace be with (claim_offset c + done + block_size_ e) by lia. by apply mod_block_add. }
    exists ws', (new ++ new1). rewrite Heq, <- app_assoc, Happ.
    split; [done|]. split; [congruence|]. split.
    + intros q Hq. rewrite Hst', Hst by done.
      replace (claim_offset c + (be - claim_offset c)) with be by lia.
      destruct (Z.leb_spec be (q * U)), (Z.ltb_spec (q * U) be),
        (Z.leb_spec (claim_offset c + done) (q * U)),
        (Z.ltb_spec (q * U) (claim_end c)); cbn; try done; lia.
    + intros hole [Hin|Hin]%elem_of_app; [|by apply Hnew1].
      destruct (Hnew _ Hin) as (? & ? & ? & q & ? & ? & Hq).
      split; [done|]. split; [done|]. split; [lia|]. exists q. split; [done|]. split; [done|].
      rewrite Hst in Hq by done. rewrite (proj2 (Z.ltb_ge (q * U) be)), andb_false_r in Hq by lia.
      done.
  - rewrite finish_loop_stop by lia. exists ws1, new1. rewrite Happ.
    split; [done|]. split; [done|]. split; [|done].
    intros q Hq. rewrite Hst by done. replace be with (claim_end c) by lia. done.
Qed.
End Loops.

(** Restoring prior states page by page. *)
Lemma restore_pages_size ws first prior l : vsize (restore_pages ws first prior l) = vsize ws.
Proof.
  unfold restore_pages. revert ws; induction l as [|i l IH]; intros ws; cbn; [done|].
  by rewrite IH, vsize_set_page_state.
Qed.

Lemma restore_pages_state ws first prior a b q :
  0 <= first -> 0 <= a -> first + b <= 32 * vsize ws -> 0 <= q ->
  page_state (restore_pages ws first prior (zrange a b)) q =
  if (a <=? q - first) && (q - first <? b) then vget CACHE_PAGE_MISSING prior (q - first)
  else page_state ws q.
Proof.
  intros Hf Ha Hb Hq. remember (Z.to_nat (b - a)) as n eqn:En. revert ws a Ha Hb En.
  induction n as [|n IH]; intros ws a Ha Hb En.
  { rewrite zrange_nil by lia. cbn. destruct (_ && _) eqn:E; bool_case; [lia|done]. }
  rewrite zrange_cons by lia. unfold restore_pages in *. cbn [fold_left].
  rewrite IH by (rewrite ?vsize_set_page_state; lia).
  rewrite page_state_set by (try apply Z.div_lt_upper_bound; lia).
  destruct (Z.leb_spec (a + 1) (q - first)), (Z.leb_spec a (q - first)), (Z.ltb_spec (q - first) b),
    (Z.eqb_spec (first + a) q); cbn; try done; try lia. f_equal. lia.
Qed.

(** ** Claiming *)

Definition block_free (e : CacheEntry) (block : Z) : Prop :=
  vget 0 (region_pins_ e) (block / block_size_ e) = 0 /\
  forall q, 0 <= q -> block <= q * U < Z.min (size_ e) (block + block_size_ e) ->
    state_at e q = CACHE_PAGE_CLEAN \/ state_at e q = CACHE_PAGE_MISSING.

Section Claiming.
Context (e : CacheEntry) (G : geometry e).

Lemma block_blocked_false block :
  0 <= block < size_ e -> block mod block_size_ e = 0 ->
  block_blocked e block = false -> block_free e block.
Proof.
  intros Hb Hm. unfold block_blocked. intros [Hpin Hpages]%orb_false_iff. pose proof (block_pos _ G).
  split.
  - rewrite (proj2 (Z.ltb_lt _ _)) in Hpin; [cbn [andb] in Hpin; by bool_case|].
    apply (region_in_object e G); [apply Z.div_pos; lia|].
    pose proof (Z.div_mod block (block_size_ e) ltac:(lia)). lia.
  - intros q Hq Hin.
    assert (q ∈ block_pages e block) as Hel by by apply (elem_block_pages e G).
    destruct (state_at e q) eqn:Es; auto; exfalso;
      (assert (existsb (fun page => page_state_eqb (state_at e page) CACHE_PAGE_READ_PENDING ||
                       page_state_eqb (state_at e page) CACHE_PAGE_BAD) (block_pages e block) = true);
       [apply existsb_exists; exists q; split; [by apply list_elem_of_In|by rewrite Es]|congruence]).
Qed.

Lemma claim_scan_spec fuel start block limit :
  0 <= start <= block -> block mod block_size_ e = 0 ->
  limit <= size_ e -> limit = size_ e \/ limit mod block_size_ e = 0 ->
  limit - block <= Z.of_nat fuel * block_size_ e ->
  let last := claim_scan fuel e start block limit in
  (block <= limit -> block <= last <= limit) /\ last <= limit /\
  (last = limit \/ last mod block_size_ e = 0) /\
  (forall b, block <= b < last -> b mod block_size_ e = 0 -> block_free e b).
Proof.
  cbv zeta. pose proof (block_pos _ G). pose proof (geo_block _ G). pose proof (size_small _ G).
  revert block. induction fuel as [|fuel IH]; intros block Hs Hm Hl Hle Hf; cbn [claim_scan].
  { repeat split; try lia; by left. }
  destruct (Z.ltb_spec block limit); [|repeat split; try lia; by left].
  destruct (block_blocked e block || _) eqn:Eb.
  { repeat split; try lia; by right. }
  apply orb_false_iff in Eb as [Eb _].
  rewrite Z.gtb_ltb, (proj2 (Z.ltb_ge _ _)) by (unfold UINT64_MAX; lia).
  destruct (IH (block + block_size_ e)) as (J1 & J2 & J3 & J4);
    [lia|by apply mod_block_add|done|done|lia|].
  assert (Hfree : block_free e block) by (apply block_blocked_false; (done || lia)).
  assert (Hlast : block <= claim_scan fuel e start (block + block_size_ e) limit).
  { destruct (Z.le_gt_cases (block + block_size_ e) limit); [lia|].
    destruct fuel; cbn; [lia|]. rewrite (proj2 (Z.ltb_ge _ _)) by lia. lia. }
  split; [lia|]. split; [done|]. split; [done|].
  intros b Hb Hbm. destruct (Z.eq_dec b block) as [->|]; [done|]. apply J4; [|done].
  split; [|lia].
  pose proof (Z.div_mod b (block_size_ e) ltac:(lia)) as Eb1. rewrite Hbm in Eb1.
  pose proof (Z.div_mod block (block_size_ e) ltac:(lia)) as Eb2. rewrite Hm in Eb2.
  assert (block / block_size_ e < b / block_size_ e) by nia. nia.
Qed.

Lemma block_round_up_spec x :
  0 <= x ->
  x <= block_round_up e x \/ block_round_up e x = UINT64_MAX.
Proof.
  intros. unfold block_round_up. pose proof (block_pos _ G). destruct (_ >? _); [by right|left].
  Z.to_euclidean_division_equations; nia.
Qed.

Lemma block_round_up_align x :
  block_round_up e x = UINT64_MAX \/ block_round_up e x mod block_size_ e = 0.
Proof.
  unfold block_round_up. pose proof (block_pos _ G). destruct (_ >? _); [by left|right].
  apply Z.mod_mul. lia.
Qed.

Lemma claim_limit_spec start request_end expansion :
  0 <= start < size_ e -> 0 <= request_end <= size_ e -> 0 <= expansion ->
  let limit := claim_limit e start request_end expansion in
  start < limit <= size_ e /\ request_end <= limit /\
  (limit = size_ e \/ limit mod block_size_ e = 0).
Proof.
  intros Hs Hr Hx. cbv zeta. unfold claim_limit.
  pose proof (block_pos _ G). pose proof (size_small _ G).
  set (ee := if start >? UINT64_MAX - Z.max expansion (block_size_ e) then UINT64_MAX
             else start + Z.max expansion (block_size_ e)).
  assert (start < ee /\ 0 <= ee) as [? ?]
    by (unfold ee; destruct (_ >? _); unfold UINT64_MAX; lia).
  pose proof (block_round_up_spec request_end ltac:(lia)).
  pose proof (block_round_up_spec ee ltac:(lia)).
  pose proof (block_round_up_align request_end). pose proof (block_round_up_align ee).
  assert (size_ e < UINT64_MAX) by (unfold UINT64_MAX; lia).
  split; [lia|]. split; [lia|].
  destruct (Z.max_spec (block_round_up e request_end) (block_round_up e ee)) as [[? ->]|[? ->]];
    match goal with |- Z.min _ ?x = _ \/ _ => destruct (Z.min_spec (size_ e) x) as [[? ->]|[? ->]] end;
    (by left) || (right; lia || (by intuition lia)).
Qed.

Lemma first_missing_spec a b p :
  first_missing e (zrange a b) = Some p ->
  a <= p < b /\ state_at e p = CACHE_PAGE_MISSING /\
  forall q, a <= q < p -> state_at e q = CACHE_PAGE_CLEAN.
Proof.
  remember (Z.to_nat (b - a)) as n eqn:En. revert a En.
  induction n as [|n IH]; intros a En; [by rewrite zrange_nil by lia|].
  rewrite zrange_cons by lia. cbn. destruct (state_at e a) eqn:Es; try done.
  - intros [= <-]. repeat split; try done; lia.
  - intros H. destruct (IH (a + 1)) as (? & ? & Hq); [lia|done|]. repeat split; try done; try lia.
    intros q ?. destruct (Z.eq_dec q a) as [->|]; [done|]. apply Hq. lia.
Qed.

(** The pages [install_claim] paints. *)
Lemma claim_page_bounds start last q :
  0 <= start < last -> start mod block_size_ e = 0 -> last <= size_ e -> 0 <= q ->
  block_first_page e start <= q < Z.min (page_count_ e) ((last - 1) / U + 1) <->
  start <= q * U < last.
Proof.
  intros Hs Hm Hl Hq. pose proof (block_pos _ G). pose proof (geo_unit _ G).
  unfold block_first_page.
  rewrite (block_floor e G start Hm). pose proof (aligned_unit e G start Hm) as Hu.
  pose proof (page_in_object e G q Hq). rewrite unit_value in *.
  Z.to_euclidean_division_equations; nia.
Qed.

(** The state after a successful claim of the fetch [a]. *)
Record claimed (e' : CacheEntry) (c : CacheFetchClaim) (a : ActiveFetch) : Prop := {
  cl_entry : e' = e <| next_claim_id_ := (fresh_id e).2 |> <| words_ := words_ e' |>
                    <| active_claims_ := active_claims_ e ++ [a] |>;
  cl_match : is_claim c a = true;
  cl_ok : fetch_ok e a;
  cl_id : fetch_id a = (fresh_id e).1;
  cl_published : published a = 0;
  cl_plain : verifying a = false /\ retrying a = false;
  cl_prior : forall q, 0 <= q -> covers a q ->
    vget CACHE_PAGE_MISSING (prior_states a) (q - fetch_offset a / U) = state_at e q;
  cl_words : vsize (words_ e') = vsize (words_ e);
  cl_painted : forall q, 0 <= q -> covers a q -> state_at e' q = CACHE_PAGE_READ_PENDING;
  cl_others : forall q, 0 <= q -> ~ covers a q -> state_at e' q = state_at e q;
  cl_free : forall b, fetch_offset a <= b < fetch_end a -> b mod block_size_ e = 0 -> block_free e b;
}.

Section Install.
Context (start last : Z) (Hs : 0 <= start < last) (Hm : start mod block_size_ e = 0).
Context (Hl : last <= size_ e) (Hle : last = size_ e \/ last mod block_size_ e = 0).
Context (Hfree : forall b, start <= b < last -> b mod block_size_ e = 0 -> block_free e b).

Let fp := block_first_page e start.
Let lp := Z.min (page_count_ e) ((last - 1) / U + 1).

Lemma install_first : fp = start / U /\ 0 <= fp.
Proof.
  unfold fp, block_first_page. rewrite (block_floor e G start Hm). split; [done|].
  apply Z.div_pos; [lia|done].
Qed.

Lemma install_last : lp <= 32 * vsize (words_ e).
Proof. pose proof (geo_words _ G). unfold lp. lia. Qed.

Lemma install_count : lp - fp = units_of U (last - start) /\ fp <= lp.
Proof.
  pose proof (units_of_nonneg U (last - start) ltac:(done) ltac:(lia)).
  cut (lp - fp = units_of U (last - start)); [lia|]. destruct install_first as [-> _].
  pose proof (aligned_unit e G start Hm). unfold lp, units_of.
  rewrite (proj2 (Z.eqb_neq (last - start) 0)) by lia.
  assert ((last - 1) / U < page_count_ e).
  { apply (page_in_object e G); rewrite unit_value in *; Z.to_euclidean_division_equations; nia. }
  rewrite Z.min_r by lia. rewrite unit_value in *. Z.to_euclidean_division_equations; nia.
Qed.

Lemma install_states q : 0 <= q ->
  page_state (set_pages (words_ e) (zrange fp lp) CACHE_PAGE_READ_PENDING) q =
  if (start <=? q * U) && (q * U <? last) then CACHE_PAGE_READ_PENDING else state_at e q.
Proof.
  intros Hq. rewrite set_pages_state by (apply install_first || apply install_last || done).
  pose proof (claim_page_bounds start last q Hs Hm Hl Hq) as Hp. fold fp lp in Hp. unfold state_at.
  destruct (Z.leb_spec fp q), (Z.ltb_spec q lp), (Z.leb_spec start (q * U)),
    (Z.ltb_spec (q * U) last); cbn; (done || lia).
Qed.

(** Every page of the range was clean or missing. *)
Lemma install_prior s : s ∈ map (state_at e) (zrange fp lp) ->
  s = CACHE_PAGE_CLEAN \/ s = CACHE_PAGE_MISSING.
Proof.
  intros (q & -> & Hq)%list_elem_of_fmap. apply elem_of_zrange in Hq.
  pose proof install_first as [_ Hfp].
  assert (start <= q * U < last) by (apply claim_page_bounds; (done || lia)).
  destruct (block_of_spec e G (q * U)) as [Hbm Hb].
  pose proof (block_of_after e G start (q * U) Hm ltac:(lia)).
  destruct (Hfree (block_of e (q * U))) as [_ Hstate]; [lia|done|]. apply Hstate; lia.
Qed.

Lemma install_claim_spec e' c :
  install_claim e start last = (e', c) ->
  exists a, claimed e' c a /\ fetch_offset a = start /\ fetch_end a = last.
Proof.
  unfold install_claim. destruct (fresh_id e) as [id next] eqn:Eid. fold fp lp. intros E.
  pose proof install_first as [Hfp Hfp0]. pose proof install_count as [Hcount Hlpfp].
  injection E as <- <-.
  exists {| fetch_id := id; fetch_epoch := epoch_ e; fetch_offset := start;
            fetch_length := last - start; published := 0; verifying := false; retrying := false;
            prior_states := map (state_at e) (zrange fp lp) |}.
  assert (Hend : start + (last - start) = last) by lia.
  split; [|split; [done|exact Hend]].
  constructor; rewrite ?Eid; unfold covers, fetch_end; cbn [fetch_id fetch_epoch fetch_offset
    fetch_length published verifying retrying prior_states fst snd]; rewrite ?Hend; try done.
  - unfold is_claim; cbn. by rewrite !Z.eqb_refl.
  - constructor; unfold fetch_end; cbn; rewrite ?Hend; try done; try lia.
    + right. pose proof (block_pos _ G). by apply Z.mod_0_l; lia.
    + unfold vsize. rewrite length_map, length_zrange. lia.
    + apply install_prior.
  - intros q Hq Hc. assert (fp <= q < lp) by by apply claim_page_bounds.
    rewrite <- Hfp, vget_map_zrange by lia. f_equal. lia.
  - apply set_pages_size.
  - intros q Hq Hc. etransitivity; [apply (install_states q Hq)|].
    by rewrite (proj2 (Z.leb_le _ _)), (proj2 (Z.ltb_lt _ _)) by lia.
  - intros q Hq Hnc. etransitivity; [apply (install_states q Hq)|].
    destruct (Z.leb_spec start (q * U)), (Z.ltb_spec (q * U) last); cbn; (done || lia).
Qed.
End Install.

(** [claim_fetch] either changes nothing or claims whole free blocks from the block of the
    first missing page on. *)
Lemma claim_fetch_spec offset length expansion e' r :
  0 <= offset -> 0 <= length -> 0 <= expansion ->
  claim_fetch offset length expansion e = (e', r) ->
  (e' = e /\ (r = Throw (SystemError ESTALE) \/ r = Ok no_claim)) \/
  (exists c a missing, r = Ok c /\ claimed e' c a /\ stale_ e = false /\ dirty_or_exported e = false /\
     first_missing e (zrange (first_page_of offset)
        (last_page_of offset (Z.min length (size_ e - offset)) + 1)) = Some missing /\
     fetch_offset a = block_of e (missing * U) /\ covers a missing).
Proof.
  intros Ho Hlen Hx. unfold claim_fetch. pose proof (block_pos _ G) as Hbs. pose proof (size_small _ G) as Hsz.
  destruct (stale_ e) eqn:Est; [by intros [= <- <-]; left; auto|].
  destruct ((length =? 0) || (size_ e <=? offset) || dirty_or_exported e) eqn:Eg;
    [by intros [= <- <-]; left; auto|].
  apply orb_false_iff in Eg as [Eg Ed]. bool_case.
  set (l := Z.min length (size_ e - offset)).
  destruct (first_missing e _) as [missing|] eqn:Em; [|by intros [= <- <-]; left; auto].
  destruct (first_missing_spec _ _ _ Em) as (Hmr & Hmm & _).
  rewrite last_page_small in Hmr by lia. unfold first_page_of in Hmr.
  assert (Hm0 : 0 <= missing) by (assert (0 <= offset / U) by (apply Z.div_pos; done); lia).
  assert (Hmu : missing * U < size_ e).
  { rewrite unit_value in *. Z.to_euclidean_division_equations; nia. }
  fold (block_of e (missing * U)). destruct (block_of_spec e G (missing * U)) as [Hbm Hbb].
  set (start := block_of e (missing * U)) in *.
  assert (Hs0 : 0 <= start).
  { unfold start, block_of. assert (0 <= missing * U / block_size_ e) by (apply Z.div_pos; [rewrite unit_value|]; lia).
    nia. }
  destruct (claim_limit_spec start (offset + l) expansion) as (Hl1 & Hl2 & Hl3); [lia..|].
  set (limit := claim_limit e start (offset + l) expansion) in *.
  set (fuel := Z.to_nat (limit / block_size_ e + 1)).
  destruct (claim_scan_spec fuel start start limit) as (J1 & J2 & J3 & J4); try done; try lia.
  { unfold fuel. assert (0 <= limit / block_size_ e) by (apply Z.div_pos; lia).
    rewrite Z2Nat.id by lia. pose proof (Z.div_mod limit (block_size_ e) ltac:(lia)).
    pose proof (Z.mod_pos_bound limit (block_size_ e) ltac:(lia)). lia. }
  set (last := claim_scan fuel e start start limit) in *.
  destruct (Z.leb_spec last start); [by intros [= <- <-]; left; auto|].
  destruct (install_claim e start last) as [e1 c1] eqn:Ei. intros [= <- <-]. right.
  assert (Hle : last = size_ e \/ last mod block_size_ e = 0)
    by (destruct J3 as [E|]; [rewrite E|]; auto).
  destruct (install_claim_spec start last ltac:(lia) Hbm ltac:(lia) Hle J4 e1 c1 Ei)
    as (a & Hcl & Hao & Hae).
  exists c1, a, missing. do 6 (split; [done|]).
  unfold covers. rewrite Hao, Hae. split; [lia|].
  destruct J3 as [->|J3]; [rewrite unit_value in *; Z.to_euclidean_division_equations; nia|].
  pose proof (next_block e start last G ltac:(lia) ltac:(lia) Hbm ltac:(by right)). lia.
Qed.
End Claiming.
