(* ===== verification/CacheEntryInv.v ===== *)
(** * CacheEntry: the invariant of a shared entry

    An entry is shared by readers that pin ranges, fetches that own unpublished pages, checksum
    verifiers, eviction, writers and retirement.  [CacheState] adds to the entry what those
    clients know (the pins replies hold, the bytes each response has stored, the pages whose
    bytes are in the data file); [cache_step] is any one critical section, and [cache_inv] is
    what holds between them. *)

From S2P Require Import Prelude CacheBitmap CacheEntry CacheEntryLemmas.

(** ** Clients *)

(** [held]: ranges pinned by replies in flight.  [admitted]: those of them that the cache has
    admitted, because the range was clean or the generation dirty when they pinned it; a handle
    that reads a recovered write pins without a test, also after the write has been committed.
    [received id]: bytes the response of fetch [id] has stored, in order.  [drained id]:
    [begin_retry] has returned for the fetch, that is, no reply pinned its blocks any more;
    [cleared i]: the same of [begin_checksum_retry] and part [i].  [stored q]: the bytes of page
    [q] are in the data file. *)
Record CacheState := mkCacheState {
  entry : CacheEntry; held : list (Z * Z); admitted : list (Z * Z); received : Z -> Z;
  drained : Z -> bool; cleared : Z -> bool; stored : Z -> bool;
}.
#[global] Instance CacheState_settable : Settable CacheState := fun s =>
  mkCacheState (entry s) (held s) (admitted s) (received s) (drained s) (cleared s) (stored s).

Definition update {A} (f : Z -> A) (i : Z) (v : A) : Z -> A := fun j => if j =? i then v else f j.

(** The end of the page's bytes in the object. *)
Definition page_end (e : CacheEntry) (q : Z) : Z := Z.min (size_ e) ((q + 1) * U).

(** A pinned range touches a region. *)
Definition range_touches (e : CacheEntry) (offset length r : Z) : Z :=
  in_range (offset / block_size_ e) ((offset + length - 1) / block_size_ e + 1) r.

Definition reply_pins (e : CacheEntry) (held : list (Z * Z)) (r : Z) : Z :=
  zsum (fun h => range_touches e h.1 h.2 r) held.

Definition in_object (e : CacheEntry) (offset length : Z) : Prop :=
  0 <= offset /\ 0 < length /\ offset + length <= size_ e.

(** ** The invariant *)

Record claims_inv (e : CacheEntry) : Prop := {
  ci_geometry : geometry e;
  ci_next : 0 < next_claim_id_ e < 2 ^ 64;
  ci_ids : forall a, a ∈ active_claims_ e -> 0 < fetch_id a < next_claim_id_ e;
  ci_distinct : NoDup (map fetch_id (active_claims_ e));
  ci_fetches : forall a, a ∈ active_claims_ e -> fetch_ok e a;
  (** Unpublished pages are pending, or bad. *)
  ci_owned : forall a q, a ∈ active_claims_ e -> 0 <= q -> owns a q ->
    state_at e q = CACHE_PAGE_READ_PENDING \/ state_at e q = CACHE_PAGE_BAD;
  (** No page is pending without a fetch that owns it. *)
  ci_pending : forall q, 0 <= q -> q * U < size_ e -> state_at e q = CACHE_PAGE_READ_PENDING ->
    exists a, a ∈ active_claims_ e /\ owns a q;
  ci_disjoint : forall a b q, a ∈ active_claims_ e -> b ∈ active_claims_ e ->
    fetch_id a <> fetch_id b -> 0 <= q -> owns a q -> owns b q -> False;
  (** A fetch under whole-object verification shares no page with another fetch. *)
  ci_exclusive : forall a b q, a ∈ active_claims_ e -> b ∈ active_claims_ e ->
    verifying a = true -> fetch_id a <> fetch_id b -> 0 <= q -> covers a q -> covers b q -> False;
  ci_retrying : forall a, a ∈ active_claims_ e -> retrying a = true -> verifying a = true;
  ci_verifying : forall a, a ∈ active_claims_ e -> verifying a = true -> retrying a = false ->
    published a = fetch_length a;
}.

Record pins_inv (e : CacheEntry) (held : list (Z * Z)) : Prop := {
  pi_held : forall h, h ∈ held -> in_object e h.1 h.2;
  pi_count : forall r, 0 <= r < vsize (region_pins_ e) ->
    vget 0 (region_pins_ e) r = reply_pins e held r + verification_pins e r;
  pi_bound : forall r, 0 <= r < vsize (region_pins_ e) -> vget 0 (region_pins_ e) r <= UINT32_MAX;
  pi_total : pinned_regions_ e = zsum id (region_pins_ e);
}.

Definition in_progress_count (states : list Z) : Z :=
  zsum (fun s => if part_in_progress s then 1 else 0) states.

Record checks_inv (e : CacheEntry) : Prop := {
  ck_lengths : length (checksum_states_ e) = length (checksum_parts_ e);
  ck_available : checksum_manifest_ e = kChecksumAvailable ->
    parts_valid (size_ e) 0 (checksum_parts_ e) = true;
  ck_absent : checksum_manifest_ e <> kChecksumAvailable -> checksum_parts_ e = [];
  ck_sizes : forall p, p ∈ checksum_parts_ e -> 0 <= part_size p;
  ck_ops : checksum_ops_ e =
    (if checksum_manifest_ e =? kChecksumLoading then 1 else 0) +
    in_progress_count (checksum_states_ e);
  (** Whole-object and part verification exclude each other. *)
  ck_exclusive : forall a, a ∈ active_claims_ e -> verifying a = true ->
    checksum_manifest_ e <> kChecksumLoading /\ checksum_manifest_ e <> kChecksumAvailable;
  ck_dirty : is_dirty e = true ->
    active_claims_ e = [] /\ checksum_manifest_ e <> kChecksumLoading /\
    checksum_manifest_ e <> kChecksumAvailable /\ size_ e = written_end (header_ e) /\
    forall q, 0 <= q -> q * U < size_ e -> state_at e q = CACHE_PAGE_CLEAN;
}.

Record data_inv (s : CacheState) : Prop := {
  (** A clean page has its bytes in the file. *)
  di_clean : forall q, 0 <= q -> q * U < size_ (entry s) ->
    state_at (entry s) q = CACHE_PAGE_CLEAN -> stored s q = true;
  (** So has every page that a rollback would turn clean again ... *)
  di_prior : forall a q, a ∈ active_claims_ (entry s) -> 0 <= q -> owns a q ->
    vget CACHE_PAGE_MISSING (prior_states a) (q - fetch_offset a / U) = CACHE_PAGE_CLEAN ->
    stored s q = true;
  di_verifying : forall a q, a ∈ active_claims_ (entry s) -> verifying a = true -> 0 <= q ->
    covers a q -> stored s q = true;
  (** ... and what its response has delivered completely. *)
  di_received : forall a q, a ∈ active_claims_ (entry s) -> 0 <= q -> owns a q ->
    page_end (entry s) q <= fetch_offset a + received s (fetch_id a) -> stored s q = true;
  di_received_range : forall a, a ∈ active_claims_ (entry s) ->
    published a <= received s (fetch_id a) <= fetch_length a;
  (** Blocks under an admitted reply's pin are owned only by a retry that has to wait for it. *)
  di_stable : forall a r, a ∈ active_claims_ (entry s) -> 0 <= r ->
    0 < reply_pins (entry s) (admitted s) r ->
    fetch_offset a + published a <= r * block_size_ (entry s) < fetch_end a ->
    retrying a = true /\ drained s (fetch_id a) = false;
}.

Record cache_inv (s : CacheState) : Prop := {
  inv_claims : claims_inv (entry s);
  inv_pins : pins_inv (entry s) (held s);
  inv_checks : checks_inv (entry s);
  inv_data : data_inv s;
  inv_admitted : admitted s ⊆+ held s;
}.

(** The parts of the invariant; the replies are often the same. *)
Ltac split_inv :=
  split; cbn [entry held];
  lazymatch goal with
  | |- admitted _ ⊆+ _ => first [assumption|match goal with H : cache_inv _ |- _ => exact (inv_admitted _ H) end|idtac]
  | _ => idtac
  end.

(** ** Frames: steps that leave alone what the invariant speaks about *)

Record same_core (e e' : CacheEntry) : Prop := {
  sc_dirty : is_dirty e' = is_dirty e;
  sc_written : written_end (header_ e') = written_end (header_ e);
  sc_words : words_ e' = words_ e; sc_size : size_ e' = size_ e; sc_epoch : epoch_ e' = epoch_ e;
  sc_block : block_size_ e' = block_size_ e; sc_pages : page_count_ e' = page_count_ e;
  sc_referenced : vsize (referenced_ e') = vsize (referenced_ e);
  sc_pins : region_pins_ e' = region_pins_ e; sc_claims : active_claims_ e' = active_claims_ e;
  sc_parts : checksum_parts_ e' = checksum_parts_ e;
  sc_states : checksum_states_ e' = checksum_states_ e;
  sc_next : next_claim_id_ e' = next_claim_id_ e; sc_ops : checksum_ops_ e' = checksum_ops_ e;
  sc_pinned : pinned_regions_ e' = pinned_regions_ e;
  sc_manifest : checksum_manifest_ e' = checksum_manifest_ e;
}.

Lemma same_core_refl e : same_core e e.
Proof. by constructor. Qed.

Lemma same_core_trans e1 e2 e3 : same_core e1 e2 -> same_core e2 e3 -> same_core e1 e3.
Proof. intros [] []. constructor; congruence. Qed.

Lemma geometry_frame e e' :
  block_size_ e' = block_size_ e -> size_ e' = size_ e -> page_count_ e' = page_count_ e ->
  vsize (words_ e') = vsize (words_ e) -> vsize (referenced_ e') = vsize (referenced_ e) ->
  vsize (region_pins_ e') = vsize (region_pins_ e) ->
  geometry e -> geometry e'.
Proof. intros Hb Hs Hp Hw Hr Hpi []. constructor; rewrite ?Hb, ?Hs, ?Hp, ?Hw, ?Hr, ?Hpi; done. Qed.

Lemma fetch_ok_frame e e' a :
  block_size_ e' = block_size_ e -> size_ e' = size_ e -> epoch_ e' = epoch_ e ->
  fetch_ok e a -> fetch_ok e' a.
Proof. intros Hb Hs He []. constructor; rewrite ?Hb, ?Hs, ?He; done. Qed.

(** The parts of the invariant depend on few members each. *)
Lemma claims_frame e e' :
  words_ e' = words_ e -> size_ e' = size_ e -> epoch_ e' = epoch_ e ->
  block_size_ e' = block_size_ e -> page_count_ e' = page_count_ e ->
  vsize (referenced_ e') = vsize (referenced_ e) ->
  vsize (region_pins_ e') = vsize (region_pins_ e) ->
  active_claims_ e' = active_claims_ e -> next_claim_id_ e' = next_claim_id_ e ->
  claims_inv e -> claims_inv e'.
Proof.
  intros Hw Hs He Hb Hp Hr Hpi Hc Hn [G ? ? ? F ? ? ? ? ? ?].
  assert (Hst : forall q, state_at e' q = state_at e q) by (intros; unfold state_at; by rewrite Hw).
  constructor; rewrite ?Hc, ?Hn, ?Hs; try done.
  - apply (geometry_frame e); congruence.
  - intros a Ha. apply (fetch_ok_frame e); [done..|]. by apply F.
  - intros. rewrite Hst. eauto.
  - intros q. rewrite Hst. eauto.
Qed.

Lemma checks_frame e e' :
  words_ e' = words_ e -> size_ e' = size_ e -> active_claims_ e' = active_claims_ e ->
  checksum_parts_ e' = checksum_parts_ e -> checksum_states_ e' = checksum_states_ e ->
  checksum_ops_ e' = checksum_ops_ e -> checksum_manifest_ e' = checksum_manifest_ e ->
  (is_dirty e' = true -> is_dirty e = true) ->
  written_end (header_ e') = written_end (header_ e) ->
  checks_inv e -> checks_inv e'.
Proof.
  intros Hw Hs Hc Hp Hst Ho Hm Hd Hwe [? ? ? ? ? ? Kd].
  constructor; rewrite ?Hst, ?Hp, ?Hm, ?Ho, ?Hc, ?Hs, ?Hwe; try done.
  intros Hdt. destruct (Kd (Hd Hdt)) as (? & ? & ? & ? & Hcl).
  repeat (split; [done|]). intros. unfold state_at. rewrite Hw. by apply Hcl.
Qed.

Lemma pins_frame e e' hs :
  size_ e' = size_ e -> block_size_ e' = block_size_ e -> region_pins_ e' = region_pins_ e ->
  pinned_regions_ e' = pinned_regions_ e ->
  (forall r, verification_pins e' r = verification_pins e r) ->
  pins_inv e hs -> pins_inv e' hs.
Proof.
  intros Hs Hb Hp Ht Hv [Ph Pc Pb Pt]. constructor; rewrite ?Hp, ?Ht; try done.
  - intros h Hh. destruct (Ph h Hh) as (? & ? & ?). unfold in_object. by rewrite Hs.
  - intros. rewrite Hv. unfold reply_pins, range_touches. rewrite Hb. by apply Pc.
Qed.

Lemma data_frame s s' :
  words_ (entry s') = words_ (entry s) -> size_ (entry s') = size_ (entry s) ->
  block_size_ (entry s') = block_size_ (entry s) ->
  active_claims_ (entry s') = active_claims_ (entry s) ->
  received s' = received s -> drained s' = drained s -> stored s' = stored s ->
  (forall a r, a ∈ active_claims_ (entry s) -> 0 <= r ->
     fetch_offset a + published a <= r * block_size_ (entry s) < fetch_end a ->
     0 < reply_pins (entry s') (admitted s') r -> 0 < reply_pins (entry s) (admitted s) r) ->
  data_inv s -> data_inv s'.
Proof.
  intros Hw Hs Hb Hc Hr Hd Hst Hh [D1 D2 D3 D4 D5 D6].
  assert (Hsa : forall q, state_at (entry s') q = state_at (entry s) q)
    by (intros; unfold state_at; by rewrite Hw).
  constructor; rewrite ?Hc, ?Hs, ?Hr, ?Hd, ?Hst, ?Hb; try done.
  - intros q. rewrite Hsa. eauto.
  - intros a q. unfold page_end. rewrite Hs. eauto.
  - intros a r Ha Hr0 Hp Ho. by apply (D6 a r Ha Hr0); [apply (Hh a)|].
Qed.

Lemma cache_inv_frame s e' :
  cache_inv s -> same_core (entry s) e' -> cache_inv (s <| entry := e' |>).
Proof.
  intros [C P K D A] [S1 S2 S3 S4 S5 S6 S7 S8 S9 S10 S11 S12 S13 S14 S15 S16].
  split; change (entry (s <| entry := e' |>)) with e'; change (held (s <| entry := e' |>)) with (held s).
  - by apply (claims_frame (entry s)); rewrite ?S9.
  - apply (pins_frame (entry s)); try done.
    intros; unfold verification_pins; by rewrite S4, S6, S10, S11, S12.
  - apply (checks_frame (entry s)); try done. by rewrite S1.
  - apply (data_frame s); try done. intros a r _ _ _. cbn. unfold reply_pins, range_touches.
    by rewrite S6.
  - done.
Qed.

Lemma notify_core e : same_core e (notify_waiters_locked e).
Proof. unfold notify_waiters_locked. destruct (wait_fd_ e); [destruct (_ =? _)|]; by constructor. Qed.

Lemma register_waiter_core ev e : same_core e (register_waiter ev e).1.
Proof. unfold register_waiter. destruct (wait_fd_ e), ev; by constructor. Qed.
#[export] Hint Resolve same_core_refl notify_core register_waiter_core : ngs3fs.

Lemma fold_vset_size {A} (l : list A) x rs :
  vsize (fold_left (fun l r => vset l r x) rs l) = vsize l.
Proof. revert l; induction rs as [|r rs IH]; intros l; cbn; [done|]. by rewrite IH, vsize_vset. Qed.

Lemma mark_referenced_core e rs : same_core e (mark_referenced e rs).
Proof. constructor; try done. cbn. apply fold_vset_size. Qed.

Lemma add_punch_core o l e : same_core e (add_punch o l e).
Proof. by constructor. Qed.
#[export] Hint Resolve mark_referenced_core add_punch_core : ngs3fs.

(** ** Pin accounting *)

Lemma in_range_bool a b r c d : (c && d)%bool = ((a <=? r) && (r <? b))%bool ->
  (if c && d then 1 else 0) = in_range a b r.
Proof. intros E. unfold in_range. by rewrite E. Qed.

Lemma range_regions e offset length :
  geometry e -> in_object e offset length ->
  0 <= first_region e offset < last_region e offset length /\
  last_region e offset length = (offset + length - 1) / block_size_ e + 1 /\
  last_region e offset length <= vsize (region_pins_ e) /\
  clipped_region e offset length = last_region e offset length.
Proof.
  intros G (Ho & Hl & Hs). pose proof (block_pos _ G). pose proof (size_small _ G).
  unfold clipped_region, first_region, last_region. rewrite u64_small by lia.
  assert (0 <= offset / block_size_ e) by (apply Z.div_pos; lia).
  assert (offset / block_size_ e <= (offset + length - 1) / block_size_ e)
    by (apply Z.div_le_mono; lia).
  assert ((offset + length - 1) / block_size_ e < vsize (region_pins_ e)).
  { apply (region_in_object e G); [lia|].
    pose proof (Z.div_mod (offset + length - 1) (block_size_ e) ltac:(lia)).
    pose proof (Z.mod_pos_bound (offset + length - 1) (block_size_ e) ltac:(lia)). lia. }
  repeat split; lia.
Qed.

(** The code's overlap test of a range with a region, as region numbers. *)
Lemma touches_region e offset length r :
  geometry e -> in_object e offset length -> 0 <= r -> r * block_size_ e < size_ e ->
  ((offset <? Z.min (size_ e) (u64 (r * block_size_ e + block_size_ e))) &&
   (r * block_size_ e <? u64 (offset + length)))%bool =
  ((offset / block_size_ e <=? r) && (r <? (offset + length - 1) / block_size_ e + 1))%bool.
Proof.
  intros G (Ho & Hl & Hs) Hr Hrs. pose proof (block_pos _ G). pose proof (size_small _ G).
  pose proof (geo_block _ G). rewrite !u64_small by lia.
  pose proof (Z.div_mod offset (block_size_ e) ltac:(lia)).
  pose proof (Z.mod_pos_bound offset (block_size_ e) ltac:(lia)).
  pose proof (Z.div_mod (offset + length - 1) (block_size_ e) ltac:(lia)).
  pose proof (Z.mod_pos_bound (offset + length - 1) (block_size_ e) ltac:(lia)).
  set (f := offset / block_size_ e) in *. set (l := (offset + length - 1) / block_size_ e) in *.
  destruct (Z.ltb_spec offset (Z.min (size_ e) (r * block_size_ e + block_size_ e))),
    (Z.ltb_spec (r * block_size_ e) (offset + length)), (Z.leb_spec f r), (Z.ltb_spec r (l + 1));
    cbn; (done || nia).
Qed.

Definition fetch_pins (e : CacheEntry) (r : Z) (a : ActiveFetch) : Z :=
  if verifying a then range_touches e (fetch_offset a) (fetch_length a) r else 0.

Definition part_pins (e : CacheEntry) (r : Z) (ps : CacheChecksumPart * Z) : Z :=
  if part_in_progress ps.2 then range_touches e (part_offset ps.1) (part_size ps.1) r else 0.

Lemma fetch_in_object e a : fetch_ok e a -> in_object e (fetch_offset a) (fetch_length a).
Proof. intros []. unfold fetch_end in *. repeat split; lia. Qed.

Lemma parts_valid_in_object e offset parts p :
  0 <= offset -> (forall p, p ∈ parts -> 0 <= part_size p) ->
  parts_valid (size_ e) offset parts = true -> p ∈ parts ->
  in_object e (part_offset p) (part_size p).
Proof.
  revert offset. induction parts as [|x parts IH]; intros offset Ho Hp Hv Hin; [by apply elem_of_nil in Hin|].
  cbn in Hv. destruct (_ || _) eqn:E in Hv; [done|]. bool_case.
  pose proof (Hp x ltac:(set_solver)).
  apply elem_of_cons in Hin as [->|Hin]; [repeat split; lia|].
  apply (IH (offset + part_size x)); [lia|set_solver|done|done].
Qed.

Lemma elem_of_combine {A B} (l : list A) (k : list B) x y : (x, y) ∈ combine l k -> x ∈ l /\ y ∈ k.
Proof. rewrite !list_elem_of_In. intros H. split; eauto using in_combine_l, in_combine_r. Qed.

(** [verification_pins] counts, per region, the verifying fetches and the parts in progress. *)
Lemma verification_pins_eq e r :
  geometry e -> (forall a, a ∈ active_claims_ e -> fetch_ok e a) -> checks_inv e ->
  0 <= r < vsize (region_pins_ e) ->
  verification_pins e r =
  zsum (part_pins e r) (combine (checksum_parts_ e) (checksum_states_ e)) +
  zsum (fetch_pins e r) (active_claims_ e).
Proof.
  intros G F K Hr. assert (r * block_size_ e < size_ e) by (apply (region_in_object e G); lia).
  unfold verification_pins. f_equal; apply zsum_ext.
  - intros [p st] Hin. unfold part_pins, part_touches, part_end. cbn [fst snd].
    destruct (part_in_progress st); [|done]. cbn [andb].
    apply in_range_bool. apply touches_region; try done; [|lia].
    apply elem_of_combine in Hin as [Hin _].
    destruct (Z.eq_dec (checksum_manifest_ e) kChecksumAvailable) as [Hm|Hm].
    + by apply (parts_valid_in_object e 0 (checksum_parts_ e)); [|apply (ck_sizes _ K)|apply (ck_available _ K)|].
    + rewrite (ck_absent _ K Hm) in Hin. by apply elem_of_nil in Hin.
  - intros a Hin. unfold fetch_pins, fetch_touches. destruct (verifying a); [|done]. cbn [andb].
    apply in_range_bool. apply touches_region; try done; [|lia]. by apply fetch_in_object, F.
Qed.

Lemma in_range_nonneg a b r : 0 <= in_range a b r.
Proof. unfold in_range. destruct (_ && _); lia. Qed.

Lemma reply_pins_nonneg e hs r : 0 <= reply_pins e hs r.
Proof. apply zsum_nonneg. intros. apply in_range_nonneg. Qed.

Lemma verification_pins_nonneg e r : 0 <= verification_pins e r.
Proof.
  unfold verification_pins. apply Z.add_nonneg_nonneg; apply zsum_nonneg;
    intros x _; destruct (_ && _); lia.
Qed.

Lemma pins_nonneg e hs x : pins_inv e hs -> x ∈ region_pins_ e -> 0 <= x <= UINT32_MAX.
Proof.
  intros P (i & Hi)%list_elem_of_lookup_1. pose proof (lookup_lt_Some _ _ _ Hi) as Hlt.
  assert (x = vget 0 (region_pins_ e) (Z.of_nat i)) as ->
    by (unfold vget; by rewrite Nat2Z.id, Hi).
  assert (0 <= Z.of_nat i < vsize (region_pins_ e)) as Hr by (unfold vsize; lia).
  split; [|by apply (pi_bound _ _ P)]. rewrite (pi_count _ _ P) by done.
  pose proof (reply_pins_nonneg e hs (Z.of_nat i)). pose proof (verification_pins_nonneg e (Z.of_nat i)). lia.
Qed.

(** The total stays far from overflow because the object is bounded. *)
Lemma pins_total_bound e hs :
  geometry e -> pins_inv e hs -> 0 <= zsum id (region_pins_ e) < 2 ^ 63 /\ vsize (region_pins_ e) <= 2 ^ 31.
Proof.
  intros G P. assert (vsize (region_pins_ e) <= 2 ^ 31).
  { destruct (Z.le_gt_cases (vsize (region_pins_ e)) (2 ^ 31)) as [|Hgt]; [done|exfalso].
    pose proof (proj1 (region_in_object e G (2 ^ 31) ltac:(lia)) Hgt).
    pose proof (geo_size _ G). pose proof (block_pos _ G). pose proof (geo_unit _ G).
    unfold max_object in *. rewrite unit_value in *.
    assert (32768 <= block_size_ e) by (Z.to_euclidean_division_equations; nia). nia. }
  split; [|done]. split.
  - apply zsum_nonneg. intros x Hx. apply (pins_nonneg e hs x P Hx).
  - assert (zsum id (region_pins_ e) <= zsum (fun _ => UINT32_MAX) (region_pins_ e)).
    { apply zsum_le. intros x Hx. apply (pins_nonneg e hs x P Hx). }
    assert (forall l : list Z, zsum (fun _ => UINT32_MAX) l = vsize l * UINT32_MAX) as E.
    { induction l as [|y l IH]; [done|]. rewrite zsum_cons, IH. unfold vsize. cbn [length]. lia. }
    rewrite E in *. unfold UINT32_MAX in *. lia.
Qed.

(** More pins on a range of regions, accounted for by a reply or a verifier. *)
Lemma pins_add e hs e' hs' first last :
  geometry e -> pins_inv e hs -> 0 <= first <= last -> last <= vsize (region_pins_ e) ->
  pins_full (region_pins_ e) (zrange first last) = false ->
  region_pins_ e' = region_pins_ (add_pins e first last) ->
  pinned_regions_ e' = pinned_regions_ (add_pins e first last) ->
  (forall h, h ∈ hs' -> in_object e' h.1 h.2) ->
  (forall r, 0 <= r < vsize (region_pins_ e) ->
     reply_pins e' hs' r + verification_pins e' r =
     reply_pins e hs r + verification_pins e r + in_range first last r) ->
  pins_inv e' hs'.
Proof.
  intros G P Hfl Hl Hfull Hp Ht Hh Hsum.
  destruct (bump_pins_spec (region_pins_ e) first last ltac:(lia) Hl) as (Hsz & Hget & Hz).
  destruct (pins_total_bound e hs G P) as [Hb1 Hb2].
  cbn in Hp, Ht. constructor; rewrite ?Hp, ?Ht, ?Hsz; try done.
  - intros r Hr. rewrite Hget, Hsum, (pi_count _ _ P) by lia. lia.
  - intros r Hr. rewrite Hget by lia. pose proof (pi_bound _ _ P r Hr). unfold in_range.
    destruct ((first <=? r) && (r <? last)) eqn:E; [|lia]. bool_case.
    pose proof (pins_full_false _ _ _ Hfull r ltac:(lia)). lia.
  - rewrite Hz, (pi_total _ _ P), u64_small by lia. lia.
Qed.

Lemma positive_sum first last l :
  0 <= first <= last -> last <= vsize l -> (forall x, x ∈ l -> 0 <= x) ->
  (forall r, first <= r < last -> 0 < vget 0 l r) -> last - first <= zsum id l.
Proof.
  remember (Z.to_nat (last - first)) as n eqn:En. revert first l En.
  induction n as [|n IH]; intros a l En Ha Hle Hnn Hp.
  - assert (0 <= zsum id l) by (by apply zsum_nonneg). lia.
  - pose proof (Hp a ltac:(lia)).
    assert (last - (a + 1) <= zsum id (vset l a 0)) as Hr.
    { apply IH; try lia; [by rewrite vsize_vset| |].
      - intros x (i & Hi)%list_elem_of_lookup_1. unfold vset in Hi.
        apply list_lookup_insert_Some in Hi as [(_ & <- & _)|[_ Hj]]; [lia|].
        by apply Hnn, list_elem_of_lookup_2 with i.
      - intros r Hr. rewrite vget_vset by lia. rewrite (proj2 (Z.eqb_neq a r)) by lia.
        apply Hp; lia. }
    rewrite (zsum_vset 0) in Hr by lia. unfold id in Hr at 2 3. lia.
Qed.

(** Fewer pins; every region of the range had one. *)
Lemma pins_release e hs first last :
  geometry e -> pins_inv e hs -> 0 <= first <= last -> last <= vsize (region_pins_ e) ->
  (forall r, first <= r < last -> 0 < vget 0 (region_pins_ e) r) ->
  exists pins, release_pins e first last =
    (e <| region_pins_ := pins |> <| pinned_regions_ := pinned_regions_ e - (last - first) |>,
     first <? last) /\ vsize pins = vsize (region_pins_ e) /\
  forall e' hs', region_pins_ e' = pins ->
    pinned_regions_ e' = pinned_regions_ e - (last - first) ->
    (forall h, h ∈ hs' -> in_object e' h.1 h.2) ->
    (forall r, 0 <= r < vsize (region_pins_ e) ->
       reply_pins e' hs' r + verification_pins e' r + in_range first last r =
       reply_pins e hs r + verification_pins e r) ->
    pins_inv e' hs'.
Proof.
  intros G P Hfl Hl Hpos. destruct (pins_total_bound e hs G P) as [Hb1 Hb2].
  pose proof (pi_total _ _ P) as Htotal.
  assert (Hge : last - first <= zsum id (region_pins_ e)).
  { apply positive_sum; try done. intros x Hx. apply (pins_nonneg e hs x P Hx). }
  destruct (drop_pins_spec (region_pins_ e) (pinned_regions_ e) first last)
    as (pins & E & Hsz & Hget & Hz); try done; try lia.
  exists pins. unfold release_pins. rewrite E, Z.max_r by lia.
  split; [done|]. split; [done|]. intros e' hs' Hp Ht Hh Hsum.
  constructor; rewrite ?Hp, ?Ht, ?Hsz; try done.
  - intros r Hr. rewrite Hget, (pi_count _ _ P) by lia. specialize (Hsum r Hr). lia.
  - intros r Hr. rewrite Hget by lia. pose proof (pi_bound _ _ P r Hr).
    pose proof (in_range_nonneg first last r). lia.
  - rewrite Hz, (pi_total _ _ P). lia.
Qed.
