(* ===== verification/CacheSteps.v ===== *)
(** * CacheEntry: every operation keeps the invariant

    One lemma per operation of [CacheEntry.v]: from any state that satisfies [cache_inv], with
    the arguments its callers pass, it leads to a state that satisfies it. *)

From S2P Require Import Prelude CacheBitmap CacheEntry CacheEntryLemmas CacheEntryInv.

Lemma inv_geometry s : cache_inv s -> geometry (entry s).
Proof. intros H. apply (ci_geometry _ (inv_claims _ H)). Qed.

Lemma inv_fetch s a : cache_inv s -> a ∈ active_claims_ (entry s) -> fetch_ok (entry s) a.
Proof. intros H. apply (ci_fetches _ (inv_claims _ H)). Qed.

(** The state with another entry but the same clients. *)
Abbreviation with_entry s e := (mkCacheState e (held s) (admitted s) (received s) (drained s) (cleared s) (stored s)).

Lemma with_entry_frame s e : cache_inv s -> same_core (entry s) e -> cache_inv (with_entry s e).
Proof. apply cache_inv_frame. Qed.

Lemma with_entry_id s : with_entry s (entry s) = s.
Proof. by destruct s. Qed.

(** ** Pins *)

(** The tail of a fetch consists of whole blocks. *)
Lemma owned_block e a b q :
  geometry e -> fetch_ok e a -> b mod block_size_ e = 0 ->
  fetch_offset a + published a <= b < fetch_end a ->
  b <= q * U < Z.min (size_ e) (b + block_size_ e) -> owns a q.
Proof.
  intros G F Hb Ht Hq. unfold owns. split; [lia|].
  pose proof (next_block e b (fetch_end a) G) as Hn. destruct F. lia.
Qed.

(** A region that a range touches has a page of that range. *)
Lemma region_page e offset length r :
  geometry e -> in_object e offset length -> 0 <= r ->
  0 < range_touches e offset length r ->
  exists q, 0 <= q /\ first_page_of offset <= q <= last_page_of offset length /\
    r * block_size_ e <= q * U < Z.min (size_ e) (r * block_size_ e + block_size_ e).
Proof.
  intros G (Ho & Hl & Hs) Hr Ht. pose proof (block_pos _ G). pose proof (size_small _ G).
  unfold range_touches, in_range in Ht.
  destruct ((_ <=? r) && _) eqn:E in Ht; [|lia]. clear Ht. bool_case.
  rewrite last_page_small by lia. unfold first_page_of.
  pose proof (aligned_unit e G (r * block_size_ e) ltac:(apply Z.mod_mul; lia)) as Hu.
  set (x := Z.max offset (r * block_size_ e)).
  assert (Hx : offset <= x < offset + length /\ r * block_size_ e <= x < r * block_size_ e + block_size_ e).
  { pose proof (Z.div_mod offset (block_size_ e) ltac:(lia)).
    pose proof (Z.mod_pos_bound offset (block_size_ e) ltac:(lia)).
    pose proof (Z.div_mod (offset + length - 1) (block_size_ e) ltac:(lia)).
    pose proof (Z.mod_pos_bound (offset + length - 1) (block_size_ e) ltac:(lia)).
    unfold x. split; split; try lia; nia. }
  exists (x / U). clearbody x. set (b := r * block_size_ e) in *. clearbody b.
  assert (offset / U <= x / U <= (offset + length - 1) / U)
    by (split; apply Z.div_le_mono; (done || lia)).
  assert (0 <= x / U) by (apply Z.div_pos; [lia|done]).
  split; [done|]. split; [done|]. rewrite unit_value in *. Z.to_euclidean_division_equations; nia.
Qed.

(** A fully clean range lies outside every fetch's tail. *)
Lemma clean_range_unowned s a offset length r :
  cache_inv s -> a ∈ active_claims_ (entry s) -> in_object (entry s) offset length -> 0 <= r ->
  range_all_state (words_ (entry s)) offset length CACHE_PAGE_CLEAN = true ->
  0 < range_touches (entry s) offset length r ->
  fetch_offset a + published a <= r * block_size_ (entry s) < fetch_end a -> False.
Proof.
  intros I Ha Hin Hr Hall Ht Htail. pose proof (inv_geometry s I) as G.
  destruct (region_page _ _ _ _ G Hin Hr Ht) as (q & Hq & Hqr & Hqb).
  apply range_all_state_spec in Hall as [|Hall]; [destruct Hin; lia| |destruct Hin; lia].
  assert (owns a q) as Ho.
  { apply (owned_block (entry s) a (r * block_size_ (entry s)));
      [done|by apply inv_fetch|apply Z.mod_mul; pose proof (block_pos _ G); lia|done|done]. }
  specialize (Hall q Hqr).
  destruct (ci_owned _ (inv_claims _ I) a q Ha Hq Ho) as [E|E]; unfold state_at in E; congruence.
Qed.

Lemma reply_pins_cons e h hs r :
  reply_pins e (h :: hs) r = range_touches e h.1 h.2 r + reply_pins e hs r.
Proof. done. Qed.

Lemma reply_pins_sub e hs hs' r : hs ⊆+ hs' -> reply_pins e hs r <= reply_pins e hs' r.
Proof.
  induction 1; rewrite ?reply_pins_cons; try lia.
  pose proof (in_range_nonneg (x.1 / block_size_ e) ((x.1 + x.2 - 1) / block_size_ e + 1) r).
  unfold range_touches. lia.
Qed.

Definition admit_reply (h : Z * Z) (admission : bool) (hs : list (Z * Z)) : list (Z * Z) :=
  if admission then h :: hs else hs.

(** Adding the pins of one more reply. *)
Lemma add_reply_pins s offset length admission e' :
  cache_inv s -> in_object (entry s) offset length ->
  (forall a r, admission = true -> a ∈ active_claims_ (entry s) -> 0 <= r -> 0 < range_touches (entry s) offset length r ->
     fetch_offset a + published a <= r * block_size_ (entry s) < fetch_end a -> False) ->
  pins_full (region_pins_ (entry s))
    (zrange (first_region (entry s) offset) (clipped_region (entry s) offset length)) = false ->
  same_core (add_pins (entry s) (first_region (entry s) offset)
               (clipped_region (entry s) offset length)) e' ->
  cache_inv (mkCacheState e' ((offset, length) :: held s) (admit_reply (offset, length) admission (admitted s))
               (received s) (drained s) (cleared s) (stored s)).
Proof.
  intros I Hin Hfree Hfull S. pose proof (inv_geometry s I) as G.
  destruct (range_regions _ _ _ G Hin) as (Hf & Hl & Hle & Hc). rewrite Hc in *.
  set (e := entry s) in *.
  set (e1 := add_pins e (first_region e offset) (last_region e offset length)) in *.
  assert (Hsz : vsize (region_pins_ e1) = vsize (region_pins_ e)).
  { destruct (bump_pins_spec (region_pins_ e) (first_region e offset) (last_region e offset length))
      as (Hsz & _ & _); [lia|done|done]. }
  apply (cache_inv_frame (mkCacheState e1 ((offset, length) :: held s)
    (admit_reply (offset, length) admission (admitted s)) (received s) (drained s) (cleared s) (stored s))); [|done].
  destruct I as [C P K D A]. split_inv.
  - by apply (claims_frame e).
  - apply (pins_add e (held s) e1 _ (first_region e offset) (last_region e offset length));
      try done; try lia.
    + intros h [->|Hh]%elem_of_cons; [done|]. apply (pi_held _ _ P h Hh).
    + intros r Hr. rewrite reply_pins_cons. cbn [fst snd].
      change (reply_pins e1 (held s) r) with (reply_pins e (held s) r).
      change (verification_pins e1 r) with (verification_pins e r).
      change (range_touches e1 offset length r) with (range_touches e offset length r).
      unfold range_touches. rewrite Hl. unfold first_region. lia.
  - by apply (checks_frame e).
  - apply (data_frame s); try done. intros a r Ha Hr Ht. cbn [entry admitted].
    destruct admission; cbn [admit_reply]; [|done]. rewrite reply_pins_cons. cbn [fst snd]. intros Hp.
    change (reply_pins e1 (admitted s) r) with (reply_pins e (admitted s) r) in Hp.
    pose proof (reply_pins_nonneg e (admitted s) r).
    destruct (Z.le_gt_cases (range_touches e1 offset length r) 0) as [|Hgt]; [fold e; lia|].
    exfalso. by apply (Hfree a r).
  - cbn [admitted]. destruct admission; cbn [admit_reply]; [by apply submseteq_skip|by apply submseteq_cons].
Qed.

Lemma pin_clean_inv s offset length e' r :
  cache_inv s -> in_object (entry s) offset length ->
  pin_clean offset length (entry s) = (e', r) ->
  cache_inv (mkCacheState e' (match r with Ok true => (offset, length) :: held s | _ => held s end)
               (match r with Ok true => (offset, length) :: admitted s | _ => admitted s end) (received s) (drained s) (cleared s) (stored s)).
Proof.
  intros I Hin. pose proof Hin as (Ho & Hl & Hs). unfold pin_clean.
  destruct (stale_ (entry s)); [by intros [= <- <-]; rewrite with_entry_id|].
  rewrite (proj2 (Z.eqb_neq length 0)) by lia.
  destruct (negb (range_all_state _ _ _ _) || _) eqn:Eg;
    [by intros [= <- <-]; rewrite with_entry_id|].
  apply orb_false_iff in Eg as [Hall%negb_false_iff _].
  destruct (pins_full _ _) eqn:Ef; [by intros [= <- <-]; rewrite with_entry_id|].
  intros [= <- <-]. apply (add_reply_pins s offset length true); try done; [|apply mark_referenced_core].
  intros a r _ Ha Hr Ht Htail. by apply (clean_range_unowned s a offset length r).
Qed.

Lemma pin_inv s offset length e' r :
  cache_inv s -> in_object (entry s) offset length ->
  pin offset length (entry s) = (e', r) ->
  cache_inv (mkCacheState e' (match r with Ok tt => (offset, length) :: held s | _ => held s end)
               (match r with
                | Ok tt => admit_reply (offset, length) (is_dirty (entry s)) (admitted s)
                | _ => admitted s
                end) (received s) (drained s) (cleared s) (stored s)).
Proof.
  intros I Hin. pose proof Hin as (Ho & Hl & Hs). unfold pin.
  destruct (stale_ (entry s)); [by intros [= <- <-]; rewrite with_entry_id|].
  rewrite (proj2 (Z.eqb_neq length 0)) by lia.
  destruct (pins_full _ _) eqn:Ef; [by intros [= <- <-]; rewrite with_entry_id|].
  intros [= <- <-]. apply (add_reply_pins s offset length); try done.
  intros a r Hd Ha. destruct (ck_dirty _ (inv_checks _ I) Hd) as [E _]. rewrite E in Ha.
  by apply elem_of_nil in Ha.
Qed.

Lemma reply_pins_app e h1 h2 r : reply_pins e (h1 ++ h2) r = reply_pins e h1 r + reply_pins e h2 r.
Proof. apply zsum_app. Qed.

(** A reply that ends gives back one pin on each region of its range. *)
Lemma unpin_inv s offset length h1 h2 adm :
  cache_inv s -> held s = h1 ++ (offset, length) :: h2 -> adm ⊆+ h1 ++ h2 -> adm ⊆+ admitted s ->
  cache_inv (mkCacheState (unpin offset length (entry s)) (h1 ++ h2) adm
               (received s) (drained s) (cleared s) (stored s)).
Proof.
  intros I Hheld Ha1 Ha2. pose proof (inv_geometry s I) as G. set (e := entry s) in *.
  pose proof (inv_pins _ I) as P. fold e in P.
  assert (Hin : in_object e offset length).
  { apply (pi_held _ _ P (offset, length)). rewrite Hheld. set_solver. }
  pose proof Hin as (Ho & Hl & Hs). unfold unpin. rewrite (proj2 (Z.eqb_neq length 0)) by lia.
  destruct (range_regions _ _ _ G Hin) as (Hf & Hlr & Hle & Hc). rewrite Hc.
  assert (Hsplit : forall r, reply_pins e (held s) r =
    reply_pins e (h1 ++ h2) r + range_touches e offset length r).
  { intros r. rewrite Hheld, !reply_pins_app, reply_pins_cons. cbn [fst snd]. lia. }
  destruct (pins_release e (held s) (first_region e offset) (last_region e offset length))
    as (pins & E & Hsz & HP); try done; try lia.
  { intros r Hr. rewrite (pi_count _ _ P), Hsplit by lia.
    pose proof (reply_pins_nonneg e (h1 ++ h2) r). pose proof (verification_pins_nonneg e r).
    unfold range_touches, in_range. rewrite <- Hlr. unfold first_region in Hr.
    rewrite (proj2 (Z.leb_le _ _)), (proj2 (Z.ltb_lt _ _)) by lia. cbn [andb]. lia. }
  rewrite E. match goal with |- context [if _ then notify_waiters_locked ?x else ?x] => set (e1 := x) end.
  assert (I1 : cache_inv (mkCacheState e1 (h1 ++ h2) adm (received s) (drained s) (cleared s) (stored s))).
  { destruct I as [C _ K D A]. split_inv.
    - by apply (claims_frame e).
    - apply HP; try done.
      + intros h Hh. apply (pi_held _ _ P). rewrite Hheld. set_solver.
      + intros r Hr. rewrite Hsplit.
        change (reply_pins e1 (h1 ++ h2) r) with (reply_pins e (h1 ++ h2) r).
        change (verification_pins e1 r) with (verification_pins e r).
        unfold range_touches. rewrite Hlr. unfold first_region. lia.
    - by apply (checks_frame e).
    - apply (data_frame s); try done. intros a r _ _ _. cbn [entry admitted]. fold e.
      change (reply_pins e1 adm r) with (reply_pins e adm r).
      pose proof (reply_pins_sub e adm (admitted s) r Ha2). lia. }
  destruct (_ <? _); [|done]. apply (cache_inv_frame _ _ I1), notify_core.
Qed.

(** ** Claims *)

(** A region with no pins has neither a reply nor a verifier. *)
Lemma unpinned_region s r :
  cache_inv s -> 0 <= r -> r * block_size_ (entry s) < size_ (entry s) ->
  vget 0 (region_pins_ (entry s)) r = 0 ->
  reply_pins (entry s) (admitted s) r = 0 /\ verification_pins (entry s) r = 0.
Proof.
  intros I Hr Hs Hp. pose proof (inv_geometry s I) as G.
  rewrite (pi_count _ _ (inv_pins _ I)) in Hp by (split; [done|by apply region_in_object]).
  pose proof (reply_pins_nonneg (entry s) (admitted s) r).
  pose proof (reply_pins_sub (entry s) _ _ r (inv_admitted _ I)).
  pose proof (verification_pins_nonneg (entry s) r). lia.
Qed.

Lemma count_nonneg {A} (f : A -> bool) l : 0 <= zsum (fun x => if f x then 1 else 0) l.
Proof. apply zsum_nonneg. intros x _. destruct (f x); lia. Qed.

Lemma count_elem {A} (f : A -> bool) l x : x ∈ l -> f x = true -> 1 <= zsum (fun x => if f x then 1 else 0) l.
Proof.
  intros Hx Hf. transitivity (if f x then 1 else 0); [by rewrite Hf|].
  apply (zsum_elem (fun x => if f x then 1 else 0)); [|done]. intros y _. destruct (f y); lia.
Qed.

(** Every block of a verifying fetch is pinned. *)
Lemma verifying_pinned s a r :
  cache_inv s -> a ∈ active_claims_ (entry s) -> verifying a = true -> 0 <= r ->
  r * block_size_ (entry s) < size_ (entry s) ->
  fetch_offset a < r * block_size_ (entry s) + block_size_ (entry s) ->
  r * block_size_ (entry s) < fetch_end a ->
  0 < verification_pins (entry s) r.
Proof.
  intros I Ha Hv Hr Hs Hl He. pose proof (inv_geometry s I) as G.
  pose proof (block_pos _ G). pose proof (size_small _ G). pose proof (geo_block _ G).
  assert (0 <= r * block_size_ (entry s)) by nia.
  unfold verification_pins. apply Z.add_nonneg_pos; [apply count_nonneg|].
  apply (Z.lt_le_trans 0 1); [done|]. apply (count_elem _ _ a Ha).
  pose proof (inv_fetch s a I Ha) as []. unfold fetch_end, fetch_touches in *.
  by rewrite Hv, !u64_small, (proj2 (Z.ltb_lt _ _)), (proj2 (Z.ltb_lt _ _)) by lia.
Qed.

Lemma has_flag_lor f a b : has_flag f (Z.lor a b) = false -> has_flag f a = false /\ has_flag f b = false.
Proof.
  unfold has_flag. rewrite !negb_false_iff, !Z.eqb_eq, Z.land_lor_distr_r. apply Z.lor_eq_0_iff.
Qed.

(** A claimed page lies in a free block. *)
Lemma claimed_block e e' c a q :
  geometry e -> claimed e e' c a -> 0 <= q -> covers a q ->
  let b := block_of e (q * U) in
  block_free e b /\ fetch_offset a <= b < fetch_end a /\ b mod block_size_ e = 0 /\
  b <= q * U < Z.min (size_ e) (b + block_size_ e).
Proof.
  intros G Cl Hq Hc b. destruct (block_of_spec e G (q * U)) as [Hm Hb]. fold b in Hm, Hb.
  destruct Hc as [Hc1 Hc2]. pose proof (cl_ok _ _ _ _ Cl) as F.
  pose proof (block_of_after e G (fetch_offset a) (q * U) (fok_align _ _ F) Hc1). fold b in H.
  pose proof (fok_inside _ _ F).
  split; [apply (cl_free _ _ _ _ Cl); [lia|done]|]. repeat split; try done; lia.
Qed.

Lemma fresh_id_small e : 0 < next_claim_id_ e -> next_claim_id_ e + 1 < 2 ^ 64 ->
  fresh_id e = (next_claim_id_ e, next_claim_id_ e + 1).
Proof.
  intros. unfold fresh_id. rewrite (proj2 (Z.eqb_neq _ _)), u64_small by lia. done.
Qed.

(** What [claimed] means for pages another fetch owns: none is claimed again. *)
Lemma claimed_unowned s e' c a b q :
  cache_inv s -> claimed (entry s) e' c a -> b ∈ active_claims_ (entry s) -> 0 <= q ->
  covers a q -> ~ owns b q /\ (verifying b = true -> ~ covers b q).
Proof.
  intros I Cl Hb Hq Hc. pose proof (inv_geometry s I) as G.
  destruct (claimed_block _ _ _ _ _ G Cl Hq Hc) as ([Hpin Hstate] & Hr & Hm & Hqb). split.
  - intros Ho. destruct (ci_owned _ (inv_claims _ I) b q Hb Hq Ho) as [E|E];
      destruct (Hstate q Hq Hqb) as [E'|E']; congruence.
  - intros Hv [Hc1 Hc2]. set (blk := block_of (entry s) (q * U)) in *.
    pose proof (block_floor _ G _ Hm) as Hfl. pose proof (block_pos _ G).
    pose proof (fok_offset _ _ (cl_ok _ _ _ _ Cl)).
    assert (0 <= blk / block_size_ (entry s)) by (apply Z.div_pos; lia).
    pose proof (verifying_pinned s b (blk / block_size_ (entry s)) I Hb Hv ltac:(done)) as Hp.
    rewrite Hfl in Hp. destruct (unpinned_region s (blk / block_size_ (entry s))) as [_ E]; try done.
    + rewrite Hfl. lia.
    + rewrite E in Hp. apply (Z.lt_irrefl 0), Hp; lia.
Qed.

(** The clients after [claim_fetch]: a new fetch has received nothing yet. *)
Definition note_claim (r : result CacheFetchClaim) (s : CacheState) : CacheState :=
  match r with
  | Ok c =>
      if claim_length c =? 0 then s
      else s <| received := update (received s) (claim_id c) 0 |>
             <| drained := update (drained s) (claim_id c) false |>
  | Throw _ => s
  end.

Lemma elem_of_snoc {A} (l : list A) x y : y ∈ l ++ [x] <-> y ∈ l \/ y = x.
Proof. rewrite elem_of_app, list_elem_of_singleton. done. Qed.

Lemma page_end_after e q : q * U < size_ e -> q * U < page_end e q.
Proof. unfold page_end. rewrite unit_value. lia. Qed.

Section Claimed.
Context (s : CacheState) (I : cache_inv s) (e' : CacheEntry) (c : CacheFetchClaim) (a : ActiveFetch).
Context (Cl : claimed (entry s) e' c a) (Hnext : next_claim_id_ (entry s) + 1 < 2 ^ 64).
Context (Hclean : dirty_or_exported (entry s) = false).

#[local] Abbreviation e := (entry s).

Lemma claimed_fields :
  active_claims_ e' = active_claims_ e ++ [a] /\ size_ e' = size_ e /\ block_size_ e' = block_size_ e /\
  region_pins_ e' = region_pins_ e /\ pinned_regions_ e' = pinned_regions_ e /\
  checksum_parts_ e' = checksum_parts_ e /\ checksum_states_ e' = checksum_states_ e /\
  fetch_id a = next_claim_id_ e /\ next_claim_id_ e' = next_claim_id_ e + 1.
Proof.
  pose proof (cl_entry _ _ _ _ Cl) as E. pose proof (cl_id _ _ _ _ Cl) as Hid.
  pose proof (ci_next _ (inv_claims _ I)). rewrite fresh_id_small in E, Hid by lia.
  rewrite E, Hid. done.
Qed.

Lemma claimed_fresh b : b ∈ active_claims_ e -> fetch_id b <> fetch_id a.
Proof.
  intros Hb. destruct claimed_fields as (_ & _ & _ & _ & _ & _ & _ & -> & _).
  pose proof (ci_ids _ (inv_claims _ I) b Hb). lia.
Qed.

Lemma claimed_claims : claims_inv e'.
Proof.
  destruct claimed_fields as (Ec & Es & Eb & Ep & _ & _ & _ & Eid & En).
  pose proof (inv_claims _ I) as C. pose proof (inv_geometry s I) as G.
  assert (Hown : forall q, owns a q <-> covers a q)
    by (intros q; unfold owns, covers; rewrite (cl_published _ _ _ _ Cl), Z.add_0_r; done).
  destruct (cl_plain _ _ _ _ Cl) as [Hnv Hnr].
  assert (Hcov : forall q, covers a q \/ ~ covers a q) by (intros; unfold covers; lia).
  constructor; rewrite ?Ec, ?En, ?Es.
  - pose proof (cl_entry _ _ _ _ Cl) as E. pose proof (cl_words _ _ _ _ Cl) as Hw.
    rewrite E. by apply (geometry_frame e).
  - pose proof (ci_next _ C). lia.
  - intros b [Hb| ->]%elem_of_snoc; [pose proof (ci_ids _ C b Hb); lia|].
    pose proof (ci_next _ C). lia.
  - rewrite map_app. apply NoDup_app. split; [apply (ci_distinct _ C)|].
    split; [|apply NoDup_singleton]. intros i (b & -> & Hb)%list_elem_of_fmap.
    cbn. rewrite list_elem_of_singleton. by apply claimed_fresh.
  - intros b [Hb| ->]%elem_of_snoc; apply (fetch_ok_frame e); try done.
    + pose proof (cl_entry _ _ _ _ Cl) as E. by rewrite E.
    + by apply (ci_fetches _ C).
    + pose proof (cl_entry _ _ _ _ Cl) as E. by rewrite E.
    + apply (cl_ok _ _ _ _ Cl).
  - intros b q [Hb| ->]%elem_of_snoc Hq Ho.
    + destruct (Hcov q) as [Hc|Hc]; [left; by apply (cl_painted _ _ _ _ Cl)|].
      rewrite (cl_others _ _ _ _ Cl) by done. by apply (ci_owned _ C b).
    + left. apply (cl_painted _ _ _ _ Cl); [done|by apply Hown].
  - intros q Hq Hqs Hp. destruct (Hcov q) as [Hc|Hc].
    + exists a. split; [apply elem_of_snoc; by right|by apply Hown].
    + rewrite (cl_others _ _ _ _ Cl) in Hp by done.
      destruct (ci_pending _ C q Hq Hqs Hp) as (b & ? & ?). exists b. split; [|done].
      apply elem_of_snoc; by left.
  - intros b d q [Hb| ->]%elem_of_snoc [Hd| ->]%elem_of_snoc Hne Hq Hob Hod; try done.
    + by apply (ci_disjoint _ C b d q).
    + apply Hown in Hod. by destruct (claimed_unowned s e' c a b q I Cl Hb Hq Hod).
    + apply Hown in Hob. by destruct (claimed_unowned s e' c a d q I Cl Hd Hq Hob).
  - intros b d q [Hb| ->]%elem_of_snoc [Hd| ->]%elem_of_snoc Hv Hne Hq Hcb Hcd; try done.
    + by apply (ci_exclusive _ C b d q).
    + destruct (claimed_unowned s e' c a b q I Cl Hb Hq Hcd) as [_ Hx]. by apply Hx.
    + congruence.
  - intros b [Hb| ->]%elem_of_snoc; [by apply (ci_retrying _ C)|congruence].
  - intros b [Hb| ->]%elem_of_snoc; [by apply (ci_verifying _ C)|congruence].
Qed.

Lemma claimed_inv : claim_length c <> 0 -> cache_inv (note_claim (Ok c) (with_entry s e')).
Proof.
  intros Hlen. cbn [note_claim]. rewrite (proj2 (Z.eqb_neq _ _)) by done.
  change (cache_inv (mkCacheState e' (held s) (admitted s) (update (received s) (claim_id c) 0)
                       (update (drained s) (claim_id c) false) (cleared s) (stored s))).
  destruct claimed_fields as (Ec & Es & Eb & Ep & Et & Epa & Est & Eid & En).
  destruct (cl_plain _ _ _ _ Cl) as [Hnv Hnr].
  pose proof (cl_entry _ _ _ _ Cl) as E. pose proof (proj1 (is_claim_spec _ _) (cl_match _ _ _ _ Cl)) as (Hci & _).
  destruct I as [C P K D A].
  split_inv.
  - exact claimed_claims.
  - apply (pins_frame e); try done. intros r. unfold verification_pins.
    rewrite Es, Eb, Epa, Est, Ec, zsum_app, zsum_cons, Hnv. cbn. lia.
  - destruct K as [K1 K2 K3 K4 K5 K6 K7].
    assert (Hm : checksum_manifest_ e' = checksum_manifest_ e /\ checksum_ops_ e' = checksum_ops_ e /\
                 header_ e' = header_ e) by (rewrite E; done).
    destruct Hm as (Hm & Hops & Hh).
    constructor; rewrite ?Est, ?Epa, ?Hm, ?Hops, ?Es, ?Ec; try done.
    + intros b [Hb| ->]%elem_of_snoc; [by apply K6|congruence].
    + intros Hd. apply has_flag_lor in Hclean as [Hd' _]. unfold is_dirty in Hd.
      rewrite Hh in Hd. congruence.
  - destruct D as [D1 D2 D3 D4 D5 D6].
    assert (Hupd : forall b, b ∈ active_claims_ e -> update (received s) (claim_id c) 0 (fetch_id b) =
      received s (fetch_id b) /\ update (drained s) (claim_id c) false (fetch_id b) = drained s (fetch_id b)).
    { intros b Hb. unfold update. rewrite (proj2 (Z.eqb_neq _ _)); [done|].
      rewrite <- Hci. by apply claimed_fresh. }
    constructor; cbn [entry held admitted received drained stored]; rewrite ?Es, ?Ec, ?Eb; try done.
    + intros q Hq Hqs Hst. destruct (decide (covers a q)) as [Hc|Hc].
      * rewrite (cl_painted _ _ _ _ Cl) in Hst by done. done.
      * rewrite (cl_others _ _ _ _ Cl) in Hst by done. by apply D1.
    + intros b q [Hb| ->]%elem_of_snoc Hq Ho Hpr; [by apply (D2 b)|].
      assert (covers a q) as Hc by (apply (fetch_ok_covers e); [apply (cl_ok _ _ _ _ Cl)|done]).
      rewrite (cl_prior _ _ _ _ Cl) in Hpr by done. apply D1; [done| |done].
      pose proof (fok_inside _ _ (cl_ok _ _ _ _ Cl)). destruct Hc. lia.
    + intros b q [Hb| ->]%elem_of_snoc; [by apply D3|congruence].
    + intros b q [Hb| ->]%elem_of_snoc Hq Ho Hpe.
      * destruct (Hupd b Hb) as [Hu _]. rewrite Hu in Hpe. apply (D4 b); try done.
        unfold page_end in *. by rewrite Es in Hpe.
      * exfalso. unfold update in Hpe. rewrite <- Hci, Z.eqb_refl in Hpe.
        pose proof (fok_inside _ _ (cl_ok _ _ _ _ Cl)). destruct Ho as [Ho1 Ho2].
        rewrite (cl_published _ _ _ _ Cl) in Ho1.
        pose proof (page_end_after e' q ltac:(rewrite Es; lia)). lia.
    + intros b [Hb| ->]%elem_of_snoc; [destruct (Hupd b Hb) as [-> _]; by apply D5|].
      unfold update. rewrite <- Hci, Z.eqb_refl, (cl_published _ _ _ _ Cl).
      pose proof (fok_length _ _ (cl_ok _ _ _ _ Cl)). lia.
    + intros b r [Hb| ->]%elem_of_snoc Hr Hp Ht.
      * destruct (Hupd b Hb) as [_ ->]. apply (D6 b r); try done.
        unfold reply_pins, range_touches in *. by rewrite Eb in Hp.
      * exfalso. unfold reply_pins, range_touches in Hp. rewrite Eb in Hp.
        pose proof (inv_geometry s I) as G. pose proof (block_pos _ G).
        rewrite (cl_published _ _ _ _ Cl), Z.add_0_r in Ht.
        destruct (cl_free _ _ _ _ Cl (r * block_size_ e)) as [Hpin _]; [done|apply Z.mod_mul; lia|].
        rewrite Z.div_mul in Hpin by lia.
        pose proof (fok_inside _ _ (cl_ok _ _ _ _ Cl)).
        destruct (unpinned_region s r I Hr) as [E0 _];  [lia|done|].
        unfold reply_pins, range_touches in E0. lia.
Qed.
End Claimed.

Lemma claim_fetch_inv s offset length expansion e' r :
  cache_inv s -> 0 <= offset -> 0 <= length -> 0 <= expansion ->
  next_claim_id_ (entry s) + 1 < 2 ^ 64 ->
  claim_fetch offset length expansion (entry s) = (e', r) ->
  cache_inv (note_claim r (with_entry s e')).
Proof.
  intros I Ho Hl Hx Hn E.
  destruct (claim_fetch_spec _ (inv_geometry s I) _ _ _ _ _ Ho Hl Hx E)
    as [[-> [-> | ->]]|(c & a & m & -> & Cl & _ & Hd & _)]; [by rewrite with_entry_id..|].
  apply (claimed_inv s I e' c a); try done.
  destruct (proj1 (is_claim_spec _ _) (cl_match _ _ _ _ Cl)) as (_ & _ & _ & <-).
  pose proof (fok_length _ _ (cl_ok _ _ _ _ Cl)). lia.
Qed.

(** ** Operations on one claim *)

(** New page states under the same claims. *)
Lemma claims_states e e' :
  claims_inv e ->
  vsize (words_ e') = vsize (words_ e) -> size_ e' = size_ e -> epoch_ e' = epoch_ e ->
  block_size_ e' = block_size_ e -> page_count_ e' = page_count_ e ->
  vsize (referenced_ e') = vsize (referenced_ e) ->
  vsize (region_pins_ e') = vsize (region_pins_ e) ->
  active_claims_ e' = active_claims_ e -> next_claim_id_ e' = next_claim_id_ e ->
  (forall a q, a ∈ active_claims_ e -> 0 <= q -> owns a q ->
     state_at e' q = CACHE_PAGE_READ_PENDING \/ state_at e' q = CACHE_PAGE_BAD) ->
  (forall q, 0 <= q -> q * U < size_ e -> state_at e' q = CACHE_PAGE_READ_PENDING ->
     state_at e q = CACHE_PAGE_READ_PENDING) ->
  claims_inv e'.
Proof.
  intros [G ? ? ? F ? P ? ? ? ?] Hw Hs He Hb Hp Hr Hpi Hc Hn Hown Hpend.
  constructor; rewrite ?Hc, ?Hn, ?Hs; try done.
  - by apply (geometry_frame e).
  - intros a Ha. apply (fetch_ok_frame e); [done..|]. by apply F.
  - intros q Hq Hqs Hst. apply P; auto.
Qed.

(** The fetch of claim [c] is [a]; [pre] and [post] are the other fetches. *)
Record found (e : CacheEntry) (c : CacheFetchClaim) (a : ActiveFetch) (pre post : list ActiveFetch) :
    Prop := {
  fd_claims : active_claims_ e = pre ++ a :: post;
  fd_id : fetch_id a = claim_id c; fd_offset : fetch_offset a = claim_offset c;
  fd_length : fetch_length a = claim_length c;
  fd_erase : erase_claim c (active_claims_ e) = pre ++ post;
  fd_replace : forall b, replace_claim c b (active_claims_ e) = pre ++ b :: post;
  fd_find : find_claim c (active_claims_ e) = Some a;
}.

Lemma find_found e c a :
  find_claim c (active_claims_ e) = Some a -> exists pre post, found e c a pre post.
Proof.
  intros H. destruct (find_claim_split _ _ _ H) as (Hm & pre & post & El & He & Hr).
  apply is_claim_spec in Hm as (? & ? & ? & ?). by exists pre, post.
Qed.

Section Found.
Context (s : CacheState) (I : cache_inv s).
Context (c : CacheFetchClaim) (a : ActiveFetch) (pre post : list ActiveFetch).
Context (Fd : found (entry s) c a pre post).
#[local] Abbreviation e := (entry s).

Lemma found_in : a ∈ active_claims_ e.
Proof. rewrite (fd_claims _ _ _ _ _ Fd). set_solver. Qed.

Lemma other_in b : b ∈ pre ++ post -> b ∈ active_claims_ e.
Proof. rewrite (fd_claims _ _ _ _ _ Fd). set_solver. Qed.

Lemma other_id b : b ∈ pre ++ post -> fetch_id b <> fetch_id a.
Proof.
  intros Hb Heq. pose proof (ci_distinct _ (inv_claims _ I)) as Hnd.
  rewrite (fd_claims _ _ _ _ _ Fd), map_app in Hnd. cbn in Hnd.
  apply NoDup_app in Hnd as (_ & Hd & Hnd). apply NoDup_cons in Hnd as [Hn _].
  rewrite <- Heq in Hn, Hd. apply elem_of_app in Hb as [Hb|Hb].
  - apply (Hd (fetch_id b)); [|set_solver]. by apply (list_elem_of_fmap_2 fetch_id).
  - apply Hn. by apply (list_elem_of_fmap_2 fetch_id).
Qed.

Lemma not_dirty : is_dirty e = false.
Proof.
  destruct (is_dirty e) eqn:E; [|done]. destruct (ck_dirty _ (inv_checks _ I) E) as [Hc _].
  pose proof found_in as Ha. rewrite Hc in Ha. by apply elem_of_nil in Ha.
Qed.

Lemma found_ok : fetch_ok e a.
Proof. apply inv_fetch; [done|apply found_in]. Qed.

(** [rest] is what becomes of [a]: the same fetch with other progress, or nothing. *)
Record same_fetch (a' : ActiveFetch) : Prop := {
  sf_id : fetch_id a' = fetch_id a; sf_offset : fetch_offset a' = fetch_offset a;
  sf_length : fetch_length a' = fetch_length a; sf_prior : prior_states a' = prior_states a;
  sf_ok : fetch_ok e a';
  sf_retrying : retrying a' = true -> verifying a' = true;
  sf_verifying : verifying a' = true -> retrying a' = false -> published a' = fetch_length a';
}.

Lemma claims_repaint e' rest :
  vsize (words_ e') = vsize (words_ e) -> size_ e' = size_ e -> epoch_ e' = epoch_ e ->
  block_size_ e' = block_size_ e -> page_count_ e' = page_count_ e ->
  vsize (referenced_ e') = vsize (referenced_ e) ->
  vsize (region_pins_ e') = vsize (region_pins_ e) ->
  active_claims_ e' = pre ++ rest ++ post -> next_claim_id_ e' = next_claim_id_ e ->
  (rest = [] \/ exists a', rest = [a']) -> (forall a', a' ∈ rest -> same_fetch a') ->
  (forall a' q, a' ∈ rest -> 0 <= q -> owns a' q ->
     state_at e' q = CACHE_PAGE_READ_PENDING \/ state_at e' q = CACHE_PAGE_BAD) ->
  (forall b q, b ∈ pre ++ post -> 0 <= q -> owns b q -> state_at e' q = state_at e q) ->
  (forall q, 0 <= q -> q * U < size_ e -> state_at e' q = CACHE_PAGE_READ_PENDING ->
     (exists a', a' ∈ rest /\ owns a' q) \/
     (state_at e q = CACHE_PAGE_READ_PENDING /\ ~ owns a q)) ->
  (forall a' b q, a' ∈ rest -> b ∈ pre ++ post -> 0 <= q -> owns a' q -> owns b q -> False) ->
  (forall a' b q, a' ∈ rest -> b ∈ pre ++ post -> verifying a' = true -> 0 <= q ->
     covers a q -> covers b q -> False) ->
  claims_inv e'.
Proof.
  intros Hw Hs He Hb Hp Hr Hpi Hc Hn Hrest Hsame Hown Hoth Hpend Hdis Hexc.
  pose proof (inv_claims _ I) as C. pose proof C as [G Hnx Hids Hnd F Ow Pe Di Ex Re Ve].
  assert (Hel : forall b, b ∈ pre ++ rest ++ post <-> b ∈ rest \/ b ∈ pre ++ post) by set_solver.
  assert (Hcov : forall a' q, a' ∈ rest -> covers a' q <-> covers a q).
  { intros a' q Ha'. destruct (Hsame a' Ha'). unfold covers, fetch_end. by rewrite sf_offset0, sf_length0. }
  assert (Hid : forall a', a' ∈ rest -> fetch_id a' = fetch_id a) by (intros; by apply sf_id, Hsame).
  assert (Huniq : forall a' b, a' ∈ rest -> b ∈ rest -> a' = b).
  { intros a' b Ha' Hb'. destruct Hrest as [->|(x & ->)]; set_solver. }
  constructor; rewrite ?Hc, ?Hn, ?Hs; try done.
  - by apply (geometry_frame e).
  - intros b [Hb'|Hb']%Hel; [rewrite Hid by done; apply Hids, found_in|by apply Hids, other_in].
  - rewrite !map_app. rewrite (fd_claims _ _ _ _ _ Fd), map_app in Hnd. cbn in Hnd.
    destruct Hrest as [->|(a' & ->)]; cbn.
    + apply NoDup_app in Hnd as (? & Hx & [? ?]%NoDup_cons). apply NoDup_app.
      split; [done|]. split; [|done]. intros i Hi Hp'. apply (Hx i Hi). by apply elem_of_cons; right.
    + rewrite (Hid a') by set_solver. done.
  - intros b [Hb'|Hb']%Hel; apply (fetch_ok_frame e); try done; [by apply sf_ok, Hsame|by apply F, other_in].
  - intros b q [Hb'|Hb']%Hel Hq Ho; [by apply (Hown b)|].
    rewrite (Hoth b) by done. apply (Ow b); [by apply other_in|done|done].
  - intros q Hq Hqs Hst. destruct (Hpend q Hq Hqs Hst) as [(a' & Ha' & Ho)|[Hold Hna]].
    + exists a'. split; [by apply Hel; left|done].
    + destruct (Pe q Hq Hqs Hold) as (b & Hb' & Ho). exists b. split; [|done]. apply Hel.
      rewrite (fd_claims _ _ _ _ _ Fd) in Hb'. set_solver.
  - intros b d q [Hb'|Hb']%Hel [Hd|Hd]%Hel Hne Hq Hob Hod.
    + by rewrite (Huniq b d) in Hne.
    + by apply (Hdis b d q).
    + by apply (Hdis d b q).
    + by apply (Di b d q); try apply other_in.
  - intros b d q [Hb'|Hb']%Hel [Hd|Hd]%Hel Hv Hne Hq Hob Hod.
    + by rewrite (Huniq b d) in Hne.
    + apply (Hexc b d q); try done. by apply (Hcov b).
    + apply (Ex b a q); try done; [by apply other_in|apply found_in|by apply other_id|by apply (Hcov d)].
    + by apply (Ex b d q); try apply other_in.
  - intros b [Hb'|Hb']%Hel; [by apply sf_retrying, Hsame|by apply Re, other_in].
  - intros b [Hb'|Hb']%Hel; [by apply sf_verifying, Hsame|by apply Ve, other_in].
Qed.

Lemma checks_repaint e' rest :
  size_ e' = size_ e -> active_claims_ e' = pre ++ rest ++ post ->
  checksum_parts_ e' = checksum_parts_ e -> checksum_states_ e' = checksum_states_ e ->
  checksum_ops_ e' = checksum_ops_ e -> checksum_manifest_ e' = checksum_manifest_ e ->
  is_dirty e' = is_dirty e ->
  (forall a', a' ∈ rest -> verifying a' = true ->
     checksum_manifest_ e <> kChecksumLoading /\ checksum_manifest_ e <> kChecksumAvailable) ->
  checks_inv e'.
Proof.
  intros Hs Hc Hp Hst Ho Hm Hd Hv. destruct (inv_checks _ I) as [? ? ? ? ? Ke Kd].
  constructor; rewrite ?Hst, ?Hp, ?Hm, ?Ho, ?Hc, ?Hs; try done.
  - intros b Hb Hvb. assert (b ∈ rest \/ b ∈ pre ++ post) as [Hb'|Hb'] by set_solver.
    + by apply (Hv b).
    + by apply (Ke b); [apply other_in|].
  - intros Hdt. rewrite Hd, not_dirty in Hdt. done.
Qed.

Lemma data_repaint s' rest :
  size_ (entry s') = size_ e -> block_size_ (entry s') = block_size_ e ->
  active_claims_ (entry s') = pre ++ rest ++ post -> admitted s' = admitted s ->
  (forall a', a' ∈ rest -> same_fetch a') ->
  (forall i, i <> fetch_id a -> received s' i = received s i /\ drained s' i = drained s i) ->
  (forall q, 0 <= q -> q * U < size_ e -> state_at (entry s') q = CACHE_PAGE_CLEAN ->
     stored s' q = true) ->
  (forall b q, b ∈ pre ++ post -> 0 <= q -> owns b q \/ (verifying b = true /\ covers b q) ->
     stored s q = true -> stored s' q = true) ->
  (forall a' q, a' ∈ rest -> 0 <= q -> owns a' q ->
     vget CACHE_PAGE_MISSING (prior_states a) (q - fetch_offset a / U) = CACHE_PAGE_CLEAN ->
     stored s' q = true) ->
  (forall a' q, a' ∈ rest -> verifying a' = true -> 0 <= q -> covers a q -> stored s' q = true) ->
  (forall a' q, a' ∈ rest -> 0 <= q -> owns a' q ->
     page_end e q <= fetch_offset a + received s' (fetch_id a) -> stored s' q = true) ->
  (forall a', a' ∈ rest -> published a' <= received s' (fetch_id a) <= fetch_length a) ->
  (forall a' r, a' ∈ rest -> 0 <= r -> 0 < reply_pins e (admitted s) r ->
     fetch_offset a + published a' <= r * block_size_ e < fetch_end a ->
     retrying a' = true /\ drained s' (fetch_id a) = false) ->
  data_inv s'.
Proof.
  intros Hs Hb Hc Hh Hsame Hrd Hclean Hkeep Hprior Hver Hrec Hrange Hstable.
  destruct (inv_data _ I) as [D1 D2 D3 D4 D5 D6].
  assert (Hel : forall b, b ∈ pre ++ rest ++ post -> b ∈ rest \/ b ∈ pre ++ post) by set_solver.
  assert (Hend : forall a', a' ∈ rest -> fetch_end a' = fetch_end a).
  { intros a' Ha'. destruct (Hsame a' Ha'). unfold fetch_end. congruence. }
  constructor; rewrite ?Hs, ?Hc, ?Hb, ?Hh; try done.
  - intros b q [Hb'|Hb']%Hel Hq Ho Hp.
    + destruct (Hsame b Hb'). rewrite sf_offset0, sf_prior0 in Hp. by apply (Hprior b).
    + apply (Hkeep b q Hb' Hq); [by left|]. apply (D2 b); [by apply other_in|done..].
  - intros b q [Hb'|Hb']%Hel Hv Hq Ho.
    + apply (Hver b); try done. pose proof (Hend b Hb'). destruct (Hsame b Hb').
      unfold covers in *. rewrite <- H, <- sf_offset0. done.
    + apply (Hkeep b q Hb' Hq); [by right|]. apply (D3 b); [by apply other_in|done..].
  - intros b q [Hb'|Hb']%Hel Hq Ho Hp; unfold page_end in Hp; rewrite Hs in Hp.
    + destruct (Hsame b Hb'). rewrite sf_offset0, sf_id0 in Hp. by apply (Hrec b).
    + apply (Hkeep b q Hb' Hq); [by left|].
      destruct (Hrd (fetch_id b) (other_id b Hb')) as [E _]. rewrite E in Hp.
      apply (D4 b); [by apply other_in|done..].
  - intros b [Hb'|Hb']%Hel.
    + destruct (Hsame b Hb'). rewrite sf_id0, sf_length0. by apply (Hrange b).
    + destruct (Hrd (fetch_id b) (other_id b Hb')) as [-> _]. by apply D5, other_in.
  - intros b r [Hb'|Hb']%Hel Hr Hp Ht; unfold reply_pins, range_touches in Hp; rewrite Hb in Hp.
    + pose proof (Hend b Hb') as Eb. destruct (Hsame b Hb'). rewrite sf_id0.
      rewrite Eb, sf_offset0 in Ht. by apply (Hstable b r).
    + destruct (Hrd (fetch_id b) (other_id b Hb')) as [_ ->].
      apply (D6 b r); [by apply other_in|done..].
Qed.

(** The verification pins of the other fetches and of the parts are not affected. *)
Lemma verification_repaint e' rest r :
  size_ e' = size_ e -> block_size_ e' = block_size_ e ->
  checksum_parts_ e' = checksum_parts_ e -> checksum_states_ e' = checksum_states_ e ->
  active_claims_ e' = pre ++ rest ++ post ->
  0 <= r < vsize (region_pins_ e) -> (forall a', a' ∈ rest -> same_fetch a') ->
  verification_pins e' r + fetch_pins e r a =
  verification_pins e r + zsum (fetch_pins e r) rest.
Proof.
  intros Hs Hb Hp Hst Hc Hr Hsame. pose proof (inv_geometry s I) as G.
  assert (Hrs : r * block_size_ e < size_ e) by (apply (region_in_object _ G); lia).
  assert (Hf : forall b, fetch_ok e b ->
    (if verifying b && fetch_touches (r * block_size_ e)
        (Z.min (size_ e) (u64 (r * block_size_ e + block_size_ e))) b then 1 else 0) =
    fetch_pins e r b).
  { intros b Hok. unfold fetch_pins, fetch_touches. destruct (verifying b); [|done]. cbn [andb].
    apply in_range_bool, touches_region; try done; [by apply fetch_in_object|lia]. }
  unfold verification_pins. rewrite Hs, Hb, Hp, Hst, Hc, (fd_claims _ _ _ _ _ Fd).
  rewrite !zsum_app, !zsum_cons, Hf by apply found_ok.
  rewrite (zsum_ext _ (fetch_pins e r) rest); [lia|].
  intros b Hb'. apply Hf. by apply sf_ok, Hsame.
Qed.

(** Replacing the fetch by one with the same verification status keeps the pins right. *)
Lemma pins_repaint e' a' :
  size_ e' = size_ e -> block_size_ e' = block_size_ e ->
  checksum_parts_ e' = checksum_parts_ e -> checksum_states_ e' = checksum_states_ e ->
  region_pins_ e' = region_pins_ e -> pinned_regions_ e' = pinned_regions_ e ->
  active_claims_ e' = pre ++ a' :: post -> same_fetch a' -> verifying a' = verifying a ->
  pins_inv e' (held s).
Proof.
  intros Hs Hb Hp Hst Hpi Ht Hc Hsame Hv. destruct (inv_pins _ I) as [Ph Pc Pb Pt].
  constructor; rewrite ?Hpi, ?Ht; try done.
  - intros h Hh. destruct (Ph h Hh) as (? & ? & ?). unfold in_object. by rewrite Hs.
  - intros r Hr. rewrite Pc by done. unfold reply_pins, range_touches. rewrite Hb.
    pose proof (verification_repaint e' [a'] r Hs Hb Hp Hst Hc Hr ltac:(intros; set_solver)) as E.
    assert (zsum (fetch_pins e r) [a'] = fetch_pins e r a) as E'; [|lia].
    unfold zsum, fetch_pins; cbn. rewrite Hv, (sf_offset _ Hsame), (sf_length _ Hsame). lia.
Qed.
End Found.

(** *** Receiving and publishing *)

(** The response of fetch [a] stores [n] more bytes; a page is stored once its last byte is. *)
Definition receive (a : ActiveFetch) (n : Z) (s : CacheState) : CacheState :=
  let got := received s (fetch_id a) in
  mkCacheState (entry s) (held s) (admitted s) (update (received s) (fetch_id a) (got + n)) (drained s) (cleared s)
    (fun q => stored s q ||
       ((fetch_offset a <=? q * U) && (q * U <? fetch_end a) &&
        (fetch_offset a + got <? page_end (entry s) q) &&
        (page_end (entry s) q <=? fetch_offset a + (got + n)))).

Lemma found_same_fetch s c a pre post :
  cache_inv s -> found (entry s) c a pre post -> same_fetch s a a.
Proof.
  intros I Fd. pose proof (found_in s I c a pre post Fd) as Ha. constructor; try done.
  - by apply inv_fetch.
  - apply (ci_retrying _ (inv_claims _ I) a Ha).
  - apply (ci_verifying _ (inv_claims _ I) a Ha).
Qed.

Lemma receive_inv s c a n :
  cache_inv s -> find_claim c (active_claims_ (entry s)) = Some a ->
  0 <= n -> received s (fetch_id a) + n <= fetch_length a ->
  cache_inv (receive a n s).
Proof.
  intros I (pre & post & Fd)%find_found Hn Hle. pose proof (found_in _ I _ _ _ _ Fd) as Ha.
  pose proof (found_same_fetch _ _ _ _ _ I Fd) as Hsf.
  pose proof (inv_data _ I) as [D1 D2 D3 D4 D5 D6]. pose proof (D5 a Ha) as Hr.
  split; try apply I.
  assert (Hmono : forall q, stored s q = true -> stored (receive a n s) q = true)
    by (intros q E; cbn; by rewrite E).
  apply (data_repaint s I c a pre post Fd _ [a]); try done.
  - apply (fd_claims _ _ _ _ _ Fd).
  - intros a' ->%list_elem_of_singleton. done.
  - intros i Hi. cbn. unfold update. by rewrite (proj2 (Z.eqb_neq _ _)) by done.
  - intros q Hq Hqs Hst. by apply Hmono, D1.
  - intros; by apply Hmono.
  - intros a' q ->%list_elem_of_singleton Hq Ho Hp. by apply Hmono, (D2 a).
  - intros a' q ->%list_elem_of_singleton Hv Hq Ho. by apply Hmono, (D3 a).
  - intros a' q ->%list_elem_of_singleton Hq Ho Hp. cbn [receive received] in Hp. unfold update in Hp.
    rewrite Z.eqb_refl in Hp. pose proof (fetch_ok_covers _ _ _ (sf_ok _ _ _ Hsf) Ho) as [Hc1 Hc2].
    destruct (Z.le_gt_cases (page_end (entry s) q) (fetch_offset a + received s (fetch_id a))) as [Hold|Hnew].
    + by apply Hmono, (D4 a).
    + cbn. rewrite (proj2 (Z.leb_le _ _)), (proj2 (Z.ltb_lt _ _)), (proj2 (Z.ltb_lt _ _)),
        (proj2 (Z.leb_le _ _)) by lia. apply orb_true_r.
  - intros a' ->%list_elem_of_singleton. cbn. unfold update. rewrite Z.eqb_refl. lia.
  - intros a' r ->%list_elem_of_singleton. apply (D6 a); done.
Qed.

Lemma settle_cases x s : settle s x = s /\ x = CACHE_PAGE_READ_PENDING \/
  settle s x = x /\ x <> CACHE_PAGE_READ_PENDING.
Proof.
  unfold settle. destruct (page_state_eqb x CACHE_PAGE_READ_PENDING) eqn:E.
  - left. by apply page_state_eqb_spec in E.
  - right. by apply page_state_eqb_false in E.
Qed.

Lemma claim_fuel_enough e c :
  geometry e -> 0 < claim_length c -> claim_length c <= Z.of_nat (claim_fuel e c) * block_size_ e.
Proof.
  intros G Hl. pose proof (block_pos _ G). unfold claim_fuel.
  assert (0 <= claim_length c / block_size_ e) by (apply Z.div_pos; lia). rewrite Z2Nat.id by lia.
  pose proof (Z.div_mod (claim_length c) (block_size_ e) ltac:(lia)).
  pose proof (Z.mod_pos_bound (claim_length c) (block_size_ e) ltac:(lia)). lia.
Qed.

(** A page that starts before a block boundary or the object's end also ends there. *)
Lemma page_end_le e b q :
  geometry e -> q * U < b -> b = size_ e \/ b mod block_size_ e = 0 -> page_end e q <= b.
Proof.
  intros G Hq [->|Hb]; unfold page_end; [lia|]. pose proof (aligned_unit e G b Hb).
  rewrite unit_value in *. Z.to_euclidean_division_equations; lia.
Qed.

(** The boundary a fetch has published up to. *)
Lemma published_boundary e a p :
  geometry e -> fetch_ok e a -> p = fetch_length a \/ p mod block_size_ e = 0 ->
  fetch_offset a + p = size_ e \/ (fetch_offset a + p) mod block_size_ e = 0.
Proof.
  intros G F [->|Hm]; [apply (fok_end _ _ F)|]. right. pose proof (block_pos _ G).
  rewrite Z.add_mod, (fok_align _ _ F), Hm by lia. by apply Z.mod_0_l; lia.
Qed.

(** [publish_clean] advances the fetch to [upto] bytes, not beyond what was received. *)
Record advanced (e : CacheEntry) (a : ActiveFetch) (ws : list Z) (upto length : Z) : Prop := {
  adv_words : vsize ws = vsize (words_ e);
  adv_range : published a <= upto <= fetch_length a;
  adv_align : upto = fetch_length a \/ upto mod block_size_ e = 0;
  adv_received : upto = published a \/ upto <= length;
  adv_states : forall q, 0 <= q -> page_state ws q =
    if (fetch_offset a + published a <=? q * U) && (q * U <? fetch_offset a + upto)
    then settle CACHE_PAGE_CLEAN (state_at e q) else state_at e q;
}.

Lemma publish_clean_spec e c a pre post already length final :
  geometry e -> fetch_ok e a -> found e c a pre post ->
  find_claim c (active_claims_ e) = Some a -> 0 <= length ->
  let e' := publish_clean c already length final e in
  e' = e \/ exists ws upto, advanced e a ws upto length /\
    (final = true -> claim_length c <= length -> upto = fetch_length a) /\
    same_core (e <| words_ := ws |>
                 <| active_claims_ := pre ++ (a <| published := upto |>) :: post |>) e'.
Proof.
  intros G F Fd Ef Hl. cbv zeta. unfold publish_clean. rewrite Ef.
  destruct (_ || _ || _); [by left|right].
  pose proof (size_small _ G) as Hsz. destruct F as [F1 F2 F3 F4 F5 F6 F7 F8 F9 F10].
  unfold fetch_end in F5, F6. rewrite (fd_offset _ _ _ _ _ Fd) in F2, F3, F5, F6.
  rewrite (fd_length _ _ _ _ _ Fd) in F4, F5, F6, F7, F8. rewrite !u64_small by lia.
  destruct (publish_loop _ _ _ _ _ _ _ _ _) as [[ws upto] changed] eqn:El.
  pose proof (publish_loop_spec e G c F2 F3 F4 F5 F6 (claim_fuel e c) final _ (words_ e) (published a)
    false ws upto changed eq_refl F7 F8
    ltac:(pose proof (claim_fuel_enough e c G F4); lia) El) as [[P1 P2 P3 P4 P5 _ P7] _].
  exists ws, upto. rewrite (claim_end_eq e G c F2 F4 F5) in P5.
  rewrite (fd_replace _ _ _ _ _ Fd). split; [|split].
  - constructor; rewrite ?(fd_offset _ _ _ _ _ Fd), ?(fd_length _ _ _ _ _ Fd); try done.
    destruct P4; [by left|right; lia].
  - rewrite (fd_length _ _ _ _ _ Fd). intros. apply P5; [done|lia].
  - destruct changed; [apply notify_core|apply same_core_refl].
Qed.

Lemma publish_clean_inv s c already length final :
  cache_inv s -> 0 <= length ->
  (find_claim c (active_claims_ (entry s)) <> None -> length <= received s (claim_id c)) ->
  cache_inv (with_entry s (publish_clean c already length final (entry s))).
Proof.
  intros I Hl Hrec.
  destruct (find_claim c (active_claims_ (entry s))) as [a|] eqn:Ef;
    [|unfold publish_clean; rewrite Ef; by rewrite with_entry_id].
  specialize (Hrec ltac:(done)).
  destruct (find_found _ _ _ Ef) as (pre & post & Fd). pose proof (found_in _ I _ _ _ _ Fd) as Ha.
  pose proof (inv_geometry s I) as G. pose proof (inv_fetch s a I Ha) as F.
  destruct (publish_clean_spec _ c a pre post already length final G F Fd Ef Hl)
    as [->|(ws & upto & Adv & _ & S)]; [by rewrite with_entry_id|].
  apply (with_entry_frame (with_entry s (entry s <| words_ := ws |>
    <| active_claims_ := pre ++ (a <| published := upto |>) :: post |>))); [|done]. clear S.
  set (a' := a <| published := upto |>). set (e' := entry s <| words_ := ws |> <| active_claims_ := pre ++ a' :: post |>).
  pose proof (found_same_fetch _ _ _ _ _ I Fd) as Hsf. destruct Adv as [A1 A2 A3 A4 A5].
  pose proof (inv_claims _ I) as C. pose proof (inv_data _ I) as [D1 D2 D3 D4 D5 D6].
  assert (Hsf' : same_fetch s a a').
  { destruct F, Hsf. constructor; try done; [constructor; try done; cbn; lia|].
    cbn. intros Hv Hr. pose proof (sf_verifying0 Hv Hr). lia. }
  assert (Hown : forall q, owns a' q -> owns a q)
    by (intros q [Ho1 Ho2]; cbn in Ho1; split; [lia|done]).
  assert (Hst : forall q, 0 <= q -> state_at e' q =
    if (fetch_offset a + published a <=? q * U) && (q * U <? fetch_offset a + upto)
    then settle CACHE_PAGE_CLEAN (state_at (entry s) q) else state_at (entry s) q) by done.
  assert (Hin : forall q, (fetch_offset a + published a <=? q * U) && (q * U <? fetch_offset a + upto) = true ->
    owns a q) by (intros q ?; bool_case; unfold owns, fetch_end; lia).
  assert (Hone : forall x, x ∈ [a'] -> x = a') by (intros x; apply list_elem_of_singleton).
  split_inv.
  - apply (claims_repaint s I c a pre post Fd e' [a']); try done.
    + by right; exists a'.
    + by intros x ->%Hone.
    + intros x q ->%Hone Hq Ho. rewrite Hst by done.
      rewrite (proj2 (Z.ltb_ge _ _)), andb_false_r by (destruct Ho as [Ho _]; cbn in Ho; lia).
      apply (ci_owned _ C a q Ha Hq), Hown, Ho.
    + intros b q Hb Hq Ho. rewrite Hst by done. destruct (_ && _) eqn:E; [|done].
      exfalso. apply (ci_disjoint _ C b a q); try done; [by apply (other_in s I c a pre post Fd)|
        by apply (other_id s I c a pre post Fd)|by apply Hin].
    + intros q Hq Hqs Hp. rewrite Hst in Hp by done. destruct (_ && _) eqn:E.
      * destruct (settle_cases (state_at (entry s) q) CACHE_PAGE_CLEAN) as [[E1 _]|[E1 E2]]; congruence.
      * destruct (decide (owns a q)) as [Ho|Ho]; [left|by right]. exists a'. split; [set_solver|].
        destruct Ho as [Ho1 Ho2]. apply andb_false_iff in E as [E|E]; bool_case; [lia|].
        split; [cbn; lia|done].
    + intros x b q ->%Hone Hb Hq Ho Ho'. apply (ci_disjoint _ C a b q); try done;
        [by apply (other_in s I c a pre post Fd)| |by apply Hown].
      intros Heq. by apply (other_id s I c a pre post Fd b Hb).
    + intros x b q ->%Hone Hb Hv Hq Hc Hc'. apply (ci_exclusive _ C a b q); try done;
        [by apply (other_in s I c a pre post Fd)|].
      intros Heq. by apply (other_id s I c a pre post Fd b Hb).
  - by apply (pins_repaint s I c a pre post Fd e' a').
  - apply (checks_repaint s I c a pre post Fd e' [a']); try done.
    intros x ->%Hone Hv. by apply (ck_exclusive _ (inv_checks _ I) a).
  - apply (data_repaint s I c a pre post Fd (with_entry s e') [a']); try done;
      cbn [entry held admitted received drained stored].
    + by intros x ->%Hone.
    + intros q Hq Hqs Hcl. rewrite Hst in Hcl by done. destruct (_ && _) eqn:E; [|by apply D1].
      destruct (settle_cases (state_at (entry s) q) CACHE_PAGE_CLEAN) as [[_ E2]|[E1 E2]];
        [|rewrite E1 in Hcl; by apply D1].
      apply (D4 a q Ha Hq (Hin q E)). bool_case. destruct A4 as [->|A4]; [lia|].
      rewrite (fd_id _ _ _ _ _ Fd).
      pose proof (page_end_le (entry s) (fetch_offset a + upto) q G ltac:(lia)
        (published_boundary _ a upto G F A3)). lia.
    + intros x q ->%Hone Hq Ho Hp. by apply (D2 a q Ha Hq (Hown q Ho)).
    + intros x q ->%Hone Hv Hq Hc. by apply (D3 a).
    + intros x q ->%Hone Hq Ho Hp. by apply (D4 a q Ha Hq (Hown q Ho)).
    + intros x ->%Hone. change (published a') with upto. pose proof (D5 a Ha).
      rewrite (fd_id _ _ _ _ _ Fd) in *. cbn [received]. lia.
    + intros x r ->%Hone Hr Hp Ht. apply (D6 a r Ha Hr Hp). cbn in Ht. lia.
Qed.

(** *** Ending a fetch *)

(** [end_fetch_locked] on an entry whose words and holes have changed: the fetch is erased,
    and its verification pins with it. *)
Lemma end_fetch_pins s c a pre post ws holes :
  cache_inv s -> found (entry s) c a pre post ->
  find_claim c (active_claims_ (entry s)) = Some a -> vsize ws = vsize (words_ (entry s)) ->
  let e1 := entry s <| words_ := ws |> <| punched_ := holes |> in
  exists pins pinned, (end_fetch_locked c e1).1 =
    e1 <| region_pins_ := pins |> <| pinned_regions_ := pinned |>
       <| active_claims_ := pre ++ post |> /\
    vsize pins = vsize (region_pins_ (entry s)) /\
    pins_inv (e1 <| region_pins_ := pins |> <| pinned_regions_ := pinned |>
                 <| active_claims_ := pre ++ post |>) (held s).
Proof.
  intros I Fd Ef Hws e1. pose proof (inv_geometry s I) as G. set (e := entry s) in *.
  pose proof (inv_pins _ I) as P. fold e in P. pose proof (found_in _ I _ _ _ _ Fd) as Ha. fold e in Ha.
  pose proof (inv_fetch s a I Ha) as F. fold e in F.
  unfold end_fetch_locked. change (active_claims_ e1) with (active_claims_ e). rewrite Ef.
  assert (Hvp : forall e' r, size_ e' = size_ e -> block_size_ e' = block_size_ e ->
    checksum_parts_ e' = checksum_parts_ e -> checksum_states_ e' = checksum_states_ e ->
    active_claims_ e' = pre ++ post -> 0 <= r < vsize (region_pins_ e) ->
    verification_pins e' r + fetch_pins e r a = verification_pins e r).
  { intros e' r H1 H2 H3 H4 H5 Hr.
    pose proof (verification_repaint s I c a pre post Fd e' [] r H1 H2 H3 H4 H5 Hr
      ltac:(intros x Hx; by apply elem_of_nil in Hx)) as E. fold e in E. change (zsum _ []) with 0 in E. lia. }
  destruct (verifying a) eqn:Ev.
  - pose proof (fetch_in_object e a F) as Hin.
    destruct (range_regions _ _ _ G Hin) as (Hf & Hlr & Hle & _).
    rewrite <- (fd_offset _ _ _ _ _ Fd), <- (fd_length _ _ _ _ _ Fd).
    change (first_region e1) with (first_region e). change (last_region e1) with (last_region e).
    assert (Hpins : forall r, fetch_pins e r a =
      in_range (first_region e (fetch_offset a)) (last_region e (fetch_offset a) (fetch_length a)) r).
    { intros r. unfold fetch_pins, range_touches. by rewrite Ev, Hlr. }
    destruct (pins_release e1 (held s) (first_region e (fetch_offset a))
      (last_region e (fetch_offset a) (fetch_length a))) as (pins & E & Hsz & HP); try done; try lia.
    + by apply (geometry_frame e).
    + by apply (pins_frame e).
    + intros r Hr. change (region_pins_ e1) with (region_pins_ e).
      rewrite (pi_count _ _ P) by lia.
      pose proof (reply_pins_nonneg e (held s) r).
      set (ep := e <| active_claims_ := pre ++ post |>).
      pose proof (Hvp ep r eq_refl eq_refl eq_refl eq_refl eq_refl ltac:(lia)) as Ex.
      rewrite Hpins in Ex. unfold in_range in Ex.
      rewrite (proj2 (Z.leb_le _ _)), (proj2 (Z.ltb_lt _ _)) in Ex by lia. cbn [andb] in Ex.
      pose proof (verification_pins_nonneg ep r). lia.
    + exists pins, (pinned_regions_ e - (last_region e (fetch_offset a) (fetch_length a) - first_region e (fetch_offset a))).
      rewrite E. cbn [fst]. split; [by rewrite <- (fd_erase _ _ _ _ _ Fd)|]. split; [done|].
      apply HP; try done; [apply (pi_held _ _ P)|].
      intros r Hr. match goal with |- reply_pins ?x _ _ + _ + _ = _ =>
        change (reply_pins x (held s) r) with (reply_pins e (held s) r);
        pose proof (Hvp x r eq_refl eq_refl eq_refl eq_refl eq_refl Hr) as Ex end.
      rewrite Hpins in Ex. change (reply_pins e1 (held s) r) with (reply_pins e (held s) r).
      change (verification_pins e1 r) with (verification_pins e r). lia.
  - exists (region_pins_ e), (pinned_regions_ e). cbn [fst].
    split; [by rewrite <- (fd_erase _ _ _ _ _ Fd)|]. split; [done|].
    destruct P as [Ph Pc Pb Pt]. constructor; try done.
    intros r Hr. etransitivity; [apply (Pc r Hr)|].
    match goal with |- _ = reply_pins ?x _ _ + _ =>
      pose proof (Hvp x r eq_refl eq_refl eq_refl eq_refl eq_refl Hr) as Ex end.
    unfold fetch_pins in Ex. rewrite Ev in Ex.
    match goal with |- _ = reply_pins ?x _ _ + _ =>
      change (reply_pins x (held s) r) with (reply_pins e (held s) r) end. lia.
Qed.

Lemma erase_inv s c a pre post ws holes st :
  cache_inv s -> found (entry s) c a pre post ->
  find_claim c (active_claims_ (entry s)) = Some a ->
  vsize ws = vsize (words_ (entry s)) ->
  (forall q, 0 <= q -> ~ owns a q -> page_state ws q = state_at (entry s) q) ->
  (forall q, 0 <= q -> owns a q -> page_state ws q <> CACHE_PAGE_READ_PENDING) ->
  (forall q, 0 <= q -> q * U < size_ (entry s) -> page_state ws q = CACHE_PAGE_CLEAN -> st q = true) ->
  (forall b q, b ∈ pre ++ post -> 0 <= q -> owns b q \/ (verifying b = true /\ covers b q) ->
     stored s q = true -> st q = true) ->
  cache_inv (mkCacheState
    (notify_waiters_locked
       (end_fetch_locked c (entry s <| words_ := ws |> <| punched_ := holes |>)).1)
    (held s) (admitted s) (received s) (drained s) (cleared s) st).
Proof.
  intros I Fd Ef Hw Hout Hin Hclean Hkeep.
  destruct (end_fetch_pins s c a pre post ws holes I Fd Ef Hw) as (pins & pinned & E & Hsz & HP).
  rewrite E. set (e' := _ <| active_claims_ := pre ++ post |>) in *. clear E.
  apply (cache_inv_frame (mkCacheState e' (held s) (admitted s) (received s) (drained s) (cleared s) st)); [|apply notify_core].
  pose proof (inv_claims _ I) as C. pose proof (found_in _ I _ _ _ _ Fd) as Ha.
  assert (Hdis : forall b q, b ∈ pre ++ post -> 0 <= q -> owns b q -> ~ owns a q).
  { intros b q Hb Hq Ho Ho'. apply (ci_disjoint _ C b a q); try done;
      [by apply (other_in s I c a pre post Fd)|by apply (other_id s I c a pre post Fd)]. }
  split_inv.
  - apply (claims_repaint s I c a pre post Fd e' []); try done.
    + by left.
    + intros x Hx. by apply elem_of_nil in Hx.
    + intros x q Hx. by apply elem_of_nil in Hx.
    + intros b q Hb Hq Ho. apply Hout; [done|by apply (Hdis b)].
    + intros q Hq Hqs Hp. right. destruct (decide (owns a q)) as [Ho|Ho].
      * by destruct (Hin q Hq Ho).
      * split; [|done]. rewrite <- Hp. symmetry. by apply Hout.
    + intros x b q Hx. by apply elem_of_nil in Hx.
    + intros x b q Hx. by apply elem_of_nil in Hx.
  - exact HP.
  - apply (checks_repaint s I c a pre post Fd e' []); try done.
    intros x Hx. by apply elem_of_nil in Hx.
  - apply (data_repaint s I c a pre post Fd _ []); try done; intros x; intros;
      match goal with H : x ∈ [] |- _ => by apply elem_of_nil in H end.
Qed.

(** The pages that lose their bytes when ranges of the data file are punched. *)
Definition in_hole (q : Z) (hole : Z * Z) : bool :=
  (hole.1 <=? q * U) && (q * U <? hole.1 + hole.2).

Definition punch_pages (holes : list (Z * Z)) (st : Z -> bool) : Z -> bool :=
  fun q => st q && negb (existsb (in_hole q) holes).

(** The ranges an operation punched, from the record the entry keeps. *)
Definition holes_since (e e' : CacheEntry) : list (Z * Z) :=
  take (length (punched_ e') - length (punched_ e)) (punched_ e').

(** The clients after an operation that may punch. *)
Definition after (e' : CacheEntry) (s : CacheState) : CacheState :=
  mkCacheState e' (held s) (admitted s) (received s) (drained s) (cleared s)
    (punch_pages (holes_since (entry s) e') (stored s)).

Lemma holes_since_app e e' new : punched_ e' = new ++ punched_ e -> holes_since e e' = new.
Proof.
  intros E. unfold holes_since. rewrite E, length_app.
  replace (length new + length (punched_ e) - length (punched_ e))%nat with (length new) by lia.
  apply take_app_length.
Qed.

Lemma punched_release e first last : punched_ (release_pins e first last).1 = punched_ e.
Proof. unfold release_pins. by destruct (drop_pins _ _ _) as [[? ?] ?]. Qed.

Lemma punched_end_fetch c e : punched_ (end_fetch_locked c e).1 = punched_ e.
Proof.
  unfold end_fetch_locked. destruct (find_claim _ _) as [a|]; [|done].
  destruct (verifying a); [|done]. cbn. apply punched_release.
Qed.

Lemma punched_notify e : punched_ (notify_waiters_locked e) = punched_ e.
Proof. unfold notify_waiters_locked. destruct (wait_fd_ e); [destruct (_ =? _)|]; done. Qed.

Lemma punch_pages_nil st q : punch_pages [] st q = st q.
Proof. apply andb_true_r. Qed.

Lemma punch_pages_true holes st q :
  punch_pages holes st q = true <-> st q = true /\ forall h, h ∈ holes -> in_hole q h = false.
Proof.
  unfold punch_pages. rewrite andb_true_iff, negb_true_iff. split.
  - intros [H1 H2]. split; [done|]. intros h Hh. destruct (in_hole q h) eqn:E; [|done].
    assert (existsb (in_hole q) holes = true) as Hx; [|congruence].
    apply existsb_exists. exists h. split; [by apply list_elem_of_In|done].
  - intros [H1 H2]. split; [done|]. destruct (existsb (in_hole q) holes) eqn:E; [|done].
    apply existsb_exists in E as (h & Hh%list_elem_of_In & Hi). rewrite H2 in Hi; done.
Qed.

(** What [finish_fetch] does to a claim it finds. *)
Lemma finish_fetch_spec e c a pre post :
  geometry e -> fetch_ok e a -> found e c a pre post ->
  find_claim c (active_claims_ e) = Some a ->
  exists ws new,
    finish_fetch c e = notify_waiters_locked
      (end_fetch_locked c (e <| words_ := ws |> <| punched_ := new ++ punched_ e |>)).1 /\
    vsize ws = vsize (words_ e) /\
    (forall q, 0 <= q -> ~ owns a q -> page_state ws q = state_at e q) /\
    (forall q, 0 <= q -> owns a q -> page_state ws q = settle CACHE_PAGE_MISSING (state_at e q)) /\
    (forall hole, hole ∈ new -> unfinished_block e c (fetch_offset a + published a) (words_ e) hole).
Proof.
  intros G F Fd Ef. unfold finish_fetch. rewrite Ef. pose proof (size_small _ G).
  destruct F as [F1 F2 F3 F4 F5 F6 F7 F8 F9 F10]. unfold owns, fetch_end in *.
  rewrite (fd_offset _ _ _ _ _ Fd), (fd_length _ _ _ _ _ Fd) in *.
  destruct (finish_loop_spec e G c F2 F3 F4 F5 F6 (claim_fuel e c) (words_ e) (punched_ e) (published a))
    as (ws & new & E & Hs & Hst & Hnew); try done.
  { pose proof (claim_fuel_enough e c G F4). lia. }
  rewrite (claim_end_eq e G c F2 F4 F5) in Hst.
  exists ws, new. rewrite u64_small by lia.
  replace e with (e <| words_ := words_ e |> <| punched_ := punched_ e |>) at 2 by by destruct e.
  rewrite E. split; [done|]. split; [done|].
  split; [|split; [|done]]; intros q Hq Ho; rewrite Hst by done.
  - destruct (_ && _) eqn:Eb; [|done]. bool_case. destruct Ho; lia.
  - by rewrite (proj2 (Z.leb_le _ _)), (proj2 (Z.ltb_lt _ _)) by lia.
Qed.

(** A punched block belonged to the fetch that is finished. *)
Lemma unfinished_owned e c a pre post hole q :
  geometry e -> fetch_ok e a -> found e c a pre post ->
  unfinished_block e c (fetch_offset a + published a) (words_ e) hole ->
  q * U < size_ e -> in_hole q hole = true -> owns a q.
Proof.
  intros G F Fd (Hl & Hm & Hr & _) Hq Hi. unfold in_hole in Hi. bool_case. rewrite Hl in *.
  pose proof F as [F1 F2 F3 F4 F5 F6 F7 F8 F9 F10].
  rewrite (claim_end_eq e G c) in Hr by
    (rewrite <- ?(fd_offset _ _ _ _ _ Fd), <- ?(fd_length _ _ _ _ _ Fd); done).
  rewrite <- (fd_offset _ _ _ _ _ Fd), <- (fd_length _ _ _ _ _ Fd) in Hr.
  apply (owned_block e a hole.1); try done. lia.
Qed.

Lemma notify_inv s : cache_inv s -> cache_inv (with_entry s (notify_waiters_locked (entry s))).
Proof. intros I. apply with_entry_frame; [done|apply notify_core]. Qed.

Lemma finish_fetch_inv s c : cache_inv s -> cache_inv (after (finish_fetch c (entry s)) s).
Proof.
  intros I. destruct (find_claim c (active_claims_ (entry s))) as [a|] eqn:Ef.
  - destruct (find_found _ _ _ Ef) as (pre & post & Fd). pose proof (found_in _ I _ _ _ _ Fd) as Ha.
    pose proof (inv_geometry s I) as G. pose proof (inv_fetch s a I Ha) as F.
    pose proof (inv_claims _ I) as C. pose proof (inv_data _ I) as D.
    destruct (finish_fetch_spec _ c a pre post G F Fd Ef) as (ws & new & E & Hs & Hout & Hin & Hnew).
    unfold after. rewrite (holes_since_app _ _ new)
      by (rewrite E, punched_notify, punched_end_fetch; done).
    rewrite E. apply (erase_inv s c a pre post); try done.
    + intros q Hq Ho. rewrite Hin by done.
      destruct (settle_cases (state_at (entry s) q) CACHE_PAGE_MISSING) as [[-> _]|[-> ?]]; done.
    + intros q Hq Hqs Hcl.
      assert (~ owns a q) as Hno.
      { intros Ho. rewrite Hin in Hcl by done.
        destruct (ci_owned _ C a q Ha Hq Ho) as [Es|Es]; rewrite Es in Hcl; done. }
      rewrite Hout in Hcl by done. apply punch_pages_true. split; [by apply (di_clean _ D)|].
      intros h Hh. destruct (in_hole q h) eqn:Ei; [|done]. destruct Hno.
      apply (unfinished_owned (entry s) c a pre post h); try done. by apply Hnew.
    + intros b q Hb Hq Hbq Hstq. apply punch_pages_true. split; [done|].
      intros h Hh. destruct (in_hole q h) eqn:Ei; [|done]. exfalso.
      pose proof (other_in s I c a pre post Fd b Hb) as Hbin. pose proof (other_id s I c a pre post Fd b Hb).
      assert (covers b q) as Hcb.
      { destruct Hbq as [Ho|[_ ?]]; [|done]. apply (fetch_ok_covers (entry s)); [by apply inv_fetch|done]. }
      assert (owns a q) as Hoa.
      { apply (unfinished_owned (entry s) c a pre post h); try done; [by apply Hnew|].
        pose proof (fok_inside _ _ (inv_fetch s b I Hbin)). destruct Hcb. lia. }
      destruct Hbq as [Hob|[Hv _]].
      * by apply (ci_disjoint _ C b a q).
      * apply (ci_exclusive _ C b a q); try done. by apply (fetch_ok_covers (entry s)).
  - unfold finish_fetch. rewrite Ef. unfold after.
    rewrite (holes_since_app _ _ []) by by rewrite punched_notify.
    pose proof (notify_inv s I) as [C P K [D1 D2 D3 D4 D5 D6]]. split; try done.
    assert (Hsame : forall q, punch_pages [] (stored s) q = stored s q)
      by (intros q; unfold punch_pages; cbn; apply andb_true_r).
    constructor; cbn [entry held admitted received drained stored] in *; intros; rewrite ?Hsame; eauto.
Qed.

(** The pages of the prior states that a rollback restores. *)
Lemma prior_index e a q :
  geometry e -> fetch_ok e a -> 0 <= q ->
  u64 (published a + U - 1) / U <= q - fetch_offset a / U < vsize (prior_states a) <-> owns a q.
Proof.
  intros G F Hq. pose proof (size_small _ G). pose proof F as [F1 F2 F3 F4 F5 F6 F7 F8 F9 F10].
  pose proof (aligned_unit _ G _ F3) as Hu.
  rewrite F9, u64_small by (rewrite unit_value; unfold fetch_end in *; lia).
  assert (Hpu : published a = fetch_length a \/ published a mod U = 0)
    by (destruct F8; [by left|right; by apply (aligned_unit _ G)]).
  unfold owns, units_of. rewrite (proj2 (Z.eqb_neq (fetch_length a) 0)) by lia.
  unfold fetch_end in *. rewrite unit_value in *. clear - Hu Hpu F2 F4 F7 Hq.
  Z.to_euclidean_division_equations; lia.
Qed.

Lemma rollback_pages e c a pre post q :
  geometry e -> fetch_ok e a -> found e c a pre post -> 0 <= q ->
  page_state (restore_pages (words_ e) (block_first_page e (claim_offset c)) (prior_states a)
    (zrange (u64 (published a + U - 1) / U) (vsize (prior_states a)))) q =
  if decide (owns a q) then vget CACHE_PAGE_MISSING (prior_states a) (q - fetch_offset a / U)
  else state_at e q.
Proof.
  intros G F Fd Hq. pose proof (prior_index e a q G F Hq) as Hidx.
  pose proof F as [F1 F2 F3 F4 F5 F6 F7 F8 F9 F10]. pose proof (aligned_unit _ G _ F3) as Hu.
  assert (Hfirst : block_first_page e (claim_offset c) = fetch_offset a / U).
  { unfold block_first_page. rewrite <- (fd_offset _ _ _ _ _ Fd). by rewrite (block_floor _ G). }
  rewrite Hfirst, restore_pages_state; try done.
  - destruct (decide (owns a q)) as [Ho|Ho].
    + apply Hidx in Ho as [? ?]. by rewrite (proj2 (Z.leb_le _ _)), (proj2 (Z.ltb_lt _ _)) by lia.
    + destruct (_ && _) eqn:E; [|done]. destruct Ho. apply Hidx. bool_case. lia.
  - apply Z.div_pos; [lia|done].
  - apply Z.div_pos; [apply u64_range|done].
  - etransitivity; [|apply (geo_words _ G)]. rewrite F9, (geo_pages _ G). unfold units_of.
    rewrite !(proj2 (Z.eqb_neq _ 0)) by (unfold fetch_end in *; lia). unfold fetch_end in *.
    rewrite unit_value in *. clear - Hu F5 F4 F2. Z.to_euclidean_division_equations; lia.
Qed.

Lemma rollback_fetch_inv s c :
  cache_inv s -> cache_inv (with_entry s (rollback_fetch c (entry s))).
Proof.
  intros I. unfold rollback_fetch.
  destruct (find_claim c (active_claims_ (entry s))) as [a|] eqn:Ef; [|by rewrite with_entry_id].
  destruct (find_found _ _ _ Ef) as (pre & post & Fd). pose proof (found_in _ I _ _ _ _ Fd) as Ha.
  pose proof (inv_geometry s I) as G. pose proof (inv_fetch s a I Ha) as F.
  pose proof (inv_claims _ I) as C. pose proof (inv_data _ I) as D.
  pose proof (fun q => prior_index _ a q G F) as Hidx. pose proof F as [F1 F2 F3 F4 F5 F6 F7 F8 F9 F10].
  pose proof (fun q => rollback_pages _ c a pre post q G F Fd) as Hst.
  set (ws := restore_pages _ _ _ _) in *.
  assert (Hws : vsize ws = vsize (words_ (entry s))) by apply restore_pages_size.
  replace (entry s <| words_ := ws |>) with
    (entry s <| words_ := ws |> <| punched_ := punched_ (entry s) |>) by by destruct (entry s).
  apply (erase_inv s c a pre post); try done.
  - intros q Hq Ho. rewrite Hst by done. by rewrite decide_False.
  - intros q Hq Ho. rewrite Hst, decide_True by done.
    pose proof (proj2 (Hidx q Hq) Ho) as Hr.
    destruct (F10 (vget CACHE_PAGE_MISSING (prior_states a) (q - fetch_offset a / U))) as [-> | ->];
      [|done|done].
    apply list_elem_of_lookup_2 with (Z.to_nat (q - fetch_offset a / U)). apply vget_lookup.
    assert (0 <= u64 (published a + U - 1) / U) by (apply Z.div_pos; [apply u64_range|done]). lia.
  - intros q Hq Hqs Hcl. rewrite Hst in Hcl by done. destruct (decide (owns a q)) as [Ho|Ho].
    + by apply (di_prior _ D a q).
    + by apply (di_clean _ D).
Qed.

(** *** New page states only *)

Lemma states_inv s e' :
  cache_inv s ->
  same_core (entry s <| words_ := words_ e' |>) e' ->
  vsize (words_ e') = vsize (words_ (entry s)) ->
  (forall a q, a ∈ active_claims_ (entry s) -> 0 <= q -> owns a q ->
     state_at e' q = CACHE_PAGE_READ_PENDING \/ state_at e' q = CACHE_PAGE_BAD) ->
  (forall q, 0 <= q -> q * U < size_ (entry s) -> state_at e' q = CACHE_PAGE_READ_PENDING ->
     state_at (entry s) q = CACHE_PAGE_READ_PENDING) ->
  (forall q, 0 <= q -> q * U < size_ (entry s) -> state_at e' q = CACHE_PAGE_CLEAN ->
     state_at (entry s) q = CACHE_PAGE_CLEAN) ->
  (is_dirty (entry s) = true -> forall q, 0 <= q -> q * U < size_ (entry s) ->
     state_at e' q = CACHE_PAGE_CLEAN) ->
  cache_inv (with_entry s e').
Proof.
  intros I S Hw Hown Hpend Hclean Hdirty.
  apply (with_entry_frame (with_entry s (entry s <| words_ := words_ e' |>))); [|done].
  destruct I as [C P K D A]. split_inv.
  - by apply (claims_states (entry s)).
  - by apply (pins_frame (entry s)).
  - destruct K as [K1 K2 K3 K4 K5 K6 K7]. constructor; try done.
    intros Hd. destruct (K7 Hd) as (? & ? & ? & ? & _). repeat (split; [done|]). by apply Hdirty.
  - destruct D as [D1 D2 D3 D4 D5 D6]. constructor; try done.
    intros q Hq Hqs Hst. apply D1; [done|done|by apply Hclean].
Qed.

(** The page bounds of a whole claim. *)
Lemma claim_end_page_bounds e c a pre post q :
  geometry e -> fetch_ok e a -> found e c a pre post -> 0 <= q ->
  claim_offset c / U <= q < claim_end_page e c <-> covers a q.
Proof.
  intros G F Fd Hq. pose proof (size_small _ G). pose proof F as [F1 F2 F3 F4 F5 F6 F7 F8 F9 F10].
  pose proof (aligned_unit _ G _ F3) as Hu. pose proof (page_in_object e G q Hq) as Hp.
  unfold claim_end_page. rewrite <- (fd_offset _ _ _ _ _ Fd), <- (fd_length _ _ _ _ _ Fd).
  rewrite last_page_small by (unfold fetch_end in *; lia). unfold covers, fetch_end in *.
  rewrite unit_value in *. clear - Hu Hp F2 F4 F5 Hq. Z.to_euclidean_division_equations; lia.
Qed.

Lemma claim_end_page_words e c :
  geometry e -> claim_end_page e c <= 32 * vsize (words_ e).
Proof. intros G. pose proof (geo_words _ G). unfold claim_end_page. lia. Qed.

(** Painting the pages of a whole claim. *)
Lemma paint_claim e c a pre post st q :
  geometry e -> fetch_ok e a -> found e c a pre post -> 0 <= q ->
  page_state (set_pages (words_ e) (zrange (claim_offset c / U) (claim_end_page e c)) st) q =
  if decide (covers a q) then st else state_at e q.
Proof.
  intros G F Fd Hq. pose proof (claim_end_page_bounds e c a pre post q G F Fd Hq) as Hb.
  rewrite set_pages_state; try done; [|rewrite <- (fd_offset _ _ _ _ _ Fd); apply Z.div_pos;
    [apply (fok_offset _ _ F)|done]|by apply claim_end_page_words].
  destruct (decide (covers a q)) as [Hc|Hc].
  - apply Hb in Hc as [? ?]. by rewrite (proj2 (Z.leb_le _ _)), (proj2 (Z.ltb_lt _ _)) by lia.
  - destruct (_ && _) eqn:E; [|done]. bool_case. destruct Hc. by apply Hb.
Qed.

Lemma mark_bad_inv s c : cache_inv s -> cache_inv (with_entry s (mark_bad c (entry s))).
Proof.
  intros I. unfold mark_bad.
  destruct (find_claim c (active_claims_ (entry s))) as [a|] eqn:Ef; [|by apply notify_inv].
  destruct (stale_ (entry s)); [by apply notify_inv|].
  destruct (find_found _ _ _ Ef) as (pre & post & Fd). pose proof (found_in _ I _ _ _ _ Fd) as Ha.
  pose proof (inv_geometry s I) as G. pose proof (inv_fetch s a I Ha) as F.
  set (first := claim_offset c / U + _). set (ws := set_pages _ _ _).
  apply (with_entry_frame (with_entry s (entry s <| words_ := ws |>))); [|apply notify_core].
  assert (Hfirst : 0 <= claim_offset c / U <= first).
  { pose proof (fok_offset _ _ F). rewrite <- (fd_offset _ _ _ _ _ Fd) in *.
    assert (0 <= fetch_offset a / U) by (apply Z.div_pos; done).
    assert (0 <= u64 (published a + U - 1) / U) by (apply Z.div_pos; [apply u64_range|done]).
    unfold first. rewrite (fd_offset _ _ _ _ _ Fd) in *. destruct (verifying a); lia. }
  assert (Hst : forall q, 0 <= q -> page_state ws q = state_at (entry s) q \/
    page_state ws q = CACHE_PAGE_BAD).
  { intros q Hq. unfold ws. rewrite set_pages_state by (lia || by apply claim_end_page_words).
    destruct (_ && _); [by right|by left]. }
  apply states_inv; try done.
  - apply set_pages_size.
  - intros b q Hb Hq Ho. cbn. destruct (Hst q Hq) as [E|E]; [|by right].
    unfold state_at at 1 2. cbn. rewrite E. by apply (ci_owned _ (inv_claims _ I) b).
  - intros q Hq Hqs. unfold state_at at 1. cbn. destruct (Hst q Hq) as [-> | ->]; done.
  - intros q Hq Hqs. unfold state_at at 1. cbn. destruct (Hst q Hq) as [-> | ->]; done.
  - intros Hd. by rewrite (not_dirty s I c a pre post Fd) in Hd.
Qed.

(** *** Whole-object verification *)

Lemma other_overlaps_false c a b pre post e q :
  geometry e -> fetch_ok e a -> fetch_ok e b -> found e c a pre post -> b ∈ pre ++ post ->
  other_overlaps c (active_claims_ e) = false -> covers a q -> covers b q -> False.
Proof.
  intros G F Fb Fd Hb Hno [Ha1 Ha2] [Hb1 Hb2]. unfold other_overlaps in Hno.
  rewrite (fd_erase _ _ _ _ _ Fd) in Hno.
  assert (existsb (overlaps c) (pre ++ post) = true) as Hx; [|congruence].
  apply existsb_exists. exists b. split; [by apply list_elem_of_In|].
  pose proof (size_small _ G). destruct F, Fb. unfold overlaps, claim_end, fetch_end in *.
  rewrite <- (fd_offset _ _ _ _ _ Fd), <- (fd_length _ _ _ _ _ Fd), !u64_small by lia.
  by rewrite (proj2 (Z.ltb_lt _ _)), (proj2 (Z.ltb_lt _ _)) by lia.
Qed.

Lemma in_progress_nonneg states : 0 <= in_progress_count states.
Proof. apply count_nonneg. Qed.

Lemma pin_fetch_verification_inv s c e' r :
  cache_inv s -> pin_fetch_verification c (entry s) = (e', r) -> cache_inv (with_entry s e').
Proof.
  intros I. unfold pin_fetch_verification.
  destruct (find_claim c (active_claims_ (entry s))) as [a|] eqn:Ef;
    [|by intros [= <- <-]; rewrite with_entry_id].
  destruct (stale_ (entry s)); [by intros [= <- <-]; rewrite with_entry_id|].
  destruct (verifying a) eqn:Ev; [by intros [= <- <-]; rewrite with_entry_id|].
  destruct (_ || _ || _ || _) eqn:Eg; [by intros [= <- <-]; rewrite with_entry_id|].
  destruct (other_overlaps _ _) eqn:Eo; [by intros [= <- <-]; rewrite with_entry_id|].
  destruct (pins_full _ _) eqn:Ep; [by intros [= <- <-]; rewrite with_entry_id|].
  intros [= <- <-]. apply orb_false_iff in Eg as [Eg Hall%negb_false_iff]. bool_case.
  destruct (find_found _ _ _ Ef) as (pre & post & Fd). pose proof (found_in _ I _ _ _ _ Fd) as Ha.
  pose proof (inv_geometry s I) as G. pose proof (inv_fetch s a I Ha) as F.
  pose proof (inv_claims _ I) as C. pose proof (inv_data _ I) as [D1 D2 D3 D4 D5 D6].
  rewrite (fd_replace _ _ _ _ _ Fd). rewrite <- (fd_offset _ _ _ _ _ Fd), <- (fd_length _ _ _ _ _ Fd) in *.
  pose proof (fetch_in_object _ _ F) as Hin. destruct (range_regions _ _ _ G Hin) as (Hf & Hlr & Hle & _).
  set (a' := a <| verifying := true |>). set (e' := _ <| active_claims_ := pre ++ a' :: post |>).
  assert (Hsf : same_fetch s a a').
  { pose proof (found_same_fetch _ _ _ _ _ I Fd) as []. by constructor; try done; destruct sf_ok0. }
  assert (Hone : forall x, x ∈ [a'] -> x = a') by (intros x; apply list_elem_of_singleton).
  assert (Hnone : forall q, ~ owns a' q) by (intros q [Ho1 Ho2]; unfold fetch_end in *; cbn in *; lia).
  destruct (bump_pins_spec (region_pins_ (entry s)) (first_region (entry s) (fetch_offset a))
    (last_region (entry s) (fetch_offset a) (fetch_length a))) as (Hsz & _ & _); [lia|done|].
  split_inv.
  - apply (claims_repaint s I c a pre post Fd e' [a']); try done.
    + by right; exists a'.
    + by intros x ->%Hone.
    + intros x q ->%Hone Hq Ho. by apply Hnone in Ho.
    + intros q Hq Hqs Hp. right. split; [done|]. intros Ho. apply (Hnone q), Ho.
    + intros x b q ->%Hone Hb Hq Ho. by apply Hnone in Ho.
    + intros x b q ->%Hone Hb _ Hq. apply (other_overlaps_false c a b pre post (entry s)); try done.
      by apply inv_fetch, (other_in s I c a pre post Fd).
  - apply (pins_add (entry s) (held s) e' _ (first_region (entry s) (fetch_offset a))
      (last_region (entry s) (fetch_offset a) (fetch_length a))); try done; try lia.
    + apply I.
    + apply (pi_held _ _ (inv_pins _ I)).
    + intros r Hr. change (reply_pins e' (held s) r) with (reply_pins (entry s) (held s) r).
      pose proof (verification_repaint s I c a pre post Fd e' [a'] r eq_refl eq_refl eq_refl eq_refl
        eq_refl Hr ltac:(by intros x ->%Hone)) as E.
      unfold fetch_pins at 1 in E. rewrite Ev in E. unfold zsum, fetch_pins in E. cbn [foldr] in E.
      change (verifying a') with true in E. cbv iota in E.
      change (fetch_offset a') with (fetch_offset a) in E. change (fetch_length a') with (fetch_length a) in E.
      unfold range_touches in E. rewrite <- Hlr in E. unfold first_region in *. lia.
  - apply (checks_repaint s I c a pre post Fd e' [a']); try done. intros x ->%Hone _.
    split; [|done]. intros Hld. pose proof (ck_ops _ (inv_checks _ I)) as Ho. rewrite Hld in Ho.
    pose proof (in_progress_nonneg (checksum_states_ (entry s))). cbn in Ho. lia.
  - apply (data_repaint s I c a pre post Fd (with_entry s e') [a']); try done;
      cbn [entry held admitted received drained stored].
    + by intros x ->%Hone.
    + intros x q ->%Hone Hq Ho. by apply Hnone in Ho.
    + intros x q ->%Hone _ Hq Hc. apply range_all_state_spec in Hall as [|Hall];
        [pose proof (fok_length _ _ F); lia| |apply (fok_offset _ _ F)].
      pose proof (size_small _ G). destruct F as [F1 F2 F3 F4 F5 F6 F7 F8 F9 F10].
      destruct Hc as [Hc1 Hc2]. apply D1; [done|lia|]. apply Hall.
      rewrite last_page_small by (unfold fetch_end in *; lia). unfold first_page_of, fetch_end in *.
      rewrite unit_value in *. clear - Hc1 Hc2. Z.to_euclidean_division_equations; lia.
    + intros x q ->%Hone Hq Ho. by apply Hnone in Ho.
    + intros x ->%Hone. by apply (D5 a).
    + intros x r' ->%Hone Hr Hp Ht. cbn in Ht. unfold fetch_end in Ht. lia.
Qed.

(** The clients after an attempt to begin a retry: [Ok false] means that it may write. *)
(** The response of a retry starts over behind what the fetch has published. *)
Definition progress_of (c : CacheFetchClaim) (e : CacheEntry) : Z :=
  match find_claim c (active_claims_ e) with Some a => published a | None => 0 end.

Definition note_retry (c : CacheFetchClaim) (r : result bool) (s : CacheState) : CacheState :=
  mkCacheState (entry s) (held s) (admitted s)
    (match r with
     | Ok _ => update (received s) (claim_id c) (progress_of c (entry s))
     | Throw _ => received s
     end)
    (update (drained s) (claim_id c) (match r with Ok false => true | _ => false end)) (cleared s) (stored s).

Lemma retry_pins_ready_spec s c a pre post r :
  cache_inv s -> found (entry s) c a pre post ->
  retry_pins_ready_locked (entry s) (claim_offset c) (claim_length c) = true -> 0 <= r ->
  fetch_offset a <= r * block_size_ (entry s) < fetch_end a -> reply_pins (entry s) (admitted s) r = 0.
Proof.
  intros I Fd Hready Hr Ht. pose proof (inv_geometry s I) as G.
  pose proof (found_ok s I c a pre post Fd) as F. pose proof (fetch_in_object _ _ F) as Hin.
  destruct (range_regions _ _ _ G Hin) as (Hf & Hlr & Hle & _).
  pose proof (block_pos _ G). unfold retry_pins_ready_locked in Hready.
  rewrite <- (fd_offset _ _ _ _ _ Fd), <- (fd_length _ _ _ _ _ Fd), forallb_forall in Hready.
  assert (Hreg : first_region (entry s) (fetch_offset a) <= r <
                 last_region (entry s) (fetch_offset a) (fetch_length a)).
  { rewrite Hlr. unfold first_region, fetch_end in *.
    assert (r = r * block_size_ (entry s) / block_size_ (entry s)) as -> by (by rewrite Z.div_mul by lia).
    pose proof (Z.div_le_mono (fetch_offset a) (r * block_size_ (entry s)) (block_size_ (entry s)) ltac:(lia) ltac:(lia)).
    pose proof (Z.div_le_mono (r * block_size_ (entry s)) (fetch_offset a + fetch_length a - 1)
      (block_size_ (entry s)) ltac:(lia) ltac:(lia)). lia. }
  specialize (Hready r ltac:(by apply list_elem_of_In, elem_of_zrange)). apply Z.leb_le in Hready.
  rewrite (pi_count _ _ (inv_pins _ I)) in Hready by lia.
  pose proof (reply_pins_nonneg (entry s) (admitted s) r).
  pose proof (reply_pins_sub (entry s) _ _ r (inv_admitted _ I)). lia.
Qed.

(** Quarantine: all pages of a verifying fetch become pending again. *)
Lemma quarantine_inv s c a pre post ws :
  cache_inv s -> found (entry s) c a pre post -> verifying a = true ->
  ws = set_pages (words_ (entry s)) (zrange (claim_offset c / U) (claim_end_page (entry s) c))
         CACHE_PAGE_READ_PENDING ->
  cache_inv (mkCacheState (entry s <| words_ := ws |>
      <| active_claims_ := pre ++ (a <| published := 0 |> <| retrying := true |>) :: post |>)
    (held s) (admitted s) (received s) (update (drained s) (fetch_id a) false) (cleared s) (stored s)).
Proof.
  intros I Fd Hv Ews. pose proof (inv_geometry s I) as G. pose proof (found_in _ I _ _ _ _ Fd) as Ha.
  pose proof (inv_fetch s a I Ha) as F. pose proof (inv_claims _ I) as C.
  pose proof (inv_data _ I) as [D1 D2 D3 D4 D5 D6].
  set (a' := a <| published := 0 |> <| retrying := true |>).
  set (e' := _ <| active_claims_ := pre ++ a' :: post |>).
  assert (Hst : forall q, 0 <= q -> state_at e' q =
    if decide (covers a q) then CACHE_PAGE_READ_PENDING else state_at (entry s) q).
  { intros q Hq. unfold state_at at 1. cbn. rewrite Ews. by apply (paint_claim _ c a pre post). }
  assert (Hsf : same_fetch s a a').
  { destruct F. constructor; try done. constructor; try done; cbn; [lia|].
    right. pose proof (block_pos _ G). by apply Z.mod_0_l; lia. }
  assert (Hone : forall x, x ∈ [a'] -> x = a') by (intros x; apply list_elem_of_singleton).
  assert (Hown : forall q, owns a' q <-> covers a q)
    by (intros q; unfold owns, covers, fetch_end; cbn; rewrite Z.add_0_r; done).
  assert (Hexc : forall b q, b ∈ pre ++ post -> 0 <= q -> covers a q -> covers b q -> False).
  { intros b q Hb Hq Hc Hc'. apply (ci_exclusive _ C a b q); try done;
      [by apply (other_in s I c a pre post Fd)|]. intros E. by apply (other_id s I c a pre post Fd b Hb). }
  assert (Hcov : forall b q, b ∈ pre ++ post -> owns b q -> covers b q).
  { intros b q Hb. apply (fetch_ok_covers (entry s)). by apply inv_fetch, (other_in s I c a pre post Fd). }
  split_inv.
  - apply (claims_repaint s I c a pre post Fd e' [a']); try done.
    + cbn. rewrite Ews. apply set_pages_size.
    + by right; exists a'.
    + by intros x ->%Hone.
    + intros x q ->%Hone Hq Ho. left. by rewrite Hst, decide_True by (done || by apply Hown).
    + intros b q Hb Hq Ho. rewrite Hst by done. destruct (decide (covers a q)); [|done].
      exfalso. apply (Hexc b q); auto.
    + intros q Hq Hqs Hp. rewrite Hst in Hp by done. destruct (decide (covers a q)) as [Hc|Hc].
      * left. exists a'. split; [set_solver|by apply Hown].
      * right. split; [done|]. intros Ho. by apply Hc, (fetch_ok_covers (entry s)).
    + intros x b q ->%Hone Hb Hq Ho Ho'. apply (Hexc b q); auto. by apply Hown.
    + intros x b q ->%Hone Hb _ Hq. by apply Hexc.
  - by apply (pins_repaint s I c a pre post Fd e' a').
  - apply (checks_repaint s I c a pre post Fd e' [a']); try done.
    intros x ->%Hone _. by apply (ck_exclusive _ (inv_checks _ I) a).
  - apply (data_repaint s I c a pre post Fd _ [a']); try done;
      cbn [entry held admitted received drained stored].
    + by intros x ->%Hone.
    + intros i Hi. unfold update. by rewrite (proj2 (Z.eqb_neq _ _)) by done.
    + intros q Hq Hqs Hcl. rewrite Hst in Hcl by done. destruct (decide (covers a q)); [done|by apply D1].
    + intros x q ->%Hone Hq Ho _. apply (D3 a); try done. by apply Hown.
    + intros x q ->%Hone _ Hq Hc. by apply (D3 a).
    + intros x q ->%Hone Hq Ho _. apply (D3 a); try done. by apply Hown.
    + intros x ->%Hone. change (published a') with 0. pose proof (D5 a Ha). pose proof (fok_published _ _ F).
      cbn [received]. lia.
    + intros x r ->%Hone Hr Hp Ht. split; [done|]. unfold update. by rewrite Z.eqb_refl.
Qed.

(** Only the values of the client functions matter. *)
Lemma cache_inv_ext s s' :
  entry s' = entry s -> held s' = held s -> admitted s' = admitted s -> (forall i, received s' i = received s i) ->
  (forall i, drained s' i = drained s i) -> (forall q, stored s' q = stored s q) ->
  cache_inv s -> cache_inv s'.
Proof.
  intros He Hh Ha Hr Hd Hs [C P K [D1 D2 D3 D4 D5 D6] A]. split; rewrite ?He, ?Hh, ?Ha; try done.
  constructor; rewrite ?He, ?Ha; intros; rewrite ?Hs, ?Hr, ?Hd in *; eauto.
Qed.

Lemma note_retry_inv s c a pre post r :
  cache_inv s -> found (entry s) c a pre post -> retrying a = true ->
  (r = Ok false -> retry_pins_ready_locked (entry s) (claim_offset c) (claim_length c) = true) ->
  cache_inv (note_retry c r s).
Proof.
  intros I Fd Hrt Hready. pose proof (found_in _ I _ _ _ _ Fd) as Ha.
  pose proof (inv_data _ I) as [D1 D2 D3 D4 D5 D6]. pose proof (inv_fetch s a I Ha) as F.
  pose proof (found_same_fetch _ _ _ _ _ I Fd) as Hsf.
  assert (Hone : forall x, x ∈ [a] -> x = a) by (intros x; apply list_elem_of_singleton).
  assert (Hrec : received (note_retry c r s) (fetch_id a) = received s (fetch_id a) \/
                 received (note_retry c r s) (fetch_id a) = published a).
  { cbn. destruct r; [right|by left]. unfold update, progress_of.
    by rewrite (fd_find _ _ _ _ _ Fd), (fd_id _ _ _ _ _ Fd), Z.eqb_refl. }
  split; try apply I.
  apply (data_repaint s I c a pre post Fd _ [a]); try done.
  - apply (fd_claims _ _ _ _ _ Fd).
  - by intros x ->%Hone.
  - intros i Hi. cbn. unfold update. rewrite (fd_id _ _ _ _ _ Fd) in Hi.
    destruct r; by rewrite ?(proj2 (Z.eqb_neq _ _)) by done.
  - intros x q ->%Hone. by apply D2.
  - intros x q ->%Hone. by apply D3.
  - intros x q ->%Hone Hq Ho Hp. destruct Hrec as [E|E]; rewrite E in Hp; [by apply (D4 a)|].
    exfalso. pose proof Ho as [Ho1 Ho2]. pose proof (fok_inside _ _ F). pose proof (fok_published _ _ F).
    pose proof (page_end_after (entry s) q ltac:(lia)). lia.
  - intros x ->%Hone. destruct Hrec as [-> | ->]; [by apply D5|].
    pose proof (fok_published _ _ F). lia.
  - intros x r' ->%Hone Hr Hp Ht. split; [done|]. cbn. unfold update.
    rewrite (fd_id _ _ _ _ _ Fd), Z.eqb_refl. destruct r as [[]|]; try done.
    pose proof (fok_published _ _ F).
    rewrite (retry_pins_ready_spec s c a pre post r' I Fd) in Hp; try done; [by apply Hready|lia].
Qed.

(** A notification at the end of an operation does not matter. *)
Ltac strip_notify :=
  lazymatch goal with
  | |- cache_inv (mkCacheState (notify_waiters_locked ?x) ?h ?ad ?rc ?d ?cl ?st) =>
      apply (cache_inv_frame (mkCacheState x h ad rc d cl st)); [|apply notify_core]
  end.

Lemma found_replaced s (I : cache_inv s) c a pre post (Fd : found (entry s) c a pre post) e' a' :
  is_claim c a' = true -> active_claims_ e' = pre ++ a' :: post -> found e' c a' pre post.
Proof.
  intros Hc Hact.
  assert (Hpre : forall x, x ∈ pre -> is_claim c x = false).
  { intros x Hx. destruct (is_claim c x) eqn:Ec; [|done]. exfalso.
    apply is_claim_spec in Ec as (Ec & _). apply (other_id s I c a pre post Fd x ltac:(set_solver)).
    by rewrite (fd_id _ _ _ _ _ Fd). }
  assert (Hsplit : erase_claim c (pre ++ a' :: post) = pre ++ post /\
    (forall b, replace_claim c b (pre ++ a' :: post) = pre ++ b :: post) /\
    find_claim c (pre ++ a' :: post) = Some a').
  { clear Fd Hact. induction pre as [|x l IH]; cbn; [by rewrite Hc|]. rewrite Hpre by set_solver.
    destruct IH as (-> & Hrep & ->); [set_solver|]. split; [done|]. split; [|done]. intros b. by rewrite Hrep. }
  apply is_claim_spec in Hc as (? & ? & ? & ?).
  by constructor; rewrite ?Hact; try apply Hsplit.
Qed.

Lemma undrain_inv s i : cache_inv s ->
  cache_inv (mkCacheState (entry s) (held s) (admitted s) (received s) (update (drained s) i false) (cleared s) (stored s)).
Proof.
  intros [C P K [D1 D2 D3 D4 D5 D6] A]. split; try done. constructor; try done.
  intros a r Ha Hr Hp Ht. destruct (D6 a r Ha Hr Hp Ht) as [? Hd]. split; [done|].
  cbn. unfold update. destruct (_ =? _); done.
Qed.

Lemma begin_retry_wait_inv s ev c e' r :
  cache_inv s -> begin_retry_wait ev c (entry s) = (e', r) ->
  cache_inv (note_retry c r (with_entry s e')).
Proof.
  intros I. unfold begin_retry_wait, begin_retry_locked.
  assert (Hthrow : forall x, cache_inv (note_retry c (Throw x) (with_entry s (entry s))))
    by (intros x; apply (undrain_inv s (claim_id c) I)).
  destruct (find_claim c (active_claims_ (entry s))) as [a|] eqn:Ef; [|by intros [= <- <-]].
  destruct (stale_ (entry s)); [by intros [= <- <-]|].
  destruct (verifying a) eqn:Ev; [|by intros [= <- <-]]. cbn [negb].
  destruct (find_found _ _ _ Ef) as (pre & post & Fd).
  set (e1 := if retrying a then _ else _).
  assert (Hq : exists a1, found e1 c a1 pre post /\ retrying a1 = true /\ cache_inv (mkCacheState e1
    (held s) (admitted s) (received s) (if retrying a then drained s else update (drained s) (fetch_id a) false) (cleared s) (stored s))).
  { unfold e1. destruct (retrying a) eqn:Er.
    - exists a. split; [done|]. split; [done|]. by destruct s.
    - set (a' := a <| published := 0 |> <| retrying := true |>). exists a'.
      pose proof (fd_replace _ _ _ _ _ Fd a') as Erep.
      split; [|split; [done|]].
      + apply (found_replaced s I c a pre post Fd); [by apply find_claim_split in Ef as [? _]|].
        rewrite (sc_claims _ _ (notify_core _)). apply Erep.
      + rewrite Erep. strip_notify. by apply (quarantine_inv s c a pre post). }
  destruct Hq as (a1 & Fd1 & Hr1 & I1).
  set (s1 := mkCacheState e1 _ _ _ _ _ _) in I1.
  assert (Hfin : forall e2 r2, same_core e1 e2 ->
    (r2 = Ok false -> retry_pins_ready_locked e1 (claim_offset c) (claim_length c) = true) ->
    cache_inv (note_retry c r2 (with_entry s e2))).
  { intros e2 r2 S Hrdy.
    assert (progress_of c e2 = progress_of c e1) as Hp by (unfold progress_of; by rewrite (sc_claims _ _ S)).
    apply (cache_inv_ext (note_retry c r2 (with_entry s e1) <| entry := e2 |>)); try done.
    { intros i. change (received (note_retry c r2 (with_entry s e1) <| entry := e2 |>))
        with (received (note_retry c r2 (with_entry s e1))). cbn. by rewrite Hp. }
    apply (cache_inv_frame (note_retry c r2 (with_entry s e1)) e2); [|done].
    apply (cache_inv_ext (note_retry c r2 s1)); try done.
    - intros i. cbn. unfold update. rewrite (fd_id _ _ _ _ _ Fd).
      destruct (i =? claim_id c) eqn:Ei; [done|]. destruct (retrying a); [done|by rewrite Ei].
    - by apply (note_retry_inv s1 c a1 pre post). }
  destruct (retry_pins_ready_locked e1 _ _) eqn:Eready.
  - intros [= <- <-]. by apply Hfin.
  - intros E. pose proof (register_waiter_core ev e1) as S. rewrite E in S. apply Hfin; [done|].
    intros ->. exfalso. unfold register_waiter in E. destruct (wait_fd_ e1), ev; congruence.
Qed.
