(* ===== verification/CacheChecks.v ===== *)
(** * CacheEntry: checksum verification keeps the invariant

    The manifest of part checksums and the claims of single parts: loading, claiming, retrying,
    finishing and abandoning, each from any state that satisfies [cache_inv]. *)

From S2P Require Import Prelude CacheBitmap CacheEntry CacheEntryLemmas CacheEntryInv CacheSteps.

(** ** Parts and their states *)

Lemma zsum_combine_vset {A} (d : A) (f : A * Z -> Z) l k i v :
  length k = length l -> 0 <= i < vsize k ->
  zsum f (combine l (vset k i v)) =
  zsum f (combine l k) - f (vget d l i, vget kPartUnverified k i) + f (vget d l i, v).
Proof.
  intros Hlen Hi. unfold vset, vget, vsize in *.
  assert (Hn : (Z.to_nat i < length k)%nat) by lia. revert Hn. generalize (Z.to_nat i) as n.
  clear Hi. revert k Hlen. induction l as [|x l IH]; intros [|y k] Hlen n Hn; cbn in Hlen, Hn; try lia.
  destruct n as [|n].
  - change (<[O := v]> (y :: k)) with (v :: k). cbn [combine]. rewrite !zsum_cons. cbn. lia.
  - change (<[S n := v]> (y :: k)) with (y :: <[n := v]> k). cbn [combine]. rewrite !zsum_cons.
    change ((x :: l) !! S n) with (l !! n). change ((y :: k) !! S n) with (k !! n).
    rewrite IH by lia. lia.
Qed.

Lemma zsum_vset_list (f : Z -> Z) k i v :
  0 <= i < vsize k -> zsum f (vset k i v) = zsum f k - f (vget kPartUnverified k i) + f v.
Proof. apply zsum_vset. Qed.

Definition no_part : CacheChecksumPart :=
  {| part_offset := 0; part_size := 0; part_algorithm := 0; part_value := [] |}.

(** The part a claim names. *)
Definition part_at (e : CacheEntry) (i : Z) : CacheChecksumPart := vget no_part (checksum_parts_ e) i.

Lemma parts_size_bound e offset parts :
  0 <= offset -> (forall p, p ∈ parts -> 0 <= part_size p) ->
  parts_valid (size_ e) offset parts = true -> vsize parts <= size_ e - offset.
Proof.
  revert offset. induction parts as [|p parts IH]; intros offset Ho Hp Hv; cbn in Hv.
  - bool_case. unfold vsize. cbn [length]. lia.
  - destruct (_ || _) eqn:E in Hv; [done|]. bool_case. pose proof (Hp p ltac:(set_solver)).
    specialize (IH (offset + part_size p) ltac:(lia) ltac:(set_solver) Hv).
    unfold vsize in *. cbn [length]. lia.
Qed.

Section Parts.
Context (s : CacheState) (I : cache_inv s).
#[local] Abbreviation e := (entry s).

Lemma parts_in_object p : p ∈ checksum_parts_ e -> in_object e (part_offset p) (part_size p).
Proof.
  intros Hp. pose proof (inv_checks _ I) as K.
  destruct (Z.eq_dec (checksum_manifest_ e) kChecksumAvailable) as [Hm|Hm].
  - by apply (parts_valid_in_object e 0 (checksum_parts_ e)); [|apply (ck_sizes _ K)|apply (ck_available _ K)|].
  - rewrite (ck_absent _ K Hm) in Hp. by apply elem_of_nil in Hp.
Qed.

Lemma part_at_in i : 0 <= i < vsize (checksum_states_ e) -> part_at e i ∈ checksum_parts_ e.
Proof.
  intros Hi. unfold part_at. apply list_elem_of_lookup_2 with (Z.to_nat i). apply vget_lookup.
  unfold vsize in *. rewrite (ck_lengths _ (inv_checks _ I)) in Hi. done.
Qed.

(** A part exists only when the manifest is available. *)
Lemma part_available i : 0 <= i < vsize (checksum_states_ e) -> checksum_manifest_ e = kChecksumAvailable.
Proof.
  intros Hi. destruct (Z.eq_dec (checksum_manifest_ e) kChecksumAvailable) as [|Hm]; [done|].
  pose proof (part_at_in i Hi) as Hp. rewrite (ck_absent _ (inv_checks _ I) Hm) in Hp.
  by apply elem_of_nil in Hp.
Qed.

Lemma ops_bound : 0 <= checksum_ops_ e < 2 ^ 62.
Proof.
  pose proof (inv_checks _ I) as K. pose proof (inv_geometry s I) as G.
  rewrite (ck_ops _ K). pose proof (in_progress_nonneg (checksum_states_ e)).
  assert (in_progress_count (checksum_states_ e) <= vsize (checksum_states_ e)).
  { unfold in_progress_count. generalize (checksum_states_ e) as l. induction l as [|x l IH]; [done|].
    rewrite zsum_cons. unfold vsize in *. cbn [length]. destruct (part_in_progress x); lia. }
  assert (vsize (checksum_states_ e) <= max_object).
  { unfold vsize. rewrite (ck_lengths _ K). fold (vsize (checksum_parts_ e)).
    destruct (Z.eq_dec (checksum_manifest_ e) kChecksumAvailable) as [Hm|Hm].
    - pose proof (parts_size_bound e 0 _ ltac:(lia) (ck_sizes _ K) (ck_available _ K Hm)).
      pose proof (geo_size _ G). lia.
    - rewrite (ck_absent _ K Hm). unfold vsize, max_object. cbn. lia. }
  unfold max_object in *. destruct (_ =? kChecksumLoading); lia.
Qed.

(** The verification pins after part [i] changed to state [v]. *)
Lemma verification_part e' i v r :
  size_ e' = size_ e -> block_size_ e' = block_size_ e ->
  checksum_parts_ e' = checksum_parts_ e -> checksum_states_ e' = vset (checksum_states_ e) i v ->
  active_claims_ e' = active_claims_ e -> 0 <= i < vsize (checksum_states_ e) ->
  0 <= r < vsize (region_pins_ e) ->
  verification_pins e' r + part_pins e r (part_at e i, part_state e i) =
  verification_pins e r + part_pins e r (part_at e i, v).
Proof.
  intros Hs Hb Hp Hst Hc Hi Hr. pose proof (inv_geometry s I) as G.
  assert (Hrs : r * block_size_ e < size_ e) by (apply (region_in_object _ G); lia).
  assert (Hf : forall st,
    (if part_in_progress st && part_touches (r * block_size_ e)
        (Z.min (size_ e) (u64 (r * block_size_ e + block_size_ e))) (part_at e i) then 1 else 0) =
    part_pins e r (part_at e i, st)).
  { intros st. unfold part_pins, part_touches, part_end. cbn [fst snd].
    destruct (part_in_progress st); [|done]. cbn [andb].
    apply in_range_bool, touches_region; try done; [|lia]. by apply parts_in_object, part_at_in. }
  unfold verification_pins. rewrite Hs, Hb, Hp, Hst, Hc.
  rewrite (zsum_combine_vset no_part) by (apply (ck_lengths _ (inv_checks _ I)) || done).
  cbn [fst snd]. fold (part_at e i). fold (part_state e i). rewrite !Hf. lia.
Qed.

(** What a change of one part's state means for [checks_inv]. *)
Lemma checks_part e' i v :
  size_ e' = size_ e -> checksum_parts_ e' = checksum_parts_ e ->
  checksum_states_ e' = vset (checksum_states_ e) i v ->
  checksum_manifest_ e' = checksum_manifest_ e -> active_claims_ e' = active_claims_ e ->
  is_dirty e' = is_dirty e ->
  0 <= i < vsize (checksum_states_ e) ->
  checksum_ops_ e' = checksum_ops_ e - (if part_in_progress (part_state e i) then 1 else 0) +
    (if part_in_progress v then 1 else 0) ->
  checks_inv e'.
Proof.
  intros Hs Hp Hst Hm Hc Hd Hi Ho. destruct (inv_checks _ I) as [K1 K2 K3 K4 K5 K6 K7].
  constructor; rewrite ?Hp, ?Hm, ?Hs, ?Hc, ?Hd; try done.
  - rewrite Hst. unfold vset. by rewrite length_insert.
  - rewrite Ho, Hst, K5. unfold in_progress_count. rewrite zsum_vset_list by done.
    fold (part_state e i). lia.
  - intros Hdt. destruct (K7 Hdt) as (_ & _ & Hna & _). by rewrite (part_available i Hi) in Hna.
Qed.

Lemma not_verifying i a : 0 <= i < vsize (checksum_states_ e) -> a ∈ active_claims_ e -> verifying a = false.
Proof.
  intros Hi Ha. destruct (verifying a) eqn:Ev; [|done].
  destruct (ck_exclusive _ (inv_checks _ I) a Ha Ev) as [_ Hna]. by rewrite (part_available i Hi) in Hna.
Qed.

(** A state change that keeps a part in progress. *)
Lemma set_part_state_inv i v :
  0 <= i < vsize (checksum_states_ e) ->
  part_in_progress (part_state e i) = true -> part_in_progress v = true ->
  cache_inv (with_entry s (set_part_state e i v)).
Proof.
  intros Hi Ho Hv. split_inv.
  - by apply (claims_frame e); try apply I.
  - pose proof (inv_pins _ I) as [Ph Pc Pb Pt]. constructor; try done.
    intros r Hr. etransitivity; [apply (Pc r Hr)|].
    pose proof (verification_part (set_part_state e i v) i v r eq_refl eq_refl eq_refl eq_refl eq_refl Hi Hr) as E.
    unfold part_pins in E. cbn [fst snd] in E. rewrite Ho, Hv in E.
    change (reply_pins (set_part_state e i v) (held s) r) with (reply_pins e (held s) r). lia.
  - apply (checks_part _ i v); try done. rewrite Ho, Hv. cbn. lia.
  - by apply (data_frame s); try apply I.
Qed.
End Parts.

(** ** Mismatch and retry of a part *)

Lemma checksum_mismatch_inv s c :
  cache_inv s -> 0 <= cc_part c -> cache_inv (with_entry s (checksum_mismatch c (entry s))).
Proof.
  intros I Hc. unfold checksum_mismatch. strip_notify.
  destruct (_ && _ && _ && _) eqn:E; [|by rewrite with_entry_id]. bool_case.
  apply set_part_state_inv; try done. unfold part_in_progress.
  by match goal with H : part_state _ _ = _ |- _ => rewrite H end.
Qed.

Lemma begin_checksum_retry_wait_inv s ev c e' r :
  cache_inv s -> 0 <= cc_part c -> begin_checksum_retry_wait ev c (entry s) = (e', r) ->
  cache_inv (with_entry s e').
Proof.
  intros I Hc. unfold begin_checksum_retry_wait, begin_checksum_retry_locked.
  destruct (_ || _ || _ || _) eqn:Eg; [by intros [= <- <-]; rewrite with_entry_id|]. bool_case.
  lazymatch goal with |- context [retry_pins_ready_locked ?x _ _] => set (e1 := x) end.
  assert (I1 : cache_inv (with_entry s e1)).
  { unfold e1. destruct (part_state _ _ =? _); [|by rewrite with_entry_id].
    strip_notify. by apply set_part_state_inv. }
  destruct (retry_pins_ready_locked _ _ _); [by intros [= <- <-]|].
  intros E. apply (with_entry_frame (with_entry s e1)); [done|].
  pose proof (register_waiter_core ev e1) as S. by rewrite E in S.
Qed.

(** ** The manifest *)

Lemma empty_states e : checks_inv e -> checksum_manifest_ e <> kChecksumAvailable ->
  checksum_parts_ e = [] /\ checksum_states_ e = [].
Proof.
  intros K Hm. pose proof (ck_absent _ K Hm) as E. split; [done|].
  apply nil_length_inv. by rewrite (ck_lengths _ K), E.
Qed.

(** An entry that differs in its checksum members only. *)
Lemma manifest_inv s e' :
  cache_inv s ->
  same_core (entry s <| checksum_parts_ := checksum_parts_ e' |>
               <| checksum_states_ := checksum_states_ e' |>
               <| checksum_ops_ := checksum_ops_ e' |>
               <| checksum_manifest_ := checksum_manifest_ e' |>) e' ->
  checks_inv e' -> (forall r, verification_pins e' r = verification_pins (entry s) r) ->
  cache_inv (with_entry s e').
Proof.
  intros I S K Hv. destruct I as [C P _ D A]. destruct S as [S1 S2 S3 S4 S5 S6 S7 S8 S9 S10 S11 S12 S13 S14 S15 S16].
  cbn in S1, S2, S3, S4, S5, S6, S7, S8, S9, S10, S13, S15.
  split_inv.
  - apply (claims_frame (entry s)); try done. by rewrite S9.
  - by apply (pins_frame (entry s)).
  - done.
  - apply (data_frame s); try done. intros a r _ _ _. cbn [entry held]. unfold reply_pins, range_touches.
    by rewrite S6.
Qed.

Lemma begin_checksum_manifest_inv s wait e' r :
  cache_inv s -> is_dirty (entry s) = false ->
  begin_checksum_manifest wait (entry s) = (e', r) -> cache_inv (with_entry s e').
Proof.
  intros I Hd. unfold begin_checksum_manifest. pose proof (inv_checks _ I) as K.
  destruct (negb _ && _); [by intros [= <- <-]; rewrite with_entry_id|].
  destruct (stale_ _); [by intros [= <- <-]; rewrite with_entry_id|].
  destruct (is_exported _).
  - destruct (_ =? kChecksumUnknown) eqn:Em; [|by intros [= <- <-]; rewrite with_entry_id].
    bool_case. intros [= <- <-].
    apply manifest_inv; try done.
    destruct K as [K1 K2 K3 K4 K5 K6 K7]. constructor; cbn; try done.
    + intros _. apply K3. by rewrite Em.
    + by rewrite K5, Em.
    + intros Hd'. change (is_dirty (entry s) = true) in Hd'. congruence.
  - destruct (_ =? kChecksumUnknown) eqn:Em; [|by intros [= <- <-]; rewrite with_entry_id].
    destruct (existsb verifying _) eqn:Ev; [by intros [= <- <-]; rewrite with_entry_id|].
    bool_case. intros [= <- <-]. apply manifest_inv; try done.
    destruct (empty_states _ K ltac:(by rewrite Em)) as [Ep Es].
    destruct K as [K1 K2 K3 K4 K5 K6 K7]. constructor; cbn; try done.
    + rewrite K5, Em, Es. done.
    + intros a Ha Hv. assert (existsb verifying (active_claims_ (entry s)) = true); [|congruence].
      apply existsb_exists. exists a. split; [by apply list_elem_of_In|done].
    + intros Hd'. change (is_dirty (entry s) = true) in Hd'. congruence.
Qed.

(** Parts that nobody verifies hold no pins. *)
Lemma verification_idle e e' r :
  size_ e' = size_ e -> block_size_ e' = block_size_ e -> active_claims_ e' = active_claims_ e ->
  (forall x, x ∈ checksum_states_ e -> part_in_progress x = false) ->
  (forall x, x ∈ checksum_states_ e' -> part_in_progress x = false) ->
  verification_pins e' r = verification_pins e r.
Proof.
  intros Hs Hb Ha H H'. unfold verification_pins. rewrite Hs, Hb, Ha. f_equal.
  rewrite !zsum_zero; [done| |]; intros [p st] [_ Hst]%elem_of_combine; cbn [fst snd];
    [rewrite (H _ Hst)|rewrite (H' _ Hst)]; done.
Qed.

(** [finish_checksum_manifest] and [checksum_manifest_unavailable] end the loading that
    [begin_checksum_manifest] started. *)
Lemma finish_checksum_manifest_inv s parts :
  cache_inv s -> checksum_manifest_ (entry s) = kChecksumLoading ->
  (forall p, p ∈ parts -> 0 <= part_size p) ->
  cache_inv (with_entry s (finish_checksum_manifest parts (entry s))).
Proof.
  intros I Hm Hp. pose proof (inv_checks _ I) as K.
  destruct (empty_states _ K ltac:(by rewrite Hm)) as [Ep Es].
  unfold finish_checksum_manifest. strip_notify.
  assert (Hops : checksum_ops_ (entry s) = 1) by (rewrite (ck_ops _ K), Hm, Es; done).
  assert (Hnv : forall a, a ∈ active_claims_ (entry s) -> verifying a = true -> False).
  { intros a Ha Hv. by destruct (ck_exclusive _ K a Ha Hv). }
  assert (Hnd : is_dirty (entry s) = false).
  { destruct (is_dirty (entry s)) eqn:E; [|done]. by destruct (ck_dirty _ K E) as (_ & ? & _). }
  destruct K as [K1 K2 K3 K4 K5 K6 K7].
  destruct (_ && _ && _) eqn:Ev.
  - bool_case. unfold drop_checksum_op. cbn [checksum_ops_]. rewrite (proj2 (Z.eqb_neq _ _)) by (cbn; lia).
    apply manifest_inv; try done.
    + constructor; cbn; try done.
      * by rewrite length_replicate.
      * rewrite Hops. unfold in_progress_count. symmetry. apply zsum_zero.
        intros x [-> _]%elem_of_replicate. done.
      * intros a Ha Hv. by destruct (Hnv a Ha Hv).
      * intros Hd'. change (is_dirty (entry s) = true) in Hd'. congruence.
    + intros r. apply verification_idle; try done; [by rewrite Es; intros x ?%elem_of_nil|].
      by intros x [-> _]%elem_of_replicate.
  - unfold drop_checksum_op. cbn [checksum_ops_]. rewrite (proj2 (Z.eqb_neq _ _)) by (cbn; lia).
    apply manifest_inv; try done.
    + constructor; cbn; try done; [set_solver|by rewrite Hops|intros Hd'; change (is_dirty (entry s) = true) in Hd'; congruence].
    + intros r. apply verification_idle; try done; [by rewrite Es; intros x ?%elem_of_nil|].
      by intros x ?%elem_of_nil.
Qed.

Lemma checksum_manifest_unavailable_inv s :
  cache_inv s -> checksum_manifest_ (entry s) = kChecksumLoading ->
  cache_inv (with_entry s (checksum_manifest_unavailable (entry s))).
Proof.
  intros I Hm. pose proof (finish_checksum_manifest_inv s [] I Hm ltac:(set_solver)) as H.
  unfold finish_checksum_manifest in H. cbn in H. rewrite andb_false_r in H. exact H.
Qed.

(** ** Claiming a part *)

Record part_claimed (e : CacheEntry) (e' : CacheEntry) (c : CacheChecksumClaim) : Prop := {
  pc_part : 0 <= cc_part c < vsize (checksum_parts_ e);
  pc_range : cc_offset c = part_offset (part_at e (cc_part c)) /\
             cc_size c = part_size (part_at e (cc_part c)) /\ cc_epoch c = epoch_ e /\
             cc_value c = part_value (part_at e (cc_part c)) /\
             cc_algorithm c = part_algorithm (part_at e (cc_part c));
  pc_action : cc_action c = CACHE_CHECKSUM_VERIFY;
  pc_state : part_state e (cc_part c) = kPartUnverified;
  pc_clean : range_all_state (words_ e) (cc_offset c) (cc_size c) CACHE_PAGE_CLEAN = true;
  pc_free : pins_full (region_pins_ e) (zrange (first_region e (cc_offset c))
              (clipped_region e (cc_offset c) (cc_size c))) = false;
  pc_entry : e' = add_pins e (first_region e (cc_offset c)) (clipped_region e (cc_offset c) (cc_size c))
                    <| checksum_states_ := vset (checksum_states_ e) (cc_part c) kPartVerifying |>
                    <| checksum_ops_ := u64 (checksum_ops_ e + 1) |>;
}.

Lemma claim_checksum_loop_spec e offset last skip done rest e' r :
  checksum_parts_ e = done ++ rest ->
  claim_checksum_loop e offset last skip (vsize done) rest = (e', r) ->
  e' = e \/ exists c, r = Ok c /\ part_claimed e e' c.
Proof.
  revert done. induction rest as [|p rest IH]; intros done Hp; cbn [claim_checksum_loop];
    [by intros [= <- <-]; left|].
  assert (Hnext : claim_checksum_loop e offset last skip (vsize done + 1) rest = (e', r) ->
    e' = e \/ exists c, r = Ok c /\ part_claimed e e' c).
  { intros E. apply (IH (done ++ [p])); [by rewrite <- app_assoc|].
    unfold vsize in *. rewrite length_app. cbn. by rewrite Nat2Z.inj_add. }
  assert (Hat : part_at e (vsize done) = p).
  { unfold part_at, vget, vsize. rewrite Hp, Nat2Z.id, list_lookup_middle; done. }
  destruct (_ || _); [done|]. destruct (_ =? kPartBad); [by intros [= <- <-]; left|].
  destruct (part_in_progress _); [destruct skip; [done|by intros [= <- <-]; left]|].
  destruct (negb _ || _) eqn:Eg; [done|]. destruct (pins_full _ _) eqn:Ef; [by intros [= <- <-]; left|].
  apply orb_false_iff in Eg as [Es%negb_false_iff Ec%negb_false_iff]. bool_case.
  intros [= <- <-]. right. eexists. split; [reflexivity|].
  constructor; cbn; rewrite ?Hat; try done.
  rewrite Hp. unfold vsize. rewrite length_app. cbn. lia.
Qed.

Lemma claim_checksum_inv s offset length skip e' r :
  cache_inv s -> claim_checksum offset length skip (entry s) = (e', r) -> cache_inv (with_entry s e').
Proof.
  intros I. unfold claim_checksum.
  destruct (stale_ _); [by intros [= <- <-]; rewrite with_entry_id|].
  destruct (_ || _); [by intros [= <- <-]; rewrite with_entry_id|].
  destruct (is_exported _); [by intros [= <- <-]; rewrite with_entry_id|].
  destruct (_ <=? _); [by intros [= <- <-]; rewrite with_entry_id|].
  intros E. destruct (claim_checksum_loop_spec _ _ _ _ [] _ _ _ eq_refl E)
    as [->|(c & _ & Pc)]; [by rewrite with_entry_id|]. clear E.
  destruct Pc as [Hi (Ho & Hs & _) _ Hst Hcl Hfree ->].
  pose proof (inv_checks _ I) as K. pose proof (inv_geometry s I) as G.
  assert (Hi' : 0 <= cc_part c < vsize (checksum_states_ (entry s)))
    by (unfold vsize in *; by rewrite (ck_lengths _ K)).
  pose proof (parts_in_object s I _ (part_at_in s I _ Hi')) as Hin. rewrite <- Ho, <- Hs in Hin.
  destruct (range_regions _ _ _ G Hin) as (Hf & Hlr & Hle & Hc). rewrite Hc in *.
  destruct (bump_pins_spec (region_pins_ (entry s)) (first_region (entry s) (cc_offset c))
    (last_region (entry s) (cc_offset c) (cc_size c))) as (Hsz & _ & _); [lia|done|].
  pose proof (ops_bound s I) as Hops.
  set (e1 := _ <| checksum_ops_ := _ |>). split_inv.
  - by apply (claims_frame (entry s)); try apply I.
  - apply (pins_add (entry s) (held s) e1 _ (first_region (entry s) (cc_offset c))
      (last_region (entry s) (cc_offset c) (cc_size c))); try done; try lia; try apply I.
    + intros r' Hr. change (reply_pins e1 (held s) r') with (reply_pins (entry s) (held s) r').
      pose proof (verification_part s I e1 (cc_part c) kPartVerifying r' eq_refl eq_refl eq_refl eq_refl
        eq_refl Hi' Hr) as Ev.
      unfold part_pins in Ev. cbn [fst snd] in Ev. rewrite Hst in Ev. cbn in Ev.
      rewrite <- Ho, <- Hs in Ev. unfold range_touches in Ev. rewrite <- Hlr in Ev.
      unfold first_region in *. lia.
  - apply (checks_part s I e1 (cc_part c) kPartVerifying); try done. rewrite Hst.
    cbn. rewrite u64_small by lia. lia.
  - by apply (data_frame s); try apply I.
Qed.

(** ** Ending a part's verification *)

(** The claim names the range of its part, as [claim_checksum] filled it in. *)
Definition claims_part (e : CacheEntry) (c : CacheChecksumClaim) : Prop :=
  0 <= cc_part c < vsize (checksum_states_ e) -> cc_epoch c = epoch_ e ->
  cc_offset c = part_offset (part_at e (cc_part c)) /\
  cc_size c = part_size (part_at e (cc_part c)).

(** The part leaves its state of progress, its pins are released, and clean pages may have
    become missing. *)
Section EndPart.
Context (s : CacheState) (I : cache_inv s) (i v : Z) (ws : list Z).
#[local] Abbreviation e := (entry s).
#[local] Abbreviation p := (part_at e i).
#[local] Abbreviation first := (first_region e (part_offset p)).
#[local] Abbreviation last := (last_region e (part_offset p) (part_size p)).
Context (Hi : 0 <= i < vsize (checksum_states_ e))
  (Ho : part_in_progress (part_state e i) = true) (Hv : part_in_progress v = false)
  (Hw : vsize ws = vsize (words_ e))
  (Hpend : forall q, 0 <= q -> (page_state ws q = CACHE_PAGE_READ_PENDING <->
     state_at e q = CACHE_PAGE_READ_PENDING))
  (Hbad : forall q, 0 <= q -> state_at e q = CACHE_PAGE_BAD -> page_state ws q = CACHE_PAGE_BAD)
  (Hclean : forall q, 0 <= q -> page_state ws q = CACHE_PAGE_CLEAN -> state_at e q = CACHE_PAGE_CLEAN).
#[local] Abbreviation e1 := (set_part_state e i v <| words_ := ws |>).

Lemma part_regions : 0 <= first < last /\ last <= vsize (region_pins_ e) /\
  clipped_region e (part_offset p) (part_size p) = last /\
  forall r, part_pins e r (p, part_state e i) = in_range first last r.
Proof.
  destruct (range_regions _ _ _ (inv_geometry s I) (parts_in_object s I _ (part_at_in s I _ Hi)))
    as (Hf & Hlr & Hle & Hc).
  repeat (split; [done|]). intros r. unfold part_pins. cbn [fst snd]. rewrite Ho.
  unfold range_touches. by rewrite <- Hlr.
Qed.

Lemma part_pinned r : first <= r < last -> 0 < vget 0 (region_pins_ e) r.
Proof.
  intros Hr. destruct part_regions as (Hf & Hle & _ & Hpp).
  rewrite (pi_count _ _ (inv_pins _ I)) by lia.
  pose proof (verification_part s I (set_part_state e i v) i v r eq_refl eq_refl eq_refl eq_refl eq_refl
    Hi ltac:(lia)) as E.
  rewrite Hpp in E. unfold part_pins in E. cbn [fst snd] in E. rewrite Hv in E.
  unfold in_range in E. rewrite (proj2 (Z.leb_le _ _)), (proj2 (Z.ltb_lt _ _)) in E by lia. cbn [andb] in E.
  pose proof (reply_pins_nonneg e (held s) r).
  pose proof (verification_pins_nonneg (set_part_state e i v) r). lia.
Qed.

Lemma end_part_inv :
  cache_inv (with_entry s (drop_checksum_op (release_pins e1 first last).1)).
Proof.
  destruct part_regions as (Hf & Hle & _ & Hpp). pose proof (inv_geometry s I) as G.
  destruct (pins_release e (held s) first last G (inv_pins _ I)) as (pins & E & Hsz & HP);
    [lia|done|apply part_pinned|].
  unfold release_pins in *. change (region_pins_ e1) with (region_pins_ e).
  change (pinned_regions_ e1) with (pinned_regions_ e).
  destruct (drop_pins _ _ _) as [[pins' pinned'] b] eqn:Ed. cbn [fst].
  assert (pins' = pins) as -> by (apply (f_equal (fun x => region_pins_ x.1)) in E; done).
  apply (f_equal (fun x => pinned_regions_ x.1)) in E. cbn in E. subst pinned'.
  pose proof (ops_bound s I) as Hops. pose proof (ck_ops _ (inv_checks _ I)) as Hk.
  assert (1 <= in_progress_count (checksum_states_ e)).
  { apply (count_elem part_in_progress _ (part_state e i)); [|done]. unfold part_state.
    apply list_elem_of_lookup_2 with (Z.to_nat i). by apply vget_lookup. }
  unfold drop_checksum_op. cbn [checksum_ops_].
  destruct (Z.eqb_spec (checksum_ops_ e) 0) as [Hz|Hz]; [destruct (_ =? kChecksumLoading); lia|].
  rewrite (proj2 (Z.eqb_neq _ _)) by done.
  set (e2 := _ <| checksum_ops_ := _ |>). split_inv.
  - apply (claims_states e); try done; try apply I.
    + intros a q Ha Hq Hown. destruct (ci_owned _ (inv_claims _ I) a q Ha Hq Hown) as [Hs|Hs].
      * left. by apply Hpend.
      * right. by apply Hbad.
    + intros q Hq _ Hs. by apply Hpend.
  - apply HP; try done; [apply (pi_held _ _ (inv_pins _ I))|].
    intros r Hr. change (reply_pins e2 (held s) r) with (reply_pins e (held s) r).
    pose proof (verification_part s I e2 i v r eq_refl eq_refl eq_refl eq_refl eq_refl Hi Hr) as Ev.
    rewrite Hpp in Ev. unfold part_pins in Ev. cbn [fst snd] in Ev. rewrite Hv in Ev. lia.
  - apply (checks_part s I e2 i v); try done. rewrite Ho, Hv. cbn. lia.
  - destruct (inv_data _ I) as [D1 D2 D3 D4 D5 D6]. constructor; try done.
    intros q Hq Hqs Hst. apply D1; [done|done|by apply Hclean].
Qed.
End EndPart.

Lemma finish_checksum_inv s c valid :
  cache_inv s -> 0 <= cc_part c -> claims_part (entry s) c ->
  cache_inv (with_entry s (finish_checksum c valid (entry s))).
Proof.
  intros I Hc0 Hc. unfold finish_checksum.
  destruct (_ || _) eqn:E1; [by rewrite with_entry_id|].
  destruct (part_in_progress (part_state (entry s) (cc_part c))) eqn:E2; cbn [negb]; [|by rewrite with_entry_id].
  bool_case. strip_notify.
  assert (Hi : 0 <= cc_part c < vsize (checksum_states_ (entry s))) by lia.
  destruct (Hc Hi) as [Ho Hs]; [done|].
  destruct (part_regions s I _ Hi) as (_ & _ & Hcl & _); [done|].
  pose proof (parts_in_object s I _ (part_at_in s I _ Hi)) as (H1 & H2 & H3).
  pose proof (size_small _ (inv_geometry s I)).
  pose proof (end_part_inv s I (cc_part c) (if valid then kPartVerified else kPartBad)
    (words_ (entry s)) Hi) as H'.
  assert (El : Z.min (vsize (region_pins_ (entry s)))
    (u64 (u64 (cc_offset c + cc_size c) - 1) / block_size_ (entry s) + 1) =
    last_region (entry s) (cc_offset c) (cc_size c))
    by (rewrite Ho, Hs, (u64_small (_ + _)) by lia; exact Hcl).
  rewrite <- Ho, <- Hs in H'.
  lazymatch goal with |- context [release_pins ?x ?f ?l] =>
    replace l with (last_region (entry s) (cc_offset c) (cc_size c)) by (symmetry; exact El) end.
  apply H'; try done. by destruct valid.
Qed.

Lemma abandoned_pages s c q :
  cache_inv s -> in_object (entry s) (cc_offset c) (cc_size c) -> 0 <= q ->
  let last := Z.min (page_count_ (entry s))
    (u64 (Z.min (size_ (entry s)) (u64 (cc_offset c + cc_size c)) - 1) / kCacheBitmapUnit + 1) in
  let ws := (update_pages clean_to_missing (words_ (entry s))
               (zrange (cc_offset c / kCacheBitmapUnit) last)).1 in
  vsize ws = vsize (words_ (entry s)) /\
  (page_state ws q = state_at (entry s) q \/
   state_at (entry s) q = CACHE_PAGE_CLEAN /\ page_state ws q = CACHE_PAGE_MISSING).
Proof.
  intros I (H1 & H2 & H3) Hq last ws. pose proof (geo_words _ (inv_geometry s I)).
  split; [apply update_pages_size|].
  assert (0 <= cc_offset c / kCacheBitmapUnit) by (apply Z.div_pos; [lia|done]).
  unfold ws. rewrite update_pages_state by (unfold last; lia).
  destruct (_ && _); [|by left]. unfold clean_to_missing.
  change (page_state (words_ (entry s)) q) with (state_at (entry s) q).
  destruct (state_at (entry s) q) eqn:E; cbn; auto.
Qed.

Lemma abandon_checksum_inv s c :
  cache_inv s -> 0 <= cc_part c -> claims_part (entry s) c ->
  cache_inv (with_entry s (abandon_checksum c (entry s))).
Proof.
  intros I Hc0 Hc. unfold abandon_checksum.
  destruct (_ || _) eqn:E1; [by rewrite with_entry_id|].
  destruct (part_in_progress (part_state (entry s) (cc_part c))) eqn:E2; cbn [negb]; [|by rewrite with_entry_id].
  bool_case. strip_notify.
  assert (Hi : 0 <= cc_part c < vsize (checksum_states_ (entry s))) by lia.
  destruct (Hc Hi) as [Ho Hs]; [done|].
  destruct (part_regions s I _ Hi) as (_ & _ & Hcl & _); [done|].
  pose proof (parts_in_object s I _ (part_at_in s I _ Hi)) as Hin. rewrite <- Ho, <- Hs in Hin.
  pose proof (fun q => abandoned_pages s c q I Hin) as Hab. destruct Hin as (H1 & H2 & H3).
  pose proof (size_small _ (inv_geometry s I)). cbv zeta in Hab.
  set (ws := (update_pages _ _ _).1) in Hab.
  pose proof (end_part_inv s I (cc_part c) kPartUnverified ws Hi E2 eq_refl) as H'.
  assert (El : Z.min (vsize (region_pins_ (entry s)))
    (u64 (Z.min (size_ (entry s)) (u64 (cc_offset c + cc_size c)) - 1) / block_size_ (entry s) + 1) =
    last_region (entry s) (cc_offset c) (cc_size c)).
  { rewrite (u64_small (_ + _)), (Z.min_r (size_ (entry s))) by lia. rewrite <- Ho, <- Hs in Hcl. exact Hcl. }
  rewrite <- Ho, <- Hs in H'.
  lazymatch goal with |- context [release_pins ?x ?f ?l] =>
    replace l with (last_region (entry s) (cc_offset c) (cc_size c)) by (symmetry; exact El) end.
  apply H'.
  - apply (Hab 0). done.
  - intros q Hq. destruct (Hab q Hq) as [_ [->|[-> ->]]]; done.
  - intros q Hq Hb. destruct (Hab q Hq) as [_ [->|[? _]]]; [done|congruence].
  - intros q Hq. destruct (Hab q Hq) as [_ [->|[? ->]]]; done.
Qed.
