(* ===== verification/CacheEvict.v ===== *)
(** * CacheEntry: eviction

    [evict_one_region] is a second-chance clock over the regions of an entry.  Here is what one
    call frees, that it keeps the shared invariant, and that two calls free a region whenever
    there is one to free. *)

From S2P Require Import Prelude CacheBitmap CacheCapacity CacheEntry CacheEntryLemmas CacheEntryInv CacheSteps.

(** ** The pages of a region *)

Lemma set_pages_list ws l s q :
  (forall p, p ∈ l -> 0 <= p < 32 * vsize ws) -> 0 <= q ->
  page_state (set_pages ws l s) q = if bool_decide (q ∈ l) then s else page_state ws q.
Proof.
  revert ws. induction l as [|p l IH]; intros ws Hl Hq; [done|].
  pose proof (Hl p ltac:(set_solver)) as Hp.
  unfold set_pages in *. cbn [update_pages fst].
  assert (p / 32 < vsize ws) by (Z.to_euclidean_division_equations; lia).
  rewrite IH; [|intros x Hx; rewrite vsize_set_page_state; apply Hl; set_solver|done].
  rewrite page_state_set by lia.
  destruct (bool_decide_reflect (q ∈ l)), (bool_decide_reflect (q ∈ p :: l)), (Z.eqb_spec p q);
    try done; set_solver.
Qed.

Lemma evict_scan_spec ws pages ok clean :
  evict_scan ws pages = (ok, clean) ->
  (forall p, p ∈ clean -> p ∈ pages /\ page_state ws p = CACHE_PAGE_CLEAN) /\
  (ok = true <-> forall p, p ∈ pages ->
     page_state ws p = CACHE_PAGE_CLEAN \/ page_state ws p = CACHE_PAGE_MISSING) /\
  (ok = true -> forall p, p ∈ pages -> page_state ws p = CACHE_PAGE_CLEAN -> p ∈ clean).
Proof.
  revert ok clean. induction pages as [|p pages IH]; intros ok clean E; cbn in E.
  { simplify_eq. repeat split; try done; set_solver. }
  destruct (page_state ws p) eqn:Es; [| |destruct (evict_scan ws pages) as [ok' clean'] eqn:E'|].
  - destruct (IH _ _ E) as (H1 & H2 & H3). split; [set_solver|]. split.
    + rewrite H2. split; [|set_solver]. intros H x [->|Hx]%elem_of_cons; auto.
    + intros Ho x [->|Hx]%elem_of_cons; [congruence|auto].
  - simplify_eq. split; [set_solver|]. split; [|done]. split; [done|].
    intros H. destruct (H p ltac:(set_solver)); congruence.
  - simplify_eq. destruct (IH _ _ eq_refl) as (H1 & H2 & H3). split.
    { intros x [->|Hx]%elem_of_cons; [set_solver|]. destruct (H1 x Hx). set_solver. }
    split.
    + rewrite H2. split; [|set_solver]. intros H x [->|Hx]%elem_of_cons; auto.
    + intros Ho x [->|Hx]%elem_of_cons Hc; [set_solver|]. apply elem_of_cons. right. auto.
  - simplify_eq. split; [set_solver|]. split; [|done]. split; [done|].
    intros H. destruct (H p ltac:(set_solver)); congruence.
Qed.

Lemma elem_region_pages e r q :
  geometry e -> 0 <= r < vsize (region_pins_ e) ->
  q ∈ region_pages e r <->
  r * block_size_ e <= q * U < r * block_size_ e + block_size_ e /\ q * U < size_ e.
Proof.
  intros G Hr. pose proof (block_pos _ G). pose proof (size_small _ G). pose proof (geo_unit _ G) as Hu.
  pose proof (geo_block _ G) as Hb.
  pose proof (proj1 (region_in_object e G r ltac:(lia)) ltac:(lia)) as Hs.
  unfold region_pages. rewrite elem_of_zrange, u64_small by lia. rewrite unit_value in *.
  assert (block_size_ e = 32768 * (block_size_ e / 32768)) as Eb
    by (Z.to_euclidean_division_equations; lia).
  set (k := block_size_ e / 32768) in *. clearbody k. rewrite Eb in *. clear Eb Hu.
  replace (r * (32768 * k) / 32768) with (r * k)
    by (replace (r * (32768 * k)) with (r * k * 32768) by lia; by rewrite Z.div_mul).
  set (m := r * k) in *. replace (r * (32768 * k)) with (32768 * m) in * by lia.
  set (last := Z.min _ _). assert (last = Z.min (size_ e) (32768 * m + 32768 * k)) by done.
  clearbody last m. Z.to_euclidean_division_equations. lia.
Qed.

(** [q] is a page of region [r], that is of the bytes from [r * block_size] on. *)
Definition in_region (e : CacheEntry) (r q : Z) : bool :=
  (r * block_size_ e <=? q * U) && (q * U <? r * block_size_ e + block_size_ e) && (q * U <? size_ e).

Lemma in_region_pages e r q :
  geometry e -> 0 <= r < vsize (region_pins_ e) -> bool_decide (q ∈ region_pages e r) = in_region e r q.
Proof.
  intros G Hr. apply eq_true_iff_eq. unfold in_region.
  rewrite bool_decide_eq_true, (elem_region_pages e r q G Hr), !andb_true_iff, Z.leb_le, !Z.ltb_lt. tauto.
Qed.

(** What the clock may free: an unpinned region of clean and missing pages, not all missing. *)
Definition evictable_region (e : CacheEntry) (r : Z) : Prop :=
  vget 0 (region_pins_ e) r = 0 /\
  (forall q, in_region e r q = true -> state_at e q = CACHE_PAGE_CLEAN \/ state_at e q = CACHE_PAGE_MISSING) /\
  exists q, in_region e r q = true /\ state_at e q = CACHE_PAGE_CLEAN.

(** What the scan of the code finds. *)
Definition scan_finds (e : CacheEntry) (r : Z) : bool :=
  let '(ok, clean) := evict_scan (words_ e) (region_pages e r) in
  ok && (vget 0 (region_pins_ e) r =? 0) && negb (Nat.eqb (length clean) 0).

Lemma scan_finds_spec e r :
  geometry e -> 0 <= r < vsize (region_pins_ e) -> scan_finds e r = true <-> evictable_region e r.
Proof.
  intros G Hr. unfold scan_finds, evictable_region. destruct (evict_scan _ _) as [ok clean] eqn:E.
  destruct (evict_scan_spec _ _ _ _ E) as (H1 & H2 & H3).
  assert (Hin : forall q, in_region e r q = true <-> q ∈ region_pages e r).
  { intros q. by rewrite <- in_region_pages, bool_decide_eq_true. }
  setoid_rewrite Hin. rewrite !andb_true_iff, H2, Z.eqb_eq, negb_true_iff, Nat.eqb_neq. split.
  - intros ([Ha Hb] & Hc). split; [done|]. split; [done|].
    destruct clean as [|x l]; [done|]. exists x. apply H1. set_solver.
  - intros (Ha & Hb & x & Hx & Hc). split; [done|].
    pose proof (H3 (proj2 H2 Hb) x Hx Hc) as Hin'. destruct clean; [set_solver|done].
Qed.

(** ** One call *)

(** Region [r] was freed: its clean pages are missing and its bytes are punched. *)
Record evicted (e e' : CacheEntry) (r : Z) : Prop := {
  ev_region : 0 <= r < vsize (region_pins_ e);
  ev_evictable : evictable_region e r;
  ev_states : forall q, 0 <= q -> state_at e' q =
    if in_region e r q then CACHE_PAGE_MISSING else state_at e q;
  ev_size : vsize (words_ e') = vsize (words_ e);
  ev_punched : punched_ e' = (r * block_size_ e, block_size_ e) :: punched_ e;
  ev_core : same_core (e <| words_ := words_ e' |>) e';
}.

(** Nothing was freed; page states and what the invariant speaks about are the same. *)
Record spared (e e' : CacheEntry) : Prop := {
  sp_states : forall q, 0 <= q -> state_at e' q = state_at e q;
  sp_size : vsize (words_ e') = vsize (words_ e);
  sp_punched : punched_ e' = punched_ e;
  sp_core : same_core (e <| words_ := words_ e' |>) e';
}.

Lemma spared_refl e : spared e e.
Proof. split; try done. Qed.

Lemma notify_fields e : words_ (notify_waiters_locked e) = words_ e /\
  punched_ (notify_waiters_locked e) = punched_ e.
Proof. unfold notify_waiters_locked. destruct (wait_fd_ e); [destruct (_ =? _)|]; done. Qed.

Section EvictRegion.
Context (e : CacheEntry) (G : geometry e) (r : Z) (Hr : 0 <= r < vsize (region_pins_ e))
  (clean : list Z) (Es : evict_scan (words_ e) (region_pages e r) = (true, clean))
  (Hev : evictable_region e r).

Lemma clean_in_words p : p ∈ clean -> 0 <= p < 32 * vsize (words_ e).
Proof.
  intros Hp. destruct (evict_scan_spec _ _ _ _ Es) as (H1 & _). destruct (H1 p Hp) as [Hin _].
  apply (elem_region_pages e r p G Hr) in Hin as [Hin Hs]. pose proof (geo_words _ G).
  pose proof (block_pos _ G). rewrite unit_value in *. assert (0 <= p) by nia.
  pose proof (proj2 (page_in_object e G p ltac:(lia)) ltac:(rewrite unit_value; lia)). lia.
Qed.

Lemma freed_states q : 0 <= q ->
  page_state (set_pages (words_ e) clean CACHE_PAGE_MISSING) q =
  if in_region e r q then CACHE_PAGE_MISSING else state_at e q.
Proof.
  intros Hq. rewrite <- in_region_pages by done. destruct (evict_scan_spec _ _ _ _ Es) as (H1 & H2 & H3).
  rewrite set_pages_list by (done || apply clean_in_words). unfold state_at.
  destruct (bool_decide_reflect (q ∈ clean)) as [Hc|Hc],
    (bool_decide_reflect (q ∈ region_pages e r)) as [Hp|Hp]; try done.
  - destruct (H1 q Hc). done.
  - destruct (proj1 H2 eq_refl q Hp); [|done]. destruct Hc. by apply H3.
Qed.

Lemma restored_states q : 0 <= q ->
  page_state (set_pages (set_pages (words_ e) clean CACHE_PAGE_MISSING) clean CACHE_PAGE_CLEAN) q =
  state_at e q.
Proof.
  intros Hq. destruct (evict_scan_spec _ _ _ _ Es) as (H1 & _).
  rewrite set_pages_list; [|intros p Hp; rewrite set_pages_size; by apply clean_in_words|done].
  destruct (bool_decide_reflect (q ∈ clean)) as [Hc|Hc]; [by destruct (H1 q Hc)|].
  rewrite set_pages_list by (done || apply clean_in_words). by rewrite bool_decide_eq_false_2.
Qed.

Lemma evict_region_spec io e' freed :
  evict_region io r clean e = (e', freed) ->
  (spared e e' /\ freed = 0 /\ (blocks_before io = None \/ punch_ok io = false)) \/
  evicted e e' r.
Proof.
  unfold evict_region. destruct (blocks_before io) as [before|];
    [|intros [= <- <-]; left; split; [apply spared_refl|split; [done|by left]]].
  destruct (punch_ok io); cbn [negb].
  - set (e1 := add_punch _ _ _). intros E.
    assert (Hev1 : evicted e e1 r).
    { split; try done; [apply freed_states|apply set_pages_size]. }
    right. destruct (blocks_after io); simplify_eq; [|done].
    destruct Hev1 as [? ? ? ? ? ?]. destruct (notify_fields e1) as [Hw Hp].
    split; rewrite ?Hw, ?Hp; try done.
    + unfold state_at. by rewrite Hw.
    + apply (same_core_trans _ e1); [done|apply notify_core].
  - intros [= <- <-]. left. split; [|split; [done|by right]].
    split; try done; [apply restored_states|exact (eq_trans (set_pages_size _ _ _) (set_pages_size _ _ _))].
Qed.
End EvictRegion.

(** ** The clock *)

(** Moving the hand and clearing reference bits changes nothing that matters to the pages. *)
Record hand_moved (e e1 : CacheEntry) : Prop := {
  hm_words : words_ e1 = words_ e;
  hm_punched : punched_ e1 = punched_ e;
  hm_core : same_core e e1;
}.

Lemma hand_moved_spared e e1 e' : hand_moved e e1 -> spared e1 e' -> spared e e'.
Proof.
  intros [Hw Hp [S1 S2 S3 S4 S5 S6 S7 S8 S9 S10 S11 S12 S13 S14 S15 S16]] [H1 H2 H3 H4].
  split; try congruence.
  - intros q Hq. rewrite H1 by done. unfold state_at. by rewrite Hw.
  - apply (same_core_trans _ (e1 <| words_ := words_ e' |>)); [by constructor|done].
Qed.

Lemma hand_moved_region e e1 r : hand_moved e e1 ->
  in_region e1 r = in_region e r /\ scan_finds e1 r = scan_finds e r /\ (evictable_region e1 r <-> evictable_region e r).
Proof.
  intros [Hw Hp [S1 S2 S3 S4 S5 S6 S7 S8 S9 S10 S11 S12 S13 S14 S15 S16]].
  assert (Hr : region_pages e1 r = region_pages e r) by (unfold region_pages; by rewrite S4, S6).
  assert (Hi : in_region e1 r = in_region e r) by (unfold in_region; by rewrite S4, S6).
  unfold scan_finds, evictable_region, state_at. by rewrite Hi, Hr, Hw, S9.
Qed.

Lemma hand_moved_evicted e e1 e' r : hand_moved e e1 -> evicted e1 e' r -> evicted e e' r.
Proof.
  intros Hm [H1 H2 H3 H4 H5 H6]. destruct (hand_moved_region e e1 r Hm) as (Hr & _ & He).
  destruct Hm as [Hw Hp [S1 S2 S3 S4 S5 S6 S7 S8 S9 S10 S11 S12 S13 S14 S15 S16]].
  split; try congruence.
  - by apply He.
  - intros q Hq. rewrite H3 by done. rewrite Hr. unfold state_at. by rewrite Hw.
  - apply (same_core_trans _ (e1 <| words_ := words_ e' |>)); [by constructor|done].
Qed.

Lemma hand_moved_geometry e e1 : hand_moved e e1 -> geometry e -> geometry e1.
Proof.
  intros [Hw Hp [S1 S2 S3 S4 S5 S6 S7 S8 S9 S10 S11 S12 S13 S14 S15 S16]] G.
  by apply (geometry_frame e); rewrite ?Hw, ?S9.
Qed.

(** One turn: the hand passes over the region, or the region is freed. *)
Lemma evict_turn io scans e e' freed :
  geometry e -> 0 < vsize (referenced_ e) -> 0 <= clock_hand_ e ->
  evict_loop io (S scans) e = (e', freed) ->
  let r := clock_hand_ e mod vsize (referenced_ e) in
  (exists e1, hand_moved e e1 /\ clock_hand_ e1 = u64 (clock_hand_ e + 1) /\
     referenced_ e1 = vset (referenced_ e) r 0 /\
     (vget 0 (referenced_ e) r = 0 -> scan_finds e r = false) /\
     evict_loop io scans e1 = (e', freed)) \/
  vget 0 (referenced_ e) r = 0 /\
  (evicted e e' r \/ spared e e' /\ freed = 0 /\ (blocks_before io = None \/ punch_ok io = false)).
Proof.
  intros G Hn Hh. cbn [evict_loop]. set (r := clock_hand_ e mod vsize (referenced_ e)).
  pose proof (Z.mod_pos_bound (clock_hand_ e) (vsize (referenced_ e)) ltac:(lia)) as Hr. fold r in Hr.
  set (e0 := e <| clock_hand_ := u64 (clock_hand_ e + 1) |>).
  change (referenced_ e0) with (referenced_ e).
  destruct (Z.eqb_spec (vget 0 (referenced_ e) r) 0) as [Hz|Hz]; cbn [negb].
  - assert (Hm : hand_moved e e0) by (split; try done; by constructor).
    assert (Hid : referenced_ e0 = vset (referenced_ e) r 0).
    { unfold vset. rewrite list_insert_id; [done|]. rewrite <- Hz. by apply vget_lookup. }
    destruct (evict_scan (words_ e0) (region_pages e0 r)) as [ok clean] eqn:Es.
    assert (Hev : scan_finds e r = (ok && (vget 0 (region_pins_ e0) r =? 0) &&
      negb (Nat.eqb (length clean) 0))) by (change (scan_finds e r) with (scan_finds e0 r); unfold scan_finds; by rewrite Es).
    destruct (negb _ || _) eqn:Eg.
    + intros E. left. exists e0. repeat (split; [done|]). split; [|done]. intros _. rewrite Hev.
      destruct (ok && (vget 0 (region_pins_ e0) r =? 0)); cbn in Eg |- *; [by rewrite Eg|done].
    + apply orb_false_iff in Eg as [Eo%negb_false_iff Ec]. rewrite Eo, Ec in Hev.
      apply andb_true_iff in Eo as [-> Hp]. intros E. right. split; [done|].
      assert (Hreg : 0 <= r < vsize (region_pins_ e0)).
      { change (region_pins_ e0) with (region_pins_ e).
        rewrite (geo_pins _ G), <- (geo_referenced _ G). lia. }
      pose proof (hand_moved_geometry _ _ Hm G) as G0. apply (scan_finds_spec e0 r G0 Hreg) in Hev.
      destruct (evict_region_spec e0 G0 r Hreg clean Es Hev io e' freed E) as [[Hs Hio]|Hs].
      * right. split; [by apply (hand_moved_spared _ _ _ Hm)|done].
      * left. by apply (hand_moved_evicted _ _ _ _ Hm).
  - intros E. left. exists (e0 <| referenced_ := vset (referenced_ e) r 0 |>).
    split; [|by repeat split]. split; try done. constructor; try done. apply vsize_vset.
Qed.

Lemma evict_loop_spec io scans e e' freed :
  geometry e -> 0 < vsize (referenced_ e) -> 0 <= clock_hand_ e ->
  evict_loop io scans e = (e', freed) -> (spared e e' /\ freed = 0) \/ exists r, evicted e e' r.
Proof.
  revert e. induction scans as [|scans IH]; intros e G Hn Hh E.
  { simplify_eq/=. left. split; [apply spared_refl|done]. }
  destruct (evict_turn _ _ _ _ _ G Hn Hh E) as [(e1 & Hm & Hc & Hr & _ & E1)|(_ & [Hv|(Hs & Hz & _)])];
    [|eauto..].
  assert (Hn1 : 0 < vsize (referenced_ e1)) by (by rewrite Hr, vsize_vset).
  assert (Hh1 : 0 <= clock_hand_ e1) by (rewrite Hc; unfold u64; apply Z.mod_pos_bound; lia).
  destruct (IH e1 (hand_moved_geometry _ _ Hm G) Hn1 Hh1 E1) as [[Hs Hz]|[r Hv]].
  - left. split; [by apply (hand_moved_spared _ e1)|done].
  - right. exists r. by apply (hand_moved_evicted _ e1).
Qed.

(** ** Eviction keeps the invariant *)

(** Bytes may be lost where no clean page, fetch or verifier relies on them. *)
Lemma lose_inv s st :
  cache_inv s ->
  (forall q, 0 <= q -> q * U < size_ (entry s) -> state_at (entry s) q = CACHE_PAGE_CLEAN ->
     st q = stored s q) ->
  (forall a q, a ∈ active_claims_ (entry s) -> 0 <= q ->
     owns a q \/ verifying a = true /\ covers a q -> st q = stored s q) ->
  cache_inv (mkCacheState (entry s) (held s) (admitted s) (received s) (drained s) (cleared s) st).
Proof.
  intros [C P K [D1 D2 D3 D4 D5 D6] A] Hc Ha. split; try done.
  constructor; cbn; try done.
  - intros q Hq Hs Hst. rewrite Hc by done. by apply D1.
  - intros a q Hin Hq Ho Hp. rewrite (Ha a) by auto. by apply (D2 a).
  - intros a q Hin Hv Hq Hcv. rewrite (Ha a) by auto. by apply (D3 a).
  - intros a q Hin Hq Ho Hp. rewrite (Ha a) by auto. by apply (D4 a).
Qed.

Lemma hole_page e r q :
  q * U < size_ e ->
  in_hole q (r * block_size_ e, block_size_ e) = in_region e r q.
Proof.
  intros Hs. apply eq_true_iff_eq. unfold in_hole, in_region. cbn [fst snd]. lia.
Qed.

Lemma evictable_unowned s a r q :
  cache_inv s -> 0 <= r < vsize (region_pins_ (entry s)) -> evictable_region (entry s) r ->
  a ∈ active_claims_ (entry s) -> 0 <= q -> owns a q \/ verifying a = true /\ covers a q ->
  in_region (entry s) r q = false.
Proof.
  intros I Hr (Hp & Hst & _) Ha Hq Ho. apply not_true_iff_false. intros Hin.
  pose proof (inv_geometry s I) as G. pose proof (block_pos _ G).
  destruct Ho as [Ho|[Hv Hc]].
  - destruct (ci_owned _ (inv_claims _ I) a q Ha Hq Ho), (Hst q Hin); congruence.
  - unfold in_region in Hin. destruct Hc as [Hc1 Hc2].
    pose proof (verifying_pinned s a r I Ha Hv ltac:(lia) ltac:(lia) ltac:(lia) ltac:(lia)).
    destruct (unpinned_region s r I ltac:(lia) ltac:(lia) Hp). lia.
Qed.

Lemma evicted_inv s e' r :
  cache_inv s -> is_dirty (entry s) = false -> evicted (entry s) e' r -> cache_inv (after e' s).
Proof.
  intros I Hd [Hr Hev Hst Hsz Hpu Hco]. pose proof (inv_geometry s I) as G.
  assert (Hown : forall a q, a ∈ active_claims_ (entry s) -> 0 <= q ->
    owns a q \/ verifying a = true /\ covers a q -> in_region (entry s) r q = false).
  { intros a q Ha Hq Ho. by apply (evictable_unowned s a). }
  assert (I' : cache_inv (with_entry s e')).
  { apply states_inv; try done.
    - intros a q Ha Hq Ho. rewrite Hst, (Hown a) by (done || by left).
      by apply (ci_owned _ (inv_claims _ I) a).
    - intros q Hq _. rewrite Hst by done. by destruct (in_region _ _ _).
    - intros q Hq _. rewrite Hst by done. by destruct (in_region _ _ _).
    - by rewrite Hd. }
  unfold after. rewrite (holes_since_app _ _ [(r * block_size_ (entry s), block_size_ (entry s))]) by done.
  assert (Hkeep : forall q, q * U < size_ (entry s) ->
    in_region (entry s) r q = false ->
    punch_pages [(r * block_size_ (entry s), block_size_ (entry s))] (stored s) q = stored s q).
  { intros q Hs Hn. unfold punch_pages. cbn [existsb]. rewrite hole_page, Hn by done.
    cbn. apply andb_true_r. }
  assert (Hsize : size_ e' = size_ (entry s)) by apply (sc_size _ _ Hco).
  assert (Hcl : active_claims_ e' = active_claims_ (entry s)) by apply (sc_claims _ _ Hco).
  apply (lose_inv (with_entry s e')); [done| |]; cbn [entry stored].
  - intros q Hq Hs. rewrite Hsize in Hs. rewrite Hst by done. intros Hc. apply Hkeep; [done|].
    by destruct (in_region _ _ _).
  - intros a q Ha Hq Ho. rewrite Hcl in Ha. apply Hkeep; [|by apply (Hown a)].
    pose proof (inv_fetch s a I Ha) as F. pose proof (fok_inside _ _ F).
    assert (covers a q) as [_ ?] by (destruct Ho as [Ho|[_ Ho]]; [by apply (fetch_ok_covers (entry s))|done]).
    lia.
Qed.

Lemma spared_inv s e' : cache_inv s -> spared (entry s) e' -> cache_inv (after e' s).
Proof.
  intros I [Hst Hsz Hpu Hco]. apply (cache_inv_ext (with_entry s e')); try done.
  - intros q. cbn. by rewrite (holes_since_app _ _ []), punch_pages_nil by done.
  - apply states_inv; try done.
    + intros a q Ha Hq Ho. rewrite Hst by done. by apply (ci_owned _ (inv_claims _ I) a).
    + intros q Hq _. by rewrite Hst.
    + intros q Hq _. by rewrite Hst.
    + intros Hd q Hq Hs. rewrite Hst by done. by apply (ck_dirty _ (inv_checks _ I) Hd).
Qed.

Lemma evict_one_region_inv s config io :
  cache_inv s -> 0 <= clock_hand_ (entry s) ->
  cache_inv (after (evict_one_region config io (entry s)).1 s).
Proof.
  intros I Hh. pose proof (inv_geometry s I) as G.
  destruct (evict_one_region config io (entry s)) as [e' freed] eqn:E. cbn [fst].
  unfold evict_one_region in E. destruct (_ || _) eqn:Eg in E.
  { simplify_eq. apply spared_inv; [done|apply spared_refl]. }
  apply orb_false_iff in Eg as [[_ [Hd _]%has_flag_lor]%orb_false_iff Hn].
  assert (0 < vsize (referenced_ (entry s))).
  { unfold vsize. apply Nat.eqb_neq in Hn. lia. }
  destruct (evict_loop_spec _ _ _ _ _ G H Hh E) as [[Hs _]|[r Hv]]; [by apply spared_inv|].
  by apply (evicted_inv s e' r).
Qed.

(** ** The second chance *)

Definition io_succeeds (io : EvictIo) : Prop := blocks_before io <> None /\ punch_ok io = true.

(** A scan that frees nothing leaves all it passed without a reference bit, and had found
    nothing to free where the bit was already clear. *)
Lemma evict_loop_passes io scans e e' freed :
  geometry e -> io_succeeds io -> 0 < vsize (referenced_ e) -> 0 <= clock_hand_ e ->
  clock_hand_ e + Z.of_nat scans < 2 ^ 64 ->
  evict_loop io scans e = (e', freed) ->
  (exists r, evicted e e' r) \/
  hand_moved e e' /\ clock_hand_ e' = clock_hand_ e + Z.of_nat scans /\
  vsize (referenced_ e') = vsize (referenced_ e) /\
  (forall j, 0 <= j -> vget 0 (referenced_ e) j = 0 -> vget 0 (referenced_ e') j = 0) /\
  (forall i, clock_hand_ e <= i < clock_hand_ e + Z.of_nat scans ->
     let r := i mod vsize (referenced_ e) in
     vget 0 (referenced_ e') r = 0 /\
     (vget 0 (referenced_ e) r = 0 -> scan_finds e r = false)).
Proof.
  intros G Hio. revert e G. induction scans as [|scans IH]; intros e G Hn Hh Hb E.
  { simplify_eq/=. right. split; [split; by try constructor|]. repeat split; try lia; done. }
  destruct (evict_turn _ _ _ _ _ G Hn Hh E) as [(e1 & Hm & Hc & Hr & Hne & E1)|(_ & [Hv|(_ & _ & Hf)])].
  2: by left; eauto.
  2: { destruct Hio as [Hio1 Hio2]. destruct Hf as [Hf|Hf]; congruence. }
  set (n := vsize (referenced_ e)) in *. set (r := clock_hand_ e mod n) in *.
  assert (Hrb : 0 <= r < n) by (apply Z.mod_pos_bound; lia).
  rewrite u64_small in Hc by lia.
  assert (Hn1 : vsize (referenced_ e1) = n) by (by rewrite Hr, vsize_vset).
  assert (Hmono : forall j, 0 <= j -> vget 0 (referenced_ e) j = 0 -> vget 0 (referenced_ e1) j = 0).
  { intros j Hj Hz. rewrite Hr, vget_vset by done. by destruct (r =? j). }
  destruct (IH e1 (hand_moved_geometry _ _ Hm G)) as [[r' Hv]|(Hm' & Hc' & Hs' & Hj' & Hi')];
    [lia..|done| |].
  { left. exists r'. by apply (hand_moved_evicted _ e1). }
  right. split.
  { destruct Hm, Hm'. split; try congruence. by apply (same_core_trans _ e1). }
  split; [lia|]. split; [congruence|]. split; [auto|].
  intros i Hi r'. destruct (Z.eq_dec i (clock_hand_ e)) as [->|Hne'].
  - split; [|done]. apply Hj'; [lia|]. rewrite Hr, vget_vset by (fold n; lia).
    unfold r'. fold r. by rewrite Z.eqb_refl.
  - destruct (Hi' i ltac:(lia)) as [Hz Hev]. rewrite Hn1 in Hz, Hev. split; [done|].
    intros Hz'. rewrite <- (proj1 (proj2 (hand_moved_region e e1 r' Hm))). apply Hev. apply Hmono; [|done].
    apply Z.mod_pos_bound. lia.
Qed.

Lemma notify_flags e : stale_ (notify_waiters_locked e) = stale_ e /\
  eviction_disabled_ (notify_waiters_locked e) = eviction_disabled_ e /\
  dirty_or_exported (notify_waiters_locked e) = dirty_or_exported e.
Proof. unfold notify_waiters_locked. destruct (wait_fd_ e); [destruct (_ =? _)|]; done. Qed.

Lemma evict_loop_flags io scans e e' freed :
  evict_loop io scans e = (e', freed) ->
  stale_ e' = stale_ e /\ eviction_disabled_ e' = eviction_disabled_ e /\
  dirty_or_exported e' = dirty_or_exported e.
Proof.
  revert e. induction scans as [|scans IH]; intros e E; cbn [evict_loop] in E; [by simplify_eq|].
  destruct (negb (_ =? 0)) in E; [by apply IH in E|].
  destruct (evict_scan _ _) as [ok clean]. destruct (_ || _) in E; [by apply IH in E|].
  unfold evict_region in E. destruct (blocks_before io); [|by simplify_eq].
  destruct (negb _) in E; [by simplify_eq|]. destruct (blocks_after io); simplify_eq; [|done].
  lazymatch goal with |- stale_ (notify_waiters_locked ?x) = _ /\ _ => exact (notify_flags x) end.
Qed.

(** Every region is under the hand during a full turn. *)
Lemma full_turn h n r : 0 < n -> 0 <= r < n -> exists i, h <= i < h + n /\ i mod n = r.
Proof.
  intros Hn Hr. exists (h + (r - h) mod n). pose proof (Z.mod_pos_bound (r - h) n Hn).
  split; [lia|]. rewrite Z.add_mod_idemp_r by lia. replace (h + (r - h)) with r by lia.
  by apply Z.mod_small.
Qed.


Lemma evict_twice config io e r e1 freed1 e2 freed2 :
  geometry e -> io_succeeds io ->
  unlimited config = false -> stale_ e = false -> eviction_disabled_ e = false ->
  dirty_or_exported e = false ->
  0 <= clock_hand_ e -> clock_hand_ e + 2 * vsize (referenced_ e) < 2 ^ 64 ->
  0 <= r < vsize (region_pins_ e) -> evictable_region e r ->
  evict_one_region config io e = (e1, freed1) -> evict_one_region config io e1 = (e2, freed2) ->
  (exists r', evicted e e1 r') \/ (hand_moved e e1 /\ exists r', evicted e1 e2 r').
Proof.
  intros G Hio Hu Hst He Hd Hh Hb Hr Hev E1 E2.
  assert (Hn : vsize (referenced_ e) = vsize (region_pins_ e)) by (by rewrite (geo_referenced _ G), (geo_pins _ G)).
  unfold evict_one_region in E1. rewrite Hu, Hst, He, Hd in E1.
  destruct (Nat.eqb_spec (length (referenced_ e)) 0) as [|_]; [unfold vsize in *; lia|].
  change (evict_loop io (length (referenced_ e)) e = (e1, freed1)) in E1.
  destruct (evict_loop_passes io (length (referenced_ e)) e e1 freed1 G Hio ltac:(lia) Hh ltac:(unfold vsize in *; lia) E1)
    as [Hv|(Hm & Hc & Hs & _ & Hall)]; [by left|]. right. split; [done|].
  pose proof (hand_moved_geometry _ _ Hm G) as G1.
  fold (vsize (referenced_ e)) in Hc, Hall.
  unfold evict_one_region in E2. destruct (_ || _) eqn:Eg in E2.
  { exfalso. destruct (evict_loop_flags _ _ _ _ _ E1) as (F1 & F2 & F3).
    rewrite Hu, F1, F2, F3, Hst, He, Hd in Eg. cbn [orb] in Eg. apply Nat.eqb_eq in Eg.
    unfold vsize in *. lia. }
  destruct (evict_loop_passes io (length (referenced_ e1)) e1 e2 freed2 G1 Hio ltac:(lia) ltac:(lia) ltac:(unfold vsize in *; lia) E2)
    as [Hv|(_ & _ & _ & _ & Hall1)]; [done|]. exfalso.
  fold (vsize (referenced_ e1)) in Hall1.
  destruct (full_turn (clock_hand_ e) (vsize (referenced_ e)) r ltac:(lia) ltac:(lia)) as (i & Hi & Him).
  destruct (full_turn (clock_hand_ e1) (vsize (referenced_ e1)) r ltac:(lia) ltac:(lia)) as (j & Hj & Hjm).
  destruct (Hall i Hi) as [Hz _]. rewrite Him in Hz.
  destruct (Hall1 j Hj) as [_ Hne]. rewrite Hjm in Hne.
  apply (scan_finds_spec e r G Hr) in Hev. rewrite (proj1 (proj2 (hand_moved_region _ _ r Hm))), Hev in Hne. by specialize (Hne Hz).
Qed.

Lemma evict_one_region_spec config io e e' freed :
  geometry e -> 0 <= clock_hand_ e -> evict_one_region config io e = (e', freed) ->
  (spared e e' /\ freed = 0) \/
  (exists r, evicted e e' r) /\ unlimited config = false /\ stale_ e = false /\ eviction_disabled_ e = false /\
    dirty_or_exported e = false.
Proof.
  intros G Hh E. unfold evict_one_region in E. destruct (_ || _) eqn:Eg in E.
  { injection E as <- <-. left. split; [apply spared_refl|done]. }
  rewrite !orb_false_iff, Nat.eqb_neq in Eg. destruct Eg as [[[[? ?] ?] ?] Hn].
  destruct (evict_loop_spec _ _ _ _ _ G ltac:(unfold vsize; lia) Hh E) as [Hs|Hv]; [by left|by right].
Qed.

(** C23: Eviction frees only what it may, and is live.  Whatever the system calls return, a call of
    [evict_one_region] changes no page and frees nothing, or it makes exactly the pages of one
    region missing and punches its bytes; that region was unpinned, its pages were clean or missing
    and not all missing, and the entry could be evicted.  When there is such a region and the system
    calls succeed, then a region is freed by the first or by the second call: the first may only
    clear the reference bits. *)
Theorem evict_second_chance config e :
  geometry e -> 0 <= clock_hand_ e ->
  (forall io e' freed, evict_one_region config io e = (e', freed) ->
     (spared e e' /\ freed = 0) \/
     (exists r, evicted e e' r) /\ unlimited config = false /\ stale_ e = false /\ eviction_disabled_ e = false /\
       dirty_or_exported e = false) /\
  (forall io r e1 freed1 e2 freed2, io_succeeds io ->
     unlimited config = false -> stale_ e = false -> eviction_disabled_ e = false -> dirty_or_exported e = false ->
     clock_hand_ e + 2 * vsize (referenced_ e) < 2 ^ 64 ->
     0 <= r < vsize (region_pins_ e) -> evictable_region e r ->
     evict_one_region config io e = (e1, freed1) -> evict_one_region config io e1 = (e2, freed2) ->
     (exists r', evicted e e1 r') \/ (hand_moved e e1 /\ exists r', evicted e1 e2 r')).
Proof.
  intros G Hh. split; [intros io e' freed; by apply evict_one_region_spec|].
  intros io r e1 freed1 e2 freed2 Hio Hu Hs Hd He Hb Hr Hev. by apply evict_twice with r.
Qed.

(** Two regions; the first is clean and was referenced, the second is missing. *)
Definition clean_entry : CacheEntry :=
  touch 0 100 (make_CacheEntry sample_limits [] false (mkCacheMetaHeader 0 65536 0 65536 [] [] [] 65536 0)
                 [2] 1 65536 false).
Definition evict_io : EvictIo := {| blocks_before := Some 64; punch_ok := true; blocks_after := Some 0 |}.

Lemma clean_geometry : geometry clean_entry.
Proof. constructor; vm_compute; try done; split; congruence. Qed.

Lemma evict_second_chance_witness :
  let e1 := (evict_one_region sample_limits evict_io clean_entry).1 in
  let e2 := (evict_one_region sample_limits evict_io e1).1 in
  (exists r, evicted clean_entry e1 r) \/ (hand_moved clean_entry e1 /\ exists r, evicted e1 e2 r).
Proof.
  intros e1 e2. destruct (evict_second_chance sample_limits clean_entry clean_geometry ltac:(vm_compute; congruence)) as [_ H].
  apply (H evict_io 0 e1 (evict_one_region sample_limits evict_io clean_entry).2 e2 (evict_one_region sample_limits evict_io e1).2);
    try apply surjective_pairing; try done.
  apply scan_finds_spec; [exact clean_geometry|vm_compute; split; congruence|reflexivity].
Defined.
