(* ===== verification/CacheWrites.v ===== *)
(** * CacheEntry: construction and writes keep the invariant

    A writer's generation grows by appending: [prepare_write] extends the mapped bitmap,
    [publish_dirty] makes the appended bytes readable.  A generation that a new process opens
    starts with the pages its bitmap says are clean. *)

From S2P Require Import Prelude CacheBitmap CacheCapacity CacheEntry CacheEntryLemmas CacheEntryInv CacheSteps.

(** ** A longer bitmap *)

Lemma vget_grow {A} (d : A) l n i : vget d (l ++ replicate n d) i = vget d l i.
Proof.
  unfold vget. destruct (decide (Z.to_nat i < length l)%nat) as [Hi|Hi].
  - by rewrite lookup_app_l.
  - rewrite lookup_app_r by lia. rewrite (lookup_ge_None_2 l) by lia.
    destruct (replicate n d !! _) as [x|] eqn:E; [|done].
    apply lookup_replicate in E as [-> _]. done.
Qed.

Lemma page_state_grow ws n q : page_state (ws ++ replicate n 0) q = page_state ws q.
Proof. unfold page_state. by rewrite vget_grow. Qed.

Lemma words_inv s ws :
  cache_inv s -> vsize (words_ (entry s)) <= vsize ws ->
  (forall q, 0 <= q -> page_state ws q = state_at (entry s) q) ->
  cache_inv (with_entry s (entry s <| words_ := ws |>)).
Proof.
  intros [C P K D] Hw Hst. set (e' := entry s <| words_ := ws |>).
  assert (Hsa : forall q, 0 <= q -> state_at e' q = state_at (entry s) q) by (intros; by apply Hst).
  split_inv.
  - destruct C as [[G1 G2 G3 G4 G5 G6 G7] C2 C3 C4 C5 C6 C7 C8 C9 C10 C11]. constructor; try done.
    + constructor; try done. change (page_count_ e') with (page_count_ (entry s)).
      change (words_ e') with ws. lia.
    + intros a Ha. by apply (fetch_ok_frame (entry s)), C5.
    + intros a q Ha Hq. rewrite Hsa by done. by apply C6.
    + intros q Hq Hs. rewrite Hsa by done. by apply C7.
  - by apply (pins_frame (entry s)).
  - destruct K as [K1 K2 K3 K4 K5 K6 K7]. constructor; try done.
    intros Hd. destruct (K7 Hd) as (? & ? & ? & ? & Hc). repeat (split; [done|]).
    intros q Hq Hs. rewrite Hsa by done. by apply Hc.
  - destruct D as [D1 D2 D3 D4 D5 D6]. constructor; try done.
    intros q Hq Hs. cbn [entry]. rewrite Hsa by done. by apply D1.
Qed.

Lemma grow_mapping_inv s old wanted mremap e' r :
  cache_inv s -> grow_mapping old wanted mremap (entry s) = (e', r) -> cache_inv (with_entry s e').
Proof.
  intros I. unfold grow_mapping. destruct (negb _); [by intros [= <- <-]; rewrite with_entry_id|].
  destruct mremap; intros [= <- <-]; [by rewrite with_entry_id|].
  apply words_inv; [done| |intros; apply page_state_grow].
  unfold vsize. rewrite length_app. lia.
Qed.

(** ** Dirty generations *)

(** What a writer starts from: a generation nobody fetches or verifies, all of whose bytes are
    there.  [LocalCache::create_writer] makes it with size zero. *)
Record writable (e : CacheEntry) : Prop := {
  wr_claims : active_claims_ e = [];
  wr_manifest : checksum_manifest_ e <> kChecksumLoading /\ checksum_manifest_ e <> kChecksumAvailable;
  wr_end : size_ e = written_end (header_ e);
  wr_clean : forall q, 0 <= q -> q * U < size_ e -> state_at e q = CACHE_PAGE_CLEAN;
}.

Lemma begin_write_install_inv s epoch e' r :
  cache_inv s -> writable (entry s) -> begin_write_install epoch (entry s) = (e', r) ->
  cache_inv (with_entry s e').
Proof.
  intros I [W1 [W2 W3] W4 W5]. unfold begin_write_install.
  destruct (_ || _); [by intros [= <- <-]; rewrite with_entry_id|].
  destruct (dirty_fd_ _); intros [= <- <-]; [by rewrite with_entry_id|].
  destruct I as [C P K D A]. split_inv.
  - by apply (claims_frame (entry s)).
  - by apply (pins_frame (entry s)).
  - destruct K as [K1 K2 K3 K4 K5 K6 K7]. by constructor.
  - by apply (data_frame s).
Qed.

(** Clearing the dirty flag and changing members the invariant does not mention. *)
Lemma header_inv s e' :
  cache_inv s -> (is_dirty e' = true -> is_dirty (entry s) = true) ->
  written_end (header_ e') = written_end (header_ (entry s)) ->
  same_core (entry s <| header_ := header_ e' |>) e' -> cache_inv (with_entry s e').
Proof.
  intros [C P K D] Hd Hw [S1 S2 S3 S4 S5 S6 S7 S8 S9 S10 S11 S12 S13 S14 S15 S16].
  cbn in S3, S4, S5, S6, S7, S9, S10, S11, S12, S13, S14, S15, S16.
  split_inv.
  - apply (claims_frame (entry s)); try done. by rewrite S9.
  - apply (pins_frame (entry s)); try done.
    intros r. unfold verification_pins. by rewrite S4, S6, S10, S11, S12.
  - by apply (checks_frame (entry s)).
  - apply (data_frame s); try done. intros a r _ _ _. cbn [entry held].
    unfold reply_pins, range_touches. by rewrite S6.
Qed.

Lemma clear_dirty_flag h : has_flag (flags (clear_dirty h)) kCacheMetaDirty = false.
Proof.
  unfold has_flag, clear_dirty. apply negb_false_iff, Z.eqb_eq. cbn [flags field_set].
  change (Z.land (Z.land (flags h) (Z.lxor UINT32_MAX kCacheMetaDirty)) kCacheMetaDirty = 0).
  rewrite <- Z.land_assoc. change (Z.land (Z.lxor UINT32_MAX kCacheMetaDirty) kCacheMetaDirty) with 0.
  apply Z.land_0_r.
Qed.

Lemma discard_write_inv s : cache_inv s -> cache_inv (with_entry s (discard_write (entry s))).
Proof.
  intros I. apply header_inv; try done.
  intros Hd. exfalso. pose proof (clear_dirty_flag (header_ (entry s))) as Hc.
  change (has_flag (flags (clear_dirty (header_ (entry s)))) kCacheMetaDirty = true) in Hd. congruence.
Qed.

Lemma commit_write_inv s identity msync e' r :
  cache_inv s -> commit_write identity msync (entry s) = (e', r) -> cache_inv (with_entry s e').
Proof.
  intros I. unfold commit_write.
  destruct (_ || _); [by intros [= <- <-]; rewrite with_entry_id|].
  destruct (_ || _); [by intros [= <- <-]; rewrite with_entry_id|].
  pose proof (clear_dirty_flag (header_ (entry s))) as Hc.
  destruct msync; intros [= <- <-]; apply header_inv; try done; try (by constructor);
    intros Hd; exfalso;
    change (has_flag (flags (clear_dirty (header_ (entry s)))) kCacheMetaDirty = true) in Hd; congruence.
Qed.

Lemma set_upload_id_inv s config id e' r :
  cache_inv s -> set_upload_id config id (entry s) = (e', r) -> cache_inv (with_entry s e').
Proof.
  intros I. unfold set_upload_id. destruct (_ >? _); intros [= <- <-]; [by rewrite with_entry_id|].
  apply header_inv; try done.
Qed.

Lemma isolate_write_inv s : cache_inv s -> cache_inv (with_entry s (isolate_write (entry s))).
Proof.
  intros I. unfold isolate_write. destruct (negb _); [by rewrite with_entry_id|].
  apply header_inv; try done.
Qed.

(** ** Publishing appended bytes *)

(** The writer has stored the bytes of a range before it publishes them. *)
Definition note_written (offset last : Z) (s : CacheState) : CacheState :=
  s <| stored := fun q => stored s q || ((offset / U <=? q) && (q * U <? last)) |>.

Section Publish.
Context (s : CacheState) (I : cache_inv s) (offset len : Z).
#[local] Abbreviation e := (entry s).
#[local] Abbreviation new_end := (offset + len).
Context (Hd : is_dirty e = true) (Ho : offset = written_end (header_ e)) (Hl : 0 < len)
  (Hmax : new_end <= max_object) (Hmap : new_end <= 32 * U * vsize (words_ e)).

(** The entry after a successful publication, member by member. *)
Record grown (e' : CacheEntry) : Prop := {
  gr_size : size_ e' = new_end; gr_header : is_dirty e' = true;
  gr_written : written_end (header_ e') = new_end;
  gr_pages : page_count_ e' = units_of U new_end;
  gr_words : words_ e' = set_pages (words_ e) (zrange (offset / U) ((new_end - 1) / U + 1)) CACHE_PAGE_CLEAN;
  gr_referenced : vsize (referenced_ e') = units_of (block_size_ e) new_end;
  gr_pins : exists n, region_pins_ e' = region_pins_ e ++ replicate n 0 /\
    vsize (region_pins_ e) + Z.of_nat n = units_of (block_size_ e) new_end;
  gr_rest : epoch_ e' = epoch_ e /\ block_size_ e' = block_size_ e /\ active_claims_ e' = active_claims_ e /\
    checksum_parts_ e' = checksum_parts_ e /\ checksum_states_ e' = checksum_states_ e /\
    next_claim_id_ e' = next_claim_id_ e /\ checksum_ops_ e' = checksum_ops_ e /\
    pinned_regions_ e' = pinned_regions_ e /\ checksum_manifest_ e' = checksum_manifest_ e;
}.

Context (e' : CacheEntry) (He : publish_dirty offset len new_end e = (e', Ok tt)).

Lemma old_size : size_ e = offset /\ 0 <= offset.
Proof.
  destruct (ck_dirty _ (inv_checks _ I) Hd) as (_ & _ & _ & Hs & _).
  pose proof (geo_size _ (inv_geometry s I)). lia.
Qed.

Lemma units_of_pos unit n : 0 < n -> units_of unit n = (n - 1) / unit + 1.
Proof. intros. unfold units_of. by rewrite (proj2 (Z.eqb_neq _ _)) by lia. Qed.

Lemma publish_grown : grown e'.
Proof.
  destruct old_size as [Hs H0]. pose proof (inv_geometry s I) as G. pose proof (block_pos _ G) as Hb.
  unfold max_object in Hmax. unfold publish_dirty in He. destruct (_ || _) in He; [done|].
  destruct (_ || _) in He; [done|]. rewrite !(u64_small (new_end - 1)) in He by lia.
  pose proof (geo_referenced _ G) as Hr. pose proof (geo_pins _ G) as Hp. rewrite Hs in Hr, Hp.
  assert (Hmono : units_of (block_size_ e) offset <= (new_end - 1) / block_size_ e + 1).
  { unfold units_of. pose proof (Z.div_pos (new_end - 1) (block_size_ e) ltac:(lia) ltac:(lia)).
    destruct (offset =? 0); [lia|].
    pose proof (Z.div_le_mono (offset - 1) (new_end - 1) (block_size_ e) ltac:(lia) ltac:(lia)). lia. }
  assert (Hu : units_of (block_size_ e) new_end = (new_end - 1) / block_size_ e + 1)
    by (apply units_of_pos; lia).
  change (vsize (referenced_ (e <| page_count_ := (new_end - 1) / U + 1 |>)))
    with (vsize (referenced_ e)) in He.
  change (block_size_ (e <| page_count_ := (new_end - 1) / U + 1 |>)) with (block_size_ e) in He.
  destruct (Z.ltb_spec (vsize (referenced_ e)) ((new_end - 1) / block_size_ e + 1)) as [Hlt|Hge];
    apply (f_equal fst) in He; cbn [fst] in He; rewrite <- He.
  - constructor; try done; try (by rewrite units_of_pos by lia).
    + rewrite Hu. change (vsize (grow (referenced_ e) ((new_end - 1) / block_size_ e + 1) 0) =
        (new_end - 1) / block_size_ e + 1).
      unfold grow, vsize in *. rewrite length_app, length_replicate. lia.
    + exists (Z.to_nat ((new_end - 1) / block_size_ e + 1 - vsize (region_pins_ e))).
      split; [done|]. unfold vsize in *. lia.
  - constructor; try done; try (by rewrite units_of_pos by lia).
    + rewrite Hu. change (vsize (referenced_ e) = (new_end - 1) / block_size_ e + 1). lia.
    + exists 0%nat. split; [symmetry; apply app_nil_r|]. unfold vsize in *. lia.
Qed.

Lemma grown_geometry : geometry e'.
Proof.
  destruct publish_grown as [R1 R2 R3 R4 R5 R6 (n & R7 & R8) (R9 & R10 & _)].
  destruct (inv_geometry s I) as [G1 G2 G3 G4 G5 G6 G7]. destruct old_size as [Hs H0].
  constructor; rewrite ?R10, ?R1, ?R4, ?R6; try done; try lia.
  - rewrite R5, set_pages_size. rewrite units_of_pos by lia. rewrite unit_value in *.
    Z.to_euclidean_division_equations. lia.
  - rewrite R7. unfold vsize in *. rewrite length_app, length_replicate. lia.
Qed.

(** Bytes before the old end keep their state, the appended ones are clean. *)
Lemma grown_state q : 0 <= q -> q * U < new_end -> state_at e' q = CACHE_PAGE_CLEAN.
Proof.
  intros Hq Hn. destruct publish_grown as [_ _ _ _ R5 _ _ _]. destruct old_size as [Hs H0].
  unfold state_at. rewrite R5. rewrite set_pages_state; [|apply Z.div_pos; [lia|done]| |done].
  - destruct (_ && _) eqn:E; [done|].
    apply (ck_dirty _ (inv_checks _ I) Hd); [done|]. rewrite Hs.
    apply andb_false_iff in E as [E|E]; bool_case; rewrite unit_value in *;
      Z.to_euclidean_division_equations; lia.
  - rewrite unit_value in *. Z.to_euclidean_division_equations. lia.
Qed.

Lemma dirty_idle r : verification_pins e r = 0 /\ verification_pins e' r = 0.
Proof.
  destruct publish_grown as [_ _ _ _ _ _ _ (_ & _ & Rc & Rp & Rs & _)].
  destruct (ck_dirty _ (inv_checks _ I) Hd) as (Hc & _ & Hm & _ & _).
  pose proof (ck_absent _ (inv_checks _ I) Hm) as Hp.
  unfold verification_pins. by rewrite Rc, Rp, Rs, Hc, Hp.
Qed.

Lemma grown_pins : pins_inv e' (held s).
Proof.
  destruct publish_grown as [R1 _ _ _ _ _ (n & R7 & R8) (_ & R10 & _ & _ & _ & _ & _ & R16 & _)].
  destruct old_size as [Hs H0]. destruct (inv_pins _ I) as [Ph Pc Pb Pt].
  pose proof (inv_geometry s I) as G. pose proof (block_pos _ G).
  assert (Hget : forall r, vget 0 (region_pins_ e') r = vget 0 (region_pins_ e) r)
    by (intros r; rewrite R7; apply vget_grow).
  assert (Hrp : forall r, reply_pins e' (held s) r = reply_pins e (held s) r)
    by (intros r; unfold reply_pins, range_touches; by rewrite R10).
  constructor.
  - intros h Hh. destruct (Ph h Hh) as (? & ? & ?). unfold in_object. rewrite R1. lia.
  - intros r Hr. destruct (dirty_idle r) as [Hv Hv']. rewrite Hget, Hrp, Hv'.
    destruct (Z.lt_ge_cases r (vsize (region_pins_ e))) as [Hlt|Hge].
    + rewrite Pc, Hv by lia. lia.
    + rewrite vget_out by done. symmetry. rewrite Z.add_0_r. apply zsum_zero. intros h Hh.
      destruct (range_regions e h.1 h.2 G (Ph h Hh)) as (Hf & Hl' & Hle & _).
      unfold range_touches. rewrite <- Hl'. apply in_range_out. lia.
  - intros r Hr. rewrite Hget. destruct (Z.lt_ge_cases r (vsize (region_pins_ e))) as [Hlt|Hge].
    + apply Pb. lia.
    + by rewrite vget_out.
  - rewrite R16, Pt, R7, zsum_app. rewrite (zsum_zero id (replicate n 0)); [lia|].
    by intros x [-> _]%elem_of_replicate.
Qed.

Lemma publish_dirty_inv : cache_inv (note_written offset new_end (with_entry s e')).
Proof.
  destruct publish_grown as [R1 R2 R3 R4 R5 R6 _ (R9 & R10 & R11 & R12 & R13 & R14 & R15 & R16 & R17)].
  destruct (ck_dirty _ (inv_checks _ I) Hd) as (Hc & Hm1 & Hm2 & Hsz & Hcl).
  assert (Hc' : forall a, a ∈ active_claims_ e' -> False)
    by (intros a; rewrite R11, Hc; apply not_elem_of_nil).
  split_inv.
  - change (entry (note_written offset new_end (with_entry s e'))) with e'.
    pose proof (ci_next _ (inv_claims _ I)). constructor; try (intros; exfalso; by eapply Hc').
    + apply grown_geometry.
    + by rewrite R14.
    + rewrite R11, Hc. constructor.
    + intros q Hq Hs Hp. rewrite R1 in Hs. by rewrite grown_state in Hp.
  - apply grown_pins.
  - change (entry (note_written offset new_end (with_entry s e'))) with e'.
    destruct (inv_checks _ I) as [K1 K2 K3 K4 K5 K6 K7].
    constructor; rewrite ?R12, ?R13, ?R15, ?R17, ?R11, ?Hc; try done.
    intros _. repeat (split; [done|]). split; [by rewrite R1, R3|].
    intros q Hq Hs. rewrite R1 in Hs. by apply grown_state.
  - constructor; change (entry (note_written offset new_end (with_entry s e'))) with e';
      try (intros; exfalso; by eapply Hc').
    intros q Hq Hs _. rewrite R1 in Hs. cbn.
    destruct (Z.le_gt_cases (offset / U) q) as [Hge|Hlt].
    + rewrite (proj2 (Z.leb_le _ _)), (proj2 (Z.ltb_lt _ _)) by done. apply orb_true_r.
    + rewrite (di_clean _ (inv_data _ I)); [done|done| |apply Hcl; [done|]];
        destruct old_size; rewrite unit_value in *; Z.to_euclidean_division_equations; lia.
Qed.
End Publish.

(** ** Preparing a write *)

Lemma write_mapping_covers config last wanted :
  0 <= upload_part_size config -> 0 < last -> write_mapping_size config last = Ok wanted ->
  exists w, 0 <= w /\ wanted = kCacheMetaHeaderSize + w * 8 /\ last <= 32 * U * w.
Proof.
  intros Hu Hl. unfold write_mapping_size. destruct (_ || _) eqn:E; [done|]. bool_case.
  unfold cache_mapping_size, cache_bitmap_words.
  set (unit := upload_part_size config) in *. set (cap := (last + unit - 1) / unit * unit).
  assert (Hcap : last <= cap).
  { unfold cap. pose proof (Z.div_mod (last + unit - 1) unit ltac:(lia)).
    pose proof (Z.mod_pos_bound (last + unit - 1) unit ltac:(lia)). nia. }
  rewrite (proj2 (Z.eqb_neq cap 0)) by lia. destruct (_ >? SIZE_MAX); [done|]. cbn [rbind].
  destruct (_ >? _) in |- *; [done|]. intros <-%Ok_inj. eexists. split; [|split; [reflexivity|]];
    rewrite unit_value in *; clear -Hcap Hl; Z.to_euclidean_division_equations; lia.
Qed.

(** The bitmap only grows, with pages that are missing; page states stay. *)
Definition mapping_grown (e e' : CacheEntry) : Prop :=
  exists n, words_ e' = words_ e ++ replicate n 0.

Lemma mapping_grown_refl e : mapping_grown e e.
Proof. exists 0%nat. symmetry. apply app_nil_r. Qed.

Lemma ensure_write_capacity_spec config reserve `{!Reserves reserve} io last c e e' c' r :
  0 <= upload_part_size config -> 0 < page_size config -> 0 <= last -> capacity_ok c ->
  ensure_write_capacity config reserve io last c e = (e', c', r) ->
  capacity_ok c' /\ pending_reservations_ c' = pending_reservations_ c /\ mapping_grown e e' /\
  (r = Ok true -> last <= 32 * U * vsize (words_ e')) /\ r <> Ok false.
Proof.
  intros Hu Hp Hl Hc. unfold ensure_write_capacity. pose proof (mapping_grown_refl e) as Hrefl.
  destruct (Z.eqb_spec last 0) as [->|Hn].
  { intros [= <- <- <-]. repeat (split; [done|]). split; [|done]. intros _.
    pose proof (vsize_nonneg (words_ e)). rewrite unit_value. lia. }
  destruct (write_mapping_size config last) as [wanted|] eqn:Ew; [|intros [= <- <- <-]; auto with congruence].
  destruct (write_mapping_covers config last wanted Hu ltac:(lia) Ew) as (w & Hw0 & Hw & Hcov).
  unfold mapping_size_. destruct (Z.leb_spec wanted (kCacheMetaHeaderSize + vsize (words_ e) * 8)) as [Hle|Hgt].
  { intros [= <- <- <-]. repeat (split; [done|]). split; [|done]. intros _. rewrite unit_value in *. nia. }
  destruct (cache_round_up _ _) as [bytes|] eqn:Er; [|intros [= <- <- <-]; auto with congruence].
  assert (0 <= bytes) as Hb.
  { unfold cache_round_up in Er. destruct (_ || _) in Er; [done|]. injection Er as <-.
    apply Z.mul_nonneg_nonneg; [|lia]. apply Z.div_pos; lia. }
  destruct (reserve bytes c) as [c1 [[]|x]] eqn:E1.
  2, 3: intros [= <- <- <-]; destruct (refused_balanced reserve bytes c _ _ Hb Hc E1 eq_refl); auto with congruence.
  destruct (settle_allocation (grow_alloc io) bytes c1) as [c2 r2] eqn:E2.
  destruct (reserve_settle_balanced reserve _ bytes c c1 c2 r2 Hb Hc E1 E2) as [Hok Hpe].
  destruct r2 as [u|x]; [|intros [= <- <- <-]; auto with congruence].
  unfold grow_mapping. unfold mapping_size_. rewrite Z.eqb_refl. cbn [negb].
  destruct (mremap io); intros [= <- <- <-]; [auto with congruence|].
  split; [done|]. split; [done|]. split; [by eexists|]. split; [|done]. intros _.
  match goal with |- _ <= 32 * U * vsize (words_ ?x) =>
    change (words_ x) with (words_ e ++ replicate
      (Z.to_nat ((wanted - (kCacheMetaHeaderSize + vsize (words_ e) * 8)) / 8)) 0) end.
  unfold vsize in *. rewrite length_app, length_replicate. rewrite unit_value in *.
  replace (wanted - (kCacheMetaHeaderSize + Z.of_nat (length (words_ e)) * 8))
    with ((w - Z.of_nat (length (words_ e))) * 8) by lia.
  rewrite Z.div_mul by lia. lia.
Qed.

Lemma reserve_parts_spec config reserve `{!Reserves reserve} alloc parts c e e' c' r :
  0 < page_size config -> 0 < block_size config -> 0 <= upload_part_size config -> capacity_ok c ->
  reserve_parts config reserve alloc parts c e = (e', c', r) ->
  capacity_ok c' /\ pending_reservations_ c' = pending_reservations_ c /\
  words_ e' = words_ e /\ same_core e e'.
Proof.
  intros Hp Hb Hu. revert c e. induction parts as [|part parts IH]; intros c e Hc; cbn [reserve_parts].
  { intros [= <- <- <-]. repeat (split; [done|]). apply same_core_refl. }
  destruct (negb _); [by apply IH|].
  destruct (prepare_range _ _ _ _ _ _) as [c1 [[]|x]] eqn:E;
    destruct (prepare_range_pending config reserve _ 1 true c _ _ ltac:(lia) Hp Hb Hu Hc E) as [Hok Hpe].
  - intros E'. destruct (IH _ _ Hok E') as (H1 & H2 & H3 & H4). split; [done|]. split; [lia|].
    split; [done|]. eapply same_core_trans; [|exact H4]. by constructor.
  - intros [= <- <- <-]. repeat (split; [done|]). apply same_core_refl.
  - intros [= <- <- <-]. repeat (split; [done|]). apply same_core_refl.
Qed.

(** Preparing a write is balanced and sufficient.  Whatever the system calls answer, the
    pending reservations are afterwards what they were; no page changes its state; and when
    [prepare_write] returns, the bitmap is mapped up to the end of the range and the dirty
    marker exists, so that [publish_dirty] of the range stays inside the mapping. *)
Theorem prepare_write_sufficient config reserve `{!Reserves reserve} io offset length c e e' c' r :
  0 < page_size config -> 0 < block_size config -> 0 < upload_part_size config ->
  0 <= offset -> 0 <= length -> capacity_ok c ->
  prepare_write config reserve io offset length c e = (e', c', r) ->
  pending_reservations_ c' = pending_reservations_ c /\
  (forall q, state_at e' q = state_at e q) /\
  (r = Ok tt -> length = 0 \/
     offset + length <= 32 * U * vsize (words_ e') /\ dirty_fd_ e' = true).
Proof.
  intros Hp Hb Hu Ho Hl Hc. unfold prepare_write.
  destruct (Z.eqb_spec length 0); [intros [= <- <- <-]; auto|].
  destruct (is_exported e); [by intros [= <- <- <-]|].
  destruct (_ >? _); [by intros [= <- <- <-]|].
  destruct (ensure_write_capacity _ _ _ _ _ _) as [[e1 c1] r1] eqn:E1.
  destruct (ensure_write_capacity_spec config reserve (wio_grow io) (offset + length) c e e1 c1 r1 ltac:(lia) Hp ltac:(lia) Hc E1)
    as (Hc1 & Hp1 & [m Hn] & Hcov & Hnf).
  assert (Hs1 : forall q, state_at e1 q = state_at e q)
    by (intros q; unfold state_at; rewrite Hn; apply page_state_grow).
  destruct r1 as [b|x]; [|by intros [= <- <- <-]]. destruct b; [|done].
  set (e2 := if _ <=? _ then _ else _).
  assert (Hw2 : words_ e2 = words_ e1) by (unfold e2; by destruct (_ <=? _)).
  destruct (reserve_parts _ _ _ _ _ _) as [[e3 c3] r3] eqn:E3.
  destruct (reserve_parts_spec config reserve _ _ _ _ _ _ _ Hp Hb ltac:(lia) Hc1 E3)
    as (Hc3 & Hp3 & Hw3 & _).
  assert (Hs3 : forall q, state_at e3 q = state_at e q).
  { intros q. rewrite <- Hs1. unfold state_at. by rewrite Hw3, Hw2. }
  destruct r3 as [u|x]; [|intros [= <- <- <-]; split; [lia|done]].
  unfold begin_write, begin_write_check. destruct (stale_ e3) eqn:Es; [intros [= <- <- <-]; split; [lia|done]|].
  destruct (dirty_fd_ e3) eqn:Ed.
  { intros [= <- <- <-]. split; [lia|]. split; [done|]. intros _. right. split; [|done].
    rewrite Hw3, Hw2. by apply Hcov. }
  destruct (create_dirty_marker _ _ _ _) as [c4 [u4|x4]] eqn:E4;
    destruct (create_dirty_marker_balanced reserve _ _ _ _ _ Hc3 E4) as [Hc4 Hp4];
    [|intros [= <- <- <-]; split; [lia|done]].
  destruct (begin_write_install (epoch_ e3) e3) as [e5 r5] eqn:E5.
  unfold begin_write_install in E5. rewrite Ed, Es, Z.eqb_refl in E5. injection E5 as <- <-.
  intros [= <- <- <-]. split; [lia|]. split; [done|]. intros _. right. split; [|done].
  etransitivity; [by apply Hcov|]. rewrite <- Hw2, <- Hw3. done.
Qed.

(** ** Opening a generation *)

(** After the constructor has looked at the first [n] blocks. *)
Record recovered (e0 : CacheEntry) (n : Z) (ws : list Z) (holes : list (Z * Z)) : Prop := {
  rec_size : vsize ws = vsize (words_ e0);
  rec_states : forall q, 0 <= q -> page_state ws q =
    if q * U <? Z.min (size_ e0) (n * block_size_ e0)
    then settle CACHE_PAGE_MISSING (state_at e0 q) else state_at e0 q;
  rec_holes : forall h q, h ∈ holes -> 0 <= q -> q * U < size_ e0 -> in_hole q h = true ->
    page_state ws q = CACHE_PAGE_MISSING;
}.

Section Recover.
Context (e0 : CacheEntry) (G : geometry e0) (punch : bool).

Lemma recover_block_spec n ws holes :
  0 <= n < vsize (region_pins_ e0) -> recovered e0 n ws holes ->
  exists ws' holes',
    recover_block punch (e0 <| words_ := ws |> <| punched_ := holes |>) n =
      e0 <| words_ := ws' |> <| punched_ := holes' |> /\ recovered e0 (n + 1) ws' holes'.
Proof.
  intros Hn [R1 R2 R3]. set (e := e0 <| words_ := ws |> <| punched_ := holes |>).
  pose proof (block_pos _ G) as Hb. pose proof (geo_block _ G).
  pose proof (proj1 (region_in_object e0 G n ltac:(lia)) ltac:(lia)) as Hin.
  assert (Hblock : 0 <= n * block_size_ e0 < size_ e0) by nia.
  assert (Hmod : (n * block_size_ e0) mod block_size_ e0 = 0) by (apply Z.mod_mul; lia).
  assert (Ge : geometry e) by (by apply (geometry_frame e0)).
  unfold recover_block. change (block_size_ e) with (block_size_ e0). change (words_ e) with ws.
  destruct (update_pages (pending_to CACHE_PAGE_MISSING) ws (block_pages e (n * block_size_ e0)))
    as [ws' had] eqn:Eu.
  assert (Hst : forall q, 0 <= q -> page_state ws' q =
    if q * U <? Z.min (size_ e0) ((n + 1) * block_size_ e0)
    then settle CACHE_PAGE_MISSING (state_at e0 q) else state_at e0 q).
  { intros q Hq. pose proof (update_block_pages e Ge (pending_to CACHE_PAGE_MISSING) ws
      (n * block_size_ e0) q eq_refl Hblock Hmod Hq) as Hs. rewrite Eu in Hs. cbn [fst] in Hs. rewrite Hs.
    change (size_ e) with (size_ e0). change (block_size_ e) with (block_size_ e0).
    rewrite default_pending_to, R2 by done.
    destruct (Z.leb_spec (n * block_size_ e0) (q * U)),
      (Z.ltb_spec (q * U) (Z.min (size_ e0) (n * block_size_ e0 + block_size_ e0))),
      (Z.ltb_spec (q * U) (Z.min (size_ e0) (n * block_size_ e0))),
      (Z.ltb_spec (q * U) (Z.min (size_ e0) ((n + 1) * block_size_ e0))); cbn [andb]; try lia; try done. }
  assert (Hsz : vsize ws' = vsize (words_ e0)).
  { rewrite <- R1. pose proof (update_pages_size (pending_to CACHE_PAGE_MISSING) ws
      (block_pages e (n * block_size_ e0))) as Hs. by rewrite Eu in Hs. }
  assert (Hold : forall h q, h ∈ holes -> 0 <= q -> q * U < size_ e0 -> in_hole q h = true ->
    page_state ws' q = CACHE_PAGE_MISSING).
  { intros h q Hh Hq Hs Hi. pose proof (R3 h q Hh Hq Hs Hi) as Hm. rewrite R2 in Hm by done.
    rewrite Hst by done. destruct (Z.ltb_spec (q * U) (Z.min (size_ e0) (n * block_size_ e0))),
      (Z.ltb_spec (q * U) (Z.min (size_ e0) ((n + 1) * block_size_ e0))); try lia; try done.
    by rewrite Hm. }
  set (all := had && forallb _ _). destruct (punch && all && negb _) eqn:Ea.
  - exists ws', ((n * block_size_ e0, block_size_ e0) :: holes). split; [done|]. split; try done.
    intros h q [->|Hh]%elem_of_cons Hq Hs Hi; [|by apply (Hold h)].
    apply andb_true_iff in Ea as [[_ [_ Hall]%andb_true_iff]%andb_true_iff _].
    apply page_state_eqb_spec. rewrite forallb_forall in Hall. apply Hall.
    apply list_elem_of_In, (elem_block_pages e Ge); [done|done|].
    unfold in_hole in Hi. cbn [fst snd] in Hi. bool_case.
    change (size_ e) with (size_ e0). change (block_size_ e) with (block_size_ e0). lia.
  - exists ws', holes. split; [done|]. by split.
Qed.

Lemma recover_blocks_spec n :
  0 <= n <= vsize (region_pins_ e0) ->
  exists ws holes,
    fold_left (recover_block punch) (zrange 0 n) (e0 <| punched_ := [] |>) =
      e0 <| words_ := ws |> <| punched_ := holes |> /\ recovered e0 n ws holes.
Proof.
  intros [Hn Hle]. revert Hle. pattern n. apply natlike_ind; [| |done].
  - intros _. exists (words_ e0), []. rewrite zrange_nil by done. split; [done|]. split; try done.
    + intros q Hq. rewrite (proj2 (Z.ltb_ge _ _)) by (pose proof unit_value; lia). done.
    + intros h q Hh. by apply elem_of_nil in Hh.
  - intros x Hx IH Hle. destruct IH as (ws & holes & E & R); [lia|].
    rewrite <- Z.add_1_r. rewrite zrange_snoc, fold_left_app, E by lia. cbn [fold_left].
    apply recover_block_spec; [lia|done].
Qed.
End Recover.

(** What the constructor is given: a configuration that [LocalCache] accepts and a mapped
    bitmap for the whole object. *)
Record openable (config : CacheConfig) (words : list Z) (size : Z) : Prop := {
  op_block : 0 < block_size config <= 2 ^ 27 /\ block_size config mod U = 0;
  op_size : 0 <= size <= max_object;
  op_words : units_of U size <= 32 * vsize words;
}.

(** The state of the clients when a generation has just been opened; [file] tells which pages
    have their bytes in the data file that was found. *)
Definition opened (e : CacheEntry) (file : Z -> bool) : CacheState :=
  mkCacheState e [] [] (fun _ => 0) (fun _ => false) (fun _ => false) (punch_pages (punched_ e) file).

Section Open.
Context (config : CacheConfig) (key : bytes) (dirty_fd : bool) (header : CacheMetaHeader)
  (words : list Z) (epoch size : Z) (punch : bool) (O : openable config words size).
#[local] Abbreviation e := (make_CacheEntry config key dirty_fd header words epoch size punch).

(** Pending pages of the previous process are missing, the others as they were. *)
Lemma make_spec :
  exists ws holes, vsize ws = vsize words /\
    (forall q, 0 <= q -> q * U < size ->
       page_state ws q = settle CACHE_PAGE_MISSING (page_state words q)) /\
    (forall h q, h ∈ holes -> 0 <= q -> q * U < size -> in_hole q h = true ->
       page_state ws q = CACHE_PAGE_MISSING) /\
    e = {| key_ := key; header_ := header; words_ := ws; size_ := size; epoch_ := epoch;
           block_size_ := block_size config; page_count_ := units_of U size;
           dirty_fd_ := dirty_fd; wait_fd_ := None; waiters_ := 0;
           referenced_ := replicate (Z.to_nat (units_of (block_size config) size)) 0;
           region_pins_ := replicate (Z.to_nat (units_of (block_size config) size)) 0;
           active_claims_ := []; reserved_units_ := []; checksum_parts_ := [];
           checksum_states_ := []; next_claim_id_ := 1; clock_hand_ := 0; checksum_ops_ := 0;
           pinned_regions_ := 0; checksum_manifest_ := kChecksumUnknown;
           eviction_disabled_ := has_flag (flags header) kCacheMetaExported;
           detached_ := false; stale_ := false; punched_ := holes |}.
Proof.
  destruct O as [[Hb Hm] Hs Hw]. unfold make_CacheEntry.
  fold (units_of U size). fold (units_of (block_size config) size).
  lazymatch goal with |- context [fold_left _ _ ?x] => set (e0 := x) end.
  pose proof (units_of_nonneg (block_size config) size ltac:(lia) ltac:(lia)).
  assert (G : geometry e0).
  { constructor; try done; unfold vsize; cbn [e0 referenced_ region_pins_ block_size_ size_];
      rewrite length_replicate; lia. }
  assert (Hv : vsize (referenced_ e0) = units_of (block_size config) size)
    by apply (geo_referenced _ G).
  destruct (recover_blocks_spec e0 G punch (vsize (referenced_ e0))) as (ws & holes & E & [R1 R2 R3]).
  { rewrite (geo_pins _ G), (geo_referenced _ G). change (block_size_ e0) with (block_size config).
    change (size_ e0) with size. lia. }
  exists ws, holes. split; [done|]. split; [|split; [done|]].
  - intros q Hq Hqs. rewrite R2, (proj2 (Z.ltb_lt _ _)); [done| |done].
    change (size_ e0) with size. change (block_size_ e0) with (block_size config). rewrite Hv.
    apply Z.min_glb_lt; [done|]. assert (0 < size) by (rewrite unit_value in Hqs; lia). rewrite units_of_pos by lia.
    pose proof (Z.div_mod (size - 1) (block_size config) ltac:(lia)).
    pose proof (Z.mod_pos_bound (size - 1) (block_size config) ltac:(lia)). nia.
  - exact E.
Qed.

(** A newly opened generation satisfies the invariant if its bitmap tells the truth about the
    data file; a dirty one must have all its bytes. *)
Lemma opened_inv file :
  (forall q, 0 <= q -> q * U < size -> page_state words q = CACHE_PAGE_CLEAN -> file q = true) ->
  (has_flag (flags header) kCacheMetaDirty = true -> size = written_end header /\
     forall q, 0 <= q -> q * U < size -> page_state words q = CACHE_PAGE_CLEAN) ->
  cache_inv (opened e file).
Proof.
  intros Hf Hd. destruct make_spec as (ws & holes & Hsz & Hst & Hh & ->).
  destruct O as [[Hb Hm] Hs Hw].
  pose proof (units_of_nonneg (block_size config) size ltac:(lia) ltac:(lia)).
  set (e' := mkCacheEntry _ _ _ _ _ _ _ _ _ _ _ _ _ _ _ _ _ _ _ _ _ _ _ _ _).
  assert (Hclean : forall q, 0 <= q -> q * U < size -> page_state ws q = CACHE_PAGE_CLEAN ->
    page_state words q = CACHE_PAGE_CLEAN).
  { intros q Hq Hqs. rewrite Hst by done. unfold settle. by destruct (page_state words q). }
  assert (Hno : forall a, a ∈ active_claims_ e' -> False) by (intros a; apply not_elem_of_nil).
  assert (Hz : forall r, vget 0 (region_pins_ e') r = 0).
  { intros r. unfold vget. destruct (region_pins_ e' !! _) as [x|] eqn:E; [|done].
    by apply lookup_replicate in E as [-> _]. }
  change (opened e' file) with (mkCacheState e' [] [] (fun _ => 0) (fun _ => false) (fun _ => false) (punch_pages holes file)).
  split_inv.
  - constructor; try (by intros a; intros; destruct (Hno a)).
    + constructor; try done.
      * change (words_ e') with ws. by rewrite Hsz.
      * change (Z.of_nat (length (replicate (Z.to_nat (units_of (block_size config) size)) 0)) =
          units_of (block_size config) size). rewrite length_replicate. lia.
      * change (Z.of_nat (length (replicate (Z.to_nat (units_of (block_size config) size)) 0)) =
          units_of (block_size config) size). rewrite length_replicate. lia.
    + done.
    + constructor.
    + intros q Hq Hqs Hp. change (page_state ws q = CACHE_PAGE_READ_PENDING) in Hp.
      rewrite Hst in Hp by done. unfold settle in Hp. by destruct (page_state words q).
  - constructor.
    + intros h Hh'. by apply elem_of_nil in Hh'.
    + intros r Hr. by rewrite Hz.
    + intros r Hr. by rewrite Hz.
    + change (0 = zsum id (replicate (Z.to_nat (units_of (block_size config) size)) 0)).
      symmetry. apply zsum_zero. by intros x [-> _]%elem_of_replicate.
  - constructor; try done; try (by intros a; intros; destruct (Hno a)).
    + intros p Hp. by apply elem_of_nil in Hp.
    + intros Hdt. destruct (Hd Hdt) as [He Hall]. repeat (split; [done|]).
      intros q Hq Hqs. change (page_state ws q = CACHE_PAGE_CLEAN). by rewrite Hst, Hall by done.
  - constructor; try (by intros a; intros; destruct (Hno a)).
    intros q Hq Hqs Hc. apply punch_pages_true. split; [apply Hf; auto|].
    intros h Hin. destruct (in_hole q h) eqn:E; [|done].
    change (page_state ws q = CACHE_PAGE_CLEAN) in Hc. by rewrite (Hh h q) in Hc.
  - done.
Qed.
End Open.

(** A first write of a new generation. *)
Definition new_entry : CacheEntry :=
  make_CacheEntry sample_limits [] false (mkCacheMetaHeader 0 0 0 0 [] [] [] 65536 0) [] 1 0 false.
Definition write_io : WriteIo := {|
  wio_grow := {| grow_alloc := {| io_before := Ok 8; io_call := None; io_after := Ok 16 |}; mremap := None |};
  wio_parts := fun _ => {| io_before := Ok 0; io_call := None; io_after := Ok 128 |};
  wio_marker := {| marker_leaf := Ok tt; marker_open := None;
    marker_alloc := {| io_before := Ok 0; io_call := None; io_after := Ok 8 |} |} |}.

Lemma prepare_write_sufficient_witness :
  let reserve := reserve_capacity sample_limits (Ok sample_fs) [] in
  let '(e', c', r) := prepare_write sample_limits reserve write_io 0 100 (mkCapacity 0 8192) new_entry in
  pending_reservations_ c' = 0 /\ r = Ok tt /\ dirty_fd_ e' = true.
Proof.
  intros reserve.
  pose proof (reserve_capacity_reserves sample_limits (Ok sample_fs) [] sample_limited
    ltac:(intros x Hx; by apply elem_of_nil in Hx)) as R.
  destruct (prepare_write sample_limits reserve write_io 0 100 (mkCapacity 0 8192) new_entry)
    as [[e' c'] r] eqn:E.
  assert (Hok : r = Ok tt) by (vm_compute in E; by injection E as _ _ <-).
  assert (Hc : capacity_ok (mkCapacity 0 8192)) by (by repeat split).
  pose proof (prepare_write_sufficient sample_limits reserve write_io 0 100 (mkCapacity 0 8192) new_entry
    e' c' r ltac:(cbn; lia) ltac:(cbn; lia) ltac:(cbn; lia) ltac:(lia) ltac:(lia) Hc E) as (Hp & _ & Hr).
  split; [exact Hp|]. split; [exact Hok|]. destruct (Hr Hok) as [?|[_ ?]]; [discriminate|assumption].
Defined.
