(* ===== verification/CacheShared.v ===== *)
(** * CacheEntry shared by all its clients

    The operations of [CacheEntry] as one transition system: an operation is one critical
    section, [exec] runs it and keeps the books of the clients, and [allowed] says what a client
    may rely on when it calls it.  Theorems hold in every state that any interleaving of allowed
    operations reaches from a newly opened generation, or from a dirty one that is recovered. *)

From S2P Require Import Prelude CacheBitmap CacheCapacity CacheEntry CacheEntryLemmas CacheEntryInv.
From S2P Require Import CacheSteps CacheChecks CacheEvict CacheWrites.

(** ** Operations *)

Inductive CacheOp :=
  (* readers; [OpPin] is a handle that reads a recovered write *)
  | OpPinClean (offset length : Z)
  | OpPin (offset length : Z)
  | OpUnpin (admission : bool) (offset length : Z)
  | OpTouch (offset length : Z)
  | OpWait (eventfd : option Z) (offset length : Z)
  | OpChecksumWait (eventfd : option Z) (offset length : Z)
  | OpManifestWait (eventfd : option Z)
  | OpRetireWait (eventfd : option Z)
  | OpReadEvent
  | OpEndWait
  (* fetches *)
  | OpClaimFetch (offset length expansion : Z)
  | OpReceive (c : CacheFetchClaim) (n : Z)
  | OpPublish (c : CacheFetchClaim) (already length : Z) (final : bool)
  | OpFinish (c : CacheFetchClaim)
  | OpRollback (c : CacheFetchClaim)
  | OpMarkBad (c : CacheFetchClaim)
  | OpPinVerification (c : CacheFetchClaim)
  | OpBeginRetry (eventfd : option Z) (c : CacheFetchClaim)
  (* part checksums *)
  | OpBeginManifest (wait : bool)
  | OpFinishManifest (parts : list CacheChecksumPart)
  | OpManifestUnavailable
  | OpClaimChecksum (offset length : Z) (skip_in_progress : bool)
  | OpMismatch (c : CacheChecksumClaim)
  | OpBeginChecksumRetry (eventfd : option Z) (c : CacheChecksumClaim)
  | OpRewrite (c : CacheChecksumClaim) (offset length : Z)
  | OpFinishChecksum (c : CacheChecksumClaim) (valid : bool)
  | OpAbandonChecksum (c : CacheChecksumClaim)
  (* the cache *)
  | OpEvict (config : CacheConfig) (io : EvictIo)
  | OpRetire (may_block : bool)
  | OpDisableEviction
  | OpExport (config : CacheConfig) (verify : bool)
  (* the writer *)
  | OpGrowMapping (old_size wanted : Z) (mremap : option Z)
  | OpBeginWrite (epoch : Z)
  | OpPublishDirty (offset length : Z)
  | OpSetUploadId (config : CacheConfig) (id : bytes)
  | OpIsolate
  | OpDiscard
  | OpCommit (identity : CacheIdentity) (msync : option Z).

(** One reply less on a range. *)
Fixpoint drop_held (h : Z * Z) (l : list (Z * Z)) : list (Z * Z) :=
  match l with
  | [] => []
  | x :: rest => if bool_decide (x = h) then rest else x :: drop_held h rest
  end.

Definition hold_reply (h : Z * Z) (granted : bool) (l : list (Z * Z)) : list (Z * Z) :=
  if granted then h :: l else l.

Definition succeeded {A} (r : result A) : bool := match r with Ok _ => true | Throw _ => false end.

Definition with_held (s : CacheState) (e : CacheEntry) (h adm : list (Z * Z)) : CacheState :=
  mkCacheState e h adm (received s) (drained s) (cleared s) (stored s).

(** Whether the last [begin_checksum_retry] of the part said that its bytes may be written. *)
Definition note_part (c : CacheChecksumClaim) (ready : bool) (s : CacheState) : CacheState :=
  s <| cleared := update (cleared s) (cc_part c) ready |>.

Definition exec (op : CacheOp) (s : CacheState) : CacheState :=
  let e := entry s in
  match op with
  | OpPinClean o n => let '(e', r) := pin_clean o n e in
      with_held s e' (hold_reply (o, n) (granted r) (held s)) (hold_reply (o, n) (granted r) (admitted s))
  | OpPin o n => let '(e', r) := pin o n e in
      with_held s e' (hold_reply (o, n) (succeeded r) (held s))
        (hold_reply (o, n) (succeeded r && is_dirty e) (admitted s))
  | OpUnpin admission o n =>
      with_held s (unpin o n e) (drop_held (o, n) (held s))
        (if admission then drop_held (o, n) (admitted s) else admitted s)
  | OpTouch o n => with_entry s (touch o n e)
  | OpWait ev o n => with_entry s (begin_async_wait ev o n e).1
  | OpChecksumWait ev o n => with_entry s (begin_checksum_wait ev o n e).1
  | OpManifestWait ev => with_entry s (begin_manifest_wait ev e).1
  | OpRetireWait ev => with_entry s (begin_retire_wait ev e).1
  | OpReadEvent => with_entry s (default e (read_event e))
  | OpEndWait => with_entry s (default e (end_async_wait e))
  | OpClaimFetch o n x => let '(e', r) := claim_fetch o n x e in note_claim r (with_entry s e')
  | OpReceive c n =>
      match find_claim c (active_claims_ e) with Some a => receive a n s | None => s end
  | OpPublish c already n final => with_entry s (publish_clean c already n final e)
  | OpFinish c => after (finish_fetch c e) s
  | OpRollback c => with_entry s (rollback_fetch c e)
  | OpMarkBad c => with_entry s (mark_bad c e)
  | OpPinVerification c => with_entry s (pin_fetch_verification c e).1
  | OpBeginRetry ev c => let '(e', r) := begin_retry_wait ev c e in note_retry c r (with_entry s e')
  | OpBeginManifest wait => with_entry s (begin_checksum_manifest wait e).1
  | OpFinishManifest parts => with_entry s (finish_checksum_manifest parts e)
  | OpManifestUnavailable => with_entry s (checksum_manifest_unavailable e)
  | OpClaimChecksum o n skip => with_entry s (claim_checksum o n skip e).1
  | OpMismatch c => with_entry s (checksum_mismatch c e)
  | OpBeginChecksumRetry ev c =>
      let '(e', r) := begin_checksum_retry_wait ev c e in
      note_part c (match r with Ok false => true | _ => false end) (with_entry s e')
  | OpRewrite _ _ _ => s
  | OpFinishChecksum c valid => note_part c false (with_entry s (finish_checksum c valid e))
  | OpAbandonChecksum c => note_part c false (with_entry s (abandon_checksum c e))
  | OpEvict config io => after (evict_one_region config io e).1 s
  | OpRetire may_block => with_entry s (retire_generation may_block e).1
  | OpDisableEviction => with_entry s (disable_eviction e)
  | OpExport config verify => with_entry s (try_export config verify e).1
  | OpGrowMapping old wanted mremap => with_entry s (grow_mapping old wanted mremap e).1
  | OpBeginWrite epoch => with_entry s (begin_write_install epoch e).1
  | OpPublishDirty o n =>
      let '(e', r) := publish_dirty o n (o + n) e in
      match r with
      | Ok _ => note_written o (o + n) (with_entry s e')
      | Throw _ => s
      end
  | OpSetUploadId config id => with_entry s (set_upload_id config id e).1
  | OpIsolate => with_entry s (isolate_write e)
  | OpDiscard => with_entry s (discard_write e)
  | OpCommit identity msync => with_entry s (commit_write identity msync e).1
  end.

(** A fetch may store bytes once its retry, if it is one, has seen the replies drain. *)
Definition may_store (s : CacheState) (c : CacheFetchClaim) : Prop :=
  forall a, find_claim c (active_claims_ (entry s)) = Some a -> retrying a = true ->
    drained s (fetch_id a) = true.

(** What the callers guarantee.  Ranges lie in the object, a reply unpins what it pinned, a
    response stores no more than was asked for and is published only as far as it was stored,
    a part's claim is one that [claim_checksum] returned and its retry stores bytes of the part
    after [begin_checksum_retry] has returned, the manifest is ended by who began it, ids and
    the clock do not wrap around, and a writer appends what it has prepared. *)
Definition allowed (op : CacheOp) (s : CacheState) : Prop :=
  let e := entry s in
  match op with
  | OpPinClean o n => in_object e o n
  | OpPin o n => in_object e o n
  | OpUnpin true o n => (o, n) ∈ admitted s
  | OpUnpin false o n => (o, n) ∈ held s /\ admitted s ⊆+ drop_held (o, n) (held s)
  | OpClaimFetch o n x =>
      0 <= o /\ 0 <= n /\ 0 <= x /\ next_claim_id_ e + 1 < 2 ^ 64
  | OpReceive c n =>
      0 <= n /\ may_store s c /\
      forall a, find_claim c (active_claims_ e) = Some a ->
        received s (fetch_id a) + n <= fetch_length a
  | OpPublish c already n final =>
      0 <= n /\ (find_claim c (active_claims_ e) <> None -> n <= received s (claim_id c))
  | OpBeginManifest wait => is_dirty e = false
  | OpFinishManifest parts =>
      checksum_manifest_ e = kChecksumLoading /\ forall p, p ∈ parts -> 0 <= part_size p
  | OpManifestUnavailable => checksum_manifest_ e = kChecksumLoading
  | OpMismatch c => 0 <= cc_part c
  | OpBeginChecksumRetry _ c | OpFinishChecksum c _ | OpAbandonChecksum c => 0 <= cc_part c /\ claims_part e c
  | OpRewrite c o n =>
      cleared s (cc_part c) = true /\ cc_epoch c = epoch_ e /\ claims_part e c /\
      cc_offset c <= o /\ o + n <= cc_offset c + cc_size c
  | OpEvict _ _ => 0 <= clock_hand_ e
  | OpBeginWrite _ => writable e
  | OpPublishDirty o n =>
      0 < n /\ o + n <= max_object /\ o + n <= 32 * U * vsize (words_ e)
  | _ => True
  end.

Inductive cache_step (s : CacheState) : CacheState -> Prop :=
  | cache_step_exec op : allowed op s -> cache_step s (exec op s).

(** A state some interleaving reaches from a newly opened generation.  One that is dirty has been
    recovered: [publish_dirty] marks its pages before it moves the end of what is written. *)
Inductive initial : CacheState -> Prop :=
  | initial_opened config key dirty_fd header words epoch size punch file :
      openable config words size ->
      (forall q, 0 <= q -> q * U < size -> page_state words q = CACHE_PAGE_CLEAN -> file q = true) ->
      (has_flag (flags header) kCacheMetaDirty = true -> size = written_end header /\
         forall q, 0 <= q -> q * U < size -> page_state words q = CACHE_PAGE_CLEAN) ->
      initial (opened (make_CacheEntry config key dirty_fd header words epoch size punch) file).

Definition reachable (s : CacheState) : Prop := exists s0, initial s0 /\ rtc cache_step s0 s.

(** ** Every operation keeps the invariant *)

Lemma drop_held_split h l : h ∈ l -> exists l1 l2, l = l1 ++ h :: l2 /\ drop_held h l = l1 ++ l2.
Proof.
  induction l as [|x l IH]; intros Hin; [by apply elem_of_nil in Hin|]. cbn.
  destruct (bool_decide_reflect (x = h)) as [->|Hne]; [by exists [], l|].
  apply elem_of_cons in Hin as [->|Hin]; [done|]. destruct (IH Hin) as (l1 & l2 & -> & ->).
  by exists (x :: l1), l2.
Qed.

Lemma wait_core ev (b : bool) e :
  same_core e (if b then (e, Ok false) else register_waiter ev e).1.
Proof. destruct b; [apply same_core_refl|apply register_waiter_core]. Qed.

Lemma retire_core may_block e : same_core e (retire_generation may_block e).1.
Proof.
  unfold retire_generation. set (e1 := if stale_ e then e else _).
  assert (same_core e e1) as S.
  { unfold e1. destruct (stale_ e); [apply same_core_refl|].
    eapply same_core_trans; [|apply notify_core]. by constructor. }
  by destruct (quiescent e1).
Qed.

Lemma begin_retire_wait_core ev e : same_core e (begin_retire_wait ev e).1.
Proof.
  unfold begin_retire_wait. destruct (negb _); [apply same_core_refl|].
  destruct (quiescent e); [apply same_core_refl|apply register_waiter_core].
Qed.

Lemma touch_core o n e : same_core e (touch o n e).
Proof. unfold touch. destruct (_ || _); [apply same_core_refl|apply mark_referenced_core]. Qed.

Lemma read_event_core e : same_core e (default e (read_event e)).
Proof. unfold read_event. destruct (wait_fd_ e) as [n|]; [destruct (0 <? n)|]; cbn; by constructor. Qed.

Lemma end_async_wait_core e : same_core e (default e (end_async_wait e)).
Proof. unfold end_async_wait. destruct (_ =? 0); cbn; by constructor. Qed.

Lemma try_export_inv s config verify :
  cache_inv s -> cache_inv (with_entry s (try_export config verify (entry s)).1).
Proof.
  intros I. unfold try_export. destruct (_ || _) eqn:E; cbn [fst]; [by rewrite with_entry_id|].
  destruct (_ && _); cbn [fst]; [by rewrite with_entry_id|].
  apply header_inv; try done; destruct (negb (is_exported _)) eqn:Ex; try done.
  intros Hd. exfalso. bool_case.
  assert (Hnd : is_dirty (entry s) = false) by done.
  change (has_flag (Z.lor (flags (header_ (entry s))) kCacheMetaExported) kCacheMetaDirty = true) in Hd.
  unfold is_dirty, has_flag in *. rewrite Z.land_lor_distr_l in Hd.
  change (Z.land kCacheMetaExported kCacheMetaDirty) with 0 in Hd. rewrite Z.lor_0_r in Hd. congruence.
Qed.
#[local] Hint Resolve wait_core retire_core begin_retire_wait_core touch_core read_event_core
  end_async_wait_core : ngs3fs.
#[local] Hint Resolve finish_fetch_inv rollback_fetch_inv mark_bad_inv checksum_mismatch_inv
  checksum_manifest_unavailable_inv finish_checksum_manifest_inv finish_checksum_inv
  abandon_checksum_inv evict_one_region_inv isolate_write_inv discard_write_inv try_export_inv
  publish_clean_inv : ngs3fs.

Ltac run_pair :=
  lazymatch goal with
  | |- context [let '(_, _) := ?x in _] => let E := fresh "E" in destruct x as [e' r] eqn:E
  | |- context [with_entry _ (?x).1] => let E := fresh "E" in destruct x as [e' r] eqn:E; cbn [fst]
  end.

Lemma publish_dirty_guard offset length e e' u :
  publish_dirty offset length (offset + length) e = (e', Ok u) ->
  is_dirty e = true /\ offset = written_end (header_ e).
Proof.
  unfold publish_dirty. destruct (stale_ e || _) eqn:E1; [done|].
  destruct (negb (offset =? _) || _ || _) eqn:E2; [done|]. intros _. bool_case. done.
Qed.

Lemma drop_held_sub h l k : h ∈ l -> l ⊆+ k -> drop_held h l ⊆+ drop_held h k.
Proof.
  intros Hl Hs. destruct (drop_held_split h l Hl) as (l1 & l2 & -> & ->).
  destruct (drop_held_split h k) as (k1 & k2 & -> & ->); [by apply (elem_of_submseteq _ _ _ Hl)|].
  rewrite <- !Permutation_middle in Hs. by apply (submseteq_app_inv_l _ _ [h]) in Hs.
Qed.

Lemma drop_held_less h l : h ∈ l -> drop_held h l ⊆+ l.
Proof.
  intros Hl. destruct (drop_held_split h l Hl) as (l1 & l2 & -> & ->). rewrite <- Permutation_middle.
  by apply submseteq_cons.
Qed.

Lemma note_part_inv c ready s : cache_inv s -> cache_inv (note_part c ready s).
Proof. by apply cache_inv_ext. Qed.

Lemma unpinned_inv s admission offset length :
  cache_inv s -> allowed (OpUnpin admission offset length) s -> cache_inv (exec (OpUnpin admission offset length) s).
Proof.
  intros I A. pose proof (inv_admitted _ I) as Hs. cbn [exec allowed] in *.
  assert (Hin : (offset, length) ∈ held s).
  { destruct admission; [|by destruct A]. by apply (elem_of_submseteq _ _ _ A). }
  assert (Hadm : (if admission then drop_held (offset, length) (admitted s) else admitted s) ⊆+
                 drop_held (offset, length) (held s)) by (destruct admission; [by apply drop_held_sub|by destruct A]).
  destruct (drop_held_split _ _ Hin) as (l1 & l2 & Hl & Ed). rewrite Ed in *.
  apply (unpin_inv s); try done. destruct admission; [by apply drop_held_less|done].
Qed.

Lemma exec_inv op s : cache_inv s -> allowed op s -> cache_inv (exec op s).
Proof.
  intros I A. destruct op; cbn [exec allowed] in *;
    try solve [destruct_and?; eauto with ngs3fs | apply with_entry_frame; eauto with ngs3fs];
    try run_pair.
  - pose proof (pin_clean_inv s offset length e' r I A E) as H. by destruct r as [[]|].
  - pose proof (pin_inv s offset length e' r I A E) as H. by destruct r as [[]|].
  - by apply unpinned_inv.
  - destruct A as (? & ? & ? & ?). by apply (claim_fetch_inv s offset length expansion).
  - destruct (find_claim c _) as [a|] eqn:Ef; [|done]. destruct A as (Hn & _ & Hle).
    apply (receive_inv s c); auto.
  - by apply (pin_fetch_verification_inv s c e' r).
  - by apply (begin_retry_wait_inv s eventfd).
  - by apply (begin_checksum_manifest_inv s wait e' r).
  - by apply (claim_checksum_inv s offset length skip_in_progress e' r).
  - destruct A as [? _]. by apply note_part_inv, (begin_checksum_retry_wait_inv s eventfd c e' r).
  - destruct A as [? ?]. by apply note_part_inv, finish_checksum_inv.
  - destruct A as [? ?]. by apply note_part_inv, abandon_checksum_inv.
  - by apply with_entry_frame.
  - by apply (grow_mapping_inv s old_size wanted mremap e' r).
  - by apply (begin_write_install_inv s epoch e' r).
  - destruct r as [[]|]; [|done]. destruct A as (Hn & Hm & Hw).
    destruct (publish_dirty_guard _ _ _ _ _ E) as [Hd Ho]. by apply publish_dirty_inv.
  - by apply (set_upload_id_inv s config id e' r).
  - by apply (commit_write_inv s identity msync e' r).
Qed.

Lemma steps_inv s s' : cache_inv s -> rtc cache_step s s' -> cache_inv s'.
Proof.
  intros I Hs. revert I. induction Hs as [|x y z [op A] _ IH]; [done|]. intros I. by apply IH, exec_inv.
Qed.

Lemma cache_reachable_inv s : reachable s -> cache_inv s.
Proof.
  intros (s0 & [config key dirty_fd header words epoch size punch file Ho Hf Hd] & Hs).
  refine (steps_inv _ _ _ Hs). by apply opened_inv.
Qed.

(** ** What readers, fetches and verifiers rely on *)



(** The pin counters are exact.  In every reachable state the counter of a region is the
    number of replies in flight that touch it plus the number of verifications that hold it,
    it never overflows its 32 bits, and the total is the sum of the counters, so that
    retirement and export, which wait for the total to reach zero, wait for exactly those. *)
Theorem region_pins_exact s r :
  reachable s -> 0 <= r < vsize (region_pins_ (entry s)) ->
  vget 0 (region_pins_ (entry s)) r =
    reply_pins (entry s) (held s) r + verification_pins (entry s) r /\
  vget 0 (region_pins_ (entry s)) r <= UINT32_MAX /\
  pinned_regions_ (entry s) = zsum id (region_pins_ (entry s)).
Proof.
  intros R%cache_reachable_inv Hr. destruct (inv_pins _ R) as [_ P1 P2 P3]. auto.
Qed.

(** ** Concrete runs *)

Fixpoint run (ops : list CacheOp) (s : CacheState) : CacheState :=
  match ops with [] => s | op :: rest => run rest (exec op s) end.

Fixpoint allowed_run (ops : list CacheOp) (s : CacheState) : Prop :=
  match ops with [] => True | op :: rest => allowed op s /\ allowed_run rest (exec op s) end.

Lemma run_steps ops s : allowed_run ops s -> rtc cache_step s (run ops s).
Proof.
  revert s. induction ops as [|op ops IH]; intros s; cbn; [done|]. intros [A R].
  eapply rtc_l; [by apply cache_step_exec|]. by apply IH.
Qed.

(** An object of two blocks, nothing of which is cached yet. *)
Definition sample_header : CacheMetaHeader := mkCacheMetaHeader 0 65536 0 65536 [] [] [] 65536 0.
Definition sample_state : CacheState :=
  opened (make_CacheEntry sample_limits [] false sample_header [0] 1 65536 false) (fun _ => false).
Definition sample_claim : CacheFetchClaim :=
  {| claim_offset := 0; claim_epoch := 1; claim_id := 1; claim_length := 32768 |}.

Lemma sample_reachable ops : allowed_run ops sample_state -> reachable (run ops sample_state).
Proof.
  intros A. exists sample_state. split; [|by apply run_steps].
  apply (initial_opened sample_limits [] false sample_header [0] 1 65536 false (fun _ => false)).
  - by repeat split.
  - intros q Hq Hs. rewrite unit_value in Hs. assert (q = 0 \/ q = 1) as [->| ->] by lia; done.
  - done.
Qed.

(** The first block is fetched, published, and pinned by a reply. *)
Definition fetch_ops : list CacheOp :=
  [OpClaimFetch 0 100 0; OpReceive sample_claim 32768; OpPublish sample_claim 0 32768 true;
   OpPinClean 0 100].

(** Its verification fails while the reply is in flight, the retry waits for the reply, and
    the generation is retired meanwhile. *)
Definition retry_ops : list CacheOp :=
  fetch_ops ++ [OpPinVerification sample_claim; OpBeginRetry None sample_claim; OpRetire true].

Ltac check_claim :=
  intros ?a Ha; vm_compute in Ha; injection Ha as <-; vm_compute; congruence.

Lemma retry_ops_allowed : allowed_run retry_ops sample_state.
Proof.
  repeat split; try (vm_compute; congruence); try check_claim.
Qed.



Lemma region_pins_exact_witness :
  let e := entry (run retry_ops sample_state) in
  vget 0 (region_pins_ e) 0 = 2 /\ reply_pins e [(0, 100)] 0 + verification_pins e 0 = 2.
Proof.
  intros e. split; [vm_compute; done|].
  transitivity (vget 0 (region_pins_ e) 0); [|vm_compute; done]. symmetry.
  apply (region_pins_exact (run retry_ops sample_state) 0).
  - apply sample_reachable, retry_ops_allowed.
  - vm_compute. split; congruence.
Defined.
