(* ===== verification/CacheReplies.v ===== *)
(** * CacheEntry: the retry of a part spares the replies

    A part whose checksum is wrong is fetched again and stored over the old bytes, once
    [begin_checksum_retry] has seen the pins on its blocks go.  From then on no reply of the part
    is admitted until its verification ends. *)

From S2P Require Import Prelude CacheBitmap CacheCapacity CacheEntry CacheEntryLemmas CacheEntryInv.
From S2P Require Import CacheSteps CacheChecks CacheEvict CacheWrites CacheShared.

(** ** Parts that block a range *)

Definition apart (offset length : Z) (p : CacheChecksumPart) : Prop :=
  offset + length <= part_offset p \/ part_offset p + part_size p <= offset.

Lemma parts_valid_after size offset parts p :
  parts_valid size offset parts = true -> (forall p, p ∈ parts -> 0 <= part_size p) ->
  p ∈ parts -> offset <= part_offset p /\ part_offset p + part_size p <= size.
Proof.
  revert offset. induction parts as [|x parts IH]; intros offset Hv Hs Hp; [by apply elem_of_nil in Hp|].
  cbn in Hv. destruct (_ || _) eqn:E in Hv; [done|]. bool_case.
  pose proof (Hs x ltac:(set_solver)). apply elem_of_cons in Hp as [->|Hp]; [lia|].
  specialize (IH _ Hv ltac:(set_solver) Hp). lia.
Qed.

Lemma blocked_loop_nonzero last blocked parts : blocked <> 0 -> blocked_loop last blocked parts <> 0.
Proof.
  revert blocked. induction parts as [|[p st] parts IH]; intros blocked Hb; cbn; [done|].
  destruct (_ <? _); [|done]. destruct (_ =? kPartBad); [done|]. apply IH.
  destruct (Z.eqb_spec st kPartRetrying) as [->|]; done.
Qed.

Lemma blocked_loop_zero size offset last parts states i p :
  parts_valid size offset parts = true -> (forall p, p ∈ parts -> 0 <= part_size p) ->
  blocked_loop last 0 (combine parts states) = 0 ->
  parts !! i = Some p -> states !! i = Some kPartRetrying -> last <= part_offset p.
Proof.
  revert offset states i. induction parts as [|x parts IH]; intros offset [|st states] i Hv Hs Hb Hp Hst; try done.
  cbn in Hb. destruct (Z.ltb_spec (part_offset x) last) as [Hl|Hl].
  - destruct (st =? kPartBad); [done|]. destruct (Z.eqb_spec st kPartRetrying) as [->|Hne].
    { by apply blocked_loop_nonzero in Hb. }
    destruct i as [|i]; [by injection Hst as ->|]. cbn in Hv. destruct (_ || _) in Hv; [done|].
    eapply (IH _ states i); [exact Hv|set_solver|done..].
  - apply list_elem_of_lookup_2 in Hp. cbn in Hv. destruct (_ || _) eqn:E in Hv; [done|]. bool_case.
    pose proof (Hs x ltac:(set_solver)). apply elem_of_cons in Hp as [->|Hp]; [done|].
    destruct (parts_valid_after _ _ _ p Hv ltac:(set_solver) Hp). lia.
Qed.

Lemma blocked_zero size offset begin last parts states i p :
  0 <= offset -> size < 2 ^ 64 ->
  parts_valid size offset parts = true -> (forall p, p ∈ parts -> 0 <= part_size p) ->
  blocked_loop last 0 (parts_from begin (combine parts states)) = 0 ->
  parts !! i = Some p -> states !! i = Some kPartRetrying ->
  last <= part_offset p \/ part_offset p + part_size p <= begin.
Proof.
  revert offset states i. induction parts as [|x parts IH]; intros offset [|st states] i Ho Hsz Hv Hs Hb Hp Hst; try done.
  cbn [combine parts_from] in Hb. pose proof (Hs x ltac:(set_solver)) as Hx.
  destruct (parts_valid_after _ _ _ x Hv Hs ltac:(set_solver)) as [Hx1 Hx2].
  destruct (Z.leb_spec (part_end x) begin) as [Hl|Hl].
  - unfold part_end in Hl. rewrite u64_small in Hl by lia.
    destruct i as [|i]; [injection Hp as <-; by right|]. cbn in Hv. destruct (_ || _) eqn:E in Hv; [done|]. bool_case.
    eapply (IH _ states i); [| |exact Hv|set_solver|done..]; lia.
  - left. by eapply (blocked_loop_zero _ _ _ (x :: parts) (st :: states)).
Qed.

(** ** The invariant *)

Definition parts_spared (s : CacheState) : Prop :=
  forall i, cleared s i = true ->
    0 <= i < vsize (checksum_states_ (entry s)) /\ part_state (entry s) i = kPartRetrying /\
    forall h, h ∈ admitted s -> apart h.1 h.2 (part_at (entry s) i).

(** An entry with the same parts. *)
Definition same_parts (e e' : CacheEntry) : Prop :=
  checksum_parts_ e' = checksum_parts_ e /\ checksum_states_ e' = checksum_states_ e.

Lemma core_parts e e' : same_core e e' -> same_parts e e'.
Proof. intros []. by split. Qed.

Lemma same_parts_trans e1 e2 e3 : same_parts e1 e2 -> same_parts e2 e3 -> same_parts e1 e3.
Proof. intros [] []. split; congruence. Qed.

Lemma spared_frame s s' :
  same_parts (entry s) (entry s') -> (forall h, h ∈ admitted s' -> h ∈ admitted s) ->
  (forall i, cleared s' i = true -> cleared s i = true) -> parts_spared s -> parts_spared s'.
Proof.
  intros [Hp Hst] Ha Hc H i Hi. destruct (H i (Hc i Hi)) as (? & ? & Hh).
  unfold part_state, part_at in *. rewrite Hp, Hst. split; [done|]. split; [done|]. intros h Hin. by apply Hh, Ha.
Qed.

(** A part that is not cleared changes its state. *)
Lemma spared_state s s' j v :
  checksum_parts_ (entry s') = checksum_parts_ (entry s) ->
  checksum_states_ (entry s') = vset (checksum_states_ (entry s)) j v ->
  admitted s' = admitted s -> 0 <= j < vsize (checksum_states_ (entry s)) ->
  (forall i, cleared s' i = true -> cleared s i = true /\ i <> j) -> parts_spared s -> parts_spared s'.
Proof.
  intros Hp Hst Ha Hj Hc H i Hi. destruct (Hc i Hi) as [Hi' Hne]. destruct (H i Hi') as (? & ? & Hh).
  unfold part_state, part_at in *. rewrite Hp, Hst, Ha, vsize_vset, vget_vset by lia. by rewrite (proj2 (Z.eqb_neq j i)) by done.
Qed.

(** ** Operations that leave the parts alone *)

Lemma notify_parts e : same_parts e (notify_waiters_locked e).
Proof. apply core_parts, notify_core. Qed.

Lemma release_pins_parts e first last : same_parts e (release_pins e first last).1.
Proof. unfold release_pins. by destruct (drop_pins _ _ _) as [[? ?] ?]. Qed.

Lemma end_fetch_parts c e : same_parts e (end_fetch_locked c e).1.
Proof.
  unfold end_fetch_locked. destruct (find_claim _ _) as [a|]; [|done]. destruct (verifying a); [|done].
  apply (release_pins_parts e).
Qed.

Lemma finish_loop_parts fuel c block e : same_parts e (finish_loop fuel c block e).
Proof.
  revert block e. induction fuel as [|fuel IH]; intros block e; [done|]. cbn [finish_loop].
  destruct (_ <? _); [|done]. destruct (update_pages _ _ _) as [words incomplete].
  destruct incomplete; (destruct (_ >? _); [done|]); by eapply same_parts_trans; [|apply IH].
Qed.

Lemma finish_fetch_parts c e : same_parts e (finish_fetch c e).
Proof.
  unfold finish_fetch. eapply same_parts_trans; [|apply notify_parts]. destruct (find_claim _ _); [|done].
  eapply same_parts_trans; [apply finish_loop_parts|apply end_fetch_parts].
Qed.

Lemma rollback_fetch_parts c e : same_parts e (rollback_fetch c e).
Proof.
  unfold rollback_fetch. destruct (find_claim _ _); [|done]. eapply same_parts_trans; [|apply notify_parts].
  by eapply same_parts_trans; [|apply end_fetch_parts].
Qed.

Lemma mark_bad_parts c e : same_parts e (mark_bad c e).
Proof.
  unfold mark_bad. eapply same_parts_trans; [|apply notify_parts].
  destruct (find_claim _ _); [|done]. by destruct (stale_ e).
Qed.

Lemma claim_fetch_parts offset length expansion e : same_parts e (claim_fetch offset length expansion e).1.
Proof.
  unfold claim_fetch. destruct (stale_ e); [done|]. destruct (_ || _); [done|]. destruct (first_missing _ _); [|done].
  destruct (_ <=? _); [done|]. unfold install_claim. by destruct (fresh_id e).
Qed.

Lemma publish_clean_parts c already length final e : same_parts e (publish_clean c already length final e).
Proof.
  unfold publish_clean. destruct (find_claim _ _); [|done]. destruct (_ || _); [done|].
  destruct (publish_loop _ _ _ _ _ _ _ _ _) as [[ws d] changed]. destruct changed; [|done].
  by eapply same_parts_trans; [|apply notify_parts].
Qed.

Lemma pin_fetch_verification_parts c e : same_parts e (pin_fetch_verification c e).1.
Proof. unfold pin_fetch_verification. by repeat case_match. Qed.

Lemma begin_retry_wait_parts ev c e : same_parts e (begin_retry_wait ev c e).1.
Proof.
  unfold begin_retry_wait, begin_retry_locked. destruct (find_claim _ _) as [a|]; [|done].
  destruct (stale_ e); [done|]. destruct (negb _); [done|].
  lazymatch goal with |- context [retry_pins_ready_locked ?x _ _] => set (e1 := x) end.
  assert (same_parts e e1).
  { unfold e1. destruct (retrying a); [done|]. by eapply same_parts_trans; [|apply notify_parts]. }
  destruct (retry_pins_ready_locked _ _ _); [done|].
  eapply same_parts_trans; [done|]. apply core_parts, register_waiter_core.
Qed.

Lemma evict_loop_parts io scans e : same_parts e (evict_loop io scans e).1.
Proof.
  revert e. induction scans as [|scans IH]; intros e; [done|]. cbn [evict_loop].
  destruct (negb _); [by eapply same_parts_trans; [|apply IH]|]. destruct (evict_scan _ _) as [ok clean].
  destruct (_ || _); [by eapply same_parts_trans; [|apply IH]|]. unfold evict_region.
  destruct (blocks_before io); [|done]. destruct (negb _); [done|]. destruct (blocks_after io); [|done].
  by eapply same_parts_trans; [|apply notify_parts].
Qed.

Lemma evict_one_region_parts config io e : same_parts e (evict_one_region config io e).1.
Proof. unfold evict_one_region. destruct (_ || _); [done|apply evict_loop_parts]. Qed.

Lemma unpin_parts offset length e : same_parts e (unpin offset length e).
Proof.
  unfold unpin. destruct (_ =? 0); [done|].
  pose proof (release_pins_parts e (first_region e offset) (clipped_region e offset length)) as H.
  destruct (release_pins _ _ _) as [e1 b]. cbn in H. destruct b; [|done].
  eapply same_parts_trans; [exact H|apply notify_parts].
Qed.

Lemma pin_parts offset length e : same_parts e (pin offset length e).1.
Proof. unfold pin. by repeat case_match. Qed.

Lemma try_export_parts config verify e : same_parts e (try_export config verify e).1.
Proof. unfold try_export. by repeat case_match. Qed.

Lemma begin_manifest_parts wait e : same_parts e (begin_checksum_manifest wait e).1.
Proof. unfold begin_checksum_manifest. by repeat case_match. Qed.

Lemma grow_mapping_parts old wanted mremap e : same_parts e (grow_mapping old wanted mremap e).1.
Proof. unfold grow_mapping. by repeat case_match. Qed.

Lemma begin_write_parts epoch e : same_parts e (begin_write_install epoch e).1.
Proof. unfold begin_write_install. by repeat case_match. Qed.

Lemma publish_dirty_parts offset length last e : same_parts e (publish_dirty offset length last e).1.
Proof. unfold publish_dirty. by repeat case_match. Qed.

Lemma set_upload_id_parts config id e : same_parts e (set_upload_id config id e).1.
Proof. unfold set_upload_id. by repeat case_match. Qed.

Lemma isolate_write_parts e : same_parts e (isolate_write e).
Proof. unfold isolate_write. by repeat case_match. Qed.

Lemma commit_write_parts identity msync e : same_parts e (commit_write identity msync e).1.
Proof. unfold commit_write. by repeat case_match. Qed.

(** ** Admission and retry *)

Definition in_bytes (x : Z) (range : Z * Z) : Prop := range.1 <= x < range.1 + range.2.

Lemma reply_touches e hs h x :
  0 < block_size_ e -> h ∈ hs -> in_bytes x h -> 0 < reply_pins e hs (x / block_size_ e).
Proof.
  intros Hb Hh [Hx1 Hx2]. apply (Z.lt_le_trans 0 1); [done|].
  transitivity (range_touches e h.1 h.2 (x / block_size_ e)).
  - unfold range_touches, in_range.
    pose proof (Z.div_le_mono h.1 x (block_size_ e) ltac:(lia) Hx1).
    pose proof (Z.div_le_mono x (h.1 + h.2 - 1) (block_size_ e) ltac:(lia) ltac:(lia)).
    by rewrite (proj2 (Z.leb_le _ _)), (proj2 (Z.ltb_lt _ _)) by lia.
  - apply (zsum_elem (fun h => range_touches e h.1 h.2 (x / block_size_ e))); [|done].
    intros. apply in_range_nonneg.
Qed.

Section Spared.
Context (s : CacheState) (I : cache_inv s).
#[local] Abbreviation e := (entry s).

Lemma admitted_held h : h ∈ admitted s -> h ∈ held s.
Proof. intros Hh. by apply (elem_of_submseteq _ _ _ Hh), inv_admitted. Qed.

(** What [pin_clean] admits is apart from the parts that are retried. *)
Lemma pin_clean_apart offset length e' i :
  in_object e offset length -> pin_clean offset length e = (e', Ok true) ->
  0 <= i < vsize (checksum_states_ e) -> part_state e i = kPartRetrying ->
  apart offset length (part_at e i).
Proof.
  intros Hin E Hi Hst. destruct Hin as (H1 & H2 & H3). unfold pin_clean in E.
  destruct (stale_ e) eqn:Es; [done|]. rewrite (proj2 (Z.eqb_neq length 0)) in E by lia.
  destruct (negb _ || _) eqn:Eb in E; [done|]. apply orb_false_iff in Eb as [_ Eb%negb_false_iff].
  apply Z.eqb_eq in Eb. unfold checksum_blocked_locked in Eb.
  rewrite Es, (proj2 (Z.leb_gt _ _)), (proj2 (Z.eqb_neq length 0)) in Eb by lia. cbn [orb] in Eb.
  rewrite Z.min_l in Eb by lia. pose proof (inv_checks _ I) as K. pose proof (size_small _ (inv_geometry s I)).
  assert (Hm : checksum_manifest_ e = kChecksumAvailable) by (by apply (part_available s I i)).
  apply (blocked_zero (size_ e) 0 offset (offset + length) (checksum_parts_ e) (checksum_states_ e) (Z.to_nat i));
    [done|lia|by apply (ck_available _ K)|apply (ck_sizes _ K)|done| |].
  - unfold part_at. apply vget_lookup. unfold vsize in *. by rewrite <- (ck_lengths _ K).
  - rewrite <- Hst. unfold part_state. by apply vget_lookup.
Qed.

(** When the pins on a range have drained, the admitted replies are apart from it. *)
Lemma ready_apart offset length h :
  in_object e offset length -> retry_pins_ready_locked e offset length = true -> h ∈ admitted s ->
  h.1 + h.2 <= offset \/ offset + length <= h.1.
Proof.
  intros Hin Hready Hh. pose proof (inv_geometry s I) as G. pose proof (block_pos _ G).
  destruct (range_regions _ _ _ G Hin) as (Hf & Hlr & Hle & _). destruct Hin as (H1 & H2 & H3).
  destruct (pi_held _ _ (inv_pins _ I) h (admitted_held h Hh)) as (H4 & H5 & H6).
  destruct (Z.le_gt_cases (h.1 + h.2) offset) as [|Hl]; [by left|].
  destruct (Z.le_gt_cases (offset + length) h.1) as [|Hr]; [by right|]. exfalso.
  set (x := Z.max h.1 offset). assert (Hx : in_bytes x h) by (unfold in_bytes; lia).
  pose proof (reply_touches e (admitted s) h x ltac:(lia) Hh Hx) as Hp.
  pose proof (reply_pins_sub e _ _ (x / block_size_ e) (inv_admitted _ I)).
  unfold retry_pins_ready_locked in Hready. rewrite forallb_forall in Hready.
  assert (Hreg : first_region e offset <= x / block_size_ e < last_region e offset length).
  { rewrite Hlr. unfold first_region.
    pose proof (Z.div_le_mono offset x (block_size_ e) ltac:(lia) ltac:(lia)).
    pose proof (Z.div_le_mono x (offset + length - 1) (block_size_ e) ltac:(lia) ltac:(lia)). lia. }
  specialize (Hready _ ltac:(by apply list_elem_of_In, elem_of_zrange)). apply Z.leb_le in Hready.
  rewrite (pi_count _ _ (inv_pins _ I)) in Hready by lia. lia.
Qed.
End Spared.

(** ** Every operation keeps it *)

Lemma cleared_none s : checksum_states_ (entry s) = [] -> parts_spared s -> forall i, cleared s i = false.
Proof.
  intros E H i. destruct (cleared s i) eqn:Ec; [|done]. destruct (H i Ec) as (Hi & _).
  rewrite E in Hi. unfold vsize in Hi. cbn in Hi. lia.
Qed.

Lemma spared_none s s' : (forall i, cleared s i = false) -> (forall i, cleared s' i = cleared s i) -> parts_spared s'.
Proof. intros H Hc i Hi. by rewrite Hc, H in Hi. Qed.

Lemma spared_with s e' : same_parts (entry s) e' -> parts_spared s -> parts_spared (with_entry s e').
Proof. intros H. by apply spared_frame. Qed.

Lemma pinned_clean_spared s offset length :
  cache_inv s -> in_object (entry s) offset length -> parts_spared s -> parts_spared (exec (OpPinClean offset length) s).
Proof.
  intros I Hin H. cbn [exec]. destruct (pin_clean offset length (entry s)) as [e' r] eqn:E.
  assert (Hp : same_parts (entry s) e').
  { revert E. unfold pin_clean. repeat case_match; intros [= <- <-]; done. }
  destruct r as [[]|]; try (by apply (spared_frame s)). intros i Hi. destruct (H i Hi) as (Hr & Hst & Hh).
  destruct Hp as [Hp1 Hp2]. unfold part_state, part_at in *. cbn [entry with_held]. rewrite Hp1, Hp2.
  split; [done|]. split; [done|]. intros h [->|Hin']%elem_of_cons; [|by apply Hh].
  by apply (pin_clean_apart s I offset length e').
Qed.

Lemma pinned_spared s offset length :
  cache_inv s -> parts_spared s -> parts_spared (exec (OpPin offset length) s).
Proof.
  intros I H. cbn [exec]. pose proof (pin_parts offset length (entry s)) as Hp.
  destruct (pin offset length (entry s)) as [e' r]. cbn [fst] in Hp.
  destruct (is_dirty (entry s)) eqn:Hd.
  - apply (spared_none s); [|done]. apply cleared_none; [|done].
    destruct (ck_dirty _ (inv_checks _ I) Hd) as (_ & _ & Hm & _). by apply (empty_states _ (inv_checks _ I)).
  - rewrite andb_false_r. by apply (spared_frame s).
Qed.

Lemma unpinned_spared s admission offset length :
  allowed (OpUnpin admission offset length) s -> parts_spared s -> parts_spared (exec (OpUnpin admission offset length) s).
Proof.
  intros A. cbn [exec]. apply spared_frame; [apply unpin_parts| |done]. cbn [admitted with_held].
  destruct admission; [|done]. intros h Hh. by apply (elem_of_submseteq _ _ _ Hh), drop_held_less.
Qed.

Lemma manifest_spared s e' :
  cache_inv s -> checksum_manifest_ (entry s) = kChecksumLoading -> parts_spared s -> parts_spared (with_entry s e').
Proof.
  intros I Hm H. apply (spared_none s); [|done]. apply cleared_none; [|done].
  apply (empty_states _ (inv_checks _ I)). by rewrite Hm.
Qed.

Lemma claimed_spared s offset length skip :
  cache_inv s -> parts_spared s -> parts_spared (exec (OpClaimChecksum offset length skip) s).
Proof.
  intros I H. cbn [exec]. destruct (claim_checksum offset length skip (entry s)) as [e' r] eqn:E. cbn [fst].
  unfold claim_checksum in E. repeat (case_match; [by injection E as <- <-; apply spared_with|]).
  destruct (claim_checksum_loop_spec _ _ _ _ [] _ _ _ eq_refl E) as [->|(c & _ & Pc)]; [by apply spared_with|].
  destruct Pc as [Hi _ _ Hst _ _ ->].
  apply (spared_state s _ (cc_part c) kPartVerifying); try done.
  - unfold vsize in *. by rewrite (ck_lengths _ (inv_checks _ I)).
  - intros i Hc. split; [done|]. intros ->. destruct (H _ Hc) as (_ & Hr & _). by rewrite Hst in Hr.
Qed.

(** The part of the claim leaves [kPartVerifying]; it is not cleared then. *)
Lemma verifying_spared s c v :
  0 <= cc_part c < vsize (checksum_states_ (entry s)) -> part_state (entry s) (cc_part c) = kPartVerifying ->
  parts_spared s -> parts_spared (with_entry s (notify_waiters_locked (set_part_state (entry s) (cc_part c) v))).
Proof.
  intros Hi Hst H. apply (spared_with (with_entry s (set_part_state (entry s) (cc_part c) v))); [apply notify_parts|].
  apply (spared_state s _ (cc_part c) v); try done.
  intros i Hc. split; [done|]. intros ->. destruct (H _ Hc) as (_ & Hr & _). by rewrite Hst in Hr.
Qed.

Lemma mismatch_spared s c : 0 <= cc_part c -> parts_spared s -> parts_spared (exec (OpMismatch c) s).
Proof.
  intros Hc H. cbn [exec]. unfold checksum_mismatch. destruct (_ && _ && _ && _) eqn:E.
  - bool_case. by apply verifying_spared.
  - apply spared_with; [apply notify_parts|done].
Qed.

Lemma uncleared_spared c s : parts_spared s -> parts_spared (note_part c false s).
Proof.
  apply spared_frame; try done. intros i. cbn. unfold update. by destruct (_ =? _).
Qed.

Lemma begin_retry_spared s ev c :
  cache_inv s -> 0 <= cc_part c -> claims_part (entry s) c -> parts_spared s ->
  parts_spared (exec (OpBeginChecksumRetry ev c) s).
Proof.
  intros I Hc0 Hcl H. cbn [exec]. destruct (begin_checksum_retry_wait ev c (entry s)) as [e' r] eqn:E.
  pose proof (begin_checksum_retry_wait_inv s ev c e' r I Hc0 E) as I'.
  unfold begin_checksum_retry_wait, begin_checksum_retry_locked in E.
  destruct (_ || _ || _ || _) eqn:Eg in E; [by injection E as <- <-; apply uncleared_spared, spared_with|]. bool_case.
  assert (Hi : 0 <= cc_part c < vsize (checksum_states_ (entry s))) by lia.
  set (e1 := if part_state _ _ =? _ then _ else _) in E.
  assert (Hq : parts_spared (with_entry s e1) /\ part_state e1 (cc_part c) = kPartRetrying /\
    checksum_parts_ e1 = checksum_parts_ (entry s) /\ vsize (checksum_states_ e1) = vsize (checksum_states_ (entry s)) /\
    size_ e1 = size_ (entry s)).
  { unfold e1. destruct (Z.eqb_spec (part_state (entry s) (cc_part c)) kPartVerifying) as [Ev|Ev].
    - split; [by apply verifying_spared|].
      pose proof (notify_core (set_part_state (entry s) (cc_part c) kPartRetrying)) as [].
      unfold part_state. rewrite sc_states, sc_parts, sc_size. cbn. rewrite vsize_vset, vget_vset, Z.eqb_refl by lia. done.
    - split; [by apply spared_with|]. split; [|done].
      match goal with Hp : part_in_progress _ = true |- _ => unfold part_in_progress in Hp end. bool_case. lia. }
  destruct Hq as (Hs1 & Hst1 & Hp1 & Hv1 & Hz1). clearbody e1.
  destruct (retry_pins_ready_locked e1 _ _) eqn:Er.
  - injection E as <- <-. intros i Hi'. cbn in Hi'. unfold update in Hi'.
    destruct (Z.eqb_spec i (cc_part c)) as [Heq|Hne]; [subst i|by apply Hs1].
    change (entry (note_part c true (with_entry s e1))) with e1. split; [by rewrite Hv1|]. split; [done|]. intros h Hh.
    destruct (Hcl Hi) as [Ho Hsz]; [done|]. unfold part_at. rewrite Hp1. fold (part_at (entry s) (cc_part c)).
    unfold apart. rewrite <- Ho, <- Hsz. apply (ready_apart (with_entry s e1) I'); [|done|done].
    pose proof (parts_in_object s I _ (part_at_in s I _ Hi)) as Hin. rewrite <- Ho, <- Hsz in Hin.
    unfold in_object in *. cbn [entry]. by rewrite Hz1.
  - assert (r <> Ok false) by (unfold register_waiter in E; destruct (wait_fd_ e1), ev; congruence).
    pose proof (register_waiter_core ev e1) as S. rewrite E in S. cbn [fst] in S.
    destruct r as [[]|]; try done; by apply uncleared_spared, (spared_with (with_entry s e1)), Hs1; apply core_parts.
Qed.

Lemma ended_spared s c e' v :
  0 <= cc_part c ->
  same_parts (entry s) e' \/
  cc_part c < vsize (checksum_states_ (entry s)) /\ same_parts (set_part_state (entry s) (cc_part c) v) e' ->
  parts_spared s -> parts_spared (note_part c false (with_entry s e')).
Proof.
  intros Hc [Hp|[Hi [Hp1 Hp2]]] H; [by apply uncleared_spared, spared_with|].
  apply (spared_state s _ (cc_part c) v); try done.
  intros i. cbn. unfold update. destruct (Z.eqb_spec i (cc_part c)); done.
Qed.

Lemma drop_checksum_op_parts e : same_parts e (drop_checksum_op e).
Proof. unfold drop_checksum_op. by destruct (_ =? _). Qed.

Lemma finish_checksum_parts c valid e :
  same_parts e (finish_checksum c valid e) \/
  cc_part c < vsize (checksum_states_ e) /\
  same_parts (set_part_state e (cc_part c) (if valid then kPartVerified else kPartBad)) (finish_checksum c valid e).
Proof.
  unfold finish_checksum. destruct (_ || _) eqn:E1; [by left|].
  destruct (part_in_progress (part_state e (cc_part c))); cbn [negb]; [|by left]. bool_case.
  right. split; [done|]. eapply same_parts_trans; [|apply notify_parts].
  eapply same_parts_trans; [apply release_pins_parts|apply drop_checksum_op_parts].
Qed.

Lemma abandon_checksum_parts c e :
  same_parts e (abandon_checksum c e) \/
  cc_part c < vsize (checksum_states_ e) /\
  same_parts (set_part_state e (cc_part c) kPartUnverified) (abandon_checksum c e).
Proof.
  unfold abandon_checksum. destruct (_ || _) eqn:E1; [by left|].
  destruct (part_in_progress (part_state e (cc_part c))); cbn [negb]; [|by left]. bool_case.
  right. split; [done|]. eapply same_parts_trans; [|apply notify_parts].
  eapply same_parts_trans; [|apply drop_checksum_op_parts].
  by eapply same_parts_trans; [|apply release_pins_parts].
Qed.
#[local] Hint Resolve wait_core retire_core begin_retire_wait_core touch_core read_event_core end_async_wait_core
  core_parts publish_clean_parts rollback_fetch_parts mark_bad_parts pin_fetch_verification_parts finish_fetch_parts
  evict_one_region_parts try_export_parts begin_manifest_parts grow_mapping_parts begin_write_parts set_upload_id_parts
  isolate_write_parts commit_write_parts claim_fetch_parts begin_retry_wait_parts publish_dirty_parts : ngs3fs.

Lemma exec_spared op s : cache_inv s -> allowed op s -> parts_spared s -> parts_spared (exec op s).
Proof.
  intros I A H. destruct op; try done;
    try solve [apply (spared_frame s); [cbn [exec entry after]; eauto with ngs3fs|done..|done]].
  - by apply pinned_clean_spared.
  - by apply pinned_spared.
  - by apply unpinned_spared.
  - cbn [exec]. pose proof (claim_fetch_parts offset length expansion (entry s)) as Hp.
    destruct (claim_fetch _ _ _ _) as [e' r]. unfold note_claim.
    destruct r as [c|]; [destruct (_ =? _)|]; by apply (spared_frame s).
  - cbn [exec]. destruct (find_claim _ _); [|done]. by apply (spared_frame s).
  - cbn [exec]. pose proof (begin_retry_wait_parts eventfd c (entry s)) as Hp.
    destruct (begin_retry_wait _ _ _) as [e' r]. by apply (spared_frame s).
  - destruct A. by apply manifest_spared.
  - by apply manifest_spared.
  - by apply claimed_spared.
  - by apply mismatch_spared.
  - destruct A. by apply begin_retry_spared.
  - destruct A. apply (ended_spared s c _ (if valid then kPartVerified else kPartBad)); [done|apply finish_checksum_parts|done].
  - destruct A. apply (ended_spared s c _ kPartUnverified); [done|apply abandon_checksum_parts|done].
  - cbn [exec]. pose proof (publish_dirty_parts offset length (offset + length) (entry s)) as Hp.
    destruct (publish_dirty _ _ _ _) as [e' r]. destruct r; [|done]. by apply (spared_frame s).
Qed.

Lemma reachable_spared s : reachable s -> parts_spared s.
Proof.
  intros (s0 & Hi & Hs). assert (I : cache_inv s0) by (by apply cache_reachable_inv; exists s0).
  assert (H : parts_spared s0) by (destruct Hi; intros i Hc; by cbn in Hc).
  clear Hi. revert I H. induction Hs as [|x y z [op A] _ IH]; [done|]. intros I H.
  apply IH; [by apply exec_inv|by apply exec_spared].
Qed.
