(* ===== verification/CacheClaims.v ===== *)
(** * CacheEntry: what the clients are promised

    Consequences of the invariant of [CacheShared] for replies in flight, fetches, waiters and
    retirement. *)

From S2P Require Import Prelude CacheBitmap CacheCapacity CacheEntry CacheEntryLemmas CacheEntryInv.
From S2P Require Import CacheSteps CacheChecks CacheEvict CacheWrites CacheShared CacheReplies.

(** ** Replies in flight *)

(** The bytes of the data file that an operation overwrites or punches; for [OpReceive],
    [OpRewrite] and [OpPublishDirty], the bytes the caller has stored. *)
Definition writes (op : CacheOp) (s : CacheState) : list (Z * Z) :=
  let e := entry s in
  match op with
  | OpReceive c n =>
      match find_claim c (active_claims_ e) with
      | Some a => [(fetch_offset a + received s (fetch_id a), n)]
      | None => []
      end
  | OpRewrite c o n => [(o, n)]
  | OpFinish c => holes_since e (finish_fetch c e)
  | OpEvict config io => holes_since e (evict_one_region config io e).1
  | OpPublishDirty o n =>
      match (publish_dirty o n (o + n) e).2 with Ok _ => [(o, n)] | Throw _ => [] end
  | _ => []
  end.



Section Replies.
Context (s : CacheState) (I : cache_inv s).
#[local] Abbreviation e := (entry s).






End Replies.



(** The second block is being fetched while a reply reads the first. *)
Definition second_claim : CacheFetchClaim :=
  {| claim_offset := 32768; claim_epoch := 1; claim_id := 2; claim_length := 32768 |}.



(** A part with a wrong checksum is fetched again: its only retry may store it. *)
Definition whole_claim : CacheFetchClaim :=
  {| claim_offset := 0; claim_epoch := 1; claim_id := 1; claim_length := 65536 |}.
Definition whole_part : CacheChecksumPart :=
  {| part_offset := 0; part_size := 65536; part_algorithm := 0; part_value := lit "sum" |}.
Definition part_claim : CacheChecksumClaim :=
  {| cc_action := CACHE_CHECKSUM_VERIFY; cc_offset := 0; cc_size := 65536; cc_epoch := 1; cc_part := 0;
     cc_algorithm := 0; cc_value := lit "sum" |}.
Definition part_ops : list CacheOp :=
  [OpClaimFetch 0 65536 0; OpReceive whole_claim 65536; OpPublish whole_claim 0 65536 true; OpFinish whole_claim;
   OpBeginManifest false; OpFinishManifest [whole_part]; OpClaimChecksum 0 100 false; OpMismatch part_claim;
   OpBeginChecksumRetry None part_claim].

Lemma part_retry_stores :
  reachable (run part_ops sample_state) /\ allowed (OpRewrite part_claim 0 65536) (run part_ops sample_state).
Proof.
  split.
  - apply sample_reachable. repeat split; try (vm_compute; congruence); try check_claim.
    intros p ->%list_elem_of_singleton. vm_compute. congruence.
  - repeat split; vm_compute; congruence.
Qed.

(** A recovered write is committed and a block of it evicted, and another reader fetches it again.
    A handle that was opened to read the recovered write still pins the block: it reads bytes that
    are not stored, and the response is stored under its pin. *)
Definition recovered_state : CacheState :=
  opened (make_CacheEntry sample_limits [] true (mkCacheMetaHeader kCacheMetaDirty 65536 0 65536 [] [] [] 65536 0) [10] 1 65536 false)
    (fun _ => true).
Definition evict_io : EvictIo := {| blocks_before := Some 128; punch_ok := true; blocks_after := Some 64 |}.
Definition recovered_ops : list CacheOp :=
  [OpCommit {| id_key := []; id_etag := []; id_version_id := []; id_size := 65536; id_mtime := 0 |} None;
   OpEvict sample_limits evict_io; OpClaimFetch 0 100 0; OpPin 0 100].

Lemma recovered_reader_not_spared :
  let s := run recovered_ops recovered_state in
  reachable s /\ held s = [(0, 100)] /\ stored s 0 = false /\
  allowed (OpReceive sample_claim 32768) s /\ writes (OpReceive sample_claim 32768) s = [(0, 32768)].
Proof.
  intros s. split; [|repeat split; try (vm_compute; congruence); check_claim].
  exists recovered_state. split.
  - apply initial_opened; [by repeat split|done|]. intros _. split; [done|]. intros q Hq Hs.
    rewrite unit_value in Hs. assert (q = 0 \/ q = 1) as [->| ->] by lia; done.
  - apply run_steps. repeat split; vm_compute; congruence.
Qed.

(** C37: What [orderly] excludes does happen.  A reply has pinned a block whose verification
    fails; the retry quarantines the block and waits for the reply; the generation is retired
    meanwhile, so that [begin_retry] throws [ESTALE].  The error path then ends the fetch with
    [fail_fetch], which punches the block although the reply still holds its pin. *)
Theorem abandoned_retry_punches_reply :
  exists w h x,
    reachable (run retry_ops sample_state) /\
    (begin_retry_wait None sample_claim (entry (run retry_ops sample_state))).2 =
      Throw (SystemError ESTALE) /\
    allowed (OpFinish sample_claim) (run retry_ops sample_state) /\
    w ∈ writes (OpFinish sample_claim) (run retry_ops sample_state) /\
    h ∈ admitted (run retry_ops sample_state) /\ in_bytes x h /\ in_bytes x w.
Proof.
  exists (0, 32768), (0, 100), 50.
  split; [apply sample_reachable, retry_ops_allowed|]. split; [vm_compute; done|].
  split; [done|]. split; [vm_compute; left|]. split; [vm_compute; left|].
  split; vm_compute; split; congruence.
Qed.

(** ** Claiming missing ranges *)

Lemma block_free_unblocked e block :
  geometry e -> 0 <= block < size_ e -> block mod block_size_ e = 0 ->
  block_free e block -> block_blocked e block = false.
Proof.
  intros G Hb Hm [Hp Hs]. unfold block_blocked. rewrite Hp, andb_false_r. cbn [orb].
  destruct (existsb _ _) eqn:E; [|done]. exfalso.
  apply existsb_exists in E as (q & Hq%list_elem_of_In & Hst).
  apply (elem_block_pages e G block q Hb Hm) in Hq as [Hq0 Hq].
  destruct (Hs q Hq0 Hq) as [E|E]; rewrite E in Hst; done.
Qed.

Lemma claim_scan_free fuel e start limit :
  geometry e -> 0 <= start < limit -> limit <= size_ e -> start mod block_size_ e = 0 ->
  limit = size_ e \/ limit mod block_size_ e = 0 ->
  limit - start <= Z.of_nat (S fuel) * block_size_ e ->
  block_free e start -> start < claim_scan (S fuel) e start start limit.
Proof.
  intros G Hs Hl Hm Hle Hf Hfree. pose proof (block_pos _ G). pose proof (size_small _ G).
  pose proof (geo_block _ G). cbn [claim_scan].
  rewrite (proj2 (Z.ltb_lt _ _)), block_free_unblocked, Z.eqb_refl by (done || lia). cbn [negb orb andb].
  rewrite Z.gtb_ltb. destruct (Z.ltb_spec (UINT64_MAX - block_size_ e) start); [lia|].
  destruct (Z.le_gt_cases (start + block_size_ e) limit) as [Hn|Hn].
  - destruct (claim_scan_spec e G fuel start (start + block_size_ e) limit) as (J & _); try done; try lia.
    + rewrite Z.add_mod, Hm, Z.mod_same by lia. by apply Z.mod_0_l; lia.
  - destruct fuel as [|fuel]; cbn [claim_scan]; [lia|].
    rewrite (proj2 (Z.ltb_ge _ _)) by lia. lia.
Qed.

(** The first page of a wanted range that is not clean. *)
Definition first_gap (e : CacheEntry) (offset length missing : Z) : Prop :=
  offset / U <= missing <= (offset + Z.min length (size_ e - offset) - 1) / U /\
  state_at e missing = CACHE_PAGE_MISSING /\
  forall q, offset / U <= q < missing -> state_at e q = CACHE_PAGE_CLEAN.

Lemma first_missing_gap e a b p :
  a <= p < b -> state_at e p = CACHE_PAGE_MISSING ->
  (forall q, a <= q < p -> state_at e q = CACHE_PAGE_CLEAN) -> first_missing e (zrange a b) = Some p.
Proof.
  remember (Z.to_nat (p - a)) as n eqn:En. revert a En.
  induction n as [|n IH]; intros a En Ha Hp Hc; rewrite zrange_cons by lia; cbn.
  - assert (a = p) as -> by lia. by rewrite Hp.
  - rewrite Hc by lia. apply IH; try done; try lia. intros q Hq. apply Hc. lia.
Qed.

Section ClaimFetch.
Context (e : CacheEntry) (G : geometry e) (offset length expansion missing : Z)
  (Hstale : stale_ e = false) (Hd : dirty_or_exported e = false)
  (Ho : 0 <= offset < size_ e) (Hl : 0 < length) (Hx : 0 <= expansion)
  (Hgap : first_gap e offset length missing).
#[local] Abbreviation start := (block_of e (missing * U)).

Lemma gap_found : first_missing e (zrange (first_page_of offset)
    (last_page_of offset (Z.min length (size_ e - offset)) + 1)) = Some missing.
Proof.
  destruct Hgap as (H1 & H2 & H3). pose proof (size_small _ G).
  apply first_missing_gap; [|done|done]. rewrite last_page_small by lia. unfold first_page_of. lia.
Qed.

Lemma gap_block : 0 <= start <= missing * U /\ missing * U < size_ e /\ start mod block_size_ e = 0.
Proof.
  destruct Hgap as (H1 & _). pose proof (block_pos _ G).
  assert (0 <= missing * U) by (rewrite unit_value in *; Z.to_euclidean_division_equations; lia).
  destruct (block_of_spec e G (missing * U)) as [Hm Hb]. split; [split; [|lia]|split; [|done]].
  - unfold block_of. apply Z.mul_nonneg_nonneg; [apply Z.div_pos; lia|lia].
  - rewrite unit_value in *. Z.to_euclidean_division_equations; lia.
Qed.

(** A free block is claimed. *)
Lemma claim_fetch_free e' r :
  block_free e start -> claim_fetch offset length expansion e = (e', r) ->
  exists c, r = Ok c /\ claim_length c <> 0.
Proof.
  intros Hfree E. destruct gap_block as (Hs & Hsz & Hm). pose proof (block_pos _ G).
  unfold claim_fetch in E. rewrite Hstale, Hd, orb_false_r in E.
  rewrite (proj2 (Z.eqb_neq length 0)), (proj2 (Z.leb_gt (size_ e) offset)) in E by lia. cbn [orb] in E.
  rewrite gap_found in E. fold (block_of e (missing * U)) in E.
  destruct (claim_limit_spec e G start (offset + Z.min length (size_ e - offset)) expansion)
    as (L1 & L2 & L3); [lia..|].
  set (limit := claim_limit _ _ _ _) in *.
  replace (Z.to_nat (limit / block_size_ e + 1)) with (S (Z.to_nat (limit / block_size_ e))) in E
    by (pose proof (Z.div_pos limit (block_size_ e)); lia).
  assert (Hlast : start < claim_scan (S (Z.to_nat (limit / block_size_ e))) e start start limit).
  { apply claim_scan_free; try done; try lia. rewrite Nat2Z.inj_succ, Z2Nat.id by (apply Z.div_pos; lia).
    pose proof (Z.div_mod limit (block_size_ e) ltac:(lia)).
    pose proof (Z.mod_pos_bound limit (block_size_ e) ltac:(lia)). nia. }
  set (last := claim_scan _ _ _ _ _) in E, Hlast. clearbody last.
  rewrite (proj2 (Z.leb_gt _ _)) in E by done. unfold install_claim in E. destruct (fresh_id e). injection E as <- <-.
  eexists. split; [done|]. cbn. lia.
Qed.
End ClaimFetch.

(** [claim_fetch] claims exactly what may be fetched.  For a range whose first page that is
    not clean is missing: when the block of that page has no pins and no pending or bad page,
    the claim is not empty, starts at that block, covers the page, consists of whole blocks (or
    ends with the object), every page it covers was clean or missing in an unpinned block and
    is now pending, and no other page changes; when the block is not free, nothing is claimed
    and nothing changes. *)
Theorem claim_fetch_exact e offset length expansion missing e' r :
  geometry e -> stale_ e = false -> dirty_or_exported e = false ->
  0 <= offset < size_ e -> 0 < length -> 0 <= expansion ->
  first_gap e offset length missing ->
  claim_fetch offset length expansion e = (e', r) ->
  exists c, r = Ok c /\
  (block_free e (block_of e (missing * kCacheBitmapUnit)) ->
   claim_offset c = block_of e (missing * kCacheBitmapUnit) /\ claim_length c > 0 /\
   (claim_offset c + claim_length c = size_ e \/ claim_length c mod block_size_ e = 0) /\
   claim_offset c <= missing * kCacheBitmapUnit < claim_offset c + claim_length c /\
   claim_offset c + claim_length c <= size_ e /\
   forall q, 0 <= q ->
     if (claim_offset c <=? q * kCacheBitmapUnit) &&
        (q * kCacheBitmapUnit <? claim_offset c + claim_length c)
     then (state_at e q = CACHE_PAGE_CLEAN \/ state_at e q = CACHE_PAGE_MISSING) /\
          state_at e' q = CACHE_PAGE_READ_PENDING
     else state_at e' q = state_at e q) /\
  (~ block_free e (block_of e (missing * kCacheBitmapUnit)) -> e' = e /\ claim_length c = 0).
Proof.
  intros G Hstale Hd Ho Hl Hx Hgap E.
  destruct (claim_fetch_spec e G offset length expansion e' r ltac:(lia) ltac:(lia) Hx E)
    as [[-> Hr]|(c & a & m & -> & Cl & _ & _ & Hfm & Hao & Hcov)].
  - assert (r = Ok no_claim) as ->.
    { destruct Hr as [->|]; [|done]. unfold claim_fetch in E. rewrite Hstale in E.
      destruct (_ || _) in E; [done|]. destruct (first_missing _ _) in E; [|done].
      destruct (_ <=? _) in E; [done|]. destruct (install_claim _ _ _); done. }
    exists no_claim. split; [done|]. split; [|done]. intros Hfree.
    destruct (claim_fetch_free e G offset length expansion missing Hstale Hd Ho Hl Hx Hgap _ _ Hfree E)
      as (c & [= <-] & Hc). done.
  - exists c. split; [done|].
    rewrite (gap_found e G offset length missing Ho Hl Hgap) in Hfm. injection Hfm as <-.
    pose proof (cl_ok _ _ _ _ Cl) as F. pose proof (block_pos _ G).
    pose proof (proj1 (is_claim_spec _ _) (cl_match _ _ _ _ Cl)) as (_ & _ & Hco & Hcl).
    split; [|intros Hn; destruct Hn; rewrite <- Hao].
    + intros _. rewrite <- Hco, <- Hcl, Hao. split; [done|]. split; [pose proof (fok_length _ _ F); lia|].
      rewrite <- Hao. destruct Hcov as [Hc1 Hc2]. unfold fetch_end in *.
      split; [destruct (fok_end _ _ F) as [He|He]; [by left|right]|split; [done|split]].
      * replace (fetch_length a) with (fetch_end a - fetch_offset a) by (unfold fetch_end; lia).
        rewrite Zminus_mod, He, (fok_align _ _ F). by apply Z.mod_0_l; lia.
      * pose proof (fok_inside _ _ F). unfold fetch_end in *. lia.
      * intros q Hq. destruct (_ && _) eqn:Eq; bool_case.
        -- assert (Hcq : covers a q) by (split; unfold fetch_end; lia).
           split; [|by apply (cl_painted _ _ _ _ Cl)].
           destruct (claimed_block e e' c a q G Cl Hq Hcq) as ([_ Hst] & _ & _ & Hb). by apply Hst.
        -- apply (cl_others _ _ _ _ Cl); [done|]. intros [Hq1 Hq2]. unfold fetch_end in Hq2.
           apply andb_false_iff in Eq as [Eq|Eq]; bool_case; lia.
    + apply (cl_free _ _ _ _ Cl); [|apply (fok_align _ _ F)].
      pose proof (fok_length _ _ F). unfold fetch_end. lia.
Qed.

Lemma claim_fetch_exact_witness :
  let e := entry sample_state in
  exists c, (claim_fetch 100 50 0 e).2 = Ok c /\ claim_offset c = 0 /\ claim_length c > 0.
Proof.
  intros e.
  destruct (claim_fetch_exact e 100 50 0 0 (claim_fetch 100 50 0 e).1 (claim_fetch 100 50 0 e).2)
    as (c & E & H & _).
  - apply inv_geometry, (cache_reachable_inv (run [] sample_state)), (sample_reachable []). done.
  - done.
  - done.
  - vm_compute. split; congruence.
  - done.
  - done.
  - split; [vm_compute; split; congruence|]. split; [done|]. intros q Hq. change (0 <= q < 0) in Hq. lia.
  - apply surjective_pairing.
  - exists c. split; [exact E|]. destruct H as (H1 & H2 & _).
    + split; [done|]. intros q Hq [_ Hs]. change (q * 32768 < 32768) in Hs.
      assert (q = 0) as -> by lia. by right.
    + split; [exact H1|exact H2].
Defined.

(** ** Rolling back *)

Lemma find_claim_snoc c a l :
  is_claim c a = true -> (forall b, b ∈ l -> is_claim c b = false) ->
  find_claim c (l ++ [a]) = Some a /\ erase_claim c (l ++ [a]) = l.
Proof.
  intros Ha. induction l as [|x l IH]; intros Hl; cbn; [by rewrite Ha|].
  rewrite Hl by set_solver. destruct IH as [-> ->]; [|done]. intros b Hb. apply Hl. set_solver.
Qed.

(** Claiming and rolling back is the identity.  When [rollback_fetch] gives back a claim
    before anything of it was published, every page has the state it had before
    [claim_fetch], and the fetches and pins are what they were: a request that could not be
    sent leaves no trace but a used id. *)
Theorem claim_rollback_roundtrip s offset length expansion e' c :
  reachable s -> 0 <= offset -> 0 <= length -> 0 <= expansion ->
  next_claim_id_ (entry s) + 1 < 2 ^ 64 ->
  claim_fetch offset length expansion (entry s) = (e', Ok c) -> claim_length c <> 0 ->
  let e'' := rollback_fetch c e' in
  (forall q, 0 <= q -> state_at e'' q = state_at (entry s) q) /\
  active_claims_ e'' = active_claims_ (entry s) /\ region_pins_ e'' = region_pins_ (entry s) /\
  pinned_regions_ e'' = pinned_regions_ (entry s).
Proof.
  intros I%cache_reachable_inv Ho Hl Hx Hn E Hc e''. pose proof (inv_geometry s I) as G.
  destruct (claim_fetch_spec _ G offset length expansion e' (Ok c) Ho Hl Hx E)
    as [[_ [Hr|[= ->]]]|(c' & a & m & [= <-] & Cl & _ & Hd & _)]; [done|done|].
  destruct (claimed_fields s I e' c a Cl Hn) as (Ha & Hs & Hb & Hp & Ht & _).
  assert (Hfresh : forall b, b ∈ active_claims_ (entry s) -> is_claim c b = false).
  { intros b Hin. destruct (is_claim c b) eqn:Ec; [|done]. exfalso.
    apply (claimed_fresh s I e' c a Cl Hn b Hin). apply is_claim_spec in Ec as [-> _].
    by destruct (proj1 (is_claim_spec _ _) (cl_match _ _ _ _ Cl)) as [-> _]. }
  destruct (find_claim_snoc c a _ (cl_match _ _ _ _ Cl) Hfresh) as [Ef Ee].
  pose proof (claimed_claims s I e' c a Cl Hn) as C'.
  assert (Ef' : find_claim c (active_claims_ e') = Some a) by by rewrite Ha.
  destruct (find_found _ _ _ Ef') as (pre & post & Fd).
  assert (F' : fetch_ok e' a) by (apply (ci_fetches _ C'); rewrite Ha; set_solver).
  pose proof (fun q => rollback_pages e' c a pre post q (ci_geometry _ C') F' Fd) as Hst.
  unfold e'', rollback_fetch. rewrite Ef'. set (ws := restore_pages _ _ _ _) in *.
  unfold end_fetch_locked. change (active_claims_ (e' <| words_ := ws |>)) with (active_claims_ e').
  rewrite Ef', (proj1 (cl_plain _ _ _ _ Cl)). cbn [fst].
  lazymatch goal with |- context [notify_waiters_locked ?x] =>
    destruct (notify_core x) as [_ _ Hw _ _ _ _ _ Hpi Hac _ _ _ _ Htp _] end.
  split; [|rewrite Hac, Hpi, Htp; cbn; by rewrite Ha, Ee, Hp, Ht].
  intros q Hq. unfold state_at at 1. rewrite Hw.
  etransitivity; [apply (Hst q Hq)|]. destruct (decide (owns a q)) as [Hown|Hown].
  - apply (cl_prior _ _ _ _ Cl); [done|]. by apply (fetch_ok_covers e').
  - apply (cl_others _ _ _ _ Cl); [done|]. intros [Hc1 Hc2]. apply Hown. split; [|done].
    rewrite (cl_published _ _ _ _ Cl). lia.
Qed.

Lemma claim_rollback_roundtrip_witness :
  let e := entry (run fetch_ops sample_state) in
  state_at (rollback_fetch second_claim (claim_fetch 40000 100 0 e).1) 1 = state_at e 1.
Proof.
  intros e.
  refine (proj1 (claim_rollback_roundtrip (run fetch_ops sample_state) 40000 100 0
    (claim_fetch 40000 100 0 e).1 second_claim _ _ _ _ _ _ _) 1 _).
  - apply sample_reachable. repeat split; try (vm_compute; congruence); try check_claim.
  - lia.
  - lia.
  - lia.
  - vm_compute. reflexivity.
  - vm_compute. reflexivity.
  - vm_compute. congruence.
  - lia.
Defined.

(** ** Retirement *)




(** A retired generation: stale, and without users. *)
Record retired (e : CacheEntry) : Prop := {
  ret_stale : stale_ e = true;
  ret_claims : active_claims_ e = [];
  ret_ops : checksum_ops_ e = 0;
  ret_pins : pinned_regions_ e = 0;
}.


Lemma retired_notify e : retired e -> retired (notify_waiters_locked e).
Proof.
  intros [H1 H2 H3 H4]. unfold notify_waiters_locked.
  destruct (wait_fd_ e); [destruct (_ =? _)|]; by constructor.
Qed.

Lemma retired_register ev e : retired e -> retired (register_waiter ev e).1.
Proof. intros [H1 H2 H3 H4]. unfold register_waiter. destruct (wait_fd_ e), ev; by constructor. Qed.
#[local] Hint Resolve retired_notify retired_register : ngs3fs.





